(* ===== verification/_CoqProject ===== *)
-Q . S2P
Prelude.v
RustStd.v
Types.v
Cbor.v
Tree.v
Object.v
Contribution.v
Provenance.v
Cap.v
TreeStore.v
ObjectStore.v
Store.v
Overlay.v
Namespace.v
History.v
Merge.v
Graph.v
Protocol.v
Catalog.v
Refs.v
Sessions.v
CatAudit.v
Events.v
CatalogInv.v
Publish.v
Staging.v
Group.v
Authority.v
Gc.v
GcSafety.v
Plane.v
Forge.v
Growth.v
Receipts.v
Workspace.v
WorkspaceReads.v
Checkin.v
Integration.v
Seal.v
Sound.v
Api.v
Integrate.v
Moves.v
Repository.v
Import.v
Life.v
Export.v
Disk.v
Barrier.v
StagedRead.v
Fsck.v
FsckAudit.v
Serve.v
