(* ===== verification/Prelude.v ===== *)
(** * ForgeFS verification: root of the development

    ForgeFS keeps versioned file trees for agents: content-addressed objects
    under a catalog (SQLite) of refs, sessions and staged rows, used through
    capabilities.  This library models the program's own logic, from bytes to
    whole API calls, and proves what each layer promises to the next.

    ** How the parts fit together, and where each is modelled

    Values and encodings (crates/forge-types, forge-core, forge-cap,
    forge-protocol):
    - [RustStd] the operations of [core]/[std] the sources call; [Types]
      identifiers, kinds and errors (forge-types lib.rs);
    - [Cbor] the canonical CBOR subset (forge-core cbor.rs); [Tree] trees in
      memory and [Overlay] the fold [apply_overlay] (tree.rs); [Object] the
      object files and their codecs (object.rs); [Contribution] receipts
      (contribution.rs); [Provenance] manifests (provenance.rs);
    - [Cap] capabilities (forge-cap lib.rs); [Protocol] messages and frames
      (forge-protocol lib.rs).

    The object plane (crates/forge-store):
    - [TreeStore] the trait the tree algorithms are written against, with its
      laws; [ObjectStore] the two-phase publication contract and its in-memory
      model (objectstore.rs, memory.rs); [Store] the typed store behind its
      caches (lib.rs); [Graph] the bounded, verified walk (graph.rs); [Plane]
      the interface [Repo]/[RepoLaws] that [Forge] uses, with its instance.

    The catalog (crates/forge-store/src/meta.rs):
    - [Catalog] the tables and ref names; [Refs] and [Sessions] the operations,
      each the statements of its transaction in order; [CatAudit] the audit;
      [Events] the abstract machine of guarded events that every operation
      refines ([run_steps]); [CatalogInv], [Publish], [Staging] what follows
      for every history; [Group] group commit.

    Algorithms (crates/forge-ns, forge-merge):
    - [Namespace] mounts and reads through an overlay; [History] merge bases;
      [Merge] the three-way merge.

    The API (crates/forge-api):
    - [Authority] (authority.rs), [Forge] (refs.rs), [Workspace]
      (workspace.rs), [Integration] (integration.rs), [Gc] (gc.rs), [Repository]
      (init of repository.rs); the theorems are in [Receipts],
      [WorkspaceReads], [Checkin], [Seal], [GcSafety].
    - [Growth], [Sound], [Api], [Integrate], [Moves]: one invariant of the whole
      repository; [Life]: every call of its type [ApiCall], import among them,
      keeps it, when it is made with the care that [careful] asks.  A sweep of
      [Gc] is not among the calls: it may take the parents of a young commit
      that nothing names, and the invariant is about every stored commit; what
      a sweep keeps is in [GcSafety].

    State is passed explicitly: [stateM E S A] of this file is a function from a
    state to an outcome ([Ok], [Err] or [Panic]) and a state; [wp] is its
    precondition calculus.  A [Forge] is the pair of a store and a catalog.
    Components meet at classes ([TreeStore], [CommitStore], [Repo], [Lru],
    [Blake3], [Hmac], [Ed25519], with their [..Laws]): a client is proved
    against the class, the implementation discharges the laws.

    The file systems:
    - [Disk] the object store on a disk that can lose what was not synced, with
      any call failing (LocalBlobStore and PublishBatch of blob.rs); [StagedRead]
      the reader of blobs for staged output and [Barrier] the shared barrier of
      the same file;
    - [Import] and [Export] (import.rs, export.rs): a host directory that may
      change under the walk, and an archive whose writing may fail.

    Outside the API:
    - [Fsck], [FsckAudit] the audit of a repository (fsck.rs): the walk, both
      collections of roots, the report;
    - [Serve] the daemon (serve.rs): a request as one call of the API, a
      connection as the bytes that arrive, HTTP, the admission queue.

    ** What the theorems show

    - Bytes: every decoder accepts exactly the encodings of valid values (no
      second spelling of an object exists), and no decoder panics, on any input.
    - Trees: [apply_overlay], the reads through an overlay, and the three-way
      merge against one reference, which file is at which path.
    - Objects: the typed store behind its caches answers as without them; a
      batch that finished is durable; the walk of the graph is exact.
    - Catalog: along every history whose callers meet their obligations
      ([Events.obligations]) the audit is clean, refs refine a three-state life,
      retired names stay retired, staged paths of a mount are the files of one
      tree; a checkin moves its head or forks, unless the name of the fork is
      not a valid one or is taken.
    - API: a checkin commits exactly the staged files over its pin, a seal
      verifies from then on, a receipt and a tag are accepted exactly when
      everything they claim is there; the collector takes garbage only, and all
      of it; and after [init] and careful calls, in any order and with any
      failures, every row and every commit names stored objects of the right
      types.  What attenuation makes of a capability stays within its limits,
      and within its operations when it names some.
    - Disk: opening makes the store ready from whatever a crash left; a batch
      that finished on a ready store, under any barrier policy and with others
      that are calm, survives any later crash; a caller of the shared barrier is
      covered by a barrier begun after its call.
    - Import and export: on a directory at rest import publishes exactly its
      files; whatever the host answers it opens nothing outside the directory
      and keeps the repository sound; an export puts a whole archive in place
      or nothing, and what was imported comes out again.
    - Audit and daemon: a full fsck finds nothing exactly when the repository is
      healthy, and tells of exactly the damage its walk can reach; a request is
      one call and its answer, field by field, or a refusal that changes
      nothing; frames are answered in order.

    ** Bounds and fuel

    Structural recursion is used where the code recurses on data.  Loops of the
    code are [m_while] with a budget of turns (a [positive]) or take [fuel]; the
    theorems show the budget is never the limit: [graph_budget] (2^68 turns;
    a walk schedules at most eight constraints for each of at most 2^64
    objects), [ancestry_budget] (2^31 turns, histories that fit in memory),
    [intro_fuel] and [overlay_fuel] (computed from the input), and for the merge
    "some fuel is enough, and any more gives the same conclusion".  Running out
    is [Panic], and the theorems exclude [Panic].  u64 and usize are [Z] with
    their range written out where the code depends on it.

    ** Assumptions, stated as classes and hypotheses

    BLAKE3 and HMAC are functions; that two stored objects do not collide is an
    explicit fault of guarded stores ([Plane]), not an axiom.  Ed25519 verifies
    what it signed.  The LRU map is the documented one.  The clock, the ULIDs
    and what other processes do at the barriers of a call are arguments.  SQL
    statements do what their text says on the tables, in transactions.

    ** Not modelled, and why

    - Input and output proper: opening and migrating the SQLite file and its
      physical audit (meta.rs), locks and paths of repository.rs, the sockets and
      threads of serve.rs, the command line, benchmarks, soak tests, metrics and
      counters, which compute nothing the rest depends on.
    - The text of messages: a [format!] whose text is not stored or compared is
      its template.  [Receipt::render] and [show] only format.
    - Collector lock and failpoints of blob.rs: the exclusion between a sweep
      and publications is a premise on what others do in [Disk].
    - JSON text, tar bytes, Unicode tables and directory listings come from
      other crates or the system: parameters, with what is relied on as laws.
    - Test hooks ([FORGEFS_TEST_*]) and debug-only code. *)

From Stdlib Require Export ZArith Lia Strings.Byte.
From Stdlib Require Strings.String.
From stdpp Require Export base list gmap sorting.

Export String.StringSyntax.
#[global] Delimit Scope string_scope with string.

#[global] Open Scope Z_scope.
Set Default Proof Using "Type".

(** ** Bytes and byte strings

    A Rust [u8] is a [byte]; a [Vec<u8>]/[&[u8]] is a [list byte]; a
    [String]/[&str] is the list of its UTF-8 bytes, which is what every
    comparison, length and slice of the source works on. *)

Abbreviation bytes := (list byte).
Abbreviation str := (list byte).

(** A string literal of the source. *)
Definition bs (s : String.string) : bytes := String.list_byte_of_string s.
Arguments bs _%_string.

#[export] Instance byte_eq_dec : EqDecision byte := Byte.byte_eq_dec.

#[export] Program Instance byte_countable : Countable byte :=
  inj_countable' (fun b => N.to_nat (Byte.to_N b))
                 (fun n => default x00 (Byte.of_N (N.of_nat n))) _.
Next Obligation. intros b. cbn. by rewrite N2Nat.id, Byte.of_to_N. Qed.

(** [b as u64]: the value of a byte. *)
Definition b2z (b : byte) : Z := Z.of_N (Byte.to_N b).

(** [z as u8]: truncation to the low eight bits. *)
Definition u8 (z : Z) : byte :=
  default x00 (Byte.of_N (Z.to_N (z mod 256))).

Definition len {A} (l : list A) : Z := Z.of_nat (length l).

Lemma b2z_range b : 0 <= b2z b < 256.
Proof. unfold b2z. pose proof (Byte.to_N_bounded b). lia. Qed.

Lemma b2z_u8 z : b2z (u8 z) = z mod 256.
Proof.
  unfold b2z, u8. pose proof (Z.mod_pos_bound z 256 ltac:(lia)) as Hz.
  destruct (Byte.of_N (Z.to_N (z mod 256))) as [b|] eqn:E; simpl.
  - apply Byte.to_of_N in E. rewrite E. lia.
  - apply Byte.of_N_None_iff in E. lia.
Qed.

Lemma u8_b2z b : u8 (b2z b) = b.
Proof.
  unfold u8, b2z. pose proof (Byte.to_N_bounded b).
  rewrite Z.mod_small by lia. by rewrite N2Z.id, Byte.of_to_N.
Qed.

#[export] Instance b2z_inj : Inj (=) (=) b2z.
Proof. intros a b H. by rewrite <- (u8_b2z a), H, u8_b2z. Qed.

(** ** Machine widths (a 64-bit target, as the released binaries are) *)

Definition u8_max : Z := 255.
Definition u16_max : Z := 65535.
Definition u32_max : Z := 4294967295.
Definition u64_max : Z := 18446744073709551615.
Definition usize_max : Z := u64_max.

Definition in_u64 (z : Z) : Prop := 0 <= z <= u64_max.

(** ** Length arithmetic *)

Lemma len_nil {A} : len (@nil A) = 0.
Proof. done. Qed.
Lemma len_cons {A} (x : A) l : len (x :: l) = 1 + len l.
Proof. unfold len. simpl. lia. Qed.
Lemma len_app {A} (l k : list A) : len (l ++ k) = len l + len k.
Proof. unfold len. rewrite length_app. lia. Qed.
Lemma len_nonneg {A} (l : list A) : 0 <= len l.
Proof. unfold len. lia. Qed.
Lemma to_nat_len {A} (l : list A) : Z.to_nat (len l) = length l.
Proof. unfold len. lia. Qed.
Lemma len_0 {A} (l : list A) : len l = 0 -> l = [].
Proof. destruct l; [done|rewrite len_cons]. pose proof (len_nonneg l). lia. Qed.

(** [lens]: put every length in the goal and context in the form [lia] decides. *)
Ltac lens :=
  repeat rewrite ?len_nil, ?len_cons, ?len_app in *;
  repeat match goal with
  | |- context [len ?l] =>
      lazymatch goal with
      | _ : 0 <= len l |- _ => fail
      | _ => pose proof (len_nonneg l)
      end
  | _ : context [len ?l] |- _ =>
      lazymatch goal with
      | _ : 0 <= len l |- _ => fail
      | _ => pose proof (len_nonneg l)
      end
  end.
Ltac lens_lia := lens; lia.

(** ** Outcomes of a Rust function

    A call returns a value, returns an error through [Result], or panics (a
    failed [expect], an index or a slice out of range).  [Panic] is kept apart
    from [Err] so that freedom from panics is a theorem and not an assumption
    of the model. *)

Inductive outcome (E A : Type) : Type :=
| Ok (a : A)
| Err (e : E)
| Panic.
Arguments Ok {E A} a.
Arguments Err {E A} e.
Arguments Panic {E A}.

#[export] Instance outcome_ret {E} : MRet (outcome E) := fun A a => Ok a.
#[export] Instance outcome_bind {E} : MBind (outcome E) := fun A B f m =>
  match m with Ok a => f a | Err e => Err e | Panic => Panic end.
#[export] Instance outcome_fmap {E} : FMap (outcome E) := fun A B f m =>
  match m with Ok a => Ok (f a) | Err e => Err e | Panic => Panic end.

#[export] Instance outcome_eq_dec {E A} `{EqDecision E, EqDecision A} :
  EqDecision (outcome E A).
Proof. solve_decision. Defined.

(** [Result::map_err]. *)
Definition map_err {E F A} (f : E -> F) (m : outcome E A) : outcome F A :=
  match m with Ok a => Ok a | Err e => Err (f e) | Panic => Panic end.

(** [Option::ok_or]. *)
Definition ok_or {E A} (o : option A) (e : E) : outcome E A :=
  match o with Some a => Ok a | None => Err e end.

(** [if c { return Err(e) }] followed by the rest of the body. *)
Definition reject_if {E} (c : bool) (e : E) : outcome E unit :=
  if c then Err e else Ok tt.

(** [?] inside a loop over a list: [for x in l { f(x)?; }]. *)
Fixpoint for_each {E A} (f : A -> outcome E unit) (l : list A) : outcome E unit :=
  match l with
  | [] => Ok tt
  | x :: l' => _ ← f x; for_each f l'
  end.

(** [for x in l { acc = f(acc, x)?; }]. *)
Fixpoint try_fold {E A S} (f : S -> A -> outcome E S) (s : S) (l : list A)
    : outcome E S :=
  match l with
  | [] => Ok s
  | x :: l' => s' ← f s x; try_fold f s' l'
  end.

Definition is_ok {E A} (m : outcome E A) : bool :=
  match m with Ok _ => true | _ => false end.

(** A computation that does not panic. *)
Definition no_panic {E A} (m : outcome E A) : Prop := m <> Panic.

Section outcome_lemmas.
Context {E : Type}.

Lemma bind_ok {A B} (m : outcome E A) (f : A -> outcome E B) b :
  (m ≫= f) = Ok b <-> exists a, m = Ok a /\ f a = Ok b.
Proof. destruct m; naive_solver. Qed.

Lemma bind_of_ok {A B} (a : A) (f : A -> outcome E B) : (Ok a ≫= f) = f a.
Proof. done. Qed.

Lemma bind_err {A B} (m : outcome E A) (f : A -> outcome E B) e :
  (m ≫= f) = Err e <-> m = Err e \/ exists a, m = Ok a /\ f a = Err e.
Proof. destruct m; naive_solver. Qed.

Lemma bind_panic {A B} (m : outcome E A) (f : A -> outcome E B) :
  (m ≫= f) = Panic <-> m = Panic \/ exists a, m = Ok a /\ f a = Panic.
Proof. destruct m; naive_solver. Qed.

Lemma ok_or_ok {A} (o : option A) (e : E) a : ok_or o e = Ok a <-> o = Some a.
Proof. destruct o; naive_solver. Qed.

Lemma reject_if_ok c (e : E) u : reject_if c e = Ok u <-> c = false.
Proof. destruct c, u; naive_solver. Qed.

Lemma map_err_ok {F A} (f : E -> F) (m : outcome E A) a :
  map_err f m = Ok a <-> m = Ok a.
Proof. destruct m; naive_solver. Qed.

Lemma no_panic_bind {A B} (m : outcome E A) (f : A -> outcome E B) :
  no_panic m -> (forall a, m = Ok a -> no_panic (f a)) -> no_panic (m ≫= f).
Proof. unfold no_panic. destruct m; naive_solver. Qed.

Lemma no_panic_ok {A} (a : A) : no_panic (@Ok E A a).
Proof. done. Qed.
Lemma no_panic_err {A} (e : E) : no_panic (@Err E A e).
Proof. done. Qed.
Lemma no_panic_ok_or {A} (o : option A) (e : E) : no_panic (ok_or o e).
Proof. by destruct o. Qed.
Lemma no_panic_reject_if c (e : E) : no_panic (reject_if c e).
Proof. by destruct c. Qed.
Lemma no_panic_map_err {F A} (f : E -> F) (m : outcome E A) :
  no_panic m -> no_panic (map_err f m).
Proof. unfold no_panic. by destruct m. Qed.

Lemma for_each_ok {A} (f : A -> outcome E unit) l :
  for_each f l = Ok tt <-> Forall (fun x => f x = Ok tt) l.
Proof.
  induction l as [|x l IH]; simpl; [naive_solver|].
  rewrite bind_ok, Forall_cons, <- IH. split.
  - intros ([] & ? & ?); auto.
  - intros [? ?]; eauto.
Qed.

Lemma try_fold_app {A S} (f : S -> A -> outcome E S) s l k :
  try_fold f s (l ++ k) = (s' ← try_fold f s l; try_fold f s' k).
Proof.
  revert s; induction l as [|x l IH]; intros s; simpl; [done|].
  destruct (f s x); simpl; [apply IH|done..].
Qed.

Lemma try_fold_inv {A S} (f : S -> A -> outcome E S) (I : S -> Prop) s l s' :
  (forall s x s', I s -> f s x = Ok s' -> I s') ->
  I s -> try_fold f s l = Ok s' -> I s'.
Proof.
  intros Hf. revert s; induction l as [|x l IH]; intros s Hs; simpl; [by intros [= <-]|].
  intros (s1 & H1 & H2)%bind_ok. eauto.
Qed.

Lemma fold_left_inv {A B} (f : B -> A -> B) (I : B -> Prop) l b :
  I b -> (forall b x, x ∈ l -> I b -> I (f b x)) -> I (fold_left f l b).
Proof.
  revert b; induction l as [|x l IH]; intros b Hb Hf; simpl; [done|].
  apply IH; [apply Hf; [by left|done]|]. intros b' y Hy. apply Hf. by right.
Qed.

Lemma for_each_no_panic {A} (f : A -> outcome E unit) l :
  (forall x, no_panic (f x)) -> no_panic (for_each f l).
Proof.
  intros Hf. induction l as [|x l IH]; simpl; [done|].
  apply no_panic_bind; auto.
Qed.
End outcome_lemmas.

Create HintDb forge.
#[export] Hint Resolve no_panic_ok no_panic_err no_panic_ok_or
  no_panic_reject_if no_panic_map_err : forge.

(** [inv_ok]: decompose every hypothesis [m ≫= f = Ok b] (and the guards of
    the source) into the intermediate results it implies. *)
Ltac inv_ok_step :=
  match goal with
  | H : (_ ≫= _) = Ok _ |- _ =>
      apply bind_ok in H; let a := fresh "a" in let Ha := fresh "Ha" in
      destruct H as (a & Ha & H)
  | H : ok_or _ _ = Ok _ |- _ => apply ok_or_ok in H
  | H : reject_if _ _ = Ok _ |- _ => apply reject_if_ok in H
  | H : map_err _ _ = Ok _ |- _ => apply map_err_ok in H
  | H : Ok _ = Ok _ |- _ => injection H as H
  | H : mret _ = Ok _ |- _ => injection H as H
  | H : Err _ = Ok _ |- _ => discriminate H
  | H : Panic = Ok _ |- _ => discriminate H
  | H : context [match ?x with (_, _) => _ end] |- _ => is_var x; destruct x
  end.
Ltac inv_ok := repeat (inv_ok_step; simplify_eq/=).

(** ** Stateful computations with errors

    A method that works on shared state and returns a [Result]: the state it
    leaves behind is kept also when it fails, as the code does outside a
    transaction. *)

Definition stateM (E S A : Type) : Type := S -> outcome E A * S.

#[export] Instance stateM_ret {E S} : MRet (stateM E S) := fun A a s => (Ok a, s).
#[export] Instance stateM_bind {E S} : MBind (stateM E S) := fun A B f m s =>
  match m s with
  | (Ok a, s') => f a s'
  | (Err e, s') => (Err e, s')
  | (Panic, s') => (Panic, s')
  end.

(** A call that does not touch the state. *)
Definition pure {E S A} (m : outcome E A) : stateM E S A := fun s => (m, s).
Definition panic {E S A} : stateM E S A := fun s => (Panic, s).
Definition throw {E S A} (e : E) : stateM E S A := fun s => (Err e, s).
Definition read_state {E S} : stateM E S S := fun s => (Ok s, s).
Definition write_state {E S} (s : S) : stateM E S unit := fun _ => (Ok tt, s).

(** A transaction: an error undoes its writes. *)
Definition transaction {E S A} (m : stateM E S A) : stateM E S A := fun s =>
  match m s with
  | (Ok a, s') => (Ok a, s')
  | (r, _) => (r, s)
  end.

Fixpoint m_fold {E S A B} (f : B -> A -> stateM E S B) (b : B) (l : list A) : stateM E S B :=
  match l with
  | [] => mret b
  | x :: l' => b' ← f b x; m_fold f b' l'
  end.

(** [wp m s Q]: running [m] from [s] ends in a result and state in [Q]. *)
Definition wp {E S A} (m : stateM E S A) (s : S) (Q : outcome E A -> S -> Prop) : Prop :=
  Q (m s).1 (m s).2.

Section state_lemmas.
Context {E S : Type}.

Lemma wp_ret {A} (a : A) (s : S) (Q : outcome E A -> S -> Prop) : Q (Ok a) s -> wp (mret a) s Q.
Proof. done. Qed.

Lemma wp_pure {A} (m : outcome E A) (s : S) Q : Q m s -> wp (pure m) s Q.
Proof. done. Qed.

Lemma wp_bind {A B} (m : stateM E S A) (f : A -> stateM E S B) s (Q : outcome E B -> S -> Prop) :
  wp m s (fun r s' => match r with
                      | Ok a => wp (f a) s' Q
                      | Err e => Q (Err e) s'
                      | Panic => Q Panic s'
                      end) ->
  wp (m ≫= f) s Q.
Proof. unfold wp, mbind, stateM_bind. by destruct (m s) as [[]]. Qed.

Lemma wp_mono {A} (m : stateM E S A) s (P Q : outcome E A -> S -> Prop) :
  wp m s P -> (forall r s', P r s' -> Q r s') -> wp m s Q.
Proof. unfold wp. auto. Qed.

Lemma wp_elim {A} (m : stateM E S A) s Q r s' : wp m s Q -> m s = (r, s') -> Q r s'.
Proof. unfold wp. by intros H E1; rewrite E1 in H. Qed.

(** What a computation answers, whatever state it leaves. *)
Lemma wp_fst {A} (m : stateM E S A) s (Q : outcome E A -> Prop) : wp m s (fun r _ => Q r) -> Q (m s).1.
Proof. done. Qed.

Lemma wp_and {A} (m : stateM E S A) s (P Q : outcome E A -> S -> Prop) :
  wp m s P -> wp m s Q -> wp m s (fun r s' => P r s' /\ Q r s').
Proof. by split. Qed.

Lemma wp_intro {A} (m : stateM E S A) s (Q : outcome E A -> S -> Prop) :
  (forall r s', m s = (r, s') -> Q r s') -> wp m s Q.
Proof. unfold wp. intros H. apply H. by destruct (m s). Qed.

(** A loop: [I] holds of what was processed, the result and the state. *)
Lemma wp_m_fold {A B} (f : B -> A -> stateM E S B) (I : list A -> B -> S -> Prop)
    (Q : outcome E B -> S -> Prop) l b s :
  I [] b s ->
  (forall l1 x l2 b s, l = l1 ++ x :: l2 -> I l1 b s ->
     wp (f b x) s (fun r s' => match r with
                               | Ok b' => I (l1 ++ [x]) b' s'
                               | Err e => Q (Err e) s'
                               | Panic => Q Panic s'
                               end)) ->
  (forall b s, I l b s -> Q (Ok b) s) ->
  wp (m_fold f b l) s Q.
Proof.
  intros H0 Hstep Hend.
  assert (forall l2 l1 b s, l = l1 ++ l2 -> I l1 b s -> wp (m_fold f b l2) s Q) as Hind.
  { induction l2 as [|x l2 IH]; intros l1 b1 s1 -> H1; simpl.
    - apply Hend. by rewrite app_nil_r.
    - apply wp_bind. eapply wp_mono; [by eapply (Hstep l1 x l2)|].
      intros [b2|e|] s2 H2; [|done..]. apply (IH (l1 ++ [x])); [|done].
      by rewrite <- app_assoc. }
  by apply (Hind l []).
Qed.
End state_lemmas.

(** ** Loops with a binary budget

    [while_pos p f s] runs the body [f] at most [p] times, stopping when it
    returns [inr].  The budget is binary and the loop stops early, so a budget
    such as [2 ^ 64] costs nothing to evaluate. *)

Section while.
Context {S R : Type} (f : S -> S + R).

Fixpoint while_pos (p : positive) (s : S) : S + R :=
  match p with
  | xH => f s
  | xO q => match while_pos q s with inl s' => while_pos q s' | inr r => inr r end
  | xI q => match f s with
            | inl s' => match while_pos q s' with inl s'' => while_pos q s'' | inr r => inr r end
            | inr r => inr r
            end
  end.

Lemma while_pos_spec (I : S -> Prop) (m : S -> nat) :
  (forall s, I s -> match f s with inl s' => I s' /\ (m s' < m s)%nat | inr _ => True end) ->
  forall p s, I s ->
  match while_pos p s with
  | inl s' => I s' /\ (m s' + Pos.to_nat p <= m s)%nat
  | inr r => exists s', I s' /\ f s' = inr r
  end.
Proof.
  intros Hf p. induction p as [p IH|p IH|]; intros s Hs; simpl.
  - pose proof (Hf s Hs) as H1. destruct (f s) as [s1|r] eqn:E1; [|by exists s].
    destruct H1 as [H1 Hm1]. specialize (IH s1 H1) as H2.
    destruct (while_pos p s1) as [s2|r]; [|done]. destruct H2 as [H2 Hm2].
    specialize (IH s2 H2) as H3. destruct (while_pos p s2) as [s3|r]; [|done].
    destruct H3 as [H3 Hm3]. split; [done|]. lia.
  - specialize (IH s Hs) as H2.
    destruct (while_pos p s) as [s2|r]; [|done]. destruct H2 as [H2 Hm2].
    specialize (IH s2 H2) as H3. destruct (while_pos p s2) as [s3|r]; [|done].
    destruct H3 as [H3 Hm3]. split; [done|]. lia.
  - pose proof (Hf s Hs) as H1. destruct (f s) as [s1|r] eqn:E1; [|by exists s].
    destruct H1. split; [done|]. lia.
Qed.

(** Whatever the budget, the invariant holds where the loop stops. *)
Lemma while_pos_inv (I : S -> Prop) (P : R -> Prop) :
  (forall s, I s -> match f s with inl s' => I s' | inr r => P r end) ->
  forall p s, I s -> match while_pos p s with inl s' => I s' | inr r => P r end.
Proof.
  intros Hf p. induction p as [p IH|p IH|]; intros s Hs; cbn [while_pos]; [| |by apply Hf].
  - specialize (Hf s Hs). destruct (f s) as [s1|r]; [|done]. specialize (IH s1 Hf) as H1.
    destruct (while_pos p s1) as [s2|r]; [|done]. by apply IH.
  - specialize (IH s Hs) as H1. destruct (while_pos p s) as [s1|r]; [|done]. by apply IH.
Qed.

(** With a budget above the measure the loop ends, in a state of the
    invariant whose body returned. *)
Lemma while_pos_ends (I : S -> Prop) (m : S -> nat) p s :
  (forall s, I s -> match f s with inl s' => I s' /\ (m s' < m s)%nat | inr _ => True end) ->
  I s -> (m s < Pos.to_nat p)%nat ->
  exists r s', while_pos p s = inr r /\ I s' /\ f s' = inr r.
Proof.
  intros Hf Hs Hm. pose proof (while_pos_spec I m Hf p s Hs) as H.
  destruct (while_pos p s) as [s'|r]; [lia|]. destruct H as (s' & ? & ?). eauto.
Qed.
End while.

(** A loop of effectful steps, [while let Some(x) = ...]: [inl] goes on with a
    new loop state, [inr] leaves the loop with a result. *)
Definition m_while {E S L A} (p : positive) (body : L -> stateM E S (L + A)) (l : L) : stateM E S A :=
  fun s =>
    match while_pos (fun '(l, s) =>
            match body l s with
            | (Ok (inl l'), s') => inl (l', s')
            | (Ok (inr a), s') => inr (Ok a, s')
            | (Err e, s') => inr (Err e, s')
            | (Panic, s') => inr (Panic, s')
            end) p (l, s) with
    | inr r => r
    | inl (_, s') => (Panic, s')
    end.

Lemma wp_m_while {E S L A} (I : L -> S -> Prop) (m : L -> Z) (Q : outcome E A -> S -> Prop)
    (p : positive) (body : L -> stateM E S (L + A)) l s :
  (forall l s, I l s -> wp (body l) s (fun r s' => match r with
     | Ok (inl l') => I l' s' /\ 0 <= m l' < m l
     | Ok (inr a) => Q (Ok a) s'
     | Err e => Q (Err e) s'
     | Panic => Q Panic s'
     end)) ->
  I l s -> m l < Zpos p -> wp (m_while p body l) s Q.
Proof.
  intros Hb Hi Hm. unfold m_while.
  set (f := fun '(l, s) => match body l s with
    | (Ok (inl l'), s') => inl (l', s') | (Ok (inr a), s') => inr (Ok a, s')
    | (Err e, s') => inr (Err e, s') | (Panic, s') => inr (Panic, s') end).
  destruct (while_pos_ends f (fun '(l, s) => I l s) (fun '(l, _) => Z.to_nat (m l)) p (l, s))
    as (r & [l1 s1] & Hr & H1 & E1); [|done|lia|].
  - intros [l1 s1] H1. specialize (Hb l1 s1 H1). unfold wp in Hb. unfold f.
    destruct (body l1 s1) as [[[l2|a]|e|] s2]; [|done..]. cbn [fst snd] in Hb. destruct Hb as [? ?].
    split; [done|lia].
  - unfold wp. rewrite Hr. specialize (Hb l1 s1 H1). unfold wp in Hb. unfold f in E1.
    destruct (body l1 s1) as [[[l2|a]|e|] s2]; [done|..]; by injection E1 as <-.
Qed.

Lemma wp_m_while_inv {E S L A} (I : S -> Prop) (p : positive) (body : L -> stateM E S (L + A)) l s :
  (forall l s, I s -> wp (body l) s (fun _ s' => I s')) -> I s -> wp (m_while p body l) s (fun _ s' => I s').
Proof.
  intros Hb Hi. unfold wp, m_while.
  set (f := fun '(l, s) => match body l s with
    | (Ok (inl l'), s') => inl (l', s') | (Ok (inr a), s') => inr (Ok a, s')
    | (Err e, s') => inr (Err e, s') | (Panic, s') => inr (Panic, s') end).
  assert (match while_pos f p (l, s) with inl x => I x.2 | inr (r, s') => I s' end) as H.
  { apply (while_pos_inv f (fun x => I x.2) (fun x => I x.2)) with (p := p) (s := (l, s)) in Hi as H.
    - destruct (while_pos f p (l, s)) as [x|[r s']]; exact H.
    - intros [l1 s1] H1. specialize (Hb l1 s1 H1). unfold wp in Hb. unfold f.
      by destruct (body l1 s1) as [[[l2|a]|e|] s2]. }
  by destruct (while_pos f p (l, s)) as [[l1 s1]|[r s']].
Qed.
