(* ===== verification/RustStd.v ===== *)
(** * The parts of Rust's [core], [alloc] and [std] the sources call

    Byte-string order, stable sorting, fixed arrays, big-endian integers,
    checked indexing and slicing, UTF-8 and the [str] methods.  Each definition
    is executable; the lemmas are those the components share. *)

From S2P Require Import Prelude.
From Stdlib Require Import Sorted.

(** ** Byte strings: [Ord for [u8]], hence [Ord for str] and [Ord for [u8; N]] *)

Fixpoint bytes_cmp (a b : bytes) : comparison :=
  match a, b with
  | [], [] => Eq
  | [], _ :: _ => Lt
  | _ :: _, [] => Gt
  | x :: a', y :: b' =>
      match (b2z x ?= b2z y) with
      | Eq => bytes_cmp a' b'
      | c => c
      end
  end.

Definition bytes_lt (a b : bytes) : bool :=
  match bytes_cmp a b with Lt => true | _ => false end.
Definition bytes_le (a b : bytes) : bool :=
  match bytes_cmp a b with Gt => false | _ => true end.

(** ** Sorting: [sort_by(|a, b| key(a).cmp(&key(b)))], stable *)

Section sort.
Context {A : Type} (key : A -> bytes).

Fixpoint sort_insert (x : A) (l : list A) : list A :=
  match l with
  | [] => [x]
  | y :: l' => if bytes_le (key x) (key y) then x :: l else y :: sort_insert x l'
  end.

Fixpoint sort_by_key (l : list A) : list A :=
  match l with
  | [] => []
  | x :: l' => sort_insert x (sort_by_key l')
  end.

(** [l.windows(2).all(|w| key(w[0]) < key(w[1]))]. *)
Fixpoint strictly_sorted (l : list A) : bool :=
  match l with
  | x :: (y :: _) as l' => bytes_lt (key x) (key y) && strictly_sorted l'
  | _ => true
  end.
End sort.

(** ** Checked indexing and slicing: out of range panics *)

Definition index {E A} (l : list A) (i : Z) : outcome E A :=
  if (0 <=? i) then match l !! Z.to_nat i with Some x => Ok x | None => Panic end
  else Panic.

(** [&l[a..b]]. *)
Definition slice {E A} (l : list A) (a b : Z) : outcome E (list A) :=
  if (0 <=? a) && (a <=? b) && (b <=? len l)
  then Ok (take (Z.to_nat (b - a)) (drop (Z.to_nat a) l))
  else Panic.

(** [&l[a..]]. *)
Definition slice_from {E A} (l : list A) (a : Z) : outcome E (list A) :=
  slice l a (len l).

(** ** Big-endian integers: [to_be_bytes] and [from_be_bytes] *)

Fixpoint be_bytes (k : nat) (z : Z) : bytes :=
  match k with
  | O => []
  | S k' => be_bytes k' (Z.shiftr z 8) ++ [u8 z]
  end.

Definition be_val (l : bytes) : Z := fold_left (fun a b => a * 256 + b2z b) l 0.

(** ** Fixed arrays [[u8; N]] *)

Record arr (n : nat) := mkArr {
  arr_bytes : bytes;
  arr_len : Is_true (Nat.eqb (length arr_bytes) n)
}.
Arguments mkArr {n} _ _.
Arguments arr_bytes {n} _.
Arguments arr_len {n} _.

Definition arr_of (n : nat) (l : bytes) : option (arr n) :=
  match decide (Is_true (Nat.eqb (length l) n)) with
  | left H => Some (mkArr l H)
  | right _ => None
  end.

(** [a == b] on arrays and slices. *)
Definition bytes_eqb (a b : bytes) : bool := bool_decide (a = b).

(** ** UTF-8: [String::from_utf8] succeeds exactly on these byte strings

    [utf8_chars] splits a byte string into its encoded characters, following
    the table of well-formed byte sequences (Unicode 3.9, table 3-7) that
    [core::str::from_utf8] implements. *)

Definition in_range (lo hi z : Z) : bool := (lo <=? z) && (z <=? hi).
Definition cont_byte (b : byte) : bool := in_range 128 191 (b2z b).

Fixpoint utf8_chars (l : bytes) : option (list bytes) :=
  match l with
  | [] => Some []
  | b0 :: l1 =>
    if b2z b0 <? 128 then cons [b0] <$> utf8_chars l1
    else match l1 with
    | [] => None
    | b1 :: l2 =>
      if in_range 194 223 (b2z b0) && cont_byte b1 then cons [b0; b1] <$> utf8_chars l2
      else match l2 with
      | [] => None
      | b2 :: l3 =>
        if ((b2z b0 =? 224) && in_range 160 191 (b2z b1)
            || in_range 225 236 (b2z b0) && cont_byte b1
            || (b2z b0 =? 237) && in_range 128 159 (b2z b1)
            || in_range 238 239 (b2z b0) && cont_byte b1) && cont_byte b2
        then cons [b0; b1; b2] <$> utf8_chars l3
        else match l3 with
        | [] => None
        | b3 :: l4 =>
          if ((b2z b0 =? 240) && in_range 144 191 (b2z b1)
              || in_range 241 243 (b2z b0) && cont_byte b1
              || (b2z b0 =? 244) && in_range 128 143 (b2z b1))
             && cont_byte b2 && cont_byte b3
          then cons [b0; b1; b2; b3] <$> utf8_chars l4
          else None
        end
      end
    end
  end.

Definition utf8_valid (l : bytes) : bool :=
  match utf8_chars l with Some _ => true | None => false end.

(** The code point of one encoded character. *)
Definition char_code (c : bytes) : Z :=
  match c with
  | [b0] => b2z b0
  | [b0; b1] => (b2z b0 - 192) * 64 + (b2z b1 - 128)
  | [b0; b1; b2] => (b2z b0 - 224) * 4096 + (b2z b1 - 128) * 64 + (b2z b2 - 128)
  | [b0; b1; b2; b3] =>
      (b2z b0 - 240) * 262144 + (b2z b1 - 128) * 4096 + (b2z b2 - 128) * 64 + (b2z b3 - 128)
  | _ => 0
  end.

(** [s.chars()] as code points. *)
Definition chars (s : str) : list Z := char_code <$> default [] (utf8_chars s).

(** [char::is_control]: general category Cc. *)
Definition is_control (c : Z) : bool := in_range 0 31 c || in_range 127 159 c.

(** [char::is_whitespace]: property White_Space. *)
Definition is_whitespace (c : Z) : bool :=
  in_range 9 13 c || (c =? 32) || (c =? 133) || (c =? 160) || (c =? 5760)
  || in_range 8192 8202 c || (c =? 8232) || (c =? 8233) || (c =? 8239)
  || (c =? 8287) || (c =? 12288).

(** [char::is_ascii_alphanumeric]. *)
Definition is_ascii_alphanumeric (c : Z) : bool :=
  in_range 48 57 c || in_range 65 90 c || in_range 97 122 c.

Fixpoint drop_while {A} (p : A -> bool) (l : list A) : list A :=
  match l with
  | [] => []
  | x :: l' => if p x then drop_while p l' else l
  end.

(** [str::trim]. *)
Definition trim (s : str) : str :=
  match utf8_chars s with
  | None => s
  | Some cs =>
      let ws c := is_whitespace (char_code c) in
      concat (reverse (drop_while ws (reverse (drop_while ws cs))))
  end.

(** ** Other [str] methods *)

Fixpoint starts_with (s p : bytes) : bool :=
  match p, s with
  | [], _ => true
  | y :: p', x :: s' => bool_decide (x = y) && starts_with s' p'
  | _ :: _, [] => false
  end.

Definition ends_with (s p : bytes) : bool := starts_with (reverse s) (reverse p).

Definition strip_prefix (s p : bytes) : option bytes :=
  if starts_with s p then Some (drop (length p) s) else None.

Definition strip_suffix (s p : bytes) : option bytes :=
  if ends_with s p then Some (take (length s - length p) s) else None.

(** [s.contains(c)] for an ASCII character. *)
Definition contains_byte (s : bytes) (c : byte) : bool := bool_decide (c ∈ s).

(** [s.contains(p)] for a string pattern. *)
Fixpoint contains_str (s p : bytes) : bool :=
  starts_with s p || match s with [] => false | _ :: s' => contains_str s' p end.

(** [s.split(c)] for an ASCII character: always at least one piece. *)
Fixpoint split_byte (c : byte) (s : bytes) : list bytes :=
  match s with
  | [] => [[]]
  | x :: s' =>
      if bool_decide (x = c) then [] :: split_byte c s'
      else match split_byte c s' with
           | p :: ps => (x :: p) :: ps
           | [] => [[x]]
           end
  end.

(** [s.split_once(c)]. *)
Fixpoint split_once (c : byte) (s : bytes) : option (bytes * bytes) :=
  match s with
  | [] => None
  | x :: s' =>
      if bool_decide (x = c) then Some ([], s')
      else '(a, b) ← split_once c s'; Some (x :: a, b)
  end.

(** [parts.join(sep)]. *)
Fixpoint join (sep : bytes) (ps : list bytes) : bytes :=
  match ps with
  | [] => []
  | [p] => p
  | p :: ps' => p ++ sep ++ join sep ps'
  end.

(** [s.parse::<u64>()]: an optional [+], then at least one decimal digit, no
    overflow. *)
Fixpoint parse_digits (acc : Z) (s : bytes) : option Z :=
  match s with
  | [] => Some acc
  | c :: s' =>
      if in_range 48 57 (b2z c) then
        let acc' := acc * 10 + (b2z c - 48) in
        if acc' <=? u64_max then parse_digits acc' s' else None
      else None
  end.

Definition parse_u64 (s : bytes) : option Z :=
  match s with
  | [] => None
  | c :: s' =>
      if bool_decide (c = "+"%byte) then
        match s' with [] => None | _ => parse_digits 0 s' end
      else parse_digits 0 s
  end.

(** [n.to_string()] for an unsigned integer. *)
Fixpoint dec_digits (fuel : nat) (n : Z) (acc : bytes) : bytes :=
  match fuel with
  | O => acc
  | S f =>
      let acc' := u8 (48 + n mod 10) :: acc in
      if n <? 10 then acc' else dec_digits f (n / 10) acc'
  end.
Definition u64_to_string (n : Z) : bytes := dec_digits 20 n [].

(** ** Lemmas: byte-string order *)

Lemma bytes_cmp_refl a : bytes_cmp a a = Eq.
Proof. induction a as [|x a IH]; simpl; [done|]. by rewrite Z.compare_refl. Qed.

Lemma bytes_cmp_eq a b : bytes_cmp a b = Eq <-> a = b.
Proof.
  split; [|intros <-; apply bytes_cmp_refl].
  revert b; induction a as [|x a IH]; intros [|y b]; simpl; try done.
  destruct (Z.compare_spec (b2z x) (b2z y)) as [E| |]; try done.
  apply (inj b2z) in E as ->. intros ->%IH. done.
Qed.

Lemma bytes_cmp_antisym a b : bytes_cmp b a = CompOpp (bytes_cmp a b).
Proof.
  revert b; induction a as [|x a IH]; intros [|y b]; simpl; try done.
  rewrite (Z.compare_antisym (b2z x)). destruct (b2z x ?= b2z y); simpl; auto.
Qed.

Lemma bytes_cmp_lt_trans a b c :
  bytes_cmp a b = Lt -> bytes_cmp b c = Lt -> bytes_cmp a c = Lt.
Proof.
  revert b c; induction a as [|x a IH]; intros [|y b] [|z c]; simpl; try done.
  destruct (Z.compare_spec (b2z x) (b2z y)), (Z.compare_spec (b2z y) (b2z z)),
    (Z.compare_spec (b2z x) (b2z z)); try done; try lia; eauto.
Qed.

Lemma bytes_lt_spec a b : bytes_lt a b = true <-> bytes_cmp a b = Lt.
Proof. unfold bytes_lt. destruct (bytes_cmp a b); naive_solver. Qed.

Lemma bytes_le_spec a b : bytes_le a b = true <-> bytes_cmp a b = Lt \/ a = b.
Proof.
  unfold bytes_le. rewrite <- bytes_cmp_eq.
  destruct (bytes_cmp a b); naive_solver.
Qed.

Lemma bytes_le_false a b : bytes_le a b = false <-> bytes_lt b a = true.
Proof.
  rewrite bytes_lt_spec, (bytes_cmp_antisym a b). unfold bytes_le.
  destruct (bytes_cmp a b); naive_solver.
Qed.

Lemma bytes_lt_le a b : bytes_lt a b = true -> bytes_le a b = true.
Proof. rewrite bytes_lt_spec, bytes_le_spec. auto. Qed.

Lemma bytes_lt_irrefl a : bytes_lt a a = false.
Proof. unfold bytes_lt. by rewrite bytes_cmp_refl. Qed.

Lemma bytes_lt_trans a b c :
  bytes_lt a b = true -> bytes_lt b c = true -> bytes_lt a c = true.
Proof. rewrite !bytes_lt_spec. apply bytes_cmp_lt_trans. Qed.

Lemma bytes_lt_ne a b : bytes_lt a b = true -> a <> b.
Proof. intros H <-. by rewrite bytes_lt_irrefl in H. Qed.

Lemma bytes_le_ne_lt a b : bytes_le a b = true -> a <> b -> bytes_lt a b = true.
Proof. rewrite bytes_le_spec, bytes_lt_spec. naive_solver. Qed.

Lemma bytes_le_trans a b c :
  bytes_le a b = true -> bytes_le b c = true -> bytes_le a c = true.
Proof.
  rewrite !bytes_le_spec. intros [?| ->] [?| ->]; eauto using bytes_cmp_lt_trans.
Qed.

(** ** Lemmas: sorting *)

Section sort_lemmas.
Context {A : Type} (key : A -> bytes).

Definition key_lt (x y : A) : Prop := bytes_lt (key x) (key y) = true.
Definition key_le (x y : A) : Prop := bytes_le (key x) (key y) = true.

#[local] Instance key_lt_trans : Transitive key_lt.
Proof. intros x y z. apply bytes_lt_trans. Qed.
#[local] Instance key_le_trans : Transitive key_le.
Proof. intros x y z. apply bytes_le_trans. Qed.

Lemma sort_insert_perm x l : sort_insert key x l ≡ₚ x :: l.
Proof.
  induction l as [|y l IH]; simpl; [done|]. case_match; [done|].
  rewrite IH. constructor.
Qed.

Lemma sort_by_key_perm l : sort_by_key key l ≡ₚ l.
Proof. induction l as [|x l IH]; simpl; [done|]. by rewrite sort_insert_perm, IH. Qed.

Lemma sort_insert_sorted x l :
  StronglySorted key_le l -> StronglySorted key_le (sort_insert key x l).
Proof.
  induction 1 as [|y l Hl IH Hy]; simpl; [repeat constructor|].
  case_match eqn:E.
  - constructor; [by constructor|]. constructor; [done|].
    eapply Forall_impl; [done|]. intros z Hz. by trans y.
  - apply bytes_le_false, bytes_lt_le in E. constructor; [done|].
    rewrite sort_insert_perm. by constructor.
Qed.

Lemma sort_by_key_sorted l : StronglySorted key_le (sort_by_key key l).
Proof. induction l; simpl; [constructor|]. by apply sort_insert_sorted. Qed.

Lemma strictly_sorted_spec l :
  strictly_sorted key l = true <-> StronglySorted key_lt l.
Proof.
  split.
  - intros H. apply Sorted_StronglySorted; [exact key_lt_trans|].
    induction l as [|x [|y l] IH]; simpl in *; [constructor|repeat constructor|].
    apply andb_prop in H as [H1 H2]. constructor; [by apply IH|]. by constructor.
  - induction 1 as [|x l Hl IH Hx]; [done|]. destruct l as [|y l]; [done|].
    apply Forall_cons in Hx as [Hx _]. change (bytes_lt (key x) (key y) && strictly_sorted key (y :: l) = true).
    by rewrite IH, andb_true_r.
Qed.

(** Two permutations that are both strictly sorted are equal. *)
Lemma strictly_sorted_perm l k :
  StronglySorted key_lt l -> StronglySorted key_lt k -> l ≡ₚ k -> l = k.
Proof.
  intros Hl; revert k; induction Hl as [|x l Hl IH Hx]; intros k Hk P.
  { by apply Permutation_nil in P. }
  destruct Hk as [|y k Hk Hy]; [by apply Permutation_sym, Permutation_nil in P|].
  assert (x = y) as ->.
  { assert (x ∈ y :: k) as Hx' by (rewrite <- P; set_solver).
    assert (y ∈ x :: l) as Hy' by (rewrite P; set_solver).
    apply elem_of_cons in Hx' as [->|Hx']; [done|].
    apply elem_of_cons in Hy' as [->|Hy']; [done|].
    rewrite Forall_forall in Hx, Hy. specialize (Hx _ Hy'). specialize (Hy _ Hx').
    unfold key_lt in *. pose proof (bytes_lt_trans _ _ _ Hx Hy) as E.
    by rewrite bytes_lt_irrefl in E. }
  f_equal. apply IH; [done|]. by apply Permutation_cons_inv in P.
Qed.

(** Sorting a list whose keys are distinct gives a strictly sorted list. *)
Lemma sort_by_key_strict l :
  NoDup (key <$> l) -> StronglySorted key_lt (sort_by_key key l).
Proof.
  intros Hnd. pose proof (sort_by_key_sorted l) as Hs.
  rewrite <- (sort_by_key_perm l) in Hnd.
  induction Hs as [|x k Hk IH Hx]; [constructor|].
  apply NoDup_cons in Hnd as [Hnx Hnd]. constructor; [by apply IH|].
  apply Forall_forall. intros y Hy. rewrite Forall_forall in Hx.
  apply bytes_le_ne_lt; [by apply Hx|]. intros E. apply Hnx. rewrite E.
  by apply list_elem_of_fmap_2.
Qed.

Lemma strictly_sorted_nodup l : StronglySorted key_lt l -> NoDup (key <$> l).
Proof.
  induction 1 as [|x l Hl IH Hx]; simpl; constructor; [|done].
  intros (y & E & Hy)%list_elem_of_fmap. rewrite Forall_forall in Hx.
  specialize (Hx _ Hy). by apply bytes_lt_ne in Hx.
Qed.

(** Sorting leaves a strictly sorted list as it is. *)
Lemma sort_by_key_id l : StronglySorted key_lt l -> sort_by_key key l = l.
Proof.
  intros H. apply strictly_sorted_perm; [|done|apply sort_by_key_perm].
  by apply sort_by_key_strict, strictly_sorted_nodup.
Qed.

Lemma sort_by_key_of_perm l k :
  StronglySorted key_lt l -> k ≡ₚ l -> sort_by_key key k = l.
Proof.
  intros Hl P. apply strictly_sorted_perm; [|done|by rewrite sort_by_key_perm].
  apply sort_by_key_strict. rewrite P. by apply strictly_sorted_nodup.
Qed.

Lemma strictly_sorted_snoc l x :
  StronglySorted key_lt (l ++ [x]) <->
  StronglySorted key_lt l /\ Forall (fun y => key_lt y x) l.
Proof.
  induction l as [|y l IH]; simpl.
  - split; [by split; constructor|]. repeat constructor.
  - split.
    + intros H. apply StronglySorted_inv in H as [H1 H2].
      apply IH in H1 as [H1 H3]. apply Forall_app in H2 as [H2 H4].
      apply Forall_cons in H4 as [H4 _]. split; [by constructor|].
      apply Forall_cons. done.
    + intros [H1 H2]. apply StronglySorted_inv in H1 as [H1 H3].
      apply Forall_cons in H2 as [H2 H4]. constructor; [by apply IH|].
      apply Forall_app. by rewrite Forall_singleton.
Qed.

(** A new greatest key, given the previous greatest one. *)
Lemma strictly_sorted_extend l y x :
  StronglySorted key_lt (l ++ [y]) -> key_lt y x ->
  StronglySorted key_lt ((l ++ [y]) ++ [x]).
Proof.
  intros H Hyx. apply strictly_sorted_snoc. split; [done|].
  apply strictly_sorted_snoc in H as [_ H]. apply Forall_app. split.
  - eapply Forall_impl; [done|]. intros z Hz. by trans y.
  - by constructor.
Qed.
End sort_lemmas.

(** ** Lemmas: big-endian integers *)

Lemma length_be_bytes k z : length (be_bytes k z) = k.
Proof.
  revert z; induction k as [|k IH]; intros z; simpl; [done|].
  rewrite length_app, IH. simpl. lia.
Qed.

Lemma be_val_snoc l b : be_val (l ++ [b]) = be_val l * 256 + b2z b.
Proof. unfold be_val. by rewrite fold_left_app. Qed.

Lemma be_val_bytes k z : 0 <= z < 256 ^ Z.of_nat k -> be_val (be_bytes k z) = z.
Proof.
  revert z; induction k as [|k IH]; intros z Hz; simpl; [unfold be_val; simpl; lia|].
  rewrite Nat2Z.inj_succ, Z.pow_succ_r in Hz by lia.
  rewrite be_val_snoc, Z.shiftr_div_pow2, b2z_u8 by lia.
  change (2 ^ 8) with 256. rewrite IH.
  - pose proof (Z.div_mod z 256). lia.
  - split; [apply Z.div_pos; lia|apply Z.div_lt_upper_bound; lia].
Qed.

Lemma be_bytes_val l : be_bytes (length l) (be_val l) = l.
Proof.
  induction l as [|b l IH] using rev_ind; [done|].
  rewrite length_app, Nat.add_comm. simpl. rewrite be_val_snoc.
  pose proof (b2z_range b). rewrite Z.shiftr_div_pow2 by lia. change (2 ^ 8) with 256.
  replace ((be_val l * 256 + b2z b) / 256) with (be_val l)
    by (rewrite Z.div_add_l, (Z.div_small (b2z b)) by lia; lia).
  rewrite IH. f_equal. f_equal. apply (inj b2z). rewrite b2z_u8.
  rewrite Z.add_comm, Z_mod_plus_full, Z.mod_small by lia. done.
Qed.

Lemma be_val_range l : 0 <= be_val l < 256 ^ len l.
Proof.
  unfold len. induction l as [|b l IH] using rev_ind; [done|].
  rewrite be_val_snoc, length_app. pose proof (b2z_range b). simpl.
  rewrite Nat2Z.inj_add, Z.pow_add_r by lia.
  change (256 ^ Z.of_nat 1) with 256. lia.
Qed.

Lemma len_be_bytes k z : len (be_bytes k z) = Z.of_nat k.
Proof. unfold len. by rewrite length_be_bytes. Qed.

(** ** Lemmas: arrays *)

Lemma arr_eq {n} (a b : arr n) : arr_bytes a = arr_bytes b -> a = b.
Proof.
  destruct a as [la Ha], b as [lb Hb]; simpl; intros <-. f_equal.
  apply Is_true_pi.
Qed.

#[export] Instance arr_eq_dec n : EqDecision (arr n).
Proof.
  intros a b. destruct (decide (arr_bytes a = arr_bytes b)) as [E|E].
  - left. by apply arr_eq.
  - right. congruence.
Defined.

Lemma arr_length {n} (a : arr n) : length (arr_bytes a) = n.
Proof. apply Nat.eqb_eq. apply Is_true_true. apply arr_len. Qed.

Lemma arr_length_len {n} (a : arr n) : len (arr_bytes a) = Z.of_nat n.
Proof. unfold len. by rewrite arr_length. Qed.

Lemma arr_of_bytes {n} (a : arr n) : arr_of n (arr_bytes a) = Some a.
Proof.
  unfold arr_of. case_decide as H; [|destruct H; apply (arr_len a)].
  f_equal. by apply arr_eq.
Qed.

Lemma arr_of_some {n} l (a : arr n) : arr_of n l = Some a <-> arr_bytes a = l.
Proof.
  split; [|intros <-; apply arr_of_bytes].
  unfold arr_of. case_decide; [|done]. by intros [= <-].
Qed.

Lemma arr_of_is_some n l : length l = n -> is_Some (arr_of n l).
Proof.
  intros H. unfold arr_of. case_decide as Hd; [eauto|].
  destruct Hd. apply Is_true_true. by apply Nat.eqb_eq.
Qed.

#[export] Program Instance arr_countable n : Countable (arr n) :=
  inj_countable arr_bytes (arr_of n) _.
Next Obligation. intros n a. apply arr_of_bytes. Qed.

Lemma bytes_eqb_true a b : bytes_eqb a b = true <-> a = b.
Proof. apply bool_decide_eq_true. Qed.
Lemma bytes_eqb_false a b : bytes_eqb a b = false <-> a <> b.
Proof. apply bool_decide_eq_false. Qed.

(** ** Lemmas: slices *)

Lemma slice_app {E} (a b c : bytes) :
  slice (a ++ b ++ c) (len a) (len a + len b) = @Ok E _ b.
Proof.
  unfold slice. repeat rewrite len_app. pose proof (len_nonneg a).
  pose proof (len_nonneg b). pose proof (len_nonneg c).
  rewrite !(proj2 (Z.leb_le _ _)) by lia. simpl. f_equal.
  replace (len a + len b - len a) with (len b) by lia. unfold len.
  rewrite !Nat2Z.id, drop_app_length. by rewrite take_app_length.
Qed.

Lemma starts_with_app s p : starts_with (p ++ s) p = true.
Proof. induction p; simpl; [by destruct s|]. by rewrite bool_decide_true. Qed.

Lemma starts_with_spec s p : starts_with s p = true <-> exists k, s = p ++ k.
Proof.
  split; [|intros [k ->]; apply starts_with_app].
  revert s; induction p as [|y p IH]; intros s; simpl; [by exists s|].
  destruct s as [|x s]; [done|]. intros [->%bool_decide_eq_true H]%andb_prop.
  apply IH in H as [k ->]. by exists k.
Qed.

Lemma strip_prefix_spec s p k : strip_prefix s p = Some k <-> s = p ++ k.
Proof.
  unfold strip_prefix. destruct (starts_with s p) eqn:E.
  - apply starts_with_spec in E as [k' ->]. rewrite drop_app_length.
    split; [by intros [= ->]|]. by intros ->%app_inv_head.
  - split; [done|]. intros ->. by rewrite starts_with_app in E.
Qed.

(** ** Lemmas: UTF-8 *)

Lemma utf8_chars_concat s cs : utf8_chars s = Some cs -> concat cs = s.
Proof.
  revert cs. induction s as [s IH] using (induction_ltof1 _ length).
  unfold ltof in IH. intros cs. destruct s as [|b0 l1]; simpl; [by intros [= <-]|].
  repeat case_match; try done; intros (cs' & Hcs & ->)%fmap_Some; simpl;
    (apply IH in Hcs; [by rewrite Hcs|simpl; lia]).
Qed.

Lemma utf8_valid_ascii s :
  Forall (fun b => b2z b < 128) s -> utf8_valid s = true.
Proof.
  intros H. unfold utf8_valid.
  assert (exists cs, utf8_chars s = Some cs) as [cs ->]; [|done].
  induction H as [|b s Hb H [cs IH]]; simpl; [eauto|].
  rewrite (proj2 (Z.ltb_lt _ _)) by done. rewrite IH. eauto.
Qed.

Lemma utf8_chars_ascii s :
  Forall (fun b => b2z b < 128) s -> utf8_chars s = Some ((fun b => [b]) <$> s).
Proof.
  induction 1 as [|b s Hb H IH]; [done|]. simpl.
  rewrite (proj2 (Z.ltb_lt _ _)) by done. by rewrite IH.
Qed.

Lemma utf8_chars_app a x b : utf8_chars a = Some x -> utf8_chars (a ++ b) = (fun y => x ++ y) <$> utf8_chars b.
Proof.
  revert x. induction a as [a IH] using (induction_ltof1 _ length). unfold ltof in IH. intros x.
  assert (forall a' z, (length a' < length a)%nat -> (cons z <$> utf8_chars a') = Some x ->
    (cons z <$> utf8_chars (a' ++ b)) = (fun y => x ++ y) <$> utf8_chars b) as Hrec.
  { intros a' z Hl H. destruct (utf8_chars a') as [x'|] eqn:E1; [|done]. cbn in H. injection H as <-.
    rewrite (IH a' Hl x' E1). by destruct (utf8_chars b). }
  destruct a as [|b0 l1]; [cbn; intros [= <-]; by destruct (utf8_chars b)|].
  cbn [utf8_chars app]. destruct (b2z b0 <? 128); [apply Hrec; cbn; lia|].
  destruct l1 as [|b1 l2]; [done|]. cbn [app].
  destruct (in_range 194 223 (b2z b0) && cont_byte b1); [apply Hrec; cbn; lia|].
  destruct l2 as [|b2 l3]; [done|]. cbn [app].
  match goal with |- context [if ?c then _ else _] => destruct c end; [apply Hrec; cbn; lia|].
  destruct l3 as [|b3 l4]; [done|]. cbn [app].
  match goal with |- context [if ?c then _ else _] => destruct c end; [apply Hrec; cbn; lia|done].
Qed.

Lemma chars_app a b : utf8_valid a = true -> utf8_valid b = true -> chars (a ++ b) = chars a ++ chars b.
Proof.
  unfold utf8_valid, chars. destruct (utf8_chars a) as [x|] eqn:E1; [|done].
  destruct (utf8_chars b) as [y|] eqn:E2; [|done]. intros _ _.
  rewrite (utf8_chars_app _ _ _ E1), E2. cbn. apply fmap_app.
Qed.

Lemma utf8_valid_app a b : utf8_valid a = true -> utf8_valid b = true -> utf8_valid (a ++ b) = true.
Proof.
  unfold utf8_valid. destruct (utf8_chars a) as [x|] eqn:E1; [|done].
  rewrite (utf8_chars_app _ _ _ E1). by destruct (utf8_chars b).
Qed.

Lemma chars_ascii s : Forall (fun b => b2z b < 128) s -> chars s = b2z <$> s.
Proof.
  intros H. unfold chars. rewrite (utf8_chars_ascii _ H). cbn. rewrite <- list_fmap_compose. done.
Qed.

Lemma split_byte_cat c a b : split_byte c (a ++ c :: b) = split_byte c a ++ split_byte c b.
Proof.
  induction a as [|x a IH]; cbn [split_byte app].
  - by rewrite bool_decide_true.
  - case_bool_decide; [by rewrite IH|]. rewrite IH.
    assert (exists p ps, split_byte c a = p :: ps) as (p & ps & ->).
    { destruct a as [|y a]; cbn; [by eexists _, _|]. case_bool_decide; [by eexists _, _|].
      destruct (split_byte c a); by eexists _, _. }
    done.
Qed.

Lemma drop_while_id {A} (p : A -> bool) l :
  Forall (fun x => p x = false) l -> drop_while p l = l.
Proof. by intros [|x k Hx _]; simpl; [|rewrite Hx]. Qed.

(** Trimming leaves printable ASCII without spaces as it is. *)
Lemma trim_graphic s : Forall (fun b => 33 <= b2z b < 128) s -> trim s = s.
Proof.
  intros H. unfold trim. rewrite utf8_chars_ascii by (eapply Forall_impl; [done|]; simpl; lia).
  assert (Forall (fun c => is_whitespace (char_code c) = false) ((fun b => [b]) <$> s)) as Hws.
  { apply Forall_fmap. eapply Forall_impl; [done|]. intros b Hb. simpl in *.
    unfold is_whitespace, in_range. lia. }
  rewrite (drop_while_id _ _ Hws), drop_while_id, reverse_involutive.
  - clear. induction s; simpl; [done|]. by f_equal.
  - by apply Forall_reverse.
Qed.

#[global] Arguments be_bytes : simpl never.
#[global] Arguments be_val : simpl never.

(** ** Lemmas: reading at an offset *)

Lemma index_app {E A} (a : list A) x b : index (a ++ x :: b) (len a) = @Ok E _ x.
Proof.
  unfold index. rewrite (proj2 (Z.leb_le _ _)) by apply len_nonneg.
  rewrite to_nat_len, lookup_app_r, Nat.sub_diag by lia. done.
Qed.

Lemma slice_app_exact {E} (a b c : bytes) n :
  n = len a + len b -> slice (a ++ b ++ c) (len a) n = @Ok E _ b.
Proof. intros ->. apply slice_app. Qed.

Lemma slice_from_app {E} (a b : bytes) : slice_from (a ++ b) (len a) = @Ok E _ b.
Proof.
  unfold slice_from. rewrite <- (app_nil_r b) at 1. apply slice_app_exact. by rewrite len_app.
Qed.

Lemma split_len (s : bytes) n : 0 <= n <= len s -> exists a b, s = a ++ b /\ len a = n.
Proof.
  intros H. exists (take (Z.to_nat n) s), (drop (Z.to_nat n) s).
  rewrite take_drop. split; [done|]. unfold len in *. rewrite length_take. lia.
Qed.

(** ** [BTreeMap<String, A>]: a [gmap] iterated in the order of its keys *)

Definition btree_list {A} (m : gmap str A) : list (str * A) := sort_by_key fst (map_to_list m).

Lemma elem_of_btree_list {A} (m : gmap str A) k a : (k, a) ∈ btree_list m <-> m !! k = Some a.
Proof. unfold btree_list. by rewrite sort_by_key_perm, elem_of_map_to_list. Qed.

Lemma btree_list_sorted {A} (m : gmap str A) : StronglySorted (key_lt fst) (btree_list m).
Proof. apply sort_by_key_strict, NoDup_fst_map_to_list. Qed.

Lemma btree_list_nodup {A} (m : gmap str A) : NoDup (btree_list m).*1.
Proof. apply strictly_sorted_nodup, btree_list_sorted. Qed.

(** ** Paths: names joined by [/] *)

(** A component: not empty, no slash. *)
Definition plain (n : str) : Prop := n <> [] /\ "/"%byte ∉ n.

Lemma join_cons (p : str) (ps : list str) :
  ps <> [] -> join (bs "/") (p :: ps) = p ++ "/"%byte :: join (bs "/") ps.
Proof. by destruct ps. Qed.

Lemma split_byte_nosep c p s : c ∉ p -> split_byte c (p ++ c :: s) = p :: split_byte c s.
Proof.
  induction p as [|x p IH]; intros H; simpl.
  - by rewrite bool_decide_true.
  - rewrite not_elem_of_cons in H. destruct H as [Hx Hp].
    rewrite bool_decide_false by done. by rewrite IH.
Qed.

Lemma split_byte_none c p : c ∉ p -> split_byte c p = [p].
Proof.
  induction p as [|x p IH]; intros H; simpl; [done|].
  rewrite not_elem_of_cons in H. destruct H as [Hx Hp].
  rewrite bool_decide_false by done. by rewrite IH.
Qed.

Lemma split_join (ps : list str) :
  Forall plain ps -> ps <> [] -> split_byte "/"%byte (join (bs "/") ps) = ps.
Proof.
  induction 1 as [|p ps [_ Hp] H IH]; [done|]. intros _. destruct (decide (ps = [])) as [->|Hne].
  - by apply split_byte_none.
  - rewrite join_cons by done. rewrite split_byte_nosep by done. by rewrite IH.
Qed.

Lemma join_split (s : str) : join (bs "/") (split_byte "/"%byte s) = s.
Proof.
  induction s as [|x s IH]; [done|]. cbn [split_byte]. case_bool_decide as Hx.
  - subst. destruct (split_byte "/"%byte s) as [|p ps] eqn:E.
    + exfalso. clear IH. destruct s as [|y s]; simpl in E; [done|]. repeat case_match; done.
    + cbn. by rewrite <- IH.
  - destruct (split_byte "/"%byte s) as [|p ps] eqn:E.
    + exfalso. clear IH. destruct s as [|y s]; simpl in E; [done|]. repeat case_match; done.
    + rewrite <- IH. destruct ps; done.
Qed.

Lemma join_inj (ps qs : list str) :
  Forall plain ps -> Forall plain qs -> join (bs "/") ps = join (bs "/") qs -> ps = qs.
Proof.
  intros Hp Hq E. destruct ps as [|p ps], qs as [|q qs]; [done| | |].
  - inversion Hq as [|?? [Hn _] ?]; subst. destruct qs, q; simpl in E; done.
  - inversion Hp as [|?? [Hn _] ?]; subst. destruct ps, p; simpl in E; done.
  - rewrite <- (split_join (p :: ps)), <- (split_join (q :: qs)) by done. by rewrite E.
Qed.

Lemma join_app (ps qs : list str) :
  ps <> [] -> qs <> [] ->
  join (bs "/") (ps ++ qs) = join (bs "/") ps ++ "/"%byte :: join (bs "/") qs.
Proof.
  intros Hp Hq. induction ps as [|p ps IH]; [done|]. cbn [app].
  destruct (decide (ps = [])) as [->|Hne].
  - by rewrite join_cons.
  - rewrite join_cons by (by destruct ps). rewrite IH by done.
    rewrite (join_cons p) by done. by rewrite <- app_assoc.
Qed.

Lemma join_nonempty (ps : list str) : Forall plain ps -> ps <> [] -> join (bs "/") ps <> [].
Proof.
  intros H Hne. destruct H as [|p ps [Hp _] H]; [done|]. intros E.
  destruct (decide (ps = [])) as [->|Hps]; [done|].
  rewrite join_cons in E by done. by destruct p.
Qed.

Lemma contains_join (p : str) (ps : list str) :
  Forall plain (p :: ps) ->
  contains_byte (join (bs "/") (p :: ps)) "/"%byte = negb (bool_decide (ps = [])).
Proof.
  intros [[_ Hp] _]%Forall_cons. unfold contains_byte.
  destruct (decide (ps = [])) as [->|Hps].
  - rewrite (bool_decide_true ([] = [])) by done. by apply bool_decide_false.
  - rewrite (bool_decide_false (ps = [])), join_cons by done. apply bool_decide_true.
    apply elem_of_app. right. by left.
Qed.

Lemma split_once_join (p : str) (ps : list str) :
  Forall plain (p :: ps) -> ps <> [] ->
  split_once "/"%byte (join (bs "/") (p :: ps)) = Some (p, join (bs "/") ps).
Proof.
  intros [[_ Hp] _]%Forall_cons Hps. rewrite join_cons by done.
  induction p as [|x p IH]; simpl; [done|].
  rewrite not_elem_of_cons in Hp. destruct Hp as [Hx Hp].
  rewrite bool_decide_false by done. by rewrite IH.
Qed.
