(* ===== verification/Types.v ===== *)
(** * [crates/forge-types]: identifiers, errors and result types

    [ObjectId] and its hexadecimal form, the object and entry kinds with their
    numeric codes, the error type with the two classifications derived from it
    (process exit code, wire code), and the results of a ref update. *)

From S2P Require Import Prelude RustStd.

(** ** Errors

    The constructors are those of [forge_types::Error].  A message built by
    [format!] is carried as its template, without the interpolated values;
    payloads that the program inspects or that callers rely on (the sealed ref,
    the conflict object, the three parts of a stale observation) are kept. *)

Definition ObjectId := arr 32.

Inductive Error : Type :=
| Denied (msg : str)
| NotFound (msg : str)
| Sealed (msg : str)
| Invalid (msg : str)
| Corrupt (msg : str)
| Busy (msg : str)
| MergeConflict (id : ObjectId)
| StaleObservation (path expected found : str)
| InvalidBase
| Io (msg : str)
| Sqlite (msg : str)
| CapError (msg : str)
| Internal (msg : str).

#[export] Instance Error_eq_dec : EqDecision Error.
Proof. solve_decision. Defined.

Notation Result := (outcome Error).

Definition exit_code (e : Error) : Z :=
  match e with
  | Denied _ | CapError _ | Invalid _ | InvalidBase | NotFound _ => 1
  | Corrupt _ | Sealed _ => 2
  | Busy _ => 3
  | StaleObservation _ _ _ | MergeConflict _ => 4
  | Io _ | Sqlite _ | Internal _ => 5
  end.

Definition code (e : Error) : str :=
  match e with
  | Denied _ => bs "denied"
  | NotFound _ => bs "not_found"
  | Sealed _ => bs "sealed"
  | Invalid _ => bs "invalid"
  | Corrupt _ => bs "corrupt"
  | Busy _ => bs "busy"
  | MergeConflict _ => bs "conflict"
  | StaleObservation _ _ _ => bs "stale_observation"
  | InvalidBase => bs "invalid_base"
  | Io _ => bs "internal"
  | Sqlite _ => bs "internal"
  | CapError _ => bs "denied"
  | Internal _ => bs "internal"
  end.

(** ** Hexadecimal *)

Definition HEX : bytes := bs "0123456789abcdef".

Definition hex_digit (n : Z) : byte := nth (Z.to_nat n) HEX x00.

Fixpoint hex_encode (l : bytes) : str :=
  match l with
  | [] => []
  | b :: l' =>
      hex_digit (Z.shiftr (b2z b) 4) :: hex_digit (Z.land (b2z b) 15) :: hex_encode l'
  end.

Definition hex_val (c : byte) : Result Z :=
  let c := b2z c in
  if in_range 48 57 c then Ok (c - 48)
  else if in_range 97 102 c then Ok (c - 97 + 10)
  else if in_range 65 70 c then Ok (c - 65 + 10)
  else Err (Invalid (bs "invalid hex digit")).

(** The loop over [i] in [(0..len).step_by(2)], reading [bytes[i]] and
    [bytes[i + 1]]. *)
Fixpoint hex_decode_loop (l : bytes) : Result bytes :=
  match l with
  | [] => Ok []
  | [c] => _ ← hex_val c; Panic
  | c :: d :: l' =>
      hi ← hex_val c; lo ← hex_val d;
      rest ← hex_decode_loop l';
      Ok (u8 (Z.lor (Z.shiftl hi 4) lo) :: rest)
  end.

Definition hex_decode (s : str) : Result bytes :=
  _ ← reject_if (negb (Z.even (len s))) (Invalid (bs "odd hex length"));
  hex_decode_loop s.

(** ** [ObjectId] *)

Definition ZERO : ObjectId := mkArr (n:=32) (repeat x00 32) I.

Definition hex (id : ObjectId) : str := hex_encode (arr_bytes id).

Definition from_hex (s : str) : Result ObjectId :=
  raw ← hex_decode (trim s);
  ok_or (arr_of 32 raw) (Invalid (bs "object id hex must be 64 chars, got {}")).

Definition shard_dirs (id : ObjectId) : Result (str * str) :=
  let h := hex id in
  a ← slice h 0 2; b ← slice h 2 4; Ok (a, b).

(** ** Object types and tree entry kinds *)

Inductive ObjectType := TBlob | TTree | TCommit | TConflict | TSnapshot | TContribution.

#[export] Instance ObjectType_eq_dec : EqDecision ObjectType.
Proof. solve_decision. Defined.

Definition ObjectType_to_u8 (t : ObjectType) : Z :=
  match t with
  | TBlob => 1 | TTree => 2 | TCommit => 3 | TConflict => 4 | TSnapshot => 5
  | TContribution => 6
  end.

Definition ObjectType_from_u8 (v : Z) : Result ObjectType :=
  match v with
  | 1 => Ok TBlob | 2 => Ok TTree | 3 => Ok TCommit | 4 => Ok TConflict
  | 5 => Ok TSnapshot | 6 => Ok TContribution
  | _ => Err (Corrupt (bs "unknown object type 0x{other:02x}"))
  end.

Definition as_str (t : ObjectType) : str :=
  match t with
  | TBlob => bs "blob" | TTree => bs "tree" | TCommit => bs "commit"
  | TConflict => bs "conflict" | TSnapshot => bs "snapshot"
  | TContribution => bs "contribution"
  end.

Inductive EntryKind := KBlob | KTree.

#[export] Instance EntryKind_eq_dec : EqDecision EntryKind.
Proof. solve_decision. Defined.

Definition EntryKind_to_u8 (k : EntryKind) : Z :=
  match k with KBlob => 1 | KTree => 2 end.

Definition EntryKind_from_u8 (v : Z) : Result EntryKind :=
  match v with
  | 1 => Ok KBlob | 2 => Ok KTree
  | _ => Err (Invalid (bs "unknown tree entry kind {other}"))
  end.

(** ** Refs *)

Inductive CasResult :=
| Updated (name : str) (oid : ObjectId)
| Forked (requested fork : str) (ours theirs : ObjectId)
| Noop (name : str) (oid : ObjectId).

Record RefRow := mkRefRow {
  ref_name : str;
  ref_oid : ObjectId;
  ref_kind : str;
  ref_protected : bool;
  ref_sealed : bool
}.

#[export] Instance CasResult_eq_dec : EqDecision CasResult.
Proof. solve_decision. Defined.
#[export] Instance RefRow_eq_dec : EqDecision RefRow.
Proof. solve_decision. Defined.

(** ** Lemmas *)

Lemma nibble_split b :
  0 <= Z.shiftr (b2z b) 4 < 16 /\ 0 <= Z.land (b2z b) 15 < 16 /\
  u8 (Z.lor (Z.shiftl (Z.shiftr (b2z b) 4) 4) (Z.land (b2z b) 15)) = b.
Proof. by destruct b; vm_compute. Qed.

Lemma hex_val_digit n : 0 <= n < 16 -> hex_val (hex_digit n) = Ok n.
Proof.
  intros Hn. assert (n ∈ seqZ 0 16) as H by (apply elem_of_seqZ; lia).
  clear Hn. revert n H. apply Forall_forall. vm_compute. repeat constructor.
Qed.

Lemma hex_decode_loop_encode l : hex_decode_loop (hex_encode l) = Ok l.
Proof.
  induction l as [|b l IH]; simpl; [done|].
  destruct (nibble_split b) as (H1 & H2 & H3).
  rewrite !hex_val_digit by done. simpl. rewrite IH. simpl. by rewrite H3.
Qed.

Lemma len_hex_encode l : len (hex_encode l) = 2 * len l.
Proof. induction l; simpl; lens_lia. Qed.

Lemma hex_encode_ascii l : Forall (fun c => 48 <= b2z c < 103) (hex_encode l).
Proof.
  induction l as [|b l IH]; simpl; [constructor|].
  constructor; [|constructor; [|done]]; destruct b; vm_compute; by split.
Qed.

Lemma hex_decode_encode l : hex_decode (hex_encode l) = Ok l.
Proof.
  unfold hex_decode. rewrite len_hex_encode, Z.even_mul. simpl.
  apply hex_decode_loop_encode.
Qed.

Lemma from_hex_hex_id id : from_hex (hex id) = Ok id.
Proof.
  unfold from_hex, hex. rewrite trim_graphic.
  - rewrite hex_decode_encode. simpl. by rewrite arr_of_bytes.
  - eapply Forall_impl; [apply hex_encode_ascii|]. simpl. lia.
Qed.

Lemma hex_decode_loop_even l : Z.even (len l) = true -> hex_decode_loop l <> Panic.
Proof.
  induction l as [l IH] using (induction_ltof1 _ length). unfold ltof in IH.
  destruct l as [|c [|d l]]; [done|done|]. intros He. simpl.
  assert (forall x, hex_val x <> Panic) as Hv by (intros x; unfold hex_val; by repeat case_match).
  destruct (hex_val c) eqn:Ec; [|done|by apply Hv in Ec]. simpl.
  destruct (hex_val d) eqn:Ed; [|done|by apply Hv in Ed]. simpl.
  specialize (IH l ltac:(simpl; lia)).
  destruct (hex_decode_loop l); [done|done|]. intros _. apply IH; [|done].
  rewrite !len_cons in He.
  replace (1 + (1 + len l)) with (len l + 2) in He by lia.
  rewrite Z.even_add in He. by destruct (Z.even (len l)).
Qed.

Lemma no_panic_from_hex s : no_panic (from_hex s).
Proof.
  unfold from_hex, hex_decode, no_panic. destruct (Z.even (len (trim s))) eqn:E; simpl; [|done].
  pose proof (hex_decode_loop_even _ E). destruct (hex_decode_loop (trim s)); [|done..].
  simpl. by destruct (arr_of 32 a).
Qed.
#[export] Hint Resolve no_panic_from_hex : forge.

(** ** Properties *)

(** The hexadecimal form of an object id, as refs, the CLI and the
    provenance index print it, reads back as the same id. *)
Theorem from_hex_of_hex (id : ObjectId) : from_hex (hex id) = Ok id.
Proof. apply from_hex_hex_id. Qed.

(** The two classifications of an error agree: errors the daemon reports
    under one wire code leave the CLI with one exit code, and the exit code is
    always one of 1 to 5. *)
Theorem wire_code_determines_exit_code (e1 e2 : Error) :
  (code e1 = code e2 -> exit_code e1 = exit_code e2) /\ 1 <= exit_code e1 <= 5.
Proof.
  split; [|destruct e1; vm_compute; split; discriminate].
  destruct e1, e2; vm_compute; intros H; (done || discriminate H).
Qed.

Lemma wire_code_determines_exit_code_witness :
  exit_code (Denied (bs "no write")) = exit_code (CapError (bs "expired")).
Proof.
  apply (proj1 (wire_code_determines_exit_code (Denied (bs "no write")) (CapError (bs "expired")))).
  reflexivity.
Defined.
