(* ===== verification/Cbor.v ===== *)
(** * [crates/forge-core/src/cbor.rs]: the canonical CBOR subset

    The encoders return the bytes they append to [out].  The decoder is the
    source's [Reader]: a buffer and a position, every read returning the value
    and the reader after it.  [codec p enc valid] is the contract the object
    decoders rely on: a read succeeds exactly on a prefix that is the encoding
    of a valid value, and consumes exactly that prefix. *)

From S2P Require Import Prelude RustStd Types.

(** ** Encoders *)

Definition u8_len (n : Z) : Z :=
  if n <? 24 then n
  else if n <=? 255 then 24
  else if n <=? 65535 then 25
  else if n <=? 4294967295 then 26
  else 27.

Definition push_uint (major n : Z) : bytes :=
  let ai := u8_len n in
  u8 (Z.lor (Z.shiftl major 5) ai) ::
  match ai with
  | 24 => [u8 n]
  | 25 => be_bytes 2 n
  | 26 => be_bytes 4 n
  | 27 => be_bytes 8 n
  | _ => []
  end.

Definition encode_u64 (n : Z) : bytes := push_uint 0 n.
Definition encode_bool (v : bool) : bytes := [if v then xf5 else xf4].
Definition encode_null : bytes := [xf6].
Definition encode_bytes (b : bytes) : bytes := push_uint 2 (len b) ++ b.
Definition encode_text (s : str) : bytes := push_uint 3 (len s) ++ s.
Definition encode_array_header (n : Z) : bytes := push_uint 4 n.
Definition encode_map_header (n : Z) : bytes := push_uint 5 n.

Definition pair_bytes (kv : bytes * bytes) : bytes := kv.1 ++ kv.2.

Definition encode_map_sorted (pairs : list (bytes * bytes)) : bytes :=
  let pairs := sort_by_key fst pairs in
  encode_map_header (len pairs) ++ concat (pair_bytes <$> pairs).

Definition text_key (s : str) : bytes := encode_text s.

#[global] Arguments push_uint : simpl never.
#[global] Arguments encode_text : simpl never.
#[global] Arguments encode_bytes : simpl never.
#[global] Arguments text_key : simpl never.
#[global] Arguments encode_map_sorted : simpl never.

(** ** The reader *)

Record Reader := mkReader { buf : bytes; pos : Z }.

(** A method of [&mut Reader] that returns a [Result]. *)
Definition P (A : Type) : Type := Reader -> Result (A * Reader).

#[export] Instance P_ret : MRet P := fun A a r => Ok (a, r).
#[export] Instance P_bind : MBind P := fun A B f p r =>
  match p r with
  | Ok (a, r') => f a r'
  | Err e => Err e
  | Panic => Panic
  end.

Definition lift {A} (m : Result A) : P A := fun r =>
  match m with Ok a => Ok (a, r) | Err e => Err e | Panic => Panic end.
Definition fail {A} (e : Error) : P A := fun _ => Err e.
Definition guard (c : bool) (e : Error) : P unit := lift (reject_if c e).
Arguments lift {A} _ _ /.
Arguments guard _ _ _ /.

Definition new (b : bytes) : Reader := mkReader b 0.
Definition remaining (r : Reader) : Result bytes := slice_from (buf r) (pos r).
Definition at_end (r : Reader) : bool := pos r =? len (buf r).

Definition take (n : Z) : P bytes := fun r =>
  let end_ := pos r + n in
  if usize_max <? end_ then Err (Corrupt (bs "cbor length overflow"))
  else if len (buf r) <? end_ then Err (Corrupt (bs "cbor truncated"))
  else
    s ← slice (buf r) (pos r) end_;
    Ok (s, mkReader (buf r) end_).

Definition non_canonical : Error := Corrupt (bs "non-canonical uint").

Definition take_uint (ai : Z) : P Z :=
  if in_range 0 23 ai then mret ai
  else if ai =? 24 then
    b ← take 1; n ← lift (b2z <$> index b 0);
    _ ← guard (n <? 24) non_canonical; mret n
  else if ai =? 25 then
    b ← take 2; let n := be_val b in
    _ ← guard (n <=? 255) non_canonical; mret n
  else if ai =? 26 then
    b ← take 4; let n := be_val b in
    _ ← guard (n <=? 65535) non_canonical; mret n
  else if ai =? 27 then
    b ← take 8; let n := be_val b in
    _ ← guard (n <=? 4294967295) non_canonical; mret n
  else if ai =? 31 then fail (Corrupt (bs "indefinite cbor is not canonical"))
  else fail (Corrupt (bs "cbor additional info")).

Definition header : P (Z * Z) :=
  s ← take 1; b ← lift (b2z <$> index s 0);
  let major := Z.shiftr b 5 in
  let ai := Z.land b 31 in
  _ ← guard (major =? 6) (Corrupt (bs "cbor tags are not canonical here"));
  mret (major, ai).

Definition bounded_len (n : Z) (what : str) : P Z := fun r =>
  _ ← reject_if (usize_max <? n) (Corrupt (what ++ bs " length overflow"));
  rem ← remaining r;
  _ ← reject_if (len rem <? n) (Corrupt (what ++ bs " length exceeds input"));
  Ok (n, r).

(** [let (major, ai) = self.header()?; if major != m { return Err(e) }], then
    [self.take_uint(ai)]. *)
Definition expect_major (m : Z) (e : Error) : P Z :=
  '(major, ai) ← header;
  _ ← guard (negb (major =? m)) e;
  take_uint ai.

Definition read_u64 : P Z := expect_major 0 (Corrupt (bs "expected uint")).

Definition read_bool : P bool :=
  s ← take 1; b ← lift (b2z <$> index s 0);
  if b =? 244 then mret false
  else if b =? 245 then mret true
  else fail (Corrupt (bs "expected bool")).

Definition null_or {A} (read : P A) : P (option A) := fun r =>
  if pos r <? len (buf r) then
    b ← index (buf r) (pos r);
    if b2z b =? 246 then Ok (None, mkReader (buf r) (pos r + 1))
    else (a ← read; mret (Some a)) r
  else (a ← read; mret (Some a)) r.

Definition read_bytes : P bytes :=
  raw ← expect_major 2 (Corrupt (bs "expected bytes"));
  n ← bounded_len raw (bs "bytes");
  take n.

Definition bstr32 : P ObjectId :=
  b ← read_bytes;
  lift (ok_or (arr_of 32 b) (Corrupt (bs "expected 32-byte bstr, got {}"))).

Definition text_bounded (max_bytes : Z) (what : str) : P str :=
  raw ← expect_major 3 (Corrupt (bs "expected text"));
  n ← bounded_len raw (bs "text");
  _ ← guard (max_bytes <? n) (Corrupt (what ++ bs " exceeds byte limit"));
  s ← take n;
  _ ← guard (negb (utf8_valid s)) (Corrupt (bs "utf8"));
  mret s.

Definition text : P str := text_bounded usize_max (bs "text").

Definition text_map_key_bounded (last : option bytes) (max_bytes : Z) (what : str)
    : P (str * option bytes) := fun r =>
  let start := pos r in
  '(k, r') ← text_bounded max_bytes what r;
  encoded ← slice (buf r') start (pos r');
  _ ← match last with
      | Some prev => reject_if (bytes_le encoded prev)
                       (Corrupt (bs "cbor map keys not strictly sorted"))
      | None => Ok tt
      end;
  Ok (k, Some encoded, r').

Definition text_map_key (last : option bytes) : P (str * option bytes) :=
  text_map_key_bounded last usize_max (bs "cbor map key").

Definition read_array : P Z := fun r =>
  '(n, r') ← expect_major 4 (Corrupt (bs "expected array")) r;
  rem ← remaining r';
  _ ← reject_if (len rem <? n) (Corrupt (bs "array count exceeds input"));
  Ok (n, r').

Definition read_map : P Z := fun r =>
  '(n, r') ← expect_major 5 (Corrupt (bs "expected map")) r;
  rem ← remaining r';
  _ ← reject_if (len rem / 2 <? n) (Corrupt (bs "map count exceeds input"));
  Ok (n, r').

(** [for _ in 0..n { s = body(s)?; }]. *)
Fixpoint rep_loop {S} (n : nat) (body : S -> P S) (s : S) : P S :=
  match n with
  | O => mret s
  | S n' => s' ← body s; rep_loop n' body s'
  end.

(** [for _ in 0..n { v.push(p(r)?); }]. *)
Definition rep_push {A} (n : nat) (p : P A) : P (list A) :=
  rep_loop n (fun v => x ← p; mret (v ++ [x])) [].

(** [let m = r.array()?; if m > limit { return Err(e) }] and the loop that
    pushes [m] items. *)
Definition array_of {A} (limit : Z) (e : Error) (p : P A) : P (list A) :=
  m ← read_array;
  _ ← guard (limit <? m) e;
  rep_push (Z.to_nat m) p.

(** One iteration of [for _ in 0..n { let k = r.text_map_key(&mut last)?;
    match k.as_str() { .. } }]: [field] is the [match] on the key, updating
    the decoder's local variables [V]. *)
Definition map_body {V} (max_bytes : Z) (what : str) (field : str -> V -> P V)
    (s : option bytes * V) : P (option bytes * V) :=
  '(k, last) ← text_map_key_bounded s.1 max_bytes what;
  v ← field k s.2;
  mret (last, v).

(** That loop, then [let n = r.map()?] and the loop. *)
Definition map_loop {V} (n max_bytes : Z) (what : str) (field : str -> V -> P V) (v0 : V)
    : P V :=
  s ← rep_loop (Z.to_nat n) (map_body max_bytes what field) (None, v0);
  mret s.2.

Definition map_of_bounded {V} (max_bytes : Z) (what : str) (field : str -> V -> P V) (v0 : V)
    : P V :=
  n ← read_map;
  map_loop n max_bytes what field v0.

Definition map_of {V} (field : str -> V -> P V) (v0 : V) : P V :=
  map_of_bounded usize_max (bs "cbor map key") field v0.

(** ** The interface between readers and encoders *)

(** A reader at the end of [pre], with [suf] still to read. *)
Definition rd (pre suf : bytes) : Reader := mkReader (pre ++ suf) (len pre).

Class Parses {A} (p : P A) (enc : A -> bytes) (valid : A -> Prop) : Prop :=
  codec_parse pre suf v :
    valid v -> len (pre ++ enc v ++ suf) <= usize_max ->
    p (rd pre (enc v ++ suf)) = Ok (v, rd (pre ++ enc v) suf).
#[global] Hint Mode Parses + ! - - : typeclass_instances.

Class Codec {A} (p : P A) (enc : A -> bytes) (valid : A -> Prop) : Prop := {
  codec_parses :: Parses p enc valid;
  codec_inv pre suf v r' :
    p (rd pre suf) = Ok (v, r') ->
    valid v /\ exists suf', suf = enc v ++ suf' /\ r' = rd (pre ++ enc v) suf'
}.
#[global] Hint Mode Codec + ! - - : typeclass_instances.

(** A reader whose position is within its buffer. *)
Definition wf_reader (r : Reader) : Prop := 0 <= pos r <= len (buf r).

(** [safe p]: [p] never panics and leaves the position within the buffer. *)
Definition safe {A} (p : P A) : Prop := forall r, wf_reader r ->
  match p r with
  | Ok (_, r') => wf_reader r' /\ buf r' = buf r
  | Err _ => True
  | Panic => False
  end.

(** ** Sequencing *)

Lemma P_bind_ok {A B} (p : P A) (f : A -> P B) r b r' :
  (p ≫= f) r = Ok (b, r') <-> exists a r1, p r = Ok (a, r1) /\ f a r1 = Ok (b, r').
Proof. unfold mbind, P_bind. destruct (p r) as [[a r1]| |]; naive_solver. Qed.

Lemma P_bind_step {A B} (p : P A) (f : A -> P B) r a r1 :
  p r = Ok (a, r1) -> (p ≫= f) r = f a r1.
Proof. unfold mbind, P_bind. by intros ->. Qed.

Lemma lift_ok {A} (m : Result A) r a r' : lift m r = Ok (a, r') <-> m = Ok a /\ r' = r.
Proof. destruct m; naive_solver. Qed.

Lemma guard_ok c e r u r' : guard c e r = Ok (u, r') <-> c = false /\ r' = r.
Proof. destruct c, u; simpl; naive_solver. Qed.

Lemma P_ret_ok {A} (a b : A) (r r' : Reader) :
  (mret a : P A) r = Ok (b, r') <-> b = a /\ r' = r.
Proof. unfold mret, P_ret. naive_solver. Qed.

Lemma rd_new b : new b = rd [] b.
Proof. done. Qed.

Lemma at_end_rd pre suf : at_end (rd pre suf) = true <-> suf = [].
Proof.
  unfold at_end, rd. simpl. rewrite Z.eqb_eq, len_app. split; [|intros ->; lens_lia].
  intros H. apply len_0. lia.
Qed.

Lemma remaining_rd pre suf : remaining (rd pre suf) = Ok suf.
Proof.
  unfold remaining, slice_from, rd. simpl.
  pose proof (slice_app (E:=Error) pre suf []) as H.
  by rewrite app_nil_r, <- len_app in H.
Qed.

(** [inv_p]: decompose every successful read into its steps. *)
Ltac inv_p_step :=
  match goal with
  | H : (_ ≫= _) ?r = Ok (_, _) |- _ =>
      apply P_bind_ok in H; let a := fresh "a" in let r1 := fresh "r" in
      let Ha := fresh "Ha" in destruct H as (a & r1 & Ha & H)
  | H : lift _ _ = Ok (_, _) |- _ => apply lift_ok in H; destruct H as [H ->]
  | H : guard _ _ _ = Ok (_, _) |- _ => apply guard_ok in H; destruct H as [H ->]
  | H : mret _ _ = Ok (_, _) |- _ => apply P_ret_ok in H; destruct H as [-> ->]
  | H : fail _ _ = Ok (_, _) |- _ => discriminate H
  | H : context [match ?x with (_, _) => _ end] |- _ => is_var x; destruct x
  end.
Ltac inv_p := repeat inv_p_step.

(** ** [take] *)

Lemma take_parse pre s suf :
  len (pre ++ s ++ suf) <= usize_max ->
  take (len s) (rd pre (s ++ suf)) = Ok (s, rd (pre ++ s) suf).
Proof.
  intros H. unfold take, rd. simpl.
  rewrite (proj2 (Z.ltb_ge _ _)) by lens_lia.
  rewrite (proj2 (Z.ltb_ge _ _)) by lens_lia.
  rewrite slice_app. simpl. by rewrite <- app_assoc, len_app.
Qed.

Lemma take_inv n pre suf s r' :
  0 <= n -> take n (rd pre suf) = Ok (s, r') ->
  len s = n /\ exists suf', suf = s ++ suf' /\ r' = rd (pre ++ s) suf'.
Proof.
  intros Hn H. unfold take, rd in H. simpl in H.
  case_match eqn:E1; [done|]. case_match eqn:E2; [done|].
  apply Z.ltb_ge in E1, E2. rewrite len_app in E2.
  set (s' := firstn (Z.to_nat n) suf). set (suf' := skipn (Z.to_nat n) suf).
  assert (suf = s' ++ suf') as Hs by (symmetry; apply take_drop).
  assert (len s' = n) as Hl.
  { unfold len, s'. rewrite length_take. unfold len in E2. lia. }
  clearbody s' suf'. subst suf.
  rewrite <- Hl in H at 1. rewrite slice_app in H. simpl in H.
  injection H as <- <-. split; [done|]. exists suf'. split; [done|].
  unfold rd. by rewrite <- app_assoc, len_app, Hl.
Qed.

(** ** Integers *)

Lemma major_byte m ai :
  0 <= m < 8 -> 0 <= ai < 32 ->
  Z.shiftr (b2z (u8 (Z.lor (Z.shiftl m 5) ai))) 5 = m /\
  Z.land (b2z (u8 (Z.lor (Z.shiftl m 5) ai))) 31 = ai.
Proof.
  intros Hm Ha.
  set (ok m ai := let b := b2z (u8 (Z.lor (Z.shiftl m 5) ai)) in
    (Z.shiftr b 5 =? m) && (Z.land b 31 =? ai)).
  assert (forallb (fun m => forallb (ok m) (seqZ 0 32)) (seqZ 0 8) = true) as H by done.
  rewrite forallb_forall in H. specialize (H m).
  rewrite forallb_forall, <- !list_elem_of_In, !elem_of_seqZ in H.
  specialize (H ltac:(lia) ai). rewrite <- list_elem_of_In, elem_of_seqZ in H.
  specialize (H ltac:(lia)). apply andb_prop in H as [?%Z.eqb_eq ?%Z.eqb_eq]. done.
Qed.

Lemma byte_major b :
  0 <= Z.shiftr (b2z b) 5 < 8 /\ 0 <= Z.land (b2z b) 31 < 32 /\
  u8 (Z.lor (Z.shiftl (Z.shiftr (b2z b) 5) 5) (Z.land (b2z b) 31)) = b.
Proof. by destruct b; vm_compute. Qed.

Lemma u8_len_range n : 0 <= n -> 0 <= u8_len n < 28.
Proof. intros Hn. unfold u8_len. repeat case_match; lia. Qed.

Lemma index_0 {E} (b : byte) l : index (b :: l) 0 = @Ok E _ b.
Proof. done. Qed.

Lemma take1_inv pre suf s r' :
  take 1 (rd pre suf) = Ok (s, r') ->
  exists b suf', s = [b] /\ suf = b :: suf' /\ r' = rd (pre ++ [b]) suf'.
Proof.
  intros (Hl & suf' & -> & ->)%take_inv; [|lia].
  destruct s as [|b [|c s]]; [done| |lens_lia]. eauto.
Qed.

Lemma take1_parse pre b suf :
  len (pre ++ b :: suf) <= usize_max ->
  take 1 (rd pre (b :: suf)) = Ok ([b], rd (pre ++ [b]) suf).
Proof. apply (take_parse pre [b] suf). Qed.

Lemma header_parse m ai pre suf :
  0 <= m < 8 -> m <> 6 -> 0 <= ai < 32 ->
  let b := u8 (Z.lor (Z.shiftl m 5) ai) in
  len (pre ++ b :: suf) <= usize_max ->
  header (rd pre (b :: suf)) = Ok ((m, ai), rd (pre ++ [b]) suf).
Proof.
  intros Hm H6 Ha b Hl. unfold header.
  erewrite P_bind_step by by apply take1_parse.
  destruct (major_byte m ai) as [E1 E2]; [done..|]. fold b in E1, E2.
  rewrite (P_bind_step _ _ _ (b2z b) (rd (pre ++ [b]) suf)) by done.
  rewrite E1, E2, (proj2 (Z.eqb_neq m 6)) by done. done.
Qed.

Lemma header_inv pre suf m ai r' :
  header (rd pre suf) = Ok ((m, ai), r') ->
  0 <= m < 8 /\ m <> 6 /\ 0 <= ai < 32 /\
  exists suf', suf = u8 (Z.lor (Z.shiftl m 5) ai) :: suf' /\
               r' = rd (pre ++ [u8 (Z.lor (Z.shiftl m 5) ai)]) suf'.
Proof.
  unfold header. intros H. inv_p. apply take1_inv in Ha as (b & suf' & -> & -> & ->).
  simpl in Ha0. injection Ha0 as <-. apply P_ret_ok in H as [[= -> ->] ->].
  destruct (byte_major b) as (? & ? & Hb). apply Z.eqb_neq in Ha1.
  repeat split; try tauto. exists suf'. by rewrite Hb.
Qed.

(** The argument bytes of [push_uint], as [take_uint] reads them. *)
Lemma take_uint_parse pre suf n :
  in_u64 n ->
  let arg := tail (push_uint 0 n) in
  len (pre ++ arg ++ suf) <= usize_max ->
  take_uint (u8_len n) (rd pre (arg ++ suf)) = Ok (n, rd (pre ++ arg) suf).
Proof.
  intros Hn. unfold in_u64, u64_max in Hn. unfold push_uint, u8_len, take_uint. cbn [tail].
  assert (forall k, 0 <= n < 256 ^ Z.of_nat k ->
    len (pre ++ be_bytes k n ++ suf) <= usize_max ->
    take (Z.of_nat k) (rd pre (be_bytes k n ++ suf)) =
      Ok (be_bytes k n, rd (pre ++ be_bytes k n) suf) /\ be_val (be_bytes k n) = n) as Hk.
  { intros k Hk Hl. split; [|by apply be_val_bytes].
    rewrite <- (len_be_bytes k n). by apply take_parse. }
  destruct (Z.ltb_spec n 24) as [H1|H1].
  { intros. unfold in_range. rewrite !(proj2 (Z.leb_le _ _)) by lia. simpl.
    replace (match n with 24 => _ | _ => _ end) with (@nil byte); [by rewrite app_nil_r|].
    by repeat (case_match; try lia). }
  destruct (Z.leb_spec n 255) as [H2|H2]; [intros Hl|
  destruct (Z.leb_spec n 65535) as [H3|H3]; [intros Hl|
  destruct (Z.leb_spec n 4294967295) as [H4|H4]; intros Hl]]; simpl in Hl |- *.
  - erewrite P_bind_step by by apply take1_parse.
    rewrite (P_bind_step _ _ _ n (rd (pre ++ [u8 n]) suf)).
    + by rewrite (proj2 (Z.ltb_ge _ _)).
    + simpl. by rewrite b2z_u8, Z.mod_small by lia.
  - destruct (Hk 2%nat) as [E1 E2]; [lia|done|].
    erewrite P_bind_step by exact E1. rewrite E2. by rewrite (proj2 (Z.leb_gt _ _)).
  - destruct (Hk 4%nat) as [E1 E2]; [lia|done|].
    erewrite P_bind_step by exact E1. rewrite E2. by rewrite (proj2 (Z.leb_gt _ _)).
  - destruct (Hk 8%nat) as [E1 E2]; [lia|done|].
    erewrite P_bind_step by exact E1. rewrite E2. by rewrite (proj2 (Z.leb_gt _ _)).
Qed.

Lemma take_uint_inv ai pre suf n r' :
  0 <= ai < 32 -> take_uint ai (rd pre suf) = Ok (n, r') ->
  in_u64 n /\ u8_len n = ai /\
  exists suf', let arg := tail (push_uint 0 n) in
    suf = arg ++ suf' /\ r' = rd (pre ++ arg) suf'.
Proof.
  intros Hai. unfold take_uint, in_range, in_u64, u64_max.
  assert (forall k s r1, take (Z.of_nat k) (rd pre suf) = Ok (s, r1) ->
    0 <= be_val s < 256 ^ Z.of_nat k /\ be_bytes k (be_val s) = s /\
    exists suf', suf = s ++ suf' /\ r1 = rd (pre ++ s) suf') as Hk.
  { intros k s r1 (Hl & Hs)%take_inv; [|lia]. rewrite <- Hl.
    split; [apply be_val_range|]. split; [|done].
    assert (k = length s) as -> by (unfold len in Hl; lia). apply be_bytes_val. }
  unfold push_uint, u8_len. cbn [tail].
  destruct (Z.leb_spec 0 ai) as [_|]; [|lia].
  destruct (Z.leb_spec ai 23) as [H1|H1]; cbn [andb].
  { intros [-> ->]%P_ret_ok. rewrite (proj2 (Z.ltb_lt ai 24)) by lia.
    repeat split; try lia. exists suf.
    replace (match ai with 24 => _ | _ => _ end) with (@nil byte); [by rewrite app_nil_r|].
    by repeat (case_match; try lia). }
  destruct (Z.eqb_spec ai 24) as [->|].
  { intros H. inv_p. apply take1_inv in Ha as (b & suf' & -> & -> & ->).
    simpl in Ha0. injection Ha0 as <-. apply Z.ltb_ge in Ha1.
    pose proof (b2z_range b).
    rewrite (proj2 (Z.ltb_ge _ _)), (proj2 (Z.leb_le _ _)) by lia.
    repeat split; try lia. exists suf'. by rewrite u8_b2z. }
  destruct (Z.eqb_spec ai 25) as [->|]; [|destruct (Z.eqb_spec ai 26) as [->|];
    [|destruct (Z.eqb_spec ai 27) as [->|]; [|by case_match]]]; intros H; inv_p.
  - apply (Hk 2%nat) in Ha as (Hr & Hb & suf' & -> & ->). apply Z.leb_gt in Ha0.
    rewrite (proj2 (Z.ltb_ge _ _)), (proj2 (Z.leb_gt _ 255)),
      (proj2 (Z.leb_le _ 65535)) by lia.
    repeat split; try lia. exists suf'. by rewrite Hb.
  - apply (Hk 4%nat) in Ha as (Hr & Hb & suf' & -> & ->). apply Z.leb_gt in Ha0.
    rewrite (proj2 (Z.ltb_ge _ _)), (proj2 (Z.leb_gt _ 255)),
      (proj2 (Z.leb_gt _ 65535)), (proj2 (Z.leb_le _ 4294967295)) by lia.
    repeat split; try lia. exists suf'. by rewrite Hb.
  - apply (Hk 8%nat) in Ha as (Hr & Hb & suf' & -> & ->). apply Z.leb_gt in Ha0.
    rewrite (proj2 (Z.ltb_ge _ _)), (proj2 (Z.leb_gt _ 255)),
      (proj2 (Z.leb_gt _ 65535)), (proj2 (Z.leb_gt _ 4294967295)) by lia.
    repeat split; try lia. exists suf'. by rewrite Hb.
Qed.

Lemma push_uint_cons m n :
  push_uint m n = u8 (Z.lor (Z.shiftl m 5) (u8_len n)) :: tail (push_uint 0 n).
Proof. done. Qed.

(** An integer, or the length of a string, array or map. *)
Lemma codec_uint m e : 0 <= m < 8 -> m <> 6 -> Codec (expect_major m e) (push_uint m) in_u64.
Proof.
  intros Hm H6. split.
  - intros pre suf n Hn Hl. rewrite push_uint_cons in Hl |- *. simpl in Hl |- *.
    pose proof (u8_len_range n ltac:(unfold in_u64 in Hn; lia)) as Hr.
    unfold expect_major. erewrite P_bind_step by (apply header_parse; [done..|lia|done]).
    simpl. rewrite Z.eqb_refl. simpl.
    rewrite (P_bind_step _ _ _ tt (rd (pre ++ [u8 (Z.lor (Z.shiftl m 5) (u8_len n))])
      (tail (push_uint 0 n) ++ suf))) by done.
    rewrite take_uint_parse; [by rewrite <- app_assoc|done|].
    by rewrite <- app_assoc.
  - intros pre suf n r' H. unfold expect_major in H. inv_p.
    apply header_inv in Ha as (_ & _ & Hai & suf' & -> & ->).
    apply negb_false_iff, Z.eqb_eq in Ha0 as ->.
    apply take_uint_inv in H as (Hn & <- & suf'' & -> & ->); [|done].
    split; [done|]. exists suf''. by rewrite (push_uint_cons m n), <- app_assoc.
Qed.

#[export] Instance codec_u64 : Codec read_u64 encode_u64 in_u64.
Proof. by apply codec_uint. Qed.

#[export] Instance codec_bool : Codec read_bool encode_bool (fun _ => True).
Proof.
  split.
  - intros pre suf v _ Hl. unfold read_bool, encode_bool. simpl in Hl |- *.
    erewrite P_bind_step by by apply take1_parse. by destruct v.
  - intros pre suf v r' H. unfold read_bool in H. inv_p.
    apply take1_inv in Ha as (b & suf' & -> & -> & ->).
    simpl in Ha0. injection Ha0 as <-.
    destruct (Z.eqb_spec (b2z b) 244) as [E|].
    { apply P_ret_ok in H as [-> ->]. apply (inj b2z _ xf4) in E as ->. eauto. }
    destruct (Z.eqb_spec (b2z b) 245) as [E|]; [|done].
    apply P_ret_ok in H as [-> ->]. apply (inj b2z _ xf5) in E as ->. eauto.
Qed.

Lemma bounded_len_parse n what pre suf :
  n <= len suf -> n <= usize_max -> bounded_len n what (rd pre suf) = Ok (n, rd pre suf).
Proof.
  intros H1 H2. unfold bounded_len. rewrite remaining_rd.
  rewrite (proj2 (Z.ltb_ge _ _)) by lia. simpl.
  by rewrite (proj2 (Z.ltb_ge _ _)) by lia.
Qed.

Lemma bounded_len_inv n what r m r' :
  bounded_len n what r = Ok (m, r') -> m = n /\ r' = r.
Proof. unfold bounded_len. intros H. by inv_ok. Qed.

(** A length followed by that many bytes. *)
Lemma codec_sized {A} m e what (f : bytes -> P A) (g : A -> bytes) (valid : A -> Prop) :
  0 <= m < 8 -> m <> 6 ->
  (forall r s v r', f s r = Ok (v, r') <-> s = g v /\ valid v /\ r' = r) ->
  Codec (raw ← expect_major m e; n ← bounded_len raw what; s ← take n; f s)
        (fun v => push_uint m (len (g v)) ++ g v)
        (fun v => valid v /\ len (g v) <= usize_max).
Proof.
  intros Hm H6 Hf. pose proof (codec_uint m e Hm H6) as HC. split.
  - intros pre suf v [Hv Hu] Hl. rewrite <- app_assoc in Hl |- *.
    pose proof (len_nonneg (g v)) as Hg.
    assert (in_u64 (len (g v))) as H64 by (by unfold usize_max in *; split).
    erewrite P_bind_step by by apply HC.
    erewrite P_bind_step by (apply bounded_len_parse; [lens_lia|done]).
    erewrite P_bind_step.
    2: { apply take_parse. by rewrite <- app_assoc. }
    apply Hf. by rewrite <- app_assoc.
  - intros pre suf v r' H. inv_p.
    apply HC in Ha as (H64 & suf' & -> & ->).
    apply bounded_len_inv in Ha0 as [-> ->]. unfold in_u64 in H64.
    apply take_inv in Ha1 as (Hlen & suf'' & -> & ->); [|lia].
    apply Hf in H as (-> & Hv & ->). rewrite <- Hlen in H64 |- *.
    split; [unfold usize_max; split; [done|lia]|].
    exists suf''. by rewrite <- !app_assoc.
Qed.

Lemma codec_ext {A} (p q : P A) enc enc' (valid valid' : A -> Prop) :
  Codec p enc valid ->
  (forall r, q r = p r) -> (forall v, enc' v = enc v) -> (forall v, valid' v <-> valid v) ->
  Codec q enc' valid'.
Proof.
  intros HC Hq He Hv. split.
  - intros pre suf v H. rewrite Hq, He. apply HC. by apply Hv.
  - intros pre suf v r' H. rewrite Hq in H. apply HC in H as [H H']. rewrite He.
    split; [by apply Hv|done].
Qed.

Lemma P_bind_assoc {A B C} (p : P A) (f : A -> P B) (g : B -> P C) r :
  ((p ≫= f) ≫= g) r = (p ≫= (fun a => f a ≫= g)) r.
Proof. unfold mbind, P_bind. by destruct (p r) as [[]| |]. Qed.

#[export] Instance codec_bytes : Codec read_bytes encode_bytes (fun b => len b <= usize_max).
Proof.
  eapply codec_ext.
  - apply (codec_sized 2 (Corrupt (bs "expected bytes")) (bs "bytes") mret id (fun _ => True));
      [done..|]. intros r s v r'. rewrite P_ret_ok. naive_solver.
  - intros r. unfold read_bytes, mbind, P_bind, mret, P_ret. by repeat case_match; simplify_eq.
  - done.
  - naive_solver.
Qed.

#[export] Instance codec_text_bounded m what :
  Codec (text_bounded m what) encode_text
        (fun s => utf8_valid s = true /\ len s <= m /\ len s <= usize_max).
Proof.
  split.
  - intros pre suf v (Hu & Hm & Hl') Hl. unfold encode_text, text_bounded in *.
    rewrite <- app_assoc in Hl |- *. pose proof (len_nonneg v) as Hg.
    assert (in_u64 (len v)) as H64 by (by unfold usize_max in *; split).
    erewrite P_bind_step by by apply (codec_uint 3 _ ltac:(lia) ltac:(lia)).
    erewrite P_bind_step by (apply bounded_len_parse; [lens_lia|done]).
    erewrite P_bind_step by (simpl; by rewrite (proj2 (Z.ltb_ge _ _))).
    erewrite P_bind_step by (apply take_parse; by rewrite <- app_assoc).
    erewrite P_bind_step by (simpl; by rewrite Hu). simpl.
    unfold mret, P_ret. by rewrite <- app_assoc.
  - intros pre suf v r' H. unfold text_bounded in H. inv_p.
    apply (codec_uint 3 _ ltac:(lia) ltac:(lia)) in Ha as (H64 & suf' & -> & ->).
    apply bounded_len_inv in Ha0 as [-> ->]. unfold in_u64 in H64.
    apply take_inv in Ha2 as (Hlen & suf'' & -> & ->); [|lia].
    apply Z.ltb_ge in Ha1. apply negb_false_iff in Ha3.
    unfold encode_text. rewrite Hlen. unfold usize_max.
    split; [repeat split; [done|lia..]|]. exists suf''. by rewrite <- !app_assoc.
Qed.

#[export] Instance codec_text :
  Codec text encode_text (fun s => utf8_valid s = true /\ len s <= usize_max).
Proof.
  eapply codec_ext; [apply (codec_text_bounded usize_max (bs "text"))|done..|].
  naive_solver.
Qed.

#[export] Instance codec_bstr32 :
  Codec bstr32 (fun id => encode_bytes (arr_bytes id)) (fun _ => True).
Proof.
  split.
  - intros pre suf v _ Hl. unfold bstr32.
    erewrite P_bind_step.
    2: { apply codec_bytes; [|done]. by rewrite arr_length_len. }
    simpl. by rewrite arr_of_bytes.
  - intros pre suf v r' H. unfold bstr32 in H. inv_p.
    apply codec_bytes in Ha as (_ & suf' & -> & ->).
    apply ok_or_ok, arr_of_some in H as <-. eauto.
Qed.

(** ** Optional values, arrays *)

Definition opt_enc {A} (enc : A -> bytes) (o : option A) : bytes :=
  match o with Some v => enc v | None => encode_null end.

(** [null_or] is sound for an encoder whose output never starts with [0xf6]. *)
Lemma codec_null_or {A} (p : P A) enc valid :
  Codec p enc valid ->
  (forall v, exists b l, enc v = b :: l /\ b <> xf6) ->
  Codec (null_or p) (opt_enc enc) (fun o => forall v, o = Some v -> valid v).
Proof.
  intros HC Hne.
  assert (forall pre b suf, null_or p (rd pre (b :: suf)) =
    if b2z b =? 246 then Ok (None, rd (pre ++ [b]) suf)
    else (a ← p; mret (Some a)) (rd pre (b :: suf))) as Hstep.
  { intros. unfold null_or, rd. simpl. rewrite (proj2 (Z.ltb_lt _ _)) by lens_lia.
    unfold index. rewrite (proj2 (Z.leb_le _ _)) by (apply len_nonneg).
    rewrite to_nat_len, lookup_app_r, Nat.sub_diag by lia. simpl.
    case_match; [|done]. by rewrite <- app_assoc, len_app, len_cons, len_nil. }
  split.
  - intros pre suf [v|] Hv Hl; simpl in *; [|by rewrite Hstep].
    destruct (Hne v) as (b & l & E & Hb). rewrite E in *. simpl in *. rewrite Hstep.
    rewrite (proj2 (Z.eqb_neq _ _)).
    + erewrite P_bind_step; [done|]. change (b :: l ++ suf) with ((b :: l) ++ suf).
      rewrite <- E. apply HC; [by apply Hv|]. by rewrite E.
    + intros E'. by apply (inj b2z b xf6) in E'.
  - intros pre suf o r' H. destruct suf as [|b suf].
    { unfold null_or, rd in H. simpl in H.
      rewrite (proj2 (Z.ltb_ge _ _)) in H by lens_lia. inv_p.
      apply HC in Ha as (_ & suf' & E & _). destruct (Hne a) as (b & l & E' & _).
      by rewrite E' in E. }
    rewrite Hstep in H. destruct (Z.eqb_spec (b2z b) 246) as [E|E].
    + injection H as <- <-. apply (inj b2z b xf6) in E as ->. split; [done|]. eauto.
    + inv_p. apply HC in Ha as (Hv & suf' & E' & ->). rewrite E'.
      split; [by intros ? [= <-]|]. eauto.
Qed.

Lemma read_array_parse pre n suf :
  in_u64 n -> n <= len suf -> len (pre ++ encode_array_header n ++ suf) <= usize_max ->
  read_array (rd pre (encode_array_header n ++ suf)) =
    Ok (n, rd (pre ++ encode_array_header n) suf).
Proof.
  intros Hn Hs Hl. unfold read_array.
  rewrite (codec_parse (Parses:=@codec_parses _ _ _ _ (codec_uint 4 _ ltac:(lia) ltac:(lia))) pre suf n) by done.
  simpl. rewrite remaining_rd. simpl. by rewrite (proj2 (Z.ltb_ge _ _)).
Qed.

Lemma read_array_inv pre suf n r' :
  read_array (rd pre suf) = Ok (n, r') ->
  in_u64 n /\ exists suf', suf = encode_array_header n ++ suf' /\ n <= len suf' /\
    r' = rd (pre ++ encode_array_header n) suf'.
Proof.
  intros H. unfold read_array in H. inv_ok.
  apply (codec_uint 4 _ ltac:(lia) ltac:(lia)) in Ha as (Hn & suf' & -> & ->).
  rewrite remaining_rd in Ha0. injection Ha0 as <-. apply Z.ltb_ge in Ha1. eauto.
Qed.

Lemma read_map_parse pre n suf :
  in_u64 n -> 2 * n <= len suf -> len (pre ++ encode_map_header n ++ suf) <= usize_max ->
  read_map (rd pre (encode_map_header n ++ suf)) =
    Ok (n, rd (pre ++ encode_map_header n) suf).
Proof.
  intros Hn Hs Hl. unfold read_map.
  rewrite (codec_parse (Parses:=@codec_parses _ _ _ _ (codec_uint 5 _ ltac:(lia) ltac:(lia))) pre suf n) by done.
  simpl. rewrite remaining_rd. simpl. rewrite (proj2 (Z.ltb_ge _ _)); [done|].
  apply Z.div_le_lower_bound; lia.
Qed.

Lemma read_map_inv pre suf n r' :
  read_map (rd pre suf) = Ok (n, r') ->
  in_u64 n /\ exists suf', suf = encode_map_header n ++ suf' /\
    r' = rd (pre ++ encode_map_header n) suf'.
Proof.
  intros H. unfold read_map in H. inv_ok.
  apply (codec_uint 5 _ ltac:(lia) ltac:(lia)) in Ha as (Hn & suf' & -> & ->).
  rewrite remaining_rd in Ha0. injection Ha0 as <-. eauto.
Qed.

Section rep_push_parse.
Context {A} (p : P A) (enc : A -> bytes) (valid : A -> Prop) {HC : Parses p enc valid}.

Lemma rep_push_parse_acc acc l pre suf :
  Forall valid l -> len (pre ++ concat (enc <$> l) ++ suf) <= usize_max ->
  rep_loop (length l) (fun v => x ← p; mret (v ++ [x])) acc
    (rd pre (concat (enc <$> l) ++ suf)) =
  Ok (acc ++ l, rd (pre ++ concat (enc <$> l)) suf).
Proof using HC.
  intros Hv; revert acc pre. induction Hv as [|x l Hx Hv IH]; intros acc pre Hl; simpl.
  { by rewrite !app_nil_r. }
  simpl in Hl. rewrite <- app_assoc in Hl |- *.
  erewrite P_bind_step. 2: { erewrite P_bind_step by by apply HC. done. }
  rewrite IH by by rewrite <- app_assoc. by rewrite <- !app_assoc.
Qed.

Lemma rep_push_parse l pre suf :
  Forall valid l -> len (pre ++ concat (enc <$> l) ++ suf) <= usize_max ->
  rep_push (length l) p (rd pre (concat (enc <$> l) ++ suf)) =
  Ok (l, rd (pre ++ concat (enc <$> l)) suf).
Proof using HC. apply (rep_push_parse_acc []). Qed.

Lemma parses_array limit e :
  limit <= usize_max -> (forall v, 0 < len (enc v)) ->
  Parses (array_of limit e p)
        (fun l => encode_array_header (len l) ++ concat (enc <$> l))
        (fun l => Forall valid l /\ len l <= limit).
Proof using HC.
  intros Hlim Hpos.
  assert (forall l, len l <= len (concat (enc <$> l))) as Hlen.
  { induction l as [|x l IH]; csimpl; [done|]. specialize (Hpos x). lens_lia. }
  intros pre suf l [Hv Hn] Hl. rewrite <- app_assoc in Hl |- *.
  unfold array_of. specialize (Hlen l). pose proof (len_nonneg l).
  erewrite P_bind_step.
  2: { apply read_array_parse; [|lens_lia|done]. by split; unfold usize_max in *; lia. }
  erewrite P_bind_step by (simpl; by rewrite (proj2 (Z.ltb_ge _ _))).
  rewrite to_nat_len, rep_push_parse; [by rewrite <- app_assoc|done|].
  by rewrite <- app_assoc.
Qed.
End rep_push_parse.

Section rep_push.
Context {A} (p : P A) (enc : A -> bytes) (valid : A -> Prop) {HC : Codec p enc valid}.

Lemma rep_push_inv_acc n acc pre suf l r' :
  rep_loop n (fun v => x ← p; mret (v ++ [x])) acc (rd pre suf) = Ok (l, r') ->
  exists k suf', l = acc ++ k /\ length k = n /\ Forall valid k /\
    suf = concat (enc <$> k) ++ suf' /\ r' = rd (pre ++ concat (enc <$> k)) suf'.
Proof using HC.
  revert acc pre suf; induction n as [|n IH]; intros acc pre suf H; simpl in H.
  { apply P_ret_ok in H as [-> ->]. exists [], suf. by rewrite !app_nil_r. }
  inv_p. apply HC in Ha0 as (Hv & suf' & -> & ->).
  apply IH in H as (k & suf'' & -> & <- & Hk & -> & ->).
  exists (a0 :: k), suf''. simpl. rewrite <- !app_assoc. repeat split. by constructor.
Qed.

Lemma codec_array limit e :
  limit <= usize_max -> (forall v, 0 < len (enc v)) ->
  Codec (array_of limit e p)
        (fun l => encode_array_header (len l) ++ concat (enc <$> l))
        (fun l => Forall valid l /\ len l <= limit).
Proof using HC.
  intros Hlim Hpos. split; [by apply parses_array; [apply _|..]|].
  intros pre suf l r' H. unfold array_of in H. inv_p.
  apply read_array_inv in Ha as (Hn & suf' & -> & _ & ->). apply Z.ltb_ge in Ha0.
  apply rep_push_inv_acc in H as (k & suf'' & -> & Hk & Hv & -> & ->). simpl.
  unfold in_u64 in Hn. assert (len k = a) as -> by (unfold len; lia).
  split; [done|]. exists suf''. by rewrite <- !app_assoc.
Qed.
End rep_push.

(** ** Maps *)

Lemma text_map_key_parse last max what k pre suf :
  utf8_valid k = true -> len k <= max -> max <= usize_max ->
  (forall prev, last = Some prev -> bytes_lt prev (text_key k) = true) ->
  len (pre ++ text_key k ++ suf) <= usize_max ->
  text_map_key_bounded last max what (rd pre (text_key k ++ suf)) =
    Ok (k, Some (text_key k), rd (pre ++ text_key k) suf).
Proof.
  intros Hk Hu Hmax Hlast Hl. unfold text_map_key_bounded.
  rewrite (codec_parse (Parses:=@codec_parses _ _ _ _ (codec_text_bounded _ _)) pre suf k);
    [|split_and!; [done..|lia]|done]. simpl.
  rewrite <- app_assoc, len_app. unfold text_key in *. rewrite slice_app. simpl.
  destruct last as [prev|]; [|done]. simpl.
  specialize (Hlast prev eq_refl).
  destruct (bytes_le (encode_text k) prev) eqn:E; [|done].
  apply bytes_le_spec in E as [E| <-]; [apply bytes_lt_spec in E|].
  - pose proof (bytes_lt_trans _ _ _ E Hlast) as E'. by rewrite bytes_lt_irrefl in E'.
  - by rewrite bytes_lt_irrefl in Hlast.
Qed.

Lemma text_map_key_bounded_inv last m what pre suf k last' r' :
  text_map_key_bounded last m what (rd pre suf) = Ok (k, last', r') ->
  utf8_valid k = true /\ len k <= m /\ len k <= usize_max /\ last' = Some (text_key k) /\
  (forall prev, last = Some prev -> bytes_lt prev (text_key k) = true) /\
  exists suf', suf = text_key k ++ suf' /\ r' = rd (pre ++ text_key k) suf'.
Proof.
  intros H. unfold text_map_key_bounded in H. inv_ok.
  apply codec_text_bounded in Ha as ((Hu & Hm & Hl) & suf' & -> & ->).
  simpl in Ha0. rewrite <- app_assoc, len_app, slice_app in Ha0. injection Ha0 as <-.
  split_and!; try done; [|by exists suf'].
  intros prev ->. destruct a0. apply reject_if_ok, bytes_le_false in Ha1. done.
Qed.

(** The pairs [ps] can be read one after the other, taking the decoder's local
    variables from [v] to [v']. *)
Fixpoint reads_fields_in {V} (max : Z) (field : str -> V -> P V) (v : V)
    (ps : list (bytes * bytes)) (v' : V) : Prop :=
  match ps with
  | [] => v' = v
  | (kb, val) :: ps' => exists k v1,
      kb = text_key k /\ utf8_valid k = true /\ len k <= max /\ 0 < len val /\
      (forall pre suf, len (pre ++ val ++ suf) <= usize_max ->
         field k v (rd pre (val ++ suf)) = Ok (v1, rd (pre ++ val) suf)) /\
      reads_fields_in max field v1 ps' v'
  end.
Abbreviation reads_fields := (reads_fields_in usize_max).

(** A decoder's local variable, as the pair the encoder writes for it. *)
Definition opt_pair {A} (k : str) (enc : A -> bytes) (o : option A) : list (bytes * bytes) :=
  match o with Some a => [(text_key k, enc a)] | None => [] end.

(** [fs'] is [fs] with the pair [kv] of a new key recorded. *)
Definition records (fs fs' : list (bytes * bytes)) (kv : bytes * bytes) : Prop :=
  kv.1 ∉ fs.*1 -> fs' ≡ₚ fs ++ [kv].

Lemma push_uint_pos m n : 0 < len (push_uint m n).
Proof. rewrite push_uint_cons. lens_lia. Qed.
Lemma encode_text_pos s : 0 < len (encode_text s).
Proof. unfold encode_text. pose proof (push_uint_pos 3 (len s)). lens_lia. Qed.
Lemma encode_bytes_pos b : 0 < len (encode_bytes b).
Proof. unfold encode_bytes. pose proof (push_uint_pos 2 (len b)). lens_lia. Qed.
Lemma encode_u64_pos n : 0 < len (encode_u64 n).
Proof. apply push_uint_pos. Qed.
Lemma encode_bool_pos b : 0 < len (encode_bool b).
Proof. done. Qed.
Lemma encode_array_pos n l : 0 < len (encode_array_header n ++ l).
Proof. unfold encode_array_header. pose proof (push_uint_pos 4 n). lens_lia. Qed.
Lemma encode_map_sorted_pos fs : 0 < len (encode_map_sorted fs).
Proof.
  unfold encode_map_sorted, encode_map_header.
  match goal with |- context [push_uint 5 ?n] => pose proof (push_uint_pos 5 n) end.
  lens_lia.
Qed.
Create HintDb pos.
#[export] Hint Resolve encode_text_pos encode_bytes_pos encode_u64_pos encode_bool_pos
  encode_array_pos encode_map_sorted_pos : pos.

Lemma concat_pairs_cons k v ps :
  concat (pair_bytes <$> (k, v) :: ps) = k ++ v ++ concat (pair_bytes <$> ps).
Proof. csimpl. unfold pair_bytes at 1. simpl. by rewrite <- app_assoc. Qed.

Lemma reads_cons {V A} (field : str -> V -> P V) v k (p : P A) enc valid
    (upd : A -> V) a val ps v' max :
  (forall r, field k v r = (x ← p; mret (upd x)) r) -> Parses p enc valid ->
  val = enc a -> valid a -> 0 < len (enc a) -> utf8_valid k = true -> (len k <=? max) = true ->
  reads_fields_in max field (upd a) ps v' ->
  reads_fields_in max field v ((text_key k, val) :: ps) v'.
Proof.
  intros Hf HC -> Hv Hp Hu Hk Hr. exists k, (upd a). apply Z.leb_le in Hk.
  split_and!; [done..| |done].
  intros pre suf Hl. rewrite Hf. erewrite P_bind_step by by apply HC. done.
Qed.

Section map_of.
Context {V : Type} (max : Z) (what : str) (field : str -> V -> P V).

Lemma map_loop_parse last v ps v' pre suf :
  StronglySorted (key_lt fst) ps ->
  (forall prev, last = Some prev -> Forall (fun kv => bytes_lt prev kv.1 = true) ps) ->
  reads_fields_in max field v ps v' -> max <= usize_max ->
  len (pre ++ concat (pair_bytes <$> ps) ++ suf) <= usize_max ->
  exists last',
    rep_loop (length ps) (map_body max what field) (last, v)
      (rd pre (concat (pair_bytes <$> ps) ++ suf)) =
    Ok ((last', v'), rd (pre ++ concat (pair_bytes <$> ps)) suf).
Proof.
  intros Hs; revert last v pre. induction Hs as [|[kb val] ps Hs IH Hlt];
    intros last v pre Hlast Hr Hmax Hl.
  { simpl in *. subst. exists last. by rewrite app_nil_r. }
  destruct Hr as (k & v1 & -> & Hu & Hk & _ & Hf & Hr).
  rewrite concat_pairs_cons in *. cbn [length rep_loop].
  rewrite <- !app_assoc in Hl |- *.
  destruct (IH (Some (text_key k)) v1 ((pre ++ text_key k) ++ val)) as [last' E].
  - intros prev [= <-]. done.
  - done.
  - done.
  - by rewrite <- !app_assoc.
  - exists last'. erewrite P_bind_step; [by rewrite E, <- !app_assoc|].
    unfold map_body. erewrite P_bind_step.
    2: { apply text_map_key_parse; [done|done|done| |done]. intros prev Hp.
         specialize (Hlast prev Hp). by apply Forall_cons in Hlast as [? _]. }
    cbn beta iota. erewrite P_bind_step; [done|]. apply Hf. by rewrite <- app_assoc.
Qed.

Lemma reads_fields_len v ps v' :
  reads_fields_in max field v ps v' -> 2 * len ps <= len (concat (pair_bytes <$> ps)).
Proof.
  revert v; induction ps as [|[kb val] ps IH]; intros v; [done|].
  rewrite concat_pairs_cons.
  intros (k & v1 & -> & _ & _ & Hval & _ & Hr). apply IH in Hr.
  unfold text_key, encode_text. rewrite push_uint_cons. simpl. lens_lia.
Qed.

(** Reading back what [encode_map_sorted] wrote: first the count, then the
    pairs. *)
Lemma map_parts_parse v0 v fs pre suf :
  NoDup fs.*1 ->
  reads_fields_in max field v0 (sort_by_key fst fs) v -> max <= usize_max ->
  len (pre ++ encode_map_sorted fs ++ suf) <= usize_max ->
  exists r, read_map (rd pre (encode_map_sorted fs ++ suf)) = Ok (len fs, r) /\
    map_loop (len fs) max what field v0 r = Ok (v, rd (pre ++ encode_map_sorted fs) suf).
Proof.
  intros Hnd Hr Hmax Hl. pose proof (sort_by_key_strict fst fs Hnd) as Hs.
  assert (len (sort_by_key fst fs) = len fs) as Hlen.
  { unfold len. by rewrite (Permutation_length (sort_by_key_perm fst fs)). }
  unfold encode_map_sorted in *. rewrite Hlen in *. set (ps := sort_by_key fst fs) in *.
  pose proof (reads_fields_len _ _ _ Hr) as H2. rewrite <- app_assoc in Hl |- *.
  pose proof (len_nonneg ps).
  exists (rd (pre ++ encode_map_header (len fs)) (concat (pair_bytes <$> ps) ++ suf)). split.
  - apply read_map_parse; [|lens_lia|done]. unfold in_u64, usize_max in *. lens_lia.
  - unfold map_loop.
    destruct (map_loop_parse None v0 ps v (pre ++ encode_map_header (len fs)) suf)
      as [last' E]; [done..|by rewrite <- app_assoc|].
    rewrite <- Hlen, to_nat_len. rewrite Hlen. erewrite P_bind_step by exact E.
    unfold mret, P_ret. simpl. by rewrite <- app_assoc.
Qed.

(** The first key of what [encode_map_sorted] wrote. *)
Lemma map_first_key v0 v fs k val ps max' what' :
  sort_by_key fst fs = (text_key k, val) :: ps ->
  reads_fields_in max field v0 ((text_key k, val) :: ps) v ->
  utf8_valid k = true -> len k <= max' -> max' <= usize_max ->
  len (encode_map_sorted fs) <= usize_max ->
  exists r r2, read_map (new (encode_map_sorted fs)) = Ok (len fs, r) /\
    text_map_key_bounded None max' what' r = Ok (k, Some (text_key k), r2).
Proof.
  intros Es Hr Hu Hk Hmax Hl. apply reads_fields_len in Hr.
  assert (len (sort_by_key fst fs) = len fs) as Hlen.
  { unfold len. by rewrite (Permutation_length (sort_by_key_perm fst fs)). }
  unfold encode_map_sorted in *. rewrite Hlen, Es in *. rewrite Hlen in Hr.
  eexists _, _. split.
  - rewrite rd_new. apply (read_map_parse [] (len fs)); [|lia|done].
    pose proof (len_nonneg fs). unfold in_u64, usize_max in *.
    rewrite len_app in Hl. pose proof (len_nonneg (encode_map_header (len fs))). lia.
  - rewrite concat_pairs_cons in *. apply text_map_key_parse; [done|done|done|done|].
    done.
Qed.

Lemma map_of_bounded_parse v0 v fs pre suf :
  NoDup fs.*1 ->
  reads_fields_in max field v0 (sort_by_key fst fs) v -> max <= usize_max ->
  len (pre ++ encode_map_sorted fs ++ suf) <= usize_max ->
  map_of_bounded max what field v0 (rd pre (encode_map_sorted fs ++ suf)) =
    Ok (v, rd (pre ++ encode_map_sorted fs) suf).
Proof.
  intros Hnd Hr Hmax Hl.
  destruct (map_parts_parse v0 v fs pre suf Hnd Hr Hmax Hl) as (r & E1 & E2).
  unfold map_of_bounded. by erewrite P_bind_step by exact E1.
Qed.

(** What a decoder reads is the sorted map of the fields it set, when each
    [match] arm records exactly the value it consumed. *)
Context (fields : V -> list (bytes * bytes)) (inv : V -> Prop).
Hypothesis field_inv : forall k v pre suf v' r',
  field k v (rd pre suf) = Ok (v', r') -> inv v ->
  exists val suf', suf = val ++ suf' /\ r' = rd (pre ++ val) suf' /\
    records (fields v) (fields v') (text_key k, val) /\ inv v'.

Lemma map_loop_inv n last v ps0 pre suf last' v' r' :
  StronglySorted (key_lt fst) ps0 -> fields v ≡ₚ ps0 ->
  fst <$> list.last ps0 = last -> inv v ->
  rep_loop n (map_body max what field) (last, v) (rd pre suf) = Ok ((last', v'), r') ->
  exists ps suf', length ps = n /\ suf = concat (pair_bytes <$> ps) ++ suf' /\
    r' = rd (pre ++ concat (pair_bytes <$> ps)) suf' /\
    StronglySorted (key_lt fst) (ps0 ++ ps) /\ fields v' ≡ₚ ps0 ++ ps /\ inv v'.
Proof using field_inv.
  revert last v ps0 pre suf. induction n as [|n IH]; intros last v ps0 pre suf Hs Hp Hlast Hinv H.
  { simpl in H. apply P_ret_ok in H as [[= -> ->] ->].
    exists [], suf. by rewrite !app_nil_r. }
  simpl in H. apply P_bind_ok in H as ([last1 v1] & r1 & Hb & H).
  unfold map_body in Hb. apply P_bind_ok in Hb as ([k last2] & r2 & Hk & Hb).
  apply P_bind_ok in Hb as (v2 & r3 & Hf & Hb). apply P_ret_ok in Hb as [[= -> ->] ->].
  apply text_map_key_bounded_inv in Hk as (_ & _ & _ & -> & Hlt & suf1 & -> & ->).
  apply field_inv in Hf as (val & suf2 & -> & -> & Hfv & Hinv'); [|done]. cbn [fst snd] in *.
  assert (Forall (fun y => key_lt fst y (text_key k, val)) ps0) as Hall.
  { destruct ps0 as [|x ps0 _] using rev_ind; [constructor|].
    rewrite last_snoc in Hlast. specialize (Hlt x.1 (eq_sym Hlast)).
    pose proof (strictly_sorted_extend fst ps0 x (text_key k, val) Hs Hlt) as He.
    by apply strictly_sorted_snoc in He as [_ ?]. }
  apply (IH _ _ (ps0 ++ [(text_key k, val)])) in H
    as (ps & suf' & <- & -> & -> & Hs' & Hp' & Hi').
  - exists ((text_key k, val) :: ps), suf'. rewrite concat_pairs_cons.
    rewrite <- !app_assoc in *. by split_and!.
  - by apply strictly_sorted_snoc.
  - rewrite Hfv; [by rewrite Hp|]. rewrite Hp.
    intros (y & Ey & Hy)%list_elem_of_fmap. rewrite Forall_forall in Hall.
    specialize (Hall y Hy). by apply bytes_lt_ne in Hall.
  - by rewrite last_snoc.
  - done.
Qed.

Lemma map_of_bounded_inv v0 pre suf v r' :
  fields v0 = [] -> inv v0 ->
  map_of_bounded max what field v0 (rd pre suf) = Ok (v, r') ->
  exists suf', suf = encode_map_sorted (fields v) ++ suf' /\
    r' = rd (pre ++ encode_map_sorted (fields v)) suf' /\ inv v.
Proof using field_inv.
  intros H0 Hi0 H. unfold map_of_bounded, map_loop in H. inv_p.
  apply read_map_inv in Ha as (Hn & suf1 & -> & ->). unfold in_u64 in Hn.
  destruct a0 as [last1 v1].
  apply (map_loop_inv _ _ _ []) in Ha0 as (ps & suf' & Hlen & -> & -> & Hs & Hp & Hi);
    [|constructor|by rewrite H0|done|done].
  exists suf'. cbn [fst snd app] in *. unfold encode_map_sorted.
  rewrite (sort_by_key_of_perm fst ps (fields v1)) by done.
  replace (len ps) with a by (unfold len; lia). by rewrite <- !app_assoc.
Qed.
End map_of.

Lemma map_of_parse {V} (field : str -> V -> P V) v0 v fs pre suf :
  NoDup fs.*1 ->
  reads_fields field v0 (sort_by_key fst fs) v ->
  len (pre ++ encode_map_sorted fs ++ suf) <= usize_max ->
  map_of field v0 (rd pre (encode_map_sorted fs ++ suf)) =
    Ok (v, rd (pre ++ encode_map_sorted fs) suf).
Proof. intros. by apply map_of_bounded_parse. Qed.

Lemma map_of_inv {V} (field : str -> V -> P V) fields (inv : V -> Prop) :
  (forall k v pre suf v' r', field k v (rd pre suf) = Ok (v', r') -> inv v ->
     exists val suf', suf = val ++ suf' /\ r' = rd (pre ++ val) suf' /\
       records (fields v) (fields v') (text_key k, val) /\ inv v') ->
  forall v0 pre suf v r', fields v0 = [] -> inv v0 ->
  map_of field v0 (rd pre suf) = Ok (v, r') ->
  exists suf', suf = encode_map_sorted (fields v) ++ suf' /\
    r' = rd (pre ++ encode_map_sorted (fields v)) suf' /\ inv v.
Proof. intros Hf v0 pre suf v r'. by apply map_of_bounded_inv. Qed.

(** Rules for [records]: the slot of the key is in front, or further on. *)
Lemma records_here {A} k (enc : A -> bytes) o a l val :
  val = enc a ->
  records (opt_pair k enc o ++ l) (opt_pair k enc (Some a) ++ l) (text_key k, val).
Proof.
  intros ->. unfold records. destruct o; simpl; intros H; [by destruct H; left|].
  by rewrite Permutation_cons_append.
Qed.
Lemma records_last {A} k (enc : A -> bytes) o a val :
  val = enc a ->
  records (opt_pair k enc o) (opt_pair k enc (Some a)) (text_key k, val).
Proof. intros E. pose proof (records_here k enc o a [] val E) as H. by rewrite !app_nil_r in H. Qed.
Lemma records_there p l l' kv : records l l' kv -> records (p ++ l) (p ++ l') kv.
Proof.
  unfold records. intros H Hn. rewrite H, app_assoc; [done|].
  intros Hin. apply Hn. rewrite fmap_app. by apply elem_of_app; right.
Qed.

(** [text_field]: case analysis on the key a decoder [match]es on. *)
Ltac eval_keys :=
  repeat match goal with
  | |- context [bytes_eqb (bs ?a) (bs ?b)] =>
      let r := eval vm_compute in (bytes_eqb (bs a) (bs b)) in
      change (bytes_eqb (bs a) (bs b)) with r
  end.
Ltac records :=
  solve [repeat first [apply records_here; reflexivity | apply records_last; reflexivity
                      | apply records_there]].
Ltac key_cases :=
  repeat match goal with
  | H : context [bytes_eqb ?k (bs ?s)] |- _ =>
      let E := fresh "E" in
      destruct (bytes_eqb k (bs s)) eqn:E;
      [apply bytes_eqb_true in E; subst k|clear E]
  end.

(** ** No decoder panics *)

Create HintDb safe.

Lemma safe_bind {A B} (p : P A) (f : A -> P B) :
  safe p -> (forall a, safe (f a)) -> safe (p ≫= f).
Proof.
  intros Hp Hf r Hr. specialize (Hp r Hr). unfold mbind, P_bind.
  destruct (p r) as [[a r1]| |]; [|done..]. destruct Hp as [Hr1 E].
  specialize (Hf a r1 Hr1). destruct (f a r1) as [[b r2]| |]; [|done..].
  by rewrite <- E.
Qed.
Lemma safe_ret {A} (a : A) : safe (mret a).
Proof. done. Qed.
Lemma safe_fail {A} e : safe (@fail A e).
Proof. done. Qed.
Lemma safe_guard c e : safe (guard c e).
Proof. by destruct c. Qed.
Lemma safe_lift {A} (m : Result A) : no_panic m -> safe (lift m).
Proof. intros Hm r Hr. destruct m; simpl; by auto. Qed.

#[export] Hint Resolve safe_ret safe_fail safe_guard : safe.
#[export] Hint Resolve safe_lift : safe.

(** [safe_step]: one step of a no-panic proof, following the code's shape. *)
Ltac safe_step :=
  match goal with
  | |- safe (_ ≫= _) => apply safe_bind; [|intros ?]
  | |- safe (let _ := _ in _) => cbv zeta
  | |- safe (match ?x with _ => _ end) => destruct x
  | |- safe _ => solve [auto with safe forge]
  end.
Ltac safe := repeat safe_step.

Lemma no_panic_slice {A} (l : list A) a b :
  0 <= a -> a <= b -> b <= len l -> exists s, slice l a b = @Ok Error _ s /\ len s = b - a.
Proof.
  intros H1 H2 H3. unfold slice. rewrite !(proj2 (Z.leb_le _ _)) by done. simpl.
  eexists; split; [done|]. unfold len in *. rewrite length_take, length_drop. lia.
Qed.

Lemma take_safe n r : 0 <= n -> wf_reader r ->
  match take n r with
  | Ok (s, r') => len s = n /\ wf_reader r' /\ buf r' = buf r
  | Err _ => True
  | Panic => False
  end.
Proof.
  intros Hn [H1 H2]. unfold take.
  destruct (Z.ltb_spec usize_max (pos r + n)); [done|].
  destruct (Z.ltb_spec (len (buf r)) (pos r + n)); [done|].
  destruct (no_panic_slice (buf r) (pos r) (pos r + n)) as (s & -> & Hs); [lia..|].
  simpl. unfold wf_reader. simpl. split_and!; first [done|lia].
Qed.

Lemma safe_take n : 0 <= n -> safe (take n).
Proof. intros Hn r Hr. pose proof (take_safe n r Hn Hr).
  destruct (take n r) as [[s r']| |]; tauto.
Qed.

(** [self.take(1)?[0]] *)
Lemma safe_take_index {A} (f : Z -> P A) :
  (forall b, 0 <= b < 256 -> safe (f b)) ->
  safe (s ← take 1; b ← lift (b2z <$> index s 0); f b).
Proof.
  intros Hf r Hr. pose proof (take_safe 1 r ltac:(lia) Hr) as Ht.
  unfold mbind at 1, P_bind at 1. destruct (take 1 r) as [[s r1]| |]; [|done..].
  destruct Ht as (Hl & Hr1 & E). destruct s as [|b s]; [done|].
  rewrite (P_bind_step _ _ _ (b2z b) r1) by done.
  specialize (Hf (b2z b) (b2z_range b) r1 Hr1). rewrite <- E. done.
Qed.

Lemma safe_take_uint ai : safe (take_uint ai).
Proof.
  unfold take_uint. repeat case_match; [safe| |safe..].
  { apply safe_take_index. intros b _. safe. }
  all: by apply safe_take.
Qed.
#[export] Hint Resolve safe_take_uint : safe.

Lemma safe_header : safe header.
Proof. unfold header. apply safe_take_index. intros b _. cbv zeta. safe. Qed.
#[export] Hint Resolve safe_header : safe.

Lemma safe_expect_major m e : safe (expect_major m e).
Proof. unfold expect_major. safe. Qed.
#[export] Hint Resolve safe_expect_major : safe.

(** A length read from the input is a non-negative integer. *)
Lemma header_ai_range r m ai r' : header r = Ok ((m, ai), r') -> 0 <= ai < 32.
Proof.
  unfold header. intros H. inv_p. apply P_ret_ok in H as [[= -> ->] _].
  destruct (index a 0); simplify_eq/=. by apply byte_major.
Qed.

Lemma expect_major_nonneg m e r n r' : expect_major m e r = Ok (n, r') -> 0 <= n.
Proof.
  unfold expect_major. intros H. inv_p. apply header_ai_range in Ha.
  unfold take_uint in H. repeat case_match; inv_p; try done; lia.
Qed.

Lemma remaining_safe r : wf_reader r -> exists s, remaining r = Ok s.
Proof.
  intros [H1 H2]. unfold remaining, slice_from.
  destruct (no_panic_slice (buf r) (pos r) (len (buf r))) as (s & -> & _); eauto; lia.
Qed.

Lemma bounded_len_safe n what : safe (bounded_len n what).
Proof.
  intros r Hr. unfold bounded_len. destruct (remaining_safe r Hr) as [s ->].
  destruct (usize_max <? n); simpl; [done|]. by destruct (len s <? n).
Qed.
#[export] Hint Resolve bounded_len_safe : safe.

(** The rest of a read may rely on the length being non-negative. *)
Lemma safe_expect_major_bind {A} m e (f : Z -> P A) :
  (forall n, 0 <= n -> safe (f n)) -> safe (n ← expect_major m e; f n).
Proof.
  intros Hf r Hr. pose proof (safe_expect_major m e r Hr) as Hp.
  unfold mbind, P_bind. destruct (expect_major m e r) as [[n r1]| |] eqn:E; [|done..].
  apply expect_major_nonneg in E. destruct Hp as [Hr1 Eb].
  specialize (Hf n E r1 Hr1). rewrite <- Eb. done.
Qed.

Lemma safe_bounded_len_bind {A} n what (f : Z -> P A) :
  safe (f n) -> safe (m ← bounded_len n what; f m).
Proof.
  intros Hf r Hr. pose proof (bounded_len_safe n what r Hr) as Hp.
  unfold mbind, P_bind. destruct (bounded_len n what r) as [[m r1]| |] eqn:E; [|done..].
  apply bounded_len_inv in E as [-> ->]. by apply Hf.
Qed.

Lemma safe_read_u64 : safe read_u64.
Proof. apply safe_expect_major. Qed.
Lemma safe_read_bool : safe read_bool.
Proof. unfold read_bool. apply safe_take_index. intros b _. safe. Qed.
Lemma safe_read_bytes : safe read_bytes.
Proof.
  unfold read_bytes. apply safe_expect_major_bind. intros n Hn.
  apply safe_bounded_len_bind. by apply safe_take.
Qed.
#[export] Hint Resolve safe_read_u64 safe_read_bool safe_read_bytes : safe.
Lemma safe_bstr32 : safe bstr32.
Proof. unfold bstr32. safe. Qed.
Lemma safe_text_bounded m what : safe (text_bounded m what).
Proof.
  unfold text_bounded. apply safe_expect_major_bind. intros n Hn.
  apply safe_bounded_len_bind. safe. by apply safe_take.
Qed.
#[export] Hint Resolve safe_bstr32 safe_text_bounded : safe.
Lemma safe_text : safe text.
Proof. apply safe_text_bounded. Qed.
#[export] Hint Resolve safe_text : safe.

Lemma safe_null_or {A} (p : P A) : safe p -> safe (null_or p).
Proof.
  intros Hp r Hr. assert (safe (a ← p; mret (Some a))) as Hs by safe.
  unfold null_or. destruct (Z.ltb_spec (pos r) (len (buf r))) as [H|H]; [|by apply Hs].
  destruct Hr as [H1 H2]. unfold index. rewrite (proj2 (Z.leb_le _ _)) by done.
  destruct (lookup_lt_is_Some_2 (buf r) (Z.to_nat (pos r))) as [b ->];
    [unfold len in H; lia|]. simpl.
  destruct (b2z b =? 246); [|by apply Hs]. unfold wf_reader. simpl.
  split; [lia|done].
Qed.

(** The position only moves forward on a successful read of a safe reader, so
    the bytes between two positions can be sliced. *)
Definition forward {A} (p : P A) : Prop := forall r a r', p r = Ok (a, r') -> pos r <= pos r'.

Lemma forward_bind {A B} (p : P A) (f : A -> P B) :
  forward p -> (forall a, forward (f a)) -> forward (p ≫= f).
Proof.
  intros Hp Hf r b r' H. apply P_bind_ok in H as (a & r1 & Ha & Hb).
  apply Hp in Ha. apply Hf in Hb. lia.
Qed.
Lemma forward_here {A} (p : P A) : (forall r a r', p r = Ok (a, r') -> r' = r) -> forward p.
Proof. intros H r a r' E. apply H in E as ->. lia. Qed.
Lemma forward_lift {A} (m : Result A) : forward (lift m).
Proof. apply forward_here. by intros r a r' [_ ->]%lift_ok. Qed.
Lemma forward_guard c e : forward (guard c e).
Proof. apply forward_here. by intros r a r' [_ ->]%guard_ok. Qed.
Lemma forward_ret {A} (a : A) : forward (mret a).
Proof. apply forward_here. by intros r b r' [_ ->]%P_ret_ok. Qed.
Lemma forward_fail {A} e : forward (@fail A e).
Proof. done. Qed.
Lemma forward_take n : 0 <= n -> forward (take n).
Proof.
  intros Hn r s r'. unfold take. repeat case_match; try done. intros Ht. inv_ok. lia.
Qed.
Create HintDb forward.
#[export] Hint Resolve forward_lift forward_guard forward_ret forward_fail : forward.
Ltac forward_step :=
  match goal with
  | |- forward (_ ≫= _) => apply forward_bind; [|intros ?]
  | |- forward (let _ := _ in _) => cbv zeta
  | |- forward (match ?x with _ => _ end) => destruct x
  | |- forward (take _) => apply forward_take; lia
  | |- forward _ => solve [auto with forward]
  end.
Ltac forward := repeat forward_step.

Lemma forward_header : forward header.
Proof. unfold header. forward. Qed.
Lemma forward_take_uint ai : forward (take_uint ai).
Proof. unfold take_uint. forward. Qed.
#[export] Hint Resolve forward_header forward_take_uint : forward.

Lemma forward_expect_major m e : forward (expect_major m e).
Proof. unfold expect_major. forward. Qed.

Lemma forward_text_bounded m what : forward (text_bounded m what).
Proof.
  intros r s r' H. unfold text_bounded in H. inv_p.
  pose proof (expect_major_nonneg _ _ _ _ _ Ha).
  apply forward_expect_major in Ha.
  apply bounded_len_inv in Ha0 as [-> ->]. apply forward_take in Ha2; lia.
Qed.

Lemma safe_text_map_key_bounded last m what : safe (text_map_key_bounded last m what).
Proof.
  intros r Hr. unfold text_map_key_bounded.
  pose proof (safe_text_bounded m what r Hr) as Hs.
  destruct (text_bounded m what r) as [[k r1]| |] eqn:E; simpl; [|done..].
  destruct Hs as [[H1 H2] Eb]. apply forward_text_bounded in E. destruct Hr.
  destruct (no_panic_slice (buf r1) (pos r) (pos r1)) as (s & -> & _); [lia..|]. simpl.
  destruct last as [prev|]; simpl; [destruct (bytes_le s prev)|]; done.
Qed.
Lemma safe_text_map_key last : safe (text_map_key last).
Proof. apply safe_text_map_key_bounded. Qed.
#[export] Hint Resolve safe_text_map_key_bounded safe_text_map_key : safe.

Lemma safe_read_array : safe read_array.
Proof.
  intros r Hr. unfold read_array. pose proof (safe_expect_major 4 (Corrupt (bs "expected array")) r Hr) as Hs.
  destruct (expect_major _ _ r) as [[n r1]| |]; simpl; [|done..]. destruct Hs as [Hr1 Eb].
  destruct (remaining_safe r1 Hr1) as [s ->]. simpl. by destruct (len s <? n).
Qed.
Lemma safe_read_map : safe read_map.
Proof.
  intros r Hr. unfold read_map. pose proof (safe_expect_major 5 (Corrupt (bs "expected map")) r Hr) as Hs.
  destruct (expect_major _ _ r) as [[n r1]| |]; simpl; [|done..]. destruct Hs as [Hr1 Eb].
  destruct (remaining_safe r1 Hr1) as [s ->]. simpl. by destruct (len s / 2 <? n).
Qed.
#[export] Hint Resolve safe_read_array safe_read_map : safe.

Lemma safe_rep_loop {S} n (body : S -> P S) s : (forall s, safe (body s)) -> safe (rep_loop n body s).
Proof. intros Hb. revert s. induction n; intros s; simpl; safe. Qed.
Lemma safe_array_of {A} limit e (p : P A) : safe p -> safe (array_of limit e p).
Proof. intros Hp. unfold array_of, rep_push. safe. apply safe_rep_loop. intros v. safe. Qed.
Lemma safe_map_loop {V} n max what (field : str -> V -> P V) v0 :
  (forall k v, safe (field k v)) -> safe (map_loop n max what field v0).
Proof.
  intros Hf. unfold map_loop. safe. apply safe_rep_loop. intros s. unfold map_body. safe.
Qed.
Lemma safe_map_of_bounded {V} max what (field : str -> V -> P V) v0 :
  (forall k v, safe (field k v)) -> safe (map_of_bounded max what field v0).
Proof. intros Hf. unfold map_of_bounded. safe. by apply safe_map_loop. Qed.
Lemma safe_map_of {V} (field : str -> V -> P V) v0 :
  (forall k v, safe (field k v)) -> safe (map_of field v0).
Proof. apply safe_map_of_bounded. Qed.
#[export] Hint Resolve safe_null_or safe_array_of safe_map_loop safe_map_of_bounded
  safe_map_of : safe.

Lemma push_uint_len m n : len (push_uint m n) <= 9.
Proof.
  unfold push_uint. rewrite len_cons.
  repeat case_match; rewrite ?len_be_bytes, ?len_cons, ?len_nil; lia.
Qed.
Lemma push_uint_len_24 m n : n < 24 -> 0 <= n -> len (push_uint m n) = 1.
Proof.
  intros H H0. unfold push_uint, u8_len. rewrite (proj2 (Z.ltb_lt _ _)) by done.
  rewrite len_cons. by repeat (case_match; try lia).
Qed.
Lemma push_uint_len_exact m n :
  0 <= n ->
  len (push_uint m n) =
    if n <=? 23 then 1 else if n <=? 255 then 2 else if n <=? 65535 then 3
    else if n <=? 4294967295 then 5 else 9.
Proof.
  intros H. destruct (Z.leb_spec n 23); [apply push_uint_len_24; lia|].
  unfold push_uint, u8_len. rewrite (proj2 (Z.ltb_ge _ _)) by lia.
  by repeat (case_match; try done).
Qed.
Lemma push_uint_len_u16 m n : n <= 65535 -> len (push_uint m n) <= 3.
Proof.
  intros H. unfold push_uint, u8_len. rewrite len_cons.
  destruct (Z.ltb_spec n 24); [repeat (case_match; try lia); by rewrite len_nil|].
  destruct (n <=? 255); [done|]. rewrite (proj2 (Z.leb_le _ _)) by done.
  by rewrite len_be_bytes.
Qed.
Lemma encode_text_len s : len (encode_text s) <= 9 + len s.
Proof. unfold encode_text. rewrite len_app. pose proof (push_uint_len 3 (len s)). lia. Qed.
Lemma encode_bytes_len s : len (encode_bytes s) <= 9 + len s.
Proof. unfold encode_bytes. rewrite len_app. pose proof (push_uint_len 2 (len s)). lia. Qed.

Lemma len_concat_perm (l k : list bytes) : l ≡ₚ k -> len (concat l) = len (concat k).
Proof. induction 1; simpl; lens_lia. Qed.

Lemma encode_map_sorted_len fs :
  len (encode_map_sorted fs) <= 9 + len (concat (pair_bytes <$> fs)).
Proof.
  unfold encode_map_sorted, encode_map_header. rewrite len_app.
  rewrite (len_concat_perm (pair_bytes <$> sort_by_key fst fs) (pair_bytes <$> fs))
    by by rewrite sort_by_key_perm.
  match goal with |- context [push_uint 5 ?n] => pose proof (push_uint_len 5 n) end. lia.
Qed.

Lemma len_map_small fs :
  len fs < 24 -> len (encode_map_sorted fs) <= 1 + len (concat (pair_bytes <$> fs)).
Proof.
  intros H. unfold encode_map_sorted, encode_map_header. rewrite len_app.
  rewrite (len_concat_perm (pair_bytes <$> sort_by_key fst fs) (pair_bytes <$> fs))
    by by rewrite sort_by_key_perm.
  assert (len (sort_by_key fst fs) = len fs) as ->.
  { unfold len. by rewrite (Permutation_length (sort_by_key_perm fst fs)). }
  rewrite push_uint_len_24; [lia|done|apply len_nonneg].
Qed.

Lemma encode_map_sorted_len_exact fs :
  len (encode_map_sorted fs) = len (push_uint 5 (len fs)) + len (concat (pair_bytes <$> fs)).
Proof.
  unfold encode_map_sorted, encode_map_header. rewrite len_app.
  rewrite (len_concat_perm (pair_bytes <$> sort_by_key fst fs) (pair_bytes <$> fs))
    by by rewrite sort_by_key_perm.
  assert (len (sort_by_key fst fs) = len fs) as ->; [|done].
  unfold len. by rewrite (Permutation_length (sort_by_key_perm fst fs)).
Qed.

(** ** The length of an encoded map *)

Lemma len_concat_in {A} (x : list A) (l : list (list A)) : x ∈ l -> len x <= len (concat l).
Proof.
  induction l as [|y l IH]; [by intros ?%elem_of_nil|]. cbn [concat]. rewrite len_app. intros [->|H]%elem_of_cons.
  - pose proof (len_nonneg (concat l)). lia.
  - pose proof (len_nonneg y). specialize (IH H). lia.
Qed.

Lemma map_sorted_len k x pairs : (k, x) ∈ pairs -> len x <= len (encode_map_sorted pairs).
Proof.
  intros H. unfold encode_map_sorted. cbv zeta. rewrite len_app.
  assert (pair_bytes (k, x) ∈ pair_bytes <$> sort_by_key fst pairs) as Hin.
  { apply list_elem_of_fmap. exists (k, x). split; [done|]. by rewrite sort_by_key_perm. }
  pose proof (len_concat_in _ _ Hin) as Hl. unfold pair_bytes in Hl at 1. cbn [fst snd] in Hl. rewrite len_app in Hl.
  pose proof (len_nonneg k). pose proof (len_nonneg (encode_map_header (len (sort_by_key fst pairs)))). lia.
Qed.

(** ** Properties *)

(** Integers are read in shortest form only: a successful [u64] read
    consumes exactly the bytes [encode_u64] writes for the value it returns, the
    value fits in 64 bits, and every 64-bit value written is read back. *)
Theorem read_u64_canonical pre suf n r' :
  len (pre ++ suf) <= usize_max ->
  read_u64 (rd pre suf) = Ok (n, r') <->
  in_u64 n /\ exists suf', suf = encode_u64 n ++ suf' /\ r' = rd (pre ++ encode_u64 n) suf'.
Proof.
  intros Hl. split; [apply codec_u64|].
  intros (Hn & suf' & -> & ->). by apply codec_u64.
Qed.

Lemma read_u64_canonical_witness :
  read_u64 (rd [] [x18; xff]) = Ok (255, rd [x18; xff] []) <->
  in_u64 255 /\ exists suf', [x18; xff] = encode_u64 255 ++ suf' /\
    rd [x18; xff] [] = rd ([] ++ encode_u64 255) suf'.
Proof.
  apply (read_u64_canonical [] [x18; xff] 255 (rd [x18; xff] [])). vm_compute. discriminate.
Defined.

(** A map is written the same way whatever order its pairs are collected
    in: two permutations of the same pairs, with distinct keys, encode to the
    same bytes, and these are the header followed by the pairs in strictly
    increasing order of encoded key. *)
Theorem encode_map_order_irrelevant fs gs :
  fs ≡ₚ gs -> NoDup fs.*1 ->
  encode_map_sorted fs = encode_map_sorted gs /\
  exists ps, ps ≡ₚ fs /\ strictly_sorted fst ps = true /\
    encode_map_sorted fs = encode_map_header (len fs) ++ concat (pair_bytes <$> ps).
Proof.
  intros Hp Hnd. pose proof (sort_by_key_strict fst fs Hnd) as Hs.
  pose proof (sort_by_key_perm fst fs) as Hfs.
  unfold encode_map_sorted. split.
  - rewrite (sort_by_key_of_perm fst _ gs Hs); [done|]. by rewrite <- Hp, Hfs.
  - exists (sort_by_key fst fs). split; [done|]. split; [by apply strictly_sorted_spec|].
    f_equal. f_equal. unfold len. by rewrite (Permutation_length Hfs).
Qed.

Lemma encode_map_order_irrelevant_witness :
  encode_map_sorted [(text_key (bs "ts"), [x01]); (text_key (bs "lm"), [xf4])] =
  encode_map_sorted [(text_key (bs "lm"), [xf4]); (text_key (bs "ts"), [x01])].
Proof.
  apply (encode_map_order_irrelevant
           [(text_key (bs "ts"), [x01]); (text_key (bs "lm"), [xf4])]
           [(text_key (bs "lm"), [xf4]); (text_key (bs "ts"), [x01])]).
  - constructor.
  - apply (bool_decide_eq_true_1 (NoDup _)). vm_compute. reflexivity.
Defined.

(** Proofs about objects go through the lemmas above. *)
#[global] Opaque push_uint encode_map_sorted.
