(* ===== verification/Tree.v ===== *)
(** * [crates/forge-core/src/tree.rs]: trees in memory

    The entry and tree records, the two constructors with their checks, the
    sorted-name invariant and lookup by binary search.  (The on-disk codec of
    trees is in [Object], [apply_overlay] in [Overlay].) *)

From S2P Require Import Prelude RustStd Types.

Record TreeEntry := mkEntry {
  e_name : str;
  e_kind : EntryKind;
  e_id : ObjectId;
  e_exec : bool
}.

Record Tree := mkTree { entries : list TreeEntry }.

#[export] Instance TreeEntry_eq_dec : EqDecision TreeEntry.
Proof. solve_decision. Defined.
#[export] Instance Tree_eq_dec : EqDecision Tree.
Proof. solve_decision. Defined.

(** [Tree::default()]. *)
Definition empty_tree : Tree := mkTree [].

Definition validate_name (name : str) : Result unit :=
  _ ← reject_if ((len name =? 0) || (255 <? len name)) (Invalid (bs "tree name length"));
  _ ← reject_if (bytes_eqb name (bs ".") || bytes_eqb name (bs ".."))
        (Invalid (bs "tree name . or .."));
  _ ← reject_if (contains_byte name "/"%byte || contains_byte name x00)
        (Invalid (bs "illegal tree name {name:?}"));
  reject_if (negb (utf8_valid name)) (Invalid (bs "tree name not utf-8")).

(** [for w in entries.windows(2) { if bad(w[0], w[1]) { return Err(e) } }]. *)
Fixpoint check_windows (bad : TreeEntry -> TreeEntry -> bool) (e : TreeEntry -> Error)
    (l : list TreeEntry) : Result unit :=
  match l with
  | a :: (b :: _) as l' => _ ← reject_if (bad a b) (e a); check_windows bad e l'
  | _ => Ok tt
  end.

Definition Tree_sort (t : Tree) : Tree := mkTree (sort_by_key e_name (entries t)).

Definition Tree_new (es : list TreeEntry) : Result Tree :=
  _ ← for_each (fun e => validate_name (e_name e)) es;
  let es := sort_by_key e_name es in
  _ ← check_windows (fun a b => bytes_eqb (e_name a) (e_name b))
        (fun a => Invalid (bs "duplicate tree name {}")) es;
  Ok (mkTree es).

Definition from_canonical (es : list TreeEntry) : Result Tree :=
  _ ← for_each (fun e => validate_name (e_name e)) es;
  _ ← check_windows (fun a b => bytes_le (e_name b) (e_name a))
        (fun _ => Corrupt (bs "tree entries are not strictly sorted unique")) es;
  Ok (mkTree es).

(** [slice::binary_search_by]: halve the window until one element is left. *)
Fixpoint search_loop (fuel : nat) (cmp : Z -> comparison) (base size : Z) : Z :=
  match fuel with
  | O => base
  | S fuel' =>
      if 1 <? size then
        let half := size / 2 in
        let mid := base + half in
        let base' := match cmp mid with Gt => base | _ => mid end in
        search_loop fuel' cmp base' (size - half)
      else base
  end.

Definition name_cmp (es : list TreeEntry) (name : str) (i : Z) : comparison :=
  match es !! Z.to_nat i with
  | Some e => bytes_cmp (e_name e) name
  | None => Gt
  end.

Definition binary_search (es : list TreeEntry) (name : str) : option Z :=
  match es with
  | [] => None
  | _ =>
      let i := search_loop (length es) (name_cmp es name) 0 (len es) in
      match name_cmp es name i with Eq => Some i | _ => None end
  end.

Definition Tree_get (t : Tree) (name : str) : option TreeEntry :=
  i ← binary_search (entries t) name; entries t !! Z.to_nat i.

Definition as_map (t : Tree) : gmap str TreeEntry :=
  fold_left (fun m e => <[e_name e := e]> m) (entries t) ∅.

Definition is_empty (t : Tree) : bool := match entries t with [] => true | _ => false end.

(** ** The invariant of a tree: valid names, strictly increasing *)

Definition valid_name (n : str) : Prop := validate_name n = Ok tt.

Definition sorted_entries (es : list TreeEntry) : Prop := StronglySorted (key_lt e_name) es.

Record wf_tree (t : Tree) : Prop := mk_wf_tree {
  wf_names : Forall (fun e => valid_name (e_name e)) (entries t);
  wf_sorted : sorted_entries (entries t)
}.

(** The first entry of a given name, by linear search: the reference for
    [Tree_get]. *)
Definition find_entry (es : list TreeEntry) (name : str) : option TreeEntry :=
  snd <$> list_find (fun e => e_name e = name) es.

(** ** Lemmas: names *)

Lemma valid_name_spec n :
  valid_name n <->
  1 <= len n <= 255 /\ n <> bs "." /\ n <> bs ".." /\ "/"%byte ∉ n /\ x00 ∉ n /\
  utf8_valid n = true.
Proof.
  unfold valid_name, validate_name. pose proof (len_nonneg n). split.
  - intros H'. inv_ok.
    repeat match goal with
    | H : _ || _ = false |- _ => apply orb_false_elim in H as [? ?]
    | H : bytes_eqb _ _ = false |- _ => apply bytes_eqb_false in H
    | H : contains_byte _ _ = false |- _ => apply bool_decide_eq_false in H
    | H : negb _ = false |- _ => apply negb_false_iff in H
    end. split_and!; try done; lia.
  - intros (? & ? & ? & ? & ? & Hu).
    rewrite (proj2 (Z.eqb_neq _ _)), (proj2 (Z.ltb_ge _ _)) by lia. simpl.
    rewrite !(proj2 (bytes_eqb_false _ _)) by done. simpl.
    unfold contains_byte. rewrite !bool_decide_eq_false_2 by done. simpl. by rewrite Hu.
Qed.

(** A path of names is a string. *)
Lemma names_utf8 ps : Forall valid_name ps -> utf8_valid (join (bs "/") ps) = true.
Proof.
  induction 1 as [|n ps Hn H IH]; [done|]. apply valid_name_spec in Hn as (_ & _ & _ & _ & _ & Hu).
  destruct (decide (ps = [])) as [->|Hps]; [exact Hu|]. rewrite join_cons by done.
  by apply utf8_valid_app, (utf8_valid_app (bs "/")).
Qed.

Lemma no_panic_validate_name n : no_panic (validate_name n).
Proof.
  unfold validate_name. repeat (apply no_panic_bind; [auto with forge|intros ??]).
  auto with forge.
Qed.
#[export] Hint Resolve no_panic_validate_name : forge.

(** ** Lemmas: the checks over adjacent pairs *)

Lemma check_windows_ok bad e l :
  check_windows bad e l = Ok tt <->
  (forall i a b, l !! i = Some a -> l !! S i = Some b -> bad a b = false).
Proof.
  induction l as [|a [|b l] IH].
  - split; [by intros _ i a b|done].
  - split; [|done]. intros _ i x y _ Hy. by destruct i.
  - change (check_windows bad e (a :: b :: l)) with
      (_ ← reject_if (bad a b) (e a); check_windows bad e (b :: l)).
    rewrite bind_ok. split.
    + intros (u & Hab%reject_if_ok & H). rewrite IH in H.
      intros [|i] x y Hx Hy; [naive_solver|]. by apply (H i).
    + intros H. exists tt. rewrite reject_if_ok, IH. split; [by apply (H 0%nat)|].
      intros i x y Hx Hy. by apply (H (S i)).
Qed.

Lemma no_panic_check_windows bad e l : no_panic (check_windows bad e l).
Proof.
  induction l as [|a [|b l] IH]; [done|done|]. simpl.
  apply no_panic_bind; auto with forge.
Qed.
#[export] Hint Resolve no_panic_check_windows : forge.

Lemma sorted_of_adjacent (l : list TreeEntry) :
  (forall i a b, l !! i = Some a -> l !! S i = Some b ->
     bytes_lt (e_name a) (e_name b) = true) <-> sorted_entries l.
Proof.
  unfold sorted_entries. rewrite <- strictly_sorted_spec.
  induction l as [|a [|b l] IH]; [done|naive_solver|].
  change (strictly_sorted e_name (a :: b :: l)) with
    (bytes_lt (e_name a) (e_name b) && strictly_sorted e_name (b :: l)).
  rewrite andb_true_iff, <- IH. split.
  - intros H. split; [by apply (H 0%nat)|]. intros i x y Hx Hy. by apply (H (S i)).
  - intros [H1 H2] [|i] x y Hx Hy; [naive_solver|]. by apply (H2 i).
Qed.

Lemma from_canonical_spec es t :
  from_canonical es = Ok t <-> t = mkTree es /\ wf_tree (mkTree es).
Proof.
  unfold from_canonical. split.
  - intros H. inv_ok. destruct a, a0. apply for_each_ok in Ha.
    split; [done|]. split; [done|]. simpl. apply sorted_of_adjacent.
    intros i x y Hx Hy. rewrite check_windows_ok in Ha0.
    by apply bytes_le_false, (Ha0 i).
  - intros [-> [Hn Hs]]. simpl in *. rewrite (proj2 (for_each_ok _ _)) by done. simpl.
    rewrite (proj2 (check_windows_ok _ _ _)); [done|].
    intros i x y Hx Hy. apply bytes_le_false. revert i x y Hx Hy. by apply sorted_of_adjacent.
Qed.

Lemma no_panic_from_canonical es : no_panic (from_canonical es).
Proof.
  unfold from_canonical. apply no_panic_bind.
  - apply for_each_no_panic. auto with forge.
  - intros. apply no_panic_bind; auto with forge.
Qed.

#[export] Hint Resolve no_panic_from_canonical : forge.

Lemma nodup_check_windows (es : list TreeEntry) :
  StronglySorted (key_le e_name) es ->
  check_windows (fun a b => bytes_eqb (e_name a) (e_name b))
    (fun a => Invalid (bs "duplicate tree name {}")) es = Ok tt <-> sorted_entries es.
Proof.
  intros Hs. rewrite check_windows_ok, <- sorted_of_adjacent. split.
  - intros H i a b Ha Hb. apply bytes_le_ne_lt; [|by apply bytes_eqb_false, (H i)].
    clear H. revert i a b Ha Hb. induction Hs as [|x l Hl IH Hx]; [done|].
    intros [|i] a b Ha Hb; simpl in *; [|by eapply IH].
    simplify_eq. rewrite Forall_forall in Hx. by apply Hx, list_elem_of_lookup_2 with 0%nat.
  - intros H i a b Ha Hb. apply bytes_eqb_false, bytes_lt_ne. by eapply H.
Qed.

Lemma Tree_new_spec es t :
  Tree_new es = Ok t <-> entries t ≡ₚ es /\ wf_tree t.
Proof.
  unfold Tree_new. split.
  - intros H. inv_ok. destruct a, a0. apply for_each_ok in Ha. simpl.
    pose proof (sort_by_key_perm e_name es) as Hp. split; [done|]. split; simpl.
    + by rewrite Hp.
    + apply nodup_check_windows; [apply sort_by_key_sorted|done].
  - intros [Hp [Hn Hs]]. rewrite (proj2 (for_each_ok _ _)) by by rewrite <- Hp.
    assert (StronglySorted (key_le e_name) (entries t)) as Hle.
    { rewrite <- (sort_by_key_id e_name _ Hs). apply sort_by_key_sorted. }
    simpl. rewrite (sort_by_key_of_perm e_name (entries t)) by done.
    rewrite (proj2 (nodup_check_windows _ Hle)) by done. by destruct t.
Qed.

(** ** Lemmas: binary search *)

Lemma sorted_lookup_lt es i j a b :
  sorted_entries es -> es !! i = Some a -> es !! j = Some b -> (i < j)%nat ->
  bytes_lt (e_name a) (e_name b) = true.
Proof.
  intros Hs; revert i j; induction Hs as [|x l Hl IH Hx]; intros [|i] [|j] Ha Hb Hij;
    simpl in *; try done; try lia.
  - simplify_eq. rewrite Forall_forall in Hx. by eapply Hx, list_elem_of_lookup_2.
  - apply (IH i j); try done. lia.
Qed.

Lemma sorted_name_inj es i j a b :
  sorted_entries es -> es !! i = Some a -> es !! j = Some b -> e_name a = e_name b -> i = j.
Proof.
  intros Hs Ha Hb E. destruct (lt_eq_lt_dec i j) as [[H| ->]|H]; [|done|].
  - pose proof (sorted_lookup_lt es i j a b Hs Ha Hb H) as Hl. by apply bytes_lt_ne in Hl.
  - pose proof (sorted_lookup_lt es j i b a Hs Hb Ha H) as Hl. by apply bytes_lt_ne in Hl.
Qed.

(** The window always holds the position of the name, if there is one. *)
Lemma search_loop_spec es name fuel base size j e :
  sorted_entries es -> es !! j = Some e -> e_name e = name ->
  0 <= base -> base <= Z.of_nat j < base + size -> base + size <= len es ->
  size <= Z.of_nat fuel ->
  search_loop fuel (name_cmp es name) base size = Z.of_nat j.
Proof.
  intros Hs Hj He. revert base size.
  induction fuel as [|fuel IH]; intros base size H0 Hb Hl Hf; simpl; [lia|].
  destruct (Z.ltb_spec 1 size) as [H1|H1]; [|lia].
  pose proof (Z.div_mod size 2). pose proof (Z.mod_pos_bound size 2).
  set (half := size / 2) in *.
  destruct (lookup_lt_is_Some_2 es (Z.to_nat (base + half))) as [m Hm];
    [unfold len in Hl; lia|].
  unfold name_cmp at 2. rewrite Hm. subst name.
  destruct (lt_eq_lt_dec (Z.to_nat (base + half)) j) as [[Hlt|Heq]|Hgt].
  - pose proof (sorted_lookup_lt _ _ _ _ _ Hs Hm Hj Hlt) as ->%bytes_lt_spec.
    apply IH; lia.
  - subst j. simplify_eq. rewrite bytes_cmp_refl. apply IH; lia.
  - pose proof (sorted_lookup_lt _ _ _ _ _ Hs Hj Hm Hgt) as Hc%bytes_lt_spec.
    rewrite bytes_cmp_antisym, Hc. simpl. apply IH; lia.
Qed.

Lemma find_entry_some es name e :
  find_entry es name = Some e -> e ∈ es /\ e_name e = name.
Proof.
  unfold find_entry. intros ([i e'] & (Hi & Hn & _)%list_find_Some & ->)%fmap_Some.
  simpl. split; [by eapply list_elem_of_lookup_2|done].
Qed.

Lemma find_entry_none es name : find_entry es name = None <-> name ∉ e_name <$> es.
Proof.
  unfold find_entry. rewrite fmap_None, list_find_None, Forall_forall. split.
  - intros H (e & -> & He)%list_elem_of_fmap. by apply (H e).
  - intros H e He <-. by apply H, list_elem_of_fmap_2.
Qed.

Lemma find_entry_sorted es name e :
  sorted_entries es -> e ∈ es -> e_name e = name -> find_entry es name = Some e.
Proof.
  intros Hs He Hn. destruct (find_entry es name) as [e'|] eqn:E.
  - apply find_entry_some in E as [He' Hn'].
    apply list_elem_of_lookup_1 in He as [i Hi], He' as [j Hj].
    f_equal. assert (j = i) as -> by (eapply sorted_name_inj; eauto; congruence). congruence.
  - apply find_entry_none in E. destruct E. subst name. by apply list_elem_of_fmap_2.
Qed.

Lemma Tree_get_find t name :
  wf_tree t -> Tree_get t name = find_entry (entries t) name.
Proof.
  intros [_ Hs]. unfold Tree_get, binary_search. destruct t as [es]; simpl in *.
  destruct (find_entry es name) as [e|] eqn:E.
  - apply find_entry_some in E as [He Hn]. apply list_elem_of_lookup_1 in He as [j Hj].
    pose proof (lookup_lt_Some _ _ _ Hj) as Hlt.
    assert (search_loop (length es) (name_cmp es name) 0 (len es) = Z.of_nat j) as Hsl.
    { eapply search_loop_spec; try done; unfold len; lia. }
    destruct es as [|e0 es]; [done|]. rewrite Hsl. unfold name_cmp.
    rewrite Nat2Z.id, Hj, Hn, bytes_cmp_refl. simpl. by rewrite Nat2Z.id.
  - apply find_entry_none in E. destruct es as [|e0 es]; [done|].
    set (i := search_loop _ _ _ _). unfold name_cmp.
    destruct ((e0 :: es) !! Z.to_nat i) as [e|] eqn:Hi; [|done].
    destruct (bytes_cmp (e_name e) name) eqn:Hc; try done.
    apply bytes_cmp_eq in Hc as <-. destruct E.
    apply list_elem_of_fmap_2. by eapply list_elem_of_lookup_2.
Qed.

(** ** Lemmas: maps of entries *)

Lemma find_entry_cons e (es : list TreeEntry) n :
  find_entry (e :: es) n = if decide (e_name e = n) then Some e else find_entry es n.
Proof.
  unfold find_entry. simpl. destruct (decide (e_name e = n)); [done|].
  by destruct (list_find _ es) as [[]|].
Qed.

Lemma fold_insert_entries (es : list TreeEntry) (m : gmap str TreeEntry) n :
  NoDup (e_name <$> es) ->
  fold_left (fun m e => <[e_name e := e]> m) es m !! n =
  match find_entry es n with Some e => Some e | None => m !! n end.
Proof.
  revert m. induction es as [|e es IH]; intros m Hs; [done|].
  rewrite fmap_cons in Hs. apply NoDup_cons in Hs as [He Hs].
  cbn [fold_left]. rewrite IH, find_entry_cons by done. case_decide as Hn; subst.
  - rewrite (proj2 (find_entry_none _ _)) by done. apply lookup_insert_eq.
  - destruct (find_entry es n); [done|]. by apply lookup_insert_ne.
Qed.

Lemma as_map_lookup t n : wf_tree t -> as_map t !! n = find_entry (entries t) n.
Proof.
  intros [_ Hs]. unfold as_map. rewrite fold_insert_entries by (by apply strictly_sorted_nodup).
  by destruct (find_entry _ n).
Qed.

(** The values of a map whose keys are their names, in order. *)
Lemma sorted_values (m : gmap str TreeEntry) :
  (forall n e, m !! n = Some e -> e_name e = n) ->
  sort_by_key e_name (snd <$> btree_list m) = snd <$> btree_list m /\
  sorted_entries (snd <$> btree_list m) /\
  forall n, find_entry (snd <$> btree_list m) n = m !! n.
Proof.
  intros Hn. assert (sorted_entries (snd <$> btree_list m)) as Hs.
  { pose proof (btree_list_sorted m) as H. unfold sorted_entries.
    assert (forall k e, (k, e) ∈ btree_list m -> e_name e = k) as Hk
      by (intros k e He%elem_of_btree_list; by apply Hn).
    induction H as [|[k e] l Hl IH Hf]; [constructor|]. rewrite fmap_cons. constructor.
    - apply IH. intros k' e' He'. apply Hk. by right.
    - rewrite Forall_fmap. rewrite Forall_forall in *. intros [k' e'] He'. specialize (Hf _ He').
      unfold key_lt in *. simpl in *. rewrite (Hk k e), (Hk k' e'); [done|by right|by left]. }
  split; [by apply sort_by_key_id|]. split; [done|]. intros n.
  destruct (m !! n) as [e|] eqn:E.
  - apply find_entry_sorted; [done| |by apply Hn]. apply list_elem_of_fmap. exists (n, e).
    by rewrite elem_of_btree_list.
  - apply find_entry_none. intros (e & -> & ([k e'] & -> & He)%list_elem_of_fmap)%list_elem_of_fmap.
    apply elem_of_btree_list in He. cbn in E. by rewrite (Hn _ _ He), He in E.
Qed.
