(* ===== verification/Object.v ===== *)
(** * [crates/forge-core/src/object.rs]: typed objects and their file layout

    Hashing (BLAKE3 is a parameter, [Blake3]), the framing of an object file,
    and the Blob, Tree, Commit, Conflict and Snapshot codecs.  Each decoder is
    a [map_of] over a record of the source's local variables. *)

From S2P Require Import Prelude RustStd Types Cbor Tree.

(** ** BLAKE3

    The [blake3] crate: one-shot hashing and the incremental hasher, with the
    crate's documented behaviour that updates absorb their input in order. *)

Class Blake3 := {
  blake3 : bytes -> ObjectId;
  Hasher : Type;
  hasher_new : Hasher;
  hasher_update : Hasher -> bytes -> Hasher;
  hasher_finalize : Hasher -> ObjectId;
  hasher_update_app h a b : hasher_update (hasher_update h a) b = hasher_update h (a ++ b);
  hasher_finalize_update b : hasher_finalize (hasher_update hasher_new b) = blake3 b;
  hasher_update_nil h : hasher_update h [] = h
}.

Definition MAX_TREE_ENTRIES : Z := 100000.
Definition MAX_COMMIT_PARENTS : Z := 1024.
Definition MAX_CONFLICT_ITEMS : Z := 100000.

Section hash.
Context `{Blake3}.

Definition hash_bytes (b : bytes) : ObjectId := blake3 b.

Definition hash_parts (parts : list bytes) : ObjectId :=
  hasher_finalize (fold_left hasher_update parts hasher_new).

(** The reader is the sequence of results of [reader.read]; an empty read
    ends the loop. *)
Fixpoint hash_reader_loop (h : Hasher) (reads : list (Result bytes)) : Result ObjectId :=
  match reads with
  | [] => Ok (hasher_finalize h)
  | r :: reads' =>
      chunk ← r;
      if len chunk =? 0 then Ok (hasher_finalize h)
      else hash_reader_loop (hasher_update h chunk) reads'
  end.
Definition hash_reader (reads : list (Result bytes)) : Result ObjectId :=
  hash_reader_loop hasher_new reads.
End hash.

(** ** The file layout: type byte, header length, header, payload *)

(** [u32::try_from(n).expect(..)] *)
Definition u32_expect (n : Z) : Result Z := if u32_max <? n then Panic else Ok n.

Definition blob_frame_prefix (size : Z) : Result bytes :=
  let header := encode_map_sorted [(text_key (bs "size"), encode_u64 size)] in
  n ← u32_expect (len header);
  Ok (u8 (ObjectType_to_u8 TBlob) :: be_bytes 4 n ++ header).

Definition encode_file (ty : ObjectType) (header payload : bytes) : Result bytes :=
  n ← u32_expect (len header);
  Ok (u8 (ObjectType_to_u8 ty) :: be_bytes 4 n ++ header ++ payload).

Definition parse_file (b : bytes) : Result (ObjectType * bytes * bytes) :=
  _ ← reject_if (len b <? 5) (Corrupt (bs "object file too short"));
  b0 ← index b 0;
  ty ← ObjectType_from_u8 (b2z b0);
  b1 ← index b 1; b2 ← index b 2; b3 ← index b 3; b4 ← index b 4;
  let n := be_val [b1; b2; b3; b4] in
  let header_end := 5 + n in
  _ ← reject_if (usize_max <? header_end) (Corrupt (bs "object header length overflow"));
  _ ← reject_if (len b <? header_end) (Corrupt (bs "object header truncated"));
  header ← slice b 5 header_end;
  payload ← slice_from b header_end;
  Ok (ty, header, payload).

Definition decode_object_type (b : bytes) : Result ObjectType :=
  _ ← reject_if (len b =? 0) (Corrupt (bs "empty object"));
  b0 ← index b 0;
  ObjectType_from_u8 (b2z b0).

(** ** Blob *)

Record Blob := mkBlob { blob_data : bytes }.

Definition Blob_encode (o : Blob) : Result bytes :=
  v ← blob_frame_prefix (len (blob_data o));
  Ok (v ++ blob_data o).

Definition blob_field (k : str) (size : option Z) : P (option Z) :=
  if bytes_eqb k (bs "size") then n ← read_u64; mret (Some n)
  else fail (Corrupt (bs "unknown blob key {k}")).

Definition Blob_decode (b : bytes) : Result Blob :=
  '(ty, header, payload) ← parse_file b;
  _ ← reject_if (negb (bool_decide (ty = TBlob))) (Corrupt (bs "not a blob"));
  '(size, r) ← map_of blob_field None (new header);
  size ← ok_or size (Corrupt (bs "blob missing size"));
  _ ← reject_if (usize_max <? size) (Corrupt (bs "blob size overflow"));
  _ ← reject_if (negb (size =? len payload)) (Corrupt (bs "blob size {size} != payload {}"));
  _ ← reject_if (negb (at_end r)) (Corrupt (bs "blob header trailing bytes"));
  Ok (mkBlob payload).

(** ** Tree *)

Definition entry_pairs (e : TreeEntry) : list (bytes * bytes) :=
  [(text_key (bs "id"), encode_bytes (arr_bytes (e_id e)));
   (text_key (bs "k"), encode_u64 (EntryKind_to_u8 (e_kind e)));
   (text_key (bs "n"), encode_text (e_name e));
   (text_key (bs "x"), encode_bool (e_exec e))].

Definition Tree_encode (t : Tree) : Result bytes :=
  _ ← reject_if (MAX_TREE_ENTRIES <? len (entries t))
        (Invalid (bs "directory has {} entries, more than a tree may hold"));
  entries_cbor ← try_fold (fun out e =>
      _ ← validate_name (e_name e);
      Ok (out ++ encode_map_sorted (entry_pairs e)))
    (encode_array_header (len (entries t))) (entries t);
  let header := encode_map_sorted [(text_key (bs "e"), entries_cbor)] in
  encode_file TTree header [].

Record EntryVars := mkEntryVars {
  v_name : option str; v_kind : option EntryKind; v_id : option ObjectId; v_exec : option bool
}.

Definition read_kind : P EntryKind :=
  raw ← read_u64;
  _ ← guard (255 <? raw) (Corrupt (bs "entry kind overflow"));
  lift (EntryKind_from_u8 raw).

Definition entry_field (k : str) (v : EntryVars) : P EntryVars :=
  let 'mkEntryVars name kind id exec := v in
  if bytes_eqb k (bs "n") then x ← text; mret (mkEntryVars (Some x) kind id exec)
  else if bytes_eqb k (bs "k") then x ← read_kind; mret (mkEntryVars name (Some x) id exec)
  else if bytes_eqb k (bs "id") then x ← bstr32; mret (mkEntryVars name kind (Some x) exec)
  else if bytes_eqb k (bs "x") then x ← read_bool; mret (mkEntryVars name kind id (Some x))
  else fail (Corrupt (bs "unknown entry key {fk}")).

Definition read_entry : P TreeEntry :=
  v ← map_of entry_field (mkEntryVars None None None None);
  name ← lift (ok_or (v_name v) (Corrupt (bs "entry n")));
  kind ← lift (ok_or (v_kind v) (Corrupt (bs "entry k")));
  id ← lift (ok_or (v_id v) (Corrupt (bs "entry id")));
  exec ← lift (ok_or (v_exec v) (Corrupt (bs "entry x")));
  mret (mkEntry name kind id exec).

Definition tree_field (k : str) (v : option (list TreeEntry)) : P (option (list TreeEntry)) :=
  _ ← guard (negb (bytes_eqb k (bs "e"))) (Corrupt (bs "unknown tree key {k}"));
  es ← array_of MAX_TREE_ENTRIES (Corrupt (bs "tree fanout exceeds limit")) read_entry;
  mret (Some es).

Definition Tree_decode (b : bytes) : Result Tree :=
  '(ty, header, payload) ← parse_file b;
  _ ← reject_if (negb (bool_decide (ty = TTree))) (Corrupt (bs "not a tree"));
  _ ← reject_if (negb (len payload =? 0)) (Corrupt (bs "tree has payload"));
  '(es, r) ← map_of tree_field None (new header);
  _ ← reject_if (negb (at_end r)) (Corrupt (bs "tree header trailing bytes"));
  es ← ok_or es (Corrupt (bs "tree missing e"));
  from_canonical es.

(** ** Commit *)

Record Commit := mkCommit {
  c_tree : ObjectId;
  c_parents : list ObjectId;
  c_agent : str;
  c_msg : str;
  c_ts : Z;
  c_landmark : bool;
  c_contrib : option ObjectId
}.
#[export] Instance Commit_eq_dec : EqDecision Commit.
Proof. solve_decision. Defined.

Definition id_bytes (id : ObjectId) : bytes := encode_bytes (arr_bytes id).

Definition encode_ids (ids : list ObjectId) : bytes :=
  encode_array_header (len ids) ++ concat (id_bytes <$> ids).

Definition commit_pairs (c : Commit) : list (bytes * bytes) :=
  [(text_key (bs "agent"), encode_text (c_agent c));
   (text_key (bs "lm"), encode_bool (c_landmark c));
   (text_key (bs "msg"), encode_text (c_msg c));
   (text_key (bs "parents"), encode_ids (c_parents c));
   (text_key (bs "tree"), id_bytes (c_tree c));
   (text_key (bs "ts"), encode_u64 (c_ts c))] ++
  match c_contrib c with
  | Some contrib => [(text_key (bs "contrib"), id_bytes contrib)]
  | None => []
  end.

Definition Commit_encode (c : Commit) : Result bytes :=
  encode_file TCommit (encode_map_sorted (commit_pairs c)) [].

Record CommitVars := mkCommitVars {
  v_tree : option ObjectId; v_parents : option (list ObjectId); v_agent : option str;
  v_msg : option str; v_ts : option Z; v_lm : option bool; v_contrib : option ObjectId
}.

Definition read_parents : P (list ObjectId) :=
  array_of MAX_COMMIT_PARENTS (Corrupt (bs "commit parent count exceeds limit")) bstr32.

Definition commit_field (k : str) (v : CommitVars) : P CommitVars :=
  let 'mkCommitVars tree parents agent msg ts lm contrib := v in
  if bytes_eqb k (bs "tree") then
    x ← bstr32; mret (mkCommitVars (Some x) parents agent msg ts lm contrib)
  else if bytes_eqb k (bs "parents") then
    x ← read_parents; mret (mkCommitVars tree (Some x) agent msg ts lm contrib)
  else if bytes_eqb k (bs "agent") then
    x ← text; mret (mkCommitVars tree parents (Some x) msg ts lm contrib)
  else if bytes_eqb k (bs "msg") then
    x ← text; mret (mkCommitVars tree parents agent (Some x) ts lm contrib)
  else if bytes_eqb k (bs "ts") then
    x ← read_u64; mret (mkCommitVars tree parents agent msg (Some x) lm contrib)
  else if bytes_eqb k (bs "lm") then
    x ← read_bool; mret (mkCommitVars tree parents agent msg ts (Some x) contrib)
  else if bytes_eqb k (bs "contrib") then
    x ← bstr32; mret (mkCommitVars tree parents agent msg ts lm (Some x))
  else fail (Corrupt (bs "unknown commit key {k}")).

Definition Commit_decode (b : bytes) : Result Commit :=
  '(ty, header, payload) ← parse_file b;
  _ ← reject_if (negb (bool_decide (ty = TCommit))) (Corrupt (bs "not a commit"));
  _ ← reject_if (negb (len payload =? 0)) (Corrupt (bs "commit has payload"));
  '(v, r) ← map_of commit_field (mkCommitVars None None None None None None None) (new header);
  _ ← reject_if (negb (at_end r)) (Corrupt (bs "commit header trailing bytes"));
  tree ← ok_or (v_tree v) (Corrupt (bs "commit tree"));
  parents ← ok_or (v_parents v) (Corrupt (bs "commit parents"));
  agent ← ok_or (v_agent v) (Corrupt (bs "commit agent"));
  msg ← ok_or (v_msg v) (Corrupt (bs "commit msg"));
  ts ← ok_or (v_ts v) (Corrupt (bs "commit ts"));
  lm ← ok_or (v_lm v) (Corrupt (bs "commit lm"));
  Ok (mkCommit tree parents agent msg ts lm (v_contrib v)).

(** ** Conflict *)

Record ConflictPath := mkConflictPath {
  cp_path : str; cp_a : option ObjectId; cp_b : option ObjectId; cp_base : option ObjectId
}.
Record Conflict := mkConflict {
  cf_bases : list ObjectId;
  cf_ours : ObjectId;
  cf_theirs : ObjectId;
  cf_paths : list ConflictPath;
  cf_causal : list ObjectId
}.
#[export] Instance ConflictPath_eq_dec : EqDecision ConflictPath.
Proof. solve_decision. Defined.
#[export] Instance Conflict_eq_dec : EqDecision Conflict.
Proof. solve_decision. Defined.

Definition Conflict_validate (c : Conflict) : Result unit :=
  for_each (fun n => reject_if (MAX_CONFLICT_ITEMS <? n)
      (Invalid (bs "conflict has {n} {what}, more than a conflict object may hold")))
    [len (cf_paths c); len (cf_bases c); len (cf_causal c)].

Definition opt_id (id : option ObjectId) : bytes :=
  match id with Some id => id_bytes id | None => encode_null end.

Definition conflict_path_pairs (p : ConflictPath) : list (bytes * bytes) :=
  [(text_key (bs "a"), opt_id (cp_a p));
   (text_key (bs "b"), opt_id (cp_b p));
   (text_key (bs "base"), opt_id (cp_base p));
   (text_key (bs "p"), encode_text (cp_path p))].

Definition conflict_pairs (c : Conflict) : list (bytes * bytes) :=
  [(text_key (bs "bases"), encode_ids (cf_bases c));
   (text_key (bs "causal"), encode_ids (cf_causal c));
   (text_key (bs "ours"), id_bytes (cf_ours c));
   (text_key (bs "paths"),
      encode_array_header (len (cf_paths c)) ++
      concat ((fun p => encode_map_sorted (conflict_path_pairs p)) <$> cf_paths c));
   (text_key (bs "theirs"), id_bytes (cf_theirs c))].

Definition Conflict_encode (c : Conflict) : Result bytes :=
  encode_file TConflict (encode_map_sorted (conflict_pairs c)) [].

Definition id_array : P (list ObjectId) :=
  array_of MAX_CONFLICT_ITEMS (Corrupt (bs "object id array exceeds limit")) bstr32.

Record PathVars := mkPathVars {
  v_p : option str; v_a : option ObjectId; v_b : option ObjectId; v_base : option ObjectId
}.

Definition path_field (k : str) (v : PathVars) : P PathVars :=
  let 'mkPathVars path a b base := v in
  if bytes_eqb k (bs "p") then x ← text; mret (mkPathVars (Some x) a b base)
  else if bytes_eqb k (bs "a") then x ← null_or bstr32; mret (mkPathVars path x b base)
  else if bytes_eqb k (bs "b") then x ← null_or bstr32; mret (mkPathVars path a x base)
  else if bytes_eqb k (bs "base") then x ← null_or bstr32; mret (mkPathVars path a b x)
  else fail (Corrupt (bs "path key {fk}")).

Definition read_conflict_path : P ConflictPath :=
  v ← map_of path_field (mkPathVars None None None None);
  path ← lift (ok_or (v_p v) (Corrupt (bs "conflict path")));
  mret (mkConflictPath path (v_a v) (v_b v) (v_base v)).

Record ConflictVars := mkConflictVars {
  v_bases : option (list ObjectId); v_ours : option ObjectId; v_theirs : option ObjectId;
  v_paths : option (list ConflictPath); v_causal : option (list ObjectId)
}.

Definition conflict_field (k : str) (v : ConflictVars) : P ConflictVars :=
  let 'mkConflictVars bases ours theirs paths causal := v in
  if bytes_eqb k (bs "bases") then
    x ← id_array; mret (mkConflictVars (Some x) ours theirs paths causal)
  else if bytes_eqb k (bs "ours") then
    x ← bstr32; mret (mkConflictVars bases (Some x) theirs paths causal)
  else if bytes_eqb k (bs "theirs") then
    x ← bstr32; mret (mkConflictVars bases ours (Some x) paths causal)
  else if bytes_eqb k (bs "causal") then
    x ← id_array; mret (mkConflictVars bases ours theirs paths (Some x))
  else if bytes_eqb k (bs "paths") then
    x ← array_of MAX_CONFLICT_ITEMS (Corrupt (bs "conflict path count exceeds limit"))
          read_conflict_path;
    mret (mkConflictVars bases ours theirs (Some x) causal)
  else fail (Corrupt (bs "unknown conflict key {k}")).

Definition Conflict_decode (b : bytes) : Result Conflict :=
  '(ty, header, payload) ← parse_file b;
  _ ← reject_if (negb (bool_decide (ty = TConflict))) (Corrupt (bs "not a conflict"));
  _ ← reject_if (negb (len payload =? 0)) (Corrupt (bs "conflict has payload"));
  '(v, r) ← map_of conflict_field (mkConflictVars None None None None None) (new header);
  _ ← reject_if (negb (at_end r)) (Corrupt (bs "conflict header trailing bytes"));
  ours ← ok_or (v_ours v) (Corrupt (bs "conflict ours"));
  theirs ← ok_or (v_theirs v) (Corrupt (bs "conflict theirs"));
  Ok (mkConflict (default [] (v_bases v)) ours theirs (default [] (v_paths v))
        (default [] (v_causal v))).

(** ** Snapshot *)

Record Snapshot := mkSnapshot {
  s_tree : ObjectId;
  s_commit : ObjectId;
  s_tag : str;
  s_ts : Z;
  s_prov : ObjectId;
  s_pk : arr 32;
  s_sig : arr 64
}.
#[export] Instance Snapshot_eq_dec : EqDecision Snapshot.
Proof. solve_decision. Defined.

Definition snapshot_pairs (s : Snapshot) : list (bytes * bytes) :=
  [(text_key (bs "commit"), id_bytes (s_commit s));
   (text_key (bs "pk"), encode_bytes (arr_bytes (s_pk s)));
   (text_key (bs "prov"), id_bytes (s_prov s));
   (text_key (bs "sig"), encode_bytes (arr_bytes (s_sig s)));
   (text_key (bs "tag"), encode_text (s_tag s));
   (text_key (bs "tree"), id_bytes (s_tree s));
   (text_key (bs "ts"), encode_u64 (s_ts s))].

Definition Snapshot_encode (s : Snapshot) : Result bytes :=
  encode_file TSnapshot (encode_map_sorted (snapshot_pairs s)) [].

Definition encode_unsigned (s : Snapshot) : Result bytes :=
  Snapshot_encode (mkSnapshot (s_tree s) (s_commit s) (s_tag s) (s_ts s) (s_prov s) (s_pk s)
    (mkArr (n:=64) (repeat x00 64) I)).

Definition read_arr (n : nat) (e : Error) : P (arr n) :=
  b ← read_bytes; lift (ok_or (arr_of n b) e).

Record SnapVars := mkSnapVars {
  sv_tree : option ObjectId; sv_commit : option ObjectId; sv_tag : option str;
  sv_ts : option Z; sv_prov : option ObjectId; sv_pk : option (arr 32); sv_sig : option (arr 64)
}.

Definition snapshot_field (k : str) (v : SnapVars) : P SnapVars :=
  let 'mkSnapVars tree commit tag ts prov pk sig := v in
  if bytes_eqb k (bs "tree") then
    x ← bstr32; mret (mkSnapVars (Some x) commit tag ts prov pk sig)
  else if bytes_eqb k (bs "commit") then
    x ← bstr32; mret (mkSnapVars tree (Some x) tag ts prov pk sig)
  else if bytes_eqb k (bs "tag") then
    x ← text; mret (mkSnapVars tree commit (Some x) ts prov pk sig)
  else if bytes_eqb k (bs "ts") then
    x ← read_u64; mret (mkSnapVars tree commit tag (Some x) prov pk sig)
  else if bytes_eqb k (bs "prov") then
    x ← bstr32; mret (mkSnapVars tree commit tag ts (Some x) pk sig)
  else if bytes_eqb k (bs "pk") then
    x ← read_arr 32 (Corrupt (bs "pk len")); mret (mkSnapVars tree commit tag ts prov (Some x) sig)
  else if bytes_eqb k (bs "sig") then
    x ← read_arr 64 (Corrupt (bs "sig len")); mret (mkSnapVars tree commit tag ts prov pk (Some x))
  else fail (Corrupt (bs "unknown snapshot key {k}")).

Definition Snapshot_decode (b : bytes) : Result Snapshot :=
  '(ty, header, payload) ← parse_file b;
  _ ← reject_if (negb (bool_decide (ty = TSnapshot))) (Corrupt (bs "not a snapshot"));
  _ ← reject_if (negb (len payload =? 0)) (Corrupt (bs "snapshot has payload"));
  '(v, r) ← map_of snapshot_field (mkSnapVars None None None None None None None) (new header);
  _ ← reject_if (negb (at_end r)) (Corrupt (bs "snapshot header trailing bytes"));
  tree ← ok_or (sv_tree v) (Corrupt (bs "snap tree"));
  commit ← ok_or (sv_commit v) (Corrupt (bs "snap commit"));
  tag ← ok_or (sv_tag v) (Corrupt (bs "snap tag"));
  ts ← ok_or (sv_ts v) (Corrupt (bs "snap ts"));
  prov ← ok_or (sv_prov v) (Corrupt (bs "snap prov"));
  pk ← ok_or (sv_pk v) (Corrupt (bs "snap pk"));
  sig ← ok_or (sv_sig v) (Corrupt (bs "snap sig"));
  Ok (mkSnapshot tree commit tag ts prov pk sig).

(** ** Values the types of the source guarantee *)

(** A Rust [String]: valid UTF-8 that fits in memory. *)
Definition str_ok (s : str) : Prop := utf8_valid s = true /\ len s <= usize_max.

Definition opt_all {A} (Q : A -> Prop) (o : option A) : Prop :=
  match o with Some a => Q a | None => True end.

Definition wf_commit (c : Commit) : Prop :=
  len (c_parents c) <= MAX_COMMIT_PARENTS /\ str_ok (c_agent c) /\ str_ok (c_msg c) /\
  in_u64 (c_ts c).

Definition wf_snapshot (s : Snapshot) : Prop := str_ok (s_tag s) /\ in_u64 (s_ts s).

Definition wf_conflict (c : Conflict) : Prop :=
  len (cf_bases c) <= MAX_CONFLICT_ITEMS /\ len (cf_causal c) <= MAX_CONFLICT_ITEMS /\
  len (cf_paths c) <= MAX_CONFLICT_ITEMS /\
  Forall (fun p => str_ok (cp_path p)) (cf_paths c).

(** ** Lemmas: identifiers *)

Section hash_lemmas.
Context `{Blake3}.

Lemma fold_update l h : fold_left hasher_update l h = hasher_update h (concat l).
Proof.
  revert h; induction l as [|b l IH]; intros h; simpl; [by rewrite hasher_update_nil|].
  by rewrite IH, hasher_update_app.
Qed.

Lemma hash_parts_concat l : hash_parts l = hash_bytes (concat l).
Proof. unfold hash_parts. by rewrite fold_update, hasher_finalize_update. Qed.
End hash_lemmas.

(** ** Lemmas: the file layout *)

Lemma u32_expect_ok n m : u32_expect n = Ok m <-> n <= u32_max /\ m = n.
Proof.
  unfold u32_expect. destruct (Z.ltb_spec u32_max n); split.
  - done.
  - lia.
  - by intros [= ->].
  - by intros [_ ->].
Qed.

Lemma object_type_roundtrip t : ObjectType_from_u8 (b2z (u8 (ObjectType_to_u8 t))) = Ok t.
Proof. by destruct t. Qed.

Lemma object_type_inv b t : ObjectType_from_u8 (b2z b) = Ok t -> u8 (ObjectType_to_u8 t) = b.
Proof.
  intros H. assert (ObjectType_to_u8 t = b2z b) as ->; [|apply u8_b2z].
  unfold ObjectType_from_u8 in H. by repeat (case_match; try discriminate H); simplify_eq.
Qed.

Lemma encode_file_ok ty header payload b :
  encode_file ty header payload = Ok b <->
  len header <= u32_max /\
  b = (u8 (ObjectType_to_u8 ty) :: be_bytes 4 (len header)) ++ header ++ payload.
Proof.
  unfold encode_file. rewrite bind_ok. setoid_rewrite u32_expect_ok. naive_solver.
Qed.

Lemma parse_file_shape b0 b1 b2 b3 b4 rest :
  parse_file (b0 :: b1 :: b2 :: b3 :: b4 :: rest) =
  (ty ← ObjectType_from_u8 (b2z b0);
   let n := be_val [b1; b2; b3; b4] in
   _ ← reject_if (len rest <? n) (Corrupt (bs "object header truncated"));
   Ok (ty, firstn (Z.to_nat n) rest, skipn (Z.to_nat n) rest)).
Proof.
  unfold parse_file. set (b := b0 :: b1 :: b2 :: b3 :: b4 :: rest).
  assert (len b = 5 + len rest) as Hl by (unfold b; lens_lia). rewrite Hl.
  pose proof (len_nonneg rest). rewrite (proj2 (Z.ltb_ge _ _)) by lia.
  unfold b at 1. simpl. destruct (ObjectType_from_u8 (b2z b0)) as [ty| |]; [|done..].
  simpl. set (n := be_val [b1; b2; b3; b4]).
  pose proof (be_val_range [b1; b2; b3; b4]) as Hn. fold n in Hn.
  change (256 ^ len [b1; b2; b3; b4]) with 4294967296 in Hn.
  rewrite (proj2 (Z.ltb_ge usize_max (5 + n))) by (unfold usize_max, u64_max; lia).
  unfold b. cbn [mbind outcome_bind].
  destruct (Z.ltb_spec (len rest) n) as [H1|H1].
  - rewrite (proj2 (Z.ltb_lt _ _)) by lia. done.
  - rewrite (proj2 (Z.ltb_ge _ _)) by lia. simpl.
    unfold slice_from, slice. fold b. rewrite Hl.
    rewrite !(proj2 (Z.leb_le _ _)) by lia. simpl.
    replace (5 + n - 5) with n by lia.
    replace (5 + len rest - (5 + n)) with (len rest - n) by lia.
    unfold b. f_equal. f_equal. rewrite Z2Nat.inj_add by lia. simpl.
    apply take_ge. rewrite length_drop. unfold len in *. lia.
Qed.

Lemma parse_encode_file ty header payload b :
  encode_file ty header payload = Ok b <-> parse_file b = Ok (ty, header, payload).
Proof.
  rewrite encode_file_ok. split.
  - intros [Hh ->]. pose proof (len_nonneg header).
    pose proof (be_val_bytes 4 (len header) ltac:(unfold u32_max in Hh; lia)) as Hv.
    pose proof (length_be_bytes 4 (len header)) as Hl.
    destruct (be_bytes 4 (len header)) as [|b1 [|b2 [|b3 [|b4 [|]]]]]; try done.
    cbn [app]. rewrite parse_file_shape, object_type_roundtrip, Hv. simpl.
    rewrite (proj2 (Z.ltb_ge _ _)) by lens_lia. simpl.
    by rewrite to_nat_len, take_app_length, drop_app_length.
  - intros H. destruct b as [|b0 [|b1 [|b2 [|b3 [|b4 rest]]]]]; try done.
    rewrite parse_file_shape in H. inv_ok.
    apply object_type_inv in Ha. apply Z.ltb_ge in Ha0.
    set (n := be_val [b1; b2; b3; b4]) in *.
    pose proof (be_val_range [b1; b2; b3; b4]) as Hn. fold n in Hn.
    change (256 ^ len [b1; b2; b3; b4]) with 4294967296 in Hn.
    assert (len (firstn (Z.to_nat n) rest) = n) as Hl.
    { unfold len in *. rewrite length_take. lia. }
    rewrite Hl. split; [unfold u32_max; lia|].
    pose proof (be_bytes_val [b1; b2; b3; b4]) as E. fold n in E. simpl in E.
    injection E as E1 E2 E3 E4. rewrite Ha, E1, E2, E3, E4. by rewrite take_drop.
Qed.

Lemma no_panic_parse_file b : no_panic (parse_file b).
Proof.
  destruct b as [|b0 [|b1 [|b2 [|b3 [|b4 rest]]]]]; try done.
  rewrite parse_file_shape.
  apply no_panic_bind; [by unfold no_panic; destruct b0|intros ty _].
  cbv zeta. apply no_panic_bind; auto with forge.
Qed.
#[export] Hint Resolve no_panic_parse_file : forge.

(** ** Lemmas: decoding a header *)

Lemma map_header_inv {V} (field : str -> V -> P V) v0 fields (inv : V -> Prop) h v r :
  map_of field v0 (new h) = Ok (v, r) -> at_end r = true ->
  (forall k v pre suf v' r', field k v (rd pre suf) = Ok (v', r') -> inv v ->
     exists val suf', suf = val ++ suf' /\ r' = rd (pre ++ val) suf' /\
       records (fields v) (fields v') (text_key k, val) /\ inv v') ->
  fields v0 = [] -> inv v0 ->
  h = encode_map_sorted (fields v) /\ inv v.
Proof.
  intros H He Hf H0 Hi. rewrite rd_new in H.
  apply (map_of_inv field fields inv Hf) in H as (suf' & -> & -> & Hv); [|done..].
  apply at_end_rd in He as ->. by rewrite app_nil_r.
Qed.

Lemma map_header_parse {V} (field : str -> V -> P V) v0 v fs :
  NoDup fs.*1 -> reads_fields field v0 (sort_by_key fst fs) v ->
  len (encode_map_sorted fs) <= usize_max ->
  exists r, map_of field v0 (new (encode_map_sorted fs)) = Ok (v, r) /\ at_end r = true.
Proof.
  intros Hnd Hr Hl. exists (rd (encode_map_sorted fs) []). split.
  - rewrite rd_new. pose proof (map_of_parse field v0 v fs [] []) as H.
    rewrite !app_nil_r in H. by apply H.
  - by apply at_end_rd.
Qed.

Ltac header_inv lemma :=
  match goal with
  | H : map_of _ _ _ = Ok _, E : at_end _ = true |- _ =>
      edestruct (map_header_inv _ _ _ _ _ _ _ H E lemma) as [-> Hi];
      [reflexivity|repeat split|]
  end.

(** [fields_inv]: the premise of [map_header_inv] for a concrete decoder. *)
Ltac field_value :=
  match goal with
  | Ha : _ (rd _ _) = Ok (_, _) |- _ =>
      eapply codec_inv in Ha as (? & ? & -> & ->)
  end.
Ltac fields_inv field fields inv :=
  intros k v pre suf v' r' H Hinv; destruct v; unfold field in H; cbv beta iota in H;
  key_cases; inv_p; field_value;
  eexists _, _; (split; [done|split; [done|split;
    [unfold fields; cbn -[opt_pair app bs]; records|unfold inv, str_ok in *; simpl in *; tauto]]]).

(** [read_fields]: the premise of [map_header_parse] for a concrete header. *)
Ltac read_fields field :=
  repeat (eapply reads_cons;
    [intros r; unfold field; eval_keys; reflexivity | apply _ | reflexivity | cbv beta; tauto
    | auto with pos | reflexivity | reflexivity | cbv beta]);
  reflexivity.

#[export] Instance codec_read_arr n e :
  Z.of_nat n <= usize_max ->
  Codec (read_arr n e) (fun a => encode_bytes (arr_bytes a)) (fun _ => True).
Proof.
  intros Hn. split.
  - intros pre suf v _ Hl. unfold read_arr. erewrite P_bind_step.
    2: { apply codec_bytes; [|done]. by rewrite arr_length_len. }
    simpl. by rewrite arr_of_bytes.
  - intros pre suf v r' H. unfold read_arr in H. inv_p.
    apply codec_bytes in Ha as (_ & suf' & -> & ->).
    apply ok_or_ok, arr_of_some in H as <-. eauto.
Qed.

Lemma codec_ids limit e : limit <= usize_max ->
  Codec (array_of limit e bstr32) encode_ids (fun l => len l <= limit).
Proof.
  intros Hl. eapply codec_ext.
  - apply (codec_array bstr32 id_bytes (fun _ => True) limit e Hl).
    intros v. apply encode_bytes_pos.
  - done.
  - done.
  - intros v. split; [|tauto]. intros H. split; [by apply Forall_true|done].
Qed.
#[export] Instance codec_read_parents :
  Codec read_parents encode_ids (fun l => len l <= MAX_COMMIT_PARENTS).
Proof. by apply codec_ids. Qed.
#[export] Instance codec_id_array :
  Codec id_array encode_ids (fun l => len l <= MAX_CONFLICT_ITEMS).
Proof. by apply codec_ids. Qed.
Lemma encode_ids_pos l : 0 < len (encode_ids l).
Proof. apply encode_array_pos. Qed.
Lemma id_bytes_pos l : 0 < len (id_bytes l).
Proof. apply encode_bytes_pos. Qed.
#[export] Hint Resolve encode_ids_pos id_bytes_pos : pos.
#[export] Instance codec_id : Codec bstr32 id_bytes (fun _ => True).
Proof. apply codec_bstr32. Qed.

(** ** Lemmas: Blob *)

Definition blob_fields (v : option Z) : list (bytes * bytes) :=
  opt_pair (bs "size") encode_u64 v.

Lemma blob_field_inv k v pre suf v' r' :
  blob_field k v (rd pre suf) = Ok (v', r') -> opt_all in_u64 v ->
  exists val suf', suf = val ++ suf' /\ r' = rd (pre ++ val) suf' /\
    records (blob_fields v) (blob_fields v') (text_key k, val) /\ opt_all in_u64 v'.
Proof.
  intros H Hinv. unfold blob_field in H. key_cases; inv_p. field_value.
  eexists _, _. split_and!; [done|done|by apply records_last|done].
Qed.

Lemma blob_frame_prefix_file size data :
  (v ← blob_frame_prefix size; Ok (v ++ data)) =
  encode_file TBlob (encode_map_sorted [(text_key (bs "size"), encode_u64 size)]) data.
Proof.
  unfold blob_frame_prefix, encode_file.
  destruct (u32_expect _); simpl; [|done..]. by rewrite <- ?app_assoc.
Qed.

(** The prefix is short, so it is always there, and says its own length. *)
Lemma blob_prefix_shape size : exists header, len header <= u32_max /\
  blob_frame_prefix size = Ok (u8 (ObjectType_to_u8 TBlob) :: be_bytes 4 (len header) ++ header).
Proof.
  set (header := encode_map_sorted [(text_key (bs "size"), encode_u64 size)]).
  assert (len header <= u32_max) as Hl.
  { unfold header. rewrite encode_map_sorted_len_exact. cbn [fmap list_fmap concat]. rewrite app_nil_r. unfold pair_bytes. cbn [fst snd].
    rewrite len_app. unfold encode_u64. unfold text_key, encode_text. rewrite len_app.
    match goal with |- context [push_uint 5 ?n] => pose proof (push_uint_len 5 n) end. pose proof (push_uint_len 0 size). pose proof (push_uint_len 3 (len (bs "size"))). change (len (bs "size")) with 4 in *. unfold u32_max. lia. }
  exists header. split; [done|]. unfold blob_frame_prefix. fold header. by rewrite (proj2 (u32_expect_ok (len header) (len header))).
Qed.

Lemma blob_file_shape o p : blob_frame_prefix (len (blob_data o)) = Ok p -> Blob_encode o = Ok (p ++ blob_data o).
Proof. intros H. unfold Blob_encode. by rewrite H. Qed.

Lemma Blob_encode_total o : exists b, Blob_encode o = Ok b.
Proof. destruct (blob_prefix_shape (len (blob_data o))) as (header & _ & Hp). apply blob_file_shape in Hp. eauto. Qed.

(** ** Lemmas: Tree *)

#[export] Instance codec_kind :
  Codec read_kind (fun k => encode_u64 (EntryKind_to_u8 k)) (fun _ => True).
Proof.
  split.
  - intros pre suf v _ Hl. unfold read_kind.
    erewrite P_bind_step; [|apply codec_u64; [by destruct v|done]]. by destruct v.
  - intros pre suf v r' H. unfold read_kind in H. inv_p.
    apply codec_u64 in Ha as (_ & suf' & -> & ->). unfold EntryKind_from_u8 in H.
    by repeat (case_match; try discriminate H); simplify_eq; eauto.
Qed.

Definition entry_vars_fields (v : EntryVars) : list (bytes * bytes) :=
  opt_pair (bs "id") id_bytes (v_id v) ++
  opt_pair (bs "k") (fun k => encode_u64 (EntryKind_to_u8 k)) (v_kind v) ++
  opt_pair (bs "n") encode_text (v_name v) ++
  opt_pair (bs "x") encode_bool (v_exec v).

Definition entry_inv (v : EntryVars) : Prop := opt_all str_ok (v_name v).

Lemma entry_field_inv k v pre suf v' r' :
  entry_field k v (rd pre suf) = Ok (v', r') -> entry_inv v ->
  exists val suf', suf = val ++ suf' /\ r' = rd (pre ++ val) suf' /\
    records (entry_vars_fields v) (entry_vars_fields v') (text_key k, val) /\ entry_inv v'.
Proof. revert k v pre suf v' r'. fields_inv entry_field entry_vars_fields entry_inv. Qed.

Lemma entry_sort (a b c d : bytes) :
  sort_by_key fst [(text_key (bs "id"), a); (text_key (bs "k"), b);
                   (text_key (bs "n"), c); (text_key (bs "x"), d)] =
  [(text_key (bs "k"), b); (text_key (bs "n"), c); (text_key (bs "x"), d);
   (text_key (bs "id"), a)].
Proof. by vm_compute. Qed.

Ltac keys_nodup := refine (bool_decide_eq_true_1 (NoDup _) _); by vm_compute.

#[export] Instance codec_entry :
  Codec read_entry (fun e => encode_map_sorted (entry_pairs e)) (fun e => str_ok (e_name e)).
Proof.
  split.
  - intros pre suf [name kind id exec] Hv Hl. unfold read_entry. simpl in Hv.
    erewrite P_bind_step.
    2: { apply (map_of_parse _ _ (mkEntryVars (Some name) (Some kind) (Some id) (Some exec)));
           [keys_nodup| |done].
         unfold entry_pairs. rewrite entry_sort. cbn [e_name e_kind e_id e_exec].
         unfold str_ok in Hv. read_fields entry_field. }
    done.
  - intros pre suf e r' H. unfold read_entry in H. inv_p.
    apply (map_of_inv _ _ _ entry_field_inv) in Ha as (suf' & -> & -> & Hi); [|done..].
    destruct a as [n k i x]. apply ok_or_ok in Ha0, Ha1, Ha2, Ha3. simpl in *. subst.
    split; [done|]. eauto.
Qed.

Lemma entries_fold_ok acc es out :
  try_fold (fun out e =>
      _ ← validate_name (e_name e);
      Ok (out ++ encode_map_sorted (entry_pairs e))) acc es = Ok out <->
  Forall (fun e => valid_name (e_name e)) es /\
  out = acc ++ concat ((fun e => encode_map_sorted (entry_pairs e)) <$> es).
Proof.
  revert acc; induction es as [|e es IH]; intros acc; csimpl.
  { rewrite app_nil_r, Forall_nil. naive_solver. }
  rewrite Forall_cons. rewrite app_assoc. unfold valid_name at 1.
  destruct (validate_name (e_name e)) as [[]| |]; simpl; [|naive_solver..].
  rewrite IH. naive_solver.
Qed.

Lemma valid_name_str_ok n : valid_name n -> str_ok n.
Proof.
  rewrite valid_name_spec. intros (? & _ & _ & _ & _ & ?).
  split; [done|]. unfold usize_max, u64_max. lia.
Qed.

Definition entries_bytes (es : list TreeEntry) : bytes :=
  encode_array_header (len es) ++ concat ((fun e => encode_map_sorted (entry_pairs e)) <$> es).

#[export] Instance codec_entries :
  Codec (array_of MAX_TREE_ENTRIES (Corrupt (bs "tree fanout exceeds limit")) read_entry)
    entries_bytes
    (fun es => Forall (fun e => str_ok (e_name e)) es /\ len es <= MAX_TREE_ENTRIES).
Proof. apply codec_array; [apply _|done|]. intros e. auto with pos. Qed.
Lemma entries_bytes_pos es : 0 < len (entries_bytes es).
Proof. apply encode_array_pos. Qed.
#[export] Hint Resolve entries_bytes_pos : pos.

Definition tree_inv (v : option (list TreeEntry)) : Prop :=
  opt_all (fun es => len es <= MAX_TREE_ENTRIES) v.

Lemma tree_field_inv k v pre suf v' r' :
  tree_field k v (rd pre suf) = Ok (v', r') -> tree_inv v ->
  exists val suf', suf = val ++ suf' /\ r' = rd (pre ++ val) suf' /\
    records (opt_pair (bs "e") entries_bytes v) (opt_pair (bs "e") entries_bytes v')
      (text_key k, val) /\ tree_inv v'.
Proof.
  intros H Hinv. unfold tree_field in H. inv_p.
  apply negb_false_iff, bytes_eqb_true in Ha as ->. field_value.
  eexists _, _. split_and!; [done|done|by apply records_last|]. simpl. tauto.
Qed.

Lemma Tree_encode_ok t b :
  Tree_encode t = Ok b <->
  len (entries t) <= MAX_TREE_ENTRIES /\ Forall (fun e => valid_name (e_name e)) (entries t) /\
  encode_file TTree (encode_map_sorted [(text_key (bs "e"), entries_bytes (entries t))]) [] = Ok b.
Proof.
  unfold Tree_encode. rewrite bind_ok. split.
  - intros ([] & H1%reject_if_ok%Z.ltb_ge & H2).
    apply bind_ok in H2 as (out & [H2 ->]%entries_fold_ok & H3). done.
  - intros (H1 & H2 & H3). exists tt. rewrite reject_if_ok, Z.ltb_ge. split; [done|].
    apply bind_ok. eexists. split; [by apply entries_fold_ok|done].
Qed.

(** The header of a successfully encoded file fits in memory. *)
Lemma encode_file_fits ty h p b : encode_file ty h p = Ok b -> len h <= usize_max.
Proof.
  intros [Hh _]%encode_file_ok. unfold u32_max, usize_max, u64_max in *. lia.
Qed.

Lemma len_0_eqb {A} (l : list A) : negb (len l =? 0) = false <-> l = [].
Proof.
  rewrite negb_false_iff, Z.eqb_eq. split; [apply len_0|by intros ->].
Qed.

Ltac decode_file ty :=
  match goal with
  | H : parse_file _ = Ok (_, _, _) |- _ => apply parse_encode_file in H
  end;
  repeat match goal with
  | H : negb (bool_decide (_ = ty)) = false |- _ =>
      apply negb_false_iff, bool_decide_eq_true in H; subst
  | H : negb (len _ =? 0) = false |- _ => apply len_0_eqb in H; subst
  | H : negb (at_end _) = false |- _ => apply negb_false_iff in H
  end.

Lemma Tree_decode_spec b t : Tree_decode b = Ok t <-> wf_tree t /\ Tree_encode t = Ok b.
Proof.
  split.
  - intros H. unfold Tree_decode in H. inv_ok. decode_file TTree. apply from_canonical_spec in H as [-> Hw].
    header_inv tree_field_inv.
    split; [done|]. apply Tree_encode_ok. simpl in *. split; [done|].
    split; [by apply wf_names in Hw|done].
  - intros (Hw & (Hn & Hv & He)%Tree_encode_ok). unfold Tree_decode.
    pose proof (encode_file_fits _ _ _ _ He) as Hfit.
    apply parse_encode_file in He. rewrite He. simpl.
    destruct (map_header_parse tree_field None (Some (entries t))
      [(text_key (bs "e"), entries_bytes (entries t))]) as (r & E1 & E2); [keys_nodup| |done|].
    + eapply reads_cons; [|apply codec_entries|done| |auto with pos|done|done|done].
      * intros r. unfold tree_field. eval_keys. reflexivity.
      * split; [|done]. eapply Forall_impl; [done|]. intros e. apply valid_name_str_ok.
    + rewrite E1. simpl. rewrite E2. simpl. apply from_canonical_spec. destruct t. done.
Qed.

Lemma Blob_decode_spec b o :
  Blob_decode b = Ok o <-> len (blob_data o) <= usize_max /\ Blob_encode o = Ok b.
Proof.
  unfold Blob_encode. rewrite blob_frame_prefix_file. split.
  - intros H. unfold Blob_decode in H. inv_ok. decode_file TBlob.
    header_inv blob_field_inv.
    repeat match goal with
    | H : negb _ = false |- _ => apply negb_false_iff, Z.eqb_eq in H as ->
    | H : (_ <? _) = false |- _ => apply Z.ltb_ge in H
    end. done.
  - intros [Hn He]. unfold Blob_decode.
    pose proof (encode_file_fits _ _ _ _ He) as Hfit.
    apply parse_encode_file in He. rewrite He. simpl.
    edestruct (map_header_parse blob_field None (Some (len (blob_data o))))
      as (r & E1 & E2); [|  |exact Hfit|].
    + keys_nodup.
    + pose proof (len_nonneg (blob_data o)).
      eapply reads_cons; [|apply codec_u64|done| |auto with pos|done|done|done].
      * intros r. unfold blob_field. eval_keys. reflexivity.
      * done.
    + rewrite E1. simpl. rewrite (proj2 (Z.ltb_ge _ _)) by done. simpl.
      rewrite Z.eqb_refl, E2. by destruct o.
Qed.

(** ** Lemmas: Commit *)

Definition commit_vars_fields (v : CommitVars) : list (bytes * bytes) :=
  opt_pair (bs "agent") encode_text (v_agent v) ++
  opt_pair (bs "lm") encode_bool (v_lm v) ++
  opt_pair (bs "msg") encode_text (v_msg v) ++
  opt_pair (bs "parents") encode_ids (v_parents v) ++
  opt_pair (bs "tree") id_bytes (v_tree v) ++
  opt_pair (bs "ts") encode_u64 (v_ts v) ++
  opt_pair (bs "contrib") id_bytes (v_contrib v).

Definition commit_inv (v : CommitVars) : Prop :=
  opt_all (fun l => len l <= MAX_COMMIT_PARENTS) (v_parents v) /\
  opt_all str_ok (v_agent v) /\ opt_all str_ok (v_msg v) /\ opt_all in_u64 (v_ts v).

Lemma commit_field_inv k v pre suf v' r' :
  commit_field k v (rd pre suf) = Ok (v', r') -> commit_inv v ->
  exists val suf', suf = val ++ suf' /\ r' = rd (pre ++ val) suf' /\
    records (commit_vars_fields v) (commit_vars_fields v') (text_key k, val) /\ commit_inv v'.
Proof. revert k v pre suf v' r'. fields_inv commit_field commit_vars_fields commit_inv. Qed.

Lemma commit_sort (a b c d e f : bytes) (g : option bytes) :
  sort_by_key fst ([(text_key (bs "agent"), a); (text_key (bs "lm"), b);
     (text_key (bs "msg"), c); (text_key (bs "parents"), d); (text_key (bs "tree"), e);
     (text_key (bs "ts"), f)] ++
     match g with Some x => [(text_key (bs "contrib"), x)] | None => [] end) =
  [(text_key (bs "lm"), b); (text_key (bs "ts"), f); (text_key (bs "msg"), c);
   (text_key (bs "tree"), e); (text_key (bs "agent"), a)] ++
  match g with Some x => [(text_key (bs "contrib"), x)] | None => [] end ++
  [(text_key (bs "parents"), d)].
Proof. destruct g; by vm_compute. Qed.

Definition commit_vars (c : Commit) : CommitVars :=
  mkCommitVars (Some (c_tree c)) (Some (c_parents c)) (Some (c_agent c)) (Some (c_msg c))
    (Some (c_ts c)) (Some (c_landmark c)) (c_contrib c).

Lemma commit_reads c : wf_commit c ->
  reads_fields commit_field (mkCommitVars None None None None None None None)
    (sort_by_key fst (commit_pairs c)) (commit_vars c).
Proof.
  destruct c as [tree parents agent msg ts lm contrib]. unfold wf_commit, str_ok.
  cbn [c_tree c_parents c_agent c_msg c_ts c_landmark c_contrib].
  intros (? & ? & ? & ?). unfold commit_pairs.
  cbn [c_tree c_parents c_agent c_msg c_ts c_landmark c_contrib].
  destruct contrib; [rewrite (commit_sort _ _ _ _ _ _ (Some _))|rewrite (commit_sort _ _ _ _ _ _ None)];
    cbn [app]; read_fields commit_field.
Qed.

Lemma Commit_decode_spec b c : Commit_decode b = Ok c <-> wf_commit c /\ Commit_encode c = Ok b.
Proof.
  split.
  - intros H. unfold Commit_decode in H. inv_ok. decode_file TCommit.
    header_inv commit_field_inv.
    match goal with v : CommitVars |- _ => destruct v end. simpl in *. simplify_eq. split; [done|].
    unfold Commit_encode, commit_pairs. simpl. by destruct v_contrib0.
  - intros [Hw He]. unfold Commit_decode. unfold Commit_encode in He.
    pose proof (encode_file_fits _ _ _ _ He) as Hfit.
    apply parse_encode_file in He. rewrite He. simpl.
    edestruct (map_header_parse commit_field) as (r & E1 & E2);
      [|by apply commit_reads|exact Hfit|].
    + unfold commit_pairs. destruct (c_contrib c); keys_nodup.
    + rewrite E1. simpl. rewrite E2. by destruct c.
Qed.

(** ** Lemmas: Snapshot *)

#[export] Instance codec_arr32 e :
  Codec (read_arr 32 e) (fun a => encode_bytes (arr_bytes a)) (fun _ => True).
Proof. by apply codec_read_arr. Qed.
#[export] Instance codec_arr64 e :
  Codec (read_arr 64 e) (fun a => encode_bytes (arr_bytes a)) (fun _ => True).
Proof. by apply codec_read_arr. Qed.

Definition snap_vars_fields (v : SnapVars) : list (bytes * bytes) :=
  opt_pair (bs "commit") id_bytes (sv_commit v) ++
  opt_pair (bs "pk") (fun a => encode_bytes (arr_bytes a)) (sv_pk v) ++
  opt_pair (bs "prov") id_bytes (sv_prov v) ++
  opt_pair (bs "sig") (fun a => encode_bytes (arr_bytes a)) (sv_sig v) ++
  opt_pair (bs "tag") encode_text (sv_tag v) ++
  opt_pair (bs "tree") id_bytes (sv_tree v) ++
  opt_pair (bs "ts") encode_u64 (sv_ts v).

Definition snap_inv (v : SnapVars) : Prop :=
  opt_all str_ok (sv_tag v) /\ opt_all in_u64 (sv_ts v).

Lemma snapshot_field_inv k v pre suf v' r' :
  snapshot_field k v (rd pre suf) = Ok (v', r') -> snap_inv v ->
  exists val suf', suf = val ++ suf' /\ r' = rd (pre ++ val) suf' /\
    records (snap_vars_fields v) (snap_vars_fields v') (text_key k, val) /\ snap_inv v'.
Proof. revert k v pre suf v' r'. fields_inv snapshot_field snap_vars_fields snap_inv. Qed.

Lemma snapshot_sort (a b c d e f g : bytes) :
  sort_by_key fst [(text_key (bs "commit"), a); (text_key (bs "pk"), b);
    (text_key (bs "prov"), c); (text_key (bs "sig"), d); (text_key (bs "tag"), e);
    (text_key (bs "tree"), f); (text_key (bs "ts"), g)] =
  [(text_key (bs "pk"), b); (text_key (bs "ts"), g); (text_key (bs "sig"), d);
   (text_key (bs "tag"), e); (text_key (bs "prov"), c); (text_key (bs "tree"), f);
   (text_key (bs "commit"), a)].
Proof. by vm_compute. Qed.

Lemma Snapshot_decode_spec b s :
  Snapshot_decode b = Ok s <-> wf_snapshot s /\ Snapshot_encode s = Ok b.
Proof.
  split.
  - intros H. unfold Snapshot_decode in H. inv_ok. decode_file TSnapshot.
    header_inv snapshot_field_inv.
    match goal with v : SnapVars |- _ => destruct v end. simpl in *. by simplify_eq.
  - intros [Hw He]. unfold Snapshot_decode. unfold Snapshot_encode in He.
    pose proof (encode_file_fits _ _ _ _ He) as Hfit.
    apply parse_encode_file in He. rewrite He. simpl.
    destruct s as [tree commit tag ts prov pk sig]. unfold wf_snapshot, str_ok in Hw.
    cbn [s_tag s_ts] in Hw.
    edestruct (map_header_parse snapshot_field (mkSnapVars None None None None None None None)
      (mkSnapVars (Some tree) (Some commit) (Some tag) (Some ts) (Some prov) (Some pk) (Some sig)))
      as (r & E1 & E2); [| |exact Hfit|].
    + keys_nodup.
    + unfold snapshot_pairs. rewrite snapshot_sort.
      cbn [s_tree s_commit s_tag s_ts s_prov s_pk s_sig]. read_fields snapshot_field.
    + rewrite E1. simpl. by rewrite E2.
Qed.

(** ** Lemmas: Conflict (parsing direction) *)

#[export] Instance codec_opt_id : Codec (null_or bstr32) opt_id (fun _ => True).
Proof.
  eapply codec_ext; [apply (codec_null_or bstr32 id_bytes (fun _ => True))| | |].
  - apply _.
  - intros v. exists (u8 88), (u8 32 :: arr_bytes v). unfold id_bytes, encode_bytes.
    rewrite arr_length_len. by split.
  - done.
  - done.
  - naive_solver.
Qed.
Lemma opt_id_pos o : 0 < len (opt_id o).
Proof. destruct o; [apply id_bytes_pos|done]. Qed.
#[export] Hint Resolve opt_id_pos : pos.

Lemma conflict_path_sort (a b c d : bytes) :
  sort_by_key fst [(text_key (bs "a"), a); (text_key (bs "b"), b);
    (text_key (bs "base"), c); (text_key (bs "p"), d)] =
  [(text_key (bs "a"), a); (text_key (bs "b"), b); (text_key (bs "p"), d);
   (text_key (bs "base"), c)].
Proof. by vm_compute. Qed.

#[export] Instance parses_conflict_path :
  Parses read_conflict_path (fun p => encode_map_sorted (conflict_path_pairs p))
    (fun p => str_ok (cp_path p)).
Proof.
  intros pre suf [path a b base] Hv Hl. unfold read_conflict_path. simpl in Hv.
  erewrite P_bind_step.
  2: { apply (map_of_parse _ _ (mkPathVars (Some path) a b base)); [keys_nodup| |done].
       unfold conflict_path_pairs. rewrite conflict_path_sort.
       cbn [cp_path cp_a cp_b cp_base]. unfold str_ok in Hv. read_fields path_field. }
  done.
Qed.

Definition conflict_paths_bytes (ps : list ConflictPath) : bytes :=
  encode_array_header (len ps) ++
  concat ((fun p => encode_map_sorted (conflict_path_pairs p)) <$> ps).

#[export] Instance parses_conflict_paths :
  Parses (array_of MAX_CONFLICT_ITEMS (Corrupt (bs "conflict path count exceeds limit"))
            read_conflict_path) conflict_paths_bytes
    (fun ps => Forall (fun p => str_ok (cp_path p)) ps /\ len ps <= MAX_CONFLICT_ITEMS).
Proof. apply parses_array; [apply _|done|]. intros p. auto with pos. Qed.

Lemma conflict_sort (a b c d e : bytes) :
  sort_by_key fst [(text_key (bs "bases"), a); (text_key (bs "causal"), b);
    (text_key (bs "ours"), c); (text_key (bs "paths"), d); (text_key (bs "theirs"), e)] =
  [(text_key (bs "ours"), c); (text_key (bs "bases"), a); (text_key (bs "paths"), d);
   (text_key (bs "causal"), b); (text_key (bs "theirs"), e)].
Proof. by vm_compute. Qed.

Lemma Conflict_decode_encode c b :
  wf_conflict c -> Conflict_encode c = Ok b -> Conflict_decode b = Ok c.
Proof.
  intros Hw He. unfold Conflict_decode. unfold Conflict_encode in He.
  pose proof (encode_file_fits _ _ _ _ He) as Hfit.
  apply parse_encode_file in He. rewrite He. simpl.
  destruct c as [bases ours theirs paths causal]. unfold wf_conflict in Hw.
  cbn [cf_bases cf_causal cf_paths] in Hw. destruct Hw as (H1 & H2 & H3 & H4).
  edestruct (map_header_parse conflict_field (mkConflictVars None None None None None)
    (mkConflictVars (Some bases) (Some ours) (Some theirs) (Some paths) (Some causal)))
    as (r & E1 & E2); [| |exact Hfit|].
  - keys_nodup.
  - unfold conflict_pairs. rewrite conflict_sort.
    cbn [cf_bases cf_ours cf_theirs cf_paths cf_causal]. read_fields conflict_field.
  - rewrite E1. simpl. by rewrite E2.
Qed.

(** ** Lemmas: no decoder panics *)

Lemma no_panic_map_of {V} (field : str -> V -> P V) v0 h :
  (forall k v, safe (field k v)) -> no_panic (map_of field v0 (new h)).
Proof.
  intros Hf. pose proof (safe_map_of field v0 Hf (new h)) as Hs.
  unfold wf_reader in Hs. simpl in Hs. specialize (Hs ltac:(pose proof (len_nonneg h); lia)).
  unfold no_panic. by destruct (map_of field v0 (new h)).
Qed.

Lemma safe_read_arr n e : safe (read_arr n e).
Proof. unfold read_arr. safe. Qed.
#[export] Hint Resolve safe_read_arr : safe.
Lemma safe_read_kind : safe read_kind.
Proof.
  unfold read_kind. safe. apply safe_lift. unfold EntryKind_from_u8.
  by repeat case_match.
Qed.
#[export] Hint Resolve safe_read_kind : safe.
Lemma safe_read_entry : safe read_entry.
Proof. unfold read_entry. safe. apply safe_map_of. intros k v. unfold entry_field. safe. Qed.
Lemma safe_read_conflict_path : safe read_conflict_path.
Proof.
  unfold read_conflict_path. safe. apply safe_map_of. intros k v. unfold path_field. safe.
Qed.
#[export] Hint Resolve safe_read_entry safe_read_conflict_path : safe.

(** [no_panic]: follow the code of a decoder. *)
Ltac no_panic_step :=
  match goal with
  | |- no_panic (_ ≫= _) => apply no_panic_bind; [|intros ? ?]
  | |- no_panic (match ?x with _ => _ end) => destruct x
  | |- no_panic _ => solve [auto with forge]
  end.
Ltac no_panic_tac := repeat no_panic_step.

Lemma no_panic_Blob_decode b : no_panic (Blob_decode b).
Proof. unfold Blob_decode. no_panic_tac. apply no_panic_map_of. intros. unfold blob_field. safe. Qed.
Lemma no_panic_Tree_decode b : no_panic (Tree_decode b).
Proof. unfold Tree_decode. no_panic_tac. apply no_panic_map_of. intros. unfold tree_field. safe. Qed.
Lemma no_panic_Commit_decode b : no_panic (Commit_decode b).
Proof.
  unfold Commit_decode. no_panic_tac. apply no_panic_map_of. intros.
  unfold commit_field, read_parents. safe.
Qed.
Lemma no_panic_Conflict_decode b : no_panic (Conflict_decode b).
Proof.
  unfold Conflict_decode. no_panic_tac. apply no_panic_map_of. intros.
  unfold conflict_field, id_array. safe.
Qed.
Lemma no_panic_Snapshot_decode b : no_panic (Snapshot_decode b).
Proof.
  unfold Snapshot_decode. no_panic_tac. apply no_panic_map_of. intros.
  unfold snapshot_field. safe.
Qed.
#[export] Hint Resolve no_panic_Blob_decode no_panic_Tree_decode no_panic_Commit_decode
  no_panic_Conflict_decode no_panic_Snapshot_decode : forge.

(** ** Lemmas: the size of an encoded tree *)

Lemma entry_pairs_len e :
  valid_name (e_name e) -> len (encode_map_sorted (entry_pairs e)) <= 368.
Proof.
  intros (Hn & _)%valid_name_spec.
  pose proof (encode_map_sorted_len (entry_pairs e)) as H.
  unfold entry_pairs in H at 2. rewrite !concat_pairs_cons in H. unfold text_key in H.
  pose proof (encode_text_len (bs "id")). pose proof (encode_text_len (bs "k")).
  pose proof (encode_text_len (bs "n")). pose proof (encode_text_len (bs "x")).
  pose proof (encode_text_len (e_name e)).
  pose proof (encode_bytes_len (arr_bytes (e_id e))) as Hi. rewrite arr_length_len in Hi.
  pose proof (push_uint_len 0 (EntryKind_to_u8 (e_kind e))) as Hk.
  unfold encode_u64, encode_bool in H. rewrite !len_app in H.
  change (len (bs "id")) with 2 in *. change (len (bs "k")) with 1 in *.
  change (len (bs "n")) with 1 in *. change (len (bs "x")) with 1 in *.
  change (len (concat (pair_bytes <$> []))) with 0 in H.
  change (len [if e_exec e then xf5 else xf4]) with 1 in H. lia.
Qed.

Lemma entries_bytes_len es :
  Forall (fun e => valid_name (e_name e)) es -> len (entries_bytes es) <= 9 + 368 * len es.
Proof.
  intros H. unfold entries_bytes, encode_array_header. rewrite len_app.
  pose proof (push_uint_len 4 (len es)) as Hh.
  enough (len (concat ((fun e => encode_map_sorted (entry_pairs e)) <$> es)) <= 368 * len es)
    by lia. clear Hh.
  induction H as [|e es He H IH]; [done|]. rewrite fmap_cons. cbn [concat].
  cbv beta. rewrite len_app, len_cons. pose proof (entry_pairs_len e He). lia.
Qed.

Lemma Tree_encode_cases (t : Tree) :
  Forall (fun e => valid_name (e_name e)) (entries t) ->
  if len (entries t) <=? MAX_TREE_ENTRIES then exists b, Tree_encode t = Ok b
  else exists m, Tree_encode t = Err (Invalid m).
Proof.
  intros Hv. destruct (Z.leb_spec (len (entries t)) MAX_TREE_ENTRIES) as [H|H].
  - eexists. apply Tree_encode_ok. split; [done|]. split; [done|].
    apply encode_file_ok. split; [|reflexivity].
    pose proof (encode_map_sorted_len [(text_key (bs "e"), entries_bytes (entries t))]) as Hl.
    rewrite concat_pairs_cons, !len_app in Hl. unfold text_key in *.
    pose proof (encode_text_len (bs "e")) as He.
    pose proof (entries_bytes_len _ Hv).
    change (len (bs "e")) with 1 in He. change (len (concat (pair_bytes <$> []))) with 0 in Hl.
    unfold MAX_TREE_ENTRIES, u32_max in *. lia.
  - unfold Tree_encode. rewrite (proj2 (Z.ltb_lt _ _)) by done. simpl. eauto.
Qed.

(** ** Properties *)

(** C38: The tree codec is a bijection between well-formed trees within the
    entry limit and the byte strings the decoder accepts: bytes decode to a tree
    exactly when the tree is well formed (valid names, strictly increasing) and
    encodes to those very bytes (I1, I2). *)
Theorem tree_codec (b : bytes) (t : Tree) :
  Tree_decode b = Ok t <-> wf_tree t /\ Tree_encode t = Ok b.
Proof. apply Tree_decode_spec. Qed.

(** The commit codec is a bijection between well-formed commits and the
    byte strings the decoder accepts. *)
Theorem commit_codec (b : bytes) (c : Commit) :
  Commit_decode b = Ok c <-> wf_commit c /\ Commit_encode c = Ok b.
Proof. apply Commit_decode_spec. Qed.

(** The same for blobs: the header carries the exact payload length. *)
Theorem blob_codec (b : bytes) (o : Blob) :
  Blob_decode b = Ok o <-> len (blob_data o) <= usize_max /\ Blob_encode o = Ok b.
Proof. apply Blob_decode_spec. Qed.

(** The same for snapshots, signature and public key included. *)
Theorem snapshot_codec (b : bytes) (s : Snapshot) :
  Snapshot_decode b = Ok s <-> wf_snapshot s /\ Snapshot_encode s = Ok b.
Proof. apply Snapshot_decode_spec. Qed.

(** ** The paths of an encoded conflict fit the machine *)

Lemma conflict_paths_fit c b : Conflict_encode c = Ok b -> Forall (fun p => len (cp_path p) <= usize_max) (cf_paths c).
Proof.
  intros H%encode_file_fits. apply Forall_forall. intros p Hp.
  set (paths := concat ((fun p => encode_map_sorted (conflict_path_pairs p)) <$> cf_paths c)).
  assert (len (encode_array_header (len (cf_paths c)) ++ paths) <= len (encode_map_sorted (conflict_pairs c))) as H1.
  { apply (map_sorted_len (text_key (bs "paths"))). right; right; right; left. }
  assert (len (encode_map_sorted (conflict_path_pairs p)) <= len paths) as H2.
  { apply len_concat_in, list_elem_of_fmap. by exists p. }
  assert (len (encode_text (cp_path p)) <= len (encode_map_sorted (conflict_path_pairs p))) as H3.
  { apply (map_sorted_len (text_key (bs "p"))). right; right; right; left. }
  rewrite len_app in H1. unfold encode_text in H3. rewrite len_app in H3.
  pose proof (len_nonneg (push_uint 3 (len (cp_path p)))). pose proof (len_nonneg (encode_array_header (len (cf_paths c)))). lia.
Qed.

Lemma conflict_encoded_wf c b :
  Conflict_validate c = Ok tt -> Forall (fun p => utf8_valid (cp_path p) = true) (cf_paths c) -> Conflict_encode c = Ok b -> wf_conflict c.
Proof.
  intros Hv Hu He. pose proof (conflict_paths_fit c b He) as Hl. unfold Conflict_validate in Hv. cbn [for_each] in Hv. inv_ok.
  unfold wf_conflict. split_and!; [by apply Z.ltb_ge..|]. apply Forall_forall. intros p Hp. rewrite Forall_forall in Hu, Hl.
  split; auto.
Qed.

(** A conflict within the limits of [validate] is read back as written. *)
Theorem conflict_roundtrip (c : Conflict) (b : bytes) :
  wf_conflict c -> Conflict_encode c = Ok b -> Conflict_decode b = Ok c.
Proof. apply Conflict_decode_encode. Qed.

Definition sample_conflict : Conflict :=
  mkConflict [] ZERO ZERO [mkConflictPath (bs "a/b") (Some ZERO) None None] [ZERO].

Lemma conflict_roundtrip_witness :
  exists b, Conflict_encode sample_conflict = Ok b /\ Conflict_decode b = Ok sample_conflict.
Proof.
  destruct (Conflict_encode sample_conflict) as [b|e|] eqn:E;
    [|vm_compute in E; discriminate E|vm_compute in E; discriminate E].
  exists b. split; [reflexivity|].
  apply (conflict_roundtrip sample_conflict b); [|exact E].
  split; [vm_compute; discriminate|]. split; [vm_compute; discriminate|].
  split; [vm_compute; discriminate|].
  constructor; [|constructor]. split; [reflexivity|vm_compute; discriminate].
Defined.

(** C39: Whatever bytes are given to them, the object decoders return a value
    or an error: no slice, index or conversion in them can panic. *)
Theorem object_decoders_never_panic (b : bytes) :
  no_panic (parse_file b) /\ no_panic (Blob_decode b) /\ no_panic (Tree_decode b) /\
  no_panic (Commit_decode b) /\ no_panic (Conflict_decode b) /\ no_panic (Snapshot_decode b).
Proof. split_and!; auto with forge. Qed.

(** A tree with valid names is always written, or refused as the caller's
    mistake: within the entry limit encoding succeeds (its header is far below
    the 32-bit length the layout allows, so the [expect] cannot fire), above the
    limit it is [Invalid]. *)
Theorem tree_encode_total (t : Tree) :
  Forall (fun e => valid_name (e_name e)) (entries t) ->
  if len (entries t) <=? MAX_TREE_ENTRIES then exists b, Tree_encode t = Ok b
  else exists m, Tree_encode t = Err (Invalid m).
Proof. apply Tree_encode_cases. Qed.

Lemma tree_encode_total_witness :
  exists b, Tree_encode (mkTree [mkEntry (bs "a") KBlob ZERO false]) = Ok b.
Proof.
  apply (tree_encode_total (mkTree [mkEntry (bs "a") KBlob ZERO false])).
  repeat constructor.
Defined.

(** Conflict headers are not canonical: a header without [bases], [paths] and
    [causal] decodes to the same conflict as the one the encoder writes. *)
Lemma conflict_decode_not_injective :
  exists b1 b2 c, b1 <> b2 /\ Conflict_decode b1 = Ok c /\ Conflict_decode b2 = Ok c.
Proof.
  pose (h := encode_map_sorted [(text_key (bs "ours"), id_bytes ZERO);
                                (text_key (bs "theirs"), id_bytes ZERO)]).
  pose (c := mkConflict [] ZERO ZERO [] []).
  exists (u8 4 :: be_bytes 4 (len h) ++ h), (default [] (match Conflict_encode c with
    Ok b => Some b | _ => None end)), c.
  split_and!; [by vm_compute|by vm_compute|by vm_compute].
Qed.
