(* ===== verification/Contribution.v ===== *)
(** * [crates/forge-core/src/contribution.rs]: contribution receipts

    Limits, validation with its size estimate, and the codec.  The decoder
    re-encodes what it read and compares, so canonicity is checked by the code
    itself; that a canonical encoding is accepted is the theorem. *)

From S2P Require Import Prelude RustStd Types Cbor Tree Object.

Definition MAX_ITEMS : Z := 100000.
Definition MAX_PARENTS : Z := 1024.
Definition MAX_PATH_BYTES : Z := 4096.
Definition MAX_AGENT_BYTES : Z := 1024.
Definition MAX_SERIALIZED_HEADER_BYTES : Z := 8 * 1024 * 1024.

Record ContributionRead := mkRead { rd_path : str; rd_id : ObjectId }.

Record Contribution := mkContribution {
  t_base : ObjectId;
  t_tree : ObjectId;
  t_parents : list ObjectId;
  t_reads : list ContributionRead;
  t_writes : list str;
  t_agent : str;
  t_ts : Z
}.
#[export] Instance ContributionRead_eq_dec : EqDecision ContributionRead.
Proof. solve_decision. Defined.
#[export] Instance Contribution_eq_dec : EqDecision Contribution.
Proof. solve_decision. Defined.

Definition validate_path (path : str) : Result unit :=
  reject_if ((len path =? 0) || (MAX_PATH_BYTES <? len path) || contains_byte path x00)
    (Invalid (bs "contribution path bounds")).

Fixpoint sorted_unique_loop (prev : option str) (paths : list str) : Result unit :=
  match paths with
  | [] => Ok tt
  | path :: rest =>
      _ ← validate_path path;
      _ ← match prev with
          | Some prev => reject_if (bytes_le path prev)
              (Invalid (bs "contribution paths must be bytewise sorted unique"))
          | None => Ok tt
          end;
      sorted_unique_loop (Some path) rest
  end.

Definition validate_sorted_unique (paths : list str) : Result unit :=
  sorted_unique_loop None paths.

(** [usize::checked_add], [usize::saturating_add], [usize::saturating_mul]. *)
Definition checked_add (a b : Z) : option Z := if usize_max <? a + b then None else Some (a + b).
Definition saturating (z : Z) : Z := Z.min z usize_max.

Definition size_overflow : Error := Invalid (bs "contribution size overflow").

Definition validate (c : Contribution) : Result unit :=
  _ ← reject_if ((MAX_PARENTS <? len (t_parents c)) || (MAX_ITEMS <? len (t_reads c))
        || (MAX_ITEMS <? len (t_writes c))) (Invalid (bs "contribution fanout exceeds limit"));
  _ ← reject_if ((len (t_agent c) =? 0) || (MAX_AGENT_BYTES <? len (t_agent c)))
        (Invalid (bs "contribution agent bounds"));
  estimated ← ok_or (n ← checked_add 1024 (len (t_agent c));
                     checked_add n (saturating (len (t_parents c) * 40))) size_overflow;
  estimated ← try_fold (fun est rd =>
      ok_or (checked_add est (saturating (len (rd_path rd) + 64))) size_overflow)
    estimated (t_reads c);
  estimated ← try_fold (fun est path =>
      ok_or (checked_add est (saturating (len path + 8))) size_overflow)
    estimated (t_writes c);
  _ ← reject_if (MAX_SERIALIZED_HEADER_BYTES <? estimated)
        (Invalid (bs "contribution exceeds serialized size limit"));
  _ ← validate_sorted_unique (rd_path <$> t_reads c);
  validate_sorted_unique (t_writes c).

Definition read_pairs (r : ContributionRead) : list (bytes * bytes) :=
  [(text_key (bs "id"), id_bytes (rd_id r)); (text_key (bs "p"), encode_text (rd_path r))].

Definition reads_bytes (rs : list ContributionRead) : bytes :=
  encode_array_header (len rs) ++ concat ((fun r => encode_map_sorted (read_pairs r)) <$> rs).
Definition writes_bytes (ws : list str) : bytes :=
  encode_array_header (len ws) ++ concat (encode_text <$> ws).

Definition contribution_pairs (c : Contribution) : list (bytes * bytes) :=
  [(text_key (bs "agent"), encode_text (t_agent c));
   (text_key (bs "base"), id_bytes (t_base c));
   (text_key (bs "parents"), encode_ids (t_parents c));
   (text_key (bs "reads"), reads_bytes (t_reads c));
   (text_key (bs "tree"), id_bytes (t_tree c));
   (text_key (bs "ts"), encode_u64 (t_ts c));
   (text_key (bs "writes"), writes_bytes (t_writes c))].

Definition encode (c : Contribution) : Result bytes :=
  _ ← validate c;
  let header := encode_map_sorted (contribution_pairs c) in
  _ ← reject_if (MAX_SERIALIZED_HEADER_BYTES <? len header)
        (Invalid (bs "contribution exceeds serialized size limit"));
  encode_file TContribution header [].

Record ContributionVars := mkVars {
  v_base : option ObjectId; v_tree : option ObjectId; v_parents : option (list ObjectId);
  v_reads : option (list ContributionRead); v_writes : option (list str);
  v_agent : option str; v_ts : option Z
}.

Record ReadVars := mkReadVars { rv_path : option str; rv_id : option ObjectId }.

Definition read_field (k : str) (v : ReadVars) : P ReadVars :=
  let 'mkReadVars path id := v in
  if bytes_eqb k (bs "p") then x ← text; mret (mkReadVars (Some x) id)
  else if bytes_eqb k (bs "id") then x ← bstr32; mret (mkReadVars path (Some x))
  else fail (Corrupt (bs "unknown contribution read key {key}")).

Definition read_one : P ContributionRead :=
  v ← map_of read_field (mkReadVars None None);
  path ← lift (ok_or (rv_path v) (Corrupt (bs "contribution read path")));
  id ← lift (ok_or (rv_id v) (Corrupt (bs "contribution read id")));
  mret (mkRead path id).

Definition read_parent_ids : P (list ObjectId) :=
  array_of MAX_PARENTS (Corrupt (bs "contribution parent count exceeds limit")) bstr32.
Definition read_reads : P (list ContributionRead) :=
  array_of MAX_ITEMS (Corrupt (bs "contribution read count exceeds limit")) read_one.
Definition read_writes : P (list str) :=
  array_of MAX_ITEMS (Corrupt (bs "contribution write count exceeds limit")) text.

Definition contribution_field (k : str) (v : ContributionVars) : P ContributionVars :=
  let 'mkVars base tree parents reads writes agent ts := v in
  if bytes_eqb k (bs "base") then
    x ← bstr32; mret (mkVars (Some x) tree parents reads writes agent ts)
  else if bytes_eqb k (bs "tree") then
    x ← bstr32; mret (mkVars base (Some x) parents reads writes agent ts)
  else if bytes_eqb k (bs "parents") then
    x ← read_parent_ids; mret (mkVars base tree (Some x) reads writes agent ts)
  else if bytes_eqb k (bs "reads") then
    x ← read_reads; mret (mkVars base tree parents (Some x) writes agent ts)
  else if bytes_eqb k (bs "writes") then
    x ← read_writes; mret (mkVars base tree parents reads (Some x) agent ts)
  else if bytes_eqb k (bs "agent") then
    x ← text; mret (mkVars base tree parents reads writes (Some x) ts)
  else if bytes_eqb k (bs "ts") then
    x ← read_u64; mret (mkVars base tree parents reads writes agent (Some x))
  else fail (Corrupt (bs "unknown contribution key {key}")).

Definition size_limit : Error := Corrupt (bs "contribution exceeds serialized size limit").

Definition decode (b : bytes) : Result Contribution :=
  _ ← reject_if (saturating (MAX_SERIALIZED_HEADER_BYTES + 5) <? len b) size_limit;
  '(ty, header, payload) ← parse_file b;
  _ ← reject_if (MAX_SERIALIZED_HEADER_BYTES <? len header) size_limit;
  _ ← reject_if (negb (bool_decide (ty = TContribution))) (Corrupt (bs "not a contribution"));
  _ ← reject_if (negb (len payload =? 0)) (Corrupt (bs "contribution has payload"));
  '(v, r) ← map_of contribution_field (mkVars None None None None None None None) (new header);
  _ ← reject_if (negb (at_end r)) (Corrupt (bs "contribution header trailing bytes"));
  base ← ok_or (v_base v) (Corrupt (bs "contribution base"));
  tree ← ok_or (v_tree v) (Corrupt (bs "contribution tree"));
  parents ← ok_or (v_parents v) (Corrupt (bs "contribution parents"));
  reads ← ok_or (v_reads v) (Corrupt (bs "contribution reads"));
  writes ← ok_or (v_writes v) (Corrupt (bs "contribution writes"));
  agent ← ok_or (v_agent v) (Corrupt (bs "contribution agent"));
  ts ← ok_or (v_ts v) (Corrupt (bs "contribution ts"));
  let value := mkContribution base tree parents reads writes agent ts in
  _ ← map_err (fun _ => Corrupt (bs "{e}")) (validate value);
  b' ← encode value;
  _ ← reject_if (negb (bytes_eqb b' b)) (Corrupt (bs "non-canonical contribution encoding"));
  Ok value.

(** ** Lemmas *)

(** The strings of a contribution are Rust strings. *)
Definition wf_contribution (c : Contribution) : Prop :=
  Forall (fun r => str_ok (rd_path r)) (t_reads c) /\ Forall str_ok (t_writes c) /\
  str_ok (t_agent c) /\ in_u64 (t_ts c).

Lemma read_sort (a b : bytes) :
  sort_by_key fst [(text_key (bs "id"), a); (text_key (bs "p"), b)] =
  [(text_key (bs "p"), b); (text_key (bs "id"), a)].
Proof. by vm_compute. Qed.

Definition read_vars_fields (v : ReadVars) : list (bytes * bytes) :=
  opt_pair (bs "id") id_bytes (rv_id v) ++ opt_pair (bs "p") encode_text (rv_path v).
Definition read_inv (v : ReadVars) : Prop := opt_all str_ok (rv_path v).

Lemma read_field_inv k v pre suf v' r' :
  read_field k v (rd pre suf) = Ok (v', r') -> read_inv v ->
  exists val suf', suf = val ++ suf' /\ r' = rd (pre ++ val) suf' /\
    records (read_vars_fields v) (read_vars_fields v') (text_key k, val) /\ read_inv v'.
Proof. revert k v pre suf v' r'. fields_inv read_field read_vars_fields read_inv. Qed.

#[export] Instance codec_read_one :
  Codec read_one (fun r => encode_map_sorted (read_pairs r)) (fun r => str_ok (rd_path r)).
Proof.
  split.
  - intros pre suf [path id] Hv Hl. unfold read_one. simpl in Hv.
    erewrite P_bind_step.
    2: { apply (map_of_parse _ _ (mkReadVars (Some path) (Some id))); [keys_nodup| |done].
         unfold read_pairs. rewrite read_sort. cbn [rd_path rd_id].
         unfold str_ok in Hv. read_fields read_field. }
    done.
  - intros pre suf e r' H. unfold read_one in H. inv_p.
    apply (map_of_inv _ _ _ read_field_inv) in Ha as (suf' & -> & -> & Hi); [|done..].
    destruct a as [p i]. apply ok_or_ok in Ha0, Ha1. simpl in *. subst.
    split; [done|]. eauto.
Qed.

#[export] Instance codec_parent_ids :
  Codec read_parent_ids encode_ids (fun l => len l <= MAX_PARENTS).
Proof. by apply codec_ids. Qed.
#[export] Instance codec_reads :
  Codec read_reads reads_bytes
    (fun l => Forall (fun r => str_ok (rd_path r)) l /\ len l <= MAX_ITEMS).
Proof. apply codec_array; [apply _|done|]. intros e. auto with pos. Qed.
#[export] Instance codec_writes :
  Codec read_writes writes_bytes (fun l => Forall str_ok l /\ len l <= MAX_ITEMS).
Proof. apply codec_array; [apply _|done|]. intros e. auto with pos. Qed.
Lemma reads_bytes_pos l : 0 < len (reads_bytes l).
Proof. apply encode_array_pos. Qed.
Lemma writes_bytes_pos l : 0 < len (writes_bytes l).
Proof. apply encode_array_pos. Qed.
#[export] Hint Resolve reads_bytes_pos writes_bytes_pos : pos.

Lemma contribution_sort (a b c d e f g : bytes) :
  sort_by_key fst [(text_key (bs "agent"), a); (text_key (bs "base"), b);
    (text_key (bs "parents"), c); (text_key (bs "reads"), d); (text_key (bs "tree"), e);
    (text_key (bs "ts"), f); (text_key (bs "writes"), g)] =
  [(text_key (bs "ts"), f); (text_key (bs "base"), b); (text_key (bs "tree"), e);
   (text_key (bs "agent"), a); (text_key (bs "reads"), d); (text_key (bs "writes"), g);
   (text_key (bs "parents"), c)].
Proof. by vm_compute. Qed.

Lemma validate_limits c :
  validate c = Ok tt ->
  len (t_parents c) <= MAX_PARENTS /\ len (t_reads c) <= MAX_ITEMS /\
  len (t_writes c) <= MAX_ITEMS.
Proof.
  unfold validate. intros [u [Hu _]]%bind_ok. apply reject_if_ok in Hu.
  rewrite !orb_false_iff, !Z.ltb_ge in Hu. tauto.
Qed.

Lemma encode_ok c b :
  encode c = Ok b <-> validate c = Ok tt /\
    len (encode_map_sorted (contribution_pairs c)) <= MAX_SERIALIZED_HEADER_BYTES /\
    encode_file TContribution (encode_map_sorted (contribution_pairs c)) [] = Ok b.
Proof.
  unfold encode. rewrite bind_ok. split.
  - intros ([] & Hv & H). apply bind_ok in H as ([] & Hl%reject_if_ok%Z.ltb_ge & H). done.
  - intros (Hv & Hl & H). exists tt. split; [done|]. apply bind_ok. exists tt.
    by rewrite reject_if_ok, Z.ltb_ge.
Qed.

Lemma map_header_contribution c :
  wf_contribution c -> validate c = Ok tt ->
  len (encode_map_sorted (contribution_pairs c)) <= usize_max ->
  exists r, map_of contribution_field (mkVars None None None None None None None)
      (new (encode_map_sorted (contribution_pairs c))) =
    Ok (mkVars (Some (t_base c)) (Some (t_tree c)) (Some (t_parents c)) (Some (t_reads c))
         (Some (t_writes c)) (Some (t_agent c)) (Some (t_ts c)), r) /\ at_end r = true.
Proof.
  intros (Hr & Hw & Ha & Ht) (Hp1 & Hp2 & Hp3)%validate_limits Hl.
  destruct c as [base tree parents reads writes agent ts]. unfold str_ok in Ha.
  cbn [t_base t_tree t_parents t_reads t_writes t_agent t_ts] in *.
  apply map_header_parse; [keys_nodup| |done].
  unfold contribution_pairs. rewrite contribution_sort.
  cbn [t_base t_tree t_parents t_reads t_writes t_agent t_ts].
  read_fields contribution_field.
Qed.

Lemma encode_file_len ty h p b : encode_file ty h p = Ok b -> len b = 5 + len h + len p.
Proof.
  intros [_ ->]%encode_file_ok. rewrite !len_app, len_cons, len_be_bytes. lia.
Qed.

Lemma contribution_decode_encode c b : wf_contribution c -> encode c = Ok b -> decode b = Ok c.
Proof.
  intros Hw He. pose proof He as (Hv & Hl & Hf)%encode_ok.
  pose proof (encode_file_len _ _ _ _ Hf) as Hlen. rewrite len_nil in Hlen.
  destruct (map_header_contribution c Hw Hv) as (r & E1 & E2).
  { unfold MAX_SERIALIZED_HEADER_BYTES, usize_max, u64_max in *. lia. }
  apply parse_encode_file in Hf. unfold decode.
  rewrite (proj2 (Z.ltb_ge _ _)).
  2: { unfold saturating, MAX_SERIALIZED_HEADER_BYTES, usize_max, u64_max in *. lia. }
  simpl. rewrite Hf. simpl. rewrite (proj2 (Z.ltb_ge _ _)) by done. simpl.
  rewrite E1. simpl. rewrite E2. simpl.
  replace (mkContribution _ _ _ _ _ _ _) with c by by destruct c.
  rewrite Hv. simpl. rewrite He. simpl.
  by rewrite (proj2 (bytes_eqb_true _ _)).
Qed.

Lemma contribution_canonical b c : decode b = Ok c -> encode c = Ok b.
Proof.
  intros H. unfold decode in H. inv_ok.
  match goal with H : negb (bytes_eqb _ _) = false |- _ =>
    apply negb_false_iff, bytes_eqb_true in H as -> end. done.
Qed.

Lemma sorted_unique_loop_ok prev l :
  sorted_unique_loop prev l = Ok tt <->
  Forall (fun p => validate_path p = Ok tt) l /\ StronglySorted (key_lt id) l /\
  (forall p, prev = Some p -> Forall (fun x => bytes_lt p x = true) l).
Proof.
  revert prev; induction l as [|x l IH]; intros prev; simpl.
  { split; [|done]. intros _. split_and!; by constructor. }
  rewrite Forall_cons. split.
  - intros H. inv_ok. destruct a. apply IH in H as (H1 & H2 & H3).
    specialize (H3 x eq_refl). split_and!; [done|done|by constructor|].
    intros p ->. destruct a0. apply reject_if_ok, bytes_le_false in Ha0.
    constructor; [done|]. eapply Forall_impl; [done|]. intros y Hy. by eapply bytes_lt_trans.
  - intros ([H1 H2] & H3 & H4). rewrite H1. simpl.
    apply StronglySorted_inv in H3 as [H3 H5].
    replace (match prev with Some _ => _ | None => Ok tt end) with (@Ok Error _ tt).
    + simpl. apply IH. split_and!; [done|done|]. by intros p [= <-].
    + destruct prev as [p|]; [|done]. specialize (H4 p eq_refl).
      apply Forall_cons in H4 as [H4 _]. apply bytes_le_false in H4. by rewrite H4.
Qed.

(** ** Lemmas: the size estimate *)

Definition total {A} (f : A -> Z) (l : list A) : Z := foldr (fun x n => f x + n) 0 l.

Lemma total_nonneg {A} (f : A -> Z) l : (forall x, 0 <= f x) -> 0 <= total f l.
Proof. intros Hf. induction l as [|x l IH]; simpl; [done|]. specialize (Hf x). lia. Qed.

Lemma estimate_mono {A} (f : A -> Z) est l est' :
  (forall x, 0 <= f x) ->
  try_fold (fun est x => ok_or (checked_add est (saturating (f x))) size_overflow) est l
    = Ok est' ->
  est <= est'.
Proof.
  intros Hf. revert est; induction l as [|x l IH]; intros est; simpl.
  { intros [= ->]. lia. }
  intros H. inv_ok. specialize (Hf x). apply IH in H.
  unfold checked_add, saturating in *. case_match; simplify_eq.
  unfold usize_max, u64_max in *. lia.
Qed.

Lemma estimate_fold {A} (f : A -> Z) est l est' :
  (forall x, 0 <= f x) -> 0 <= est -> est' < usize_max ->
  try_fold (fun est x => ok_or (checked_add est (saturating (f x))) size_overflow) est l
    = Ok est' ->
  est' = est + total f l.
Proof.
  intros Hf H0 He. revert est H0; induction l as [|x l IH]; intros est H0; simpl.
  { intros [= ->]. lia. }
  intros H. inv_ok. pose proof (Hf x) as Hx.
  apply IH in H; unfold checked_add, saturating in *; case_match; simplify_eq; [|unfold usize_max, u64_max in *; lia].
  pose proof (total_nonneg f l Hf). lia.
Qed.

Lemma validate_estimate c :
  validate c = Ok tt ->
  1 <= len (t_agent c) <= MAX_AGENT_BYTES /\
  Forall (fun p => validate_path p = Ok tt) (rd_path <$> t_reads c) /\
  Forall (fun p => validate_path p = Ok tt) (t_writes c) /\
  1024 + len (t_agent c) + len (t_parents c) * 40 +
    total (fun r => len (rd_path r) + 64) (t_reads c) + total (fun p => len p + 8) (t_writes c)
    <= MAX_SERIALIZED_HEADER_BYTES.
Proof.
  unfold validate. intros H. inv_ok.
  repeat match goal with H : _ || _ = false |- _ => apply orb_false_elim in H as [? ?] end.
  repeat match goal with
  | H : (_ <? _) = false |- _ => apply Z.ltb_ge in H
  | H : (_ =? _) = false |- _ => apply Z.eqb_neq in H
  end.
  match goal with H : (checked_add _ _ ≫= _) = Some _ |- _ =>
    apply bind_Some in H as (n & Hn & Hest) end.
  unfold checked_add in Hn, Hest. repeat case_match; simplify_eq.
  pose proof (len_nonneg (t_agent c)). pose proof (len_nonneg (t_parents c)).
  assert (MAX_SERIALIZED_HEADER_BYTES < usize_max) by done.
  match goal with H : try_fold _ ?e (t_reads c) = Ok _ |- _ =>
    pose proof (estimate_mono (fun r => len (rd_path r) + 64) _ _ _
      ltac:(intros x; pose proof (len_nonneg (rd_path x)); lia) H);
    assert (0 <= e) by (unfold saturating, usize_max, u64_max in *; lia) end.
  match goal with H : try_fold _ _ (t_writes c) = Ok _ |- _ =>
    apply (estimate_fold (fun p => len p + 8)) in H;
      [|intros x; pose proof (len_nonneg x); lia|lia|lia] end.
  pose proof (total_nonneg (fun p => len p + 8) (t_writes c)
    ltac:(intros x; pose proof (len_nonneg x); lia)).
  match goal with H : try_fold _ _ (t_reads c) = Ok _ |- _ =>
    apply (estimate_fold (fun r => len (rd_path r) + 64)) in H;
      [|intros x; pose proof (len_nonneg (rd_path x)); lia|lia|lia] end.
  pose proof (total_nonneg (fun r => len (rd_path r) + 64) (t_reads c)
    ltac:(intros x; pose proof (len_nonneg (rd_path x)); lia)).
  destruct_and?. split; [lia|].
  repeat match goal with H : validate_sorted_unique _ = Ok ?u |- _ =>
    destruct u; apply sorted_unique_loop_ok in H as (? & _ & _) end.
  split; [done|]. split; [done|]. unfold saturating in *. lia.
Qed.

Lemma validate_path_len p : validate_path p = Ok tt -> 1 <= len p <= 4096.
Proof.
  intros H%reject_if_ok. rewrite !orb_false_iff in H. destruct H as [[H1 H2] _].
  apply Z.eqb_neq in H1. apply Z.ltb_ge in H2. unfold MAX_PATH_BYTES in *.
  pose proof (len_nonneg p). lia.
Qed.

Lemma len_id_bytes i : len (id_bytes i) <= 35.
Proof.
  unfold id_bytes, encode_bytes. rewrite len_app, arr_length_len.
  pose proof (push_uint_len_u16 2 32 ltac:(lia)). change (Z.of_nat 32) with 32. lia.
Qed.
Lemma text_key_len k : len k < 24 -> len (text_key k) = 1 + len k.
Proof.
  intros H. unfold text_key, encode_text. rewrite len_app, push_uint_len_24; [done|done|].
  apply len_nonneg.
Qed.
(** Replace the length of every constant key in [H] by its value. *)
Ltac key_lens H :=
  repeat match type of H with
  | context [text_key (bs ?k)] =>
      rewrite (text_key_len (bs k)) in H by (vm_compute; reflexivity);
      let n := eval vm_compute in (len (bs k)) in change (len (bs k)) with n in H
  end.
Lemma len_text_u16 s : len s <= 65535 -> len (encode_text s) <= 3 + len s.
Proof.
  intros H. unfold encode_text. rewrite len_app. pose proof (push_uint_len_u16 3 (len s) H). lia.
Qed.

Lemma len_concat_total {A} (enc : A -> bytes) (f : A -> Z) l :
  Forall (fun x => len (enc x) <= f x) l -> len (concat (enc <$> l)) <= total f l.
Proof.
  induction 1 as [|x l Hx H IH]; [done|]. rewrite fmap_cons. cbn [concat].
  rewrite len_app. simpl. lia.
Qed.

Lemma read_pairs_len r :
  validate_path (rd_path r) = Ok tt ->
  len (encode_map_sorted (read_pairs r)) <= len (rd_path r) + 64.
Proof.
  intros H%validate_path_len. pose proof (len_map_small (read_pairs r) ltac:(done)) as Hm.
  unfold read_pairs in Hm at 2. rewrite !concat_pairs_cons, !len_app in Hm.
  key_lens Hm.
  pose proof (len_id_bytes (rd_id r)). pose proof (len_text_u16 (rd_path r) ltac:(lia)).
  change (len (concat (pair_bytes <$> []))) with 0 in Hm. lia.
Qed.

(** The estimate is an upper bound of the header that is written. *)
Lemma estimate_bounds_header c :
  validate c = Ok tt ->
  len (encode_map_sorted (contribution_pairs c)) <= MAX_SERIALIZED_HEADER_BYTES.
Proof.
  intros Hv. apply validate_estimate in Hv as (Ha & Hr & Hw & Hest).
  pose proof (len_map_small (contribution_pairs c) ltac:(done)) as Hm.
  unfold contribution_pairs in Hm at 2. rewrite !concat_pairs_cons, !len_app in Hm.
  key_lens Hm.
  unfold reads_bytes, writes_bytes, encode_ids, encode_array_header, encode_u64 in Hm.
  rewrite !len_app in Hm.
  pose proof (push_uint_len 4 (len (t_reads c))). pose proof (push_uint_len 4 (len (t_writes c))).
  pose proof (push_uint_len 4 (len (t_parents c))). pose proof (push_uint_len 0 (t_ts c)).
  pose proof (len_id_bytes (t_base c)). pose proof (len_id_bytes (t_tree c)).
  pose proof (encode_text_len (t_agent c)).
  opose proof (len_concat_total (fun r => encode_map_sorted (read_pairs r))
    (fun r => len (rd_path r) + 64) (t_reads c) _) as HT1.
  { rewrite Forall_fmap in Hr. eapply Forall_impl; [exact Hr|]. apply read_pairs_len. }
  opose proof (len_concat_total encode_text (fun p => len p + 8) (t_writes c) _) as HT2.
  { eapply Forall_impl; [exact Hw|]. intros p Hp%validate_path_len.
    pose proof (len_text_u16 p ltac:(lia)). lia. }
  opose proof (len_concat_total id_bytes (fun _ => 40) (t_parents c) _) as HT3.
  { apply Forall_true. intros i. pose proof (len_id_bytes i). lia. }
  assert (total (fun _ : ObjectId => 40) (t_parents c) = len (t_parents c) * 40) as HT4.
  { clear. induction (t_parents c) as [|x l IH]; simpl; [done|]. rewrite len_cons. lia. }
  change (len (concat (pair_bytes <$> []))) with 0 in Hm. lia.
Qed.

Lemma no_panic_try_fold {A S} (f : S -> A -> Result S) s l :
  (forall s x, no_panic (f s x)) -> no_panic (try_fold f s l).
Proof.
  intros Hf. revert s. induction l as [|x l IH]; intros s; simpl; [done|].
  apply no_panic_bind; auto.
Qed.

Lemma no_panic_sorted_unique prev l : no_panic (sorted_unique_loop prev l).
Proof.
  revert prev. induction l as [|x l IH]; intros prev; simpl; [done|].
  unfold validate_path. no_panic_tac.
Qed.

Lemma no_panic_validate c : no_panic (validate c).
Proof.
  unfold validate, validate_sorted_unique. no_panic_tac;
    try (apply no_panic_try_fold; intros; auto with forge); apply no_panic_sorted_unique.
Qed.
#[export] Hint Resolve no_panic_validate : forge.

Lemma encode_of_validate c :
  match validate c with
  | Ok _ => exists b, encode c = Ok b
  | Err e => encode c = Err e
  | Panic => False
  end.
Proof.
  destruct (validate c) as [[]|e|] eqn:Hv.
  - pose proof (estimate_bounds_header c Hv) as Hl.
    eexists. apply encode_ok. split; [done|]. split; [done|].
    apply encode_file_ok. split; [|reflexivity].
    unfold MAX_SERIALIZED_HEADER_BYTES, u32_max in *. lia.
  - unfold encode. by rewrite Hv.
  - by apply (no_panic_validate c).
Qed.

Lemma safe_read_one : safe read_one.
Proof. unfold read_one. safe. apply safe_map_of. intros k v. unfold read_field. safe. Qed.
#[export] Hint Resolve safe_read_one : safe.

Lemma no_panic_encode c : no_panic (encode c).
Proof.
  pose proof (encode_of_validate c) as H. unfold no_panic.
  destruct (validate c); [by destruct H as [? ->]|by rewrite H|done].
Qed.
#[export] Hint Resolve no_panic_encode : forge.

Lemma contribution_decode_no_panic b : no_panic (decode b).
Proof.
  unfold decode. no_panic_tac. apply no_panic_map_of. intros.
  unfold contribution_field, read_parent_ids, read_reads, read_writes. safe.
Qed.

(** ** Properties *)

(** Receipts round-trip and only canonical bytes are accepted: bytes
    decode to a contribution exactly when the contribution encodes to them. *)
Theorem contribution_codec (b : bytes) (c : Contribution) :
  wf_contribution c -> decode b = Ok c <-> encode c = Ok b.
Proof. intros Hw. split; [apply contribution_canonical|by apply contribution_decode_encode]. Qed.

Definition sample_contribution : Contribution :=
  mkContribution ZERO ZERO [] [mkRead (bs "a/b") ZERO] [bs "a/c"; bs "b"] (bs "agent") 7.

Lemma contribution_codec_witness :
  exists b, encode sample_contribution = Ok b /\ decode b = Ok sample_contribution.
Proof.
  destruct (encode sample_contribution) as [b|e|] eqn:E;
    [|vm_compute in E; discriminate E|vm_compute in E; discriminate E].
  exists b. split; [reflexivity|].
  apply (contribution_codec b sample_contribution); [|exact E].
  split; [repeat (constructor; [split; [reflexivity|vm_compute; discriminate]|]); constructor|].
  split; [repeat (constructor; [split; [reflexivity|vm_compute; discriminate]|]); constructor|].
  split; [split; [reflexivity|vm_compute; discriminate]|].
  vm_compute. split; discriminate.
Defined.

(** Validation decides encoding: the preflight size estimate really is an
    upper bound of the header that is written, so a receipt that passes
    [validate] is always encoded (the second size check and the 32-bit [expect]
    never fire), one that fails is refused with the same error, and neither
    encoding nor decoding any bytes panics. *)
Theorem contribution_preflight_is_sound (c : Contribution) (b : bytes) :
  match validate c with
  | Ok _ => exists b, encode c = Ok b
  | Err e => encode c = Err e
  | Panic => False
  end /\ no_panic (decode b).
Proof. split; [apply encode_of_validate|apply contribution_decode_no_panic]. Qed.
