(* ===== verification/Provenance.v ===== *)
(** * [crates/forge-core/src/provenance.rs]: the provenance manifest

    The signed index from object ids to attribution labels: its size
    computation, the two encodings (unversioned and versioned) and the decoder
    that recognises both.  [BTreeMap<ObjectId, String>] is a [gmap], iterated in
    key order by [btree_list]. *)

From S2P Require Import Prelude RustStd Types Cbor Object.

Definition CURRENT_VERSION : Z := 1.
Definition MAX_ENTRIES : Z := 1000000.
Definition MAX_LABEL_BYTES : Z := 1024.
Definition MAX_SERIALIZED_BYTES : Z := 64 * 1024 * 1024.

Inductive ProvenanceEncoding := Legacy | Version1.
#[export] Instance ProvenanceEncoding_eq_dec : EqDecision ProvenanceEncoding.
Proof. solve_decision. Defined.

Abbreviation Entries := (gmap ObjectId str).

(** [entries.iter()]: in key order. *)
Definition btree_list (m : Entries) : list (ObjectId * str) :=
  sort_by_key (fun kv => arr_bytes kv.1) (map_to_list m).

Definition map_len (m : Entries) : Z := Z.of_nat (size m).

Definition checked_add (a b : Z) : option Z := if usize_max <? a + b then None else Some (a + b).
Definition size_overflow : Error := Invalid (bs "provenance size overflow").

Definition cbor_header_len (value : Z) : Z :=
  if value <=? 23 then 1 else if value <=? 255 then 2 else if value <=? 65535 then 3
  else if value <=? 4294967295 then 5 else 9.

Definition encoded_text_len (n : Z) : Result Z :=
  ok_or (checked_add (cbor_header_len n) n) size_overflow.

Definition entries_encoded_len (entries : Entries) : Result Z :=
  _ ← reject_if (MAX_ENTRIES <? map_len entries) (Invalid (bs "provenance entry limit"));
  encoded_key_len ← encoded_text_len 64;
  try_fold (fun serialized label =>
      _ ← reject_if (MAX_LABEL_BYTES <? len label)
            (Invalid (bs "provenance attribution label limit"));
      encoded_label_len ← encoded_text_len (len label);
      ok_or (n ← checked_add serialized encoded_key_len; checked_add n encoded_label_len)
        size_overflow)
    (cbor_header_len (map_len entries)) (snd <$> btree_list entries).

Definition manifest_encoded_len (entries : Entries) (encoding : ProvenanceEncoding) : Result Z :=
  entries_len ← entries_encoded_len entries;
  match encoding with
  | Legacy => Ok entries_len
  | Version1 =>
      entries_key_len ← encoded_text_len (len (bs "entries"));
      version_key_len ← encoded_text_len (len (bs "version"));
      ok_or (n ← checked_add (cbor_header_len 2) entries_key_len;
             n ← checked_add n entries_len;
             n ← checked_add n version_key_len;
             checked_add n (cbor_header_len CURRENT_VERSION)) size_overflow
  end.

Definition validate_manifest (entries : Entries) (encoding : ProvenanceEncoding)
    (max_bytes : Z) : Result unit :=
  n ← manifest_encoded_len entries encoding;
  reject_if (max_bytes <? n) (Invalid (bs "provenance serialized size limit")).

Definition entry_pair (e : ObjectId * str) : bytes * bytes :=
  (encode_text (hex e.1), encode_text e.2).

Definition encode_entries (entries : Entries) : bytes :=
  encode_map_sorted (entry_pair <$> btree_list entries).

(** The body of the loop after the key: checks on the id, the label, the
    insertion. *)
Definition entries_field (encoded_id : str) (entries : Entries) : P Entries :=
  _ ← guard (negb (len encoded_id =? 64)) (Corrupt (bs "provenance object id length"));
  id ← lift (map_err (fun _ => Corrupt (bs "provenance object id: {error}"))
               (from_hex encoded_id));
  _ ← guard (negb (bytes_eqb (hex id) encoded_id))
        (Corrupt (bs "provenance object ids must be lowercase hex"));
  agent ← text_bounded MAX_LABEL_BYTES (bs "provenance attribution label");
  _ ← guard (bool_decide (is_Some (entries !! id)))
        (Corrupt (bs "duplicate provenance object id"));
  mret (<[id := agent]> entries).

Definition decode_entries : P Entries :=
  count ← read_map;
  _ ← guard (MAX_ENTRIES <? count) (Corrupt (bs "provenance entry limit"));
  map_loop count 64 (bs "provenance object id") entries_field ∅.

Definition looks_legacy (b : bytes) : Result bool :=
  '(count, reader) ← read_map (new b);
  if count =? 0 then Ok true
  else
    '(first, _, _) ← text_map_key_bounded None 64 (bs "provenance map key") reader;
    if negb (len first =? 64) then Ok false
    else match from_hex first with
         | Ok id => Ok (bytes_eqb (hex id) first)
         | Err _ => Ok false
         | Panic => Panic
         end.

Record ProvenanceManifest := mkManifest { m_entries : Entries; m_encoding : ProvenanceEncoding }.

Definition Manifest_new (entries : Entries) : Result ProvenanceManifest :=
  _ ← validate_manifest entries Version1 MAX_SERIALIZED_BYTES;
  Ok (mkManifest entries Version1).

Definition is_legacy (m : ProvenanceManifest) : bool := bool_decide (m_encoding m = Legacy).

Definition version_pairs (entries : Entries) : list (bytes * bytes) :=
  [(text_key (bs "entries"), encode_entries entries);
   (text_key (bs "version"), encode_u64 CURRENT_VERSION)].

Definition encode (m : ProvenanceManifest) : bytes :=
  match m_encoding m with
  | Legacy => encode_entries (m_entries m)
  | Version1 => encode_map_sorted (version_pairs (m_entries m))
  end.

Record EnvelopeVars := mkEnvelope { env_entries : option Entries; env_version : option Z }.

Definition envelope_field (k : str) (v : EnvelopeVars) : P EnvelopeVars :=
  let 'mkEnvelope entries version := v in
  if bytes_eqb k (bs "entries") then x ← decode_entries; mret (mkEnvelope (Some x) version)
  else if bytes_eqb k (bs "version") then x ← read_u64; mret (mkEnvelope entries (Some x))
  else fail (Corrupt (bs "unknown provenance envelope key {key}")).

Definition decode_with_limit (b : bytes) (max_bytes : Z) : Result ProvenanceManifest :=
  _ ← reject_if (max_bytes <? len b) (Corrupt (bs "provenance serialized size limit"));
  legacy ← looks_legacy b;
  manifest ← (if legacy : bool then
      '(entries, reader) ← decode_entries (new b);
      _ ← reject_if (negb (at_end reader)) (Corrupt (bs "provenance trailing bytes"));
      Ok (mkManifest entries Legacy)
    else
      '(v, reader) ← map_of_bounded 32 (bs "provenance envelope key") envelope_field
                       (mkEnvelope None None) (new b);
      _ ← reject_if (negb (at_end reader)) (Corrupt (bs "provenance trailing bytes"));
      version ← ok_or (env_version v) (Corrupt (bs "provenance version"));
      _ ← reject_if (negb (version =? CURRENT_VERSION))
            (Corrupt (bs "unsupported provenance version {version}"));
      entries ← ok_or (env_entries v) (Corrupt (bs "provenance entries"));
      Ok (mkManifest entries Version1));
  _ ← map_err (fun _ => Corrupt (bs "{error}"))
        (validate_manifest (m_entries manifest) (m_encoding manifest) max_bytes);
  _ ← reject_if (negb (bytes_eqb (encode manifest) b))
        (Corrupt (bs "non-canonical provenance encoding"));
  Ok manifest.

Definition decode (b : bytes) : Result ProvenanceManifest := decode_with_limit b MAX_SERIALIZED_BYTES.

(** ** Lemmas: the size computation is exact *)

Lemma push_uint_header_len m n : 0 <= n -> len (push_uint m n) = cbor_header_len n.
Proof. apply push_uint_len_exact. Qed.

Lemma encode_text_exact s : len (encode_text s) = cbor_header_len (len s) + len s.
Proof.
  unfold encode_text. rewrite len_app, push_uint_header_len; [done|apply len_nonneg].
Qed.

Lemma btree_list_perm m : btree_list m ≡ₚ map_to_list m.
Proof. apply sort_by_key_perm. Qed.

Lemma btree_list_len m : len (btree_list m) = map_len m.
Proof. unfold len, map_len. by rewrite <- length_map_to_list, <- (Permutation_length (btree_list_perm m)). Qed.

Lemma encoded_text_len_ok n k : encoded_text_len n = Ok k -> k = cbor_header_len n + n.
Proof.
  unfold encoded_text_len, checked_add. intros H%ok_or_ok. case_match; naive_solver.
Qed.

Definition label_cost (label : str) : Z := 66 + cbor_header_len (len label) + len label.

Lemma labels_fold_ok s l n :
  try_fold (fun serialized label =>
      _ ← reject_if (MAX_LABEL_BYTES <? len label)
            (Invalid (bs "provenance attribution label limit"));
      encoded_label_len ← encoded_text_len (len label);
      ok_or (n ← checked_add serialized 66; checked_add n encoded_label_len)
        size_overflow) s l = Ok n ->
  n = s + foldr (fun x t => label_cost x + t) 0 l /\
  Forall (fun label => len label <= MAX_LABEL_BYTES) l.
Proof.
  revert s; induction l as [|x l IH]; intros s; cbn [try_fold foldr].
  { intros [= ->]. split; [lia|done]. }
  intros (s' & Hs & H)%bind_ok. apply IH in H as [-> Hl].
  apply bind_ok in Hs as (u & Hx%reject_if_ok%Z.ltb_ge & Hs).
  apply bind_ok in Hs as (k & ->%encoded_text_len_ok & Hs).
  apply ok_or_ok, bind_Some in Hs as (m & Hm & Hk). unfold checked_add in *.
  repeat case_match; simplify_eq. split; [unfold label_cost; lia|by constructor].
Qed.

Lemma hex_len id : len (hex id) = 64.
Proof. unfold hex. by rewrite len_hex_encode, arr_length_len. Qed.

Lemma entry_pairs_total l :
  len (concat (pair_bytes <$> (entry_pair <$> l))) =
  foldr (fun x t => label_cost x + t) 0 (snd <$> l).
Proof.
  induction l as [|[id label] l IH]; [done|].
  rewrite !fmap_cons. cbn [concat foldr]. rewrite len_app, IH.
  unfold pair_bytes, entry_pair. cbn [fst snd].
  rewrite len_app, !encode_text_exact, hex_len. unfold label_cost.
  change (cbor_header_len 64) with 2. lia.
Qed.

Lemma map_len_nonneg m : 0 <= map_len m.
Proof. unfold map_len. lia. Qed.

Lemma len_encode_map fs :
  len (encode_map_sorted fs) = cbor_header_len (len fs) + len (concat (pair_bytes <$> fs)).
Proof. rewrite encode_map_sorted_len_exact. by rewrite push_uint_header_len by apply len_nonneg. Qed.

Lemma entries_encoded_len_ok m n :
  entries_encoded_len m = Ok n ->
  n = len (encode_entries m) /\ map_len m <= MAX_ENTRIES /\
  Forall (fun e => len e.2 <= MAX_LABEL_BYTES) (btree_list m).
Proof.
  unfold entries_encoded_len. intros (u & Hm%reject_if_ok%Z.ltb_ge & H)%bind_ok.
  apply bind_ok in H as (k & Hk & H).
  assert (k = 66) as -> by by vm_compute in Hk; injection Hk.
  apply labels_fold_ok in H as [-> Hl]. split; [|split; [done|rewrite Forall_fmap in Hl; exact Hl]].
  unfold encode_entries. rewrite len_encode_map, entry_pairs_total.
  f_equal. f_equal. unfold len. by rewrite length_fmap, <- btree_list_len.
Qed.

Lemma manifest_encoded_len_ok m enc n :
  manifest_encoded_len m enc = Ok n -> n = len (encode (mkManifest m enc)).
Proof.
  unfold manifest_encoded_len. intros (k & Hk & H)%bind_ok.
  apply entries_encoded_len_ok in Hk as [-> _]. destruct enc; [by injection H as <-|].
  apply bind_ok in H as (a & ->%encoded_text_len_ok & H).
  apply bind_ok in H as (c & ->%encoded_text_len_ok & H).
  apply ok_or_ok in H. unfold checked_add in H.
  repeat (apply bind_Some in H as (? & ? & H)). repeat case_match; simplify_eq.
  unfold encode, m_encoding, m_entries. rewrite len_encode_map.
  unfold version_pairs. rewrite !concat_pairs_cons, !len_app.
  unfold text_key. rewrite !encode_text_exact. unfold encode_u64.
  rewrite (push_uint_header_len 0 CURRENT_VERSION) by done.
  change (len [_; _]) with 2. change (len (concat (pair_bytes <$> []))) with 0. lia.
Qed.

(** ** Lemmas: reading a manifest back *)

Definition wf_entries (m : Entries) : Prop := map_Forall (fun _ label => utf8_valid label = true) m.

Lemma hex_utf8 id : utf8_valid (hex id) = true.
Proof.
  apply utf8_valid_ascii. eapply Forall_impl; [apply hex_encode_ascii|]. simpl. lia.
Qed.

Definition insert_all (l : list (ObjectId * str)) (m : Entries) : Entries :=
  fold_left (fun m e => <[e.1 := e.2]> m) l m.

Lemma entries_reads m l :
  (forall id, id ∈ l.*1 -> m !! id = None) -> NoDup l.*1 ->
  Forall (fun e => utf8_valid e.2 = true /\ len e.2 <= MAX_LABEL_BYTES) l ->
  reads_fields_in 64 entries_field m (entry_pair <$> l)
    (insert_all l m).
Proof.
  revert m. induction l as [|[id label] l IH]; intros m Hm Hnd Hl; [done|].
  rewrite fmap_cons. unfold insert_all. cbn [fold_left fst snd].
  apply Forall_cons in Hl as [[Hu Hlen] Hl]. rewrite fmap_cons in Hnd.
  apply NoDup_cons in Hnd as [Hni Hnd]. cbn [fst snd] in *.
  exists (hex id), (<[id := label]> m). split; [done|]. split; [apply hex_utf8|].
  split; [by rewrite hex_len|]. split; [apply encode_text_pos|]. split.
  - intros pre suf Hfit. unfold entries_field. rewrite hex_len. simpl guard.
    erewrite P_bind_step by done. rewrite from_hex_hex_id. simpl map_err.
    erewrite P_bind_step by done. rewrite (proj2 (bytes_eqb_true _ _)) by done.
    erewrite P_bind_step by done. erewrite P_bind_step.
    2: { apply codec_text_bounded; [|done]. unfold MAX_LABEL_BYTES, usize_max, u64_max in *.
         cbn [snd]. split_and!; [done|done|lia]. }
    rewrite (Hm id) by by rewrite fmap_cons; left. done.
  - apply IH; [|done|done]. intros id' Hid'. rewrite lookup_insert_ne; [|by intros ->].
    apply Hm. rewrite fmap_cons. by right.
Qed.

Lemma fold_insert_list_to_map (l : list (ObjectId * str)) (m : Entries) :
  NoDup l.*1 -> (forall id, id ∈ l.*1 -> m !! id = None) ->
  insert_all l m = list_to_map l ∪ m.
Proof.
  unfold insert_all. revert m.
  induction l as [|[id label] l IH]; intros m Hnd Hm; simpl.
  { by rewrite (left_id_L ∅ (∪)). }
  rewrite fmap_cons in Hnd. apply NoDup_cons in Hnd as [Hni Hnd]. simpl in *.
  rewrite IH; [|done|].
  - rewrite <- insert_union_r, <- insert_union_l; [done|]. by apply not_elem_of_list_to_map_1.
  - intros id' Hid'. rewrite lookup_insert_ne; [|by intros ->]. apply Hm. by right.
Qed.

Lemma hex_inj id id' : hex id = hex id' -> id = id'.
Proof.
  intros E. pose proof (from_hex_hex_id id) as H. rewrite E, from_hex_hex_id in H. congruence.
Qed.

Lemma hex_key_inj id id' : encode_text (hex id) = encode_text (hex id') -> id = id'.
Proof.
  unfold encode_text. rewrite !hex_len. intros E%app_inv_head. by apply hex_inj.
Qed.

Lemma entry_keys_nodup m : NoDup (entry_pair <$> btree_list m).*1.
Proof.
  assert (NoDup (btree_list m).*1) as H.
  { rewrite btree_list_perm. apply NoDup_fst_map_to_list. }
  induction (btree_list m) as [|[id label] l IH]; [constructor|].
  rewrite !fmap_cons in *. cbn [fst] in *. apply NoDup_cons in H as [Hni Hnd].
  constructor; [|by apply IH].
  intros (p & Ep & (e & -> & He)%list_elem_of_fmap)%list_elem_of_fmap.
  apply hex_key_inj in Ep. simpl in Ep. subst id. apply Hni. by apply list_elem_of_fmap_2.
Qed.

Definition ok_entries (m : Entries) : Prop :=
  wf_entries m /\ map_len m <= MAX_ENTRIES /\
  Forall (fun e => len e.2 <= MAX_LABEL_BYTES) (btree_list m).

Lemma label_pairs_len m : len (entry_pair <$> btree_list m) = map_len m.
Proof. unfold len. by rewrite length_fmap, <- btree_list_len. Qed.

Lemma entry_pairs_sorted m : exists l, l ≡ₚ btree_list m /\
  sort_by_key fst (entry_pair <$> btree_list m) = entry_pair <$> l.
Proof.
  destruct (Permutation_map_inv _ _ (sort_by_key_perm fst (entry_pair <$> btree_list m)))
    as (l & El & Pl). by exists l.
Qed.

Lemma entries_reads_sorted m : ok_entries m ->
  reads_fields_in 64 entries_field ∅ (sort_by_key fst (entry_pair <$> btree_list m)) m.
Proof.
  intros (Hw & Hm & Hl). destruct (entry_pairs_sorted m) as (l & Pl & ->).
  assert (l ≡ₚ map_to_list m) as Pm by by rewrite Pl, btree_list_perm.
  assert (NoDup l.*1) as Hnd by (rewrite Pm; apply NoDup_fst_map_to_list).
  replace m with (insert_all l ∅) at 1.
  - apply entries_reads; [by intros; apply lookup_empty|done|].
    rewrite Pl, Forall_forall in *. intros [id label] He. split; [|by apply Hl].
    apply (Hw id label). apply elem_of_map_to_list. by rewrite <- btree_list_perm.
  - rewrite fold_insert_list_to_map by (done || by intros; apply lookup_empty).
    rewrite (right_id_L ∅ (∪)).
    rewrite (list_to_map_proper l (map_to_list m)) by done. apply list_to_map_to_list.
Qed.

#[export] Instance parses_entries : Parses decode_entries encode_entries ok_entries.
Proof.
  intros pre suf m Hm Hfit. unfold encode_entries in *.
  destruct (map_parts_parse 64 (bs "provenance object id") entries_field ∅ m
    (entry_pair <$> btree_list m) pre suf)
    as (r & E1 & E2); [apply entry_keys_nodup|by apply entries_reads_sorted|done|done|].
  destruct Hm as (_ & Hm & _).
  unfold decode_entries. erewrite P_bind_step by exact E1.
  erewrite P_bind_step by (simpl; by rewrite label_pairs_len, (proj2 (Z.ltb_ge _ _))). done.
Qed.

Lemma version_sort (a b : bytes) :
  sort_by_key fst [(text_key (bs "entries"), a); (text_key (bs "version"), b)] =
  [(text_key (bs "entries"), a); (text_key (bs "version"), b)].
Proof. by vm_compute. Qed.

Lemma encode_entries_pos m : 0 < len (encode_entries m).
Proof. apply encode_map_sorted_pos. Qed.
#[export] Hint Resolve encode_entries_pos : pos.

Lemma version_reads m : ok_entries m ->
  reads_fields_in 32 envelope_field (mkEnvelope None None)
    [(text_key (bs "entries"), encode_entries m);
     (text_key (bs "version"), encode_u64 CURRENT_VERSION)]
    (mkEnvelope (Some m) (Some CURRENT_VERSION)).
Proof.
  intros Hm. assert (in_u64 CURRENT_VERSION) by done. read_fields envelope_field.
Qed.

Lemma looks_legacy_encode man :
  ok_entries (m_entries man) -> len (encode man) <= usize_max ->
  looks_legacy (encode man) = Ok (is_legacy man).
Proof.
  destruct man as [m enc]. unfold encode, is_legacy. cbn [m_entries m_encoding].
  intros Hm Hl. unfold looks_legacy. destruct enc.
  - pose proof (entries_reads_sorted m Hm) as Hr. unfold encode_entries in *.
    destruct (entry_pairs_sorted m) as (l & Pl & El). rewrite El in Hr.
    destruct l as [|[id label] l].
    + apply Permutation_nil in Pl. rewrite Pl in *. by vm_compute.
    + change (entry_pair <$> (id, label) :: l)
        with ((text_key (hex id), encode_text label) :: (entry_pair <$> l)) in *.
      destruct (map_first_key 64 entries_field ∅ m (entry_pair <$> btree_list m) (hex id)
        (encode_text label) (entry_pair <$> l) 64 (bs "provenance map key"))
        as (r & r2 & E1 & E2); [done|done|apply hex_utf8|by rewrite hex_len|done|done|].
      rewrite E1. simpl. rewrite label_pairs_len, <- btree_list_len.
      assert (len (btree_list m) =? 0 = false) as ->.
      { apply Z.eqb_neq. unfold len. rewrite <- (Permutation_length Pl). simpl. lia. }
      rewrite E2. simpl. rewrite hex_len, from_hex_hex_id. simpl.
      by rewrite (proj2 (bytes_eqb_true _ _)).
  - destruct (map_first_key 32 envelope_field (mkEnvelope None None)
      (mkEnvelope (Some m) (Some CURRENT_VERSION)) (version_pairs m) (bs "entries")
      (encode_entries m) [(text_key (bs "version"), encode_u64 CURRENT_VERSION)] 64
      (bs "provenance map key")) as (r & r2 & E1 & E2);
      [apply version_sort|by apply version_reads|done|done|done|done|].
    rewrite E1. simpl. rewrite E2. done.
Qed.

Lemma manifest_decode_encode man max :
  wf_entries (m_entries man) -> max <= usize_max ->
  validate_manifest (m_entries man) (m_encoding man) max = Ok tt ->
  decode_with_limit (encode man) max = Ok man.
Proof.
  intros Hw Hmax Hv. pose proof Hv as (n & Hn & Hle%reject_if_ok%Z.ltb_ge)%bind_ok.
  pose proof Hn as (k & (_ & Hm & Hlab)%entries_encoded_len_ok & _)%bind_ok.
  assert (ok_entries (m_entries man)) as Hok by done.
  apply manifest_encoded_len_ok in Hn as ->. destruct man as [m enc].
  cbn [m_entries m_encoding] in *. unfold decode_with_limit.
  rewrite (proj2 (Z.ltb_ge _ _)) by done. simpl reject_if.
  rewrite bind_of_ok, looks_legacy_encode, bind_of_ok by (done || lia).
  destruct enc; unfold is_legacy, encode in *; cbn [m_entries m_encoding] in *.
  - rewrite bool_decide_true by done. rewrite rd_new.
    pose proof (codec_parse (Parses := parses_entries) [] [] m Hok) as Hp.
    rewrite !app_nil_r in Hp. rewrite Hp by (simpl; lia). rewrite bind_of_ok.
    rewrite (proj2 (at_end_rd _ _)) by done. simpl.
    rewrite Hv. simpl. unfold encode. simpl. by rewrite (proj2 (bytes_eqb_true _ _)).
  - rewrite bool_decide_false by done. rewrite rd_new.
    pose proof (map_of_bounded_parse 32 (bs "provenance envelope key") envelope_field
      (mkEnvelope None None) (mkEnvelope (Some m) (Some CURRENT_VERSION)) (version_pairs m)
      [] []) as Hp.
    rewrite !app_nil_r in Hp. rewrite Hp, bind_of_ok; [|keys_nodup| |done|simpl; lia].
    + rewrite (proj2 (at_end_rd _ _)) by done. simpl.
      rewrite Hv. simpl. unfold encode. simpl. by rewrite (proj2 (bytes_eqb_true _ _)).
    + unfold version_pairs. rewrite version_sort. by apply version_reads.
Qed.

Lemma manifest_canonical b max man : decode_with_limit b max = Ok man -> encode man = b.
Proof.
  unfold decode_with_limit. intros H.
  apply bind_ok in H as (? & _ & H). apply bind_ok in H as (? & _ & H).
  apply bind_ok in H as (m & _ & H). apply bind_ok in H as (? & _ & H).
  apply bind_ok in H as (? & Hc%reject_if_ok & H). injection H as <-.
  by apply negb_false_iff, bytes_eqb_true in Hc.
Qed.

(** ** Lemmas: no panic *)

Lemma safe_no_panic {A} (p : P A) b : safe p -> no_panic (p (new b)).
Proof.
  intros Hp. specialize (Hp (new b)). unfold wf_reader in Hp. simpl in Hp.
  specialize (Hp ltac:(pose proof (len_nonneg b); lia)). unfold no_panic.
  by destruct (p (new b)).
Qed.

Lemma safe_entries_field k m : safe (entries_field k m).
Proof. unfold entries_field. safe. Qed.
#[export] Hint Resolve safe_entries_field : safe.

Lemma safe_decode_entries : safe decode_entries.
Proof. unfold decode_entries. safe. Qed.
#[export] Hint Resolve safe_decode_entries : safe.

Lemma no_panic_looks_legacy b : no_panic (looks_legacy b).
Proof.
  assert (safe (count ← read_map;
    if count =? 0 then mret true
    else
      '(first, _) ← text_map_key_bounded None 64 (bs "provenance map key");
      if negb (len first =? 64) then mret false
      else match from_hex first with
           | Ok id => mret (bytes_eqb (hex id) first)
           | Err _ => mret false
           | Panic => lift Panic
           end)) as Hs.
  { apply safe_bind; [apply safe_read_map|]. intros n. case_match; [apply safe_ret|].
    apply safe_bind; [apply safe_text_map_key_bounded|]. intros [first l].
    case_match; [apply safe_ret|].
    destruct (from_hex first) eqn:E; [apply safe_ret..|by apply no_panic_from_hex in E]. }
  apply (safe_no_panic _ b) in Hs. unfold looks_legacy, no_panic in *.
  unfold mbind at 1, P_bind at 1 in Hs. destruct (read_map (new b)) as [[n r]| |]; [|done..].
  simpl. destruct (n =? 0); [done|]. unfold mbind, P_bind in Hs. simpl.
  destruct (text_map_key_bounded _ _ _ r) as [[[f l] r2]| |]; [|done..]. simpl in *.
  destruct (negb _); [done|]. by destruct (from_hex f).
Qed.

Lemma no_panic_entries_encoded_len m : no_panic (entries_encoded_len m).
Proof.
  unfold entries_encoded_len, encoded_text_len. no_panic_tac.
  generalize (cbor_header_len (map_len m)).
  induction (snd <$> btree_list m) as [|x l IH]; intros s; simpl; [done|]. no_panic_tac.
Qed.

Lemma no_panic_validate_manifest m enc max : no_panic (validate_manifest m enc max).
Proof.
  unfold validate_manifest, manifest_encoded_len, encoded_text_len.
  no_panic_tac; apply no_panic_entries_encoded_len.
Qed.
#[export] Hint Resolve no_panic_looks_legacy no_panic_validate_manifest : forge.

Lemma manifest_decode_no_panic b max : no_panic (decode_with_limit b max).
Proof.
  unfold decode_with_limit. no_panic_tac.
  - apply safe_no_panic. auto with safe.
  - apply safe_no_panic. apply safe_map_of_bounded. intros k v. unfold envelope_field. safe.
Qed.

(** ** Properties *)

(** Every manifest the sealing code can build is read back: if [new]
    accepts a map of Rust strings then its encoding decodes to the same manifest,
    and is exactly as long as the size computation announced, hence within the
    64 MiB limit. *)
Theorem manifest_roundtrip (entries : Entries) (man : ProvenanceManifest) :
  wf_entries entries -> Manifest_new entries = Ok man ->
  decode (encode man) = Ok man /\ m_entries man = entries /\
  manifest_encoded_len entries Version1 = Ok (len (encode man)) /\
  len (encode man) <= MAX_SERIALIZED_BYTES.
Proof.
  intros Hw ([] & Hv & [= <-])%bind_ok. split; [by apply manifest_decode_encode|]. split; [done|].
  apply bind_ok in Hv as (n & Hn & Hle%reject_if_ok%Z.ltb_ge).
  pose proof (manifest_encoded_len_ok _ _ _ Hn) as ->. done.
Qed.

Lemma manifest_roundtrip_witness :
  exists man, Manifest_new {[ ZERO := bs "agent" ]} = Ok man /\ decode (encode man) = Ok man.
Proof.
  exists (mkManifest {[ ZERO := bs "agent" ]} Version1).
  assert (Manifest_new {[ ZERO := bs "agent" ]} =
    Ok (mkManifest {[ ZERO := bs "agent" ]} Version1)) as H by (vm_compute; reflexivity).
  split; [exact H|].
  apply (manifest_roundtrip {[ ZERO := bs "agent" ]}
           (mkManifest {[ ZERO := bs "agent" ]} Version1)); [|exact H].
  apply map_Forall_singleton. reflexivity.
Defined.

(** Only canonical manifests are accepted, whichever of the two encodings
    they use: decoded bytes are the encoding of the manifest; and no input makes
    the decoder panic. *)
Theorem manifest_decode_canonical (b : bytes) (man : ProvenanceManifest) :
  (decode b = Ok man -> encode man = b) /\ no_panic (decode b).
Proof. split; [apply manifest_canonical|apply manifest_decode_no_panic]. Qed.

Lemma manifest_decode_canonical_witness :
  exists man, decode [xa0] = Ok man /\ encode man = [xa0].
Proof.
  exists (mkManifest ∅ Legacy).
  assert (decode [xa0] = Ok (mkManifest ∅ Legacy)) as H by (vm_compute; reflexivity).
  split; [exact H|]. apply (manifest_decode_canonical [xa0] (mkManifest ∅ Legacy)). exact H.
Defined.
