(* ===== verification/Cap.v ===== *)
(** * [crates/forge-cap/src/lib.rs]: HMAC capabilities

    Minting, attenuation, verification, the token codec and authorization.
    HMAC-SHA256 is a parameter, [Hmac].  A [HashSet<Op>] is a [gset], a
    [HashMap<Op, _>] a [gmap]. *)

From S2P Require Import Prelude RustStd Types.

(** The [hmac] and [sha2] crates: the tag of a message under a key.
    [new_from_slice] accepts every key length, and [verify_slice] accepts
    exactly the tag of the message. *)
Class Hmac := hmac_sha256 : bytes -> bytes -> arr 32.

Definition MAX_TOKEN_BYTES : Z := 64 * 1024.
Definition MAX_CAVEATS : Z := 256.
Definition MAX_FIELD_BYTES : Z := u16_max.

Inductive Op := Read | Write | Branch | Merge | Grant | Seal.
#[export] Instance Op_eq_dec : EqDecision Op.
Proof. solve_decision. Defined.

Definition Op_tag (op : Op) : nat :=
  match op with Read => 0 | Write => 1 | Branch => 2 | Merge => 3 | Grant => 4 | Seal => 5 end.
Definition Op_of_tag (n : nat) : option Op :=
  nth_error [Read; Write; Branch; Merge; Grant; Seal] n.
#[export] Program Instance Op_countable : Countable Op := inj_countable Op_tag Op_of_tag _.
Next Obligation. by intros []. Qed.

Definition Op_as_str (op : Op) : str :=
  match op with
  | Read => bs "read" | Write => bs "write" | Branch => bs "branch"
  | Merge => bs "merge" | Grant => bs "grant" | Seal => bs "seal"
  end.

Definition Op_parse (s : str) : Result Op :=
  if bytes_eqb s (bs "read") then Ok Read
  else if bytes_eqb s (bs "write") then Ok Write
  else if bytes_eqb s (bs "branch") then Ok Branch
  else if bytes_eqb s (bs "merge") then Ok Merge
  else if bytes_eqb s (bs "grant") then Ok Grant
  else if bytes_eqb s (bs "seal") then Ok Seal
  else Err (CapError (bs "unknown op {other}")).

(** ** What the caveats of a capability authorize *)

Record ParsedCaveats := mkParsed {
  p_ops : gset Op;
  p_ref_sets : list (list str);
  p_op_ref_sets : gmap Op (list (list str));
  p_ref_not : list str;
  p_time_le : option Z;
  p_agent : option str;
  p_agent_conflict : bool
}.

Record Cap := mkCap {
  loc : str;
  id : str;
  caveats : list str;
  sig : arr 32;
  parsed : ParsedCaveats
}.

Definition ref_matches (glob name : str) : bool :=
  match strip_suffix glob (bs "*") with
  | Some prefix => starts_with name prefix
  | None => bytes_eqb glob name
  end.

Definition matches_any (globs : list str) (name : str) : bool :=
  existsb (fun g => ref_matches g name) globs.

Definition allows (cap : Cap) (op : Op) (ref_name : option str) (now_ms : Z) : Result unit :=
  let c := parsed cap in
  _ ← reject_if (p_agent_conflict c) (Denied (bs "cap has conflicting agent caveats"));
  _ ← reject_if (negb (bool_decide (op ∈ p_ops c))) (Denied (bs "cap missing op {}"));
  _ ← match p_time_le c with
      | Some t => reject_if (t <? now_ms) (Denied (bs "cap expired"))
      | None => Ok tt
      end;
  match ref_name with
  | None => Ok tt
  | Some name =>
      _ ← reject_if (existsb (fun n => ref_matches n name) (p_ref_not c))
            (Denied (bs "cap excludes ref {name}"));
      _ ← for_each (fun allowed_set => reject_if (negb (matches_any allowed_set name))
            (Denied (bs "cap does not cover ref {name}"))) (p_ref_sets c);
      match p_op_ref_sets c !! op with
      | Some scoped_sets =>
          for_each (fun allowed_set => reject_if (negb (matches_any allowed_set name))
            (Denied (bs "cap does not allow {} on ref {name}"))) scoped_sets
      | None => Ok tt
      end
  end.

Definition agent_id (cap : Cap) : str := default (bs "anon") (p_agent (parsed cap)).

Definition has_unrestricted_ref_scope (cap : Cap) : bool :=
  let c := parsed cap in
  bool_decide (p_ref_sets c = []) && bool_decide (p_op_ref_sets c = ∅) &&
  bool_decide (p_ref_not c = []).

(** ** Bytes that are authenticated *)

Definition checked_u16_len (s what : str) : Result Z :=
  _ ← reject_if (MAX_FIELD_BYTES <? len s) (CapError (what ++ bs " too large"));
  Ok (len s mod 65536).

Definition prefix_bytes (loc id : str) : bytes :=
  bs "FMAC" ++ [u8 1] ++ be_bytes 2 (len loc) ++ loc ++ be_bytes 2 (len id) ++ id.

Definition append_caveat_bytes (c : str) : bytes := be_bytes 2 (len c) ++ c.

Definition caveat_mac_input (c : str) : bytes := append_caveat_bytes c.

(** An [HmacSha256] in progress: its key and the data fed to it. *)
Definition MacState : Type := bytes * bytes.
Definition mac (key data : bytes) : MacState := (key, data).

Section with_hmac.
Context {HM : Hmac}.

Definition finalize_mac (m : MacState) : arr 32 := hmac_sha256 m.1 m.2.
Definition hmac (key data : bytes) : arr 32 := finalize_mac (mac key data).

Definition chain_step (sig : arr 32) (c : str) : arr 32 :=
  hmac (arr_bytes sig) (caveat_mac_input c).

(** [caveats.split_last()]. *)
Definition split_last {A} (l : list A) : option (A * list A) :=
  match reverse l with
  | [] => None
  | x :: l' => Some (x, reverse l')
  end.

Definition final_chain_mac (root : bytes) (loc id : str) (caveats : list str) : MacState :=
  match split_last caveats with
  | None => mac root (prefix_bytes loc id)
  | Some (last, prior) =>
      let sig := fold_left chain_step prior (hmac root (prefix_bytes loc id)) in
      mac (arr_bytes sig) (caveat_mac_input last)
  end.

Definition sign_chain (root : bytes) (loc id : str) (caveats : list str) : arr 32 :=
  finalize_mac (final_chain_mac root loc id caveats).
End with_hmac.

(** ** Parsing caveats *)

(** [rest.split(',').map(str::trim).filter(|s| !s.is_empty())]. *)
Definition comma_list (rest : str) : list str :=
  filter (fun s => s <> []) (trim <$> split_byte ","%byte rest).

Definition parse_ref_set (rest kind : str) : Result (list str) :=
  let set := comma_list rest in
  _ ← reject_if (bool_decide (set = [])) (CapError (bs "empty {kind} caveat"));
  Ok set.

(** The local variables of the loop: [ops] stays an [Option] until the end. *)
Record CaveatState := mkState {
  st_ops : option (gset Op);
  st_ref_sets : list (list str);
  st_op_ref_sets : gmap Op (list (list str));
  st_nots : list str;
  st_time_le : option Z;
  st_agent : option str;
  st_agent_conflict : bool
}.

Definition parse_ops (rest : str) : Result (gset Op) :=
  try_fold (fun set p => op ← Op_parse p; Ok ({[ op ]} ∪ set)) ∅ (comma_list rest).

Definition caveat_step (st : CaveatState) (c : str) : Result CaveatState :=
  let 'mkState ops ref_sets op_ref_sets nots time_le agent agent_conflict := st in
  _ ← checked_u16_len c (bs "caveat");
  match strip_prefix c (bs "ops=") with
  | Some rest =>
      set ← parse_ops rest;
      let ops' := match ops with None => set | Some prev => prev ∩ set end in
      Ok (mkState (Some ops') ref_sets op_ref_sets nots time_le agent agent_conflict)
  | None =>
  match strip_prefix c (bs "allow=") with
  | Some rest =>
      '(op_s, refs) ← ok_or (split_once ":"%byte rest)
                        (CapError (bs "allow caveat needs allow=<op>:<refs>"));
      op ← Op_parse (trim op_s);
      set ← parse_ref_set refs (bs "allow");
      let sets := default [] (op_ref_sets !! op) ++ [set] in
      Ok (mkState ops ref_sets (<[op := sets]> op_ref_sets) nots time_le agent agent_conflict)
  | None =>
  match strip_prefix c (bs "ref!=") with
  | Some rest =>
      set ← parse_ref_set rest (bs "ref!=");
      Ok (mkState ops ref_sets op_ref_sets (nots ++ set) time_le agent agent_conflict)
  | None =>
  match strip_prefix c (bs "ref=") with
  | Some rest =>
      set ← parse_ref_set rest (bs "ref=");
      Ok (mkState ops (ref_sets ++ [set]) op_ref_sets nots time_le agent agent_conflict)
  | None =>
  match strip_prefix c (bs "time<=") with
  | Some rest =>
      t ← ok_or (parse_u64 rest) (CapError (bs "bad time<="));
      let t' := match time_le with Some prev => Z.min prev t | None => t end in
      Ok (mkState ops ref_sets op_ref_sets nots (Some t') agent agent_conflict)
  | None =>
  match strip_prefix c (bs "agent=") with
  | Some rest =>
      _ ← reject_if (bool_decide (rest = [])) (CapError (bs "empty agent caveat"));
      match agent with
      | None => Ok (mkState ops ref_sets op_ref_sets nots time_le (Some rest) agent_conflict)
      | Some prev =>
          if bytes_eqb prev rest then Ok st
          else Ok (mkState ops ref_sets op_ref_sets nots time_le agent true)
      end
  | None => Err (CapError (bs "unknown caveat {c}"))
  end end end end end end.

Definition initial_state : CaveatState := mkState None [] ∅ [] None None false.

Definition finish (st : CaveatState) : ParsedCaveats :=
  mkParsed (default ∅ (st_ops st)) (st_ref_sets st) (st_op_ref_sets st) (st_nots st)
    (st_time_le st) (st_agent st) (st_agent_conflict st).

Definition parse_caveats (caveats : list str) : Result ParsedCaveats :=
  _ ← reject_if (MAX_CAVEATS <? len caveats) (CapError (bs "too many caveats"));
  st ← try_fold caveat_step initial_state caveats;
  Ok (finish st).

Definition cap_from_parts (loc id : str) (caveats : list str) (sig : arr 32) : Result Cap :=
  p ← parse_caveats caveats;
  Ok (mkCap loc id caveats sig p).

(** ** Tokens *)

Definition encode (c : Cap) : bytes :=
  prefix_bytes (loc c) (id c) ++ concat (append_caveat_bytes <$> caveats c) ++ arr_bytes (sig c).

Definition to_token (c : Cap) : str := bs "fmac1_" ++ hex_encode (encode c).

(** [u16::from_be_bytes([raw[i], raw[i + 1]]) as usize]. *)
Definition u16_at (raw : bytes) (i : Z) : Result Z :=
  a ← index raw i; b ← index raw (i + 1); Ok (be_val [a; b]).

(** [String::from_utf8(raw[a..b].to_vec())]. *)
Definition str_at (raw : bytes) (a b : Z) : Result str :=
  s ← slice raw a b;
  _ ← reject_if (negb (utf8_valid s)) (CapError (bs "utf8"));
  Ok s.

(** [while i + 32 < raw.len()]: at most one iteration per remaining byte, so
    [length raw] iterations of fuel are never exhausted; running out is a
    [Panic], which [decode_cap] is proved not to do. *)
Fixpoint caveat_loop (fuel : nat) (raw : bytes) (i : Z) (cs : list str) : Result (Z * list str) :=
  match fuel with
  | O => Panic
  | S fuel' =>
      if i + 32 <? len raw then
        _ ← reject_if ((MAX_CAVEATS <=? len cs) || (len raw - 32 <? i + 2))
              (CapError (bs "bad caveat framing"));
        n ← u16_at raw i;
        let i := i + 2 in
        _ ← reject_if (len raw <? i + n + 32) (CapError (bs "cap caveat"));
        c ← str_at raw i (i + n);
        caveat_loop fuel' raw (i + n) (cs ++ [c])
      else Ok (i, cs)
  end.

Definition decode_cap (raw : bytes) : Result Cap :=
  _ ← reject_if (MAX_TOKEN_BYTES <? len raw) (CapError (bs "cap too large"));
  _ ← reject_if (len raw <? 4 + 1 + 2 + 2 + 32) (CapError (bs "cap truncated"));
  magic ← slice raw 0 4;
  b4 ← index raw 4;
  _ ← reject_if (negb (bytes_eqb magic (bs "FMAC")) || negb (b2z b4 =? 1))
        (CapError (bs "bad cap header"));
  let i := 5 in
  loc_len ← u16_at raw i;
  let i := i + 2 in
  _ ← reject_if (len raw <? i + loc_len + 2 + 32) (CapError (bs "cap loc"));
  loc ← str_at raw i (i + loc_len);
  let i := i + loc_len in
  id_len ← u16_at raw i;
  let i := i + 2 in
  _ ← reject_if (len raw <? i + id_len + 32) (CapError (bs "cap id"));
  id ← str_at raw i (i + id_len);
  let i := i + id_len in
  '(i, cs) ← caveat_loop (length raw) raw i [];
  _ ← reject_if (negb (i + 32 =? len raw)) (CapError (bs "cap trailing"));
  tail ← slice_from raw i;
  sig ← (match arr_of 32 tail with Some s => Ok s | None => Panic end);
  cap_from_parts loc id cs sig.

Definition from_token (s : str) : Result Cap :=
  let raw_hex := default s (strip_prefix s (bs "fmac1_")) in
  _ ← reject_if (MAX_TOKEN_BYTES * 2 <? len raw_hex) (CapError (bs "cap too large"));
  raw ← hex_decode raw_hex;
  decode_cap raw.

(** ** Minting, attenuation, verification *)

Section operations.
Context {HM : Hmac}.

Definition verify (root : bytes) (c : Cap) : Result unit :=
  reject_if (negb (bool_decide
      (finalize_mac (final_chain_mac root (loc c) (id c) (caveats c)) = sig c)))
    (CapError (bs "bad signature")).

Definition mint (root : bytes) (loc id : str) (caveats : list str) : Result Cap :=
  _ ← checked_u16_len loc (bs "location");
  _ ← checked_u16_len id (bs "id");
  _ ← parse_caveats caveats;
  let sig := sign_chain root loc id caveats in
  cap_from_parts loc id caveats sig.

Definition attenuate_holder (c : Cap) (extra : list str) : Result Cap :=
  _ ← reject_if (MAX_CAVEATS <? len (caveats c) + len extra) (CapError (bs "too many caveats"));
  '(cs, sg) ← try_fold (fun '(cs, sg) x =>
      _ ← checked_u16_len x (bs "caveat");
      Ok (cs ++ [x], chain_step sg x)) (caveats c, sig c) extra;
  cap_from_parts (loc c) (id c) cs sg.

Definition attenuate (root : bytes) (c : Cap) (extra : list str) : Result Cap :=
  attenuate_holder c extra.

Definition mint_root (root : bytes) : Result Cap :=
  mint root (bs "forge") (bs "root") [bs "ops=read,write,branch,merge,grant,seal"].

Definition mint_integrator (root : bytes) : Result Cap :=
  mint root (bs "forge") (bs "integrator")
    [bs "ops=read,merge,seal,grant";
     bs "allow=read:main,heads/agents/*,forks/*,tags/*,conflicts/*";
     bs "allow=merge:main";
     bs "allow=seal:main,tags/*"].
End operations.

(** ** Lemmas: authorization *)

Lemma allows_ok c op rn now :
  allows c op rn now = Ok tt <->
  p_agent_conflict (parsed c) = false /\ op ∈ p_ops (parsed c) /\
  (forall t, p_time_le (parsed c) = Some t -> now <= t) /\
  (forall name, rn = Some name ->
     Forall (fun n => ref_matches n name = false) (p_ref_not (parsed c)) /\
     Forall (fun s => matches_any s name = true) (p_ref_sets (parsed c)) /\
     (forall l, p_op_ref_sets (parsed c) !! op = Some l ->
        Forall (fun s => matches_any s name = true) l)).
Proof.
  assert (forall name l, for_each (fun allowed_set => reject_if (negb (matches_any allowed_set name))
    (Denied (bs "cap does not cover ref {name}"))) l = Ok tt <->
    Forall (fun s => matches_any s name = true) l) as H1.
  { intros name l. rewrite for_each_ok. apply Forall_iff. intros s.
    by rewrite reject_if_ok, negb_false_iff. }
  assert (forall name l, for_each (fun allowed_set => reject_if (negb (matches_any allowed_set name))
    (Denied (bs "cap does not allow {} on ref {name}"))) l = Ok tt <->
    Forall (fun s => matches_any s name = true) l) as H2.
  { intros name l. rewrite for_each_ok. apply Forall_iff. intros s.
    by rewrite reject_if_ok, negb_false_iff. }
  assert (forall name l, existsb (fun n => ref_matches n name) l = false <->
    Forall (fun n => ref_matches n name = false) l) as H3.
  { intros name l. induction l as [|x l IH]; simpl; [by split|].
    by rewrite orb_false_iff, IH, Forall_cons. }
  unfold allows. split.
  - intros H. inv_ok. apply negb_false_iff, bool_decide_eq_true in Ha0.
    split; [done|]. split; [done|]. split.
    + intros t Ht. rewrite Ht in Ha1. destruct a1. by apply reject_if_ok, Z.ltb_ge in Ha1.
    + intros name ->. inv_ok. destruct a3. apply H3 in Ha2. apply H1 in Ha3.
      split; [done|]. split; [done|]. intros l Hl. rewrite Hl in H. by apply H2 in H.
  - intros (Hc & Ho & Ht & Hn). rewrite Hc. simpl. rewrite bool_decide_true by done. simpl.
    replace (match p_time_le (parsed c) with Some t => _ | None => Ok tt end)
      with (@Ok Error _ tt).
    + simpl. destruct rn as [name|]; [|done]. specialize (Hn name eq_refl) as (Hn1 & Hn2 & Hn3).
      rewrite (proj2 (H3 _ _)) by done. simpl. rewrite (proj2 (H1 _ _)) by done. simpl.
      case_match; [|done]. apply H2. by apply Hn3.
    + destruct (p_time_le (parsed c)) as [t|]; [|done]. specialize (Ht t eq_refl).
      by rewrite (proj2 (Z.ltb_ge _ _)).
Qed.

(** [st'] authorizes no more than [st]. *)
Record restricts (st st' : CaveatState) : Prop := mk_restricts {
  rs_ops : forall o, st_ops st = Some o -> exists o', st_ops st' = Some o' /\ o' ⊆ o;
  rs_refs : st_ref_sets st ⊆ st_ref_sets st';
  rs_op_refs : forall op l, st_op_ref_sets st !! op = Some l ->
    exists l', st_op_ref_sets st' !! op = Some l' /\ l ⊆ l';
  rs_nots : st_nots st ⊆ st_nots st';
  rs_time : forall t, st_time_le st = Some t -> exists t', st_time_le st' = Some t' /\ t' <= t;
  rs_agent : forall a, st_agent st = Some a -> st_agent st' = Some a;
  rs_conflict : st_agent_conflict st = true -> st_agent_conflict st' = true
}.

Lemma restricts_refl st : restricts st st.
Proof. split; try done; eauto. intros t Ht. exists t. split; [done|lia]. Qed.

Lemma restricts_trans s1 s2 s3 : restricts s1 s2 -> restricts s2 s3 -> restricts s1 s3.
Proof.
  intros [A1 A2 A3 A4 A5 A6 A7] [B1 B2 B3 B4 B5 B6 B7].
  split; [| |  | | |by auto|by auto].
  - intros o (o' & Ho' & ?)%A1. apply B1 in Ho' as (o'' & ? & ?).
    exists o''. split; [done|]. by trans o'.
  - by trans (st_ref_sets s2).
  - intros op l (l' & Hl' & ?)%A3. apply B3 in Hl' as (l'' & ? & ?).
    exists l''. split; [done|]. by trans l'.
  - by trans (st_nots s2).
  - intros t (t' & Ht' & ?)%A5. apply B5 in Ht' as (t'' & ? & ?).
    exists t''. split; [done|lia].
Qed.

Ltac restrict_same :=
  first [ done
        | by intros; eexists; split; [eassumption|]
        | intros ? ?; eexists; split; [eassumption|reflexivity] ].

(** Every caveat can only restrict. *)
Lemma caveat_step_restricts st c st' : caveat_step st c = Ok st' -> restricts st st'.
Proof.
  destruct st as [ops refs oprefs nots time agent conflict]. unfold caveat_step.
  intros (n & _ & H)%bind_ok.
  destruct (strip_prefix c (bs "ops=")) as [rest|]; [inv_ok|
  destruct (strip_prefix c (bs "allow=")) as [rest|]; [inv_ok|
  destruct (strip_prefix c (bs "ref!=")) as [rest|]; [inv_ok|
  destruct (strip_prefix c (bs "ref=")) as [rest|]; [inv_ok|
  destruct (strip_prefix c (bs "time<=")) as [rest|]; [inv_ok|
  destruct (strip_prefix c (bs "agent=")) as [rest|]; [inv_ok|done]]]]]].
  6: destruct agent as [prev|]; [destruct (bytes_eqb prev rest)|]; inv_ok.
  all: split; simpl; try restrict_same.
  - intros o ->. eexists; split; [done|set_solver].
  - match goal with |- forall op l, _ -> exists l', <[?o := _]> _ !! _ = _ /\ _ =>
      intros op ol Hl; destruct (decide (o = op)) as [->|Hne] end.
    + rewrite lookup_insert_eq, Hl. simpl. eexists; split; [done|]. intros x. set_solver.
    + rewrite lookup_insert_ne by done. eauto.
  - intros x. set_solver.
  - intros x. set_solver.
  - intros t ->. eexists; split; [done|lia].
Qed.

Lemma caveats_restrict st cs st' : try_fold caveat_step st cs = Ok st' -> restricts st st'.
Proof.
  apply (try_fold_inv caveat_step (restricts st)); [|apply restricts_refl].
  intros s x s' Hs Hx. eapply restricts_trans; [done|]. by eapply caveat_step_restricts.
Qed.

(** What a capability limits, apart from its list of operations: one agent, a
    time, the refs. *)
Definition limits (c : Cap) (op : Op) (rn : option str) (now : Z) : Prop :=
  p_agent_conflict (parsed c) = false /\
  (forall t, p_time_le (parsed c) = Some t -> now <= t) /\
  (forall name, rn = Some name ->
     Forall (fun n => ref_matches n name = false) (p_ref_not (parsed c)) /\
     Forall (fun s => matches_any s name = true) (p_ref_sets (parsed c)) /\
     (forall l, p_op_ref_sets (parsed c) !! op = Some l -> Forall (fun s => matches_any s name = true) l)).

Lemma allows_limits c op rn now : allows c op rn now = Ok tt <-> op ∈ p_ops (parsed c) /\ limits c op rn now.
Proof. rewrite allows_ok. unfold limits. tauto. Qed.

Lemma limits_restrict c c' st st' op rn now :
  parsed c = finish st -> parsed c' = finish st' -> restricts st st' -> limits c' op rn now -> limits c op rn now.
Proof.
  intros Hc Hc' [R1 R2 R3 R4 R5 _ R6]. unfold limits. rewrite Hc, Hc'. simpl. intros (H1 & H3 & H4). split_and!.
  - destruct (st_agent_conflict st); [|done]. by rewrite R6 in H1.
  - intros t (t' & Ht' & ?)%R5. specialize (H3 _ Ht'). lia.
  - intros name ->. specialize (H4 name eq_refl) as (H4 & H5 & H6). split_and!.
    + rewrite Forall_forall in *. intros x Hx. apply H4. by apply R4.
    + rewrite Forall_forall in *. intros x Hx. apply H5. by apply R2.
    + intros l (l' & Hl' & Hsubl)%R3. specialize (H6 _ Hl').
      rewrite Forall_forall in *. intros x Hx. apply H6. by apply Hsubl.
Qed.

Lemma ops_restrict c c' st st' op :
  parsed c = finish st -> parsed c' = finish st' -> restricts st st' -> is_Some (st_ops st) ->
  op ∈ p_ops (parsed c') -> op ∈ p_ops (parsed c).
Proof.
  intros Hc Hc' [R1 _ _ _ _ _ _] [o Ho]. apply R1 in Ho as Ho'. destruct Ho' as (o' & Ho' & Hsub).
  rewrite Hc, Hc'. simpl. rewrite Ho, Ho'. simpl. set_solver.
Qed.

(** An [ops=] caveat among the caveats. *)
Definition has_ops (cs : list str) : Prop := Exists (fun c => starts_with c (bs "ops=") = true) cs.

Lemma caveat_step_ops st c st' :
  caveat_step st c = Ok st' ->
  is_Some (st_ops st) \/ starts_with c (bs "ops=") = true -> is_Some (st_ops st').
Proof.
  intros Hs [[o Ho]|Hc].
  - apply caveat_step_restricts in Hs as [R1 _ _ _ _ _ _].
    apply R1 in Ho as (o' & -> & _). done.
  - destruct st. unfold caveat_step in Hs. apply bind_ok in Hs as (n & _ & Hs).
    unfold strip_prefix at 1 in Hs. rewrite Hc in Hs. inv_ok. done.
Qed.

Lemma caveats_ops st cs st' :
  try_fold caveat_step st cs = Ok st' -> is_Some (st_ops st) \/ has_ops cs ->
  is_Some (st_ops st').
Proof.
  revert st; induction cs as [|c cs IH]; intros st; simpl.
  { intros [= ->] [H|H]; [done|by inversion H]. }
  intros (s1 & H1 & H2)%bind_ok H. apply (IH _ H2).
  destruct H as [H|H].
  - left. by eapply caveat_step_ops; eauto.
  - inversion H; subst; [|by right]. left. by eapply caveat_step_ops; eauto.
Qed.

(** The private fields of a capability are what its caveats parse to. *)
Definition wf_cap (c : Cap) : Prop := parse_caveats (caveats c) = Ok (parsed c).

Lemma cap_from_parts_ok loc id cs sg c :
  cap_from_parts loc id cs sg = Ok c <->
  parse_caveats cs = Ok (parsed c) /\ c = mkCap loc id cs sg (parsed c).
Proof.
  unfold cap_from_parts. rewrite bind_ok. split.
  - intros (p & Hp & [= <-]). done.
  - intros [Hp Hc]. exists (parsed c). split; [done|]. by rewrite Hc at 2.
Qed.

Lemma parse_caveats_ok cs p :
  parse_caveats cs = Ok p <->
  len cs <= MAX_CAVEATS /\ exists st, try_fold caveat_step initial_state cs = Ok st /\
    p = finish st.
Proof.
  unfold parse_caveats. rewrite bind_ok. split.
  - intros (u & Hu%reject_if_ok%Z.ltb_ge & H). apply bind_ok in H as (st & Hst & [= <-]). eauto.
  - intros (Hl & st & Hst & ->). exists tt. rewrite reject_if_ok, Z.ltb_ge. split; [done|].
    rewrite Hst. done.
Qed.

(** ** Lemmas: the signature chain *)

Section chain.
Context {HM : Hmac}.

Lemma sign_chain_fold root loc id cs :
  sign_chain root loc id cs = fold_left chain_step cs (hmac root (prefix_bytes loc id)).
Proof.
  unfold sign_chain, final_chain_mac, split_last.
  destruct cs as [|c cs _] using rev_ind; [done|].
  rewrite reverse_app. simpl. rewrite reverse_involutive, fold_left_app. done.
Qed.

Lemma verify_ok root c :
  verify root c = Ok tt <->
  sig c = fold_left chain_step (caveats c) (hmac root (prefix_bytes (loc c) (id c))).
Proof.
  unfold verify. rewrite reject_if_ok, negb_false_iff, bool_decide_eq_true.
  fold (sign_chain root (loc c) (id c) (caveats c)). rewrite sign_chain_fold. naive_solver.
Qed.

Lemma attenuate_fold cs sg extra r :
  try_fold (fun '(cs, sg) x =>
      _ ← checked_u16_len x (bs "caveat");
      Ok (cs ++ [x], chain_step sg x)) (cs, sg) extra = Ok r ->
  r = (cs ++ extra, fold_left chain_step extra sg).
Proof.
  revert cs sg; induction extra as [|x extra IH]; intros cs sg; simpl.
  { intros [= <-]. by rewrite app_nil_r. }
  intros (s & (n & _ & [= <-])%bind_ok & H2)%bind_ok. apply IH in H2 as ->.
  by rewrite <- app_assoc.
Qed.

Lemma attenuate_ok c extra c' :
  attenuate_holder c extra = Ok c' ->
  caveats c' = caveats c ++ extra /\ loc c' = loc c /\ id c' = id c /\
  sig c' = fold_left chain_step extra (sig c) /\ wf_cap c'.
Proof.
  unfold attenuate_holder. intros (u & _ & H)%bind_ok.
  apply bind_ok in H as (r & Hr & H). apply attenuate_fold in Hr as ->.
  apply cap_from_parts_ok in H as [Hp ->]. done.
Qed.
End chain.

(** ** Lemmas: tokens *)

Lemma u16_at_parse pre n suf :
  0 <= n < 65536 -> u16_at (pre ++ be_bytes 2 n ++ suf) (len pre) = Ok n.
Proof.
  intros Hn. pose proof (be_val_bytes 2 n ltac:(lia)) as Hv.
  pose proof (length_be_bytes 2 n) as Hl.
  destruct (be_bytes 2 n) as [|a [|b [|]]]; try done. unfold u16_at. cbn [app].
  rewrite index_app, bind_of_ok.
  replace (len pre + 1) with (len (pre ++ [a])) by (rewrite len_app; done).
  change (pre ++ a :: b :: suf) with (pre ++ [a] ++ b :: suf). rewrite app_assoc.
  rewrite index_app. simpl. by rewrite Hv.
Qed.

Lemma u16_at_split pre suf :
  2 <= len suf -> exists n suf', suf = be_bytes 2 n ++ suf' /\ 0 <= n < 65536 /\
    u16_at (pre ++ suf) (len pre) = Ok n.
Proof.
  intros H. destruct (split_len suf 2) as (a & b & -> & Ha); [lia|].
  pose proof (be_val_range a) as Hr. rewrite Ha in Hr. change (256 ^ 2) with 65536 in Hr.
  assert (length a = 2%nat) as Hla by (unfold len in Ha; lia).
  pose proof (be_bytes_val a) as Hb. rewrite Hla in Hb.
  exists (be_val a), b. rewrite Hb. split; [done|]. split; [done|].
  rewrite <- Hb at 1. by apply u16_at_parse.
Qed.

Lemma str_at_parse pre s suf i j :
  i = len pre -> j = i + len s ->
  str_at (pre ++ s ++ suf) i j =
    if utf8_valid s then Ok s else Err (CapError (bs "utf8")).
Proof.
  intros -> ->. unfold str_at. rewrite slice_app, bind_of_ok. by destruct (utf8_valid s).
Qed.

Lemma no_panic_caveat_step st c : no_panic (caveat_step st c).
Proof.
  assert (forall s, no_panic (Op_parse s)) as Hop.
  { intros s. unfold Op_parse, no_panic. by repeat case_match. }
  assert (forall l (s : gset Op), no_panic (try_fold (fun set p => op ← Op_parse p; Ok ({[ op ]} ∪ set)) s l)) as Hf.
  { induction l as [|x l IH]; intros s; simpl; [done|].
    apply no_panic_bind; [apply no_panic_bind; auto with forge|auto]. }
  unfold caveat_step, checked_u16_len, parse_ref_set, parse_ops. destruct st.
  repeat first [ apply no_panic_bind; [|intros ? ?] | case_match | solve [auto with forge] ].
Qed.

Lemma no_panic_caveats st cs : no_panic (try_fold caveat_step st cs).
Proof.
  revert st. induction cs as [|c cs IH]; intros st; simpl; [done|].
  apply no_panic_bind; [apply no_panic_caveat_step|auto].
Qed.
#[local] Hint Resolve no_panic_caveats : forge.

Lemma no_panic_cap_from_parts lo i cs sg : no_panic (cap_from_parts lo i cs sg).
Proof.
  unfold cap_from_parts, parse_caveats.
  repeat first [ apply no_panic_bind; [|intros ? ?] | solve [auto with forge] ].
Qed.

Definition caveats_bytes (cs : list str) : bytes := concat (append_caveat_bytes <$> cs).

Lemma caveats_bytes_cons c cs suf :
  caveats_bytes (c :: cs) ++ suf = be_bytes 2 (len c) ++ c ++ caveats_bytes cs ++ suf.
Proof.
  unfold caveats_bytes. rewrite fmap_cons. cbn [concat].
  unfold append_caveat_bytes at 1. by rewrite <- !app_assoc.
Qed.

Lemma len_append c : len (append_caveat_bytes c) = 2 + len c.
Proof. unfold append_caveat_bytes. rewrite len_app, len_be_bytes. lia. Qed.

Lemma caveat_loop_spec fuel pre suf cs :
  32 <= len suf -> (length suf < fuel + 32)%nat ->
  match caveat_loop fuel (pre ++ suf) (len pre) cs with
  | Ok (i, cs') => exists nw suf', cs' = cs ++ nw /\ suf = caveats_bytes nw ++ suf' /\
      i = len (pre ++ caveats_bytes nw) /\ len suf' = 32 /\
      Forall (fun c => utf8_valid c = true) nw
  | Err _ => True
  | Panic => False
  end.
Proof.
  revert pre suf cs; induction fuel as [|fuel IH]; intros pre suf cs Hs Hf.
  { unfold len in Hs. lia. }
  cbn [caveat_loop]. rewrite len_app.
  destruct (Z.ltb_spec (len pre + 32) (len pre + len suf)) as [H1|H1].
  2: { exists [], suf. unfold caveats_bytes. simpl. rewrite !app_nil_r.
       split_and!; [done|done|done|lia|constructor]. }
  destruct (MAX_CAVEATS <=? len cs); [done|].
  destruct (Z.ltb_spec (len pre + len suf - 32) (len pre + 2)) as [H2|H2]; [done|].
  cbn [orb reject_if]. rewrite bind_of_ok.
  destruct (u16_at_split pre suf) as (n & suf1 & -> & Hn & ->); [lia|]. rewrite bind_of_ok.
  rewrite len_app, len_be_bytes in *.
  destruct (Z.ltb_spec (len pre + (Z.of_nat 2 + len suf1)) (len pre + 2 + n + 32)) as [H3|H3];
    [done|].
  cbn [reject_if]. rewrite bind_of_ok.
  destruct (split_len suf1 n) as (c & suf2 & -> & <-); [lia|].
  rewrite app_assoc, (str_at_parse (pre ++ be_bytes 2 (len c)) c suf2)
    by (rewrite ?len_app, ?len_be_bytes; lia).
  destruct (utf8_valid c) eqn:Hu; [|done]. rewrite bind_of_ok.
  specialize (IH ((pre ++ be_bytes 2 (len c)) ++ c) suf2 (cs ++ [c])).
  rewrite <- app_assoc in IH.
  replace (len ((pre ++ be_bytes 2 (len c)) ++ c)) with (len pre + 2 + len c) in IH
    by (rewrite !len_app, len_be_bytes; lia).
  rewrite !length_app, length_be_bytes in Hf. rewrite len_app in *.
  specialize (IH ltac:(lia) ltac:(lia)).
  destruct (caveat_loop fuel _ _ _) as [[i cs']| |]; [|done..].
  destruct IH as (nw & suf' & -> & -> & -> & Hl & Hnw).
  exists (c :: nw), suf'. rewrite caveats_bytes_cons. rewrite <- !app_assoc.
  split_and!; [done|done|by f_equal|done|by constructor].
Qed.

Lemma caveat_loop_parse fuel pre nw tail cs :
  len tail = 32 -> (length (caveats_bytes nw) < fuel)%nat ->
  Forall (fun c => utf8_valid c = true /\ len c <= MAX_FIELD_BYTES) nw ->
  len cs + len nw <= MAX_CAVEATS ->
  caveat_loop fuel (pre ++ caveats_bytes nw ++ tail) (len pre) cs =
    Ok (len (pre ++ caveats_bytes nw), cs ++ nw).
Proof.
  intros Ht. revert pre nw cs; induction fuel as [|fuel IH]; intros pre nw cs Hf Hnw Hn; [lia|].
  cbn [caveat_loop]. rewrite !len_app, Ht. destruct nw as [|c nw].
  { change (caveats_bytes []) with (@nil byte). rewrite len_nil.
    rewrite (proj2 (Z.ltb_ge _ _)) by lia. rewrite app_nil_r. f_equal. f_equal. lia. }
  apply Forall_cons in Hnw as [[Hu Hc] Hnw]. rewrite len_cons in Hn.
  pose proof (len_nonneg cs). pose proof (len_nonneg nw). pose proof (len_nonneg c).
  assert (caveats_bytes (c :: nw) = be_bytes 2 (len c) ++ c ++ caveats_bytes nw) as Ecs.
  { rewrite <- (app_nil_r (caveats_bytes (c :: nw))), caveats_bytes_cons. by rewrite app_nil_r. }
  pose proof (len_nonneg (caveats_bytes nw)).
  rewrite Ecs in *. rewrite <- !app_assoc. rewrite !length_app, length_be_bytes in Hf.
  rewrite !len_app, len_be_bytes.
  rewrite (proj2 (Z.ltb_lt _ _)) by lia.
  rewrite (proj2 (Z.leb_gt _ _)) by lia. rewrite (proj2 (Z.ltb_ge _ _)) by lia.
  cbn [orb reject_if]. rewrite bind_of_ok.
  rewrite u16_at_parse by (unfold MAX_FIELD_BYTES, u16_max in *; lia). rewrite bind_of_ok.
  rewrite (proj2 (Z.ltb_ge _ _)) by lia. cbn [reject_if]. rewrite bind_of_ok.
  rewrite (app_assoc pre), (str_at_parse (pre ++ be_bytes 2 (len c)) c)
    by (rewrite ?len_app, ?len_be_bytes; lia).
  rewrite Hu, bind_of_ok, app_assoc.
  replace (len pre + 2 + len c) with (len ((pre ++ be_bytes 2 (len c)) ++ c))
    by (rewrite !len_app, len_be_bytes; lia).
  rewrite IH; [|lia|done|rewrite len_app, len_cons, len_nil; lia].
  rewrite <- (app_assoc cs). f_equal. f_equal. rewrite !len_app, len_be_bytes. lia.
Qed.

(** Everything [decode_cap] accepts, and nothing else, is the encoding of a
    capability whose fields come from its caveats. *)
Definition token_ok (c : Cap) : Prop :=
  wf_cap c /\ utf8_valid (loc c) = true /\ utf8_valid (id c) = true /\
  Forall (fun x => utf8_valid x = true) (caveats c) /\
  len (loc c) <= MAX_FIELD_BYTES /\ len (id c) <= MAX_FIELD_BYTES /\
  len (encode c) <= MAX_TOKEN_BYTES.

Lemma encode_shape c suf :
  encode c ++ suf =
  (bs "FMAC" ++ [u8 1]) ++ be_bytes 2 (len (loc c)) ++ loc c ++ be_bytes 2 (len (id c)) ++
  id c ++ caveats_bytes (caveats c) ++ arr_bytes (sig c) ++ suf.
Proof. unfold encode, prefix_bytes. by rewrite <- !app_assoc. Qed.

(** A length-prefixed string of the framing: read it, or fail with an error. *)
Lemma sized_field {A} (Q : Result A -> Prop) pre suf slack (c : Z -> bool) e
    (K : Z -> str -> Result A) :
  2 <= len suf ->
  (forall n, c n = (len (pre ++ suf) <? len pre + 2 + n + slack)) ->
  0 <= slack ->
  (forall e', Q (Err e')) ->
  (forall s suf', suf = be_bytes 2 (len s) ++ s ++ suf' -> utf8_valid s = true ->
     len s <= MAX_FIELD_BYTES -> slack <= len suf' -> Q (K (len s) s)) ->
  Q (n ← u16_at (pre ++ suf) (len pre);
     _ ← reject_if (c n) e;
     s ← str_at (pre ++ suf) (len pre + 2) (len pre + 2 + n);
     K n s).
Proof.
  intros H2 Hc H0 He Hk. destruct (u16_at_split pre suf H2) as (n & s1 & -> & Hn & ->).
  rewrite bind_of_ok, Hc, !len_app, len_be_bytes.
  destruct (Z.ltb_spec (len pre + (Z.of_nat 2 + len s1)) (len pre + 2 + n + slack)); [apply He|].
  cbn [reject_if]. rewrite bind_of_ok.
  destruct (split_len s1 n) as (s & suf' & -> & <-); [lia|]. rewrite len_app in *.
  rewrite app_assoc, (str_at_parse (pre ++ be_bytes 2 (len s)) s suf')
    by (rewrite ?len_app, ?len_be_bytes; lia).
  destruct (utf8_valid s) eqn:Hu; [|apply He]. rewrite bind_of_ok.
  apply (Hk s suf'); [done|done|unfold MAX_FIELD_BYTES, u16_max; lia|lia].
Qed.

Definition decoded (raw : bytes) (r : Result Cap) : Prop :=
  match r with Ok c => encode c = raw /\ token_ok c | Err _ => True | Panic => False end.

(** After the location and the id: the caveats and the signature. *)
Lemma decode_tail_spec pre lo i0 suf :
  let raw := pre ++ suf in
  pre = (bs "FMAC" ++ [u8 1]) ++ be_bytes 2 (len lo) ++ lo ++ be_bytes 2 (len i0) ++ i0 ->
  utf8_valid lo = true -> utf8_valid i0 = true ->
  len lo <= MAX_FIELD_BYTES -> len i0 <= MAX_FIELD_BYTES ->
  32 <= len suf -> len raw <= MAX_TOKEN_BYTES ->
  decoded raw ('(i, cs) ← caveat_loop (length raw) raw (len pre) [];
    _ ← reject_if (negb (i + 32 =? len raw)) (CapError (bs "cap trailing"));
    tail ← slice_from raw i;
    sig ← (match arr_of 32 tail with Some s => Ok s | None => Panic end);
    cap_from_parts lo i0 cs sig).
Proof.
  intros raw Hpre Hlo Hi0 Hll Hil Hsuf Hmax.
  pose proof (caveat_loop_spec (length raw) pre suf [] Hsuf) as Hloop.
  assert (5 <= len pre) as Hp5.
  { rewrite Hpre, !len_app. change (len (bs "FMAC")) with 4. change (len [u8 1]) with 1.
    pose proof (len_nonneg lo). pose proof (len_nonneg i0). rewrite !len_be_bytes. lia. }
  assert (length raw = length pre + length suf)%nat as Hraw by (unfold raw; apply length_app).
  specialize (Hloop ltac:(unfold len in *; lia)). fold raw in Hloop.
  destruct (caveat_loop (length raw) raw (len pre) []) as [[i cs]| |]; [|done..].
  destruct Hloop as (nw & tail & -> & -> & -> & Ht & Hnw). rewrite bind_of_ok. cbn [app].
  assert (raw = (pre ++ caveats_bytes nw) ++ tail) as Eraw by (unfold raw; apply app_assoc).
  clearbody raw. subst raw.
  rewrite (proj2 (Z.eqb_eq _ _)) by (rewrite (len_app _ tail); lia).
  cbn [negb reject_if]. rewrite bind_of_ok, slice_from_app, bind_of_ok.
  destruct (arr_of_is_some 32 tail) as [sg Hsg]; [unfold len in Ht; lia|]. rewrite Hsg, bind_of_ok.
  apply arr_of_some in Hsg as <-.
  destruct (cap_from_parts lo i0 nw sg) as [c|e|] eqn:Ec;
    [|done|by apply (no_panic_cap_from_parts lo i0 nw sg)].
  apply cap_from_parts_ok in Ec as [Hp ->].
  assert (encode (mkCap lo i0 nw sg (parsed c)) =
    (pre ++ caveats_bytes nw) ++ arr_bytes sg) as He.
  { rewrite <- (app_nil_r (encode _)), encode_shape. cbn [loc id caveats sig].
    rewrite Hpre, app_nil_r. by rewrite <- !app_assoc. }
  split; [done|]. unfold token_ok, wf_cap. rewrite He. by split_and!.
Qed.

Lemma decode_cap_spec raw : decoded raw (decode_cap raw).
Proof.
  unfold decode_cap.
  destruct (Z.ltb_spec MAX_TOKEN_BYTES (len raw)) as [H1|H1]; [done|].
  destruct (Z.ltb_spec (len raw) (4 + 1 + 2 + 2 + 32)) as [H2|H2]; [done|].
  cbn [reject_if]. rewrite !bind_of_ok.
  destruct (split_len raw 4) as (magic & s1 & -> & Hm); [lia|]. rewrite len_app in H1, H2.
  destruct s1 as [|b4 s2]; [rewrite len_nil in *; lia|]. rewrite len_cons in H1, H2.
  rewrite (slice_app_exact [] magic (b4 :: s2) 4 ltac:(rewrite len_nil; lia)), bind_of_ok.
  replace (index (magic ++ b4 :: s2) 4) with (@Ok Error _ b4)
    by (rewrite <- (index_app (E:=Error) magic b4 s2); by rewrite Hm).
  rewrite bind_of_ok.
  destruct (bytes_eqb magic (bs "FMAC")) eqn:Em; [|done]. apply bytes_eqb_true in Em.
  destruct (Z.eqb_spec (b2z b4) 1) as [E4|]; [|done]. cbn [negb orb reject_if].
  rewrite bind_of_ok. subst magic.
  assert (b4 = u8 1) as -> by (apply (inj b2z); rewrite E4; done).
  change (bs "FMAC" ++ u8 1 :: s2) with ((bs "FMAC" ++ [u8 1]) ++ s2) in *.
  set (pre0 := bs "FMAC" ++ [u8 1]). change 5 with (len pre0). cbv zeta.
  apply (sized_field (decoded (pre0 ++ s2)) pre0 s2 34); [lia| |lia|done|].
  { intros n. f_equal. lia. }
  intros lo s4 -> Hul Hll Hs4. rewrite !app_assoc.
  set (pre1 := (pre0 ++ be_bytes 2 (len lo)) ++ lo).
  replace (len pre0 + 2 + len lo) with (len pre1)
    by (unfold pre1; rewrite !len_app, len_be_bytes; lia).
  apply (sized_field (decoded (pre1 ++ s4)) pre1 s4 32); [lia|done|lia|done|].
  intros i0 s6 -> Hui Hil Hs6. rewrite !app_assoc.
  set (pre2 := (pre1 ++ be_bytes 2 (len i0)) ++ i0).
  replace (len pre1 + 2 + len i0) with (len pre2)
    by (unfold pre2; rewrite !len_app, len_be_bytes; lia).
  apply decode_tail_spec; [|done..|].
  - unfold pre2, pre1. by rewrite <- !app_assoc.
  - unfold pre2, pre1. rewrite !len_app, !len_be_bytes in *.
    change (len pre0) with 5. change (len (bs "FMAC")) with 4 in *. lia.
Qed.

Lemma sized_field_parse {A} raw i pre s suf' (c : Z -> bool) e (K : Z -> str -> Result A) :
  raw = pre ++ be_bytes 2 (len s) ++ s ++ suf' -> i = len pre ->
  utf8_valid s = true -> len s <= MAX_FIELD_BYTES -> c (len s) = false ->
  (n ← u16_at raw i;
   _ ← reject_if (c n) e;
   s' ← str_at raw (i + 2) (i + 2 + n);
   K n s') = K (len s) s.
Proof.
  intros -> -> Hu Hl Hc. pose proof (len_nonneg s).
  rewrite u16_at_parse by (unfold MAX_FIELD_BYTES, u16_max in *; lia).
  rewrite bind_of_ok, Hc. cbn [reject_if]. rewrite bind_of_ok.
  rewrite app_assoc, (str_at_parse (pre ++ be_bytes 2 (len s)) s suf')
    by (rewrite ?len_app, ?len_be_bytes; lia). by rewrite Hu.
Qed.

Lemma caveats_len st cs st' :
  try_fold caveat_step st cs = Ok st' -> Forall (fun x => len x <= MAX_FIELD_BYTES) cs.
Proof.
  revert st; induction cs as [|c cs IH]; intros st; simpl; [constructor|].
  intros (s1 & H1 & H2)%bind_ok. constructor; [|by eapply IH].
  destruct st. unfold caveat_step in H1. apply bind_ok in H1 as (n & Hn & _).
  unfold checked_u16_len in Hn. apply bind_ok in Hn as (u & Hu%reject_if_ok%Z.ltb_ge & _). done.
Qed.

Lemma cap_decode_encode c : token_ok c -> decode_cap (encode c) = Ok c.
Proof.
  intros (Hw & Hul & Hui & Hc & Hll & Hil & Hmax).
  pose proof Hw as (Hn & st & Hst & _)%parse_caveats_ok.
  assert (Forall (fun x => utf8_valid x = true /\ len x <= MAX_FIELD_BYTES) (caveats c)) as Hcs.
  { apply Forall_and. split; [done|]. by apply caveats_len in Hst. }
  pose proof (encode_shape c []) as He. rewrite !app_nil_r in He.
  set (pre0 := bs "FMAC" ++ [u8 1]) in He. change (len (bs "FMAC")) with 4.
  pose proof (len_nonneg (caveats_bytes (caveats c))).
  pose proof (len_nonneg (loc c)). pose proof (len_nonneg (id c)).
  assert (len (encode c) = 41 + len (loc c) + len (id c) + len (caveats_bytes (caveats c))) as Hlen.
  { rewrite He, !len_app, !len_be_bytes, arr_length_len. change (len pre0) with 5. lia. }
  unfold decode_cap. rewrite (proj2 (Z.ltb_ge _ _)) by lia. cbn [reject_if]. rewrite bind_of_ok.
  rewrite (proj2 (Z.ltb_ge _ _)) by lia. cbn [reject_if]. rewrite bind_of_ok.
  replace (slice (encode c) 0 4) with (@Ok Error _ (bs "FMAC"))
    by (rewrite He; unfold pre0; rewrite <- app_assoc; symmetry; by apply (slice_app_exact [])).
  rewrite bind_of_ok. replace (index (encode c) 4) with (@Ok Error _ (u8 1)) by (by rewrite He).
  rewrite bind_of_ok. change (bytes_eqb (bs "FMAC") (bs "FMAC")) with true.
  change (b2z (u8 1) =? 1) with true. cbn [negb orb reject_if]. rewrite bind_of_ok.
  change 5 with (len pre0). cbv zeta.
  remember (encode c) as raw eqn:Eraw. clear Eraw.
  rewrite (sized_field_parse raw (len pre0) pre0 (loc c) _ _ _ _ He);
    [|done|done|done|apply Z.ltb_ge; change (len pre0) with 5; lia].
  set (pre1 := (pre0 ++ be_bytes 2 (len (loc c))) ++ loc c).
  assert (len pre0 + 2 + len (loc c) = len pre1) as Hp1
    by (unfold pre1; rewrite !len_app, len_be_bytes; lia).
  rewrite (sized_field_parse raw (len pre0 + 2 + len (loc c)) pre1 (id c)
    (caveats_bytes (caveats c) ++ arr_bytes (sig c)));
    [|rewrite He; unfold pre1; by rewrite <- !app_assoc|done|done|done
     |apply Z.ltb_ge; change (len pre0) with 5; lia].
  set (pre2 := (pre1 ++ be_bytes 2 (len (id c))) ++ id c).
  replace (len pre0 + 2 + len (loc c) + 2 + len (id c)) with (len pre2)
    by (unfold pre2; rewrite !len_app, len_be_bytes; lia).
  assert (raw = pre2 ++ caveats_bytes (caveats c) ++ arr_bytes (sig c)) as He2
    by (rewrite He; unfold pre2, pre1; by rewrite <- !app_assoc).
  clear He. subst raw.
  rewrite caveat_loop_parse; 
    [|by rewrite arr_length_len|rewrite !length_app; pose proof (arr_length (sig c)); lia
     |done|rewrite len_nil; lia].
  rewrite bind_of_ok. cbn [app].
  rewrite (proj2 (Z.eqb_eq _ _))
    by (rewrite (app_assoc pre2), (len_app _ (arr_bytes _)), arr_length_len; lia).
  cbn [negb reject_if]. rewrite bind_of_ok, (app_assoc pre2), slice_from_app, bind_of_ok.
  rewrite arr_of_bytes, bind_of_ok.
  apply cap_from_parts_ok. split; [done|by destruct c].
Qed.

Lemma mint_ok `{HM : Hmac} root lo i cs c :
  mint root lo i cs = Ok c <->
  len lo <= MAX_FIELD_BYTES /\ len i <= MAX_FIELD_BYTES /\ parse_caveats cs = Ok (parsed c) /\
  c = mkCap lo i cs (sign_chain root lo i cs) (parsed c).
Proof.
  unfold mint, checked_u16_len. split.
  - intros (n1 & (u1 & H1%reject_if_ok%Z.ltb_ge & _)%bind_ok & H)%bind_ok.
    apply bind_ok in H as (n2 & (u2 & H2%reject_if_ok%Z.ltb_ge & _)%bind_ok & H).
    apply bind_ok in H as (p & _ & [Hp Hc]%cap_from_parts_ok). by split_and!.
  - intros (H1 & H2 & H3 & H4). rewrite (proj2 (Z.ltb_ge _ _) H1), (proj2 (Z.ltb_ge _ _) H2).
    cbn [reject_if]. rewrite !bind_of_ok, H3, bind_of_ok. by apply cap_from_parts_ok.
Qed.

Lemma caveats_fit cs st st' :
  try_fold caveat_step st cs = Ok st' ->
  Forall (fun x => checked_u16_len x (bs "caveat") = Ok (len x)) cs.
Proof.
  intros H%caveats_len. eapply Forall_impl; [exact H|]. intros x Hx. cbv beta in Hx.
  unfold checked_u16_len. rewrite (proj2 (Z.ltb_ge _ _)) by lia. cbn [reject_if].
  rewrite bind_of_ok, Z.mod_small; [done|].
  pose proof (len_nonneg x). unfold MAX_FIELD_BYTES, u16_max in Hx. lia.
Qed.

Lemma attenuate_fold_ok `{HM : Hmac} cs sg extra :
  Forall (fun x => checked_u16_len x (bs "caveat") = Ok (len x)) extra ->
  try_fold (fun '(cs, sg) x =>
      _ ← checked_u16_len x (bs "caveat");
      Ok (cs ++ [x], chain_step sg x)) (cs, sg) extra =
  Ok (cs ++ extra, fold_left chain_step extra sg).
Proof.
  intros H. revert cs sg. induction H as [|x l Hx H IH]; intros cs sg.
  { cbn. by rewrite app_nil_r. }
  cbn [try_fold fold_left]. rewrite Hx, bind_of_ok, bind_of_ok, IH. by rewrite <- app_assoc.
Qed.

(** The holder of a capability, knowing only its signature, obtains exactly
    the capability that the owner of the root key would mint. *)
Lemma attenuate_is_mint `{HM : Hmac} root lo i cs extra c :
  mint root lo i cs = Ok c ->
  forall c', attenuate_holder c extra = Ok c' <-> mint root lo i (cs ++ extra) = Ok c'.
Proof.
  intros Hm c'. apply mint_ok in Hm as (H1 & H2 & H3 & ->). set (p := parsed c) in *. clearbody p.
  rewrite mint_ok. split.
  - intros (Hc & Hlo & Hi & Hs & Hw)%attenuate_ok. cbn [caveats loc id sig] in *.
    unfold wf_cap in Hw. rewrite Hc in Hw. split_and!; [done..|].
    rewrite sign_chain_fold, fold_left_app, <- sign_chain_fold, <- Hs, <- Hc, <- Hlo, <- Hi.
    by destruct c'.
  - intros (_ & _ & Hp & Hc'). unfold attenuate_holder. cbn [caveats loc id sig].
    pose proof Hp as (Hn & st & Hst & Hp')%parse_caveats_ok. rewrite len_app in Hn.
    rewrite (proj2 (Z.ltb_ge _ _)) by lia. cbn [reject_if]. rewrite bind_of_ok.
    pose proof (caveats_fit _ _ _ Hst) as [_ Hex]%Forall_app.
    rewrite (attenuate_fold_ok _ _ _ Hex), bind_of_ok.
    apply cap_from_parts_ok. split; [done|].
    by rewrite sign_chain_fold, <- fold_left_app, <- sign_chain_fold.
Qed.

Lemma mint_verifies `{HM : Hmac} root lo i cs c : mint root lo i cs = Ok c -> verify root c = Ok tt.
Proof.
  intros (_ & _ & _ & ->)%mint_ok. apply verify_ok. cbn [sig caveats loc id].
  apply sign_chain_fold.
Qed.

Lemma mint_total `{HM : Hmac} root lo i cs p :
  len lo <= MAX_FIELD_BYTES -> len i <= MAX_FIELD_BYTES -> parse_caveats cs = Ok p ->
  exists c, mint root lo i cs = Ok c /\ verify root c = Ok tt /\ parsed c = p.
Proof.
  intros Hl Hi Hp. exists (mkCap lo i cs (sign_chain root lo i cs) p).
  assert (mint root lo i cs = Ok (mkCap lo i cs (sign_chain root lo i cs) p)) as Hm
    by (by apply mint_ok).
  split; [done|]. split; [by apply mint_verifies in Hm|done].
Qed.

Lemma mint_wf `{HM : Hmac} root lo i cs c : mint root lo i cs = Ok c -> wf_cap c.
Proof. intros (_ & _ & Hp & ->)%mint_ok. done. Qed.

(** The caveats of an attenuated capability go on from those it had. *)
Lemma attenuate_states `{HM : Hmac} c extra c' : wf_cap c -> attenuate_holder c extra = Ok c' ->
  exists st st', parsed c = finish st /\ parsed c' = finish st' /\ restricts st st' /\ (has_ops (caveats c) -> is_Some (st_ops st)).
Proof.
  intros (_ & st & Hst & Hp)%parse_caveats_ok (Hc & _ & _ & _ & Hw)%attenuate_ok.
  unfold wf_cap in Hw. apply parse_caveats_ok in Hw as (_ & st' & Hst' & Hp').
  rewrite Hc, try_fold_app, Hst, bind_of_ok in Hst'. exists st, st'. split_and!; [done..|by eapply caveats_restrict|].
  intros Ho. apply (caveats_ops _ _ _ Hst). by right.
Qed.

Lemma attenuate_restricts `{HM : Hmac} c extra c' op rn now :
  wf_cap c -> attenuate_holder c extra = Ok c' -> allows c' op rn now = Ok tt ->
  limits c op rn now /\ (has_ops (caveats c) -> allows c op rn now = Ok tt).
Proof.
  intros Hw Ha [Hop Hl]%allows_limits. destruct (attenuate_states c extra c' Hw Ha) as (st & st' & Hp & Hp' & Hr & Ho).
  assert (limits c op rn now) as Hlim by by eapply limits_restrict. split; [done|]. intros Hops. apply allows_limits.
  split; [by eapply ops_restrict; eauto|done].
Qed.

Lemma attenuate_keeps_agent `{HM : Hmac} c extra c' a :
  wf_cap c -> attenuate_holder c extra = Ok c' ->
  p_agent (parsed c) = Some a -> p_agent (parsed c') = Some a.
Proof.
  intros (_ & st & Hst & Hp)%parse_caveats_ok (Hc & _ & _ & _ & Hw)%attenuate_ok Ha.
  unfold wf_cap in Hw. apply parse_caveats_ok in Hw as (_ & st' & Hst' & Hp').
  rewrite Hc, try_fold_app, Hst, bind_of_ok in Hst'.
  apply caveats_restrict in Hst' as [_ _ _ _ _ Hr _]. rewrite Hp' in *. rewrite Hp in Ha. by apply Hr.
Qed.

(** ** Lemmas: tokens *)

Lemma no_panic_hex_decode s : no_panic (hex_decode s).
Proof.
  unfold hex_decode. apply no_panic_bind; [auto with forge|]. intros [] H%reject_if_ok.
  apply negb_false_iff in H. by apply hex_decode_loop_even.
Qed.

Lemma decode_cap_iff raw c : decode_cap raw = Ok c <-> encode c = raw /\ token_ok c.
Proof.
  split.
  - intros H. pose proof (decode_cap_spec raw) as Hd. rewrite H in Hd. exact Hd.
  - intros [<- H]. by apply cap_decode_encode.
Qed.

Lemma no_panic_decode_cap raw : no_panic (decode_cap raw).
Proof. intros H. pose proof (decode_cap_spec raw) as Hd. by rewrite H in Hd. Qed.

Lemma no_panic_from_token s : no_panic (from_token s).
Proof.
  unfold from_token. apply no_panic_bind; [auto with forge|intros ??].
  apply no_panic_bind; [apply no_panic_hex_decode|intros ??]. apply no_panic_decode_cap.
Qed.

Lemma strip_token c : strip_prefix (to_token c) (bs "fmac1_") = Some (hex_encode (encode c)).
Proof. by apply strip_prefix_spec. Qed.

Lemma from_to_token c : token_ok c -> from_token (to_token c) = Ok c.
Proof.
  intros H. unfold from_token. rewrite strip_token.
  change (default (to_token c) (Some (hex_encode (encode c)))) with (hex_encode (encode c)).
  rewrite len_hex_encode, (proj2 (Z.ltb_ge _ _)).
  - cbn [reject_if]. rewrite bind_of_ok. rewrite hex_decode_encode, bind_of_ok. by apply cap_decode_encode.
  - destruct H as (_ & _ & _ & _ & _ & _ & H). unfold MAX_TOKEN_BYTES in *. lia.
Qed.

Lemma from_token_inv s c :
  from_token s = Ok c ->
  hex_decode (default s (strip_prefix s (bs "fmac1_"))) = Ok (encode c) /\ token_ok c.
Proof.
  unfold from_token. intros (u & _ & H)%bind_ok. apply bind_ok in H as (raw & Hr & H).
  apply decode_cap_iff in H as [<- H]. done.
Qed.

(** ** Lemmas: the integrator capability *)

Definition integrator_reads : list str :=
  [bs "main"; bs "heads/agents/*"; bs "forks/*"; bs "tags/*"; bs "conflicts/*"].

Definition integrator_parsed : ParsedCaveats :=
  mkParsed {[Read; Merge; Seal; Grant]} []
    (<[Read := [integrator_reads]]> (<[Merge := [[bs "main"]]]>
      (<[Seal := [[bs "main"; bs "tags/*"]]]> ∅))) [] None None false.

Lemma integrator_parses :
  parse_caveats [bs "ops=read,merge,seal,grant";
     bs "allow=read:main,heads/agents/*,forks/*,tags/*,conflicts/*";
     bs "allow=merge:main"; bs "allow=seal:main,tags/*"] = Ok integrator_parsed.
Proof. vm_compute. reflexivity. Qed.

Lemma root_parses :
  parse_caveats [bs "ops=read,write,branch,merge,grant,seal"] =
    Ok (mkParsed {[Read; Write; Branch; Merge; Grant; Seal]} [] ∅ [] None None false).
Proof. vm_compute. reflexivity. Qed.

Lemma bytes_eqb_iff a b : bytes_eqb a b = true <-> b = a.
Proof. split; [by intros ->%bytes_eqb_true|intros ->; by apply bytes_eqb_true]. Qed.

Definition integrator_may (op : Op) (name : str) : Prop :=
  match op with
  | Read => name = bs "main" \/ starts_with name (bs "heads/agents/") = true \/
            starts_with name (bs "forks/") = true \/ starts_with name (bs "tags/") = true \/
            starts_with name (bs "conflicts/") = true
  | Merge => name = bs "main"
  | Seal => name = bs "main" \/ starts_with name (bs "tags/") = true
  | Grant => True
  | Write | Branch => False
  end.

Lemma matches_reads name :
  matches_any integrator_reads name = true <-> integrator_may Read name.
Proof.
  change (matches_any integrator_reads name) with
    (bytes_eqb (bs "main") name || (starts_with name (bs "heads/agents/") ||
     (starts_with name (bs "forks/") || (starts_with name (bs "tags/") ||
     (starts_with name (bs "conflicts/") || false))))).
  by rewrite orb_false_r, !orb_true_iff, bytes_eqb_iff.
Qed.

Lemma matches_main name : matches_any [bs "main"] name = true <-> name = bs "main".
Proof.
  change (matches_any [bs "main"] name) with (bytes_eqb (bs "main") name || false).
  by rewrite orb_false_r, bytes_eqb_iff.
Qed.

Lemma matches_seal name :
  matches_any [bs "main"; bs "tags/*"] name = true <-> integrator_may Seal name.
Proof.
  change (matches_any [bs "main"; bs "tags/*"] name) with
    (bytes_eqb (bs "main") name || (starts_with name (bs "tags/") || false)).
  by rewrite orb_false_r, orb_true_iff, bytes_eqb_iff.
Qed.

(** One set of globs, or none, restricts the operation. *)
Lemma scoped_sets (m : option (list (list str))) sets name (Q : Prop) :
  m = Some [sets] -> (matches_any sets name = true <-> Q) ->
  (forall l, m = Some l -> Forall (fun s => matches_any s name = true) l) <-> Q.
Proof.
  intros -> HQ. split.
  - intros H. specialize (H _ eq_refl). apply HQ. by apply (proj1 (Forall_cons _ _ _)) in H as [H _].
  - intros H l [= <-]. constructor; [by apply HQ|constructor].
Qed.

Lemma integrator_allows c op name now :
  parsed c = integrator_parsed ->
  allows c op (Some name) now = Ok tt <-> integrator_may op name.
Proof.
  intros Hc. rewrite allows_ok, Hc.
  assert (forall P, (forall n : str, Some name = Some n -> P n) <-> P name) as Hn
    by (intros P; split; [auto|by intros ? n [= <-]]).
  rewrite Hn. unfold integrator_parsed at 1 3 4 5.
  cbn [p_agent_conflict p_time_le p_ref_not p_ref_sets].
  assert (forall P Q : Prop, false = false /\ P /\ (forall t : Z, None = Some t -> now <= t) /\
    Forall (fun n => ref_matches n name = false) [] /\
    Forall (fun s => matches_any s name = true) [] /\ Q <-> P /\ Q) as ->.
  { intros P Q. split; [tauto|]. intros [HP HQ]. by repeat (split; [done || constructor|]). }
  destruct op.
  - rewrite (scoped_sets _ _ _ _ eq_refl (matches_reads name)). split; [tauto|]. split; [|done]. set_solver.
  - split; [|done]. intros [H _]. by refine (proj1 (bool_decide_eq_false _) _ H).
  - split; [|done]. intros [H _]. by refine (proj1 (bool_decide_eq_false _) _ H).
  - rewrite (scoped_sets _ _ _ _ eq_refl (matches_main name)). split; [tauto|]. split; [|done]. set_solver.
  - split; [done|]. intros _. split; [set_solver|]. intros l Hl. vm_compute in Hl. discriminate Hl.
  - rewrite (scoped_sets _ _ _ _ eq_refl (matches_seal name)). split; [tauto|]. split; [|done]. set_solver.
Qed.

(** A capability without an [ops=] caveat authorizes nothing, but its holder
    can append one and obtain a capability that authorizes it: attenuation
    is monotone only from capabilities that carry an [ops=] caveat. *)
Lemma attenuation_widens_without_ops `{HM : Hmac} root :
  exists c c', mint root (bs "forge") (bs "w1") [bs "agent=w1"] = Ok c /\
    attenuate_holder c [bs "ops=merge"] = Ok c' /\ verify root c' = Ok tt /\
    (forall op rn now, allows c op rn now = Err (Denied (bs "cap missing op {}"))) /\
    (forall rn now, allows c' Merge rn now = Ok tt).
Proof.
  set (p := mkParsed ∅ [] ∅ [] None (Some (bs "w1")) false).
  set (c := mkCap (bs "forge") (bs "w1") [bs "agent=w1"] (sign_chain root (bs "forge") (bs "w1") [bs "agent=w1"]) p).
  assert (mint root (bs "forge") (bs "w1") [bs "agent=w1"] = Ok c) as Hc by (apply mint_ok; done).
  set (p' := mkParsed {[Merge]} [] ∅ [] None (Some (bs "w1")) false).
  set (cs' := [bs "agent=w1"; bs "ops=merge"]).
  set (c' := mkCap (bs "forge") (bs "w1") cs' (sign_chain root (bs "forge") (bs "w1") cs') p').
  assert (mint root (bs "forge") (bs "w1") cs' = Ok c') as Hc' by (apply mint_ok; done).
  exists c, c'. split; [done|]. split; [by apply (attenuate_is_mint _ _ _ _ _ _ Hc)|].
  split; [by apply mint_verifies in Hc'|]. split; [done|].
  intros rn now. apply allows_ok. split; [done|]. split; [simpl; set_solver|]. split; [done|].
  intros name _. repeat constructor. intros l Hl. discriminate Hl.
Qed.

(** ** Properties *)

Section properties.
Context {HM : Hmac}.

(** C28: attenuation keeps every limit (I13, but for a capability without
    operations).  Whatever caveats a holder appends to a capability whose fields
    are what its caveats parse to, what the result authorizes is within the
    limits the capability had: one agent, its time, and the refs it names for
    the operation or for all.  If it carries an [ops=] caveat, the operation, ref
    and time were already authorized by it; if it carries none it authorizes
    nothing itself, and an appended [ops=] can then name operations
    ([attenuation_widens_without_ops]).  An agent identity that it fixes is
    kept. *)
Theorem attenuation_keeps_limits c extra c' (Hwf : wf_cap c) (Ha : attenuate_holder c extra = Ok c') :
  (forall op rn now, allows c' op rn now = Ok tt ->
    limits c op rn now /\ (has_ops (caveats c) -> allows c op rn now = Ok tt)) /\
  (forall a, p_agent (parsed c) = Some a -> agent_id c' = a).
Proof.
  split; [intros op rn now; by apply (attenuate_restricts c extra)|].
  intros a H. unfold agent_id. by rewrite (attenuate_keeps_agent c extra c' a).
Qed.

(** Attenuation by the holder, who knows only the signature, yields
    exactly the capability the owner of the root key mints for the longer
    list of caveats, and fails exactly when that minting fails; both verify under the
    root key. *)
Theorem holder_attenuation_is_minting root lo i cs extra c (Hm : mint root lo i cs = Ok c) :
  verify root c = Ok tt /\
  (forall c', attenuate_holder c extra = Ok c' <-> mint root lo i (cs ++ extra) = Ok c') /\
  (forall c', attenuate_holder c extra = Ok c' -> verify root c' = Ok tt).
Proof.
  split; [by apply mint_verifies in Hm|]. split; [by apply attenuate_is_mint|].
  intros c' H%(attenuate_is_mint _ _ _ _ _ _ Hm). by apply mint_verifies in H.
Qed.

(** The token codec.  [decode_cap] accepts exactly the encodings of
    capabilities within the limits, so it is canonical; a token made from
    one is read back; and no token whatsoever makes the decoder panic. *)
Theorem capability_token_codec :
  (forall raw c, decode_cap raw = Ok c <-> encode c = raw /\ token_ok c) /\
  (forall c, token_ok c -> from_token (to_token c) = Ok c) /\
  (forall s, no_panic (from_token s)).
Proof.
  split; [apply decode_cap_iff|]. split; [apply from_to_token|apply no_panic_from_token].
Qed.

(** The two capabilities the repository mints for itself verify, and
    the integrator's authority over a ref is exactly [integrator_may]: it
    merges only into [main], seals only [main] and tags, reads only the
    listed name spaces, and never writes or branches; the root capability
    authorizes everything. *)
Theorem integrator_scope root :
  (exists c, mint_integrator root = Ok c /\ verify root c = Ok tt /\
     forall op name now, allows c op (Some name) now = Ok tt <-> integrator_may op name) /\
  (exists c, mint_root root = Ok c /\ verify root c = Ok tt /\
     forall op rn now, allows c op rn now = Ok tt).
Proof.
  split.
  - destruct (mint_total root (bs "forge") (bs "integrator") _ _ ltac:(done) ltac:(done)
      integrator_parses) as (c & Hc & Hv & Hp).
    exists c. split; [exact Hc|]. split; [exact Hv|]. intros. by apply integrator_allows.
  - destruct (mint_total root (bs "forge") (bs "root") _ _ ltac:(done) ltac:(done)
      root_parses) as (c & Hc & Hv & Hp).
    exists c. split; [exact Hc|]. split; [exact Hv|].
    intros op rn now. apply allows_ok. rewrite Hp. split; [done|].
    split; [destruct op; simpl; set_solver|]. split; [done|].
    intros name _. repeat constructor. intros l Hl. discriminate Hl.
Qed.
End properties.

(** ** Witnesses *)

(** A stand-in for HMAC: sums of the key and the message. *)
Definition sum_hmac : Hmac := fun key data =>
  default ZERO (arr_of 32 (be_bytes 32 (257 * be_val key + be_val data))).

Definition sample_caveats : list str := [bs "ops=read,merge"; bs "ref=main,heads/*"].
Definition sample_extra : list str := [bs "ops=read"; bs "time<=10"].
Definition sample_parsed : ParsedCaveats :=
  mkParsed {[Read; Merge]} [[bs "main"; bs "heads/*"]] ∅ [] None None false.
Definition sample_parsed' : ParsedCaveats :=
  mkParsed {[Read]} [[bs "main"; bs "heads/*"]] ∅ [] (Some 10) None false.
Definition sample_cap (cs : list str) (p : ParsedCaveats) : Cap :=
  mkCap (bs "forge") (bs "w") cs
    (sign_chain (HM:=sum_hmac) (bs "key") (bs "forge") (bs "w") cs) p.

Lemma sample_mint :
  mint (HM:=sum_hmac) (bs "key") (bs "forge") (bs "w") sample_caveats =
    Ok (sample_cap sample_caveats sample_parsed).
Proof. apply mint_ok. split_and!; [done|done| |done]. vm_compute. reflexivity. Qed.

Lemma sample_attenuate :
  attenuate_holder (HM:=sum_hmac) (sample_cap sample_caveats sample_parsed) sample_extra =
    Ok (sample_cap (sample_caveats ++ sample_extra) sample_parsed').
Proof.
  apply (attenuate_is_mint _ _ _ _ _ _ sample_mint), mint_ok.
  split_and!; [done|done| |done]. vm_compute. reflexivity.
Qed.

Lemma attenuation_keeps_limits_witness :
  allows (sample_cap (sample_caveats ++ sample_extra) sample_parsed') Read (Some (bs "main")) 10 = Ok tt /\
  allows (sample_cap sample_caveats sample_parsed) Read (Some (bs "main")) 10 = Ok tt.
Proof.
  assert (forall H : allows (sample_cap (sample_caveats ++ sample_extra) sample_parsed') Read
    (Some (bs "main")) 10 = Ok tt,
    allows (sample_cap sample_caveats sample_parsed) Read (Some (bs "main")) 10 = Ok tt) as Hm.
  { intros H. refine (proj2 (proj1 (attenuation_keeps_limits (HM:=sum_hmac) _ sample_extra _ _ sample_attenuate) _ _ _ H) _).
    - exact (mint_wf (HM:=sum_hmac) _ _ _ _ _ sample_mint).
    - apply Exists_cons_hd. reflexivity. }
  assert (allows (sample_cap (sample_caveats ++ sample_extra) sample_parsed') Read
    (Some (bs "main")) 10 = Ok tt) as Hr by (cbn; reflexivity).
  split; [exact Hr|exact (Hm Hr)].
Defined.

Lemma holder_attenuation_is_minting_witness :
  verify (HM:=sum_hmac) (bs "key") (sample_cap sample_caveats sample_parsed) = Ok tt.
Proof.
  exact (proj1 (holder_attenuation_is_minting (HM:=sum_hmac) _ _ _ _ [] _ sample_mint)).
Defined.
