(* ===== verification/TreeStore.v ===== *)
(** * The trait [TreeStore] (crates/forge-core/src/tree.rs) and the trees it holds

    The interface [apply_overlay], the name spaces and the merge are written
    against.  The operations are the trait's; the laws are what its callers
    rely on: a tree that was put is read back, nothing that was readable
    changes, and an identifier names one tree.  Over a content-addressed store
    the laws hold as long as no two stored objects collide under the hash;
    [ObjectStore] builds an instance. *)

From S2P Require Import Prelude RustStd Types Tree Object.

Class TreeStore (S : Type) := {
  get_tree : ObjectId -> stateM Error S Tree;
  put_tree : Tree -> stateM Error S ObjectId
}.

Class TreeStoreLaws (S : Type) `{!TreeStore S} := {
  (** The store is well formed. *)
  ts_inv : S -> Prop;
  (** The storage itself failed: not an answer about the trees it holds. *)
  ts_fault : Error -> Prop;
  (** Objects may be published. *)
  ts_writable : S -> Prop;
  (** The tree the store holds under an identifier. *)
  ts_holds : S -> ObjectId -> Tree -> Prop;
  ts_holds_wf s id t : ts_inv s -> ts_holds s id t -> wf_tree t;
  ts_holds_fun s id t t' : ts_inv s -> ts_holds s id t -> ts_holds s id t' -> t = t';
  get_tree_spec s id : ts_inv s ->
    wp (get_tree id) s (fun r s' => ts_inv s' /\ (ts_writable s -> ts_writable s') /\
      (forall i t, ts_holds s' i t <-> ts_holds s i t) /\
      match r with
      | Ok t => ts_holds s id t
      | Err e => ts_fault e \/ forall t, ~ ts_holds s id t
      | Panic => False
      end);
  put_tree_spec s t : ts_inv s -> wf_tree t ->
    wp (put_tree t) s (fun r s' => ts_inv s' /\ (ts_writable s -> ts_writable s') /\
      (forall i u, ts_holds s i u -> ts_holds s' i u) /\
      match r with
      | Ok id => ts_holds s' id t
      | Err e => ts_fault e \/ (ts_writable s -> MAX_TREE_ENTRIES < len (entries t))
      | Panic => False
      end)
}.

(** ** Trees that are entirely in the store, and the files below them *)

(** A file: its blob and its executable bit. *)
Abbreviation FileId := (ObjectId * bool)%type.

Section files.
Context {St : Type} `{TSL : TreeStoreLaws St}.
Implicit Types (s : St) (t : Tree) (id : ObjectId) (p : list str).

(** The trees below [id] are held by the store, at most [n] deep, and satisfy
    [Q]. *)
Fixpoint complete (Q : Tree -> Prop) s (n : nat) id : Prop :=
  match n with
  | O => False
  | S n' => exists t, ts_holds s id t /\ Q t /\
      forall e, e ∈ entries t -> e_kind e = KTree -> complete Q s n' (e_id e)
  end.

Definition closed s id : Prop := exists n, complete (fun _ => True) s n id.

(** [file_in s id p f]: from the tree [id] the names [p] lead to the file [f]. *)
Inductive file_in s : ObjectId -> list str -> FileId -> Prop :=
| file_here id t n e :
    ts_holds s id t -> find_entry (entries t) n = Some e -> e_kind e = KBlob ->
    file_in s id [n] (e_id e, e_exec e)
| file_below id t n e p f :
    ts_holds s id t -> find_entry (entries t) n = Some e -> e_kind e = KTree ->
    file_in s (e_id e) p f -> file_in s id (n :: p) f.

(** [s'] holds at least what [s] holds. *)
Record extends s s' : Prop := mk_extends {
  ext_inv : ts_inv s';
  ext_writable : ts_writable s -> ts_writable s';
  ext_holds : forall id t, ts_holds s id t -> ts_holds s' id t
}.

Lemma extends_refl s : ts_inv s -> extends s s.
Proof. by split. Qed.
Lemma extends_trans s1 s2 s3 : extends s1 s2 -> extends s2 s3 -> extends s1 s3.
Proof. intros [] []. split; auto. Qed.

Lemma complete_mono Q s s' n id :
  (forall i t, ts_holds s i t -> ts_holds s' i t) -> complete Q s n id -> complete Q s' n id.
Proof.
  intros He. revert id; induction n as [|n IH]; intros id; [done|].
  intros (t & Ht & HQ & Hc). exists t. eauto 10.
Qed.

Lemma complete_le Q s n m id : complete Q s n id -> (n <= m)%nat -> complete Q s m id.
Proof.
  revert m id; induction n as [|n IH]; intros m id; [done|].
  intros (t & Ht & HQ & Hc) Hle. destruct m as [|m]; [lia|].
  exists t. split; [done|]. split; [done|]. intros e He Hk. apply IH; [auto|lia].
Qed.

Lemma complete_weaken (Q Q' : Tree -> Prop) s n id :
  (forall t, Q t -> Q' t) -> complete Q s n id -> complete Q' s n id.
Proof.
  intros HQ. revert id; induction n as [|n IH]; intros id; [done|].
  intros (t & Ht & HQt & Hc). exists t. eauto 10.
Qed.

Lemma complete_closed Q s n id : complete Q s n id -> closed s id.
Proof. intros H. exists n. by eapply complete_weaken; [|exact H]. Qed.

Lemma closed_mono s s' id : extends s s' -> closed s id -> closed s' id.
Proof. intros [_ _ He] [n Hn]. exists n. by apply (complete_mono _ s). Qed.

(** A tree is closed when it is held and its subtrees are closed. *)
Lemma closed_intro s id t :
  ts_holds s id t -> (forall e, e ∈ entries t -> e_kind e = KTree -> closed s (e_id e)) ->
  closed s id.
Proof.
  intros Ht Hc.
  assert (exists n, forall e, e ∈ entries t -> e_kind e = KTree ->
    complete (fun _ => True) s n (e_id e)) as [n Hn].
  { induction (entries t) as [|e l IH]; [exists O; intros e He; by apply elem_of_nil in He|].
    destruct IH as [n Hn]; [intros e' He'; apply Hc; by right|].
    destruct (decide (e_kind e = KTree)) as [Hk|Hk].
    - destruct (Hc e ltac:(by left) Hk) as [m Hm]. exists (Nat.max n m).
      intros e' [->|He']%elem_of_cons Hk'.
      + eapply complete_le; [done|lia].
      + eapply complete_le; [by apply Hn|lia].
    - exists n. intros e' [->|He']%elem_of_cons Hk'; [done|auto]. }
  exists (S n). by exists t.
Qed.

Lemma closed_inv s id :
  closed s id ->
  exists t, ts_holds s id t /\ forall e, e ∈ entries t -> e_kind e = KTree -> closed s (e_id e).
Proof.
  intros [[|n] Hn]; [done|]. destruct Hn as (t & Ht & _ & Hc). exists t. split; [done|].
  intros e He Hk. exists n. auto.
Qed.

Lemma closed_child s id t e :
  ts_inv s -> closed s id -> ts_holds s id t -> e ∈ entries t -> e_kind e = KTree ->
  closed s (e_id e).
Proof.
  intros Hi (t' & Ht' & Hc)%closed_inv Ht. rewrite (ts_holds_fun s id t t' Hi Ht Ht'). apply Hc.
Qed.

Lemma file_in_mono s s' id p f : extends s s' -> file_in s id p f -> file_in s' id p f.
Proof.
  intros [_ _ He]. induction 1; [by eapply file_here; eauto|by eapply file_below; eauto].
Qed.

(** Publishing more objects changes nothing below a tree that is complete. *)
Lemma file_in_shrink s s' id p f :
  ts_inv s' -> (forall i t, ts_holds s i t -> ts_holds s' i t) -> closed s id -> file_in s' id p f -> file_in s id p f.
Proof.
  intros Hi' He Hc Hf. revert Hc; induction Hf as [id t n e Ht Hn Hk|id t n e p f Ht Hn Hk Hf IH];
    intros (t0 & Ht0 & Hc0)%closed_inv; pose proof (He _ _ Ht0) as Ht0';
    rewrite (ts_holds_fun s' id t t0 Hi' Ht Ht0') in *.
  - by eapply file_here.
  - eapply file_below; [done..|]. apply IH, Hc0; [|done].
    by apply find_entry_some in Hn as [? _].
Qed.

Lemma file_in_back s s' id p f :
  ts_inv s -> extends s s' -> closed s id -> file_in s' id p f -> file_in s id p f.
Proof. intros _ [Hi _ He]. by apply file_in_shrink. Qed.

Lemma file_in_names s id p f :
  ts_inv s -> file_in s id p f -> p <> [] /\ Forall valid_name p.
Proof.
  intros Hi. induction 1 as [id t n e Ht Hn Hk|id t n e p f Ht Hn Hk Hf IH];
    (split; [done|]); apply ts_holds_wf in Ht as [Hw _]; try done;
    apply find_entry_some in Hn as [He <-]; rewrite Forall_forall in Hw.
  - constructor; [by apply Hw|constructor].
  - constructor; [by apply Hw|apply IH].
Qed.

Lemma valid_name_plain n : valid_name n -> plain n.
Proof.
  intros (Hl & _ & _ & Hs & _)%valid_name_spec. split; [|done]. intros ->.
  rewrite len_nil in Hl. lia.
Qed.

Lemma file_in_plain s id p f : ts_inv s -> file_in s id p f -> p <> [] /\ Forall plain p.
Proof.
  intros Hi [Hp Hv]%file_in_names; [|done]. split; [done|].
  eapply Forall_impl; [done|]. apply valid_name_plain.
Qed.

(** What the two operations do, in the form the callers use. *)
Lemma get_tree_closed s id (Q : Result Tree -> St -> Prop) :
  ts_inv s -> closed s id ->
  (forall t s', extends s s' -> ts_holds s id t ->
     (forall i u, ts_holds s' i u <-> ts_holds s i u) -> Q (Ok t) s') ->
  (forall e s', extends s s' -> ts_fault e -> Q (Err e) s') ->
  wp (get_tree id) s Q.
Proof.
  intros Hi (t & Ht & _)%closed_inv HQ HE. eapply wp_mono; [by apply get_tree_spec|].
  intros r s' (Hi' & Hw & Hh & Hr).
  assert (extends s s') as He by (split; [done|done|]; intros i u; apply Hh).
  destruct r as [t'|e|]; [by apply HQ|destruct Hr as [Hr|Hr]; [by apply HE|by destruct (Hr t)]|done].
Qed.

(** A tree of files that was just put. *)
Lemma put_leaf s t id s' :
  ts_inv s -> wf_tree t -> (forall e, e ∈ entries t -> e_kind e = KBlob) ->
  put_tree t s = (Ok id, s') -> ts_inv s' /\ ts_holds s' id t /\ closed s' id /\ extends s s'.
Proof.
  intros Hi Hw Hk E. pose proof (wp_elim _ _ _ _ _ (put_tree_spec s t Hi Hw) E) as (Hi' & Hwr & Hh & Ht).
  split; [done|]. split; [done|]. split; [|by split].
  apply (closed_intro s' id t Ht). intros e He Hke. rewrite (Hk e He) in Hke. discriminate Hke.
Qed.
End files.
