(* ===== verification/ObjectStore.v ===== *)
(** * The object plane (crates/forge-store: objectstore.rs, objectstore/memory.rs)

    The two-phase publication contract and the implementation the conformance
    suite uses as its model of that contract: objects become visible when a
    batch puts them and durable when a batch finishes.  [LocalBlobStore], the
    file-system implementation, is modelled in [Disk]. *)

From S2P Require Import Prelude RustStd Types Object.

(** [BlobStoreStats], the counters [MemoryObjectStore] keeps. *)
Record BlobStoreStats := mkStats {
  fsync_file : Z; fsync_file_us : Z; fsync_dir : Z; fsync_dir_us : Z;
  puts : Z; dedup_hits : Z
}.

Record Inner := mkInner {
  visible : gmap ObjectId bytes;
  durable : gset ObjectId;
  stats : BlobStoreStats
}.

Record MemoryObjectStore := mkMemory { inner : Inner; read_only : bool }.

Definition new_store (read_only : bool) : MemoryObjectStore :=
  mkMemory (mkInner ∅ ∅ (mkStats 0 0 0 0 0 0)) read_only.

Record MemoryBatch := mkBatch {
  owed : gset ObjectId;
  new_puts : Z;
  new_dedup : Z
}.

Definition begin_batch : MemoryBatch := mkBatch ∅ 0 0.

Definition count_file_sync (st : BlobStoreStats) : BlobStoreStats :=
  mkStats (fsync_file st + 1) (fsync_file_us st + 1) (fsync_dir st) (fsync_dir_us st)
    (puts st) (dedup_hits st).

Section memory.
Context `{Blake3}.

Definition MemoryBatch_put_parts (parts : list bytes)
    : stateM Error (MemoryObjectStore * MemoryBatch) ObjectId := fun '(store, batch) =>
  if read_only store then
    (Err (Denied (bs "repository is open read-only; objects cannot be published")), (store, batch))
  else
    let id := hash_parts parts in
    let i := inner store in
    match visible i !! id with
    | Some existing =>
        if negb (bool_decide (hash_bytes existing = id)) then
          (Err (Corrupt (bs "existing object does not match its id: {id}")), (store, batch))
        else
          let batch := mkBatch (owed batch) (new_puts batch) (new_dedup batch + 1) in
          if bool_decide (id ∈ durable i) then (Ok id, (store, batch))
          else
            let i := mkInner (visible i) (durable i) (count_file_sync (stats i)) in
            (Ok id, (mkMemory i (read_only store),
                     mkBatch ({[ id ]} ∪ owed batch) (new_puts batch) (new_dedup batch)))
    | None =>
        let i := mkInner (<[id := concat parts]> (visible i)) (durable i) (count_file_sync (stats i)) in
        (Ok id, (mkMemory i (read_only store),
                 mkBatch ({[ id ]} ∪ owed batch) (new_puts batch + 1) (new_dedup batch)))
    end.

Definition MemoryBatch_finish (store : MemoryObjectStore) (batch : MemoryBatch) : MemoryObjectStore :=
  let i := inner store in
  let st := stats i in
  let st := if bool_decide (owed batch = ∅) then st
            else mkStats (fsync_file st) (fsync_file_us st) (fsync_dir st + 1) (fsync_dir_us st + 1)
                   (puts st) (dedup_hits st) in
  let st := mkStats (fsync_file st) (fsync_file_us st) (fsync_dir st) (fsync_dir_us st)
              (puts st + new_puts batch) (dedup_hits st + new_dedup batch) in
  mkMemory (mkInner (visible i) (durable i ∪ owed batch) st) (read_only store).

Definition Memory_get (store : MemoryObjectStore) (id : ObjectId) : Result bytes :=
  b ← ok_or (visible (inner store) !! id) (NotFound (bs "object {id}"));
  _ ← reject_if (negb (bool_decide (hash_bytes b = id))) (Corrupt (bs "hash mismatch {id}"));
  Ok b.

Definition Memory_has (store : MemoryObjectStore) (id : ObjectId) : bool :=
  bool_decide (is_Some (visible (inner store) !! id)).

(** The provided methods of the trait. *)
Definition verify_blob (store : MemoryObjectStore) (id : ObjectId) : Result unit :=
  b ← Memory_get store id; _ ← Blob_decode b; Ok tt.

Definition put_parts (parts : list bytes) : stateM Error MemoryObjectStore ObjectId := fun store =>
  match MemoryBatch_put_parts parts (store, begin_batch) with
  | (Ok id, (store', batch)) => (Ok id, MemoryBatch_finish store' batch)
  | (r, (store', _)) => (r, store')
  end.

Definition put (b : bytes) : stateM Error MemoryObjectStore ObjectId := put_parts [b].

(** ** Batches in progress, interleaved

    Any number of batches are open at once.  [returned] remembers, for each,
    the identifiers its [put] calls have returned. *)
Record World := mkWorld {
  w_store : MemoryObjectStore;
  w_batches : gmap nat MemoryBatch;
  returned : nat -> list ObjectId
}.

Definition return_id (r : nat -> list ObjectId) (b : nat) (id : ObjectId) : nat -> list ObjectId :=
  fun b' => if decide (b' = b) then id :: r b' else r b'.

Inductive step : World -> World -> Prop :=
| step_begin w b :
    w_batches w !! b = None ->
    step w (mkWorld (w_store w) (<[b := begin_batch]> (w_batches w))
              (fun b' => if decide (b' = b) then [] else returned w b'))
| step_put w b batch parts id store' batch' :
    w_batches w !! b = Some batch ->
    MemoryBatch_put_parts parts (w_store w, batch) = (Ok id, (store', batch')) ->
    step w (mkWorld store' (<[b := batch']> (w_batches w)) (return_id (returned w) b id))
| step_put_fail w b batch parts e store' batch' :
    w_batches w !! b = Some batch ->
    MemoryBatch_put_parts parts (w_store w, batch) = (Err e, (store', batch')) ->
    step w (mkWorld store' (<[b := batch']> (w_batches w)) (returned w))
| step_finish w b batch :
    w_batches w !! b = Some batch ->
    step w (mkWorld (MemoryBatch_finish (w_store w) batch) (delete b (w_batches w)) (returned w))
| step_drop w b batch :
    w_batches w !! b = Some batch ->
    step w (mkWorld (w_store w) (delete b (w_batches w)) (returned w)).

Definition initial_world : World := mkWorld (new_store false) ∅ (fun _ => []).
Definition reachable (w : World) : Prop := rtc step initial_world w.

(** ** Lemmas *)

(** Every visible object hashes to its name, and what is durable is visible. *)
Record wf_store (s : MemoryObjectStore) : Prop := mk_wf_store {
  wf_hash : map_Forall (fun id b => hash_bytes b = id) (visible (inner s));
  wf_durable : forall id, id ∈ durable (inner s) -> is_Some (visible (inner s) !! id)
}.

(** What a [put] in a batch does, in one statement. *)
Lemma put_parts_spec parts s batch r s' batch' :
  wf_store s -> MemoryBatch_put_parts parts (s, batch) = (r, (s', batch')) ->
  wf_store s' /\ read_only s' = read_only s /\
  visible (inner s) ⊆ visible (inner s') /\ durable (inner s') = durable (inner s) /\
  owed batch ⊆ owed batch' /\
  (owed batch' ⊆ owed batch ∪ {[ hash_parts parts ]}) /\
  match r with
  | Ok id => id = hash_parts parts /\ read_only s = false /\
      is_Some (visible (inner s') !! id) /\ (id ∈ durable (inner s) \/ id ∈ owed batch') /\
      (visible (inner s) !! id = None -> visible (inner s') !! id = Some (concat parts)) /\
      (forall i, i <> id -> visible (inner s') !! i = visible (inner s) !! i)
  | Err e => read_only s = true /\ s' = s /\ batch' = batch
  | Panic => False
  end.
Proof.
  intros [Hh Hd]. unfold MemoryBatch_put_parts.
  destruct (read_only s) eqn:Hro; [intros [= <- <- <-]; split_and!; try done; set_solver|].
  destruct (visible (inner s) !! hash_parts parts) as [existing|] eqn:Hv.
  - rewrite (bool_decide_true (hash_bytes existing = _)) by (by apply (Hh _ _ Hv)). cbn [negb].
    case_bool_decide as Hdur.
    + intros [= <- <- <-]. split_and!; try done; set_solver.
    + intros [= <- <- <-]. cbn [inner visible durable owed read_only].
      split_and!; try done; set_solver.
  - intros [= <- <- <-]. cbn [inner visible durable owed read_only]. split_and!; try done.
    + split; cbn [inner visible durable].
      * apply map_Forall_insert_2; [|done]. by rewrite hash_parts_concat.
      * intros id Hid. destruct (decide (id = hash_parts parts)) as [->|Hne].
        -- by rewrite lookup_insert_eq.
        -- rewrite lookup_insert_ne by done. by apply Hd.
    + by apply insert_subseteq.
    + set_solver.
    + set_solver.
    + by rewrite lookup_insert_eq.
    + right. set_solver.
    + intros _. apply lookup_insert_eq.
    + intros i Hi. by rewrite lookup_insert_ne.
Qed.

Lemma finish_spec s batch :
  wf_store s -> (forall id, id ∈ owed batch -> is_Some (visible (inner s) !! id)) ->
  wf_store (MemoryBatch_finish s batch) /\
  visible (inner (MemoryBatch_finish s batch)) = visible (inner s) /\
  durable (inner (MemoryBatch_finish s batch)) = durable (inner s) ∪ owed batch.
Proof. intros [Hh Hd] Ho. split; [|done]. split; [done|]. set_solver. Qed.

Lemma get_ok s id b :
  wf_store s -> Memory_get s id = Ok b <-> visible (inner s) !! id = Some b.
Proof.
  intros [Hh _]. unfold Memory_get. destruct (visible (inner s) !! id) as [b'|] eqn:E; [|done].
  simpl. rewrite bool_decide_true by (by apply (Hh _ _ E)). simpl. naive_solver.
Qed.

Lemma get_cases s id :
  wf_store s ->
  match Memory_get s id with
  | Ok b => visible (inner s) !! id = Some b
  | Err e => visible (inner s) !! id = None /\ e = NotFound (bs "object {id}")
  | Panic => False
  end.
Proof.
  intros [Hh _]. unfold Memory_get. destruct (visible (inner s) !! id) as [b'|] eqn:E; [|done].
  simpl. by rewrite bool_decide_true by (by apply (Hh _ _ E)).
Qed.

(** The invariant of the world. *)
Record wf_world (w : World) : Prop := mk_wf_world {
  ww_store : wf_store (w_store w);
  ww_owed : forall b batch id, w_batches w !! b = Some batch -> id ∈ owed batch ->
    is_Some (visible (inner (w_store w)) !! id);
  ww_returned : forall b batch id, w_batches w !! b = Some batch -> id ∈ returned w b ->
    id ∈ durable (inner (w_store w)) \/ id ∈ owed batch
}.

Lemma wf_put w b batch parts r store' batch' (ret : nat -> list ObjectId) :
  wf_world w -> w_batches w !! b = Some batch ->
  MemoryBatch_put_parts parts (w_store w, batch) = (r, (store', batch')) ->
  (forall b' id, id ∈ ret b' -> id ∈ returned w b' \/ (b' = b /\ r = Ok id)) ->
  wf_world (mkWorld store' (<[b := batch']> (w_batches w)) ret).
Proof.
  intros [Hs Ho Hr] Hb Hp Hret. pose proof (put_parts_spec _ _ _ _ _ _ Hs Hp) as
    (Hs' & _ & Hvis & Hdur & Hsub & Hsup & Hcase).
  assert (forall id, is_Some (visible (inner (w_store w)) !! id) -> is_Some (visible (inner store') !! id)) as Hmono.
  { intros id [v Hv]. exists v. by eapply lookup_weaken. }
  split; [done| |]; cbn [w_store w_batches returned].
  - intros b' bt id. destruct (decide (b = b')) as [<-|Hne].
    + rewrite lookup_insert_eq. intros [= <-] Hin.
      destruct (decide (id ∈ owed batch)) as [Hold|Hnew]; [by apply Hmono, (Ho b batch)|].
      destruct r as [i|e|]; [|by destruct Hcase as (_ & _ & ->)|done].
      destruct Hcase as (-> & _ & Hv & _). assert (id = hash_parts parts) as -> by set_solver. done.
    + rewrite lookup_insert_ne by done. intros Hb' Hin. by eapply Hmono, Ho.
  - intros b' bt id. rewrite Hdur. destruct (decide (b = b')) as [<-|Hne].
    + rewrite lookup_insert_eq. intros [= <-] Hin.
      destruct (Hret b id Hin) as [Hold|[_ ->]].
      * destruct (Hr b batch id Hb Hold) as [?|?]; [by left|right; set_solver].
      * destruct Hcase as (_ & _ & _ & Hin' & _). done.
    + rewrite lookup_insert_ne by done. intros Hb' Hin.
      destruct (Hret b' id Hin) as [Hold|[-> _]]; [by eapply Hr|done].
Qed.

Lemma wf_step w w' : wf_world w -> step w w' -> wf_world w'.
Proof.
  intros Hw Hst. destruct Hst as [w b Hb|w b batch parts id s' bt' Hb Hp|w b batch parts e s' bt' Hb Hp|w b batch Hb|w b batch Hb].
  - destruct Hw as [Hs Ho Hr]. split; [done| |]; cbn [w_store w_batches returned].
    + intros b' bt id. destruct (decide (b = b')) as [<-|Hne].
      * rewrite lookup_insert_eq. intros [= <-] Hin. set_solver.
      * rewrite lookup_insert_ne by done. apply Ho.
    + intros b' bt id. destruct (decide (b' = b)) as [->|Hne].
      * intros _ Hin. by apply elem_of_nil in Hin.
      * rewrite lookup_insert_ne by done. apply Hr.
  - eapply wf_put; [done..|]. intros b' i. unfold return_id. case_decide as E; [|by left].
    intros [->|?]%elem_of_cons; [by right|by left].
  - eapply wf_put; [done..|]. by left.
  - destruct Hw as [Hs Ho Hr].
    destruct (finish_spec (w_store w) batch Hs) as (Hs' & Hv & Hd); [intros; by eapply Ho|].
    split; [done| |]; cbn [w_store w_batches returned].
    + intros b' bt id Hb' Hin. rewrite Hv. apply lookup_delete_Some in Hb' as [_ Hb']. by eapply Ho.
    + intros b' bt id Hb' Hin. rewrite Hd. apply lookup_delete_Some in Hb' as [_ Hb'].
      destruct (Hr b' bt id Hb' Hin); [left; set_solver|by right].
  - destruct Hw as [Hs Ho Hr]. split; [done| |]; cbn [w_store w_batches returned];
      intros b' bt id Hb' Hin; apply lookup_delete_Some in Hb' as [_ Hb']; [by eapply Ho|by eapply Hr].
Qed.

Lemma wf_reachable w : reachable w -> wf_world w.
Proof.
  intros Hr. unfold reachable in Hr. remember initial_world as w0 eqn:E.
  assert (wf_world w0) as H0.
  { subst. split; [split; [apply map_Forall_empty|set_solver]| |]; intros b bt id Hb; cbn in Hb; by rewrite lookup_empty in Hb. }
  clear E. induction Hr; eauto using wf_step.
Qed.
End memory.

Section publish.
Context `{Blake3}.

Lemma put_parts_wp parts s (Hw : wf_store s) :
  wp (put_parts parts) s (fun r s' => wf_store s' /\ visible (inner s) ⊆ visible (inner s') /\ read_only s' = read_only s /\
    match r with
    | Ok id => read_only s = false /\ id = hash_bytes (concat parts) /\ id ∈ durable (inner s') /\
        (forall b, visible (inner s) !! id = Some b -> Memory_get s' id = Ok b) /\
        (visible (inner s) !! id = None -> Memory_get s' id = Ok (concat parts))
    | Err e => read_only s = true /\ s' = s /\ exists msg, e = Denied msg
    | Panic => False
    end).
Proof.
  unfold wp, put_parts. destruct (MemoryBatch_put_parts parts (s, begin_batch)) as [r [s' batch]] eqn:E.
  pose proof (put_parts_spec _ _ _ _ _ _ Hw E) as (Hw' & Hro & Hvis & Hdur & _ & Hsup & Hr).
  destruct r as [id|e|]; cbn [fst snd]; [| |done].
  - destruct Hr as (-> & Hro' & Hv & Hin & Hnew & _).
    assert (forall id, id ∈ owed batch -> is_Some (visible (inner s') !! id)) as Ho.
    { intros id Hid. assert (id = hash_parts parts) as -> by set_solver. done. }
    destruct (finish_spec s' batch Hw' Ho) as (Hwf & Hvf & Hdf).
    split; [done|]. rewrite Hvf. split; [done|]. split; [done|]. split; [done|]. split; [apply hash_parts_concat|].
    split; [rewrite Hdf, Hdur; set_solver|]. split.
    + intros b Hb. apply get_ok; [done|]. rewrite Hvf. by eapply lookup_weaken.
    + intros Hn. apply get_ok; [done|]. rewrite Hvf. by apply Hnew.
  - destruct Hr as (Hro' & -> & ->). split; [done|]. split; [done|]. split; [done|]. split; [done|]. split; [done|].
    unfold MemoryBatch_put_parts in E. rewrite Hro' in E. injection E as <-. by eexists.
Qed.
End publish.

(** ** Properties *)

Section properties.
Context `{Blake3}.

(** The publication contract (I4), for any interleaving of batches.
    Visibility is never taken for durability: when an open batch finishes,
    every object whose identifier it returned, also those it only joined
    because another unfinished batch had made them visible, is durable and is
    read back with bytes of that hash; what is durable stays durable and
    readable; and only a finish makes anything durable. *)
Theorem finished_batches_are_durable w (Hr : reachable w) :
  (forall b batch id, w_batches w !! b = Some batch -> id ∈ returned w b ->
     id ∈ durable (inner (MemoryBatch_finish (w_store w) batch))) /\
  (forall id, id ∈ durable (inner (w_store w)) ->
     exists b, Memory_get (w_store w) id = Ok b /\ hash_bytes b = id) /\
  (forall w', step w w' -> durable (inner (w_store w)) ⊆ durable (inner (w_store w')) /\
     (durable (inner (w_store w')) = durable (inner (w_store w)) \/
      exists b batch, w_batches w !! b = Some batch /\
        w_store w' = MemoryBatch_finish (w_store w) batch)).
Proof.
  pose proof (wf_reachable w Hr) as Hw. pose proof (ww_store _ Hw) as Hst. split; [|split].
  - intros b batch id Hb Hin. simpl. destruct (ww_returned _ Hw b batch id Hb Hin); set_solver.
  - intros id Hin. destruct (wf_durable _ Hst id Hin) as [b Hb]. exists b.
    split; [by apply get_ok|by apply (wf_hash _ Hst) in Hb].
  - intros w' Hs. destruct Hs as [|w b batch parts id s' bt' Hb Hp|w b batch parts e s' bt' Hb Hp|w b batch Hb|].
    + split; [done|by left].
    + apply (put_parts_spec _ _ _ _ _ _ Hst) in Hp as (_ & _ & _ & Hd & _). simpl. rewrite Hd.
      split; [done|by left].
    + apply (put_parts_spec _ _ _ _ _ _ Hst) in Hp as (_ & _ & _ & Hd & _). simpl. rewrite Hd.
      split; [done|by left].
    + split; [simpl; set_solver|right]. by exists b, batch.
    + split; [done|by left].
Qed.

(** What one publication outside a batch does.  On a writable store it
    returns the hash of the bytes, which are then durable and readable; bytes
    already there are kept; on a read-only store nothing changes and the
    error is [Denied].  Reading back gives the very bytes that were put unless
    a different object of the same hash was already stored. *)
Theorem put_then_get parts s (Hw : wf_store s) :
  wp (put_parts parts) s (fun r s' => wf_store s' /\ visible (inner s) ⊆ visible (inner s') /\
    match r with
    | Ok id => read_only s = false /\ id = hash_bytes (concat parts) /\ id ∈ durable (inner s') /\
        (forall b, visible (inner s) !! id = Some b -> Memory_get s' id = Ok b) /\
        (visible (inner s) !! id = None -> Memory_get s' id = Ok (concat parts))
    | Err e => read_only s = true /\ s' = s /\ exists msg, e = Denied msg
    | Panic => False
    end).
Proof.
  eapply wp_mono; [by apply put_parts_wp|]. intros r s' (H1 & H2 & _ & H3). done.
Qed.
End properties.

(** ** Witnesses *)

(** A stand-in for BLAKE3: a polynomial checksum. *)
Definition checksum (h : Z) (b : bytes) : Z := fold_left (fun a x => a * 257 + b2z x + 1) b h.

#[export] Program Instance sample_blake3 : Blake3 := {|
  blake3 b := default ZERO (arr_of 32 (be_bytes 32 (checksum 0 b)));
  Hasher := Z;
  hasher_new := 0;
  hasher_update := checksum;
  hasher_finalize h := default ZERO (arr_of 32 (be_bytes 32 h))
|}.
Next Obligation. intros h a b. unfold checksum. by rewrite fold_left_app. Qed.
Next Obligation. done. Qed.
Next Obligation. done. Qed.

Lemma finished_batches_are_durable_witness :
  exists w batch id, reachable w /\ w_batches w !! 1%nat = Some batch /\ id ∉ durable (inner (w_store w)) /\
    id ∈ durable (inner (MemoryBatch_finish (w_store w) batch)).
Proof.
  (* two batches put the same bytes; the second only joins; the second finishes *)
  set (parts := [bs "hello"]).
  set (w1 := mkWorld (new_store false) (<[0%nat := begin_batch]> ∅)
    (fun b' => if decide (b' = 0%nat) then [] else [])).
  assert (step initial_world w1) as S1 by (by apply (step_begin initial_world 0%nat)).
  set (w2 := mkWorld (new_store false) (<[1%nat := begin_batch]> (w_batches w1))
    (fun b' => if decide (b' = 1%nat) then [] else returned w1 b')).
  assert (step w1 w2) as S2 by (by apply (step_begin w1 1%nat)).
  pose (r3 := MemoryBatch_put_parts parts (new_store false, begin_batch)).
  pose (id := hash_parts parts).
  set (w3 := mkWorld r3.2.1 (<[0%nat := r3.2.2]> (w_batches w2)) (return_id (returned w2) 0%nat id)).
  assert (step w2 w3) as S3 by (by apply (step_put w2 0%nat begin_batch parts id)).
  pose (r4 := MemoryBatch_put_parts parts (r3.2.1, begin_batch)).
  set (w4 := mkWorld r4.2.1 (<[1%nat := r4.2.2]> (w_batches w3)) (return_id (returned w3) 1%nat id)).
  assert (MemoryBatch_put_parts parts (r3.2.1, begin_batch) = (Ok id, (r4.2.1, r4.2.2))) as E4
    by (vm_compute; reflexivity).
  assert (step w3 w4) as S4 by (by apply (step_put w3 1%nat begin_batch parts id)).
  assert (reachable w4) as Hr by (by repeat (eapply rtc_l; [eassumption|])).
  exists w4, r4.2.2, id. split; [exact Hr|]. split; [apply lookup_insert_eq|].
  split; [intros Hin; by apply (bool_decide_eq_true_2 _) in Hin|].
  apply (proj1 (finished_batches_are_durable w4 Hr) 1%nat); [apply lookup_insert_eq|by left].
Defined.

Lemma put_then_get_witness :
  (put_parts [bs "he"; bs "llo"] (new_store false)).1 = Ok (hash_bytes (bs "hello")).
Proof.
  assert (wf_store (new_store false)) as Hw by (split; [apply map_Forall_empty|intros id Hin; by apply elem_of_empty in Hin]).
  pose proof (put_then_get [bs "he"; bs "llo"] (new_store false) Hw) as Hp.
  unfold wp in Hp. destruct Hp as (_ & _ & Hp).
  destruct ((put_parts [bs "he"; bs "llo"] (new_store false)).1) as [id|e|].
  - destruct Hp as (_ & -> & _). reflexivity.
  - destruct Hp as [Hro _]. discriminate Hro.
  - destruct Hp.
Defined.
