(* ===== verification/Store.v ===== *)
(** * [Store] (crates/forge-store/src/lib.rs): objects by type, behind two caches

    The typed reads and writes of the object plane, the two hot LRU caches, and
    the first-introduction walk.  The LRU map is the [lru] crate's, a class
    with its documented behaviour; the object plane is [MemoryObjectStore].
    Durations ([encode_us]) are not modelled. *)

From S2P Require Import Prelude RustStd Types Cbor Tree Object Contribution ObjectStore TreeStore.

(** ** The [lru] crate

    [contents] is the ghost view of a cache as a finite map. *)

Class Lru (C : Type -> Type) := {
  contents : forall {V}, C V -> gmap ObjectId V;
  cap_of : forall {V}, C V -> nat;
  lru_new : forall {V}, nat -> C V;
  lru_get : forall {V}, ObjectId -> C V -> option V * C V;
  lru_push : forall {V}, ObjectId -> V -> C V -> option (ObjectId * V) * C V;
  lru_put : forall {V}, ObjectId -> V -> C V -> option V * C V;
  lru_pop : forall {V}, ObjectId -> C V -> option V * C V;
  lru_pop_lru : forall {V}, C V -> option (ObjectId * V) * C V
}.

Class LruLaws (C : Type -> Type) `{!Lru C} := {
  (** A [NonZeroUsize] capacity. *)
  lru_new_spec V n : (0 < n)%nat ->
    contents (lru_new (V:=V) n) = ∅ /\ cap_of (lru_new (V:=V) n) = n;
  lru_cap_spec V (c : C V) : (size (contents c) <= cap_of c)%nat;
  lru_get_spec V k (c : C V) :
    (lru_get k c).1 = contents c !! k /\ contents (lru_get k c).2 = contents c /\
    cap_of (lru_get k c).2 = cap_of c;
  (** [push] returns the pair it replaced or evicted. *)
  lru_push_spec V k (v : V) c :
    cap_of (lru_push k v c).2 = cap_of c /\
    match (lru_push k v c).1 with
    | Some (k0, v0) => contents c !! k0 = Some v0 /\ (k0 = k \/ contents c !! k = None) /\
        contents (lru_push k v c).2 = <[k := v]> (delete k0 (contents c))
    | None => contents c !! k = None /\ contents (lru_push k v c).2 = <[k := v]> (contents c)
    end;
  (** [put] may evict another pair, which it does not return. *)
  lru_put_spec V k (v : V) c : contents (lru_put k v c).2 ⊆ <[k := v]> (contents c);
  lru_pop_spec V k (c : C V) :
    (lru_pop k c).1 = contents c !! k /\ contents (lru_pop k c).2 = delete k (contents c) /\
    cap_of (lru_pop k c).2 = cap_of c;
  lru_pop_lru_spec V (c : C V) :
    cap_of (lru_pop_lru c).2 = cap_of c /\
    match (lru_pop_lru c).1 with
    | Some (k, v) => contents c !! k = Some v /\ contents (lru_pop_lru c).2 = delete k (contents c)
    | None => contents c = ∅ /\ (lru_pop_lru c).2 = c
    end
}.

Definition OBJECT_CACHE_MAX_ENTRIES : nat := 256.
Definition OBJECT_CACHE_MAX_BYTES : Z := 64 * 1024 * 1024.
Definition TREE_CACHE_ENTRIES : nat := 4096.

(** [a -= b] on [usize]. *)
Definition sub_usize (a b : Z) : Result Z := if a <? b then Panic else Ok (a - b).

Section cache.
Context {C : Type -> Type} `{LRU : Lru C}.

Record ObjectCache := mkCache { c_entries : C bytes; c_bytes : Z }.

Definition ObjectCache_new : ObjectCache := mkCache (lru_new OBJECT_CACHE_MAX_ENTRIES) 0.

Definition ObjectCache_get (id : ObjectId) (c : ObjectCache) : option bytes * ObjectCache :=
  let '(r, e) := lru_get id (c_entries c) in (r, mkCache e (c_bytes c)).

Definition ObjectCache_pop (id : ObjectId) (c : ObjectCache) : Result ObjectCache :=
  match lru_pop id (c_entries c) with
  | (Some old, e) => n ← sub_usize (c_bytes c) (len old); Ok (mkCache e n)
  | (None, e) => Ok (mkCache e (c_bytes c))
  end.

(** [while self.bytes > OBJECT_CACHE_MAX_BYTES]: each iteration removes an
    entry, so one more than the capacity is enough. *)
Fixpoint evict_loop (fuel : nat) (c : ObjectCache) : Result ObjectCache :=
  match fuel with
  | O => Panic
  | S fuel' =>
      if OBJECT_CACHE_MAX_BYTES <? c_bytes c then
        match lru_pop_lru (c_entries c) with
        | (None, e) => Ok (mkCache e (c_bytes c))
        | (Some (_, old), e) =>
            n ← sub_usize (c_bytes c) (len old);
            evict_loop fuel' (mkCache e n)
        end
      else Ok c
  end.

Definition ObjectCache_put (id : ObjectId) (value : bytes) (c : ObjectCache) : Result ObjectCache :=
  let incoming := len value in
  if OBJECT_CACHE_MAX_BYTES <? incoming then ObjectCache_pop id c
  else
    let b := c_bytes c + incoming in
    c ← match lru_push id value (c_entries c) with
        | (Some (_, old), e) => n ← sub_usize b (len old); Ok (mkCache e n)
        | (None, e) => Ok (mkCache e b)
        end;
    c ← evict_loop (S OBJECT_CACHE_MAX_ENTRIES) c;
    (* the [debug_assert!] *)
    if OBJECT_CACHE_MAX_BYTES <? c_bytes c then Panic else Ok c.

(** ** The accounting invariant *)

Definition bytes_of (m : gmap ObjectId bytes) : Z := map_fold (fun _ b n => len b + n) 0 m.

Record wf_cache (c : ObjectCache) : Prop := mk_wf_cache {
  wc_bytes : c_bytes c = bytes_of (contents (c_entries c));
  wc_bound : c_bytes c <= OBJECT_CACHE_MAX_BYTES;
  wc_cap : cap_of (c_entries c) = OBJECT_CACHE_MAX_ENTRIES
}.

Lemma bytes_of_insert m k v : m !! k = None -> bytes_of (<[k := v]> m) = len v + bytes_of m.
Proof. intros Hk. unfold bytes_of. rewrite map_fold_insert_L; [done| |done]. intros; lia. Qed.

Lemma bytes_of_delete m k v : m !! k = Some v -> bytes_of m = len v + bytes_of (delete k m).
Proof.
  intros Hk. rewrite <- (insert_delete_id m k v Hk) at 1. apply bytes_of_insert, lookup_delete_eq.
Qed.

Lemma bytes_of_nonneg m : 0 <= bytes_of m.
Proof.
  unfold bytes_of. apply (map_fold_weak_ind (fun r _ => 0 <= r)); [lia|].
  intros k v m' r _ Hr. pose proof (len_nonneg v). lia.
Qed.

Lemma sub_usize_ok a b : b <= a -> sub_usize a b = Ok (a - b).
Proof. intros H. unfold sub_usize. by rewrite (proj2 (Z.ltb_ge _ _)). Qed.

Context `{LL : !LruLaws C}.

Lemma evict_loop_spec fuel c :
  c_bytes c = bytes_of (contents (c_entries c)) ->
  (size (contents (c_entries c)) < fuel)%nat ->
  exists c', evict_loop fuel c = Ok c' /\ c_bytes c' = bytes_of (contents (c_entries c')) /\
    c_bytes c' <= OBJECT_CACHE_MAX_BYTES /\ cap_of (c_entries c') = cap_of (c_entries c) /\
    contents (c_entries c') ⊆ contents (c_entries c).
Proof.
  revert c; induction fuel as [|fuel IH]; intros c Hb Hf; [lia|]. cbn [evict_loop].
  destruct (Z.ltb_spec OBJECT_CACHE_MAX_BYTES (c_bytes c)) as [Hlt|Hge]; [|by exists c].
  pose proof (lru_pop_lru_spec bytes (c_entries c)) as [Hcap Hpop].
  destruct (lru_pop_lru (c_entries c)) as [[[k old]|] e]; cbn [fst snd] in *.
  - destruct Hpop as [Hk He]. pose proof (bytes_of_delete _ _ _ Hk) as Hd.
    pose proof (bytes_of_nonneg (delete k (contents (c_entries c)))).
    rewrite sub_usize_ok, bind_of_ok by lia.
    destruct (IH (mkCache e (c_bytes c - len old))) as (c' & Hc' & H1 & H2 & H3 & H4); cbn [c_bytes c_entries] in *.
    + rewrite He. lia.
    + rewrite He, map_size_delete, Hk. pose proof (map_size_ne_0_lookup_2 _ _ (mk_is_Some _ _ Hk)). lia.
    + exists c'. rewrite Hc'. split; [done|]. split; [done|]. split; [done|]. split; [congruence|].
      rewrite He in H4. etrans; [done|]. apply delete_subseteq.
  - destruct Hpop as [He ->]. rewrite He in Hb. unfold bytes_of in Hb. rewrite map_fold_empty in Hb.
    unfold OBJECT_CACHE_MAX_BYTES in Hlt. lia.
Qed.

Lemma ObjectCache_pop_spec id c :
  wf_cache c -> exists c', ObjectCache_pop id c = Ok c' /\ wf_cache c' /\
    contents (c_entries c') = delete id (contents (c_entries c)).
Proof.
  intros [Hb Hm Hc]. unfold ObjectCache_pop. pose proof (lru_pop_spec bytes id (c_entries c)) as (H1 & H2 & H3).
  destruct (lru_pop id (c_entries c)) as [[old|] e]; cbn [fst snd] in *.
  - pose proof (bytes_of_delete _ _ _ (eq_sym H1)) as Hd.
    pose proof (bytes_of_nonneg (delete id (contents (c_entries c)))). pose proof (len_nonneg old).
    rewrite sub_usize_ok by lia. eexists; split; [reflexivity|]. split; [|done].
    split; cbn [c_bytes c_entries]; [rewrite H2; lia|lia|congruence].
  - eexists; split; [reflexivity|]. split; [|done].
    split; cbn [c_bytes c_entries]; [|done|congruence]. rewrite H2, delete_id by done. done.
Qed.

Lemma ObjectCache_put_spec id v c :
  wf_cache c -> exists c', ObjectCache_put id v c = Ok c' /\ wf_cache c' /\
    contents (c_entries c') ⊆ <[id := v]> (contents (c_entries c)).
Proof.
  intros Hw. unfold ObjectCache_put. destruct (Z.ltb_spec OBJECT_CACHE_MAX_BYTES (len v)) as [Hbig|Hle].
  { destruct (ObjectCache_pop_spec id c Hw) as (c' & Hc' & Hw' & Hd). exists c'. split; [done|]. split; [done|].
    rewrite Hd, <- (insert_delete_eq _ id v). apply insert_subseteq, lookup_delete_eq. }
  destruct Hw as [Hb Hm Hc]. pose proof (lru_push_spec bytes id v (c_entries c)) as [Hcap Hp].
  assert (exists c1, match lru_push id v (c_entries c) with
        | (Some (_, old), e) => n ← sub_usize (c_bytes c + len v) (len old); Ok (mkCache e n)
        | (None, e) => Ok (mkCache e (c_bytes c + len v))
        end = Ok c1 /\ c_bytes c1 = bytes_of (contents (c_entries c1)) /\
        cap_of (c_entries c1) = OBJECT_CACHE_MAX_ENTRIES /\
        contents (c_entries c1) ⊆ <[id := v]> (contents (c_entries c))) as (c1 & -> & Hb1 & Hc1 & Hs1).
  { destruct (lru_push id v (c_entries c)) as [[[k0 v0]|] e]; cbn [fst snd] in *.
    - destruct Hp as (Hk0 & Hor & He). pose proof (bytes_of_delete _ _ _ Hk0) as Hd.
      pose proof (bytes_of_nonneg (delete k0 (contents (c_entries c)))). pose proof (len_nonneg v).
      rewrite sub_usize_ok by lia. eexists; split; [reflexivity|]. cbn [c_bytes c_entries].
      rewrite He. split_and!; [|congruence|].
      + rewrite bytes_of_insert; [lia|]. destruct Hor as [->|Hn]; [apply lookup_delete_eq|].
        destruct (decide (k0 = id)) as [->|Hne]; [apply lookup_delete_eq|]. by rewrite lookup_delete_ne.
      + apply insert_mono, delete_subseteq.
    - destruct Hp as (Hn & He). eexists; split; [reflexivity|]. cbn [c_bytes c_entries]. rewrite He.
      split_and!; [rewrite bytes_of_insert by done; lia|congruence|done]. }
  rewrite bind_of_ok.
  destruct (evict_loop_spec (S OBJECT_CACHE_MAX_ENTRIES) c1 Hb1) as (c2 & -> & Hb2 & Hm2 & Hc2 & Hs2).
  { pose proof (lru_cap_spec bytes (c_entries c1)). lia. }
  rewrite bind_of_ok, (proj2 (Z.ltb_ge _ _)) by done. exists c2. split; [done|].
  split; [split; [done|done|congruence]|]. by etrans.
Qed.

Lemma ObjectCache_get_spec id c :
  wf_cache c -> (ObjectCache_get id c).1 = contents (c_entries c) !! id /\
    wf_cache (ObjectCache_get id c).2 /\
    contents (c_entries (ObjectCache_get id c).2) = contents (c_entries c).
Proof.
  intros [Hb Hm Hc]. unfold ObjectCache_get. pose proof (lru_get_spec bytes id (c_entries c)) as (H1 & H2 & H3).
  destruct (lru_get id (c_entries c)) as [r e]; cbn [fst snd c_entries c_bytes] in *.
  split; [done|]. split; [|done]. split; cbn [c_entries c_bytes]; congruence.
Qed.

Lemma ObjectCache_new_wf : wf_cache ObjectCache_new.
Proof.
  destruct (lru_new_spec bytes OBJECT_CACHE_MAX_ENTRIES) as [H1 H2]; [unfold OBJECT_CACHE_MAX_ENTRIES; lia|].
  split; cbn [ObjectCache_new c_bytes c_entries]; [by rewrite H1|done|done].
Qed.
End cache.
Arguments ObjectCache C : clear implicits.

(** ** The store *)

Section store.
Context {C : Type -> Type} `{LRU : Lru C} `{B3 : Blake3}.

Record Store := mkStore {
  blobs : MemoryObjectStore;
  trees : C Tree;
  blob_cache : ObjectCache C;
  object_hits : Z;
  object_misses : Z;
  tree_hits : Z;
  tree_misses : Z
}.

Definition with_object_store (o : MemoryObjectStore) : Store :=
  mkStore o (lru_new TREE_CACHE_ENTRIES) ObjectCache_new 0 0 0 0.

(** Run a method of the object plane. *)
Definition on_blobs {A} (m : stateM Error MemoryObjectStore A) : stateM Error Store A := fun s =>
  let '(r, o) := m (blobs s) in
  (r, mkStore o (trees s) (blob_cache s) (object_hits s) (object_misses s) (tree_hits s) (tree_misses s)).

Definition set_blob_cache (c : ObjectCache C) (s : Store) : Store :=
  mkStore (blobs s) (trees s) c (object_hits s) (object_misses s) (tree_hits s) (tree_misses s).
Definition set_trees (c : C Tree) (s : Store) : Store :=
  mkStore (blobs s) c (blob_cache s) (object_hits s) (object_misses s) (tree_hits s) (tree_misses s).
Definition object_hit (s : Store) : Store :=
  mkStore (blobs s) (trees s) (blob_cache s) (object_hits s + 1) (object_misses s) (tree_hits s) (tree_misses s).
Definition object_miss (s : Store) : Store :=
  mkStore (blobs s) (trees s) (blob_cache s) (object_hits s) (object_misses s + 1) (tree_hits s) (tree_misses s).
Definition tree_hit (s : Store) : Store :=
  mkStore (blobs s) (trees s) (blob_cache s) (object_hits s) (object_misses s) (tree_hits s + 1) (tree_misses s).
Definition tree_miss (s : Store) : Store :=
  mkStore (blobs s) (trees s) (blob_cache s) (object_hits s) (object_misses s) (tree_hits s) (tree_misses s + 1).

Definition put_raw (b : bytes) : stateM Error Store ObjectId := on_blobs (put b).
Definition put_raw_parts (parts : list bytes) : stateM Error Store ObjectId := on_blobs (put_parts parts).

(** Trust-boundary read: no cache. *)
Definition get_raw_verified (id : ObjectId) : stateM Error Store bytes := fun s =>
  (Memory_get (blobs s) id, s).

Definition cache_object (id : ObjectId) (b : bytes) : stateM Error Store unit := fun s =>
  match ObjectCache_put id b (blob_cache s) with
  | Ok c => (Ok tt, set_blob_cache c s)
  | Err e => (Err e, s)
  | Panic => (Panic, s)
  end.

Definition read_and_cache (id : ObjectId) : stateM Error Store bytes :=
  b ← get_raw_verified id; _ ← cache_object id b; mret b.

Definition get_raw (id : ObjectId) : stateM Error Store bytes := fun s =>
  match ObjectCache_get id (blob_cache s) with
  | (Some b, c) => (Ok b, object_hit (set_blob_cache c s))
  | (None, c) =>
      read_and_cache id (object_miss (set_blob_cache c s))
  end.

Definition forget_cached (id : ObjectId) : stateM Error Store unit := fun s =>
  let s := set_trees (lru_pop id (trees s)).2 s in
  match ObjectCache_pop id (blob_cache s) with
  | Ok c => (Ok tt, set_blob_cache c s)
  | Err e => (Err e, s)
  | Panic => (Panic, s)
  end.

Definition put_blob_data (data : bytes) : stateM Error Store ObjectId :=
  prefix ← pure (blob_frame_prefix (len data));
  put_raw_parts [prefix; data].

Definition get_blob_data (id : ObjectId) : stateM Error Store bytes :=
  b ← get_raw id; o ← pure (Blob_decode b); mret (blob_data o).

Definition cache_tree (id : ObjectId) (t : Tree) : stateM Error Store unit := fun s =>
  (Ok tt, set_trees (lru_put id t (trees s)).2 s).

Definition Store_put_tree (t : Tree) : stateM Error Store ObjectId :=
  b ← pure (Tree_encode t);
  id ← put_raw b;
  _ ← cache_tree id t;
  mret id.

Definition decode_and_cache (id : ObjectId) : stateM Error Store Tree :=
  b ← get_raw id; t ← pure (Tree_decode b); _ ← cache_tree id t; mret t.

Definition Store_get_tree (id : ObjectId) : stateM Error Store Tree := fun s =>
  match lru_get id (trees s) with
  | (Some t, c) => (Ok t, tree_hit (set_trees c s))
  | (None, c) =>
      decode_and_cache id (tree_miss (set_trees c s))
  end.

Definition put_commit (c : Commit) : stateM Error Store ObjectId :=
  b ← pure (Commit_encode c); put_raw b.
Definition get_commit (id : ObjectId) : stateM Error Store Commit :=
  b ← get_raw id; pure (Commit_decode b).
Definition put_contribution (c : Contribution) : stateM Error Store ObjectId :=
  b ← pure (Contribution.encode c); put_raw b.
Definition get_contribution (id : ObjectId) : stateM Error Store Contribution :=
  b ← get_raw id; pure (Contribution.decode b).
Definition put_conflict (c : Conflict) : stateM Error Store ObjectId :=
  _ ← pure (Conflict_validate c); b ← pure (Conflict_encode c); put_raw b.
Definition get_conflict (id : ObjectId) : stateM Error Store Conflict :=
  b ← get_raw id; pure (Conflict_decode b).
Definition put_snapshot (s : Snapshot) : stateM Error Store ObjectId :=
  b ← pure (Snapshot_encode s); put_raw b.
Definition get_snapshot (id : ObjectId) : stateM Error Store Snapshot :=
  b ← get_raw id; pure (Snapshot_decode b).
Definition object_type (id : ObjectId) : stateM Error Store ObjectType :=
  b ← get_raw id; pure (decode_object_type b).
Definition empty_tree_id : stateM Error Store ObjectId :=
  t ← pure (Tree_new []); Store_put_tree t.

(** [self.blobs.verify_blob(id)]. *)
Definition store_verify_blob (id : ObjectId) : stateM Error Store unit := fun s =>
  (verify_blob (blobs s) id, s).

(** The previous tree of an edge, if any. *)
Definition old_tree_of (old : option ObjectId) : stateM Error Store (option Tree) :=
  match old with
  | None => mret None
  | Some id =>
      old_bytes ← get_raw id;
      ty ← pure (decode_object_type old_bytes);
      match ty with
      | TTree => t ← pure (Tree_decode old_bytes); mret (Some t)
      | _ => throw (Corrupt (bs "unexpected {} in previous tree edge at {id}"))
      end
  end.

Definition expected_type (k : EntryKind) : ObjectType :=
  match k with KBlob => TBlob | KTree => TTree end.

(** The previous identifier of an entry: same name, same kind. *)
Definition old_entry (old_map : gmap str TreeEntry) (e : TreeEntry) : option ObjectId :=
  match old_map !! e_name e with
  | Some old_e => if bool_decide (e_kind old_e = e_kind e) then Some (e_id old_e) else None
  | None => None
  end.

(** One level of fuel per nested directory. *)
Fixpoint intro_walk (fuel : nat) (old : option ObjectId) (new : ObjectId) (expected : ObjectType)
    (oids : list ObjectId) : stateM Error Store (list ObjectId) :=
  match fuel with
  | O => panic
  | S fuel' =>
      if bool_decide (old = Some new) then mret oids
      else if bool_decide (expected = TBlob) then
        _ ← store_verify_blob new; mret (oids ++ [new])
      else
        b ← get_raw new;
        actual ← pure (decode_object_type b);
        if negb (bool_decide (actual = expected)) then
          throw (Corrupt (bs "typed edge expected {}, found {} at {new}"))
        else
          let oids := oids ++ [new] in
          match actual with
          | TBlob => _ ← pure (Blob_decode b); mret oids
          | TTree =>
              new_tree ← pure (Tree_decode b);
              old_tree ← old_tree_of old;
              let old_map := match old_tree with Some t => as_map t | None => ∅ end in
              m_fold (fun oids e =>
                  intro_walk fuel' (old_entry old_map e) (e_id e) (expected_type (e_kind e)) oids)
                oids (entries new_tree)
          | _ => throw (Corrupt (bs "unexpected {} in provenance tree at {new}"))
          end
  end.

Definition collect_intros (fuel : nat) (old : option ObjectId) (new : ObjectId)
    : stateM Error Store (list ObjectId) := intro_walk fuel old new TTree [].
End store.
Arguments Store C : clear implicits.

(** ** The caches are invisible *)

Section transparency.
Context {C : Type -> Type} `{LL : LruLaws C} `{B3 : Blake3}.
Implicit Types (s : Store C) (id : ObjectId).

Definition objects s : gmap ObjectId bytes := visible (inner (blobs s)).

(** The tree an object file holds. *)
Definition stored_tree s id (t : Tree) : Prop :=
  exists b, objects s !! id = Some b /\ Tree_decode b = Ok t.

(** Cached bytes are the stored bytes, cached trees the decoded ones. *)
Record wf_sstore s : Prop := mk_wf_sstore {
  ws_blobs : wf_store (blobs s);
  ws_cache : wf_cache (blob_cache s);
  ws_bytes : contents (c_entries (blob_cache s)) ⊆ objects s;
  ws_trees : map_Forall (fun id t => stored_tree s id t) (contents (trees s))
}.

Lemma read_and_cache_spec id s :
  wf_sstore s ->
  wp (read_and_cache id) s (fun r s' => wf_sstore s' /\ blobs s' = blobs s /\ r = Memory_get (blobs s) id).
Proof.
  intros [Hb Hc Hy Ht]. unfold read_and_cache. apply wp_bind. unfold get_raw_verified, wp. cbn [fst snd].
  pose proof (get_cases (blobs s) id Hb) as Hg.
  destruct (Memory_get (blobs s) id) as [b|e|]; [|done|done].
  destruct (ObjectCache_put_spec id b (blob_cache s) Hc) as (c' & Hp & Hw & Hs).
  unfold mbind, stateM_bind, cache_object. rewrite Hp. cbn [fst snd].
  split; [|done]. split; cbn [blobs blob_cache trees set_blob_cache]; [done|done| |done].
  etrans; [exact Hs|]. apply insert_subseteq_l; [exact Hg|exact Hy].
Qed.

Lemma get_raw_spec id s :
  wf_sstore s ->
  wp (get_raw id) s (fun r s' => wf_sstore s' /\ blobs s' = blobs s /\ r = Memory_get (blobs s) id).
Proof.
  intros [Hb Hc Hy Ht]. unfold get_raw, wp.
  pose proof (ObjectCache_get_spec id (blob_cache s) Hc) as (H1 & H2 & H3).
  destruct (ObjectCache_get id (blob_cache s)) as [[b|] c]; cbn [fst snd] in *.
  - split; [split; cbn [blobs blob_cache trees set_blob_cache object_hit]; try done|].
    + unfold objects. cbn. by rewrite H3.
    + split; [done|]. symmetry. apply get_ok; [done|]. by eapply lookup_weaken.
  - assert (wf_sstore (object_miss (set_blob_cache c s))) as Hw.
    { split; cbn [blobs blob_cache trees set_blob_cache object_miss]; try done.
      unfold objects. cbn. by rewrite H3. }
    exact (read_and_cache_spec id _ Hw).
Qed.

Lemma Store_get_tree_spec id s :
  wf_sstore s ->
  wp (Store_get_tree id) s (fun r s' => wf_sstore s' /\ blobs s' = blobs s /\
    r = (b ← Memory_get (blobs s) id; Tree_decode b)).
Proof.
  intros Hw. unfold Store_get_tree, wp.
  pose proof (lru_get_spec Tree id (trees s)) as (H1 & H2 & H3).
  destruct (lru_get id (trees s)) as [[t|] c]; cbn [fst snd] in *.
  - pose proof Hw as [Hb Hc Hy Ht]. destruct (Ht id t (eq_sym H1)) as (b & Hv & Hd).
    split; [|split; [done|]].
    + split; cbn [blobs blob_cache trees set_trees tree_hit]; try done. by rewrite H2.
    + pose proof (proj2 (get_ok (blobs s) id b Hb) Hv) as ->. by rewrite bind_of_ok.
  - assert (wf_sstore (tree_miss (set_trees c s))) as Hw1.
    { destruct Hw as [Hb Hc Hy Ht]. split; cbn [blobs blob_cache trees set_trees tree_miss]; try done.
      by rewrite H2. }
    change (wp (decode_and_cache id) (tree_miss (set_trees c s)) (fun r s' =>
      wf_sstore s' /\ blobs s' = blobs s /\ r = (b ← Memory_get (blobs s) id; Tree_decode b))).
    unfold decode_and_cache. apply wp_bind. eapply wp_mono; [by apply get_raw_spec|].
    intros r s1 (Hw2 & Hb2 & Hr). change (blobs (tree_miss (set_trees c s))) with (blobs s) in *.
    rewrite <- Hr. destruct r as [b|e|]; [|done|done]. rewrite bind_of_ok.
    apply wp_bind, wp_pure. destruct (Tree_decode b) as [t|e|] eqn:Hd; [|done|done].
    apply wp_bind. unfold wp, cache_tree. cbn [fst snd]. split; [|done].
    destruct Hw2 as [Hb3 Hc3 Hy3 Ht3]. split; cbn [blobs blob_cache trees set_trees]; try done.
    intros i u Hu. pose proof (lru_put_spec Tree id t (trees s1)) as Hsub.
    pose proof (lookup_weaken _ _ _ _ Hu Hsub) as Hu'. destruct (decide (id = i)) as [<-|Hne].
    + rewrite lookup_insert_eq in Hu'. injection Hu' as <-. exists b. split; [|done].
      unfold objects. cbn. rewrite Hb2. apply get_ok; [|done]. by rewrite <- Hb2.
    + rewrite lookup_insert_ne in Hu' by done. by apply Ht3 in Hu'.
Qed.

(** An identifier already taken by other bytes: the collision no put survives. *)
Definition collides s (b : bytes) : Prop :=
  exists b', objects s !! hash_bytes b = Some b' /\ b' <> b.

Lemma stored_tree_mono s s' id t : objects s ⊆ objects s' -> stored_tree s id t -> stored_tree s' id t.
Proof. intros Hsub (b & Hb & Hd). exists b. split; [by eapply lookup_weaken|done]. Qed.

(** What a put of bytes does to the store. *)
Lemma put_raw_parts_spec parts s :
  wf_sstore s ->
  wp (put_raw_parts parts) s (fun r s' => wf_sstore s' /\ objects s ⊆ objects s' /\
    read_only (blobs s') = read_only (blobs s) /\ trees s' = trees s /\
    match r with
    | Ok id => id = hash_bytes (concat parts) /\ (~ collides s (concat parts) -> objects s' !! id = Some (concat parts))
    | Err e => read_only (blobs s) = true
    | Panic => False
    end).
Proof.
  intros [Hb Hc Hy Ht]. unfold put_raw_parts, on_blobs, wp.
  pose proof (put_parts_wp parts (blobs s) Hb) as Hp. unfold wp in Hp.
  destruct (put_parts parts (blobs s)) as [r o]; cbn [fst snd] in *. destruct Hp as (Hw & Hsub & Hro & Hr).
  assert (objects s ⊆ visible (inner o)) as Hsub' by exact Hsub.
  assert (map_Forall (fun id t => stored_tree (mkStore o (trees s) (blob_cache s) (object_hits s)
    (object_misses s) (tree_hits s) (tree_misses s)) id t) (contents (trees s))) as Ht'.
  { intros id t Hin. eapply (stored_tree_mono s); [done|]. by apply Ht. }
  split; [split; cbn [blobs blob_cache trees]; [done|done|by etrans|done]|].
  split; [done|]. split; [done|]. split; [done|].
  destruct r as [id|e|]; [|by destruct Hr|done]. destruct Hr as (_ & -> & _ & Hold & Hnew).
  split; [done|]. intros Hcol. unfold objects. cbn.
  apply get_ok; [done|]. destruct (visible (inner (blobs s)) !! hash_bytes (concat parts)) as [b'|] eqn:E; [|auto].
  rewrite (Hold b' eq_refl). destruct (decide (b' = concat parts)) as [->|Hne]; [done|]. destruct Hcol. by exists b'.
Qed.

Lemma put_raw_spec b s :
  wf_sstore s ->
  wp (put_raw b) s (fun r s' => wf_sstore s' /\ objects s ⊆ objects s' /\
    read_only (blobs s') = read_only (blobs s) /\ trees s' = trees s /\
    match r with
    | Ok id => id = hash_bytes b /\ (~ collides s b -> objects s' !! id = Some b)
    | Err e => read_only (blobs s) = true
    | Panic => False
    end).
Proof. intros Hw. pose proof (put_raw_parts_spec [b] s Hw) as H. cbn [concat] in H. by rewrite app_nil_r in H. Qed.

Lemma Store_put_tree_spec t s :
  wf_sstore s -> wf_tree t ->
  (forall b, Tree_encode t = Ok b -> ~ collides s b) ->
  wp (Store_put_tree t) s (fun r s' => wf_sstore s' /\ objects s ⊆ objects s' /\
    read_only (blobs s') = read_only (blobs s) /\
    match r with
    | Ok id => stored_tree s' id t
    | Err e => read_only (blobs s) = true \/ MAX_TREE_ENTRIES < len (entries t)
    | Panic => False
    end).
Proof.
  intros Hw Ht Hcol. unfold Store_put_tree. apply wp_bind, wp_pure.
  pose proof (Tree_encode_cases t (wf_names _ Ht)) as Hcase.
  destruct (Z.leb_spec (len (entries t)) MAX_TREE_ENTRIES) as [Hle|Hgt].
  - destruct Hcase as [b Hb]. rewrite Hb. apply wp_bind. eapply wp_mono; [by apply put_raw_spec|].
    intros r s1 (Hw1 & Hsub & Hro & Htr & Hr). destruct r as [id|e|]; [|by split_and!; [..|left]|done].
    destruct Hr as [-> Hin]. specialize (Hin (Hcol b Hb)).
    apply wp_bind. unfold wp, cache_tree. cbn [fst snd].
    assert (Tree_decode b = Ok t) as Hd by (by apply Tree_decode_spec).
    destruct Hw1 as [Hb1 Hc1 Hy1 Ht1]. split; [|split; [done|]; split; [done|]; by exists b].
    split; cbn [blobs blob_cache trees set_trees]; try done.
    intros i u Hu. pose proof (lru_put_spec Tree (hash_bytes b) t (trees s1)) as Hs.
    pose proof (lookup_weaken _ _ _ _ Hu Hs) as Hu'. destruct (decide (hash_bytes b = i)) as [<-|Hne].
    + rewrite lookup_insert_eq in Hu'. injection Hu' as <-. by exists b.
    + rewrite lookup_insert_ne in Hu' by done. by apply Ht1 in Hu'.
  - destruct Hcase as [m Hm]. rewrite Hm. split; [done|]. split; [done|]. split; [done|by right].
Qed.

(** Whatever a write answers, the only object file it can have added is the
    one it was to add. *)
Definition only_adds (v v' : gmap ObjectId bytes) (enc : Result bytes) : Prop :=
  forall i o, v' !! i = Some o -> v !! i = Some o \/ enc = Ok o.

Lemma only_adds_refl v enc : only_adds v v enc.
Proof. intros i o. by left. Qed.

Lemma put_parts_only parts o batch :
  wp (MemoryBatch_put_parts parts) (o, batch) (fun _ x => only_adds (visible (inner o)) (visible (inner x.1)) (Ok (concat parts))).
Proof.
  unfold wp, MemoryBatch_put_parts. repeat case_match; cbn [fst snd inner visible]; try apply only_adds_refl.
  intros i b [[<- <-]|[_ Hi]]%lookup_insert_Some; [by right|by left].
Qed.

Lemma put_raw_parts_only parts s :
  wp (put_raw_parts parts) s (fun _ s' => only_adds (objects s) (objects s') (Ok (concat parts))).
Proof.
  unfold wp, put_raw_parts, on_blobs, put_parts, objects.
  pose proof (put_parts_only parts (blobs s) begin_batch) as H. unfold wp in H.
  by destruct (MemoryBatch_put_parts parts (blobs s, begin_batch)) as [[id|e|] [o batch]].
Qed.

Lemma put_raw_only b s : wp (put_raw b) s (fun _ s' => only_adds (objects s) (objects s') (Ok b)).
Proof. pose proof (put_raw_parts_only [b] s) as H. cbn [concat] in H. by rewrite app_nil_r in H. Qed.

Lemma put_tree_only t s : wp (Store_put_tree t) s (fun _ s' => only_adds (objects s) (objects s') (Tree_encode t)).
Proof.
  unfold Store_put_tree. apply wp_bind, wp_pure. destruct (Tree_encode t) as [b|e|]; [|apply only_adds_refl..].
  apply wp_bind. eapply wp_mono; [apply put_raw_only|]. intros r s' H. by destruct r.
Qed.
End transparency.

(** ** The store as a [TreeStore]

    A content-addressed store answers for a tree as long as no other object
    has its hash.  [Guarded] is the store with that assumption made explicit:
    a put that would collide fails with the fault [collision], and is
    otherwise the store's own. *)

Inductive Guarded (C : Type -> Type) := guard (s : Store C).
Arguments guard {C} s.
Definition unguard {C} (g : Guarded C) : Store C := let 'guard s := g in s.

Definition collision : Error := Io (bs "hash collision").

Section guarded.
Context {C : Type -> Type} `{LL : LruLaws C} `{B3 : Blake3}.

Definition collides_b (s : Store C) (b : bytes) : bool :=
  match objects s !! hash_bytes b with Some b' => negb (bool_decide (b' = b)) | None => false end.

Definition on_guarded {A} (m : stateM Error (Store C) A) : stateM Error (Guarded C) A := fun g =>
  let '(r, s) := m (unguard g) in (r, guard s).

Definition guarded_put_tree (t : Tree) : stateM Error (Guarded C) ObjectId := fun g =>
  match Tree_encode t with
  | Ok b => if collides_b (unguard g) b then (Err collision, g) else on_guarded (Store_put_tree t) g
  | _ => on_guarded (Store_put_tree t) g
  end.

#[export] Instance guarded_tree_store : TreeStore (Guarded C) := {|
  get_tree id := on_guarded (Store_get_tree id);
  put_tree := guarded_put_tree
|}.

Lemma collides_b_false s b : collides_b s b = false -> ~ collides s b.
Proof.
  unfold collides_b. intros H (b' & Hb & Hne). rewrite Hb in H.
  apply negb_false_iff, bool_decide_eq_true in H. done.
Qed.

Lemma on_guarded_wp {A} (m : stateM Error (Store C) A) s (Q : Result A -> Guarded C -> Prop) :
  wp m s (fun r s' => Q r (guard s')) -> wp (on_guarded m) (guard s) Q.
Proof. unfold wp, on_guarded. cbn [unguard]. by destruct (m s). Qed.

Definition put_post (s : Store C) (t : Tree) (r : Result ObjectId) (g' : Guarded C) : Prop :=
  wf_sstore (unguard g') /\ objects s ⊆ objects (unguard g') /\
  read_only (blobs (unguard g')) = read_only (blobs s) /\
  match r with
  | Ok id => stored_tree (unguard g') id t
  | Err e => e = collision \/ (read_only (blobs s) = true \/ MAX_TREE_ENTRIES < len (entries t))
  | Panic => False
  end.

Lemma guarded_put_spec t (s : Store C) :
  wf_sstore s -> wf_tree t -> wp (guarded_put_tree t) (guard s) (put_post s t).
Proof.
  intros Hw Ht.
  assert ((forall b, Tree_encode t = Ok b -> ~ collides s b) ->
    wp (on_guarded (Store_put_tree t)) (guard s) (put_post s t)) as Hrun.
  { intros Hcol. apply on_guarded_wp. eapply wp_mono; [by apply Store_put_tree_spec|].
    intros r s' (H1 & H2 & H3 & H4). split; [done|]. split; [done|]. split; [done|].
    destruct r; [done|by right|done]. }
  unfold wp, guarded_put_tree in *. cbn [unguard]. destruct (Tree_encode t) as [b|e|] eqn:Eb.
  - destruct (collides_b s b) eqn:Ec.
    + split; [done|]. split; [done|]. split; [done|by left].
    + apply Hrun. intros b' [= <-]. by apply collides_b_false.
  - by apply Hrun.
  - by apply Hrun.
Qed.

#[export] Program Instance guarded_laws : TreeStoreLaws (Guarded C) := {|
  ts_inv g := wf_sstore (unguard g);
  ts_fault e := e = collision;
  ts_writable g := read_only (blobs (unguard g)) = false;
  ts_holds g id t := stored_tree (unguard g) id t
|}.
Next Obligation. intros g id t _ (b & _ & Hd%Tree_decode_spec). apply Hd. Qed.
Next Obligation. intros g id t t' _ (b & Hb & Hd) (b' & Hb' & Hd'). congruence. Qed.
Next Obligation.
  intros [s] id Hw. cbn [unguard] in *. apply on_guarded_wp.
  eapply wp_mono; [by apply Store_get_tree_spec|]. intros r s' (Hw' & Hb & ->). cbn [unguard].
  split; [done|]. split; [by rewrite Hb|]. split; [unfold stored_tree, objects; by rewrite Hb|].
  pose proof (get_cases (blobs s) id (ws_blobs _ Hw)) as Hg.
  destruct (Memory_get (blobs s) id) as [b|e|]; [|destruct Hg as [Hg _]|done].
  - rewrite bind_of_ok. destruct (Tree_decode b) as [t|e|] eqn:Hd.
    + by exists b.
    + right. intros t (b' & Hb' & Hd'). unfold objects in Hb'. congruence.
    + by apply no_panic_Tree_decode in Hd.
  - right. intros t (b' & Hb' & _). unfold objects in Hb'. congruence.
Qed.
Next Obligation.
  intros [s] t Hw Ht. cbn [unguard] in *. eapply wp_mono; [by apply guarded_put_spec|].
  intros r g' (H1 & H2 & H3 & H4). cbn [unguard] in *. split; [done|]. split; [congruence|].
  split; [intros i u; by apply stored_tree_mono|]. destruct r as [id|e|]; [done| |done].
  destruct H4 as [->|[H4|H4]]; [by left|right; congruence|right; done].
Qed.
End guarded.

(** ** Properties *)

Section properties.
Context {C : Type -> Type} `{LL : LruLaws C} `{B3 : Blake3}.

(** C31: the caches are invisible.  A read through the caches returns exactly
    what the durable bytes say, hit or miss, and keeps every cache entry equal
    to what is stored; so does decoding a tree. *)
Theorem caches_are_invisible (id : ObjectId) (s : Store C) (Hw : wf_sstore s) :
  wp (get_raw id) s (fun r s' => wf_sstore s' /\ blobs s' = blobs s /\ r = Memory_get (blobs s) id) /\
  wp (Store_get_tree id) s (fun r s' => wf_sstore s' /\ blobs s' = blobs s /\
    r = (b ← Memory_get (blobs s) id; Tree_decode b)).
Proof. split; [by apply get_raw_spec|by apply Store_get_tree_spec]. Qed.

(** C40: the accounting of the raw-object cache.  From any cache whose counter
    is the sum of its entries, [put] and [pop] neither underflow the counter
    nor trip the debug assertion, the eviction loop ends, and the counter
    remains the exact sum, at most 64 MiB over at most 256 entries. *)
Theorem object_cache_accounting (id : ObjectId) (v : bytes) (c : ObjectCache C) (Hw : wf_cache c) :
  (exists c', ObjectCache_put id v c = Ok c' /\ wf_cache c' /\
     (size (contents (c_entries c')) <= OBJECT_CACHE_MAX_ENTRIES)%nat /\
     contents (c_entries c') ⊆ <[id := v]> (contents (c_entries c))) /\
  (exists c', ObjectCache_pop id c = Ok c' /\ wf_cache c' /\
     contents (c_entries c') = delete id (contents (c_entries c))).
Proof.
  split; [|by apply ObjectCache_pop_spec].
  destruct (ObjectCache_put_spec id v c Hw) as (c' & H1 & H2 & H3). exists c'. split_and!; try done.
  rewrite <- (wc_cap _ H2). apply lru_cap_spec.
Qed.

(** A tree that is put is read back.  Publishing a well-formed tree
    succeeds on a writable store unless it is over the entry limit, loses
    nothing, and reading the returned identifier gives the tree, provided its
    bytes do not collide with those of another stored object. *)
Theorem put_tree_then_get (t : Tree) (s : Store C) (Hw : wf_sstore s) (Ht : wf_tree t)
    (Hc : forall b, Tree_encode t = Ok b -> ~ collides s b) :
  wp (Store_put_tree t) s (fun r s' => wf_sstore s' /\ objects s ⊆ objects s' /\
    match r with
    | Ok id => (Store_get_tree id s').1 = Ok t
    | Err e => read_only (blobs s) = true \/ MAX_TREE_ENTRIES < len (entries t)
    | Panic => False
    end).
Proof.
  eapply wp_mono; [by apply Store_put_tree_spec|]. intros r s' (H1 & H2 & _ & H3).
  split; [done|]. split; [done|]. destruct r as [id|e|]; [|done|done].
  destruct H3 as (b & Hb & Hd). pose proof (Store_get_tree_spec id s' H1) as (_ & _ & ->).
  pose proof (proj2 (get_ok (blobs s') id b (ws_blobs _ H1)) Hb) as ->. by rewrite bind_of_ok.
Qed.
End properties.

(** ** Witnesses *)

(** A stand-in for [LruCache]: a bounded map that evicts some other entry. *)
Record MapLru (V : Type) := mkMapLru {
  ml_cap : nat;
  ml_map : gmap ObjectId V;
  ml_bound : Is_true (Nat.leb (size ml_map) (S ml_cap))
}.
Arguments mkMapLru {V}. Arguments ml_cap {V}. Arguments ml_map {V}. Arguments ml_bound {V}.

Definition ml_make {V} (n : nat) (m : gmap ObjectId V) : MapLru V :=
  match decide (Is_true (Nat.leb (size m) (S n))) with
  | left H => mkMapLru n m H
  | right _ => mkMapLru n ∅ I
  end.

Definition ml_push {V} (k : ObjectId) (v : V) (c : MapLru V) : option (ObjectId * V) * MapLru V :=
  match ml_map c !! k with
  | Some old => (Some (k, old), ml_make (ml_cap c) (<[k := v]> (ml_map c)))
  | None =>
      if decide (size (ml_map c) < S (ml_cap c))%nat
      then (None, ml_make (ml_cap c) (<[k := v]> (ml_map c)))
      else match map_to_list (ml_map c) with
           | (k0, v0) :: _ => (Some (k0, v0), ml_make (ml_cap c) (<[k := v]> (delete k0 (ml_map c))))
           | [] => (None, c)
           end
  end.

Lemma ml_make_map {V} n (m : gmap ObjectId V) :
  (size m <= S n)%nat -> ml_map (ml_make n m) = m /\ ml_cap (ml_make n m) = n.
Proof.
  intros H. unfold ml_make. case_decide as Hd; [done|].
  destruct Hd. apply Is_true_true. by apply Nat.leb_le.
Qed.
Lemma ml_size {V} (c : MapLru V) : (size (ml_map c) <= S (ml_cap c))%nat.
Proof. pose proof (ml_bound c) as H. by apply Is_true_true, Nat.leb_le in H. Qed.
Lemma ml_make_delete {V} k (c : MapLru V) :
  ml_map (ml_make (ml_cap c) (delete k (ml_map c))) = delete k (ml_map c) /\
  ml_cap (ml_make (ml_cap c) (delete k (ml_map c))) = ml_cap c.
Proof.
  apply ml_make_map. pose proof (ml_size c). rewrite map_size_delete. destruct (ml_map c !! k); unfold Datatypes.id in *; lia.
Qed.

#[export] Instance map_lru : Lru MapLru := {|
  contents V := ml_map;
  cap_of V c := S (ml_cap c);
  lru_new V n := ml_make (pred n) ∅;
  lru_get V k c := (ml_map c !! k, c);
  lru_push V := ml_push;
  lru_put V k v c := (ml_map c !! k, (ml_push k v c).2);
  lru_pop V k c := (ml_map c !! k, ml_make (ml_cap c) (delete k (ml_map c)));
  lru_pop_lru V c := match map_to_list (ml_map c) with
                     | (k, v) :: _ => (Some (k, v), ml_make (ml_cap c) (delete k (ml_map c)))
                     | [] => (None, c)
                     end
|}.

Lemma ml_push_spec {V} k (v : V) c :
  ml_cap (ml_push k v c).2 = ml_cap c /\
  match (ml_push k v c).1 with
  | Some (k0, v0) => ml_map c !! k0 = Some v0 /\ (k0 = k \/ ml_map c !! k = None) /\
      ml_map (ml_push k v c).2 = <[k := v]> (delete k0 (ml_map c))
  | None => ml_map c !! k = None /\ ml_map (ml_push k v c).2 = <[k := v]> (ml_map c)
  end.
Proof.
  pose proof (ml_size c) as Hs. unfold ml_push. destruct (ml_map c !! k) as [old|] eqn:E.
  - destruct (ml_make_map (ml_cap c) (<[k := v]> (ml_map c))) as [H1 H2].
    { rewrite map_size_insert, E. done. }
    cbn [fst snd]. rewrite H1, H2. split_and!; try done; [by left|]. by rewrite insert_delete_eq.
  - case_decide as Hd.
    + destruct (ml_make_map (ml_cap c) (<[k := v]> (ml_map c))) as [H1 H2].
      { rewrite map_size_insert, E. lia. }
      cbn [fst snd]. by rewrite H1, H2.
    + destruct (map_to_list (ml_map c)) as [|[k0 v0] l] eqn:El.
      * rewrite <- length_map_to_list, El in Hd. simpl in Hd. lia.
      * assert (ml_map c !! k0 = Some v0) as Hk0.
        { apply elem_of_map_to_list. rewrite El. by left. }
        assert (k0 <> k) as Hne by congruence.
        destruct (ml_make_map (ml_cap c) (<[k := v]> (delete k0 (ml_map c)))) as [H1 H2].
        { rewrite map_size_insert, lookup_delete_ne, E, map_size_delete, Hk0 by done. lia. }
        cbn [fst snd]. rewrite H1, H2. split_and!; try done. by right.
Qed.

#[export] Program Instance map_lru_laws : LruLaws MapLru.
Next Obligation.
  intros V n Hn. cbn. destruct (ml_make_map (V:=V) (pred n) ∅) as [H1 H2]; [rewrite map_size_empty; lia|].
  rewrite H1, H2. split; [done|lia].
Qed.
Next Obligation. intros V c. apply ml_size. Qed.
Next Obligation. done. Qed.
Next Obligation.
  intros V k v c. destruct (ml_push_spec k v c) as [H1 H2]. split; [cbn; by rewrite H1|exact H2].
Qed.
Next Obligation.
  intros V k v c. destruct (ml_push_spec k v c) as [_ H]. cbn.
  destruct ((ml_push k v c).1) as [[k0 v0]|]; [destruct H as (_ & _ & ->)|destruct H as [_ ->]].
  - apply insert_mono, delete_subseteq.
  - done.
Qed.
Next Obligation. intros V k c. cbn. destruct (ml_make_delete k c) as [H1 H2]. by rewrite H1, H2. Qed.
Next Obligation.
  intros V c. cbn. destruct (map_to_list (ml_map c)) as [|[k v] l] eqn:El; cbn.
  - split; [done|]. split; [by apply map_to_list_empty_iff|done].
  - destruct (ml_make_delete k c) as [H1 H2]. rewrite H1, H2. split; [done|]. split; [|done].
    apply elem_of_map_to_list. rewrite El. by left.
Qed.

Definition empty_store : Store MapLru := with_object_store (new_store false).

Lemma empty_store_wf : wf_sstore empty_store.
Proof.
  split.
  - split; [apply map_Forall_empty|]. intros id Hin. by apply elem_of_empty in Hin.
  - apply ObjectCache_new_wf.
  - apply map_empty_subseteq.
  - apply map_Forall_empty.
Qed.

Definition sample_tree : Tree := mkTree [mkEntry (bs "a") KBlob ZERO false; mkEntry (bs "b") KTree ZERO false].
Lemma sample_tree_wf : wf_tree sample_tree.
Proof.
  apply (proj1 (from_canonical_spec (entries sample_tree) sample_tree)). vm_compute. reflexivity.
Qed.

(** A store with a tree put and its bytes read: both caches hold it. *)
Definition warm_put := Store_put_tree (C:=MapLru) sample_tree empty_store.
Definition warm_id : ObjectId := match warm_put.1 with Ok id => id | _ => ZERO end.
Definition warm_store : Store MapLru := (get_raw warm_id warm_put.2).2.

Lemma warm_store_wf : wf_sstore warm_store.
Proof.
  apply get_raw_spec. eapply (proj1 (Store_put_tree_spec sample_tree empty_store empty_store_wf sample_tree_wf _)).
  Unshelve. intros b _ (b' & Hb & _). vm_compute in Hb. discriminate Hb.
Qed.

(** The object and the tree are cached, the reads are hits (the counters say
    so), and they answer what the durable bytes say. *)
Lemma caches_are_invisible_witness :
  (bool_decide (is_Some (contents (c_entries (blob_cache warm_store)) !! warm_id)) = true /\ bool_decide (is_Some (contents (trees warm_store) !! warm_id)) = true) /\
  ((get_raw warm_id warm_store).1 = Memory_get (blobs warm_store) warm_id
    /\ is_ok (get_raw warm_id warm_store).1 = true /\ object_hits (get_raw warm_id warm_store).2 = object_hits warm_store + 1) /\
  ((Store_get_tree warm_id warm_store).1 = (b ← Memory_get (blobs warm_store) warm_id; Tree_decode b)
    /\ is_ok (Store_get_tree warm_id warm_store).1 = true /\ tree_hits (Store_get_tree warm_id warm_store).2 = tree_hits warm_store + 1).
Proof.
  destruct (caches_are_invisible warm_id warm_store warm_store_wf) as [(_ & _ & H1) (_ & _ & H2)].
  split; [split; vm_compute; reflexivity|]. split; (split; [exact H1||exact H2|]); split; vm_compute; reflexivity.
Defined.

Lemma object_cache_accounting_witness :
  exists c', ObjectCache_put ZERO (bs "hello") (ObjectCache_new (C:=MapLru)) = Ok c' /\ wf_cache c'.
Proof.
  destruct (proj1 (object_cache_accounting ZERO (bs "hello") ObjectCache_new
    (ObjectCache_new_wf (C:=MapLru)))) as (c' & H1 & H2 & _).
  exists c'. split; [exact H1|exact H2].
Defined.

Lemma put_tree_then_get_witness :
  exists id s', Store_put_tree (C:=MapLru) sample_tree empty_store = (Ok id, s') /\
    (Store_get_tree id s').1 = Ok sample_tree.
Proof.
  destruct (Store_put_tree (C:=MapLru) sample_tree empty_store) as [r s'] eqn:E.
  assert (forall b, Tree_encode sample_tree = Ok b -> ~ collides empty_store b) as Hc.
  { intros b _ (b' & Hb & _). vm_compute in Hb. discriminate Hb. }
  pose proof (wp_elim _ _ _ _ _ (put_tree_then_get sample_tree empty_store empty_store_wf sample_tree_wf Hc) E)
    as (_ & _ & Hr).
  destruct r as [id|e|].
  - exists id, s'. split; [reflexivity|exact Hr].
  - destruct Hr as [Hr|Hr]; discriminate Hr.
  - destruct Hr.
Defined.

(** A store with one tree of files in it, for the witnesses of the components
    above. *)
Definition demo_tree : Tree := mkTree [mkEntry (bs "a") KBlob ZERO false; mkEntry (bs "b") KBlob ZERO true].
Definition demo_put := put_tree demo_tree (guard (C:=MapLru) empty_store).
Definition demo_root : ObjectId := match demo_put.1 with Ok id => id | _ => ZERO end.
Definition demo_store : Guarded MapLru := demo_put.2.

Lemma demo_spec :
  ts_inv demo_store /\ ts_holds demo_store demo_root demo_tree /\ closed demo_store demo_root.
Proof.
  destruct (put_leaf (guard (C:=MapLru) empty_store) demo_tree demo_root demo_store) as (H1 & H2 & H3 & _); [| | | |done].
  - exact empty_store_wf.
  - apply (proj1 (from_canonical_spec (entries demo_tree) demo_tree)). vm_compute. reflexivity.
  - intros e He. repeat (apply elem_of_cons in He as [->|He]; [done|]). by apply elem_of_nil in He.
  - unfold demo_store, demo_root. change (put_tree demo_tree (guard empty_store)) with demo_put.
    destruct demo_put as [r s] eqn:E. cbn [fst snd]. destruct r as [id|e|]; [done|exfalso..];
      apply (f_equal fst) in E; vm_compute in E; discriminate E.
Qed.
