(* ===== verification/Overlay.v ===== *)
(** * [apply_overlay] (crates/forge-core/src/tree.rs)

    The copy-on-write fold of a map of edited paths onto a base tree, over any
    [TreeStore].  The reference is [overlay_file]: which file the result holds
    at each path, in terms of the files of the base and of the overlay. *)

From S2P Require Import Prelude RustStd Types Tree Object TreeStore ObjectStore Store.

(** Relative path to [Some (blob, exec)], or [None], a tombstone. *)
Abbreviation OverlayOp := (option (ObjectId * bool)).
Abbreviation Overlay := (gmap str OverlayOp).

(** [path[prefix.len()]] is a slash, hence a character boundary: the slice
    after it cannot panic. *)
Definition strip_path_prefix (path prefix : str) : option str :=
  if bytes_eqb prefix [] then Some path
  else if bytes_eqb path prefix then Some []
  else if (len prefix <? len path) && bool_decide (path !! length prefix = Some "/"%byte) &&
          starts_with path prefix
  then Some (drop (length prefix + 1) path)
  else None.

Definition is_nil (s : str) : bool := bool_decide (s = []).

(** One entry of the overlay, put into the group of its first name or among
    the files of this directory. *)
Definition partition_step (prefix : str) (acc : gmap str Overlay * Overlay) (kv : str * OverlayOp)
    : Result (gmap str Overlay * Overlay) :=
  let '(groups, files) := acc in
  let '(path, op) := kv in
  match strip_path_prefix path prefix with
  | None => Ok acc
  | Some rest =>
      if is_nil rest then Ok acc
      else if contains_byte rest "/"%byte then
        match split_once "/"%byte rest with
        | Some (first, _) =>
            Ok (<[first := <[path := op]> (default ∅ (groups !! first))]> groups, files)
        | None => Panic
        end
      else Ok (groups, <[rest := op]> files)
  end.

Definition partition (prefix : str) (overlay : Overlay) : Result (gmap str Overlay * Overlay) :=
  try_fold (partition_step prefix) (∅, ∅) (btree_list overlay).

Definition file_edit (name : str) (op : OverlayOp) : option TreeEntry :=
  '(id, exec) ← op; Some (mkEntry name KBlob id exec).

Definition file_edits (files : Overlay) : gmap str (option TreeEntry) := map_imap (fun name op => Some (file_edit name op)) files.

(** Both iterators are consumed in step. *)
Fixpoint merge_sorted_entries (base : list TreeEntry) : list (str * option TreeEntry) -> list TreeEntry :=
  fix go (edits : list (str * option TreeEntry)) : list TreeEntry :=
    match base, edits with
    | b :: base', (edit_name, edit) :: edits' =>
        match bytes_cmp (e_name b) edit_name with
        | Lt => b :: merge_sorted_entries base' edits
        | Eq => match edit with
                | Some entry => entry :: merge_sorted_entries base' edits'
                | None => merge_sorted_entries base' edits'
                end
        | Gt => match edit with Some entry => entry :: go edits' | None => go edits' end
        end
    | _ :: _, [] => base
    | [], _ :: _ => omap snd edits
    | [], [] => []
    end.

Definition child_path (prefix name : str) : str :=
  if is_nil prefix then name else prefix ++ bs "/" ++ name.

Section apply.
Context {St : Type} `{TS : TreeStore St}.

(** The base of the subdirectory [name]: hidden by a direct edit of that name. *)
Definition child_base (files : Overlay) (base_tree : Tree) (name : str) : option ObjectId :=
  match files !! name with
  | Some _ => None
  | None => match Tree_get base_tree name with
            | Some e => if bool_decide (e_kind e = KTree) then Some (e_id e) else None
            | None => None
            end
  end.

(** One level per nested directory of the overlay: running out of [fuel], one
    per component of its longest path, is the unbounded recursion of the
    source, and [apply_overlay] is proved not to reach it when no path has an
    empty component. *)
Fixpoint apply_level (fuel : nat) (base : option ObjectId) (prefix : str) (overlay : Overlay)
    : stateM Error St ObjectId :=
  match fuel with
  | O => panic
  | S fuel' =>
      base_tree ← match base with Some id => get_tree id | None => mret empty_tree end;
      '(groups, files) ← pure (partition prefix overlay);
      edits ← m_fold (fun edits '(name, sub) =>
          child_id ← apply_level fuel' (child_base files base_tree name) (child_path prefix name) sub;
          child_tree ← get_tree child_id;
          let edit := if is_empty child_tree then None
                      else Some (mkEntry name KTree child_id false) in
          mret (<[name := edit]> edits))
        (file_edits files) (btree_list groups);
      let entries := merge_sorted_entries (entries base_tree) (btree_list edits) in
      _ ← pure (reject_if (MAX_TREE_ENTRIES <? len entries)
            (Invalid (bs "checkin would give {dir} {} entries, more than a tree may hold")));
      tree ← pure (from_canonical entries);
      put_tree tree
  end.

(** The depth of the recursion: no path has more names than bytes. *)
Definition overlay_fuel (overlay : Overlay) : nat :=
  S (foldr Nat.max O ((fun kv => length kv.1) <$> map_to_list overlay)).

Definition apply_overlay (base : option ObjectId) (overlay : Overlay) : stateM Error St ObjectId :=
  apply_level (overlay_fuel overlay) base [] overlay.
End apply.

(** ** Merging edits into sorted entries *)

Abbreviation edit_key := (fst : str * option TreeEntry -> str).

Definition edits_ok (edits : list (str * option TreeEntry)) : Prop :=
  StronglySorted (key_lt edit_key) edits /\
  forall n e, (n, Some e) ∈ edits -> e_name e = n.

Lemma merge_nil_r base : merge_sorted_entries base [] = base.
Proof. by destruct base. Qed.
Lemma merge_nil_l edits : merge_sorted_entries [] edits = omap snd edits.
Proof. by destruct edits. Qed.
Lemma merge_cons b base n o edits :
  merge_sorted_entries (b :: base) ((n, o) :: edits) =
  match bytes_cmp (e_name b) n with
  | Lt => b :: merge_sorted_entries base ((n, o) :: edits)
  | Eq => match o with
          | Some e => e :: merge_sorted_entries base edits
          | None => merge_sorted_entries base edits
          end
  | Gt => match o with
          | Some e => e :: merge_sorted_entries (b :: base) edits
          | None => merge_sorted_entries (b :: base) edits
          end
  end.
Proof. done. Qed.

(** What the merge keeps: the new entries, and the base entries not edited. *)
Definition merged (base : list TreeEntry) (edits : list (str * option TreeEntry)) (e : TreeEntry) : Prop :=
  (exists n, (n, Some e) ∈ edits) \/ (e ∈ base /\ e_name e ∉ edits.*1).

Lemma merge_elem base edits e :
  sorted_entries base -> StronglySorted (key_lt edit_key) edits ->
  e ∈ merge_sorted_entries base edits <-> merged base edits e.
Proof.
  unfold merged. intros Hb. revert edits. induction Hb as [|b base Hb IHb Hbx]; intros edits He.
  { rewrite merge_nil_l, list_elem_of_omap. split.
    - intros ([n o] & Hin & Ho). simpl in Ho. subst. eauto.
    - intros [[n Hn]|[[]%elem_of_nil _]]. by exists (n, Some e). }
  induction He as [|[n o] edits He IHe Hex].
  { rewrite merge_nil_r. split; [intros H; right; split; [done|]; apply not_elem_of_nil|].
    intros [[n []%elem_of_nil]|[H _]]; done. }
  rewrite merge_cons. rewrite Forall_forall in Hbx. rewrite Forall_forall in Hex. unfold key_lt in *. simpl in Hex.
  destruct (bytes_cmp (e_name b) n) eqn:Ec.
  - apply bytes_cmp_eq in Ec. assert (forall x, x ∈ base -> e_name x <> n) as Hne.
    { intros x Hx E. specialize (Hbx x Hx). rewrite Ec, E, bytes_lt_irrefl in Hbx. done. }
    pose proof (IHb edits He) as Hm.
    assert (e ∈ match o with Some e0 => e0 :: merge_sorted_entries base edits
      | None => merge_sorted_entries base edits end <->
      o = Some e \/ e ∈ merge_sorted_entries base edits) as ->.
    { destruct o as [e0|]; [rewrite elem_of_cons|]; naive_solver. }
    rewrite Hm.
    rewrite fmap_cons, not_elem_of_cons. setoid_rewrite elem_of_cons. simpl.
    split.
    + intros [->|[[n' Hn']|[Hin Hnot]]]; [left; exists n; by left|left; exists n'; by right|right].
      split; [by right|]. split; [|done]. by apply Hne.
    + intros [[n' [[= -> ->]|Hn']]|[[->|Hin] [Hn Hnot]]]; [by left|right; left; eauto|done|].
      right. by right.
  - apply bytes_lt_spec in Ec.
    rewrite elem_of_cons, IHb by (by constructor; [|apply Forall_forall]).
    assert (forall x, x ∈ edits.*1 -> e_name b <> x) as Hne.
    { intros x ([m o'] & -> & Hx)%list_elem_of_fmap E. simpl in E. specialize (Hex _ Hx).
      simpl in Hex. rewrite <- E in Hex.
      pose proof (bytes_lt_trans _ _ _ Hex Ec) as Hr. by rewrite bytes_lt_irrefl in Hr. }
    rewrite fmap_cons, not_elem_of_cons. setoid_rewrite elem_of_cons. simpl. split.
    + intros [->|[H|[Hin Hnot]]]; [right|by left|right; naive_solver].
      split; [by left|]. split; [by apply bytes_lt_ne|]. intros Hx. by apply (Hne _ Hx).
    + intros [H|[[->|Hin] Hnot]]; [right; by left|by left|right; right; naive_solver].
  - assert (bytes_lt n (e_name b) = true) as Hnb.
    { apply bytes_lt_spec. rewrite bytes_cmp_antisym, Ec. done. }
    assert (forall x, x ∈ b :: base -> e_name x <> n) as Hne.
    { intros x [->|Hx]%elem_of_cons E; [rewrite E, bytes_lt_irrefl in Hnb; done|].
      specialize (Hbx x Hx). rewrite E in Hbx.
      pose proof (bytes_lt_trans _ _ _ Hnb Hbx) as Hr. by rewrite bytes_lt_irrefl in Hr. }
    assert (e ∈ match o with Some e0 => e0 :: merge_sorted_entries (b :: base) edits
      | None => merge_sorted_entries (b :: base) edits end <->
      o = Some e \/ e ∈ merge_sorted_entries (b :: base) edits) as ->.
    { destruct o as [e0|]; [rewrite elem_of_cons|]; naive_solver. }
    rewrite IHe. rewrite fmap_cons, not_elem_of_cons. setoid_rewrite (elem_of_cons edits). simpl.
    split.
    + intros [->|[[n' Hn']|[Hin Hnot]]]; [left; exists n; by left|left; exists n'; by right|right].
      split; [done|]. split; [|done]. by apply Hne.
    + intros [[n' [[= -> ->]|Hn']]|[Hin [Hn Hnot]]]; [by left|right; left; eauto|].
      right. by right.
Qed.

Lemma merge_sorted base edits :
  sorted_entries base -> edits_ok edits -> sorted_entries (merge_sorted_entries base edits).
Proof.
  intros Hb. revert edits. induction Hb as [|b base Hb IHb Hbx]; intros edits [He Hn].
  { rewrite merge_nil_l. induction He as [|[n o] edits He IHe Hex]; simpl; [constructor|].
    assert (sorted_entries (omap snd edits)) as IH by (apply IHe; intros; apply Hn; by right).
    destruct o as [e|]; [|done]. constructor; [done|]. apply Forall_forall.
    intros x ([m o'] & Hin & Ho)%list_elem_of_omap. simpl in Ho. subst o'.
    rewrite Forall_forall in Hex. specialize (Hex _ Hin). unfold key_lt in *. simpl in Hex.
    rewrite (Hn n e ltac:(by left)), (Hn m x ltac:(by right)). done. }
  induction He as [|[n o] edits He IHe Hex]; [rewrite merge_nil_r; by constructor|].
  assert (forall n' e', (n', Some e') ∈ edits -> e_name e' = n') as Hn'
    by (intros; apply Hn; by right).
  specialize (IHe Hn'). rewrite merge_cons.
  pose proof (Forall_forall (key_lt e_name b) base) as [Hbx' _]. specialize (Hbx' Hbx).
  pose proof (Forall_forall (key_lt edit_key (n, o)) edits) as [Hex' _]. specialize (Hex' Hex).
  assert (StronglySorted (key_lt edit_key) ((n, o) :: edits)) as He' by (by constructor).
  destruct (bytes_cmp (e_name b) n) eqn:Ec.
  - apply bytes_cmp_eq in Ec. specialize (IHb edits (conj He Hn')).
    destruct o as [e|]; [|done]. constructor; [done|]. apply Forall_forall.
    intros x Hx. apply merge_elem in Hx; [|done..]. unfold key_lt.
    rewrite (Hn n e ltac:(by left)). destruct Hx as [[m Hm]|[Hx _]].
    + specialize (Hex' _ Hm). by rewrite (Hn' m x Hm).
    + rewrite <- Ec. by apply Hbx'.
  - apply bytes_lt_spec in Ec. specialize (IHb ((n, o) :: edits) (conj He' Hn)).
    constructor; [done|]. apply Forall_forall.
    intros x Hx. apply merge_elem in Hx; [|done..]. destruct Hx as [[m Hm]|[Hx _]].
    + unfold key_lt. rewrite (Hn m x Hm). apply elem_of_cons in Hm as [[= -> <-]|Hm]; [done|].
      specialize (Hex' _ Hm). by eapply bytes_lt_trans.
    + by apply Hbx'.
  - assert (bytes_lt n (e_name b) = true) as Hnb.
    { apply bytes_lt_spec. rewrite bytes_cmp_antisym, Ec. done. }
    destruct o as [e|]; [|done]. constructor; [done|]. apply Forall_forall.
    intros x Hx. apply merge_elem in Hx; [|by constructor|done]. unfold key_lt.
    rewrite (Hn n e ltac:(by left)). destruct Hx as [[m Hm]|[[->|Hx]%elem_of_cons _]].
    + specialize (Hex' _ Hm). by rewrite (Hn' m x Hm).
    + done.
    + eapply bytes_lt_trans; [done|]. by apply Hbx'.
Qed.

(** The merge as a lookup: an edited name has its edit, another its base entry. *)
Lemma find_merge (base : list TreeEntry) (edits : gmap str (option TreeEntry)) (name : str) :
  sorted_entries base -> (forall n e, edits !! n = Some (Some e) -> e_name e = n) ->
  find_entry (merge_sorted_entries base (btree_list edits)) name =
    match edits !! name with Some o => o | None => find_entry base name end.
Proof.
  intros Hb Hn. assert (edits_ok (btree_list edits)) as He.
  { split; [apply btree_list_sorted|]. intros n e H%elem_of_btree_list. by apply Hn. }
  pose proof (merge_sorted _ _ Hb He) as Hs.
  assert (forall n, n ∈ (btree_list edits).*1 <-> is_Some (edits !! n)) as Hk.
  { intros n. split.
    - intros ([k o] & -> & H%elem_of_btree_list)%list_elem_of_fmap. by exists o.
    - intros [o Ho]. apply list_elem_of_fmap. exists (n, o). by rewrite elem_of_btree_list. }
  assert (forall e, e ∈ merge_sorted_entries base (btree_list edits) ->
    merged base (btree_list edits) e) as Hel.
  { intros e. apply merge_elem; [done|apply btree_list_sorted]. }
  assert (forall e, merged base (btree_list edits) e ->
    e ∈ merge_sorted_entries base (btree_list edits)) as Hle.
  { intros e. apply merge_elem; [done|apply btree_list_sorted]. }
  destruct (edits !! name) as [[e|]|] eqn:E.
  - apply find_entry_sorted; [done| |by apply Hn]. apply Hle. left. exists name.
    by apply elem_of_btree_list.
  - apply find_entry_none. intros (e & -> & [[n H%elem_of_btree_list]|[_ H]]%Hel)%list_elem_of_fmap.
    + rewrite <- (Hn n e H) in H. by rewrite H in E.
    + apply H, Hk. by rewrite E.
  - destruct (find_entry base name) as [e|] eqn:F.
    + apply find_entry_some in F as [Hin Hname]. apply find_entry_sorted; [done| |done].
      apply Hle. right. split; [done|]. rewrite Hk, Hname, E. by intros [].
    + apply find_entry_none. intros (e & -> & [[n H%elem_of_btree_list]|[H _]]%Hel)%list_elem_of_fmap.
      * rewrite <- (Hn n e H) in H. by rewrite H in E.
      * apply find_entry_none in F. by apply F, list_elem_of_fmap_2.
Qed.

Lemma length_merge (base : list TreeEntry) edits :
  len (merge_sorted_entries base edits) <= len base + len edits.
Proof.
  revert edits. induction base as [|b base IHb]; intros edits.
  { rewrite merge_nil_l, len_nil. induction edits as [|[n [e|]] edits IHe]; [done|..];
      rewrite len_cons; [change (omap snd ((n, Some e) :: edits)) with (e :: omap snd edits)
                        |change (omap snd ((n, None) :: edits)) with (omap snd edits)];
      rewrite ?len_cons; lia. }
  induction edits as [|[n o] edits IHe]; [rewrite merge_nil_r; lens_lia|].
  rewrite merge_cons. specialize (IHb edits) as IH1. specialize (IHb ((n, o) :: edits)) as IH2.
  destruct (bytes_cmp (e_name b) n), o; rewrite ?len_cons in *; lia.
Qed.

(** ** Paths as lists of names *)

Lemma strip_join (pre q : list str) :
  Forall plain pre -> Forall plain q -> q <> [] ->
  strip_path_prefix (join (bs "/") (pre ++ q)) (join (bs "/") pre) = Some (join (bs "/") q).
Proof.
  intros Hp Hq Hne. unfold strip_path_prefix. destruct (decide (pre = [])) as [->|Hpre]; [done|].
  pose proof (join_nonempty pre Hp Hpre) as Hj.
  rewrite (proj2 (bytes_eqb_false _ _) Hj), join_app by done.
  set (a := join (bs "/") pre) in *. set (b := join (bs "/") q).
  rewrite (proj2 (bytes_eqb_false _ _)).
  2: { intros E. apply (f_equal length) in E. rewrite length_app in E. simpl in E. lia. }
  rewrite (proj2 (Z.ltb_lt _ _)) by (lens; lia).
  rewrite bool_decide_true by (rewrite lookup_app_r by lia; by rewrite Nat.sub_diag).
  rewrite starts_with_app. cbn [andb]. f_equal.
  rewrite drop_app_ge by lia. by replace (length a + 1 - length a)%nat with 1%nat by lia.
Qed.

Lemma child_path_join (pre : list str) n :
  Forall plain pre -> child_path (join (bs "/") pre) n = join (bs "/") (pre ++ [n]).
Proof.
  intros Hp. unfold child_path, is_nil. destruct (decide (pre = [])) as [->|Hpre]; [done|].
  rewrite bool_decide_false by (by apply join_nonempty). by rewrite join_app.
Qed.

Ltac plains := by repeat first [done | apply Forall_nil_2 | apply Forall_cons_2].

Section partition.
Context (pre : list str) (Hpre : Forall plain pre).

(** The keys of an overlay below the directory [pre]. *)
Definition key_under (k : str) : Prop :=
  exists q, q <> [] /\ Forall plain q /\ k = join (bs "/") (pre ++ q).

Definition below (n : str) (k : str) : Prop :=
  exists q, plain n /\ q <> [] /\ Forall plain q /\ k = join (bs "/") (pre ++ n :: q).

Lemma key_inj q1 q2 :
  Forall plain q1 -> Forall plain q2 ->
  join (bs "/") (pre ++ q1) = join (bs "/") (pre ++ q2) -> q1 = q2.
Proof. intros H1 H2 E%join_inj; [by apply app_inv_head in E|by apply Forall_app..]. Qed.

Lemma partition_step_spec groups files k op :
  key_under k ->
  (exists n, plain n /\ k = join (bs "/") (pre ++ [n]) /\
     partition_step (join (bs "/") pre) (groups, files) (k, op) = Ok (groups, <[n := op]> files)) \/
  (exists n, below n k /\
     partition_step (join (bs "/") pre) (groups, files) (k, op) =
       Ok (<[n := <[k := op]> (default ∅ (groups !! n))]> groups, files)).
Proof.
  intros (q & Hq & Hpq & ->). destruct q as [|n q]; [done|].
  pose proof Hpq as [Hn Hq']%Forall_cons. unfold partition_step. rewrite strip_join by done.
  unfold is_nil. rewrite bool_decide_false by (by apply join_nonempty).
  rewrite contains_join by done. destruct (decide (q = [])) as [->|Hne].
  - left. exists n. rewrite bool_decide_true by done. done.
  - right. exists n. rewrite bool_decide_false by done. cbn [negb].
    rewrite split_once_join by done. split; [|done]. by exists q.
Qed.

Record partitioned (l : list (str * OverlayOp)) (groups : gmap str Overlay) (files : Overlay) : Prop := mk_part {
  pt_files : forall n op, files !! n = Some op <-> plain n /\ (join (bs "/") (pre ++ [n]), op) ∈ l;
  pt_groups : forall n k op,
    (exists sub, groups !! n = Some sub /\ sub !! k = Some op) <-> (k, op) ∈ l /\ below n k;
  pt_nonempty : forall n sub, groups !! n = Some sub -> sub <> ∅
}.

Lemma partitioned_snoc l groups files k op :
  k ∉ l.*1 -> key_under k -> partitioned l groups files ->
  exists groups' files', partition_step (join (bs "/") pre) (groups, files) (k, op) = Ok (groups', files') /\
    partitioned (l ++ [(k, op)]) groups' files'.
Proof.
  intros Hk Hu [PF PG PN].
  assert (forall op', (k, op') ∉ l) as Hkl.
  { intros op' Hin. apply Hk, list_elem_of_fmap. by exists (k, op'). }
  destruct (partition_step_spec groups files k op Hu) as
    [(n & Hn & Ek & ->)|(n & Hb & ->)]; do 2 eexists; (split; [reflexivity|]).
  - split; [| |done].
    + intros m o. rewrite elem_of_app, list_elem_of_singleton.
      destruct (decide (n = m)) as [<-|Hne].
      * rewrite lookup_insert_eq, <- Ek. split.
        -- intros [= <-]. auto.
        -- intros [_ [H|[= ->]]]; [by apply Hkl in H|done].
      * rewrite lookup_insert_ne by done. rewrite PF. split; [naive_solver|].
        intros [Hm [H|[= E ->]]]; [done|]. rewrite Ek in E. apply key_inj in E; [congruence|plains..].
    + intros m k' o. rewrite PG, elem_of_app, list_elem_of_singleton. split; [naive_solver|].
      intros [[H|[= -> ->]] (q & Hm & Hq & Hpq & E)]; [split; [done|by exists q]|].
      rewrite Ek in E. apply key_inj in E; [|plains..].
      injection E as <- <-. done.
  - pose proof Hb as (q & Hn & Hq & Hpq & Ek). split.
    + intros m o. rewrite PF, elem_of_app, list_elem_of_singleton. split; [naive_solver|].
      intros [Hm [H|[= E ->]]]; [done|]. rewrite Ek in E.
      apply key_inj in E; [|plains..]. injection E as -> <-. done.
    + intros m k' o. rewrite elem_of_app, list_elem_of_singleton.
      destruct (decide (n = m)) as [<-|Hne].
      * rewrite lookup_insert_eq. destruct (decide (k = k')) as [<-|Hkk].
        -- split.
           ++ intros (sub & [= <-] & Hs). rewrite lookup_insert_eq in Hs. injection Hs as ->. auto.
           ++ intros [[H|[= ->]] _]; [by apply Hkl in H|]. eexists. split; [done|]. apply lookup_insert_eq.
        -- specialize (PG n k' o). split.
           ++ intros (sub & [= <-] & Hs). rewrite lookup_insert_ne in Hs by done.
              destruct (groups !! n) as [sub|]; [|simpl in Hs; by rewrite lookup_empty in Hs].
              destruct PG as [[? ?] _]; [by exists sub|]. auto.
           ++ intros [[H|[= -> ->]] Hbk]; [|done].
              destruct PG as [_ (sub & -> & Hs)]; [done|]. eexists. split; [done|].
              by rewrite lookup_insert_ne.
      * rewrite lookup_insert_ne by done. rewrite PG. split; [naive_solver|].
        intros [[H|[= -> ->]] Hbm]; [done|]. destruct Hbm as (q' & Hm & Hq' & Hpq' & E).
        rewrite Ek in E. apply key_inj in E; [|plains..]. by injection E as -> _.
    + intros m sub. destruct (decide (n = m)) as [<-|Hne].
      * rewrite lookup_insert_eq. intros [= <-]. apply insert_non_empty.
      * rewrite lookup_insert_ne by done. apply PN.
Qed.

Lemma partition_spec ov :
  (forall k op, ov !! k = Some op -> key_under k) ->
  exists groups files, partition (join (bs "/") pre) ov = Ok (groups, files) /\
    partitioned (btree_list ov) groups files.
Proof.
  intros Hu. unfold partition.
  assert (forall l2 l1 groups files, NoDup (l1 ++ l2).*1 -> Forall (fun kv => key_under kv.1) l2 ->
    partitioned l1 groups files ->
    exists groups' files', try_fold (partition_step (join (bs "/") pre)) (groups, files) l2 = Ok (groups', files') /\
      partitioned (l1 ++ l2) groups' files') as Hind.
  { induction l2 as [|[k op] l2 IH]; intros l1 groups files Hnd Hl2 Hp.
    { exists groups, files. by rewrite app_nil_r. }
    apply Forall_cons in Hl2 as [Hk Hl2]. rewrite fmap_app in Hnd.
    assert (k ∉ l1.*1) as Hk1.
    { apply NoDup_app in Hnd as (_ & Hd & _). intros Hin. apply (Hd k Hin). simpl. by left. }
    destruct (partitioned_snoc l1 groups files k op Hk1 Hk Hp) as (g' & f' & Hs & Hp').
    cbn [try_fold]. rewrite Hs, bind_of_ok.
    rewrite <- fmap_app, cons_middle, app_assoc in Hnd. rewrite cons_middle, app_assoc.
    apply (IH (l1 ++ [(k, op)])); [exact Hnd|exact Hl2|exact Hp']. }
  destruct (Hind (btree_list ov) [] ∅ ∅) as (g & f & Hg & Hp).
  - apply btree_list_nodup.
  - apply Forall_forall. intros [k op] H%elem_of_btree_list. by apply (Hu k op).
  - split.
    + intros n op. rewrite lookup_empty. split; [done|]. by intros [_ H%elem_of_nil].
    + intros n k op. setoid_rewrite lookup_empty. split; [by intros (? & ? & ?)|].
      by intros [H%elem_of_nil _].
    + intros n sub. by rewrite lookup_empty.
  - by exists g, f.
Qed.
End partition.

(** ** The files of the result *)

(** The overlay has a path below [p]: [p] becomes a directory, or nothing. *)
Definition has_ext (ov : Overlay) (p : list str) : Prop :=
  exists q, q <> [] /\ Forall plain q /\ is_Some (ov !! join (bs "/") (p ++ q)).

(** The overlay has a path strictly above [p]: the base below it is hidden. *)
Definition covered (ov : Overlay) (pre p : list str) : Prop :=
  exists q1 q2, p = q1 ++ q2 /\ q1 <> [] /\ q2 <> [] /\ is_Some (ov !! join (bs "/") (pre ++ q1)).

Definition overlay_file (ov : Overlay) (pre : list str) (basef : list str -> FileId -> Prop)
    (p : list str) (f : FileId) : Prop :=
  ~ has_ext ov (pre ++ p) /\
  (ov !! join (bs "/") (pre ++ p) = Some (Some f) \/
   (ov !! join (bs "/") (pre ++ p) = None /\ ~ covered ov pre p /\ basef p f)).

Section steps.
Context (pre : list str) (Hpre : Forall plain pre) (ov : Overlay)
  (groups : gmap str Overlay) (files : Overlay)
  (Hp : partitioned pre (btree_list ov) groups files).

Lemma files_lookup n : plain n -> files !! n = ov !! join (bs "/") (pre ++ [n]).
Proof.
  intros Hn. apply option_eq. intros op. rewrite (pt_files _ _ _ _ Hp), elem_of_btree_list. naive_solver.
Qed.

Lemma groups_lookup n sub q :
  groups !! n = Some sub -> plain n -> q <> [] -> Forall plain q ->
  sub !! join (bs "/") ((pre ++ [n]) ++ q) = ov !! join (bs "/") (pre ++ n :: q).
Proof.
  intros Hg Hn Hq Hpq. rewrite <- app_assoc. cbn [app].
  apply option_eq. intros op. pose proof (pt_groups _ _ _ _ Hp n (join (bs "/") (pre ++ n :: q)) op) as H.
  rewrite elem_of_btree_list in H. split.
  - intros Hs. apply H. by exists sub.
  - intros Ho. destruct H as [_ H]. destruct H as (sub' & Hs' & Hl); [|congruence].
    split; [done|]. by exists q.
Qed.

Lemma groups_none n q :
  groups !! n = None -> plain n -> q <> [] -> Forall plain q ->
  ov !! join (bs "/") (pre ++ n :: q) = None.
Proof.
  intros Hg Hn Hq Hpq. destruct (ov !! join (bs "/") (pre ++ n :: q)) as [op|] eqn:E; [|done].
  pose proof (pt_groups _ _ _ _ Hp n (join (bs "/") (pre ++ n :: q)) op) as H.
  rewrite elem_of_btree_list in H. destruct H as [_ H].
  destruct H as (sub & Hs & _); [|congruence]. split; [done|]. by exists q.
Qed.

Lemma group_key n sub k op :
  groups !! n = Some sub -> sub !! k = Some op -> ov !! k = Some op /\ below pre n k.
Proof.
  intros Hg Hs. rewrite <- elem_of_btree_list. apply (pt_groups _ _ _ _ Hp). by exists sub.
Qed.

Lemma group_plain n sub : groups !! n = Some sub -> plain n.
Proof.
  intros Hg. pose proof (pt_nonempty _ _ _ _ Hp n sub Hg) as Hne.
  apply map_choose in Hne as (k & op & Hk). apply (group_key n sub k op Hg) in Hk as [_ (q & Hn & _)].
  done.
Qed.

Lemma has_ext_group n sub : groups !! n = Some sub -> has_ext ov (pre ++ [n]).
Proof.
  intros Hg. pose proof (pt_nonempty _ _ _ _ Hp n sub Hg) as Hne.
  apply map_choose in Hne as (k & op & Hk).
  apply (group_key n sub k op Hg) in Hk as [Hk (q & Hn & Hq & Hpq & ->)].
  exists q. rewrite <- app_assoc. split; [done|]. split; [done|]. by exists op.
Qed.

Lemma covered_cons n p :
  p <> [] -> covered ov pre (n :: p) <->
  is_Some (ov !! join (bs "/") (pre ++ [n])) \/
  exists q1 q2, p = q1 ++ q2 /\ q1 <> [] /\ q2 <> [] /\ is_Some (ov !! join (bs "/") (pre ++ n :: q1)).
Proof.
  intros Hp0. split.
  - intros (q1 & q2 & E & H1 & H2 & Hs). destruct q1 as [|m q1]; [done|]. injection E as <- ->.
    destruct (decide (q1 = [])) as [->|Hq1]; [by left|right]. by exists q1, q2.
  - intros [Hs|(q1 & q2 & -> & H1 & H2 & Hs)]; [by exists [n], p|]. by exists (n :: q1), q2.
Qed.

(** Below a group, the group decides. *)
Lemma overlay_file_group basef n sub p f :
  groups !! n = Some sub -> p <> [] -> Forall plain p ->
  overlay_file ov pre basef (n :: p) f <->
  overlay_file sub (pre ++ [n]) (fun p f => files !! n = None /\ basef (n :: p) f) p f.
Proof.
  intros Hg Hp0 Hpp. pose proof (group_plain _ _ Hg) as Hn. unfold overlay_file.
  assert (has_ext ov (pre ++ n :: p) <-> has_ext sub ((pre ++ [n]) ++ p)) as ->.
  { unfold has_ext. split; intros (q & Hq & Hpq & Hs); exists q; split_and!; try done.
    - rewrite <- app_assoc in *. rewrite (groups_lookup n sub (p ++ q)); [done|done|done| |].
      + by destruct p.
      + by apply Forall_app.
    - rewrite <- app_assoc in *. rewrite (groups_lookup n sub (p ++ q)) in Hs; [done|done|done| |].
      + by destruct p.
      + by apply Forall_app. }
  rewrite (groups_lookup n sub p) by done.
  assert (covered ov pre (n :: p) <-> is_Some (files !! n) \/ covered sub (pre ++ [n]) p) as ->.
  { rewrite covered_cons by done. rewrite files_lookup by done. unfold covered.
    apply or_iff_compat_l. split; intros (q1 & q2 & -> & H1 & H2 & Hs); exists q1, q2; split_and!; try done;
      apply Forall_app in Hpp as [? ?]; [rewrite (groups_lookup n sub q1)|rewrite (groups_lookup n sub q1) in Hs];
      done. }
  destruct (files !! n) as [o|].
  - split; intros [H1 [H2|(H2 & H3 & H4)]]; (split; [done|]); [by left|exfalso; apply H3; left; by exists o|by left|].
    by destruct H4.
  - split; intros [H1 [H2|(H2 & H3 & H4)]]; (split; [done|]); [by left|right|by left|right];
      (split; [done|]); split; try tauto. by intros [[? ?]|?].
Qed.

(** Where there is no group, an edit of the name hides what is below it. *)
Lemma overlay_file_plain basef n p f :
  groups !! n = None -> p <> [] -> Forall plain (n :: p) ->
  overlay_file ov pre basef (n :: p) f <-> files !! n = None /\ basef (n :: p) f.
Proof.
  intros Hg Hp0 [Hn Hpp]%Forall_cons. unfold overlay_file.
  rewrite (groups_none n p), covered_cons, files_lookup by done.
  assert (~ has_ext ov (pre ++ n :: p)) as Hx.
  { intros (q & Hq & Hpq & [o Ho]). rewrite <- app_assoc in Ho. cbn [app] in Ho.
    rewrite (groups_none n (p ++ q)) in Ho; [done|done|done|by destruct p|by apply Forall_app]. }
  assert (~ exists q1 q2, p = q1 ++ q2 /\ q1 <> [] /\ q2 <> [] /\
    is_Some (ov !! join (bs "/") (pre ++ n :: q1))) as Hc.
  { intros (q1 & q2 & -> & H1 & H2 & [o Ho]). apply Forall_app in Hpp as [? ?].
    by rewrite (groups_none n q1) in Ho. }
  destruct (ov !! join (bs "/") (pre ++ [n])) as [o|] eqn:E.
  - split; [|by intros []]. intros (_ & [[=]|(_ & Hco & _)]). exfalso. eauto.
  - split; [naive_solver|]. intros [_ Hb]. split; [done|]. right. split; [done|]. split; [|done].
    intros [[o Ho]|?]; [done|]. by apply Hc.
Qed.

Lemma overlay_file_leaf basef n f :
  groups !! n = None -> plain n ->
  overlay_file ov pre basef [n] f <->
  files !! n = Some (Some f) \/ (files !! n = None /\ basef [n] f).
Proof.
  intros Hg Hn. unfold overlay_file. rewrite files_lookup by done.
  assert (~ has_ext ov (pre ++ [n])) as Hx.
  { intros (q & Hq & Hpq & [o Ho]). rewrite <- app_assoc in Ho. cbn [app] in Ho.
    by rewrite (groups_none n q) in Ho. }
  assert (~ covered ov pre [n]) as Hc.
  { intros (q1 & q2 & E & H1 & H2 & _). destruct q1 as [|? [|]], q2; simplify_eq/=. }
  naive_solver.
Qed.

Lemma overlay_file_dir basef n sub f : groups !! n = Some sub -> ~ overlay_file ov pre basef [n] f.
Proof. intros Hg [Hx _]. by apply Hx, (has_ext_group n sub). Qed.

(** Each name of this directory comes from a path of the overlay. *)
Definition first_name (k : str) : str :=
  match strip_path_prefix k (join (bs "/") pre) with
  | Some rest => hd [] (split_byte "/"%byte rest)
  | None => []
  end.

Lemma first_name_join n q : Forall plain (n :: q) -> first_name (join (bs "/") (pre ++ n :: q)) = n.
Proof. intros H. unfold first_name. rewrite strip_join by done. by rewrite split_join. Qed.

Lemma names_bound (l : list str) :
  NoDup l -> (forall n, n ∈ l -> is_Some (groups !! n) \/ is_Some (files !! n)) ->
  len l <= Z.of_nat (size ov).
Proof.
  intros Hnd Hl. unfold len. apply Nat2Z.inj_le.
  rewrite <- (length_map_to_list ov), <- (length_fmap (fun kv => first_name kv.1)).
  apply submseteq_length, NoDup_submseteq; [done|].
  intros n [[sub Hg]|[op Ho]]%Hl; apply list_elem_of_fmap.
  - pose proof (pt_nonempty _ _ _ _ Hp n sub Hg) as Hne. apply map_choose in Hne as (k & op & Hk).
    apply (group_key n sub k op Hg) in Hk as [Hk (q & Hn & Hq & Hpq & ->)].
    eexists (_, op). rewrite elem_of_map_to_list. split; [|exact Hk].
    cbn [fst]. rewrite first_name_join; [done|plains].
  - apply (pt_files _ _ _ _ Hp) in Ho as [Hn Ho%elem_of_btree_list].
    eexists (_, op). rewrite elem_of_map_to_list. split; [|exact Ho].
    cbn [fst]. rewrite first_name_join; [done|plains].
Qed.
End steps.

(** ** One level *)

Section level.
Context {St : Type} `{TSL : TreeStoreLaws St}.
Implicit Types (s : St) (base : option ObjectId) (ov sub : Overlay) (pre : list str).

Definition base_files s base (p : list str) (f : FileId) : Prop :=
  match base with Some id => file_in s id p f | None => False end.
Definition base_closed s base : Prop :=
  match base with Some id => closed s id | None => True end.

(** Input on which the fold cannot fail: a writable store, valid names, and
    no directory that could outgrow the limit. *)
Definition names_ok (pre : list str) (ov : Overlay) : Prop :=
  forall q, q <> [] -> Forall plain q -> is_Some (ov !! join (bs "/") (pre ++ q)) -> Forall valid_name q.
Definition roomy (k : Z) (t : Tree) : Prop := len (entries t) + k <= MAX_TREE_ENTRIES.
Definition fits s base (k : Z) : Prop :=
  match base with
  | Some id => exists n, complete (roomy k) s n id
  | None => k <= MAX_TREE_ENTRIES
  end.
Definition good_input s base pre ov : Prop :=
  ts_writable s /\ names_ok pre ov /\ fits s base (Z.of_nat (size ov)).

Lemma base_files_mono s s' base p f :
  ts_inv s -> extends s s' -> base_closed s base -> base_files s' base p f <-> base_files s base p f.
Proof.
  intros Hi He Hc. destruct base as [id|]; [|done]. simpl in *. split.
  - by apply file_in_back.
  - by apply file_in_mono.
Qed.

Lemma empty_tree_wf : wf_tree empty_tree.
Proof. split; constructor. Qed.

(** The tree a level starts from. *)
Definition base_holds s base (t : Tree) : Prop :=
  match base with Some id => ts_holds s id t | None => t = empty_tree end.

Lemma base_holds_wf s base t : ts_inv s -> base_holds s base t -> wf_tree t.
Proof. intros Hi. destruct base; simpl; [by apply ts_holds_wf|intros ->; apply empty_tree_wf]. Qed.

Lemma read_base s base (Q : Result Tree -> St -> Prop) :
  ts_inv s -> base_closed s base ->
  (forall t s', extends s s' -> base_holds s base t -> Q (Ok t) s') ->
  (forall e s', extends s s' -> ts_fault e -> Q (Err e) s') ->
  wp (match base with Some id => get_tree id | None => mret empty_tree end) s Q.
Proof.
  intros Hi Hc HQ HE. destruct base as [id|].
  - apply get_tree_closed; [done|done| |done]. intros t s' He Ht _. by apply HQ.
  - apply wp_ret, HQ; [by apply extends_refl|done].
Qed.

(** The files below a name, from the entry of that name. *)
Lemma file_in_cons s id t n p f :
  ts_inv s -> ts_holds s id t ->
  file_in s id (n :: p) f <->
  exists e, find_entry (entries t) n = Some e /\
    match p with
    | [] => e_kind e = KBlob /\ f = (e_id e, e_exec e)
    | _ => e_kind e = KTree /\ file_in s (e_id e) p f
    end.
Proof.
  intros Hi Ht. split.
  - intros H. inversion H as [? t' ? e Ht' Hf Hk|? t' ? e ? ? Ht' Hf Hk Hr]; subst;
      rewrite (ts_holds_fun s id t' t Hi Ht' Ht) in *; exists e; [done|].
    split; [done|]. destruct p; [|done]. apply file_in_names in Hr as [? _]; done.
  - intros (e & Hf & He). destruct p as [|m p].
    + destruct He as [Hk ->]. by eapply file_here.
    + destruct He as [Hk Hr]. by eapply file_below.
Qed.

Lemma base_files_cons s base t n p f :
  ts_inv s -> base_holds s base t ->
  base_files s base (n :: p) f <->
  exists e, find_entry (entries t) n = Some e /\
    match p with
    | [] => e_kind e = KBlob /\ f = (e_id e, e_exec e)
    | _ => e_kind e = KTree /\ file_in s (e_id e) p f
    end.
Proof.
  intros Hi Ht. destruct base as [id|]; simpl in *; [by apply file_in_cons|].
  subst t. split; [done|]. intros (e & Hf & _). discriminate Hf.
Qed.

Section child.
Context (s : St) (base : option ObjectId) (bt : Tree) (files : Overlay)
  (Hi : ts_inv s) (Hc : base_closed s base) (Hb : base_holds s base bt).

Lemma child_base_files n p f :
  p <> [] ->
  base_files s (child_base files bt n) p f <-> files !! n = None /\ base_files s base (n :: p) f.
Proof.
  intros Hp. unfold child_base. destruct (files !! n); [naive_solver|].
  rewrite Tree_get_find by (by eapply base_holds_wf).
  rewrite (base_files_cons s base bt) by done.
  destruct p as [|m p]; [done|]. destruct (find_entry (entries bt) n) as [e|].
  - case_bool_decide as Hk; simpl; naive_solver.
  - simpl. naive_solver.
Qed.

Lemma child_base_entry n id :
  child_base files bt n = Some id -> exists e, e ∈ entries bt /\ e_kind e = KTree /\ e_id e = id.
Proof.
  unfold child_base. destruct (files !! n); [done|].
  rewrite Tree_get_find by (by eapply base_holds_wf).
  destruct (find_entry (entries bt) n) as [e|] eqn:E; [|done].
  apply find_entry_some in E as [He _]. case_bool_decide; [|done]. intros [= <-]. by exists e.
Qed.

Lemma child_base_closed n : base_closed s (child_base files bt n).
Proof.
  destruct (child_base files bt n) as [id|] eqn:E; [|done].
  apply child_base_entry in E as (e & He & Hk & <-). destruct base as [b|]; simpl in *.
  - by apply (closed_child s b bt).
  - subst bt. by apply elem_of_nil in He.
Qed.

Lemma child_base_fits n k k' :
  fits s base k -> k' <= k -> fits s (child_base files bt n) k'.
Proof.
  intros Hf Hk. destruct (child_base files bt n) as [id|] eqn:E; simpl.
  - apply child_base_entry in E as (e & He & Hke & <-). destruct base as [b|]; simpl in *.
    + destruct Hf as [[|m] Hm]; [done|]. destruct Hm as (t & Ht & _ & Hch).
      rewrite (ts_holds_fun s b t bt Hi Ht Hb) in Hch. exists m.
      eapply complete_weaken; [|by apply Hch]. unfold roomy. intros; lia.
    + subst bt. by apply elem_of_nil in He.
  - destruct base as [b|]; simpl in *; [|lia].
    destruct Hf as [[|m] Hm]; [done|]. destruct Hm as (t & Ht & Hr & _). unfold roomy in Hr. lens_lia.
Qed.
End child.

Lemma fits_mono s s' base k : extends s s' -> fits s base k -> fits s' base k.
Proof.
  intros [_ _ He]. destruct base as [id|]; [|done]. intros [n Hn]. exists n.
  by apply (complete_mono _ s).
Qed.
Lemma base_closed_mono s s' base : extends s s' -> base_closed s base -> base_closed s' base.
Proof. destruct base; [apply closed_mono|done]. Qed.

(** The specification of [apply_level], used as the induction hypothesis for
    the subdirectories. *)
Definition level_post s base pre ov (r : Result ObjectId) s' : Prop :=
  extends s s' /\
  match r with
  | Ok id => closed s' id /\ forall p f, p <> [] -> Forall plain p ->
      file_in s' id p f <-> overlay_file ov pre (base_files s base) p f
  | Err e => ts_fault e \/ ~ good_input s base pre ov
  | Panic => False
  end.

Definition level_pre s base pre ov (fuel : nat) : Prop :=
  ts_inv s /\ base_closed s base /\ (forall k op, ov !! k = Some op -> key_under pre k) /\
  (1 <= fuel)%nat /\
  (forall q, Forall plain q -> is_Some (ov !! join (bs "/") (pre ++ q)) -> (length q <= fuel)%nat).

Section fold_groups.
Context (s0 : St) (base : option ObjectId) (bt : Tree) (pre : list str) (ov : Overlay)
  (groups : gmap str Overlay) (files : Overlay) (fuel : nat)
  (Hpre : Forall plain pre) (Hi0 : ts_inv s0) (Hc0 : base_closed s0 base)
  (Hb0 : base_holds s0 base bt) (Hp : partitioned pre (btree_list ov) groups files)
  (Hlen : forall q, Forall plain q -> is_Some (ov !! join (bs "/") (pre ++ q)) -> (length q <= S fuel)%nat)
  (IH : forall base pre (ov : Overlay) s, Forall plain pre -> level_pre s base pre ov fuel ->
    wp (apply_level fuel base (join (bs "/") pre) ov) s (level_post s base pre ov)).

(** What the edit of a group is, once its directory has been written. *)
Definition group_edit s (n : str) (sub : Overlay) (o : option TreeEntry) : Prop :=
  let files_of := overlay_file sub (pre ++ [n]) (base_files s0 (child_base files bt n)) in
  match o with
  | None => forall p f, p <> [] -> Forall plain p -> ~ files_of p f
  | Some e => e_name e = n /\ e_kind e = KTree /\ closed s (e_id e) /\
      forall p f, p <> [] -> Forall plain p -> file_in s (e_id e) p f <-> files_of p f
  end.

Definition edits_inv (done : list (str * Overlay)) (edits : gmap str (option TreeEntry)) s : Prop :=
  extends s0 s /\
  (forall n, n ∉ done.*1 -> edits !! n = file_edits files !! n) /\
  (forall n sub, (n, sub) ∈ done -> exists o, edits !! n = Some o /\ group_edit s n sub o).

Lemma group_edit_mono s s' n sub o :
  ts_inv s -> extends s s' -> group_edit s n sub o -> group_edit s' n sub o.
Proof.
  intros Hi He. destruct o as [e|]; [|done]. intros (Hn & Hk & Hc & Hf). split_and!; try done.
  - by eapply closed_mono.
  - intros p f Hpp Hpl. rewrite <- Hf by done. split; [by apply file_in_back|by apply file_in_mono].
Qed.

Lemma group_pre n sub s :
  groups !! n = Some sub -> extends s0 s ->
  level_pre s (child_base files bt n) (pre ++ [n]) sub fuel.
Proof.
  intros Hg He. pose proof (group_plain pre ov groups files Hp n sub Hg) as Hn.
  assert (forall k op, sub !! k = Some op -> key_under (pre ++ [n]) k) as Hk.
  { intros k op H. apply (group_key pre ov groups files Hp n sub k op Hg) in H as [_ (q & _ & Hq & Hpq & ->)].
    exists q. by rewrite <- app_assoc. }
  assert (forall q, Forall plain q -> is_Some (sub !! join (bs "/") ((pre ++ [n]) ++ q)) -> q <> [] ->
    (length q <= fuel)%nat) as Hl.
  { intros q Hq Hs Hne. rewrite (groups_lookup pre ov groups files Hp n sub q) in Hs by done.
    specialize (Hlen (n :: q) ltac:(plains) Hs). simpl in Hlen. lia. }
  split; [apply He|]. split.
  { eapply base_closed_mono; [done|]. by eapply child_base_closed. }
  split; [done|]. split.
  - pose proof (pt_nonempty _ _ _ _ Hp n sub Hg) as Hne. apply map_choose in Hne as (k & op & Hs).
    destruct (Hk k op Hs) as (q & Hq & Hpq & ->). specialize (Hl q Hpq ltac:(by exists op) Hq).
    destruct q; [done|]. simpl in Hl. lia.
  - intros q Hq Hs. destruct (decide (q = [])) as [->|Hne]; [simpl; lia|by apply Hl].
Qed.

Lemma group_good n sub s :
  groups !! n = Some sub -> extends s0 s -> good_input s0 base pre ov ->
  good_input s (child_base files bt n) (pre ++ [n]) sub.
Proof.
  intros Hg He (Hw & Hn & Hf). split; [by apply He|]. split.
  - intros q Hq Hpq Hs. pose proof (group_plain pre ov groups files Hp n sub Hg).
    rewrite (groups_lookup pre ov groups files Hp n sub q) in Hs by done.
    specialize (Hn (n :: q) ltac:(done) ltac:(plains) Hs). by apply Forall_cons in Hn as [_ Hn].
  - eapply fits_mono; [done|]. eapply child_base_fits; [done..|]. apply Nat2Z.inj_le, map_subseteq_size.
    apply map_subseteq_spec. intros k op Hs. by apply (group_key pre ov groups files Hp n sub) in Hs as [? _].
Qed.

Lemma fold_groups (Q : Result (gmap str (option TreeEntry)) -> St -> Prop) s :
  extends s0 s ->
  (forall edits s', edits_inv (btree_list groups) edits s' -> Q (Ok edits) s') ->
  (forall e s', extends s0 s' -> ts_fault e \/ ~ good_input s0 base pre ov -> Q (Err e) s') ->
  wp (m_fold (fun edits '(name, sub) =>
          child_id ← apply_level fuel (child_base files bt name) (child_path (join (bs "/") pre) name) sub;
          child_tree ← get_tree child_id;
          let edit := if is_empty child_tree then None
                      else Some (mkEntry name KTree child_id false) in
          mret (<[name := edit]> edits))
        (file_edits files) (btree_list groups)) s Q.
Proof.
  intros He HQ HE. apply (wp_m_fold _ edits_inv); [| |intros; by apply HQ].
  { split; [done|]. split; [done|]. by intros n sub ?%elem_of_nil. }
  intros l1 [n sub] l2 edits s1 El (He1 & Hfiles & Hdone).
  assert (groups !! n = Some sub) as Hg.
  { apply elem_of_btree_list. rewrite El. apply elem_of_app. right. by left. }
  pose proof (group_plain pre ov groups files Hp n sub Hg) as Hn.
  assert (n ∉ l1.*1) as Hnew.
  { pose proof (btree_list_nodup groups) as Hnd. rewrite El, fmap_app in Hnd.
    apply NoDup_app in Hnd as (_ & Hd & _). intros Hin. apply (Hd n Hin). by left. }
  rewrite child_path_join by done. apply wp_bind.
  eapply wp_mono; [apply IH; [apply Forall_app; split; plains|by apply group_pre]|].
  intros [id|e|] s2 [He2 Hr]; [|apply HE; [by eapply extends_trans|]|done].
  2: { destruct Hr as [Hr|Hr]; [by left|right]. intros Hgood. by eapply Hr, group_good. }
  destruct Hr as [Hcl Hff].
  assert (extends s0 s2) as He02 by (by eapply extends_trans).
  apply wp_bind, get_tree_closed; [apply He2|done| |].
  2: { intros e s3 He3 Hfe. apply HE; [by eapply extends_trans|by left]. }
  intros t s3 He3 Ht _. apply wp_ret.
  assert (extends s0 s3) as He03 by (by eapply extends_trans).
  assert (extends s1 s3) as He13 by (by eapply extends_trans).
  assert (forall p f, p <> [] -> Forall plain p ->
    file_in s3 id p f <-> overlay_file sub (pre ++ [n]) (base_files s0 (child_base files bt n)) p f) as Hf3.
  { intros p f Hp0 Hpp.
    assert (file_in s3 id p f <-> file_in s2 id p f) as ->.
    { split; [apply file_in_back; [apply He2|done|done]|by apply file_in_mono]. }
    rewrite Hff by done. unfold overlay_file.
    rewrite (base_files_mono s0 s1); [done|done|done|by eapply child_base_closed]. }
  split; [done|]. split.
  - intros m Hm. rewrite fmap_app, elem_of_app in Hm. rewrite lookup_insert_ne; [apply Hfiles; tauto|].
    intros ->. apply Hm. right. by left.
  - intros m sub' [Hin|Hin%list_elem_of_singleton]%elem_of_app.
    + destruct (Hdone m sub' Hin) as (o & Ho & Hgo). exists o. split.
      * rewrite lookup_insert_ne; [done|]. intros E. apply Hnew. rewrite E. apply list_elem_of_fmap. by exists (m, sub').
      * eapply group_edit_mono; [apply He1|done|done].
    + injection Hin as -> ->. rewrite lookup_insert_eq. eexists; split; [done|].
      unfold group_edit, is_empty. destruct (entries t) as [|e0 es] eqn:Et.
      * intros p f Hp0 Hpp. rewrite <- Hf3 by done. intros Hin.
        destruct p as [|x p]; [done|].
        apply (file_in_cons s3 id t) in Hin as (e & Hfe & _); [|apply He3|by apply He3].
        rewrite Et in Hfe. discriminate Hfe.
      * split_and!; [done|done|by apply (closed_mono s2)|done].
Qed.
End fold_groups.

Lemma file_edits_lookup (files : Overlay) n : file_edits files !! n = file_edit n <$> files !! n.
Proof. unfold file_edits. rewrite map_lookup_imap. by destruct (files !! n). Qed.

(** From the edits to the new tree of the directory. *)
Section finish.
Context (s0 s : St) (base : option ObjectId) (bt : Tree) (pre : list str) (ov : Overlay)
  (groups : gmap str Overlay) (files : Overlay) (edits : gmap str (option TreeEntry))
  (Hpre : Forall plain pre) (Hi0 : ts_inv s0) (Hc0 : base_closed s0 base)
  (Hb0 : base_holds s0 base bt) (Hp : partitioned pre (btree_list ov) groups files)
  (He : edits_inv s0 bt pre files (btree_list groups) edits s).

Lemma edit_of_group n sub :
  groups !! n = Some sub -> exists o, edits !! n = Some o /\ group_edit s0 bt pre files s n sub o.
Proof. intros Hg. destruct He as (_ & _ & H). apply H. by apply elem_of_btree_list. Qed.

Lemma edit_of_file n : groups !! n = None -> edits !! n = file_edit n <$> files !! n.
Proof.
  intros Hg. destruct He as (_ & H & _). rewrite H, file_edits_lookup; [done|].
  intros ([m sub] & -> & Hin%elem_of_btree_list)%list_elem_of_fmap. cbn in Hg. by rewrite Hin in Hg.
Qed.

Lemma edit_name n e : edits !! n = Some (Some e) -> e_name e = n.
Proof.
  destruct (groups !! n) as [sub|] eqn:Hg.
  - apply edit_of_group in Hg as (o & -> & Ho). intros [= ->]. by destruct Ho.
  - rewrite edit_of_file by done. destruct (files !! n) as [[[i x]|]|]; [|done|done].
    by intros [= <-].
Qed.

Lemma edit_plain n : is_Some (edits !! n) -> is_Some (groups !! n) \/ is_Some (files !! n).
Proof.
  intros Ho. destruct (groups !! n) as [sub|] eqn:Hg; [left; by exists sub|right].
  rewrite edit_of_file in Ho by done. by apply fmap_is_Some in Ho.
Qed.

Lemma length_edits : len (btree_list edits) <= Z.of_nat (size ov).
Proof.
  replace (len (btree_list edits)) with (len (btree_list edits).*1)
    by (unfold len; by rewrite length_fmap).
  apply (names_bound pre Hpre ov groups files Hp); [apply btree_list_nodup|].
  intros n ([m o] & -> & H%elem_of_btree_list)%list_elem_of_fmap. apply edit_plain. by exists o.
Qed.

Lemma sorted_base : sorted_entries (entries bt).
Proof. by eapply wf_sorted, base_holds_wf. Qed.

Lemma merged_wf :
  wf_tree bt -> names_ok pre ov ->
  wf_tree (mkTree (merge_sorted_entries (entries bt) (btree_list edits))).
Proof.
  intros [Hn Hs] Hno. assert (edits_ok (btree_list edits)) as Hok.
  { split; [apply btree_list_sorted|]. intros n e H%elem_of_btree_list. by apply edit_name. }
  split; simpl; [|by apply merge_sorted].
  apply Forall_forall. intros e H%merge_elem; [|done|apply btree_list_sorted].
  destruct H as [[n H%elem_of_btree_list]|[Hin _]]; [|rewrite Forall_forall in Hn; by apply Hn].
  pose proof (edit_name n e H) as ->.
  destruct (edit_plain n) as [[sub Hg]|[o Ho]]; [by eexists| |].
  - destruct (has_ext_group pre ov groups files Hp n sub Hg) as (q & Hq & Hpq & Hs').
    rewrite <- app_assoc in Hs'. pose proof (group_plain pre ov groups files Hp n sub Hg).
    specialize (Hno (n :: q) ltac:(done) ltac:(plains) Hs'). by apply Forall_cons in Hno as [? _].
  - pose proof (pt_files _ _ _ _ Hp n o) as [Hf _]. destruct (Hf Ho) as [Hpl Hin%elem_of_btree_list].
    specialize (Hno [n] ltac:(done) ltac:(plains) ltac:(by exists o)). by apply Forall_cons in Hno as [? _].
Qed.

(** The entry of a name in the new tree. *)
Lemma find_new n :
  find_entry (merge_sorted_entries (entries bt) (btree_list edits)) n =
    match edits !! n with Some o => o | None => find_entry (entries bt) n end.
Proof. apply find_merge; [apply sorted_base|apply edit_name]. Qed.

Lemma new_entries_closed e :
  e ∈ merge_sorted_entries (entries bt) (btree_list edits) -> e_kind e = KTree -> closed s (e_id e).
Proof.
  intros Hin Hk. assert (edits_ok (btree_list edits)) as Hok.
  { split; [apply btree_list_sorted|]. intros n e' H%elem_of_btree_list. by apply edit_name. }
  pose proof (merge_sorted _ _ sorted_base Hok) as Hs.
  pose proof (find_entry_sorted _ (e_name e) e Hs Hin eq_refl) as Hf. rewrite find_new in Hf.
  destruct (groups !! e_name e) as [sub|] eqn:Hg.
  - destruct (edit_of_group _ _ Hg) as (o & Ho & Hge). rewrite Ho in Hf. subst o. by destruct Hge as (_ & _ & ? & _).
  - rewrite edit_of_file in Hf by done. destruct (files !! e_name e) as [[[i x]|]|]; [|done|].
    + injection Hf as Hf. by rewrite <- Hf in Hk.
    + apply find_entry_some in Hf as [Hin' _]. eapply closed_mono; [apply He|].
      destruct base as [b|]; simpl in *; [by apply (closed_child s0 b bt)|].
      rewrite Hb0 in Hin'. by apply elem_of_nil in Hin'.
Qed.

Lemma new_files s' id p f :
  extends s s' -> ts_holds s' id (mkTree (merge_sorted_entries (entries bt) (btree_list edits))) ->
  p <> [] -> Forall plain p ->
  file_in s' id p f <-> overlay_file ov pre (base_files s0 base) p f.
Proof.
  intros He' Ht Hp0 Hpl. destruct p as [|n p]; [done|]. apply Forall_cons in Hpl as [Hn Hpl].
  rewrite (file_in_cons s' id _ n p f (ext_inv _ _ He') Ht). cbn [entries]. rewrite find_new.
  assert (extends s0 s') as He0 by (eapply extends_trans; [apply He|done]).
  destruct (groups !! n) as [sub|] eqn:Hg.
  - destruct (edit_of_group _ _ Hg) as (o & -> & Hge). destruct p as [|m p].
    + split; [|by intros ?%(overlay_file_dir pre ov groups files Hp _ n sub)].
      intros (e & -> & Hk & _). destruct Hge as (_ & Hk' & _). congruence.
    + rewrite (overlay_file_group pre ov groups files Hp (base_files s0 base) n sub) by done.
      set (files_of := overlay_file sub (pre ++ [n]) (base_files s0 (child_base files bt n))) in *.
      assert (overlay_file sub (pre ++ [n]) (fun p f => files !! n = None /\ base_files s0 base (n :: p) f) (m :: p) f
        <-> files_of (m :: p) f) as ->.
      { unfold files_of, overlay_file. by rewrite (child_base_files s0 base bt). }
      destruct o as [e|].
      * destruct Hge as (Hne & Hk & Hcl & Hff). unfold files_of. rewrite <- Hff by done. split.
        -- intros (e' & [= <-] & _ & Hf). by apply (file_in_back s s'); [apply He|..].
        -- intros Hf. exists e. split; [done|]. split; [done|]. by apply (file_in_mono s).
      * split; [by intros (e & ? & _)|]. intros Hf. by apply Hge in Hf.
  - rewrite edit_of_file by done. pose proof (base_files_cons s0 base bt n p f Hi0 Hb0) as Hbf.
    assert (match p with
      | [] => forall e, e_kind e = KBlob /\ f = (e_id e, e_exec e) <-> e_kind e = KBlob /\ f = (e_id e, e_exec e)
      | _ => forall e, find_entry (entries bt) n = Some e -> e_kind e = KTree ->
          file_in s' (e_id e) p f <-> file_in s0 (e_id e) p f
      end) as Hbk.
    { destruct p as [|m p]; [done|]. intros e Hfe Hk. apply find_entry_some in Hfe as [Hin _].
      split; [|by apply file_in_mono]. apply file_in_back; [done|done|].
      destruct base as [b|]; simpl in *; [by apply (closed_child s0 b bt)|].
      rewrite Hb0 in Hin. by apply elem_of_nil in Hin. }
    destruct p as [|m p].
    + rewrite (overlay_file_leaf pre ov groups files Hp) by done. rewrite Hbf.
      destruct (files !! n) as [[[i x]|]|]; simpl; naive_solver.
    + rewrite (overlay_file_plain pre ov groups files Hp) by (done || plains). rewrite Hbf.
      destruct (files !! n) as [[[i x]|]|]; simpl; [naive_solver..|].
      split.
      * intros (e & Hfe & Hk & Hf). split; [done|]. exists e. by rewrite <- Hbk.
      * intros (_ & e & Hfe & Hk & Hf). exists e. by rewrite Hbk.
Qed.
End finish.

Lemma apply_level_spec fuel base pre ov s :
  Forall plain pre -> level_pre s base pre ov fuel ->
  wp (apply_level fuel base (join (bs "/") pre) ov) s (level_post s base pre ov).
Proof.
  revert base pre ov s; induction fuel as [|fuel IH]; intros base pre ov s Hpre (Hi & Hc & Hk & Hf & Hl);
    [lia|]. cbn [apply_level]. apply wp_bind.
  apply read_base; [done|done| |].
  2: { intros e s1 He1 Hfe. split; [done|by left]. }
  intros bt s1 He1 Hb. apply wp_bind, wp_pure.
  destruct (partition_spec pre Hpre ov Hk) as (groups & files & -> & Hp). cbv beta iota.
  pose proof (base_holds_wf s base bt Hi Hb) as Hwf.
  apply wp_bind, (fold_groups s base bt pre ov groups files fuel); try done.
  intros edits s2 He. apply wp_bind, wp_pure.
  pose proof (length_edits s s2 bt pre ov groups files edits Hpre Hp He) as Hlen.
  pose proof (length_merge (entries bt) (btree_list edits)) as Hml.
  assert (good_input s base pre ov ->
    len (merge_sorted_entries (entries bt) (btree_list edits)) <= MAX_TREE_ENTRIES) as Hroom.
  { intros (_ & _ & Hfit). destruct base as [b|]; simpl in *.
    - destruct Hfit as [[|m] Hm]; [done|]. destruct Hm as (t & Ht & Hr & _).
      rewrite (ts_holds_fun s b t bt Hi Ht Hb) in Hr. unfold roomy in Hr. lia.
    - subst bt. change (entries empty_tree) with (@nil TreeEntry) in *.
      change (len (@nil TreeEntry)) with 0 in Hml. lia. }
  assert (extends s s2) as He02 by apply He.
  destruct (Z.ltb_spec MAX_TREE_ENTRIES (len (merge_sorted_entries (entries bt) (btree_list edits)))) as [Hbig|Hsmall].
  { split; [done|right]. intros Hg. specialize (Hroom Hg). lia. }
  cbn [reject_if]. apply wp_bind, wp_pure.
  destruct (from_canonical (merge_sorted_entries (entries bt) (btree_list edits))) as [t|e|] eqn:Ec.
  - apply from_canonical_spec in Ec as [-> Hw]. apply wp_intro. intros r s3 Hput.
    apply (wp_elim _ _ _ _ _ (put_tree_spec s2 _ (ext_inv _ _ He02) Hw)) in Hput
      as (Hi3 & Hw3 & Hh3 & Hr).
    assert (extends s2 s3) as He3 by done. split; [by eapply extends_trans|].
    destruct r as [id|e|]; [| |done].
    2: { destruct Hr as [Hr|Hr]; [by left|right]. intros Hg. cbn [entries] in Hr.
         specialize (Hr (ext_writable _ _ He02 (proj1 Hg))). lia. }
    split.
    + eapply closed_intro; [exact Hr|]. intros e Hin Hke. eapply closed_mono; [done|].
      by apply (new_entries_closed s s2 base bt pre groups files edits).
    + intros p f Hp0 Hpl. eapply new_files; eauto.
  - split; [done|right]. intros (_ & Hn & _).
    assert (from_canonical (merge_sorted_entries (entries bt) (btree_list edits)) =
      Ok (mkTree (merge_sorted_entries (entries bt) (btree_list edits)))) as Hok.
    { apply from_canonical_spec. split; [done|].
      eapply merged_wf; eauto. }
    congruence.
  - by apply no_panic_from_canonical in Ec.
Qed.

(** Paths of the overlay: names joined by single slashes, none empty. *)
Definition wf_overlay ov : Prop :=
  forall k, is_Some (ov !! k) -> Forall plain (split_byte "/"%byte k).

Lemma join_length (q : list str) : Forall plain q -> (length q <= length (join (bs "/") q))%nat.
Proof.
  induction 1 as [|n q [Hn _] H IH]; [done|]. destruct (decide (q = [])) as [->|Hq].
  - destruct n; [done|]. simpl. lia.
  - rewrite join_cons by done. rewrite length_app. simpl. lia.
Qed.

Lemma overlay_fuel_bound ov k : is_Some (ov !! k) -> (length k < overlay_fuel ov)%nat.
Proof.
  intros [op Ho]. unfold overlay_fuel. apply elem_of_map_to_list in Ho.
  induction (map_to_list ov) as [|[k' o'] l IH]; [by apply elem_of_nil in Ho|].
  rewrite fmap_cons. cbn [foldr fst].
  apply elem_of_cons in Ho as [[= -> ->]|Ho]; [lia|]. specialize (IH Ho). lia.
Qed.

Lemma overlay_key ov k : wf_overlay ov -> is_Some (ov !! k) -> key_under [] k.
Proof.
  intros Hw Hs. exists (split_byte "/"%byte k). split_and!.
  - destruct k as [|x k]; simpl; [done|]. repeat case_match; done.
  - by apply Hw.
  - cbn [app]. by rewrite join_split.
Qed.

Lemma apply_overlay_level base ov s :
  ts_inv s -> base_closed s base -> wf_overlay ov ->
  wp (apply_overlay base ov) s (level_post s base [] ov).
Proof.
  intros Hi Hc Hw. apply (apply_level_spec _ base [] ov); [constructor|].
  split; [done|]. split; [done|]. split.
  { intros k op Hk. apply (overlay_key ov); [done|by exists op]. }
  split; [unfold overlay_fuel; lia|]. intros q Hq Hs.
  pose proof (overlay_fuel_bound _ _ Hs). pose proof (join_length q Hq). cbn [app] in *. lia.
Qed.
End level.

(** ** Properties *)

Section properties.
Context {St : Type} `{TSL : TreeStoreLaws St}.

(** C30: what [apply_overlay] commits.  Over a base tree that is completely
    stored and an overlay whose paths have no empty component, it never
    panics (the recursion ends), loses nothing that was stored, and the tree
    it returns is completely stored and holds exactly the files
    [overlay_file] names: at a path that an overlay path extends, none;
    at an overlay path, the staged file, or none for a tombstone; elsewhere
    the base's file, unless an overlay path lies above it.  It can only fail
    when the storage does, or on a read-only store, an invalid name or a
    directory that could outgrow the limit. *)
Theorem apply_overlay_files (base : option ObjectId) (ov : Overlay) (s : St)
    (Hi : ts_inv s) (Hc : base_closed s base) (Hw : wf_overlay ov) :
  wp (apply_overlay base ov) s (fun r s' => extends s s' /\
    match r with
    | Ok id => closed s' id /\ forall p f, p <> [] -> Forall plain p ->
        file_in s' id p f <-> overlay_file ov [] (base_files s base) p f
    | Err e => ts_fault e \/ ~ good_input s base [] ov
    | Panic => False
    end).
Proof. by apply apply_overlay_level. Qed.
End properties.

(** The linear merge of sorted entries with sorted edits is the update of
    a map: the result is sorted, an edited name has its edit (or is gone), every
    other name keeps its entry. *)
Theorem sparse_merge_is_map_update (base : list TreeEntry) (edits : gmap str (option TreeEntry))
    (Hb : sorted_entries base) (Hn : forall n e, edits !! n = Some (Some e) -> e_name e = n) :
  sorted_entries (merge_sorted_entries base (btree_list edits)) /\
  forall name, find_entry (merge_sorted_entries base (btree_list edits)) name =
    match edits !! name with Some o => o | None => find_entry base name end.
Proof.
  split; [|intros name; by apply find_merge]. apply merge_sorted; [done|].
  split; [apply btree_list_sorted|]. intros n e H%elem_of_btree_list. by apply Hn.
Qed.

(** ** Witnesses *)

Definition sample_overlay : Overlay := {[ bs "d/a" := Some (ZERO, true) ]}.

Lemma sample_overlay_key k : is_Some (sample_overlay !! k) -> k = bs "d/a".
Proof. intros [o Ho]. unfold sample_overlay in Ho. by apply lookup_singleton_Some in Ho as [<- _]. Qed.

Lemma plain_names : Forall plain [bs "d"; bs "a"].
Proof.
  repeat (constructor; [split; [done|by apply (bool_decide_eq_false_1 ("/"%byte ∈ _))]|]). constructor.
Qed.

Lemma sample_overlay_wf : wf_overlay sample_overlay.
Proof. intros k ->%sample_overlay_key. exact plain_names. Qed.

Lemma sample_overlay_good : good_input (guard empty_store) None [] sample_overlay.
Proof.
  split; [reflexivity|]. split.
  - intros q Hq Hpq Hs%sample_overlay_key.
    apply (join_inj q [bs "d"; bs "a"]) in Hs as ->; [|done|exact plain_names].
    repeat (constructor; [reflexivity|]). constructor.
  - vm_compute. discriminate.
Qed.

Lemma apply_overlay_files_witness :
  exists id s', apply_overlay None sample_overlay (guard empty_store) = (Ok id, s') /\
    file_in s' id [bs "d"; bs "a"] (ZERO, true).
Proof.
  destruct (apply_overlay None sample_overlay (guard empty_store)) as [r s'] eqn:E.
  pose proof (wp_elim _ _ _ _ _ (apply_overlay_files None sample_overlay (guard empty_store)
    empty_store_wf I sample_overlay_wf) E) as [_ Hr].
  destruct r as [id|e|].
  - exists id, s'. split; [reflexivity|]. destruct Hr as [_ Hf].
    apply Hf; [discriminate|exact plain_names|]. split.
    + intros (q & Hq & Hpq & Hs%sample_overlay_key). apply (join_inj ([bs "d"; bs "a"] ++ q) [bs "d"; bs "a"]) in Hs;
        [|apply Forall_app; split; [exact plain_names|exact Hpq]|exact plain_names].
      destruct q as [|x q]; [by destruct Hq|discriminate Hs].
    + left. reflexivity.
  - exfalso. destruct Hr as [Hf|Hg]; [|exact (Hg sample_overlay_good)].
    assert ((apply_overlay None sample_overlay (guard empty_store)).1 <> Err collision) as Hne by (vm_compute; discriminate).
    apply Hne. rewrite E. unfold ts_fault in Hf. simpl in Hf. by rewrite Hf.
  - destruct Hr.
Defined.

Lemma sparse_merge_is_map_update_witness :
  find_entry (merge_sorted_entries (entries sample_tree) (btree_list {[ bs "a" := None ]})) (bs "a") = None.
Proof.
  assert (forall n e, ({[ bs "a" := None ]} : gmap str (option TreeEntry)) !! n = Some (Some e) -> e_name e = n) as Hn.
  { intros n e Hl. apply lookup_singleton_Some in Hl as [_ Hl]. discriminate Hl. }
  destruct (sparse_merge_is_map_update (entries sample_tree) {[ bs "a" := None ]}
    (wf_sorted _ sample_tree_wf) Hn) as [_ H].
  rewrite H. reflexivity.
Defined.
