(* ===== verification/Namespace.v ===== *)
(** * Mount tables and overlay-aware path resolution (crates/forge-ns/src/lib.rs)

    Absolute paths, the choice of the mount that owns one, and the two reads
    that look through an overlay before the committed tree: [resolve] and
    [ls].  [split_path] is in crates/forge-core/src/tree.rs, the rows in
    crates/forge-store/src/meta.rs.  The reads are proved against the same
    reference as [apply_overlay] (in [Overlay]): what a session reads is what
    a checkin of its overlay commits. *)

From S2P Require Import Prelude RustStd Types Tree TreeStore ObjectStore Store Overlay.

(** ** Data *)

Record MountRow := mkMountRow {
  mr_path : str;
  mr_spec : str;
  mr_mode : str;
  mr_base_oid : option ObjectId
}.

Record OverlayRow := mkOverlayRow {
  or_path : str;
  or_blob_oid : option ObjectId;
  or_exec : bool
}.

Inductive Mode := Ro | Rw.

#[export] Instance Mode_eq_dec : EqDecision Mode.
Proof. solve_decision. Defined.

Definition Mode_parse (s : str) : Result Mode :=
  if bytes_eqb s (bs "ro") then Ok Ro
  else if bytes_eqb s (bs "rw") then Ok Rw
  else Err (Invalid (bs "mode {other}")).

Definition Mode_as_str (m : Mode) : str :=
  match m with Ro => bs "ro" | Rw => bs "rw" end.

Record Mount := mkMount {
  m_path : str;
  m_spec : str;
  m_mode : Mode;
  m_base_oid : option ObjectId
}.

(** A mode the table should not hold reads as read-only. *)
Definition Mount_from (r : MountRow) : Mount :=
  mkMount (mr_path r) (mr_spec r)
    (match Mode_parse (mr_mode r) with Ok m => m | _ => Ro end) (mr_base_oid r).

(** ** Paths *)

Definition is_slash (b : byte) : bool := bool_decide (b = "/"%byte).

Definition split_path (path : str) : Result (list str) :=
  let path := drop_while is_slash path in
  if is_nil path then Ok []
  else try_fold (fun parts p => _ ← validate_name p; Ok (parts ++ [p])) [] (split_byte "/"%byte path).

(** The loop that pops trailing slashes, on the reversed string. *)
Fixpoint pop_slashes (r : str) : str :=
  match r with
  | c :: (_ :: _) as r' => if is_slash c then pop_slashes r' else r
  | _ => r
  end.

Definition normalize_abs (path : str) : Result str :=
  if is_nil path then Ok (bs "/")
  else
    let p := if starts_with path (bs "/") then path else bs "/" ++ path in
    let p := reverse (pop_slashes (reverse p)) in
    if bytes_eqb p (bs "/") then Ok p
    else _ ← split_path p; Ok p.

Definition covers (mp abs : str) : bool :=
  bytes_eqb abs mp || bytes_eqb mp (bs "/") || starts_with abs (mp ++ bs "/").

Definition longest_step (abs : str) (best : option Mount * Z) (m : Mount) : Result (option Mount * Z) :=
  mp ← normalize_abs (m_path m);
  Ok (if covers mp abs && (best.2 <=? len mp) then (Some m, len mp) else best).

Definition longest_mount (mounts : list Mount) (abs : str) : Result Mount :=
  abs ← normalize_abs abs;
  best ← try_fold (longest_step abs) (None, 0) mounts;
  ok_or best.1 (NotFound (bs "no mount for {abs}")).

Definition rel_of (mount_path abs : str) : Result str :=
  mp ← normalize_abs mount_path;
  abs ← normalize_abs abs;
  if bytes_eqb mp (bs "/") then Ok (drop_while is_slash abs)
  else if bytes_eqb abs mp then Ok []
  else ok_or (strip_prefix abs (mp ++ bs "/")) (Invalid (bs "{abs} not under {mp}")).

Inductive Spec := SRef (name : str) | SOid (id : ObjectId).

Definition parse_spec (spec : str) : Result Spec :=
  match strip_prefix spec (bs "ref:") with
  | Some r => Ok (SRef r)
  | None => match strip_prefix spec (bs "oid:") with
            | Some h => id ← from_hex h; Ok (SOid id)
            | None => Ok (SRef spec)
            end
  end.

Definition dirent_kind (e : TreeEntry) : str :=
  match e_kind e with KBlob => bs "blob" | KTree => bs "tree" end.

(** ** Reads through an overlay *)

Inductive Resolved := RTree (id : ObjectId) | RBlob (id : ObjectId) (exec : bool).

Definition overlay_map (rows : list OverlayRow) : Overlay :=
  fold_left (fun m r => <[or_path r := (fun id => (id, or_exec r)) <$> or_blob_oid r]> m) rows ∅.

(** The entry a path in the overlay shows, in a listing or the way to it. *)
Definition ls_step (rel : str) (m : gmap str TreeEntry) (kv : str * OverlayOp)
    : Result (gmap str TreeEntry) :=
  let '(path, op) := kv in
  match (if is_nil rel then Some path else strip_prefix path (rel ++ bs "/")) with
  | None => Ok m
  | Some rest =>
      if contains_byte rest "/"%byte then
        match split_byte "/"%byte rest with
        | first :: _ =>
            Ok (match m !! first with
                | Some _ => m
                | None => <[first := mkEntry first KTree ZERO false]> m
                end)
        | [] => Panic
        end
      else match op with
           | Some (id, exec) => Ok (<[rest := mkEntry rest KBlob id exec]> m)
           | None => Ok (delete rest m)
           end
  end.

Section reads.
Context {St : Type} `{TS : TreeStore St}.

(** The loop over the names of the path: [before] are the names passed, and
    [cur] the tree they lead to. *)
Fixpoint resolve_loop (ov : Overlay) (before : list str) (cur : ObjectId) (parts : list str)
    : stateM Error St Resolved :=
  match parts with
  | [] => mret (RTree cur)
  | part :: rest =>
      let last := match rest with [] => true | _ => false end in
      let path_so_far := child_path (join (bs "/") before) part in
      match ov !! path_so_far with
      | Some None => throw (NotFound path_so_far)
      | Some (Some (id, exec)) =>
          if last then mret (RBlob id exec)
          else throw (Invalid (bs "overlay file in middle of path"))
      | None =>
          tree ← get_tree cur;
          ent ← pure (ok_or (Tree_get tree part) (NotFound path_so_far));
          if last then
            match e_kind ent with
            | KBlob => mret (RBlob (e_id ent) (e_exec ent))
            | KTree => mret (RTree (e_id ent))
            end
          else if bool_decide (e_kind ent <> KTree) then throw (NotFound path_so_far)
          else resolve_loop ov (before ++ [part]) (e_id ent) rest
      end
  end.

Definition resolve (mounts : list Mount) (overlay : list OverlayRow) (root_oid : ObjectId) (abs : str)
    : stateM Error St Resolved :=
  m ← pure (longest_mount mounts abs);
  rel ← pure (rel_of (m_path m) abs);
  let ov := overlay_map overlay in
  if is_nil rel then mret (RTree root_oid)
  else match ov !! rel with
       | Some (Some (id, exec)) => mret (RBlob id exec)
       | Some None => throw (NotFound rel)
       | None => parts ← pure (split_path rel); resolve_loop ov [] root_oid parts
       end.

Definition ls_walk (cur : ObjectId) (p : str) : stateM Error St ObjectId :=
  t ← get_tree cur;
  e ← pure (ok_or (Tree_get t p) (NotFound p));
  _ ← pure (reject_if (bool_decide (e_kind e <> KTree)) (Invalid (bs "ls on blob")));
  mret (e_id e).

Definition ls (overlay : list OverlayRow) (tree_oid : ObjectId) (rel : str)
    : stateM Error St (list TreeEntry) :=
  let ov := overlay_map overlay in
  map ← (if is_nil rel then t ← get_tree tree_oid; mret (as_map t)
         else parts ← pure (split_path rel);
              cur ← m_fold ls_walk tree_oid parts;
              t ← get_tree cur; mret (as_map t));
  map ← pure (try_fold (ls_step rel) map (btree_list ov));
  mret (sort_by_key e_name (snd <$> btree_list map)).
End reads.

(** ** Lemmas: paths *)

(** The absolute path of a list of names. *)
Definition abs_path (ps : list str) : str := "/"%byte :: join (bs "/") ps.

Lemma valid_names_plain ps : Forall valid_name ps -> Forall plain ps.
Proof. intros H. eapply Forall_impl; [done|]. apply valid_name_plain. Qed.
#[local] Hint Resolve valid_names_plain : core.

Lemma validate_loop acc l out :
  try_fold (fun parts p => _ ← validate_name p; Ok (parts ++ [p])) acc l = Ok out <->
  Forall valid_name l /\ out = acc ++ l.
Proof.
  revert acc; induction l as [|p l IH]; intros acc; simpl.
  - rewrite app_nil_r. split; [by intros [= <-]|by intros [_ ->]].
  - rewrite Forall_cons. unfold valid_name at 1. split.
    + intros H. inv_ok. apply IH in H as [? ->]. rewrite <- app_assoc. by destruct a0.
    + intros [[Hp Hl] ->]. rewrite Hp, !bind_of_ok. apply IH. by rewrite <- app_assoc.
Qed.

Lemma no_panic_split_path p : no_panic (split_path p).
Proof.
  unfold split_path. destruct (is_nil _); [auto with forge|].
  generalize (@nil str) at 2. induction (split_byte _ _) as [|x l IH]; intros acc; simpl; [auto with forge|].
  apply no_panic_bind; [|intros ? _; apply IH].
  apply no_panic_bind; [auto with forge|intros ? _; apply no_panic_ok].
Qed.

Lemma drop_slashes_plain n s : plain n -> drop_while is_slash (n ++ s) = n ++ s.
Proof.
  intros [Hn Hs]. destruct n as [|c n]; [done|]. simpl. unfold is_slash.
  rewrite bool_decide_false; [done|]. intros ->. apply Hs. by left.
Qed.

Lemma drop_slashes_join ps : Forall plain ps -> drop_while is_slash (join (bs "/") ps) = join (bs "/") ps.
Proof.
  intros H. destruct H as [|n ps Hn H]; [done|]. destruct (decide (ps = [])) as [->|Hps].
  - cbn. rewrite <- (app_nil_r n). by apply drop_slashes_plain.
  - rewrite join_cons by done. by apply drop_slashes_plain.
Qed.

Lemma drop_slashes_abs ps : Forall plain ps -> drop_while is_slash (abs_path ps) = join (bs "/") ps.
Proof. apply drop_slashes_join. Qed.

Lemma split_path_dropped path ps :
  drop_while is_slash path = join (bs "/") ps -> Forall valid_name ps -> split_path path = Ok ps.
Proof.
  intros E Hv. unfold split_path. rewrite E. unfold is_nil. destruct (decide (ps = [])) as [->|Hps]; [done|].
  rewrite bool_decide_false by (by apply join_nonempty; auto). apply validate_loop.
  by rewrite split_join by auto.
Qed.

Lemma split_path_ok path ps :
  split_path path = Ok ps -> Forall valid_name ps /\ drop_while is_slash path = join (bs "/") ps.
Proof.
  unfold split_path. case_eq (is_nil (drop_while is_slash path)); intros E.
  - intros [= <-]. by apply bool_decide_eq_true in E as ->.
  - intros [Hv ->]%validate_loop. by rewrite app_nil_l, join_split.
Qed.

Lemma split_path_join ps : Forall valid_name ps -> split_path (join (bs "/") ps) = Ok ps.
Proof. intros H. apply split_path_dropped; [|done]. apply drop_slashes_join; auto. Qed.

Lemma pop_slashes_id r c : is_slash c = false -> pop_slashes (c :: r) = c :: r.
Proof. intros E. simpl. destruct r; [done|]. by rewrite E. Qed.

(** The last byte of a path of names is not a slash. *)
Lemma join_last ps : Forall plain ps -> ps <> [] ->
  exists s c, join (bs "/") ps = s ++ [c] /\ is_slash c = false.
Proof.
  intros H Hne. induction H as [|n ps [Hn Hs] H IH]; [done|].
  destruct (decide (ps = [])) as [->|Hps].
  - destruct (exists_last Hn) as (s & c & ->). exists s, c. split; [done|].
    apply bool_decide_eq_false. intros ->. apply Hs, elem_of_app. right. by left.
  - destruct (IH Hps) as (s & c & E & Hc). rewrite join_cons, E by done.
    exists (n ++ "/"%byte :: s), c. by rewrite <- app_assoc.
Qed.

(** [normalize_abs] of a path that starts with a slash and does not end with
    one. *)
Lemma normalize_kept p s c :
  p = "/"%byte :: s ++ [c] -> is_slash c = false ->
  normalize_abs p = (_ ← split_path p; Ok p).
Proof.
  intros -> Hc. unfold normalize_abs. change (is_nil ("/"%byte :: s ++ [c])) with false. cbv iota.
  assert (starts_with ("/"%byte :: s ++ [c]) (bs "/") = true) as ->
    by (apply starts_with_spec; by eexists).
  assert (reverse (pop_slashes (reverse ("/"%byte :: s ++ [c]))) = "/"%byte :: s ++ [c]) as ->.
  { change ("/"%byte :: s ++ [c]) with (("/"%byte :: s) ++ [c]).
    rewrite reverse_snoc, pop_slashes_id by done. by rewrite <- reverse_snoc, reverse_involutive. }
  rewrite (proj2 (bytes_eqb_false _ _)); [done|]. intros [= E]. by destruct s.
Qed.

Lemma normalize_abs_path ps : Forall valid_name ps -> normalize_abs (abs_path ps) = Ok (abs_path ps).
Proof.
  intros Hv. destruct (decide (ps = [])) as [->|Hps]; [done|].
  destruct (join_last ps) as (s & c & E & Hc); [auto|done|].
  rewrite (normalize_kept _ s c) by (done || (unfold abs_path; by rewrite E)).
  erewrite split_path_dropped; [|apply drop_slashes_abs; auto|done]. done.
Qed.

Lemma split_byte_app ms k :
  Forall plain ms -> ms <> [] ->
  split_byte "/"%byte (join (bs "/") ms ++ "/"%byte :: k) = ms ++ split_byte "/"%byte k.
Proof.
  induction 1 as [|n ms [_ Hn] H IH]; [done|]. intros _. destruct (decide (ms = [])) as [->|Hne].
  - by apply split_byte_nosep.
  - rewrite join_cons, <- app_assoc by done. cbn [app].
    by rewrite split_byte_nosep, IH by done.
Qed.

Lemma covers_spec ms ps :
  Forall plain ms -> Forall plain ps -> covers (abs_path ms) (abs_path ps) = true <-> ms `prefix_of` ps.
Proof.
  intros Hm Hp. unfold covers. rewrite !orb_true_iff, !bytes_eqb_true, starts_with_spec. split.
  - intros [[[= E]|[= E]]|[k E]].
    + apply join_inj in E as ->; [done..].
    + destruct Hm as [|n ms Hn Hm]; [apply prefix_nil|]. by apply (join_nonempty (n :: ms)) in E; [|constructor|].
    + destruct (decide (ms = [])) as [->|Hne]; [apply prefix_nil|].
      unfold abs_path in E. injection E as E. rewrite <- app_assoc in E.
      assert (ps <> []) as Hps.
      { intros ->. symmetry in E. apply app_eq_nil in E as [E _]. by apply join_nonempty in E. }
      exists (split_byte "/"%byte k). rewrite <- (split_join ps), E by done. by apply split_byte_app.
  - intros [q ->]. destruct (decide (q = [])) as [->|Hq]; [left; left; by rewrite app_nil_r|].
    destruct (decide (ms = [])) as [->|Hne]; [by left; right|]. right. exists (join (bs "/") q).
    unfold abs_path. rewrite join_app by done. cbn. by rewrite <- app_assoc.
Qed.

Lemma abs_path_longer ms q : q <> [] -> Forall plain (ms ++ q) -> len (abs_path ms) < len (abs_path (ms ++ q)).
Proof.
  intros Hq [Hm Hpq]%Forall_app. unfold abs_path. rewrite !len_cons.
  pose proof (join_nonempty q Hpq Hq) as Hne. destruct (decide (ms = [])) as [->|Hms].
  - destruct (join (bs "/") q) eqn:E; [done|]. cbn [app]. rewrite E. cbn. rewrite len_cons, len_nil.
    pose proof (len_nonneg l). lia.
  - rewrite join_app by done. rewrite len_app, len_cons. pose proof (len_nonneg (join (bs "/") q)). lia.
Qed.

Lemma shorter_prefix ms ms' ps :
  Forall plain ps -> ms `prefix_of` ps -> ms' `prefix_of` ps ->
  len (abs_path ms') <= len (abs_path ms) -> ms' `prefix_of` ms.
Proof.
  intros Hp H H' Hl. destruct (prefix_weak_total _ _ _ H H') as [Hs|Hs]; [|done].
  destruct Hs as [q ->]. destruct (decide (q = [])) as [->|Hq]; [by rewrite app_nil_r|].
  destruct H' as [k ->]. apply Forall_app in Hp as [Hp _]. pose proof (abs_path_longer ms q Hq Hp). lia.
Qed.

(** ** Relative paths are paths of names *)

Lemma drop_slashes_nil p : drop_while is_slash p = [] -> Forall (fun b => is_slash b = true) p.
Proof.
  induction p as [|b p IH]; [constructor|]. cbn [drop_while]. destruct (is_slash b) eqn:E; [|done].
  intros H. constructor; [done|by apply IH].
Qed.

Lemma drop_slashes_app p q : drop_while is_slash p <> [] -> drop_while is_slash (p ++ q) = drop_while is_slash p ++ q.
Proof. induction p as [|b p IH]; [done|]. cbn [drop_while app]. by destruct (is_slash b). Qed.

Lemma pop_slashes_head r :
  match pop_slashes r with [] => r = [] | [_] => True | c :: _ => is_slash c = false end.
Proof.
  induction r as [|c [|c2 r] IH]; [done..|].
  change (pop_slashes (c :: c2 :: r)) with (if is_slash c then pop_slashes (c2 :: r) else c :: c2 :: r).
  destruct (is_slash c) eqn:E; [|done]. by destruct (pop_slashes (c2 :: r)) as [|? [|? ?]].
Qed.

(** A normalized path but the root has a name. *)
Lemma normalize_named path p : normalize_abs path = Ok p -> p <> bs "/" -> drop_while is_slash p <> [].
Proof.
  unfold normalize_abs. destruct (is_nil path); [by intros [= <-]|]. cbv zeta.
  set (p0 := if starts_with path (bs "/") then path else bs "/" ++ path).
  assert (p0 <> []) as H0.
  { unfold p0. destruct (starts_with path (bs "/")) eqn:E; [|done]. by destruct path. }
  set (q := reverse (pop_slashes (reverse p0))). intros H Hne Hd%drop_slashes_nil.
  assert (p = q) as -> by (destruct (bytes_eqb q (bs "/")); inv_ok; congruence). clear H.
  pose proof (pop_slashes_head (reverse p0)) as Hh. unfold q in *.
  destruct (pop_slashes (reverse p0)) as [|c [|c2 r]].
  - apply H0. by rewrite <- (reverse_involutive p0), Hh.
  - apply Hne. rewrite Forall_forall in Hd. specialize (Hd c ltac:(by left)).
    apply bool_decide_eq_true in Hd. by subst c.
  - rewrite Forall_forall in Hd. rewrite (Hd c) in Hh; [done|]. apply elem_of_reverse. by left.
Qed.

Lemma normalize_names path p : normalize_abs path = Ok p -> exists ps, Forall valid_name ps /\ drop_while is_slash p = join (bs "/") ps.
Proof.
  unfold normalize_abs. destruct (is_nil path); [intros [= <-]; by exists []|]. cbv zeta.
  set (q := reverse _). clearbody q. intros H. assert (q = p /\ (bytes_eqb q (bs "/") = true \/ exists ps, split_path q = Ok ps)) as [-> Hq].
  { destruct (bytes_eqb q (bs "/")); inv_ok; [by split; [|left]|]. split; [done|]. right. by eexists. }
  destruct Hq as [->%bytes_eqb_true|[ps Hps%split_path_ok]]; [by exists []|by exists ps].
Qed.

Lemma rel_of_names mp abs rel : rel_of mp abs = Ok rel -> rel <> [] -> Forall valid_name (split_byte "/"%byte rel).
Proof.
  unfold rel_of. intros (mp' & Hm & H)%bind_ok Hne. apply bind_ok in H as (abs' & Ha & H).
  apply normalize_names in Ha as (ps & Hps & Hd). destruct (bytes_eqb mp' (bs "/")) eqn:Em.
  - injection H as <-. rewrite Hd in *. rewrite split_join; [done|auto|]. by intros ->.
  - destruct (bytes_eqb abs' mp'); [congruence|]. apply ok_or_ok, strip_prefix_spec in H as ->.
    apply bytes_eqb_false in Em. pose proof (normalize_named _ _ Hm Em) as Hn.
    rewrite <- app_assoc, drop_slashes_app in Hd by done. cbn [app bs String.list_byte_of_string] in Hd.
    assert (ps <> []) as Hne' by (intros ->; destruct (drop_while is_slash mp'); done).
    apply (f_equal (split_byte "/"%byte)) in Hd. change (bs "/" ++ rel) with ("/"%byte :: rel) in Hd.
    rewrite split_byte_cat, split_join in Hd by auto. rewrite <- Hd in Hps. by apply Forall_app in Hps as [_ ?].
Qed.

Lemma rel_utf8 rel : Forall valid_name (split_byte "/"%byte rel) -> utf8_valid rel = true.
Proof. intros H. rewrite <- (join_split rel). by apply names_utf8. Qed.

Lemma rel_of_path ms q :
  Forall valid_name (ms ++ q) -> rel_of (abs_path ms) (abs_path (ms ++ q)) = Ok (join (bs "/") q).
Proof.
  intros Hv. pose proof Hv as [Hm Hq]%Forall_app. unfold rel_of.
  rewrite !normalize_abs_path, !bind_of_ok by done. destruct (decide (ms = [])) as [->|Hms].
  { cbn [app]. change (bytes_eqb (abs_path []) (bs "/")) with true. cbv iota.
    by rewrite drop_slashes_abs by auto. }
  rewrite (proj2 (bytes_eqb_false _ (bs "/"))).
  2: { intros [= E]. by apply join_nonempty in E; auto. }
  destruct (decide (q = [])) as [->|Hne]; [by rewrite app_nil_r, (proj2 (bytes_eqb_true _ _))|].
  rewrite (proj2 (bytes_eqb_false _ _)).
  2: { intros [= E]. apply join_inj in E; [|auto..]. apply Hne, (app_inv_head ms). by rewrite app_nil_r. }
  rewrite (proj2 (strip_prefix_spec _ _ (join (bs "/") q))); [done|].
  unfold abs_path. rewrite join_app by done. cbn. by rewrite <- app_assoc.
Qed.

(** The paths of a mount table are absolute paths of valid names. *)
Definition wf_mounts (mounts : list Mount) : Prop :=
  forall m, m ∈ mounts -> exists ms, Forall valid_name ms /\ m_path m = abs_path ms.

(** [m] owns [ps]: its path is a prefix, and no mount's path is a longer one. *)
Definition owner (mounts : list Mount) (ps : list str) (m : Mount) (ms : list str) : Prop :=
  m ∈ mounts /\ Forall valid_name ms /\ m_path m = abs_path ms /\ ms `prefix_of` ps /\
  forall m' ms', m' ∈ mounts -> Forall valid_name ms' -> m_path m' = abs_path ms' ->
    ms' `prefix_of` ps -> ms' `prefix_of` ms.

Definition no_owner (mounts : list Mount) (ps : list str) : Prop :=
  forall m ms, m ∈ mounts -> Forall valid_name ms -> m_path m = abs_path ms -> ~ ms `prefix_of` ps.

Lemma abs_path_inj ms ms' :
  Forall valid_name ms -> Forall valid_name ms' -> abs_path ms = abs_path ms' -> ms = ms'.
Proof. intros H H' [= E]. apply join_inj in E; auto. Qed.

Definition best_inv (ps : list str) (l : list Mount) (best : option Mount * Z) : Prop :=
  match best with
  | (Some m, n) => exists ms, owner l ps m ms /\ n = len (abs_path ms)
  | (None, n) => no_owner l ps /\ n = 0
  end.

Lemma longest_step_spec ps l m best :
  Forall valid_name ps -> wf_mounts (l ++ [m]) -> best_inv ps l best ->
  exists best', longest_step (abs_path ps) best m = Ok best' /\ best_inv ps (l ++ [m]) best'.
Proof.
  intros Hps Hwf Hb. destruct (Hwf m) as (ms & Hv & Em); [apply elem_of_app; right; by left|].
  unfold longest_step. rewrite Em, normalize_abs_path, bind_of_ok by done.
  eexists. split; [done|]. assert (forall ms', Forall valid_name ms' -> m_path m = abs_path ms' -> ms' = ms) as Hu.
  { intros ms' Hv' E. apply abs_path_inj; [done..|]. by rewrite <- E. }
  destruct (covers (abs_path ms) (abs_path ps)) eqn:Ec; cbn [andb].
  - apply covers_spec in Ec; [|auto..]. destruct (Z.leb_spec best.2 (len (abs_path ms))) as [Hle|Hlt].
    + exists ms. split; [|done]. split_and!; [apply elem_of_app; right; by left|done..|].
      intros m' ms' [Hm'|Hm'%list_elem_of_singleton]%elem_of_app Hv' E' Hpre.
      * destruct best as [[mb|] n]; [|by destruct Hb as [Hb _]; destruct (Hb m' ms')].
        destruct Hb as (mb' & (_ & Hvb & _ & Hpb & Hmax) & ->).
        apply (shorter_prefix ms ms' ps); [auto..|].
        destruct (Hmax m' ms' Hm' Hv' E' Hpre) as [q ->]. cbn [snd] in Hle.
        destruct (decide (q = [])) as [->|Hq]; [by rewrite app_nil_r in Hle|].
        pose proof (abs_path_longer ms' q Hq). apply valid_names_plain in Hvb. specialize (H Hvb). lia.
      * subst m'. by rewrite (Hu ms').
    + destruct best as [[mb|] n]; cbn [snd] in Hlt.
      * destruct Hb as (mb' & (Hmb & Hvb & Eb & Hpb & Hmax) & ->). exists mb'. split; [|done].
        split_and!; [apply elem_of_app; by left|done..|].
        intros m' ms' [Hm'|Hm'%list_elem_of_singleton]%elem_of_app Hv' E' Hpre; [by eapply Hmax|].
        subst m'. rewrite (Hu ms') in * by done. apply (shorter_prefix mb' ms ps); [auto..|lia].
      * destruct Hb as [_ ->]. pose proof (len_nonneg (abs_path ms)). lia.
  - assert (~ ms `prefix_of` ps) as Hno by (rewrite <- covers_spec by auto; congruence).
    destruct best as [[mb|] n].
    + destruct Hb as (mb' & (Hmb & Hvb & Eb & Hpb & Hmax) & ->). exists mb'. split; [|done].
      split_and!; [apply elem_of_app; by left|done..|].
      intros m' ms' [Hm'|Hm'%list_elem_of_singleton]%elem_of_app Hv' E' Hpre; [by eapply Hmax|].
      subst m'. by rewrite (Hu ms') in Hpre.
    + destruct Hb as [Hb ->]. split; [|done].
      intros m' ms' [Hm'|Hm'%list_elem_of_singleton]%elem_of_app Hv' E' Hpre; [by apply (Hb m' ms')|].
      subst m'. by rewrite (Hu ms') in Hpre.
Qed.

Lemma longest_mount_spec mounts ps :
  Forall valid_name ps -> wf_mounts mounts ->
  match longest_mount mounts (abs_path ps) with
  | Ok m => exists ms, owner mounts ps m ms
  | Err e => code e = bs "not_found" /\ no_owner mounts ps
  | Panic => False
  end.
Proof.
  intros Hps Hwf. unfold longest_mount. rewrite normalize_abs_path, bind_of_ok by done.
  assert (forall l1 l2 best, mounts = l1 ++ l2 -> best_inv ps l1 best ->
    exists best', try_fold (longest_step (abs_path ps)) best l2 = Ok best' /\ best_inv ps mounts best') as Hf.
  { intros l1 l2. revert l1. induction l2 as [|m l2 IH]; intros l1 best -> Hb.
    - exists best. by rewrite app_nil_r.
    - destruct (longest_step_spec ps l1 m best) as (best' & E & Hb'); [done| |done|].
      { intros m' Hm'. apply Hwf. rewrite elem_of_app in *. destruct Hm' as [?|?%list_elem_of_singleton]; [by left|].
        right. subst. by left. }
      simpl. rewrite E, bind_of_ok. apply (IH (l1 ++ [m])); [by rewrite <- app_assoc|done]. }
  destruct (Hf [] mounts (None, 0)) as (best & E & Hb); [done| |].
  { split; [|done]. intros m ms Hm. by apply elem_of_nil in Hm. }
  rewrite E, bind_of_ok. destruct best as [[m|] n]; cbn.
  - destruct Hb as (ms & Ho & _). by exists ms.
  - by destruct Hb.
Qed.

(** ** Lemmas: reads *)

Section read_lemmas.
Context {St : Type} `{TSL : TreeStoreLaws St}.
Implicit Types (s : St) (ov : Overlay) (id cur : ObjectId) (p before : list str).

(** [dir_in s id p d]: from the tree [id] the names [p] lead to the tree [d]. *)
Fixpoint dir_in s id p (d : ObjectId) : Prop :=
  match p with
  | [] => d = id
  | n :: p' => exists t e, ts_holds s id t /\ find_entry (entries t) n = Some e /\
                 e_kind e = KTree /\ dir_in s (e_id e) p' d
  end.

(** The file a session sees at a path: the overlay's, else the base's unless
    an overlay path lies above. *)
Definition visible ov before (basef : list str -> FileId -> Prop) p (f : FileId) : Prop :=
  ov !! join (bs "/") (before ++ p) = Some (Some f) \/
  (ov !! join (bs "/") (before ++ p) = None /\ ~ covered ov before p /\ basef p f).

Lemma overlay_file_visible ov basef p f :
  overlay_file ov [] basef p f <-> ~ has_ext ov p /\ visible ov [] basef p f.
Proof. done. Qed.

Lemma not_covered_one ov before n : ~ covered ov before [n].
Proof. intros ([|x q1] & [|y q2] & E & H1 & H2 & _); try done. by destruct q1. Qed.

Lemma visible_step ov before basef n p f :
  p <> [] -> ov !! join (bs "/") (before ++ [n]) = None ->
  visible ov before basef (n :: p) f <-> visible ov (before ++ [n]) (fun q => basef (n :: q)) p f.
Proof.
  intros Hp Hn. unfold visible. rewrite <- app_assoc. cbn [app].
  assert (covered ov before (n :: p) <-> covered ov (before ++ [n]) p) as ->; [|done]. split.
  - intros (q1 & q2 & E & H1 & H2 & Hs). destruct q1 as [|x q1]; [done|]. injection E as <- ->.
    destruct (decide (q1 = [])) as [->|Hq1]; [by rewrite Hn in Hs; destruct Hs|].
    exists q1, q2. by rewrite <- app_assoc.
  - intros (q1 & q2 & -> & H1 & H2 & Hs). exists (n :: q1), q2. by rewrite <- app_assoc in Hs.
Qed.

Definition resolve_post s ov before cur p (r : Result Resolved) s' : Prop :=
  extends s s' /\
  match r with
  | Ok (RBlob i x) => visible ov before (file_in s cur) p (i, x)
  | Ok (RTree d) => dir_in s cur p d /\ forall f, p <> [] -> ~ visible ov before (file_in s cur) p f
  | Err e => ts_fault e \/ forall f, ~ visible ov before (file_in s cur) p f
  | Panic => False
  end.

(** The tree the loop reads next. *)
Lemma get_child s id t n e :
  ts_inv s -> closed s id -> ts_holds s id t -> find_entry (entries t) n = Some e ->
  e_kind e = KTree -> closed s (e_id e).
Proof. intros Hi Hc Ht Hf Hk. eapply closed_child; [done..| |done]. by apply find_entry_some in Hf as [? _]. Qed.

Lemma file_in_extends s s' id p f :
  ts_inv s -> extends s s' -> closed s id -> file_in s' id p f <-> file_in s id p f.
Proof. intros Hi He Hc. split; [by apply file_in_back|by apply file_in_mono]. Qed.

Lemma dir_in_iff s s' id p d :
  (forall i u, ts_holds s' i u <-> ts_holds s i u) -> dir_in s' id p d <-> dir_in s id p d.
Proof.
  intros Hh. revert id. induction p as [|n p IH]; intros id; simpl; [done|].
  split; intros (t & e & Ht & Hf & Hk & Hd); exists t, e;
    (split; [by apply Hh|split; [done|split; [done|by apply IH]]]).
Qed.

Lemma resolve_loop_spec ov s before cur p :
  ts_inv s -> closed s cur -> Forall plain (before ++ p) -> p <> [] ->
  ov !! join (bs "/") (before ++ p) = None ->
  wp (resolve_loop ov before cur p) s (resolve_post s ov before cur p).
Proof.
  revert s before cur. induction p as [|n p IH]; intros s before cur Hi Hc Hp Hne Hno; [done|]. simpl.
  assert (child_path (join (bs "/") before) n = join (bs "/") (before ++ [n])) as ->.
  { apply child_path_join. by apply Forall_app in Hp as [? _]. }
  destruct (ov !! join (bs "/") (before ++ [n])) as [op|] eqn:Ho.
  { assert (p <> []) as Hp0 by (intros ->; congruence).
    assert (forall f, ~ visible ov before (file_in s cur) (n :: p) f) as Hv.
    { intros f [?|(_ & Hn & _)]; [congruence|]. apply Hn. exists [n], p. by rewrite Ho. }
    destruct op as [[i x]|]; destruct p; [done| |done|];
      (split; [by apply extends_refl|by right]). }
  apply wp_bind, get_tree_closed; [done..| |].
  2: { intros e s' He Hf. split; [done|by left]. }
  intros t s' He Ht Hback. pose proof (ts_holds_wf _ _ _ Hi Ht) as Hwt.
  apply wp_bind, wp_pure. rewrite Tree_get_find by done.
  assert (forall f, (forall e, find_entry (entries t) n = Some e ->
      match p with [] => ~ (e_kind e = KBlob /\ f = (e_id e, e_exec e))
                 | _ => ~ (e_kind e = KTree /\ file_in s (e_id e) p f) end) ->
      ~ visible ov before (file_in s cur) (n :: p) f) as Hnone.
  { intros f Hf [?|(_ & _ & Hb)]; [congruence|].
    apply (file_in_cons s cur t) in Hb as (e & Hfe & Hb); [|done..]. specialize (Hf e Hfe).
    by destruct p. }
  destruct (find_entry (entries t) n) as [e|] eqn:Hf; cbn [ok_or].
  2: { split; [done|]. right. intros f. by apply Hnone. }
  destruct p as [|m p].
  - destruct (e_kind e) eqn:Hk.
    + split; [done|]. right. split; [done|]. split; [apply not_covered_one|]. by eapply file_here.
    + split; [done|]. split; [by exists t, e|]. intros f _. apply Hnone. intros ? [= <-] [? _]. congruence.
  - case_bool_decide as Hk.
    { split; [done|]. right. intros f. apply Hnone. intros ? [= <-] [? _]. done. }
    assert (e_kind e = KTree) as Hk' by (by destruct (e_kind e)).
    assert (closed s (e_id e)) as Hce by (by eapply get_child).
    assert (closed s' (e_id e)) as Hce' by (by eapply closed_mono).
    eapply wp_mono; [apply (IH s' (before ++ [n]) (e_id e))|].
    + apply He.
    + done.
    + by rewrite <- app_assoc.
    + done.
    + by rewrite <- app_assoc.
    + intros r s2 [He2 Hr]. split; [by eapply extends_trans|].
      assert (forall f, visible ov (before ++ [n]) (file_in s' (e_id e)) (m :: p) f <->
                visible ov before (file_in s cur) (n :: m :: p) f) as Hv.
      { intros f. rewrite (visible_step _ _ _ n) by done. unfold visible.
        rewrite (file_in_extends s s'), (file_in_cons s cur t n) by done.
        split; (intros [?|(? & ? & Hx)]; [by left|right]; split_and!; [done..|]).
        - by exists e.
        - destruct Hx as (e' & He' & _ & Hx). rewrite Hf in He'. by injection He' as <-. }
      destruct r as [[d|i x]|e'|]; [|by apply Hv| |done].
      * destruct Hr as [Hd Hr]. split; [|intros f _; rewrite <- Hv; by apply Hr].
        exists t, e. split_and!; [done..|]. by apply (dir_in_iff s s').
      * destruct Hr as [?|Hr]; [by left|right; intros f; by rewrite <- Hv].
Qed.

Lemma resolve_spec mounts rows root ps q s m ms :
  ts_inv s -> closed s root -> wf_mounts mounts -> Forall valid_name ps ->
  longest_mount mounts (abs_path ps) = Ok m -> owner mounts ps m ms -> ps = ms ++ q ->
  wp (resolve mounts rows root (abs_path ps)) s (resolve_post s (overlay_map rows) [] root q).
Proof.
  intros Hi Hc Hwf Hps El (Hm & Hvm & Em & _ & _) ->. unfold resolve.
  apply wp_bind, wp_pure. rewrite El. apply wp_bind, wp_pure. rewrite Em, rel_of_path by done.
  apply Forall_app in Hps as [_ Hq]. pose proof (valid_names_plain q Hq) as Hpq.
  unfold is_nil. destruct (decide (q = [])) as [->|Hq0].
  { split; [by apply extends_refl|]. split; [done|]. done. }
  rewrite bool_decide_false by (by apply join_nonempty).
  destruct (overlay_map rows !! join (bs "/") q) as [[[i x]|]|] eqn:Ho.
  - split; [by apply extends_refl|]. by left.
  - split; [by apply extends_refl|]. right. intros f [?|(? & _)]; cbn [app] in *; congruence.
  - apply wp_bind, wp_pure. rewrite split_path_join by done. by apply resolve_loop_spec.
Qed.
End read_lemmas.

(** ** Lemmas: listings *)

(** What a listing shows for a name: the staged file, else what the base has
    unless a tombstone hides it, else a directory that only staged paths
    below the name imply (it has no tree yet: the zero identifier). *)
Inductive shown (n : str) (has : Prop) : option OverlayOp -> option TreeEntry -> option TreeEntry -> Prop :=
| shown_file i x base : shown n has (Some (Some (i, x))) base (Some (mkEntry n KBlob i x))
| shown_base e : shown n has None (Some e) (Some e)
| shown_none dir base :
    (dir = None /\ base = None) \/ dir = Some None -> ~ has -> shown n has dir base None
| shown_implied dir base :
    (dir = None /\ base = None) \/ dir = Some None -> has ->
    shown n has dir base (Some (mkEntry n KTree ZERO false)).

Lemma shown_iff n dir (has has' : Prop) base o : has <-> has' -> shown n has dir base o -> shown n has' dir base o.
Proof. intros Hh []; constructor; tauto. Qed.

Section ls_fold.
Context (pre : list str) (Hpre : Forall plain pre).

Abbreviation rel := (join (bs "/") pre).
Abbreviation key q := (join (bs "/") (pre ++ q)).

Definition strip_rel (path : str) : option str :=
  if is_nil rel then Some path else strip_prefix path (rel ++ bs "/").

Lemma strip_rel_key q : Forall plain q -> q <> [] -> strip_rel (key q) = Some (join (bs "/") q).
Proof.
  intros Hq Hne. unfold strip_rel, is_nil. destruct (decide (pre = [])) as [->|Hp]; [done|].
  rewrite bool_decide_false by (by apply join_nonempty). apply strip_prefix_spec.
  rewrite join_app by done. cbn. by rewrite <- app_assoc.
Qed.

Lemma strip_rel_some q rest :
  Forall plain q -> q <> [] -> strip_rel (join (bs "/") q) = Some rest ->
  exists r, r <> [] /\ Forall plain r /\ q = pre ++ r.
Proof.
  intros Hq Hne. unfold strip_rel, is_nil. destruct (decide (pre = [])) as [->|Hp].
  { intros _. by exists q. }
  rewrite bool_decide_false by (by apply join_nonempty).
  intros E%strip_prefix_spec. rewrite <- app_assoc in E. change (bs "/" ++ rest) with ("/"%byte :: rest) in E.
  assert (q = pre ++ split_byte "/"%byte rest) as Eq.
  { rewrite <- (split_join q), E by done. by apply split_byte_app. }
  exists (split_byte "/"%byte rest). split_and!; [|rewrite Eq in Hq; by apply Forall_app in Hq as [_ ?]|done].
  destruct rest; simpl; [done|]. repeat case_match; done.
Qed.

Lemma key_lt_ext n r : Forall plain (pre ++ n :: r) -> r <> [] -> bytes_lt (key [n]) (key (n :: r)) = true.
Proof.
  intros Hp Hr. apply bytes_lt_spec.
  assert (key (n :: r) = key [n] ++ "/"%byte :: join (bs "/") r) as ->.
  { rewrite <- join_app by (done || by destruct pre). by rewrite <- app_assoc. }
  induction (key [n]) as [|c k IH]; [done|]. simpl. by rewrite Z.compare_refl.
Qed.

Definition ls_inv (base m : gmap str TreeEntry) (D : Overlay) : Prop :=
  forall n, plain n -> shown n (has_ext D (pre ++ [n])) (D !! key [n]) (base !! n) (m !! n).

Lemma has_ext_insert (D : Overlay) k op p :
  Forall plain p ->
  has_ext (<[k := op]> D) p <->
  has_ext D p \/ exists q, q <> [] /\ Forall plain q /\ k = join (bs "/") (p ++ q).
Proof.
  intros Hp. split.
  - intros (q & Hq & Hpq & Hs). destruct (decide (k = join (bs "/") (p ++ q))) as [->|Hk]; [right; by exists q|].
    left. exists q. by rewrite lookup_insert_ne in Hs.
  - intros [(q & Hq & Hpq & Hs)|(q & Hq & Hpq & ->)]; exists q; (split; [done|split; [done|]]).
    + apply lookup_insert_is_Some. destruct (decide (k = join (bs "/") (p ++ q))); [by left|by right].
    + rewrite lookup_insert_eq. done.
Qed.

Lemma key_snoc_inj n r n' q :
  plain n' -> Forall plain (n :: r) -> Forall plain q -> key (n :: r) = key (n' :: q) -> n' = n /\ q = r.
Proof.
  intros Hn Hr Hq E. apply join_inj in E; [|by apply Forall_app|apply Forall_app; split; [done|by constructor]].
  apply app_inv_head in E. by injection E as <- <-.
Qed.

Lemma ls_inv_frame base m m' D n r op :
  Forall plain (n :: r) -> (forall n', n' <> n -> m' !! n' = m !! n') ->
  shown n (has_ext (<[key (n :: r) := op]> D) (pre ++ [n])) (<[key (n :: r) := op]> D !! key [n])
    (base !! n) (m' !! n) ->
  ls_inv base m D -> ls_inv base m' (<[key (n :: r) := op]> D).
Proof.
  intros Hr Ho Hs Hm n' Hn'. destruct (decide (n' = n)) as [->|Hne]; [done|].
  rewrite Ho by done. rewrite lookup_insert_ne.
  2: { intros E. apply (key_snoc_inj n r n' []) in E as [? _]; [done|done|done|constructor]. }
  eapply shown_iff; [|by apply Hm].
  rewrite has_ext_insert by (apply Forall_app; split; [done|plains]). split; [by left|].
  intros [?|(q & Hq & Hpq & E)]; [done|]. rewrite <- app_assoc in E.
  apply (key_snoc_inj n r n' q) in E as [? _]; done.
Qed.

Lemma ls_inv_out base m D q op :
  Forall plain q -> q <> [] -> strip_rel (join (bs "/") q) = None ->
  ls_inv base m D -> ls_inv base m (<[join (bs "/") q := op]> D).
Proof.
  intros Hq Hne Es Hm n Hn.
  assert (forall r, Forall plain r -> r <> [] -> join (bs "/") q <> key r) as Hout.
  { intros r Hr Hr0 E. rewrite E in Es. by rewrite strip_rel_key in Es. }
  rewrite lookup_insert_ne by (apply Hout; [plains|done]).
  eapply shown_iff; [|by apply Hm].
  rewrite has_ext_insert by (apply Forall_app; split; [done|plains]). split; [by left|].
  intros [?|(r & Hr & Hpr & E)]; [done|]. rewrite <- app_assoc in E.
  by apply Hout in E; [|constructor|].
Qed.

Definition names_match (m : gmap str TreeEntry) : Prop := forall n e, m !! n = Some e -> e_name e = n.

Lemma names_match_insert m e : names_match m -> names_match (<[e_name e := e]> m).
Proof. intros Hm n e' [[<- <-]|[_ ?]]%lookup_insert_Some; [done|auto]. Qed.

Lemma ls_step_spec base m D q op :
  Forall plain q -> q <> [] -> D !! join (bs "/") q = None ->
  (forall k, is_Some (D !! k) -> bytes_lt k (join (bs "/") q) = true) ->
  ls_inv base m D -> names_match m ->
  exists m', ls_step rel m (join (bs "/") q, op) = Ok m' /\
    ls_inv base m' (<[join (bs "/") q := op]> D) /\ names_match m'.
Proof.
  intros Hq Hne Hnew Hlt Hm Hnm. unfold ls_step. fold (strip_rel (join (bs "/") q)).
  destruct (strip_rel (join (bs "/") q)) as [rest|] eqn:Es.
  2: { exists m. split; [done|]. split; [by apply ls_inv_out|done]. }
  apply strip_rel_some in Es as Hr; [|done..]. destruct Hr as (r & Hr & Hpr & ->).
  rewrite strip_rel_key in Es by done. injection Es as <-.
  destruct r as [|n r]; [done|]. pose proof Hpr as [Hn Hpr']%Forall_cons.
  pose proof (Hm n Hn) as Hsn. assert (Forall plain (pre ++ [n])) as Hpn by (apply Forall_app; split; [done|plains]).
  rewrite contains_join by done. destruct (decide (r = [])) as [->|Hr0].
  - rewrite bool_decide_true by done. cbn [negb]. change (join (bs "/") [n]) with n.
    assert (~ has_ext D (pre ++ [n])) as Hno.
    { intros (r & Hr0 & Hr' & Hs). apply Hlt in Hs. rewrite <- app_assoc in Hs. cbn [app] in Hs.
      assert (bytes_lt (key [n]) (key (n :: r)) = true) as H'
        by (apply key_lt_ext; [apply Forall_app; split; [done|by constructor]|done]).
      pose proof (bytes_lt_trans _ _ _ Hs H') as E. by rewrite bytes_lt_irrefl in E. }
    assert (~ has_ext (<[key [n] := op]> D) (pre ++ [n])) as Hno'.
    { rewrite has_ext_insert by done. intros [?|(r & Hr0 & Hr' & E)]; [done|].
      apply join_inj in E; [|done|by apply Forall_app]. rewrite <- (app_nil_r (pre ++ [n])) in E at 1.
      by apply app_inv_head in E. }
    destruct op as [[i x]|]; eexists; (split; [done|]); split.
    + apply (ls_inv_frame base m); [done|intros; by apply lookup_insert_ne| |done].
      rewrite !lookup_insert_eq. constructor.
    + by apply (names_match_insert m (mkEntry n KBlob i x)).
    + apply (ls_inv_frame base m); [done|intros; by apply lookup_delete_ne| |done].
      rewrite lookup_insert_eq, lookup_delete_eq. constructor; [by right|done].
    + intros n' e [_ He]%lookup_delete_Some. by apply Hnm.
  - rewrite bool_decide_false by done. cbn [negb].
    rewrite split_join by done.
    assert (has_ext (<[key (n :: r) := op]> D) (pre ++ [n])) as Hyes.
    { apply has_ext_insert; [done|]. right. exists r. by rewrite <- app_assoc. }
    assert (<[key (n :: r) := op]> D !! key [n] = D !! key [n]) as Hdir.
    { apply lookup_insert_ne. intros E. apply (key_snoc_inj n r n []) in E as [_ E]; [done|done|done|constructor]. }
    destruct (m !! n) as [e|] eqn:Emn; eexists; (split; [done|]).
    + split; [|done]. apply (ls_inv_frame base m); [done|done| |done]. rewrite Hdir, Emn.
      inversion Hsn; subst; by constructor.
    + split; [|by apply (names_match_insert m (mkEntry n KTree ZERO false))].
      apply (ls_inv_frame base m); [done|intros; by apply lookup_insert_ne| |done].
      rewrite Hdir, lookup_insert_eq. inversion Hsn; subst. by constructor.
Qed.

Lemma ls_fold_spec base ov :
  wf_overlay ov -> names_match base ->
  exists m, try_fold (ls_step rel) base (btree_list ov) = Ok m /\ ls_inv base m ov /\ names_match m.
Proof.
  intros Hw Hnb. pose proof (btree_list_sorted ov) as Hs. pose proof (btree_list_nodup ov) as Hnd.
  assert (forall l1 l2 m, btree_list ov = l1 ++ l2 -> ls_inv base m (list_to_map l1) -> names_match m ->
    exists m', try_fold (ls_step rel) m l2 = Ok m' /\ ls_inv base m' (list_to_map (btree_list ov)) /\
      names_match m') as Hf.
  { intros l1 l2. revert l1. induction l2 as [|[k op] l2 IH]; intros l1 m E Hm Hnm.
    { exists m. by rewrite E, app_nil_r. }
    rewrite E in Hs, Hnd. rewrite fmap_app, fmap_cons in Hnd. apply NoDup_app in Hnd as (_ & Hnd & _).
    assert (k ∉ l1.*1) as Hk by (intros Hk; destruct (Hnd k Hk); by left).
    assert (wf_overlay ov) as Hwk by done. specialize (Hwk k).
    assert (is_Some (ov !! k)) as Hsk.
    { exists op. apply elem_of_btree_list. rewrite E. apply elem_of_app. right. by left. }
    destruct (ls_step_spec base m (list_to_map l1) (split_byte "/"%byte k) op) as (m' & E' & Hm' & Hnm').
    - by apply Hwk.
    - destruct k; simpl; repeat case_match; done.
    - rewrite join_split. by apply not_elem_of_list_to_map_1.
    - rewrite join_split. intros k' [o Ho]. apply elem_of_list_to_map_2 in Ho.
      change (l1 ++ (k, op) :: l2) with (l1 ++ [(k, op)] ++ l2) in Hs. rewrite app_assoc in Hs.
      apply StronglySorted_app_1_l in Hs. apply strictly_sorted_snoc in Hs as [_ Hs].
      rewrite Forall_forall in Hs. apply (Hs (k', o) Ho).
    - done.
    - done.
    - rewrite join_split in E', Hm'. cbn [try_fold]. rewrite E', bind_of_ok.
      apply (IH (l1 ++ [(k, op)])); [by rewrite <- app_assoc| |done].
      by rewrite list_to_map_snoc. }
  destruct (Hf [] (btree_list ov) base) as (m & E & Hm & Hnm); [done| |done|].
  { intros n Hn. change (list_to_map (M:=Overlay) []) with (∅ : Overlay). rewrite lookup_empty. destruct (base !! n) eqn:Eb; [constructor|]. apply shown_none; [by left|].
    intros (q & _ & _ & []%lookup_empty_is_Some). }
  exists m. split; [done|]. split; [|done].
  assert (list_to_map (btree_list ov) = ov) as <-; [|done].
  unfold btree_list. rewrite <- (list_to_map_to_list ov) at 2.
  apply list_to_map_proper; [|apply sort_by_key_perm].
  apply (btree_list_nodup ov).
Qed.
End ls_fold.

Section ls_lemmas.
Context {St : Type} `{TSL : TreeStoreLaws St}.
Implicit Types (s : St) (ov : Overlay) (id cur : ObjectId) (p : list str).

(** [m] reads: it publishes nothing, and what it returns is in [Q]. *)
Definition reads {A} s (m : stateM Error St A) (Q : Result A -> Prop) : Prop :=
  wp m s (fun r s' => extends s s' /\ (forall i u, ts_holds s' i u <-> ts_holds s i u) /\ Q r).

Lemma reads_bind {A B} s (m : stateM Error St A) (f : A -> stateM Error St B) (Q : Result A -> Prop) (R : Result B -> Prop) :
  reads s m Q ->
  (forall a s', extends s s' -> (forall i u, ts_holds s' i u <-> ts_holds s i u) -> Q (Ok a) -> reads s' (f a) R) ->
  (forall e, Q (Err e) -> R (Err e)) -> (Q Panic -> R Panic) -> reads s (m ≫= f) R.
Proof.
  intros Hm Hf He Hp. unfold reads in *. apply wp_bind. eapply wp_mono; [exact Hm|]. intros [a|e|] s' (Hx & Hh & Hq).
  - eapply wp_mono; [by apply Hf|]. intros r s2 (Hx2 & Hh2 & Hr).
    split; [by eapply extends_trans|]. split; [intros i u; by rewrite Hh2|done].
  - eauto.
  - eauto.
Qed.

Lemma reads_pure {A} s (m : Result A) (Q : Result A -> Prop) : ts_inv s -> Q m -> reads s (pure m) Q.
Proof. intros Hi Hq. apply wp_pure. by split; [apply extends_refl|]. Qed.

Lemma reads_get_tree s id :
  ts_inv s -> closed s id ->
  reads s (get_tree id) (fun r => match r with
    | Ok t => ts_holds s id t | Err e => ts_fault e | Panic => False end).
Proof.
  intros Hi (t & Ht & _)%closed_inv. eapply wp_mono; [by apply get_tree_spec|].
  intros r s' (Hi' & Hw & Hh & Hr). split; [split; [done|done|intros i u; apply Hh]|].
  split; [done|]. destruct r as [t'|e|]; [done| |done]. destruct Hr as [?|Hr]; [done|by destruct (Hr t)].
Qed.

Lemma dir_in_closed s id p d : ts_inv s -> closed s id -> dir_in s id p d -> closed s d.
Proof.
  intros Hi. revert id. induction p as [|n p IH]; intros id Hc; simpl; [by intros ->|].
  intros (t & e & Ht & Hf & Hk & Hd). eapply IH; [|done]. by eapply get_child.
Qed.

Lemma walk_spec s cur p :
  ts_inv s -> closed s cur ->
  reads s (m_fold ls_walk cur p) (fun r => match r with
    | Ok d => dir_in s cur p d
    | Err e => ts_fault e \/ forall d, ~ dir_in s cur p d
    | Panic => False
    end).
Proof.
  revert s cur. induction p as [|n p IH]; intros s cur Hi Hc; cbn [m_fold].
  { by apply (reads_pure s (Ok cur)). }
  eapply reads_bind with (Q := fun r => match r with
    | Ok d => exists t e, ts_holds s cur t /\ find_entry (entries t) n = Some e /\ e_kind e = KTree /\ d = e_id e
    | Err e => ts_fault e \/ forall d, ~ dir_in s cur (n :: p) d
    | Panic => False
    end).
  - unfold ls_walk. eapply reads_bind; [by apply reads_get_tree| |by left|done].
    intros t s' He Hh Ht. cbn beta iota in Ht. pose proof (ts_holds_wf _ _ _ Hi Ht) as Hw.
    pose proof (ext_inv _ _ He) as Hi'. rewrite Tree_get_find by done.
    assert (forall e d, dir_in s cur (n :: p) d -> find_entry (entries t) n = Some e -> e_kind e = KTree) as Hk.
    { intros e d (t' & e' & Ht' & Hf & Hk & _) E. rewrite (ts_holds_fun s cur t' t Hi Ht' Ht) in Hf.
      rewrite Hf in E. by injection E as <-. }
    apply wp_bind, wp_pure. destruct (find_entry (entries t) n) as [e|] eqn:Ef; cbn [ok_or].
    + apply wp_bind, wp_pure. destruct (e_kind e) eqn:Ek; unfold reject_if.
      * rewrite bool_decide_true by done. split; [by apply extends_refl|].
        split; [done|]. right. intros d Hd. specialize (Hk e d Hd eq_refl). congruence.
      * rewrite bool_decide_false by tauto. split; [by apply extends_refl|].
        split; [done|]. by exists t, e.
    + split; [by apply extends_refl|]. split; [done|]. right. intros d (t' & e' & Ht' & Hf & _).
      rewrite (ts_holds_fun s cur t' t Hi Ht' Ht) in Hf. congruence.
  - intros d s' He Hh (t & e & Ht & Hf & Hk & ->).
    assert (closed s' (e_id e)) as Hc' by (eapply closed_mono; [done|by eapply get_child]).
    eapply wp_mono; [by apply IH; [apply He|]|]. intros r s2 (He2 & Hh2 & Hr). split; [done|]. split; [done|].
    destruct r as [d|e'|]; [|destruct Hr as [?|Hr]; [by left|right]|done].
    + exists t, e. split_and!; [done..|]. by apply (dir_in_iff s s').
    + intros d (t' & e2 & Ht' & Hf' & _ & Hd). rewrite (ts_holds_fun s cur t' t Hi Ht' Ht) in Hf'.
      rewrite Hf in Hf'. injection Hf' as <-. by apply (Hr d), (dir_in_iff s s').
  - done.
  - done.
Qed.

Definition ls_post s root ov p (r : Result (list TreeEntry)) : Prop :=
  match r with
  | Ok v => exists d t, dir_in s root p d /\ ts_holds s d t /\ sorted_entries v /\
      forall n, plain n ->
        shown n (has_ext ov (p ++ [n])) (ov !! join (bs "/") (p ++ [n])) (find_entry (entries t) n)
          (find_entry v n)
  | Err e => ts_fault e \/ forall d, ~ dir_in s root p d
  | Panic => False
  end.

Lemma ls_reads rows root p s :
  ts_inv s -> closed s root -> Forall valid_name p -> wf_overlay (overlay_map rows) ->
  reads s (ls rows root (join (bs "/") p)) (ls_post s root (overlay_map rows) p).
Proof.
  intros Hi Hc Hv Hw. pose proof (valid_names_plain p Hv) as Hp. unfold ls.
  eapply reads_bind with (Q := fun r => match r with
    | Ok m => exists d t, dir_in s root p d /\ ts_holds s d t /\ m = as_map t
    | Err e => ts_fault e \/ forall d, ~ dir_in s root p d
    | Panic => False
    end).
  - unfold is_nil. destruct (decide (p = [])) as [->|Hne].
    + rewrite bool_decide_true by done. eapply reads_bind; [by apply reads_get_tree| |by left|done].
      intros t s' He Hh Ht. apply (reads_pure s' (Ok (as_map t))); [apply He|]. by exists root, t.
    + rewrite bool_decide_false by (by apply join_nonempty). rewrite split_path_join by done.
      eapply reads_bind; [by apply (reads_pure s (Ok p) (eq (Ok p)))| |done|done].
      intros ? s' He Hh [= <-]. assert (closed s' root) as Hc' by (by eapply closed_mono).
      eapply reads_bind; [by apply walk_spec; [apply He|]| | |done].
      * intros d s2 He2 Hh2 Hd. apply (dir_in_iff s s') in Hd; [|done].
        assert (closed s2 d) as Hcd.
        { eapply closed_mono; [|by eapply dir_in_closed]. by eapply extends_trans. }
        eapply reads_bind; [by apply reads_get_tree; [apply He2|]| |by left|done].
        intros t s3 He3 Hh3 Ht. cbn beta iota in Ht. rewrite Hh2, Hh in Ht.
        apply (reads_pure s3 (Ok (as_map t))); [apply He3|]. by exists d, t.
      * intros e [?|Hd]; [by left|right]. intros d Hd'. by apply (Hd d), (dir_in_iff s s').
  - intros m s' He Hh (d & t & Hd & Ht & ->). pose proof (ts_holds_wf _ _ _ Hi Ht) as Hwt.
    destruct (ls_fold_spec p Hp (as_map t) (overlay_map rows)) as (m & E & Hm & Hnm); [done| |].
    { intros n e. rewrite as_map_lookup by done. intros Hf. by apply find_entry_some in Hf as [_ ?]. }
    rewrite E. eapply reads_bind; [by apply (reads_pure s' (Ok m) (eq (Ok m))); [apply He|]| |done|done].
    intros ? s2 He2 _ [= <-]. destruct (sorted_values m Hnm) as (-> & Hs & Hf).
    apply (reads_pure s2 (Ok (snd <$> btree_list m))); [apply He2|]. exists d, t. split_and!; [done..|].
    intros n Hn. rewrite Hf, <- as_map_lookup by done. by apply Hm.
  - done.
  - done.
Qed.
End ls_lemmas.

(** ** Properties *)

(** The mount that answers a path.  Over a table whose paths are absolute
    paths of valid names, [longest_mount] picks a mount whose path is a prefix
    of the requested one, name by name ([/main] does not own [/mainline]),
    and no mount with a longer such path exists; [rel_of] then is the rest of
    the path.  It fails, with a not-found error, exactly when no mount covers
    the path, and never panics. *)
Theorem longest_mount_owns (mounts : list Mount) (ps : list str)
    (Hps : Forall valid_name ps) (Hwf : wf_mounts mounts) :
  match longest_mount mounts (abs_path ps) with
  | Ok m => exists ms q, owner mounts ps m ms /\ ps = ms ++ q /\
      rel_of (m_path m) (abs_path ps) = Ok (join (bs "/") q)
  | Err e => code e = bs "not_found" /\ no_owner mounts ps
  | Panic => False
  end.
Proof.
  pose proof (longest_mount_spec mounts ps Hps Hwf) as H.
  destruct (longest_mount mounts (abs_path ps)) as [m|e|]; [|done|done].
  destruct H as (ms & Ho). pose proof Ho as (_ & _ & Em & [q ->] & _). exists ms, q.
  split; [done|]. split; [done|]. rewrite Em. by apply rel_of_path.
Qed.

Section properties.
Context {St : Type} `{TSL : TreeStoreLaws St}.

(** C36: a session reads what its checkin commits.  If [apply_overlay] commits
    an overlay onto a tree, then resolving a path of the mount through the
    same overlay before the checkin, and looking it up in the committed tree
    after it, agree: a blob that [resolve] returns is the committed file of
    that path (unless a staged path lies below it), a directory it returns is
    no committed file, and when it fails without the storage failing the
    committed tree has no such file. *)
Theorem reads_match_checkin (mounts : list Mount) (rows : list OverlayRow) (root new : ObjectId)
    (s s1 : St) (m : Mount) (ms q : list str)
    (Hi : ts_inv s) (Hc : closed s root) (Hwf : wf_mounts mounts) (Hw : wf_overlay (overlay_map rows))
    (Hv : Forall valid_name (ms ++ q)) (Hm : longest_mount mounts (abs_path (ms ++ q)) = Ok m)
    (Em : m_path m = abs_path ms) (Hq : q <> [])
    (Hco : apply_overlay (Some root) (overlay_map rows) s = (Ok new, s1)) :
  wp (resolve mounts rows root (abs_path (ms ++ q))) s (fun r _ =>
    match r with
    | Ok (RBlob id exec) => ~ has_ext (overlay_map rows) q -> file_in s1 new q (id, exec)
    | Ok (RTree d) => forall f, ~ file_in s1 new q f
    | Err e => ts_fault e \/ forall f, ~ file_in s1 new q f
    | Panic => False
    end).
Proof.
  pose proof (wp_elim _ _ _ _ _ (apply_overlay_level (Some root) (overlay_map rows) s Hi Hc Hw) Hco) as (_ & _ & Hf).
  pose proof (longest_mount_spec mounts (ms ++ q) Hv Hwf) as Ho. rewrite Hm in Ho.
  destruct Ho as (ms' & Ho). assert (ms' = ms) as ->.
  { destruct Ho as (_ & ? & E & _). apply Forall_app in Hv as [? _]. apply abs_path_inj; [done..|]. congruence. }
  assert (Forall plain q) as Hpq by (apply Forall_app in Hv as [_ ?]; by apply valid_names_plain).
  eapply wp_mono; [by apply (resolve_spec mounts rows root (ms ++ q) q s m ms)|].
  intros r s' [_ Hr].
  assert (forall f, file_in s1 new q f ->
    visible (overlay_map rows) [] (file_in s root) q f) as Hback by (intros f [_ ?]%Hf; done).
  destruct r as [[d|i x]|e|]; [|intros Hx; by apply Hf| |done].
  - destruct Hr as [_ Hr]. intros f Hfi. by apply (Hr f Hq), Hback.
  - destruct Hr as [?|Hr]; [by left|right]. intros f Hfi. by apply (Hr f), Hback.
Qed.

(** What a listing shows.  [ls] of a directory of the committed tree
    returns the entries sorted by name, and for each name: a staged file as a
    blob, the committed entry unless a tombstone hides it, and a directory
    without a tree (the zero identifier) for a name that only staged paths
    below it imply.  It fails only when the storage does, or when the
    directory is not in the committed tree, and never panics. *)
Theorem ls_overlays_directory (rows : list OverlayRow) (root : ObjectId) (p : list str) (s : St)
    (Hi : ts_inv s) (Hc : closed s root) (Hv : Forall valid_name p) (Hw : wf_overlay (overlay_map rows)) :
  wp (ls rows root (join (bs "/") p)) s (fun r s' => extends s s' /\ ls_post s root (overlay_map rows) p r).
Proof.
  eapply wp_mono; [by apply ls_reads|]. intros r s' (? & _ & ?). done.
Qed.
End properties.

(** ** Behaviour at the edges *)

Definition slash_mounts : list Mount :=
  [mkMount (bs "/") (bs "ref:heads/root") Rw None; mkMount (bs "/main") (bs "ref:heads/main") Rw None].

(** A doubled leading slash survives [normalize_abs], so the same names reach
    two different mounts: [/main/x] the mount [/main], [//main/x] the mount
    [/], where [rel_of] reads [main/x]. *)
Lemma doubled_slash_changes_mount :
  m_path <$> match longest_mount slash_mounts (bs "/main/x") with Ok m => Some m | _ => None end = Some (bs "/main") /\
  m_path <$> match longest_mount slash_mounts (bs "//main/x") with Ok m => Some m | _ => None end = Some (bs "/") /\
  rel_of (bs "/") (bs "//main/x") = Ok (bs "main/x").
Proof. vm_compute. done. Qed.

(** ** Witnesses *)

Lemma slash_mounts_wf : wf_mounts slash_mounts.
Proof.
  intros m Hm. repeat (apply elem_of_cons in Hm as [->|Hm]); [exists []|exists [bs "main"]|by apply elem_of_nil in Hm].
  - split; [constructor|reflexivity].
  - split; [by repeat constructor|reflexivity].
Qed.

Lemma longest_mount_owns_witness :
  exists m ms q, longest_mount slash_mounts (bs "/main/x") = Ok m /\
    owner slash_mounts [bs "main"; bs "x"] m ms /\ rel_of (m_path m) (bs "/main/x") = Ok (join (bs "/") q).
Proof.
  pose proof (longest_mount_owns slash_mounts [bs "main"; bs "x"]
    ltac:(repeat constructor) slash_mounts_wf) as H.
  change (abs_path [bs "main"; bs "x"]) with (bs "/main/x") in H.
  destruct (longest_mount slash_mounts (bs "/main/x")) as [m|e|] eqn:E.
  - destruct H as (ms & q & H1 & _ & H2). exists m, ms, q. auto.
  - exfalso. assert (longest_mount slash_mounts (bs "/main/x") <> Err e) as Hne by (vm_compute; discriminate).
    by apply Hne.
  - destruct H.
Defined.

Definition demo_rows : list OverlayRow := [mkOverlayRow (bs "c") (Some ZERO) true].

Lemma demo_rows_wf : wf_overlay (overlay_map demo_rows).
Proof.
  intros k [o Ho]. unfold demo_rows, overlay_map in Ho. cbn [fold_left] in Ho.
  apply lookup_insert_Some in Ho as [[<- _]|[_ Ho]]; [|by rewrite lookup_empty in Ho].
  repeat (constructor; [split; [done|by apply (bool_decide_eq_false_1 ("/"%byte ∈ _))]|]). constructor.
Qed.

Lemma reads_match_checkin_witness :
  exists new s1, apply_overlay (Some demo_root) (overlay_map demo_rows) demo_store = (Ok new, s1) /\
    (resolve slash_mounts demo_rows demo_root (bs "/c") demo_store).1 = Ok (RBlob ZERO true) /\
    (~ has_ext (overlay_map demo_rows) [bs "c"] -> file_in s1 new [bs "c"] (ZERO, true)).
Proof.
  destruct (apply_overlay (Some demo_root) (overlay_map demo_rows) demo_store) as [r s1] eqn:E.
  assert ((apply_overlay (Some demo_root) (overlay_map demo_rows) demo_store).1 = r) as Er by (by rewrite E).
  destruct r as [new|e|]; [|vm_compute in Er; discriminate Er..]. clear Er.
  exists new, s1. split; [reflexivity|]. split; [vm_compute; reflexivity|].
  destruct demo_spec as (Hi & _ & Hc).
  pose proof (reads_match_checkin slash_mounts demo_rows demo_root new demo_store s1
    (mkMount (bs "/") (bs "ref:heads/root") Rw None) [] [bs "c"] Hi Hc slash_mounts_wf demo_rows_wf
    ltac:(repeat constructor) ltac:(vm_compute; reflexivity) eq_refl ltac:(discriminate) E) as H.
  unfold wp in H. assert ((resolve slash_mounts demo_rows demo_root (abs_path ([] ++ [bs "c"])) demo_store).1 =
    Ok (RBlob ZERO true)) as Er by (vm_compute; reflexivity).
  rewrite Er in H. exact H.
Defined.

Lemma ls_overlays_directory_witness :
  exists v, (ls demo_rows demo_root (join (bs "/") []) demo_store).1 = Ok v /\
    (e_name <$> v) = [bs "a"; bs "b"; bs "c"] /\
    ls_post demo_store demo_root (overlay_map demo_rows) [] (Ok v).
Proof.
  destruct demo_spec as (Hi & _ & Hc).
  pose proof (ls_overlays_directory demo_rows demo_root [] demo_store Hi Hc (List.Forall_nil _) demo_rows_wf) as H.
  unfold wp in H. destruct (ls demo_rows demo_root (join (bs "/") []) demo_store).1 as [v|e|] eqn:E.
  - exists v. split; [reflexivity|]. split; [|apply H].
    assert (match (ls demo_rows demo_root (join (bs "/") []) demo_store).1 with
            | Ok v => e_name <$> v | _ => [] end = [bs "a"; bs "b"; bs "c"]) as Hv by (vm_compute; reflexivity).
    rewrite E in Hv. exact Hv.
  - vm_compute in E. discriminate E.
  - vm_compute in E. discriminate E.
Defined.
