(* ===== verification/History.v ===== *)
(** * Commit history: ancestry and merge bases (crates/forge-merge/src/lib.rs)

    [ancestor_map], [merge_bases], [lca] and [commit_parent_map], over an
    interface for reading commits that the typed store implements.  The
    reference is the order of ancestry: a merge base is a common ancestor that
    no other common ancestor descends from. *)

From S2P Require Import Prelude RustStd Types Cbor Tree Object ObjectStore Store.

(** ** Reading commits *)

Class CommitStore (St : Type) := {
  read_commit : ObjectId -> stateM Error St Commit
}.

(** Reading changes nothing that is stored; a commit has a bounded number of
    parents. *)
Class CommitStoreLaws (St : Type) `{!CommitStore St} := {
  cs_inv : St -> Prop;
  cs_holds : St -> ObjectId -> Commit -> Prop;
  cs_holds_fun s id c c' : cs_holds s id c -> cs_holds s id c' -> c = c';
  cs_parents s id c : cs_holds s id c -> len (c_parents c) <= MAX_COMMIT_PARENTS;
  read_commit_spec s id : cs_inv s ->
    wp (read_commit id) s (fun r s' => cs_inv s' /\ (forall i c, cs_holds s' i c <-> cs_holds s i c) /\
      match r with
      | Ok c => cs_holds s id c
      | Err _ => forall c, ~ cs_holds s id c
      | Panic => False
      end)
}.

Definition MAX_ANCESTRY_COMMITS : Z := 1000000.

(** A loop over the ancestry passes each commit once and each parent once. *)
Definition ancestry_budget : positive := 2 ^ 31.

Abbreviation Ancestry := (gmap ObjectId (list ObjectId)).

Section history.
Context {St : Type} `{CS : CommitStore St}.

(** The stack is kept with its top first. *)
Definition ancestor_step (l : Ancestry * list ObjectId) : stateM Error St ((Ancestry * list ObjectId) + Ancestry) :=
  let '(out, stack) := l in
  match stack with
  | [] => mret (inr out)
  | id :: stack =>
      match out !! id with
      | Some _ => mret (inl (out, stack))
      | None =>
          _ ← pure (reject_if (MAX_ANCESTRY_COMMITS <=? Z.of_nat (size out))
                (Invalid (bs "commit ancestry exceeds safety limit")));
          commit ← read_commit id;
          mret (inl (<[id := c_parents commit]> out, reverse (c_parents commit) ++ stack))
      end
  end.

Definition ancestor_map (start : ObjectId) : stateM Error St Ancestry :=
  m_while ancestry_budget ancestor_step (∅, [start]).

(** One turn of the walk from a common ancestor's parents. *)
Definition dominate_step (am : Ancestry) (common : gset ObjectId)
    (l : gset ObjectId * gset ObjectId * list ObjectId) :
    (gset ObjectId * gset ObjectId * list ObjectId) + gset ObjectId :=
  let '(dominated, seen, stack) := l in
  match stack with
  | [] => inr dominated
  | id :: stack =>
      if bool_decide (id ∈ seen) then inl (dominated, seen, stack)
      else
        let seen := {[ id ]} ∪ seen in
        let dominated := if bool_decide (id ∈ common) then {[ id ]} ∪ dominated else dominated in
        inl (dominated, seen, match am !! id with Some parents => reverse parents ++ stack | None => stack end)
  end.

Definition dominate (am : Ancestry) (common dominated : gset ObjectId) (candidate : ObjectId)
    : Result (gset ObjectId) :=
  parents ← ok_or (am !! candidate) (Corrupt (bs "common ancestor missing from ancestry map"));
  match while_pos (dominate_step am common) ancestry_budget (dominated, ∅, reverse parents) with
  | inr dominated => Ok dominated
  | inl _ => Panic
  end.

(** The order in which a hash set is iterated does not matter here: the loop
    only adds to a set, and the result is sorted. *)
Definition merge_bases (a b : ObjectId) : stateM Error St (list ObjectId) :=
  if bool_decide (a = b) then _ ← read_commit a; mret [a]
  else
    am ← ancestor_map a;
    bm ← ancestor_map b;
    let common := dom am ∩ dom bm in
    if bool_decide (common = ∅) then mret []
    else
      dominated ← pure (try_fold (dominate am common) ∅ (elements common));
      mret (sort_by_key arr_bytes (elements (common ∖ dominated))).

Definition lca (a b : ObjectId) : stateM Error St (option ObjectId) :=
  bases ← merge_bases a b;
  match bases with
  | [] => mret None
  | [base] => mret (Some base)
  | _ => throw (Invalid (bs "multiple best merge bases: {}"))
  end.

Definition commit_parent_map (start : ObjectId) : stateM Error St Ancestry := ancestor_map start.
End history.

(** ** Ancestry *)

Section ancestry.
Context {St : Type} `{CSL : CommitStoreLaws St}.
Implicit Types (s : St) (a b x y : ObjectId).

Definition parent_of s x y : Prop := exists c, cs_holds s x c /\ y ∈ c_parents c.
Definition ancestor s a x : Prop := rtc (parent_of s) a x.

(** All ancestors are stored, and no more of them than the limit. *)
Definition bounded_history s a : Prop :=
  exists X : gset ObjectId, Z.of_nat (size X) <= MAX_ANCESTRY_COMMITS /\
    forall x, ancestor s a x -> x ∈ X /\ exists c, cs_holds s x c.

(** The ancestry of [a], as the map the code builds: all of it is stored. *)
Definition is_ancestry s a (m : Ancestry) : Prop :=
  (forall x, x ∈ dom m <-> ancestor s a x) /\
  forall x ps, m !! x = Some ps -> exists c, cs_holds s x c /\ c_parents c = ps.

Definition same_commits s s' : Prop := cs_inv s' /\ forall i c, cs_holds s' i c <-> cs_holds s i c.

Lemma same_commits_refl s : cs_inv s -> same_commits s s.
Proof. by split. Qed.
Lemma same_commits_trans s1 s2 s3 : same_commits s1 s2 -> same_commits s2 s3 -> same_commits s1 s3.
Proof. intros [_ H12] [Hi H23]. split; [done|]. intros i c. by rewrite H23. Qed.

Lemma parent_of_iff s s' x y : same_commits s s' -> parent_of s' x y <-> parent_of s x y.
Proof. intros [_ H]. unfold parent_of. by setoid_rewrite H. Qed.

Lemma ancestor_iff s s' a x : same_commits s s' -> ancestor s' a x <-> ancestor s a x.
Proof.
  intros H. unfold ancestor. split; apply rtc_subrel; intros ??; by apply (parent_of_iff s s').
Qed.

Definition walk_inv s a (l : Ancestry * list ObjectId) s' : Prop :=
  let '(out, stack) := l in
  same_commits s s' /\ Z.of_nat (size out) <= MAX_ANCESTRY_COMMITS /\
  (forall x, x ∈ stack -> ancestor s a x) /\ (is_Some (out !! a) \/ a ∈ stack) /\
  forall x ps, out !! x = Some ps -> ancestor s a x /\ exists c, cs_holds s x c /\ c_parents c = ps /\
    forall y, y ∈ ps -> is_Some (out !! y) \/ y ∈ stack.

Definition walk_measure (l : Ancestry * list ObjectId) : Z :=
  (MAX_COMMIT_PARENTS + 1) * (MAX_ANCESTRY_COMMITS - Z.of_nat (size l.1)) + len l.2.

Lemma walk_closed s a out s' :
  walk_inv s a (out, []) s' -> is_ancestry s a out.
Proof.
  intros (_ & _ & _ & Ha & Hout). split.
  2: { intros x ps (_ & c & Hc & <- & _)%Hout. by exists c. }
  intros x. rewrite elem_of_dom. split.
  - by intros [ps (? & _)%Hout].
  - revert x. apply (rtc_ind_r (fun y => is_Some (out !! y)) a).
    + destruct Ha as [?|Ha]; [done|]. by apply elem_of_nil in Ha.
    + intros y z Hy Hp [ps Hps]. apply Hout in Hps as (_ & cy & Hcy & <- & Hps).
      destruct Hp as (cy' & Hcy' & Hz). rewrite (cs_holds_fun _ _ _ _ Hcy' Hcy) in Hz.
      destruct (Hps z Hz) as [?|Hz']; [done|]. by apply elem_of_nil in Hz'.
Qed.

Lemma ancestor_map_spec s a :
  cs_inv s ->
  wp (ancestor_map a) s (fun r s' => same_commits s s' /\
    match r with
    | Ok m => is_ancestry s a m /\ Z.of_nat (size m) <= MAX_ANCESTRY_COMMITS
    | Err _ => ~ bounded_history s a
    | Panic => False
    end).
Proof.
  intros Hi. unfold ancestor_map. apply (wp_m_while (walk_inv s a) walk_measure).
  2: { split; [by apply same_commits_refl|]. split; [done|]. split; [|split; [right; by left|]].
       - intros x ->%list_elem_of_singleton. apply rtc_refl.
       - intros x ps. by rewrite lookup_empty. }
  2: { unfold walk_measure. vm_compute. done. }
  intros [out stack] s1 Hinv. pose proof Hinv as (Hs1 & Hsz & Hstack & Ha & Hout). unfold ancestor_step.
  destruct stack as [|id stack]; [split; [done|split; [by eapply walk_closed|done]]|].
  destruct (out !! id) as [ps|] eqn:Eid.
  - split.
    + split; [done|]. split; [done|]. split; [intros; apply Hstack; by right|]. split.
      * destruct Ha as [?|[->|?]%elem_of_cons]; [by left|by rewrite Eid; left|by right].
      * intros x ps' (Hx & c & Hc & Hps & Hy)%Hout. split; [done|]. exists c. split; [done|]. split; [done|].
        intros y [?|[->|?]%elem_of_cons]%Hy; [by left|by rewrite Eid; left|by right].
    + unfold walk_measure. cbn [fst snd]. rewrite len_cons.
      pose proof (len_nonneg stack). unfold MAX_COMMIT_PARENTS, MAX_ANCESTRY_COMMITS in *. lia.
  - assert (ancestor s a id) as Hid by (apply Hstack; by left).
    apply wp_bind, wp_pure. unfold reject_if. destruct (Z.leb_spec MAX_ANCESTRY_COMMITS (Z.of_nat (size out))) as [Hle|Hlt].
    { split; [done|]. intros (X & HX & Hb).
      assert (size ({[ id ]} ∪ dom out) <= size X)%nat as Hsub.
      { apply subseteq_size. intros x [->%elem_of_singleton|[ps Hps]%elem_of_dom]%elem_of_union;
          apply Hb; [done|]. by apply Hout in Hps as [? _]. }
      rewrite size_union, size_singleton, size_dom in Hsub by (apply disjoint_singleton_l; by apply not_elem_of_dom).
      lia. }
    apply wp_bind. eapply wp_mono; [apply read_commit_spec, Hs1|].
    intros r s2 (Hi2 & Hh2 & Hr).
    assert (same_commits s s2) as Hs2 by (apply (same_commits_trans s s1); [exact Hs1|by split]).
    destruct r as [c|e|]; [|split; [done|]|done].
    2: { intros (X & _ & Hb). destruct (Hb id Hid) as [_ [c Hc]]. apply (Hr c). by apply Hs1. }
    apply Hs1 in Hr. split.
    + split; [done|]. split; [rewrite map_size_insert_None by done; lia|]. split.
      * intros x [Hx|Hx]%elem_of_app; [rewrite elem_of_reverse in Hx|apply Hstack; by right].
        apply (rtc_r _ id); [exact Hid|by exists c].
      * split.
        -- destruct Ha as [?|[->|?]%elem_of_cons].
           ++ left. by apply lookup_insert_is_Some'; right.
           ++ left. apply lookup_insert_is_Some'. by left.
           ++ right. apply elem_of_app. by right.
        -- intros x ps [[<- <-]|[Hne Hps]]%lookup_insert_Some.
           ++ split; [done|]. exists c. split; [done|]. split; [done|]. intros y Hy. right.
              apply elem_of_app. left. by apply elem_of_reverse.
           ++ apply Hout in Hps as (Hx & cx & Hcx & Hpx & Hy). split; [done|]. exists cx. split; [done|].
              split; [done|]. intros y Hy'. destruct (Hy y Hy') as [?|[->|?]%elem_of_cons].
              ** left. apply lookup_insert_is_Some'. by right.
              ** left. apply lookup_insert_is_Some'. by left.
              ** right. apply elem_of_app. by right.
    + unfold walk_measure. cbn [fst snd]. rewrite map_size_insert_None by done.
      pose proof (cs_parents _ _ _ Hr) as Hp. rewrite len_app, len_cons.
      assert (len (reverse (c_parents c)) = len (c_parents c)) as -> by (unfold len; by rewrite length_reverse).
      pose proof (len_nonneg stack). pose proof (len_nonneg (c_parents c)).
      unfold MAX_COMMIT_PARENTS, MAX_ANCESTRY_COMMITS in *. lia.
Qed.

Definition descends s x y : Prop := tc (parent_of s) x y.

(** A common ancestor that no other common ancestor descends to. *)
Definition best_common s a b c : Prop :=
  ancestor s a c /\ ancestor s b c /\
  forall d, ancestor s a d -> ancestor s b d -> ~ descends s d c.

(** Content addressing makes a history acyclic. *)
Definition acyclic s a : Prop := forall x, ancestor s a x -> ~ descends s x x.

Section dominate.
Context s a am (Ham : is_ancestry s a am) (Hsz : Z.of_nat (size am) <= MAX_ANCESTRY_COMMITS)
  (common : gset ObjectId).

Lemma in_ancestry x c : ancestor s a x -> cs_holds s x c -> am !! x = Some (c_parents c).
Proof.
  destruct Ham as [Hd Hp]. intros [ps Hps]%Hd%elem_of_dom Hc. rewrite Hps.
  apply Hp in Hps as (c' & Hc' & <-). by rewrite (cs_holds_fun _ _ _ _ Hc Hc').
Qed.

Lemma ancestry_held x : ancestor s a x -> exists c, cs_holds s x c.
Proof. destruct Ham as [Hd Hp]. intros [ps (c & ? & _)%Hp]%Hd%elem_of_dom. by exists c. Qed.

Lemma descends_ancestor x y : ancestor s a x -> descends s x y -> ancestor s a y.
Proof. intros Hx Hd. unfold ancestor in *. etrans; [done|]. by apply tc_rtc. Qed.

Definition dom_inv cand (D0 : gset ObjectId) (l : gset ObjectId * gset ObjectId * list ObjectId) : Prop :=
  let '(D, seen, stack) := l in
  (forall x, x ∈ stack -> descends s cand x) /\
  (forall x, x ∈ seen -> descends s cand x /\ x ∈ dom am /\
     forall y, parent_of s x y -> y ∈ seen \/ y ∈ stack) /\
  (forall y, parent_of s cand y -> y ∈ seen \/ y ∈ stack) /\
  forall x, x ∈ D <-> x ∈ D0 \/ (x ∈ seen /\ x ∈ common).

Definition dom_measure (l : gset ObjectId * gset ObjectId * list ObjectId) : Z :=
  (MAX_COMMIT_PARENTS + 1) * (Z.of_nat (size am) - Z.of_nat (size l.1.2)) + len l.2.

Lemma dom_step cand D0 l :
  ancestor s a cand -> dom_inv cand D0 l ->
  match dominate_step am common l with
  | inl l' => dom_inv cand D0 l' /\ 0 <= dom_measure l' < dom_measure l
  | inr D => forall x, x ∈ D <-> x ∈ D0 \/ (descends s cand x /\ x ∈ common)
  end.
Proof.
  intros Hc. destruct l as [[D seen] stack]. intros (Hst & Hseen & Hcand & HD). unfold dominate_step.
  assert (forall seen' : gset ObjectId, (forall x, x ∈ seen' -> x ∈ dom am) -> (size seen' <= size am)%nat) as Hsub.
  { intros seen' H. rewrite <- (size_dom am). by apply subseteq_size. }
  destruct stack as [|id stack].
  { intros x. rewrite HD. split; (intros [?|[Hx ?]]; [by left|right; split; [|done]]).
    - by apply Hseen.
    - assert (forall y, y ∈ seen -> forall z, descends s y z -> z ∈ seen) as Hdown.
      { intros y Hy z Hz. revert Hy. induction Hz as [y z Hp|y z w Hp _ IH]; intros Hy.
        - destruct (Hseen y Hy) as (_ & _ & Hps). destruct (Hps z Hp) as [?|Hz]; [done|by apply elem_of_nil in Hz].
        - apply IH. destruct (Hseen y Hy) as (_ & _ & Hps).
          destruct (Hps z Hp) as [?|Hz]; [done|by apply elem_of_nil in Hz]. }
      destruct Hx as [y z Hp|y z w Hp Hd].
      + destruct (Hcand z Hp) as [?|Hz]; [done|by apply elem_of_nil in Hz].
      + apply (Hdown z); [|done]. destruct (Hcand z Hp) as [?|Hz]; [done|by apply elem_of_nil in Hz]. }
  case_bool_decide as Hid.
  - split.
    + split; [intros; apply Hst; by right|]. split_and!; [|intros y Hy|done].
      * intros x Hx. destruct (Hseen x Hx) as (? & ? & Hps). split; [done|]. split; [done|].
        intros y [?|[->|?]%elem_of_cons]%Hps; [by left|by left|by right].
      * destruct (Hcand y Hy) as [?|[->|?]%elem_of_cons]; [by left|by left|by right].
    + unfold dom_measure. cbn [fst snd]. rewrite len_cons. pose proof (len_nonneg stack).
      pose proof (Hsub seen (fun x Hx => proj1 (proj2 (Hseen x Hx)))). unfold MAX_COMMIT_PARENTS. lia.
  - assert (descends s cand id) as Hdid by (apply Hst; by left).
    assert (ancestor s a id) as Haid by (by eapply descends_ancestor).
    destruct (ancestry_held id Haid) as [c Hcid]. rewrite (in_ancestry id c) by done.
    assert (id ∈ dom am) as Hdom by (apply elem_of_dom; eexists; by apply in_ancestry).
    assert (forall x y, y ∈ seen \/ y ∈ id :: stack ->
      y ∈ {[ id ]} ∪ seen \/ y ∈ reverse (c_parents c) ++ stack) as Hmv.
    { intros x y [?|[->|?]%elem_of_cons]; [left; set_solver|left; set_solver|right]. apply elem_of_app. by right. }
    split.
    + split; [|split; [|split]].
      * intros x [Hx|Hx]%elem_of_app; [|apply Hst; by right]. rewrite elem_of_reverse in Hx.
        eapply tc_r; [done|]. by exists c.
      * intros x [->%elem_of_singleton|Hx]%elem_of_union.
        -- split; [done|]. split; [done|]. intros y (c' & Hc' & Hy). right. apply elem_of_app. left.
           rewrite elem_of_reverse. by rewrite (cs_holds_fun _ _ _ _ Hcid Hc').
        -- destruct (Hseen x Hx) as (? & ? & Hps). split; [done|]. split; [done|].
           intros y Hy. by apply (Hmv x), Hps.
      * intros y Hy. by apply (Hmv cand), Hcand.
      * intros x. case_bool_decide; set_solver.
    + unfold dom_measure. cbn [fst snd]. rewrite size_union, size_singleton by set_solver.
      rewrite len_app, len_cons. pose proof (cs_parents _ _ _ Hcid) as Hp.
      assert (len (reverse (c_parents c)) = len (c_parents c)) as -> by (unfold len; by rewrite length_reverse).
      assert (size ({[ id ]} ∪ seen) <= size am)%nat as Hle.
      { apply Hsub. intros x [->%elem_of_singleton|Hx]%elem_of_union; [done|]. by apply Hseen. }
      rewrite size_union, size_singleton in Hle by set_solver.
      pose proof (len_nonneg stack). pose proof (len_nonneg (c_parents c)). unfold MAX_COMMIT_PARENTS in *. lia.
Qed.

Lemma dominate_spec D0 cand :
  ancestor s a cand ->
  exists D, dominate am common D0 cand = Ok D /\
    forall x, x ∈ D <-> x ∈ D0 \/ (descends s cand x /\ x ∈ common).
Proof.
  intros Hc. destruct (ancestry_held cand Hc) as [c Hcc]. unfold dominate.
  rewrite (in_ancestry cand c) by done. cbn [ok_or]. rewrite bind_of_ok.
  destruct (while_pos_ends (dominate_step am common) (dom_inv cand D0) (fun l => Z.to_nat (dom_measure l))
    ancestry_budget (D0, ∅, reverse (c_parents c))) as (r & l & E & Hl & Er).
  - intros l Hl. pose proof (dom_step cand D0 l Hc Hl) as H.
    destruct (dominate_step am common l); [|done]. destruct H. split; [done|lia].
  - split; [|split; [|split]].
    + intros x Hx. rewrite elem_of_reverse in Hx. apply tc_once. by exists c.
    + intros x Hx. by apply elem_of_empty in Hx.
    + intros y (c' & Hc' & Hy). right. rewrite elem_of_reverse. by rewrite (cs_holds_fun _ _ _ _ Hcc Hc').
    + set_solver.
  - unfold dom_measure. cbn [fst snd]. rewrite size_empty.
    assert (len (reverse (c_parents c)) = len (c_parents c)) as -> by (unfold len; by rewrite length_reverse).
    pose proof (cs_parents _ _ _ Hcc). unfold ancestry_budget, MAX_COMMIT_PARENTS, MAX_ANCESTRY_COMMITS in *. lia.
  - rewrite E. exists r. split; [done|]. pose proof (dom_step cand D0 l Hc Hl) as H. by rewrite Er in H.
Qed.
End dominate.

Lemma is_ancestry_iff s s' a m : same_commits s s' -> is_ancestry s' a m <-> is_ancestry s a m.
Proof.
  intros H. unfold is_ancestry. setoid_rewrite (ancestor_iff s s' a); [|done].
  destruct H as [_ H]. by setoid_rewrite H.
Qed.

Lemma bounded_history_iff s s' a : same_commits s s' -> bounded_history s' a <-> bounded_history s a.
Proof.
  intros H. unfold bounded_history. setoid_rewrite (ancestor_iff s s' a); [|done].
  destruct H as [_ H]. by setoid_rewrite H.
Qed.

Lemma dominate_all s a am common (l : list ObjectId) D0 :
  is_ancestry s a am -> Z.of_nat (size am) <= MAX_ANCESTRY_COMMITS ->
  (forall x, x ∈ l -> ancestor s a x) ->
  exists D, try_fold (dominate am common) D0 l = Ok D /\
    forall x, x ∈ D <-> x ∈ D0 \/ (x ∈ common /\ exists d, d ∈ l /\ descends s d x).
Proof.
  intros Ham Hsz. revert D0. induction l as [|d l IH]; intros D0 Hl.
  - exists D0. split; [done|]. intros x. split; [by left|]. intros [?|(_ & d & Hd & _)]; [done|].
    by apply elem_of_nil in Hd.
  - destruct (dominate_spec s a am Ham Hsz common D0 d) as (D1 & E1 & H1); [apply Hl; by left|].
    cbn [try_fold]. rewrite E1, bind_of_ok. destruct (IH D1) as (D & E & H); [intros; apply Hl; by right|].
    exists D. split; [done|]. intros x. rewrite H, H1. setoid_rewrite elem_of_cons. naive_solver.
Qed.

(** Sorting a set of identifiers. *)
Lemma sorted_ids (X : gset ObjectId) :
  StronglySorted (key_lt arr_bytes) (sort_by_key arr_bytes (elements X)) /\
  forall x, x ∈ sort_by_key arr_bytes (elements X) <-> x ∈ X.
Proof.
  split.
  - apply sort_by_key_strict. apply NoDup_fmap_2_strong; [|apply NoDup_elements].
    intros x y _ _. apply arr_eq.
  - intros x. rewrite sort_by_key_perm. apply elem_of_elements.
Qed.

(** Among common ancestors of an acyclic history, one is best. *)
Lemma best_common_exists s a b am (common : gset ObjectId) :
  is_ancestry s a am -> Z.of_nat (size am) <= MAX_ANCESTRY_COMMITS -> acyclic s a ->
  (forall x, x ∈ common <-> ancestor s a x /\ ancestor s b x) ->
  common <> ∅ -> exists c, best_common s a b c.
Proof.
  intros Ham Hsz Hac Hcom [x0 Hx0]%set_choose_L.
  destruct (dominate_all s a am common (elements common) ∅ Ham Hsz) as (D & _ & HD).
  { intros x Hx%elem_of_elements. by apply Hcom. }
  assert (forall (n : nat) x (B : gset ObjectId), x ∈ common -> B ⊆ common ->
    (forall y, y ∈ B <-> y ∈ common /\ descends s x y) -> (size common - size B < n)%nat ->
    exists c, best_common s a b c) as Hind.
  { induction n as [|n IH]; intros x B Hx HB Hbx Hn; [lia|]. destruct (decide (x ∈ D)) as [HxD|HxD].
    - apply HD in HxD as [HxD|(_ & d & Hd & Hdx)]; [by apply elem_of_empty in HxD|].
      apply elem_of_elements in Hd. pose proof (proj1 (Hcom d) Hd) as [Had _].
      destruct (dominate_spec s a am Ham Hsz common ∅ d Had) as (B' & _ & HB').
      assert (forall y, y ∈ B' <-> y ∈ common /\ descends s d y) as HBd.
      { intros y. rewrite HB'. set_solver. }
      apply (IH d B'); [done|set_solver|done|].
      assert (size ({[ x ]} ∪ B) <= size B')%nat as Hle.
      { apply subseteq_size. intros y [->%elem_of_singleton|Hy]%elem_of_union; [by apply HBd|].
        apply HBd. apply Hbx in Hy as [? Hxy]. split; [done|]. by eapply tc_transitive. }
      assert (x ∉ B) as HxB.
      { intros [_ Hxx]%Hbx. apply (Hac x); [|done]. by apply Hcom. }
      rewrite size_union, size_singleton in Hle by set_solver.
      assert (size B' <= size common)%nat by (apply subseteq_size; set_solver). lia.
    - exists x. apply Hcom in Hx as Hx'. destruct Hx' as [Hxa Hxb]. split; [done|]. split; [done|].
      intros d Hda Hdb Hdx. apply HxD, HD. right. split; [done|]. exists d. split; [|done].
      apply elem_of_elements, Hcom. done. }
  pose proof (proj1 (Hcom x0) Hx0) as [Ha0 _].
  destruct (dominate_spec s a am Ham Hsz common ∅ x0 Ha0) as (B & _ & HB).
  apply (Hind (S (size common)) x0 B); [done|intros y; set_solver|intros y; rewrite HB; set_solver|lia].
Qed.

Lemma merge_bases_spec s a b :
  cs_inv s -> acyclic s a ->
  wp (merge_bases a b) s (fun r s' => same_commits s s' /\
    match r with
    | Ok out => StronglySorted (key_lt arr_bytes) out /\ (forall c, c ∈ out <-> best_common s a b c) /\
        (out = [] -> forall c, ~ (ancestor s a c /\ ancestor s b c))
    | Err _ => ~ (bounded_history s a /\ bounded_history s b)
    | Panic => False
    end).
Proof.
  intros Hi Hac. unfold merge_bases. case_bool_decide as Hab.
  { subst b. apply wp_bind. eapply wp_mono; [by apply read_commit_spec|].
    intros r s' (Hi' & Hh & Hr). destruct r as [c|e|]; [|split; [done|]|done].
    - split; [done|]. split; [repeat constructor|]. split; [|done]. intros x. rewrite list_elem_of_singleton. split.
      + intros ->. split; [apply rtc_refl|]. split; [apply rtc_refl|]. intros d Hd _ Hda.
        apply (Hac a); [apply rtc_refl|]. eapply tc_rtc_l; [exact Hd|exact Hda].
      + intros (Hx & _ & Hb). apply rtc_tc in Hx as [?|Hx]; [done|]. exfalso.
        apply (Hb a); [apply rtc_refl..|done].
    - intros [(X & _ & HX) _]. destruct (HX a) as [_ [c Hc]]; [apply rtc_refl|]. by apply (Hr c). }
  apply wp_bind. eapply wp_mono; [by apply ancestor_map_spec|]. intros r s1 [H1 Hr].
  destruct r as [am|e|]; [|by split; [|intros [? _]]|done]. destruct Hr as [Ham Hsz].
  apply wp_bind. eapply wp_mono; [apply ancestor_map_spec, H1|]. intros r s2 [H2 Hr].
  assert (same_commits s s2) as Hs2 by (by eapply same_commits_trans).
  destruct r as [bm|e|]; [|split; [done|]; intros [_ Hb]; by apply Hr, (bounded_history_iff s s1)|done].
  destruct Hr as [Hbm _]. apply (is_ancestry_iff s s1) in Hbm; [|done]. cbv zeta.
  assert (forall x, x ∈ dom am ∩ dom bm <-> ancestor s a x /\ ancestor s b x) as Hcom.
  { intros x. rewrite elem_of_intersection. destruct Ham as [-> _], Hbm as [-> _]. done. }
  case_bool_decide as He.
  { split; [done|]. assert (forall c, ~ (ancestor s a c /\ ancestor s b c)) as Hno.
    { intros c Hc%Hcom. rewrite He in Hc. by apply elem_of_empty in Hc. }
    split; [constructor|]. split; [|done]. intros c. split; [by intros ?%elem_of_nil|].
    intros (? & ? & _). by destruct (Hno c). }
  destruct (dominate_all s a am (dom am ∩ dom bm) (elements (dom am ∩ dom bm)) ∅ Ham Hsz) as (D & ED & HD).
  { intros x Hx%elem_of_elements. by apply Hcom. }
  rewrite ED. apply wp_bind, wp_pure, wp_ret. split; [done|].
  destruct (sorted_ids ((dom am ∩ dom bm) ∖ D)) as [Hso Hel]. split; [done|].
  assert (forall c, c ∈ sort_by_key arr_bytes (elements ((dom am ∩ dom bm) ∖ D)) <-> best_common s a b c) as Hbest.
  { intros c. rewrite Hel, elem_of_difference, Hcom, HD. unfold best_common. split.
    - intros [[Ha Hb] Hn]. split; [done|]. split; [done|]. intros d Hda Hdb Hdc. apply Hn. right.
      split; [by apply Hcom|]. exists d. split; [by apply elem_of_elements, Hcom|done].
    - intros (Ha & Hb & Hn). split; [done|]. intros [?%elem_of_empty|(_ & d & Hd & Hdc)]; [done|].
      apply elem_of_elements, Hcom in Hd as [? ?]. by apply (Hn d). }
  split; [done|]. intros Hnil. exfalso.
  destruct (best_common_exists s a b am (dom am ∩ dom bm) Ham Hsz Hac Hcom He) as [c Hc].
  apply Hbest in Hc. rewrite Hnil in Hc. by apply elem_of_nil in Hc.
Qed.
End ancestry.

(** ** The typed store reads commits *)

Section store.
Context {C : Type -> Type} `{LL : LruLaws C} `{B3 : Blake3}.

#[export] Instance store_commits : CommitStore (Store C) := {| read_commit := get_commit |}.

#[export] Program Instance store_commits_laws : CommitStoreLaws (Store C) := {|
  cs_inv := wf_sstore;
  cs_holds s id c := exists b, objects s !! id = Some b /\ Commit_decode b = Ok c
|}.
Next Obligation. intros s id c c' (b & Hb & Hd) (b' & Hb' & Hd'). congruence. Qed.
Next Obligation. intros s id c (b & _ & Hd). apply Commit_decode_spec in Hd as [Hw _]. apply Hw. Qed.
Next Obligation.
  intros s id Hw. unfold read_commit, store_commits, get_commit. apply wp_bind.
  eapply wp_mono; [by apply get_raw_spec|]. intros r s' (Hw' & Hb & ->).
  pose proof (get_cases (blobs s) id (ws_blobs _ Hw)) as Hg. unfold objects.
  destruct (Memory_get (blobs s) id) as [b|e|]; [|destruct Hg as [Hg _]|done].
  - apply wp_pure. split; [done|]. rewrite Hb. split; [done|].
    destruct (Commit_decode b) as [c|e|] eqn:Hd.
    + by exists b.
    + intros c (b' & Hb' & Hd'). congruence.
    + by apply no_panic_Commit_decode in Hd.
  - split; [done|]. rewrite Hb. split; [done|]. intros c (b' & Hb' & _). congruence.
Qed.
End store.

(** ** Properties *)

Section properties.
Context {St : Type} `{CSL : CommitStoreLaws St}.

(** C37: merge bases.  In an acyclic history [merge_bases] returns exactly the
    best common ancestors - the common ancestors that no other common ancestor
    descends to - each once and in the order of their identifiers, and the
    empty list only for unrelated histories.  It changes nothing that is
    stored, its walks end within their budget without panicking, and it fails
    only when an ancestor is missing or a history exceeds the limit. *)
Theorem merge_bases_are_best (a b : ObjectId) (s : St) (Hi : cs_inv s) (Hac : acyclic s a) :
  wp (merge_bases a b) s (fun r s' => same_commits s s' /\
    match r with
    | Ok out => StronglySorted (key_lt arr_bytes) out /\ (forall c, c ∈ out <-> best_common s a b c) /\
        (out = [] -> forall c, ~ (ancestor s a c /\ ancestor s b c))
    | Err _ => ~ (bounded_history s a /\ bounded_history s b)
    | Panic => False
    end).
Proof. by apply merge_bases_spec. Qed.

(** One merge base.  [lca] answers with the only best common ancestor, with
    none exactly for unrelated histories, and refuses when there are several
    (or the history cannot be read): it never picks one by traversal order. *)
Theorem lca_is_unique_base (a b : ObjectId) (s : St) (Hi : cs_inv s) (Hac : acyclic s a) :
  wp (lca a b) s (fun r s' => same_commits s s' /\
    match r with
    | Ok (Some c) => best_common s a b c /\ forall d, best_common s a b d -> d = c
    | Ok None => forall c, ~ (ancestor s a c /\ ancestor s b c)
    | Err _ => ~ (bounded_history s a /\ bounded_history s b) \/
               exists c d, c <> d /\ best_common s a b c /\ best_common s a b d
    | Panic => False
    end).
Proof.
  unfold lca. apply wp_bind. eapply wp_mono; [by apply merge_bases_spec|]. intros r s' [Hs Hr].
  destruct r as [out|e|]; [|split; [done|by left]|done]. destruct Hr as (Hso & Hel & Hnil).
  destruct out as [|c [|d l]].
  - split; [done|]. exact (Hnil eq_refl).
  - split; [done|]. split; [apply Hel; by left|]. intros d Hd%Hel. by apply list_elem_of_singleton in Hd.
  - split; [done|]. right. exists c, d. split; [|split; apply Hel; [by left|right; by left]].
    intros ->. apply StronglySorted_inv in Hso as [_ Hso]. rewrite Forall_forall in Hso.
    specialize (Hso d ltac:(by left)). unfold key_lt in Hso. by rewrite bytes_lt_irrefl in Hso.
Qed.
End properties.

(** ** Witnesses *)

(** Commits in a map. *)
#[export] Instance map_commits : CommitStore (gmap ObjectId Commit) := {|
  read_commit id s := (match s !! id with
                       | Some c => reject_if (MAX_COMMIT_PARENTS <? len (c_parents c)) (Corrupt []) ≫= fun _ => Ok c
                       | None => Err (NotFound []) end, s)
|}.

#[export] Program Instance map_commits_laws : CommitStoreLaws (gmap ObjectId Commit) := {|
  cs_inv _ := True;
  cs_holds s id c := s !! id = Some c /\ len (c_parents c) <= MAX_COMMIT_PARENTS
|}.
Next Obligation. intros s id c c' [H _] [H' _]. congruence. Qed.
Next Obligation. by intros s id c [_ H]. Qed.
Next Obligation.
  intros s id _. unfold wp. simpl. split; [done|]. split; [done|].
  destruct (s !! id) as [c|] eqn:E.
  - unfold reject_if. destruct (Z.ltb_spec MAX_COMMIT_PARENTS (len (c_parents c))); simpl; [|by split].
    intros c' [[= <-] ?]. lia.
  - by intros c [? _].
Qed.

Definition demo_id (z : Z) : ObjectId := default ZERO (arr_of 32 (be_bytes 32 z)).
Definition demo_commit (ps : list ObjectId) : Commit := mkCommit ZERO ps [] [] 0 false None.

(** A root and two commits on top of it. *)
Definition demo_history : gmap ObjectId Commit :=
  <[demo_id 2 := demo_commit [demo_id 1]]> (<[demo_id 3 := demo_commit [demo_id 1]]>
    {[ demo_id 1 := demo_commit [] ]}).

Lemma demo_parent x y : parent_of demo_history x y -> y = demo_id 1 /\ x <> demo_id 1.
Proof.
  intros (c & [Hc _] & Hy). unfold demo_history in Hc.
  apply lookup_insert_Some in Hc as [[<- <-]|[_ Hc]].
  { apply list_elem_of_singleton in Hy. split; [done|]. by apply (bool_decide_eq_false_1 (demo_id 2 = demo_id 1)). }
  apply lookup_insert_Some in Hc as [[<- <-]|[_ Hc]].
  { apply list_elem_of_singleton in Hy. split; [done|]. by apply (bool_decide_eq_false_1 (demo_id 3 = demo_id 1)). }
  apply lookup_singleton_Some in Hc as [_ <-]. by apply elem_of_nil in Hy.
Qed.

Lemma demo_acyclic a : acyclic demo_history a.
Proof.
  intros x _ Hd. unfold descends in Hd. assert (forall y z, tc (parent_of demo_history) y z -> z = demo_id 1 /\ y <> demo_id 1) as H.
  { intros y z Hyz. induction Hyz as [y z H|y z w H _ [-> _]]; [by apply demo_parent|].
    split; [done|]. by apply demo_parent in H as [_ ?]. }
  destruct (H x x Hd). done.
Qed.

Lemma merge_bases_are_best_witness :
  (merge_bases (demo_id 2) (demo_id 3) demo_history).1 = Ok [demo_id 1] /\
  best_common demo_history (demo_id 2) (demo_id 3) (demo_id 1).
Proof.
  assert ((merge_bases (demo_id 2) (demo_id 3) demo_history).1 = Ok [demo_id 1]) as E by (vm_compute; reflexivity).
  split; [exact E|].
  pose proof (merge_bases_are_best (demo_id 2) (demo_id 3) demo_history I (demo_acyclic _)) as [_ H].
  rewrite E in H. apply H. by left.
Defined.

Lemma lca_is_unique_base_witness :
  (lca (demo_id 2) (demo_id 3) demo_history).1 = Ok (Some (demo_id 1)) /\
  forall d, best_common demo_history (demo_id 2) (demo_id 3) d -> d = demo_id 1.
Proof.
  assert ((lca (demo_id 2) (demo_id 3) demo_history).1 = Ok (Some (demo_id 1))) as E by (vm_compute; reflexivity).
  split; [exact E|].
  pose proof (lca_is_unique_base (demo_id 2) (demo_id 3) demo_history I (demo_acyclic _)) as [_ H].
  rewrite E in H. apply H.
Defined.
