(* ===== verification/Merge.v ===== *)
(** * The three-way merge of trees (crates/forge-merge/src/lib.rs)

    [merge_trees] with its conflicts, the detection of exact renames before
    it, and [changed_paths], over any [TreeStore].  The reference is the
    three-way rule on single files: where two of the three trees agree, the
    third decides.  Loops over a stack of trees and the recursion take fuel;
    every theorem says which trees need how much, and that it then suffices. *)

From S2P Require Import Prelude RustStd Types Tree Object TreeStore ObjectStore Store Overlay.

(** ** Entries *)

Inductive MergeOutcome := MTree (id : ObjectId) | MConflict (c : Conflict).

Abbreviation EntryIdentity := (ObjectId * Z * bool)%type.

Definition entry_identity (e : TreeEntry) : EntryIdentity := (e_id e, EntryKind_to_u8 (e_kind e), e_exec e).

Definition same_entry (a b : TreeEntry) : bool :=
  bool_decide (e_id a = e_id b) && bool_decide (e_kind a = e_kind b) && bool_decide (e_exec a = e_exec b).

Definition both_trees (a b : TreeEntry) : bool :=
  bool_decide (e_kind a = KTree) && bool_decide (e_kind b = KTree).

(** The names of a hash set, sorted. *)
Definition sorted_names (names : gset str) : list str := sort_by_key (fun n => n) (elements names).

(** ** The walk over what differs between two trees

    [tree_changes] and [changed_paths] walk the pairs of directories that
    differ, with a stack (its top first); [note] is what they do at a name
    that is not the same on both sides and not a directory on both. *)

Section diff.
Context {St : Type} `{TS : TreeStore St} {A : Type}
  (note : A -> str -> option TreeEntry -> option TreeEntry -> Result A).

Abbreviation Pairs := (list (str * ObjectId * ObjectId)).

Definition diff_name (prefix : str) (lm rm : gmap str TreeEntry) (acc : A * Pairs) (name : str)
    : Result (A * Pairs) :=
  let path := child_path prefix name in
  match lm !! name, rm !! name with
  | Some x, Some y =>
      if same_entry x y then Ok acc
      else if both_trees x y then Ok (acc.1, (path, e_id x, e_id y) :: acc.2)
      else out ← note acc.1 path (Some x) (Some y); Ok (out, acc.2)
  | x, y => out ← note acc.1 path x y; Ok (out, acc.2)
  end.

Fixpoint diff_loop (fuel : nat) (out : A) (stack : Pairs) : stateM Error St A :=
  match fuel with
  | O => panic
  | S fuel' =>
      match stack with
      | [] => mret out
      | (prefix, l, r) :: stack =>
          if bool_decide (l = r) then diff_loop fuel' out stack
          else
            lt ← get_tree l; rt ← get_tree r;
            let lm := as_map lt in let rm := as_map rt in
            '(out, stack) ← pure (try_fold (diff_name prefix lm rm) (out, stack)
              (sorted_names (dom lm ∪ dom rm)));
            diff_loop fuel' out stack
      end
  end.
End diff.

(** ** Exact renames *)

Record TreeChanges := mkChanges {
  deleted : gmap str TreeEntry;
  added : gmap str TreeEntry
}.

(** The last arm is the [unreachable!]. *)
Definition note_change (ch : TreeChanges) (path : str) (x y : option TreeEntry) : Result TreeChanges :=
  match x, y with
  | Some before, None => Ok (mkChanges (<[path := before]> (deleted ch)) (added ch))
  | None, Some after => Ok (mkChanges (deleted ch) (<[path := after]> (added ch)))
  | Some _, Some _ => Ok ch
  | None, None => Panic
  end.

Definition count_entry (wanted : gset EntryIdentity) (acc : gmap EntryIdentity Z * list ObjectId)
    (e : TreeEntry) : gmap EntryIdentity Z * list ObjectId :=
  let '(counts, stack) := acc in
  let identity := entry_identity e in
  let counts := if bool_decide (identity ∈ wanted)
                then <[identity := Z.min (default 0 (counts !! identity) + 1) 2]> counts else counts in
  (counts, if bool_decide (e_kind e = KTree) then e_id e :: stack else stack).

Definition infer_exact_renames (changes : TreeChanges) (base_counts : gmap EntryIdentity Z) : gmap str str :=
  let destinations := fold_left (fun (m : gmap EntryIdentity (list str)) '(path, e) =>
      <[entry_identity e := default [] (m !! entry_identity e) ++ [path]]> m) (btree_list (added changes)) ∅ in
  fold_left (fun (renames : gmap str str) '(source, e) =>
      if negb (bool_decide (base_counts !! entry_identity e = Some 1)) then renames
      else match destinations !! entry_identity e with
           | Some [d] => <[source := d]> renames
           | _ => renames
           end) (btree_list (deleted changes)) ∅.

(** The entries that one side deleted and the same side added elsewhere. *)
Definition identities (m : gmap str TreeEntry) : gset EntryIdentity :=
  list_to_set (entry_identity <$> (snd <$> btree_list m)).

Definition wanted_identities (ours theirs : TreeChanges) : gset EntryIdentity :=
  (identities (deleted ours) ∩ identities (added ours)) ∪
  (identities (deleted theirs) ∩ identities (added theirs)).

Definition rename_conflict (theirs_deleted : gmap str TreeEntry) (ours_renames theirs_renames : gmap str str)
    (conflicts : list ConflictPath) (kv : str * TreeEntry) : list ConflictPath :=
  let '(source, base_entry) := kv in
  match theirs_deleted !! source with
  | None => conflicts
  | Some _ =>
      let ours_destination := ours_renames !! source in
      let theirs_destination := theirs_renames !! source in
      if bool_decide (ours_destination = None) && bool_decide (theirs_destination = None) then conflicts
      else if negb (bool_decide (ours_destination = None)) &&
              bool_decide (ours_destination = theirs_destination) then conflicts
      else conflicts ++ [mkConflictPath source None None (Some (e_id base_entry))]
  end.

Section renames.
Context {St : Type} `{TS : TreeStore St}.

Definition tree_changes (fuel : nat) (base side : ObjectId) : stateM Error St TreeChanges :=
  diff_loop note_change fuel (mkChanges ∅ ∅) [([], base, side)].

Fixpoint count_loop (fuel : nat) (wanted : gset EntryIdentity) (counts : gmap EntryIdentity Z)
    (stack : list ObjectId) : stateM Error St (gmap EntryIdentity Z) :=
  match fuel with
  | O => panic
  | S fuel' =>
      match stack with
      | [] => mret counts
      | tree_id :: stack =>
          tree ← get_tree tree_id;
          let '(counts, stack) := fold_left (count_entry wanted) (entries tree) (counts, stack) in
          count_loop fuel' wanted counts stack
      end
  end.

Definition count_base_identities (fuel : nat) (base : ObjectId) (wanted : gset EntryIdentity)
    : stateM Error St (gmap EntryIdentity Z) :=
  if bool_decide (wanted = ∅) then mret ∅ else count_loop fuel wanted ∅ [base].

Definition exact_rename_conflicts (fuel : nat) (base ours theirs : ObjectId) : stateM Error St (list ConflictPath) :=
  ours_changes ← tree_changes fuel base ours;
  theirs_changes ← tree_changes fuel base theirs;
  base_counts ← count_base_identities fuel base (wanted_identities ours_changes theirs_changes);
  let ours_renames := infer_exact_renames ours_changes base_counts in
  let theirs_renames := infer_exact_renames theirs_changes base_counts in
  mret (fold_left (rename_conflict (deleted theirs_changes) ours_renames theirs_renames)
          (btree_list (deleted ours_changes)) []).
End renames.

(** ** Scopes *)

Definition path_in_conflict_scope (path : str) (conflict_paths : list ConflictPath) : bool :=
  existsb (fun c => bytes_eqb path (cp_path c) || starts_with path (cp_path c ++ bs "/")) conflict_paths.

Section changed.
Context {St : Type} `{TS : TreeStore St}.

Definition changed_paths (fuel : nat) (left right : ObjectId) : stateM Error St (gset str) :=
  diff_loop (fun out path _ _ => Ok ({[ path ]} ∪ out)) fuel ∅ [([], left, right)].
End changed.

(** ** The merge *)

Definition is_same (g : option TreeEntry) (x : TreeEntry) : bool :=
  match g with Some g => same_entry g x | None => false end.

Section merge.
Context {St : Type} `{TS : TreeStore St}.

Abbreviation Acc := (list TreeEntry * list ConflictPath)%type.

(** One name of the merged directory; [rec] merges the subdirectories. *)
Definition merge_name
    (rec : str -> option ObjectId -> ObjectId -> ObjectId -> list ConflictPath ->
           stateM Error St (ObjectId * list ConflictPath))
    (prefix : str) (am bm gm : gmap str TreeEntry) (acc : Acc) (name : str) : stateM Error St Acc :=
  let '(out, conflicts) := acc in
  let child := child_path prefix name in
  let g := gm !! name in
  match am !! name, bm !! name with
  | None, None => mret (out, conflicts)
  | Some x, None =>
      if is_same g x then mret (out, conflicts)
      else match g with
           | None => mret (out ++ [x], conflicts)
           | Some g => mret (out, conflicts ++ [mkConflictPath child (Some (e_id x)) None (Some (e_id g))])
           end
  | None, Some x =>
      if is_same g x then mret (out, conflicts)
      else match g with
           | None => mret (out ++ [x], conflicts)
           | Some g => mret (out, conflicts ++ [mkConflictPath child None (Some (e_id x)) (Some (e_id g))])
           end
  | Some x, Some y =>
      if same_entry x y then mret (out ++ [x], conflicts)
      else if is_same g x then mret (out ++ [y], conflicts)
      else if is_same g y then mret (out ++ [x], conflicts)
      else if both_trees x y then
        let base_subtree := g ← g; if bool_decide (e_kind g = KTree) then Some (e_id g) else None in
        '(merged, conflicts) ← rec child base_subtree (e_id x) (e_id y) conflicts;
        mret (out ++ [mkEntry (e_name x) (e_kind x) merged (e_exec x)], conflicts)
      else mret (out ++ [x], conflicts ++
             [mkConflictPath child (Some (e_id x)) (Some (e_id y)) (e_id <$> g)])
  end.

Fixpoint merge_trees (fuel : nat) (prefix : str) (base : option ObjectId) (ours theirs : ObjectId)
    (conflicts : list ConflictPath) : stateM Error St (ObjectId * list ConflictPath) :=
  match fuel with
  | O => panic
  | S fuel' =>
      if bool_decide (ours = theirs) then mret (ours, conflicts)
      else if bool_decide (Some ours = base) then mret (theirs, conflicts)
      else if bool_decide (Some theirs = base) then mret (ours, conflicts)
      else
        a ← get_tree ours; b ← get_tree theirs;
        g ← match base with Some id => get_tree id | None => mret empty_tree end;
        let names : gset str := list_to_set (e_name <$> entries a ++ entries b ++ entries g) in
        '(out, conflicts) ← m_fold
          (merge_name (merge_trees fuel') prefix (as_map a) (as_map b) (as_map g)) ([], conflicts)
          (sorted_names names);
        tree ← pure (Tree_new out);
        id ← put_tree tree;
        mret (id, conflicts)
  end.

Definition auto_merge_tree (fuel : nat) (base : option ObjectId) (ours theirs : ObjectId)
    : stateM Error St (ObjectId * list ConflictPath) :=
  paths ← match base with
          | Some base =>
              if bool_decide (ours <> theirs) && bool_decide (ours <> base) && bool_decide (theirs <> base)
              then exact_rename_conflicts fuel base ours theirs else mret []
          | None => mret []
          end;
  '(tree, paths) ← merge_trees fuel [] base ours theirs paths;
  mret (tree, sort_by_key cp_path paths).

Definition three_way (fuel : nat) (base : option ObjectId) (ours theirs : ObjectId) : stateM Error St MergeOutcome :=
  '(tree, paths) ← auto_merge_tree fuel base ours theirs;
  match paths with
  | [] => mret (MTree tree)
  | _ => mret (MConflict (mkConflict (option_list base) ours theirs paths []))
  end.
End merge.

(** ** Lemmas: names and entries *)

Lemma sorted_names_spec (X : gset str) :
  StronglySorted (key_lt (fun n : str => n)) (sorted_names X) /\
  NoDup (sorted_names X) /\ forall n, n ∈ sorted_names X <-> n ∈ X.
Proof.
  unfold sorted_names. assert (StronglySorted (key_lt (fun n : str => n)) (sort_by_key (fun n => n) (elements X))) as Hs.
  { apply sort_by_key_strict. rewrite list_fmap_id. apply NoDup_elements. }
  split; [done|]. split.
  - apply strictly_sorted_nodup in Hs. by rewrite list_fmap_id in Hs.
  - intros n. rewrite sort_by_key_perm. apply elem_of_elements.
Qed.

Lemma same_entry_spec x y : e_name x = e_name y -> same_entry x y = true <-> x = y.
Proof.
  intros Hn. unfold same_entry. rewrite !andb_true_iff, !bool_decide_eq_true.
  destruct x, y; simpl in *. split; [intros [[-> ->] ->]; by subst|by intros [= -> -> -> ->]].
Qed.

Lemma same_entry_refl x : same_entry x x = true.
Proof. by apply same_entry_spec. Qed.

Lemma both_trees_spec x y : both_trees x y = true <-> e_kind x = KTree /\ e_kind y = KTree.
Proof. unfold both_trees. by rewrite andb_true_iff, !bool_decide_eq_true. Qed.

(** What differs at one name and is not a pair of directories. *)
Definition noted (x y : option TreeEntry) : Prop :=
  match x, y with
  | Some a, Some b => same_entry a b = false /\ both_trees a b = false
  | None, None => False
  | _, _ => True
  end.

Section frontier.
Context {St : Type} `{TSL : TreeStoreLaws St}.
Implicit Types (s : St) (id l r : ObjectId) (q pre : list str) (x y : option TreeEntry).

Abbreviation Event := (list str * option TreeEntry * option TreeEntry)%type.
Abbreviation Pair := (list str * ObjectId * ObjectId)%type.

(** [frontier s l r q x y]: walking down [q] through directories that differ,
    the trees [l] and [r] differ at [q], where they have [x] and [y]. *)
Fixpoint frontier s l r q x y : Prop :=
  match q with
  | [] => False
  | n :: q' => l <> r /\ exists tl tr, ts_holds s l tl /\ ts_holds s r tr /\
      match q' with
      | [] => x = find_entry (entries tl) n /\ y = find_entry (entries tr) n /\ noted x y
      | _ => exists a b, find_entry (entries tl) n = Some a /\ find_entry (entries tr) n = Some b /\
               same_entry a b = false /\ both_trees a b = true /\ frontier s (e_id a) (e_id b) q' x y
      end
  end.

Definition unchanged s s' : Prop := extends s s' /\ forall i u, ts_holds s' i u <-> ts_holds s i u.

Lemma unchanged_refl s : ts_inv s -> unchanged s s.
Proof. intros Hi. split; [by apply extends_refl|done]. Qed.
Lemma unchanged_trans s1 s2 s3 : unchanged s1 s2 -> unchanged s2 s3 -> unchanged s1 s3.
Proof. intros [H1 H2] [H3 H4]. split; [by eapply extends_trans|]. intros i u. by rewrite H4. Qed.

Lemma get_tree_unchanged s id (Q : Result Tree -> St -> Prop) :
  ts_inv s -> closed s id ->
  (forall t s', unchanged s s' -> ts_holds s id t -> wf_tree t -> Q (Ok t) s') ->
  (forall e s', unchanged s s' -> ts_fault e -> Q (Err e) s') ->
  wp (get_tree id) s Q.
Proof.
  intros Hi (t & Ht & _)%closed_inv HQ HE. eapply wp_mono; [by apply get_tree_spec|].
  intros r s' (Hi' & Hw & Hh & Hr).
  assert (unchanged s s') as Hu by (split; [split; [done|done|intros i u; apply Hh]|done]).
  destruct r as [t'|e|]; [|destruct Hr as [?|Hr]; [by apply HE|by destruct (Hr t)]|done].
  apply HQ; [done|done|exact (ts_holds_wf s id t' Hi Hr)].
Qed.

Lemma unchanged_closed s s' id : unchanged s s' -> closed s id -> closed s' id.
Proof. intros [? _]. by apply closed_mono. Qed.

(** The directories a step pushes. *)
Definition kid pre (tl tr : Tree) (n : str) : option Pair :=
  match find_entry (entries tl) n, find_entry (entries tr) n with
  | Some a, Some b =>
      if negb (same_entry a b) && both_trees a b then Some (pre ++ [n], e_id a, e_id b) else None
  | _, _ => None
  end.

Definition rendered (p : Pair) : str * ObjectId * ObjectId := (join (bs "/") p.1.1, p.1.2, p.2).

Section walk.
Context {A : Type} (note : A -> str -> option TreeEntry -> option TreeEntry -> Result A)
  (J : list Event -> A -> Prop)
  (Hnote : forall evs out q x y, J evs out -> noted x y ->
     exists out', note out (join (bs "/") q) x y = Ok out' /\ J (evs ++ [(q, x, y)]) out').

Lemma diff_one pre tl tr n evs out stack :
  wf_tree tl -> wf_tree tr -> Forall plain pre -> J evs out ->
  is_Some (find_entry (entries tl) n) \/ is_Some (find_entry (entries tr) n) ->
  let x := find_entry (entries tl) n in let y := find_entry (entries tr) n in
  exists out', diff_name note (join (bs "/") pre) (as_map tl) (as_map tr) (out, stack) n =
      Ok (out', match kid pre tl tr n with Some k => rendered k :: stack | None => stack end) /\
    ((noted x y /\ J (evs ++ [(pre ++ [n], x, y)]) out') \/ (~ noted x y /\ J evs out')).
Proof.
  intros Hl Hr Hp HJ Hs. cbv zeta. unfold diff_name, kid.
  rewrite !as_map_lookup, child_path_join by done. cbn [fst snd].
  destruct (find_entry (entries tl) n) as [a|] eqn:Ea, (find_entry (entries tr) n) as [b|] eqn:Eb.
  - destruct (same_entry a b) eqn:Es; cbn [negb andb].
    { exists out. split; [done|]. right. cbn. split; [intros [? _]; congruence|done]. }
    destruct (both_trees a b) eqn:Et.
    { exists out. split; [done|]. right. cbn. split; [intros [_ ?]; congruence|done]. }
    destruct (Hnote evs out (pre ++ [n]) (Some a) (Some b)) as (out' & E & HJ'); [done|done|].
    rewrite E, bind_of_ok. exists out'. split; [done|]. by left.
  - destruct (Hnote evs out (pre ++ [n]) (Some a) None) as (out' & E & HJ'); [done|done|].
    rewrite E, bind_of_ok. exists out'. split; [done|]. by left.
  - destruct (Hnote evs out (pre ++ [n]) None (Some b)) as (out' & E & HJ'); [done|done|].
    rewrite E, bind_of_ok. exists out'. split; [done|]. by left.
  - by destruct Hs as [[? ?]|[? ?]].
Qed.

Lemma diff_names pre tl tr names evs out stack :
  wf_tree tl -> wf_tree tr -> Forall plain pre -> J evs out ->
  (forall n, n ∈ names -> is_Some (find_entry (entries tl) n) \/ is_Some (find_entry (entries tr) n)) ->
  exists out' evs', try_fold (diff_name note (join (bs "/") pre) (as_map tl) (as_map tr)) (out, stack) names =
      Ok (out', (rendered <$> reverse (omap (kid pre tl tr) names)) ++ stack) /\
    J (evs ++ evs') out' /\
    forall q x y, (q, x, y) ∈ evs' <-> exists n, n ∈ names /\ q = pre ++ [n] /\
      x = find_entry (entries tl) n /\ y = find_entry (entries tr) n /\ noted x y.
Proof.
  intros Hl Hr Hp. revert evs out stack. induction names as [|n names IH]; intros evs out stack HJ Hs.
  - exists out, []. split; [done|]. rewrite app_nil_r. split; [done|]. intros q x y. split.
    + by intros ?%elem_of_nil.
    + intros (n & Hn & _). by apply elem_of_nil in Hn.
  - destruct (diff_one pre tl tr n evs out stack) as (out1 & E1 & H1); [done..|apply Hs; by left|].
    cbn [try_fold]. rewrite E1, bind_of_ok. clear E1.
    set (st1 := match kid pre tl tr n with Some k => rendered k :: stack | None => stack end).
    assert (exists evs1, J (evs ++ evs1) out1 /\ forall q x y, (q, x, y) ∈ evs1 <-> q = pre ++ [n] /\
      x = find_entry (entries tl) n /\ y = find_entry (entries tr) n /\ noted x y) as (evs1 & HJ1 & Hev1).
    { destruct H1 as [[Hno HJ1]|[Hno HJ1]].
      - eexists; split; [exact HJ1|]. intros q x y. rewrite list_elem_of_singleton. split.
        + intros [= -> -> ->]. done.
        + intros (-> & -> & -> & _). done.
      - exists []. rewrite app_nil_r. split; [done|]. intros q x y. split; [by intros ?%elem_of_nil|].
        intros (-> & -> & -> & ?). done. }
    destruct (IH (evs ++ evs1) out1 st1) as (out' & evs' & E & HJ' & Hev); [done|intros; apply Hs; by right|].
    exists out', (evs1 ++ evs'). rewrite E. split_and!.
    + f_equal. f_equal. unfold st1. simpl. destruct (kid pre tl tr n); [|done].
      rewrite reverse_cons, fmap_app, <- app_assoc. done.
    + by rewrite app_assoc.
    + intros q x y. rewrite elem_of_app, Hev1, Hev. setoid_rewrite elem_of_cons. split.
      * intros [(-> & -> & -> & ?)|(m & ? & ?)]; [exists n; tauto|exists m; tauto].
      * intros (m & [->|?] & ?); [left; tauto|right; by exists m].
Qed.

(** The frontier below a list of pairs. *)
Definition below_pairs s (ps : list Pair) q x y : Prop :=
  exists pre l r q', (pre, l, r) ∈ ps /\ q = pre ++ q' /\ frontier s l r q' x y.

Definition tree_names (tl tr : Tree) : list str := sorted_names (dom (as_map tl) ∪ dom (as_map tr)).

Lemma tree_names_spec tl tr n :
  wf_tree tl -> wf_tree tr ->
  n ∈ tree_names tl tr <-> is_Some (find_entry (entries tl) n) \/ is_Some (find_entry (entries tr) n).
Proof.
  intros Hl Hr. unfold tree_names. destruct (sorted_names_spec (dom (as_map tl) ∪ dom (as_map tr))) as (_ & _ & ->).
  rewrite elem_of_union, !elem_of_dom, !as_map_lookup by done. done.
Qed.

(** The frontier below a pair of directories: here, or below a pushed pair. *)
Lemma frontier_unfold s pre l r tl tr q x y :
  ts_inv s -> l <> r -> ts_holds s l tl -> ts_holds s r tr ->
  below_pairs s [(pre, l, r)] q x y <->
  (exists n, n ∈ tree_names tl tr /\ q = pre ++ [n] /\ x = find_entry (entries tl) n /\
     y = find_entry (entries tr) n /\ noted x y) \/
  below_pairs s (reverse (omap (kid pre tl tr) (tree_names tl tr))) q x y.
Proof.
  intros Hi Hne Hl Hr. pose proof (ts_holds_wf _ _ _ Hi Hl) as Hwl. pose proof (ts_holds_wf _ _ _ Hi Hr) as Hwr.
  split.
  - intros (pre' & l' & r' & q' & [= -> -> ->]%list_elem_of_singleton & -> & Hf).
    destruct q' as [|n q']; [done|]. destruct Hf as (_ & tl' & tr' & Hl' & Hr' & Hf).
    rewrite (ts_holds_fun _ _ _ _ Hi Hl' Hl), (ts_holds_fun _ _ _ _ Hi Hr' Hr) in Hf.
    destruct q' as [|m q'].
    + left. destruct Hf as (-> & -> & Hn). exists n. split; [|done]. apply tree_names_spec; [done..|].
      destruct (find_entry (entries tl) n), (find_entry (entries tr) n); try done; eauto.
    + right. destruct Hf as (a & b & Ha & Hb & Hs & Ht & Hf). exists (pre ++ [n]), (e_id a), (e_id b), (m :: q').
      rewrite <- app_assoc. split; [|done]. rewrite elem_of_reverse. apply list_elem_of_omap. exists n.
      split; [apply tree_names_spec; [done..|left; eauto]|]. unfold kid. by rewrite Ha, Hb, Hs, Ht.
  - intros [(n & _ & -> & -> & -> & Hn)|(pre' & l' & r' & q' & Hk & -> & Hf)].
    + exists pre, l, r, [n]. split; [by left|]. split; [done|]. split; [done|]. by exists tl, tr.
    + rewrite elem_of_reverse in Hk. apply list_elem_of_omap in Hk as (n & _ & Hk). unfold kid in Hk.
      destruct (find_entry (entries tl) n) as [a|] eqn:Ha; [|done].
      destruct (find_entry (entries tr) n) as [b|] eqn:Hb; [|done].
      destruct (same_entry a b) eqn:Hs; [done|]. destruct (both_trees a b) eqn:Ht; [|done].
      injection Hk as <- <- <-. exists pre, l, r, (n :: q'). split; [by left|]. rewrite <- app_assoc.
      split; [done|]. split; [done|]. exists tl, tr. split; [done|]. split; [done|].
      destruct q' as [|m q']; [done|]. by exists a, b.
Qed.

Lemma below_pairs_app s ps ps' q x y :
  below_pairs s (ps ++ ps') q x y <-> below_pairs s ps q x y \/ below_pairs s ps' q x y.
Proof. unfold below_pairs. setoid_rewrite elem_of_app. naive_solver. Qed.

Lemma frontier_unchanged s s' l r q x y : unchanged s s' -> frontier s' l r q x y <-> frontier s l r q x y.
Proof.
  intros [_ Hh]. revert l r. induction q as [|n q IH]; intros l r; simpl; [done|].
  destruct q; setoid_rewrite Hh; [done|]. by setoid_rewrite IH.
Qed.

Lemma below_unchanged s s' ps q x y : unchanged s s' -> below_pairs s' ps q x y <-> below_pairs s ps q x y.
Proof. intros Hu. unfold below_pairs. by setoid_rewrite (frontier_unchanged s s'). Qed.

(** Running the loop with [k] more fuel walks the pairs [ps], whatever is on
    the stack below them. *)
Definition walks s k (ps : list Pair) : Prop :=
  forall s' rest fuel evs out (Q : Result A -> St -> Prop),
    unchanged s s' -> J evs out ->
    (forall out' evs' s'', unchanged s s'' -> J (evs ++ evs') out' ->
       (forall q x y, (q, x, y) ∈ evs' <-> below_pairs s ps q x y) ->
       wp (diff_loop note fuel out' rest) s'' Q) ->
    (forall e s'', unchanged s s'' -> ts_fault e -> Q (Err e) s'') ->
    wp (diff_loop note (k + fuel) out ((rendered <$> ps) ++ rest)) s' Q.

Lemma walks_nil s : walks s 0 [].
Proof.
  intros s' rest fuel evs out Q Hu HJ HQ _. simpl. apply (HQ out [] s'); [done|by rewrite app_nil_r|].
  intros q x y. split; [by intros ?%elem_of_nil|]. intros (? & ? & ? & ? & H & _). by apply elem_of_nil in H.
Qed.

Lemma walks_app s k k' ps ps' : walks s k ps -> walks s k' ps' -> walks s (k + k') (ps ++ ps').
Proof.
  intros H H' s' rest fuel evs out Q Hu HJ HQ HE. rewrite fmap_app, <- app_assoc.
  replace (k + k' + fuel)%nat with (k + (k' + fuel))%nat by lia.
  apply (H s' _ _ evs out); [done|done| |done]. intros out1 evs1 s1 Hu1 HJ1 Hev1.
  apply (H' s1 _ _ (evs ++ evs1) out1); [done|done| |done]. intros out2 evs2 s2 Hu2 HJ2 Hev2.
  apply (HQ out2 (evs1 ++ evs2)); [done|by rewrite app_assoc|].
  intros q x y. by rewrite elem_of_app, Hev1, Hev2, below_pairs_app.
Qed.

Lemma walks_list s (ps : list Pair) :
  (forall p, p ∈ ps -> exists k, walks s k [p]) -> exists k, walks s k ps.
Proof.
  induction ps as [|p ps IH]; intros H; [exists O; apply walks_nil|].
  destruct (H p) as [k Hk]; [by left|]. destruct IH as [k' Hk']; [intros; apply H; by right|].
  exists (k + k')%nat. by apply (walks_app s k k' [p] ps).
Qed.

Lemma walks_pair s n pre l r :
  ts_inv s -> complete (fun _ => True) s n l -> closed s r -> Forall plain pre -> exists k, walks s k [(pre, l, r)].
Proof.
  intros Hi. revert pre l r. induction n as [|n IH]; intros pre l r; [done|].
  intros (tl & Hl & _ & Hcl) Hcr Hp. destruct (decide (l = r)) as [<-|Hne].
  { exists 1%nat. intros s' rest fuel evs out Q Hu HJ HQ _. cbn [fmap list_fmap app Nat.add diff_loop rendered fst snd].
    rewrite bool_decide_true by done. apply (HQ out []); [done|by rewrite app_nil_r|].
    intros q x y. split; [by intros ?%elem_of_nil|].
    intros (? & ? & ? & q' & [= -> -> ->]%list_elem_of_singleton & _ & Hf). destruct q' as [|m q']; [done|].
    by destruct Hf as [? _]. }
  pose proof Hcr as (tr & Hr & Hcr')%closed_inv.
  pose proof (ts_holds_wf _ _ _ Hi Hl) as Hwl. pose proof (ts_holds_wf _ _ _ Hi Hr) as Hwr.
  destruct (walks_list s (reverse (omap (kid pre tl tr) (tree_names tl tr)))) as [k Hk].
  { intros [[pre' l'] r'] Hk. rewrite elem_of_reverse in Hk. apply list_elem_of_omap in Hk as (m & _ & Hk).
    unfold kid in Hk. destruct (find_entry (entries tl) m) as [a|] eqn:Ha; [|done].
    destruct (find_entry (entries tr) m) as [b|] eqn:Hb; [|done].
    destruct (same_entry a b); [done|]. destruct (both_trees a b) eqn:Ht; [|done].
    injection Hk as <- <- <-. apply both_trees_spec in Ht as [Hka Hkb].
    apply find_entry_some in Ha as [Ha Han], Hb as [Hb _]. apply IH; [by apply Hcl|by apply Hcr'|].
    apply Forall_app. split; [done|]. constructor; [|constructor]. subst m. apply valid_name_plain.
    pose proof (wf_names _ Hwl) as Hv. rewrite Forall_forall in Hv. by apply Hv. }
  assert (closed s l) as Hcl0 by (exists (S n); by exists tl).
  exists (S k). intros s' rest fuel evs out Q Hu HJ HQ HE.
  cbn [fmap list_fmap app Nat.add diff_loop rendered fst snd]. rewrite bool_decide_false by done.
  assert (ts_inv s') as Hi' by apply Hu.
  apply wp_bind, get_tree_unchanged; [done|by apply (unchanged_closed s)| |].
  2: { intros e s2 Hu2. apply HE. by eapply unchanged_trans. }
  intros tl' s2 Hu2 Hl' _. apply Hu in Hl'. rewrite (ts_holds_fun _ _ _ _ Hi Hl' Hl). clear tl' Hl'.
  assert (unchanged s s2) as Hs2 by (by eapply unchanged_trans).
  apply wp_bind, get_tree_unchanged; [apply Hs2|by eapply unchanged_closed| |].
  2: { intros e s3 Hu3. apply HE. by eapply unchanged_trans. }
  intros tr' s3 Hu3 Hr' _. apply Hs2 in Hr'. rewrite (ts_holds_fun _ _ _ _ Hi Hr' Hr). clear tr' Hr'.
  assert (unchanged s s3) as Hs3 by (by eapply unchanged_trans).
  destruct (diff_names pre tl tr (tree_names tl tr) evs out rest) as (out1 & evs1 & E1 & HJ1 & Hev1); [done..| |].
  { intros m. by apply tree_names_spec. }
  unfold tree_names in E1. cbv zeta. rewrite E1. apply wp_bind, wp_pure.
  apply (Hk s3 rest fuel (evs ++ evs1) out1); [done|done| |done]. intros out2 evs2 s4 Hs4 HJ2 Hev2.
  apply (HQ out2 (evs1 ++ evs2)); [done|by rewrite app_assoc|]. intros q x y.
  rewrite elem_of_app, Hev1, Hev2, (frontier_unfold s pre l r tl tr) by done. done.
Qed.

Lemma diff_loop_spec s l r out :
  ts_inv s -> closed s l -> closed s r -> J [] out ->
  exists k, forall fuel s1, (k <= fuel)%nat -> unchanged s s1 ->
    wp (diff_loop note fuel out [([], l, r)]) s1 (fun res s' => unchanged s s' /\
      match res with
      | Ok out' => exists evs, J evs out' /\ forall q x y, (q, x, y) ∈ evs <-> frontier s l r q x y
      | Err e => ts_fault e
      | Panic => False
      end).
Proof.
  intros Hi [n Hl] Hr HJ. destruct (walks_pair s n [] l r) as [k Hk]; [done..|constructor|].
  exists (S k). intros fuel s1 Hf Hu1. replace fuel with (k + S (fuel - k - 1))%nat by lia.
  apply (Hk s1 [] _ [] out); [done|done| |by split].
  intros out' evs s'' Hu HJ' Hev. split; [done|]. exists evs. split; [done|]. intros q x y. rewrite Hev. split.
  - intros (pre' & l' & r' & q' & [= -> -> ->]%list_elem_of_singleton & -> & Hfr). done.
  - intros Hfr. exists [], l, r, q. split; [by left|done].
Qed.
End walk.
End frontier.

(** ** The three-way rule *)

Definition agree (P Q : FileId -> Prop) : Prop := forall f, P f <-> Q f.

#[export] Instance agree_equiv : Equivalence agree.
Proof. split; unfold agree; [done|intros ?? H f; by rewrite H|intros ??? H1 H2 f; by rewrite H1, H2]. Qed.

(** Two of base, ours and theirs agree, and the result is the other one. *)
Definition three_way_file (B O T R : FileId -> Prop) : Prop :=
  (agree O T /\ agree R O) \/ (agree O B /\ agree R T) \/ (agree T B /\ agree R O).

#[export] Instance three_way_proper : Proper (agree ==> agree ==> agree ==> agree ==> iff) three_way_file.
Proof. intros B B' HB O O' HO T T' HT R R' HR. unfold three_way_file. by rewrite HB, HO, HT, HR. Qed.

(** The files below an entry. *)
Definition entry_files {St} `{TSL : TreeStoreLaws St} (s : St) (o : option TreeEntry) (p : list str) (f : FileId) : Prop :=
  match o with
  | None => False
  | Some e => match p with
              | [] => e_kind e = KBlob /\ f = (e_id e, e_exec e)
              | _ => e_kind e = KTree /\ file_in s (e_id e) p f
              end
  end.

Section merge_lemmas.
Context {St : Type} `{TSL : TreeStoreLaws St}.
Implicit Types (s : St) (id ours theirs : ObjectId) (base : option ObjectId) (p q pre : list str) (cs : list ConflictPath).

(** The entry at a path of names, if any. *)
Fixpoint entry_at s id q (o : option TreeEntry) : Prop :=
  match q with
  | [] => False
  | [n] => exists t, ts_holds s id t /\ o = find_entry (entries t) n
  | n :: q' => exists t, ts_holds s id t /\
      match find_entry (entries t) n with
      | Some e => if decide (e_kind e = KTree) then entry_at s (e_id e) q' o else o = None
      | None => o = None
      end
  end.

Definition base_entry_at s base q (o : option TreeEntry) : Prop :=
  match base with Some id => entry_at s id q o | None => o = None end.

Definition differ (x y : option TreeEntry) : Prop :=
  match x, y with
  | Some a, Some b => same_entry a b = false
  | None, None => False
  | _, _ => True
  end.

(** A genuine conflict: at this path no two of the three trees agree, and ours
    and theirs are not both directories. *)
Definition conflict_at s base ours theirs q path (c : ConflictPath) : Prop :=
  exists x y g, entry_at s ours q x /\ entry_at s theirs q y /\ base_entry_at s base q g /\
    c = mkConflictPath path (e_id <$> x) (e_id <$> y) (e_id <$> g) /\
    differ x y /\ differ g x /\ differ g y /\
    match x, y with Some a, Some b => both_trees a b = false | _, _ => True end.

(** The path [pre ++ q] is in the scope of one of the conflicts. *)
Definition in_scope pre q cs : Prop := path_in_conflict_scope (join (bs "/") (pre ++ q)) cs = true.

Lemma scope_spec p cs :
  Forall plain p ->
  path_in_conflict_scope (join (bs "/") p) cs = true <->
  exists c, c ∈ cs /\ (join (bs "/") p = cp_path c \/ exists k, join (bs "/") p = cp_path c ++ bs "/" ++ k).
Proof.
  intros Hp. unfold path_in_conflict_scope. rewrite existsb_exists. split.
  - intros (c & Hc & H). exists c. split; [by apply list_elem_of_In|].
    apply orb_true_iff in H as [H|H]; [left; by apply bytes_eqb_true|right].
    apply starts_with_spec in H as [k Hk]. exists k. by rewrite <- app_assoc in Hk.
  - intros (c & Hc & H). exists c. split; [by apply list_elem_of_In|]. apply orb_true_iff.
    destruct H as [H|[k Hk]]; [left; by apply bytes_eqb_true|right]. apply starts_with_spec. exists k.
    by rewrite <- app_assoc.
Qed.

Lemma scope_of p1 p2 c cs :
  Forall plain (p1 ++ p2) -> p1 <> [] -> c ∈ cs -> cp_path c = join (bs "/") p1 ->
  path_in_conflict_scope (join (bs "/") (p1 ++ p2)) cs = true.
Proof.
  intros Hp Hne Hc E. apply scope_spec; [done|]. exists c. split; [done|]. rewrite E.
  destruct (decide (p2 = [])) as [->|Hp2]; [left; by rewrite app_nil_r|right].
  exists (join (bs "/") p2). by rewrite join_app.
Qed.

Lemma scope_app (k : str) cs cs' :
  path_in_conflict_scope k (cs ++ cs') = path_in_conflict_scope k cs || path_in_conflict_scope k cs'.
Proof. apply existsb_app. Qed.

(** What one name contributes: at most one entry [eo] of that name, and
    conflicts [new] at or below it. *)
Record name_result (s0 s : St) base ours theirs pre (n : str) (eo : option TreeEntry) (new : list ConflictPath) : Prop := mk_nr {
  nr_name e : eo = Some e -> e_name e = n;
  nr_closed e : eo = Some e -> e_kind e = KTree -> closed s (e_id e);
  nr_real c : c ∈ new -> exists q, Forall plain q /\
     conflict_at s0 base ours theirs (n :: q) (join (bs "/") (pre ++ n :: q)) c;
  nr_files p : Forall plain (pre ++ n :: p) ->
    in_scope pre (n :: p) new \/
    three_way_file (base_files s0 base (n :: p)) (file_in s0 ours (n :: p)) (file_in s0 theirs (n :: p))
      (entry_files s eo p)
}.

Definition good_merge s ours theirs : Prop :=
  ts_writable s /\ exists n k1 k2, complete (fun t => len (entries t) <= k1) s n ours /\
    complete (fun t => len (entries t) <= k2) s n theirs /\ k1 + k2 <= MAX_TREE_ENTRIES.

Definition merge_post s base ours theirs pre cs (r : Result (ObjectId * list ConflictPath)) s' : Prop :=
  extends s s' /\
  match r with
  | Ok (id, cs') => closed s' id /\ exists new, cs' = cs ++ new /\
      (forall c, c ∈ new -> exists q, q <> [] /\ Forall plain q /\
         conflict_at s base ours theirs q (join (bs "/") (pre ++ q)) c) /\
      forall p, p <> [] -> Forall plain (pre ++ p) -> in_scope pre p new \/
        three_way_file (base_files s base p) (file_in s ours p) (file_in s theirs p) (file_in s' id p)
  | Err e => ts_fault e \/ ~ good_merge s ours theirs
  | Panic => False
  end.

Lemma entry_files_cons s id t n p :
  ts_inv s -> ts_holds s id t -> agree (file_in s id (n :: p)) (entry_files s (find_entry (entries t) n) p).
Proof.
  intros Hi Ht f. rewrite (file_in_cons s id t) by done. unfold entry_files.
  destruct (find_entry (entries t) n) as [e|]; [|by split; [intros (? & ? & _)|]].
  split; [by intros (e' & [= <-] & H)|]. intros H. by exists e.
Qed.

Lemma base_files_entry s base t n p :
  ts_inv s -> base_holds s base t -> agree (base_files s base (n :: p)) (entry_files s (find_entry (entries t) n) p).
Proof.
  intros Hi Ht. destruct base as [id|]; simpl in Ht; [by apply entry_files_cons|].
  subst t. intros f. done.
Qed.

Lemma entry_files_ext s s' o p :
  ts_inv s -> extends s s' -> (forall e, o = Some e -> e_kind e = KTree -> closed s (e_id e)) ->
  agree (entry_files s' o p) (entry_files s o p).
Proof.
  intros Hi He Hc f. unfold entry_files. destruct o as [e|]; [|done]. destruct p as [|m p]; [done|].
  split; (intros [Hk Hf]; split; [done|]).
  - apply (file_in_back s s'); auto.
  - by apply (file_in_mono s).
Qed.

Lemma entry_at_back s s' id q o :
  ts_inv s -> extends s s' -> closed s id -> entry_at s' id q o -> entry_at s id q o.
Proof.
  intros Hi He. revert id. induction q as [|n q IH]; intros id Hc; [done|].
  pose proof Hc as (t & Ht & Hcl)%closed_inv.
  assert (forall t', ts_holds s' id t' -> t' = t) as Hu.
  { intros t' Ht'. apply (ts_holds_fun s' id t' t); [apply He|done|by apply He]. }
  destruct q as [|m q].
  - intros (t' & Ht' & ->). rewrite (Hu t' Ht'). by exists t.
  - intros (t' & Ht' & H). rewrite (Hu t' Ht') in H. exists t. split; [done|].
    destruct (find_entry (entries t) n) as [e|] eqn:Ef; [|done]. case_decide as Hk; [|done].
    apply IH; [|done]. apply Hcl; [|done]. by apply find_entry_some in Ef as [? _].
Qed.

Section one_name.
Context s0 base ours theirs pre fuel a b g
  (Hi0 : ts_inv s0) (Hpre : Forall plain pre) (Hbc : base_closed s0 base)
  (Hco : complete (fun _ => True) s0 (S fuel) ours) (Hct : closed s0 theirs)
  (Ha : ts_holds s0 ours a) (Hb : ts_holds s0 theirs b) (Hg : base_holds s0 base g)
  (IH : forall pre base ours theirs cs s, ts_inv s -> Forall plain pre -> base_closed s base ->
     complete (fun _ => True) s fuel ours -> closed s theirs ->
     wp (merge_trees fuel (join (bs "/") pre) base ours theirs cs) s (merge_post s base ours theirs pre cs)).

Definition wf_a : wf_tree a := ts_holds_wf _ _ _ Hi0 Ha.
Definition wf_b : wf_tree b := ts_holds_wf _ _ _ Hi0 Hb.
Definition wf_g : wf_tree g := base_holds_wf _ _ _ Hi0 Hg.

Abbreviation X n := (find_entry (entries a) n).
Abbreviation Y n := (find_entry (entries b) n).
Abbreviation G n := (find_entry (entries g) n).

Lemma closed_x n x : X n = Some x -> e_kind x = KTree -> closed s0 (e_id x).
Proof.
  intros [Hx _]%find_entry_some Hk. apply (closed_child s0 ours a); [done| |done..].
  by eapply complete_closed.
Qed.
Lemma closed_y n y : Y n = Some y -> e_kind y = KTree -> closed s0 (e_id y).
Proof. intros [Hy _]%find_entry_some Hk. by apply (closed_child s0 theirs b). Qed.

(** The result of a name whose files are those of one of the trees. *)
Lemma name_settled s n eo new :
  extends s0 s ->
  (forall e, eo = Some e -> e_name e = n) ->
  (forall e, eo = Some e -> e_kind e = KTree -> closed s0 (e_id e)) ->
  (forall c, c ∈ new -> exists q, Forall plain q /\
     conflict_at s0 base ours theirs (n :: q) (join (bs "/") (pre ++ n :: q)) c) ->
  (X n = Y n /\ eo = X n) \/ (X n = G n /\ eo = Y n) \/ (Y n = G n /\ eo = X n) \/
    (exists c, c ∈ new /\ cp_path c = join (bs "/") (pre ++ [n])) ->
  name_result s0 s base ours theirs pre n eo new.
Proof.
  intros He Hn Hc Hr Hcases. split; [done| |done|].
  - intros e E Hk. eapply closed_mono; [done|by apply Hc].
  - intros p Hp. rewrite (base_files_entry s0 base g) by done.
    rewrite (entry_files_cons s0 ours a), (entry_files_cons s0 theirs b) by done.
    rewrite (entry_files_ext s0 s eo) by done. unfold three_way_file.
    destruct Hcases as [[-> ->]|[[-> ->]|[[-> ->]|(c & Hc' & E)]]].
    + right. by left.
    + right. right. by left.
    + right. right. by right.
    + left. unfold in_scope. change (pre ++ n :: p) with (pre ++ [n] ++ p) in *. rewrite app_assoc in *.
      apply (scope_of _ _ c); [done|by destruct pre|done|done].
Qed.

Lemma conflict_here n c :
  c = mkConflictPath (join (bs "/") (pre ++ [n])) (e_id <$> X n) (e_id <$> Y n) (e_id <$> G n) ->
  differ (X n) (Y n) -> differ (G n) (X n) -> differ (G n) (Y n) ->
  match X n, Y n with Some x, Some y => both_trees x y = false | _, _ => True end ->
  conflict_at s0 base ours theirs [n] (join (bs "/") (pre ++ [n])) c.
Proof.
  intros -> H1 H2 H3 H4. exists (X n), (Y n), (G n). split_and!; [by exists a|by exists b| |done..].
  destruct base as [bid|]; simpl in *; [by exists g|by rewrite Hg].
Qed.

Lemma subtree_files n x y p s id s' cs new :
  X n = Some x -> Y n = Some y -> e_kind x = KTree -> e_kind y = KTree ->
  extends s0 s -> extends s s' ->
  let sub := g ← G n; if bool_decide (e_kind g = KTree) then Some (e_id g) else None in
  (forall p, p <> [] -> Forall plain ((pre ++ [n]) ++ p) -> in_scope (pre ++ [n]) p new \/
     three_way_file (base_files s sub p) (file_in s (e_id x) p) (file_in s (e_id y) p) (file_in s' id p)) ->
  Forall plain (pre ++ n :: p) ->
  in_scope pre (n :: p) (cs ++ new) \/
  three_way_file (base_files s0 base (n :: p)) (file_in s0 ours (n :: p)) (file_in s0 theirs (n :: p))
    (entry_files s' (Some (mkEntry (e_name x) (e_kind x) id (e_exec x))) p).
Proof.
  intros Hx Hy Hkx Hky He He' sub Hf Hp.
  rewrite (base_files_entry s0 base g), (entry_files_cons s0 ours a), (entry_files_cons s0 theirs b) by done.
  rewrite Hx, Hy. destruct p as [|m p].
  { right. left. split; intros f; simpl; rewrite Hkx, ?Hky; by split; intros [? _]. }
  destruct (Hf (m :: p)) as [Hs|Hs]; [done|by rewrite <- app_assoc| |].
  { left. unfold in_scope in *. rewrite scope_app. rewrite <- app_assoc in Hs. cbn [app] in Hs. rewrite Hs.
    by rewrite orb_true_r. }
  right. assert (agree (entry_files s0 (G n) (m :: p)) (base_files s sub (m :: p))) as ->.
  { intros f. unfold sub. destruct (G n) as [e|] eqn:Eg; [|done]. cbn [mbind option_bind entry_files].
    case_bool_decide as Hk; cbn [base_files]; [|tauto].
    assert (closed s0 (e_id e)) as Hce.
    { apply find_entry_some in Eg as [Hin _]. destruct base as [bid|]; simpl in *.
      - by apply (closed_child s0 bid g).
      - rewrite Hg in Hin. by apply elem_of_nil in Hin. }
    split; [intros [_ Hfi]; by apply (file_in_mono s0)|]. intros Hfi. split; [done|].
    by apply (file_in_back s0 s). }
  assert (forall e, e_kind e = KTree -> closed s0 (e_id e) ->
    agree (entry_files s0 (Some e) (m :: p)) (file_in s (e_id e) (m :: p))) as Hag.
  { intros e Hk Hc f. simpl. split; [intros [_ ?]; by apply (file_in_mono s0)|]. intros ?. split; [done|].
    by apply (file_in_back s0 s). }
  rewrite (Hag x Hkx (closed_x n x Hx Hkx)), (Hag y Hky (closed_y n y Hy Hky)).
  assert (agree (entry_files s' (Some (mkEntry (e_name x) (e_kind x) id (e_exec x))) (m :: p)) (file_in s' id (m :: p))) as ->.
  { intros f. simpl. rewrite Hkx. tauto. }
  done.
Qed.

Lemma subtree_conflict n x y q s c :
  X n = Some x -> Y n = Some y -> e_kind x = KTree -> e_kind y = KTree -> extends s0 s ->
  let sub := g ← G n; if bool_decide (e_kind g = KTree) then Some (e_id g) else None in
  q <> [] -> conflict_at s sub (e_id x) (e_id y) q (join (bs "/") ((pre ++ [n]) ++ q)) c ->
  conflict_at s0 base ours theirs (n :: q) (join (bs "/") (pre ++ n :: q)) c.
Proof.
  intros Hx Hy Hkx Hky He sub Hq (o1 & o2 & o3 & H1 & H2 & H3 & -> & H4).
  exists o1, o2, o3. rewrite <- app_assoc. split_and!; [| | |done|apply H4..].
  - destruct q as [|m q]; [done|]. exists a. split; [done|]. rewrite Hx, decide_True by done.
    apply (entry_at_back s0 s); [done|done|exact (closed_x n x Hx Hkx)|done].
  - destruct q as [|m q]; [done|]. exists b. split; [done|]. rewrite Hy, decide_True by done.
    apply (entry_at_back s0 s); [done|done|exact (closed_y n y Hy Hky)|done].
  - destruct base as [bid|]; simpl in Hg, Hbc.
    + destruct q as [|m q]; [done|]. exists g. split; [done|]. unfold sub in H3.
      destruct (G n) as [e|] eqn:Eg; [|done]. cbn [mbind option_bind] in H3.
      case_bool_decide as Hk; [rewrite decide_True by done|by rewrite decide_False].
      apply (entry_at_back s0 s); [done|done| |done].
      apply find_entry_some in Eg as [Hin _]. by apply (closed_child s0 bid g).
    + unfold sub in H3. rewrite Hg in H3. done.
Qed.

Lemma found_name (t : Tree) n e : find_entry (entries t) n = Some e -> e_name e = n.
Proof. by intros [_ ?]%find_entry_some. Qed.

Lemma is_same_spec t n m e :
  find_entry (entries t) n = Some e -> is_same (find_entry (entries m) n) e = true <-> find_entry (entries m) n = Some e.
Proof.
  intros He. unfold is_same. destruct (find_entry (entries m) n) as [e'|] eqn:E; [|done].
  rewrite same_entry_spec; [|by rewrite (found_name _ _ _ He), (found_name _ _ _ E)].
  split; [by intros ->|by intros [= ->]].
Qed.

Lemma not_same_differ n (t m : Tree) e :
  find_entry (entries t) n = Some e -> is_same (find_entry (entries m) n) e = false ->
  differ (find_entry (entries m) n) (Some e).
Proof. intros He. unfold is_same, differ. by destruct (find_entry (entries m) n). Qed.

Definition name_post s cs (out : list TreeEntry) n (r : Result (list TreeEntry * list ConflictPath)) s' : Prop :=
  extends s s' /\
  match r with
  | Ok (out', cs') => exists eo new, out' = out ++ option_list eo /\ cs' = cs ++ new /\
      (eo <> None -> is_Some (X n) \/ is_Some (Y n)) /\ name_result s0 s' base ours theirs pre n eo new
  | Err e => ts_fault e \/ ~ good_merge s0 ours theirs
  | Panic => False
  end.

(** A name whose outcome needs no subdirectory. *)
Lemma name_done s cs out n eo :
  extends s0 s -> (X n = Y n /\ eo = X n) \/ (X n = G n /\ eo = Y n) \/ (Y n = G n /\ eo = X n) ->
  name_post s cs out n (Ok (out ++ option_list eo, cs)) s.
Proof.
  intros He Hc. split; [by apply extends_refl, He|]. exists eo, []. rewrite app_nil_r. split; [done|]. split; [done|].
  assert (eo = X n \/ eo = Y n) as Hxy by tauto. split.
  { intros Hne. destruct Hxy as [E|E]; rewrite E in *; [left|right]; by apply not_eq_None_Some. }
  apply name_settled; [done| | |by intros c ?%elem_of_nil|tauto].
  - intros e ->. destruct Hxy as [E|E]; symmetry in E; by apply found_name in E.
  - intros e -> Hk. destruct Hxy as [E|E]; symmetry in E; [by eapply closed_x|by eapply closed_y].
Qed.

(** A name in conflict. *)
Lemma name_conflict s cs out n eo :
  extends s0 s -> (eo = None \/ eo = X n) ->
  differ (X n) (Y n) -> differ (G n) (X n) -> differ (G n) (Y n) ->
  match X n, Y n with Some x, Some y => both_trees x y = false | _, _ => True end ->
  name_post s cs out n (Ok (out ++ option_list eo,
    cs ++ [mkConflictPath (join (bs "/") (pre ++ [n])) (e_id <$> X n) (e_id <$> Y n) (e_id <$> G n)])) s.
Proof.
  intros He Heo H1 H2 H3 H4. split; [by apply extends_refl, He|]. exists eo. eexists. split; [done|]. split; [done|]. split.
  { intros Hne. destruct Heo as [E|E]; rewrite E in *; [done|]. left. by apply not_eq_None_Some. }
  apply name_settled; [done| | | |].
  - intros e ->. destruct Heo as [?|E]; [done|]. symmetry in E. by apply found_name in E.
  - intros e -> Hk. destruct Heo as [?|E]; [done|]. symmetry in E. by eapply closed_x.
  - intros c ->%list_elem_of_singleton. exists []. split; [constructor|]. by apply conflict_here.
  - right. right. right. eexists. split; [by left|]. done.
Qed.

Lemma good_child n x y s :
  extends s0 s -> good_merge s0 ours theirs -> X n = Some x -> Y n = Some y ->
  e_kind x = KTree -> e_kind y = KTree -> good_merge s (e_id x) (e_id y).
Proof.
  intros He (Hw & m & k1 & k2 & H1 & H2 & Hle) Hx Hy Hkx Hky.
  apply find_entry_some in Hx as [Hx _], Hy as [Hy _].
  split; [by apply He|]. destruct m as [|m]; [done|]. exists m, k1, k2. split_and!; [| |done].
  - destruct H1 as (t & Ht & _ & Hc). rewrite (ts_holds_fun _ _ _ _ Hi0 Ht Ha) in Hc.
    apply (complete_mono _ s0); [apply He|]. by apply Hc.
  - destruct H2 as (t & Ht & _ & Hc). rewrite (ts_holds_fun _ _ _ _ Hi0 Ht Hb) in Hc.
    apply (complete_mono _ s0); [apply He|]. by apply Hc.
Qed.

Lemma merge_name_spec s cs out n :
  extends s0 s -> plain n ->
  wp (merge_name (merge_trees fuel) (join (bs "/") pre) (as_map a) (as_map b) (as_map g) (out, cs) n) s
    (name_post s cs out n).
Proof.
  intros He Hn. unfold merge_name. rewrite !as_map_lookup by (apply wf_a || apply wf_b || apply wf_g).
  rewrite child_path_join by done.
  pose proof (name_done s cs out n) as Hdone. pose proof (name_conflict s cs out n) as Hconf.
  destruct (X n) as [x|] eqn:Ex, (Y n) as [y|] eqn:Ey.
  - pose proof (found_name _ _ _ Ex) as Hnx. pose proof (found_name _ _ _ Ey) as Hny.
    destruct (same_entry x y) eqn:Exy.
    { apply same_entry_spec in Exy as <-; [|congruence]. apply wp_ret, (Hdone (Some x)); tauto. }
    destruct (is_same (G n) x) eqn:Egx.
    { apply (is_same_spec a) in Egx; [|done]. apply wp_ret, (Hdone (Some y)); rewrite ?Egx; tauto. }
    destruct (is_same (G n) y) eqn:Egy.
    { apply (is_same_spec b) in Egy; [|done]. apply wp_ret, (Hdone (Some x)); rewrite ?Egy; tauto. }
    destruct (both_trees x y) eqn:Et.
    2: { apply wp_ret, (Hconf (Some x)); [done|by right|done| | |done].
         - by apply (not_same_differ n a).
         - by apply (not_same_differ n b). }
    apply both_trees_spec in Et as [Hkx Hky]. cbv zeta.
    set (sub := g ← G n; if bool_decide (e_kind g = KTree) then Some (e_id g) else None).
    assert (ts_inv s) as His by apply He.
    apply wp_bind. eapply wp_mono.
    { apply (IH (pre ++ [n]) sub (e_id x) (e_id y) cs s); [done| | | |].
      - apply Forall_app. split; [done|]. by constructor.
      - unfold sub. destruct (G n) as [e|] eqn:Eg; [|done]. cbn [mbind option_bind].
        case_bool_decide as Hk; [|done]. cbn [base_closed]. apply (closed_mono s0); [done|].
        apply find_entry_some in Eg as [Hin _]. destruct base as [bid|]; simpl in *.
        + by apply (closed_child s0 bid g).
        + rewrite Hg in Hin. by apply elem_of_nil in Hin.
      - destruct Hco as (t & Ht & _ & Hc). rewrite (ts_holds_fun _ _ _ _ Hi0 Ht Ha) in Hc.
        apply (complete_mono _ s0); [apply He|]. apply Hc; [by apply find_entry_some in Ex as [? _]|done].
      - apply (closed_mono s0); [done|by eapply closed_y]. }
    intros [[id cs']|e|] s' [He' Hr]; [|split; [done|]|done].
    2: { destruct Hr as [?|Hr]; [by left|right]. intros Hgood. by eapply Hr, good_child. }
    destruct Hr as (Hcl & new & -> & Hreal & Hf). apply wp_ret. split; [done|].
    exists (Some (mkEntry (e_name x) (e_kind x) id (e_exec x))), new.
    split; [done|]. split; [done|]. split; [intros _; left; by rewrite Ex|]. split.
    + by intros e [= <-].
    + by intros e [= <-].
    + intros c (q & Hq & Hpq & Hc)%Hreal. exists q. split; [done|].
      by eapply (subtree_conflict n x y q s).
    + intros p Hp. apply (subtree_files n x y p s id s' [] new); done.
  - destruct (is_same (G n) x) eqn:Egx.
    { apply (is_same_spec a) in Egx; [|done]. rewrite <- (app_nil_r out) at 1. apply wp_ret, (Hdone None); rewrite ?Egx; tauto. }
    pose proof (not_same_differ n a g x Ex Egx) as Hd. destruct (G n) as [z|] eqn:Eg.
    + rewrite <- (app_nil_r out) at 1. apply wp_ret, (Hconf None); try done; by left.
    + apply wp_ret, (Hdone (Some x)); tauto.
  - destruct (is_same (G n) y) eqn:Egy.
    { apply (is_same_spec b) in Egy; [|done]. rewrite <- (app_nil_r out) at 1. apply wp_ret, (Hdone None); rewrite ?Egy; tauto. }
    pose proof (not_same_differ n b g y Ey Egy) as Hd. destruct (G n) as [z|] eqn:Eg.
    + rewrite <- (app_nil_r out) at 1. apply wp_ret, (Hconf None); try done; by left.
    + apply wp_ret, (Hdone (Some y)); tauto.
  - rewrite <- (app_nil_r out) at 1. apply wp_ret, (Hdone None); tauto.
Qed.

Definition names_of : list str :=
  sorted_names (list_to_set (e_name <$> entries a ++ entries b ++ entries g)).

Lemma names_of_spec n :
  n ∈ names_of <-> is_Some (X n) \/ is_Some (Y n) \/ is_Some (G n).
Proof.
  assert (forall t, n ∈ e_name <$> entries t <-> is_Some (find_entry (entries t) n)) as H.
  { intros t. rewrite <- not_eq_None_Some, find_entry_none. destruct (decide (n ∈ e_name <$> entries t)); tauto. }
  unfold names_of. destruct (sorted_names_spec (list_to_set (e_name <$> entries a ++ entries b ++ entries g))) as (_ & _ & ->).
  rewrite elem_of_list_to_set, !fmap_app, !elem_of_app, !H. done.
Qed.

Lemma names_valid n : n ∈ names_of -> valid_name n.
Proof.
  assert (forall t, wf_tree t -> is_Some (find_entry (entries t) n) -> valid_name n) as H.
  { intros t [Hv _] [e He]. apply find_entry_some in He as [He <-]. rewrite Forall_forall in Hv. by apply Hv. }
  intros [Hs|[Hs|Hs]]%names_of_spec; [apply (H a)|apply (H b)|apply (H g)]; done || apply wf_a || apply wf_b || apply wf_g.
Qed.

(** The loop over the names: what is done is settled. *)
Definition fold_inv cs (done : list str) (acc : list TreeEntry * list ConflictPath) s : Prop :=
  let '(out, cs') := acc in
  extends s0 s /\ sorted_entries out /\
  (forall e, e ∈ out -> e_name e ∈ done /\ (is_Some (X (e_name e)) \/ is_Some (Y (e_name e)))) /\
  exists new, cs' = cs ++ new /\
    (forall c, c ∈ new -> exists q, q <> [] /\ Forall plain q /\
       conflict_at s0 base ours theirs q (join (bs "/") (pre ++ q)) c) /\
    forall n, n ∈ done -> exists new', new' ⊆ new /\
      name_result s0 s base ours theirs pre n (find_entry out n) new'.

Lemma name_result_ext s s' n eo new :
  ts_inv s -> extends s s' -> name_result s0 s base ours theirs pre n eo new ->
  name_result s0 s' base ours theirs pre n eo new.
Proof.
  intros Hi He [H1 H2 H3 H4]. split; [done| |done|].
  - intros e E Hk. eapply closed_mono; [done|by apply H2].
  - intros p Hp. destruct (H4 p Hp) as [?|H]; [by left|right]. by rewrite (entry_files_ext s s').
Qed.

Lemma find_snoc out eo n m :
  (forall e, e ∈ out -> e_name e <> n) -> (forall e, eo = Some e -> e_name e = n) ->
  find_entry (out ++ option_list eo) m = if decide (m = n) then eo else find_entry out m.
Proof.
  intros Ho He. induction out as [|e0 out IHo].
  - destruct eo as [e|]; [change ([] ++ option_list (Some e)) with [e]|by case_decide]. rewrite find_entry_cons, (He e) by done.
    repeat case_decide; congruence.
  - cbn [app]. rewrite !find_entry_cons, IHo by (intros; apply Ho; by right).
    pose proof (Ho e0 ltac:(by left)). repeat case_decide; congruence.
Qed.

Lemma fold_names s cs :
  extends s0 s ->
  wp (m_fold (merge_name (merge_trees fuel) (join (bs "/") pre) (as_map a) (as_map b) (as_map g)) ([], cs) names_of) s
    (fun r s' => match r with
      | Ok acc => fold_inv cs names_of acc s'
      | Err e => extends s0 s' /\ (ts_fault e \/ ~ good_merge s0 ours theirs)
      | Panic => False
      end).
Proof.
  intros He. destruct (sorted_names_spec (list_to_set (e_name <$> entries a ++ entries b ++ entries g))) as (Hsort & Hnd & _).
  fold names_of in Hsort, Hnd. apply (wp_m_fold _ (fold_inv cs)); [| |done].
  { split; [done|]. split; [constructor|]. split; [by intros e ?%elem_of_nil|].
    exists []. rewrite app_nil_r. split; [done|]. split; [by intros c ?%elem_of_nil|by intros n ?%elem_of_nil]. }
  intros l1 n l2 [out cs1] s1 El (He1 & Hso & Hout & new & -> & Hreal & Hdone).
  assert (n ∈ names_of) as Hin by (rewrite El; apply elem_of_app; right; by left).
  assert (plain n) as Hpn by (by apply valid_name_plain, names_valid).
  assert (forall m, m ∈ l1 -> bytes_lt m n = true) as Hlt.
  { rewrite El in Hsort. change (l1 ++ n :: l2) with (l1 ++ [n] ++ l2) in Hsort. rewrite app_assoc in Hsort.
    apply StronglySorted_app_1_l in Hsort. apply strictly_sorted_snoc in Hsort as [_ Hsort].
    rewrite Forall_forall in Hsort. intros m Hm. by apply Hsort. }
  assert (forall e, e ∈ out -> e_name e <> n) as Hnew.
  { intros e [Hm _]%Hout E. rewrite E in Hm. apply Hlt in Hm. by rewrite bytes_lt_irrefl in Hm. }
  eapply wp_mono; [by apply merge_name_spec|]. intros [[out' cs']|e|] s2 [He2 Hr]; [| |done].
  2: { split; [|done]. by apply (extends_trans s0 s1). }
  destruct Hr as (eo & newn & -> & -> & Hfrom & Hres).
  assert (forall e, eo = Some e -> e_name e = n) as Hname by apply (nr_name _ _ _ _ _ _ _ _ _ Hres).
  split; [by eapply extends_trans|]. split; [|split].
  - destruct eo as [e|]; cbn [option_list]; [|by rewrite app_nil_r].
    apply strictly_sorted_snoc. split; [done|]. apply Forall_forall. intros e' [He' _]%Hout.
    unfold key_lt. rewrite (Hname e eq_refl). by apply Hlt.
  - intros e [Hin'|Hin']%elem_of_app.
    + destruct (Hout e Hin'). split; [apply elem_of_app; by left|done].
    + destruct eo as [e'|]; [|by apply elem_of_nil in Hin']. apply list_elem_of_singleton in Hin' as ->.
      rewrite (Hname e' eq_refl). split; [apply elem_of_app; right; by left|]. by apply Hfrom.
  - exists (new ++ newn). split; [by rewrite app_assoc|]. split.
    + intros c [Hc|Hc]%elem_of_app; [by apply Hreal|].
      apply (nr_real _ _ _ _ _ _ _ _ _ Hres) in Hc as (q & Hq & Hc). exists (n :: q).
      split; [done|]. split; [by constructor|done].
    + intros m [Hm| ->%list_elem_of_singleton]%elem_of_app; rewrite (find_snoc out eo n) by done.
      * rewrite decide_False by (intros ->; apply Hlt in Hm; by rewrite bytes_lt_irrefl in Hm).
        destruct (Hdone m Hm) as (new' & Hsub & Hres'). exists new'. split; [set_solver|].
        eapply name_result_ext; [|done|done]. apply He1.
      * rewrite decide_True by done. exists newn. split; [set_solver|done].
Qed.

Lemma scope_sub (k : str) cs cs' :
  cs ⊆ cs' -> path_in_conflict_scope k cs = true -> path_in_conflict_scope k cs' = true.
Proof.
  intros Hs. unfold path_in_conflict_scope. rewrite !existsb_exists. intros (c & Hc & H). exists c.
  split; [|done]. apply list_elem_of_In, Hs. by apply list_elem_of_In.
Qed.

(** The directory that is written. *)
Lemma finish_dir s cs out cs' :
  fold_inv cs names_of (out, cs') s ->
  wp (tree ← pure (Tree_new out); id ← put_tree tree; mret (id, cs')) s (merge_post s0 base ours theirs pre cs).
Proof.
  intros (He & Hso & Hout & new & -> & Hreal & Hdone).
  assert (wf_tree (mkTree out)) as Hwt.
  { split; [|done]. apply Forall_forall. intros e [Hin _]%Hout. by apply names_valid. }
  rewrite (proj2 (Tree_new_spec out (mkTree out))) by done. apply wp_bind, wp_pure.
  assert (ts_inv s) as Hi by apply He.
  apply wp_bind. eapply wp_mono; [by apply put_tree_spec|]. intros r s' (Hi' & Hw & Hh & Hr).
  assert (extends s s') as He' by (by split). assert (extends s0 s') as He0 by (by eapply extends_trans).
  destruct r as [id|e|]; [|split; [done|]|done].
  2: { destruct Hr as [?|Hr]; [by left|right]. intros (Hwr & m & k1 & k2 & H1 & H2 & Hle).
    specialize (Hr ltac:(by apply He)). destruct m as [|m]; [done|].
    destruct H1 as (t & Ht & H1 & _). rewrite (ts_holds_fun _ _ _ _ Hi0 Ht Ha) in H1.
    destruct H2 as (t' & Ht' & H2 & _). rewrite (ts_holds_fun _ _ _ _ Hi0 Ht' Hb) in H2.
    cbn [entries] in Hr. assert (len out <= len (entries a) + len (entries b)); [|lia].
    unfold len. rewrite <- (length_fmap e_name out), <- (length_fmap e_name (entries a)), <- (length_fmap e_name (entries b)).
    rewrite <- Nat2Z.inj_add, <- length_app. apply Nat2Z.inj_le, submseteq_length, NoDup_submseteq.
    - by apply strictly_sorted_nodup.
    - intros n (e1 & -> & [_ Hin]%Hout)%list_elem_of_fmap. apply elem_of_app.
      destruct Hin as [[x Hx]|[y Hy]]; [left|right].
      + apply find_entry_some in Hx as [Hx <-]. by apply list_elem_of_fmap_2.
      + apply find_entry_some in Hy as [Hy <-]. by apply list_elem_of_fmap_2. }
  apply wp_ret. split; [done|]. split; [|exists new; split; [done|split; [done|]]].
  - apply (closed_intro s' id (mkTree out)); [done|]. cbn [entries]. intros e Hin Hk.
    destruct (Hdone (e_name e)) as (new' & _ & Hres); [by apply Hout|].
    apply (closed_mono s); [done|]. apply (nr_closed _ _ _ _ _ _ _ _ _ Hres); [|done].
    by apply find_entry_sorted.
  - intros p Hp0 Hp. destruct p as [|n p]; [done|].
    rewrite (entry_files_cons s' id (mkTree out)) by done. cbn [entries].
    destruct (decide (n ∈ names_of)) as [Hin|Hnin].
    + destruct (Hdone n Hin) as (new' & Hsub & Hres).
      apply (name_result_ext s s') in Hres; [|done|done].
      destruct (nr_files _ _ _ _ _ _ _ _ _ Hres p Hp) as [Hs|Hs]; [left|by right].
      by apply (scope_sub _ new' new).
    + right. left. rewrite names_of_spec in Hnin.
      rewrite (entry_files_cons s0 ours a), (entry_files_cons s0 theirs b) by done.
      assert (forall o : option TreeEntry, ~ is_Some o -> o = None) as Hno by (by intros [?|] Hs; [destruct Hs|]).
      rewrite (Hno (X n)), (Hno (Y n)) by tauto. split; [done|].
      assert (find_entry out n = None) as ->; [|done].
      apply find_entry_none. intros (e & -> & [Hin _]%Hout)%list_elem_of_fmap.
      by apply Hnin, names_of_spec.
Qed.
End one_name.

Lemma merge_trees_spec fuel pre base ours theirs cs s :
  ts_inv s -> Forall plain pre -> base_closed s base -> complete (fun _ => True) s fuel ours -> closed s theirs ->
  wp (merge_trees fuel (join (bs "/") pre) base ours theirs cs) s (merge_post s base ours theirs pre cs).
Proof.
  revert pre base ours theirs cs s. induction fuel as [|fuel IH]; intros pre base ours theirs cs s Hi Hpre Hbc Hco Hct; [done|].
  assert (forall id, closed s id -> (forall p, p <> [] ->
      three_way_file (base_files s base p) (file_in s ours p) (file_in s theirs p) (file_in s id p)) ->
      merge_post s base ours theirs pre cs (Ok (id, cs)) s) as Hshort.
  { intros id Hc Hf. split; [by apply extends_refl|]. split; [done|]. exists []. rewrite app_nil_r.
    split; [done|]. split; [by intros c ?%elem_of_nil|]. intros p Hp _. right. by apply Hf. }
  assert (closed s ours) as Hcl by (by eapply complete_closed).
  cbn [merge_trees]. case_bool_decide as E1.
  { subst theirs. apply wp_ret, Hshort; [done|]. intros p _. by left. }
  case_bool_decide as E2.
  { subst base. apply wp_ret, Hshort; [done|]. intros p _. right. by left. }
  case_bool_decide as E3.
  { subst base. apply wp_ret, Hshort; [done|]. intros p _. right. by right. }
  apply wp_bind, get_tree_closed; [done..| |].
  2: { intros e s' He Hf. split; [done|by left]. }
  intros a s1 He1 Ha _. apply wp_bind, get_tree_closed; [apply He1|by eapply closed_mono| |].
  2: { intros e s' He Hf. split; [by eapply extends_trans|by left]. }
  intros b s2 He2 Hb Hb1. assert (extends s s2) as He02 by (by eapply extends_trans).
  apply wp_bind. apply read_base; [apply He2|by eapply base_closed_mono| |].
  2: { intros e s' He Hf. split; [by eapply extends_trans|by left]. }
  intros g s3 He3 Hg. assert (extends s s3) as He03 by (by eapply extends_trans).
  assert (ts_holds s theirs b) as Hb0.
  { destruct (closed_inv _ _ Hct) as (t & Ht & _). pose proof (ext_holds _ _ He1 _ _ Ht) as Ht1.
    rewrite (ts_holds_fun s1 theirs b t); [done|apply He1|done|done]. }
  assert (base_holds s base g) as Hg0.
  { destruct base as [bid|]; simpl in *; [|done]. destruct (closed_inv _ _ Hbc) as (t & Ht & _).
    pose proof (ext_holds _ _ He02 _ _ Ht) as Ht2. rewrite (ts_holds_fun s2 bid g t); [done|apply He2|done|done]. }
  apply wp_bind. eapply wp_mono.
  { apply (fold_names s base ours theirs pre fuel a b g Hi Hpre Hbc Hco Hct Ha Hb0 Hg0 IH s3 cs He03). }
  intros [[out cs']|e|] s4 Hr; [|by destruct Hr|done].
  by eapply finish_dir.
Qed.
End merge_lemmas.

(** ** What the walks find *)

Section walk_lemmas.
Context {St : Type} `{TSL : TreeStoreLaws St}.
Implicit Types (s : St) (id l r : ObjectId) (p q : list str) (x y : option TreeEntry).

Lemma noted_differ x y : noted x y -> differ x y.
Proof. destruct x, y; simpl; tauto. Qed.

Lemma entry_name_plain s id t n e :
  ts_inv s -> ts_holds s id t -> find_entry (entries t) n = Some e -> plain n.
Proof.
  intros Hi Ht [He <-]%find_entry_some. apply valid_name_plain.
  pose proof (wf_names _ (ts_holds_wf _ _ _ Hi Ht)) as H. rewrite Forall_forall in H. by apply H.
Qed.

Lemma frontier_entry s l r q x y :
  ts_inv s -> frontier s l r q x y ->
  q <> [] /\ Forall plain q /\ noted x y /\ entry_at s l q x /\ entry_at s r q y.
Proof.
  intros Hi. revert l r. induction q as [|n q IH]; intros l r; [done|].
  intros (_ & tl & tr & Hl & Hr & Hf). split; [done|]. destruct q as [|m q].
  - destruct Hf as (-> & -> & Hn). split_and!; [|done|by exists tl|by exists tr].
    constructor; [|constructor]. destruct (find_entry (entries tl) n) eqn:El.
    + by eapply (entry_name_plain s l tl).
    + destruct (find_entry (entries tr) n) eqn:Er; [|done]. by eapply (entry_name_plain s r tr).
  - destruct Hf as (a & b & Ha & Hb & _ & [Hka Hkb]%both_trees_spec & Hf).
    apply IH in Hf as (_ & Hp & Hn & H1 & H2). split_and!; [|done| |].
    + constructor; [by eapply (entry_name_plain s l tl)|done].
    + exists tl. by rewrite Ha, decide_True.
    + exists tr. by rewrite Hb, decide_True.
Qed.

(** Outside the frontier the files agree. *)
Lemma frontier_covers s l r p :
  ts_inv s -> closed s l -> closed s r ->
  (exists q q2 x y, p = q ++ q2 /\ frontier s l r q x y) \/ agree (file_in s l p) (file_in s r p).
Proof.
  intros Hi. revert l r. induction p as [|n p IH]; intros l r Hcl Hcr.
  { right. intros f. split; by intros [? _]%file_in_names. }
  destruct (decide (l = r)) as [->|Hne]; [by right|].
  destruct (closed_inv _ _ Hcl) as (tl & Hl & Hcl'). destruct (closed_inv _ _ Hcr) as (tr & Hr & Hcr').
  rewrite (entry_files_cons s l tl), (entry_files_cons s r tr) by done.
  assert (noted (find_entry (entries tl) n) (find_entry (entries tr) n) ->
    exists q q2 x y, n :: p = q ++ q2 /\ frontier s l r q x y) as Hno.
  { intros Hn. exists [n], p, (find_entry (entries tl) n), (find_entry (entries tr) n).
    split; [done|]. split; [done|]. by exists tl, tr. }
  destruct (find_entry (entries tl) n) as [a|] eqn:Ea, (find_entry (entries tr) n) as [b|] eqn:Eb;
    [|by left; apply Hno|by left; apply Hno|by right].
  destruct (same_entry a b) eqn:Es.
  { apply same_entry_spec in Es as ->; [by right|]. by rewrite (found_name _ _ _ Ea), (found_name _ _ _ Eb). }
  destruct (both_trees a b) eqn:Et; [|left; by apply Hno].
  pose proof Et as [Hka Hkb]%both_trees_spec. destruct p as [|m p].
  { right. intros f. simpl. rewrite Hka, Hkb. split; by intros [? _]. }
  apply find_entry_some in Ea as Ha, Eb as Hb. destruct Ha as [Ha _], Hb as [Hb _].
  destruct (IH (e_id a) (e_id b)) as [(q & q2 & x & y & E & Hf)|Hag]; [by apply Hcl'|by apply Hcr'| |].
  - left. exists (n :: q), q2, x, y. split; [by rewrite E|]. split; [done|]. exists tl, tr. split; [done|]. split; [done|].
    destruct q as [|z q]; [done|]. by exists a, b.
  - right. intros f. simpl. specialize (Hag f). tauto.
Qed.

Lemma changed_paths_spec s l r :
  ts_inv s -> closed s l -> closed s r ->
  exists k, forall fuel, (k <= fuel)%nat ->
    wp (changed_paths fuel l r) s (fun res s' => unchanged s s' /\
      match res with
      | Ok out => forall k, k ∈ out <-> exists q x y, k = join (bs "/") q /\ frontier s l r q x y
      | Err e => ts_fault e
      | Panic => False
      end).
Proof.
  intros Hi Hl Hr.
  destruct (diff_loop_spec (fun (out : gset str) path _ _ => Ok ({[ path ]} ∪ out))
    (fun evs (out : gset str) => forall k, k ∈ out <-> exists q x y, k = join (bs "/") q /\ (q, x, y) ∈ evs))
    with (s := s) (l := l) (r := r) (out := ∅ : gset str) as [k Hk]; [|done..| |].
  - intros evs out q x y HJ _. eexists. split; [done|]. intros k.
    rewrite elem_of_union, elem_of_singleton, HJ. setoid_rewrite elem_of_app. split.
    + intros [->|(q' & x' & y' & E & H)]; [|exists q', x', y'; tauto].
      exists q, x, y. split; [done|]. right. by left.
    + intros (q' & x' & y' & -> & [H| [= -> -> ->]%list_elem_of_singleton]); [right; by exists q', x', y'|by left].
  - intros k. split; [by intros ?%elem_of_empty|]. intros (? & ? & ? & _ & H). by apply elem_of_nil in H.
  - exists k. intros fuel Hf. eapply wp_mono; [by apply Hk; [|apply unchanged_refl]|]. intros res s' [Hu Hres]. split; [done|].
    destruct res as [out|e|]; [|done|done]. destruct Hres as (evs & HJ & Hev). intros k'. rewrite HJ.
    setoid_rewrite Hev. done.
Qed.

(** ** Renames *)

Record changes_of s base side (ch : TreeChanges) : Prop := mk_changes_of {
  co_deleted k e : deleted ch !! k = Some e -> exists q, k = join (bs "/") q /\ frontier s base side q (Some e) None;
  co_added k e : added ch !! k = Some e -> exists q, k = join (bs "/") q /\ frontier s base side q None (Some e)
}.

Lemma tree_changes_spec s base side :
  ts_inv s -> closed s base -> closed s side ->
  exists k, forall fuel s1, (k <= fuel)%nat -> unchanged s s1 ->
    wp (tree_changes fuel base side) s1 (fun res s' => unchanged s s' /\
      match res with Ok ch => changes_of s base side ch | Err e => ts_fault e | Panic => False end).
Proof.
  intros Hi Hl Hr.
  set (J := fun (evs : list (list str * option TreeEntry * option TreeEntry)) ch =>
    (forall k e, deleted ch !! k = Some e -> exists q, k = join (bs "/") q /\ (q, Some e, None) ∈ evs) /\
    (forall k e, added ch !! k = Some e -> exists q, k = join (bs "/") q /\ (q, None, Some e) ∈ evs)).
  assert (forall evs ev ch, J evs ch -> J (evs ++ [ev]) ch) as Hw.
  { intros evs ev ch [H1 H2]. split.
    - intros k e (q & ? & ?)%H1. exists q. split; [done|]. apply elem_of_app. by left.
    - intros k e (q & ? & ?)%H2. exists q. split; [done|]. apply elem_of_app. by left. }
  destruct (diff_loop_spec note_change J) with (s := s) (l := base) (r := side) (out := mkChanges ∅ ∅)
    as [k Hk]; [|done..| |].
  - intros evs ch q x y HJ Hn. destruct x as [a|], y as [b|]; [| | |done].
    + eexists. split; [done|]. by apply Hw.
    + eexists. split; [done|]. apply (Hw _ (q, Some a, None)) in HJ as [H1 H2]. split; [|done]. cbn [deleted].
      intros k e [[<- <-]|[_ H]]%lookup_insert_Some; [|by apply H1]. exists q. split; [done|].
      apply elem_of_app. right. by left.
    + eexists. split; [done|]. apply (Hw _ (q, None, Some b)) in HJ as [H1 H2]. split; [done|]. cbn [added].
      intros k e [[<- <-]|[_ H]]%lookup_insert_Some; [|by apply H2]. exists q. split; [done|].
      apply elem_of_app. right. by left.
  - split; intros k e H; simpl in H; by rewrite lookup_empty in H.
  - exists k. intros fuel s1 Hf Hu1. eapply wp_mono; [by apply Hk|]. intros res s' [Hu Hres]. split; [done|].
    destruct res as [ch|e|]; [|done|done]. destruct Hres as (evs & [H1 H2] & Hev). split.
    + intros k' e (q & E & H%Hev)%H1. by exists q.
    + intros k' e (q & E & H%Hev)%H2. by exists q.
Qed.

(** The count of the base's entries ends. *)
Definition count_pushes (es : list TreeEntry) : list ObjectId :=
  reverse (e_id <$> filter (fun e => e_kind e = KTree) es).

Lemma count_fold wanted es counts stack :
  exists counts', fold_left (count_entry wanted) es (counts, stack) = (counts', count_pushes es ++ stack).
Proof.
  revert counts stack. induction es as [|e es IH]; intros counts stack; [by exists counts|].
  cbn [fold_left count_entry]. unfold count_pushes. rewrite filter_cons. destruct (decide (e_kind e = KTree)) as [Hk|Hk].
  - rewrite (bool_decide_true (e_kind e = KTree)) by done. match goal with |- exists _, fold_left _ _ (?c, ?st) = _ => destruct (IH c st) as [c' E] end.
    exists c'. rewrite E. unfold count_pushes. by rewrite fmap_cons, reverse_cons, <- app_assoc.
  - rewrite (bool_decide_false (e_kind e = KTree)) by done. match goal with |- exists _, fold_left _ _ (?c, ?st) = _ => destruct (IH c st) as [c' E] end.
    by exists c'.
Qed.

Definition counts_down s k (ids : list ObjectId) : Prop :=
  forall wanted s' rest fuel counts (Q : Result (gmap EntryIdentity Z) -> St -> Prop),
    unchanged s s' ->
    (forall counts' s'', unchanged s s'' -> wp (count_loop fuel wanted counts' rest) s'' Q) ->
    (forall e s'', unchanged s s'' -> ts_fault e -> Q (Err e) s'') ->
    wp (count_loop (k + fuel) wanted counts (ids ++ rest)) s' Q.

Lemma counts_list s (ids : list ObjectId) :
  (forall id, id ∈ ids -> exists k, counts_down s k [id]) -> exists k, counts_down s k ids.
Proof.
  induction ids as [|id ids IH]; intros H.
  { exists O. intros wanted s' rest fuel counts Q Hu HQ _. by apply HQ. }
  destruct (H id) as [k Hk]; [by left|]. destruct IH as [k' Hk']; [intros; apply H; by right|].
  exists (k + k')%nat. intros wanted s' rest fuel counts Q Hu HQ HE.
  replace (k + k' + fuel)%nat with (k + (k' + fuel))%nat by lia.
  apply (Hk wanted s' (ids ++ rest)); [done| |done]. intros counts1 s1 Hu1. by apply Hk'.
Qed.

Lemma counts_tree s n id : ts_inv s -> complete (fun _ => True) s n id -> exists k, counts_down s k [id].
Proof.
  intros Hi. revert id. induction n as [|n IH]; intros id; [done|].
  intros (t & Ht & _ & Hc). assert (closed s id) as Hcl by (exists (S n); by exists t).
  destruct (counts_list s (count_pushes (entries t))) as [k Hk].
  { intros i Hin. unfold count_pushes in Hin. rewrite elem_of_reverse in Hin.
    apply list_elem_of_fmap in Hin as (e & -> & [Hk He]%list_elem_of_filter). by apply IH, Hc. }
  exists (S k). intros wanted s' rest fuel counts Q Hu HQ HE.
  cbn [app Nat.add count_loop]. apply wp_bind, get_tree_unchanged; [apply Hu|by apply (unchanged_closed s)| |].
  2: { intros e s2 Hu2. apply HE. by eapply unchanged_trans. }
  intros t' s2 Hu2 Ht' _. apply Hu in Ht'. rewrite (ts_holds_fun _ _ _ _ Hi Ht' Ht).
  destruct (count_fold wanted (entries t) counts rest) as [counts' ->].
  apply (Hk wanted s2); [by eapply unchanged_trans|done|done].
Qed.

Lemma count_spec s base :
  ts_inv s -> closed s base ->
  exists k, forall fuel wanted s1, (k <= fuel)%nat -> unchanged s s1 ->
    wp (count_base_identities fuel base wanted) s1 (fun res s' => unchanged s s' /\
      match res with Ok _ => True | Err e => ts_fault e | Panic => False end).
Proof.
  intros Hi [n Hn]. destruct (counts_tree s n base Hi Hn) as [k Hk]. exists (S k).
  intros fuel wanted s1 Hf Hu. unfold count_base_identities. case_bool_decide; [by apply wp_ret|].
  replace fuel with (k + S (fuel - k - 1))%nat by lia.
  apply (Hk wanted s1 []); [done| |by split]. intros counts' s'' Hu'. by split.
Qed.

Lemma renames_spec ch counts src d :
  infer_exact_renames ch counts !! src = Some d ->
  exists e e', deleted ch !! src = Some e /\ added ch !! d = Some e' /\ entry_identity e' = entry_identity e.
Proof.
  unfold infer_exact_renames.
  set (dest := fold_left _ (btree_list (added ch)) _).
  assert (forall i (ps : list str), dest !! i = Some ps -> forall d, d ∈ ps ->
    exists e', added ch !! d = Some e' /\ entry_identity e' = i) as Hdest.
  { unfold dest. apply (fold_left_inv _ (fun m : gmap EntryIdentity (list str) => forall i ps, m !! i = Some ps ->
      forall d, d ∈ ps -> exists e', added ch !! d = Some e' /\ entry_identity e' = i)).
    - intros i ps H. by rewrite lookup_empty in H.
    - intros m [path e] Hin Hm i ps [[<- <-]|[_ H]]%lookup_insert_Some d' Hd'; [|by apply (Hm i ps)].
      apply elem_of_app in Hd' as [Hd'| ->%list_elem_of_singleton].
      + destruct (m !! entry_identity e) as [ps0|] eqn:E; [|by apply elem_of_nil in Hd']. by apply (Hm _ ps0).
      + exists e. split; [by apply elem_of_btree_list|done]. }
  revert src d. apply (fold_left_inv _ (fun m : gmap str str => forall src d, m !! src = Some d ->
    exists e e', deleted ch !! src = Some e /\ added ch !! d = Some e' /\ entry_identity e' = entry_identity e)).
  - intros src d H. by rewrite lookup_empty in H.
  - intros m [source e] Hin Hm. destruct (negb _); [done|].
    destruct (dest !! entry_identity e) as [[|d0 [|]]|] eqn:E; try done.
    intros src d [[<- <-]|[_ H]]%lookup_insert_Some; [|by apply Hm].
    destruct (Hdest _ _ E d0) as (e' & He' & Hi'); [by left|]. exists e, e'. split; [by apply elem_of_btree_list|done].
Qed.

(** A rename conflict: an entry of the base that is gone on both sides, and
    that one side has, exactly, at a path where the base has nothing. *)
Definition moved_to s base side (e : TreeEntry) : Prop :=
  exists q e', entry_at s base q None /\ entry_at s side q (Some e') /\ entry_identity e' = entry_identity e.

Definition rename_conflict_at s base ours theirs (c : ConflictPath) : Prop :=
  exists q e, q <> [] /\ Forall plain q /\ c = mkConflictPath (join (bs "/") q) None None (Some (e_id e)) /\
    entry_at s base q (Some e) /\ entry_at s ours q None /\ entry_at s theirs q None /\
    (moved_to s base ours e \/ moved_to s base theirs e).

Lemma entry_at_fun s id q x y : ts_inv s -> entry_at s id q x -> entry_at s id q y -> x = y.
Proof.
  intros Hi. revert id. induction q as [|n q IH]; intros id; [done|]. destruct q as [|m q].
  - intros (t & Ht & ->) (t' & Ht' & ->). by rewrite (ts_holds_fun _ _ _ _ Hi Ht Ht').
  - intros (t & Ht & H) (t' & Ht' & H'). rewrite (ts_holds_fun _ _ _ _ Hi Ht' Ht) in H'.
    destruct (find_entry (entries t) n) as [e|]; [|congruence]. case_decide; [by apply (IH (e_id e))|congruence].
Qed.

Lemma renamed_moved s base side ch counts q e d :
  ts_inv s -> changes_of s base side ch -> infer_exact_renames ch counts !! join (bs "/") q = Some d ->
  Forall plain q -> entry_at s base q (Some e) -> moved_to s base side e.
Proof.
  intros Hi [Hd Ha] (e1 & e2 & He1 & He2 & Hid)%renames_spec Hq He.
  apply Hd in He1 as (q1 & Eq & (_ & Hp1 & _ & H1 & _)%frontier_entry); [|done].
  apply join_inj in Eq as <-; [|done..]. pose proof (entry_at_fun _ _ _ _ _ Hi He H1) as [= ->].
  apply Ha in He2 as (q2 & _ & (_ & _ & _ & H2 & H3)%frontier_entry); [|done].
  by exists q2, e2.
Qed.

Lemma exact_rename_spec s base ours theirs :
  ts_inv s -> closed s base -> closed s ours -> closed s theirs ->
  exists k, forall fuel, (k <= fuel)%nat ->
    wp (exact_rename_conflicts fuel base ours theirs) s (fun res s' => unchanged s s' /\
      match res with
      | Ok cs => forall c, c ∈ cs -> rename_conflict_at s base ours theirs c
      | Err e => ts_fault e
      | Panic => False
      end).
Proof.
  intros Hi Hb Ho Ht.
  destruct (tree_changes_spec s base ours) as [k1 H1]; [done..|].
  destruct (tree_changes_spec s base theirs) as [k2 H2]; [done..|].
  destruct (count_spec s base) as [k3 H3]; [done..|].
  exists (k1 + k2 + k3)%nat. intros fuel Hf. unfold exact_rename_conflicts.
  apply wp_bind. eapply wp_mono; [apply H1; [lia|by apply unchanged_refl]|].
  intros [oc|e|] s1 [Hu1 Hr1]; [|done..].
  apply wp_bind. eapply wp_mono; [apply H2; [lia|done]|]. intros [tc|e|] s2 [Hu2 Hr2]; [|done..].
  apply wp_bind. eapply wp_mono; [apply H3; [lia|done]|]. intros [counts|e|] s3 [Hu3 Hr3]; [|done..].
  apply wp_ret. split; [done|].
  apply (fold_left_inv _ (fun cs : list ConflictPath => forall c, c ∈ cs -> rename_conflict_at s base ours theirs c)).
  { by intros c ?%elem_of_nil. }
  intros cs [src e] Hin%elem_of_btree_list Hcs. unfold rename_conflict.
  destruct (deleted tc !! src) as [e'|] eqn:Etc; [|done].
  destruct (bool_decide (infer_exact_renames oc counts !! src = None)) eqn:E1;
    destruct (bool_decide (infer_exact_renames tc counts !! src = None)) eqn:E2; cbn [andb negb]; try done.
  all: try (match goal with |- context [if ?b then _ else _] => destruct b; [done|] end).
  all: intros c [Hc| ->%list_elem_of_singleton]%elem_of_app; [by apply Hcs|].
  all: apply (co_deleted _ _ _ _ Hr1) in Hin as (q & -> & Hfo);
    apply (co_deleted _ _ _ _ Hr2) in Etc as (q' & Eq & Hft);
    apply frontier_entry in Hfo as (Hq & Hp & _ & Hb1 & Ho1); [|done];
    apply frontier_entry in Hft as (_ & Hp' & _ & _ & Ht1); [|done];
    apply join_inj in Eq as <-; [|done..].
  all: exists q, e; split_and!; try done.
  - right. apply bool_decide_eq_false, not_eq_None_Some in E2 as [d Hd]. by eapply renamed_moved.
  - left. apply bool_decide_eq_false, not_eq_None_Some in E1 as [d Hd]. by eapply renamed_moved.
  - left. apply bool_decide_eq_false, not_eq_None_Some in E1 as [d Hd]. by eapply renamed_moved.
Qed.

(** The path of a real conflict is a path of names. *)
Lemma entry_names s id q e : ts_inv s -> entry_at s id q (Some e) -> Forall valid_name q.
Proof.
  intros Hi. revert id. induction q as [|n q IH]; intros id; [done|]. destruct q as [|m q].
  - intros (t & Ht & He). constructor; [|constructor]. apply ts_holds_wf in Ht as [Hw _]; [|done]. symmetry in He.
    apply find_entry_some in He as [He <-]. rewrite Forall_forall in Hw. by apply Hw.
  - intros (t & Ht & H). apply ts_holds_wf in Ht as [Hw _]; [|done].
    destruct (find_entry (entries t) n) as [x|] eqn:Ex; [|done]. case_decide; [|done].
    apply find_entry_some in Ex as [Ex <-]. rewrite Forall_forall in Hw. constructor; [by apply Hw|by apply (IH (e_id x))].
Qed.

(** ** The whole merge *)

Definition real_conflict s base ours theirs (c : ConflictPath) : Prop :=
  (exists q, q <> [] /\ Forall plain q /\ conflict_at s base ours theirs q (join (bs "/") q) c) \/
  exists b, base = Some b /\ rename_conflict_at s b ours theirs c.

Lemma real_conflict_utf8 s base ours theirs c : ts_inv s -> real_conflict s base ours theirs c -> utf8_valid (cp_path c) = true.
Proof.
  intros Hi [(q & _ & _ & x & y & g & Hx & Hy & _ & -> & Hd & _)|(b & _ & q & e & _ & _ & -> & He & _)]; cbn [cp_path];
    apply names_utf8; [|by eapply entry_names].
  destruct x as [x|]; [by eapply entry_names|]. destruct y as [y|]; [by eapply entry_names|done].
Qed.

Definition auto_post s base ours theirs (r : Result (ObjectId * list ConflictPath)) s' : Prop :=
  extends s s' /\
  match r with
  | Ok (id, paths) => closed s' id /\ StronglySorted (key_le cp_path) paths /\
      (forall c, c ∈ paths -> real_conflict s base ours theirs c) /\
      forall p, p <> [] -> Forall plain p -> path_in_conflict_scope (join (bs "/") p) paths = true \/
        three_way_file (base_files s base p) (file_in s ours p) (file_in s theirs p) (file_in s' id p)
  | Err e => ts_fault e \/ ~ good_merge s ours theirs
  | Panic => False
  end.

Lemma entry_at_unchanged s s' id q o : unchanged s s' -> entry_at s' id q o <-> entry_at s id q o.
Proof.
  intros [_ Hh]. revert id. induction q as [|n q IH]; intros id; [done|]. destruct q as [|m q].
  - simpl. by setoid_rewrite Hh.
  - assert (forall t, match find_entry (entries t) n with
      | Some e => if decide (e_kind e = KTree) then entry_at s' (e_id e) (m :: q) o else o = None
      | None => o = None end <-> match find_entry (entries t) n with
      | Some e => if decide (e_kind e = KTree) then entry_at s (e_id e) (m :: q) o else o = None
      | None => o = None end) as H.
    { intros t. destruct (find_entry _ n); [|done]. case_decide; [apply IH|done]. }
    split; intros (t & Ht & Hx); exists t; (split; [by apply Hh|by apply H]).
Qed.

Lemma conflict_at_unchanged s s' base ours theirs q path c :
  unchanged s s' -> conflict_at s' base ours theirs q path c <-> conflict_at s base ours theirs q path c.
Proof.
  intros Hu. assert (forall o, base_entry_at s' base q o <-> base_entry_at s base q o) as Hb.
  { intros o. destruct base; [|done]. by apply entry_at_unchanged. }
  unfold conflict_at. split; intros (x & y & g & H1 & H2 & H3 & H); exists x, y, g;
    (split; [by apply (entry_at_unchanged s s')|split; [by apply (entry_at_unchanged s s')|split; [by apply Hb|done]]]).
Qed.

Lemma scope_perm (k : str) (cs cs' : list ConflictPath) :
  cs ≡ₚ cs' -> path_in_conflict_scope k cs = path_in_conflict_scope k cs'.
Proof.
  intros H. apply eq_bool_prop_intro. rewrite !Is_true_true. unfold path_in_conflict_scope.
  rewrite !existsb_exists. setoid_rewrite <- list_elem_of_In. by setoid_rewrite H.
Qed.

Lemma auto_merge_spec s base ours theirs :
  ts_inv s -> base_closed s base -> closed s ours -> closed s theirs ->
  exists k, forall fuel, (k <= fuel)%nat ->
    wp (auto_merge_tree fuel base ours theirs) s (auto_post s base ours theirs).
Proof.
  intros Hi Hb Ho Ht. pose proof Ho as [n Hn].
  assert (exists k, forall fuel, (k <= fuel)%nat ->
    wp (match base with
        | Some base => if bool_decide (ours <> theirs) && bool_decide (ours <> base) && bool_decide (theirs <> base)
            then exact_rename_conflicts fuel base ours theirs else mret []
        | None => mret [] end) s (fun res s' => unchanged s s' /\
      match res with Ok cs => forall c, c ∈ cs -> real_conflict s base ours theirs c
                 | Err e => ts_fault e | Panic => False end)) as [k Hk].
  { destruct base as [b|].
    2: { exists O. intros fuel _. apply wp_ret. split; [by apply unchanged_refl|]. by intros c ?%elem_of_nil. }
    destruct (exact_rename_spec s b ours theirs) as [k Hk]; [done..|]. exists k. intros fuel Hf.
    destruct (_ && _).
    - eapply wp_mono; [by apply Hk|]. intros [cs|e|] s' [Hu Hr]; [|done..]. split; [done|].
      intros c Hc. right. exists b. split; [done|by apply Hr].
    - apply wp_ret. split; [by apply unchanged_refl|]. by intros c ?%elem_of_nil. }
  exists (n + k)%nat. intros fuel Hf. unfold auto_merge_tree. apply wp_bind. eapply wp_mono; [apply Hk; lia|].
  intros [cs|e|] s1 [Hu Hcs]; [|split; [apply Hu|by left]|done].
  apply wp_bind. eapply wp_mono.
  { apply (merge_trees_spec fuel [] base ours theirs cs s1); [apply Hu|constructor| | |by apply (unchanged_closed s)].
    - destruct Hu. by apply (base_closed_mono s).
    - eapply complete_le; [|instantiate (1 := n); lia]. apply (complete_mono _ s); [apply Hu|done]. }
  intros [[id cs']|e|] s2 [He Hr]; [| |done].
  2: { split; [eapply extends_trans; [apply Hu|done]|]. destruct Hr as [?|Hr]; [by left|right].
       intros (Hw & m & k1 & k2 & H1 & H2 & Hle). apply Hr. split; [by apply Hu|]. exists m, k1, k2.
       split_and!; [..|done]; (apply (complete_mono _ s); [apply Hu|done]). }
  destruct Hr as (Hcl & new & -> & Hreal & Hf'). apply wp_ret. split; [eapply extends_trans; [apply Hu|done]|].
  split; [done|]. split; [apply sort_by_key_sorted|]. split.
  - intros c. rewrite sort_by_key_perm. intros [Hc|Hc]%elem_of_app; [by apply Hcs|].
    left. destruct (Hreal c Hc) as (q & Hq & Hp & H). exists q. split; [done|]. split; [done|].
    by apply (conflict_at_unchanged s s1).
  - intros p Hp Hpl. rewrite (scope_perm _ _ _ (sort_by_key_perm _ _)), scope_app.
    destruct (Hf' p Hp Hpl) as [Hs|Hs].
    + left. unfold in_scope in Hs. cbn [app] in Hs. rewrite Hs. apply orb_true_r.
    + right. assert (agree (base_files s1 base p) (base_files s base p)) as <-.
      { intros f. apply base_files_mono; [done|apply Hu|done]. }
      assert (forall i, closed s i -> agree (file_in s1 i p) (file_in s i p)) as Hag.
      { intros i Hci f. split; [apply file_in_back; [done|apply Hu|done]|apply file_in_mono, Hu]. }
      by rewrite <- (Hag ours), <- (Hag theirs).
Qed.
End walk_lemmas.

(** ** Properties *)

Section properties.
Context {St : Type} `{TSL : TreeStoreLaws St}.

(** C26: a merge is clean or a conflict, file by file.  With enough fuel for the
    stored trees, [three_way] never panics.  When it answers with a tree, that
    tree is completely stored and at every path two of base, ours and theirs
    agree and the tree holds the file of the third.  When it answers with a
    conflict, the conflict carries the inputs and a non-empty list of paths,
    sorted, and each of them is real: no two of the three trees agree there
    and the sides are not both directories, or it records an exact rename.  It
    fails only when the storage does, or on a store that cannot publish or
    directories that could outgrow the limit together. *)
Theorem three_way_merges_files (base : option ObjectId) (ours theirs : ObjectId) (s : St)
    (Hi : ts_inv s) (Hb : base_closed s base) (Ho : closed s ours) (Ht : closed s theirs) :
  exists k, forall fuel, (k <= fuel)%nat ->
    wp (three_way fuel base ours theirs) s (fun r s' => extends s s' /\
      match r with
      | Ok (MTree id) => closed s' id /\ forall p, p <> [] -> Forall plain p ->
          three_way_file (base_files s base p) (file_in s ours p) (file_in s theirs p) (file_in s' id p)
      | Ok (MConflict c) => cf_bases c = option_list base /\ cf_ours c = ours /\ cf_theirs c = theirs /\
          cf_paths c <> [] /\ StronglySorted (key_le cp_path) (cf_paths c) /\
          forall x, x ∈ cf_paths c -> real_conflict s base ours theirs x
      | Err e => ts_fault e \/ ~ good_merge s ours theirs
      | Panic => False
      end).
Proof.
  destruct (auto_merge_spec s base ours theirs Hi Hb Ho Ht) as [k Hk]. exists k. intros fuel Hf.
  unfold three_way. apply wp_bind. eapply wp_mono; [by apply Hk|].
  intros [[id paths]|e|] s' [He Hr]; [|done..]. destruct Hr as (Hc & Hs & Hreal & Hfiles).
  destruct paths as [|c paths].
  - apply wp_ret. split; [done|]. split; [done|]. intros p Hp Hpl. by destruct (Hfiles p Hp Hpl).
  - apply wp_ret. split; [done|]. by split_and!.
Qed.

(** The automatic part of a merge stays out of the conflicts.  The tree
    that [auto_merge_tree] leaves behind a conflict obeys the three-way rule at
    every path that no reported conflict covers. *)
Theorem auto_merge_outside_conflicts (base : option ObjectId) (ours theirs : ObjectId) (s : St)
    (Hi : ts_inv s) (Hb : base_closed s base) (Ho : closed s ours) (Ht : closed s theirs) :
  exists k, forall fuel, (k <= fuel)%nat ->
    wp (auto_merge_tree fuel base ours theirs) s (fun r s' =>
      match r with
      | Ok (id, paths) => forall p, p <> [] -> Forall plain p ->
          path_in_conflict_scope (join (bs "/") p) paths = false ->
          three_way_file (base_files s base p) (file_in s ours p) (file_in s theirs p) (file_in s' id p)
      | Err e => ts_fault e \/ ~ good_merge s ours theirs
      | Panic => False
      end).
Proof.
  destruct (auto_merge_spec s base ours theirs Hi Hb Ho Ht) as [k Hk]. exists k. intros fuel Hf.
  eapply wp_mono; [by apply Hk|]. intros [[id paths]|e|] s' [He Hr]; [|done..].
  destruct Hr as (_ & _ & _ & Hfiles). intros p Hp Hpl Hs. destruct (Hfiles p Hp Hpl); [congruence|done].
Qed.

(** No change is missed by [changed_paths]: misses no change.  With enough fuel it never panics and
    changes nothing; each path it reports has different entries on the two
    sides, and at every path that it does not report, nor a directory above
    it, the two trees hold the same file. *)
Theorem changed_paths_cover (left right : ObjectId) (s : St)
    (Hi : ts_inv s) (Hl : closed s left) (Hr : closed s right) :
  exists k, forall fuel, (k <= fuel)%nat ->
    wp (changed_paths fuel left right) s (fun r s' => unchanged s s' /\
      match r with
      | Ok out =>
          (forall path, path ∈ out -> exists q x y, path = join (bs "/") q /\ Forall plain q /\
             entry_at s left q x /\ entry_at s right q y /\ differ x y) /\
          (forall p, (exists q q2, p = q ++ q2 /\ join (bs "/") q ∈ out) \/
             agree (file_in s left p) (file_in s right p))
      | Err e => ts_fault e
      | Panic => False
      end).
Proof.
  destruct (changed_paths_spec s left right Hi Hl Hr) as [k Hk]. exists k. intros fuel Hf.
  eapply wp_mono; [by apply Hk|]. intros [out|e|] s' [Hu H]; [|done..]. split; [done|]. split.
  - intros path (q & x & y & -> & Hfr)%H. exists q, x, y. apply frontier_entry in Hfr as (_ & Hp & Hn & H1 & H2); [|done].
    split_and!; try done. by apply noted_differ.
  - intros p. destruct (frontier_covers s left right p Hi Hl Hr) as [(q & q2 & x & y & -> & Hfr)|Ha]; [left|by right].
    exists q, q2. split; [done|]. apply H. by exists q, x, y.
Qed.
End properties.

(** ** Witnesses *)

Definition merge_tree_of (n : str) (id : ObjectId) (rest : list TreeEntry) : Tree :=
  mkTree (mkEntry n KBlob id false :: rest).

(** The demo store with two edits of its tree: ours changes [a], theirs
    deletes it. *)
Definition ours_tree : Tree := mkTree [mkEntry (bs "a") KBlob (hash_bytes [x00]) false; mkEntry (bs "b") KBlob ZERO true].
Definition theirs_tree : Tree := mkTree [mkEntry (bs "b") KBlob ZERO true].

Definition put_demo (t : Tree) (s : Guarded MapLru) : ObjectId * Guarded MapLru :=
  let '(r, s') := put_tree t s in (match r with Ok id => id | _ => ZERO end, s').

Definition ours_put := put_demo ours_tree demo_store.
Definition theirs_put := put_demo theirs_tree ours_put.2.
Definition merge_store := theirs_put.2.

Lemma merge_store_spec :
  ts_inv merge_store /\ closed merge_store demo_root /\ closed merge_store ours_put.1 /\ closed merge_store theirs_put.1.
Proof.
  destruct demo_spec as (Hi & _ & Hc).
  assert (forall t s, ts_inv s -> wf_tree t -> (forall e, e ∈ entries t -> e_kind e = KBlob) ->
    is_ok (put_tree t s).1 = true ->
    ts_inv (put_demo t s).2 /\ closed (put_demo t s).2 (put_demo t s).1 /\ extends s (put_demo t s).2) as Hput.
  { intros t s Hs Hw Hk Hok. unfold put_demo. destruct (put_tree t s) as [r s'] eqn:E.
    destruct r as [id|e|]; [|done..]. apply put_leaf in E as (? & _ & ? & ?); done. }
  destruct (Hput ours_tree demo_store Hi) as (H1 & H2 & H3).
  { apply (proj1 (from_canonical_spec (entries ours_tree) ours_tree)). vm_compute. reflexivity. }
  { intros e He. repeat (apply elem_of_cons in He as [->|He]; [done|]). by apply elem_of_nil in He. }
  { vm_compute. reflexivity. }
  destruct (Hput theirs_tree ours_put.2 H1) as (H4 & H5 & H6).
  { apply (proj1 (from_canonical_spec (entries theirs_tree) theirs_tree)). vm_compute. reflexivity. }
  { intros e He. repeat (apply elem_of_cons in He as [->|He]; [done|]). by apply elem_of_nil in He. }
  { vm_compute. reflexivity. }
  split; [exact H4|]. split; [|split; [|exact H5]].
  - exact (closed_mono _ _ _ H6 (closed_mono _ _ _ H3 Hc)).
  - exact (closed_mono _ _ _ H6 H2).
Qed.

(** The entry that one side changed and the other deleted is in conflict, and
    the partial tree holds neither version of it. *)
Lemma modify_delete_keeps_neither :
  match (auto_merge_tree 3 (Some demo_root) ours_put.1 theirs_put.1 merge_store).1 with
  | Ok (id, paths) => cp_path <$> paths = [bs "a"] /\ id = theirs_put.1
  | _ => False
  end.
Proof. vm_compute. done. Qed.

Lemma three_way_merges_files_witness :
  exists k, forall fuel, (k <= fuel)%nat ->
    wp (three_way fuel (Some demo_root) ours_put.1 theirs_put.1) merge_store (fun r _ => r <> Panic).
Proof.
  destruct merge_store_spec as (Hi & Hb & Ho & Ht).
  destruct (three_way_merges_files (Some demo_root) ours_put.1 theirs_put.1 merge_store Hi Hb Ho Ht) as [k Hk].
  exists k. intros fuel Hf. specialize (Hk fuel Hf). unfold wp in *. destruct Hk as [_ Hk].
  intros E. rewrite E in Hk. exact Hk.
Defined.

Lemma auto_merge_outside_conflicts_witness :
  exists k, forall fuel, (k <= fuel)%nat ->
    wp (auto_merge_tree fuel (Some demo_root) ours_put.1 theirs_put.1) merge_store (fun r s' => forall id paths,
      r = Ok (id, paths) -> path_in_conflict_scope (bs "b") paths = false ->
      three_way_file (file_in merge_store demo_root [bs "b"]) (file_in merge_store ours_put.1 [bs "b"])
        (file_in merge_store theirs_put.1 [bs "b"]) (file_in s' id [bs "b"])).
Proof.
  destruct merge_store_spec as (Hi & Hb & Ho & Ht).
  destruct (auto_merge_outside_conflicts (Some demo_root) ours_put.1 theirs_put.1 merge_store Hi Hb Ho Ht) as [k Hk].
  exists k. intros fuel Hf. specialize (Hk fuel Hf). unfold wp in *. intros id paths E Hs. rewrite E in Hk.
  apply (Hk [bs "b"]); [discriminate| |exact Hs].
  constructor; [split; [discriminate|by apply (bool_decide_eq_false_1 ("/"%byte ∈ _))]|constructor].
Defined.

Lemma changed_paths_cover_witness :
  exists k, forall fuel, (k <= fuel)%nat ->
    wp (changed_paths fuel demo_root theirs_put.1) merge_store (fun r _ => forall out, r = Ok out ->
      (exists q q2, [bs "b"] = q ++ q2 /\ join (bs "/") q ∈ out) \/
      agree (file_in merge_store demo_root [bs "b"]) (file_in merge_store theirs_put.1 [bs "b"])).
Proof.
  destruct merge_store_spec as (Hi & Hb & _ & Ht).
  destruct (changed_paths_cover demo_root theirs_put.1 merge_store Hi Hb Ht) as [k Hk].
  exists k. intros fuel Hf. specialize (Hk fuel Hf). unfold wp in *. intros out E. rewrite E in Hk.
  destruct Hk as [_ [_ Hk]]. apply Hk.
Defined.
