(* ===== verification/Graph.v ===== *)
(** * The typed object graph (crates/forge-store/src/graph.rs)

    The outgoing edges of an object, the bounded queue of distinct
    constraints, and the verified walk over everything a root reaches.  The
    reference is reachability along decoded edges: the walk succeeds exactly
    on graphs that are stored, decodable, well typed and within the ceiling,
    and then returns exactly what is reachable. *)

From S2P Require Import Prelude RustStd Types Cbor Tree Object Contribution ObjectStore Store.

Definition DEFAULT_MAX_GRAPH_OBJECTS : Z := 1000000.

(** The value of the environment variable [FORGEFS_MAX_GRAPH_OBJECTS]. *)
Definition max_graph_objects (env : option str) : Z :=
  default DEFAULT_MAX_GRAPH_OBJECTS
    (raw ← env; n ← parse_u64 (trim raw); if 0 <? n then Some n else None).

Definition walk_limit_exceeded (limit : Z) : Error :=
  Invalid (bs "object graph walk reached this build's ceiling of {limit} objects").

Inductive GraphExpectation := EAny | EExact (t : ObjectType) | ETreeEntry.

#[export] Instance GraphExpectation_eq_dec : EqDecision GraphExpectation.
Proof. solve_decision. Defined.

Definition accepts (e : GraphExpectation) (actual : ObjectType) : bool :=
  match e with
  | EAny => true
  | EExact expected => bool_decide (actual = expected)
  | ETreeEntry => match actual with TBlob | TTree => true | _ => false end
  end.

Definition description (e : GraphExpectation) : str :=
  match e with
  | EAny => bs "any object"
  | EExact expected => as_str expected
  | ETreeEntry => bs "blob or tree"
  end.

Definition verify_edge (e : GraphExpectation) (actual : ObjectType) : Result unit :=
  if accepts e actual then Ok tt
  else Err (Corrupt (bs "typed edge {resource} expected {}, found {} at {id}")).

Record GraphEdge := mkEdge {
  ge_id : ObjectId;
  ge_expected : GraphExpectation;
  ge_resource : str
}.

Record DecodedGraphObject := mkDecoded {
  dg_type : ObjectType;
  dg_edges : list GraphEdge
}.

Record VerifiedGraphObject := mkVerified {
  vg_id : ObjectId;
  vg_type : ObjectType
}.

Definition exact (id : ObjectId) (expected : ObjectType) (resource : str) : GraphEdge :=
  mkEdge id (EExact expected) resource.

Definition any (id : ObjectId) (resource : str) : GraphEdge := mkEdge id EAny resource.

Definition expectation_key (e : GraphExpectation) : Z :=
  match e with
  | EAny => 0
  | EExact t => ObjectType_to_u8 t
  | ETreeEntry => u8_max
  end.

(** ** The queue *)

Record GraphWorkQueue := mkQueue {
  gq_queue : list GraphEdge;
  gq_scheduled : gset (ObjectId * Z);
  gq_scheduled_ids : gset ObjectId;
  gq_limit : Z
}.

Definition with_limit (limit : Z) : GraphWorkQueue := mkQueue [] ∅ ∅ limit.

Definition schedule (q : GraphWorkQueue) (edge : GraphEdge) : Result (bool * GraphWorkQueue) :=
  let constraint := (ge_id edge, expectation_key (ge_expected edge)) in
  if bool_decide (constraint ∈ gq_scheduled q) then Ok (false, q)
  else if negb (bool_decide (ge_id edge ∈ gq_scheduled_ids q)) &&
          (gq_limit q <=? Z.of_nat (size (gq_scheduled_ids q)))
  then Err (walk_limit_exceeded (gq_limit q))
  else Ok (true, mkQueue (gq_queue q ++ [edge]) ({[ constraint ]} ∪ gq_scheduled q)
                   ({[ ge_id edge ]} ∪ gq_scheduled_ids q) (gq_limit q)).

Definition pop_front (q : GraphWorkQueue) : option GraphEdge * GraphWorkQueue :=
  match gq_queue q with
  | [] => (None, q)
  | e :: l => (Some e, mkQueue l (gq_scheduled q) (gq_scheduled_ids q) (gq_limit q))
  end.

(** ** The edges of an object *)

Section decode.
Context `{B3 : Blake3}.

(** The names of the edges, [format!("commit:{id}:parent")] and the like. *)
Definition resource (kind : str) (id : ObjectId) (edge : str) : str :=
  kind ++ bs ":" ++ hex id ++ bs ":" ++ edge.

Definition tree_edge (id : ObjectId) (entry : TreeEntry) : GraphEdge :=
  exact (e_id entry) (match e_kind entry with KBlob => TBlob | KTree => TTree end)
    (resource (bs "tree") id (e_name entry)).

Definition commit_edges (id : ObjectId) (commit : Commit) : list GraphEdge :=
  [exact (c_tree commit) TTree (resource (bs "commit") id (bs "tree"))] ++
  ((fun parent => exact parent TCommit (resource (bs "commit") id (bs "parent"))) <$> c_parents commit) ++
  match c_contrib commit with
  | Some contribution => [exact contribution TContribution (resource (bs "commit") id (bs "contribution"))]
  | None => []
  end.

Definition conflict_edges (id : ObjectId) (conflict : Conflict) : list GraphEdge :=
  ((fun base => exact base TTree (resource (bs "conflict") id (bs "base"))) <$> cf_bases conflict) ++
  [exact (cf_ours conflict) TTree (resource (bs "conflict") id (bs "ours"));
   exact (cf_theirs conflict) TTree (resource (bs "conflict") id (bs "theirs"))] ++
  ((fun causal => exact causal TCommit (resource (bs "conflict") id (bs "causal"))) <$> cf_causal conflict) ++
  (path ← cf_paths conflict;
   (fun edge => any edge (resource (bs "conflict") id (bs "path:" ++ cp_path path))) <$>
     (option_list (cp_a path) ++ option_list (cp_b path) ++ option_list (cp_base path))).

Definition snapshot_edges (id : ObjectId) (snapshot : Snapshot) : list GraphEdge :=
  [exact (s_tree snapshot) TTree (resource (bs "snapshot") id (bs "tree"));
   exact (s_commit snapshot) TCommit (resource (bs "snapshot") id (bs "commit"));
   exact (s_prov snapshot) TBlob (resource (bs "snapshot") id (bs "provenance"))].

Definition contribution_edges (id : ObjectId) (c : Contribution) : list GraphEdge :=
  [exact (t_base c) TCommit (resource (bs "contribution") id (bs "base"));
   exact (t_tree c) TTree (resource (bs "contribution") id (bs "tree"))] ++
  ((fun parent => exact parent TCommit (resource (bs "contribution") id (bs "parent"))) <$> t_parents c) ++
  ((fun read => exact (rd_id read) TBlob (resource (bs "contribution") id (bs "read:" ++ rd_path read))) <$> t_reads c).

Definition decode_graph_object (id : ObjectId) (b : bytes) : Result DecodedGraphObject :=
  object_type ← decode_object_type b;
  edges ← match object_type with
          | TBlob => _ ← Blob_decode b; Ok []
          | TTree => tree ← Tree_decode b; Ok (tree_edge id <$> entries tree)
          | TCommit => commit ← Commit_decode b; Ok (commit_edges id commit)
          | TConflict => conflict ← Conflict_decode b; Ok (conflict_edges id conflict)
          | TSnapshot => snapshot ← Snapshot_decode b; Ok (snapshot_edges id snapshot)
          | TContribution => c ← Contribution.decode b; Ok (contribution_edges id c)
          end;
  Ok (mkDecoded object_type edges).
End decode.

(** ** The walk *)

(** Each turn takes one scheduled constraint, and a walk below its ceiling
    schedules at most eight kinds of them for each object. *)
Definition graph_budget : positive := 2 ^ 68.

Section walk.
Context {C : Type -> Type} `{LRU : Lru C} `{B3 : Blake3}.

Definition schedule_all (q : GraphWorkQueue) (edges : list GraphEdge) : Result GraphWorkQueue :=
  try_fold (fun q edge => '(_, q) ← schedule q edge; Ok q) q edges.

Definition graph_step (l : GraphWorkQueue * gmap ObjectId ObjectType)
    : stateM Error (Store C) ((GraphWorkQueue * gmap ObjectId ObjectType) + gmap ObjectId ObjectType) :=
  let '(queue, verified) := l in
  match pop_front queue with
  | (None, _) => mret (inr verified)
  | (Some edge, queue) =>
      match verified !! ge_id edge with
      | Some actual => _ ← pure (verify_edge (ge_expected edge) actual); mret (inl (queue, verified))
      | None =>
          _ ← pure (reject_if (gq_limit queue <=? Z.of_nat (size verified)) (walk_limit_exceeded (gq_limit queue)));
          b ← get_raw_verified (ge_id edge);
          decoded ← pure (decode_graph_object (ge_id edge) b);
          _ ← pure (verify_edge (ge_expected edge) (dg_type decoded));
          queue ← pure (schedule_all queue (dg_edges decoded));
          mret (inl (queue, <[ge_id edge := dg_type decoded]> verified))
      end
  end.

Definition root_edge (root : ObjectId) (expected : ObjectType) : GraphEdge :=
  exact root expected (bs "root:" ++ hex root).

Definition reachable_graph_verified (env : option str) (root : ObjectId) (expected : ObjectType)
    : stateM Error (Store C) (list VerifiedGraphObject) :=
  '(_, queue) ← pure (schedule (with_limit (max_graph_objects env)) (root_edge root expected));
  verified ← m_while graph_budget graph_step (queue, ∅);
  mret (sort_by_key (fun o => arr_bytes (vg_id o))
          ((fun '(id, t) => mkVerified id t) <$> map_to_list verified)).
End walk.

(** ** Lemmas: the queue *)

Lemma expectation_key_inj e e' : expectation_key e = expectation_key e' -> e = e'.
Proof. destruct e as [|[]|], e' as [|[]|]; vm_compute; congruence. Qed.

Definition all_keys : list Z := [0; 1; 2; 3; 4; 5; 6; 255].

Lemma expectation_key_in e : expectation_key e ∈ all_keys.
Proof. destruct e as [|[]|]; vm_compute; repeat (first [by left|right]). Qed.

Abbreviation edge_key e := (ge_id e, expectation_key (ge_expected e)).

Record wf_queue (q : GraphWorkQueue) : Prop := mk_wf_queue {
  wq_ids id k : (id, k) ∈ gq_scheduled q -> id ∈ gq_scheduled_ids q /\ k ∈ all_keys;
  wq_bound : Z.of_nat (size (gq_scheduled_ids q)) <= gq_limit q
}.

(** At most eight constraints for each object. *)
Lemma scheduled_bound q : wf_queue q -> Z.of_nat (size (gq_scheduled q)) <= 8 * gq_limit q.
Proof.
  intros [Hids Hb].
  assert (length (elements (gq_scheduled q)) <= length (list_prod (elements (gq_scheduled_ids q)) all_keys))%nat as Hl.
  { apply submseteq_length, NoDup_submseteq; [apply NoDup_elements|].
    intros [id k] Hin%elem_of_elements%Hids. apply list_elem_of_In, in_prod_iff.
    rewrite <- !list_elem_of_In, elem_of_elements. done. }
  rewrite length_prod in Hl. unfold size, set_size in *. cbn [length all_keys] in Hl. simpl in *. lia.
Qed.

Lemma schedule_spec q e :
  wf_queue q ->
  match schedule q e with
  | Ok (_, q') => wf_queue q' /\ gq_limit q' = gq_limit q /\
      (edge_key e ∈ gq_scheduled q') /\ gq_scheduled q ⊆ gq_scheduled q' /\
      gq_scheduled_ids q' ⊆ {[ ge_id e ]} ∪ gq_scheduled_ids q /\
      (q' = q \/
       gq_queue q' = gq_queue q ++ [e] /\ gq_scheduled q' = {[ edge_key e ]} ∪ gq_scheduled q /\
       edge_key e ∉ gq_scheduled q)
  | Err _ => ge_id e ∉ gq_scheduled_ids q /\ gq_limit q <= Z.of_nat (size (gq_scheduled_ids q))
  | Panic => False
  end.
Proof.
  intros Hw. unfold schedule. case_bool_decide as Hin.
  { split; [done|]. split; [done|]. split; [done|]. split; [done|]. split; [set_solver|by left]. }
  destruct (negb _ && _) eqn:E.
  { apply andb_true_iff in E as [E1%negb_true_iff%bool_decide_eq_false E2%Z.leb_le]. done. }
  split.
  { destruct Hw as [Hids Hb]. split; cbn [gq_scheduled gq_scheduled_ids gq_limit].
    - intros id k [[= -> ->]%elem_of_singleton|Hk]%elem_of_union.
      + split; [set_solver|apply expectation_key_in].
      + apply Hids in Hk as [? ?]. split; [set_solver|done].
    - apply andb_false_iff in E as [E%negb_false_iff%bool_decide_eq_true|E%Z.leb_gt].
      + by rewrite subseteq_union_1_L by set_solver.
      + pose proof (size_union_alt ({[ ge_id e ]} : gset ObjectId) (gq_scheduled_ids q)) as Hs.
        destruct (decide (ge_id e ∈ gq_scheduled_ids q)).
        * by rewrite subseteq_union_1_L by set_solver.
        * rewrite size_union, size_singleton by set_solver. lia. }
  split; [done|]. cbn. split; [set_solver|]. split; [set_solver|]. split; [done|]. by right.
Qed.

(** What scheduling edges that satisfy [P] does to the queue. *)
Definition scheduled_more (P : GraphEdge -> Prop) (limit : Z) (q : GraphWorkQueue) (edges : list GraphEdge) (q' : GraphWorkQueue) : Prop :=
  wf_queue q' /\ gq_limit q' = limit /\ gq_scheduled q ⊆ gq_scheduled q' /\
  (forall e, e ∈ edges -> edge_key e ∈ gq_scheduled q') /\
  (forall id, id ∈ gq_scheduled_ids q' -> exists e, P e /\ ge_id e = id) /\
  (forall e, e ∈ gq_queue q' -> e ∈ gq_queue q \/ e ∈ edges) /\
  (forall e, e ∈ gq_queue q -> e ∈ gq_queue q') /\
  (forall c, c ∈ gq_scheduled q' -> c ∈ gq_scheduled q \/ exists e, e ∈ gq_queue q' /\ edge_key e = c) /\
  len (gq_queue q') + Z.of_nat (size (gq_scheduled q)) = len (gq_queue q) + Z.of_nat (size (gq_scheduled q')).

(** It refuses only when more than [limit] objects are named. *)
Lemma schedule_edges_spec (P : GraphEdge -> Prop) limit q edges :
  wf_queue q -> gq_limit q = limit -> (forall e, e ∈ edges -> P e) ->
  (forall id, id ∈ gq_scheduled_ids q -> exists e, P e /\ ge_id e = id) ->
  match schedule_all q edges with
  | Ok q' => scheduled_more P limit q edges q'
  | Err err => err = walk_limit_exceeded limit /\
      exists X : gset ObjectId, (forall id, id ∈ X -> exists e, P e /\ ge_id e = id) /\ limit < Z.of_nat (size X)
  | Panic => False
  end.
Proof.
  intros Hq Hl He Hids. revert q Hq Hl Hids. induction edges as [|e edges IH]; intros q Hq Hl Hids.
  { cbn. split_and!; try done; [by intros e ?%elem_of_nil|by left|by left]. }
  unfold schedule_all in *. cbn [try_fold]. pose proof (schedule_spec q e Hq) as Hs.
  assert (forall ids, ids ⊆ {[ge_id e]} ∪ gq_scheduled_ids q -> forall id, id ∈ ids -> exists e, P e /\ ge_id e = id) as Hsome.
  { intros ids Hsub id [->%elem_of_singleton|Hid]%Hsub%elem_of_union; [|by apply Hids].
    exists e. split; [apply He; by left|done]. }
  destruct (schedule q e) as [[b q1]|err|] eqn:E; [|destruct Hs as [Hn Hsz]|done].
  2: { split.
       { unfold schedule in E. case_bool_decide; [done|]. destruct (_ && _); [|done]. by injection E as <-; rewrite Hl. }
       exists ({[ ge_id e ]} ∪ gq_scheduled_ids q). split; [by apply Hsome|]. rewrite size_union, size_singleton by set_solver. lia. }
  destruct Hs as (Hq1 & Hl1 & Hk & Hsub & Hidsub & Hcase). rewrite !bind_of_ok.
  specialize (IH ltac:(intros; apply He; by right) q1 Hq1 ltac:(congruence) (Hsome _ Hidsub)).
  destruct (try_fold _ q1 edges) as [q2|err|]; [|done..].
  destruct IH as (H1 & H2 & H3 & H4 & H5 & H6 & H7 & H8 & H9).
  split; [done|]. split; [done|]. split; [set_solver|]. split.
  { intros e' [->|He']%elem_of_cons; [set_solver|by apply H4]. }
  split; [done|]. destruct Hcase as [->|(Eq & Es & Hnew)].
  - split; [|split; [done|split; [done|done]]]. intros e' [?|?]%H6; [by left|right; by right].
  - rewrite Eq, Es in *. split; [|split; [|split]].
    + intros e' [[?| ->%list_elem_of_singleton]%elem_of_app|?]%H6; [by left|right; by left|right; by right].
    + intros e' He'. apply H7, elem_of_app. by left.
    + intros c [[->%elem_of_singleton|?]%elem_of_union|?]%H8; [|by left|by right].
      right. exists e. split; [|done]. apply H7, elem_of_app. right. by left.
    + rewrite len_app, size_union, size_singleton in H9 by set_solver. rewrite len_cons, len_nil in H9. lia.
Qed.

Lemma no_panic_decode_graph_object `{B3 : Blake3} id b : no_panic (decode_graph_object id b).
Proof.
  unfold decode_graph_object. apply no_panic_bind.
  { unfold decode_object_type. apply no_panic_bind; [auto with forge|]. intros u E.
    apply reject_if_ok, Z.eqb_neq in E. destruct b as [|c l]; [done|].
    apply no_panic_bind; [done|]. intros b0 _. unfold ObjectType_from_u8. repeat case_match; auto with forge. }
  intros t _. apply no_panic_bind; [|intros; apply no_panic_ok].
  destruct t; (apply no_panic_bind; [|intros; apply no_panic_ok]);
    auto using no_panic_Blob_decode, no_panic_Tree_decode, no_panic_Commit_decode, contribution_decode_no_panic with forge.
Qed.

(** ** What a root reaches *)

Section reach.
Context {C : Type -> Type} `{LL : LruLaws C} `{B3 : Blake3}.
Implicit Types (s : Store C) (e : GraphEdge) (id : ObjectId).

(** The object stored under an identifier, decoded. *)
Definition decodes_to s id (d : DecodedGraphObject) : Prop :=
  exists b, objects s !! id = Some b /\ hash_bytes b = id /\ decode_graph_object id b = Ok d.

Inductive reaches s (root : GraphEdge) : GraphEdge -> Prop :=
| reaches_root : reaches s root root
| reaches_edge e d e' :
    reaches s root e -> decodes_to s (ge_id e) d -> e' ∈ dg_edges d -> reaches s root e'.

(** Every reachable edge leads to a stored object, under its hash, that
    decodes to the expected type. *)
Definition graph_ok s root : Prop :=
  forall e, reaches s root e -> exists d, decodes_to s (ge_id e) d /\ accepts (ge_expected e) (dg_type d) = true.

(** At most [limit] distinct objects are reachable. *)
Definition graph_fits s root (limit : Z) : Prop :=
  exists X : gset ObjectId, Z.of_nat (size X) <= limit /\ forall e, reaches s root e -> ge_id e ∈ X.

Lemma decodes_to_fun s id d d' : decodes_to s id d -> decodes_to s id d' -> d = d'.
Proof. intros (b & Hb & _ & Hd) (b' & Hb' & _ & Hd'). congruence. Qed.

(** A set of reachable objects fits. *)
Lemma fits_subset s root limit (X : gset ObjectId) :
  graph_fits s root limit -> (forall id, id ∈ X -> exists e, reaches s root e /\ ge_id e = id) ->
  Z.of_nat (size X) <= limit.
Proof.
  intros (Y & HY & Hr) HX. assert (size X <= size Y)%nat; [|lia].
  apply subseteq_size. intros id (e & He & <-)%HX. by apply Hr.
Qed.

Section walk_spec.
Context s (root : GraphEdge) (limit : Z) (Hw : wf_sstore s) (Hlim : 0 < limit <= u64_max).

(** A scheduled constraint is waiting, or settled. *)
Definition settled (queue : list GraphEdge) (verified : gmap ObjectId ObjectType) (c : ObjectId * Z) : Prop :=
  (exists e, e ∈ queue /\ edge_key e = c) \/
  exists t x, verified !! c.1 = Some t /\ expectation_key x = c.2 /\ accepts x t = true.

Record graph_inv (l : GraphWorkQueue * gmap ObjectId ObjectType) : Prop := mk_graph_inv {
  gi_wf : wf_queue l.1;
  gi_limit : gq_limit l.1 = limit;
  gi_size : Z.of_nat (size l.2) <= limit;
  gi_queue e : e ∈ gq_queue l.1 -> reaches s root e;
  gi_ids id : id ∈ gq_scheduled_ids l.1 -> exists e, reaches s root e /\ ge_id e = id;
  gi_root : edge_key root ∈ gq_scheduled l.1;
  gi_settled c : c ∈ gq_scheduled l.1 -> settled (gq_queue l.1) l.2 c;
  gi_verified id t : l.2 !! id = Some t ->
    (exists e, reaches s root e /\ ge_id e = id) /\
    exists d, decodes_to s id d /\ dg_type d = t /\ forall e, e ∈ dg_edges d -> edge_key e ∈ gq_scheduled l.1
}.

Definition graph_measure (l : GraphWorkQueue * gmap ObjectId ObjectType) : Z :=
  len (gq_queue l.1) + (8 * limit - Z.of_nat (size (gq_scheduled l.1))).

Definition walk_refused : Prop := ~ (graph_ok s root /\ graph_fits s root limit).

(** Scheduling the edges of a reachable object keeps the queue's part of the
    invariant. *)
Lemma schedule_all_spec q edges :
  wf_queue q -> gq_limit q = limit ->
  (forall e, e ∈ edges -> reaches s root e) ->
  (forall id, id ∈ gq_scheduled_ids q -> exists e, reaches s root e /\ ge_id e = id) ->
  match schedule_all q edges with
  | Ok q' => scheduled_more (reaches s root) limit q edges q'
  | Err _ => walk_refused
  | Panic => False
  end.
Proof.
  intros Hq Hl He Hids. pose proof (schedule_edges_spec (reaches s root) limit q edges Hq Hl He Hids) as H.
  destruct (schedule_all q edges) as [q'|err|]; [done| |done]. destruct H as (_ & X & HX & Hsz).
  intros [_ Hf]. pose proof (fits_subset s root limit X Hf HX). lia.
Qed.

(** When the queue is empty, everything reachable is verified. *)
Lemma walk_complete q verified e :
  graph_inv (q, verified) -> gq_queue q = [] -> reaches s root e ->
  exists t, verified !! ge_id e = Some t /\ accepts (ge_expected e) t = true.
Proof.
  intros [_ _ _ _ _ Hroot Hset Hver] Eq He. cbn [fst snd] in *.
  assert (forall e, edge_key e ∈ gq_scheduled q -> exists t, verified !! ge_id e = Some t /\ accepts (ge_expected e) t = true) as Hk.
  { intros e' [(e2 & He2 & _)|(t & x & Ht & Ex & Ha)]%Hset.
    - rewrite Eq in He2. by apply elem_of_nil in He2.
    - apply expectation_key_inj in Ex as ->. by exists t. }
  apply Hk. induction He as [|e d e' He IH Hd Hin]; [done|].
  destruct (Hk e IH) as (t & Ht & _). apply Hver in Ht as (_ & d' & Hd' & _ & Hed).
  rewrite (decodes_to_fun _ _ _ _ Hd Hd') in Hin. by apply Hed.
Qed.

(** Taking a constraint that is settled already. *)
Lemma inv_pop e l verified sch ids t :
  graph_inv (mkQueue (e :: l) sch ids limit, verified) ->
  verified !! ge_id e = Some t -> accepts (ge_expected e) t = true ->
  graph_inv (mkQueue l sch ids limit, verified).
Proof.
  intros [Hq Hl Hs Hqu Hid Hr Hse Hv] Ht Ha. cbn [fst snd gq_queue gq_scheduled gq_scheduled_ids gq_limit] in *.
  split; cbn [fst snd gq_queue gq_scheduled gq_scheduled_ids gq_limit]; try done.
  - by destruct Hq.
  - intros e' He'. apply Hqu. by right.
  - intros c Hc. destruct (Hse c Hc) as [(e' & [->|He']%elem_of_cons & <-)|Hsome]; [|by left; exists e'|by right].
    right. by exists t, (ge_expected e).
Qed.

Lemma refused_edge e : reaches s root e ->
  (forall d, decodes_to s (ge_id e) d -> accepts (ge_expected e) (dg_type d) = true -> False) -> walk_refused.
Proof. intros He H [Hok _]. destruct (Hok e He) as (d & Hd & Ha). eauto. Qed.

Lemma inv_verified e l verified sch ids d q2 :
  graph_inv (mkQueue (e :: l) sch ids limit, verified) ->
  verified !! ge_id e = None -> Z.of_nat (size verified) < limit ->
  decodes_to s (ge_id e) d -> accepts (ge_expected e) (dg_type d) = true ->
  schedule_all (mkQueue l sch ids limit) (dg_edges d) = Ok q2 ->
  graph_inv (q2, <[ge_id e := dg_type d]> verified) /\
  graph_measure (q2, <[ge_id e := dg_type d]> verified) = graph_measure (mkQueue l sch ids limit, verified).
Proof.
  intros [Hq Hl Hs Hqu Hid Hr Hse Hv] Hnone Hlt Hd Ha E.
  cbn [fst snd gq_queue gq_scheduled gq_scheduled_ids gq_limit] in *.
  assert (reaches s root e) as He by (apply Hqu; by left).
  pose proof (schedule_all_spec (mkQueue l sch ids limit) (dg_edges d)) as H. rewrite E in H.
  destruct H as (H1 & H2 & H3 & H4 & H5 & H6 & H7 & H8 & H9); [by destruct Hq|done| |done|].
  { intros e' He'. by apply (reaches_edge s root e d). }
  cbn [gq_queue gq_scheduled gq_scheduled_ids gq_limit] in *. split.
  - split; cbn [fst snd]; try done.
    + rewrite map_size_insert_None by done. lia.
    + intros e' [He'|He']%H6; [apply Hqu; by right|by apply (reaches_edge s root e d)].
    + by apply H3.
    + intros c [Hc|(e' & He' & <-)]%H8; [|by left; exists e'].
      destruct (Hse c Hc) as [(e' & [->|He']%elem_of_cons & <-)|(t & x & Ht & Ex & Hax)].
      * right. exists (dg_type d), (ge_expected e). by rewrite lookup_insert_eq.
      * left. exists e'. split; [by apply H7|done].
      * right. exists t, x. rewrite lookup_insert_ne; [done|]. intros E1. rewrite <- E1, Hnone in Ht. done.
    + intros id t [[<- <-]|[_ Ht]]%lookup_insert_Some.
      * split; [by exists e|]. by exists d.
      * destruct (Hv id t Ht) as [? (d' & ? & ? & Hed)]. split; [done|]. exists d'. split_and!; try done.
        intros e' He'. by apply H3, Hed.
  - unfold graph_measure. cbn [fst snd gq_queue gq_scheduled]. lia.
Qed.

Lemma graph_step_spec l :
  graph_inv l ->
  wp (graph_step l) s (fun r s' => s' = s /\ match r with
    | Ok (inl l') => graph_inv l' /\ 0 <= graph_measure l' < graph_measure l
    | Ok (inr verified) => exists q, gq_queue q = [] /\ graph_inv (q, verified)
    | Err _ => walk_refused
    | Panic => False
    end).
Proof.
  destruct l as [[queue sch ids lim] verified]. intros Hinv.
  assert (lim = limit) as -> by (exact (gi_limit _ Hinv)). unfold graph_step, pop_front.
  cbn [gq_queue gq_scheduled gq_scheduled_ids gq_limit]. destruct queue as [|e l].
  { apply wp_ret. split; [done|]. by exists (mkQueue [] sch ids limit). }
  pose proof Hinv as [Hq Hl Hs Hqu Hid Hr Hse Hv]. cbn [fst snd gq_queue gq_scheduled gq_scheduled_ids gq_limit] in *.
  assert (reaches s root e) as He by (apply Hqu; by left).
  assert (0 <= graph_measure (mkQueue l sch ids limit, verified) <
    graph_measure (mkQueue (e :: l) sch ids limit, verified)) as Hm.
  { pose proof (scheduled_bound _ Hq) as Hsb. cbn [gq_scheduled gq_limit] in Hsb.
    unfold graph_measure. cbn [fst snd gq_queue gq_scheduled]. rewrite len_cons. pose proof (len_nonneg l). lia. }
  destruct (verified !! ge_id e) as [t|] eqn:Ev.
  - apply wp_bind, wp_pure. unfold verify_edge. destruct (accepts (ge_expected e) t) eqn:Ea.
    + apply wp_ret. split; [done|]. split; [by apply (inv_pop e l verified sch ids t)|done].
    + split; [done|]. apply (refused_edge e He). intros d Hd Had.
      destruct (Hv _ _ Ev) as [_ (d' & Hd' & <- & _)]. rewrite (decodes_to_fun _ _ _ _ Hd Hd') in Had. congruence.
  - apply wp_bind, wp_pure. unfold reject_if. destruct (Z.leb_spec limit (Z.of_nat (size verified))) as [Hle|Hlt].
    { split; [done|]. intros [_ Hf].
      pose proof (fits_subset s root limit ({[ ge_id e ]} ∪ dom verified) Hf) as Hle'.
      rewrite size_union, size_singleton, size_dom in Hle' by (apply not_elem_of_dom in Ev; set_solver).
      assert (forall id, id ∈ {[ge_id e]} ∪ dom verified -> exists e, reaches s root e /\ ge_id e = id) as H.
      { intros id [->%elem_of_singleton|[t Ht]%elem_of_dom]%elem_of_union; [by exists e|]. by apply Hv in Ht as [? _]. }
      specialize (Hle' H). lia. }
    apply wp_bind. unfold wp at 1, get_raw_verified. cbn [fst snd].
    pose proof (get_cases (blobs s) (ge_id e) (ws_blobs _ Hw)) as Hg.
    destruct (Memory_get (blobs s) (ge_id e)) as [b|err|]; [| |done].
    2: { split; [done|]. apply (refused_edge e He). intros d (b & Hb & _) _. unfold objects in Hb.
         destruct Hg as [Hg _]. congruence. }
    assert (hash_bytes b = ge_id e) as Hh by (by apply (wf_hash _ (ws_blobs _ Hw)) in Hg).
    apply wp_bind, wp_pure. destruct (decode_graph_object (ge_id e) b) as [d|err|] eqn:Ed.
    3: { by apply no_panic_decode_graph_object in Ed. }
    2: { split; [done|]. apply (refused_edge e He). intros d (b' & Hb & _ & Hd) _. unfold objects in Hb. congruence. }
    assert (decodes_to s (ge_id e) d) as Hd by (by exists b).
    apply wp_bind, wp_pure. unfold verify_edge. destruct (accepts (ge_expected e) (dg_type d)) eqn:Ea.
    2: { split; [done|]. apply (refused_edge e He). intros d' Hd' Ha'.
         rewrite (decodes_to_fun _ _ _ _ Hd' Hd) in Ha'. congruence. }
    apply wp_bind, wp_pure.
    pose proof (schedule_all_spec (mkQueue l sch ids limit) (dg_edges d)) as Hsch.
    destruct (schedule_all (mkQueue l sch ids limit) (dg_edges d)) as [q2|err|] eqn:Es.
    + apply wp_ret. split; [done|].
      destruct (inv_verified e l verified sch ids d q2) as [H1 H2]; [done..|]. split; [done|]. by rewrite H2.
    + split; [done|]. apply Hsch; [by destruct Hq|done| |done]. intros e' He'. by apply (reaches_edge s root e d).
    + split; [done|]. apply Hsch; [by destruct Hq|done| |done]. intros e' He'. by apply (reaches_edge s root e d).
Qed.
End walk_spec.

Lemma parse_digits_range acc l n : 0 <= acc <= u64_max -> parse_digits acc l = Some n -> 0 <= n <= u64_max.
Proof.
  revert acc. induction l as [|c l IH]; intros acc Ha; simpl; [by intros [= <-]|].
  repeat case_match; try done. intros Hp. eapply IH; [|exact Hp].
  unfold in_range in *. rewrite ?andb_true_iff, ?Z.leb_le, ?Z.ltb_ge, ?Z.leb_gt in *. lia.
Qed.

Lemma max_graph_objects_range env : 0 < max_graph_objects env <= u64_max.
Proof.
  unfold max_graph_objects. destruct env as [raw|]; [|done]. cbn [mbind option_bind].
  destruct (parse_u64 (trim raw)) as [n|] eqn:E; [|done]. cbn [mbind option_bind].
  destruct (Z.ltb_spec 0 n); [|done]. cbn. split; [done|].
  unfold parse_u64 in E. repeat case_match; try done; apply parse_digits_range in E; try done; lia.
Qed.

Definition walk_post s env root expected (r : Result (list VerifiedGraphObject)) : Prop :=
  let edge := root_edge root expected in
  match r with
  | Ok objects =>
      graph_ok s edge /\ graph_fits s edge (max_graph_objects env) /\
      StronglySorted (key_lt (fun o => arr_bytes (vg_id o))) objects /\
      forall o, o ∈ objects <-> exists e d, reaches s edge e /\ decodes_to s (ge_id e) d /\ o = mkVerified (ge_id e) (dg_type d)
  | Err _ => ~ (graph_ok s edge /\ graph_fits s edge (max_graph_objects env))
  | Panic => False
  end.

Lemma reachable_graph_spec env root expected s :
  wf_sstore s ->
  wp (reachable_graph_verified env root expected) s (fun r s' => s' = s /\ walk_post s env root expected r).
Proof.
  intros Hw. pose proof (max_graph_objects_range env) as Hlim. unfold reachable_graph_verified, walk_post.
  set (limit := max_graph_objects env) in *. set (edge := root_edge root expected).
  assert (wf_queue (with_limit limit)) as Hq0.
  { split; [by intros id k ?%elem_of_empty|]. cbn. rewrite size_empty. lia. }
  apply wp_bind, wp_pure. pose proof (schedule_spec (with_limit limit) edge Hq0) as Hs.
  destruct (schedule (with_limit limit) edge) as [[b q]|e|] eqn:Es; [| |done].
  2: { destruct Hs as [_ Hs]. cbn [gq_limit with_limit gq_scheduled_ids] in Hs. rewrite size_empty in Hs. lia. }
  destruct Hs as (Hq & Hl & Hk & _ & Hids & Hcase). cbn [gq_limit with_limit gq_scheduled_ids] in *.
  destruct Hcase as [->|(Eq & Esch & _)]; [by apply elem_of_empty in Hk|]. cbn [gq_queue gq_scheduled with_limit app] in *.
  assert (graph_inv s edge limit (q, ∅)) as Hinv.
  { split; cbn [fst snd]; try done.
    - rewrite map_size_empty. lia.
    - rewrite Eq. intros e ->%list_elem_of_singleton. apply reaches_root.
    - intros id Hid%Hids. exists edge. split; [apply reaches_root|set_solver].
    - rewrite Eq, Esch. intros c [->%elem_of_singleton|Hc]%elem_of_union; [|by apply elem_of_empty in Hc].
      left. exists edge. split; [by left|done]. }
  apply wp_bind.
  apply (wp_m_while (fun l s' => s' = s /\ graph_inv s edge limit l) (graph_measure limit)); [|done|].
  2: { unfold graph_measure. cbn [fst snd]. rewrite Eq, len_cons, len_nil. unfold graph_budget, u64_max in *. lia. }
  intros l s' [-> Hl']. eapply wp_mono; [by apply (graph_step_spec s edge limit)|].
  intros [[l'|verified]|e|] s' [-> Hr]; [by split_and!; try apply Hr| |done|done].
  destruct Hr as (q' & Eq' & Hfin). apply wp_ret. split; [done|].
  assert (forall e, reaches s edge e -> exists t, verified !! ge_id e = Some t /\ accepts (ge_expected e) t = true) as Hall.
  { intros e He. by apply (walk_complete s edge limit q' verified e). }
  assert (forall e, reaches s edge e -> exists d, decodes_to s (ge_id e) d /\ verified !! ge_id e = Some (dg_type d) /\
    accepts (ge_expected e) (dg_type d) = true) as Hdec.
  { intros e He. destruct (Hall e He) as (t & Ht & Ha).
    destruct (gi_verified _ _ _ _ Hfin _ _ Ht) as (_ & d & Hd & <- & _). by exists d. }
  split; [|split; [|split]].
  - intros e He. destruct (Hdec e He) as (d & Hd & _ & Ha). by exists d.
  - exists (dom verified). split.
    + rewrite size_dom. apply (gi_size _ _ _ _ Hfin).
    + intros e He. destruct (Hall e He) as (t & Ht & _). by apply elem_of_dom_2 in Ht.
  - apply sort_by_key_strict. rewrite <- list_fmap_compose.
    assert ((fun o => arr_bytes (vg_id o)) ∘ (fun '(id, t) => mkVerified id t) <$> map_to_list verified =
      arr_bytes <$> (map_to_list verified).*1) as ->.
    { rewrite <- list_fmap_compose. apply list_fmap_ext. by intros _ [id t] _. }
    apply NoDup_fmap_2_strong; [|apply NoDup_fst_map_to_list]. intros x y _ _. apply arr_eq.
  - intros o. rewrite sort_by_key_perm, list_elem_of_fmap. split.
    + intros ([id t] & -> & Hin). apply elem_of_map_to_list in Hin.
      destruct (gi_verified _ _ _ _ Hfin _ _ Hin) as ((e & He & <-) & d & Hd & <- & _). by exists e, d.
    + intros (e & d & He & Hd & ->). exists (ge_id e, dg_type d). split; [done|]. apply elem_of_map_to_list.
      destruct (Hdec e He) as (d' & Hd' & Hv & _). by rewrite (decodes_to_fun _ _ _ _ Hd Hd').
Qed.
End reach.

(** ** Properties *)

Section properties.
Context {C : Type -> Type} `{LL : LruLaws C} `{B3 : Blake3}.

(** C29: the verified walk is exact.  [reachable_graph_verified] succeeds
    exactly when every edge reachable from the root leads to an object that is
    stored under the hash of its bytes and decodes, canonically, to a type the
    edge accepts, and no more distinct objects are reachable than the ceiling;
    it then returns every reachable object once, with its type, in the order
    of identifiers.  It never panics, ends within its budget, and changes
    nothing. *)
Theorem reachable_graph_is_exact (env : option str) (root : ObjectId) (expected : ObjectType) (s : Store C)
    (Hw : wf_sstore s) :
  wp (reachable_graph_verified env root expected) s (fun r s' => s' = s /\
    match r with
    | Ok objects =>
        graph_ok s (root_edge root expected) /\
        graph_fits s (root_edge root expected) (max_graph_objects env) /\
        StronglySorted (key_lt (fun o => arr_bytes (vg_id o))) objects /\
        forall o, o ∈ objects <-> exists e d, reaches s (root_edge root expected) e /\
          decodes_to s (ge_id e) d /\ o = mkVerified (ge_id e) (dg_type d)
    | Err _ => ~ (graph_ok s (root_edge root expected) /\
                  graph_fits s (root_edge root expected) (max_graph_objects env))
    | Panic => False
    end).
Proof. by apply reachable_graph_spec. Qed.
End properties.

(** ** Witnesses *)

(** A store with the empty tree in it. *)
Definition graph_demo := Store_put_tree (C:=MapLru) empty_tree empty_store.
Definition graph_demo_root : ObjectId := match graph_demo.1 with Ok id => id | _ => ZERO end.

Lemma graph_demo_wf : wf_sstore graph_demo.2.
Proof.
  assert (wf_tree empty_tree) as Ht by (split; constructor).
  pose proof (Store_put_tree_spec (C:=MapLru) empty_tree empty_store empty_store_wf Ht) as H.
  unfold wp in H. apply H. intros b _ (b' & Hb & _). vm_compute in Hb. discriminate Hb.
Qed.

Lemma reachable_graph_is_exact_witness :
  (reachable_graph_verified (C:=MapLru) None graph_demo_root TTree graph_demo.2).1 =
    Ok [mkVerified graph_demo_root TTree] /\
  graph_ok graph_demo.2 (root_edge graph_demo_root TTree).
Proof.
  pose proof (reachable_graph_is_exact None graph_demo_root TTree graph_demo.2 graph_demo_wf) as [_ H].
  assert ((reachable_graph_verified (C:=MapLru) None graph_demo_root TTree graph_demo.2).1 =
    Ok [mkVerified graph_demo_root TTree]) as E by (vm_compute; reflexivity).
  rewrite E in H. split; [exact E|]. apply H.
Defined.
