(* ===== verification/Protocol.v ===== *)
(** * The wire protocol (crates/forge-protocol/src/lib.rs)

    Requests and responses, and the length-prefixed frames that carry them.
    Readers and writers are the operations of [std::io::Read] and
    [std::io::Write] the code calls, as classes; a byte buffer implements
    both.  JSON serialization (serde_json) is a parameter. *)

From S2P Require Import Prelude RustStd Types.

(** ** Messages *)

Record Request (Value : Type) := mkRequest {
  rq_v : Z;
  rq_id : Z;
  rq_op : str;
  rq_cap : str;
  rq_body : Value
}.

Record ErrBody := mkErrBody {
  eb_code : str;
  eb_msg : str
}.

Record Response (Value : Type) := mkResponse {
  rs_v : Z;
  rs_id : Z;
  rs_ok : bool;
  rs_body : option Value;
  rs_err : option ErrBody
}.
Arguments mkRequest {Value}. Arguments mkResponse {Value}.
Arguments rs_v {Value}. Arguments rs_id {Value}. Arguments rs_ok {Value}.
Arguments rs_body {Value}. Arguments rs_err {Value}.

(** [Display for Error]. *)
Definition Error_to_string (e : Error) : str :=
  match e with
  | Denied m => bs "denied: " ++ m
  | NotFound m => bs "not found: " ++ m
  | Sealed m => bs "sealed: " ++ m
  | Invalid m => bs "invalid: " ++ m
  | Corrupt m => bs "corrupt: " ++ m
  | Busy m => bs "busy: " ++ m
  | MergeConflict id => bs "conflict object " ++ hex id
  | StaleObservation path expected found =>
      bs "stale observation of " ++ path ++ bs ": expected " ++ expected ++ bs ", found " ++ found
  | InvalidBase => bs "invalid base"
  | Io m => bs "io: " ++ m
  | Sqlite m => bs "sqlite: " ++ m
  | CapError m => bs "cap: " ++ m
  | Internal m => bs "internal: " ++ m
  end.

Definition Response_ok {Value} (id : Z) (body : Value) : Response Value :=
  mkResponse 1 id true (Some body) None.

Definition Response_err {Value} (id : Z) (e : Error) : Response Value :=
  mkResponse 1 id false None (Some (mkErrBody (code e) (Error_to_string e))).

(** ** Streams *)

Class Write (W : Type) := {
  write_all : bytes -> stateM Error W unit;
  flush : stateM Error W unit
}.

Class Read (R : Type) := {
  (** Exactly [n] bytes, or an error. *)
  read_exact : Z -> stateM Error R bytes
}.

Definition MAX_FRAME_BYTES : Z := 32 * 1024 * 1024.

Section frames.
Context {W : Type} `{Write W} {R : Type} `{Read R}.

Definition write_frame {V} (to_vec : V -> outcome str bytes) (v : V) : stateM Error W unit :=
  b ← pure (map_err Invalid (to_vec v));
  let n := len b mod 2 ^ 32 in
  _ ← write_all (be_bytes 4 n);
  _ ← write_all b;
  flush.

Definition decode_frame_len (prefix : bytes) : Result Z :=
  let n := be_val prefix in
  _ ← reject_if (MAX_FRAME_BYTES <? n) (Invalid (bs "frame too large"));
  Ok n.

Definition read_frame_len : stateM Error R Z :=
  prefix ← read_exact 4; pure (decode_frame_len prefix).

Definition read_frame_len_after (first : byte) : stateM Error R Z :=
  rest ← read_exact 3; pure (decode_frame_len (first :: rest)).

Definition read_frame_body (n : Z) : stateM Error R bytes := read_exact n.

Definition read_frame : stateM Error R bytes :=
  n ← read_frame_len; read_frame_body n.
End frames.

(** A [Vec<u8>] is a writer, and a [&[u8]] a reader that is consumed when it is
    too short. *)
#[export] Instance write_buffer : Write bytes := {|
  write_all b w := (Ok tt, w ++ b);
  flush w := (Ok tt, w)
|}.

#[export] Instance read_buffer : Read bytes := {|
  read_exact n r := if n <=? len r then (Ok (take (Z.to_nat n) r), drop (Z.to_nat n) r)
                    else (Err (Io (bs "failed to fill whole buffer")), [])
|}.

(** ** Lemmas *)

Lemma read_exact_app a b : read_exact (len a) (a ++ b) = (Ok a, b).
Proof.
  cbn. rewrite (proj2 (Z.leb_le _ _)) by (lens; lia). rewrite to_nat_len.
  by rewrite take_app_length, drop_app_length.
Qed.

Lemma read_exact_short n r : len r < n -> read_exact n r = (Err (Io (bs "failed to fill whole buffer")), []).
Proof. intros Hn. cbn. by rewrite (proj2 (Z.leb_gt _ _)). Qed.

Lemma len_length (l : bytes) n : length l = n -> len l = Z.of_nat n.
Proof. unfold len. by intros ->. Qed.

Lemma be_val_4_range (l : bytes) : length l = 4%nat -> 0 <= be_val l < 2 ^ 32.
Proof. intros Hl. pose proof (be_val_range l) as Hr. by rewrite (len_length _ _ Hl) in Hr. Qed.

(** Reading a frame, case by case. *)
Definition frame_read (r : bytes) : Result bytes * bytes :=
  if len r <? 4 then (Err (Io (bs "failed to fill whole buffer")), [])
  else
    let n := be_val (take 4 r) in
    let rest := drop 4 r in
    if MAX_FRAME_BYTES <? n then (Err (Invalid (bs "frame too large")), rest)
    else if len rest <? n then (Err (Io (bs "failed to fill whole buffer")), [])
    else (Ok (take (Z.to_nat n) rest), drop (Z.to_nat n) rest).

Lemma read_frame_cases (r : bytes) : read_frame r = frame_read r.
Proof.
  unfold read_frame, read_frame_len, frame_read, read_frame_body, mbind, stateM_bind, pure.
  destruct (Z.ltb_spec (len r) 4) as [Hs|Hs]; [by rewrite read_exact_short|].
  destruct (split_len r 4) as (p & rest & -> & Hp); [lia|].
  replace (read_exact 4 (p ++ rest)) with (read_exact (len p) (p ++ rest)) by (by rewrite Hp).
  assert (length p = 4%nat) as Hlp by (unfold len in Hp; lia).
  rewrite read_exact_app. rewrite <- Hlp, take_app_length, drop_app_length.
  unfold decode_frame_len, mbind, outcome_bind, reject_if.
  destruct (Z.ltb_spec MAX_FRAME_BYTES (be_val p)) as [Hm|Hm]; [done|].
  pose proof (be_val_4_range p Hlp). destruct (Z.ltb_spec (len rest) (be_val p)) as [Hr|Hr]; [by rewrite read_exact_short|].
  cbn. by rewrite (proj2 (Z.leb_le _ _)).
Qed.

(** ** Properties *)

(** A frame is read back.  Whatever precedes it in the buffer and follows
    it on the stream, what [write_frame] appends for a message whose encoding
    is at most 32 MiB is read back exactly, whole or after its first byte, and
    the reader is left at what follows. *)
Theorem frame_roundtrip {V} (to_vec : V -> outcome str bytes) (v : V) (body w rest : bytes)
    (Hv : to_vec v = Ok body) (Hl : len body <= MAX_FRAME_BYTES) :
  exists frame first tail, write_frame to_vec v w = (Ok tt, w ++ frame) /\
    read_frame (frame ++ rest) = (Ok body, rest) /\
    frame = first :: tail /\
    (n ← read_frame_len_after first; read_frame_body n) (tail ++ rest) = (Ok body, rest).
Proof.
  pose proof (len_nonneg body). assert (len body < 2 ^ 32) as Hlt by (unfold MAX_FRAME_BYTES in Hl; lia).
  set (p := be_bytes 4 (len body)).
  assert (length p = 4%nat) as Hlp by apply length_be_bytes.
  assert (be_val p = len body) as Hbv by (apply be_val_bytes; lia).
  destruct p as [|first p'] eqn:Ep; [done|].
  exists (p ++ body), first, (p' ++ body). subst p. rewrite Ep. split; [|split; [|split; [done|]]].
  - unfold write_frame, mbind, stateM_bind, pure. rewrite Hv. cbn [map_err].
    rewrite Z.mod_small by lia. rewrite Ep. cbn. by rewrite <- !app_assoc.
  - rewrite read_frame_cases. unfold frame_read. rewrite <- app_assoc.
    rewrite (proj2 (Z.ltb_ge _ _)) by (rewrite len_app, (len_length _ _ Hlp); pose proof (len_nonneg (body ++ rest)); lia).
    rewrite <- Hlp, take_app_length, drop_app_length. cbv zeta. rewrite Hbv.
    rewrite (proj2 (Z.ltb_ge _ _)) by lia.
    rewrite (proj2 (Z.ltb_ge _ _)) by (rewrite len_app; pose proof (len_nonneg rest); lia).
    by rewrite to_nat_len, take_app_length, drop_app_length.
  - unfold read_frame_len_after, read_frame_body, mbind, stateM_bind, pure. rewrite <- app_assoc.
    assert (len p' = 3) as Hp' by (apply (len_length p' 3); cbn in Hlp; lia).
    replace (read_exact 3 (p' ++ body ++ rest)) with (read_exact (len p') (p' ++ body ++ rest)) by (by rewrite Hp').
    rewrite read_exact_app. unfold decode_frame_len. rewrite Hbv. unfold reject_if.
    rewrite (proj2 (Z.ltb_ge _ _)) by lia. cbn [mbind outcome_bind]. apply read_exact_app.
Qed.

(** Reading any bytes.  [read_frame] never panics.  A stream with fewer than
    four bytes, or with less than the announced body, is an I/O error; a prefix
    above 32 MiB is refused before any byte of the body is read; everything
    else yields exactly the announced number of bytes. *)
Theorem read_frame_total (r : bytes) :
  match read_frame r with
  | (Ok body, rest) => exists p, length p = 4%nat /\ r = p ++ body ++ rest /\ len body = be_val p /\
      len body <= MAX_FRAME_BYTES
  | (Err (Invalid _), rest) => exists p, length p = 4%nat /\ r = p ++ rest /\ MAX_FRAME_BYTES < be_val p
  | (Err (Io _), _) => len r < 4 \/ exists p rest, length p = 4%nat /\ r = p ++ rest /\
      be_val p <= MAX_FRAME_BYTES /\ len rest < be_val p
  | _ => False
  end.
Proof.
  rewrite read_frame_cases. unfold frame_read. destruct (Z.ltb_spec (len r) 4) as [Hs|Hs]; [by left|].
  destruct (split_len r 4) as (p & rest & -> & Hp); [lia|].
  assert (length p = 4%nat) as Hlp by (unfold len in Hp; lia).
  rewrite <- Hlp, take_app_length, drop_app_length. cbv zeta.
  destruct (Z.ltb_spec MAX_FRAME_BYTES (be_val p)) as [Hm|Hm]; [by exists p|].
  pose proof (be_val_4_range p Hlp).
  destruct (Z.ltb_spec (len rest) (be_val p)) as [Hr|Hr]; [right; by exists p, rest|].
  destruct (split_len rest (be_val p)) as (body & rest' & -> & Hb); [lia|].
  rewrite <- Hb, to_nat_len, take_app_length, drop_app_length. exists p. split; [done|]. split; [done|]. lia.
Qed.

(** A body of [2 ^ 32] bytes or more is announced with its length modulo
    [2 ^ 32]. *)
Lemma write_frame_truncates {V} (to_vec : V -> outcome str bytes) (v : V) (body w : bytes) :
  to_vec v = Ok body ->
  write_frame to_vec v w = (Ok tt, w ++ be_bytes 4 (len body mod 2 ^ 32) ++ body).
Proof.
  intros Hv. unfold write_frame, mbind, stateM_bind, pure. rewrite Hv. cbn [map_err].
  cbn. by rewrite <- !app_assoc.
Qed.

(** ** Witnesses *)

Lemma frame_roundtrip_witness :
  exists frame, write_frame (fun b : bytes => Ok b) (bs "{}") [] = (Ok tt, frame) /\
    read_frame (frame ++ bs "x") = (Ok (bs "{}"), bs "x").
Proof.
  destruct (frame_roundtrip (fun b : bytes => Ok b) (bs "{}") (bs "{}") [] (bs "x") eq_refl
    ltac:(vm_compute; discriminate)) as (frame & first & tail & H1 & H2 & _).
  exists frame. split; [exact H1|exact H2].
Defined.
