(* ===== verification/Catalog.v ===== *)
(** * The catalog (crates/forge-store/src/meta.rs): tables and ref names

    The rows of every table of [SCHEMA], the statements the operations run on
    them, and the grammar of ref names.  A table is a finite map from its
    primary key, [reflog] the list of its rows by increasing id.  A statement
    is what its SQL text says on those tables: an [INSERT] whose key exists, or
    whose row fails a [CHECK], is a constraint violation, which [map_sql] turns
    into [Invalid].  The storage engine under the statements is not modelled:
    a statement does not fail for another reason here (Group.v has the batches
    that fail). *)

From S2P Require Import Prelude RustStd Types Overlay Namespace.

(** ** Rows *)

Record RefCols := mkRefCols {
  rc_oid : ObjectId;
  rc_kind : str;
  rc_protected : bool;
  rc_sealed : bool;
  rc_updated_ms : Z
}.

Record LogRow := mkLogRow {
  l_name : str;
  l_old : option ObjectId;
  l_new : ObjectId;
  l_agent : str;
  l_reason : str;
  l_ts_ms : Z
}.

Record NsCols := mkNsCols {
  ns_agent : str;
  ns_created_ms : Z;
  ns_pinned : option ObjectId;
  ns_live_ref : option str
}.

Record MountCols := mkMountCols {
  mc_spec : str;
  mc_mode : str;
  mc_base : option ObjectId
}.

Record SealCols := mkSealCols {
  sl_snap : ObjectId;
  sl_commit : ObjectId;
  sl_tree : ObjectId;
  sl_ts_ms : Z
}.

Record LandmarkCols := mkLandmarkCols { lm_kind : str; lm_reason : str; lm_ts_ms : Z }.

Record IntroCols := mkIntroCols { in_commit : ObjectId; in_agent : str; in_ts_ms : Z }.

#[export] Instance RefCols_eq_dec : EqDecision RefCols.
Proof. solve_decision. Defined.
#[export] Instance LogRow_eq_dec : EqDecision LogRow.
Proof. solve_decision. Defined.

(** Keys of [mounts] are (ns_id, path), of [observations] and [overlay]
    (ns_id, mount, path). *)
Record Catalog := mkCatalog {
  refs : gmap str RefCols;
  reflog_rows : list LogRow;
  namespaces : gmap str NsCols;
  observation_rows : gmap (str * str * str) (str * option ObjectId);
  mounts : gmap (str * str) MountCols;
  overlay_rows : gmap (str * str * str) (option ObjectId * bool);
  seals : gmap str SealCols;
  landmarks : gmap ObjectId LandmarkCols;
  intros_tab : gmap ObjectId IntroCols
}.

Definition empty_catalog : Catalog := mkCatalog ∅ [] ∅ ∅ ∅ ∅ ∅ ∅ ∅.

Definition with_refs f (c : Catalog) := mkCatalog (f (refs c)) (reflog_rows c) (namespaces c)
  (observation_rows c) (mounts c) (overlay_rows c) (seals c) (landmarks c) (intros_tab c).
Definition with_reflog f (c : Catalog) := mkCatalog (refs c) (f (reflog_rows c)) (namespaces c)
  (observation_rows c) (mounts c) (overlay_rows c) (seals c) (landmarks c) (intros_tab c).
Definition with_namespaces f (c : Catalog) := mkCatalog (refs c) (reflog_rows c) (f (namespaces c))
  (observation_rows c) (mounts c) (overlay_rows c) (seals c) (landmarks c) (intros_tab c).
Definition with_observations f (c : Catalog) := mkCatalog (refs c) (reflog_rows c) (namespaces c)
  (f (observation_rows c)) (mounts c) (overlay_rows c) (seals c) (landmarks c) (intros_tab c).
Definition with_mounts f (c : Catalog) := mkCatalog (refs c) (reflog_rows c) (namespaces c)
  (observation_rows c) (f (mounts c)) (overlay_rows c) (seals c) (landmarks c) (intros_tab c).
Definition with_overlay f (c : Catalog) := mkCatalog (refs c) (reflog_rows c) (namespaces c)
  (observation_rows c) (mounts c) (f (overlay_rows c)) (seals c) (landmarks c) (intros_tab c).
Definition with_seals f (c : Catalog) := mkCatalog (refs c) (reflog_rows c) (namespaces c)
  (observation_rows c) (mounts c) (overlay_rows c) (f (seals c)) (landmarks c) (intros_tab c).
Definition with_landmarks f (c : Catalog) := mkCatalog (refs c) (reflog_rows c) (namespaces c)
  (observation_rows c) (mounts c) (overlay_rows c) (seals c) (f (landmarks c)) (intros_tab c).
Definition with_intros f (c : Catalog) := mkCatalog (refs c) (reflog_rows c) (namespaces c)
  (observation_rows c) (mounts c) (overlay_rows c) (seals c) (landmarks c) (f (intros_tab c)).

(** ** Statements *)

Abbreviation db := (stateM Error Catalog).

Definition get_tables : db Catalog := read_state.
Definition change (f : Catalog -> Catalog) : db unit := fun c => (Ok tt, f c).

(** [if c { return Err(e) }]. *)
Definition refuse_if (c : bool) (e : Error) : db unit := if c then throw e else mret tt.

Definition constraint_failed {A} (what : str) : db A := throw (Invalid (bs "UNIQUE constraint failed: " ++ what)).

(** [CHECK(kind IN ('commit','tree','conflict','snapshot'))]. *)
Definition ref_kind_check (kind : str) : bool :=
  bytes_eqb kind (bs "commit") || bytes_eqb kind (bs "tree") || bytes_eqb kind (bs "conflict")
  || bytes_eqb kind (bs "snapshot").

Definition select_ref (name : str) : db (option RefCols) := c ← get_tables; mret (refs c !! name).

Definition refs_insert (name : str) (row : RefCols) : db unit :=
  c ← get_tables;
  match refs c !! name with
  | Some _ => constraint_failed (bs "refs.name")
  | None =>
      if ref_kind_check (rc_kind row) then change (with_refs (insert name row))
      else throw (Invalid (bs "CHECK constraint failed: kind"))
  end.

(** [UPDATE refs SET .. WHERE name=?1 AND ..]: the number of rows changed. *)
Definition refs_update (name : str) (where_ : RefCols -> bool) (set : RefCols -> RefCols) : db Z :=
  c ← get_tables;
  match refs c !! name with
  | Some r => if where_ r then _ ← change (with_refs (insert name (set r))); mret 1 else mret 0
  | None => mret 0
  end.

Definition refs_delete (name : str) : db Z :=
  c ← get_tables;
  match refs c !! name with
  | Some _ => _ ← change (with_refs (delete name)); mret 1
  | None => mret 0
  end.

Definition reflog_insert (row : LogRow) : db unit := change (with_reflog (fun l => l ++ [row])).

(** [SELECT .. FROM reflog WHERE name=?1 ORDER BY id DESC]. *)
Definition log_of (name : str) (log : list LogRow) : list LogRow :=
  filter (fun r => l_name r = name) log.
Definition last_log (name : str) (log : list LogRow) : option LogRow := last (log_of name log).

Definition namespaces_insert (id : str) (row : NsCols) : db unit :=
  c ← get_tables;
  match namespaces c !! id with
  | Some _ => constraint_failed (bs "namespaces.id")
  | None => change (with_namespaces (insert id row))
  end.

(** [UPDATE namespaces SET pinned_oid=?1 WHERE id=?2]. *)
Definition namespaces_pin (id : str) (oid : ObjectId) : db Z :=
  c ← get_tables;
  match namespaces c !! id with
  | Some r =>
      _ ← change (with_namespaces (insert id
            (mkNsCols (ns_agent r) (ns_created_ms r) (Some oid) (ns_live_ref r)))); mret 1
  | None => mret 0
  end.

(** [CHECK(mode IN ('ro','rw'))]. *)
Definition mode_check (mode : str) : bool := bytes_eqb mode (bs "ro") || bytes_eqb mode (bs "rw").

Definition mounts_insert (ns path : str) (row : MountCols) : db unit :=
  c ← get_tables;
  match mounts c !! (ns, path) with
  | Some _ => constraint_failed (bs "mounts.ns_id, mounts.path")
  | None =>
      if mode_check (mc_mode row) then change (with_mounts (insert (ns, path) row))
      else throw (Invalid (bs "CHECK constraint failed: mode"))
  end.

(** [INSERT OR REPLACE INTO mounts]: a failed [CHECK] still refuses. *)
Definition mounts_replace (ns path : str) (row : MountCols) : db unit :=
  if mode_check (mc_mode row) then change (with_mounts (insert (ns, path) row))
  else throw (Invalid (bs "CHECK constraint failed: mode")).

Definition mounts_update (ns path : str) (set : MountCols -> MountCols) : db Z :=
  c ← get_tables;
  match mounts c !! (ns, path) with
  | Some r => _ ← change (with_mounts (insert (ns, path) (set r))); mret 1
  | None => mret 0
  end.

(** [DELETE FROM overlay/observations WHERE ns_id=?1 AND mount=?2], and the
    same for a whole name space. *)
Definition of_mount (ns mount : str) (k : str * str * str) : bool :=
  bytes_eqb k.1.1 ns && bytes_eqb k.1.2 mount.
Definition of_ns (ns : str) (k : str * str * str) : bool := bytes_eqb k.1.1 ns.

Definition delete_where {K A} `{Countable K} (p : K -> bool) (m : gmap K A) : gmap K A :=
  filter (fun kv => Is_true (negb (p kv.1))) m.

Definition seals_insert (tag : str) (row : SealCols) : db unit :=
  c ← get_tables;
  match seals c !! tag with
  | Some _ => constraint_failed (bs "seals.tag")
  | None =>
      if bool_decide (map_Exists (fun _ r => sl_snap r = sl_snap row) (seals c))
      then constraint_failed (bs "seals.snap_oid")
      else change (with_seals (insert tag row))
  end.

(** [INSERT OR IGNORE]: the row that is there stays. *)
Definition insert_or_ignore {K A} `{Countable K} (k : K) (x : A) (m : gmap K A) : gmap K A :=
  match m !! k with Some _ => m | None => <[k := x]> m end.

(** ** Ref names *)

Definition sanitize_char (c : Z) : byte :=
  if is_ascii_alphanumeric c || (c =? 45) || (c =? 95) || (c =? 46) then u8 c else "_"%byte.

Definition sanitize_agent (s : str) : str :=
  let t := sanitize_char <$> chars s in
  if is_nil t then bs "anon" else t.

Definition validate_inbox_task (task : str) : Result str :=
  _ ← reject_if (is_nil task || (64 <? len task)) (Invalid (bs "invalid inbox task {task:?}"));
  _ ← reject_if (negb (bytes_eqb (sanitize_agent task) task) || bytes_eqb task (bs "anon"))
        (Invalid (bs "invalid inbox task {task:?}"));
  Ok task.

Definition bad_ref_part (part : str) : bool :=
  is_nil part || bytes_eqb part (bs ".") || bytes_eqb part (bs "..").

Definition bad_ref_char (c : Z) : bool := is_control c || (c =? 92) || (c =? 58).

Definition validate_ref_name (name : str) : Result unit :=
  let bad := Invalid (bs "invalid ref name {name:?}") in
  _ ← reject_if (is_nil name || (512 <? len name) || starts_with name (bs "/") || ends_with name (bs "/")) bad;
  _ ← reject_if (existsb bad_ref_char (chars name)) bad;
  reject_if (existsb bad_ref_part (split_byte "/"%byte name)) bad.

(** The check on [inbox/<agent>/<task>]. *)
Definition inbox_shape_bad (rest : str) : bool :=
  let parts := split_byte "/"%byte rest in
  let agent := nth 0 parts [] in
  let id := nth 1 parts [] in
  (2 <? len parts) || is_nil agent || negb (bytes_eqb (sanitize_agent agent) agent)
  || negb (is_ok (validate_inbox_task id)).

Definition expected_kind (name : str) : option str :=
  if bytes_eqb name (bs "main") || starts_with name (bs "heads/") then Some (bs "commit")
  else if starts_with name (bs "forks/inbox/") then Some (bs "snapshot")
  else if starts_with name (bs "forks/") then Some (bs "commit")
  else if starts_with name (bs "conflicts/") then Some (bs "conflict")
  else if starts_with name (bs "resolutions/") then Some (bs "commit")
  else if starts_with name (bs "tags/") || starts_with name (bs "inbox/") then Some (bs "snapshot")
  else None.

Definition validate_ref_kind (name kind : str) : Result unit :=
  _ ← validate_ref_name name;
  _ ← match strip_prefix name (bs "inbox/") with
      | Some rest => reject_if (inbox_shape_bad rest) (Invalid (bs "invalid inbox ref {name:?}"))
      | None => Ok tt
      end;
  match expected_kind name with
  | Some expected =>
      reject_if (negb (bytes_eqb kind expected)) (Invalid (bs "ref {name} requires kind {expected}, got {kind}"))
  | None => Ok tt
  end.

Definition SESSION_FORK_SEGMENT : str := bs "forks/".
Definition ABANDONABLE_PREFIX : str := bs "forks/".

(** [ulid] stands for the identifier [ulid::Ulid::new()] draws. *)
Definition session_fork_name (ref_name fork_agent ulid : str) : str :=
  bs "heads/agents/" ++ sanitize_agent fork_agent ++ bs "/" ++ SESSION_FORK_SEGMENT ++ ref_name ++ bs "/" ++ ulid.

Definition cas_fork_name (name fork_agent ulid : str) : str :=
  bs "forks/" ++ name ++ bs "/" ++ sanitize_agent fork_agent ++ bs "/" ++ ulid.

Definition is_fork_ref (name : str) : bool :=
  if starts_with name ABANDONABLE_PREFIX then true
  else match strip_prefix name (bs "heads/agents/") with
       | None => false
       | Some rest =>
           match split_once "/"%byte rest with
           | None => false
           | Some (_, tail) => starts_with tail SESSION_FORK_SEGMENT && (len SESSION_FORK_SEGMENT <? len tail)
           end
       end.

Definition REFLOG_ABANDON : str := bs "abandon".

Definition ref_retired (name : str) : db bool :=
  c ← get_tables;
  mret (match last_log name (reflog_rows c) with
        | Some r => bytes_eqb (l_reason r) REFLOG_ABANDON
        | None => false
        end).

Definition deny_retired (name : str) : db unit :=
  gone ← ref_retired name;
  refuse_if gone (Invalid (bs "ref {name} was abandoned; the name is retired and cannot be recreated")).

Definition ref_exists (name : str) : db bool :=
  r ← select_ref name; mret (match r with Some _ => true | None => false end).

(** [UPDATE mounts SET base_oid=?1 WHERE ns_id=?2 AND path=?3]; a missing row
    is corruption. *)
Definition repin_mount_tx (ns_id mount_path : str) (base : ObjectId) : db unit :=
  n ← mounts_update ns_id mount_path (fun r => mkMountCols (mc_spec r) (mc_mode r) (Some base));
  refuse_if (negb (n =? 1)) (Corrupt (bs "missing checkin mount {ns_id}:{mount_path}")).

Definition insert_intro (commit : ObjectId) (agent_id : str) (ts : Z) (oid : ObjectId) : db unit :=
  change (with_intros (insert_or_ignore oid (mkIntroCols commit agent_id ts))).

Fixpoint insert_intros_tx (oids : list ObjectId) (commit : ObjectId) (agent_id : str) (ts : Z) : db unit :=
  match oids with
  | [] => mret tt
  | oid :: oids' => _ ← insert_intro commit agent_id ts oid; insert_intros_tx oids' commit agent_id ts
  end.
