(* ===== verification/Refs.v ===== *)
(** * Operations on refs (crates/forge-store/src/meta.rs)

    Creating, moving, forking, retiring and sealing refs, each with the
    statements of its transaction in the order of the code.  [ts] is the
    operation's [now_ms()], [ulid] the identifier [ulid::Ulid::new()] draws for
    it.  The counters of [MetaCounters] are left out: nothing reads them back. *)

From S2P Require Import Prelude RustStd Types Overlay Namespace Catalog.

(** ** Results *)

Record RetiredRef := mkRetiredRef {
  rr_name : str;
  rr_oid : ObjectId;
  rr_kind : str;
  rr_agent_id : str;
  rr_ts_ms : Z
}.

Record PublishedResolution := mkPublishedResolution {
  pr_into : str;
  pr_commit : ObjectId;
  pr_resolution_ref : str;
  pr_retired_conflict : str;
  pr_retired_conflict_oid : ObjectId
}.

(** [run_grouped(job)] answers once the job ran inside a committed transaction,
    under a savepoint that its error rolls back (Group.v has the batch). *)
Definition run_grouped {A} (job : db A) : db A := transaction job.

(** ** Reads *)

Definition ref_row (name : str) (r : RefCols) : RefRow :=
  mkRefRow name (rc_oid r) (rc_kind r) (rc_protected r) (rc_sealed r).

Definition get_ref (name : str) : db (option RefRow) :=
  r ← select_ref name; mret (ref_row name <$> r).

(** [ORDER BY name]. *)
Definition list_refs : db (list RefRow) :=
  c ← get_tables; mret ((fun kv => ref_row kv.1 kv.2) <$> btree_list (refs c)).

(** [LIMIT ?2] with [limit as i64]: a negative limit is no limit. *)
Definition sql_limit {A} (limit : Z) (l : list A) : list A :=
  if 2 ^ 63 <=? limit then l else take (Z.to_nat limit) l.

Definition reflog (name : str) (limit : Z) : db (list (option ObjectId * ObjectId * str * str)) :=
  c ← get_tables;
  mret ((fun r => (l_old r, l_new r, l_agent r, l_reason r))
          <$> sql_limit limit (reverse (log_of name (reflog_rows c)))).

Definition get_seal (tag : str) : db (option (ObjectId * ObjectId * ObjectId)) :=
  c ← get_tables; mret ((fun s => (sl_snap s, sl_commit s, sl_tree s)) <$> seals c !! tag).

Definition list_seals : db (list (str * ObjectId * ObjectId * ObjectId)) :=
  c ← get_tables;
  mret ((fun kv => (kv.1, sl_snap kv.2, sl_commit kv.2, sl_tree kv.2)) <$> btree_list (seals c)).

(** [ORDER BY oid]: the order of the 32 bytes. *)
Definition list_landmarks : db (list (ObjectId * str)) :=
  c ← get_tables;
  mret ((fun kv => (kv.1, lm_kind kv.2))
          <$> sort_by_key (fun kv => arr_bytes kv.1) (map_to_list (landmarks c))).

Definition intro_get (oid : ObjectId) : db (option str) :=
  c ← get_tables; mret (in_agent <$> intros_tab c !! oid).

(** ** Creation *)

Definition insert_ref (ts : Z) (name : str) (oid : ObjectId) (kind : str) (protected sealed : bool)
    (agent_id reason : str) : db unit :=
  _ ← pure (validate_ref_kind name kind);
  _ ← refuse_if (starts_with name (bs "tags/")) (Denied (bs "tags may only be created by seal"));
  transaction (
    found ← ref_exists name;
    _ ← refuse_if found (Invalid (bs "ref {name} already exists"));
    _ ← deny_retired name;
    _ ← refs_insert name (mkRefCols oid kind protected sealed ts);
    reflog_insert (mkLogRow name None oid agent_id reason ts)).

Definition insert_ref_with_intros (ts : Z) (name : str) (oid : ObjectId) (kind : str) (protected sealed : bool)
    (agent_id reason : str) (intro_oids : list ObjectId) : db unit :=
  _ ← pure (validate_ref_kind name kind);
  _ ← refuse_if (starts_with name (bs "tags/")) (Denied (bs "tags may only be created by seal"));
  transaction (
    _ ← deny_retired name;
    _ ← refs_insert name (mkRefCols oid kind protected sealed ts);
    _ ← reflog_insert (mkLogRow name None oid agent_id reason ts);
    insert_intros_tx intro_oids oid agent_id ts).

(** ** Compare and swap *)

Definition move_row (new : ObjectId) (ts : Z) (r : RefCols) : RefCols :=
  mkRefCols new (rc_kind r) (rc_protected r) (rc_sealed r) ts.

(** The two spellings of the update: [kind=?2] and [kind='commit'] write the
    kind the row was just checked to have. *)
Definition set_oid_kind (new : ObjectId) (kind : str) (ts : Z) (r : RefCols) : RefCols :=
  mkRefCols new kind (rc_protected r) (rc_sealed r) ts.

(** The transaction of [cas_ref] and [cas_ref_with_intros], which differ in
    the rows of [object_intro] they add before the commit. *)
Definition cas_tx (intros : db unit) (ts : Z) (ulid name : str) (expected new : ObjectId)
    (kind agent_id fork_agent : str) (allow_protected : bool) : db CasResult :=
  row ← select_ref name;
  match row with
  | None =>
      _ ← deny_retired name;
      _ ← refs_insert name (mkRefCols new kind false false ts);
      _ ← reflog_insert (mkLogRow name None new agent_id (bs "cas") ts);
      _ ← intros;
      mret (Updated name new)
  | Some r =>
      _ ← refuse_if (negb (bytes_eqb (rc_kind r) kind))
            (Invalid (bs "ref {name} kind is immutable: {current_kind} != {kind}"));
      let current := rc_oid r in
      _ ← refuse_if (rc_sealed r) (Sealed name);
      _ ← refuse_if (rc_protected r && negb allow_protected)
            (Denied (bs "ref {name} is protected; only merge/seal may advance it"));
      n ← refs_update name (fun r => bool_decide (rc_oid r = expected) && negb (rc_sealed r))
            (set_oid_kind new kind ts);
      if n =? 1 then
        _ ← reflog_insert (mkLogRow name (Some expected) new agent_id (bs "cas") ts);
        _ ← intros;
        mret (Updated name new)
      else
        let fork := cas_fork_name name fork_agent ulid in
        _ ← pure (validate_ref_kind fork kind);
        _ ← refs_insert fork (mkRefCols new kind false false ts);
        _ ← reflog_insert (mkLogRow fork (Some current) new agent_id (bs "fork") ts);
        _ ← intros;
        mret (Forked name fork new current)
  end.

Definition cas_ref (ts : Z) (ulid name : str) (expected new : ObjectId) (kind agent_id fork_agent : str)
    (allow_protected : bool) : db CasResult :=
  _ ← pure (validate_ref_kind name kind);
  _ ← refuse_if (starts_with name (bs "tags/")) (Denied (bs "sealed tags cannot be updated through CAS"));
  transaction (cas_tx (mret tt) ts ulid name expected new kind agent_id fork_agent allow_protected).

Definition cas_ref_with_intros (ts : Z) (ulid name : str) (expected new : ObjectId)
    (kind agent_id fork_agent : str) (allow_protected : bool) (intro_oids : list ObjectId) : db CasResult :=
  _ ← pure (validate_ref_kind name kind);
  _ ← refuse_if (starts_with name (bs "tags/")) (Denied (bs "sealed tags cannot be updated through CAS"));
  transaction (cas_tx (insert_intros_tx intro_oids new agent_id ts)
    ts ulid name expected new kind agent_id fork_agent allow_protected).

(** [UPDATE namespaces SET pinned_oid=?1 WHERE id=?2], for the root mount. *)
Definition pin_root (ns_id mount_path : str) (oid : ObjectId) : db unit :=
  if bytes_eqb mount_path (bs "/") then
    n ← namespaces_pin ns_id oid;
    refuse_if (negb (n =? 1)) (Corrupt (bs "missing namespace {ns_id}"))
  else mret tt.

(** A session's checkin: moves the ref or forks it, and ends the mount's epoch. *)
Definition session_cas (ts : Z) (ulid name : str) (expected new : ObjectId)
    (agent_id fork_agent ns_id mount_path : str) (current : ObjectId) : db CasResult :=
  if bool_decide (current = expected) then
    n ← refs_update name
          (fun r => bool_decide (rc_oid r = expected) && bytes_eqb (rc_kind r) (bs "commit")
                    && negb (rc_sealed r) && negb (rc_protected r))
          (move_row new ts);
    _ ← refuse_if (negb (n =? 1)) (Busy (bs "ref {name} changed during checkin"));
    _ ← reflog_insert (mkLogRow name (Some expected) new agent_id (bs "cas") ts);
    mret (Updated name new)
  else
    let fork := session_fork_name name fork_agent ulid in
    _ ← pure (validate_ref_kind fork (bs "commit"));
    _ ← refs_insert fork (mkRefCols new (bs "commit") false false ts);
    _ ← reflog_insert (mkLogRow fork (Some current) new agent_id (bs "fork") ts);
    let root_spec := bs "ref:" ++ fork in
    n ← mounts_update ns_id mount_path (fun m => mkMountCols root_spec (mc_mode m) (mc_base m));
    _ ← refuse_if (negb (n =? 1)) (Corrupt (bs "missing checkin mount {ns_id}:{mount_path}"));
    mret (Forked name fork new current).

(** The rows a completed checkin of one mount removes or moves: its overlay,
    its pin, the session's pin when it is the root, its observations. *)
Definition end_epoch (ns_id mount_path : str) (base : ObjectId) : db unit :=
  _ ← change (with_overlay (delete_where (of_mount ns_id mount_path)));
  _ ← repin_mount_tx ns_id mount_path base;
  _ ← pin_root ns_id mount_path base;
  change (with_observations (delete_where (of_mount ns_id mount_path))).

Definition cas_ref_session (ts : Z) (ulid name : str) (expected new : ObjectId)
    (agent_id fork_agent ns_id mount_path : str) (intro_oids : list ObjectId) : db CasResult :=
  _ ← pure (validate_ref_kind name (bs "commit"));
  run_grouped (
    row ← select_ref name;
    r ← pure (ok_or row (NotFound (bs "ref {name}")));
    _ ← refuse_if (negb (bytes_eqb (rc_kind r) (bs "commit"))) (Invalid (bs "ref {name} is {kind}, not commit"));
    _ ← refuse_if (rc_sealed r) (Sealed name);
    _ ← refuse_if (rc_protected r) (Denied (bs "ref {name} is protected; session checkin cannot advance it"));
    result ← session_cas ts ulid name expected new agent_id fork_agent ns_id mount_path (rc_oid r);
    _ ← end_epoch ns_id mount_path new;
    _ ← insert_intros_tx intro_oids new agent_id ts;
    mret result).

Definition complete_noop_session (ns_id mount_path : str) (pinned : ObjectId) : db unit :=
  transaction (end_epoch ns_id mount_path pinned).

(** ** Retirement *)

(** [SELECT COUNT( * ) FROM namespaces WHERE live_ref=?1] is not 0. *)
Definition live_somewhere (name : str) (c : Catalog) : bool :=
  bool_decide (map_Exists (fun _ r => ns_live_ref r = Some name) (namespaces c)).

(** [SELECT COUNT( * ) FROM mounts WHERE spec=?1 OR spec=?2] is not 0. *)
Definition mounted_somewhere (name : str) (c : Catalog) : bool :=
  bool_decide (map_Exists (fun _ r => mc_spec r = name \/ mc_spec r = bs "ref:" ++ name) (mounts c)).

Definition abandon_ref (ts : Z) (name agent_id : str) : db RetiredRef :=
  _ ← pure (validate_ref_name name);
  _ ← refuse_if (negb (is_fork_ref name)) (Invalid (bs "only fork refs may be abandoned ({ABANDONABLE_PREFIX}* or heads/agents/<agent>/{SESSION_FORK_SEGMENT}*), not {name}"));
  transaction (
    row ← select_ref name;
    match row with
    | None =>
        gone ← ref_retired name;
        _ ← refuse_if gone (Invalid (bs "ref {name} is already abandoned"));
        throw (NotFound (bs "ref {name}"))
    | Some r =>
        _ ← refuse_if (rc_sealed r) (Sealed name);
        _ ← refuse_if (rc_protected r) (Denied (bs "ref {name} is protected"));
        let oid := rc_oid r in
        c ← get_tables;
        _ ← refuse_if (live_somewhere name c) (Invalid (bs "ref {name} is the live head of an open session"));
        _ ← refuse_if (mounted_somewhere name c) (Invalid (bs "ref {name} is still mounted by an open session"));
        _ ← reflog_insert (mkLogRow name (Some oid) oid agent_id REFLOG_ABANDON ts);
        removed ← refs_delete name;
        _ ← refuse_if (negb (removed =? 1)) (Internal (bs "abandon removed {removed} rows for ref {name}"));
        mret (mkRetiredRef name oid (rc_kind r) agent_id ts)
    end).

(** ** Publishing a resolution *)

Definition resolution_names (into conflict_ref resolution_ref : str) : Result unit :=
  _ ← validate_ref_kind into (bs "commit");
  _ ← validate_ref_kind resolution_ref (bs "commit");
  _ ← validate_ref_kind conflict_ref (bs "conflict");
  _ ← reject_if (negb (starts_with conflict_ref (bs "conflicts/")))
        (Invalid (bs "only conflict refs may be retired by resolve, not {conflict_ref}"));
  _ ← reject_if (negb (starts_with resolution_ref (bs "resolutions/")))
        (Invalid (bs "resolution binding must live under resolutions/, not {resolution_ref}"));
  reject_if (starts_with into (bs "tags/") || starts_with resolution_ref (bs "tags/"))
    (Denied (bs "sealed tags cannot be updated through resolve")).

Definition stale_ref (name : str) (expected found : ObjectId) : Error :=
  StaleObservation name (hex expected) (hex found).

Definition check_into (into : str) (expected : ObjectId) (allow_protected : bool) : db unit :=
  row ← select_ref into;
  match row with
  | None => throw (NotFound (bs "ref {into}"))
  | Some r =>
      _ ← refuse_if (negb (bytes_eqb (rc_kind r) (bs "commit")))
            (Invalid (bs "ref {into} kind is immutable: {into_kind} != commit"));
      _ ← refuse_if (rc_sealed r) (Sealed into);
      _ ← refuse_if (rc_protected r && negb allow_protected)
            (Denied (bs "ref {into} is protected; only merge/seal/resolve may advance it"));
      refuse_if (negb (bool_decide (rc_oid r = expected))) (stale_ref into expected (rc_oid r))
  end.

Definition check_conflict (conflict_ref : str) (conflict_oid : ObjectId) : db unit :=
  row ← select_ref conflict_ref;
  match row with
  | None =>
      gone ← ref_retired conflict_ref;
      _ ← refuse_if gone (Invalid (bs "conflict ref {conflict_ref} is already retired"));
      throw (NotFound (bs "ref {conflict_ref}"))
  | Some r =>
      _ ← refuse_if (negb (bytes_eqb (rc_kind r) (bs "conflict")))
            (Invalid (bs "ref {conflict_ref} is {conflict_kind}, not conflict"));
      _ ← refuse_if (rc_sealed r) (Sealed conflict_ref);
      _ ← refuse_if (rc_protected r) (Denied (bs "ref {conflict_ref} is protected"));
      _ ← refuse_if (negb (bool_decide (rc_oid r = conflict_oid)))
            (Invalid (bs "conflict ref {conflict_ref} no longer names {conflict_oid}"));
      c ← get_tables;
      _ ← refuse_if (live_somewhere conflict_ref c) (Invalid (bs "ref {conflict_ref} is the live head of an open session"));
      refuse_if (mounted_somewhere conflict_ref c) (Invalid (bs "ref {conflict_ref} is still mounted by an open session"))
  end.

Definition advance_into (ts : Z) (into : str) (expected commit : ObjectId) (agent_id : str) : db unit :=
  n ← refs_update into (fun r => bool_decide (rc_oid r = expected) && negb (rc_sealed r))
        (set_oid_kind commit (bs "commit") ts);
  if negb (n =? 1) then
    row ← select_ref into;
    found ← pure (ok_or (rc_oid <$> row) (NotFound (bs "ref {into}")));
    throw (stale_ref into expected found)
  else reflog_insert (mkLogRow into (Some expected) commit agent_id (bs "resolve") ts).

Definition publish_resolution (ts : Z) (into : str) (expected commit : ObjectId) (conflict_ref : str)
    (conflict_oid : ObjectId) (resolution_ref agent_id : str) (allow_protected : bool)
    (intro_oids : list ObjectId) : db PublishedResolution :=
  _ ← pure (resolution_names into conflict_ref resolution_ref);
  transaction (
    _ ← check_into into expected allow_protected;
    _ ← check_conflict conflict_ref conflict_oid;
    found ← ref_exists resolution_ref;
    _ ← refuse_if found (Invalid (bs "ref {resolution_ref} already exists"));
    _ ← deny_retired resolution_ref;
    _ ← advance_into ts into expected commit agent_id;
    _ ← refs_insert resolution_ref (mkRefCols commit (bs "commit") false false ts);
    _ ← reflog_insert (mkLogRow resolution_ref None commit agent_id (bs "resolve") ts);
    _ ← reflog_insert (mkLogRow conflict_ref (Some conflict_oid) conflict_oid agent_id REFLOG_ABANDON ts);
    removed ← refs_delete conflict_ref;
    _ ← refuse_if (negb (removed =? 1)) (Internal (bs "resolve removed {removed} rows for conflict ref {conflict_ref}"));
    _ ← insert_intros_tx intro_oids commit agent_id ts;
    mret (mkPublishedResolution into commit resolution_ref conflict_ref conflict_oid)).

(** ** Seals, landmarks, provenance *)

Definition landmark_row (ts : Z) (oid : ObjectId) (kind reason : str) (c : Catalog) : Catalog :=
  with_landmarks (insert_or_ignore oid (mkLandmarkCols kind reason ts)) c.

Definition landmark (ts : Z) (oid : ObjectId) (kind reason : str) : db unit :=
  change (landmark_row ts oid kind reason).

Definition commit_seal (ts : Z) (tag : str) (snap commit tree : ObjectId) (agent_id : str)
    (expect_ref : option (str * ObjectId)) : db unit :=
  transaction (
    let tag_ref := bs "tags/" ++ tag in
    _ ← pure (validate_ref_kind tag_ref (bs "snapshot"));
    found ← ref_exists tag_ref;
    _ ← refuse_if found (Sealed tag_ref);
    _ ← match expect_ref with
        | None => mret tt
        | Some (name, expected) =>
            row ← select_ref name;
            r ← pure (ok_or row (NotFound (bs "ref {name}")));
            refuse_if (negb (bool_decide (rc_oid r = expected))) (stale_ref name expected (rc_oid r))
        end;
    _ ← refs_insert tag_ref (mkRefCols snap (bs "snapshot") true true ts);
    _ ← reflog_insert (mkLogRow tag_ref None snap agent_id (bs "seal") ts);
    _ ← seals_insert tag (mkSealCols snap commit tree ts);
    _ ← landmark ts snap (bs "snapshot") (bs "seal");
    landmark ts commit (bs "commit") (bs "seal")).

Definition insert_seal (ts : Z) (tag : str) (snap commit tree : ObjectId) : db unit :=
  commit_seal ts tag snap commit tree (bs "seal") None.

Definition intro_insert (ts : Z) (oid commit : ObjectId) (agent_id : str) : db unit :=
  insert_intro commit agent_id ts oid.

Definition intro_insert_many (ts : Z) (oids : list ObjectId) (commit : ObjectId) (agent_id : str) : db unit :=
  transaction (insert_intros_tx oids commit agent_id ts).

(** Inside a sweep: the rows that name a swept object, and how many went. *)
Definition forget_object (oid : ObjectId) : db Z :=
  c ← get_tables;
  let kept := delete (M:=gmap ObjectId IntroCols) oid (intros_tab c) in
  let kept' := filter (fun kv => in_commit kv.2 <> oid) kept in
  _ ← change (with_intros (fun _ => kept'));
  mret (Z.of_nat (size (intros_tab c)) - Z.of_nat (size kept')).

(** [gc_sweep]: the body runs in one transaction; a read-only handle refuses. *)
Definition gc_sweep {A} (read_only : bool) (body : db A) : db A :=
  _ ← refuse_if read_only (Denied (bs "repository is open read-only; collection may not unlink objects"));
  transaction body.
