(* ===== verification/Sessions.v ===== *)
(** * Operations on sessions (crates/forge-store/src/meta.rs)

    Name spaces, mounts, observations and staged overlays: the session half of
    the catalog.  A read that has no [ORDER BY] lists its rows in the order of
    the map, which stands for the order the engine happens to use. *)

From S2P Require Import Prelude RustStd Types Overlay Namespace Catalog Refs.

(** ** Results *)

Record NsRow := mkNsRow {
  nr_id : str;
  nr_agent_id : str;
  nr_pinned_oid : option ObjectId;
  nr_live_ref : option str
}.

Inductive Observed := OBlob (id : ObjectId) | OTree (id : ObjectId) | OAbsent.

#[export] Instance Observed_eq_dec : EqDecision Observed.
Proof. solve_decision. Defined.

Definition Observed_kind (o : Observed) : str :=
  match o with OBlob _ => bs "blob" | OTree _ => bs "tree" | OAbsent => bs "absent" end.

Definition Observed_oid (o : Observed) : option ObjectId :=
  match o with OBlob id | OTree id => Some id | OAbsent => None end.

Definition Observed_describe (o : Observed) : str :=
  match o with
  | OBlob id => hex id
  | OTree id => bs "tree " ++ hex id
  | OAbsent => bs "absent"
  end.

Record ObservationRow := mkObservationRow { ob_mount : str; ob_path : str; ob_seen : Observed }.

Record AbandonedSession := mkAbandonedSession {
  as_ns_id : str;
  as_discarded_overlay : Z;
  as_removed_mounts : Z;
  as_removed_observations : Z
}.

(** ** Name spaces *)

Definition create_session (ts : Z) (id agent_id : str) (pinned : ObjectId) (live_ref : str)
    (mount_main : bool) : db unit :=
  _ ← pure (validate_ref_kind live_ref (bs "commit"));
  run_grouped (
    _ ← namespaces_insert id (mkNsCols agent_id ts (Some pinned) (Some live_ref));
    _ ← refs_insert live_ref (mkRefCols pinned (bs "commit") false false ts);
    _ ← reflog_insert (mkLogRow live_ref None pinned agent_id (bs "session") ts);
    let root_spec := bs "ref:" ++ live_ref in
    _ ← mounts_insert id (bs "/") (mkMountCols root_spec (bs "rw") (Some pinned));
    if mount_main then mounts_insert id (bs "/main") (mkMountCols (bs "ref:main") (bs "ro") None)
    else mret tt).

Definition ns_row (id : str) (r : NsCols) : NsRow := mkNsRow id (ns_agent r) (ns_pinned r) (ns_live_ref r).

Definition list_namespaces : db (list NsRow) :=
  c ← get_tables; mret ((fun kv => ns_row kv.1 kv.2) <$> btree_list (namespaces c)).

Definition insert_namespace (ts : Z) (id agent_id : str) (pinned : ObjectId) (live_ref : str) : db unit :=
  namespaces_insert id (mkNsCols agent_id ts (Some pinned) (Some live_ref)).

Definition get_namespace (id : str) : db NsRow :=
  c ← get_tables;
  r ← pure (ok_or (namespaces c !! id) (NotFound (bs "namespace {id}")));
  mret (ns_row id r).

Definition set_pin (ns_id : str) (oid : ObjectId) : db unit :=
  _ ← namespaces_pin ns_id oid; mret tt.

(** ** Observations *)

Definition observation_is_current (ns_id mount path kind : str) (oid : option ObjectId) : db bool :=
  c ← get_tables;
  mret (match observation_rows c !! (ns_id, mount, path) return bool with
        | Some (stored_kind, stored_oid) => bytes_eqb stored_kind kind && bool_decide (stored_oid = oid)
        | None => false
        end).

(** A read-only connection refuses the statement itself ([map_sql]). *)
Definition observe (read_only : bool) (ns_id mount path : str) (seen : Observed) : db unit :=
  let oid := Observed_oid seen in
  let kind := Observed_kind seen in
  current ← (if read_only then mret false else observation_is_current ns_id mount path kind oid : db bool);
  if (current : bool) then mret tt
  else run_grouped (
    _ ← refuse_if read_only (Denied (bs "repository is open read-only; this operation writes metadata: {text}"));
    change (with_observations (insert (ns_id, mount, path) (kind, oid)))).

Definition decode_observation (kind : str) (oid : option ObjectId) : Result Observed :=
  match oid with
  | Some oid =>
      if bytes_eqb kind (bs "blob") then Ok (OBlob oid)
      else if bytes_eqb kind (bs "tree") then Ok (OTree oid)
      else Err (Invalid (bs "observation {mount}:{path} has unusable kind {other}"))
  | None =>
      if bytes_eqb kind (bs "absent") then Ok OAbsent
      else Err (Invalid (bs "observation {mount}:{path} has unusable kind {other}"))
  end.

Definition read_observation (kv : (str * str * str) * (str * option ObjectId)) : Result ObservationRow :=
  let '((_, mount, path), (kind, oid)) := kv in
  seen ← decode_observation kind oid;
  Ok (mkObservationRow mount path seen).

Definition observations (ns_id : str) : db (list ObservationRow) :=
  c ← get_tables;
  pure (try_fold (fun out kv => row ← read_observation kv; Ok (out ++ [row])) []
    (filter (fun kv => kv.1.1.1 = ns_id) (map_to_list (observation_rows c)))).

Definition observations_clear (ns_id : str) : db unit :=
  change (with_observations (delete_where (of_ns ns_id))).

(** ** Mounts *)

Definition insert_mount (ns_id path spec mode : str) (base_oid : option ObjectId) : db unit :=
  mounts_replace ns_id path (mkMountCols spec mode base_oid).

Definition mount_row (path : str) (r : MountCols) : MountRow := mkMountRow path (mc_spec r) (mc_mode r) (mc_base r).

Definition list_mounts (ns_id : str) : db (list MountRow) :=
  c ← get_tables;
  mret ((fun kv => mount_row kv.1.2 kv.2) <$> filter (fun kv => kv.1.1 = ns_id) (map_to_list (mounts c))).

Definition get_mount (ns_id path : str) : db (option MountRow) :=
  c ← get_tables; mret (mount_row path <$> mounts c !! (ns_id, path)).

Definition update_mount_spec (ns_id path spec : str) : db unit :=
  _ ← mounts_update ns_id path (fun r => mkMountCols spec (mc_mode r) (mc_base r)); mret tt.

(** ** Overlays

    SQLite's [length] and [substr] count the characters of a TEXT value. *)

Definition sql_chars (s : str) : list bytes := default [] (utf8_chars s).
Definition sql_length (s : str) : Z := len (sql_chars s).
(** [substr(s, start, count)], [start] from 1. *)
Definition sql_substr (s : str) (start count : Z) : str :=
  concat (take (Z.to_nat count) (drop (Z.to_nat (start - 1)) (sql_chars s))).

(** [length(a) < length(p) AND substr(p,1,length(a))=a AND
    substr(p,length(a)+1,1)='/']: [p] lies strictly under [a]. *)
Definition path_under (a p : str) : bool :=
  (sql_length a <? sql_length p) && bytes_eqb (sql_substr p 1 (sql_length a)) a
  && bytes_eqb (sql_substr p (sql_length a + 1) 1) (bs "/").

(** [SELECT path FROM overlay WHERE ns_id=?1 AND mount=?2 AND .. ORDER BY path LIMIT 1]. *)
Definition first_path (ns_id mount : str) (where_ : str -> bool) (c : Catalog) : option str :=
  head (sort_by_key id
    (filter (fun p => Is_true (where_ p))
      ((fun kv => kv.1.2) <$> filter (fun kv => Is_true (of_mount ns_id mount kv.1)) (map_to_list (overlay_rows c))))).

Definition upsert_conflicts (path p : str) : bool :=
  negb (bytes_eqb p path) && (path_under p path || path_under path p).

Definition overlay_put (ns_id mount path : str) (blob_oid : option ObjectId) (exec : bool) (c : Catalog) : Catalog :=
  with_overlay (insert (ns_id, mount, path) (blob_oid, exec)) c.

Definition overlay_upsert (ns_id mount path : str) (blob_oid : option ObjectId) (exec : bool) : db unit :=
  run_grouped (
    c ← get_tables;
    match first_path ns_id mount (upsert_conflicts path) c with
    | Some _ => throw (Invalid (bs "overlay path conflict: {path} and {existing} cannot coexist"))
    | None => change (overlay_put ns_id mount path blob_oid exec)
    end).

(** [path=?3 OR ..]: the rows at or under an endpoint of a move. *)
Definition supersede (ns_id mount endpoint : str) : db unit :=
  change (with_overlay (delete_where (fun k =>
    of_mount ns_id mount k && (bytes_eqb k.2 endpoint || path_under endpoint k.2)))).

Definition refuse_ancestor (ns_id mount endpoint : str) : db unit :=
  c ← get_tables;
  match first_path ns_id mount (fun p => path_under p endpoint) c with
  | Some _ => throw (Invalid (bs "overlay path conflict: {endpoint} and {existing} cannot coexist"))
  | None => mret tt
  end.

Fixpoint stage_rows (ns_id mount : str) (dest : list (str * ObjectId * bool)) : db unit :=
  match dest with
  | [] => mret tt
  | (path, oid, exec) :: dest' =>
      _ ← change (overlay_put ns_id mount path (Some oid) exec);
      stage_rows ns_id mount dest'
  end.

Definition overlay_rename (ns_id mount from to : str) (dest : list (str * ObjectId * bool)) : db unit :=
  run_grouped (
    _ ← supersede ns_id mount from;
    _ ← supersede ns_id mount to;
    _ ← refuse_ancestor ns_id mount from;
    _ ← refuse_ancestor ns_id mount to;
    _ ← stage_rows ns_id mount dest;
    change (overlay_put ns_id mount from None false)).

Definition overlay_list (ns_id mount : str) : db (list OverlayRow) :=
  c ← get_tables;
  mret ((fun kv => mkOverlayRow kv.1.2 kv.2.1 kv.2.2)
          <$> filter (fun kv => Is_true (of_mount ns_id mount kv.1)) (map_to_list (overlay_rows c))).

(** [GROUP BY mount ORDER BY mount] with the row counts. *)
Definition overlay_mounts_outside (ns_id except : str) : db (list (str * Z)) :=
  c ← get_tables;
  let outside := filter (fun k => k.1.1 = ns_id /\ k.1.2 <> except) (map_to_list (overlay_rows c)).*1 in
  let names := remove_dups ((fun k => k.1.2) <$> outside) in
  mret ((fun m => (m, len (filter (fun k => k.1.2 = m) outside))) <$> sort_by_key id names).

Definition overlay_clear (ns_id mount : str) : db unit :=
  change (with_overlay (delete_where (of_mount ns_id mount))).

(** ** The end of a session *)

Definition count_ns {A} (ns_id : str) (m : gmap (str * str * str) A) : Z :=
  Z.of_nat (size (filter (fun kv => kv.1.1.1 = ns_id) m)).

Definition abandon_session (ns_id : str) (discard_staged : bool) : db AbandonedSession :=
  transaction (
    c ← get_tables;
    _ ← refuse_if (match namespaces c !! ns_id with Some _ => false | None => true end)
          (NotFound (bs "namespace {ns_id}"));
    let staged := count_ns ns_id (overlay_rows c) in
    _ ← refuse_if (negb (staged =? 0) && negb discard_staged)
          (Invalid (bs "session {ns_id} has {staged} staged overlay entries; check in first or abandon with the explicit discard flag"));
    let gone := Z.of_nat (size (filter (fun kv => kv.1.1 = ns_id) (mounts c))) in
    let seen := count_ns ns_id (observation_rows c) in
    _ ← change (with_mounts (delete_where (fun k => bytes_eqb k.1 ns_id)));
    _ ← change (with_observations (delete_where (of_ns ns_id)));
    _ ← change (with_overlay (delete_where (of_ns ns_id)));
    _ ← change (with_namespaces (delete ns_id));
    mret (mkAbandonedSession ns_id staged gone seen)).

(** ** Paths in an overlay *)

(** The condition of the statements is what it is meant to be. *)
Lemma path_under_spec a p :
  utf8_valid a = true -> utf8_valid p = true -> path_under a p = true <-> exists r, p = a ++ bs "/" ++ r.
Proof.
  unfold utf8_valid, path_under, sql_length, sql_substr, sql_chars.
  destruct (utf8_chars a) as [x|] eqn:Ea; [|done]. destruct (utf8_chars p) as [y|] eqn:Ep; [|done].
  intros _ _. cbn [default from_option id].
  rewrite !andb_true_iff, Z.ltb_lt, !bytes_eqb_true.
  replace (Z.to_nat (len x)) with (length x) by (unfold len; lia).
  replace (Z.to_nat (1 - 1)) with 0%nat by lia. replace (Z.to_nat (len x + 1 - 1)) with (length x) by (unfold len; lia).
  change (Z.to_nat 1) with 1%nat. rewrite drop_0. split.
  - intros ((_ & H1) & H2). exists (concat (drop 1 (drop (length x) y))).
    rewrite <- H1, <- H2. rewrite <- !concat_app. rewrite take_drop, take_drop. by rewrite (utf8_chars_concat _ _ Ep).
  - intros [r ->]. rewrite (utf8_chars_app _ _ _ Ea) in Ep. cbn [bs String.list_byte_of_string] in Ep.
    assert (utf8_chars (bs "/" ++ r) = cons (bs "/") <$> utf8_chars r) as Hr by done.
    rewrite Hr in Ep. destruct (utf8_chars r) as [z|]; [|done]. cbn in Ep. injection Ep as <-.
    rewrite take_app_length, drop_app_length, (utf8_chars_concat _ _ Ea). split; [|done]. split; [|done].
    unfold len. rewrite length_app. cbn. lia.
Qed.

Lemma path_under_irrefl p : path_under p p = false.
Proof. unfold path_under. by rewrite Z.ltb_irrefl. Qed.

Lemma slash_prefixes (a b r s : str) :
  a ++ bs "/" ++ r = b ++ bs "/" ++ s ->
  a = b \/ (exists t, a = b ++ bs "/" ++ t) \/ exists t, b = a ++ bs "/" ++ t.
Proof.
  revert b. induction a as [|x a IH]; intros [|y b]; cbn.
  - by left.
  - intros [= <- _]. right; right. by exists b.
  - intros [= -> _]. right; left. by exists a.
  - intros [= -> H]. destruct (IH b H) as [->|[[t ->]|[t ->]]]; [by left|right; left; by exists t|right; right; by exists t].
Qed.

(** A path apart from an endpoint is apart from everything under it. *)
Lemma apart_under q e p :
  utf8_valid q = true -> utf8_valid e = true -> utf8_valid p = true ->
  q <> e -> path_under e q = false -> path_under q e = false -> p = e \/ path_under e p = true ->
  path_under p q = false /\ path_under q p = false.
Proof.
  intros Vq Ve Vp Hne H1 H2 [->|H3]; [done|].
  apply path_under_spec in H3 as [r ->]; [|done..]. split; apply not_true_iff_false.
  - intros [t ->]%path_under_spec; [|done..]. apply not_true_iff_false in H1. apply H1, path_under_spec; [done..|].
    exists (r ++ bs "/" ++ t). by rewrite <- !app_assoc.
  - intros [t Ht]%path_under_spec; [|done..]. apply slash_prefixes in Ht as [->|[[u ->]|[u ->]]]; [done|..].
    + apply not_true_iff_false in H2. apply H2, path_under_spec; [done..|]. by exists u.
    + apply not_true_iff_false in H1. apply H1, path_under_spec; [done..|]. by exists u.
Qed.

Lemma first_path_none ns mount w c :
  first_path ns mount w c = None <->
  forall p, is_Some (overlay_rows c !! (ns, mount, p)) -> w p = false.
Proof.
  unfold first_path. set (l := filter _ _).
  assert (forall p, p ∈ l <-> is_Some (overlay_rows c !! (ns, mount, p)) /\ w p = true) as Hl.
  { intros p. unfold l. rewrite list_elem_of_filter, list_elem_of_fmap, Is_true_true.
    split.
    - intros (Hw & [[[ns' m'] p'] v] & -> & H). apply list_elem_of_filter in H as [Hm H].
      unfold of_mount in Hm. cbn in Hm. apply Is_true_true, andb_true_iff in Hm as [->%bytes_eqb_true ->%bytes_eqb_true].
      split; [|done]. exists v. by apply elem_of_map_to_list.
    - intros [[v Hv] Hw]. split; [done|]. exists ((ns, mount, p), v). split; [done|].
      apply list_elem_of_filter. split; [|by apply elem_of_map_to_list].
      unfold of_mount. cbn. by rewrite !(proj2 (bytes_eqb_true _ _) eq_refl). }
  split.
  - intros H p Hp. destruct (w p) eqn:E1; [|done].
    assert (p ∈ sort_by_key id l) as Hin by (rewrite (sort_by_key_perm id l); by apply Hl).
    destruct (sort_by_key id l); [by apply not_elem_of_nil in Hin|done].
  - intros H. assert (l = []) as ->; [|done].
    destruct l as [|p l']; [done|]. destruct (proj1 (Hl p) ltac:(by left)) as [Hp Hw].
    rewrite (H p Hp) in Hw. done.
Qed.
