(* ===== verification/CatAudit.v ===== *)
(** * The relational audit of the catalog ([Meta::audit_catalog], crates/forge-store/src/meta.rs)

    What fsck checks between the tables of the catalog and the object ids it
    hands on as roots.  The physical checks that come first in the code
    (SQLite's own integrity, column lists, value types, 32-byte ids, the
    migration ledger) are what the types of [Catalog] already say; with them
    clean, every [*_clean] flag of the code is true. *)

From S2P Require Import Prelude RustStd Types Overlay Namespace Catalog Refs.

(** ** Data *)

Record CatalogFinding := mkFinding { f_code : str; f_resource : str; f_detail : str }.

Inductive CatalogObjectExpectation := CAny | CExact (t : ObjectType) | CTreeEntry.

Record CatalogObjectRoot := mkRoot {
  cr_oid : ObjectId;
  cr_expected : CatalogObjectExpectation;
  cr_resource : str
}.

Record CatalogNamespaceRow := mkCatNs { cn_id : str; cn_pinned_oid : option ObjectId; cn_live_ref : option str }.

Record CatalogMountRow := mkCatMount {
  cm_ns_id : str;
  cm_path : str;
  cm_spec : str;
  cm_mode : str;
  cm_base_oid : option ObjectId
}.

Record SealRow := mkSealRow { sr_tag : str; sr_snap_oid : ObjectId; sr_commit_oid : ObjectId; sr_tree_oid : ObjectId }.

Record CatalogAudit := mkAudit {
  au_findings : list CatalogFinding;
  au_roots : list CatalogObjectRoot;
  au_seals : list SealRow;
  au_refs : list RefRow;
  au_refs_complete : bool;
  au_namespaces : list CatalogNamespaceRow;
  au_mounts : list CatalogMountRow
}.

Definition catalog_object_type (kind : str) : option ObjectType :=
  if bytes_eqb kind (bs "blob") then Some TBlob
  else if bytes_eqb kind (bs "tree") then Some TTree
  else if bytes_eqb kind (bs "commit") then Some TCommit
  else if bytes_eqb kind (bs "conflict") then Some TConflict
  else if bytes_eqb kind (bs "snapshot") then Some TSnapshot
  else if bytes_eqb kind (bs "contribution") then Some TContribution
  else None.

Definition catalog_ref_type (kind : str) : option ObjectType :=
  if bytes_eqb kind (bs "tree") then Some TTree
  else if bytes_eqb kind (bs "commit") then Some TCommit
  else if bytes_eqb kind (bs "conflict") then Some TConflict
  else if bytes_eqb kind (bs "snapshot") then Some TSnapshot
  else None.

(** [name.trim_start_matches(p)]: every leading copy of [p] goes. *)
Fixpoint trim_start_fuel (fuel : nat) (s p : str) : str :=
  match fuel with
  | O => s
  | S fuel' => match strip_prefix s p with Some rest => trim_start_fuel fuel' rest p | None => s end
  end.
Definition trim_start_matches (s p : str) : str := trim_start_fuel (length s) s p.

(** Rows of the three-column keys [ORDER BY ns_id, mount, path]. *)
Definition ordered_rows {A} (m : gmap (str * str * str) A) : list ((str * str * str) * A) :=
  sort_by_key (fun kv => kv.1.1.1) (sort_by_key (fun kv => kv.1.1.2)
    (sort_by_key (fun kv => kv.1.2) (map_to_list m))).

(** What the audit adds while it reads one row. *)
Abbreviation noted := (list CatalogFinding * list CatalogObjectRoot)%type.
Definition find_if (c : bool) (code resource detail : str) : list CatalogFinding :=
  if c then [mkFinding code resource detail] else [].
Definition rows_noted {A} (f : A -> noted) (l : list A) : noted :=
  (concat (fst ∘ f <$> l), concat (snd ∘ f <$> l)).

Definition missing {A} (o : option A) : bool := match o with Some _ => false | None => true end.

(** ** Refs *)

Definition expectation_of (t : option ObjectType) : CatalogObjectExpectation :=
  match t with Some t => CExact t | None => CAny end.

Definition audit_ref (kv : str * RefCols) : noted :=
  let '(name, r) := kv in
  let resource := bs "catalog:ref:" ++ name in
  let kind := rc_kind r in
  (find_if (negb (is_ok (validate_ref_kind name kind))) (bs "REF_KIND") resource (bs "{error}")
   ++ find_if (missing (catalog_ref_type kind)) (bs "REF_KIND") resource (bs "unknown ref kind {kind}")
   ++ find_if (starts_with name (bs "tags/")
               && (negb (rc_protected r) || negb (rc_sealed r) || negb (bytes_eqb kind (bs "snapshot"))))
        (bs "TAG_FLAGS") resource (bs "tag refs must be protected+sealed snapshots"),
   [mkRoot (rc_oid r) (expectation_of (catalog_ref_type kind)) (bs "ref:" ++ name)]).

(** ** The reflog *)

(** Rows with their ids, [ORDER BY name, id]. *)
Definition reflog_by_name (log : list LogRow) : list (Z * LogRow) :=
  sort_by_key (fun r => l_name r.2) (zip (seqZ 1 (len log)) log).

Record LogScan := mkLogScan {
  reflog_names : gset str;
  terminal_reflog : gmap str (ObjectId * str);
  previous_reflog : gmap str ObjectId;
  scan_findings : list CatalogFinding
}.

Definition chain_finding (previous : option ObjectId) (id : Z) (r : LogRow) : list CatalogFinding :=
  let resource := bs "catalog:reflog:" ++ l_name r ++ bs ":" ++ u64_to_string id in
  match previous with
  | Some previous =>
      find_if (negb (bool_decide (l_old r = Some previous))) (bs "REFLOG_CHAIN") resource
        (bs "old_oid {:?} does not equal previous new_oid {previous}")
  | None =>
      find_if (negb (missing (l_old r)) && negb (bytes_eqb (l_reason r) (bs "fork"))) (bs "REFLOG_CHAIN") resource
        (bs "first reflog row may have old_oid only when it creates a fork")
  end.

Definition scan_step (s : LogScan) (row : Z * LogRow) : LogScan :=
  let '(id, r) := row in
  mkLogScan ({[ l_name r ]} ∪ reflog_names s)
    (<[l_name r := (l_new r, l_reason r)]> (terminal_reflog s))
    (<[l_name r := l_new r]> (previous_reflog s))
    (scan_findings s ++ chain_finding (previous_reflog s !! l_name r) id r).

Definition scan_reflog (log : list LogRow) : LogScan :=
  fold_left scan_step (reflog_by_name log) (mkLogScan ∅ ∅ ∅ []).

Definition audit_terminal (terminal : gmap str (ObjectId * str)) (kv : str * RefCols) : list CatalogFinding :=
  let '(name, r) := kv in
  match terminal !! name with
  | None => [mkFinding (bs "REFLOG_MISSING") (bs "catalog:ref:" ++ name) (bs "current ref has no reflog entry")]
  | Some (log_oid, _) =>
      find_if (negb (bool_decide (log_oid = rc_oid r))) (bs "REFLOG_TERMINAL") (bs "catalog:ref:" ++ name)
        (bs "current ref is {ref_oid}, terminal reflog new_oid is {log_oid}")
  end.

Definition audit_orphan (refs : gmap str RefCols) (terminal : gmap str (ObjectId * str)) (name : str)
    : list CatalogFinding :=
  let retired := match terminal !! name with
                 | Some (_, reason) => bytes_eqb reason REFLOG_ABANDON
                 | None => false
                 end in
  find_if (missing (refs !! name) && negb retired) (bs "REFLOG_ORPHAN") (bs "catalog:reflog:" ++ name)
    (bs "reflog name has no current ref").

Definition audit_reflog (c : Catalog) : list CatalogFinding :=
  let s := scan_reflog (reflog_rows c) in
  scan_findings s
  ++ concat (audit_terminal (terminal_reflog s) <$> btree_list (refs c))
  ++ concat (audit_orphan (refs c) (terminal_reflog s) <$> sort_by_key id (elements (reflog_names s))).

(** ** Sessions *)

Definition audit_namespace (refs : gmap str RefCols) (kv : str * NsCols) : noted :=
  let '(id, r) := kv in
  let resource := bs "catalog:namespace:" ++ id in
  (find_if (missing (ns_pinned r)) (bs "NS_PIN") resource (bs "namespace has no pinned commit")
   ++ match ns_live_ref r with
      | Some live =>
          match refs !! live with
          | Some row => find_if (negb (bytes_eqb (rc_kind row) (bs "commit"))) (bs "NS_LIVE_TYPE") resource
                          (bs "live ref {live} is {kind}, expected commit")
          | None => [mkFinding (bs "NS_LIVE_REF") resource (bs "missing live ref {live}")]
          end
      | None => []
      end,
   match ns_pinned r with
   | Some oid => [mkRoot oid (CExact TCommit) (bs "namespace:" ++ id ++ bs ":pin")]
   | None => []
   end).

Definition audit_mount (namespaces : gmap str NsCols) (kv : (str * str) * MountCols) : noted :=
  let '((ns_id, path), r) := kv in
  (find_if (missing (namespaces !! ns_id)) (bs "MOUNT_NAMESPACE")
     (bs "catalog:mount:" ++ ns_id ++ bs ":" ++ path) (bs "mount refers to a missing namespace"),
   match mc_base r with
   | Some oid => [mkRoot oid CAny (bs "namespace:" ++ ns_id ++ bs ":mount:" ++ path ++ bs ":base")]
   | None => []
   end).

(** The owner of an observation or of a staged path: its name space, then its mount. *)
Definition audit_owner (c : Catalog) (what ns_code mount_code : str) (k : str * str * str) : list CatalogFinding :=
  let '(ns_id, mount, path) := k in
  let resource := bs "catalog:" ++ what ++ bs ":" ++ ns_id ++ bs ":" ++ mount ++ bs ":" ++ path in
  if missing (namespaces c !! ns_id) then [mkFinding ns_code resource (what ++ bs " refers to a missing namespace")]
  else find_if (missing (mounts c !! (ns_id, mount))) mount_code resource (what ++ bs " refers to a missing mount").

Definition observed_type (kind : str) : option ObjectType :=
  if bytes_eqb kind (bs "blob") then Some TBlob
  else if bytes_eqb kind (bs "tree") then Some TTree
  else None.

Definition audit_observation (c : Catalog) (kv : (str * str * str) * (str * option ObjectId)) : noted :=
  let '((ns_id, mount, path), (kind, oid)) := kv in
  (audit_owner c (bs "observation") (bs "OBSERVATION_NAMESPACE") (bs "OBSERVATION_MOUNT") (ns_id, mount, path),
   match observed_type kind, oid with
   | Some expected, Some oid =>
       [mkRoot oid (CExact expected)
          (bs "namespace:" ++ ns_id ++ bs ":observation:" ++ mount ++ bs ":" ++ path)]
   | _, _ => []
   end).

Definition audit_overlay (c : Catalog) (kv : (str * str * str) * (option ObjectId * bool)) : noted :=
  let '((ns_id, mount, path), (oid, _)) := kv in
  (audit_owner c (bs "overlay") (bs "OVERLAY_NAMESPACE") (bs "OVERLAY_MOUNT") (ns_id, mount, path),
   match oid with
   | Some oid =>
       [mkRoot oid (CExact TBlob)
          (bs "namespace:" ++ ns_id ++ bs ":mount:" ++ mount ++ bs ":overlay:" ++ path)]
   | None => []
   end).

(** ** Seals, landmarks, provenance *)

Definition audit_seal (refs : gmap str RefCols) (kv : str * SealCols) : noted :=
  let '(tag, r) := kv in
  let resource := bs "catalog:seal:" ++ tag in
  (match refs !! (bs "tags/" ++ tag) with
   | None => [mkFinding (bs "SEAL_TAG_REF") resource (bs "missing sealed ref {tag_ref}")]
   | Some row =>
       find_if (negb (bool_decide (rc_oid row = sl_snap r)) || negb (bytes_eqb (rc_kind row) (bs "snapshot"))
                || negb (rc_protected row) || negb (rc_sealed row))
         (bs "SEAL_TAG_REF") resource (bs "{tag_ref} must be protected+sealed snapshot {snap_oid}")
   end,
   [mkRoot (sl_snap r) (CExact TSnapshot) (resource ++ bs ":snapshot");
    mkRoot (sl_commit r) (CExact TCommit) (resource ++ bs ":commit");
    mkRoot (sl_tree r) (CExact TTree) (resource ++ bs ":tree")]).

Definition audit_tag (seals : gmap str SealCols) (kv : str * RefCols) : list CatalogFinding :=
  let '(name, _) := kv in
  find_if (starts_with name (bs "tags/") && missing (seals !! trim_start_matches name (bs "tags/")))
    (bs "SEAL_ROW") (bs "catalog:ref:" ++ name) (bs "sealed tag ref has no seals row").

Definition audit_landmark (kv : ObjectId * LandmarkCols) : noted :=
  let '(oid, r) := kv in
  let resource := bs "catalog:landmark:" ++ hex oid in
  (find_if (missing (catalog_object_type (lm_kind r))) (bs "LANDMARK_KIND") resource (bs "unknown landmark kind {kind}"),
   [mkRoot oid (expectation_of (catalog_object_type (lm_kind r))) resource]).

Definition kind_is (landmarks : gmap ObjectId LandmarkCols) (oid : ObjectId) (kind : str) : bool :=
  match landmarks !! oid with Some r => bytes_eqb (lm_kind r) kind | None => false end.

Definition audit_seal_landmarks (landmarks : gmap ObjectId LandmarkCols) (kv : str * SealCols) : list CatalogFinding :=
  let '(tag, r) := kv in
  find_if (negb (kind_is landmarks (sl_snap r) (bs "snapshot")) || negb (kind_is landmarks (sl_commit r) (bs "commit")))
    (bs "SEAL_LANDMARK") (bs "catalog:seal:" ++ tag) (bs "missing or mistyped {}").

Definition audit_intro (kv : ObjectId * IntroCols) : noted :=
  let '(oid, r) := kv in
  let resource := bs "catalog:object_intro:" ++ hex oid in
  ([], [mkRoot oid CTreeEntry resource; mkRoot (in_commit r) (CExact TCommit) (resource ++ bs ":commit")]).

(** ** The audit *)

Definition by_oid {A} (m : gmap ObjectId A) : list (ObjectId * A) :=
  sort_by_key (fun kv => arr_bytes kv.1) (map_to_list m).

Definition ordered_mounts (m : gmap (str * str) MountCols) : list ((str * str) * MountCols) :=
  sort_by_key (fun kv => kv.1.1) (sort_by_key (fun kv => kv.1.2) (map_to_list m)).

Definition audit_catalog (c : Catalog) : CatalogAudit :=
  let a_refs := rows_noted audit_ref (btree_list (refs c)) in
  let a_ns := rows_noted (audit_namespace (refs c)) (btree_list (namespaces c)) in
  let a_mounts := rows_noted (audit_mount (namespaces c)) (ordered_mounts (mounts c)) in
  let a_obs := rows_noted (audit_observation c) (ordered_rows (observation_rows c)) in
  let a_ov := rows_noted (audit_overlay c) (ordered_rows (overlay_rows c)) in
  let a_seals := rows_noted (audit_seal (refs c)) (btree_list (seals c)) in
  let a_tags := concat (audit_tag (seals c) <$> btree_list (refs c)) in
  let a_lms := rows_noted audit_landmark (by_oid (landmarks c)) in
  let a_sl := concat (audit_seal_landmarks (landmarks c) <$> btree_list (seals c)) in
  let a_intros := rows_noted audit_intro (by_oid (intros_tab c)) in
  mkAudit
    (a_refs.1 ++ audit_reflog c ++ a_ns.1 ++ a_mounts.1 ++ a_obs.1 ++ a_ov.1 ++ a_seals.1 ++ a_tags
     ++ a_lms.1 ++ a_sl ++ a_intros.1)
    (a_refs.2 ++ a_ns.2 ++ a_mounts.2 ++ a_obs.2 ++ a_ov.2 ++ a_seals.2 ++ a_lms.2 ++ a_intros.2)
    ((fun kv => mkSealRow kv.1 (sl_snap kv.2) (sl_commit kv.2) (sl_tree kv.2)) <$> btree_list (seals c))
    ((fun kv => ref_row kv.1 kv.2) <$> btree_list (refs c))
    true
    ((fun kv => mkCatNs kv.1 (ns_pinned kv.2) (ns_live_ref kv.2)) <$> btree_list (namespaces c))
    ((fun kv => mkCatMount kv.1.1 kv.1.2 (mc_spec kv.2) (mc_mode kv.2) (mc_base kv.2)) <$> ordered_mounts (mounts c)).

(** ** What a clean catalog is *)

(** One reflog row continues the history of its name. *)
Definition link (previous : option LogRow) (r : LogRow) : Prop :=
  match previous with
  | Some p => l_old r = Some (l_new p)
  | None => l_old r = None \/ l_reason r = bs "fork"
  end.

Inductive chain : list LogRow -> Prop :=
| chain_nil : chain []
| chain_snoc l r : chain l -> link (last l) r -> chain (l ++ [r]).

Definition ref_ok (name : str) (r : RefCols) : Prop :=
  is_ok (validate_ref_kind name (rc_kind r)) = true /\ is_Some (catalog_ref_type (rc_kind r))
  /\ (starts_with name (bs "tags/") = true ->
      rc_protected r = true /\ rc_sealed r = true /\ rc_kind r = bs "snapshot").

Definition owned (c : Catalog) (k : str * str * str) : Prop :=
  is_Some (namespaces c !! k.1.1) /\ is_Some (mounts c !! (k.1.1, k.1.2)).

Definition seal_ok (refs : gmap str RefCols) (tag : str) (s : SealCols) : Prop :=
  exists r, refs !! (bs "tags/" ++ tag) = Some r /\ rc_oid r = sl_snap s /\ rc_kind r = bs "snapshot"
    /\ rc_protected r = true /\ rc_sealed r = true.

Definition landmarked (c : Catalog) (oid : ObjectId) (kind : str) : Prop :=
  exists l, landmarks c !! oid = Some l /\ lm_kind l = kind.

Record catalog_ok (c : Catalog) : Prop := mkCatalogOk {
  ok_refs : forall name r, refs c !! name = Some r -> ref_ok name r;
  ok_chain : forall name, chain (log_of name (reflog_rows c));
  ok_head : forall name r, refs c !! name = Some r ->
    exists e, last_log name (reflog_rows c) = Some e /\ l_new e = rc_oid r;
  ok_retired : forall name e, last_log name (reflog_rows c) = Some e ->
    is_Some (refs c !! name) \/ l_reason e = REFLOG_ABANDON;
  ok_ns : forall id r, namespaces c !! id = Some r -> is_Some (ns_pinned r)
    /\ forall live, ns_live_ref r = Some live ->
       exists row, refs c !! live = Some row /\ rc_kind row = bs "commit";
  ok_mounts : forall ns path r, mounts c !! (ns, path) = Some r -> is_Some (namespaces c !! ns);
  ok_observations : forall k o, observation_rows c !! k = Some o -> owned c k;
  ok_overlay : forall k o, overlay_rows c !! k = Some o -> owned c k;
  ok_seals : forall tag s, seals c !! tag = Some s -> seal_ok (refs c) tag s;
  ok_tags : forall name r, refs c !! name = Some r -> starts_with name (bs "tags/") = true ->
    is_Some (seals c !! trim_start_matches name (bs "tags/"));
  ok_landmarks : forall oid l, landmarks c !! oid = Some l -> is_Some (catalog_object_type (lm_kind l));
  ok_seal_landmarks : forall tag s, seals c !! tag = Some s ->
    landmarked c (sl_snap s) (bs "snapshot") /\ landmarked c (sl_commit s) (bs "commit")
}.

(** ** The audit reports exactly the catalogs that are not clean *)

Lemma find_if_nil b code resource detail : find_if b code resource detail = [] <-> b = false.
Proof. by destruct b. Qed.

Lemma missing_false {A} (o : option A) : missing o = false <-> is_Some o.
Proof. destruct o; simpl; split; [by eexists|done|done|by intros [? ?]]. Qed.

Lemma missing_true {A} (o : option A) : missing o = true <-> o = None.
Proof. by destruct o. Qed.

Lemma concat_nil_forall {A B} (f : A -> list B) l : concat (f <$> l) = [] <-> forall x, x ∈ l -> f x = [].
Proof.
  induction l as [|x l IH]; cbn.
  - split; [|done]. intros _ x Hx. by apply not_elem_of_nil in Hx.
  - rewrite app_nil, IH. split.
    + intros [H1 H2] y [->|Hy]%elem_of_cons; auto.
    + intros H. split; [apply H; by left|]. intros y Hy. apply H. by right.
Qed.

Lemma btree_forall {A} (m : gmap str A) (P : str * A -> Prop) :
  (forall kv, kv ∈ btree_list m -> P kv) <-> forall k x, m !! k = Some x -> P (k, x).
Proof.
  split.
  - intros H k x E1. apply H. by apply elem_of_btree_list.
  - intros H [k x] E1. apply H. by apply elem_of_btree_list.
Qed.

Lemma in_sorted {A} (key : A -> bytes) (l : list A) x : x ∈ sort_by_key key l <-> x ∈ l.
Proof. by rewrite (sort_by_key_perm key l). Qed.

Lemma rows_forall {A} (m : gmap (str * str * str) A) (P : (str * str * str) * A -> Prop) :
  (forall kv, kv ∈ ordered_rows m -> P kv) <-> forall k x, m !! k = Some x -> P (k, x).
Proof.
  unfold ordered_rows. setoid_rewrite in_sorted. setoid_rewrite in_sorted. setoid_rewrite in_sorted.
  split; [intros H k x E1; apply H; by apply elem_of_map_to_list|].
  intros H [k x] E1. apply H. by apply elem_of_map_to_list.
Qed.

Lemma mounts_forall (m : gmap (str * str) MountCols) (P : (str * str) * MountCols -> Prop) :
  (forall kv, kv ∈ ordered_mounts m -> P kv) <-> forall k x, m !! k = Some x -> P (k, x).
Proof.
  unfold ordered_mounts. setoid_rewrite in_sorted. setoid_rewrite in_sorted.
  split; [intros H k x E1; apply H; by apply elem_of_map_to_list|].
  intros H [k x] E1. apply H. by apply elem_of_map_to_list.
Qed.

Lemma oids_forall {A} (m : gmap ObjectId A) (P : ObjectId * A -> Prop) :
  (forall kv, kv ∈ by_oid m -> P kv) <-> forall k x, m !! k = Some x -> P (k, x).
Proof.
  unfold by_oid. setoid_rewrite in_sorted.
  split; [intros H k x E1; apply H; by apply elem_of_map_to_list|].
  intros H [k x] E1. apply H. by apply elem_of_map_to_list.
Qed.

(** *** The scan of the reflog *)

Lemma chain_snoc_inv l r : chain (l ++ [r]) <-> chain l /\ link (last l) r.
Proof.
  split; [|intros []; by constructor].
  intros H. inversion H as [E1|l' r' H1 H2 E1].
  - by destruct l.
  - by apply app_inj_tail in E1 as [-> ->].
Qed.

Lemma sort_insert_stable {A} (key : A -> bytes) n x l :
  filter (fun y => key y = n) (sort_insert key x l) = filter (fun y => key y = n) (x :: l).
Proof.
  induction l as [|y l IH]; cbn [sort_insert]; [done|].
  destruct (bytes_le (key x) (key y)) eqn:E1; [done|].
  rewrite filter_cons, IH, !filter_cons. repeat case_decide; try done.
  exfalso. assert (key x = key y) as E2 by congruence. rewrite E2 in E1.
  apply bytes_le_false in E1. by rewrite bytes_lt_irrefl in E1.
Qed.

Lemma sort_by_key_stable {A} (key : A -> bytes) n l :
  filter (fun y => key y = n) (sort_by_key key l) = filter (fun y => key y = n) l.
Proof.
  induction l as [|x l IH]; cbn [sort_by_key]; [done|].
  by rewrite sort_insert_stable, !filter_cons, IH.
Qed.

Lemma log_of_snd n (rows : list (Z * LogRow)) : log_of n rows.*2 = (filter (fun r => l_name r.2 = n) rows).*2.
Proof.
  unfold log_of. induction rows as [|[i r] rows IH]; [done|].
  rewrite fmap_cons, !filter_cons. cbn [snd]. case_decide; [rewrite fmap_cons|]; by rewrite IH.
Qed.

Lemma log_of_by_name n log : log_of n (reflog_by_name log).*2 = log_of n log.
Proof.
  unfold reflog_by_name. rewrite log_of_snd, (sort_by_key_stable (fun r : Z * LogRow => l_name r.2)), <- log_of_snd.
  rewrite snd_zip; [done|]. rewrite length_seqZ. unfold len. lia.
Qed.

Lemma log_of_snoc n log r :
  log_of n (log ++ [r]) = if decide (l_name r = n) then log_of n log ++ [r] else log_of n log.
Proof.
  unfold log_of. rewrite filter_app, filter_cons. case_decide; [done|]. by rewrite app_nil_r.
Qed.

Lemma last_log_snoc n log r :
  last_log n (log ++ [r]) = if decide (l_name r = n) then Some r else last_log n log.
Proof. unfold last_log. rewrite log_of_snoc. case_decide; [by rewrite last_snoc|done]. Qed.

Lemma chain_finding_nil previous id r :
  chain_finding (l_new <$> previous) id r = [] <-> link previous r.
Proof.
  unfold chain_finding, link. destruct previous as [p|]; cbn; rewrite find_if_nil.
  - rewrite negb_false_iff, bool_decide_eq_true. done.
  - rewrite andb_false_iff, !negb_false_iff, missing_true, bytes_eqb_true. done.
Qed.

Lemma scan_spec (rows : list (Z * LogRow)) :
  let s := fold_left scan_step rows (mkLogScan ∅ ∅ ∅ []) in
  (forall n, terminal_reflog s !! n = (fun r => (l_new r, l_reason r)) <$> last_log n rows.*2)
  /\ (forall n, previous_reflog s !! n = l_new <$> last_log n rows.*2)
  /\ (forall n, n ∈ reflog_names s <-> is_Some (last_log n rows.*2))
  /\ (scan_findings s = [] <-> forall n, chain (log_of n rows.*2)).
Proof.
  induction rows as [|[id r] rows IH] using rev_ind; cbn zeta.
  - cbn [fold_left]. split; [|split; [|split]]; intros; cbn; [done..| |].
    + rewrite elem_of_empty. split; [done|]. by intros [? ?].
    + split; [|done]. intros _ n. constructor.
  - rewrite fold_left_app, fmap_app. cbn [fold_left fmap list_fmap snd].
    destruct IH as (H1 & H2 & H3 & H4). set (s := fold_left scan_step rows _) in *.
    unfold scan_step. cbn [terminal_reflog previous_reflog reflog_names scan_findings].
    split; [|split; [|split]].
    + intros n. rewrite last_log_snoc. case_decide as E1; simplify_map_eq; [done|]. by rewrite H1.
    + intros n. rewrite last_log_snoc. case_decide as E1; simplify_map_eq; [done|]. by rewrite H2.
    + intros n. rewrite last_log_snoc, elem_of_union, elem_of_singleton, H3.
      case_decide as E1; [|naive_solver]. split; [by eexists|by left].
    + rewrite app_nil, H4, H2, chain_finding_nil. split.
      * intros [Hc Hl] n. rewrite log_of_snoc. case_decide as E1; [|done].
        rewrite chain_snoc_inv. split; [done|]. by subst n.
      * intros Hc. assert (chain (log_of (l_name r) rows.*2 ++ [r])) as Hr.
        { specialize (Hc (l_name r)). rewrite log_of_snoc in Hc. by rewrite decide_True in Hc by done. }
        rewrite chain_snoc_inv in Hr. split; [|apply Hr].
        intros n. specialize (Hc n). rewrite log_of_snoc in Hc. case_decide as E1; [|done].
        subst n. apply Hr.
Qed.

Lemma scan_log log :
  let s := scan_reflog log in
  (forall n, terminal_reflog s !! n = (fun r => (l_new r, l_reason r)) <$> last_log n log)
  /\ (forall n, n ∈ reflog_names s <-> is_Some (last_log n log))
  /\ (scan_findings s = [] <-> forall n, chain (log_of n log)).
Proof.
  destruct (scan_spec (reflog_by_name log)) as (H1 & _ & H3 & H4). unfold scan_reflog.
  unfold last_log in *. setoid_rewrite log_of_by_name in H1. setoid_rewrite log_of_by_name in H3.
  setoid_rewrite log_of_by_name in H4. done.
Qed.

(** *** One table at a time *)

Lemma rows_noted_nil {A} (f : A -> noted) l : (rows_noted f l).1 = [] <-> forall x, x ∈ l -> (f x).1 = [].
Proof. unfold rows_noted. cbn [fst]. rewrite concat_nil_forall. done. Qed.

Lemma orb3_false a b c : a || b || c = false <-> a = false /\ b = false /\ c = false.
Proof. rewrite !orb_false_iff. naive_solver. Qed.

Lemma audit_refs_clean m :
  (rows_noted audit_ref (btree_list m)).1 = [] <-> forall name r, m !! name = Some r -> ref_ok name r.
Proof.
  rewrite rows_noted_nil, (btree_forall m (fun kv => (audit_ref kv).1 = [])).
  unfold ref_ok. cbn [audit_ref fst]. setoid_rewrite app_nil. setoid_rewrite app_nil.
  setoid_rewrite find_if_nil. setoid_rewrite missing_false. setoid_rewrite negb_false_iff.
  setoid_rewrite andb_false_iff. setoid_rewrite orb3_false. setoid_rewrite negb_false_iff.
  setoid_rewrite bytes_eqb_true.
  split; intros H name r E1; destruct (H name r E1) as (H1 & H2 & H3); (split; [done|split; [done|]]).
  - intros H4. destruct H3 as [H3|H3]; [congruence|done].
  - destruct (starts_with name (bs "tags/")); [right; by apply H3|by left].
Qed.

Lemma audit_reflog_clean c :
  audit_reflog c = [] <->
  (forall name, chain (log_of name (reflog_rows c)))
  /\ (forall name r, refs c !! name = Some r ->
        exists e, last_log name (reflog_rows c) = Some e /\ l_new e = rc_oid r)
  /\ (forall name e, last_log name (reflog_rows c) = Some e ->
        is_Some (refs c !! name) \/ l_reason e = REFLOG_ABANDON).
Proof.
  unfold audit_reflog. destruct (scan_log (reflog_rows c)) as (H1 & H2 & H3).
  set (s := scan_reflog (reflog_rows c)) in *.
  rewrite !app_nil, H3, !concat_nil_forall.
  rewrite (btree_forall (refs c) (fun kv => audit_terminal (terminal_reflog s) kv = [])).
  setoid_rewrite in_sorted. setoid_rewrite elem_of_elements. setoid_rewrite H2.
  unfold audit_terminal, audit_orphan. setoid_rewrite H1. setoid_rewrite find_if_nil.
  split; intros (Hc & Ht & Ho); (split; [done|]); split;
    try (intros name x E1).
  - specialize (Ht name x E1). destruct (last_log name (reflog_rows c)) as [e|]; [|done].
    cbn in Ht. rewrite find_if_nil, negb_false_iff, bool_decide_eq_true in Ht. by eexists.
  - specialize (Ho name). rewrite E1 in Ho. specialize (Ho ltac:(by eexists)). cbn in Ho.
    rewrite andb_false_iff, negb_false_iff, missing_false, bytes_eqb_true in Ho. done.
  - destruct (Ht name x E1) as (e & -> & He). cbn.
    by rewrite find_if_nil, negb_false_iff, bool_decide_eq_true.
  - intros name [e E1]. rewrite E1. cbn.
    rewrite andb_false_iff, negb_false_iff, missing_false, bytes_eqb_true. by apply Ho.
Qed.

Lemma audit_namespaces_clean refs m :
  (rows_noted (audit_namespace refs) (btree_list m)).1 = [] <->
  forall id r, m !! id = Some r -> is_Some (ns_pinned r)
    /\ forall live, ns_live_ref r = Some live -> exists row, refs !! live = Some row /\ rc_kind row = bs "commit".
Proof.
  rewrite rows_noted_nil, (btree_forall m (fun kv => (audit_namespace refs kv).1 = [])).
  cbn [audit_namespace fst]. setoid_rewrite app_nil. setoid_rewrite find_if_nil. setoid_rewrite missing_false.
  split; intros H id r E1; destruct (H id r E1) as [H1 H2]; (split; [done|]).
  - intros live E2. rewrite E2 in H2. destruct (refs !! live) as [row|]; [|done].
    rewrite find_if_nil, negb_false_iff, bytes_eqb_true in H2. by eexists.
  - destruct (ns_live_ref r) as [live|]; [|done]. destruct (H2 live eq_refl) as (row & -> & E2).
    by rewrite find_if_nil, negb_false_iff, bytes_eqb_true.
Qed.

Lemma audit_mounts_clean ns m :
  (rows_noted (audit_mount ns) (ordered_mounts m)).1 = [] <->
  forall k path r, m !! (k, path) = Some r -> is_Some (ns !! k).
Proof.
  rewrite rows_noted_nil, (mounts_forall m (fun kv => (audit_mount ns kv).1 = [])).
  split.
  - intros H k path r E1. specialize (H (k, path) r E1). cbn [audit_mount fst] in H.
    by rewrite find_if_nil, missing_false in H.
  - intros H [k path] r E1. cbn [audit_mount fst]. rewrite find_if_nil, missing_false. by eapply H.
Qed.

Lemma audit_owner_clean c what a b k : audit_owner c what a b k = [] <-> owned c k.
Proof.
  destruct k as [[ns mount] path]. unfold audit_owner, owned. cbn [fst snd].
  rewrite <- !missing_false. destruct (missing (namespaces c !! ns)); [naive_solver|].
  rewrite find_if_nil. naive_solver.
Qed.

Lemma audit_observations_clean c :
  (rows_noted (audit_observation c) (ordered_rows (observation_rows c))).1 = [] <->
  forall k o, observation_rows c !! k = Some o -> owned c k.
Proof.
  rewrite rows_noted_nil, (rows_forall (observation_rows c) (fun kv => (audit_observation c kv).1 = [])).
  split.
  - intros H k o E1. specialize (H k o E1). destruct k as [[ns mount] path], o as [kind oid].
    cbn [audit_observation fst] in H. by apply audit_owner_clean in H.
  - intros H [[ns mount] path] [kind oid] E1. cbn [audit_observation fst].
    apply audit_owner_clean. by eapply H.
Qed.

Lemma audit_overlay_clean c :
  (rows_noted (audit_overlay c) (ordered_rows (overlay_rows c))).1 = [] <->
  forall k o, overlay_rows c !! k = Some o -> owned c k.
Proof.
  rewrite rows_noted_nil, (rows_forall (overlay_rows c) (fun kv => (audit_overlay c kv).1 = [])).
  split.
  - intros H k o E1. specialize (H k o E1). destruct k as [[ns mount] path], o as [oid exec].
    cbn [audit_overlay fst] in H. by apply audit_owner_clean in H.
  - intros H [[ns mount] path] [oid exec] E1. cbn [audit_overlay fst].
    apply audit_owner_clean. by eapply H.
Qed.

Lemma audit_seals_clean refs m :
  (rows_noted (audit_seal refs) (btree_list m)).1 = [] <-> forall tag s, m !! tag = Some s -> seal_ok refs tag s.
Proof.
  rewrite rows_noted_nil, (btree_forall m (fun kv => (audit_seal refs kv).1 = [])).
  cbn [audit_seal fst]. unfold seal_ok.
  split; intros H tag s E1; specialize (H tag s E1).
  - destruct (refs !! (bs "tags/" ++ tag)) as [row|]; [|done]. exists row.
    rewrite find_if_nil, !orb_false_iff, !negb_false_iff, bool_decide_eq_true, bytes_eqb_true in H. naive_solver.
  - destruct H as (row & -> & H1 & H2 & H3 & H4).
    by rewrite find_if_nil, !orb_false_iff, !negb_false_iff, bool_decide_eq_true, bytes_eqb_true.
Qed.

Lemma audit_tags_clean seals m :
  concat (audit_tag seals <$> btree_list m) = [] <->
  forall name r, m !! name = Some r -> starts_with name (bs "tags/") = true ->
    is_Some (seals !! trim_start_matches name (bs "tags/")).
Proof.
  rewrite concat_nil_forall, (btree_forall m (fun kv => audit_tag seals kv = [])).
  cbn [audit_tag]. setoid_rewrite find_if_nil. setoid_rewrite andb_false_iff. setoid_rewrite missing_false.
  split; intros H name r E1; specialize (H name r E1).
  - intros E2. destruct H as [H|H]; [congruence|done].
  - destruct (starts_with name (bs "tags/")); auto.
Qed.

Lemma audit_landmarks_clean m :
  (rows_noted audit_landmark (by_oid m)).1 = [] <->
  forall oid l, m !! oid = Some l -> is_Some (catalog_object_type (lm_kind l)).
Proof.
  rewrite rows_noted_nil, (oids_forall m (fun kv => (audit_landmark kv).1 = [])).
  cbn [audit_landmark fst]. setoid_rewrite find_if_nil. setoid_rewrite missing_false. done.
Qed.

Lemma kind_is_landmarked c oid kind : kind_is (landmarks c) oid kind = true <-> landmarked c oid kind.
Proof.
  unfold kind_is, landmarked. destruct (landmarks c !! oid) as [l|]; [|naive_solver].
  rewrite bytes_eqb_true. naive_solver.
Qed.

Lemma audit_seal_landmarks_clean c :
  concat (audit_seal_landmarks (landmarks c) <$> btree_list (seals c)) = [] <->
  forall tag s, seals c !! tag = Some s ->
    landmarked c (sl_snap s) (bs "snapshot") /\ landmarked c (sl_commit s) (bs "commit").
Proof.
  rewrite concat_nil_forall, (btree_forall (seals c) (fun kv => audit_seal_landmarks (landmarks c) kv = [])).
  cbn [audit_seal_landmarks]. setoid_rewrite find_if_nil. setoid_rewrite orb_false_iff.
  setoid_rewrite negb_false_iff. setoid_rewrite kind_is_landmarked. done.
Qed.

Lemma audit_intros_clean m : (rows_noted audit_intro (by_oid m)).1 = [].
Proof. rewrite rows_noted_nil. by intros [oid r] _. Qed.

Lemma audit_clean_iff c : au_findings (audit_catalog c) = [] <-> catalog_ok c.
Proof.
  unfold audit_catalog. cbn [au_findings].
  rewrite !app_nil, audit_refs_clean, audit_reflog_clean, audit_namespaces_clean, audit_mounts_clean,
    audit_observations_clean, audit_overlay_clean, audit_seals_clean, audit_tags_clean,
    audit_landmarks_clean, audit_seal_landmarks_clean.
  pose proof (audit_intros_clean (intros_tab c)) as Hi. split.
  - intros (H1 & (H2 & H3 & H4) & H5 & H6 & H7 & H8 & H9 & H10 & H11 & H12 & _). by constructor.
  - intros []. naive_solver.
Qed.
