(* ===== verification/Events.v ===== *)
(** * The catalog as a machine of guarded events

    The abstract contract of the catalog: its tables change only by the events
    below, each under its guard.  [CatOp] names every operation of the catalog
    that writes, with its arguments; [run] executes one, and [run_steps] shows
    that whatever it does is a sequence of guarded events.  [audit_pre] is what
    an event needs, beyond its guard, to keep the audit clean, and
    [obligations] what the caller of an operation owes for it. *)

From S2P Require Import Prelude RustStd Types Overlay Namespace Catalog Refs Sessions CatAudit.

(** ** Events *)

Inductive Ev :=
| EvCreate (name : str) (r : RefCols) (e : LogRow)
| EvMove (name : str) (r : RefCols) (e : LogRow)
| EvRetire (name : str) (r : RefCols) (e : LogRow)
| EvSeal (tag : str) (s : SealCols) (e : LogRow)
| EvLandmark (oid : ObjectId) (l : LandmarkCols)
| EvIntros (f : gmap ObjectId IntroCols -> gmap ObjectId IntroCols)
| EvOpen (id : str) (r : NsCols)
| EvPin (id : str) (r : NsCols) (oid : ObjectId)
| EvMount (ns path : str) (r : MountCols)
| EvStage (k : str * str * str) (v : option ObjectId * bool)
| EvUnstage (p : str * str * str -> bool)
| EvObserve (k : str * str * str) (v : str * option ObjectId)
| EvForget (p : str * str * str -> bool)
| EvClose (ns : str).

Definition log_event (e : LogRow) : Catalog -> Catalog := with_reflog (fun l => l ++ [e]).

Definition seal_row (snap : ObjectId) (ts : Z) : RefCols := mkRefCols snap (bs "snapshot") true true ts.

Definition apply_ev (ev : Ev) (c : Catalog) : Catalog :=
  match ev with
  | EvCreate name r e => log_event e (with_refs (insert name r) c)
  | EvMove name r e => log_event e (with_refs (insert name (move_row (l_new e) (l_ts_ms e) r)) c)
  | EvRetire name r e => with_refs (delete name) (log_event e c)
  | EvSeal tag s e =>
      landmark_row (sl_ts_ms s) (sl_commit s) (bs "commit") (bs "seal")
        (landmark_row (sl_ts_ms s) (sl_snap s) (bs "snapshot") (bs "seal")
          (with_seals (insert tag s)
            (log_event e (with_refs (insert (bs "tags/" ++ tag) (seal_row (sl_snap s) (sl_ts_ms s))) c))))
  | EvLandmark oid l => with_landmarks (insert_or_ignore oid l) c
  | EvIntros f => with_intros f c
  | EvOpen id r => with_namespaces (insert id r) c
  | EvPin id r oid => with_namespaces (insert id (mkNsCols (ns_agent r) (ns_created_ms r) (Some oid) (ns_live_ref r))) c
  | EvMount ns path r => with_mounts (insert (ns, path) r) c
  | EvStage k v => with_overlay (insert k v) c
  | EvUnstage p => with_overlay (delete_where p) c
  | EvObserve k v => with_observations (insert k v) c
  | EvForget p => with_observations (delete_where p) c
  | EvClose ns =>
      with_namespaces (delete ns) (with_overlay (delete_where (of_ns ns))
        (with_observations (delete_where (of_ns ns))
          (with_mounts (delete_where (fun k => bytes_eqb k.1 ns)) c)))
  end.

Definition valid_ref (name kind : str) : Prop := is_ok (validate_ref_kind name kind) = true.

(** [allow]: the operation was allowed to move protected refs. *)
Definition guard (allow : bool) (ev : Ev) (c : Catalog) : Prop :=
  match ev with
  | EvCreate name r e =>
      refs c !! name = None /\ valid_ref name (rc_kind r) /\ ref_kind_check (rc_kind r) = true
      /\ starts_with name (bs "tags/") = false
      /\ l_name e = name /\ l_new e = rc_oid r /\ (l_old e = None \/ l_reason e = bs "fork")
  | EvMove name r e =>
      refs c !! name = Some r /\ rc_sealed r = false /\ (rc_protected r = true -> allow = true)
      /\ l_name e = name /\ l_old e = Some (rc_oid r) /\ l_reason e <> REFLOG_ABANDON
  | EvRetire name r e =>
      refs c !! name = Some r /\ rc_sealed r = false /\ rc_protected r = false
      /\ live_somewhere name c = false /\ mounted_somewhere name c = false
      /\ (is_fork_ref name = true \/ starts_with name (bs "conflicts/") = true)
      /\ l_name e = name /\ l_old e = Some (rc_oid r) /\ l_new e = rc_oid r /\ l_reason e = REFLOG_ABANDON
  | EvSeal tag s e =>
      refs c !! (bs "tags/" ++ tag) = None /\ valid_ref (bs "tags/" ++ tag) (bs "snapshot")
      /\ seals c !! tag = None
      /\ l_name e = bs "tags/" ++ tag /\ l_new e = sl_snap s /\ l_old e = None /\ l_reason e = bs "seal"
  | EvOpen id r => namespaces c !! id = None /\ is_Some (ns_pinned r)
  | EvPin id r oid => namespaces c !! id = Some r
  | _ => True
  end.

Definition unlogged (name : str) (c : Catalog) : Prop := last_log name (reflog_rows c) = None.

Definition landmark_free (c : Catalog) (oid : ObjectId) (kind : str) : Prop :=
  forall l, landmarks c !! oid = Some l -> lm_kind l = kind.

(** No staged path of the mount lies under [k]'s or over it. *)
Definition free_at (c : Catalog) (k : str * str * str) : Prop :=
  utf8_valid k.2 = true
  /\ forall q, is_Some (overlay_rows c !! (k.1.1, k.1.2, q)) -> path_under k.2 q = false /\ path_under q k.2 = false.

Definition audit_pre (ev : Ev) (c : Catalog) : Prop :=
  match ev with
  | EvCreate name r e => unlogged name c
  | EvSeal tag s e =>
      unlogged (bs "tags/" ++ tag) c /\ starts_with tag (bs "tags/") = false
      /\ landmark_free c (sl_snap s) (bs "snapshot") /\ landmark_free c (sl_commit s) (bs "commit")
      /\ sl_snap s <> sl_commit s
  | EvLandmark oid l => is_Some (catalog_object_type (lm_kind l))
  | EvOpen id r =>
      forall live, ns_live_ref r = Some live -> exists row, refs c !! live = Some row /\ rc_kind row = bs "commit"
  | EvMount ns path r => is_Some (namespaces c !! ns)
  | EvStage k v => owned c k /\ free_at c k
  | EvObserve k v => owned c k
  | _ => True
  end.

(** A sequence of guarded events; [Q] is what the audit needs to hold. *)
Inductive steps (allow : bool) (Q : Prop) : Catalog -> Catalog -> Prop :=
| steps_nil c : steps allow Q c c
| steps_cons c ev c' :
    guard allow ev c -> (Q -> audit_pre ev c) -> steps allow Q (apply_ev ev c) c' -> steps allow Q c c'.

(** ** Operations *)

Inductive CatOp :=
| OpInsertRef (ts : Z) (name : str) (oid : ObjectId) (kind : str) (protected sealed : bool) (agent reason : str)
| OpInsertRefIntros (ts : Z) (name : str) (oid : ObjectId) (kind : str) (protected sealed : bool) (agent reason : str)
    (intros : list ObjectId)
| OpCas (ts : Z) (ulid name : str) (expected new : ObjectId) (kind agent fork_agent : str) (allow : bool)
| OpCasIntros (ts : Z) (ulid name : str) (expected new : ObjectId) (kind agent fork_agent : str) (allow : bool)
    (intros : list ObjectId)
| OpCasSession (ts : Z) (ulid name : str) (expected new : ObjectId) (agent fork_agent ns mount : str)
    (intros : list ObjectId)
| OpNoop (ns mount : str) (pinned : ObjectId)
| OpAbandonRef (ts : Z) (name agent : str)
| OpResolve (ts : Z) (into : str) (expected commit : ObjectId) (conflict_ref : str) (conflict_oid : ObjectId)
    (resolution_ref agent : str) (allow : bool) (intros : list ObjectId)
| OpSeal (ts : Z) (tag : str) (snap commit tree : ObjectId) (agent : str) (expect_ref : option (str * ObjectId))
| OpLandmark (ts : Z) (oid : ObjectId) (kind reason : str)
| OpIntros (ts : Z) (oids : list ObjectId) (commit : ObjectId) (agent : str)
| OpForgetObject (read_only : bool) (oid : ObjectId)
| OpCreateSession (ts : Z) (id agent : str) (pinned : ObjectId) (live_ref : str) (mount_main : bool)
| OpInsertNamespace (ts : Z) (id agent : str) (pinned : ObjectId) (live_ref : str)
| OpSetPin (ns : str) (oid : ObjectId)
| OpObserve (read_only : bool) (ns mount path : str) (seen : Observed)
| OpObservationsClear (ns : str)
| OpInsertMount (ns path spec mode : str) (base : option ObjectId)
| OpUpdateMountSpec (ns path spec : str)
| OpUpsert (ns mount path : str) (blob : option ObjectId) (exec : bool)
| OpRename (ns mount from to : str) (dest : list (str * ObjectId * bool))
| OpOverlayClear (ns mount : str)
| OpAbandonSession (ns : str) (discard : bool).

Definition void {A} (m : db A) : db unit := _ ← m; mret tt.

Definition run (op : CatOp) : db unit :=
  match op with
  | OpInsertRef ts name oid kind p s agent reason => insert_ref ts name oid kind p s agent reason
  | OpInsertRefIntros ts name oid kind p s agent reason intros =>
      insert_ref_with_intros ts name oid kind p s agent reason intros
  | OpCas ts ulid name expected new kind agent fork_agent allow =>
      void (cas_ref ts ulid name expected new kind agent fork_agent allow)
  | OpCasIntros ts ulid name expected new kind agent fork_agent allow intros =>
      void (cas_ref_with_intros ts ulid name expected new kind agent fork_agent allow intros)
  | OpCasSession ts ulid name expected new agent fork_agent ns mount intros =>
      void (cas_ref_session ts ulid name expected new agent fork_agent ns mount intros)
  | OpNoop ns mount pinned => complete_noop_session ns mount pinned
  | OpAbandonRef ts name agent => void (abandon_ref ts name agent)
  | OpResolve ts into expected commit conflict_ref conflict_oid resolution_ref agent allow intros =>
      void (publish_resolution ts into expected commit conflict_ref conflict_oid resolution_ref agent allow intros)
  | OpSeal ts tag snap commit tree agent expect_ref => commit_seal ts tag snap commit tree agent expect_ref
  | OpLandmark ts oid kind reason => landmark ts oid kind reason
  | OpIntros ts oids commit agent => intro_insert_many ts oids commit agent
  | OpForgetObject ro oid => void (gc_sweep ro (forget_object oid))
  | OpCreateSession ts id agent pinned live_ref mm => create_session ts id agent pinned live_ref mm
  | OpInsertNamespace ts id agent pinned live_ref => insert_namespace ts id agent pinned live_ref
  | OpSetPin ns oid => set_pin ns oid
  | OpObserve ro ns mount path seen => observe ro ns mount path seen
  | OpObservationsClear ns => observations_clear ns
  | OpInsertMount ns path spec mode base => insert_mount ns path spec mode base
  | OpUpdateMountSpec ns path spec => update_mount_spec ns path spec
  | OpUpsert ns mount path blob exec => overlay_upsert ns mount path blob exec
  | OpRename ns mount from to dest => overlay_rename ns mount from to dest
  | OpOverlayClear ns mount => overlay_clear ns mount
  | OpAbandonSession ns discard => void (abandon_session ns discard)
  end.

(** May the operation move a protected ref? *)
Definition op_allows (op : CatOp) : bool :=
  match op with
  | OpCas _ _ _ _ _ _ _ _ allow | OpCasIntros _ _ _ _ _ _ _ _ allow _ | OpResolve _ _ _ _ _ _ _ _ allow _ => allow
  | _ => false
  end.

(** What the resolved rows of a move must be: at or under the destination, apart
    from each other and from the source. *)
Definition rename_ok (from to : str) (dest : list (str * ObjectId * bool)) : Prop :=
  utf8_valid from = true /\ utf8_valid to = true
  /\ (forall d, d ∈ dest -> utf8_valid d.1.1 = true /\ (d.1.1 = to \/ path_under to d.1.1 = true)
        /\ path_under from d.1.1 = false /\ path_under d.1.1 from = false)
  /\ (forall d d', d ∈ dest -> d' ∈ dest -> path_under d.1.1 d'.1.1 = false).

(** What the caller of an operation owes: names drawn with a ULID were never
    used, rows are staged and observed under a mount of an open session, and a
    seal's objects are not landmarks of other kinds. *)
Definition obligations (op : CatOp) (c : Catalog) : Prop :=
  match op with
  | OpCas _ ulid name _ _ _ _ fork_agent _ | OpCasIntros _ ulid name _ _ _ _ fork_agent _ _ =>
      unlogged (cas_fork_name name fork_agent ulid) c
  | OpCasSession _ ulid name _ _ _ fork_agent _ _ _ => unlogged (session_fork_name name fork_agent ulid) c
  | OpSeal _ tag snap commit _ _ _ =>
      starts_with tag (bs "tags/") = false /\ landmark_free c snap (bs "snapshot")
      /\ landmark_free c commit (bs "commit") /\ snap <> commit
  | OpLandmark _ _ kind _ => is_Some (catalog_object_type kind)
  | OpCreateSession _ _ _ _ live_ref _ => unlogged live_ref c
  | OpInsertNamespace _ _ _ _ live_ref => exists row, refs c !! live_ref = Some row /\ rc_kind row = bs "commit"
  | OpObserve _ ns mount path _ => owned c (ns, mount, path)
  | OpInsertMount ns _ _ _ _ => is_Some (namespaces c !! ns)
  | OpUpsert ns mount path _ _ => owned c (ns, mount, path) /\ utf8_valid path = true
  | OpRename ns mount from to dest => (forall path, owned c (ns, mount, path)) /\ rename_ok from to dest
  | _ => True
  end.

(** Staged paths of one mount are the files of one tree. *)
Definition staged_free (c : Catalog) : Prop :=
  forall ns mount p q, is_Some (overlay_rows c !! (ns, mount, p)) -> is_Some (overlay_rows c !! (ns, mount, q)) ->
    utf8_valid p = true /\ path_under p q = false.

(** A clean catalog none of whose sealed tags ever lost its row, and whose
    overlays can be folded into trees. *)
Definition catalog_inv (c : Catalog) : Prop :=
  catalog_ok c /\ staged_free c
  /\ forall name, starts_with name (bs "tags/") = true -> is_Some (last_log name (reflog_rows c)) ->
     is_Some (refs c !! name).

(** ** What a statement did when it succeeded *)

Section inversion.
Implicit Types (c : Catalog).

Lemma db_bind {A B} (m : db A) (f : A -> db B) c b c' :
  (m ≫= f) c = (Ok b, c') -> exists a c1, m c = (Ok a, c1) /\ f a c1 = (Ok b, c').
Proof. unfold mbind, stateM_bind. destruct (m c) as [[a|e|] c1]; [by eauto|done..]. Qed.

Lemma db_transaction {A} (m : db A) c a c' : transaction m c = (Ok a, c') -> m c = (Ok a, c').
Proof. unfold transaction. by destruct (m c) as [[|e|] c1]. Qed.

Lemma transaction_error {A} (m : db A) c r c' : transaction m c = (r, c') -> is_ok r = false -> c' = c.
Proof. unfold transaction. destruct (m c) as [[|e|] c1]; by intros [= <- <-]. Qed.

Lemma db_pure {A} (m : Result A) c a c' : pure m c = (Ok a, c') -> m = Ok a /\ c' = c.
Proof. unfold pure. by intros [= -> ->]. Qed.

Lemma db_refuse b e c u c' : refuse_if b e c = (Ok u, c') -> b = false /\ c' = c.
Proof. unfold refuse_if. destruct b; [done|]. by intros [= <- <-]. Qed.

Lemma db_ret {A} (a : A) c b c' : (mret a : db A) c = (Ok b, c') -> a = b /\ c' = c.
Proof. by intros [= <- <-]. Qed.

Lemma db_change f c u c' : change f c = (Ok u, c') -> c' = f c.
Proof. by intros [= <- <-]. Qed.

Lemma db_tables c t c' : get_tables c = (Ok t, c') -> t = c /\ c' = c.
Proof. by intros [= <- <-]. Qed.

Lemma db_throw {A} e c (a : A) c' : (throw e : db A) c = (Ok a, c') -> False.
Proof. done. Qed.

Lemma db_select name c r c' : select_ref name c = (Ok r, c') -> r = refs c !! name /\ c' = c.
Proof. by intros [= <- <-]. Qed.

Lemma db_refs_insert name row c u c' :
  refs_insert name row c = (Ok u, c') ->
  refs c !! name = None /\ ref_kind_check (rc_kind row) = true /\ c' = with_refs (insert name row) c.
Proof.
  unfold refs_insert, mbind, stateM_bind. cbn. destruct (refs c !! name); [done|].
  destruct (ref_kind_check (rc_kind row)); [|done]. by intros [= <- <-].
Qed.

Lemma db_refs_update name w f c n c' :
  refs_update name w f c = (Ok n, c') ->
  (exists r, n = 1 /\ refs c !! name = Some r /\ w r = true /\ c' = with_refs (insert name (f r)) c)
  \/ n = 0 /\ c' = c /\ (forall r, refs c !! name = Some r -> w r = false).
Proof.
  unfold refs_update, mbind, stateM_bind. cbn. destruct (refs c !! name) as [r|] eqn:E1.
  - destruct (w r) eqn:E2; intros [= <- <-]; [left; by eexists|right]. naive_solver.
  - intros [= <- <-]. by right.
Qed.

Lemma db_refs_delete name c n c' :
  refs_delete name c = (Ok n, c') -> n = 1 -> c' = with_refs (delete name) c.
Proof.
  unfold refs_delete, mbind, stateM_bind. cbn. destruct (refs c !! name); by intros [= <- <-].
Qed.

Lemma db_log row c u c' : reflog_insert row c = (Ok u, c') -> c' = log_event row c.
Proof. by intros [= <- <-]. Qed.

Lemma db_retired name c b c' :
  ref_retired name c = (Ok b, c') ->
  c' = c /\ (b = false <-> forall e, last_log name (reflog_rows c) = Some e -> l_reason e <> REFLOG_ABANDON).
Proof.
  intros [= <- <-]. split; [done|]. destruct (last_log name (reflog_rows c)) as [e|]; [|naive_solver].
  rewrite bytes_eqb_false. naive_solver.
Qed.

Lemma db_deny_retired name c u c' :
  deny_retired name c = (Ok u, c') ->
  c' = c /\ forall e, last_log name (reflog_rows c) = Some e -> l_reason e <> REFLOG_ABANDON.
Proof.
  unfold deny_retired. intros (b & c1 & H1 & H2)%db_bind.
  apply db_retired in H1 as [-> H1]. apply db_refuse in H2 as [-> ->]. split; [done|]. by apply H1.
Qed.

Lemma db_ref_exists name c b c' :
  ref_exists name c = (Ok b, c') -> c' = c /\ (b = false -> refs c !! name = None).
Proof. intros [= <- <-]. split; [done|]. by destruct (refs c !! name). Qed.

Lemma db_intros oids commit agent ts c u c' :
  insert_intros_tx oids commit agent ts c = (Ok u, c') -> exists f, c' = with_intros f c.
Proof.
  revert c. induction oids as [|oid oids IH]; intros c; cbn [insert_intros_tx].
  - intros [_ ->]%db_ret. exists (fun m => m). by destruct c.
  - intros (u1 & c1 & H1 & H2)%db_bind. apply db_change in H1 as ->.
    apply IH in H2 as [f ->]. by eexists (fun m => f _).
Qed.

Lemma db_ns_insert id row c u c' :
  namespaces_insert id row c = (Ok u, c') ->
  namespaces c !! id = None /\ c' = with_namespaces (insert id row) c.
Proof.
  unfold namespaces_insert, mbind, stateM_bind. cbn. destruct (namespaces c !! id); [done|]. by intros [= <- <-].
Qed.

Lemma db_ns_pin id oid c n c' :
  namespaces_pin id oid c = (Ok n, c') ->
  (exists r, namespaces c !! id = Some r /\ c' = apply_ev (EvPin id r oid) c) \/ n = 0 /\ c' = c.
Proof.
  unfold namespaces_pin, mbind, stateM_bind. cbn. destruct (namespaces c !! id) as [r|];
    intros [= <- <-]; [left; by eexists|by right].
Qed.

Lemma db_mounts_update ns path f c n c' :
  mounts_update ns path f c = (Ok n, c') ->
  (exists r, n = 1 /\ mounts c !! (ns, path) = Some r /\ c' = with_mounts (insert (ns, path) (f r)) c)
  \/ n = 0 /\ c' = c.
Proof.
  unfold mounts_update, mbind, stateM_bind. cbn. destruct (mounts c !! (ns, path)) as [r|];
    intros [= <- <-]; [left; by eexists|by right].
Qed.

Lemma db_mounts_insert ns path row c u c' :
  mounts_insert ns path row c = (Ok u, c') -> c' = with_mounts (insert (ns, path) row) c.
Proof.
  unfold mounts_insert, mbind, stateM_bind. cbn. destruct (mounts c !! (ns, path)); [done|].
  destruct (mode_check (mc_mode row)); [|done]. by intros [= <- <-].
Qed.

Lemma db_seals_insert tag row c u c' :
  seals_insert tag row c = (Ok u, c') -> seals c !! tag = None /\ c' = with_seals (insert tag row) c.
Proof.
  unfold seals_insert, mbind, stateM_bind. cbn. destruct (seals c !! tag); [done|].
  case_bool_decide; [done|]. by intros [= <- <-].
Qed.
End inversion.

(** [inv_db]: decompose a successful run into the statements it executed. *)
Ltac inv_db_step :=
  match goal with
  | H : (_ ≫= _) _ = (Ok _, _) |- _ =>
      apply db_bind in H; let a := fresh "a" in let c1 := fresh "c" in let Ha := fresh "Ha" in
      destruct H as (a & c1 & Ha & H); cbv beta in H
  | H : transaction _ _ = (Ok _, _) |- _ => apply db_transaction in H
  | H : run_grouped _ _ = (Ok _, _) |- _ => apply db_transaction in H
  | H : pure _ _ = (Ok _, _) |- _ => apply db_pure in H as [H ->]
  | H : refuse_if _ _ _ = (Ok _, _) |- _ => apply db_refuse in H as [H ->]
  | H : mret _ _ = (Ok _, _) |- _ => apply db_ret in H as [? ->]
  | H : change _ _ = (Ok _, _) |- _ => apply db_change in H as ->
  | H : get_tables _ = (Ok _, _) |- _ => apply db_tables in H as [-> ->]
  | H : throw _ _ = (Ok _, _) |- _ => by apply db_throw in H
  | H : select_ref _ _ = (Ok _, _) |- _ => apply db_select in H as [-> ->]
  | H : reflog_insert _ _ = (Ok _, _) |- _ => apply db_log in H as ->
  | H : deny_retired _ _ = (Ok _, _) |- _ => apply db_deny_retired in H as [-> H]
  | H : ref_exists _ _ = (Ok _, _) |- _ => apply db_ref_exists in H as [-> H]
  | H : insert_intros_tx _ _ _ _ _ = (Ok _, _) |- _ => apply db_intros in H as [? ->]
  | H : refs_insert _ _ _ = (Ok _, _) |- _ => apply db_refs_insert in H as (? & ? & ->)
  | H : mounts_insert _ _ _ _ = (Ok _, _) |- _ => apply db_mounts_insert in H as ->
  | H : namespaces_insert _ _ _ = (Ok _, _) |- _ => apply db_ns_insert in H as (? & ->)
  | H : seals_insert _ _ _ = (Ok _, _) |- _ => apply db_seals_insert in H as (? & ->)
  end.
Ltac inv_db := repeat inv_db_step.

(** ** Names *)

Lemma starts_with_clash s p q : starts_with s p = true -> starts_with p q = false -> starts_with q p = false ->
  starts_with s q = false.
Proof.
  revert p q. induction s as [|x s IH]; intros p q.
  - destruct p, q; done.
  - destruct p as [|y p], q as [|z q]; cbn; try done.
    case_bool_decide; cbn; [subst y|done]. case_bool_decide; cbn; [subst z|done].
    rewrite bool_decide_true by done. cbn. apply IH.
Qed.

Lemma valid_ref_ok name kind : valid_ref name kind <-> validate_ref_kind name kind = Ok tt.
Proof.
  unfold valid_ref. split; [|by intros ->]. by destruct (validate_ref_kind name kind) as [[]| |].
Qed.

Lemma validate_kind_tags name kind :
  valid_ref name kind -> starts_with name (bs "tags/") = true -> kind = bs "snapshot".
Proof.
  intros H%valid_ref_ok Ht.
  assert (expected_kind name = Some (bs "snapshot")) as E1.
  { unfold expected_kind. rewrite Ht, !(starts_with_clash _ _ _ Ht) by done.
    destruct (bytes_eqb name (bs "main")) eqn:E1; [|done].
    apply bytes_eqb_true in E1 as ->. discriminate Ht. }
  unfold validate_ref_kind in H. rewrite E1 in H. inv_ok.
  by apply negb_false_iff, bytes_eqb_true in H.
Qed.

Lemma commit_not_tag name : valid_ref name (bs "commit") -> starts_with name (bs "tags/") = false.
Proof.
  intros H. destruct (starts_with name (bs "tags/")) eqn:E1; [|done].
  by apply (validate_kind_tags _ _ H) in E1.
Qed.

Lemma fork_not_tag name agent ulid : starts_with (cas_fork_name name agent ulid) (bs "tags/") = false.
Proof. done. Qed.

Lemma valid_of_ok name kind u : validate_ref_kind name kind = Ok u -> valid_ref name kind.
Proof. unfold valid_ref. by intros ->. Qed.
#[export] Hint Resolve valid_of_ok commit_not_tag fork_not_tag : forge.

(** A name that is neither there nor retired was never logged. *)
Lemma unlogged_free c name :
  catalog_inv c -> refs c !! name = None ->
  (forall e, last_log name (reflog_rows c) = Some e -> l_reason e <> REFLOG_ABANDON) -> unlogged name c.
Proof.
  intros [Hok _] Hn Hr. unfold unlogged. destruct (last_log name (reflog_rows c)) as [e|] eqn:E1; [|done].
  destruct (ok_retired c Hok name e E1) as [[r ?]|H]; [congruence|]. by apply Hr in H.
Qed.

Lemma unlogged_event c e name : unlogged name c -> l_name e <> name -> unlogged name (log_event e c).
Proof. unfold unlogged, log_event. cbn [reflog_rows with_reflog]. intros H1 H2. rewrite last_log_snoc. by rewrite decide_False. Qed.

(** ** Sequences *)

Lemma steps_one allow Q c ev : guard allow ev c -> (Q -> audit_pre ev c) -> steps allow Q c (apply_ev ev c).
Proof. intros H1 H2. eapply steps_cons; [done..|]. constructor. Qed.

Lemma steps_app allow Q c1 c2 c3 : steps allow Q c1 c2 -> steps allow Q c2 c3 -> steps allow Q c1 c3.
Proof. induction 1; [done|]. intros. eapply steps_cons; eauto. Qed.

Lemma steps_snoc allow Q c c1 ev :
  steps allow Q c c1 -> guard allow ev c1 -> (Q -> audit_pre ev c1) -> steps allow Q c (apply_ev ev c1).
Proof. intros H1 H2 H3. eapply steps_app; [done|]. by apply steps_one. Qed.

(** [one ev]: the operation was the single event [ev]. *)
Ltac one ev := eapply (steps_cons _ _ _ ev); [|try done|constructor].

(** ** Every operation is a sequence of guarded events *)

Section operations.
Implicit Types (c : Catalog).

Lemma create_steps allow Q c name r e c' :
  refs c !! name = None -> valid_ref name (rc_kind r) -> ref_kind_check (rc_kind r) = true ->
  starts_with name (bs "tags/") = false -> l_name e = name -> l_new e = rc_oid r ->
  l_old e = None \/ l_reason e = bs "fork" -> (Q -> unlogged name c) ->
  steps allow Q (log_event e (with_refs (insert name r) c)) c' -> steps allow Q c c'.
Proof. intros. by eapply (steps_cons _ _ _ (EvCreate name r e)). Qed.

Lemma insert_ref_steps allow Q ts name oid kind p s agent reason c u c' :
  (Q -> catalog_inv c) -> insert_ref ts name oid kind p s agent reason c = (Ok u, c') -> steps allow Q c c'.
Proof.
  intros HQ H. unfold insert_ref in H. inv_db. simplify_eq/=.
  eapply create_steps; [..|by apply steps_nil]; eauto with forge.
  intros Hq. apply unlogged_free; auto.
Qed.

Lemma insert_ref_intros_steps allow Q ts name oid kind p s agent reason intros c u c' :
  (Q -> catalog_inv c) -> insert_ref_with_intros ts name oid kind p s agent reason intros c = (Ok u, c') ->
  steps allow Q c c'.
Proof.
  intros HQ H. unfold insert_ref_with_intros in H. inv_db. simplify_eq/=.
  eapply create_steps; [..|by apply (steps_one _ _ _ (EvIntros _))]; eauto with forge.
  intros Hq. apply unlogged_free; auto.
Qed.

Lemma with_intros_id c : with_intros (fun m => m) c = c.
Proof. by destruct c. Qed.

Lemma set_kind_same new ts r : set_oid_kind new (rc_kind r) ts r = move_row new ts r.
Proof. done. Qed.

Lemma cas_tx_steps Q intros ts ulid name expected new kind agent fork_agent allow c x c' :
  (forall c u c', intros c = (Ok u, c') -> exists f, c' = with_intros f c) ->
  valid_ref name kind -> starts_with name (bs "tags/") = false ->
  (Q -> catalog_inv c /\ unlogged (cas_fork_name name fork_agent ulid) c) ->
  cas_tx intros ts ulid name expected new kind agent fork_agent allow c = (Ok x, c') ->
  steps allow Q c c'.
Proof.
  intros Hint Hv Ht HQ H. unfold cas_tx in H. inv_db.
  destruct (refs c !! name) as [r|] eqn:Er.
  - inv_db. apply negb_false_iff, bytes_eqb_true in Ha. subst kind.
    apply db_refs_update in Ha2 as [(r' & -> & E1 & Hw & ->)|(-> & -> & Hw)]; cbn [Z.eqb Pos.eqb] in H; inv_db.
    + match goal with Hi : intros _ = _ |- _ => apply Hint in Hi as [f ->] end. rewrite Er in E1. injection E1 as <-.
      apply andb_true_iff in Hw as [Hw _]. apply bool_decide_eq_true in Hw. subst expected.
      rewrite set_kind_same.
      eapply (steps_cons _ _ _ (EvMove name r (mkLogRow name (Some (rc_oid r)) new agent (bs "cas") ts))); [|done|].
      * repeat split; try done. cbn. intros Hp.
        match goal with Ha : _ && negb allow = false |- _ => rewrite Hp in Ha end. by destruct allow.
      * by apply (steps_one _ _ _ (EvIntros f)).
    + match goal with Hi : intros _ = _ |- _ => apply Hint in Hi as [f ->] end.
      eapply create_steps; [..|by apply (steps_one _ _ _ (EvIntros f))]; eauto with forge.
      intros Hq. by apply HQ.
  - inv_db. match goal with Hi : intros _ = _ |- _ => apply Hint in Hi as [f ->] end.
    eapply create_steps; [..|by apply (steps_one _ _ _ (EvIntros f))]; eauto with forge.
    intros Hq. apply unlogged_free; [by apply HQ|done..].
Qed.

Lemma cas_ref_steps Q ts ulid name expected new kind agent fork_agent allow c x c' :
  (Q -> catalog_inv c /\ unlogged (cas_fork_name name fork_agent ulid) c) ->
  cas_ref ts ulid name expected new kind agent fork_agent allow c = (Ok x, c') -> steps allow Q c c'.
Proof.
  intros HQ H. unfold cas_ref in H. inv_db. eapply cas_tx_steps; [..|exact H]; eauto with forge.
  intros c1 u c2 [_ ->]%db_ret. exists (fun m => m). by rewrite with_intros_id.
Qed.

Lemma cas_ref_with_intros_steps Q ts ulid name expected new kind agent fork_agent allow intros c x c' :
  (Q -> catalog_inv c /\ unlogged (cas_fork_name name fork_agent ulid) c) ->
  cas_ref_with_intros ts ulid name expected new kind agent fork_agent allow intros c = (Ok x, c') ->
  steps allow Q c c'.
Proof.
  intros HQ H. unfold cas_ref_with_intros in H. inv_db. eapply cas_tx_steps; [..|exact H]; eauto with forge.
  intros c1 u c2 [f ->]%db_intros. by eexists.
Qed.

(** Every mount belongs to an open session. *)
Definition mounts_owned c : Prop :=
  forall ns path r, mounts c !! (ns, path) = Some r -> is_Some (namespaces c !! ns).

Lemma mount_update_steps allow (Q : Prop) ns path f c n c' :
  mounts_update ns path f c = (Ok n, c') -> negb (n =? 1) = false -> (Q -> mounts_owned c) ->
  steps allow Q c c' /\ (Q -> mounts_owned c').
Proof.
  intros H H1 HQ. apply db_mounts_update in H as [(r & -> & Hr & ->)|[-> ->]]; [|done]. split.
  - apply (steps_one _ _ _ (EvMount ns path (f r))); [done|]. intros Hq. by eapply HQ.
  - intros Hq ns' path' r'. cbn. intros [[[= <- <-] <-]|[_ H]]%lookup_insert_Some; [by eapply HQ|by eapply HQ].
Qed.

Lemma end_epoch_steps allow (Q : Prop) ns mount base c u c' :
  (Q -> mounts_owned c) -> end_epoch ns mount base c = (Ok u, c') -> steps allow Q c c'.
Proof.
  intros HQ H. unfold end_epoch, repin_mount_tx in H.
  apply db_bind in H as (u1 & c1 & H1 & H). apply db_change in H1 as ->.
  apply db_bind in H as (u2 & c2 & H2 & H). apply db_bind in H2 as (n & c3 & H2 & H3).
  apply db_refuse in H3 as [H3 ->]. destruct (mount_update_steps allow Q _ _ _ _ _ _ H2 H3 HQ) as [Hs Ho].
  eapply (steps_cons _ _ _ (EvUnstage _)); [done..|]. eapply steps_app; [exact Hs|].
  apply db_bind in H as (u3 & c4 & H4 & H). apply db_change in H as ->.
  assert (steps allow Q c3 c4) as Hp.
  { unfold pin_root in H4. destruct (bytes_eqb mount (bs "/")); inv_db; [|constructor].
    apply db_ns_pin in Ha as [(r & Hr & ->)|[-> ->]]; [|done].
    by apply (steps_one _ _ _ (EvPin ns r base)). }
  eapply steps_app; [exact Hp|]. by apply (steps_one _ _ _ (EvForget _)).
Qed.

Lemma noop_steps allow (Q : Prop) ns mount base c u c' :
  (Q -> catalog_inv c) -> complete_noop_session ns mount base c = (Ok u, c') -> steps allow Q c c'.
Proof.
  intros HQ H%db_transaction. eapply end_epoch_steps; [|exact H].
  intros [Hok _]%HQ ns' path r. apply (ok_mounts c Hok).
Qed.

Lemma session_cas_steps allow (Q : Prop) ts ulid name expected new agent fork_agent ns mount r c x c' :
  refs c !! name = Some r -> rc_sealed r = false -> rc_protected r = false ->
  (Q -> mounts_owned c /\ unlogged (session_fork_name name fork_agent ulid) c) ->
  session_cas ts ulid name expected new agent fork_agent ns mount (rc_oid r) c = (Ok x, c') ->
  steps allow Q c c' /\ (Q -> mounts_owned c').
Proof.
  intros Er Hs Hp HQ H. unfold session_cas in H. case_bool_decide as E1.
  - apply db_bind in H as (n & c1 & H1 & H). inv_db.
    apply db_refs_update in H1 as [(r' & -> & E2 & _ & ->)|(-> & _)]; [|done].
    rewrite Er in E2. injection E2 as <-. split; [|by intros [Hm _]%HQ].
    eapply (steps_cons _ _ _ (EvMove name r (mkLogRow name (Some expected) new agent (bs "cas") ts))); [|done|constructor].
    repeat split; try done; cbn; congruence.
  - apply db_bind in H as (u1 & c1 & H1 & H). apply db_pure in H1 as [H1 ->].
    apply db_bind in H as (u2 & c2 & H2 & H). apply db_refs_insert in H2 as (H2 & H3 & ->).
    apply db_bind in H as (u3 & c3 & H4 & H). apply db_log in H4 as ->.
    apply db_bind in H as (n & c4 & H4 & H). apply db_bind in H as (u4 & c5 & H5 & H).
    apply db_ret in H as [_ ->].
    apply db_refuse in H5 as [H5 ->].
    destruct (mount_update_steps allow Q _ _ _ _ _ _ H4 H5 (fun q => proj1 (HQ q))) as [Hm Ho].
    split; [|exact Ho]. eapply create_steps; [..|exact Hm]; eauto with forge.
    intros Hq. by apply HQ.
Qed.

Lemma cas_ref_session_steps allow (Q : Prop) ts ulid name expected new agent fork_agent ns mount intros c x c' :
  (Q -> catalog_inv c /\ unlogged (session_fork_name name fork_agent ulid) c) ->
  cas_ref_session ts ulid name expected new agent fork_agent ns mount intros c = (Ok x, c') ->
  steps allow Q c c'.
Proof.
  intros HQ H. unfold cas_ref_session in H.
  apply db_bind in H as (u0 & c0 & H0 & H). apply db_pure in H0 as [H0 ->].
  apply db_transaction in H. apply db_bind in H as (row & c1 & H1 & H). apply db_select in H1 as [-> ->].
  apply db_bind in H as (r & c1 & H1 & H). apply db_pure in H1 as [H1 ->]. apply ok_or_ok in H1.
  apply db_bind in H as (u1 & c1 & H2 & H). apply db_refuse in H2 as [H2 ->].
  apply db_bind in H as (u2 & c1 & H3 & H). apply db_refuse in H3 as [H3 ->].
  apply db_bind in H as (u3 & c1 & H4 & H). apply db_refuse in H4 as [H4 ->].
  apply db_bind in H as (res & c2 & H5 & H). apply db_bind in H as (u4 & c3 & H6 & H).
  apply db_bind in H as (u5 & c4 & H7 & H). apply db_intros in H7 as [f ->]. apply db_ret in H as [_ ->].
  eapply session_cas_steps in H5 as [Hs Ho]; [|done..|].
  - eapply steps_app; [exact Hs|]. eapply steps_app; [by eapply end_epoch_steps|].
    by apply (steps_one _ _ _ (EvIntros f)).
  - intros Hq. destruct (HQ Hq) as [[Hok _] Hu]. split; [|done]. intros ns' path' r'. apply (ok_mounts c Hok).
Qed.

Lemma retire_steps allow (Q : Prop) c name r e c' :
  refs c !! name = Some r -> rc_sealed r = false -> rc_protected r = false ->
  live_somewhere name c = false -> mounted_somewhere name c = false ->
  is_fork_ref name = true \/ starts_with name (bs "conflicts/") = true ->
  l_name e = name -> l_old e = Some (rc_oid r) -> l_new e = rc_oid r -> l_reason e = REFLOG_ABANDON ->
  steps allow Q (with_refs (delete name) (log_event e c)) c' -> steps allow Q c c'.
Proof. intros. by eapply (steps_cons _ _ _ (EvRetire name r e)). Qed.

Lemma abandon_ref_steps allow (Q : Prop) ts name agent c x c' :
  abandon_ref ts name agent c = (Ok x, c') -> steps allow Q c c'.
Proof.
  intros H. unfold abandon_ref in H. inv_db. destruct (refs c !! name) as [r|] eqn:Er.
  - inv_db. match goal with Hd : refs_delete _ _ = _ |- _ => apply db_refs_delete in Hd as -> end.
    + eapply (retire_steps _ _ c name r (mkLogRow name (Some (rc_oid r)) (rc_oid r) agent REFLOG_ABANDON ts));
        [try done..|constructor]. left. by apply negb_false_iff.
    + match goal with Hn : negb (_ =? 1) = false |- _ => apply negb_false_iff in Hn end. lia.
  - inv_db.
Qed.

Lemma check_into_ok into expected allow c u c' :
  check_into into expected allow c = (Ok u, c') ->
  c' = c /\ exists r, refs c !! into = Some r /\ rc_kind r = bs "commit" /\ rc_sealed r = false
    /\ (rc_protected r = true -> allow = true) /\ rc_oid r = expected.
Proof.
  intros H. unfold check_into in H. inv_db. destruct (refs c !! into) as [r|]; [|inv_db].
  apply db_bind in H as (u1 & c1 & H1 & H). apply db_refuse in H1 as [H1 ->].
  apply db_bind in H as (u2 & c1 & H2 & H). apply db_refuse in H2 as [H2 ->].
  apply db_bind in H as (u3 & c1 & H3 & H). apply db_refuse in H3 as [H3 ->].
  apply db_refuse in H as [H ->]. split; [done|]. exists r.
  apply negb_false_iff, bytes_eqb_true in H1. apply negb_false_iff, bool_decide_eq_true in H.
  repeat split; [done..| |done]. intros Hp. rewrite Hp in H3. by destruct allow.
Qed.

Lemma check_conflict_ok name oid c u c' :
  check_conflict name oid c = (Ok u, c') ->
  c' = c /\ exists r, refs c !! name = Some r /\ rc_kind r = bs "conflict" /\ rc_sealed r = false
    /\ rc_protected r = false /\ rc_oid r = oid
    /\ live_somewhere name c = false /\ mounted_somewhere name c = false.
Proof.
  intros H. unfold check_conflict in H. inv_db. destruct (refs c !! name) as [r|].
  - apply db_bind in H as (u1 & c1 & H1 & H). apply db_refuse in H1 as [H1 ->].
    apply db_bind in H as (u2 & c1 & H2 & H). apply db_refuse in H2 as [H2 ->].
    apply db_bind in H as (u3 & c1 & H3 & H). apply db_refuse in H3 as [H3 ->].
    apply db_bind in H as (u4 & c1 & H4 & H). apply db_refuse in H4 as [H4 ->].
    inv_db. split; [done|]. exists r.
    apply negb_false_iff, bytes_eqb_true in H1. by apply negb_false_iff, bool_decide_eq_true in H4.
  - inv_db.
Qed.

Lemma advance_into_ok ts into expected commit agent r c u c' :
  refs c !! into = Some r -> rc_kind r = bs "commit" ->
  advance_into ts into expected commit agent c = (Ok u, c') ->
  c' = apply_ev (EvMove into r (mkLogRow into (Some expected) commit agent (bs "resolve") ts)) c.
Proof.
  intros Er Hk H. unfold advance_into in H. apply db_bind in H as (n & c1 & H1 & H).
  apply db_refs_update in H1 as [(r' & -> & E2 & _ & ->)|(-> & -> & _)]; cbn [Z.eqb Pos.eqb negb] in H; inv_db.
  rewrite Er in E2. injection E2 as <-. cbn. unfold move_row, set_oid_kind. by rewrite Hk.
Qed.

Lemma publish_resolution_steps (Q : Prop) ts into expected commit cref coid rref agent allow intros c x c' :
  (Q -> catalog_inv c) ->
  publish_resolution ts into expected commit cref coid rref agent allow intros c = (Ok x, c') ->
  steps allow Q c c'.
Proof.
  intros HQ H. unfold publish_resolution in H.
  apply db_bind in H as (u0 & c0 & H0 & H). apply db_pure in H0 as [H0 ->]. unfold resolution_names in H0. inv_ok.
  apply db_transaction in H. apply db_bind in H as (u1 & c1 & H1 & H).
  apply check_into_ok in H1 as [-> (ri & Ei & Ki & Si & Pi & Oi)].
  apply db_bind in H as (u2 & c1 & H2 & H).
  apply check_conflict_ok in H2 as [-> (rc & Ec & Kc & Sc & Pc & Oc & Lc & Mc)].
  subst expected coid.
  apply db_bind in H as (b & c1 & H3 & H). apply db_ref_exists in H3 as [-> Hn].
  apply db_bind in H as (u4 & c1 & H4 & H). apply db_refuse in H4 as [-> ->]. specialize (Hn eq_refl).
  apply db_bind in H as (u5 & c1 & H5 & H). apply db_deny_retired in H5 as [-> Hr].
  apply db_bind in H as (u6 & c1 & H6 & H). apply (advance_into_ok _ _ _ _ _ ri) in H6 as ->; [|done..].
  assert (into <> cref) as N1 by (intros ->; rewrite Ei in Ec; injection Ec as ->; rewrite Ki in Kc; discriminate Kc).
  assert (into <> rref) as N2 by (intros ->; congruence).
  assert (rref <> cref) as N3 by (intros ->; congruence).
  inv_db. match goal with Hd : refs_delete _ _ = _ |- _ => apply db_refs_delete in Hd as -> end; last first.
  { match goal with Hq : negb (_ =? 1) = false |- _ => apply negb_false_iff in Hq end. lia. }
  eapply (steps_cons _ _ _ (EvMove into ri (mkLogRow into (Some (rc_oid ri)) commit agent (bs "resolve") ts)));
    [by repeat split|done|].
  eapply (create_steps _ _ _ rref (mkRefCols commit (bs "commit") false false ts)
    (mkLogRow rref None commit agent (bs "resolve") ts)); eauto with forge.
  { intros Hq. apply unlogged_event; [|done]. change (unlogged rref c). apply unlogged_free; auto. }
  eapply (retire_steps _ _ _ cref rc (mkLogRow cref (Some (rc_oid rc)) (rc_oid rc) agent REFLOG_ABANDON ts)); try done.
  { cbn. by rewrite !lookup_insert_ne by done. }
  { right. by apply negb_false_iff. }
  by apply (steps_one _ _ _ (EvIntros _)).
Qed.

Lemma commit_seal_steps allow (Q : Prop) ts tag snap commit tree agent expect c u c' :
  (Q -> catalog_inv c /\ starts_with tag (bs "tags/") = false /\ landmark_free c snap (bs "snapshot")
    /\ landmark_free c commit (bs "commit") /\ snap <> commit) ->
  commit_seal ts tag snap commit tree agent expect c = (Ok u, c') -> steps allow Q c c'.
Proof.
  intros HQ H. unfold commit_seal in H. apply db_transaction in H.
  apply db_bind in H as (u0 & c0 & H0 & H). apply db_pure in H0 as [H0 ->].
  apply db_bind in H as (b & c0 & H1 & H). apply db_ref_exists in H1 as [-> Hn].
  apply db_bind in H as (u1 & c0 & H1 & H). apply db_refuse in H1 as [-> ->]. specialize (Hn eq_refl).
  apply db_bind in H as (u2 & c0 & H1 & H).
  assert (c0 = c) as ->.
  { clear H. destruct expect as [[name oid]|]; inv_db; done. }
  unfold landmark in H. inv_db.
  apply (steps_one _ _ _ (EvSeal tag (mkSealCols snap commit tree ts) (mkLogRow (bs "tags/" ++ tag) None snap agent (bs "seal") ts))).
  - repeat split; try done; eauto with forge.
  - intros Hq. destruct (HQ Hq) as ((Hok & _ & Ht) & H1' & H2' & H3' & H4'). repeat split; [|done..].
    unfold unlogged. destruct (last_log (bs "tags/" ++ tag) (reflog_rows c)) eqn:E1; [|done].
    destruct (Ht (bs "tags/" ++ tag)) as [? ?]; [apply starts_with_app|by eexists|]. congruence.
Qed.

Lemma create_session_steps allow (Q : Prop) ts id agent pinned live mm c u c' :
  (Q -> catalog_inv c /\ unlogged live c) ->
  create_session ts id agent pinned live mm c = (Ok u, c') -> steps allow Q c c'.
Proof.
  intros HQ H. unfold create_session in H.
  apply db_bind in H as (u0 & c0 & H0 & H). apply db_pure in H0 as [H0 ->]. apply db_transaction in H.
  apply db_bind in H as (u1 & c1 & H1 & H). apply db_ns_insert in H1 as [H1 ->].
  apply db_bind in H as (u2 & c2 & H2 & H). apply db_refs_insert in H2 as (H2 & H3 & ->).
  apply db_bind in H as (u3 & c3 & H4 & H). apply db_log in H4 as ->.
  apply db_bind in H as (u4 & c4 & H4 & H). apply db_mounts_insert in H4 as ->.
  set (r := mkRefCols pinned (bs "commit") false false ts) in *.
  eapply (create_steps _ _ c live r (mkLogRow live None pinned agent (bs "session") ts)); eauto with forge.
  { intros Hq. by apply HQ. }
  eapply (steps_cons _ _ _ (EvOpen id (mkNsCols agent ts (Some pinned) (Some live)))).
  { by split. }
  { intros _ live' [= <-]. exists r. split; [|done]. cbn. by rewrite lookup_insert_eq. }
  eapply (steps_cons _ _ _ (EvMount id (bs "/") (mkMountCols (bs "ref:" ++ live) (bs "rw") (Some pinned)))); [done| |].
  { intros _. cbn. by rewrite lookup_insert_eq. }
  destruct mm.
  - apply db_mounts_insert in H as ->. apply (steps_one _ _ _ (EvMount id (bs "/main") (mkMountCols (bs "ref:main") (bs "ro") None))); [done|].
    intros _. cbn. by rewrite lookup_insert_eq.
  - apply db_ret in H as [_ ->]. constructor.
Qed.

Lemma observe_steps allow (Q : Prop) ro ns mount path seen c u c' :
  (Q -> owned c (ns, mount, path)) -> observe ro ns mount path seen c = (Ok u, c') -> steps allow Q c c'.
Proof.
  intros HQ H. unfold observe in H. apply db_bind in H as (cur & c1 & H1 & H).
  assert (c1 = c) as ->.
  { destruct ro; [by apply db_ret in H1 as [_ ->]|]. unfold observation_is_current in H1. by inv_db. }
  destruct cur; inv_db; [constructor|].
  by apply (steps_one _ _ _ (EvObserve (ns, mount, path) (Observed_kind seen, Observed_oid seen))).
Qed.

Lemma upsert_steps allow (Q : Prop) ns mount path blob exec c u c' :
  (Q -> owned c (ns, mount, path) /\ utf8_valid path = true) ->
  overlay_upsert ns mount path blob exec c = (Ok u, c') -> steps allow Q c c'.
Proof.
  intros HQ H. unfold overlay_upsert in H. inv_db.
  destruct (first_path ns mount (upsert_conflicts path) c) eqn:E1; inv_db.
  apply (steps_one _ _ _ (EvStage (ns, mount, path) (blob, exec))); [done|].
  intros Hq. destruct (HQ Hq) as [Ho Hv]. split; [done|]. split; [done|]. cbn. intros q Hs.
  apply (proj1 (first_path_none _ _ _ _)) with (p := q) in E1; [|done]. unfold upsert_conflicts in E1.
  destruct (bytes_eqb q path) eqn:E2; cbn in E1; [apply bytes_eqb_true in E2 as ->; by rewrite path_under_irrefl|].
  by apply orb_false_iff in E1 as [? ?].
Qed.

Lemma refuse_ancestor_ok ns mount p c u c' :
  refuse_ancestor ns mount p c = (Ok u, c') ->
  c' = c /\ forall q, is_Some (overlay_rows c !! (ns, mount, q)) -> path_under q p = false.
Proof.
  unfold refuse_ancestor. intros (t & c1 & H1 & H)%db_bind. apply db_tables in H1 as [-> ->].
  destruct (first_path _ _ _ _) eqn:E1; inv_db. split; [done|].
  by apply (proj1 (first_path_none _ _ (fun q => path_under q p) _)).
Qed.

(** Every staged path of the mount is apart from both endpoints, or new. *)
Definition cleared c ns mount (from to : str) (done : list str) : Prop :=
  forall q, is_Some (overlay_rows c !! (ns, mount, q)) ->
    q ∈ done \/ utf8_valid q = true
      /\ (q <> from /\ path_under from q = false /\ path_under q from = false)
      /\ (q <> to /\ path_under to q = false /\ path_under q to = false).

Lemma stage_steps allow (Q : Prop) ns mount from to all dest before c u c' :
  all = before ++ dest ->
  (Q -> (forall path, owned c (ns, mount, path)) /\ rename_ok from to all
        /\ cleared c ns mount from to ((fun d => d.1.1) <$> before)) ->
  stage_rows ns mount dest c = (Ok u, c') ->
  steps allow Q c c'
  /\ (Q -> (forall path, owned c' (ns, mount, path)) /\ rename_ok from to all
           /\ cleared c' ns mount from to ((fun d => d.1.1) <$> all)).
Proof.
  revert before c. induction dest as [|[[path oid] exec] dest IH]; intros before c Hall HQ; cbn [stage_rows].
  - intros [_ ->]%db_ret. rewrite app_nil_r in Hall. subst all. split; [constructor|done].
  - intros (u1 & c1 & H1 & H2)%db_bind. apply db_change in H1 as ->.
    destruct (IH (before ++ [(path, oid, exec)]) (overlay_put ns mount path (Some oid) exec c)) as [Hs Ho]; [| |done|].
    + by rewrite <- app_assoc.
    + intros Hq. destruct (HQ Hq) as (H1 & H3 & H4). split; [done|]. split; [done|].
      intros q. cbn. rewrite fmap_app. intros [[= <-]|[_ Hq2]]%lookup_insert_is_Some; [left|].
      * apply elem_of_app. right. by left.
      * destruct (H4 q Hq2) as [H5|H5]; [left; apply elem_of_app; by left|by right].
    + split; [|done]. eapply (steps_cons _ _ _ (EvStage (ns, mount, path) (Some oid, exec))); [done| |exact Hs].
      intros Hq. destruct (HQ Hq) as (H1 & H3 & H4). split; [by apply H1|].
      destruct H3 as (Vf & Vt & Hd & Hdd).
      assert ((path, oid, exec) ∈ all) as Hin by (subst all; apply elem_of_app; right; by left).
      destruct (Hd _ Hin) as (Vp & Hpt & _ & _). split; [done|]. cbn. intros q Hq2.
      destruct (H4 q Hq2) as [H5|(Vq & _ & (Hne & A & B))].
      * apply list_elem_of_fmap in H5 as (d & -> & Hdin).
        assert (d ∈ all) as Hd2 by (subst all; apply elem_of_app; by left).
        split; [by apply (Hdd (path, oid, exec) d)|by apply (Hdd d (path, oid, exec))].
      * by apply (apart_under q to path).
Qed.

Lemma superseded c ns mount e q :
  is_Some (overlay_rows (with_overlay (delete_where (fun k =>
    of_mount ns mount k && (bytes_eqb k.2 e || path_under e k.2))) c) !! (ns, mount, q)) ->
  is_Some (overlay_rows c !! (ns, mount, q)) /\ q <> e /\ path_under e q = false.
Proof.
  cbn. unfold delete_where. intros [v [H1 H2]%map_lookup_filter_Some]. cbn in H2.
  unfold of_mount in H2. cbn in H2. rewrite !(proj2 (bytes_eqb_true _ _) eq_refl) in H2. cbn in H2.
  apply Is_true_true, negb_true_iff, orb_false_iff in H2 as [H2%bytes_eqb_false H3]. split; [by exists v|done].
Qed.

Lemma rename_steps allow (Q : Prop) ns mount from to dest c u c' :
  (Q -> (forall path, owned c (ns, mount, path)) /\ rename_ok from to dest /\ staged_free c) ->
  overlay_rename ns mount from to dest c = (Ok u, c') -> steps allow Q c c'.
Proof.
  intros HQ H. unfold overlay_rename in H. apply db_transaction in H.
  apply db_bind in H as (u1 & c1 & H1 & H). apply db_change in H1.
  apply db_bind in H as (u2 & c2 & H2 & H). apply db_change in H2.
  apply db_bind in H as (u3 & c3 & H3 & H). apply refuse_ancestor_ok in H3 as [-> A1].
  apply db_bind in H as (u4 & c4 & H4 & H). apply refuse_ancestor_ok in H4 as [-> A2].
  apply db_bind in H as (u5 & c5 & H5 & H). apply db_change in H as ->.
  assert (steps allow Q c c2) as Hs0.
  { subst c1 c2. eapply (steps_cons _ _ _ (EvUnstage _)); [done..|]. by apply (steps_one _ _ _ (EvUnstage _)). }
  eapply (stage_steps allow Q _ _ from to dest dest []) in H5 as [Hs Ho]; [|done|].
  - eapply steps_app; [exact Hs0|]. eapply steps_app; [exact Hs|].
    apply (steps_one _ _ _ (EvStage (ns, mount, from) (None, false))); [done|].
    intros Hq. destruct (Ho Hq) as (B1 & (Vf & Vt & Hd & Hdd) & B3). split; [by apply B1|]. split; [done|].
    cbn. intros q Hq2. destruct (B3 q Hq2) as [B4|(Vq & (Hne & B5 & B6) & _)]; [|done].
    apply list_elem_of_fmap in B4 as (d & -> & Hdin). by apply Hd.
  - intros Hq. destruct (HQ Hq) as (B1 & B2 & B3). split; [|split; [done|]].
    + intros path. subst c1 c2. apply B1.
    + intros q Hq2. right. pose proof (A1 q Hq2). pose proof (A2 q Hq2).
      subst c1 c2. apply superseded in Hq2 as (Hq3 & Hq4 & Hq5). apply superseded in Hq3 as (Hq6 & Hq7 & Hq8).
      split; [by eapply B3|]. done.
Qed.

Lemma abandon_session_steps allow (Q : Prop) ns discard c x c' :
  abandon_session ns discard c = (Ok x, c') -> steps allow Q c c'.
Proof. intros H. unfold abandon_session in H. inv_db. by apply (steps_one _ _ _ (EvClose ns)). Qed.

Lemma pin_steps allow (Q : Prop) ns oid c n c' : namespaces_pin ns oid c = (Ok n, c') -> steps allow Q c c'.
Proof.
  intros [(r & Hr & ->)|[-> ->]]%db_ns_pin; [|constructor]. by apply (steps_one _ _ _ (EvPin ns r oid)).
Qed.

Lemma update_spec_steps allow (Q : Prop) ns path spec c u c' :
  (Q -> catalog_inv c) -> update_mount_spec ns path spec c = (Ok u, c') -> steps allow Q c c'.
Proof.
  intros HQ H. unfold update_mount_spec in H. inv_db.
  apply db_mounts_update in Ha as [(r & -> & Hr & ->)|[-> ->]]; [|constructor].
  apply (steps_one _ _ _ (EvMount ns path (mkMountCols spec (mc_mode r) (mc_base r)))); [done|].
  intros [Hok _]%HQ. by apply (ok_mounts c Hok ns path r).
Qed.

Lemma void_ok {A} (m : db A) c u c' : void m c = (Ok u, c') -> exists a, m c = (Ok a, c').
Proof. unfold void. intros (a & c1 & H1 & H2)%db_bind. apply db_ret in H2 as [_ ->]. by eexists. Qed.

Lemma run_ok_steps op c u c' :
  run op c = (Ok u, c') -> steps (op_allows op) (catalog_inv c /\ obligations op c) c c'.
Proof.
  destruct op; cbn [run op_allows obligations]; intros H;
    try lazymatch type of H with void _ _ = _ => apply void_ok in H as [x H] end.
  - by eapply insert_ref_steps; [|exact H]; intros [? _].
  - by eapply insert_ref_intros_steps; [|exact H]; intros [? _].
  - by eapply cas_ref_steps; [|exact H].
  - by eapply cas_ref_with_intros_steps; [|exact H].
  - by eapply cas_ref_session_steps; [|exact H].
  - by eapply noop_steps; [|exact H]; intros [? _].
  - by eapply abandon_ref_steps.
  - by eapply publish_resolution_steps; [|exact H]; intros [? _].
  - by eapply commit_seal_steps; [|exact H].
  - unfold landmark in H. inv_db. apply (steps_one _ _ _ (EvLandmark oid (mkLandmarkCols kind reason ts))); [done|].
    by intros [_ ?].
  - unfold intro_insert_many in H. inv_db. by apply (steps_one _ _ _ (EvIntros _)).
  - unfold gc_sweep, forget_object in H. inv_db. by apply (steps_one _ _ _ (EvIntros _)).
  - by eapply create_session_steps; [|exact H].
  - unfold insert_namespace in H. inv_db.
    apply (steps_one _ _ _ (EvOpen id (mkNsCols agent ts (Some pinned) (Some live_ref)))); [by split|].
    by intros [_ ?] live [= <-].
  - unfold set_pin in H. inv_db. by eapply pin_steps.
  - by eapply observe_steps; [|exact H]; intros [_ ?].
  - unfold observations_clear in H. inv_db. by apply (steps_one _ _ _ (EvForget _)).
  - unfold insert_mount, mounts_replace in H. cbn [mc_mode] in H. destruct (mode_check mode); inv_db.
    apply (steps_one _ _ _ (EvMount ns path (mkMountCols spec mode base))); [done|]. by intros [_ ?].
  - by eapply update_spec_steps; [|exact H]; intros [? _].
  - by eapply upsert_steps; [|exact H]; intros [_ ?].
  - by eapply rename_steps; [|exact H]; intros [(? & ? & ?) [? ?]].
  - unfold overlay_clear in H. inv_db. by apply (steps_one _ _ _ (EvUnstage _)).
  - by eapply abandon_session_steps.
Qed.
End operations.

(** ** An operation that fails leaves the catalog as it was *)

Definition keeps {A} (m : db A) : Prop := forall c, (m c).2 = c.
Definition atomic {A} (m : db A) : Prop := forall c r c', m c = (r, c') -> is_ok r = false -> c' = c.

Lemma atomic_keeps {A} (m : db A) : keeps m -> atomic m.
Proof. intros H c r c' E1 _. specialize (H c). by rewrite E1 in H. Qed.

Lemma atomic_transaction {A} (m : db A) : atomic (transaction m).
Proof. intros c r c'. apply transaction_error. Qed.

Lemma atomic_bind {A B} (m : db A) (f : A -> db B) : keeps m -> (forall a, atomic (f a)) -> atomic (m ≫= f).
Proof.
  intros Hm Hf c r c'. unfold mbind, stateM_bind. specialize (Hm c).
  destruct (m c) as [[a|e|] c1]; cbn in Hm; subst c1; [by apply Hf|by intros [= <- <-]..].
Qed.

Lemma atomic_last {A B} (m : db A) (g : A -> B) : atomic m -> atomic (a ← m; mret (g a)).
Proof.
  intros Hm c r c'. unfold mbind, stateM_bind. destruct (m c) as [[a|e|] c1] eqn:E1.
  - by intros [= <- <-].
  - intros [= <- <-] _. by eapply Hm.
  - intros [= <- <-] _. by eapply Hm.
Qed.

Lemma atomic_change f : atomic (change f).
Proof. by intros c r c' [= <- <-]. Qed.

Lemma keeps_bind {A B} (m : db A) (f : A -> db B) : keeps m -> (forall a, keeps (f a)) -> keeps (m ≫= f).
Proof.
  intros Hm Hf c. unfold mbind, stateM_bind. specialize (Hm c).
  destruct (m c) as [[a|e|] c1]; cbn in Hm; subst c1; [apply Hf|done..].
Qed.

Lemma keeps_pure {A} (m : Result A) : keeps (pure m).
Proof. done. Qed.
Lemma keeps_refuse b e : keeps (refuse_if b e).
Proof. by destruct b. Qed.
Lemma keeps_ret {A} (a : A) : keeps (mret a).
Proof. done. Qed.
Lemma keeps_tables : keeps get_tables.
Proof. done. Qed.
Lemma keeps_throw {A} e : keeps (@throw Error Catalog A e).
Proof. done. Qed.
Lemma keeps_current ns mount path kind oid : keeps (observation_is_current ns mount path kind oid).
Proof. done. Qed.

Create HintDb atomicity.
#[export] Hint Resolve atomic_transaction atomic_bind atomic_change atomic_keeps keeps_pure keeps_refuse
  keeps_ret keeps_tables keeps_throw keeps_current : atomicity.

Lemma atomic_namespaces_insert id r : atomic (namespaces_insert id r).
Proof.
  unfold namespaces_insert. apply atomic_bind; [apply keeps_tables|]. intros c.
  destruct (namespaces c !! id); unfold constraint_failed; auto with atomicity.
Qed.

Lemma atomic_namespaces_pin id oid : atomic (namespaces_pin id oid).
Proof.
  unfold namespaces_pin. apply atomic_bind; [apply keeps_tables|]. intros c.
  destruct (namespaces c !! id); [apply (atomic_last _ (fun _ => 1))|]; auto with atomicity.
Qed.

Lemma atomic_mounts_update ns path f : atomic (mounts_update ns path f).
Proof.
  unfold mounts_update. apply atomic_bind; [apply keeps_tables|]. intros c.
  destruct (mounts c !! (ns, path)); [apply (atomic_last _ (fun _ => 1))|]; auto with atomicity.
Qed.

Lemma atomic_forget ro oid : atomic (gc_sweep ro (forget_object oid)).
Proof. unfold gc_sweep. auto with atomicity. Qed.

Lemma run_atomic op : atomic (run op).
Proof.
  destruct op; cbn [run]; unfold void;
    unfold insert_ref, insert_ref_with_intros, cas_ref, cas_ref_with_intros, cas_ref_session, complete_noop_session,
      abandon_ref, publish_resolution, commit_seal, landmark, intro_insert_many, create_session, insert_namespace,
      set_pin, observe, observations_clear, insert_mount, mounts_replace, update_mount_spec, overlay_upsert,
      overlay_rename, overlay_clear, abandon_session, run_grouped, gc_sweep;
    try (apply (atomic_last _ (fun _ => tt)));
    repeat first [ apply atomic_transaction | apply atomic_change | apply atomic_namespaces_insert
                 | apply atomic_namespaces_pin | apply atomic_mounts_update
                 | apply atomic_bind; [auto with atomicity|intros ?]
                 | apply atomic_keeps; auto with atomicity; fail ].
  - destruct read_only; auto with atomicity.
  - destruct a; [auto with atomicity|apply atomic_transaction].
  - cbn [mc_mode]. destruct (mode_check mode); auto with atomicity.
Qed.

(** Whatever an operation answers, what it did is a sequence of guarded events. *)
Lemma run_steps op c : steps (op_allows op) (catalog_inv c /\ obligations op c) c (run op c).2.
Proof.
  destruct (run op c) as [r c'] eqn:E1. destruct r as [u|e|].
  - by eapply run_ok_steps.
  - rewrite (run_atomic op _ _ _ E1 eq_refl). constructor.
  - rewrite (run_atomic op _ _ _ E1 eq_refl). constructor.
Qed.
