(* ===== verification/CatalogInv.v ===== *)
(** * What the catalog keeps

    The audit stays clean along every history; the life of a ref refines a
    three-state machine (absent, live, retired); sealed and protected refs;
    retired names.  Each theorem is an induction over the guarded events of
    [Events], so it holds of every operation and of every sequence of them. *)

From S2P Require Import Prelude RustStd Types Overlay Namespace Catalog Refs Sessions CatAudit Events.

(** ** Histories *)

(** A catalog some sequence of operations leads to, the callers meeting their
    obligations. *)
Inductive history : Catalog -> Prop :=
| history_new : history empty_catalog
| history_op c op : history c -> obligations op c -> history (run op c).2.

(** ** The life of a ref *)

Inductive Life :=
| Live (oid : ObjectId) (kind : str) (protected sealed : bool)
| Retired (oid : ObjectId).

Definition live_of (r : RefCols) : Life := Live (rc_oid r) (rc_kind r) (rc_protected r) (rc_sealed r).

Definition tombstone (e : ObjectId * str) : option Life :=
  if bytes_eqb e.2 REFLOG_ABANDON then Some (Retired e.1) else None.

(** The refs of a catalog as a caller knows them: its rows, and the names
    whose last reflog entry is a tombstone. *)
Definition lives (c : Catalog) : gmap str Life :=
  (live_of <$> refs c) ∪ omap tombstone (terminal_reflog (scan_reflog (reflog_rows c))).

Definition retirable (name : str) : Prop :=
  is_fork_ref name = true \/ starts_with name (bs "conflicts/") = true.

(** The abstract machine: a name is born once, moves while it is live and not
    sealed (with permission if it is protected), and may end retired. *)
Inductive life_step (allow : bool) : gmap str Life -> gmap str Life -> Prop :=
| life_born L name oid kind protected sealed :
    L !! name = None -> valid_ref name kind ->
    (starts_with name (bs "tags/") = true -> protected = true /\ sealed = true) ->
    life_step allow L (<[name := Live oid kind protected sealed]> L)
| life_moved L name oid oid' kind protected :
    L !! name = Some (Live oid kind protected false) -> (protected = true -> allow = true) ->
    life_step allow L (<[name := Live oid' kind protected false]> L)
| life_retired L name oid kind :
    L !! name = Some (Live oid kind false false) -> retirable name ->
    life_step allow L (<[name := Retired oid]> L).

Definition final (l : Life) : Prop :=
  match l with Live _ _ _ sealed => sealed = true | Retired _ => True end.

(** ** Events keep the audit clean *)

Section events.
Implicit Types (c : Catalog).

Lemma delete_where_lookup {K A} `{Countable K} (p : K -> bool) (m : gmap K A) k x :
  delete_where p m !! k = Some x <-> m !! k = Some x /\ p k = false.
Proof.
  unfold delete_where. rewrite map_lookup_filter_Some. cbn.
  rewrite Is_true_true, negb_true_iff. done.
Qed.

Lemma insert_or_ignore_lookup {K A} `{Countable K} (k : K) (x : A) m j :
  insert_or_ignore k x m !! j = if decide (j = k) then Some (default x (m !! k)) else m !! j.
Proof.
  unfold insert_or_ignore. destruct (m !! k) as [y|] eqn:E1; case_decide; subst; cbn; try done.
  - by rewrite lookup_insert_eq.
  - by rewrite lookup_insert_ne.
Qed.

Lemma tag_of_ref tag tag' : bs "tags/" ++ tag = bs "tags/" ++ tag' -> tag = tag'.
Proof. apply app_inv_head. Qed.

Lemma trim_tag tag : starts_with tag (bs "tags/") = false -> trim_start_matches (bs "tags/" ++ tag) (bs "tags/") = tag.
Proof.
  intros H. unfold trim_start_matches. rewrite length_app. change (length (bs "tags/")) with 5%nat.
  cbn [Nat.add trim_start_fuel]. rewrite (proj2 (strip_prefix_spec (bs "tags/" ++ tag) (bs "tags/") tag) eq_refl).
  assert (strip_prefix tag (bs "tags/") = None) as ->; [|done]. unfold strip_prefix. by rewrite H.
Qed.

Lemma chain_log_event c e name :
  (forall n, chain (log_of n (reflog_rows c))) -> link (last_log (l_name e) (reflog_rows c)) e ->
  chain (log_of name (reflog_rows (log_event e c))).
Proof.
  intros Hc Hl. cbn [log_event reflog_rows with_reflog]. rewrite log_of_snoc. case_decide as E1; [|done].
  subst name. by constructor.
Qed.

Lemma last_log_event c e name :
  last_log name (reflog_rows (log_event e c)) = if decide (l_name e = name) then Some e else last_log name (reflog_rows c).
Proof. cbn [log_event reflog_rows with_reflog]. apply last_log_snoc. Qed.

Lemma ref_kind_type kind : ref_kind_check kind = true -> is_Some (catalog_ref_type kind).
Proof.
  unfold ref_kind_check, catalog_ref_type.
  destruct (bytes_eqb kind (bs "tree")); [by eexists|].
  destruct (bytes_eqb kind (bs "commit")); [by eexists|].
  destruct (bytes_eqb kind (bs "conflict")); [by eexists|].
  destruct (bytes_eqb kind (bs "snapshot")); [by eexists|done].
Qed.

(** Adding or moving one ref, with the entry that records it. *)
Lemma put_ref_ok c name r e :
  catalog_inv c -> ref_ok name r -> l_name e = name -> l_new e = rc_oid r ->
  link (last_log name (reflog_rows c)) e ->
  (forall r0, refs c !! name = Some r0 -> rc_kind r0 = rc_kind r /\ rc_sealed r0 = false) ->
  (starts_with name (bs "tags/") = true -> is_Some (refs c !! name)) ->
  catalog_inv (log_event e (with_refs (insert name r) c)).
Proof.
  intros [[] [Hfree Ht]] Hr Hn Hnew Hlink Hold Htag. split; [constructor|split]; try done.
  - cbn. intros n r' [[<- <-]|[_ H]]%lookup_insert_Some; auto.
  - intros n. apply (chain_log_event (with_refs (insert name r) c)); [done|]. by rewrite Hn.
  - intros n r'. cbn [refs log_event with_reflog with_refs]. setoid_rewrite (last_log_event (with_refs (insert name r) c)). rewrite Hn.
    intros [[<- <-]|[Hne H]]%lookup_insert_Some.
    + exists e. by rewrite decide_True.
    + rewrite decide_False by done. by apply ok_head.
  - intros n e'. rewrite (last_log_event (with_refs (insert name r) c)), Hn.
    cbn [refs log_event with_reflog with_refs].
    case_decide as E1; [subst n; intros _; left; by rewrite lookup_insert_eq|].
    rewrite lookup_insert_ne by done. apply ok_retired.
  - cbn. intros id r' H. destruct (ok_ns _ _ H) as [H1 H2]. split; [done|]. intros live Hl.
    destruct (H2 live Hl) as (row & Hrow & Hk). destruct (decide (name = live)) as [->|Hne].
    + rewrite lookup_insert_eq. eexists. split; [done|]. destruct (Hold _ Hrow) as [<- _]. done.
    + rewrite lookup_insert_ne by done. by exists row.
  - cbn. intros tag s H. destruct (ok_seals _ _ H) as (r' & H1 & H2). exists r'. split; [|done].
    destruct (decide (name = bs "tags/" ++ tag)) as [->|Hne].
    + destruct (Hold _ H1) as [_ Hs]. destruct H2 as (_ & _ & _ & H2). congruence.
    + by rewrite lookup_insert_ne.
  - cbn. intros n r' [[<- <-]|[_ H]]%lookup_insert_Some Hts; [|by eapply ok_tags].
    destruct (Htag Hts) as [r0 H0]. by eapply ok_tags.
  - intros n Hts. rewrite (last_log_event (with_refs (insert name r) c)), Hn.
    cbn [refs log_event with_reflog with_refs].
    case_decide as E1; [subst n; intros _; by rewrite lookup_insert_eq|].
    rewrite lookup_insert_ne by done. by apply Ht.
Qed.

Lemma not_live c name id r : live_somewhere name c = false -> namespaces c !! id = Some r -> ns_live_ref r <> Some name.
Proof. unfold live_somewhere. intros H%bool_decide_eq_false H1 H2. apply H. by exists id, r. Qed.

Lemma retire_keeps c name r e :
  catalog_inv c -> guard false (EvRetire name r e) c -> catalog_inv (apply_ev (EvRetire name r e) c).
Proof.
  intros [[] [Hfree Ht]] (Hr & Hs & Hp & Hl & _ & _ & Hn & Hold & Hnew & Hreason).
  assert (starts_with name (bs "tags/") = false) as Hnt.
  { destruct (starts_with name (bs "tags/")) eqn:E1; [|done].
    destruct (ok_refs _ _ Hr) as (_ & _ & H). destruct (H E1) as (_ & H2 & _). congruence. }
  split; [constructor|split]; try done.
  - cbn. intros n r' [_ H]%lookup_delete_Some. auto.
  - intros n. apply (chain_log_event c); [done|]. rewrite Hn.
    destruct (ok_head _ _ Hr) as (e' & -> & He). cbn. congruence.
  - intros n r'. change (reflog_rows (apply_ev (EvRetire name r e) c)) with (reflog_rows (log_event e c)).
    rewrite last_log_event, Hn. cbn. intros [Hne H]%lookup_delete_Some. rewrite decide_False by done. auto.
  - intros n e'. change (reflog_rows (apply_ev (EvRetire name r e) c)) with (reflog_rows (log_event e c)).
    rewrite last_log_event, Hn. cbn. case_decide; [intros [= <-]; by right|].
    rewrite lookup_delete_ne by done. auto.
  - cbn. intros id r' H. destruct (ok_ns _ _ H) as [H1 H2]. split; [done|]. intros live Hlive.
    rewrite lookup_delete_ne; [by apply H2|]. intros ->. by eapply not_live.
  - cbn. intros tag s H. destruct (ok_seals _ _ H) as (r' & H1 & H2). exists r'. split; [|done].
    rewrite lookup_delete_ne; [done|]. intros E1. rewrite <- E1, Hr in H1. injection H1 as <-.
    destruct H2 as (_ & _ & _ & H2). congruence.
  - cbn. intros n r' [_ H]%lookup_delete_Some. by eapply ok_tags.
  - intros n Hts. change (reflog_rows (apply_ev (EvRetire name r e) c)) with (reflog_rows (log_event e c)).
    rewrite last_log_event, Hn. cbn. case_decide; [congruence|]. rewrite lookup_delete_ne by done. by apply Ht.
Qed.

Lemma landmarks_seal snap commit ts (m : gmap ObjectId LandmarkCols) oid l :
  insert_or_ignore commit (mkLandmarkCols (bs "commit") (bs "seal") ts)
    (insert_or_ignore snap (mkLandmarkCols (bs "snapshot") (bs "seal") ts) m) !! oid = Some l ->
  m !! oid = Some l \/ lm_kind l = bs "commit" \/ lm_kind l = bs "snapshot".
Proof.
  rewrite !insert_or_ignore_lookup. repeat case_decide; subst; try tauto.
  - destruct (m !! snap); cbn; intros [= <-]; [by left|by right; right].
  - destruct (m !! commit); cbn; intros [= <-]; [by left|by right; left].
  - destruct (m !! snap); cbn; intros [= <-]; [by left|by right; right].
Qed.

Lemma insert_or_ignore_keeps {K A} `{Countable K} (k : K) (x : A) m j y :
  m !! j = Some y -> insert_or_ignore k x m !! j = Some y.
Proof. intros H1. rewrite insert_or_ignore_lookup. case_decide; [subst; by rewrite H1|done]. Qed.

Lemma seal_keeps c tag s e :
  catalog_inv c -> guard false (EvSeal tag s e) c -> audit_pre (EvSeal tag s e) c ->
  catalog_inv (apply_ev (EvSeal tag s e) c).
Proof.
  intros [[] [Hfree Ht]] (Hr & Hv & Hs & Hn & Hnew & Hold & _) (Hu & Htt & Hls & Hlc & Hne).
  set (row := seal_row (sl_snap s) (sl_ts_ms s)). set (name := bs "tags/" ++ tag) in *.
  set (c1 := log_event e (with_refs (insert name row) c)).
  assert (reflog_rows (apply_ev (EvSeal tag s e) c) = reflog_rows c1) as Hlog by done.
  assert (refs (apply_ev (EvSeal tag s e) c) = <[name := row]> (refs c)) as Hrefs by done.
  assert (forall n, last_log n (reflog_rows c1) = if decide (name = n) then Some e else last_log n (reflog_rows c)) as Hlast.
  { intros n. unfold c1. by rewrite last_log_event, Hn. }
  assert (forall oid k, landmarked c oid k -> landmarked (apply_ev (EvSeal tag s e) c) oid k) as Hlm.
  { intros oid k (l & H1 & H2). exists l. split; [|done]. cbn. by do 2 apply insert_or_ignore_keeps. }
  split; [constructor|split]; rewrite ?Hlog, ?Hrefs; try done.
  - intros n r' [[<- <-]|[_ H]]%lookup_insert_Some; [|auto].
    split; [done|]. split; [by eexists|done].
  - intros n. apply (chain_log_event (with_refs (insert name row) c)); [done|]. rewrite Hn.
    change (reflog_rows (with_refs (insert name row) c)) with (reflog_rows c). rewrite Hu. by left.
  - intros n r'. rewrite Hlast. intros [[<- <-]|[Hne' H]]%lookup_insert_Some.
    + exists e. by rewrite decide_True.
    + rewrite decide_False by done. auto.
  - intros n e'. rewrite Hlast. case_decide; [subst n; intros _; left; by rewrite lookup_insert_eq|].
    rewrite lookup_insert_ne by done. auto.
  - cbn. intros id r' H. destruct (ok_ns _ _ H) as [H1 H2]. split; [done|]. intros live Hl.
    destruct (H2 live Hl) as (row' & Hrow & Hk). rewrite lookup_insert_ne; [by exists row'|].
    intros E1. assert (refs c !! live = None) by (rewrite <- E1; exact Hr). congruence.
  - cbn. intros t s' [[<- <-]|[Hne' H]]%lookup_insert_Some.
    + exists row. by rewrite lookup_insert_eq.
    + destruct (ok_seals _ _ H) as (r' & H1 & H2). exists r'. split; [|done].
      rewrite lookup_insert_ne; [done|]. by intros ?%tag_of_ref.
  - cbn [seals apply_ev landmark_row with_landmarks with_seals].
    intros n r' [[<- <-]|[_ H]]%lookup_insert_Some Hts.
    + unfold name. rewrite trim_tag by done. by rewrite lookup_insert_eq.
    + destruct (decide (tag = trim_start_matches n (bs "tags/"))) as [<-|?];
        [by rewrite lookup_insert_eq|]. rewrite lookup_insert_ne by done. by eapply ok_tags.
  - intros oid l H. apply landmarks_seal in H as [H|[->| ->]]; [by eapply ok_landmarks|by eexists..].
  - cbn [seals apply_ev landmark_row with_landmarks with_seals].
    intros t s' [[<- <-]|[_ H]]%lookup_insert_Some.
    + unfold landmarked. cbn. rewrite !insert_or_ignore_lookup.
      rewrite (decide_False (P:=sl_snap s = sl_commit s)) by done. rewrite !decide_True by done.
      rewrite (decide_False (P:=sl_commit s = sl_snap s)) by done. split; eexists; (split; [done|]).
      * destruct (landmarks c !! sl_snap s) eqn:E1; [by apply Hls|done].
      * destruct (landmarks c !! sl_commit s) eqn:E1; [by apply Hlc|done].
    + destruct (ok_seal_landmarks _ _ H). split; by apply Hlm.
  - intros n Hts. rewrite Hlast. case_decide; [subst n; intros _; by rewrite lookup_insert_eq|].
    rewrite lookup_insert_ne by done. by apply Ht.
Qed.

Lemma unstage_free c p : staged_free c -> staged_free (with_overlay (delete_where p) c).
Proof.
  intros H ns mount q1 q2 [v1 [H1 _]%delete_where_lookup] [v2 [H2 _]%delete_where_lookup].
  by apply (H ns mount); eexists.
Qed.

Lemma stage_free c k v : staged_free c -> free_at c k -> staged_free (with_overlay (insert k v) c).
Proof.
  destruct k as [[ns mount] path]. intros H [Hv Hk] ns' mount' p q. cbn in *.
  intros [[= <- <- <-]|[_ Hp]]%lookup_insert_is_Some [E|[_ Hq]]%lookup_insert_is_Some.
  - injection E as <-. split; [done|apply path_under_irrefl].
  - split; [done|by apply Hk].
  - injection E as <- <- <-. split; [by apply (H ns mount p p)|by apply Hk].
  - by apply (H ns' mount').
Qed.

Lemma close_keeps c ns : catalog_inv c -> catalog_inv (apply_ev (EvClose ns) c).
Proof.
  intros [[] [Hfree Ht]].
  assert (forall k, k.1.1 <> ns -> owned c k -> owned (apply_ev (EvClose ns) c) k) as Hown.
  { intros k Hk [H1 [r H2]]. split; cbn; [by rewrite lookup_delete_ne|]. exists r.
    apply delete_where_lookup. split; [done|]. by apply bytes_eqb_false. }
  split; [constructor|split]; try done; cbn.
  - intros id r [_ H]%lookup_delete_Some. by eapply ok_ns.
  - intros n path r [H H1]%delete_where_lookup. apply bytes_eqb_false in H1. cbn in H1.
    rewrite lookup_delete_ne by done. by eapply ok_mounts.
  - intros k o [H H1]%delete_where_lookup. apply bytes_eqb_false in H1. apply Hown; [done|]. by eapply ok_observations.
  - intros k o [H H1]%delete_where_lookup. apply bytes_eqb_false in H1. apply Hown; [done|]. by eapply ok_overlay.
  - by apply (unstage_free c).
Qed.

Lemma event_keeps allow ev c :
  catalog_inv c -> guard allow ev c -> audit_pre ev c -> catalog_inv (apply_ev ev c).
Proof.
  intros Hinv Hg Hp. pose proof Hinv as [[] [Hfree Ht]]. destruct ev.
  - destruct Hg as (H1 & H2 & H3 & H4 & H5 & H6 & H7). cbn in Hp. apply put_ref_ok; try done.
    + split; [done|]. split; [by apply ref_kind_type|]. congruence.
    + unfold unlogged in Hp. by rewrite Hp.
    + congruence.
    + congruence.
  - destruct Hg as (H1 & H2 & H3 & H4 & H5 & H6). apply put_ref_ok; try done.
    + by apply (ok_refs _ _ H1).
    + destruct (ok_head _ _ H1) as (e' & -> & He). cbn. congruence.
    + intros r0 H. rewrite H1 in H. by injection H as <-.
  - by apply retire_keeps.
  - by apply seal_keeps.
  - split; [constructor|split]; try done; cbn.
    + intros o l'. rewrite insert_or_ignore_lookup. case_decide as E; [subst o|by apply ok_landmarks].
      destruct (landmarks c !! oid) eqn:E1; cbn; intros [= <-]; [by eapply ok_landmarks|done].
    + intros tag s H. destruct (ok_seal_landmarks _ _ H) as [(l1 & A1 & B1) (l2 & A2 & B2)].
      split; eexists; (split; [by apply insert_or_ignore_keeps|done]).
  - split; [by constructor|done].
  - destruct Hg as [H1 H2]. cbn in Hp. split; [constructor|split]; try done; cbn.
    + intros i r' [[<- <-]|[_ H]]%lookup_insert_Some; [by split|by eapply ok_ns].
    + intros n path r' H. rewrite lookup_insert_is_Some. destruct (decide (id = n)); [by left|right].
      split; [done|]. by eapply ok_mounts.
    + intros k o H. destruct (ok_observations _ _ H). split; [|done]. cbn.
      rewrite lookup_insert_is_Some. destruct (decide (id = k.1.1)); [by left|by right].
    + intros k o H. destruct (ok_overlay _ _ H). split; [|done]. cbn.
      rewrite lookup_insert_is_Some. destruct (decide (id = k.1.1)); [by left|by right].
  - cbn in Hg. split; [constructor|split]; try done; cbn.
    + intros i r' [[<- <-]|[_ H]]%lookup_insert_Some; [|by eapply ok_ns]. split; [by eexists|]. by apply (ok_ns _ _ Hg).
    + intros n path r' H. rewrite lookup_insert_is_Some. destruct (decide (id = n)); [by left|right].
      split; [done|]. by eapply ok_mounts.
    + intros k o H. destruct (ok_observations _ _ H). split; [|done]. cbn.
      rewrite lookup_insert_is_Some. destruct (decide (id = k.1.1)); [by left|by right].
    + intros k o H. destruct (ok_overlay _ _ H). split; [|done]. cbn.
      rewrite lookup_insert_is_Some. destruct (decide (id = k.1.1)); [by left|by right].
  - cbn in Hp.
    assert (forall k, owned c k -> owned (apply_ev (EvMount ns path r) c) k) as Hown.
    { intros k [A B]. split; [done|]. cbn. rewrite lookup_insert_is_Some.
      destruct (decide ((ns, path) = (k.1.1, k.1.2))); [by left|by right]. }
    split; [constructor|split]; try done.
    + cbn. intros n p r' [[[= <- <-] <-]|[_ H]]%lookup_insert_Some; [done|by eapply ok_mounts].
    + intros k o H. apply Hown. by eapply ok_observations.
    + intros k o H. apply Hown. by eapply ok_overlay.
  - destruct Hp as [Hp Hat]. split; [constructor|split]; try done; cbn.
    + intros k' o [[<- <-]|[_ H]]%lookup_insert_Some; [done|by eapply ok_overlay].
    + by apply stage_free.
  - split; [constructor|split]; try done; cbn.
    + intros k o [H _]%delete_where_lookup. by eapply ok_overlay.
    + by apply unstage_free.
  - cbn in Hp. split; [constructor|split]; try done; cbn.
    intros k' o [[<- <-]|[_ H]]%lookup_insert_Some; [done|by eapply ok_observations].
  - split; [constructor|split]; try done; cbn. intros k o [H _]%delete_where_lookup. by eapply ok_observations.
  - by apply close_keeps.
Qed.

Lemma steps_keep allow (Q : Prop) c c' : steps allow Q c c' -> Q -> catalog_inv c -> catalog_inv c'.
Proof. induction 1 as [|c ev c' Hg Hp Hs IH]; [done|]. intros Hq Hi. apply IH; [done|]. eapply event_keeps; eauto. Qed.

Lemma run_keeps op c : catalog_inv c -> obligations op c -> catalog_inv (run op c).2.
Proof. intros Hi Ho. by eapply steps_keep; [apply run_steps|..]. Qed.

Lemma empty_catalog_inv : catalog_inv empty_catalog.
Proof.
  split; [constructor|split]; try done; [intros; apply chain_nil|by intros ? ? ? ? [? ?]|by intros ? _ [? ?]].
Qed.

Lemma history_inv c : history c -> catalog_inv c.
Proof. induction 1; [apply empty_catalog_inv|by apply run_keeps]. Qed.
End events.

(** ** The catalog refines the life of refs *)

Section lives.
Implicit Types (c : Catalog).

Definition retired_oid (name : str) (log : list LogRow) : option Life :=
  e ← last_log name log; tombstone (l_new e, l_reason e).

Lemma lives_lookup c name :
  lives c !! name = match refs c !! name with
                    | Some r => Some (live_of r)
                    | None => retired_oid name (reflog_rows c)
                    end.
Proof.
  unfold lives. destruct (scan_log (reflog_rows c)) as (H1 & _ & _).
  rewrite lookup_union, lookup_fmap, lookup_omap, H1. unfold retired_oid.
  destruct (refs c !! name) as [r|]; cbn.
  - by destruct (last_log name (reflog_rows c)); cbn; [destruct (tombstone _)|].
  - by destruct (last_log name (reflog_rows c)); cbn; [destruct (tombstone _)|].
Qed.

Lemma lives_put c name r e :
  l_name e = name -> lives (log_event e (with_refs (insert name r) c)) = <[name := live_of r]> (lives c).
Proof.
  intros Hn. apply map_eq. intros n. rewrite lives_lookup. cbn [refs log_event with_reflog with_refs].
  unfold retired_oid. rewrite (last_log_event (with_refs (insert name r) c)), Hn.
  destruct (decide (name = n)) as [<-|Hne].
  - by rewrite !lookup_insert_eq.
  - rewrite !lookup_insert_ne by done. by rewrite lives_lookup.
Qed.

Lemma lives_retire c name r e :
  l_name e = name -> l_reason e = REFLOG_ABANDON ->
  lives (apply_ev (EvRetire name r e) c) = <[name := Retired (l_new e)]> (lives c).
Proof.
  intros Hn Hr. apply map_eq. intros n. rewrite lives_lookup. unfold retired_oid.
  change (refs (apply_ev (EvRetire name r e) c)) with (delete name (refs c)).
  change (reflog_rows (apply_ev (EvRetire name r e) c)) with (reflog_rows (log_event e c)).
  rewrite last_log_event, Hn. destruct (decide (name = n)) as [<-|Hne].
  - rewrite lookup_delete_eq, lookup_insert_eq. cbn. unfold tombstone. cbn. rewrite Hr.
    by rewrite (proj2 (bytes_eqb_true _ _) eq_refl).
  - rewrite lookup_delete_ne, lookup_insert_ne by done. by rewrite lives_lookup.
Qed.

Lemma lives_unborn c name : refs c !! name = None -> unlogged name c -> lives c !! name = None.
Proof. intros H1 H2. rewrite lives_lookup, H1. unfold retired_oid. by rewrite H2. Qed.

Lemma event_life allow ev c :
  guard allow ev c -> audit_pre ev c -> rtc (life_step allow) (lives c) (lives (apply_ev ev c)).
Proof.
  intros Hg Hp. destruct ev; try (by apply rtc_refl).
  - destruct Hg as (H1 & H2 & H3 & H4 & H5 & H6 & H7). apply rtc_once. cbn [apply_ev].
    rewrite lives_put by done. apply life_born; [by apply lives_unborn|done|congruence].
  - destruct Hg as (H1 & H2 & H3 & H4 & H5 & H6). apply rtc_once. cbn [apply_ev].
    rewrite lives_put by done. unfold live_of. cbn. rewrite H2.
    eapply life_moved; [|exact H3]. rewrite lives_lookup, H1. unfold live_of. by rewrite H2.
  - destruct Hg as (H1 & H2 & H3 & H4 & H5 & H6 & H7 & H8 & H9 & H10). apply rtc_once.
    rewrite lives_retire by done. rewrite H9. eapply life_retired; [|done].
    rewrite lives_lookup, H1. unfold live_of. by rewrite H2, H3.
  - destruct Hg as (H1 & H2 & H3 & H4 & H5 & H6 & H7). destruct Hp as [Hp _]. apply rtc_once.
    set (row := seal_row (sl_snap s) (sl_ts_ms s)).
    change (lives (apply_ev (EvSeal tag s e) c))
      with (lives (log_event e (with_refs (insert (bs "tags/" ++ tag) row) c))).
    rewrite lives_put by done. apply life_born; [by apply lives_unborn|done|done].
Qed.

Lemma steps_life allow (Q : Prop) c c' : steps allow Q c c' -> Q -> rtc (life_step allow) (lives c) (lives c').
Proof.
  induction 1 as [|c ev c' Hg Hp Hs IH]; [intros; apply rtc_refl|]. intros Hq.
  etrans; [apply event_life; [done|by apply Hp]|by apply IH].
Qed.

Lemma life_step_final allow L L' name l :
  life_step allow L L' -> L !! name = Some l -> final l -> L' !! name = Some l.
Proof.
  intros Hs Hl Hf. destruct Hs as [L n oid k p s Hn|L n oid oid' k p Hn|L n oid k Hn];
    (destruct (decide (n = name)) as [->|Hne]; [|by rewrite lookup_insert_ne]);
    rewrite Hn in Hl; try done; by injection Hl as <-.
Qed.

Lemma lives_final allow L L' name l :
  rtc (life_step allow) L L' -> L !! name = Some l -> final l -> L' !! name = Some l.
Proof. induction 1; [done|]. intros. eauto using life_step_final. Qed.
End lives.

(** ** What no operation does, whoever calls it *)

Section unconditional.
Implicit Types (c : Catalog).

(** A ref that no event of this operation may touch. *)
Definition fixed (allow : bool) (r : RefCols) : Prop :=
  rc_sealed r = true \/ rc_protected r = true /\ allow = false.

Lemma event_fixed allow ev c name r :
  guard allow ev c -> refs c !! name = Some r -> fixed allow r -> refs (apply_ev ev c) !! name = Some r.
Proof.
  intros Hg Hr Hf. destruct ev; try done; cbn [apply_ev refs log_event with_reflog with_refs].
  - destruct Hg as [H1 _]. rewrite lookup_insert_ne; [done|]. congruence.
  - destruct Hg as (H1 & H2 & H3 & _). rewrite lookup_insert_ne; [done|]. intros ->.
    rewrite Hr in H1. injection H1 as <-. destruct Hf as [Hf|[Hf ->]]; [congruence|]. by apply H3 in Hf.
  - destruct Hg as (H1 & H2 & H3 & _). rewrite lookup_delete_ne; [done|]. intros ->.
    rewrite Hr in H1. injection H1 as <-. destruct Hf as [Hf|[Hf ->]]; congruence.
  - destruct Hg as [H1 _]. cbn. rewrite lookup_insert_ne; [done|]. intros E.
    assert (refs c !! name = None) by (rewrite <- E; exact H1). congruence.
Qed.

Lemma steps_fixed allow Q c c' name r :
  steps allow Q c c' -> refs c !! name = Some r -> fixed allow r -> refs c' !! name = Some r.
Proof. induction 1; [done|]. eauto using event_fixed. Qed.

Lemma event_log allow ev c : guard allow ev c -> reflog_rows c `prefix_of` reflog_rows (apply_ev ev c).
Proof. intros _. destruct ev; cbn; try done; by eexists. Qed.

(** A ref keeps its kind and flags; it goes only as a retired fork or conflict
    that no session uses, and its last object is then in the log. *)
Definition outlives (name : str) (r : RefCols) (c : Catalog) : Prop :=
  (exists r', refs c !! name = Some r' /\ rc_kind r' = rc_kind r /\ rc_protected r' = rc_protected r
    /\ rc_sealed r' = rc_sealed r)
  \/ retirable name /\ rc_sealed r = false /\ rc_protected r = false
     /\ exists e, e ∈ reflog_rows c /\ l_name e = name /\ l_reason e = REFLOG_ABANDON.

Lemma event_outlives allow ev c name r :
  guard allow ev c -> outlives name r c -> outlives name r (apply_ev ev c).
Proof.
  intros Hg [(r' & Hr & Hk & Hp & Hs)|(H1 & H2 & H3 & e & He & H4)]; last first.
  { right. repeat (split; [done|]). exists e. split; [|done].
    destruct (event_log allow ev c Hg) as [k Hlog]. rewrite Hlog. apply elem_of_app. by left. }
  destruct ev; try (left; by exists r'); cbn [apply_ev refs log_event with_reflog with_refs].
  - destruct Hg as [H1 _]. left. exists r'. split; [|done]. cbn. rewrite lookup_insert_ne; [done|]. congruence.
  - destruct Hg as (H1 & H2 & H3 & _). left. cbn. destruct (decide (name0 = name)) as [->|Hne].
    + rewrite lookup_insert_eq. eexists. split; [done|]. rewrite Hr in H1. by injection H1 as <-.
    + rewrite lookup_insert_ne by done. by exists r'.
  - destruct Hg as (H1 & H2 & H3 & H4 & H5 & H6 & H7 & H8 & H9 & H10).
    destruct (decide (name0 = name)) as [->|Hne].
    + right. rewrite Hr in H1. injection H1 as <-. split; [done|]. split; [congruence|]. split; [congruence|].
      exists e. split; [|done]. cbn. apply elem_of_app. right. by apply list_elem_of_singleton.
    + left. exists r'. cbn. by rewrite lookup_delete_ne.
  - destruct Hg as [H1 _]. left. exists r'. split; [|done]. cbn. rewrite lookup_insert_ne; [done|]. intros E.
    assert (refs c !! name = None) by (rewrite <- E; exact H1). congruence.
Qed.

Lemma steps_outlives allow Q c c' name r : steps allow Q c c' -> outlives name r c -> outlives name r c'.
Proof. induction 1; [done|]. eauto using event_outlives. Qed.

Lemma steps_log allow Q c c' : steps allow Q c c' -> reflog_rows c `prefix_of` reflog_rows c'.
Proof. induction 1 as [|c ev c' Hg Hp Hs IH]; [done|]. etrans; [by eapply event_log|exact IH]. Qed.
End unconditional.

(** ** Properties *)

(** C35: The audit of fsck is exact: it reports nothing precisely on the
    catalogs whose tables agree (kinds of names, chained histories that end at
    the refs they describe, owners of mounts, observations and staged rows,
    seals with their tags and landmarks). *)
Theorem audit_is_exact (c : Catalog) : au_findings (audit_catalog c) = [] <-> catalog_ok c.
Proof. apply audit_clean_iff. Qed.

(** C3: Along a history of catalog operations, failures included, whose callers
    met their obligations, the audit stays clean.  The obligations are those of
    [Events.obligations]: a name composed with a ULID was not logged before; a
    seal's tag does not itself start with [tags/], and its snapshot and commit
    are no landmarks of other kinds; a landmark is of a known kind; a namespace
    is given a head that is a commit ref; rows are observed, staged and mounted
    in open sessions; and a rename moves to UTF-8 paths that do not nest.  They
    are needed: a tag [tags/x] is sealed as [tags/tags/x], and the audit then
    reports the seal ([nested_tag_fails_audit]).  The calls of the API meet
    them (each call of [Life] keeps [history]). *)
Theorem audit_stays_clean (c : Catalog) (H : history c) : au_findings (audit_catalog c) = [].
Proof. apply audit_clean_iff. by apply history_inv. Qed.

(** C17: Every operation of the catalog refines the life of a ref: names are born
    with the kind their name space demands, move only while live, unsealed and
    (if protected) with permission, and retire only as forks or conflicts; a
    sealed or retired name never changes again. *)
Theorem refs_refine_lives (c : Catalog) (op : CatOp) (H : history c) (Ho : obligations op c) :
  rtc (life_step (op_allows op)) (lives c) (lives (run op c).2)
  /\ forall name l, lives c !! name = Some l -> final l -> lives (run op c).2 !! name = Some l.
Proof.
  assert (rtc (life_step (op_allows op)) (lives c) (lives (run op c).2)) as Hr.
  { eapply steps_life; [apply run_steps|]. split; [by apply history_inv|done]. }
  split; [exact Hr|]. intros name l. by apply (lives_final _ _ _ _ _ Hr).
Qed.

(** C27: From any catalog, no operation touches a sealed ref, and none that was
    not allowed to moves a protected one. *)
Theorem fixed_refs_stay (c : Catalog) (op : CatOp) (name : str) (r : RefCols)
    (Hr : refs c !! name = Some r) (Hf : fixed (op_allows op) r) :
  refs (run op c).2 !! name = Some r.
Proof. eapply steps_fixed; [apply run_steps|done..]. Qed.

(** C34: No operation loses a ref: it keeps its kind and flags, or it was a
    retired fork or conflict and its tombstone is in the log; the log only
    grows, and an operation that fails changes nothing. *)
Theorem no_ref_is_lost (c : Catalog) (op : CatOp) (name : str) (r : RefCols) (Hr : refs c !! name = Some r) :
  outlives name r (run op c).2 /\ reflog_rows c `prefix_of` reflog_rows (run op c).2
  /\ (is_ok (run op c).1 = false -> (run op c).2 = c).
Proof.
  split; [|split].
  - eapply steps_outlives; [apply run_steps|]. left. by exists r.
  - eapply steps_log, run_steps.
  - destruct (run op c) as [x c'] eqn:E1. by apply run_atomic in E1.
Qed.

(** ** Witnesses *)

Definition demo_oid (b : byte) : ObjectId := mkArr (n:=32) (repeat b 32) I.

Definition demo_main : CatOp :=
  OpInsertRef 1 (bs "main") (demo_oid x01) (bs "commit") true false (bs "init") (bs "init").
Definition demo_open : CatOp :=
  OpCreateSession 2 (bs "s1") (bs "ann") (demo_oid x01) (bs "heads/agents/ann/1") true.
Definition demo_seal : CatOp :=
  OpSeal 3 (bs "v1") (demo_oid x05) (demo_oid x01) (demo_oid x03) (bs "ann") (Some (bs "main", demo_oid x01)).

Definition demo_c1 : Catalog := (run demo_main empty_catalog).2.
Definition demo_c2 : Catalog := (run demo_open demo_c1).2.
Definition demo_c3 : Catalog := (run demo_seal demo_c2).2.

Lemma demo_history : history demo_c3.
Proof.
  apply history_op; [apply history_op; [apply history_op; [apply history_new|exact I]|reflexivity]|].
  split; [reflexivity|]. split; [|split]; [intros l H; discriminate H..|].
  intros E. apply (f_equal arr_bytes) in E. discriminate E.
Qed.

Lemma demo_seal_done : is_ok (run demo_seal demo_c2).1 = true.
Proof. by vm_compute. Qed.

Lemma audit_stays_clean_witness : au_findings (audit_catalog demo_c3) = [].
Proof. exact (audit_stays_clean demo_c3 demo_history). Defined.

Lemma refs_refine_lives_witness :
  obligations (OpAbandonRef 4 (bs "forks/x") (bs "ann")) demo_c3
  /\ (rtc (life_step false) (lives demo_c3) (lives (run (OpAbandonRef 4 (bs "forks/x") (bs "ann")) demo_c3).2)
      /\ forall name l, lives demo_c3 !! name = Some l -> final l ->
           lives (run (OpAbandonRef 4 (bs "forks/x") (bs "ann")) demo_c3).2 !! name = Some l).
Proof.
  split; [exact I|].
  exact (refs_refine_lives demo_c3 (OpAbandonRef 4 (bs "forks/x") (bs "ann")) demo_history I).
Defined.

Definition demo_tag_row : RefCols := mkRefCols (demo_oid x05) (bs "snapshot") true true 3.

Lemma fixed_refs_stay_witness :
  refs (run (OpCas 5 (bs "u") (bs "tags/v1") (demo_oid x05) (demo_oid x06) (bs "snapshot") (bs "a") (bs "a") true)
         demo_c3).2 !! bs "tags/v1" = Some demo_tag_row.
Proof.
  apply (fixed_refs_stay demo_c3
    (OpCas 5 (bs "u") (bs "tags/v1") (demo_oid x05) (demo_oid x06) (bs "snapshot") (bs "a") (bs "a") true)
    (bs "tags/v1") demo_tag_row).
  - reflexivity.
  - left. reflexivity.
Defined.

Definition demo_main_row : RefCols := mkRefCols (demo_oid x01) (bs "commit") true false 1.

Lemma no_ref_is_lost_witness :
  outlives (bs "main") demo_main_row (run demo_seal demo_c2).2
  /\ reflog_rows demo_c2 `prefix_of` reflog_rows (run demo_seal demo_c2).2
  /\ (is_ok (run demo_seal demo_c2).1 = false -> (run demo_seal demo_c2).2 = demo_c2).
Proof. apply (no_ref_is_lost demo_c2 demo_seal (bs "main") demo_main_row). reflexivity. Defined.

(** ** A tag whose name starts with [tags/]

    [commit_seal] accepts the tag [tags/x], and the audit, which strips every
    leading [tags/] from the name of its ref, then reports the seal it just
    made as missing. *)

Definition nested_tag : CatOp :=
  OpSeal 3 (bs "tags/x") (demo_oid x05) (demo_oid x01) (demo_oid x03) (bs "ann") None.

Lemma nested_tag_fails_audit :
  is_ok (run nested_tag demo_c2).1 = true
  /\ au_findings (audit_catalog (run nested_tag demo_c2).2)
     = [mkFinding (bs "SEAL_ROW") (bs "catalog:ref:tags/tags/x") (bs "sealed tag ref has no seals row")].
Proof. by vm_compute. Qed.
