(* ===== verification/Publish.v ===== *)
(** * A session's checkin always publishes (crates/forge-store/src/meta.rs)

    What a checkin does to the catalog, whichever way its compare-and-swap
    goes, and that it never has to give up: when the head moved it forks, and
    the fork's name is always one the grammar accepts. *)

From S2P Require Import Prelude RustStd Types Overlay Namespace Catalog Refs Sessions CatAudit Events CatalogInv.

(** The head [name] after a checkin from [expected] of the commit [new]:
    moved, or left alone with the commit on a fork. *)
Definition published (c c' : Catalog) (ulid name fork_agent : str) (expected new : ObjectId) (x : CasResult) : Prop :=
  exists r, refs c !! name = Some r /\
  let fork := session_fork_name name fork_agent ulid in
  (rc_oid r = expected /\ x = Updated name new
   /\ (exists r', refs c' !! name = Some r' /\ rc_oid r' = new)
   /\ forall n, n <> name -> refs c' !! n = refs c !! n)
  \/ (rc_oid r <> expected /\ x = Forked name fork new (rc_oid r)
      /\ refs c !! fork = None
      /\ (exists r', refs c' !! fork = Some r' /\ rc_oid r' = new)
      /\ forall n, n <> fork -> refs c' !! n = refs c !! n).

(** Nothing but the mount [ns]:[mount] was touched, and its epoch ended at [new]. *)
Definition one_mount (c c' : Catalog) (ns mount : str) (new : ObjectId) : Prop :=
  (forall k, of_mount ns mount k = true -> overlay_rows c' !! k = None /\ observation_rows c' !! k = None)
  /\ (forall k, of_mount ns mount k = false ->
        overlay_rows c' !! k = overlay_rows c !! k /\ observation_rows c' !! k = observation_rows c !! k)
  /\ (exists m, mounts c' !! (ns, mount) = Some m /\ mc_base m = Some new)
  /\ (forall k, k <> (ns, mount) -> mounts c' !! k = mounts c !! k)
  /\ (forall id, id <> ns \/ mount <> bs "/" -> namespaces c' !! id = namespaces c !! id)
  /\ (mount = bs "/" -> exists r, namespaces c' !! ns = Some r /\ ns_pinned r = Some new).

(** A ULID: ASCII letters and digits. *)
Definition good_ulid (u : str) : bool :=
  negb (is_nil u) && forallb (fun b => is_ascii_alphanumeric (b2z b)) u.

(** ** Lemmas on statements *)

Section publish.
Implicit Types (c : Catalog).

Lemma run_bind {A B} (m : db A) (f : A -> db B) c a c' : m c = (Ok a, c') -> (m ≫= f) c = f a c'.
Proof. unfold mbind, stateM_bind. by intros ->. Qed.

Lemma run_intros oids commit agent ts c :
  exists f, insert_intros_tx oids commit agent ts c = (Ok tt, with_intros f c).
Proof.
  revert c. induction oids as [|oid oids IH]; intros c; cbn [insert_intros_tx].
  - exists (fun m => m). by destruct c.
  - rewrite (run_bind _ _ _ tt (with_intros (insert_or_ignore oid (mkIntroCols commit agent ts)) c)) by done.
    destruct (IH (with_intros (insert_or_ignore oid (mkIntroCols commit agent ts)) c)) as [f ->].
    by eexists (fun m => f _).
Qed.

Lemma mounts_update_run ns path f c m :
  mounts c !! (ns, path) = Some m ->
  mounts_update ns path f c = (Ok 1, with_mounts (insert (ns, path) (f m)) c).
Proof. intros H. unfold mounts_update. rewrite (run_bind _ _ _ c c) by done. by rewrite H. Qed.

Lemma end_epoch_run ns mount base c m :
  mounts c !! (ns, mount) = Some m -> (mount = bs "/" -> is_Some (namespaces c !! ns)) ->
  exists c', end_epoch ns mount base c = (Ok tt, c') /\ refs c' = refs c /\ one_mount c c' ns mount base.
Proof.
  intros Hm Hns.
  set (m' := mkMountCols (mc_spec m) (mc_mode m) (Some base)).
  set (c1 := with_mounts (insert (ns, mount) m') (with_overlay (delete_where (of_mount ns mount)) c)).
  assert (repin_mount_tx ns mount base (with_overlay (delete_where (of_mount ns mount)) c) = (Ok tt, c1)) as H1.
  { unfold repin_mount_tx.
    rewrite (run_bind _ _ _ 1 c1); [done|].
    exact (mounts_update_run ns mount (fun r => mkMountCols (mc_spec r) (mc_mode r) (Some base))
      (with_overlay (delete_where (of_mount ns mount)) c) m Hm). }
  assert (exists n, mount = bs "/" -> namespaces c !! ns = Some n) as [n Hn].
  { destruct (namespaces c !! ns) as [n|] eqn:E1; [by exists n|]. exists (mkNsCols [] 0 None None).
    intros Hr. by destruct (Hns Hr). }
  set (c2 := if bytes_eqb mount (bs "/") then apply_ev (EvPin ns n base) c1 else c1).
  assert (pin_root ns mount base c1 = (Ok tt, c2)) as H2.
  { unfold pin_root, c2. destruct (bytes_eqb mount (bs "/")) eqn:E1; [|done]. apply bytes_eqb_true, Hn in E1.
    rewrite (run_bind _ _ _ 1 (apply_ev (EvPin ns n base) c1)); [done|].
    unfold namespaces_pin. rewrite (run_bind _ _ _ c1 c1) by done.
    change (namespaces c1) with (namespaces c). by rewrite E1. }
  exists (with_observations (delete_where (of_mount ns mount)) c2). split; [|split].
  - unfold end_epoch. rewrite (run_bind _ _ _ tt (with_overlay (delete_where (of_mount ns mount)) c)) by done.
    rewrite (run_bind _ _ _ _ _ H1), (run_bind _ _ _ _ _ H2). done.
  - unfold c2. by destruct (bytes_eqb mount (bs "/")).
  - assert (forall A (t : gmap (str * str * str) A) k, of_mount ns mount k = true ->
      delete_where (of_mount ns mount) t !! k = None) as Hgone.
    { intros A t k Hk. apply eq_None_not_Some. intros [x [_ H]%delete_where_lookup]. congruence. }
    assert (forall A (t : gmap (str * str * str) A) k, of_mount ns mount k = false ->
      delete_where (of_mount ns mount) t !! k = t !! k) as Hkept.
    { intros A t k Hk. apply option_eq. intros x. rewrite delete_where_lookup. naive_solver. }
    unfold one_mount, c2. destruct (bytes_eqb mount (bs "/")) eqn:E1;
      [apply bytes_eqb_true in E1|apply bytes_eqb_false in E1]; cbn; split_and!; auto; try done.
    + exists m'. by rewrite lookup_insert_eq.
    + intros k Hk. by rewrite lookup_insert_ne.
    + intros id [Hid|Hid]; [by rewrite lookup_insert_ne|done].
    + intros _. eexists. by rewrite lookup_insert_eq.
    + exists m'. by rewrite lookup_insert_eq.
    + intros k Hk. by rewrite lookup_insert_ne.
Qed.

(** What [session_cas] leaves alone. *)
Definition same_session c c' ns mount : Prop :=
  overlay_rows c' = overlay_rows c /\ observation_rows c' = observation_rows c /\ namespaces c' = namespaces c
  /\ forall k, k <> (ns, mount) -> mounts c' !! k = mounts c !! k.

Lemma session_cas_run ts ulid name expected new agent fork_agent ns mount r m c :
  refs c !! name = Some r -> rc_kind r = bs "commit" -> rc_sealed r = false -> rc_protected r = false ->
  mounts c !! (ns, mount) = Some m ->
  let fork := session_fork_name name fork_agent ulid in
  valid_ref fork (bs "commit") -> refs c !! fork = None ->
  exists x c', session_cas ts ulid name expected new agent fork_agent ns mount (rc_oid r) c = (Ok x, c')
    /\ published c c' ulid name fork_agent expected new x /\ same_session c c' ns mount
    /\ is_Some (mounts c' !! (ns, mount)).
Proof.
  intros Hr Hk Hs Hp Hm fork Hv Hf. unfold session_cas. case_bool_decide as E1.
  - set (r' := move_row new ts r). set (c1 := with_refs (insert name r') c).
    exists (Updated name new), (log_event (mkLogRow name (Some expected) new agent (bs "cas") ts) c1). split; [|split].
    + rewrite (run_bind _ _ _ 1 c1); [done|]. unfold refs_update. rewrite (run_bind _ _ _ c c) by done. rewrite Hr.
      rewrite bool_decide_true by done. rewrite Hk, Hs, Hp. done.
    + exists r. split; [done|]. left. split; [done|]. split; [done|]. cbn. split.
      * exists r'. by rewrite lookup_insert_eq.
      * intros n Hn. by rewrite lookup_insert_ne.
    + split; [done|by exists m].
  - set (row := mkRefCols new (bs "commit") false false ts).
    set (c1 := log_event (mkLogRow fork (Some (rc_oid r)) new agent (bs "fork") ts) (with_refs (insert fork row) c)).
    exists (Forked name fork new (rc_oid r)),
      (with_mounts (insert (ns, mount) (mkMountCols (bs "ref:" ++ fork) (mc_mode m) (mc_base m))) c1). split; [|split].
    + fold fork. apply valid_ref_ok in Hv. rewrite (run_bind _ _ _ tt c) by (unfold pure; by rewrite Hv).
      rewrite (run_bind _ _ _ tt (with_refs (insert fork row) c)).
      2:{ unfold refs_insert. rewrite (run_bind _ _ _ c c) by done. by rewrite Hf. }
      rewrite (run_bind _ _ _ tt c1) by done. cbv zeta.
      rewrite (run_bind _ _ _ _ _ (mounts_update_run ns mount
        (fun m => mkMountCols (bs "ref:" ++ fork) (mc_mode m) (mc_base m)) c1 m Hm)). done.
    + exists r. split; [done|]. right. split; [done|]. split; [done|]. split; [done|]. cbn. split.
      * exists row. by rewrite lookup_insert_eq.
      * intros n Hn. by rewrite lookup_insert_ne.
    + split; [split_and!; [done..|]|].
      * intros k Hne. cbn. by rewrite lookup_insert_ne.
      * cbn. by rewrite lookup_insert_eq.
Qed.

(** The converse: an epoch that ended had its mount. *)
Lemma end_epoch_inv ns mount base c u c' :
  end_epoch ns mount base c = (Ok u, c') ->
  is_Some (mounts c !! (ns, mount)) /\ refs c' = refs c /\ one_mount c c' ns mount base.
Proof.
  intros H. assert (is_Some (mounts c !! (ns, mount)) /\ (mount = bs "/" -> is_Some (namespaces c !! ns))) as [[m Hm] Hns].
  { unfold end_epoch, repin_mount_tx in H.
    apply db_bind in H as (u1 & c1 & H1 & H). apply db_change in H1 as ->.
    apply db_bind in H as (u2 & c2 & H2 & H). apply db_bind in H2 as (n & c3 & H2 & H3). apply db_refuse in H3 as [H3 ->].
    apply db_bind in H as (u3 & c4 & H4 & _).
    apply db_mounts_update in H2 as [(r & -> & Hr & ->)|[-> ->]]; [|done]. split; [by exists r|].
    intros ->. unfold pin_root in H4. change (bytes_eqb (bs "/") (bs "/")) with true in H4. cbn iota in H4.
    apply db_bind in H4 as (k & c5 & H4 & H5). apply db_refuse in H5 as [H5 ->].
    apply db_ns_pin in H4 as [(q & Hq & _)|[-> ->]]; [|done]. by exists q. }
  destruct (end_epoch_run ns mount base c m Hm Hns) as (c2 & H2 & Hr & Ho).
  split; [by exists m|]. assert (c' = c2) as -> by congruence. done.
Qed.

Lemma one_mount_session c c1 c' ns mount base :
  same_session c c1 ns mount -> one_mount c1 c' ns mount base -> one_mount c c' ns mount base.
Proof.
  intros (H1 & H2 & H3 & H4) (A & B & C & D & E & F).
  rewrite H1, H2 in B. rewrite H3 in E. split_and!; try done.
  intros k Hk. by rewrite D, H4.
Qed.

Lemma cas_ref_session_run ts ulid name expected new agent fork_agent ns mount intros r m c :
  refs c !! name = Some r -> rc_kind r = bs "commit" -> rc_sealed r = false -> rc_protected r = false ->
  mounts c !! (ns, mount) = Some m -> is_Some (namespaces c !! ns) -> valid_ref name (bs "commit") ->
  let fork := session_fork_name name fork_agent ulid in
  valid_ref fork (bs "commit") -> refs c !! fork = None ->
  exists x c', cas_ref_session ts ulid name expected new agent fork_agent ns mount intros c = (Ok x, c')
    /\ published c c' ulid name fork_agent expected new x /\ one_mount c c' ns mount new.
Proof.
  intros Hr Hk Hs Hp Hm Hn Hvn fork Hv Hf.
  destruct (session_cas_run ts ulid name expected new agent fork_agent ns mount r m c Hr Hk Hs Hp Hm Hv Hf)
    as (x & c1 & H1 & Hpub & Hsame & [m1 Hm1]).
  pose proof Hsame as (_ & _ & Hns & _).
  destruct (end_epoch_run ns mount new c1 m1 Hm1) as (c2 & H2 & Href & Hone); [by rewrite Hns|].
  destruct (run_intros intros new agent ts c2) as [f H3].
  exists x, (with_intros f c2). split; [|split].
  - unfold cas_ref_session. apply valid_ref_ok in Hvn.
    rewrite (run_bind _ _ _ tt c) by (unfold pure; by rewrite Hvn).
    unfold run_grouped, transaction.
    rewrite (run_bind _ _ _ (Some r) c) by (unfold select_ref; rewrite (run_bind _ _ _ c c) by done; by rewrite Hr).
    rewrite (run_bind _ _ _ r c) by done.
    rewrite (run_bind _ _ _ tt c) by (by rewrite Hk).
    rewrite (run_bind _ _ _ tt c) by (by rewrite Hs).
    rewrite (run_bind _ _ _ tt c) by (by rewrite Hp).
    rewrite (run_bind _ _ _ _ _ H1), (run_bind _ _ _ _ _ H2), (run_bind _ _ _ _ _ H3). done.
  - destruct Hpub as (r0 & Hr0 & Hpub). exists r0. split; [done|]. cbn [refs with_intros]. rewrite Href. exact Hpub.
  - by apply (one_mount_session c c1 _ ns mount new).
Qed.

(** The converse: what a checkin that returned did. *)
Lemma session_cas_inv ts ulid name expected new agent fork_agent ns mount r c x c' :
  refs c !! name = Some r ->
  session_cas ts ulid name expected new agent fork_agent ns mount (rc_oid r) c = (Ok x, c') ->
  published c c' ulid name fork_agent expected new x /\ same_session c c' ns mount.
Proof.
  intros Hr H. unfold session_cas in H. case_bool_decide as E1.
  - apply db_bind in H as (n & c1 & H1 & H). apply db_bind in H as (u & c2 & H2 & H). apply db_refuse in H2 as [H2 ->].
    apply db_bind in H as (u2 & c2 & H3 & H). apply db_log in H3 as ->. apply db_ret in H as [<- ->].
    apply db_refs_update in H1 as [(r' & -> & E2 & _ & ->)|(-> & _)]; [|done].
    rewrite Hr in E2. injection E2 as <-. split; [|by split_and!]. exists r. split; [done|]. left.
    split; [done|]. split; [done|]. cbn. split.
    + eexists. by rewrite lookup_insert_eq.
    + intros n Hn. by rewrite lookup_insert_ne.
  - apply db_bind in H as (u1 & c1 & H1 & H). apply db_pure in H1 as [H1 ->].
    apply db_bind in H as (u2 & c2 & H2 & H). apply db_refs_insert in H2 as (H2 & H3 & ->).
    apply db_bind in H as (u3 & c3 & H4 & H). apply db_log in H4 as ->. cbv zeta in H.
    apply db_bind in H as (n & c4 & H5 & H). apply db_bind in H as (u4 & c5 & H6 & H). apply db_refuse in H6 as [H6 ->].
    apply db_ret in H as [<- ->]. apply db_mounts_update in H5 as [(m & -> & Hm & ->)|[-> _]]; [|done]. split.
    + exists r. split; [done|]. right. split; [done|]. split; [done|]. split; [done|]. cbn. split.
      * eexists. by rewrite lookup_insert_eq.
      * intros n Hn. by rewrite lookup_insert_ne.
    + split_and!; [done..|]. intros k Hne. cbn. by rewrite lookup_insert_ne.
Qed.

Lemma cas_ref_session_inv ts ulid name expected new agent fork_agent ns mount intros c x c' :
  cas_ref_session ts ulid name expected new agent fork_agent ns mount intros c = (Ok x, c') ->
  published c c' ulid name fork_agent expected new x /\ one_mount c c' ns mount new.
Proof.
  intros H. unfold cas_ref_session in H.
  apply db_bind in H as (u0 & c0 & H0 & H). apply db_pure in H0 as [H0 ->].
  apply db_transaction in H. apply db_bind in H as (row & c1 & H1 & H). apply db_select in H1 as [-> ->].
  apply db_bind in H as (r & c1 & H1 & H). apply db_pure in H1 as [H1 ->]. apply ok_or_ok in H1.
  apply db_bind in H as (u1 & c1 & H2 & H). apply db_refuse in H2 as [H2 ->].
  apply db_bind in H as (u2 & c1 & H3 & H). apply db_refuse in H3 as [H3 ->].
  apply db_bind in H as (u3 & c1 & H4 & H). apply db_refuse in H4 as [H4 ->].
  apply db_bind in H as (res & c2 & H5 & H). apply db_bind in H as (u4 & c3 & H6 & H).
  apply db_bind in H as (u5 & c4 & H7 & H). apply db_intros in H7 as [f ->]. apply db_ret in H as [<- ->].
  apply session_cas_inv in H5 as [Hpub Hsame]; [|done]. apply end_epoch_inv in H6 as (_ & Href & Hone).
  split; [|exact (one_mount_session _ _ _ _ _ _ Hsame Hone)].
  destruct Hpub as (r0 & Hr0 & Hpub). exists r0. split; [done|]. cbn [refs with_intros]. rewrite Href. exact Hpub.
Qed.

(** ** The name of a fork *)

Lemma validate_ref_name_intro s :
  len s <= 512 -> existsb bad_ref_char (chars s) = false -> existsb bad_ref_part (split_byte "/"%byte s) = false ->
  validate_ref_name s = Ok tt.
Proof.
  intros Hl Hc Hp. unfold validate_ref_name.
  assert (is_nil s || (512 <? len s) || starts_with s (bs "/") || ends_with s (bs "/") = false) as ->;
    [|cbn; by rewrite Hc, Hp].
  rewrite !orb_false_iff. split_and!.
  - destruct s; [done|]. by apply bool_decide_eq_false.
  - by apply Z.ltb_ge.
  - destruct (starts_with s (bs "/")) eqn:E1; [|done]. apply starts_with_spec in E1 as [k ->]. done.
  - destruct (ends_with s (bs "/")) eqn:E1; [|done]. unfold ends_with in E1.
    apply starts_with_spec in E1 as [k E1]. apply (f_equal reverse) in E1.
    rewrite reverse_involutive, reverse_app in E1. subst s. change (reverse (reverse (bs "/"))) with (["/"%byte]) in Hp.
    rewrite split_byte_cat, existsb_app in Hp. cbn in Hp. by rewrite orb_true_r in Hp.
Qed.

Lemma validate_ref_name_elim s :
  validate_ref_name s = Ok tt ->
  existsb bad_ref_char (chars s) = false /\ existsb bad_ref_part (split_byte "/"%byte s) = false.
Proof. unfold validate_ref_name. intros H. by inv_ok. Qed.

(** Bytes a sanitized name or a ULID is made of. *)
Definition tame (b : byte) : bool :=
  is_ascii_alphanumeric (b2z b) || (b2z b =? 45) || (b2z b =? 95) || (b2z b =? 46).

Lemma tame_ascii b : tame b = true -> b2z b < 128 /\ bad_ref_char (b2z b) = false /\ b <> "/"%byte.
Proof. destruct b; vm_compute; intros H; (discriminate H || (split; [done|split; [done|discriminate]])). Qed.

Lemma sanitize_tame s : Forall (fun b => tame b = true) (sanitize_agent s).
Proof.
  unfold sanitize_agent. case_match; [by repeat constructor|]. apply Forall_fmap, Forall_true. intros z. cbn.
  unfold sanitize_char. destruct (is_ascii_alphanumeric z || (z =? 45) || (z =? 95) || (z =? 46)) eqn:E1; [|done].
  unfold tame. rewrite b2z_u8, Z.mod_small; [done|].
  rewrite !orb_true_iff, !Z.eqb_eq in E1. unfold is_ascii_alphanumeric, in_range in E1.
  rewrite !orb_true_iff, !andb_true_iff, !Z.leb_le in E1. lia.
Qed.

Lemma sanitize_nonempty s : sanitize_agent s <> [].
Proof.
  unfold sanitize_agent, is_nil. case_bool_decide; [done|].
  by destruct (sanitize_char <$> chars s).
Qed.

Lemma tame_segment p : Forall (fun b => tame b = true) p ->
  utf8_valid p = true /\ existsb bad_ref_char (chars p) = false /\ split_byte "/"%byte p = [p].
Proof.
  intros H. assert (Forall (fun b => b2z b < 128) p) as Ha.
  { eapply Forall_impl; [exact H|]. intros b Hb. by apply tame_ascii. }
  split; [by apply utf8_valid_ascii|]. split.
  - rewrite (chars_ascii _ Ha). apply not_true_iff_false. rewrite existsb_exists.
    intros (z & Hz & Hb). apply list_elem_of_In, list_elem_of_fmap in Hz as (b & -> & Hin).
    rewrite Forall_forall in H. apply H, tame_ascii in Hin as (_ & Hin & _). congruence.
  - apply split_byte_none. intros Hin. rewrite Forall_forall in H. by apply H, tame_ascii in Hin as (_ & _ & Hin).
Qed.

Lemma good_ulid_tame u : good_ulid u = true -> Forall (fun b => tame b = true) u /\ u <> [].
Proof.
  unfold good_ulid. rewrite andb_true_iff, negb_true_iff. intros [H1 H2]. split.
  - apply Forall_forall. intros b Hb. rewrite forallb_forall in H2. unfold tame.
    by rewrite (H2 b (proj1 (list_elem_of_In _ _) Hb)).
  - intros ->. done.
Qed.

(** Two valid pieces joined by a slash. *)
Definition piece (s : str) : Prop :=
  utf8_valid s = true /\ existsb bad_ref_char (chars s) = false /\ existsb bad_ref_part (split_byte "/"%byte s) = false.

Lemma piece_join a b : piece a -> piece b -> piece (a ++ bs "/" ++ b).
Proof.
  intros (A1 & A2 & A3) (B1 & B2 & B3). assert (utf8_valid (bs "/" ++ b) = true) as Hs by (by apply utf8_valid_app).
  split; [by apply utf8_valid_app|]. split.
  - rewrite chars_app, chars_app, !existsb_app, A2, B2 by done. done.
  - change (bs "/" ++ b) with ("/"%byte :: b). by rewrite split_byte_cat, existsb_app, A3, B3.
Qed.

Lemma tame_piece p : Forall (fun b => tame b = true) p -> bad_ref_part p = false -> piece p.
Proof.
  intros Hp Hb. destruct (tame_segment p Hp) as (H1 & H2 & H3). split; [done|]. split; [done|].
  rewrite H3. cbn. by rewrite Hb.
Qed.

Lemma session_fork_valid name agent ulid :
  valid_ref name (bs "commit") -> utf8_valid name = true -> good_ulid ulid = true ->
  bad_ref_part (sanitize_agent agent) = false -> len (session_fork_name name agent ulid) <= 512 ->
  valid_ref (session_fork_name name agent ulid) (bs "commit").
Proof.
  intros Hv Hn Hu Ha Hl. apply valid_ref_ok in Hv. unfold validate_ref_kind in Hv.
  apply bind_ok in Hv as ([] & Hv & _). apply validate_ref_name_elim in Hv as [N1 N2].
  destruct (good_ulid_tame _ Hu) as [U1 U2].
  assert (bad_ref_part ulid = false) as U3.
  { unfold bad_ref_part, is_nil. rewrite bool_decide_false by done. cbn.
    unfold good_ulid in Hu. apply orb_false_iff. split; apply bytes_eqb_false; intros ->; discriminate Hu. }
  assert (piece (session_fork_name name agent ulid)) as (_ & H2 & H3).
  { change (session_fork_name name agent ulid)
      with (bs "heads/agents" ++ bs "/" ++ (sanitize_agent agent ++ bs "/" ++ (bs "forks" ++ bs "/" ++ (name ++ bs "/" ++ ulid)))).
    apply piece_join; [by vm_compute|]. apply piece_join; [apply tame_piece; [apply sanitize_tame|done]|].
    apply piece_join; [by vm_compute|]. apply piece_join; [done|by apply tame_piece]. }
  apply valid_ref_ok. unfold validate_ref_kind.
  rewrite (validate_ref_name_intro _ Hl H2 H3). done.
Qed.
End publish.

(** ** Properties *)

(** C24: A checkin of a session moves its head or forks, and then has published.
    On a catalog that operations with care lead to, if the head is an unsealed,
    unprotected commit ref with a UTF-8 name, the mount is there, the ULID is
    well formed, the agent sanitizes to a name that a ref may have, and the name
    of the fork these compose has at most 512 bytes and is not taken, the
    compare-and-swap of the checkin succeeds: it moves the head when the head is
    the one expected and puts the commit on that fork otherwise, and it ends the
    epoch of that one mount without touching any other.  Without one of these
    it may fail: a head whose name is long leaves no room for the name of the
    fork. *)
Theorem checkin_moves_or_forks (c : Catalog) (ts : Z) (ulid name : str) (expected new : ObjectId)
    (agent fork_agent ns mount : str) (intros : list ObjectId) (r : RefCols)
    (H : history c) (Hr : refs c !! name = Some r) (Hk : rc_kind r = bs "commit")
    (Hs : rc_sealed r = false) (Hp : rc_protected r = false) (Hm : is_Some (mounts c !! (ns, mount)))
    (Hn : utf8_valid name = true) (Hu : good_ulid ulid = true)
    (Ha : bad_ref_part (sanitize_agent fork_agent) = false)
    (Hl : len (session_fork_name name fork_agent ulid) <= 512)
    (Hf : refs c !! session_fork_name name fork_agent ulid = None) :
  exists x c', cas_ref_session ts ulid name expected new agent fork_agent ns mount intros c = (Ok x, c')
    /\ published c c' ulid name fork_agent expected new x /\ one_mount c c' ns mount new.
Proof.
  destruct (history_inv c H) as [Hok _]. destruct Hm as [m Hm].
  destruct (ok_refs c Hok name r Hr) as [Hv _]. fold (valid_ref name (rc_kind r)) in Hv. rewrite Hk in Hv.
  apply (cas_ref_session_run ts ulid name expected new agent fork_agent ns mount intros r m c); try done.
  - by eapply (ok_mounts c Hok).
  - by apply session_fork_valid.
Qed.

Definition head_row : RefCols := mkRefCols (demo_oid x01) (bs "commit") false false 2.

Lemma checkin_moves_or_forks_witness :
  exists x c', cas_ref_session 9 (bs "01J") (bs "heads/agents/ann/1") (demo_oid x07) (demo_oid x08) (bs "ann") (bs "ann")
                 (bs "s1") (bs "/") [] demo_c3 = (Ok x, c')
    /\ published demo_c3 c' (bs "01J") (bs "heads/agents/ann/1") (bs "ann") (demo_oid x07) (demo_oid x08) x
    /\ one_mount demo_c3 c' (bs "s1") (bs "/") (demo_oid x08).
Proof.
  apply (checkin_moves_or_forks demo_c3 9 (bs "01J") (bs "heads/agents/ann/1") (demo_oid x07) (demo_oid x08)
    (bs "ann") (bs "ann") (bs "s1") (bs "/") [] head_row); try reflexivity.
  - apply demo_history.
  - eexists. reflexivity.
  - vm_compute. discriminate.
Defined.
