(* ===== verification/Staging.v ===== *)
(** * From staged rows to the committed tree

    The catalog's rows for one mount (crates/forge-store/src/meta.rs), read
    with [overlay_list], folded into the overlay of crates/forge-core and
    committed by [apply_overlay]: because the catalog keeps the staged paths of
    a mount apart, every staged file is in the tree a checkin commits and every
    tombstone is not. *)

From S2P Require Import Prelude RustStd Types Tree TreeStore ObjectStore Store Overlay Namespace Catalog Refs Sessions CatAudit Events CatalogInv.

(** The operation of one row. *)
Definition row_op (v : option ObjectId * bool) : OverlayOp := (fun id => (id, v.2)) <$> v.1.

(** The overlay a session of [ns] sees on [mount]. *)
Definition staged_overlay (c : Catalog) (ns mount : str) : Overlay :=
  match (overlay_list ns mount c).1 with Ok rows => overlay_map rows | _ => ∅ end.

(** What a checkin should commit at [p], from the catalog's row. *)
Definition committed (c : Catalog) (ns mount : str) (basef : list str -> FileId -> Prop) (p : list str)
    (f : FileId) : Prop :=
  match overlay_rows c !! (ns, mount, join (bs "/") p) with
  | Some (Some id, exec) => f = (id, exec)
  | Some (None, _) => False
  | None => ~ has_ext (staged_overlay c ns mount) p /\ ~ covered (staged_overlay c ns mount) [] p /\ basef p f
  end.

(** ** Lemmas *)

Lemma overlay_map_lookup (rows : list OverlayRow) p op :
  NoDup (or_path <$> rows) ->
  overlay_map rows !! p = Some op <->
  exists r, r ∈ rows /\ or_path r = p /\ op = (fun id => (id, or_exec r)) <$> or_blob_oid r.
Proof.
  unfold overlay_map. induction rows as [|r rows IH] using rev_ind; intros Hnd.
  - cbn. rewrite lookup_empty. split; [done|]. by intros (r & Hr%elem_of_nil & _).
  - rewrite fold_left_app. cbn [fold_left]. rewrite fmap_app in Hnd.
    apply NoDup_app in Hnd as (Hnd & Hno & _). specialize (IH Hnd).
    destruct (decide (or_path r = p)) as [<-|Hne].
    + rewrite lookup_insert_eq. split.
      * intros [= <-]. exists r. split; [apply elem_of_app; right; by left|done].
      * intros (r' & [Hr'|Hr'%list_elem_of_singleton]%elem_of_app & Hp & ->); [|by subst].
        exfalso. apply (Hno (or_path r')); [by apply list_elem_of_fmap_2|]. rewrite Hp. by left.
    + rewrite lookup_insert_ne by done. rewrite IH. split; intros (r' & Hr' & Hp & Hop); exists r'; (split; [|done]).
      * apply elem_of_app. by left.
      * apply elem_of_app in Hr' as [?|Hr'%list_elem_of_singleton]; [done|by subst].
Qed.

Lemma of_mount_key ns mount k : Is_true (of_mount ns mount k) <-> k = (ns, mount, k.2).
Proof.
  destruct k as [[n m] p]. unfold of_mount. cbn. rewrite Is_true_true, andb_true_iff, !bytes_eqb_true. naive_solver.
Qed.

Lemma list_rows_nodup {A} (l : list ((str * str * str) * A)) ns mount :
  NoDup l.*1 -> NoDup ((fun kv => kv.1.2) <$> filter (fun kv => Is_true (of_mount ns mount kv.1)) l).
Proof.
  induction l as [|[k v] l IH]; cbn [fmap list_fmap]; intros Hnd; [constructor|].
  apply NoDup_cons in Hnd as [Hk Hnd]. rewrite filter_cons. cbn [fst]. case_decide as Hm; [|by apply IH].
  cbn [fmap list_fmap fst]. constructor; [|by apply IH].
  intros Hin. apply list_elem_of_fmap in Hin as ([k' v'] & E & Hin). apply list_elem_of_filter in Hin as [Hm' Hin].
  apply of_mount_key in Hm, Hm'. cbn in *. apply Hk. rewrite Hm, E, <- Hm'. by apply (list_elem_of_fmap_2 fst _ (k', v')).
Qed.

Lemma staged_overlay_lookup c ns mount p :
  staged_overlay c ns mount !! p = row_op <$> overlay_rows c !! (ns, mount, p).
Proof.
  set (l := filter (fun kv => Is_true (of_mount ns mount kv.1)) (map_to_list (overlay_rows c))).
  set (rows := (fun kv => mkOverlayRow kv.1.2 kv.2.1 kv.2.2) <$> l).
  change (staged_overlay c ns mount) with (overlay_map rows).
  assert (NoDup (or_path <$> rows)) as Hnd.
  { unfold rows. rewrite <- list_fmap_compose. apply list_rows_nodup, NoDup_fst_map_to_list. }
  apply option_eq. intros op. rewrite (overlay_map_lookup rows p op Hnd). unfold rows. split.
  - intros (r & Hr & Hp & ->). apply list_elem_of_fmap in Hr as ([k v] & -> & Hin).
    apply list_elem_of_filter in Hin as [Hm Hin]. apply of_mount_key in Hm. cbn in *. subst p.
    apply elem_of_map_to_list in Hin. rewrite <- Hm, Hin. done.
  - destruct (overlay_rows c !! (ns, mount, p)) as [v|] eqn:E1; [|done]. cbn. intros [= <-].
    exists (mkOverlayRow p v.1 v.2). split; [|done].
    apply list_elem_of_fmap. exists ((ns, mount, p), v). split; [done|].
    apply list_elem_of_filter. split; [by apply of_mount_key|by apply elem_of_map_to_list].
Qed.

Lemma staged_valid c ns mount p :
  staged_free c -> is_Some (overlay_rows c !! (ns, mount, p)) -> utf8_valid p = true.
Proof. intros H Hp. by apply (H ns mount p p Hp Hp). Qed.

(** Nothing is staged below a staged path. *)
Lemma staged_no_ext c ns mount p :
  staged_free c -> Forall plain p -> p <> [] -> is_Some (overlay_rows c !! (ns, mount, join (bs "/") p)) ->
  ~ has_ext (staged_overlay c ns mount) p.
Proof.
  intros H Hpl Hne Hp (q & Hq & Hqp & Hs). rewrite staged_overlay_lookup in Hs.
  apply fmap_is_Some in Hs. rewrite join_app in Hs by done.
  destruct (H ns mount _ _ Hp Hs) as [_ Hno]. apply not_true_iff_false in Hno. apply Hno.
  apply path_under_spec; [by eapply staged_valid..|]. by eexists.
Qed.

(** Nothing is staged above one either. *)
Lemma staged_not_covered c ns mount p :
  staged_free c -> Forall plain p -> is_Some (overlay_rows c !! (ns, mount, join (bs "/") p)) ->
  ~ covered (staged_overlay c ns mount) [] p.
Proof.
  intros H Hpl Hp (q1 & q2 & -> & H1 & H2 & Hs). cbn [app] in Hs. rewrite staged_overlay_lookup in Hs.
  apply fmap_is_Some in Hs. apply Forall_app in Hpl as [Hpl1 Hpl2]. rewrite join_app in Hp by done.
  destruct (H ns mount _ _ Hs Hp) as [_ Hno]. apply not_true_iff_false in Hno. apply Hno.
  apply path_under_spec; [by eapply staged_valid..|]. by eexists.
Qed.

Lemma committed_overlay c ns mount basef p f :
  staged_free c -> Forall plain p -> p <> [] ->
  overlay_file (staged_overlay c ns mount) [] basef p f <-> committed c ns mount basef p f.
Proof.
  intros H Hpl Hne. unfold overlay_file, committed. cbn [app]. rewrite staged_overlay_lookup.
  destruct (overlay_rows c !! (ns, mount, join (bs "/") p)) as [[o exec]|] eqn:E1; cbn [fmap option_fmap option_map].
  - assert (~ has_ext (staged_overlay c ns mount) p) as Hno by (apply staged_no_ext; [done..|by eexists]).
    destruct o as [id|]; cbn; naive_solver.
  - naive_solver.
Qed.

(** ** Properties *)

Section properties.
Context {St : Type} `{TSL : TreeStoreLaws St}.

(** C25: A checkin commits what the session staged: on every catalog the
    operations lead to, folding the rows of a mount onto its base gives a tree
    that holds every staged file, no tombstoned path, and below neither the
    files of the base. *)
Theorem checkin_commits_staged (c : Catalog) (ns mount : str) (base : option ObjectId) (new : ObjectId) (s s' : St)
    (H : history c) (Hi : ts_inv s) (Hb : base_closed s base) (Hw : wf_overlay (staged_overlay c ns mount))
    (Hco : apply_overlay base (staged_overlay c ns mount) s = (Ok new, s'))
    (p : list str) (f : FileId) (Hne : p <> []) (Hp : Forall plain p) :
  file_in s' new p f <-> committed c ns mount (base_files s base) p f.
Proof.
  destruct (history_inv c H) as (_ & Hfree & _).
  pose proof (wp_elim _ _ _ _ _ (apply_overlay_level base _ s Hi Hb Hw) Hco) as (_ & _ & Hf).
  rewrite (Hf p f Hne Hp). by apply committed_overlay.
Qed.
End properties.

(** ** Witness *)

Definition demo_stage : CatOp := OpUpsert (bs "s1") (bs "/") (bs "c") (Some ZERO) true.
Definition demo_c4 : Catalog := (run demo_stage demo_c3).2.

Lemma demo_c4_rows : overlay_rows demo_c4 = <[(bs "s1", bs "/", bs "c") := (Some ZERO, true)]> ∅.
Proof.
  rewrite <- (list_to_map_to_list (overlay_rows demo_c4)).
  assert (map_to_list (overlay_rows demo_c4) = [((bs "s1", bs "/", bs "c"), (Some ZERO, true))]) as -> by by vm_compute.
  done.
Qed.

Lemma demo_c4_history : history demo_c4.
Proof.
  apply history_op; [apply demo_history|]. split; [|reflexivity].
  split; [by exists (mkNsCols (bs "ann") 2 (Some (demo_oid x01)) (Some (bs "heads/agents/ann/1")))|].
  by exists (mkMountCols (bs "ref:heads/agents/ann/1") (bs "rw") (Some (demo_oid x01))).
Qed.

Lemma demo_c4_wf : wf_overlay (staged_overlay demo_c4 (bs "s1") (bs "/")).
Proof.
  intros k Hk. rewrite staged_overlay_lookup, demo_c4_rows in Hk. apply fmap_is_Some in Hk.
  apply lookup_insert_is_Some in Hk as [[= <-]|[_ [? Hk]]]; [|by rewrite lookup_empty in Hk].
  repeat (constructor; [split; [done|by apply (bool_decide_eq_false_1 ("/"%byte ∈ _))]|]). constructor.
Qed.

Lemma checkin_commits_staged_witness :
  exists new s', apply_overlay (Some demo_root) (staged_overlay demo_c4 (bs "s1") (bs "/")) demo_store = (Ok new, s')
    /\ file_in s' new [bs "c"] (ZERO, true).
Proof.
  destruct (apply_overlay (Some demo_root) (staged_overlay demo_c4 (bs "s1") (bs "/")) demo_store) as [r s1] eqn:E.
  assert ((apply_overlay (Some demo_root) (staged_overlay demo_c4 (bs "s1") (bs "/")) demo_store).1 = r) as Er by (by rewrite E).
  destruct r as [new|e|]; [|vm_compute in Er; discriminate Er..]. clear Er.
  exists new, s1. split; [reflexivity|]. destruct demo_spec as (Hi & _ & Hc).
  apply (checkin_commits_staged demo_c4 (bs "s1") (bs "/") (Some demo_root) new demo_store s1
    demo_c4_history Hi Hc demo_c4_wf E [bs "c"] (ZERO, true)); [discriminate| |].
  - repeat constructor; [discriminate|by apply (bool_decide_eq_false_1 ("/"%byte ∈ _))].
  - unfold committed. rewrite demo_c4_rows. reflexivity.
Defined.
