(* ===== verification/Group.v ===== *)
(** * Group commit ([run_grouped] and [drain_group], crates/forge-store/src/meta.rs)

    A batch of queued catalog writes shares one transaction, each write under a
    savepoint of its own.  The engine may fail at any of its own statements:
    [Faults] says where.  A job that panics unwinds the thread that drains the
    queue, which drops the transaction. *)

From S2P Require Import Prelude RustStd Types Overlay Namespace Catalog Refs Sessions CatAudit Events CatalogInv.

Section group.
Context {Out : Type}.

(** [PendingWrite]: a queued job; its reply channel is its place in the list. *)
Abbreviation job := (db Out).

Record Faults := mkFaults {
  at_begin : option Error;
  at_savepoint : nat -> option Error;
  at_release : nat -> option Error;
  at_rollback : nat -> option Error;
  at_commit : option Error
}.

Definition no_faults : Faults := mkFaults None (fun _ => None) (fun _ => None) (fun _ => None) None.

Definition duplicate_error (error : Error) : Error :=
  match error with
  | Denied m => Denied m
  | NotFound m => NotFound m
  | Sealed m => Sealed m
  | Invalid m => Invalid m
  | Corrupt m => Corrupt m
  | Busy m => Busy m
  | MergeConflict oid => MergeConflict oid
  | StaleObservation path expected found => StaleObservation path expected found
  | InvalidBase => InvalidBase
  | Io m => Io m
  | Sqlite m => Sqlite m
  | CapError m => CapError m
  | Internal m => Internal m
  end.

(** The loop's state: the replies so far, the error that doomed the
    transaction, the tables inside it. *)
Record Batch := mkBatch { outs : list (Result Out); poisoned : option Error; inside : Catalog }.

Definition batch_step (f : Faults) (i : nat) (b : Batch) (j : job) : outcome Error Batch :=
  let fail error := Ok (mkBatch (outs b ++ [Err (duplicate_error error)]) (Some error) (inside b)) in
  match poisoned b with
  | Some error => Ok (mkBatch (outs b ++ [Err (duplicate_error error)]) (Some error) (inside b))
  | None =>
      match at_savepoint f i with
      | Some error => fail error
      | None =>
          match j (inside b) with
          | (Ok value, c') =>
              match at_release f i with
              | None => Ok (mkBatch (outs b ++ [Ok value]) None c')
              | Some error => fail error
              end
          | (Err rejected, _) =>
              (** [ROLLBACK TO]: the job's statements are undone. *)
              Ok (mkBatch (outs b ++ [Err rejected]) (at_rollback f i) (inside b))
          | (Panic, _) => Panic
          end
      end
  end.

Fixpoint batch_loop (f : Faults) (i : nat) (b : Batch) (jobs : list job) : outcome Error Batch :=
  match jobs with
  | [] => Ok b
  | j :: jobs' => b' ← batch_step f i b j; batch_loop f (S i) b' jobs'
  end.

Definition all_fail (jobs : list job) (error : Error) : list (Result Out) :=
  (fun _ => Err (duplicate_error error)) <$> jobs.

(** The replies of a batch, and the catalog it leaves. *)
Definition drain_group (f : Faults) (jobs : list job) (c : Catalog) : outcome Error (list (Result Out)) * Catalog :=
  match jobs with
  | [] => (Ok [], c)
  | _ =>
      match at_begin f with
      | Some error => (Ok (all_fail jobs error), c)
      | None =>
          match batch_loop f 0 (mkBatch [] None c) jobs with
          | Ok b =>
              let committed := match poisoned b with Some error => Some error | None => at_commit f end in
              match committed with
              | None => (Ok (outs b), inside b)
              | Some error => (Ok (all_fail jobs error), c)
              end
          | Err e => (Err e, c)
          | Panic => (Panic, c)
          end
      end
  end.

(** ** Reference: every job in a transaction of its own, in queue order *)

Fixpoint one_by_one (jobs : list job) (c : Catalog) : list (Result Out) * Catalog :=
  match jobs with
  | [] => ([], c)
  | j :: jobs' =>
      let '(r, c1) := transaction j c in
      let '(rs, c2) := one_by_one jobs' c1 in
      (r :: rs, c2)
  end.

(** ** Lemmas *)

Lemma duplicate_error_id e : duplicate_error e = e.
Proof. by destruct e. Qed.

Definition calm (jobs : list job) : Prop := forall j c, j ∈ jobs -> no_panic (j c).1.

Lemma batch_loop_poisoned f i b jobs e :
  poisoned b = Some e -> exists b', batch_loop f i b jobs = Ok b' /\ poisoned b' = Some e.
Proof.
  revert i b. induction jobs as [|j jobs IH]; intros i b Hp; cbn [batch_loop]; [by exists b|].
  unfold batch_step. rewrite Hp. by apply IH.
Qed.

(** An unpoisoned batch ran its jobs one by one. *)
Lemma batch_loop_spec f i b jobs :
  calm jobs -> poisoned b = None ->
  exists b', batch_loop f i b jobs = Ok b'
    /\ (poisoned b' = None ->
        outs b' = outs b ++ (one_by_one jobs (inside b)).1 /\ inside b' = (one_by_one jobs (inside b)).2).
Proof.
  revert i b. induction jobs as [|j jobs IH]; intros i b Hc Hp; cbn [batch_loop].
  - exists b. split; [done|]. intros _. cbn. by rewrite app_nil_r.
  - assert (calm jobs) as Hc' by (intros j' c' Hj'; apply Hc; by right).
    assert (forall e o t, exists b', batch_loop f (S i) (mkBatch o (Some e) t) jobs = Ok b' /\
      (poisoned b' = None -> outs b' = outs b ++ (one_by_one (j :: jobs) (inside b)).1
        /\ inside b' = (one_by_one (j :: jobs) (inside b)).2)) as Hbad.
    { intros e o t. destruct (batch_loop_poisoned f (S i) (mkBatch o (Some e) t) jobs e eq_refl) as (b' & E1 & E2).
      exists b'. split; [exact E1|]. by rewrite E2. }
    unfold batch_step. rewrite Hp. destruct (at_savepoint f i); [apply Hbad|].
    pose proof (Hc j (inside b) ltac:(by left)) as Hnp. cbn [one_by_one] in *. unfold transaction in *.
    destruct (j (inside b)) as [[v|e|] c1] eqn:Ej; [| |by destruct Hnp].
    + destruct (at_release f i); [apply Hbad|]. cbn [mbind outcome_bind].
      destruct (IH (S i) (mkBatch (outs b ++ [Ok v]) None c1) Hc' eq_refl) as (b' & E1 & E2).
      exists b'. split; [exact E1|]. intros Hn. destruct (E2 Hn) as [-> ->]. cbn [outs inside].
      destruct (one_by_one jobs c1). by rewrite <- app_assoc.
    + cbn [mbind outcome_bind]. destruct (at_rollback f i); [apply Hbad|].
      destruct (IH (S i) (mkBatch (outs b ++ [Err e]) None (inside b)) Hc' eq_refl) as (b' & E1 & E2).
      exists b'. split; [exact E1|]. intros Hn. destruct (E2 Hn) as [-> ->]. cbn [outs inside].
      destruct (one_by_one jobs (inside b)). by rewrite <- app_assoc.
Qed.

Lemma batch_loop_calm i b jobs :
  calm jobs -> poisoned b = None ->
  exists b', batch_loop no_faults i b jobs = Ok b' /\ poisoned b' = None.
Proof.
  revert i b. induction jobs as [|j jobs IH]; intros i b Hc Hp; cbn [batch_loop]; [by exists b|].
  assert (calm jobs) as Hc' by (intros j' c' Hj'; apply Hc; by right).
  unfold batch_step. rewrite Hp. cbn [at_savepoint no_faults at_release at_rollback].
  pose proof (Hc j (inside b) ltac:(by left)) as Hnp.
  destruct (j (inside b)) as [[v|e|] c1]; [by apply IH..|by destruct Hnp].
Qed.

(** ** Properties *)

(** C33: Group commit is invisible: a batch answers and leaves exactly what
    running its jobs one by one would, each in its own transaction; if the
    engine fails anywhere, nothing is applied and every member is told the
    failure. *)
Theorem group_commit_is_sequential (f : Faults) (jobs : list (db Out)) (c : Catalog) (Hc : calm jobs) :
  (drain_group f jobs c = (Ok (one_by_one jobs c).1, (one_by_one jobs c).2)
   \/ exists e, drain_group f jobs c = (Ok (replicate (length jobs) (Err e)), c))
  /\ drain_group no_faults jobs c = (Ok (one_by_one jobs c).1, (one_by_one jobs c).2).
Proof.
  assert (forall e, all_fail jobs e = replicate (length jobs) (Err e)) as Hall.
  { intros e. unfold all_fail. rewrite duplicate_error_id. clear Hc.
    induction jobs as [|j l IH]; [done|]. cbn. by rewrite IH. }
  destruct (decide (jobs = [])) as [->|Hne]; [split; [by left|done]|].
  assert (forall f', drain_group f' jobs c =
    match at_begin f' with
    | Some error => (Ok (all_fail jobs error), c)
    | None => match batch_loop f' 0 (mkBatch [] None c) jobs with
              | Ok b => match (match poisoned b with Some error => Some error | None => at_commit f' end) with
                        | None => (Ok (outs b), inside b)
                        | Some error => (Ok (all_fail jobs error), c)
                        end
              | Err e => (Err e, c)
              | Panic => (Panic, c)
              end
    end) as Hd by (intros f'; by destruct jobs). split.
  - rewrite Hd. destruct (at_begin f) as [e|]; [right; exists e; by rewrite Hall|].
    destruct (batch_loop_spec f 0 (mkBatch [] None c) jobs Hc eq_refl) as (b & -> & Hb).
    destruct (poisoned b) as [e|] eqn:Ep; [right; exists e; by rewrite Hall|].
    destruct (Hb eq_refl) as [-> ->]. destruct (at_commit f) as [e|]; [right; exists e; by rewrite Hall|]. by left.
  - rewrite Hd. cbn [at_begin no_faults at_commit].
    destruct (batch_loop_calm 0 (mkBatch [] None c) jobs Hc eq_refl) as (b & Eb & Ep).
    destruct (batch_loop_spec no_faults 0 (mkBatch [] None c) jobs Hc eq_refl) as (b' & Eb' & Hb).
    rewrite Eb in Eb'. injection Eb' as <-. rewrite Eb, Ep. by destruct (Hb Ep) as [-> ->].
Qed.
End group.
Arguments mkBatch {Out}.

(** A writer alone in the queue: [run_grouped] is a transaction. *)
Lemma group_of_one {Out} (j : db Out) c :
  no_panic (j c).1 -> drain_group no_faults [j] c = (Ok [(run_grouped j c).1], (run_grouped j c).2).
Proof.
  intros Hj. unfold drain_group, run_grouped, transaction. cbn.
  unfold batch_step. cbn. destruct (j c) as [[v|e|] c']; [done|done|by destruct Hj].
Qed.

(** ** No catalog operation panics *)

Definition safe {A} (m : db A) : Prop := forall c, no_panic (m c).1.

Lemma safe_db_bind {A B} (m : db A) (f : A -> db B) : safe m -> (forall a, safe (f a)) -> safe (m ≫= f).
Proof.
  unfold safe, no_panic, mbind, stateM_bind. intros Hm Hf c. specialize (Hm c).
  destruct (m c) as [[a|e|] c1]; [apply Hf|done|done].
Qed.

Lemma safe_transaction {A} (m : db A) : safe m -> safe (transaction m).
Proof.
  unfold safe, no_panic, transaction. intros Hm c. specialize (Hm c). by destruct (m c) as [[a|e|] c1].
Qed.

Lemma safe_pure {A} (m : Result A) : no_panic m -> safe (pure m).
Proof. by intros H c. Qed.
Lemma safe_db_ret {A} (a : A) : safe (mret a).
Proof. done. Qed.
Lemma safe_change f : safe (change f).
Proof. done. Qed.
Lemma safe_tables : safe get_tables.
Proof. done. Qed.
Lemma safe_throw {A} e : safe (@throw Error Catalog A e).
Proof. done. Qed.
Lemma safe_refuse b e : safe (refuse_if b e).
Proof. by destruct b. Qed.

Lemma no_panic_ref_name s : no_panic (validate_ref_name s).
Proof.
  unfold validate_ref_name. apply no_panic_bind; [auto with forge|]. intros ? _.
  apply no_panic_bind; auto with forge.
Qed.

Lemma no_panic_validate_kind n k : no_panic (validate_ref_kind n k).
Proof.
  unfold validate_ref_kind. apply no_panic_bind; [apply no_panic_ref_name|]. intros ? _.
  apply no_panic_bind; [destruct (strip_prefix n (bs "inbox/")); auto with forge|]. intros ? _.
  destruct (expected_kind n); auto with forge.
Qed.

Lemma no_panic_resolution_names a b c : no_panic (resolution_names a b c).
Proof.
  unfold resolution_names.
  repeat (apply no_panic_bind; [first [apply no_panic_validate_kind|auto with forge]|intros ? _]); auto with forge.
Qed.

Create HintDb calm.
#[export] Hint Resolve safe_pure safe_db_ret safe_change safe_tables safe_throw safe_refuse no_panic_ref_name
  no_panic_validate_kind no_panic_resolution_names no_panic_ok_or : calm.

(** [calmly]: follow the statements of a body. *)
Ltac calmly :=
  repeat first
    [ progress auto with calm
    | apply safe_transaction
    | apply safe_db_bind; [|intros ?]
    | match goal with
      | |- safe (if ?b then _ else _) => destruct b
      | |- safe (match ?o with Some _ => _ | None => _ end) => destruct o
      | |- safe (let '(_, _) := ?o in _) => destruct o
      end ].

Lemma safe_intros oids commit agent ts : safe (insert_intros_tx oids commit agent ts).
Proof. induction oids as [|oid oids IH]; cbn [insert_intros_tx]; unfold insert_intro; calmly. Qed.

Lemma safe_stage ns mount dest : safe (stage_rows ns mount dest).
Proof. induction dest as [|[[path oid] exec] dest IH]; cbn [stage_rows]; calmly. Qed.
#[export] Hint Resolve safe_intros safe_stage : calm.

Lemma run_safe op : safe (run op).
Proof.
  destruct op; cbn [run]; unfold void, insert_ref, insert_ref_with_intros, cas_ref, cas_ref_with_intros, cas_tx,
    cas_ref_session, complete_noop_session, session_cas, end_epoch, pin_root, repin_mount_tx, abandon_ref,
    publish_resolution, check_into, check_conflict, advance_into, commit_seal, landmark, intro_insert_many,
    gc_sweep, forget_object, create_session, insert_namespace, set_pin, observe, observation_is_current,
    observations_clear, insert_mount, update_mount_spec, overlay_upsert, overlay_rename, supersede, refuse_ancestor,
    overlay_clear, abandon_session, run_grouped, refs_insert, refs_update, refs_delete, reflog_insert, deny_retired,
    ref_retired, ref_exists, select_ref, namespaces_insert, namespaces_pin, mounts_insert, mounts_replace,
    mounts_update, seals_insert, constraint_failed; cbv zeta; calmly.
Qed.

(** Catalog operations, queued together, answer as they would one at a time. *)
Lemma operations_calm (ops : list CatOp) : calm (run <$> ops).
Proof. intros j c (op & -> & _)%list_elem_of_fmap. apply run_safe. Qed.

Definition demo_jobs : list (db unit) := run <$> [demo_open; demo_open].

Lemma group_commit_is_sequential_witness :
  drain_group no_faults demo_jobs demo_c1 = (Ok (one_by_one demo_jobs demo_c1).1, (one_by_one demo_jobs demo_c1).2).
Proof. apply (group_commit_is_sequential no_faults demo_jobs demo_c1). apply operations_calm. Defined.
