(* ===== verification/Authority.v ===== *)
(** * Authority of a caller (crates/forge-api/src/authority.rs)

    The checks every operation of [Forge] starts with.  [key] is the
    repository's [hmac_key], [now] the [now_ms()] of the check. *)

From S2P Require Import Prelude RustStd Types Cap Overlay Namespace Catalog Refs Sessions.

Section authority.
Context `{HM : Hmac}.

Definition load_cap (key : bytes) (token : str) : Result Cap :=
  cap ← from_token (trim token);
  _ ← verify key cap;
  Ok cap.

Definition check (key : bytes) (now : Z) (cap : Cap) (op : Op) (ref_name : option str) : Result unit :=
  _ ← verify key cap;
  allows cap op ref_name now.

(** The row of a name space the caller owns.  The capability is not verified here. *)
Definition require_ns (cap : Cap) (ns : str) : db NsRow :=
  row ← get_namespace ns;
  _ ← refuse_if (negb (bytes_eqb (nr_agent_id row) (agent_id cap)))
        (Denied (bs "namespace {ns} is owned by {}, not {}"));
  mret row.

Definition check_spec_read (key : bytes) (now : Z) (cap : Cap) (spec : str) : Result unit :=
  s ← parse_spec spec;
  match s with
  | SRef n => check key now cap Read (Some n)
  | SOid _ =>
      if has_unrestricted_ref_scope cap then check key now cap Read None
      else Err (Denied (bs "ref-scoped caps cannot address raw object ids"))
  end.

Definition grant (key : bytes) (now : Z) (cap : Cap) (extra : list str) : Result Cap :=
  _ ← check key now cap Grant None;
  attenuate key cap extra.

(** ** Lemmas *)

Lemma check_ok key now cap op rn :
  check key now cap op rn = Ok tt <-> verify key cap = Ok tt /\ allows cap op rn now = Ok tt.
Proof.
  unfold check. rewrite bind_ok. split; [by intros ([] & ? & ?)|]. intros [? ?]. by exists tt.
Qed.

Lemma no_panic_allows cap op rn now : no_panic (allows cap op rn now).
Proof.
  unfold allows. apply no_panic_bind; [auto with forge|]. intros _ _. apply no_panic_bind; [auto with forge|]. intros _ _.
  apply no_panic_bind; [case_match; auto with forge|]. intros _ _. destruct rn as [n|]; [|auto with forge].
  apply no_panic_bind; [auto with forge|]. intros _ _.
  apply no_panic_bind; [apply for_each_no_panic; intros; auto with forge|]. intros _ _.
  case_match; [apply for_each_no_panic; intros; auto with forge|auto with forge].
Qed.

Lemma no_panic_check key now cap op rn : no_panic (check key now cap op rn).
Proof. unfold check, verify. apply no_panic_bind; [auto with forge|]. intros _ _. apply no_panic_allows. Qed.

Lemma require_ns_ok cap ns c row c' :
  require_ns cap ns c = (Ok row, c') ->
  c' = c /\ exists r, namespaces c !! ns = Some r /\ row = ns_row ns r /\ ns_agent r = agent_id cap.
Proof.
  unfold require_ns, get_namespace, get_tables, read_state, refuse_if, pure, throw, ok_or.
  unfold mbind, stateM_bind, mret, stateM_ret. destruct (namespaces c !! ns) as [r|] eqn:E; [|done].
  cbn. destruct (negb _) eqn:En; intros [= <- <-]. split; [done|]. exists r.
  apply negb_false_iff, bool_decide_eq_true in En. done.
Qed.
End authority.
