(* ===== verification/Gc.v ===== *)
(** * Garbage collection (crates/forge-api/src/gc.rs, read_gc_roots of meta.rs)

    The roots a catalog gives, the walk that fails closed, the protection of
    what survives, the plan ([gc]) and the sweep ([gc_collect]).

    The object directory is a map from the path of a file below [objects/] to
    its content and modification time.  Other processes act between the
    unlocked steps of a sweep: [Env] carries what they do, as arbitrary
    functions on the state, and what the file system answers. *)

From S2P Require Import Prelude RustStd Types Object Cap Overlay Namespace Graph Catalog Refs Sessions Authority.

(** ** The roots of a catalog *)

Record GcCatalogRoots := mkGcRoots {
  g_refs : list (str * str * ObjectId);
  g_pins : list (str * ObjectId);
  g_live_refs : Z;
  g_mounts : list (str * str * str * option ObjectId);
  g_overlay : list (str * str * ObjectId);
  g_observations : list (str * str * str * ObjectId);
  g_landmarks : list (ObjectId * str);
  g_seals : list (str * ObjectId * ObjectId * ObjectId)
}.

(** The statements order their rows by key; [(ns, mount, path)] in this order. *)
Definition by_key2 {A} (m : gmap (str * str) A) : list (str * str * A) :=
  sort_by_key (fun kv => kv.1.1) (sort_by_key (fun kv => kv.1.2) (map_to_list m)).
Definition by_key3 {A} (m : gmap (str * str * str) A) : list (str * str * str * A) :=
  sort_by_key (fun kv => kv.1.1.1) (sort_by_key (fun kv => kv.1.1.2) (sort_by_key (fun kv => kv.1.2) (map_to_list m))).

Definition read_gc_roots (c : Catalog) : GcCatalogRoots :=
  mkGcRoots
    ((fun kv => (kv.1, rc_kind kv.2, rc_oid kv.2)) <$> btree_list (refs c))
    (omap (fun kv => pin ← ns_pinned kv.2; Some (kv.1, pin)) (btree_list (namespaces c)))
    (len (filter (fun kv => is_Some (ns_live_ref kv.2)) (btree_list (namespaces c))))
    ((fun kv => (kv.1.1, kv.1.2, mc_spec kv.2, mc_base kv.2)) <$> by_key2 (mounts c))
    (omap (fun kv => oid ← kv.2.1; Some (kv.1.1.1, kv.1.2, oid)) (by_key3 (overlay_rows c)))
    (omap (fun kv => oid ← kv.2.2; Some (kv.1.1.1, kv.1.2, kv.2.1, oid)) (by_key3 (observation_rows c)))
    ((fun kv => (kv.1, lm_kind kv.2)) <$> sort_by_key (fun kv => arr_bytes kv.1) (map_to_list (landmarks c)))
    ((fun kv => (kv.1, sl_snap kv.2, sl_commit kv.2, sl_tree kv.2)) <$> btree_list (seals c)).

Definition DEFAULT_MIN_AGE_SECS : Z := 86400.
Definition GC_COLLECT_MIN_AGE_FLOOR : Z := 60.
Definition GC_COLLECT_BATCH_LIMIT : Z := 4096.
Definition GC_SAMPLE_LIMIT : nat := 256.

Record GcRootCounts := mkCounts {
  n_refs : Z;
  n_unresolved_forks : Z;
  n_session_pins : Z;
  n_session_live_refs : Z;
  n_mounts : Z;
  n_mount_pins : Z;
  n_overlay_blobs : Z;
  n_observations : Z;
  n_landmarks : Z;
  n_seals : Z
}.

(** The edges [schedule_catalog_roots] hands to the queue, in its order. *)
Definition ref_edge (r : str * str * ObjectId) : GraphEdge := any r.2 (bs "ref:" ++ r.1.1).
Definition pin_edge (p : str * ObjectId) : GraphEdge := exact p.2 TCommit (bs "namespace:" ++ p.1 ++ bs ":pin").
Definition mount_edges (m : str * str * str * option ObjectId) : list GraphEdge :=
  let '(ns, path, spec, base) := m in
  let name := bs "namespace:" ++ ns ++ bs ":mount:" ++ path in
  match parse_spec spec with Ok (SOid id) => [any id name] | _ => [] end ++
  match base with Some id => [any id (name ++ bs ":base")] | None => [] end.
Definition overlay_edge (o : str * str * ObjectId) : GraphEdge :=
  exact o.2 TBlob (bs "namespace:" ++ o.1.1 ++ bs ":overlay:" ++ o.1.2).
Definition observation_edge (o : str * str * str * ObjectId) : Result GraphEdge :=
  let '(ns, path, kind, oid) := o in
  expected ← (if bytes_eqb kind (bs "blob") then Ok TBlob
              else if bytes_eqb kind (bs "tree") then Ok TTree
              else Err (Corrupt (bs "observation namespace:{ns}:{path} names an object under unusable kind {other}")));
  Ok (exact oid expected (bs "namespace:" ++ ns ++ bs ":observation:" ++ path)).
Definition landmark_edge (l : ObjectId * str) : GraphEdge := any l.1 (bs "landmark:" ++ hex l.1).
Definition seal_edges (s : str * ObjectId * ObjectId * ObjectId) : list GraphEdge :=
  let '(tag, snap, commit, tree) := s in
  let name := bs "seal:" ++ tag in
  [exact snap TSnapshot (name ++ bs ":snapshot"); exact commit TCommit (name ++ bs ":commit");
   exact tree TTree (name ++ bs ":tree")].

Section gc.
Context `{B3 : Blake3}.

Definition schedule_observation (q : GraphWorkQueue) (o : str * str * str * ObjectId) : Result GraphWorkQueue :=
  e ← observation_edge o; schedule_all q [e].

Definition count_roots (g : GcCatalogRoots) : GcRootCounts :=
  mkCounts (len (g_refs g)) (len (filter (fun r => Is_true (is_fork_ref r.1.1)) (g_refs g)))
    (len (g_pins g)) (g_live_refs g) (len (g_mounts g))
    (len (filter (fun m => is_Some m.2) (g_mounts g)))
    (len (g_overlay g)) (len (g_observations g)) (len (g_landmarks g)) (len (g_seals g)).

Definition schedule_catalog_roots (g : GcCatalogRoots) (q : GraphWorkQueue) : Result (GcRootCounts * GraphWorkQueue) :=
  q ← schedule_all q (ref_edge <$> g_refs g);
  q ← schedule_all q (pin_edge <$> g_pins g);
  q ← schedule_all q (g_mounts g ≫= mount_edges);
  q ← schedule_all q (overlay_edge <$> g_overlay g);
  q ← try_fold schedule_observation q (g_observations g);
  q ← schedule_all q (landmark_edge <$> g_landmarks g);
  q ← schedule_all q (g_seals g ≫= seal_edges);
  Ok (count_roots g, q).

(** ** The object directory *)

(** A file below [objects/a/b/]: whether it is a regular one, its content, and
    its modification time in nanoseconds when the system tells one. *)
Record ObjFile := mkObjFile { of_regular : bool; of_bytes : bytes; of_mtime : option Z }.

Record Plane := mkPlane {
  files : gmap (str * str * str) ObjFile;
  strays : Z  (** entries above the third level that are no directories *)
}.

Definition object_path (id : ObjectId) : str * str * str :=
  let h := hex id in (take 2 h, take 2 (drop 2 h), h).

Definition require_regular_file (p : Plane) (path : str * str * str) : Result ObjFile :=
  match files p !! path with
  | Some f => if of_regular f then Ok f else Err (Corrupt (bs "object {id} is not a regular file: {:?}"))
  | None => Err (NotFound (bs "object {id}"))
  end.

(** [LocalBlobStore::get], the read of [Store::get_raw_verified]. *)
Definition plane_get (p : Plane) (id : ObjectId) : Result bytes :=
  f ← require_regular_file p (object_path id);
  _ ← reject_if (negb (bool_decide (hash_bytes (of_bytes f) = id))) (Corrupt (bs "hash mismatch {id}"));
  Ok (of_bytes f).

(** ** The walks *)

Definition unprovable (what : str) (e : Error) : Error :=
  Corrupt (bs "gc cannot prove reachability: {} ({}) " ++ what ++ bs ": {error}").

Definition walk_step (l : GraphWorkQueue * gset ObjectId)
    : stateM Error Plane ((GraphWorkQueue * gset ObjectId) + gset ObjectId) :=
  let '(queue, reachable) := l in
  match pop_front queue with
  | (None, _) => mret (inr reachable)
  | (Some edge, queue) =>
      if bool_decide (ge_id edge ∈ reachable) then mret (inl (queue, reachable))
      else
        let reachable := {[ ge_id edge ]} ∪ reachable in
        p ← read_state;
        b ← pure (map_err (unprovable (bs "is unreadable")) (plane_get p (ge_id edge)));
        decoded ← pure (map_err (unprovable (bs "does not decode")) (decode_graph_object (ge_id edge) b));
        queue ← pure (schedule_all queue (dg_edges decoded));
        mret (inl (queue, reachable))
  end.

Definition walk (p : Plane) (queue : GraphWorkQueue) (reachable : gset ObjectId) : Result (gset ObjectId) :=
  (m_while graph_budget walk_step (queue, reachable) p).1.

(** [limit] is the ceiling of [GraphWorkQueue::default()]. *)
Definition reachable_closure (limit : Z) (p : Plane) (c : GcCatalogRoots) (reachable : gset ObjectId)
    : Result (GcRootCounts * gset ObjectId) :=
  '(counts, queue) ← schedule_catalog_roots c (with_limit limit);
  reachable ← walk p queue reachable;
  Ok (counts, reachable).

(** The edges of the object stored under an identifier; nothing when it
    cannot be read or decoded. *)
Definition edges_of (p : Plane) (id : ObjectId) : list GraphEdge :=
  match plane_get p id with
  | Ok b => match decode_graph_object id b with Ok d => dg_edges d | _ => [] end
  | _ => []
  end.

(** [if seen.insert(edge.id) { pending.push(edge.id) }]. *)
Definition push_unseen (l : list ObjectId * gset ObjectId) (edge : GraphEdge) : list ObjectId * gset ObjectId :=
  let '(pending, seen) := l in
  if bool_decide (ge_id edge ∈ seen) then l else (ge_id edge :: pending, {[ ge_id edge ]} ∪ seen).

Definition protect_step (p : Plane) (l : list ObjectId * gset ObjectId * gset ObjectId)
    : (list ObjectId * gset ObjectId * gset ObjectId) + gset ObjectId :=
  let '(pending, seen, reachable) := l in
  match pending with
  | [] => inr reachable
  | id :: pending =>
      let '(pending, seen) := fold_left push_unseen (edges_of p id) (pending, seen) in
      inl (pending, seen, {[ id ]} ∪ reachable)
  end.

(** Every identifier some stored object names: the loop takes each of them at
    most once, besides the survivors it starts from. *)
Definition named_ids (p : Plane) : gset ObjectId :=
  list_to_set (map_to_list (files p) ≫= fun kv =>
    match from_hex kv.1.2 with Ok id => ge_id <$> edges_of p id | _ => [] end).

Definition protect_budget (p : Plane) (pending : list ObjectId) : positive :=
  Pos.of_succ_nat (length pending + size (named_ids p)).

Definition protect_from_survivors (p : Plane) (survivors : list ObjectId) (reachable : gset ObjectId)
    : Result (gset ObjectId) :=
  let pending := reverse (filter (fun id => id ∉ reachable) survivors) in
  match while_pos (protect_step p) (protect_budget p pending) (pending, list_to_set pending, reachable) with
  | inr reachable => Ok reachable
  | inl _ => Panic
  end.

(** ** Scanning *)

Record ScannedObject := mkScanned {
  so_id : ObjectId;
  so_path : str * str * str;
  so_size : Z;
  so_age : Z
}.

(** [now.duration_since(modified)], zero when that is in the future. *)
Definition age_of (now : Z) (f : ObjFile) : Z :=
  match of_mtime f with Some t => if t <=? now then now - t else 0 | None => 0 end.

(** [read_dir] yields the entries of a directory in an order of its own. *)
Context (read_dir : list (str * str * str * ObjFile) -> list (str * str * str * ObjFile)).

Definition scan_file (now : Z) (l : list ScannedObject * Z) (kv : str * str * str * ObjFile) : list ScannedObject * Z :=
  let '(out, unnamed) := l in
  if negb (of_regular kv.2) then (out, unnamed + 1)
  else match from_hex kv.1.2 with
       | Ok id => (out ++ [mkScanned id kv.1 (len (of_bytes kv.2)) (age_of now kv.2)], unnamed)
       | _ => (out, unnamed + 1)
       end.

Definition scan_objects (now : Z) (p : Plane) : list ScannedObject * Z :=
  fold_left (scan_file now) (read_dir (map_to_list (files p))) ([], strays p).

(** ** Reports *)

Record GcReport := mkReport {
  rp_dry_run : bool;
  rp_min_age_secs : Z;
  rp_roots : GcRootCounts;
  rp_reachable_objects : Z;
  rp_scanned_objects : Z;
  rp_collectable_objects : Z;
  rp_collectable_bytes : Z;
  rp_withheld_young_objects : Z;
  rp_withheld_young_bytes : Z;
  rp_unnamed_files : Z;
  rp_deleted_objects : Z;
  rp_collectable_sample : list str;
  rp_sample_truncated : bool;
  rp_batch_limited : bool
}.

Definition saturating_add (a b : Z) : Z := Z.min u64_max (a + b).

Definition new_report (dry : bool) (min_age : Z) (roots : GcRootCounts) (reachable scanned unnamed : Z) : GcReport :=
  mkReport dry min_age roots reachable scanned 0 0 0 0 unnamed 0 [] false false.

Definition withhold (size : Z) (r : GcReport) : GcReport :=
  mkReport (rp_dry_run r) (rp_min_age_secs r) (rp_roots r) (rp_reachable_objects r) (rp_scanned_objects r)
    (rp_collectable_objects r) (rp_collectable_bytes r) (rp_withheld_young_objects r + 1)
    (saturating_add (rp_withheld_young_bytes r) size) (rp_unnamed_files r) (rp_deleted_objects r)
    (rp_collectable_sample r) (rp_sample_truncated r) (rp_batch_limited r).

Definition limit_batch (r : GcReport) : GcReport :=
  mkReport (rp_dry_run r) (rp_min_age_secs r) (rp_roots r) (rp_reachable_objects r) (rp_scanned_objects r)
    (rp_collectable_objects r) (rp_collectable_bytes r) (rp_withheld_young_objects r)
    (rp_withheld_young_bytes r) (rp_unnamed_files r) (rp_deleted_objects r)
    (rp_collectable_sample r) (rp_sample_truncated r) true.

(** One more collectable object; [deleted] of them are counted as unlinked. *)
Definition collectable (size deleted : Z) (r : GcReport) : GcReport :=
  mkReport (rp_dry_run r) (rp_min_age_secs r) (rp_roots r) (rp_reachable_objects r) (rp_scanned_objects r)
    (rp_collectable_objects r + 1) (saturating_add (rp_collectable_bytes r) size) (rp_withheld_young_objects r)
    (rp_withheld_young_bytes r) (rp_unnamed_files r) (rp_deleted_objects r + deleted)
    (rp_collectable_sample r) (rp_sample_truncated r) (rp_batch_limited r).

(** [sample.sort(); .. sample.truncate(GC_SAMPLE_LIMIT)]. *)
Definition set_sample (sample : list str) (r : GcReport) : GcReport :=
  mkReport (rp_dry_run r) (rp_min_age_secs r) (rp_roots r) (rp_reachable_objects r) (rp_scanned_objects r)
    (rp_collectable_objects r) (rp_collectable_bytes r) (rp_withheld_young_objects r)
    (rp_withheld_young_bytes r) (rp_unnamed_files r) (rp_deleted_objects r)
    (firstn GC_SAMPLE_LIMIT (sort_by_key (fun s => s) sample)) (Nat.ltb GC_SAMPLE_LIMIT (length sample))
    (rp_batch_limited r).

Definition min_age_nanos (min_age_secs : Z) : Z := min_age_secs * 10 ^ 9.

(** ** The state, and what happens around the collector *)

(** [gs_cached] are the identifiers the hot caches hold. *)
Record GcState := mkGcState { gs_catalog : Catalog; gs_plane : Plane; gs_cached : gset ObjectId }.

(** What other processes do between the unlocked steps ([after_scan],
    [after_warm], and to the objects alone [before_lock], once the catalog is
    locked), the clock of the scan and of the sweep, and the failures of
    [remove_file] and of the commit. *)
Record Env := mkEnv {
  after_scan : GcState -> GcState;
  after_warm : GcState -> GcState;
  before_lock : Plane -> Plane;
  scan_now : Z;
  sweep_now : Z;
  unlink_fault : str * str * str -> bool;
  commit_fault : option Error
}.

Definition interfere (f : GcState -> GcState) : stateM Error GcState unit := fun s => (Ok tt, f s).

Definition set_catalog (c : Catalog) (s : GcState) : GcState := mkGcState c (gs_plane s) (gs_cached s).
Definition set_plane (p : Plane) (s : GcState) : GcState := mkGcState (gs_catalog s) p (gs_cached s).

Definition on_catalog {A} (m : db A) : stateM Error GcState A := fun s =>
  let '(r, c) := m (gs_catalog s) in (r, set_catalog c s).

(** [Meta::gc_sweep] around a body that also unlinks: an error rolls the
    catalog back, and nothing else.  That a catalog opened read-only refuses the
    sweep is not in the model, which sweeps one that may be written. *)
Definition sweep_tx {A} (commit : option Error) (body : stateM Error GcState A) : stateM Error GcState A := fun s =>
  match body s with
  | (Ok a, s') => match commit with None => (Ok a, s') | Some e => (Err e, set_catalog (gs_catalog s) s') end
  | (r, s') => (r, set_catalog (gs_catalog s) s')
  end.
End gc.

(** ** The plan and the sweep *)

Section collect.
Context `{B3 : Blake3} `{HM : Hmac}.
Context (read_dir : list (str * str * str * ObjFile) -> list (str * str * str * ObjFile)).
(** [hmac_key], and the ceiling [GraphWorkQueue::default()] reads. *)
Context (key : bytes) (limit : Z).

Definition restricted_view : Error :=
  Denied (bs "gc requires unrestricted read authority; a filtered ref view is not a root set").

(** One scanned object of the plan. *)
Definition plan_object (reachable : gset ObjectId) (min_age : Z) (l : GcReport * list str) (o : ScannedObject)
    : GcReport * list str :=
  let '(report, sample) := l in
  if bool_decide (so_id o ∈ reachable) then l
  else if so_age o <? min_age then (withhold (so_size o) report, sample)
  else (collectable (so_size o) 0 report, sample ++ [hex (so_id o)]).

Definition gc (env : Env) (now : Z) (cap : Cap) (dry_run : bool) (min_age_secs : Z) : stateM Error GcState GcReport :=
  _ ← pure (check key now cap Read None);
  _ ← pure (reject_if (negb (has_unrestricted_ref_scope cap)) restricted_view);
  _ ← pure (reject_if (negb dry_run)
        (Invalid (bs "gc needs a mode: --dry-run to plan, or --collect to reclaim (see docs/GC.md)")));
  s ← read_state;
  let '(scanned, unnamed) := scan_objects read_dir (scan_now env) (gs_plane s) in
  _ ← interfere (after_scan env);
  s ← read_state;
  '(roots, reachable) ← pure (reachable_closure limit (gs_plane s) (read_gc_roots (gs_catalog s)) ∅);
  let report := new_report true min_age_secs roots (Z.of_nat (size reachable)) (len scanned) unnamed in
  let '(report, sample) := fold_left (plan_object reachable (min_age_nanos min_age_secs)) scanned (report, []) in
  mret (set_sample sample report).

(** The choice under the lock: what is doomed and what is spared. *)
Record Choice := mkChoice {
  ch_report : GcReport;
  ch_doomed : list (ScannedObject * Z);
  ch_spared : list ScannedObject
}.

Definition choose (p : Plane) (now : Z) (reachable : gset ObjectId) (min_age : Z) (l : Choice) (o : ScannedObject) : Choice :=
  if bool_decide (so_id o ∈ reachable) then l
  else match files p !! so_path o with
       | None => l
       | Some f =>
           let age := age_of now f in
           let size := len (of_bytes f) in
           if (age <? min_age) || (GC_COLLECT_BATCH_LIMIT <=? len (ch_doomed l)) then
             mkChoice (if age <? min_age then withhold size (ch_report l) else limit_batch (ch_report l))
               (ch_doomed l) (ch_spared l ++ [o])
           else mkChoice (ch_report l) (ch_doomed l ++ [(o, size)]) (ch_spared l)
       end.

(** [fs::remove_file] and [Store::forget_cached]. *)
Definition unlink (fault : str * str * str -> bool) (o : ScannedObject) : stateM Error GcState unit := fun s =>
  if fault (so_path o) then (Err (Io (bs "gc could not unlink {}: {error}")), s)
  else (Ok tt, mkGcState (gs_catalog s)
          (mkPlane (delete (so_path o) (files (gs_plane s))) (strays (gs_plane s)))
          (gs_cached s ∖ {[ so_id o ]})).

Definition take_object (fault : str * str * str -> bool) (reachable : gset ObjectId)
    (l : GcReport * list str) (d : ScannedObject * Z) : stateM Error GcState (GcReport * list str) :=
  let '(o, size) := d in
  if bool_decide (so_id o ∈ reachable) then mret l
  else
    _ ← on_catalog (forget_object (so_id o));
    _ ← unlink fault o;
    mret (collectable size 1 l.1, l.2 ++ [hex (so_id o)]).

(** The body of the transaction, from the walk on the locked catalog on. *)
Definition sweep_body (env : Env) (min_age_secs : Z) (scanned shortlist : list ScannedObject) (unnamed : Z)
    (reachable : gset ObjectId) : stateM Error GcState GcReport :=
  s ← read_state;
  '(roots, reachable) ← pure (reachable_closure limit (gs_plane s) (read_gc_roots (gs_catalog s)) reachable);
  let report := new_report false min_age_secs roots (Z.of_nat (size reachable)) (len scanned) unnamed in
  _ ← interfere (fun s => set_plane (before_lock env (gs_plane s)) s);
  s ← read_state;
  let p := gs_plane s in
  let choice := fold_left (choose p (sweep_now env) reachable (min_age_nanos min_age_secs)) shortlist (mkChoice report [] []) in
  reachable ← pure (protect_from_survivors p (so_id <$> ch_spared choice) reachable);
  '(report, sample) ← m_fold (take_object (unlink_fault env) reachable) (ch_report choice, []) (ch_doomed choice);
  mret (set_sample sample report).

Definition gc_collect (env : Env) (now : Z) (cap : Cap) (min_age_secs : Z) : stateM Error GcState GcReport :=
  _ ← pure (check key now cap Read None);
  _ ← pure (check key now cap Write None);
  _ ← pure (reject_if (negb (has_unrestricted_ref_scope cap)) restricted_view);
  _ ← pure (reject_if (min_age_secs <? GC_COLLECT_MIN_AGE_FLOOR)
        (Invalid (bs "gc --collect requires --min-age-secs >= {GC_COLLECT_MIN_AGE_FLOOR}: the floor bounds the window in which a writer has put an object and not yet published a root naming it, and a floor below it collects live data (see docs/GC.md)")));
  s ← read_state;
  let '(scanned, unnamed) := scan_objects read_dir (scan_now env) (gs_plane s) in
  _ ← interfere (after_scan env);
  s ← read_state;
  '(_, reachable) ← pure (reachable_closure limit (gs_plane s) (read_gc_roots (gs_catalog s)) ∅);
  let shortlist := filter (fun o => so_id o ∉ reachable) scanned in
  _ ← interfere (after_warm env);
  sweep_tx (commit_fault env) (sweep_body env min_age_secs scanned shortlist unnamed reachable).

Definition abandon_fork (ts now : Z) (cap : Cap) (name : str) : db RetiredRef :=
  _ ← pure (check key now cap Write (Some name));
  abandon_ref ts name (agent_id cap).

(** The operation of [Forge]; the one it calls is [Sessions.abandon_session]. *)
Definition forge_abandon_session (cap : Cap) (ns : str) (discard_staged : bool) : db AbandonedSession :=
  _ ← require_ns cap ns;
  abandon_session ns discard_staged.
End collect.

(** ** What the roots reach *)

(** The identifiers the rows of a catalog name, object provenance apart. *)
Inductive catalog_root (c : Catalog) : ObjectId -> Prop :=
| root_ref name r : refs c !! name = Some r -> catalog_root c (rc_oid r)
| root_pin ns r id : namespaces c !! ns = Some r -> ns_pinned r = Some id -> catalog_root c id
| root_mount_spec k m id : mounts c !! k = Some m -> parse_spec (mc_spec m) = Ok (SOid id) -> catalog_root c id
| root_mount_base k m id : mounts c !! k = Some m -> mc_base m = Some id -> catalog_root c id
| root_staged k id exec : overlay_rows c !! k = Some (Some id, exec) -> catalog_root c id
| root_observed k kind id : observation_rows c !! k = Some (kind, Some id) -> catalog_root c id
| root_landmark id l : landmarks c !! id = Some l -> catalog_root c id
| root_seal_snap tag s : seals c !! tag = Some s -> catalog_root c (sl_snap s)
| root_seal_commit tag s : seals c !! tag = Some s -> catalog_root c (sl_commit s)
| root_seal_tree tag s : seals c !! tag = Some s -> catalog_root c (sl_tree s).

Section reach.
Context `{B3 : Blake3}.

(** What an object directory stores under an identifier, decoded. *)
Definition decodes (p : Plane) (id : ObjectId) (d : DecodedGraphObject) : Prop :=
  exists b, plane_get p id = Ok b /\ decode_graph_object id b = Ok d.

(** What objects of [roots] lead to, along the edges of stored objects. *)
Inductive live (p : Plane) (roots : ObjectId -> Prop) : ObjectId -> Prop :=
| live_root id : roots id -> live p roots id
| live_edge id d e : live p roots id -> decodes p id d -> e ∈ dg_edges d -> live p roots (ge_id e).

(** Two directories hold the same bytes under an identifier both can read:
    objects are immutable, and no two of them collide. *)
Definition agree (p p' : Plane) : Prop :=
  forall id b b', plane_get p id = Ok b -> plane_get p' id = Ok b' -> b = b'.

(** A set that holds, with each object, everything the object names; [P]
    are the directories it may be read from. *)
Definition covered (P : Plane -> Prop) (R : gset ObjectId) : Prop :=
  forall id, id ∈ R -> exists p d, P p /\ decodes p id d /\ forall e, e ∈ dg_edges d -> ge_id e ∈ R.

Lemma decodes_edges p id d : decodes p id d -> edges_of p id = dg_edges d.
Proof. intros (b & Hb & Hd). unfold edges_of. by rewrite Hb, Hd. Qed.

Lemma edges_of_decodes p id e : e ∈ edges_of p id -> exists d, decodes p id d /\ e ∈ dg_edges d.
Proof.
  unfold edges_of. destruct (plane_get p id) as [b| |] eqn:Hb; [|by intros ?%elem_of_nil..].
  destruct (decode_graph_object id b) as [d| |] eqn:Hd; [|by intros ?%elem_of_nil..].
  intros He. exists d. split; [by exists b|done].
Qed.

Lemma decodes_agree p p' id d d' : agree p p' -> decodes p id d -> decodes p' id d' -> d = d'.
Proof. intros Ha (b & Hb & Hd) (b' & Hb' & Hd'). rewrite (Ha _ _ _ Hb Hb') in Hd. congruence. Qed.

(** A covered set that holds the roots holds everything they lead to. *)
Lemma covered_live (P : Plane -> Prop) (R : gset ObjectId) p (roots : ObjectId -> Prop) :
  covered P R -> (forall q, P q -> agree q p) -> (forall id, roots id -> id ∈ R) ->
  forall id, live p roots id -> id ∈ R.
Proof.
  intros Hc Ha Hr id Hl. induction Hl as [id Hid|id d e Hl IH Hd He]; [by apply Hr|].
  destruct (Hc id IH) as (q & d' & HP & Hd' & Hed).
  rewrite <- (decodes_agree q p id d' d (Ha q HP) Hd' Hd) in He. by apply Hed.
Qed.

Lemma live_mono p (A B : ObjectId -> Prop) id : (forall i, A i -> B i) -> live p A id -> live p B id.
Proof. intros H Hl. induction Hl; [apply live_root; auto|by eapply live_edge]. Qed.

(** *** The queue *)

Definition queue_measure (limit : Z) (q : GraphWorkQueue) : Z :=
  len (gq_queue q) + (8 * limit - Z.of_nat (size (gq_scheduled q))).

Definition scheduled_id (q : GraphWorkQueue) (id : ObjectId) : Prop := exists k, (id, k) ∈ gq_scheduled q.

(** What scheduling edges does to the queue. *)
Record grows (q q' : GraphWorkQueue) (new : ObjectId -> Prop) : Prop := mk_grows {
  gr_wf : wf_queue q';
  gr_limit : gq_limit q' = gq_limit q;
  gr_measure : queue_measure (gq_limit q) q' = queue_measure (gq_limit q) q;
  gr_keep id : scheduled_id q id -> scheduled_id q' id;
  gr_new id : new id -> scheduled_id q' id;
  gr_queue e : e ∈ gq_queue q -> e ∈ gq_queue q';
  gr_from e : e ∈ gq_queue q' -> e ∈ gq_queue q \/ new (ge_id e);
  gr_wait id : scheduled_id q' id -> scheduled_id q id \/ exists e, e ∈ gq_queue q' /\ ge_id e = id
}.

Lemma grows_refl q : wf_queue q -> grows q q (fun _ => False).
Proof. intros H. by split; auto. Qed.

Lemma grows_trans q1 q2 q3 A B : grows q1 q2 A -> grows q2 q3 B -> grows q1 q3 (fun id => A id \/ B id).
Proof.
  intros [H1 H2 H3 H4 H5 H6 H7 H8] [G1 G2 G3 G4 G5 G6 G7 G8]. split; try done.
  - congruence.
  - rewrite H2 in G3. congruence.
  - auto.
  - intros id [?|?]; auto.
  - auto.
  - intros e [He|?]%G7; [|auto]. apply H7 in He as [?|?]; auto.
  - intros id [Hs|?]%G8; [|auto]. apply H8 in Hs as [?|(e & He & <-)]; [by left|]. right. exists e. auto.
Qed.

Lemma grows_ext q q' (A B : ObjectId -> Prop) : grows q q' A -> (forall id, A id <-> B id) -> grows q q' B.
Proof.
  intros [] H. split; try done; [intros id ?%H; auto|]. intros e [?|?%H]%gr_from0; auto.
Qed.

Lemma schedule_grows q e b q' : wf_queue q -> schedule q e = Ok (b, q') -> grows q q' (fun id => id = ge_id e).
Proof.
  intros Hq E. pose proof (schedule_spec q e Hq) as Hs. rewrite E in Hs.
  destruct Hs as (Hq' & Hl & Hk & Hsub & _ & Hcase). split; try done.
  - unfold queue_measure. destruct Hcase as [->|(Eq & Es & Hn)]; [done|].
    rewrite Eq, Es, len_app, size_union, size_singleton by set_solver. rewrite len_cons, len_nil. lia.
  - intros id [k Hid]. exists k. set_solver.
  - intros id ->. by eexists.
  - intros e' He'. destruct Hcase as [->|(-> & _ & _)]; [done|]. apply elem_of_app. by left.
  - intros e' He'. destruct Hcase as [->|(Eq & _ & _)]; [by left|]. rewrite Eq in He'.
    apply elem_of_app in He' as [?| ->%list_elem_of_singleton]; auto.
  - intros id [k Hid]. destruct Hcase as [->|(Eq & Es & _)]; [left; by exists k|].
    rewrite Es in Hid. apply elem_of_union in Hid as [[= -> ->]%elem_of_singleton|Hid]; [|left; by exists k].
    right. exists e. split; [|done]. rewrite Eq. apply elem_of_app. right. by left.
Qed.

Lemma schedule_all_grows q edges q' :
  wf_queue q -> schedule_all q edges = Ok q' -> grows q q' (fun id => exists e, e ∈ edges /\ ge_id e = id).
Proof.
  unfold schedule_all. revert q. induction edges as [|e edges IH]; intros q Hq E.
  { cbn in E. injection E as <-. eapply grows_ext; [by apply grows_refl|]. intros id.
    split; [done|]. by intros (e & ?%elem_of_nil & _). }
  cbn [try_fold] in E. apply bind_ok in E as (q1 & E1 & E). apply bind_ok in E1 as ([b q1'] & E1 & [= ->]).
  pose proof (schedule_grows _ _ _ _ Hq E1) as H1. pose proof (IH q1 (gr_wf _ _ _ H1) E) as H2.
  eapply grows_ext; [by eapply grows_trans|]. intros id. split.
  - intros [->|(e' & He' & <-)]; [exists e; split; [by left|done]|exists e'; split; [by right|done]].
  - intros (e' & [->|He']%elem_of_cons & <-); [by left|right; by exists e'].
Qed.

Lemma schedule_all_no_panic q edges : no_panic (schedule_all q edges).
Proof.
  unfold schedule_all. revert q. induction edges as [|e edges IH]; intros q; [done|].
  cbn [try_fold]. apply no_panic_bind; [|by intros]. apply no_panic_bind; [|by intros []].
  unfold schedule. repeat case_match; auto with forge.
Qed.
End reach.

(** *** The rows a root comes out of *)

Section roots.
Context `{B3 : Blake3}.

Lemma elem_of_by_key2 {A} (m : gmap (str * str) A) k a : (k, a) ∈ by_key2 m <-> m !! k = Some a.
Proof. unfold by_key2. by rewrite !sort_by_key_perm, elem_of_map_to_list. Qed.

Lemma elem_of_by_key3 {A} (m : gmap (str * str * str) A) k a : (k, a) ∈ by_key3 m <-> m !! k = Some a.
Proof. unfold by_key3. by rewrite !sort_by_key_perm, elem_of_map_to_list. Qed.

(** The object an observation of the catalog names, when its kind is known. *)
Lemma schedule_observations_grow q l q' :
  wf_queue q -> try_fold schedule_observation q l = Ok q' ->
  grows q q' (fun id => exists o, o ∈ l /\ o.2 = id).
Proof.
  revert q. induction l as [|o l IH]; intros q Hq E.
  { cbn in E. injection E as <-. eapply grows_ext; [by apply grows_refl|]. intros id.
    split; [done|]. by intros (o & ?%elem_of_nil & _). }
  cbn [try_fold] in E. apply bind_ok in E as (q1 & E1 & E). unfold schedule_observation in E1.
  apply bind_ok in E1 as (e & Ee & E1). pose proof (schedule_all_grows _ _ _ Hq E1) as H1.
  pose proof (IH q1 (gr_wf _ _ _ H1) E) as H2.
  assert (ge_id e = o.2) as Hid.
  { unfold observation_edge in Ee. destruct o as [[[ns path] kind] oid]. apply bind_ok in Ee as (t & _ & [= <-]). done. }
  eapply grows_ext; [by eapply grows_trans|]. intros id. split.
  - intros [(e' & ->%list_elem_of_singleton & <-)|(o' & ? & <-)]; [exists o; split; [by left|done]|].
    exists o'. split; [by right|done].
  - intros (o' & [->|?]%elem_of_cons & <-); [left; exists e; split; [by left|done]|right; by exists o'].
Qed.

Lemma refs_roots c id : (exists e, e ∈ ref_edge <$> g_refs (read_gc_roots c) /\ ge_id e = id) <->
  exists name r, refs c !! name = Some r /\ rc_oid r = id.
Proof.
  unfold read_gc_roots, g_refs. rewrite <- list_fmap_compose. split.
  - intros (e & ([name r] & -> & Hin%elem_of_btree_list)%list_elem_of_fmap & <-). by exists name, r.
  - intros (name & r & Hr & <-). exists (ref_edge (name, rc_kind r, rc_oid r)). split; [|done].
    apply list_elem_of_fmap. exists (name, r). split; [done|]. by apply elem_of_btree_list.
Qed.

Lemma pins_roots c id : (exists e, e ∈ pin_edge <$> g_pins (read_gc_roots c) /\ ge_id e = id) <->
  exists ns r, namespaces c !! ns = Some r /\ ns_pinned r = Some id.
Proof.
  unfold read_gc_roots, g_pins. split.
  - intros (e & ([ns pin] & -> & ([ns' r] & Hin%elem_of_btree_list & Hp)%list_elem_of_omap)%list_elem_of_fmap & <-).
    cbn in Hp. apply bind_Some in Hp as (pin' & Hp & [= -> ->]). exists ns, r. done.
  - intros (ns & r & Hr & Hp). exists (pin_edge (ns, id)). split; [|done].
    apply list_elem_of_fmap. exists (ns, id). split; [done|]. apply list_elem_of_omap.
    exists (ns, r). split; [by apply elem_of_btree_list|]. cbn. by rewrite Hp.
Qed.

Lemma mounts_roots c id : (exists e, e ∈ (g_mounts (read_gc_roots c) ≫= mount_edges) /\ ge_id e = id) <->
  exists k m, mounts c !! k = Some m /\ (parse_spec (mc_spec m) = Ok (SOid id) \/ mc_base m = Some id).
Proof.
  unfold read_gc_roots, g_mounts. split.
  - intros (e & ([[[ns path] spec] base] & He & ([[ns' path'] m] & [= -> -> -> ->] & Hin%elem_of_by_key2)%list_elem_of_fmap)%list_elem_of_bind & <-).
    exists (ns', path'), m. split; [done|]. cbn in He. apply elem_of_app in He as [He|He].
    + left. destruct (parse_spec (mc_spec m)) as [[n|i]| |]; try (by apply elem_of_nil in He).
      apply list_elem_of_singleton in He as ->. done.
    + right. destruct (mc_base m) as [i|]; [|by apply elem_of_nil in He]. apply list_elem_of_singleton in He as ->. done.
  - intros ([ns path] & m & Hm & H).
    assert (exists e, e ∈ mount_edges (ns, path, mc_spec m, mc_base m) /\ ge_id e = id) as (e & He & Hid).
    { cbn. destruct H as [-> | ->]; eexists; (split; [apply elem_of_app|]); [left; by left|done|right; by left|done]. }
    exists e. split; [|done]. apply list_elem_of_bind. eexists. split; [exact He|].
    apply list_elem_of_fmap. exists (ns, path, m). split; [done|]. by apply elem_of_by_key2.
Qed.

Lemma overlay_roots c id : (exists e, e ∈ overlay_edge <$> g_overlay (read_gc_roots c) /\ ge_id e = id) <->
  exists k exec, overlay_rows c !! k = Some (Some id, exec).
Proof.
  unfold read_gc_roots, g_overlay. split.
  - intros (e & (o & -> & ([k [oid exec]] & Hin%elem_of_by_key3 & Ho)%list_elem_of_omap)%list_elem_of_fmap & <-).
    cbn in Ho. apply bind_Some in Ho as (oid' & -> & [= <-]). by exists k, exec.
  - intros ([[ns mount] path] & exec & Hr). exists (overlay_edge (ns, path, id)). split; [|done].
    apply list_elem_of_fmap. eexists. split; [done|]. apply list_elem_of_omap.
    exists (ns, mount, path, (Some id, exec)). split; [by apply elem_of_by_key3|done].
Qed.

Lemma observations_roots c id : (exists o, o ∈ g_observations (read_gc_roots c) /\ o.2 = id) <->
  exists k kind, observation_rows c !! k = Some (kind, Some id).
Proof.
  unfold read_gc_roots, g_observations. split.
  - intros (o & ([k [kind oid]] & Hin%elem_of_by_key3 & Ho)%list_elem_of_omap & <-).
    cbn in Ho. apply bind_Some in Ho as (oid' & -> & [= <-]). by exists k, kind.
  - intros ([[ns mount] path] & kind & Hr). exists (ns, path, kind, id). split; [|done].
    apply list_elem_of_omap. exists (ns, mount, path, (kind, Some id)). split; [by apply elem_of_by_key3|done].
Qed.

Lemma landmarks_roots c id : (exists e, e ∈ landmark_edge <$> g_landmarks (read_gc_roots c) /\ ge_id e = id) <->
  exists l, landmarks c !! id = Some l.
Proof.
  unfold read_gc_roots, g_landmarks. rewrite <- list_fmap_compose. split.
  - intros (e & ([oid l] & -> & Hin)%list_elem_of_fmap & <-). rewrite sort_by_key_perm in Hin.
    apply elem_of_map_to_list in Hin. by exists l.
  - intros (l & Hl). exists (landmark_edge (id, lm_kind l)). split; [apply list_elem_of_fmap; exists (id, l); split; [done|]|done].
    by rewrite sort_by_key_perm, elem_of_map_to_list.
Qed.

Lemma seals_roots c id : (exists e, e ∈ (g_seals (read_gc_roots c) ≫= seal_edges) /\ ge_id e = id) <->
  exists tag s, seals c !! tag = Some s /\ (id = sl_snap s \/ id = sl_commit s \/ id = sl_tree s).
Proof.
  unfold read_gc_roots, g_seals. split.
  - intros (e & ([[[tag snap] commit] tree] & He & ([tag' s] & [= -> -> -> ->] & Hin%elem_of_btree_list)%list_elem_of_fmap)%list_elem_of_bind & <-).
    exists tag', s. split; [done|]. cbn in He. set_solver.
  - intros (tag & s & Hs & H).
    assert (exists e, e ∈ seal_edges (tag, sl_snap s, sl_commit s, sl_tree s) /\ ge_id e = id) as (e & He & Hid).
    { destruct H as [-> |[-> | ->]]; [exists (exact (sl_snap s) TSnapshot (bs "seal:" ++ tag ++ bs ":snapshot"))
        |exists (exact (sl_commit s) TCommit (bs "seal:" ++ tag ++ bs ":commit"))
        |exists (exact (sl_tree s) TTree (bs "seal:" ++ tag ++ bs ":tree"))]; (split; [|done]);
        unfold seal_edges; rewrite <- app_assoc; set_solver. }
    exists e. split; [|done]. apply list_elem_of_bind. eexists. split; [exact He|].
    apply list_elem_of_fmap. exists (tag, s). split; [done|]. by apply elem_of_btree_list.
Qed.

(** Scheduling the roots of a catalog schedules exactly what its rows name. *)
Lemma schedule_catalog_roots_grow c q r q' :
  wf_queue q -> schedule_catalog_roots (read_gc_roots c) q = Ok (r, q') -> grows q q' (catalog_root c).
Proof.
  intros Hq E. unfold schedule_catalog_roots in E.
  apply bind_ok in E as (q1 & E1 & E). apply bind_ok in E as (q2 & E2 & E). apply bind_ok in E as (q3 & E3 & E).
  apply bind_ok in E as (q4 & E4 & E). apply bind_ok in E as (q5 & E5 & E). apply bind_ok in E as (q6 & E6 & E).
  apply bind_ok in E as (q7 & E7 & [= _ ->]).
  pose proof (schedule_all_grows _ _ _ Hq E1) as H1. pose proof (schedule_all_grows _ _ _ (gr_wf _ _ _ H1) E2) as H2.
  pose proof (schedule_all_grows _ _ _ (gr_wf _ _ _ H2) E3) as H3. pose proof (schedule_all_grows _ _ _ (gr_wf _ _ _ H3) E4) as H4.
  pose proof (schedule_observations_grow _ _ _ (gr_wf _ _ _ H4) E5) as H5.
  pose proof (schedule_all_grows _ _ _ (gr_wf _ _ _ H5) E6) as H6. pose proof (schedule_all_grows _ _ _ (gr_wf _ _ _ H6) E7) as H7.
  eapply grows_ext.
  { eapply grows_trans; [exact H1|]. eapply grows_trans; [exact H2|]. eapply grows_trans; [exact H3|].
    eapply grows_trans; [exact H4|]. eapply grows_trans; [exact H5|]. eapply grows_trans; [exact H6|exact H7]. }
  intros id. cbn beta. rewrite refs_roots, pins_roots, mounts_roots, overlay_roots, observations_roots, landmarks_roots, seals_roots.
  split.
  - intros [(n & x & H & <-)|[(n & x & H & Hx)|[(k & m & H & [Hx|Hx])|[(k & x & H)|[(k & x & H)|[(l & H)|(t & s & H & [->|[->| ->]])]]]]]];
      [by eapply root_ref|by eapply root_pin|by eapply root_mount_spec|by eapply root_mount_base|by eapply root_staged
      |by eapply root_observed|by eapply root_landmark|by eapply root_seal_snap|by eapply root_seal_commit|by eapply root_seal_tree].
  - intros [n r0 Hr|ns r0 i Hr Hp|k m i Hm Hs|k m i Hm Hb|k i x Hk|k x i Hk|i l Hl|t s Hs|t s Hs|t s Hs].
    + left. by exists n, r0.
    + do 1 right. left. by exists ns, r0.
    + do 2 right. left. exists k, m. split; [done|by left].
    + do 2 right. left. exists k, m. split; [done|by right].
    + do 3 right. left. by exists k, x.
    + do 4 right. left. by exists k, x.
    + do 5 right. left. by exists l.
    + do 6 right. exists t, s. split; [done|by left].
    + do 6 right. exists t, s. split; [done|right; by left].
    + do 6 right. exists t, s. split; [done|right; by right].
Qed.

Lemma wf_with_limit limit : 0 < limit -> wf_queue (with_limit limit).
Proof. intros H. split; [by intros id k ?%elem_of_empty|]. cbn. rewrite size_empty. lia. Qed.

Lemma measure_with_limit limit : queue_measure limit (with_limit limit) = 8 * limit.
Proof. unfold queue_measure, with_limit. cbn [gq_queue gq_scheduled]. rewrite size_empty, len_nil. lia. Qed.

Lemma schedule_observations_no_panic q l : no_panic (try_fold schedule_observation q l).
Proof.
  revert q. induction l as [|o l IH]; intros q; [done|].
  cbn [try_fold]. apply no_panic_bind; [|by intros]. unfold schedule_observation.
  apply no_panic_bind; [|intros; apply schedule_all_no_panic].
  unfold observation_edge. destruct o as [[[ns path] kind] oid].
  apply no_panic_bind; [|intros; apply no_panic_ok]. repeat case_match; auto with forge.
Qed.

Lemma schedule_catalog_roots_no_panic g q : no_panic (schedule_catalog_roots g q).
Proof.
  unfold schedule_catalog_roots.
  repeat (apply no_panic_bind; [apply schedule_all_no_panic || apply schedule_observations_no_panic|intros ? _]).
  apply no_panic_ok.
Qed.
End roots.

(** *** The walk *)

Section gc_walk_spec.
Context `{B3 : Blake3}.

(** What a walk from [roots] adds to a set that is there already. *)
Record walked (p : Plane) (roots : ObjectId -> Prop) (R0 R : gset ObjectId) : Prop := mk_walked {
  wk_keep : R0 ⊆ R;
  wk_roots id : roots id -> id ∈ R;
  wk_each id : id ∈ R -> id ∈ R0 \/
    live p roots id /\ exists d, decodes p id d /\ forall e, e ∈ dg_edges d -> ge_id e ∈ R
}.

Section one.
Context (limit : Z) (p : Plane) (roots : ObjectId -> Prop) (R0 : gset ObjectId) (Hlim : 0 < limit <= u64_max).

Record walk_inv (l : GraphWorkQueue * gset ObjectId) : Prop := mk_walk_inv {
  wi_wf : wf_queue l.1;
  wi_limit : gq_limit l.1 = limit;
  wi_keep : R0 ⊆ l.2;
  wi_roots id : roots id -> scheduled_id l.1 id;
  wi_queue e : e ∈ gq_queue l.1 -> live p roots (ge_id e);
  wi_wait id : scheduled_id l.1 id -> id ∈ l.2 \/ exists e, e ∈ gq_queue l.1 /\ ge_id e = id;
  wi_each id : id ∈ l.2 -> id ∈ R0 \/
    live p roots id /\ exists d, decodes p id d /\ forall e, e ∈ dg_edges d -> scheduled_id l.1 (ge_id e)
}.

Lemma walk_done q R : walk_inv (q, R) -> gq_queue q = [] -> walked p roots R0 R.
Proof.
  intros [Hw Hl Hk Hr Hq Hs He] E. cbn [fst snd] in *.
  assert (forall id, scheduled_id q id -> id ∈ R) as Hin.
  { intros id [?|(e & Hi & _)]%Hs; [done|]. rewrite E in Hi. by apply elem_of_nil in Hi. }
  split; [done|auto|]. intros id [?|[Hv (d & Hd & Hed)]]%He; [by left|].
  right. split; [done|]. exists d. split; [done|]. auto.
Qed.

(** Passing over an object that was reached already. *)
Lemma walk_skip e l sch ids R :
  walk_inv (mkQueue (e :: l) sch ids limit, R) -> ge_id e ∈ R -> walk_inv (mkQueue l sch ids limit, R).
Proof.
  intros [Hw Hl Hk Hr Hq Hs He] Hin. cbn [fst snd] in *. split; cbn [fst snd]; try done; [by destruct Hw| |].
  - intros e' H. apply Hq. by right.
  - intros id [?|(e' & [->|H]%elem_of_cons & <-)]%Hs; [by left|by left|right; by exists e'].
Qed.

Lemma walk_take e l sch ids R d q2 :
  walk_inv (mkQueue (e :: l) sch ids limit, R) -> decodes p (ge_id e) d ->
  schedule_all (mkQueue l sch ids limit) (dg_edges d) = Ok q2 ->
  walk_inv (q2, {[ ge_id e ]} ∪ R) /\
  queue_measure limit q2 = queue_measure limit (mkQueue l sch ids limit).
Proof.
  intros [Hw Hl Hk Hr Hq Hs He] Hd E. cbn [fst snd] in *.
  assert (wf_queue (mkQueue l sch ids limit)) as Hw' by (by destruct Hw).
  pose proof (schedule_all_grows _ _ _ Hw' E) as [H1 H2 H3 H4 H5 H6 H7 H8]. cbn [gq_limit] in *.
  assert (live p roots (ge_id e)) as Hv by (apply Hq; by left).
  split; [|done]. split; cbn [fst snd]; try done.
  - set_solver.
  - intros id Hid. apply H4, Hr, Hid.
  - intros e' [He'|(e2 & He2 & <-)]%H7; [apply Hq; by right|by eapply live_edge].
  - intros id [Hid|?]%H8; [|by right]. destruct (Hs id Hid) as [?|(e' & [->|He']%elem_of_cons & <-)]; [set_solver..|].
    right. exists e'. split; [by apply H6|done].
  - intros id [->%elem_of_singleton|Hid]%elem_of_union.
    + right. split; [done|]. exists d. split; [done|]. intros e' He'. apply H5. by exists e'.
    + destruct (He id Hid) as [?|[? (d' & ? & Hed)]]; [by left|]. right. split; [done|]. exists d'. split; [done|].
      intros e' He'. by apply H4, Hed.
Qed.

Lemma walk_step_spec l :
  walk_inv l ->
  wp (walk_step l) p (fun r s' => s' = p /\ match r with
    | Ok (inl l') => walk_inv l' /\ 0 <= queue_measure limit l'.1 < queue_measure limit l.1
    | Ok (inr R) => walked p roots R0 R
    | Err _ => True
    | Panic => False
    end).
Proof.
  destruct l as [[queue sch ids lim] R]. intros Hinv. assert (lim = limit) as -> by (exact (wi_limit _ Hinv)).
  unfold walk_step, pop_front. cbn [gq_queue gq_scheduled gq_scheduled_ids gq_limit].
  destruct queue as [|e l]; [apply wp_ret; split; [done|by eapply walk_done]|].
  assert (0 <= queue_measure limit (mkQueue l sch ids limit) < queue_measure limit (mkQueue (e :: l) sch ids limit)) as Hm.
  { pose proof (scheduled_bound _ (wi_wf _ Hinv)) as Hsb. cbn [gq_scheduled gq_limit fst] in Hsb.
    unfold queue_measure. cbn [gq_queue gq_scheduled]. rewrite len_cons. pose proof (len_nonneg l). lia. }
  case_bool_decide as Hin.
  { apply wp_ret. split; [done|]. split; [by eapply walk_skip|done]. }
  apply wp_bind. unfold wp at 1, read_state. cbn [fst snd].
  apply wp_bind, wp_pure. destruct (plane_get p (ge_id e)) as [b|err|] eqn:Eb; cbn [map_err]; [|done|].
  2: { exfalso. revert Eb. apply no_panic_bind; [|intros; apply no_panic_bind; auto with forge].
       unfold require_regular_file. repeat case_match; auto with forge. }
  apply wp_bind, wp_pure. destruct (decode_graph_object (ge_id e) b) as [d|err|] eqn:Ed; cbn [map_err]; [|done|].
  2: by apply no_panic_decode_graph_object in Ed.
  assert (decodes p (ge_id e) d) as Hd by (by exists b).
  apply wp_bind, wp_pure. destruct (schedule_all (mkQueue l sch ids limit) (dg_edges d)) as [q2|err|] eqn:Es; [|done|].
  2: by apply schedule_all_no_panic in Es.
  apply wp_ret. split; [done|]. destruct (walk_take e l sch ids R d q2 Hinv Hd Es) as [H1 H2].
  split; [done|]. cbn [fst]. by rewrite H2.
Qed.

Lemma walk_eq q R : walk p q R = (m_while graph_budget walk_step (q, R) p).1.
Proof. done. Qed.

Lemma gc_walk_spec q :
  walk_inv (q, R0) -> queue_measure limit q = 8 * limit ->
  match walk p q R0 with Ok R => walked p roots R0 R | Err _ => True | Panic => False end.
Proof.
  intros Hinv Hm. rewrite walk_eq.
  apply (wp_fst _ p (fun r => match r with Ok R => walked p roots R0 R | Err _ => True | Panic => False end)).
  apply (wp_m_while (fun l s' => s' = p /\ walk_inv l) (fun l => queue_measure limit l.1)); [|done|].
  2: { cbn [fst]. rewrite Hm. unfold graph_budget, u64_max in *. lia. }
  intros l s' [-> Hl]. eapply wp_mono; [by apply walk_step_spec|].
  intros [[l'|R]|e|] s' [-> Hr]; [by split_and!; try apply Hr|done..].
Qed.
End one.

(** The closure of a catalog's roots. *)
Lemma reachable_closure_spec limit p c R0 :
  0 < limit <= u64_max ->
  match reachable_closure limit p (read_gc_roots c) R0 with
  | Ok (_, R) => walked p (catalog_root c) R0 R
  | Err _ => True
  | Panic => False
  end.
Proof.
  intros Hlim. unfold reachable_closure.
  destruct (schedule_catalog_roots _ _) as [[r q]|e|] eqn:E; [|done|by apply schedule_catalog_roots_no_panic in E].
  rewrite bind_of_ok. pose proof (schedule_catalog_roots_grow c _ r q (wf_with_limit limit ltac:(lia)) E) as [H1 H2 H3 H4 H5 H6 H7 H8].
  assert (forall id, scheduled_id (with_limit limit) id -> False) as Hno.
  { intros id [k ?%elem_of_empty]. done. }
  pose proof (gc_walk_spec limit p (catalog_root c) R0 Hlim q) as Hw.
  destruct (walk p q R0) as [R|e|]; [|done|].
  - apply Hw.
    + split; cbn [fst snd]; try done; [|by intros id [[]%Hno|?]%H8; right|by left].
      intros e [Hn|?]%H7; [by apply elem_of_nil in Hn|by apply live_root].
    + rewrite <- measure_with_limit. exact H3.
  - apply Hw.
    + split; cbn [fst snd]; try done; [|by intros id [[]%Hno|?]%H8; right|by left].
      intros e [Hn|?]%H7; [by apply elem_of_nil in Hn|by apply live_root].
    + rewrite <- measure_with_limit. exact H3.
Qed.
End gc_walk_spec.

(** *** The protection of what survives *)

Section protect_spec.
Context `{B3 : Blake3} (p : Plane).

Lemma edges_named id e : e ∈ edges_of p id -> ge_id e ∈ named_ids p.
Proof.
  intros He. assert (exists f, files p !! object_path id = Some f) as [f Hf].
  { apply edges_of_decodes in He as (d & (b & Hb & _) & _). unfold plane_get, require_regular_file in Hb.
    destruct (files p !! object_path id) as [f|]; [by exists f|done]. }
  apply elem_of_list_to_set, list_elem_of_bind. exists (object_path id, f). split.
  - unfold object_path. cbn [fst snd]. rewrite from_hex_hex_id. apply list_elem_of_fmap. by exists e.
  - by apply elem_of_map_to_list.
Qed.

Definition protect_measure (l : list ObjectId * gset ObjectId) : nat :=
  length l.1 + size (named_ids p ∖ l.2).

Lemma push_unseen_spec l e : ge_id e ∈ named_ids p ->
  let l' := push_unseen l e in
  protect_measure l' = protect_measure l /\ l'.2 = {[ ge_id e ]} ∪ l.2 /\
  (forall id, id ∈ l.1 -> id ∈ l'.1) /\ (forall id, id ∈ l'.1 -> id ∈ l.1 \/ id = ge_id e) /\
  (forall id, id ∈ l'.2 -> id ∈ l.2 \/ id ∈ l'.1).
Proof.
  intros Hn. destruct l as [pending seen]. unfold push_unseen. case_bool_decide as Hin; cbn [fst snd].
  - split; [done|]. split; [set_solver|]. split; [done|]. split; [by left|by left].
  - split; [|set_solver]. unfold protect_measure. cbn [fst snd length].
    assert (named_ids p ∖ seen = {[ge_id e]} ∪ named_ids p ∖ ({[ge_id e]} ∪ seen)) as ->.
    { apply set_eq. intros id. destruct (decide (id = ge_id e)); set_solver. }
    rewrite (size_union (C:=gset ObjectId) {[ge_id e]}) by set_solver. rewrite size_singleton. lia.
Qed.

Lemma push_all_spec es l : (forall e, e ∈ es -> ge_id e ∈ named_ids p) ->
  let l' := fold_left push_unseen es l in
  protect_measure l' = protect_measure l /\ (forall id, id ∈ l.2 -> id ∈ l'.2) /\
  (forall e, e ∈ es -> ge_id e ∈ l'.2) /\
  (forall id, id ∈ l.1 -> id ∈ l'.1) /\ (forall id, id ∈ l'.1 -> id ∈ l.1 \/ exists e, e ∈ es /\ ge_id e = id) /\
  (forall id, id ∈ l'.2 -> id ∈ l.2 \/ id ∈ l'.1).
Proof.
  revert l. induction es as [|e es IH]; intros l Hn; cbn.
  { split_and!; try done; [by intros e ?%elem_of_nil|by left|by left]. }
  destruct (push_unseen_spec l e (Hn e ltac:(by left))) as (H1 & H2 & H3 & H4 & H5).
  destruct (IH (push_unseen l e) ltac:(intros; apply Hn; by right)) as (G1 & G2 & G3 & G4 & G5 & G6).
  split_and!.
  - congruence.
  - intros id Hid. apply G2. rewrite H2. set_solver.
  - intros e' [->|He']%elem_of_cons; [apply G2; rewrite H2; set_solver|by apply G3].
  - auto.
  - intros id [[?| ->]%H4|(e' & ? & <-)]%G5; [by left|right; exists e; split; [by left|done]|right; exists e'; split; [by right|done]].
  - intros id [[?|?]%H5|?]%G6; auto.
Qed.

Section one.
Context (S : ObjectId -> Prop) (R : gset ObjectId).

Record protect_inv (l : list ObjectId * gset ObjectId * gset ObjectId) : Prop := mk_protect_inv {
  pi_keep : R ⊆ l.2;
  pi_start id : S id -> id ∈ l.1.2;
  pi_pending id : id ∈ l.1.1 -> live p S id;
  pi_seen id : id ∈ l.1.2 -> id ∈ l.1.1 \/ id ∈ l.2;
  pi_each id : id ∈ l.2 -> id ∈ R \/ live p S id /\ forall e, e ∈ edges_of p id -> ge_id e ∈ l.1.2
}.

(** What protection adds. *)
Record protected (R' : gset ObjectId) : Prop := mk_protected {
  pt_keep : R ⊆ R';
  pt_start id : S id -> id ∈ R';
  pt_each id : id ∈ R' -> id ∈ R \/ live p S id /\ forall e, e ∈ edges_of p id -> ge_id e ∈ R'
}.

Lemma protect_step_spec l : protect_inv l ->
  match protect_step p l with
  | inl l' => protect_inv l' /\ (protect_measure l'.1 < protect_measure l.1)%nat
  | inr R' => protected R'
  end.
Proof.
  destruct l as [[pending seen] reach]. intros [Hk Hs Hp Hse He]. cbn [fst snd] in *. unfold protect_step.
  destruct pending as [|id pending].
  { assert (forall i, i ∈ seen -> i ∈ reach) as Hin by (intros i [Hi%elem_of_nil|?]%Hse; done).
    split; [done|auto|]. intros i [?|[? Hed]]%He; [by left|]. right. auto. }
  destruct (push_all_spec (edges_of p id) (pending, seen) (edges_named id)) as (H1 & H2 & H3 & H4 & H5 & H6).
  destruct (fold_left push_unseen (edges_of p id) (pending, seen)) as [pending' seen'] eqn:E. cbn [fst snd] in *.
  assert (live p S id) as Hid by (apply Hp; by left). split.
  - split; cbn [fst snd]; [set_solver|auto| | |].
    + intros i [Hi|(e & (d & Hd & Hed)%edges_of_decodes & <-)]%H5; [apply Hp; by right|by eapply live_edge].
    + intros i [Hi|?]%H6; [|by left]. destruct (Hse i Hi) as [[->|?]%elem_of_cons|?]; [set_solver|left; auto|set_solver].
    + intros i [->%elem_of_singleton|Hi]%elem_of_union; [by right; auto|].
      destruct (He i Hi) as [?|[? Hed]]; [by left|right; auto].
  - rewrite H1. unfold protect_measure. cbn [fst snd length]. lia.
Qed.
End one.

Lemma protect_spec survivors R :
  exists R', protect_from_survivors p survivors R = Ok R' /\ protected (fun id => id ∈ survivors /\ id ∉ R) R R'
    /\ forall id, id ∈ survivors -> id ∈ R'.
Proof.
  unfold protect_from_survivors. set (S := fun id => id ∈ survivors /\ id ∉ R).
  set (pending := reverse (filter (fun id => id ∉ R) survivors)).
  assert (forall id, id ∈ pending <-> S id) as Hpend.
  { intros id. unfold pending. rewrite elem_of_reverse, list_elem_of_filter. unfold S. tauto. }
  destruct (while_pos_ends (protect_step p) (protect_inv S R) (fun l => protect_measure l.1)
    (protect_budget p pending) (pending, list_to_set pending, R)) as (R' & l & -> & Hl & E).
  - intros l Hl. pose proof (protect_step_spec S R l Hl) as H. by destruct (protect_step p l).
  - split; cbn [fst snd]; try done.
    + intros id Hid%Hpend. by apply elem_of_list_to_set.
    + intros id Hid%Hpend. by apply live_root.
    + intros id ?%elem_of_list_to_set. by left.
    + intros id ?. by left.
  - cbn [fst snd]. unfold protect_budget, protect_measure. cbn [fst snd]. rewrite SuccNat2Pos.id_succ.
    assert (size (named_ids p ∖ list_to_set pending) <= size (named_ids p))%nat; [|lia].
    apply subseteq_size. set_solver.
  - exists R'. split; [done|]. pose proof (protect_step_spec S R l Hl) as H. rewrite E in H. split; [done|].
    intros id Hid. destruct (decide (id ∈ R)) as [?|?]; [by apply (pt_keep _ _ _ H)|]. by apply (pt_start _ _ _ H).
Qed.
End protect_spec.

(** *** The choice and the unlinks *)

Section sweep_spec.
Context `{B3 : Blake3}.
Context (read_dir : list (str * str * str * ObjFile) -> list (str * str * str * ObjFile)).

(** The scan holds exactly the regular files named by an identifier. *)
Definition scanned_from (p : Plane) (o : ScannedObject) : Prop :=
  exists f, files p !! so_path o = Some f /\ of_regular f = true /\ from_hex (so_path o).2 = Ok (so_id o).

Lemma scan_step_spec now l n kvs o :
  o ∈ (fold_left (scan_file now) kvs (l, n)).1 <->
  o ∈ l \/ exists kv, kv ∈ kvs /\ of_regular kv.2 = true /\ from_hex kv.1.2 = Ok (so_id o) /\
    o = mkScanned (so_id o) kv.1 (len (of_bytes kv.2)) (age_of now kv.2).
Proof.
  revert l n. induction kvs as [|kv kvs IH]; intros l n; cbn.
  { split; [by left|]. intros [?|(kv & ?%elem_of_nil & _)]; done. }
  destruct (of_regular kv.2) eqn:Er; cbn [negb].
  2: { rewrite IH. split; (intros [?|(k & Hk & Hr & ?)]; [by left|right]).
       - exists k. split; [by right|done].
       - apply elem_of_cons in Hk as [->|Hk]; [congruence|]. by exists k. }
  destruct (from_hex kv.1.2) as [id|e|] eqn:Eh.
  2-3: rewrite IH; split; (intros [?|(k & Hk & Hr & Hh & ?)]; [by left|right]);
    [exists k; split; [by right|done]|apply elem_of_cons in Hk as [->|Hk]; [congruence|by exists k]].
  rewrite IH. split.
  - intros [[?| ->%list_elem_of_singleton]%elem_of_app|(k & Hk & Hr & ?)]; [by left|right..].
    + exists kv. split; [by left|]. done.
    + exists k. split; [by right|done].
  - intros [?|(k & Hk & Hr & Hh & Ho)]; [left; apply elem_of_app; by left|].
    apply elem_of_cons in Hk as [->|Hk].
    + left. apply elem_of_app. right. rewrite Hh in Eh. injection Eh as <-. rewrite <- Ho. by left.
    + right. by exists k.
Qed.

Lemma gc_scan_spec now p o : (forall l, read_dir l ≡ₚ l) ->
  o ∈ (scan_objects read_dir now p).1 -> scanned_from p o.
Proof.
  intros Hp [?%elem_of_nil|([path f] & Hk & Hr & Hh & Ho)]%scan_step_spec; [done|].
  rewrite Hp, elem_of_map_to_list in Hk. rewrite Ho. by exists f.
Qed.

Lemma scan_complete now p path id f : (forall l, read_dir l ≡ₚ l) ->
  files p !! path = Some f -> of_regular f = true -> from_hex path.2 = Ok id ->
  exists o, o ∈ (scan_objects read_dir now p).1 /\ so_path o = path /\ so_id o = id.
Proof.
  intros Hp Hf Hr Hh. exists (mkScanned id path (len (of_bytes f)) (age_of now f)).
  split; [|done]. apply scan_step_spec. right. exists (path, f).
  rewrite Hp, elem_of_map_to_list. done.
Qed.

Section choice.
Context (p : Plane) (now : Z) (R : gset ObjectId) (min_age : Z).

Record choice_inv (l : list ScannedObject) (ch : Choice) : Prop := mk_choice_inv {
  ci_doomed o n : (o, n) ∈ ch_doomed ch ->
    o ∈ l /\ so_id o ∉ R /\ exists f, files p !! so_path o = Some f /\ min_age <= age_of now f;
  ci_spared o : o ∈ ch_spared ch -> o ∈ l /\ so_id o ∉ R /\
    (rp_batch_limited (ch_report ch) = false -> exists f, files p !! so_path o = Some f /\ age_of now f < min_age);
  ci_all o f : o ∈ l -> so_id o ∉ R -> files p !! so_path o = Some f ->
    o ∈ ch_spared ch \/ exists n, (o, n) ∈ ch_doomed ch
}.

Lemma choose_inv l ch o : choice_inv l ch -> choice_inv (l ++ [o]) (choose p now R min_age ch o).
Proof.
  intros [Hd Hs Ha]. unfold choose.
  case_bool_decide as Hin.
  { split.
    - intros o' n Ho. destruct (Hd o' n Ho) as [? ?]. split; [apply elem_of_app; by left|done].
    - intros o' Ho. destruct (Hs o' Ho) as [? ?]. split; [apply elem_of_app; by left|done].
    - intros o' f [?| ->%list_elem_of_singleton]%elem_of_app Hn Hf; [by eapply Ha|done]. }
  destruct (files p !! so_path o) as [f|] eqn:Ef.
  2: { split.
    - intros o' n Ho. destruct (Hd o' n Ho) as [? ?]. split; [apply elem_of_app; by left|done].
    - intros o' Ho. destruct (Hs o' Ho) as [? ?]. split; [apply elem_of_app; by left|done].
    - intros o' f [?| ->%list_elem_of_singleton]%elem_of_app Hn Hf; [by eapply Ha|congruence]. }
  destruct ((age_of now f <? min_age) || _) eqn:Eb; cbn.
  - split; cbn.
    + intros o' n Ho. destruct (Hd o' n Ho) as [? ?]. split; [apply elem_of_app; by left|done].
    + intros o' [Ho| ->%list_elem_of_singleton]%elem_of_app.
      * destruct (Hs o' Ho) as (? & ? & Hy). split; [apply elem_of_app; by left|]. split; [done|].
        intros Hb. apply Hy. destruct (age_of now f <? min_age); [done|]. by destruct (ch_report ch).
      * split; [apply elem_of_app; right; by left|]. split; [done|]. intros Hb. exists f. split; [done|].
        destruct (Z.ltb_spec (age_of now f) min_age); [done|]. by destruct (ch_report ch).
    + intros o' f' [?| ->%list_elem_of_singleton]%elem_of_app Hn Hf.
      * destruct (Ha o' f') as [?|?]; [done..|left; apply elem_of_app; by left|by right].
      * left. apply elem_of_app. right. by left.
  - apply orb_false_iff in Eb as [Eb%Z.ltb_ge _]. split; cbn.
    + intros o' n [Ho|[= -> ->]%list_elem_of_singleton]%elem_of_app.
      * destruct (Hd o' n Ho) as [? ?]. split; [apply elem_of_app; by left|done].
      * split; [apply elem_of_app; right; by left|]. split; [done|]. by exists f.
    + intros o' Ho. destruct (Hs o' Ho) as [? ?]. split; [apply elem_of_app; by left|done].
    + intros o' f' [?| ->%list_elem_of_singleton]%elem_of_app Hn Hf.
      * destruct (Ha o' f') as [?|[n ?]]; [done..|by left|right; exists n; apply elem_of_app; by left].
      * right. eexists. apply elem_of_app. right. by left.
Qed.

Lemma choose_all l rep : choice_inv l (fold_left (choose p now R min_age) l (mkChoice rep [] [])).
Proof.
  assert (forall k l1 ch, choice_inv l1 ch -> choice_inv (l1 ++ k) (fold_left (choose p now R min_age) k ch)) as H.
  { induction k as [|o k IH]; intros l1 ch Hc; cbn; [by rewrite app_nil_r|].
    replace (l1 ++ o :: k) with ((l1 ++ [o]) ++ k) by (by rewrite <- app_assoc). by apply IH, choose_inv. }
  apply (H l []). split; cbn; first [by intros o n ?%elem_of_nil|by intros o ?%elem_of_nil].
Qed.
End choice.

(** What unlinking objects leaves. *)
Definition taken (o : ScannedObject) (s : GcState) : GcState :=
  mkGcState (forget_object (so_id o) (gs_catalog s)).2
    (mkPlane (delete (so_path o) (files (gs_plane s))) (strays (gs_plane s)))
    (gs_cached s ∖ {[ so_id o ]}).

Definition take_all (l : list ScannedObject) (s : GcState) : GcState := fold_left (fun s o => taken o s) l s.

Lemma take_all_snoc l o s : take_all (l ++ [o]) s = taken o (take_all l s).
Proof. unfold take_all. by rewrite fold_left_app. Qed.

(** The doomed objects the sweep takes. *)
Definition takes (R : gset ObjectId) (l : list (ScannedObject * Z)) : list ScannedObject :=
  filter (fun o => so_id o ∉ R) l.*1.

Lemma take_objects fault R l rep s :
  wp (m_fold (take_object fault R) (rep, []) l) s (fun r s' =>
    match r with
    | Ok (_, sample) => s' = take_all (takes R l) s /\ sample = (fun o => hex (so_id o)) <$> takes R l
    | Err _ => exists k, k `prefix_of` takes R l /\ gs_plane s' = gs_plane (take_all k s)
    | Panic => False
    end).
Proof.
  apply (wp_m_fold _ (fun l1 b s' => s' = take_all (takes R l1) s /\ b.2 = (fun o => hex (so_id o)) <$> takes R l1)).
  - done.
  - intros l1 [o size] l2 [rep' sample] s' -> [-> Hsam]. cbn [snd] in Hsam. subst sample. cbn [fst snd]. unfold take_object.
    assert (takes R (l1 ++ [(o, size)]) = takes R l1 ++ (if bool_decide (so_id o ∈ R) then [] else [o])) as Ht.
    { unfold takes. rewrite fmap_app, filter_app. change ([(o, size)].*1) with [o].
      case_bool_decide; [by rewrite filter_cons_False by tauto|]. by rewrite filter_cons_True. }
    case_bool_decide as Hin.
    + apply wp_ret. rewrite Ht, app_nil_r. done.
    + apply wp_bind. unfold wp at 1, on_catalog. destruct (forget_object (so_id o) _) as [rr c'] eqn:Ef.
      assert (rr = Ok (default 0 (match rr with Ok z => Some z | _ => None end))) as Err by (by unfold forget_object in Ef; injection Ef as <- _).
      rewrite Err. cbn [fst snd]. apply wp_bind. unfold unlink. destruct (fault (so_path o)) eqn:Ep.
      * unfold wp. cbn [fst snd]. exists (takes R l1). split; [|done].
        unfold takes. rewrite fmap_app, filter_app. by apply prefix_app_r.
      * unfold wp at 1. cbn [fst snd]. apply wp_ret. rewrite Ht, take_all_snoc, fmap_app. split; [|done].
        unfold taken. by rewrite Ef.
  - intros [rep' sample] s' [-> Hsam]. done.
Qed.

(** The census and the batch flag survive the unlinks. *)
Lemma take_objects_report fault R l rep s r s' rep' sample :
  m_fold (take_object fault R) (rep, []) l s = (r, s') -> r = Ok (rep', sample) ->
  rp_batch_limited rep' = rp_batch_limited rep /\ rp_reachable_objects rep' = rp_reachable_objects rep /\
  rp_roots rep' = rp_roots rep.
Proof.
  intros E ->. refine (wp_elim _ _ (fun r _ => match r with Ok (rep', _) => rp_batch_limited rep' = rp_batch_limited rep /\
    rp_reachable_objects rep' = rp_reachable_objects rep /\ rp_roots rep' = rp_roots rep | _ => True end) _ _ _ E).
  apply (wp_m_fold _ (fun _ b _ => rp_batch_limited b.1 = rp_batch_limited rep /\
    rp_reachable_objects b.1 = rp_reachable_objects rep /\ rp_roots b.1 = rp_roots rep)); [done| |by intros []].
  intros l1 [o size] l2 [rep1 sm] s1 _ Hi. unfold take_object. case_bool_decide; [by apply wp_ret|].
  apply wp_bind. unfold wp at 1, on_catalog. destruct (forget_object _ _) as [[] c']; cbn [fst snd]; [|done..].
  apply wp_bind. unfold unlink, wp at 1. destruct (fault (so_path o)); cbn [fst snd]; [done|]. by apply wp_ret.
Qed.

(** ... and the census survives the choice. *)
Lemma choose_census p now R min_age l ch :
  let ch' := fold_left (choose p now R min_age) l ch in
  rp_reachable_objects (ch_report ch') = rp_reachable_objects (ch_report ch) /\
  rp_roots (ch_report ch') = rp_roots (ch_report ch).
Proof.
  revert ch. induction l as [|o l IH]; intros ch; [done|]. cbn.
  destruct (IH (choose p now R min_age ch o)) as [-> ->]. unfold choose. repeat case_match; done.
Qed.

Lemma take_all_files l s path :
  files (gs_plane (take_all l s)) !! path =
  if decide (path ∈ so_path <$> l) then None else files (gs_plane s) !! path.
Proof.
  revert s. induction l as [|o l IH]; intros s; cbn.
  { rewrite decide_False; [done|]. by intros ?%elem_of_nil. }
  rewrite IH. cbn [taken gs_plane files]. destruct (decide (path ∈ so_path <$> l)) as [Hin|Hin].
  { by rewrite decide_True by (by right). }
  destruct (decide (path = so_path o)) as [->|Hne].
  - rewrite decide_True by (by left). by rewrite lookup_delete_eq.
  - rewrite decide_False by (intros [?|?]%elem_of_cons; done). by rewrite lookup_delete_ne.
Qed.

(** The rows that go with an object. *)
Lemma forget_object_rows id c :
  exists g, (forget_object id c).2 = with_intros (fun _ => g) c /\ g ⊆ intros_tab c /\
    forall oid row, g !! oid = Some row -> oid <> id /\ in_commit row <> id.
Proof.
  unfold forget_object. cbn. eexists. split; [done|]. split.
  - etrans; [apply map_filter_subseteq|apply delete_subseteq].
  - intros oid row [H Hc]%map_lookup_filter_Some. apply lookup_delete_Some in H as [? _]. by split.
Qed.

Lemma take_all_rows l s :
  exists g, gs_catalog (take_all l s) = with_intros (fun _ => g) (gs_catalog s) /\ g ⊆ intros_tab (gs_catalog s) /\
    forall o oid row, o ∈ l -> g !! oid = Some row -> oid <> so_id o /\ in_commit row <> so_id o.
Proof.
  revert s. induction l as [|o l IH]; intros s; cbn.
  { exists (intros_tab (gs_catalog s)). split; [by destruct (gs_catalog s)|]. split; [done|]. by intros ? ? ? ?%elem_of_nil. }
  destruct (IH (taken o s)) as (g & Hg & Hsub & Hrow).
  change (fold_left (fun s o => taken o s) l (taken o s)) with (take_all l (taken o s)).
  destruct (forget_object_rows (so_id o) (gs_catalog s)) as (g' & Hg' & Hsub' & Hrow').
  change (gs_catalog (taken o s)) with (forget_object (so_id o) (gs_catalog s)).2 in Hg, Hsub.
  rewrite Hg' in Hg, Hsub. cbn [intros_tab with_intros] in Hsub. exists g. split; [by rewrite Hg|]. split; [by etrans|].
  intros o' oid row [->|Ho]%elem_of_cons Hr; [|by eapply Hrow]. by eapply Hrow', lookup_weaken.
Qed.

Lemma take_all_cached l s o : o ∈ l -> so_id o ∉ gs_cached (take_all l s).
Proof.
  assert (forall l s, gs_cached (take_all l s) ⊆ gs_cached s) as Hm.
  { clear. induction l as [|o l IH]; intros s; cbn; [done|]. etrans; [apply IH|]. cbn. set_solver. }
  revert s. induction l as [|o' l IH]; intros s Ho; [by apply elem_of_nil in Ho|].
  cbn. apply elem_of_cons in Ho as [->|Ho]; [|by apply IH]. intros Hin%Hm. cbn in Hin. set_solver.
Qed.
End sweep_spec.
