(* ===== verification/GcSafety.v ===== *)
(** * What a collection may take

    A sweep next to other processes: whatever they did between its unlocked
    steps, it unlinks nothing the catalog reaches, nothing young, and leaves
    no survivor without the objects it names; and it takes everything else.
    The reference is reachability ([live]) from the rows of the catalog as the
    transaction saw it. *)

From S2P Require Import Prelude RustStd Types Tree Object Cap ObjectStore Overlay Namespace Graph Catalog Refs Sessions Authority Gc.

Section spec.
Context `{B3 : Blake3}.

(** The states around a collection that starts in [s]. *)
Definition at_warm (env : Env) (s : GcState) : GcState := after_scan env s.
Definition at_sweep (env : Env) (s : GcState) : GcState := after_warm env (at_warm env s).
Definition locked_plane (env : Env) (s : GcState) : Plane := before_lock env (gs_plane (at_sweep env s)).

(** Objects are immutable and do not collide while the collection runs. *)
Definition immutable (env : Env) (s : GcState) : Prop :=
  agree (gs_plane (at_warm env s)) (locked_plane env s) /\
  agree (gs_plane (at_sweep env s)) (locked_plane env s).

Definition gone (p p' : Plane) (path : str * str * str) (f : ObjFile) : Prop :=
  files p !! path = Some f /\ files p' !! path = None.

Record only_garbage (env : Env) (s : GcState) (min_age : Z) (r : Result GcReport) (s' : GcState) : Prop := mk_garbage {
  og_subset : files (gs_plane s') ⊆ files (locked_plane env s);
  og_gone path f : gone (locked_plane env s) (gs_plane s') path f ->
    min_age <= age_of (sweep_now env) f /\
    exists id, from_hex path.2 = Ok id /\ scanned_from (gs_plane s) (mkScanned id path 0 0) /\
      ~ live (locked_plane env s) (catalog_root (gs_catalog (at_sweep env s))) id;
  og_live id b : live (locked_plane env s) (catalog_root (gs_catalog (at_sweep env s))) id ->
    plane_get (locked_plane env s) id = Ok b -> plane_get (gs_plane s') id = Ok b;
  og_closed id f d e b : is_ok r = true ->
    files (gs_plane s) !! object_path id = Some f -> of_regular f = true ->
    decodes (gs_plane s') id d -> e ∈ dg_edges d ->
    plane_get (locked_plane env s) (ge_id e) = Ok b -> plane_get (gs_plane s') (ge_id e) = Ok b;
  og_rows : if is_ok r then
      exists g, gs_catalog s' = with_intros (fun _ => g) (gs_catalog (at_sweep env s)) /\
        g ⊆ intros_tab (gs_catalog (at_sweep env s)) /\
        forall path f id, gone (locked_plane env s) (gs_plane s') path f -> from_hex path.2 = Ok id ->
          id ∉ gs_cached s' /\ forall oid row, g !! oid = Some row -> oid <> id /\ in_commit row <> id
    else gs_catalog s' = gs_catalog (at_sweep env s)
}.

(** *** Lemmas *)

Lemma plane_get_file p id b : plane_get p id = Ok b ->
  exists f, files p !! object_path id = Some f /\ of_regular f = true /\ hash_bytes (of_bytes f) = id /\ of_bytes f = b.
Proof.
  unfold plane_get, require_regular_file. intros E. apply bind_ok in E as (f & Ef & E).
  destruct (files p !! object_path id) as [f'|]; [|done]. destruct (of_regular f') eqn:Er; [|done]. injection Ef as ->.
  apply bind_ok in E as ([] & Eh%reject_if_ok%negb_false_iff%bool_decide_eq_true & [= <-]). by exists f.
Qed.

Lemma plane_get_lookup p p' id : files p' !! object_path id = files p !! object_path id -> plane_get p' id = plane_get p id.
Proof. intros H. unfold plane_get, require_regular_file. by rewrite H. Qed.

(** A directory that only lost files answers as before, or lost the object. *)
Lemma plane_get_kept p p' id b :
  files p' ⊆ files p -> plane_get p id = Ok b ->
  (forall f, ~ gone p p' (object_path id) f) -> plane_get p' id = Ok b.
Proof.
  intros Hs Hg Hn. destruct (plane_get_file _ _ _ Hg) as (f & Hf & _). rewrite <- Hg. apply plane_get_lookup.
  destruct (files p' !! object_path id) as [f'|] eqn:E; [by rewrite (lookup_weaken _ _ _ _ E Hs)|]. by destruct (Hn f).
Qed.

Lemma covered_by_walks p1 p2 c1 c2 R1 R2 :
  walked p1 c1 ∅ R1 -> walked p2 c2 R1 R2 -> covered (fun q => q = p1 \/ q = p2) R2.
Proof.
  intros W1 W2 id Hid. destruct (wk_each _ _ _ _ W2 id Hid) as [H|[_ (d & Hd & He)]].
  - destruct (wk_each _ _ _ _ W1 id H) as [?%elem_of_empty|[_ (d & Hd & He)]]; [done|].
    exists p1, d. split; [by left|]. split; [done|]. intros e Hin. by apply (wk_keep _ _ _ _ W2), He.
  - exists p2, d. split; [by right|]. done.
Qed.

(** What the collector has decided when it starts to unlink. *)
Record decided (read_dir : list (str * str * str * ObjFile) -> list (str * str * str * ObjFile)) (env : Env)
    (s : GcState) (min_age : Z) (R1 R2 R3 : gset ObjectId) (ch : Choice) : Prop := mk_decided {
  dc_warm : walked (gs_plane (at_warm env s)) (catalog_root (gs_catalog (at_warm env s))) ∅ R1;
  dc_walk : walked (gs_plane (at_sweep env s)) (catalog_root (gs_catalog (at_sweep env s))) R1 R2;
  dc_choice : choice_inv (locked_plane env s) (sweep_now env) R2 min_age
    (filter (fun o => so_id o ∉ R1) (scan_objects read_dir (scan_now env) (gs_plane s)).1) ch;
  dc_protect : protected (locked_plane env s) (fun id => id ∈ (so_id <$> ch_spared ch) /\ id ∉ R2) R2 R3;
  dc_spared id : id ∈ (so_id <$> ch_spared ch) -> id ∈ R3
}.

Section decided_facts.
Context (read_dir : list (str * str * str * ObjFile) -> list (str * str * str * ObjFile)) (Hdir : forall l, read_dir l ≡ₚ l) env s min_age R1 R2 R3 ch (D : decided read_dir env s min_age R1 R2 R3 ch).
Context (Him : immutable env s).

Lemma live_covered id : live (locked_plane env s) (catalog_root (gs_catalog (at_sweep env s))) id -> id ∈ R2.
Proof.
  apply (covered_live (fun q => q = gs_plane (at_warm env s) \/ q = gs_plane (at_sweep env s))).
  - eapply covered_by_walks; [apply (dc_warm _ _ _ _ _ _ _ _ D)|apply (dc_walk _ _ _ _ _ _ _ _ D)].
  - by intros q [->| ->]; destruct Him.
  - apply (wk_roots _ _ _ _ (dc_walk _ _ _ _ _ _ _ _ D)).
Qed.

(** The protection set holds what its members name. *)
Lemma protection_closed id d e :
  id ∈ R3 -> decodes (locked_plane env s) id d -> e ∈ dg_edges d -> ge_id e ∈ R3.
Proof.
  intros Hid Hd He. destruct (pt_each _ _ _ _ (dc_protect _ _ _ _ _ _ _ _ D) id Hid) as [H|[_ H]].
  - apply (pt_keep _ _ _ _ (dc_protect _ _ _ _ _ _ _ _ D)).
    destruct (covered_by_walks _ _ _ _ _ _ (dc_warm _ _ _ _ _ _ _ _ D) (dc_walk _ _ _ _ _ _ _ _ D) id H) as (q & d' & Hq & Hd' & Hed).
    apply Hed. rewrite (decodes_agree q (locked_plane env s) id d' d); [done| |done|done].
    by destruct Hq as [->| ->], Him.
  - apply H. by rewrite (decodes_edges _ _ _ Hd).
Qed.

Lemma doomed_scanned o n : (o, n) ∈ ch_doomed ch ->
  scanned_from (gs_plane s) o /\ so_id o ∉ R2 /\
  exists f, files (locked_plane env s) !! so_path o = Some f /\ min_age <= age_of (sweep_now env) f.
Proof.
  intros Ho. destruct (ci_doomed _ _ _ _ _ _ (dc_choice _ _ _ _ _ _ _ _ D) o n Ho) as (Hin & Hn & Hf).
  apply list_elem_of_filter in Hin as [_ Hin]. split; [|done]. by eapply gc_scan_spec.
Qed.

Lemma taken_spec o : o ∈ takes R3 (ch_doomed ch) ->
  scanned_from (gs_plane s) o /\ so_id o ∉ R3 /\ so_id o ∉ R2 /\
  exists f, files (locked_plane env s) !! so_path o = Some f /\ min_age <= age_of (sweep_now env) f.
Proof.
  unfold takes. intros [Hn Hin]%list_elem_of_filter. apply list_elem_of_fmap in Hin as ([o' n] & -> & Hin).
  destruct (doomed_scanned o' n Hin) as (? & ? & ?). done.
Qed.

(** A scanned object that is not protected is taken. *)
Lemma unprotected_taken id f f' :
  files (gs_plane s) !! object_path id = Some f -> of_regular f = true ->
  files (locked_plane env s) !! object_path id = Some f' -> id ∉ R3 ->
  object_path id ∈ so_path <$> takes R3 (ch_doomed ch).
Proof.
  intros Hf Hr Hf' Hn. destruct (scan_complete read_dir (scan_now env) (gs_plane s) (object_path id) id f Hdir Hf Hr) as (o & Ho & Hp & Hid).
  { apply from_hex_hex_id. }
  subst id. assert (so_id o ∉ R2) as Hn2 by (intros ?%(pt_keep _ _ _ _ (dc_protect _ _ _ _ _ _ _ _ D)); done).
  assert (so_id o ∉ R1) as Hn1 by (intros ?%(wk_keep _ _ _ _ (dc_walk _ _ _ _ _ _ _ _ D)); done).
  rewrite <- Hp in Hf'.
  destruct (ci_all _ _ _ _ _ _ (dc_choice _ _ _ _ _ _ _ _ D) o f') as [Hsp|[n Hd]]; [by apply list_elem_of_filter|done|done| |].
  - destruct Hn. apply (dc_spared _ _ _ _ _ _ _ _ D), list_elem_of_fmap. by exists o.
  - apply list_elem_of_fmap. exists o. split; [done|]. unfold takes. apply list_elem_of_filter. split; [done|].
    apply list_elem_of_fmap. by exists (o, n).
Qed.
End decided_facts.

Section run.
Context (read_dir : list (str * str * str * ObjFile) -> list (str * str * str * ObjFile)) (Hdir : forall l, read_dir l ≡ₚ l) (limit : Z) (Hlim : 0 < limit <= u64_max) (env : Env) (s : GcState).

(** The body of the transaction: it fails before anything is unlinked, or it
    unlinks doomed objects outside the protection set. *)
Lemma sweep_body_run min_age_secs unnamed R1 r s' :
  walked (gs_plane (at_warm env s)) (catalog_root (gs_catalog (at_warm env s))) ∅ R1 ->
  let scanned := (scan_objects read_dir (scan_now env) (gs_plane s)).1 in
  sweep_body limit env min_age_secs scanned (filter (fun o => so_id o ∉ R1) scanned) unnamed R1 (at_sweep env s) = (r, s') ->
  (exists e, r = Err e /\ s' = at_sweep env s) \/
  exists R2 R3 ch roots sample m,
    decided read_dir env s (min_age_nanos min_age_secs) R1 R2 R3 ch /\
    ch = fold_left (choose (locked_plane env s) (sweep_now env) R2 (min_age_nanos min_age_secs))
           (filter (fun o => so_id o ∉ R1) scanned)
           (mkChoice (new_report false min_age_secs roots (Z.of_nat (size R2)) (len scanned) unnamed) [] []) /\
    reachable_closure limit (gs_plane (at_sweep env s)) (read_gc_roots (gs_catalog (at_sweep env s))) R1 = Ok (roots, R2) /\
    m_fold (take_object (unlink_fault env) R3) (ch_report ch, []) (ch_doomed ch)
      (set_plane (locked_plane env s) (at_sweep env s)) = (m, s') /\
    match m with
    | Ok (report, sm) => sample = sm /\ r = Ok (set_sample sm report)
    | Err e => r = Err e
    | Panic => False
    end.
Proof.
  intros W1 scanned E. unfold sweep_body, pure, read_state, interfere in E.
  unfold mbind, stateM_bind, mret, stateM_ret in E.
  pose proof (reachable_closure_spec limit (gs_plane (at_sweep env s)) (gs_catalog (at_sweep env s)) R1 Hlim) as W2.
  destruct (reachable_closure limit _ _ R1) as [[roots R2]|e|]; [|left; exists e; by injection E as <- <-|done].
  change (gs_plane (set_plane (before_lock env (gs_plane (at_sweep env s))) (at_sweep env s))) with (locked_plane env s) in E.
  set (ch := fold_left _ _ _) in E.
  destruct (protect_spec (locked_plane env s) (so_id <$> ch_spared ch) R2) as (R3 & Ep & P3 & Hsp).
  rewrite Ep in E. destruct (m_fold _ _ _ _) as [m s1] eqn:Em in E.
  right. exists R2, R3, ch, roots, (match m with Ok (_, sm) => sm | _ => [] end), m.
  assert (s1 = s') as <- by (by destruct m as [[]| |]; injection E).
  split; [split; [done|done|by apply choose_all|done|done]|]. split; [done|]. split; [done|]. split; [exact Em|].
  pose proof (wp_elim _ _ _ _ _ (take_objects (unlink_fault env) R3 (ch_doomed ch) (ch_report ch) _) Em) as Ht.
  destruct m as [[report sm]|e|]; [|by injection E|done]. split; [done|]. by injection E.
Qed.

(** Objects unlinked from the locked directory, whether or not all of them. *)
Lemma only_garbage_of R1 R2 R3 ch min_age l r s' (D : decided read_dir env s min_age R1 R2 R3 ch) (Him : immutable env s) :
  l `prefix_of` takes R3 (ch_doomed ch) ->
  gs_plane s' = gs_plane (take_all l (set_plane (locked_plane env s) (at_sweep env s))) ->
  (if is_ok r then s' = take_all l (set_plane (locked_plane env s) (at_sweep env s)) /\ l = takes R3 (ch_doomed ch)
   else gs_catalog s' = gs_catalog (at_sweep env s)) ->
  only_garbage env s min_age r s'.
Proof.
  intros Hl Hpl Hcat. set (p := locked_plane env s) in *. set (s2 := set_plane p (at_sweep env s)) in *.
  assert (forall path, files (gs_plane s') !! path = if decide (path ∈ so_path <$> l) then None else files p !! path) as Hf.
  { intros path. rewrite Hpl. by rewrite take_all_files. }
  assert (forall o, o ∈ l -> o ∈ takes R3 (ch_doomed ch)) as Hlt.
  { intros o Ho. destruct Hl as [k ->]. apply elem_of_app. by left. }
  assert (files (gs_plane s') ⊆ files p) as Hsub.
  { apply map_subseteq_spec. intros path f. rewrite Hf. by case_decide. }
  assert (forall path f, gone p (gs_plane s') path f -> exists o, o ∈ l /\ so_path o = path) as Hgone.
  { intros path f [Hp Hn]. rewrite Hf in Hn. case_decide as Hin; [|congruence].
    apply list_elem_of_fmap in Hin as (o & -> & Ho). by exists o. }
  assert (forall id, id ∈ R3 -> forall f, ~ gone p (gs_plane s') (object_path id) f) as Hkept.
  { intros id Hid f (o & Ho & Hp)%Hgone. destruct (taken_spec _ Hdir _ _ _ _ _ _ _ D o (Hlt o Ho)) as ((f0 & _ & _ & Hh) & Hn & _).
    rewrite Hp in Hh. unfold object_path in Hh. cbn [snd] in Hh. rewrite from_hex_hex_id in Hh. congruence. }
  split.
  - done.
  - intros path f Hg. destruct (Hgone path f Hg) as (o & Ho & <-). destruct Hg as [Hp _].
    destruct (taken_spec _ Hdir _ _ _ _ _ _ _ D o (Hlt o Ho)) as (Hsc & Hn & Hn2 & f' & Hf' & Hage).
    fold p in Hp, Hf'. assert (f = f') as <- by congruence. split; [done|]. exists (so_id o). destruct Hsc as (f0 & H1 & H2 & H3). split; [done|].
    split; [by exists f0|]. intros Hlive. by apply Hn2, (live_covered _ _ _ _ _ _ _ _ D Him).
  - intros id b Hlive Hg. apply (plane_get_kept p); [done|done|]. apply Hkept.
    apply (pt_keep _ _ _ _ (dc_protect _ _ _ _ _ _ _ _ D)), (live_covered _ _ _ _ _ _ _ _ D Him _ Hlive).
  - intros id f d e b Hr Hs Hreg (bd & Hgd & Hdd) He Hg. rewrite Hr in Hcat. destruct Hcat as [_ ->].
    apply (plane_get_kept p); [done|done|]. apply Hkept.
    assert (plane_get p id = Ok bd) as Hgp.
    { destruct (plane_get_file _ _ _ Hgd) as (f1 & Hf1 & _). rewrite <- Hgd. apply plane_get_lookup. symmetry.
      rewrite Hf1. symmetry. by eapply lookup_weaken. }
    apply (protection_closed _ _ _ _ _ _ _ _ D Him id d); [|by exists bd|done].
    destruct (decide (id ∈ R3)) as [?|Hn]; [done|]. exfalso.
    destruct (plane_get_file _ _ _ Hgp) as (f2 & Hf2 & _).
    pose proof (unprotected_taken _ Hdir _ _ _ _ _ _ _ D id f f2 Hs Hreg Hf2 Hn) as Ht.
    destruct (plane_get_file _ _ _ Hgd) as (f1 & Hf1 & _). rewrite Hf, decide_True in Hf1 by done. done.
  - destruct (is_ok r); [|done]. destruct Hcat as [-> _].
    destruct (take_all_rows l s2) as (g & Hg & Hgs & Hrow). exists g. split; [exact Hg|]. split; [exact Hgs|].
    intros path f id Hgo Hid. destruct (Hgone path f Hgo) as (o & Ho & <-).
    destruct (taken_spec _ Hdir _ _ _ _ _ _ _ D o (Hlt o Ho)) as ((f0 & _ & _ & Hh) & _).
    rewrite Hid in Hh. injection Hh as ->. split; [by apply take_all_cached|]. intros oid row. by apply Hrow.
Qed.
End run.
End spec.

Section collect_run.
Context `{B3 : Blake3} `{HM : Hmac}.
Context (read_dir : list (str * str * str * ObjFile) -> list (str * str * str * ObjFile)) (Hdir : forall l, read_dir l ≡ₚ l).
Context (key : bytes) (limit : Z) (Hlim : 0 < limit <= u64_max).

(** The census of a plan is the one it starts from. *)
Lemma plan_census reachable min_age l r r' sample' :
  fold_left (plan_object reachable min_age) l (r, []) = (r', sample') ->
  rp_roots r' = rp_roots r /\ rp_reachable_objects r' = rp_reachable_objects r.
Proof.
  assert (forall l b, rp_roots (fold_left (plan_object reachable min_age) l b).1 = rp_roots b.1 /\
    rp_reachable_objects (fold_left (plan_object reachable min_age) l b).1 = rp_reachable_objects b.1) as H.
  { clear. induction l as [|o l IH]; intros [r sm]; [done|]. cbn [fold_left].
    destruct (IH (plan_object reachable min_age (r, sm) o)) as [-> ->]. unfold plan_object. repeat case_match; done. }
  intros E. specialize (H l (r, [])). by rewrite E in H.
Qed.

(** A collection fails before the transaction, or runs its body. *)
Lemma gc_collect_run env now cap m s r s' :
  gc_collect read_dir key limit env now cap m s = (r, s') ->
  (exists e, r = Err e /\ (s' = s \/ s' = at_warm env s)) \/
  exists n R1 r1 s1,
    check key now cap Read None = Ok tt /\ check key now cap Write None = Ok tt /\
    has_unrestricted_ref_scope cap = true /\ GC_COLLECT_MIN_AGE_FLOOR <= m /\
    (exists counts, reachable_closure limit (gs_plane (at_warm env s)) (read_gc_roots (gs_catalog (at_warm env s))) ∅ = Ok (counts, R1)) /\
    sweep_body limit env m (scan_objects read_dir (scan_now env) (gs_plane s)).1
      (filter (fun o => so_id o ∉ R1) (scan_objects read_dir (scan_now env) (gs_plane s)).1) n R1 (at_sweep env s) = (r1, s1) /\
    (r = r1 /\ is_ok r1 = true /\ s' = s1 \/
     is_ok r = false /\ (no_panic r1 -> no_panic r) /\ s' = set_catalog (gs_catalog (at_sweep env s)) s1).
Proof.
  unfold gc_collect. unfold mbind, stateM_bind, pure, read_state, interfere, mret, stateM_ret. intros E.
  destruct (check key now cap Read None) as [[]|e|] eqn:E1; [|left; exists e; injection E as <- <-; by eauto|by destruct (no_panic_check key now cap Read None)].
  destruct (check key now cap Write None) as [[]|e|] eqn:E2; [|left; exists e; injection E as <- <-; by eauto|by destruct (no_panic_check key now cap Write None)].
  destruct (has_unrestricted_ref_scope cap) eqn:E3; cbn [negb reject_if] in E; [|left; eexists; injection E as <- <-; by eauto].
  unfold reject_if in E. destruct (Z.ltb_spec m GC_COLLECT_MIN_AGE_FLOOR) as [H4|H4];
    [left; eexists; injection E as <- <-; by eauto|].
  destruct (scan_objects read_dir (scan_now env) (gs_plane s)) as [scanned n].
  pose proof (reachable_closure_spec limit (gs_plane (at_warm env s)) (gs_catalog (at_warm env s)) ∅ Hlim) as W1.
  change (after_scan env s) with (at_warm env s) in E.
  destruct (reachable_closure limit (gs_plane (at_warm env s)) _ ∅) as [[counts R1]|e|] eqn:Er;
    [|left; exists e; injection E as <- <-; by eauto|done].
  right. unfold sweep_tx in E. change (after_warm env (at_warm env s)) with (at_sweep env s) in E.
  destruct (sweep_body limit env m scanned _ n R1 (at_sweep env s)) as [r1 s1] eqn:Eb.
  exists n, R1, r1, s1. split; [done|]. split; [done|]. split; [done|]. split; [done|]. split; [by exists counts|].
  split; [done|]. destruct r1 as [rep|e|].
  - destruct (commit_fault env) as [e|]; injection E as <- <-; [right|by left]. done.
  - injection E as <- <-. by right.
  - injection E as <- <-. by right.
Qed.
End collect_run.

(** ** Properties *)

Section properties.
Context `{B3 : Blake3} `{HM : Hmac}.
Context (read_dir : list (str * str * str * ObjFile) -> list (str * str * str * ObjFile)).
Context (key : bytes) (limit : Z).

(** C18: A collection takes only garbage.  Whatever other processes do around
    its locked steps, it either fails before it unlinks anything, or was
    allowed to run by an unrestricted read and write capability with a floor of
    at least a minute, and then: every file it removes is old, was there when
    it started, and is named by no chain of objects from a row of the catalog
    the transaction saw; objects the catalog reaches answer as before; when it
    succeeds, surviving objects keep the objects they name and no row of
    provenance nor cache names a removed one; when it fails, the catalog is
    the one it found. *)
Theorem gc_takes_only_garbage (env : Env) (now : Z) (cap : Cap) (min_age_secs : Z) (s s' : GcState) (r : Result GcReport)
    (Hdir : forall l, read_dir l ≡ₚ l) (Hlim : 0 < limit <= u64_max) (Him : immutable env s)
    (Hr : gc_collect read_dir key limit env now cap min_age_secs s = (r, s')) :
  (exists e, r = Err e /\ (s' = s \/ s' = at_warm env s \/ s' = at_sweep env s)) \/
  no_panic r /\ check key now cap Read None = Ok tt /\ check key now cap Write None = Ok tt /\
  has_unrestricted_ref_scope cap = true /\ 60 <= min_age_secs /\
  only_garbage env s (min_age_nanos min_age_secs) r s'.
Proof.
  destruct (gc_collect_run read_dir key limit Hlim _ _ _ _ _ _ _ Hr)
    as [(e & -> & Hs)|(n & R1 & r1 & s1 & H1 & H2 & H3 & H4 & (k & Hk) & Hb & Hout)]; [left; exists e; tauto|].
  pose proof (reachable_closure_spec limit (gs_plane (at_warm env s)) (gs_catalog (at_warm env s)) ∅ Hlim) as W1.
  rewrite Hk in W1.
  destruct (sweep_body_run read_dir limit Hlim env s min_age_secs n R1 r1 s1 W1 Hb)
    as [(e & -> & ->)|(R2 & R3 & ch & roots & sample & m & D & _ & _ & Hm & Hres)].
  { left. destruct Hout as [(_ & Hok & _)|(Hok & Hnp & ->)]; [done|].
    destruct r as [rep|e'|]; [done| |by destruct (Hnp ltac:(done))]. exists e'. split; [done|]. do 2 right.
    by destruct (at_sweep env s). }
  pose proof (wp_elim _ _ _ _ _ (take_objects (unlink_fault env) R3 (ch_doomed ch) (ch_report ch) _) Hm) as Ht.
  right. assert (no_panic r1) as Hnp1 by (by destruct m as [[]| |]; [destruct Hres as [_ ->]|rewrite Hres|]).
  split. { destruct Hout as [(-> & _ & _)|(_ & Hnp & _)]; [done|by apply Hnp]. }
  split; [done|]. split; [done|]. split; [done|]. split; [done|].
  destruct Hout as [(-> & Hok & ->)|(Hok & _ & ->)].
  - destruct m as [[report sm]|e|]; [|by rewrite Hres in Hok|done]. destruct Ht as [Hs1 _].
    eapply (only_garbage_of read_dir Hdir env s R1 R2 R3 ch _ (takes R3 (ch_doomed ch))); [done|done|done|by rewrite Hs1|].
    by rewrite Hok.
  - assert (exists l, l `prefix_of` takes R3 (ch_doomed ch) /\
      gs_plane s1 = gs_plane (take_all l (set_plane (locked_plane env s) (at_sweep env s)))) as (l & Hl & Hp).
    { destruct m as [[report sm]|e|]; [|done|done]. destruct Ht as [-> _]. by eexists. }
    eapply (only_garbage_of read_dir Hdir env s R1 R2 R3 ch _ l); [done|done|done|done|]. by rewrite Hok.
Qed.

(** C32: A collection that was not cut short by its batch limit takes all the
    garbage that is old enough: a file that was there, and is still old under
    the lock, survives only if rows of the catalog lead to it, before or under
    the transaction, or a file too young to take does. *)
Theorem gc_takes_all_garbage (env : Env) (now : Z) (cap : Cap) (min_age_secs : Z) (s s' : GcState) (rep : GcReport)
    (path : str * str * str) (f f' : ObjFile) (id : ObjectId)
    (Hdir : forall l, read_dir l ≡ₚ l) (Hlim : 0 < limit <= u64_max)
    (Hr : gc_collect read_dir key limit env now cap min_age_secs s = (Ok rep, s'))
    (Hb : rp_batch_limited rep = false)
    (Hf : files (gs_plane s) !! path = Some f) (Hreg : of_regular f = true) (Hid : from_hex path.2 = Ok id)
    (Hf' : files (locked_plane env s) !! path = Some f') (Hold : min_age_nanos min_age_secs <= age_of (sweep_now env) f') :
  files (gs_plane s') !! path = None \/
  live (gs_plane (at_warm env s)) (catalog_root (gs_catalog (at_warm env s))) id \/
  live (gs_plane (at_sweep env s)) (catalog_root (gs_catalog (at_sweep env s))) id \/
  live (locked_plane env s) (fun young => exists path0 f0, files (locked_plane env s) !! path0 = Some f0 /\
    age_of (sweep_now env) f0 < min_age_nanos min_age_secs /\ from_hex path0.2 = Ok young) id.
Proof.
  destruct (gc_collect_run read_dir key limit Hlim _ _ _ _ _ _ _ Hr)
    as [(e & He & _)|(n & R1 & r1 & s1 & _ & _ & _ & _ & (k & Hk) & Hbody & Hout)]; [done|].
  pose proof (reachable_closure_spec limit (gs_plane (at_warm env s)) (gs_catalog (at_warm env s)) ∅ Hlim) as W1.
  rewrite Hk in W1. destruct Hout as [(<- & _ & ->)|(Hok & _)]; [|done].
  destruct (sweep_body_run read_dir limit Hlim env s min_age_secs n R1 _ s1 W1 Hbody)
    as [(e & He & _)|(R2 & R3 & ch & roots & sample & m & D & _ & _ & Hm & Hres)]; [done|].
  destruct m as [[report sm]|e|]; [|done|done]. destruct Hres as [_ [= ->]].
  assert (rp_batch_limited (ch_report ch) = false) as Hb1.
  { by destruct (take_objects_report _ _ _ _ _ _ _ _ _ Hm eq_refl) as [<- _]. }
  pose proof (wp_elim _ _ _ _ _ (take_objects (unlink_fault env) R3 (ch_doomed ch) (ch_report ch) _) Hm) as [-> _].
  destruct (scan_complete read_dir (scan_now env) (gs_plane s) path id f Hdir Hf Hreg Hid) as (o & Ho & <- & <-).
  destruct (decide (so_id o ∈ R1)) as [H1|H1].
  { right; left. by destruct (wk_each _ _ _ _ W1 _ H1) as [?%elem_of_empty|[? _]]. }
  destruct (decide (so_id o ∈ R2)) as [H2|H2].
  { right; right; left. by destruct (wk_each _ _ _ _ (dc_walk _ _ _ _ _ _ _ _ D) _ H2) as [?|[? _]]. }
  destruct (decide (so_id o ∈ R3)) as [H3|H3].
  { right; right; right. destruct (pt_each _ _ _ _ (dc_protect _ _ _ _ _ _ _ _ D) _ H3) as [?|[Hl _]]; [done|].
    eapply live_mono; [|exact Hl]. intros i [(o' & -> & Hsp)%list_elem_of_fmap _].
    destruct (ci_spared _ _ _ _ _ _ (dc_choice _ _ _ _ _ _ _ _ D) o' Hsp) as (Hin & _ & Hy).
    destruct (Hy Hb1) as (f0 & Hf0 & Hy0). apply list_elem_of_filter in Hin as [_ Hin].
    destruct (gc_scan_spec read_dir _ _ _ Hdir Hin) as (_ & _ & _ & Hh). by exists (so_path o'), f0. }
  left. rewrite take_all_files, decide_True; [done|].
  destruct (ci_all _ _ _ _ _ _ (dc_choice _ _ _ _ _ _ _ _ D) o f') as [Hsp|[size Hd]]; [by apply list_elem_of_filter|done|done| |].
  - destruct H3. apply (dc_spared _ _ _ _ _ _ _ _ D), list_elem_of_fmap. by exists o.
  - apply list_elem_of_fmap. exists o. split; [done|]. apply list_elem_of_filter. split; [done|].
    apply list_elem_of_fmap. by exists (o, size).
Qed.

(** The plan and the sweep of one repository agree: when nothing happens
    in between, [gc] and [gc_collect] report the same roots and the same number
    of reachable objects. *)
Theorem plan_and_sweep_agree (env : Env) (now : Z) (cap : Cap) (min_age_secs : Z) (s s1 s' : GcState) (plan rep : GcReport)
    (Hlim : 0 < limit <= u64_max)
    (H1 : forall s, after_scan env s = s) (H2 : forall s, after_warm env s = s)
    (Hp : gc read_dir key limit env now cap true min_age_secs s = (Ok plan, s1))
    (Hr : gc_collect read_dir key limit env now cap min_age_secs s = (Ok rep, s')) :
  rp_roots rep = rp_roots plan /\ rp_reachable_objects rep = rp_reachable_objects plan.
Proof.
  destruct (gc_collect_run read_dir key limit Hlim _ _ _ _ _ _ _ Hr)
    as [(e & He & _)|(n & R1 & r1 & s2 & _ & _ & _ & _ & (k & Hk) & Hbody & Hout)]; [done|].
  pose proof (reachable_closure_spec limit (gs_plane (at_warm env s)) (gs_catalog (at_warm env s)) ∅ Hlim) as W1.
  rewrite Hk in W1. destruct Hout as [(<- & _ & ->)|(Hok & _)]; [|done].
  destruct (sweep_body_run read_dir limit Hlim env s min_age_secs n R1 _ s2 W1 Hbody)
    as [(e & He & _)|(R2 & R3 & ch & roots & sample & m & D & Hch & Hk2 & Hm & Hres)]; [done|].
  destruct m as [[report sm]|e|]; [|done|done]. destruct Hres as [_ [= ->]].
  destruct (take_objects_report _ _ _ _ _ _ _ _ _ Hm eq_refl) as (_ & Hreach & Hroots). cbn [set_sample rp_roots rp_reachable_objects].
  rewrite Hreach, Hroots, Hch. destruct (choose_census (locked_plane env s) (sweep_now env) R2 (min_age_nanos min_age_secs)
    (filter (fun o => so_id o ∉ R1) (scan_objects read_dir (scan_now env) (gs_plane s)).1)
    (mkChoice (new_report false min_age_secs roots (Z.of_nat (size R2)) (len (scan_objects read_dir (scan_now env) (gs_plane s)).1) n) [] []))
    as [-> ->]. cbn [ch_report new_report rp_reachable_objects rp_roots].
  pose proof (dc_walk _ _ _ _ _ _ _ _ D) as W2. unfold at_sweep, at_warm in *. rewrite H1, H2 in *.
  assert (R2 = R1) as ->.
  { apply set_eq. intros id. split; [|by apply (wk_keep _ _ _ _ W2)]. intros Hid.
    destruct (wk_each _ _ _ _ W2 id Hid) as [?|[Hl _]]; [done|]. revert Hl.
    apply (covered_live (fun q => q = gs_plane s)); [| |by apply (wk_roots _ _ _ _ W1)].
    - intros i Hi. destruct (wk_each _ _ _ _ W1 i Hi) as [?%elem_of_empty|[_ (d & ? & ?)]]; [done|]. by exists (gs_plane s), d.
    - intros q ->. intros i b b'. congruence. }
  unfold gc in Hp. unfold mbind, stateM_bind, pure, read_state, interfere, mret, stateM_ret in Hp.
  destruct (check _ _ _ _ _) as [[]| |]; [|done..]. destruct (reject_if _ _) as [[]| |]; [|done..].
  cbn [negb reject_if] in Hp. destruct (scan_objects _ _ _) as [scanned n'] eqn:Es. rewrite H1, Hk in Hp.
  destruct (fold_left _ _ _) as [report' sample'] eqn:Ef in Hp. injection Hp as <- _.
  cbn [set_sample rp_roots rp_reachable_objects].
  assert (roots = k) as ->.
  { unfold reachable_closure in Hk, Hk2. destruct (schedule_catalog_roots _ _) as [[k' q]| |]; [|done..].
    rewrite bind_of_ok in Hk, Hk2. apply bind_ok in Hk as (? & _ & [= <- _]). apply bind_ok in Hk2 as (? & _ & [= <- _]). done. }
  by destruct (plan_census _ _ _ _ _ _ Ef) as [-> ->].
Qed.
End properties.

(** ** Witnesses *)

(** A directory with the empty tree, a landmark, and an old blob nothing names. *)
Definition gc_tree : bytes := match Tree_encode empty_tree with Ok b => b | _ => [] end.
Definition gc_blob : bytes := match Blob_encode (mkBlob (bs "stale")) with Ok b => b | _ => [] end.
Definition gc_cap : Cap := match mint_root (HM:=sum_hmac) (bs "key") with Ok c => c | _ => mkCap [] [] [] ZERO (finish initial_state) end.
Definition gc_plane : Plane := mkPlane
  {[ object_path (hash_bytes gc_tree) := mkObjFile true gc_tree (Some 0);
     object_path (hash_bytes gc_blob) := mkObjFile true gc_blob (Some 0) ]} 0.
Definition gc_catalog : Catalog :=
  with_landmarks (fun _ => {[ hash_bytes gc_tree := mkLandmarkCols (bs "tree") (bs "keep") 0 ]}) empty_catalog.
Definition gc_start : GcState := mkGcState gc_catalog gc_plane ∅.
(** Nothing happens around the collector, a hundred seconds later. *)
Definition gc_env : Env := mkEnv (fun s => s) (fun s => s) (fun p => p) (100 * 10 ^ 9) (100 * 10 ^ 9) (fun _ => false) None.
Definition gc_run := gc_collect (HM:=sum_hmac) (fun l => l) (bs "key") 1000 gc_env 5 gc_cap 60 gc_start.
Definition gc_report : GcReport := match gc_run.1 with Ok r => r | _ => new_report true 0 (count_roots (read_gc_roots gc_catalog)) 0 0 0 end.

Lemma gc_run_ok : gc_collect (HM:=sum_hmac) (fun l => l) (bs "key") 1000 gc_env 5 gc_cap 60 gc_start = (Ok gc_report, gc_run.2).
Proof. change (gc_run = (Ok gc_report, gc_run.2)). assert (is_ok gc_run.1 = true) by (vm_compute; reflexivity). unfold gc_report. destruct gc_run as [[| |] ?]; done. Qed.

Lemma gc_immutable : immutable gc_env gc_start.
Proof. split; intros i b b' H1 H2; cbn in *; congruence. Qed.

Lemma gc_takes_only_garbage_witness :
  gone (locked_plane gc_env gc_start) (gs_plane gc_run.2) (object_path (hash_bytes gc_blob)) (mkObjFile true gc_blob (Some 0)) /\
  plane_get (gs_plane gc_run.2) (hash_bytes gc_tree) = Ok gc_tree /\
  only_garbage gc_env gc_start (60 * 10 ^ 9) (Ok gc_report) gc_run.2.
Proof.
  split; [split; vm_compute; reflexivity|]. split; [vm_compute; reflexivity|].
  destruct (gc_takes_only_garbage (HM:=sum_hmac) (fun l => l) (bs "key") 1000 gc_env 5 gc_cap 60 gc_start gc_run.2 (Ok gc_report)
    ltac:(done) ltac:(done) gc_immutable gc_run_ok) as [(e & [=] & _)|(_ & _ & _ & _ & _ & H)]. exact H.
Defined.

Definition gc_blob_file : ObjFile := mkObjFile true gc_blob (Some 0).

Lemma gc_takes_all_garbage_witness :
  rp_deleted_objects gc_report = 1 /\
  (files (gs_plane gc_run.2) !! object_path (hash_bytes gc_blob) = None \/
   live (gs_plane (at_warm gc_env gc_start)) (catalog_root (gs_catalog (at_warm gc_env gc_start))) (hash_bytes gc_blob) \/
   live (gs_plane (at_sweep gc_env gc_start)) (catalog_root (gs_catalog (at_sweep gc_env gc_start))) (hash_bytes gc_blob) \/
   live (locked_plane gc_env gc_start) (fun young => exists path0 f0, files (locked_plane gc_env gc_start) !! path0 = Some f0 /\
     age_of (sweep_now gc_env) f0 < min_age_nanos 60 /\ from_hex path0.2 = Ok young) (hash_bytes gc_blob)).
Proof.
  split; [vm_compute; reflexivity|].
  apply (gc_takes_all_garbage (HM:=sum_hmac) (fun l => l) (bs "key") 1000 gc_env 5 gc_cap 60 gc_start gc_run.2 gc_report
    (object_path (hash_bytes gc_blob)) gc_blob_file gc_blob_file (hash_bytes gc_blob)).
  - done.
  - done.
  - exact gc_run_ok.
  - vm_compute. reflexivity.
  - vm_compute. reflexivity.
  - done.
  - vm_compute. reflexivity.
  - vm_compute. reflexivity.
  - vm_compute. congruence.
Defined.

Definition gc_plan := gc (HM:=sum_hmac) (fun l => l) (bs "key") 1000 gc_env 5 gc_cap true 60 gc_start.
Definition gc_plan_report : GcReport := match gc_plan.1 with Ok r => r | _ => gc_report end.

Lemma gc_plan_ok : gc (HM:=sum_hmac) (fun l => l) (bs "key") 1000 gc_env 5 gc_cap true 60 gc_start = (Ok gc_plan_report, gc_plan.2).
Proof. change (gc_plan = (Ok gc_plan_report, gc_plan.2)). assert (is_ok gc_plan.1 = true) by (vm_compute; reflexivity). unfold gc_plan_report. destruct gc_plan as [[| |] ?]; done. Qed.

Lemma plan_and_sweep_agree_witness :
  rp_reachable_objects gc_plan_report = 1 /\ rp_collectable_objects gc_plan_report = 1 /\
  rp_reachable_objects gc_report = rp_reachable_objects gc_plan_report.
Proof.
  split; [vm_compute; reflexivity|]. split; [vm_compute; reflexivity|].
  refine (proj2 (plan_and_sweep_agree (HM:=sum_hmac) (fun l => l) (bs "key") 1000 gc_env 5 gc_cap 60 gc_start gc_plan.2 gc_run.2
    gc_plan_report gc_report _ _ _ gc_plan_ok gc_run_ok)); done.
Defined.

(** A sweep that fails half way: the unlink of a second stale blob fails, the
    catalog rolls back, and its provenance row for the first names an object
    that is gone. *)
Definition gc_blob2 : bytes := match Blob_encode (mkBlob (bs "stale too")) with Ok b => b | _ => [] end.
Definition half_plane : Plane := mkPlane
  {[ object_path (hash_bytes gc_blob) := mkObjFile true gc_blob (Some 0);
     object_path (hash_bytes gc_blob2) := mkObjFile true gc_blob2 (Some 0) ]} 0.
Definition half_rows : gmap ObjectId IntroCols :=
  {[ hash_bytes gc_blob := mkIntroCols ZERO (bs "ann") 0; hash_bytes gc_blob2 := mkIntroCols ZERO (bs "ann") 0 ]}.
Definition half_start : GcState := mkGcState (with_intros (fun _ => half_rows) empty_catalog) half_plane ∅.
(** The second unlink fails, whichever of the two it is. *)
Definition half_env (path : str * str * str) : Env :=
  mkEnv (fun s => s) (fun s => s) (fun p => p) (100 * 10 ^ 9) (100 * 10 ^ 9) (fun q => bool_decide (q = path)) None.
Definition half_second : str * str * str :=
  match map_to_list (files half_plane) with [_; (path, _)] => path | _ => ([], [], []) end.
Definition half_first : ObjectId :=
  match map_to_list (files half_plane) with (path, _) :: _ => match from_hex path.2 with Ok id => id | _ => ZERO end | _ => ZERO end.
Definition half_run := gc_collect (HM:=sum_hmac) (fun l => l) (bs "key") 1000 (half_env half_second) 5 gc_cap 60 half_start.

Lemma failed_sweep_leaves_dangling_rows :
  is_ok half_run.1 = false /\ files (gs_plane half_run.2) !! object_path half_first = None /\
  intros_tab (gs_catalog half_run.2) !! half_first = Some (mkIntroCols ZERO (bs "ann") 0).
Proof. split; [|split]; vm_compute; reflexivity. Qed.
