(* ===== verification/Plane.v ===== *)
(** * The object plane as the repository uses it (crates/forge-store/src/lib.rs)

    [Repo] is what [Forge] calls on its store: the typed reads and writes, and
    the publish batch a checkin writes its trees, receipt and commit through.
    [RepoLaws] states what these calls promise in terms of one ghost map, the
    object files by identifier: a read answers from the map and leaves it
    alone, a write only adds to it.  The trees and commits of a store that
    keeps the laws are a [TreeStore] and a [CommitStore]; the typed store of
    [Store], behind its caches, is an instance. *)

From S2P Require Import Prelude RustStd Types Cbor Tree Object Contribution ObjectStore TreeStore Store Graph History.

(** ** [StorePublishBatch] *)

Section batch.
Context {C : Type -> Type} `{LRU : Lru C} `{B3 : Blake3}.

(** The batch borrows the store; a new one has published nothing. *)
Abbreviation Batched := (Store C * MemoryBatch)%type.

Definition set_blobs (o : MemoryObjectStore) (s : Store C) : Store C :=
  mkStore o (trees s) (blob_cache s) (object_hits s) (object_misses s) (tree_hits s) (tree_misses s).

(** [self.objects.lock().put(&bytes)]. *)
Definition batch_put (b : bytes) : stateM Error Batched ObjectId := fun '(s, batch) =>
  let '(r, (o, batch)) := MemoryBatch_put_parts [b] (blobs s, batch) in (r, (set_blobs o s, batch)).

Definition batch_put_commit (c : Commit) : stateM Error Batched ObjectId :=
  b ← pure (Commit_encode c); batch_put b.
Definition batch_put_contribution (c : Contribution) : stateM Error Batched ObjectId :=
  b ← pure (Contribution.encode c); batch_put b.

Definition batch_get_tree (id : ObjectId) : stateM Error Batched Tree := fun '(s, batch) =>
  let '(r, s) := Store_get_tree id s in (r, (s, batch)).

Definition batch_cache_tree (id : ObjectId) (t : Tree) : stateM Error Batched unit := fun '(s, batch) =>
  (Ok tt, (set_trees (lru_put id t (trees s)).2 s, batch)).

Definition batch_put_tree (t : Tree) : stateM Error Batched ObjectId :=
  b ← pure (Tree_encode t);
  id ← batch_put b;
  _ ← batch_cache_tree id t;
  mret id.

(** [finish] consumes the batch. *)
Definition batch_finish : stateM Error Batched unit := fun '(s, batch) =>
  (Ok tt, (set_blobs (MemoryBatch_finish (blobs s) batch) s, begin_batch)).

(** ** What a batch does to the store *)

Context `{LL : !LruLaws C}.
Implicit Types (s : Store C) (batch : MemoryBatch).

(** What a batch owes is visible. *)
Definition wf_batch s batch : Prop := forall id, id ∈ owed batch -> is_Some (objects s !! id).

Lemma wf_sstore_blobs o s :
  wf_sstore s -> wf_store o -> objects s ⊆ visible (inner o) -> wf_sstore (set_blobs o s).
Proof.
  intros [Hb Hc Hy Ht] Ho Hsub. split; cbn [set_blobs blobs blob_cache trees]; [done|done| |].
  - by etrans.
  - intros id t Hin. eapply (stored_tree_mono s); [exact Hsub|]. by apply Ht.
Qed.

(** A tree may be cached under the identifier its bytes are stored at. *)
Lemma wf_sstore_cached id t s :
  wf_sstore s -> stored_tree s id t -> wf_sstore (set_trees (lru_put id t (trees s)).2 s).
Proof.
  intros [Hb Hc Hy Ht] Hs. split; cbn [blobs blob_cache trees set_trees]; try done.
  intros i u Hu. pose proof (lru_put_spec Tree id t (trees s)) as Hsub.
  pose proof (lookup_weaken _ _ _ _ Hu Hsub) as Hu'. destruct (decide (id = i)) as [<-|Hne].
  - rewrite lookup_insert_eq in Hu'. by injection Hu' as <-.
  - rewrite lookup_insert_ne in Hu' by done. by apply Ht in Hu'.
Qed.

Lemma batch_put_spec b s batch :
  wf_sstore s -> wf_batch s batch ->
  wp (batch_put b) (s, batch) (fun r '(s', batch') => wf_sstore s' /\ wf_batch s' batch' /\ objects s ⊆ objects s' /\
    read_only (blobs s') = read_only (blobs s) /\ trees s' = trees s /\
    match r with
    | Ok id => id = hash_bytes b /\ (~ collides s b -> objects s' !! id = Some b)
    | Err e => read_only (blobs s) = true
    | Panic => False
    end).
Proof.
  intros Hw Hb. unfold wp, batch_put.
  destruct (MemoryBatch_put_parts [b] (blobs s, batch)) as [r [o batch']] eqn:E. cbn [fst snd].
  pose proof (put_parts_spec _ _ _ _ _ _ (ws_blobs _ Hw) E) as (Ho & Hro & Hsub & _ & _ & Howed & Hr).
  split; [by apply wf_sstore_blobs|]. split; [|split; [done|]; split; [done|]; split; [done|]].
  - intros id Hid. unfold objects. cbn [set_blobs blobs].
    assert (forall i, is_Some (objects s !! i) -> is_Some (visible (inner o) !! i)) as Hmono.
    { intros i [v Hv]. exists v. by eapply lookup_weaken. }
    destruct (decide (id ∈ owed batch)) as [Hold|Hnew]; [by apply Hmono, Hb|].
    destruct r as [i|e|]; [|by destruct Hr as (_ & _ & ->)|done].
    destruct Hr as (-> & _ & Hv & _). assert (id = hash_parts [b]) as -> by set_solver. done.
  - destruct r as [id|e|]; [|by destruct Hr|done]. destruct Hr as (-> & _ & Hv & _ & Hnew & _).
    rewrite hash_parts_concat in *. cbn [concat] in *. rewrite app_nil_r in *. split; [done|].
    intros Hcol. unfold objects. cbn [set_blobs blobs].
    destruct (visible (inner (blobs s)) !! hash_bytes b) as [b'|] eqn:E'; [|auto].
    destruct (decide (b' = b)) as [->|Hne]; [by eapply lookup_weaken|]. destruct Hcol. by exists b'.
Qed.

Lemma batch_put_only b s batch :
  wp (batch_put b) (s, batch) (fun _ x => only_adds (objects s) (objects x.1) (Ok b)).
Proof.
  unfold wp, batch_put. pose proof (put_parts_only [b] (blobs s) batch) as H. unfold wp in H. cbn [concat] in H.
  rewrite app_nil_r in H. by destruct (MemoryBatch_put_parts [b] (blobs s, batch)) as [r [o batch']].
Qed.
End batch.

(** ** The interface *)

Class Repo (St B : Type) := {
  repo_trees :: TreeStore St;
  repo_commits :: CommitStore St;
  repo_batch_trees :: TreeStore (St * B);
  repo_begin_publish_batch : B;
  repo_batch_put_contribution : Contribution -> stateM Error (St * B) ObjectId;
  repo_batch_put_commit : Commit -> stateM Error (St * B) ObjectId;
  repo_batch_finish : stateM Error (St * B) unit;
  repo_get_raw_verified : ObjectId -> stateM Error St bytes;
  repo_object_type : ObjectId -> stateM Error St ObjectType;
  repo_get_snapshot : ObjectId -> stateM Error St Snapshot;
  repo_get_conflict : ObjectId -> stateM Error St Conflict;
  repo_get_blob_data : ObjectId -> stateM Error St bytes;
  repo_put_blob_data : bytes -> stateM Error St ObjectId;
  repo_put_commit : Commit -> stateM Error St ObjectId;
  repo_put_conflict : Conflict -> stateM Error St ObjectId;
  repo_put_snapshot : Snapshot -> stateM Error St ObjectId;
  repo_collect_intros : option ObjectId -> ObjectId -> stateM Error St (list ObjectId);
  (** The ceiling of the walk is read from the environment. *)
  repo_reachable_graph_verified : option str -> ObjectId -> ObjectType -> stateM Error St (list VerifiedGraphObject)
}.

(** [self.store.get_commit]. *)
Abbreviation repo_get_commit := read_commit.

(** ** Its laws *)

(** The object file of an identifier. *)
Definition object_at (view : gmap ObjectId bytes) (id : ObjectId) : Result bytes :=
  ok_or (view !! id) (NotFound (bs "object {id}")).

(** What a root reaches in the object files; [reaches] of [Graph], of a map. *)
Inductive view_reaches (view : gmap ObjectId bytes) (root : GraphEdge) : GraphEdge -> Prop :=
| view_root : view_reaches view root root
| view_edge e b d e' :
    view_reaches view root e -> view !! ge_id e = Some b -> decode_graph_object (ge_id e) b = Ok d -> e' ∈ dg_edges d ->
    view_reaches view root e'.

Definition view_ok (view : gmap ObjectId bytes) (root : GraphEdge) : Prop :=
  forall e, view_reaches view root e -> exists b d,
    view !! ge_id e = Some b /\ decode_graph_object (ge_id e) b = Ok d /\ accepts (ge_expected e) (dg_type d) = true.

Definition view_fits (view : gmap ObjectId bytes) (root : GraphEdge) (limit : Z) : Prop :=
  exists X : gset ObjectId, Z.of_nat (size X) <= limit /\ forall e, view_reaches view root e -> ge_id e ∈ X.

(** The object files below [root], in order, each with its type. *)
Definition view_graph (view : gmap ObjectId bytes) (root : GraphEdge) (l : list VerifiedGraphObject) : Prop :=
  StronglySorted (key_lt (fun o => arr_bytes (vg_id o))) l /\
  forall o, o ∈ l <-> exists e b d, view_reaches view root e /\ view !! ge_id e = Some b
    /\ decode_graph_object (ge_id e) b = Ok d /\ o = mkVerified (ge_id e) (dg_type d).

(** The answer of a verified walk. *)
Definition walk_answer (env : option str) (root : ObjectId) (expected : ObjectType) (view : gmap ObjectId bytes)
    (r : Result (list VerifiedGraphObject)) : Prop :=
  match r with
  | Ok l => view_ok view (root_edge root expected) /\ view_fits view (root_edge root expected) (max_graph_objects env)
      /\ view_graph view (root_edge root expected) l
  | Err _ => ~ (view_ok view (root_edge root expected) /\ view_fits view (root_edge root expected) (max_graph_objects env))
  | Panic => False
  end.

Section grow.
Context (v v' : gmap ObjectId bytes) (Hsub : v ⊆ v') (root : GraphEdge).

Lemma view_reaches_grow e : view_reaches v root e -> view_reaches v' root e.
Proof. induction 1; [constructor|]. eapply view_edge; [done|by eapply lookup_weaken|done..]. Qed.

(** A complete graph has all its edges already. *)
Lemma view_reaches_back e : view_ok v root -> view_reaches v' root e -> view_reaches v root e.
Proof.
  intros Hok. induction 1 as [|e b d e' Hr IH Hb Hd He]; [constructor|].
  destruct (Hok e IH) as (b0 & d0 & Hb0 & Hd0 & _). pose proof (lookup_weaken _ _ _ _ Hb0 Hsub) as Hb1.
  assert (b0 = b) as -> by congruence. exact (view_edge v root e b d e' IH Hb0 Hd He).
Qed.

Lemma view_ok_grow : view_ok v root -> view_ok v' root.
Proof.
  intros Hok e He%view_reaches_back; [|done]. destruct (Hok e He) as (b & d & Hb & Hd). exists b, d.
  split; [by eapply lookup_weaken|done].
Qed.

Lemma view_fits_grow limit : view_ok v root -> view_fits v root limit -> view_fits v' root limit.
Proof. intros Hok (X & HX & Hr). exists X. split; [done|]. intros e He. by apply Hr, view_reaches_back. Qed.

Lemma view_graph_grow l : view_ok v root -> view_graph v root l -> view_graph v' root l.
Proof.
  intros Hok [Hs Hl]. split; [done|]. intros o. rewrite Hl. split.
  - intros (e & b & d & He & Hb & Hd & ->). exists e, b, d. split_and!; try done; [by apply view_reaches_grow|by eapply lookup_weaken].
  - intros (e & b & d & He%view_reaches_back & Hb & Hd & ->); [|done]. destruct (Hok e He) as (b0 & d0 & Hb0 & Hd0 & _).
    pose proof (lookup_weaken _ _ _ _ Hb0 Hsub) as Hb1. assert (b0 = b) as -> by congruence. by exists e, b, d.
Qed.
End grow.

Lemma view_graph_fun view root l l' : view_graph view root l -> view_graph view root l' -> l = l'.
Proof.
  intros [Hs Hl] [Hs' Hl']. apply (strictly_sorted_perm (fun o => arr_bytes (vg_id o))); [done..|].
  assert (forall k, StronglySorted (key_lt (fun o => arr_bytes (vg_id o))) k -> NoDup k) as Hnd.
  { intros k Hk. eapply NoDup_fmap_1, strictly_sorted_nodup, Hk. }
  apply NoDup_Permutation; [by apply Hnd..|]. intros o. by rewrite Hl, Hl'.
Qed.

(** A walk that succeeded answers the same of any store that has grown since. *)
Lemma walk_answer_grow env root expected v v' l r :
  v ⊆ v' -> walk_answer env root expected v (Ok l) -> walk_answer env root expected v' r -> r = Ok l.
Proof.
  intros Hsub (Hok & Hfit & Hg) Hr.
  pose proof (view_ok_grow v v' Hsub _ Hok) as Hok'. pose proof (view_fits_grow v v' Hsub _ _ Hok Hfit) as Hfit'.
  pose proof (view_graph_grow v v' Hsub _ l Hok Hg) as Hg'. destruct r as [l'|e|]; [|destruct Hr; by split|done].
  destruct Hr as (_ & _ & Hl'). f_equal. by eapply view_graph_fun.
Qed.

Section shape.
Context {X : Type} (inv : X -> Prop) (view : X -> gmap ObjectId bytes) (writable : X -> Prop) (fault : Error -> Prop).

(** [m] answers [r] of the stored objects, and leaves them alone. *)
Definition answers {A} (m : stateM Error X A) (r : gmap ObjectId bytes -> Result A) : Prop :=
  forall x, inv x -> wp m x (fun r' x' =>
    inv x' /\ view x' = view x /\ (writable x -> writable x') /\ r' = r (view x)).

(** [m] leaves the stored objects alone. *)
Definition looks {A} (m : stateM Error X A) : Prop :=
  forall x, inv x -> wp m x (fun _ x' => inv x' /\ view x' = view x /\ (writable x -> writable x')).

(** [m] adds the object file [enc], no other, and returns where it is. *)
Definition adds (m : stateM Error X ObjectId) (enc : Result bytes) : Prop :=
  forall x, inv x -> wp m x (fun r x' => inv x' /\ view x ⊆ view x' /\ only_adds (view x) (view x') enc /\
    (writable x -> writable x') /\
    match r with
    | Ok id => exists b, enc = Ok b /\ view x' !! id = Some b
    | Err e => fault e \/ (writable x -> exists e', enc = Err e')
    | Panic => enc = Panic
    end).

Lemma answers_looks {A} (m : stateM Error X A) r : answers m r -> looks m.
Proof. intros H x Hx. eapply wp_mono; [by apply H|]. naive_solver. Qed.

Lemma answers_pure {A} (r : Result A) : answers (pure r) (fun _ => r).
Proof. intros x Hx. apply wp_pure. by split_and!. Qed.
Lemma answers_ret {A} (a : A) : answers (mret a) (fun _ => Ok a).
Proof. exact (answers_pure (Ok a)). Qed.

Lemma answers_bind {A A'} (m : stateM Error X A) (k : A -> stateM Error X A') r r' :
  answers m r -> (forall a, answers (k a) (r' a)) -> answers (m ≫= k) (fun v => a ← r v; r' a v).
Proof.
  intros Hm Hk x Hx. apply wp_bind. eapply wp_mono; [by apply Hm|]. intros o x1 (Hx1 & Hv1 & Hw1 & ->).
  destruct (r (view x)) as [a|e|]; [|by split_and!..]. rewrite bind_of_ok.
  eapply wp_mono; [by apply Hk|]. intros o x2 (Hx2 & Hv2 & Hw2 & ->). rewrite <- Hv1. split_and!; auto.
Qed.

(** The same of the states whose object files satisfy [K], which adding a tree keeps. *)
Definition keeps_trees (K : gmap ObjectId bytes -> Prop) : Prop :=
  forall v v' t, K v -> v ⊆ v' -> only_adds v v' (Tree_encode t) -> K v'.

Lemma answers_within (K : gmap ObjectId bytes -> Prop) {A} (m : stateM Error X A) r :
  answers m r -> forall x, inv x /\ K (view x) -> wp m x (fun r' x' =>
    (inv x' /\ K (view x')) /\ view x' = view x /\ (writable x -> writable x') /\ r' = r (view x)).
Proof.
  intros H x [Hx HK]. eapply wp_mono; [by apply H|]. intros r' x' (H1 & H2 & H3 & H4).
  split; [by rewrite H2|]. done.
Qed.

Lemma adds_within (K : gmap ObjectId bytes -> Prop) (m : stateM Error X ObjectId) t :
  keeps_trees K -> adds m (Tree_encode t) -> forall x, inv x /\ K (view x) -> wp m x (fun r x' =>
    (inv x' /\ K (view x')) /\ view x ⊆ view x' /\ only_adds (view x) (view x') (Tree_encode t) /\
    (writable x -> writable x') /\
    match r with
    | Ok id => exists b, Tree_encode t = Ok b /\ view x' !! id = Some b
    | Err e => fault e \/ (writable x -> exists e', Tree_encode t = Err e')
    | Panic => Tree_encode t = Panic
    end).
Proof.
  intros HK H x [Hx Hv]. eapply wp_mono; [by apply H|]. intros r x' (H1 & H2 & H3 & H4).
  split; [|done]. split; [done|by eapply HK].
Qed.

Lemma looks_bind {A A'} (m : stateM Error X A) (k : A -> stateM Error X A') :
  looks m -> (forall a, looks (k a)) -> looks (m ≫= k).
Proof.
  intros Hm Hk x Hx. apply wp_bind. eapply wp_mono; [by apply Hm|]. intros o x1 (Hx1 & Hv1 & Hw1).
  destruct o as [a|e|]; [|by split_and!..].
  eapply wp_mono; [by apply Hk|]. intros o x2 (Hx2 & Hv2 & Hw2). split; [done|]. split; [congruence|auto].
Qed.
End shape.

Class RepoLaws (St B : Type) `{!Repo St B} := {
  rp_inv : St -> Prop;
  rp_batch_inv : St * B -> Prop;
  rp_view : St -> gmap ObjectId bytes;
  rp_writable : St -> Prop;
  rp_fault : Error -> Prop;
  rp_begin s : rp_inv s -> rp_batch_inv (s, repo_begin_publish_batch);
  rp_batch x : rp_batch_inv x -> rp_inv x.1;
  (** The caller may use the store while it holds a batch. *)
  rp_batch_mono x s : rp_batch_inv x -> rp_inv s -> rp_view x.1 ⊆ rp_view s -> rp_batch_inv (s, x.2);
  rp_get_tree id : answers rp_inv rp_view rp_writable (get_tree (S:=St) id) (fun v => b ← object_at v id; Tree_decode b);
  rp_put_tree t : wf_tree t -> adds rp_inv rp_view rp_writable rp_fault (put_tree (S:=St) t) (Tree_encode t);
  rp_batch_get_tree id : answers rp_batch_inv (rp_view ∘ fst) (rp_writable ∘ fst) (get_tree (S:=St * B) id)
    (fun v => b ← object_at v id; Tree_decode b);
  rp_batch_put_tree t : wf_tree t ->
    adds rp_batch_inv (rp_view ∘ fst) (rp_writable ∘ fst) rp_fault (put_tree (S:=St * B) t) (Tree_encode t);
  rp_batch_put_contribution c : adds rp_batch_inv (rp_view ∘ fst) (rp_writable ∘ fst) rp_fault
    (repo_batch_put_contribution (St:=St) c) (Contribution.encode c);
  rp_batch_put_commit c : adds rp_batch_inv (rp_view ∘ fst) (rp_writable ∘ fst) rp_fault
    (repo_batch_put_commit (St:=St) c) (Commit_encode c);
  rp_batch_finish x : rp_batch_inv x -> wp (repo_batch_finish (St:=St)) x (fun r x' =>
    rp_batch_inv x' /\ rp_view x'.1 = rp_view x.1 /\ (rp_writable x.1 -> rp_writable x'.1) /\
    match r with Ok _ => True | Err e => rp_fault e | Panic => False end);
  rp_get_commit id : answers rp_inv rp_view rp_writable (repo_get_commit (St:=St) id)
    (fun v => b ← object_at v id; Commit_decode b);
  rp_get_raw_verified id : answers rp_inv rp_view rp_writable (repo_get_raw_verified (St:=St) id)
    (fun v => object_at v id);
  rp_object_type id : answers rp_inv rp_view rp_writable (repo_object_type (St:=St) id)
    (fun v => b ← object_at v id; decode_object_type b);
  rp_get_snapshot id : answers rp_inv rp_view rp_writable (repo_get_snapshot (St:=St) id)
    (fun v => b ← object_at v id; Snapshot_decode b);
  rp_get_conflict id : answers rp_inv rp_view rp_writable (repo_get_conflict (St:=St) id)
    (fun v => b ← object_at v id; Conflict_decode b);
  rp_get_blob_data id : answers rp_inv rp_view rp_writable (repo_get_blob_data (St:=St) id)
    (fun v => b ← object_at v id; o ← Blob_decode b; Ok (blob_data o));
  rp_put_blob_data data : adds rp_inv rp_view rp_writable rp_fault (repo_put_blob_data (St:=St) data)
    (Blob_encode (mkBlob data));
  rp_put_commit c : adds rp_inv rp_view rp_writable rp_fault (repo_put_commit (St:=St) c) (Commit_encode c);
  rp_put_conflict c : adds rp_inv rp_view rp_writable rp_fault (repo_put_conflict (St:=St) c)
    (_ ← Conflict_validate c; Conflict_encode c);
  rp_put_snapshot s : adds rp_inv rp_view rp_writable rp_fault (repo_put_snapshot (St:=St) s) (Snapshot_encode s);
  rp_collect_intros old new : looks rp_inv rp_view rp_writable (repo_collect_intros (St:=St) old new);
  rp_reachable_graph env root expected s : rp_inv s ->
    wp (repo_reachable_graph_verified (St:=St) env root expected) s (fun r s' =>
      rp_inv s' /\ rp_view s' = rp_view s /\ (rp_writable s -> rp_writable s') /\
      walk_answer env root expected (rp_view s) r)
}.

(** ** The trees of a store that keeps the laws *)

(** The tree the object files hold under an identifier. *)
Definition tree_at (view : gmap ObjectId bytes) (id : ObjectId) (t : Tree) : Prop :=
  exists b, view !! id = Some b /\ Tree_decode b = Ok t.

Section shape_trees.
Context {X : Type} `{!TreeStore X} (inv : X -> Prop) (view : X -> gmap ObjectId bytes) (writable : X -> Prop) (fault : Error -> Prop).
Context (Hget : forall id, answers inv view writable (get_tree id) (fun v => b ← object_at v id; Tree_decode b))
  (Hput : forall t, wf_tree t -> adds inv view writable fault (put_tree t) (Tree_encode t)).

Program Definition shape_tree_laws : TreeStoreLaws X := {|
  ts_inv := inv; ts_fault := fault; ts_writable := writable;
  ts_holds x id t := tree_at (view x) id t
|}.
Next Obligation. intros x id t _ (b & _ & Hd%Tree_decode_spec). apply Hd. Qed.
Next Obligation. intros x id t t' _ (b & Hb & Hd) (b' & Hb' & Hd'). congruence. Qed.
Next Obligation.
  intros x id Hi. eapply wp_mono; [by apply Hget|]. intros r x' (Hi' & Hv & Hw & ->).
  split; [done|]. split; [done|]. split; [by rewrite Hv|]. unfold object_at, tree_at.
  destruct (view x !! id) as [b|]; cbn [ok_or]; [|right; by intros t (b & [=] & _)].
  rewrite bind_of_ok. destruct (Tree_decode b) as [t|e|] eqn:Hd.
  - by exists b.
  - right. intros t (b' & Hb' & Hd'). congruence.
  - by apply no_panic_Tree_decode in Hd.
Qed.
Next Obligation.
  intros x t Hi Ht. eapply wp_mono; [by apply Hput|]. intros r x' (Hi' & Hv & _ & Hw & Hr).
  split; [done|]. split; [done|]. split.
  { intros i u (b & Hb & Hd). exists b. split; [by eapply lookup_weaken|done]. }
  pose proof (Tree_encode_cases t (wf_names _ Ht)) as Hcase. destruct r as [id|e|].
  - destruct Hr as (b & He & Hb). exists b. split; [done|]. by apply Tree_decode_spec.
  - destruct Hr as [?|Hr]; [by left|right]. intros Hwr. destruct (Hr Hwr) as [e' He].
    destruct (Z.leb_spec (len (entries t)) MAX_TREE_ENTRIES); [|done]. destruct Hcase as [b Hb]. congruence.
  - destruct (Z.leb_spec (len (entries t)) MAX_TREE_ENTRIES); destruct Hcase as [b Hb]; congruence.
Qed.
End shape_trees.

(** Two stores that hold the same trees hold the same files. *)
Section transport.
Context {X Y : Type} `{TX : TreeStoreLaws X} `{TY : TreeStoreLaws Y}.

Lemma file_in_transport (x : X) (y : Y) id p f :
  (forall i t, ts_holds x i t -> ts_holds y i t) -> file_in x id p f -> file_in y id p f.
Proof.
  intros H. induction 1 as [id t n e Ht Hn Hk|id t n e p f Ht Hn Hk Hf IH].
  - eapply file_here; [by apply H|done..].
  - eapply file_below; [by apply H|done..].
Qed.

Lemma closed_transport (x : X) (y : Y) id :
  (forall i t, ts_holds x i t -> ts_holds y i t) -> closed x id -> closed y id.
Proof.
  intros H [n Hn]. exists n. revert id Hn. induction n as [|n IH]; intros id; [done|].
  intros (t & Ht & _ & Hc). exists t. split; [by apply H|]. split; [done|]. intros e He Hk. by apply IH, Hc.
Qed.
End transport.

Section laws.
Context {St B : Type} `{RL : RepoLaws St B}.

#[export] Instance repo_tree_laws : TreeStoreLaws St :=
  shape_tree_laws rp_inv rp_view rp_writable rp_fault rp_get_tree rp_put_tree.
#[export] Instance repo_batch_tree_laws : TreeStoreLaws (St * B) :=
  shape_tree_laws rp_batch_inv (rp_view ∘ fst) (rp_writable ∘ fst) rp_fault rp_batch_get_tree rp_batch_put_tree.

(** The same, of the states whose object files satisfy [K]. *)
Definition laws_within (K : gmap ObjectId bytes -> Prop) (HK : keeps_trees K) : TreeStoreLaws St :=
  shape_tree_laws (fun x => rp_inv x /\ K (rp_view x)) rp_view rp_writable rp_fault
    (fun id => answers_within rp_inv rp_view rp_writable K _ _ (rp_get_tree id))
    (fun t Ht => adds_within rp_inv rp_view rp_writable rp_fault K _ t HK (rp_put_tree t Ht)).
Definition batch_laws_within (K : gmap ObjectId bytes -> Prop) (HK : keeps_trees K) : TreeStoreLaws (St * B) :=
  shape_tree_laws (fun x => rp_batch_inv x /\ K (rp_view x.1)) (rp_view ∘ fst) (rp_writable ∘ fst) rp_fault
    (fun id => answers_within rp_batch_inv (rp_view ∘ fst) (rp_writable ∘ fst) K _ _ (rp_batch_get_tree id))
    (fun t Ht => adds_within rp_batch_inv (rp_view ∘ fst) (rp_writable ∘ fst) rp_fault K _ t HK (rp_batch_put_tree t Ht)).

(** The commit the object files hold under an identifier. *)
Definition commit_at (view : gmap ObjectId bytes) (id : ObjectId) (c : Commit) : Prop :=
  exists b, view !! id = Some b /\ Commit_decode b = Ok c.

#[export] Program Instance repo_commit_laws : CommitStoreLaws St := {|
  cs_inv := rp_inv; cs_holds s id c := commit_at (rp_view s) id c
|}.
Next Obligation. intros s id c c' (b & Hb & Hd) (b' & Hb' & Hd'). congruence. Qed.
Next Obligation. intros s id c (b & _ & Hd). apply Commit_decode_spec in Hd as [Hw _]. apply Hw. Qed.
Next Obligation.
  intros s id Hi. eapply wp_mono; [by apply rp_get_commit|]. intros r s' (Hi' & Hv & _ & ->).
  split; [done|]. split; [by rewrite Hv|]. unfold object_at, commit_at.
  destruct (rp_view s !! id) as [b|]; cbn [ok_or]; [|by intros c (b & [=] & _)].
  rewrite bind_of_ok. destruct (Commit_decode b) as [c|e|] eqn:Hd.
  - by exists b.
  - intros c (b' & Hb' & Hd'). congruence.
  - by apply no_panic_Commit_decode in Hd.
Qed.

Lemma commit_at_read (view : gmap ObjectId bytes) id c :
  (b ← object_at view id; Commit_decode b) = Ok c <-> commit_at view id c.
Proof.
  unfold commit_at, object_at. rewrite bind_ok. split.
  - intros (b & Hb%ok_or_ok & Hd). by exists b.
  - intros (b & Hb & Hd). exists b. by rewrite Hb.
Qed.
End laws.

(** ** The typed store is one *)

Section instance.
Context {C : Type -> Type} `{LL : LruLaws C} `{B3 : Blake3}.
Implicit Types (s : Store C) (g : Guarded C) (enc : Result bytes).

(** A write of the bytes [enc] that would collide fails with [collision]. *)
Definition guarded_put enc (m : stateM Error (Store C) ObjectId) : stateM Error (Guarded C) ObjectId := fun g =>
  match enc with
  | Ok b => if collides_b (unguard g) b then (Err collision, g) else on_guarded m g
  | _ => on_guarded m g
  end.

Definition on_guarded_batch {A} (m : stateM Error (Store C * MemoryBatch) A)
    : stateM Error (Guarded C * MemoryBatch) A := fun '(g, batch) =>
  let '(r, (s, batch)) := m (unguard g, batch) in (r, (guard s, batch)).

Definition guarded_batch_put enc (m : stateM Error (Store C * MemoryBatch) ObjectId)
    : stateM Error (Guarded C * MemoryBatch) ObjectId := fun '(g, batch) =>
  match enc with
  | Ok b => if collides_b (unguard g) b then (Err collision, (g, batch)) else on_guarded_batch m (g, batch)
  | _ => on_guarded_batch m (g, batch)
  end.

(** [intro_walk] stops at a directory it has already descended through only
    when the stored bytes cycle, which overflows the stack of the code. *)
Definition intro_fuel s : nat := let n := S (size (objects s)) in S (n * n).

Definition guarded_intros (old : option ObjectId) (new : ObjectId) : stateM Error (Guarded C) (list ObjectId) := fun g =>
  on_guarded (collect_intros (intro_fuel (unguard g)) old new) g.

#[export] Instance guarded_repo : Repo (Guarded C) MemoryBatch := {|
  repo_trees := guarded_tree_store;
  repo_commits := {| read_commit id := on_guarded (get_commit id) |};
  repo_batch_trees := {|
    get_tree id := on_guarded_batch (batch_get_tree id);
    put_tree t := guarded_batch_put (Tree_encode t) (batch_put_tree t) |};
  repo_begin_publish_batch := begin_batch;
  repo_batch_put_contribution c := guarded_batch_put (Contribution.encode c) (batch_put_contribution c);
  repo_batch_put_commit c := guarded_batch_put (Commit_encode c) (batch_put_commit c);
  repo_batch_finish := on_guarded_batch batch_finish;
  repo_get_raw_verified id := on_guarded (get_raw_verified id);
  repo_object_type id := on_guarded (object_type id);
  repo_get_snapshot id := on_guarded (get_snapshot id);
  repo_get_conflict id := on_guarded (get_conflict id);
  repo_get_blob_data id := on_guarded (get_blob_data id);
  repo_put_blob_data data := guarded_put (Blob_encode (mkBlob data)) (put_blob_data data);
  repo_put_commit c := guarded_put (Commit_encode c) (put_commit c);
  repo_put_conflict c := guarded_put (_ ← Conflict_validate c; Conflict_encode c) (put_conflict c);
  repo_put_snapshot snap := guarded_put (Snapshot_encode snap) (put_snapshot snap);
  repo_collect_intros := guarded_intros;
  repo_reachable_graph_verified env root expected := on_guarded (reachable_graph_verified env root expected)
|}.
Abbreviation g_inv := (fun g => wf_sstore (unguard g)).
Abbreviation g_view := (fun g => objects (unguard g)).
Abbreviation g_writable := (fun g => read_only (blobs (unguard g)) = false).

Lemma memory_object s id : wf_sstore s -> Memory_get (blobs s) id = object_at (objects s) id.
Proof.
  intros Hw. pose proof (get_cases (blobs s) id (ws_blobs _ Hw)) as H. unfold object_at, objects.
  destruct (Memory_get (blobs s) id) as [b|e|]; [by rewrite H|by destruct H as [-> ->]|done].
Qed.

(** A typed read decodes the object file. *)
Lemma read_answers {A} (dec : bytes -> Result A) (m : stateM Error (Store C) A) id :
  (forall s, m s = (b ← get_raw id; pure (dec b)) s) ->
  answers g_inv g_view g_writable (on_guarded m) (fun v => b ← object_at v id; dec b).
Proof.
  intros Hm [s] Hw. cbn [unguard] in *. apply on_guarded_wp. unfold wp. rewrite Hm.
  change (wp (b ← get_raw id; pure (dec b)) s (fun r s' =>
    g_inv (guard s') /\ g_view (guard s') = objects s /\ (read_only (blobs s) = false -> g_writable (guard s')) /\
    r = (b ← object_at (objects s) id; dec b))). apply wp_bind.
  eapply wp_mono; [by apply get_raw_spec|]. intros r s' (Hw' & Hb & ->). rewrite memory_object by done.
  unfold objects in *. destruct (object_at _ id) as [b|e|].
  - apply wp_pure. cbn [unguard]. rewrite bind_of_ok, Hb. by split_and!; auto.
  - cbn [unguard]. rewrite Hb. by split_and!; auto.
  - cbn [unguard]. rewrite Hb. by split_and!; auto.
Qed.

(** What a write of [enc] that meets no collision does. *)
Definition stored_as s enc (r : Result ObjectId) s' : Prop :=
  wf_sstore s' /\ objects s ⊆ objects s' /\ only_adds (objects s) (objects s') enc /\
  read_only (blobs s') = read_only (blobs s) /\
  match r with
  | Ok id => exists b, enc = Ok b /\ objects s' !! id = Some b
  | Err e => read_only (blobs s) = true \/ exists e', enc = Err e'
  | Panic => enc = Panic
  end.

Lemma guarded_put_adds enc (m : stateM Error (Store C) ObjectId) :
  (forall s, wf_sstore s -> (forall b, enc = Ok b -> ~ collides s b) -> wp m s (stored_as s enc)) ->
  adds g_inv g_view g_writable (fun e => e = collision) (guarded_put enc m) enc.
Proof.
  intros Hm [s] Hw. cbn [unguard] in *.
  assert ((forall b, enc = Ok b -> ~ collides s b) -> wp (on_guarded m) (guard s) (fun r g' =>
    g_inv g' /\ objects s ⊆ g_view g' /\ only_adds (objects s) (g_view g') enc /\ (read_only (blobs s) = false -> g_writable g') /\
    match r with
    | Ok id => exists b, enc = Ok b /\ g_view g' !! id = Some b
    | Err e => e = collision \/ (read_only (blobs s) = false -> exists e', enc = Err e')
    | Panic => enc = Panic
    end)) as Hrun.
  { intros Hcol. apply on_guarded_wp. eapply wp_mono; [by apply Hm|]. intros r s' (H1 & H2 & H0 & H3 & H4). cbn [unguard].
    split; [done|]. split; [done|]. split; [done|]. split; [congruence|]. destruct r; [done| |done]. right. intros Hro.
    destruct H4 as [H4|H4]; [congruence|done]. }
  unfold wp, guarded_put in *. cbn [unguard]. destruct enc as [b|e|]; [|by apply Hrun..].
  destruct (collides_b s b) eqn:Ec.
  - split_and!; try done; [apply only_adds_refl|by left].
  - apply Hrun. intros b' [= <-]. by apply collides_b_false.
Qed.

(** The shapes of the writes. *)
Lemma put_raw_stored enc s :
  wf_sstore s -> (forall b, enc = Ok b -> ~ collides s b) -> wp (b ← pure enc; put_raw b) s (stored_as s enc).
Proof.
  intros Hw Hc. apply wp_bind, wp_pure. destruct enc as [b|e|].
  - eapply wp_mono; [apply wp_and; [by apply put_raw_spec|apply put_raw_only]|]. intros r s' [(H1 & H2 & H3 & _ & H4) H5].
    split; [done|]. split; [done|]. split; [done|]. split; [done|]. destruct r; [|by left|done].
    exists b. split; [done|]. by apply H4, Hc.
  - split_and!; [done..|apply only_adds_refl|done|]. right. by eexists.
  - split_and!; [done..|apply only_adds_refl|done|done].
Qed.

Lemma put_blob_stored data s :
  wf_sstore s -> (forall b, Blob_encode (mkBlob data) = Ok b -> ~ collides s b) ->
  wp (put_blob_data data) s (stored_as s (Blob_encode (mkBlob data))).
Proof.
  intros Hw Hc. unfold put_blob_data, Blob_encode in *. cbn [blob_data] in *. apply wp_bind, wp_pure.
  destruct (blob_frame_prefix (len data)) as [b|e|].
  - eapply wp_mono; [apply wp_and; [by apply put_raw_parts_spec|apply put_raw_parts_only]|]. cbn [concat]. rewrite app_nil_r.
    intros r s' [(H1 & H2 & H3 & _ & H4) H5]. split; [done|]. split; [done|]. split; [done|]. split; [done|].
    destruct r; [|by left|done].
    exists (b ++ data). split; [done|]. by apply H4, Hc.
  - split_and!; [done..|apply only_adds_refl|done|]. right. by eexists.
  - split_and!; [done..|apply only_adds_refl|done|done].
Qed.

Lemma put_conflict_stored c s :
  wf_sstore s -> (forall b, (_ ← Conflict_validate c; Conflict_encode c) = Ok b -> ~ collides s b) ->
  wp (put_conflict c) s (stored_as s (_ ← Conflict_validate c; Conflict_encode c)).
Proof.
  intros Hw Hc. unfold put_conflict. apply wp_bind, wp_pure. destruct (Conflict_validate c) as [u|e|].
  - by apply put_raw_stored.
  - split_and!; [done..|apply only_adds_refl|done|]. right. by eexists.
  - split_and!; [done..|apply only_adds_refl|done|done].
Qed.

Lemma put_tree_stored t s :
  wf_tree t -> wf_sstore s -> (forall b, Tree_encode t = Ok b -> ~ collides s b) ->
  wp (Store_put_tree t) s (stored_as s (Tree_encode t)).
Proof.
  intros Ht Hw Hc. eapply wp_mono; [apply wp_and; [by apply Store_put_tree_spec|apply put_tree_only]|].
  intros r s' [(H1 & H2 & H3 & H4) H5]. split; [done|]. split; [done|]. split; [done|]. split; [done|]. pose proof (Tree_encode_cases t (wf_names _ Ht)) as Hcase.
  destruct r as [id|e|]; [| |done].
  - destruct H4 as (b & Hb & [_ He]%Tree_decode_spec). by exists b.
  - destruct H4 as [?|H4]; [by left|right]. destruct (Z.leb_spec (len (entries t)) MAX_TREE_ENTRIES); [lia|].
    destruct Hcase as [e' He]. by eexists.
Qed.

(** The same through a batch. *)
Abbreviation gb_inv := (fun x : Guarded C * MemoryBatch => wf_sstore (unguard x.1) /\ wf_batch (unguard x.1) x.2).

Definition batch_stored_as s enc (r : Result ObjectId) (x : Store C * MemoryBatch) : Prop :=
  stored_as s enc r x.1 /\ wf_batch x.1 x.2.

Lemma on_guarded_batch_wp {A} (m : stateM Error (Store C * MemoryBatch) A) s batch (Q : Result A -> Guarded C * MemoryBatch -> Prop) :
  wp m (s, batch) (fun r x => Q r (guard x.1, x.2)) -> wp (on_guarded_batch m) (guard s, batch) Q.
Proof. unfold wp, on_guarded_batch. cbn [unguard]. by destruct (m (s, batch)) as [r [s' b']]. Qed.

Lemma guarded_batch_put_adds enc (m : stateM Error (Store C * MemoryBatch) ObjectId) :
  (forall s batch, wf_sstore s -> wf_batch s batch -> (forall b, enc = Ok b -> ~ collides s b) ->
     wp m (s, batch) (batch_stored_as s enc)) ->
  adds gb_inv (g_view ∘ fst) (g_writable ∘ fst) (fun e => e = collision) (guarded_batch_put enc m) enc.
Proof.
  intros Hm [[s] batch] [Hw Hb]. cbn [unguard fst snd] in *.
  assert ((forall b, enc = Ok b -> ~ collides s b) -> wp (on_guarded_batch m) (guard s, batch) (fun r x' =>
    gb_inv x' /\ objects s ⊆ g_view x'.1 /\ only_adds (objects s) (g_view x'.1) enc /\ (read_only (blobs s) = false -> g_writable x'.1) /\
    match r with
    | Ok id => exists b, enc = Ok b /\ g_view x'.1 !! id = Some b
    | Err e => e = collision \/ (read_only (blobs s) = false -> exists e', enc = Err e')
    | Panic => enc = Panic
    end)) as Hrun.
  { intros Hcol. apply on_guarded_batch_wp. eapply wp_mono; [by apply Hm|].
    intros r [s' b'] ((H1 & H2 & H0 & H3 & H4) & H5). cbn [unguard fst snd] in *.
    split; [done|]. split; [done|]. split; [done|]. split; [congruence|]. destruct r; [done| |done]. right. intros Hro.
    destruct H4 as [H4|H4]; [congruence|done]. }
  unfold wp, guarded_batch_put in *. cbn [unguard] in *. destruct enc as [b|e|]; [|by apply Hrun..].
  destruct (collides_b s b) eqn:Ec.
  - split_and!; try done; [apply only_adds_refl|by left].
  - apply Hrun. intros b' [= <-]. by apply collides_b_false.
Qed.

Lemma batch_put_stored enc s batch :
  wf_sstore s -> wf_batch s batch -> (forall b, enc = Ok b -> ~ collides s b) ->
  wp (b ← pure enc; batch_put b) (s, batch) (batch_stored_as s enc).
Proof.
  intros Hw Hb Hc. apply wp_bind, wp_pure. destruct enc as [b|e|].
  - eapply wp_mono; [apply wp_and; [by apply batch_put_spec|apply batch_put_only]|].
    intros r [s' batch'] [(H1 & H5 & H2 & H3 & _ & H4) H0]. split; [|done].
    split; [done|]. split; [done|]. split; [done|]. split; [done|]. destruct r; [|by left|done].
    exists b. split; [done|]. by apply H4, Hc.
  - split; [|done]. split_and!; [done..|apply only_adds_refl|done|]. right. by eexists.
  - split; [|done]. split_and!; [done..|apply only_adds_refl|done|done].
Qed.

Lemma batch_put_tree_stored t s batch :
  wf_tree t -> wf_sstore s -> wf_batch s batch -> (forall b, Tree_encode t = Ok b -> ~ collides s b) ->
  wp (batch_put_tree t) (s, batch) (batch_stored_as s (Tree_encode t)).
Proof.
  intros Ht Hw Hb Hc. unfold batch_put_tree. apply wp_bind, wp_pure.
  pose proof (Tree_encode_cases t (wf_names _ Ht)) as Hcase.
  destruct (Tree_encode t) as [b|e|] eqn:He.
  - apply wp_bind. eapply wp_mono; [apply wp_and; [by apply batch_put_spec|apply batch_put_only]|].
    intros r [s' batch'] [(H1 & H5 & H2 & H3 & _ & H4) H0]. cbn [fst] in H0.
    destruct r as [id|e|]; [|split; [|done]; by split_and!; [..|left]|done]. destruct H4 as [-> H4].
    specialize (H4 (Hc b eq_refl)). apply wp_bind. unfold wp, batch_cache_tree. cbn [fst snd].
    assert (stored_tree s' (hash_bytes b) t) as Hst by (exists b; split; [done|by apply Tree_decode_spec]).
    split; [|exact H5]. split; [by apply wf_sstore_cached|]. split; [done|]. split; [done|]. split; [done|]. by exists b.
  - split; [|done]. split_and!; [done..|apply only_adds_refl|done|]. right. by eexists.
  - split; [|done]. split_and!; [done..|apply only_adds_refl|done|done].
Qed.

Lemma guarded_looks {A} (m : stateM Error (Store C) A) :
  (forall s, wf_sstore s -> wp m s (fun _ s' => wf_sstore s' /\ blobs s' = blobs s)) ->
  looks g_inv g_view g_writable (on_guarded m).
Proof.
  intros Hm [s] Hw. apply on_guarded_wp. eapply wp_mono; [by apply Hm|].
  intros r s' [Hw' Hb]. cbn [unguard]. unfold objects. rewrite Hb. done.
Qed.

(** [intro_walk] only reads. *)
Lemma intro_walk_looks fuel : forall old new expected oids s, wf_sstore s ->
  wp (intro_walk fuel old new expected oids) s (fun _ s' => wf_sstore s' /\ blobs s' = blobs s).
Proof.
  induction fuel as [|fuel IH]; intros old new expected oids s Hw; [done|]. cbn [intro_walk].
  case_bool_decide; [done|]. case_bool_decide.
  { apply wp_bind. unfold wp, store_verify_blob. cbn [fst snd]. by destruct (verify_blob (blobs s) new). }
  apply wp_bind. eapply wp_mono; [by apply get_raw_spec|]. intros r s1 (Hw1 & Hb1 & _). destruct r as [b|e|]; [|done..].
  apply wp_bind, wp_pure. destruct (decode_object_type b) as [ty|e|]; [|done..]. destruct (negb _); [done|].
  destruct ty; [apply wp_bind, wp_pure; by destruct (Blob_decode b)| |done..].
  apply wp_bind, wp_pure. destruct (Tree_decode b) as [t|e|]; [|done..]. apply wp_bind.
  apply wp_mono with (P := fun _ s2 => wf_sstore s2 /\ blobs s2 = blobs s1).
  - unfold old_tree_of. destruct old as [id|]; [|done]. apply wp_bind. eapply wp_mono; [by apply get_raw_spec|].
    intros r s2 (Hw2 & Hb2 & _). destruct r as [b'|e|]; [|done..].
    apply wp_bind, wp_pure. destruct (decode_object_type b') as [ty|e|]; [|done..]. destruct ty; try done.
    apply wp_bind, wp_pure. by destruct (Tree_decode b').
  - intros r s2 [Hw2 Hb2]. destruct r as [ot|e|]; [|split; [done|congruence]..]. rewrite <- Hb1, <- Hb2. clear - IH Hw2.
    generalize (oids ++ [new]). revert s2 Hw2. induction (entries t) as [|e l IHl]; intros s2 Hw2 o; [done|].
    cbn [m_fold]. apply wp_bind. eapply wp_mono; [by apply IH|]. intros r s3 [Hw3 Hb3].
    destruct r as [o'|x|]; [|done..]. rewrite <- Hb3. by apply IHl.
Qed.

Lemma get_tree_answers id :
  answers g_inv g_view g_writable (on_guarded (Store_get_tree id)) (fun v => b ← object_at v id; Tree_decode b).
Proof.
  intros [s] Hw. cbn [unguard] in *. apply on_guarded_wp. eapply wp_mono; [by apply Store_get_tree_spec|].
  intros r s' (Hw' & Hb & ->). cbn [unguard]. rewrite memory_object by done. unfold objects. rewrite Hb. by split_and!; auto.
Qed.

Lemma raw_answers id :
  answers g_inv g_view g_writable (on_guarded (get_raw_verified id)) (fun v => object_at v id).
Proof.
  intros [s] Hw. cbn [unguard] in *. apply on_guarded_wp. unfold wp, get_raw_verified. cbn [fst snd unguard].
  split_and!; try done. by apply memory_object.
Qed.

Lemma batch_get_tree_answers id :
  answers gb_inv (g_view ∘ fst) (g_writable ∘ fst) (on_guarded_batch (batch_get_tree id))
    (fun v => b ← object_at v id; Tree_decode b).
Proof.
  intros [[s] batch] [Hw Hb]. cbn [unguard fst snd] in *. apply on_guarded_batch_wp.
  pose proof (Store_get_tree_spec id s Hw) as H. unfold wp, batch_get_tree in *.
  destruct (Store_get_tree id s) as [r s']. cbn [fst snd unguard] in *. destruct H as (Hw' & Hbl & ->).
  rewrite memory_object by done. cbn [compose fst unguard]. unfold wf_batch, objects in *. by rewrite Hbl.
Qed.

Lemma batch_finish_looks (x : Guarded C * MemoryBatch) :
  gb_inv x -> wp (on_guarded_batch batch_finish) x (fun r x' =>
    gb_inv x' /\ g_view x'.1 = g_view x.1 /\ (g_writable x.1 -> g_writable x'.1) /\ r = Ok tt).
Proof.
  destruct x as [[s] batch]. intros [Hw Hb]. cbn [unguard fst snd] in *. apply on_guarded_batch_wp.
  unfold wp, batch_finish. cbn [fst snd unguard set_blobs blobs].
  destruct (finish_spec (blobs s) batch (ws_blobs _ Hw) Hb) as (Hf & Hv & Hd).
  assert (objects (set_blobs (MemoryBatch_finish (blobs s) batch) s) = objects s) as Ho by exact Hv.
  split; [|done]. split; [apply wf_sstore_blobs; [done|done|by rewrite Hv]|].
  intros id Hid. cbn in Hid. set_solver.
Qed.

Lemma guarded_intros_looks old new : looks g_inv g_view g_writable (guarded_intros old new).
Proof.
  intros g Hg. unfold wp, guarded_intros. generalize (intro_fuel (unguard g)). intros n.
  apply (guarded_looks (collect_intros n old new)); [|done]. intros s' Hs'. by apply intro_walk_looks.
Qed.

(** The walk of the typed store, in terms of its object files. *)
Lemma decodes_view s id d : wf_sstore s ->
  decodes_to s id d <-> exists b, objects s !! id = Some b /\ decode_graph_object id b = Ok d.
Proof.
  intros Hw. unfold decodes_to. split; [naive_solver|]. intros (b & Hb & Hd). exists b. split; [done|]. split; [|done].
  by apply (wf_hash _ (ws_blobs _ Hw) id b).
Qed.

Lemma reaches_view s root e : wf_sstore s -> reaches s root e <-> view_reaches (objects s) root e.
Proof.
  intros Hw. split.
  - induction 1 as [|e d e' _ IH Hd He]; [constructor|]. apply decodes_view in Hd as (b & Hb & Hd); [|done].
    by eapply view_edge.
  - induction 1 as [|e b d e' _ IH Hb Hd He]; [constructor|]. eapply reaches_edge; [done| |done]. apply decodes_view; eauto.
Qed.

Lemma walk_ok_view s root : wf_sstore s -> graph_ok s root <-> view_ok (objects s) root.
Proof.
  intros Hw. unfold graph_ok, view_ok. split; intros H e He%reaches_view; try done.
  - destruct (H e He) as (d & (b & Hb & Hd)%decodes_view & Ha); [|done]. by exists b, d.
  - destruct (H e He) as (b & d & Hb & Hd & Ha). exists d. split; [|done]. apply decodes_view; eauto.
Qed.

Lemma walk_fits_view s root limit : wf_sstore s -> graph_fits s root limit <-> view_fits (objects s) root limit.
Proof.
  intros Hw. unfold graph_fits, view_fits. split; intros (X & HX & H); exists X; (split; [done|]); intros e He%reaches_view; auto.
Qed.

Lemma walk_view env root expected :
  forall g, g_inv g -> wp (on_guarded (reachable_graph_verified env root expected)) g (fun r g' =>
    g_inv g' /\ g_view g' = g_view g /\ (g_writable g -> g_writable g') /\ walk_answer env root expected (g_view g) r).
Proof.
  intros [s] Hw. cbn [unguard] in *. apply on_guarded_wp. eapply wp_mono; [by apply reachable_graph_spec|].
  intros r s' [-> Hr]. cbn [unguard]. split; [done|]. split; [done|]. split; [done|]. change (walk_answer env root expected (objects s) r). unfold walk_answer.
  pose proof (walk_ok_view s (root_edge root expected) Hw) as Eo.
  pose proof (walk_fits_view s (root_edge root expected) (max_graph_objects env) Hw) as Ef.
  destruct r as [l|e|]; [|by rewrite <- Eo, <- Ef|done]. rewrite <- Eo, <- Ef.
  destruct Hr as (H1 & H2 & H3 & H4). split; [done|]. split; [done|]. split; [done|]. intros o. rewrite H4. split.
  - intros (e & d & He%reaches_view & (b & Hb & Hd)%decodes_view & ->); [|done..]. by exists e, b, d.
  - intros (e & b & d & He%reaches_view & Hb & Hd & ->); [|done]. exists e, d. split; [done|]. split; [|done].
    apply decodes_view; eauto.
Qed.

#[export] Instance guarded_repo_laws : RepoLaws (Guarded C) MemoryBatch.
Proof.
  refine {|
    rp_inv := g_inv; rp_batch_inv := gb_inv; rp_view := g_view; rp_writable := g_writable;
    rp_fault := fun e => e = collision;
    rp_get_tree := get_tree_answers;
    rp_batch_get_tree := batch_get_tree_answers;
    rp_get_raw_verified := raw_answers
  |}; try (intros id; by apply (read_answers _ _ id)).
  - intros s Hg. split; [done|]. intros id Hid. cbn in Hid. set_solver.
  - by intros x [? _].
  - intros x s [_ Hb] Hs Hsub. split; [done|]. intros id Hid. destruct (Hb id Hid) as [b Hv].
    exists b. by eapply lookup_weaken.
  - intros t Ht. apply guarded_put_adds. intros s Hs Hc. by apply put_tree_stored.
  - intros t Ht. apply guarded_batch_put_adds. intros s b Hs Hb Hc. by apply batch_put_tree_stored.
  - intros c. apply guarded_batch_put_adds. intros s b Hs Hb Hc. by apply batch_put_stored.
  - intros c. apply guarded_batch_put_adds. intros s b Hs Hb Hc. by apply batch_put_stored.
  - intros x Hx. eapply wp_mono; [by apply batch_finish_looks|]. intros r x' (? & ? & ? & ->). done.
  - intros id. apply (read_answers (fun b => o ← Blob_decode b; Ok (blob_data o)) _ id). intros s.
    unfold get_blob_data, mbind, stateM_bind. destruct (get_raw id s) as [[b|e|] s']; [|done..].
    unfold pure, mret, stateM_ret. by destruct (Blob_decode b).
  - intros data. apply guarded_put_adds. intros s Hs Hc. by apply put_blob_stored.
  - intros c. apply guarded_put_adds. intros s Hs Hc. by apply put_raw_stored.
  - intros c. apply guarded_put_adds. intros s Hs Hc. by apply put_conflict_stored.
  - intros c. apply guarded_put_adds. intros s Hs Hc. by apply put_raw_stored.
  - exact guarded_intros_looks.
  - exact walk_view.
Defined.
End instance.
