(* ===== verification/Forge.v ===== *)
(** * [Forge]: refs, inboxes, receipts (crates/forge-api/src/refs.rs)

    The state of a repository, its store and its catalog, and the operations
    on refs a caller reaches with a capability.  [key] is the repository's
    [hmac_key], [now] the successive readings of the clock by one operation,
    [ulid] the identifiers it mints. *)

From S2P Require Import Prelude RustStd Types Object Contribution Cap TreeStore History Overlay Namespace Catalog Refs Sessions Authority Plane.

Record Forge (St : Type) := mkForge { store : St; meta : Catalog }.
Arguments mkForge {St} _ _. Arguments store {St} _. Arguments meta {St} _.

(** A verified contribution receipt. *)
Record Receipt := mkReceipt {
  rp_receipt : ObjectId;
  rp_result : option ObjectId;
  rp_agent : str;
  rp_base : ObjectId;
  rp_tree : ObjectId;
  rp_parents : list ObjectId;
  rp_reads : list (str * ObjectId);
  rp_writes : list str;
  rp_ts : Z
}.

Definition verified_edges (r : Receipt) : Z := 3 + len (rp_parents r) + len (rp_reads r).

Section forge.
Context {St B : Type} `{R : Repo St B} `{HM : Hmac}.

Abbreviation forge := (stateM Error (Forge St)).

Definition on_store {A} (m : stateM Error St A) : forge A := fun f =>
  let '(r, s) := m (store f) in (r, mkForge s (meta f)).
Definition on_meta {A} (m : db A) : forge A := fun f =>
  let '(r, c) := m (meta f) in (r, mkForge (store f) c).

(** Run a method of a publish batch, which the caller holds. *)
Definition in_batch {A} (b : B) (m : stateM Error (St * B) A) : forge (A * B) := fun f =>
  match m (store f, b) with
  | (Ok a, (s, b)) => (Ok (a, b), mkForge s (meta f))
  | (Err e, (s, _)) => (Err e, mkForge s (meta f))
  | (Panic, (s, _)) => (Panic, mkForge s (meta f))
  end.

(** ** Resolution *)

Definition resolve_spec_oid (spec : str) : forge ObjectId :=
  s ← pure (parse_spec spec);
  match s with
  | SOid id => mret id
  | SRef name =>
      row ← on_meta (get_ref name);
      r ← pure (ok_or row (NotFound (bs "ref {name}")));
      mret (ref_oid r)
  end.

Definition peel_commit (spec : str) : forge (ObjectId * Commit) :=
  oid ← resolve_spec_oid spec;
  ty ← on_store (repo_object_type oid);
  match ty with
  | TCommit => c ← on_store (repo_get_commit oid); mret (oid, c)
  | TSnapshot =>
      s ← on_store (repo_get_snapshot oid);
      c ← on_store (repo_get_commit (s_commit s));
      mret (s_commit s, c)
  | other => throw (Invalid (bs "{spec} is {other}, not a commit"))
  end.

(** ** Refs *)

Definition refs_with_suppressed (key : bytes) (now : nat -> Z) (cap : Cap) : forge (list RefRow * Z) :=
  _ ← pure (check key (now 0%nat) cap Read None);
  let t := now 1%nat in
  rows ← on_meta list_refs;
  mret (fold_left (fun '(out, suppressed) r =>
          if is_ok (allows cap Read (Some (ref_name r)) t) then (out ++ [r], suppressed) else (out, suppressed + 1))
        rows ([], 0)).

Definition Forge_refs (key : bytes) (now : nat -> Z) (cap : Cap) : forge (list RefRow) :=
  '(rows, _) ← refs_with_suppressed key now cap; mret rows.

Definition branch (key : bytes) (now : nat -> Z) (cap : Cap) (from name : str) : forge ObjectId :=
  _ ← pure (check key (now 0%nat) cap Branch (Some name));
  _ ← pure (check_spec_read key (now 1%nat) cap from);
  '(oid, _) ← peel_commit from;
  _ ← on_meta (insert_ref (now 2%nat) name oid (bs "commit") false false (agent_id cap) (bs "branch"));
  mret oid.

Definition Forge_landmark (key : bytes) (now : nat -> Z) (cap : Cap) (oid : ObjectId) : forge unit :=
  _ ← pure (reject_if (negb (has_unrestricted_ref_scope cap)) (Denied (bs "ref-scoped caps cannot address raw object ids")));
  _ ← pure (check key (now 0%nat) cap Write None);
  kind ← on_store (repo_object_type oid);
  on_meta (landmark (now 1%nat) oid (as_str kind) (bs "explicit")).

Definition Forge_log (key : bytes) (now : nat -> Z) (cap : Cap) (ref : str) (n : Z) : forge (list (ObjectId * str * str)) :=
  _ ← pure (check key (now 0%nat) cap Read (Some ref));
  row ← on_meta (get_ref ref);
  _ ← pure (ok_or row (NotFound (bs "ref {ref_name}")));
  rows ← on_meta (reflog ref n);
  mret ((fun '(_, new, agent, reason) => (new, agent, reason)) <$> rows).

(** ** Inboxes *)

Definition own_inbox (cap : Cap) : Result str :=
  let agent := agent_id cap in
  _ ← reject_if (negb (bytes_eqb (sanitize_agent agent) agent) || bytes_eqb agent (bs "anon"))
        (Invalid (bs "invalid inbox agent {agent:?}"));
  Ok agent.

Definition inbox_push (key : bytes) (now : nat -> Z) (ulid : nat -> str) (cap : Cap) (to snapshot : str)
    (task : option str) : forge CasResult :=
  let recipient := sanitize_agent to in
  _ ← pure (reject_if (negb (bytes_eqb recipient to) || bytes_eqb recipient (bs "anon"))
        (Invalid (bs "invalid inbox recipient {to:?}")));
  _ ← pure (check_spec_read key (now 0%nat) cap snapshot);
  oid ← resolve_spec_oid snapshot;
  ty ← on_store (repo_object_type oid);
  _ ← pure (reject_if (negb (bool_decide (ty = TSnapshot))) (Invalid (bs "inbox payload must be a sealed snapshot")));
  leaf ← pure (match task with Some task => validate_inbox_task task | None => Ok (ulid 0%nat) end);
  let name := bs "inbox/" ++ recipient ++ bs "/" ++ leaf in
  _ ← pure (check key (now 1%nat) cap Write (Some name));
  on_meta (cas_ref (now 2%nat) (ulid 1%nat) name ZERO oid (bs "snapshot") (agent_id cap) (agent_id cap) false).

(** The clock is read for every row under the prefix. *)
Fixpoint inbox_rows (now : nat -> Z) (cap : Cap) (prefix : str) (i : nat) (rows : list RefRow) : list RefRow :=
  match rows with
  | [] => []
  | row :: rows' =>
      if starts_with (ref_name row) prefix then
        if is_ok (allows cap Read (Some (ref_name row)) (now i)) then row :: inbox_rows now cap prefix (S i) rows'
        else inbox_rows now cap prefix (S i) rows'
      else inbox_rows now cap prefix i rows'
  end.

Definition inbox_list (key : bytes) (now : nat -> Z) (cap : Cap) : forge (list RefRow) :=
  _ ← pure (check key (now 0%nat) cap Read None);
  agent ← pure (own_inbox cap);
  rows ← on_meta list_refs;
  mret (inbox_rows now cap (bs "inbox/" ++ agent ++ bs "/") 1%nat rows).

Definition inbox_get (key : bytes) (now : nat -> Z) (cap : Cap) (task : str) : forge RefRow :=
  task ← pure (validate_inbox_task task);
  agent ← pure (own_inbox cap);
  let name := bs "inbox/" ++ agent ++ bs "/" ++ task in
  _ ← pure (check key (now 0%nat) cap Read (Some name));
  row ← on_meta (get_ref name);
  pure (ok_or row (NotFound (bs "ref {name}"))).

(** ** Receipts *)

(** An object a receipt names: absence is corruption. *)
Definition durable_bytes (oid : ObjectId) : forge bytes := fun f =>
  let '(r, f) := on_store (repo_get_raw_verified oid) f in
  (map_err (fun e => match e with
                     | NotFound _ => Corrupt (bs "{of} names {edge} {oid}, which is not present in durable storage")
                     | other => other
                     end) r, f).

Definition durable_edge_type (oid : ObjectId) : forge ObjectType :=
  b ← durable_bytes oid; pure (decode_object_type b).

Definition require_durable_type (oid : ObjectId) (want : ObjectType) : forge unit :=
  found ← durable_edge_type oid;
  pure (reject_if (negb (bool_decide (found = want))) (Corrupt (bs "receipt {receipt} names {edge} {oid} as {}, but it is {}"))).

Fixpoint require_all (oids : list ObjectId) (want : ObjectType) : forge unit :=
  match oids with
  | [] => mret tt
  | oid :: oids' => _ ← require_durable_type oid want; require_all oids' want
  end.

(** The commit a receipt was reached through describes the same work. *)
Definition disagrees (commit : Commit) (c : Contribution) : bool :=
  negb (bool_decide (c_tree commit = t_tree c)) || negb (bool_decide (c_parents commit = t_parents c))
  || negb (bytes_eqb (c_agent commit) (t_agent c)).

Definition verified_receipt (result : option (ObjectId * Commit)) (receipt_oid : ObjectId) : forge Receipt :=
  b ← durable_bytes receipt_oid;
  c ← pure (map_err (fun _ => Corrupt (bs "receipt {receipt_oid} does not decode: {error}")) (Contribution.decode b));
  _ ← require_durable_type (t_base c) TCommit;
  _ ← require_durable_type (t_tree c) TTree;
  _ ← require_all (t_parents c) TCommit;
  _ ← require_all (rd_id <$> t_reads c) TBlob;
  _ ← pure (match result with
            | Some (_, commit) => reject_if (disagrees commit c)
                (Corrupt (bs "commit {commit_oid} disagrees with the receipt {receipt_oid} it names: {detail}"))
            | None => Ok tt
            end);
  mret (mkReceipt receipt_oid (fst <$> result) (t_agent c) (t_base c) (t_tree c) (t_parents c)
          ((fun r => (rd_path r, rd_id r)) <$> t_reads c) (t_writes c) (t_ts c)).

Definition receipt (key : bytes) (now : nat -> Z) (cap : Cap) (spec : str) : forge Receipt :=
  _ ← pure (check_spec_read key (now 0%nat) cap spec);
  named ← resolve_spec_oid spec;
  b ← on_store (repo_get_raw_verified named);
  named_type ← pure (decode_object_type b);
  match named_type with
  | TContribution => verified_receipt None named
  | TCommit | TSnapshot =>
      '(commit_oid, commit) ← peel_commit spec;
      contrib ← pure (ok_or (c_contrib commit) (NotFound (bs "{spec} names commit {commit_oid}, which carries no contribution receipt")));
      verified_receipt (Some (commit_oid, commit)) contrib
  | other => throw (Invalid (bs "{spec} is {other}, which is neither a receipt nor a commit that names one"))
  end.
End forge.

(** ** Lemmas: running on one half of the state *)

Section lemmas.
Context {St B : Type} `{RL : RepoLaws St B} `{HM : Hmac}.
Implicit Types (f : Forge St) (v : gmap ObjectId bytes) (c : Catalog).

Abbreviation forge := (stateM Error (Forge St)).

Lemma wp_on_store {A} (m : stateM Error St A) f (Q : Result A -> Forge St -> Prop) :
  wp m (store f) (fun r s => Q r (mkForge s (meta f))) -> wp (on_store m) f Q.
Proof. unfold wp, on_store. by destruct (m (store f)). Qed.

Lemma wp_on_meta {A} (m : db A) f (Q : Result A -> Forge St -> Prop) :
  wp m (meta f) (fun r c => Q r (mkForge (store f) c)) -> wp (on_meta m) f Q.
Proof. unfold wp, on_meta. by destruct (m (meta f)). Qed.

Definition f_view f : gmap ObjectId bytes := rp_view (store f).
Definition f_inv f : Prop := rp_inv (store f).

(** [f'] answers every question as [f] does. *)
Record same f f' : Prop := mk_same {
  same_inv : f_inv f';
  same_view : f_view f' = f_view f;
  same_meta : meta f' = meta f;
  same_writable : rp_writable (store f) -> rp_writable (store f')
}.

Lemma same_refl f : f_inv f -> same f f.
Proof. by split. Qed.
Lemma same_trans f1 f2 f3 : same f1 f2 -> same f2 f3 -> same f1 f3.
Proof. intros [] []. split; [done|congruence..|auto]. Qed.

(** [m] only looks, and answers [d] of the object files and the catalog. *)
Definition denotes {A} (m : forge A) (d : gmap ObjectId bytes -> Catalog -> Result A) : Prop :=
  forall f, f_inv f -> wp m f (fun r f' => same f f' /\ r = d (f_view f) (meta f)).

Lemma denotes_pure {A} (r : Result A) : denotes (pure r) (fun _ _ => r).
Proof. intros f Hf. apply wp_pure. by split; [apply same_refl|]. Qed.

Lemma denotes_ret {A} (a : A) : denotes (mret a) (fun _ _ => Ok a).
Proof. exact (denotes_pure (Ok a)). Qed.

Lemma denotes_bind {A A'} (m : forge A) (k : A -> forge A') d d' :
  denotes m d -> (forall a, denotes (k a) (d' a)) -> denotes (m ≫= k) (fun v c => a ← d v c; d' a v c).
Proof.
  intros Hm Hk f Hf. apply wp_bind. eapply wp_mono; [by apply Hm|]. intros r f1 [Hs ->].
  destruct (d (f_view f) (meta f)) as [a|e|]; [|done..]. rewrite bind_of_ok.
  eapply wp_mono; [by apply Hk, Hs|]. intros r' f2 [Hs2 ->]. split; [by eapply same_trans|].
  by rewrite (same_view _ _ Hs), (same_meta _ _ Hs).
Qed.

Lemma denotes_store {A} (m : stateM Error St A) d :
  answers rp_inv rp_view rp_writable m d -> denotes (on_store m) (fun v _ => d v).
Proof.
  intros Hm f Hf. apply wp_on_store. eapply wp_mono; [by apply Hm|]. intros r s' (Hi & Hv & Hw & ->). by split.
Qed.

(** A query: it answers, and leaves the tables as they are. *)
Lemma denotes_meta {A} (m : db A) d : (forall c, m c = (d c, c)) -> denotes (on_meta m) (fun _ c => d c).
Proof. intros Hm f Hf. apply wp_on_meta. unfold wp. rewrite Hm. cbn. by destruct f. Qed.

Lemma denotes_ext {A} (m : forge A) d d' : denotes m d -> (forall v c, d v c = d' v c) -> denotes m d'.
Proof. intros Hm He f Hf. eapply wp_mono; [by apply Hm|]. intros r f' [Hs ->]. by rewrite He. Qed.

(** *** What the reads of this file answer *)

Definition type_at v id : Result ObjectType := b ← object_at v id; decode_object_type b.

Definition d_resolve (spec : str) v c : Result ObjectId :=
  s ← parse_spec spec;
  match s with
  | SOid id => Ok id
  | SRef name => r ← ok_or (Catalog.refs c !! name) (NotFound (bs "ref {name}")); Ok (rc_oid r)
  end.

Lemma resolve_denotes spec : denotes (resolve_spec_oid spec) (d_resolve spec).
Proof.
  unfold resolve_spec_oid, d_resolve. apply denotes_bind; [apply denotes_pure|]. intros [name|id]; [|apply denotes_ret].
  eapply denotes_ext; [apply denotes_bind; [apply (denotes_meta _ (fun c => Ok (ref_row name <$> Catalog.refs c !! name)))|]|].
  - done.
  - intros row. apply denotes_bind; [apply denotes_pure|]. intros r. apply denotes_ret.
  - intros v c. cbn. by destruct (Catalog.refs c !! name).
Qed.

Definition d_peel (spec : str) v c : Result (ObjectId * Commit) :=
  oid ← d_resolve spec v c;
  ty ← type_at v oid;
  match ty with
  | TCommit => c ← (b ← object_at v oid; Commit_decode b); Ok (oid, c)
  | TSnapshot =>
      s ← (b ← object_at v oid; Snapshot_decode b);
      c ← (b ← object_at v (s_commit s); Commit_decode b);
      Ok (s_commit s, c)
  | other => Err (Invalid (bs "{spec} is {other}, not a commit"))
  end.

Lemma peel_denotes spec : denotes (peel_commit spec) (d_peel spec).
Proof.
  unfold peel_commit, d_peel. apply denotes_bind; [apply resolve_denotes|]. intros oid.
  apply (denotes_bind _ _ (fun v _ => type_at v oid)); [apply denotes_store, rp_object_type|]. intros ty.
  destruct ty; try apply (denotes_pure (Err _)).
  - apply (denotes_bind _ _ (fun v _ => b ← object_at v oid; Commit_decode b)); [apply denotes_store, rp_get_commit|].
    intros c. apply denotes_ret.
  - apply (denotes_bind _ _ (fun v _ => b ← object_at v oid; Snapshot_decode b)); [apply denotes_store, rp_get_snapshot|].
    intros s. apply (denotes_bind _ _ (fun v _ => b ← object_at v (s_commit s); Commit_decode b));
      [apply denotes_store, rp_get_commit|]. intros c. apply denotes_ret.
Qed.

Lemma no_panic_decode_object_type b : no_panic (decode_object_type b).
Proof.
  unfold decode_object_type. destruct b as [|x b]; [done|]. apply no_panic_bind; [auto with forge|]. intros _ _.
  change (index (x :: b) 0) with (@Ok Error byte x). rewrite bind_of_ok. unfold ObjectType_from_u8. by repeat case_match.
Qed.

Lemma no_panic_object_at v id : no_panic (object_at v id).
Proof. apply no_panic_ok_or. Qed.
Lemma no_panic_type_at v id : no_panic (type_at v id).
Proof. apply no_panic_bind; [apply no_panic_object_at|]. intros. apply no_panic_decode_object_type. Qed.
Hint Resolve no_panic_object_at no_panic_type_at : forge.

Lemma no_panic_parse_spec spec : no_panic (parse_spec spec).
Proof.
  unfold parse_spec. repeat case_match; auto with forge. apply no_panic_bind; auto with forge.
Qed.

End lemmas.
#[export] Hint Resolve no_panic_decode_object_type no_panic_object_at no_panic_type_at no_panic_parse_spec : forge.
