(* ===== verification/Growth.v ===== *)
(** * How a repository grows

    Every operation of [Forge] only adds object files.  [grown] says so, and
    that each commit it adds decodes and names a complete tree; the lemmas lift
    the laws of [Repo] to it, through publish batches too. *)

From S2P Require Import Prelude RustStd Types Tree TreeStore Object Contribution ObjectStore Store Graph History Overlay Namespace Catalog Plane Forge.

(** ** The type of an encoded object *)

Lemma encode_file_type ty h p b : encode_file ty h p = Ok b -> decode_object_type b = Ok ty.
Proof.
  unfold encode_file. intros (n & _ & [= <-])%bind_ok. unfold decode_object_type.
  assert (forall x (l : bytes), (len (x :: l) =? 0) = false) as Hl.
  { intros x l. apply Z.eqb_neq. rewrite len_cons. pose proof (len_nonneg l). lia. }
  rewrite Hl. cbn [reject_if]. rewrite bind_of_ok. change (index (?x :: ?l) 0) with (@Ok Error byte x). by destruct ty.
Qed.

Lemma Tree_encode_type t b : Tree_encode t = Ok b -> decode_object_type b = Ok TTree.
Proof. unfold Tree_encode. intros (u & _ & H)%bind_ok. apply bind_ok in H as (l & _ & H). by apply encode_file_type in H. Qed.
Lemma Commit_encode_type k b : Commit_encode k = Ok b -> decode_object_type b = Ok TCommit.
Proof. apply encode_file_type. Qed.
Lemma Conflict_encode_type k b : Conflict_encode k = Ok b -> decode_object_type b = Ok TConflict.
Proof. apply encode_file_type. Qed.
(** A file that decodes has the type of its codec. *)
Lemma parse_file_type b ty h p : parse_file b = Ok (ty, h, p) -> decode_object_type b = Ok ty.
Proof.
  unfold parse_file, decode_object_type. intros (u & Hl%reject_if_ok & H)%bind_ok. apply bind_ok in H as (b0 & H0 & H).
  apply bind_ok in H as (ty' & Ht & H).
  assert (reject_if (len b =? 0) (Corrupt (bs "empty object")) = Ok tt) as -> by (apply Z.ltb_ge in Hl; by rewrite (proj2 (Z.eqb_neq _ _)) by lia).
  rewrite bind_of_ok, H0, bind_of_ok, Ht. by repeat (apply bind_ok in H as (? & _ & H)); injection H as <- _ _.
Qed.
Lemma conflict_decode_type o k : Conflict_decode o = Ok k -> decode_object_type o = Ok TConflict.
Proof.
  unfold Conflict_decode. intros ([[ty h] p] & Hp & H)%bind_ok. apply bind_ok in H as (u & Ht%reject_if_ok%negb_false_iff%bool_decide_eq_true & _).
  subst ty. by eapply parse_file_type.
Qed.

Lemma Snapshot_encode_type k b : Snapshot_encode k = Ok b -> decode_object_type b = Ok TSnapshot.
Proof. apply encode_file_type. Qed.
Lemma Contribution_encode_type k b : Contribution.encode k = Ok b -> decode_object_type b = Ok TContribution.
Proof.
  unfold Contribution.encode. intros (u & _ & H)%bind_ok. apply bind_ok in H as (u' & _ & H). by apply encode_file_type in H.
Qed.
Lemma Blob_encode_type o b : Blob_encode o = Ok b -> decode_object_type b = Ok TBlob.
Proof. unfold Blob_encode. rewrite blob_frame_prefix_file. apply encode_file_type. Qed.

(** What an object decoded to, it decodes to. *)
Lemma decoded_grow {A} (dec : bytes -> Result A) v v' id x :
  v ⊆ v' -> (b ← object_at v id; dec b) = Ok x -> (b ← object_at v' id; dec b) = Ok x.
Proof.
  intros Hsub (b & Hb%ok_or_ok & Hd)%bind_ok. apply bind_ok. exists b. split; [|done].
  apply ok_or_ok. by eapply lookup_weaken.
Qed.

Section growth.
Context {St B : Type} `{RL : RepoLaws St B}.
Implicit Types (f : Forge St) (v : gmap ObjectId bytes) (c : Catalog) (b : B).

(** ** What a stored object refers to *)

Definition is_type f (ty : ObjectType) id : Prop := type_at (f_view f) id = Ok ty.

(** The tree [id] is all there, with every file below it. *)
Record whole f id : Prop := mk_whole {
  wh_closed : closed (store f) id;
  wh_files : forall p fl, file_in (store f) id p fl -> is_type f TBlob fl.1
}.

Record sound_commit f (k : Commit) : Prop := mk_sound_commit {
  sk_tree : whole f (c_tree k);
  sk_parents : Forall (is_type f TCommit) (c_parents k);
  sk_receipt : forall rid, c_contrib k = Some rid -> is_type f TContribution rid
}.

Record sound_conflict f (k : Conflict) : Prop := mk_sound_conflict {
  sx_ours : whole f (cf_ours k);
  sx_theirs : whole f (cf_theirs k);
  sx_bases : Forall (whole f) (cf_bases k);
  sx_causal : Forall (is_type f TCommit) (cf_causal k)
}.

(** A commit decodes, and what it refers to is stored; so for what a conflict
    refers to. *)
Definition sound_object f (o : bytes) : Prop :=
  match decode_object_type o with
  | Ok TCommit => exists k, Commit_decode o = Ok k /\ sound_commit f k
  | Ok TConflict => forall k, Conflict_decode o = Ok k -> sound_conflict f k
  | _ => True
  end.

Definition sound_store f : Prop := forall i o, f_view f !! i = Some o -> sound_object f o.

Lemma is_type_view f f' ty id : f_view f ⊆ f_view f' -> is_type f ty id -> is_type f' ty id.
Proof. unfold is_type, type_at. apply decoded_grow. Qed.

Lemma is_type_fun f ty ty' id : is_type f ty id -> is_type f ty' id -> ty = ty'.
Proof. unfold is_type. congruence. Qed.

Lemma stored_type f id o ty : f_view f !! id = Some o -> decode_object_type o = Ok ty -> is_type f ty id.
Proof. intros Ho Ht. unfold is_type, type_at, object_at. rewrite Ho. exact Ht. Qed.

Lemma closed_view f f' id : f_view f ⊆ f_view f' -> closed (store f) id -> closed (store f') id.
Proof. intros Hv. apply closed_transport. intros i t (o & Ho & Hd). exists o. split; [by eapply lookup_weaken|done]. Qed.

(** A complete tree has the same files in a store that has grown. *)
Lemma file_in_view f f' id p fl :
  f_inv f' -> f_view f ⊆ f_view f' -> closed (store f) id -> file_in (store f') id p fl <-> file_in (store f) id p fl.
Proof.
  intros Hi Hv Hc. assert (forall i t, ts_holds (store f) i t -> ts_holds (store f') i t) as Hh.
  { intros i t (o & Ho & Hd). exists o. split; [by eapply lookup_weaken|done]. }
  split; [by apply file_in_shrink|by apply file_in_transport].
Qed.

Lemma whole_view f f' id : f_inv f' -> f_view f ⊆ f_view f' -> whole f id -> whole f' id.
Proof.
  intros Hi Hv [Hc Hf]. split; [by eapply closed_view|]. intros p fl H.
  apply (is_type_view f); [done|]. apply (Hf p). by apply (file_in_view f f').
Qed.

(** A directory of stored files only is whole. *)
Lemma leaf_whole f id t :
  f_inv f -> ts_holds (store f) id t -> (forall e, e ∈ entries t -> e_kind e = KBlob /\ is_type f TBlob (e_id e)) ->
  whole f id.
Proof.
  intros Hi Ht He. split.
  - apply (closed_intro _ _ _ Ht). intros e [Hk _]%He. by rewrite Hk.
  - intros p fl H. inversion H as [i t' n e Ht' Hn Hk|i t' n e q fl' Ht' Hn Hk]; subst;
      (assert (t' = t) as -> by exact (ts_holds_fun (store f) _ _ _ Hi Ht' Ht));
      apply find_entry_some in Hn as [[Hb Hty]%He _]; [done|congruence].
Qed.

Lemma types_view f f' ty ids : f_view f ⊆ f_view f' -> Forall (is_type f ty) ids -> Forall (is_type f' ty) ids.
Proof. intros Hv H. eapply Forall_impl; [exact H|]. intros id. by apply is_type_view. Qed.

Lemma sound_commit_view f f' k : f_inv f' -> f_view f ⊆ f_view f' -> sound_commit f k -> sound_commit f' k.
Proof.
  intros Hi Hv [Ht Hp Hr]. split; [by eapply whole_view|by eapply types_view|].
  intros rid E. eapply is_type_view; [done|by apply Hr].
Qed.

Lemma sound_object_view f f' o : f_inv f' -> f_view f ⊆ f_view f' -> sound_object f o -> sound_object f' o.
Proof.
  intros Hi Hv. unfold sound_object. destruct (decode_object_type o) as [[]|e|]; try done.
  - intros (k & Hk & H). exists k. split; [done|]. by eapply sound_commit_view.
  - intros H k Hk. destruct (H k Hk) as [H1 H2 H3 H4]. split; [by eapply whole_view..| |by eapply types_view].
    eapply Forall_impl; [exact H3|]. intros id. by apply whole_view.
Qed.

(** ** Growth *)

(** The store may have grown since, by sound objects. *)
Record grown f f' : Prop := mk_grown {
  gr_inv : f_inv f';
  gr_view : f_view f ⊆ f_view f';
  gr_new i o : f_view f' !! i = Some o -> f_view f !! i = Some o \/ sound_object f' o;
  gr_writable : rp_writable (store f) -> rp_writable (store f')
}.

Lemma grown_refl f : f_inv f -> grown f f.
Proof. split; [done|done|by left|done]. Qed.
Lemma grown_trans f1 f2 f3 : grown f1 f2 -> grown f2 f3 -> grown f1 f3.
Proof.
  intros [I1 V1 N1 W1] [I2 V2 N2 W2]. split; [done|by etrans| |auto]. intros i o [H|H]%N2; [|by right].
  apply N1 in H as [H|H]; [by left|right]. by eapply (sound_object_view f2).
Qed.
(** The store looks the same. *)
Lemma view_grown f f' : f_inv f' -> f_view f' = f_view f -> (rp_writable (store f) -> rp_writable (store f')) -> grown f f'.
Proof. intros Hi Hv Hw. split; [done|by rewrite Hv| |done]. intros i o. rewrite Hv. by left. Qed.
Lemma same_grown f f' : same f f' -> grown f f'.
Proof. intros [? Hv ? ?]. by apply view_grown. Qed.
Lemma with_catalog_grown f f' c : grown f f' -> grown f (mkForge (store f') c).
Proof.
  intros [Hi Hv Hn Hw]. split; [done|done| |done]. intros i o [H|H]%Hn; [by left|right].
  by eapply (sound_object_view f').
Qed.

Lemma grown_sound f f' : grown f f' -> sound_store f -> sound_store f'.
Proof.
  intros [Hi Hv Hn _] Hs i o [H|H]%Hn; [|done]. eapply sound_object_view; [done|done|]. by eapply Hs.
Qed.

Lemma closed_grown f f' id : grown f f' -> closed (store f) id -> closed (store f') id.
Proof. intros [_ Hv _ _]. by apply closed_view. Qed.

Lemma commit_at_fun v id (k k' : Commit) : commit_at v id k -> commit_at v id k' -> k = k'.
Proof. intros (o & Ho & Hd) (o' & Ho' & Hd'). congruence. Qed.
Lemma commit_at_grown f f' id (k : Commit) : grown f f' -> commit_at (f_view f) id k -> commit_at (f_view f') id k.
Proof. intros [_ Hv _ _] (o & Ho & Hd). exists o. split; [by eapply lookup_weaken|done]. Qed.

Lemma file_in_grown f f' id p fl :
  grown f f' -> closed (store f) id -> file_in (store f') id p fl <-> file_in (store f) id p fl.
Proof. intros [Hi Hv _ _]. by apply file_in_view. Qed.

Lemma whole_grown f f' id : grown f f' -> whole f id -> whole f' id.
Proof. intros [Hi Hv _ _]. by apply whole_view. Qed.

Lemma is_type_grown f f' ty id : grown f f' -> is_type f ty id -> is_type f' ty id.
Proof. intros [_ Hv _ _]. by apply is_type_view. Qed.

(** The commits of a sound store. *)
Lemma type_commit f id : sound_store f -> is_type f TCommit id -> exists k, commit_at (f_view f) id k /\ sound_commit f k.
Proof.
  intros Hs (o & Ho%ok_or_ok & Ht)%bind_ok. pose proof (Hs id o Ho) as H. unfold sound_object in H. rewrite Ht in H.
  destruct H as (k & Hk & H). exists k. split; [by exists o|done].
Qed.

Lemma commit_type f id k : commit_at (f_view f) id k -> is_type f TCommit id.
Proof. intros (o & Ho & [_ Hd]%Commit_decode_spec). eapply stored_type; [done|by eapply Commit_encode_type]. Qed.

Lemma conflict_at_sound f id k :
  sound_store f -> (b ← object_at (f_view f) id; Conflict_decode b) = Ok k -> sound_conflict f k.
Proof.
  intros Hs (o & Ho%ok_or_ok & Hd)%bind_ok. pose proof (Hs id o Ho) as H. unfold sound_object in H.
  rewrite (conflict_decode_type _ _ Hd) in H. by apply H.
Qed.

Lemma commit_at_sound f id k : sound_store f -> commit_at (f_view f) id k -> sound_commit f k.
Proof.
  intros Hs Hk. destruct (type_commit f id Hs (commit_type f id k Hk)) as (k' & Hk' & H).
  by rewrite (commit_at_fun _ _ _ _ Hk Hk').
Qed.

(** ** Writes *)

(** An object of another type is sound. *)
Lemma other_sound f o ty : decode_object_type o = Ok ty -> ty <> TCommit -> ty <> TConflict -> sound_object f o.
Proof. unfold sound_object. intros -> H1 H2. by destruct ty. Qed.

Lemma commit_sound f k o : Commit_encode k = Ok o -> wf_commit k -> sound_commit f k -> sound_object f o.
Proof.
  intros He Hw Hc. unfold sound_object. rewrite (Commit_encode_type _ _ He). exists k. split; [|done].
  by apply Commit_decode_spec.
Qed.

Lemma conflict_sound f (c : Conflict) o :
  (_ ← Conflict_validate c; Conflict_encode c) = Ok o -> Forall (fun p => utf8_valid (cp_path p) = true) (cf_paths c) ->
  sound_conflict f c -> sound_object f o.
Proof.
  intros ([] & Hv & He)%bind_ok Hu Hc. unfold sound_object. rewrite (Conflict_encode_type _ _ He). intros k Hk.
  pose proof (Conflict_decode_encode _ _ (conflict_encoded_wf _ _ Hv Hu He) He). congruence.
Qed.

(** What a write of [enc] may be. *)
Definition sound_enc f (enc : Result bytes) : Prop := forall o, enc = Ok o -> sound_object f o.

Lemma adds_grown f s' c enc :
  rp_inv s' -> f_view f ⊆ rp_view s' -> only_adds (f_view f) (rp_view s') enc -> (rp_writable (store f) -> rp_writable s') ->
  sound_enc f enc -> grown f (mkForge s' c).
Proof.
  intros Hi Hv Ho Hw Hs. split; [done|done| |done]. intros i o H. apply Ho in H as [H|H]; [by left|right].
  eapply sound_object_view; [exact Hi|exact Hv|by apply Hs].
Qed.

Lemma wp_store_adds (m : stateM Error St ObjectId) enc f :
  adds rp_inv rp_view rp_writable rp_fault m enc -> f_inv f -> sound_enc f enc ->
  wp (on_store m) f (fun r f' => grown f f' /\ meta f' = meta f /\
    match r with Ok id => exists o, enc = Ok o /\ f_view f' !! id = Some o | _ => True end).
Proof.
  intros Hm Hf Hs. apply wp_on_store. eapply wp_mono; [by apply Hm|]. intros r s' (H1 & H2 & H0 & H3 & H4).
  split; [by eapply adds_grown|]. split; [done|]. by destruct r.
Qed.

(** ** Publish batches *)

Definition holds_batch f b : Prop := rp_batch_inv (store f, b).

Lemma wp_in_batch {A} b (m : stateM Error (St * B) A) f (Q : Result (A * B) -> Forge St -> Prop) :
  wp m (store f, b) (fun r x => Q (match r with Ok a => Ok (a, x.2) | Err e => Err e | Panic => Panic end) (mkForge x.1 (meta f))) ->
  wp (in_batch b m) f Q.
Proof. unfold wp, in_batch. by destruct (m (store f, b)) as [[a|e|] [s b']]. Qed.

Lemma holds_grown f f' b : holds_batch f b -> grown f f' -> holds_batch f' b.
Proof. intros Hb [Hi Hv _ _]. exact (rp_batch_mono (store f, b) (store f') Hb Hi Hv). Qed.

Lemma batch_adds f b (m : stateM Error (St * B) ObjectId) enc :
  adds rp_batch_inv (rp_view ∘ fst) (rp_writable ∘ fst) rp_fault m enc -> holds_batch f b -> sound_enc f enc ->
  wp (in_batch b m) f (fun r f' => grown f f' /\ meta f' = meta f /\
    match r with
    | Ok (id, b') => holds_batch f' b' /\ exists o, enc = Ok o /\ f_view f' !! id = Some o
    | Err _ => True
    | Panic => enc = Panic
    end).
Proof.
  intros Hm Hb Hs. apply wp_in_batch. eapply wp_mono; [by apply Hm|]. intros r [s' b'] (H1 & H2 & H0 & H3 & H4).
  cbn [fst snd] in *. split; [eapply adds_grown; [exact (rp_batch _ H1)|exact H2|exact H0|exact H3|exact Hs]|].
  split; [done|]. by destruct r.
Qed.

Lemma finish_grown f b :
  f_inv f -> holds_batch f b -> wp (in_batch b repo_batch_finish) f (fun r f' =>
    grown f f' /\ meta f' = meta f /\ match r with Panic => False | _ => True end).
Proof.
  intros Hf Hb. apply wp_in_batch. eapply wp_mono; [by apply rp_batch_finish|].
  intros r [s' b'] (H1 & H2 & H3 & H4). cbn [fst snd] in *. split; [|by destruct r].
  apply view_grown; [exact (rp_batch _ H1)|exact H2|exact H3].
Qed.

(** ** Trees *)

(** Only trees were added to [v0]. *)
Definition more_trees v0 v : Prop :=
  v0 ⊆ v /\ forall i o, v !! i = Some o -> v0 !! i = Some o \/ decode_object_type o = Ok TTree.

Lemma more_trees_refl v : more_trees v v.
Proof. split; [done|by left]. Qed.

Lemma more_trees_keeps v0 : keeps_trees (more_trees v0).
Proof.
  intros v v' t [H1 H2] Hsub Ho. split; [by etrans|]. intros i o [H|H]%Ho; [by apply H2|right]. by eapply Tree_encode_type.
Qed.

Lemma more_trees_grown f s' c :
  rp_inv s' -> more_trees (f_view f) (rp_view s') -> (rp_writable (store f) -> rp_writable s') -> grown f (mkForge s' c).
Proof.
  intros Hi [Hv Hn] Hw. split; [done|done| |done]. intros i o [H|H]%Hn; [by left|right]. by eapply other_sound.
Qed.
End growth.
