(* ===== verification/Receipts.v ===== *)
(** * Receipts (crates/forge-api/src/refs.rs)

    [receipt] reports a contribution receipt only when every object the receipt
    names is stored with its type and the commit it was reached through agrees
    with it; and reports every such receipt.  The demo repository of the
    witnesses of [Forge]'s operations is here. *)

From S2P Require Import Prelude RustStd Types Tree Object Contribution ObjectStore Store Cap TreeStore History Overlay Namespace Catalog Refs Sessions CatAudit Events CatalogInv Authority Plane Forge.

Section receipts.
Context {St B : Type} `{RL : RepoLaws St B} `{HM : Hmac}.
Implicit Types (f : Forge St) (v : gmap ObjectId bytes) (c : Catalog).

Definition receipt_error (e : Error) : Error :=
  match e with
  | NotFound _ => Corrupt (bs "{of} names {edge} {oid}, which is not present in durable storage")
  | other => other
  end.

Definition d_edge (oid : ObjectId) v : Result ObjectType := b ← map_err receipt_error (object_at v oid); decode_object_type b.

Definition d_require (oid : ObjectId) (want : ObjectType) v : Result unit :=
  found ← d_edge oid v;
  reject_if (negb (bool_decide (found = want))) (Corrupt (bs "receipt {receipt} names {edge} {oid} as {}, but it is {}")).

Lemma durable_bytes_denotes oid : denotes (durable_bytes oid) (fun v _ => map_err receipt_error (object_at v oid)).
Proof.
  intros f Hf. pose proof (denotes_store _ _ (rp_get_raw_verified oid) f Hf) as H. unfold wp, durable_bytes in *.
  destruct (on_store (repo_get_raw_verified oid) f) as [r f']. cbn [fst snd] in *. by destruct H as [? ->].
Qed.

Lemma require_denotes oid want : denotes (require_durable_type oid want) (fun v _ => d_require oid want v).
Proof.
  unfold require_durable_type, d_require. apply (denotes_bind _ _ (fun v _ => d_edge oid v)); [|intros ty; apply denotes_pure].
  unfold durable_edge_type, d_edge. apply (denotes_bind _ _ (fun v _ => _)); [apply durable_bytes_denotes|].
  intros b. apply denotes_pure.
Qed.

Lemma require_all_denotes oids want :
  denotes (require_all oids want) (fun v _ => for_each (fun oid => d_require oid want v) oids).
Proof.
  induction oids as [|oid oids IH]; [apply denotes_ret|]. cbn [require_all for_each].
  apply (denotes_bind _ _ (fun v _ => _) (fun _ v _ => _)); [apply require_denotes|]. intros _. exact IH.
Qed.

(** The object file [id] has the type [ty]. *)
Definition typed v id ty : Prop := type_at v id = Ok ty.

Lemma d_require_ok oid want v : d_require oid want v = Ok tt <-> typed v oid want.
Proof.
  unfold d_require, d_edge, typed, type_at. rewrite bind_ok. split.
  - intros (ty & H & Hr). apply reject_if_ok, negb_false_iff, bool_decide_eq_true in Hr as ->.
    apply bind_ok in H as (b & Hb%map_err_ok & Hd). by rewrite Hb.
  - intros (b & Hb & Hd)%bind_ok. exists want. rewrite Hb. split; [done|]. by rewrite bool_decide_true.
Qed.

Lemma no_panic_d_require oid want v : no_panic (d_require oid want v).
Proof.
  apply no_panic_bind; [|intros; apply no_panic_reject_if]. apply no_panic_bind; [apply no_panic_map_err, no_panic_object_at|].
  intros. apply no_panic_decode_object_type.
Qed.
Hint Resolve no_panic_d_require : forge.

(** A receipt whose every edge checks out, and that agrees with the commit it
    was reached through. *)
Definition verified v (result : option (ObjectId * Commit)) (rid : ObjectId) (x : Receipt) : Prop :=
  exists b con, v !! rid = Some b /\ Contribution.decode b = Ok con
    /\ typed v (t_base con) TCommit /\ typed v (t_tree con) TTree
    /\ Forall (fun p => typed v p TCommit) (t_parents con) /\ Forall (fun r => typed v (rd_id r) TBlob) (t_reads con)
    /\ (forall oid commit, result = Some (oid, commit) ->
          c_tree commit = t_tree con /\ c_parents commit = t_parents con /\ c_agent commit = t_agent con)
    /\ x = mkReceipt rid (fst <$> result) (t_agent con) (t_base con) (t_tree con) (t_parents con)
             ((fun r => (rd_path r, rd_id r)) <$> t_reads con) (t_writes con) (t_ts con).

Lemma disagrees_false commit con :
  disagrees commit con = false <->
  c_tree commit = t_tree con /\ c_parents commit = t_parents con /\ c_agent commit = t_agent con.
Proof.
  unfold disagrees. rewrite !orb_false_iff, !negb_false_iff, !bool_decide_eq_true, bytes_eqb_true. tauto.
Qed.

Lemma for_each_require oids want v :
  for_each (fun oid => d_require oid want v) oids = Ok tt <-> Forall (fun oid => typed v oid want) oids.
Proof.
  rewrite for_each_ok. split; intros H; (eapply Forall_impl; [exact H|]); intros oid Ho; by apply d_require_ok.
Qed.

Definition d_verified (result : option (ObjectId * Commit)) (rid : ObjectId) v : Result Receipt :=
  b ← map_err receipt_error (object_at v rid);
  con ← map_err (fun _ => Corrupt (bs "receipt {receipt_oid} does not decode: {error}")) (Contribution.decode b);
  _ ← d_require (t_base con) TCommit v;
  _ ← d_require (t_tree con) TTree v;
  _ ← for_each (fun oid => d_require oid TCommit v) (t_parents con);
  _ ← for_each (fun oid => d_require oid TBlob v) (rd_id <$> t_reads con);
  _ ← match result with
      | Some (_, commit) => reject_if (disagrees commit con)
          (Corrupt (bs "commit {commit_oid} disagrees with the receipt {receipt_oid} it names: {detail}"))
      | None => Ok tt
      end;
  Ok (mkReceipt rid (fst <$> result) (t_agent con) (t_base con) (t_tree con) (t_parents con)
        ((fun r => (rd_path r, rd_id r)) <$> t_reads con) (t_writes con) (t_ts con)).

Lemma verified_denotes result rid : denotes (verified_receipt result rid) (fun v _ => d_verified result rid v).
Proof.
  unfold verified_receipt, d_verified.
  apply (denotes_bind _ _ (fun v _ => _) (fun b v _ => _)); [apply durable_bytes_denotes|]. intros b.
  apply (denotes_bind _ _ (fun v _ => _) (fun con v _ => _)); [apply denotes_pure|]. intros con.
  apply (denotes_bind _ _ (fun v _ => _) (fun _ v _ => _)); [apply require_denotes|]. intros _.
  apply (denotes_bind _ _ (fun v _ => _) (fun _ v _ => _)); [apply require_denotes|]. intros _.
  apply (denotes_bind _ _ (fun v _ => _) (fun _ v _ => _)); [apply require_all_denotes|]. intros _.
  apply (denotes_bind _ _ (fun v _ => _) (fun _ v _ => _)); [apply require_all_denotes|]. intros _.
  apply (denotes_bind _ _ (fun v _ => _) (fun _ v _ => _)); [apply denotes_pure|]. intros _. apply denotes_ret.
Qed.

Lemma d_verified_ok result rid v x : d_verified result rid v = Ok x <-> verified v result rid x.
Proof.
  unfold d_verified, verified, object_at. split.
  - intros (b & Hb%map_err_ok%ok_or_ok & H)%bind_ok. apply bind_ok in H as (con & Hc%map_err_ok & H).
    apply bind_ok in H as ([] & H1%d_require_ok & H). apply bind_ok in H as ([] & H2%d_require_ok & H).
    apply bind_ok in H as ([] & H3%for_each_require & H). apply bind_ok in H as ([] & H4%for_each_require & H).
    apply bind_ok in H as ([] & H5 & [= <-]). rewrite Forall_fmap in H4. exists b, con. split_and!; try done.
    intros oid commit ->. apply disagrees_false. by apply reject_if_ok in H5.
  - intros (b & con & Hb & Hc & H1 & H2 & H3 & H4 & H5 & ->).
    apply bind_ok. exists b. split; [by rewrite Hb|]. apply bind_ok. exists con. split; [by rewrite Hc|].
    do 2 (apply bind_ok; exists tt; split; [by apply d_require_ok|]).
    apply bind_ok. exists tt. split; [by apply for_each_require|].
    apply bind_ok. exists tt. split; [apply for_each_require; by apply Forall_fmap|].
    apply bind_ok. exists tt. split; [|done]. destruct result as [[oid commit]|]; [|done].
    apply reject_if_ok, disagrees_false. by eapply H5.
Qed.

(** What [receipt] reports: the object the spec names is a receipt, or peels to
    a commit that names one, and it is verified. *)
Definition receipt_of v c (spec : str) (x : Receipt) : Prop :=
  exists named ty, d_resolve spec v c = Ok named /\ typed v named ty /\
  match ty with
  | TContribution => verified v None named x
  | TCommit | TSnapshot => exists oid commit rid,
      d_peel spec v c = Ok (oid, commit) /\ c_contrib commit = Some rid /\ verified v (Some (oid, commit)) rid x
  | _ => False
  end.

Definition d_receipt (key : bytes) (now : nat -> Z) (cap : Cap) (spec : str) v c : Result Receipt :=
  _ ← check_spec_read key (now 0%nat) cap spec;
  named ← d_resolve spec v c;
  b ← object_at v named;
  ty ← decode_object_type b;
  match ty with
  | TContribution => d_verified None named v
  | TCommit | TSnapshot =>
      p ← d_peel spec v c;
      rid ← ok_or (c_contrib p.2) (NotFound (bs "{spec} names commit {commit_oid}, which carries no contribution receipt"));
      d_verified (Some p) rid v
  | other => Err (Invalid (bs "{spec} is {other}, which is neither a receipt nor a commit that names one"))
  end.

Lemma receipt_denotes key now cap spec : denotes (receipt key now cap spec) (d_receipt key now cap spec).
Proof.
  assert (denotes ('(commit_oid, commit) ← peel_commit spec;
    contrib ← pure (ok_or (c_contrib commit) (NotFound (bs "{spec} names commit {commit_oid}, which carries no contribution receipt")));
    verified_receipt (Some (commit_oid, commit)) contrib)
    (fun v c => p ← d_peel spec v c;
      rid ← ok_or (c_contrib p.2) (NotFound (bs "{spec} names commit {commit_oid}, which carries no contribution receipt"));
      d_verified (Some p) rid v)) as Hpeel.
  { apply (denotes_bind _ _ (fun v c => _) (fun p v _ => _)); [apply peel_denotes|]. intros [oid commit].
    apply (denotes_bind _ _ (fun v c => _) (fun rid v _ => _)); [apply denotes_pure|]. intros rid. apply verified_denotes. }
  unfold receipt, d_receipt. apply (denotes_bind _ _ (fun v c => _) (fun _ v c => _)); [apply denotes_pure|]. intros _.
  apply (denotes_bind _ _ (fun v c => _) (fun named v c => _)); [apply resolve_denotes|]. intros named.
  apply (denotes_bind _ _ (fun v c => _) (fun b v c => _)); [apply denotes_store, rp_get_raw_verified|]. intros b.
  apply (denotes_bind _ _ (fun v c => _) (fun ty v c => _)); [apply denotes_pure|]. intros ty.
  destruct ty; [apply (denotes_pure (Err _))|apply (denotes_pure (Err _))|exact Hpeel|apply (denotes_pure (Err _))|exact Hpeel|
    apply verified_denotes].
Qed.

Lemma d_receipt_ok key now cap spec v c x :
  d_receipt key now cap spec v c = Ok x <-> check_spec_read key (now 0%nat) cap spec = Ok tt /\ receipt_of v c spec x.
Proof.
  unfold d_receipt, receipt_of. rewrite bind_ok. split.
  - intros ([] & Ha & (named & Hn & H)%bind_ok). split; [done|].
    apply bind_ok in H as (b & Hb & H). apply bind_ok in H as (ty & Hty & H). exists named, ty. split; [done|].
    split; [by unfold typed, type_at; rewrite Hb|].
    assert (forall oid commit rid, d_peel spec v c = Ok (oid, commit) -> c_contrib commit = Some rid -> d_verified (Some (oid, commit)) rid v = Ok x ->
      exists oid commit rid, d_peel spec v c = Ok (oid, commit) /\ c_contrib commit = Some rid /\ verified v (Some (oid, commit)) rid x) as Hp.
    { intros oid commit rid H1 H2 H3%d_verified_ok. by exists oid, commit, rid. }
    destruct ty; try done; [..|by apply d_verified_ok];
      apply bind_ok in H as ([oid commit] & H1 & H); apply bind_ok in H as (rid & H2%ok_or_ok & H); by eapply Hp.
  - intros (Ha & named & ty & Hn & (b & Hb & Hty)%bind_ok & H). exists tt. split; [done|].
    apply bind_ok. exists named. split; [done|]. apply bind_ok. exists b. split; [done|]. apply bind_ok. exists ty. split; [done|].
    destruct ty; try done; [..|by apply d_verified_ok];
      destruct H as (oid & commit & rid & H1 & H2 & H3%d_verified_ok);
      apply bind_ok; exists (oid, commit); (split; [done|]); apply bind_ok; exists rid; cbn [snd]; by rewrite H2.
Qed.

(** The answer is never a panic. *)
Lemma no_panic_receipt key now cap spec v c : no_panic (d_receipt key now cap spec v c).
Proof.
  assert (no_panic (d_resolve spec v c)) as Hr.
  { apply no_panic_bind; [apply no_panic_parse_spec|]. intros [name|id] _; [|done].
    apply no_panic_bind; [auto with forge|]. auto with forge. }
  assert (no_panic (d_peel spec v c)) as Hp.
  { apply no_panic_bind; [done|]. intros oid _. apply no_panic_bind; [auto with forge|]. intros ty _.
    destruct ty; try done.
    - apply no_panic_bind; [|done]. apply no_panic_bind; auto with forge.
    - apply no_panic_bind; [apply no_panic_bind; auto with forge|]. intros s _.
      apply no_panic_bind; [|done]. apply no_panic_bind; auto with forge. }
  assert (forall oids ty, no_panic (for_each (fun oid => d_require oid ty v) oids)) as Hall.
  { intros oids ty. apply for_each_no_panic. intros. auto with forge. }
  assert (forall result rid, no_panic (d_verified result rid v)) as Hv.
  { intros result rid. unfold d_verified. apply no_panic_bind; [apply no_panic_map_err; auto with forge|]. intros b _.
    apply no_panic_bind; [apply no_panic_map_err, contribution_decode_no_panic|]. intros con _.
    do 2 (apply no_panic_bind; [auto with forge|]; intros _ _). do 2 (apply no_panic_bind; [done|]; intros _ _).
    apply no_panic_bind; [destruct result as [[??]|]; auto with forge|]. auto with forge. }
  unfold d_receipt. apply no_panic_bind.
  { apply no_panic_bind; [apply no_panic_parse_spec|]. intros [name|id] _; [apply no_panic_check|].
    case_match; [apply no_panic_check|done]. }
  intros _ _. apply no_panic_bind; [done|]. intros named _. apply no_panic_bind; [auto with forge|]. intros b _.
  apply no_panic_bind; [apply no_panic_decode_object_type|]. intros ty _. destruct ty; try done.
  - apply no_panic_bind; [done|]. intros p _. apply no_panic_bind; [auto with forge|done].
  - apply no_panic_bind; [done|]. intros p _. apply no_panic_bind; [auto with forge|done].
Qed.
End receipts.

(** ** A demo repository

    One blob, one tree, a commit of it, and a checkin's receipt and commit on top, which
    [main] holds. *)

Definition put_or_zero {St} (m : stateM Error St ObjectId) (s : St) : ObjectId * St :=
  let '(r, s) := m s in (match r with Ok id => id | _ => ZERO end, s).

Lemma put_or_zero_ok {St} (m : stateM Error St ObjectId) (s : St) :
  is_ok (m s).1 = true -> m s = (Ok (put_or_zero m s).1, (put_or_zero m s).2).
Proof. unfold put_or_zero. by destruct (m s) as [[id|e|] s']. Qed.

Definition demo_blob := put_or_zero (repo_put_blob_data (bs "hello")) (Store.guard (C:=MapLru) empty_store).
Definition demo_leaf : Tree := mkTree [mkEntry (bs "a") KBlob demo_blob.1 false; mkEntry (bs "b") KBlob demo_blob.1 true].
Definition demo_put := put_or_zero (put_tree demo_leaf) demo_blob.2.
Definition demo_dir : ObjectId := demo_put.1.
Definition demo_base := put_or_zero (repo_put_commit (mkCommit demo_dir [] (bs "anon") (bs "first") 1 false None)) demo_put.2.
Definition demo_pin : ObjectId := demo_base.1.
Definition demo_contribution : Contribution :=
  mkContribution demo_pin demo_dir [demo_pin] [] [bs "/c"] (bs "anon") 2.
Definition demo_batch := put_or_zero (repo_batch_put_contribution demo_contribution) (demo_base.2, repo_begin_publish_batch).
Definition demo_work :=
  put_or_zero (repo_put_commit (mkCommit demo_dir [demo_pin] (bs "anon") (bs "work") 2 false (Some demo_batch.1))) demo_batch.2.1.
Definition demo_objects : Guarded MapLru := demo_work.2.

Definition demo_catalog : Catalog :=
  (run (OpInsertRef 3 (bs "main") demo_work.1 (bs "commit") true false (bs "anon") (bs "init")) empty_catalog).2.
Definition demo_forge : Forge (Guarded MapLru) := mkForge demo_objects demo_catalog.

#[export] Existing Instance sum_hmac.
Definition demo_key : bytes := bs "key".
Definition demo_cap : Cap := match mint_root demo_key with Ok c => c | _ => mkCap [] [] [] ZERO (mkParsed ∅ [] ∅ [] None None false) end.

Lemma adds_inv {X} (inv : X -> Prop) view writable fault (m : stateM Error X ObjectId) enc (x : X) :
  adds inv view writable fault m enc -> inv x -> inv (put_or_zero m x).2 /\ view x ⊆ view (put_or_zero m x).2.
Proof.
  intros Hm Hx. pose proof (Hm x Hx) as H. unfold wp, put_or_zero in *. destruct (m x) as [r x'].
  cbn [fst snd] in *. by destruct H as (? & ? & _).
Qed.

Lemma demo_leaf_wf : wf_tree demo_leaf.
Proof. apply (proj1 (from_canonical_spec (entries demo_leaf) demo_leaf)). vm_compute. reflexivity. Qed.

Lemma demo_tree : rp_inv demo_put.2 /\ ts_holds (TreeStoreLaws:=repo_tree_laws) demo_put.2 demo_dir demo_leaf.
Proof.
  destruct (adds_inv _ _ _ _ _ _ (Store.guard (C:=MapLru) empty_store) (rp_put_blob_data (bs "hello"))) as [H0 _]; [exact empty_store_wf|].
  destruct (put_leaf (TSL:=repo_tree_laws) demo_blob.2 demo_leaf demo_dir demo_put.2) as (H1 & H2 & _);
    [exact H0|exact demo_leaf_wf| | |by split].
  - intros e He. unfold demo_leaf in He. cbn [entries] in He. rewrite !elem_of_cons, elem_of_nil in He.
    destruct He as [->|[->|[]]]; reflexivity.
  - apply (put_or_zero_ok (put_tree demo_leaf) demo_blob.2). vm_compute. reflexivity.
Qed.

Lemma demo_chain :
  closed (TSL:=repo_tree_laws) demo_put.2 demo_dir
  /\ rp_inv demo_base.2 /\ rp_inv demo_objects /\ rp_view demo_put.2 ⊆ rp_view demo_base.2
  /\ rp_view demo_base.2 ⊆ rp_view demo_objects.
Proof.
  destruct (adds_inv _ _ _ _ _ _ (Store.guard (C:=MapLru) empty_store) (rp_put_blob_data (bs "hello"))) as [H0 _]; [exact empty_store_wf|].
  destruct (adds_inv _ _ _ _ _ _ demo_blob.2 (rp_put_tree demo_leaf demo_leaf_wf)) as [HT _]; [exact H0|].
  destruct (adds_inv _ _ _ _ _ _ demo_put.2 (rp_put_commit (mkCommit demo_dir [] (bs "anon") (bs "first") 1 false None)))
    as [H1 S1]; [exact HT|].
  destruct (adds_inv _ _ _ _ _ _ (demo_base.2, repo_begin_publish_batch) (rp_batch_put_contribution demo_contribution))
    as [H2 S2]; [by apply rp_begin|].
  destruct (adds_inv _ _ _ _ _ _ demo_batch.2.1
    (rp_put_commit (mkCommit demo_dir [demo_pin] (bs "anon") (bs "work") 2 false (Some demo_batch.1)))) as [H3 S3];
    [exact (rp_batch _ H2)|].
  split; [|split; [exact H1|]; split; [exact H3|]; split; [exact S1|etrans; [exact S2|exact S3]]].
  apply (put_leaf (TSL:=repo_tree_laws) demo_blob.2 demo_leaf demo_dir demo_put.2); [exact H0|exact demo_leaf_wf| |].
  - intros e He. unfold demo_leaf in He. cbn [entries] in He. rewrite !elem_of_cons, elem_of_nil in He.
    destruct He as [->|[->|[]]]; reflexivity.
  - apply (put_or_zero_ok (put_tree demo_leaf) demo_blob.2). vm_compute. reflexivity.
Qed.

Lemma demo_forge_inv : f_inv demo_forge.
Proof. change (f_inv demo_forge) with (rp_inv demo_objects). exact (proj1 (proj2 (proj2 demo_chain))). Qed.

(** ** Property *)

(** C22: [receipt] answers with a receipt exactly when the caller may read the
    spec and the spec names a receipt, or a commit with one, that is verified:
    it decodes, every object it names is stored with its type, and the commit
    it was reached through has its tree, parents and agent. It only looks, and
    never panics. *)
Theorem receipt_is_verified {St B} `{RL : RepoLaws St B} `{HM : Hmac} (key : bytes) (now : nat -> Z) (cap : Cap)
    (spec : str) (f f' : Forge St) (r : Result Receipt)
    (Hf : f_inv f) (E : receipt key now cap spec f = (r, f')) :
  same f f' /\ r <> Panic
  /\ forall x, r = Ok x <-> check_spec_read key (now 0%nat) cap spec = Ok tt /\ receipt_of (f_view f) (meta f) spec x.
Proof.
  destruct (wp_elim _ _ _ _ _ (receipt_denotes key now cap spec f Hf) E) as [Hs ->].
  split; [exact Hs|]. split; [apply no_panic_receipt|]. intros x. apply d_receipt_ok.
Qed.

Lemma receipt_is_verified_witness :
  exists x, receipt_of (f_view demo_forge) (meta demo_forge) (bs "ref:main") x.
Proof.
  destruct (receipt demo_key (fun _ => 5) demo_cap (bs "ref:main") demo_forge) as [r f'] eqn:E.
  assert (is_ok r = true) as Hr.
  { change r with (r, f').1. rewrite <- E. vm_compute. reflexivity. }
  destruct r as [x|e|]; [|discriminate Hr..]. exists x.
  exact (proj2 (proj1 (proj2 (proj2 (receipt_is_verified demo_key (fun _ => 5) demo_cap (bs "ref:main") demo_forge f'
    (Ok x) demo_forge_inv E)) x) eq_refl)).
Defined.
