(* ===== verification/Workspace.v ===== *)
(** * Workspaces (crates/forge-api/src/workspace.rs)

    Sessions as an agent uses them: mounts pinned to a base, reads that are
    recorded, staged writes, moves, and the checkin that publishes one mount.
    The repository is a [Repo] with its catalog; [now] are the successive
    readings of the clock by one operation, [ulid] the identifiers it mints. *)

From S2P Require Import Prelude RustStd Types Tree TreeStore Object Contribution Cap History Overlay Namespace Catalog Refs Sessions Authority Plane Forge.

(** What one [rename] staged. *)
Record Renamed := mkRenamed {
  rn_from : str;
  rn_to : str;
  rn_kind : str;
  rn_source : ObjectId;
  rn_entries : Z
}.

(** ** Paths and names *)

(** [s.rfind('/')]. *)
Fixpoint rfind_slash (s : str) : option nat :=
  match s with
  | [] => None
  | b :: s' => match rfind_slash s' with
               | Some i => Some (S i)
               | None => if is_slash b then Some 0%nat else None
               end
  end.

(** Each turn shortens the prefix, so its length is enough fuel. *)
Fixpoint ancestor_shadows (fuel : nat) (ov : Overlay) (prefix : str) : bool :=
  match fuel with
  | O => false
  | S fuel' =>
      match rfind_slash prefix with
      | None => false
      | Some cut =>
          let prefix := take cut prefix in
          bool_decide (is_Some (ov !! prefix)) || ancestor_shadows fuel' ov prefix
      end
  end.

(** The session's own overlay decides [rel]. *)
Definition overlay_shadows (ov : Overlay) (rel : str) : bool :=
  bool_decide (is_Some (ov !! rel)) || ancestor_shadows (S (length rel)) ov rel.

Definition is_under (path ancestor : str) : bool :=
  bytes_eqb path ancestor
  || match strip_prefix path ancestor with Some rest => starts_with rest (bs "/") | None => false end.

Definition contribution_path (mount rel : str) : str :=
  if is_nil rel then mount
  else if bytes_eqb mount (bs "/") then bs "/" ++ rel
  else reverse (drop_while is_slash (reverse mount)) ++ bs "/" ++ rel.

Definition find_mount (ms : list Mount) (path : str) : option Mount :=
  List.find (fun m => bytes_eqb (m_path m) path) ms.

(** The mount a verb names, not one its path falls under. *)
Definition named_mount (ms : list Mount) (ns requested : str) : Result Mount :=
  want ← normalize_abs requested;
  ok_or (List.find (fun m => bytes_eqb (m_path m) want
                        || match normalize_abs (m_path m) with Ok p => bytes_eqb p want | _ => false end) ms)
    (NotFound (bs "session {ns} has no mount at {want}; this session mounts: {known}")).

(** [v.dedup()]. *)
Fixpoint dedup (l : list str) : list str :=
  match l with
  | [] => []
  | x :: l' => match l' with
               | y :: _ => if bytes_eqb x y then dedup l' else x :: dedup l'
               | [] => [x]
               end
  end.

(** Some [v.windows(2)] names one path twice. *)
Fixpoint repeats_path (l : list ContributionRead) : bool :=
  match l with
  | [] => false
  | x :: l' => match l' with
               | y :: _ => bytes_eqb (rd_path x) (rd_path y) || repeats_path l'
               | [] => false
               end
  end.

(** The [Contribution] path bound. *)
Definition MAX_MOVED_PATH_BYTES : Z := 4096.

(** ** Lookups in a tree *)

Section trees.
Context {St : Type} `{TS : TreeStore St}.

(** [parts] still to go, from the tree [cur]. *)
Fixpoint entry_loop (cur : ObjectId) (parts : list str) : stateM Error St (option (EntryKind * ObjectId)) :=
  match parts with
  | [] => mret None
  | part :: rest =>
      t ← get_tree cur;
      match Tree_get t part with
      | None => mret None
      | Some e =>
          match rest with
          | [] => mret (Some (e_kind e, e_id e))
          | _ => match e_kind e with
                 | KTree => entry_loop (e_id e) rest
                 | KBlob => mret None
                 end
          end
      end
  end.

Definition entry_at (tree : ObjectId) (rel : str) : stateM Error St (option (EntryKind * ObjectId)) :=
  parts ← pure (split_path rel); entry_loop tree parts.

Definition current_at (tree : ObjectId) (rel : str) : stateM Error St Observed :=
  if is_nil rel then mret (OTree tree)
  else
    e ← entry_at tree rel;
    mret (match e with
          | Some (KBlob, id) => OBlob id
          | Some (KTree, id) => OTree id
          | None => OAbsent
          end).

Definition observed_at (ov : Overlay) (tree : ObjectId) (rel : str) : stateM Error St Observed :=
  if negb (is_nil rel) && overlay_shadows ov rel then
    mret (match ov !! rel with
          | Some (Some (id, _)) => OBlob id
          | Some None | None => OAbsent
          end)
  else current_at tree rel.

Abbreviation Files := (gmap str (ObjectId * bool)).

(** One entry of a directory at [at_]. *)
Definition collect_entry (at_ : str) (acc : list (ObjectId * str) * Files) (e : TreeEntry)
    : Result (list (ObjectId * str) * Files) :=
  let '(pending, out) := acc in
  let path := if is_nil at_ then e_name e else at_ ++ bs "/" ++ e_name e in
  _ ← reject_if (MAX_MOVED_PATH_BYTES <? len path)
        (Corrupt (bs "tree path exceeds {MAX_MOVED_PATH_BYTES} bytes under the moved directory"));
  _ ← split_path path;
  match e_kind e with
  | KBlob => Ok (pending, <[path := (e_id e, e_exec e)]> out)
  | KTree => Ok ((e_id e, path) :: pending, out)
  end.

(** The pending directories, the next one first; one unit of fuel for each. *)
Fixpoint collect_loop (fuel : nat) (pending : list (ObjectId * str)) (out : Files) : stateM Error St Files :=
  match pending with
  | [] => mret out
  | (id, at_) :: pending =>
      match fuel with
      | O => panic
      | S fuel' =>
          t ← get_tree id;
          '(pending, out) ← pure (try_fold (collect_entry at_) (pending, out) (entries t));
          collect_loop fuel' pending out
      end
  end.

Definition collect_blobs (fuel : nat) (tree : ObjectId) (prefix : str) (out : Files) : stateM Error St Files :=
  collect_loop fuel [(tree, prefix)] out.
End trees.

(** The effect of one overlay row under the moved directory [prefix]. *)
Definition move_row_under (prefix : str) (files : gmap str (ObjectId * bool)) (kv : str * OverlayOp)
    : gmap str (ObjectId * bool) :=
  match strip_prefix kv.1 prefix with
  | None => files
  | Some rest =>
      match kv.2 with
      | Some f => <[rest := f]> files
      | None => filter (fun pf => Is_true (negb (starts_with pf.1 (rest ++ bs "/")))) (delete rest files)
      end
  end.

(** ** The operations *)

Section workspace.
Context {St B : Type} `{R : Repo St B} `{HM : Hmac}.

Abbreviation forge := (stateM Error (Forge St)).

Definition session_open (key : bytes) (now : nat -> Z) (ulid : nat -> str) (cap : Cap) (from : str) : forge str :=
  _ ← pure (check_spec_read key (now 0%nat) cap from);
  '(cid, _) ← peel_commit from;
  let ns_id := ulid 0%nat in
  let agent := sanitize_agent (agent_id cap) in
  let live := bs "heads/agents/" ++ agent ++ bs "/" ++ ns_id in
  _ ← pure (check key (now 1%nat) cap Branch (Some live));
  let mount_main := is_ok (allows cap Read (Some (bs "main")) (now 2%nat)) in
  _ ← on_meta (create_session (now 3%nat) ns_id (agent_id cap) cid live mount_main);
  mret ns_id.

(** *** Mounts *)

Definition refuse_rw_mount_of_protected_ref (name : str) : forge unit :=
  row ← on_meta (get_ref name);
  match row with
  | None => mret tt
  | Some row => pure (reject_if (ref_protected row) (Denied (bs "cannot mount {spec} read-write at {path}: ref {name} is protected")))
  end.

Definition refuse_retargeting_staged_work (ns path spec : str) (rw : bool) : forge unit :=
  existing ← on_meta (get_mount ns path);
  match existing with
  | None => mret tt
  | Some existing =>
      let retarget := negb (bytes_eqb (mr_spec existing) spec) in
      let demote := bytes_eqb (mr_mode existing) (bs "rw") && negb rw in
      if negb retarget && negb demote then mret tt
      else
        staged ← on_meta (overlay_list ns path);
        pure (reject_if (negb (len staged =? 0))
          (Invalid (bs "mount {path} holds {staged} staged {noun} written against {}; {change} would send that work somewhere it was never written for")))
  end.

(** The authority a mount needs, and the read-write mounts that could never be published. *)
Definition mount_authority (key : bytes) (now : nat -> Z) (cap : Cap) (spec : str) (rw : bool) : forge unit :=
  if rw then
    s ← pure (parse_spec spec);
    match s with
    | SRef n =>
        _ ← pure (check key (now 0%nat) cap Write (Some n));
        refuse_rw_mount_of_protected_ref n
    | SOid _ => throw (Denied (bs "cannot mount {spec} read-write at {path}: an oid: spec names immutable bytes with no ref to advance"))
    end
  else pure (check_spec_read key (now 0%nat) cap spec).

Definition mount (key : bytes) (now : nat -> Z) (cap : Cap) (ns path spec : str) (rw : bool) : forge unit :=
  _ ← on_meta (require_ns cap ns);
  path ← pure (normalize_abs path);
  let mode := if rw then bs "rw" else bs "ro" in
  _ ← mount_authority key now cap spec rw;
  oid ← resolve_spec_oid spec;
  object_type ← on_store (repo_object_type oid);
  _ ← pure (reject_if (rw && negb (bool_decide (object_type = TCommit)))
        (Denied (bs "cannot mount {spec} read-write at {path}: it names a {}, and only a commit ref can be advanced by checkin")));
  _ ← refuse_retargeting_staged_work ns path spec rw;
  let base := if rw then Some oid else None in
  on_meta (insert_mount ns path spec mode base).

Definition session_mounts (ns : str) : forge (list Mount) :=
  rows ← on_meta (list_mounts ns); mret (Mount_from <$> rows).

(** The tree a mountable object exposes. *)
Definition tree_of (oid : ObjectId) : forge ObjectId :=
  ty ← on_store (repo_object_type oid);
  match ty with
  | TCommit => c ← on_store (repo_get_commit oid); mret (c_tree c)
  | TSnapshot => s ← on_store (repo_get_snapshot oid); mret (s_tree s)
  | TTree => mret oid
  | other => throw (Invalid (bs "cannot mount {}"))
  end.

Definition mount_tree (spec : str) : forge ObjectId := oid ← resolve_spec_oid spec; tree_of oid.

(** The tree a session sees through a mount: its own base when it has one. *)
Definition session_mount_tree (m : Mount) : forge ObjectId :=
  match m_mode m, m_base_oid m with
  | Rw, Some base => tree_of base
  | _, _ => mount_tree (m_spec m)
  end.

(** *** Reads *)

Definition Forge_ls (key : bytes) (now : nat -> Z) (ro : bool) (cap : Cap) (ns path : str)
    : forge (list (str * str * str * bool)) :=
  _ ← on_meta (require_ns cap ns);
  ms ← session_mounts ns;
  m ← pure (longest_mount ms path);
  _ ← pure (check_spec_read key (now 0%nat) cap (m_spec m));
  rel ← pure (rel_of (m_path m) path);
  tree ← session_mount_tree m;
  ov ← on_meta (overlay_list ns (m_path m));
  seen ← on_store (observed_at (overlay_map ov) tree rel);
  _ ← on_meta (observe ro ns (m_path m) rel seen);
  ents ← on_store (ls ov tree rel);
  mret ((fun e => (e_name e, dirent_kind e, hex (e_id e), e_exec e)) <$> ents).

Definition Forge_read (key : bytes) (now : nat -> Z) (ro : bool) (cap : Cap) (ns path : str) : forge bytes :=
  _ ← on_meta (require_ns cap ns);
  ms ← session_mounts ns;
  m ← pure (longest_mount ms path);
  _ ← pure (check_spec_read key (now 0%nat) cap (m_spec m));
  ov ← on_meta (overlay_list ns (m_path m));
  tree ← session_mount_tree m;
  rel ← pure (rel_of (m_path m) path);
  seen ← on_store (observed_at (overlay_map ov) tree rel);
  _ ← on_meta (observe ro ns (m_path m) rel seen);
  r ← on_store (resolve ms ov tree path);
  match r with
  | RBlob id _ => on_store (repo_get_blob_data id)
  | RTree _ => throw (Invalid (bs "read of directory"))
  end.

(** *** Staged writes *)

(** The authority to write through a mount. *)
Definition check_write (key : bytes) (now : Z) (cap : Cap) (m : Mount) : Result unit :=
  s ← parse_spec (m_spec m);
  match s with
  | SRef n => check key now cap Write (Some n)
  | SOid _ => check key now cap Write None
  end.

(** The writable mount of a path. *)
Definition writable_mount (key : bytes) (now : nat -> Z) (cap : Cap) (ns path : str) : forge Mount :=
  _ ← on_meta (require_ns cap ns);
  ms ← session_mounts ns;
  m ← pure (longest_mount ms path);
  _ ← pure (reject_if (negb (bool_decide (m_mode m = Rw))) (Denied (bs "{} is read-only")));
  _ ← pure (check_write key (now 0%nat) cap m);
  mret m.

Definition Forge_write (key : bytes) (now : nat -> Z) (cap : Cap) (ns path : str) (data : bytes) (exec : bool) : forge ObjectId :=
  m ← writable_mount key now cap ns path;
  id ← on_store (repo_put_blob_data data);
  rel ← pure (rel_of (m_path m) path);
  _ ← pure (reject_if (is_nil rel) (Invalid (bs "cannot write mount root")));
  _ ← on_meta (overlay_upsert ns (m_path m) rel (Some id) exec);
  mret id.

Definition Forge_delete (key : bytes) (now : nat -> Z) (cap : Cap) (ns path : str) : forge unit :=
  m ← writable_mount key now cap ns path;
  rel ← pure (rel_of (m_path m) path);
  _ ← pure (reject_if (is_nil rel) (Invalid (bs "cannot delete mount root")));
  on_meta (overlay_upsert ns (m_path m) rel None false).

(** Where a move may go. *)
Definition rename_paths (rel_from rel_to : str) : Result unit :=
  _ ← reject_if (is_nil rel_from || is_nil rel_to) (Invalid (bs "cannot rename a mount root: {} is the mount itself"));
  _ ← reject_if (bytes_eqb rel_from rel_to) (Invalid (bs "rename source and destination are the same path: {from_abs}"));
  _ ← reject_if (is_under rel_to rel_from) (Invalid (bs "cannot move {from_abs} into itself at {to_abs}"));
  reject_if (is_under rel_from rel_to)
    (Invalid (bs "cannot move {from_abs} onto its own ancestor {to_abs}: the destination tombstone would delete the source")).

(** The files below a directory that is moved, as the session sees them. *)
Definition moved_files (fuel : nat) (ov : Overlay) (id : ObjectId) (rel_from rel_to : str)
    : stateM Error St (list (str * ObjectId * bool)) :=
  files ← collect_blobs fuel id [] ∅;
  let files := fold_left (move_row_under (rel_from ++ bs "/")) (btree_list ov) files in
  mret ((fun kv => (rel_to ++ bs "/" ++ kv.1, kv.2.1, kv.2.2)) <$> btree_list files).

Definition rename (fuel : nat) (key : bytes) (now : nat -> Z) (ro : bool) (cap : Cap) (ns from to : str)
    (expect : option ObjectId) : forge Renamed :=
  _ ← on_meta (require_ns cap ns);
  ms ← session_mounts ns;
  from_abs ← pure (normalize_abs from);
  to_abs ← pure (normalize_abs to);
  m ← pure (longest_mount ms from_abs);
  dest_mount ← pure (longest_mount ms to_abs);
  _ ← pure (reject_if (negb (bytes_eqb (m_path m) (m_path dest_mount)))
        (Invalid (bs "rename crosses mounts: {from_abs} resolves through {} and {to_abs} through {}")));
  _ ← pure (reject_if (negb (bool_decide (m_mode m = Rw))) (Denied (bs "{} is read-only")));
  _ ← pure (check_spec_read key (now 0%nat) cap (m_spec m));
  _ ← pure (check_write key (now 1%nat) cap m);
  rel_from ← pure (rel_of (m_path m) from_abs);
  rel_to ← pure (rel_of (m_path m) to_abs);
  _ ← pure (rename_paths rel_from rel_to);
  rows ← on_meta (overlay_list ns (m_path m));
  let ov := overlay_map rows in
  tree ← session_mount_tree m;
  seen ← on_store (observed_at ov tree rel_from);
  _ ← on_meta (observe ro ns (m_path m) rel_from seen);
  r ← on_store (resolve ms rows tree from_abs);
  '(kind, source, dest) ← match r with
    | RBlob id exec => mret (bs "blob", id, [(rel_to, id, exec)])
    | RTree id => dest ← on_store (moved_files fuel ov id rel_from rel_to); mret (bs "tree", id, dest)
    end;
  _ ← pure (match expect with
            | Some want => reject_if (negb (bool_decide (want = source))) (StaleObservation from_abs (hex want) (hex source))
            | None => Ok tt
            end);
  _ ← on_meta (overlay_rename ns (m_path m) rel_from rel_to dest);
  mret (mkRenamed from_abs to_abs kind source (len dest)).

(** *** Checkin *)

(** One recorded observation, against what its mount shows now.  Each
    observing mount's overlay is loaded once. *)
Definition check_observation (ns : str) (ms : list Mount) (overlays : gmap str Overlay) (obs : ObservationRow)
    : forge (gmap str Overlay) :=
  match find_mount ms (ob_mount obs) with
  | None => mret overlays
  | Some om =>
      '(mount_ov, overlays) ← match overlays !! m_path om with
        | Some ov => mret (ov, overlays)
        | None =>
            rows ← on_meta (overlay_list ns (m_path om));
            mret (overlay_map rows, <[m_path om := overlay_map rows]> overlays)
        end;
      if overlay_shadows mount_ov (ob_path obs) then mret overlays
      else
        tree ← session_mount_tree om;
        found ← on_store (current_at tree (ob_path obs));
        if bool_decide (found = ob_seen obs) then mret overlays
        else throw (StaleObservation (ob_mount obs ++ bs ":/" ++ ob_path obs)
                      (Observed_describe (ob_seen obs)) (Observed_describe found))
  end.

Definition check_observations (ns : str) (ms : list Mount) : forge unit :=
  rows ← on_meta (observations ns);
  _ ← m_fold (check_observation ns ms) ∅ rows;
  mret tt.

(** Does the overlay staged under [path] fold to anything but that mount's base? *)
Definition mount_overlay_changes_its_base (ns path : str) (ms : list Mount) (batch : B) : forge (bool * B) :=
  match find_mount ms path with
  | None => mret (true, batch)
  | Some om =>
      match m_base_oid om with
      | None => mret (true, batch)
      | Some base =>
          rows ← on_meta (overlay_list ns path);
          match rows with
          | [] => mret (false, batch)
          | _ =>
              c ← on_store (repo_get_commit base);
              '(folded, batch) ← in_batch batch (apply_overlay (Some (c_tree c)) (overlay_map rows));
              mret (negb (bool_decide (folded = c_tree c)), batch)
          end
      end
  end.

(** The mounts with real work among [l]. *)
Fixpoint stranded_mounts (ns : str) (ms : list Mount) (batch : B) (l : list (str * Z)) : forge (list (str * Z) * B) :=
  match l with
  | [] => mret ([], batch)
  | (other, count) :: l' =>
      '(real, batch) ← mount_overlay_changes_its_base ns other ms batch;
      '(rest, batch) ← stranded_mounts ns ms batch l';
      mret (if (real : bool) then (other, count) :: rest else rest, batch)
  end.

(** Nothing to publish: refused while another mount holds work. *)
Definition checkin_noop (ns : str) (ms : list Mount) (m : Mount) (ref_name : str) (pin head : ObjectId) (batch : B)
    : forge CasResult :=
  outside ← on_meta (overlay_mounts_outside ns (m_path m));
  '(stranded, batch) ← stranded_mounts ns ms batch outside;
  _ ← pure (reject_if (match stranded with [] => false | _ => true end)
        (Invalid (bs "checkin {} has nothing to publish, but session {ns} holds staged work under mounts it does not publish: {named}")));
  _ ← in_batch batch repo_batch_finish;
  _ ← on_meta (complete_noop_session ns (m_path m) pin);
  mret (Noop ref_name head).

(** The blob reads of a receipt, in order. *)
Definition receipt_reads (obs : list ObservationRow) : list ContributionRead :=
  sort_by_key rd_path (omap (fun o => match ob_seen o with
    | OBlob id => Some (mkRead (contribution_path (ob_mount o) (ob_path o)) id)
    | OTree _ | OAbsent => None
    end) obs).

Definition receipt_writes (m : Mount) (rows : list OverlayRow) : list str :=
  dedup (sort_by_key (fun p => p) ((fun row => contribution_path (m_path m) (or_path row)) <$> rows)).

(** The receipt and the commit of a checkin, and the compare-and-swap that
    publishes it.  [others] is what other processes commit before it. *)
Definition checkin_publish (now : nat -> Z) (ulid : nat -> str) (others : Catalog -> Catalog) (cap : Cap)
    (ns : str) (m : Mount) (ref_name msg : str) (pin base_tree new_tree : ObjectId) (ov_rows : list OverlayRow)
    (obs : list ObservationRow) (batch : B) : forge CasResult :=
  let reads := receipt_reads obs in
  _ ← pure (reject_if (repeats_path reads) (Invalid (bs "ambiguous contribution read path {}")));
  let writes := receipt_writes m ov_rows in
  let ts := now 1%nat in
  let contribution := mkContribution pin new_tree [pin] reads writes (agent_id cap) ts in
  '(contribution_oid, batch) ← in_batch batch (repo_batch_put_contribution contribution);
  let commit := mkCommit new_tree [pin] (agent_id cap) msg ts false (Some contribution_oid) in
  '(cid, batch) ← in_batch batch (repo_batch_put_commit commit);
  _ ← in_batch batch repo_batch_finish;
  intro_oids ← on_store (repo_collect_intros (Some base_tree) new_tree);
  _ ← on_meta (change others);
  on_meta (cas_ref_session (now 2%nat) (ulid 0%nat) ref_name pin cid (agent_id cap) (agent_id cap) ns (m_path m) intro_oids).

(** The ref a mount publishes to. *)
Definition mount_ref (m : Mount) : Result str :=
  s ← parse_spec (m_spec m);
  match s with SRef n => Ok n | SOid _ => Err (Invalid (bs "cannot checkin an oid mount")) end.

Definition checkin (key : bytes) (now : nat -> Z) (ulid : nat -> str) (others : Catalog -> Catalog) (cap : Cap)
    (ns mount msg : str) : forge CasResult :=
  _ ← on_meta (require_ns cap ns);
  ms ← session_mounts ns;
  m ← pure (named_mount ms ns mount);
  _ ← pure (reject_if (negb (bool_decide (m_mode m = Rw))) (Denied (bs "checkin on ro mount")));
  ref_name ← pure (mount_ref m);
  _ ← pure (check key (now 0%nat) cap Write (Some ref_name));
  pin ← pure (ok_or (m_base_oid m) InvalidBase);
  row ← on_meta (get_ref ref_name);
  row ← pure (ok_or row (NotFound ref_name));
  base_commit ← on_store (repo_get_commit pin);
  ov_rows ← on_meta (overlay_list ns (m_path m));
  obs ← on_meta (observations ns);
  let ov := overlay_map ov_rows in
  _ ← check_observations ns ms;
  '(new_tree, batch) ← in_batch repo_begin_publish_batch (apply_overlay (Some (c_tree base_commit)) ov);
  if bool_decide (new_tree = c_tree base_commit) && bool_decide (pin = ref_oid row) then
    checkin_noop ns ms m ref_name pin (ref_oid row) batch
  else
    checkin_publish now ulid others cap ns m ref_name msg pin (c_tree base_commit) new_tree ov_rows obs batch.
End workspace.
