(* ===== verification/WorkspaceReads.v ===== *)
(** * What a session sees (crates/forge-api/src/workspace.rs)

    The reads of [Workspace] as functions of the object files and the catalog:
    the tree a mount shows, the entry at a path, the observation a read
    records and the check a checkin makes of it.  None of them changes what
    is stored. *)

From S2P Require Import Prelude RustStd Types Tree TreeStore Object Contribution Cap History Overlay Namespace Catalog Refs Sessions CatAudit Events Authority Plane Forge Workspace.

(** ** Queries of the catalog *)

(** [m] leaves every table as it is. *)
Definition query {A} (m : db A) : Prop := forall c, m c = ((m c).1, c).

Lemma query_pure {A} (r : Result A) : query (pure r).
Proof. done. Qed.
Lemma query_ret {A} (a : A) : query (mret a).
Proof. done. Qed.
Lemma query_throw {A} e : query (throw e : db A).
Proof. done. Qed.
Lemma query_refuse b e : query (refuse_if b e).
Proof. by destruct b. Qed.
Lemma query_tables : query get_tables.
Proof. done. Qed.
Lemma query_bind {A A'} (m : db A) (k : A -> db A') : query m -> (forall a, query (k a)) -> query (m ≫= k).
Proof.
  intros Hm Hk c. unfold mbind, stateM_bind. rewrite (Hm c). destruct (m c).1 as [a|e|]; cbn; [apply Hk|done..].
Qed.
Create HintDb query.
#[export] Hint Resolve query_pure query_ret query_throw query_refuse query_tables query_bind : query.

Lemma query_require_ns cap ns : query (require_ns cap ns).
Proof. unfold require_ns, get_namespace. auto 10 with query. Qed.
Lemma query_get_ref name : query (get_ref name).
Proof. unfold get_ref, select_ref. auto with query. Qed.
Lemma query_list_refs : query list_refs.
Proof. by intros c. Qed.
Lemma query_list_mounts ns : query (list_mounts ns).
Proof. unfold list_mounts. auto with query. Qed.
Lemma query_get_mount ns path : query (get_mount ns path).
Proof. unfold get_mount. auto with query. Qed.
Lemma query_overlay_list ns path : query (overlay_list ns path).
Proof. unfold overlay_list. auto with query. Qed.
Lemma query_observations ns : query (observations ns).
Proof. unfold observations. auto with query. Qed.
Lemma query_outside ns path : query (overlay_mounts_outside ns path).
Proof. unfold overlay_mounts_outside. auto with query. Qed.
#[export] Hint Resolve query_require_ns query_get_ref query_list_mounts query_get_mount query_overlay_list
  query_observations query_outside : query.

(** The rows the overlay of a mount holds. *)
Definition staged_rows (c : Catalog) (ns path : str) : list OverlayRow :=
  (fun kv => mkOverlayRow kv.1.2 kv.2.1 kv.2.2)
    <$> filter (fun kv => Is_true (of_mount ns path kv.1)) (map_to_list (overlay_rows c)).

Definition mounts_of (c : Catalog) (ns : str) : list Mount :=
  Mount_from <$> ((fun kv => mount_row kv.1.2 kv.2) <$> filter (fun kv => kv.1.1 = ns) (map_to_list (mounts c))).

Lemma overlay_list_run ns path c : overlay_list ns path c = (Ok (staged_rows c ns path), c).
Proof. done. Qed.

Section reads.
Context {St B : Type} `{RL : RepoLaws St B} `{HM : Hmac}.
Implicit Types (f : Forge St) (v : gmap ObjectId bytes) (c : Catalog).

Lemma denotes_query {A} (m : db A) : query m -> denotes (St:=St) (on_meta m) (fun _ c => (m c).1).
Proof. intros Hm. by apply denotes_meta. Qed.

Lemma mounts_denotes ns : denotes (St:=St) (session_mounts ns) (fun _ c => Ok (mounts_of c ns)).
Proof.
  eapply denotes_ext.
  - unfold session_mounts. apply denotes_bind; [apply denotes_query; auto with query|]. intros rows. apply denotes_ret.
  - done.
Qed.

(** ** The tree of a mount *)

Definition d_tree_of (oid : ObjectId) v : Result ObjectId :=
  ty ← type_at v oid;
  match ty with
  | TCommit => k ← (b ← object_at v oid; Commit_decode b); Ok (c_tree k)
  | TSnapshot => s ← (b ← object_at v oid; Snapshot_decode b); Ok (s_tree s)
  | TTree => Ok oid
  | other => Err (Invalid (bs "cannot mount {}"))
  end.

Lemma tree_of_denotes oid : denotes (tree_of (St:=St) oid) (fun v _ => d_tree_of oid v).
Proof.
  unfold tree_of, d_tree_of.
  apply (denotes_bind _ _ (fun v _ => _) (fun ty v _ => _)); [apply denotes_store, rp_object_type|]. intros ty.
  destruct ty; try apply (denotes_pure (Err _)); [apply denotes_ret| |].
  - apply (denotes_bind _ _ (fun v _ => _) (fun k v _ => _)); [apply denotes_store, rp_get_commit|]. intros k. apply denotes_ret.
  - apply (denotes_bind _ _ (fun v _ => _) (fun s v _ => _)); [apply denotes_store, rp_get_snapshot|]. intros s. apply denotes_ret.
Qed.

Definition d_mount_tree (m : Mount) v c : Result ObjectId :=
  match m_mode m, m_base_oid m with
  | Rw, Some base => d_tree_of base v
  | _, _ => oid ← d_resolve (m_spec m) v c; d_tree_of oid v
  end.

Lemma mount_tree_denotes m : denotes (session_mount_tree (St:=St) m) (d_mount_tree m).
Proof.
  assert (denotes (mount_tree (St:=St) (m_spec m)) (fun v c => oid ← d_resolve (m_spec m) v c; d_tree_of oid v)) as Hs.
  { unfold mount_tree. apply (denotes_bind _ _ (fun v c => _) (fun oid v c => _)); [apply resolve_denotes|].
    intros oid. apply tree_of_denotes. }
  unfold session_mount_tree, d_mount_tree. destruct (m_mode m); [done|]. destruct (m_base_oid m); [apply tree_of_denotes|done].
Qed.

(** ** The entry at a path *)

Fixpoint d_entry_loop v (cur : ObjectId) (parts : list str) : Result (option (EntryKind * ObjectId)) :=
  match parts with
  | [] => Ok None
  | part :: rest =>
      t ← (b ← object_at v cur; Tree_decode b);
      match Tree_get t part with
      | None => Ok None
      | Some e =>
          match rest with
          | [] => Ok (Some (e_kind e, e_id e))
          | _ => match e_kind e with KTree => d_entry_loop v (e_id e) rest | KBlob => Ok None end
          end
      end
  end.

Definition d_current v (tree : ObjectId) (rel : str) : Result Observed :=
  if is_nil rel then Ok (OTree tree)
  else
    parts ← split_path rel;
    e ← d_entry_loop v tree parts;
    Ok (match e with Some (KBlob, id) => OBlob id | Some (KTree, id) => OTree id | None => OAbsent end).

Definition d_observed v (ov : Overlay) (tree : ObjectId) (rel : str) : Result Observed :=
  if negb (is_nil rel) && overlay_shadows ov rel then
    Ok (match ov !! rel with Some (Some (id, _)) => OBlob id | Some None | None => OAbsent end)
  else d_current v tree rel.

Lemma entry_loop_answers parts : forall cur,
  answers rp_inv rp_view rp_writable (entry_loop (St:=St) cur parts) (fun v => d_entry_loop v cur parts).
Proof.
  induction parts as [|part rest IH]; intros cur; cbn [entry_loop d_entry_loop]; [apply answers_ret|].
  apply answers_bind with (r' := fun t v => match Tree_get t part with
    | None => Ok None
    | Some e => match rest with [] => Ok (Some (e_kind e, e_id e))
                | _ => match e_kind e with KTree => d_entry_loop v (e_id e) rest | KBlob => Ok None end end
    end); [apply rp_get_tree|].
  intros t. destruct (Tree_get t part) as [e|]; [|apply answers_ret].
  destruct rest as [|p rest]; [apply answers_ret|]. destruct (e_kind e); [apply answers_ret|apply IH].
Qed.

Lemma current_answers tree rel :
  answers rp_inv rp_view rp_writable (current_at (St:=St) tree rel) (fun v => d_current v tree rel).
Proof.
  unfold current_at, d_current. destruct (is_nil rel); [apply answers_ret|]. unfold entry_at.
  intros s Hs. eapply wp_mono.
  - apply (answers_bind rp_inv rp_view rp_writable _ _ (fun v => parts ← split_path rel; d_entry_loop v tree parts)
      (fun e v => Ok (match e with Some (KBlob, id) => OBlob id | Some (KTree, id) => OTree id | None => OAbsent end))); [| |done].
    + apply (answers_bind rp_inv rp_view rp_writable _ _ (fun _ => split_path rel) (fun parts v => d_entry_loop v tree parts)).
      * apply answers_pure.
      * intros parts. apply entry_loop_answers.
    + intros e. apply answers_ret.
  - intros r s' (H1 & H2 & H3 & ->). split_and!; try done. by destruct (split_path rel).
Qed.

Lemma observed_answers ov tree rel :
  answers rp_inv rp_view rp_writable (observed_at (St:=St) ov tree rel) (fun v => d_observed v ov tree rel).
Proof.
  unfold observed_at, d_observed. destruct (negb _ && _); [apply answers_ret|apply current_answers].
Qed.

(** ** The check of the observations *)

Lemma no_panic_d_resolve spec v c : no_panic (d_resolve spec v c).
Proof.
  apply no_panic_bind; [apply no_panic_parse_spec|]. intros [name|id] _; [|done].
  apply no_panic_bind; auto with forge.
Qed.

Lemma no_panic_d_tree_of oid v : no_panic (d_tree_of oid v).
Proof.
  apply no_panic_bind; [apply no_panic_type_at|]. intros ty _. destruct ty; try done.
  - apply no_panic_bind; [|done]. apply no_panic_bind; [apply no_panic_object_at|]. auto with forge.
  - apply no_panic_bind; [|done]. apply no_panic_bind; [apply no_panic_object_at|]. auto with forge.
Qed.

Lemma no_panic_d_mount_tree m v c : no_panic (d_mount_tree m v c).
Proof.
  assert (no_panic (oid ← d_resolve (m_spec m) v c; d_tree_of oid v)).
  { apply no_panic_bind; [apply no_panic_d_resolve|]. intros. apply no_panic_d_tree_of. }
  unfold d_mount_tree. destruct (m_mode m), (m_base_oid m); try done. apply no_panic_d_tree_of.
Qed.

Lemma no_panic_d_entry_loop v parts : forall cur, no_panic (d_entry_loop v cur parts).
Proof.
  induction parts as [|part rest IH]; intros cur; [done|]. cbn [d_entry_loop].
  apply no_panic_bind; [apply no_panic_bind; [apply no_panic_object_at|auto with forge]|]. intros t _.
  destruct (Tree_get t part) as [e|]; [|done]. destruct rest; [done|]. destruct (e_kind e); [done|apply IH].
Qed.

Lemma no_panic_d_current v tree rel : no_panic (d_current v tree rel).
Proof.
  unfold d_current. destruct (is_nil rel); [done|]. apply no_panic_bind; [apply no_panic_split_path|]. intros parts _.
  apply no_panic_bind; [apply no_panic_d_entry_loop|done].
Qed.
#[local] Hint Resolve no_panic_d_mount_tree no_panic_d_current : forge.

(** What the observation saw is what its mount shows now, unless the session's
    own staged work decides the path. *)
Definition still_true v c (ns : str) (ms : list Mount) (obs : ObservationRow) : Prop :=
  match find_mount ms (ob_mount obs) with
  | None => True
  | Some om =>
      overlay_shadows (overlay_map (staged_rows c ns (m_path om))) (ob_path obs) = true
      \/ (tree ← d_mount_tree om v c; d_current v tree (ob_path obs)) = Ok (ob_seen obs)
  end.

(** The overlays loaded so far. *)
Definition loaded c (ns : str) (overlays : gmap str Overlay) : Prop :=
  forall p ov, overlays !! p = Some ov -> ov = overlay_map (staged_rows c ns p).

Lemma check_observation_spec ns ms overlays obs f :
  f_inv f -> loaded (meta f) ns overlays ->
  wp (check_observation (St:=St) ns ms overlays obs) f (fun r f' => same f f' /\
    match r with
    | Ok overlays' => loaded (meta f) ns overlays' /\ still_true (f_view f) (meta f) ns ms obs
    | Err _ => ~ still_true (f_view f) (meta f) ns ms obs
    | Panic => False
    end).
Proof.
  intros Hf Hl. unfold check_observation, still_true. destruct (find_mount ms (ob_mount obs)) as [om|];
    [|by apply wp_ret; split; [apply same_refl|]].
  apply wp_bind. eapply wp_mono with (P := fun r f' => same f f' /\ exists ovs, loaded (meta f) ns ovs /\
    r = Ok (overlay_map (staged_rows (meta f) ns (m_path om)), ovs)).
  { destruct (overlays !! m_path om) as [ov|] eqn:E.
    - apply wp_ret. split; [by apply same_refl|]. exists overlays. by rewrite (Hl _ _ E).
    - apply wp_bind, wp_on_meta. unfold wp. rewrite overlay_list_run. cbn [fst snd].
      change (mkForge (store f) (meta f)) with (mkForge (store f) (meta f)). apply wp_ret.
      split; [by destruct f; apply same_refl|]. eexists. split; [|reflexivity].
      intros p ov [[<- <-]|[_ H]]%lookup_insert_Some; [done|by apply Hl]. }
  intros r f1 [H1 (ovs & Hovs & ->)]. destruct (overlay_shadows _ _) eqn:Es.
  { apply wp_ret. split; [done|]. split; [done|by left]. }
  apply wp_bind. eapply wp_mono; [by apply mount_tree_denotes, H1|]. intros r f2 [H2 ->].
  rewrite (same_view _ _ H1), (same_meta _ _ H1).
  pose proof (no_panic_d_mount_tree om (f_view f) (meta f)) as Hnp.
  destruct (d_mount_tree om (f_view f) (meta f)) as [tree|e|]; [|split; [by eapply same_trans|]; by intros [?|?]|done].
  apply wp_bind. eapply wp_mono; [apply (denotes_store _ _ (current_answers tree (ob_path obs)));apply H2|]. intros r f3 [H3 ->].
  rewrite (same_view _ _ H2), (same_view _ _ H1). rewrite bind_of_ok.
  assert (same f f3) as Hs by (eapply same_trans; [done|]; by eapply same_trans).
  pose proof (no_panic_d_current (f_view f) tree (ob_path obs)) as Hnc.
  destruct (d_current (f_view f) tree (ob_path obs)) as [seen|e|]; [|split; [done|]; by intros [?|?]|done].
  case_bool_decide as Hseen.
  - apply wp_ret. split; [done|]. split; [done|]. right. by rewrite Hseen.
  - split; [done|]. intros [?|[= ?]]; done.
Qed.

Lemma check_all_spec ns ms rows : forall overlays f,
  f_inv f -> loaded (meta f) ns overlays ->
  wp (m_fold (check_observation (St:=St) ns ms) overlays rows) f (fun r f' => same f f' /\
    match r with
    | Ok _ => Forall (still_true (f_view f) (meta f) ns ms) rows
    | Err _ => ~ Forall (still_true (f_view f) (meta f) ns ms) rows
    | Panic => False
    end).
Proof.
  induction rows as [|obs rows IH]; intros overlays f Hf Hl; cbn [m_fold].
  { apply wp_ret. split; [by apply same_refl|constructor]. }
  apply wp_bind. eapply wp_mono; [by apply check_observation_spec|]. intros r f1 [H1 Hr].
  destruct r as [ovs|e|]; [|split; [done|]; intros [? _]%Forall_cons; done|done].
  destruct Hr as [Hl1 Ht]. eapply wp_mono; [apply IH; [apply H1|]|].
  - by rewrite (same_meta _ _ H1).
  - intros r f2 [H2 Hr]. split; [by eapply same_trans|].
    rewrite (same_view _ _ H1), (same_meta _ _ H1) in Hr. destruct r; [by constructor| |done].
    intros [_ ?]%Forall_cons. done.
Qed.

(** The observations of a session, when its rows are readable. *)
Lemma check_observations_spec ns ms f :
  f_inv f ->
  wp (check_observations (St:=St) ns ms) f (fun r f' => same f f' /\
    match r with
    | Ok _ => exists rows, (observations ns (meta f)).1 = Ok rows /\
                Forall (still_true (f_view f) (meta f) ns ms) rows
    | Err _ => forall rows, (observations ns (meta f)).1 = Ok rows ->
                ~ Forall (still_true (f_view f) (meta f) ns ms) rows
    | Panic => (observations ns (meta f)).1 = Panic
    end).
Proof.
  intros Hf. unfold check_observations. apply wp_bind.
  eapply wp_mono; [apply (denotes_query _ (query_observations ns)); done|]. intros r f1 [H1 ->].
  destruct (observations ns (meta f)).1 as [rows|e|]; [|by split|by split].
  apply wp_bind. eapply wp_mono; [apply check_all_spec; [apply H1|]|].
  - intros p ov E. by rewrite lookup_empty in E.
  - rewrite (same_view _ _ H1), (same_meta _ _ H1). intros r f2 [H2 Hr].
    assert (same f f2) by by eapply same_trans. destruct r; [|split; [done|]; by intros ? [= <-]|done].
    apply wp_ret. split; [done|]. by exists rows.
Qed.
End reads.
