(* ===== verification/Checkin.v ===== *)
(** * What a checkin publishes (crates/forge-api/src/workspace.rs)

    The contract of [checkin], over a store that keeps the laws of [Repo] and
    a catalog the operations lead to: the commit it publishes holds what the
    session staged over the mount's pin, every observation of the session still
    holds, the ref moves or forks, a [noop] leaves no other work behind, and a
    refused checkin leaves the catalog alone. *)

From S2P Require Import Prelude RustStd Types Tree TreeStore Object Contribution ObjectStore Store Cap History Overlay Namespace Catalog Refs Sessions CatAudit Events CatalogInv Publish Staging Authority Plane Forge Growth Receipts Workspace WorkspaceReads.

Lemma void_state {A} (m : db A) c : (void m c).2 = (m c).2.
Proof. unfold void, mbind, stateM_bind. by destruct (m c) as [[a|e|] c']. Qed.

Section checkin.
Context {St B : Type} `{RL : RepoLaws St B} `{HM : Hmac}.
Implicit Types (f : Forge St) (v : gmap ObjectId bytes) (c : Catalog) (b : B).

(** ** What a session is entitled to *)

(** The pins of the session's mounts are commits with complete trees, the
    staged blobs are stored, and no staged path has an empty component. *)
Record sound_session f (ns : str) : Prop := mk_sound {
  ss_inv : f_inv f;
  ss_history : history (meta f);
  ss_pins : forall m base, m ∈ mounts_of (meta f) ns -> m_base_oid m = Some base ->
    exists k, commit_at (f_view f) base k /\ whole f (c_tree k);
  ss_blobs : forall path p id x, overlay_rows (meta f) !! (ns, path, p) = Some (Some id, x) -> is_type f TBlob id;
  ss_paths : forall path, wf_overlay (staged_overlay (meta f) ns path)
}.

(** The rows of [path] change no file of [tree]. *)
Definition changes_nothing f (ns path : str) (tree : ObjectId) : Prop :=
  forall p fl, p <> [] -> Forall plain p ->
    committed (meta f) ns path (file_in (store f) tree) p fl <-> file_in (store f) tree p fl.

(** The overlay of [path] changes no file of the mount's base. *)
Definition no_work f (ns : str) (ms : list Mount) (path : str) : Prop :=
  exists om base k, find_mount ms path = Some om /\ m_base_oid om = Some base /\ commit_at (f_view f) base k /\
  changes_nothing f ns path (c_tree k).

(** ** The fold of an overlay *)

Lemma overlay_file_base ov pre (b1 b2 : list str -> FileId -> Prop) p fl :
  (b1 p fl <-> b2 p fl) -> overlay_file ov pre b1 p fl <-> overlay_file ov pre b2 p fl.
Proof. intros H. unfold overlay_file. rewrite H. done. Qed.

Lemma base_transport {X Y} `{TX : TreeStoreLaws X} `{TY : TreeStoreLaws Y} (x : X) (y : Y) id p fl :
  (forall i t, ts_holds x i t -> ts_holds y i t) -> (forall i t, ts_holds y i t -> ts_holds x i t) ->
  base_files y (Some id) p fl <-> file_in x id p fl.
Proof. intros H1 H2. split; by apply file_in_transport. Qed.

(** The files of the tree [new], committed over [base] by the rows of [path]. *)
Definition folds_to f f' (ns path : str) (base new : ObjectId) : Prop :=
  closed (store f') new /\ forall p fl, p <> [] -> Forall plain p ->
    file_in (store f') new p fl <-> committed (meta f) ns path (file_in (store f) base) p fl.

Lemma fold_spec f b ns path base :
  f_inv f -> history (meta f) -> holds_batch f b -> closed (store f) base -> wf_overlay (staged_overlay (meta f) ns path) ->
  wp (in_batch b (apply_overlay (Some base) (overlay_map (staged_rows (meta f) ns path)))) f (fun r f' =>
    grown f f' /\ meta f' = meta f /\
    match r with
    | Ok (new, b') => holds_batch f' b' /\ folds_to f f' ns path base new
    | Err e => True
    | Panic => False
    end).
Proof.
  intros Hf Hh Hb Hc Hw. apply wp_in_batch. set (v0 := f_view f).
  pose proof (@apply_overlay_level (St * B) _ (batch_laws_within (more_trees v0) (more_trees_keeps v0)) (Some base) (staged_overlay (meta f) ns path) (store f, b)) as H.
  eapply wp_mono; [apply H|].
  - split; [exact Hb|apply more_trees_refl].
  - cbn. eapply (closed_transport (store f)); [|exact Hc]. done.
  - done.
  - clear H. intros r [s' b'] [[[Hi' Hv'] Hwr' Hh'] Hr]. cbn [fst snd] in *.
    assert (grown f (mkForge s' (meta f))) as Hg by (apply more_trees_grown; [exact (rp_batch _ Hi')|exact Hv'|exact Hwr']).
    split; [done|]. split; [done|]. destruct r as [new|e|]; [|done|done].
    destruct Hr as [Hcl Hfl]. split; [exact Hi'|]. split.
    { by apply (closed_transport (TX:=batch_laws_within (more_trees v0) (more_trees_keeps v0)) (s', b') s'). }
    intros p fl Hp Hpl. rewrite <- (committed_overlay (meta f) ns path) by (by apply history_inv in Hh as (_ & ? & _)).
    pose proof (base_transport (TY:=batch_laws_within (more_trees v0) (more_trees_keeps v0)) (store f) (store f, b) base p fl
      (fun i t h => h) (fun i t h => h)) as Hbase.
    rewrite <- (overlay_file_base _ _ _ _ _ _ Hbase), <- (Hfl p fl Hp Hpl). split.
    + by apply (file_in_transport (TY:=batch_laws_within (more_trees v0) (more_trees_keeps v0)) s' (s', b')).
    + by apply (file_in_transport (TX:=batch_laws_within (more_trees v0) (more_trees_keeps v0)) (s', b') s').
Qed.

(** The commit of a fold is whole, when what is staged is stored. *)
Lemma folds_whole f f' ns path base new :
  f_inv f -> grown f f' -> whole f base ->
  (forall p id x, overlay_rows (meta f) !! (ns, path, p) = Some (Some id, x) -> is_type f TBlob id) ->
  folds_to f f' ns path base new -> whole f' new.
Proof.
  intros Hi Hg [Hc Hb] Hs [Hcl Hf]. split; [done|]. intros p fl H.
  destruct (file_in_plain (store f') new p fl) as [Hp Hpl]; [apply Hg|done|]. apply Hf in H; [|done..].
  apply (is_type_grown f); [done|]. unfold committed in H.
  destruct (overlay_rows (meta f) !! _) as [[[id|] x]|] eqn:E; [subst fl; by eapply Hs|done|].
  destruct H as (_ & _ & H). by eapply Hb.
Qed.

(** ** Mounts without work *)

Lemma sound_grown f f' ns : sound_session f ns -> grown f f' -> meta f' = meta f -> sound_session f' ns.
Proof.
  intros [Hi Hh Hp Hbl Hw] Hg Hm. split; rewrite ?Hm; [apply Hg|done| | |done].
  - intros m base Hin Hb. destruct (Hp m base Hin Hb) as (k & Hk & Hc). exists k.
    split; [by eapply commit_at_grown|by eapply whole_grown].
  - intros path p id x E. eapply is_type_grown; [done|by eapply Hbl].
Qed.

Lemma committed_base c ns path (b1 b2 : list str -> FileId -> Prop) p fl :
  (b1 p fl <-> b2 p fl) -> committed c ns path b1 p fl <-> committed c ns path b2 p fl.
Proof. intros H. unfold committed. destruct (overlay_rows c !! _) as [[[o|] x]|]; [done..|]. by rewrite H. Qed.

Lemma find_mount_elem (ms : list Mount) path om : find_mount ms path = Some om -> om ∈ ms /\ m_path om = path.
Proof.
  unfold find_mount. intros [Hin Hp]%List.find_some. split; [by apply list_elem_of_In|by apply bytes_eqb_true].
Qed.

(** What holds later holds now. *)
Lemma no_work_back f f' ns path :
  sound_session f ns -> grown f f' -> meta f' = meta f -> no_work f' ns (mounts_of (meta f) ns) path ->
  no_work f ns (mounts_of (meta f) ns) path.
Proof.
  intros Hs Hg Hm (om & base & k & Hf & Hb & Hk & Hw). exists om, base, k. split; [done|]. split; [done|].
  destruct (ss_pins _ _ Hs om base) as (k0 & Hk0 & Hc); [by apply find_mount_elem in Hf as [? _]|done|].
  assert (k = k0) as -> by (eapply commit_at_fun; [done|by eapply commit_at_grown]). split; [done|].
  intros p fl Hp Hpl. specialize (Hw p fl Hp Hpl). rewrite Hm in Hw.
  pose proof (file_in_grown f f' (c_tree k0) p fl Hg (wh_closed _ _ Hc)) as Hfg.
  rewrite <- Hfg, <- Hw. apply committed_base. by symmetry.
Qed.

Lemma no_rows c ns path basef p fl :
  staged_free c -> Forall plain p -> p <> [] -> staged_rows c ns path = [] -> committed c ns path basef p fl <-> basef p fl.
Proof.
  intros Hf Hpl Hp Hr. rewrite <- committed_overlay by done.
  change (staged_overlay c ns path) with (overlay_map (staged_rows c ns path)). rewrite Hr.
  assert (forall k, ~ is_Some ((∅ : Overlay) !! k)) as He by (intros k [o Ho]; by rewrite lookup_empty in Ho).
  change (overlay_map []) with (∅ : Overlay). unfold overlay_file. split.
  - intros [_ [H|(_ & _ & H)]]; [by rewrite lookup_empty in H|done].
  - intros H. split; [intros (q & _ & _ & Hs); by eapply He|]. right. split; [apply lookup_empty|]. split; [|done].
    intros (q1 & q2 & _ & _ & _ & Hs). by eapply He.
Qed.

Lemma changes_spec f b ns path :
  sound_session f ns -> holds_batch f b ->
  wp (mount_overlay_changes_its_base ns path (mounts_of (meta f) ns) b) f (fun r f' =>
    grown f f' /\ meta f' = meta f /\
    match r with
    | Ok (real, b') => holds_batch f' b' /\ (real = false -> no_work f ns (mounts_of (meta f) ns) path)
    | Err _ => True
    | Panic => False
    end).
Proof.
  intros Hs Hb. pose proof (ss_inv _ _ Hs) as Hi. unfold mount_overlay_changes_its_base.
  destruct (find_mount _ path) as [om|] eqn:Ef; [|by apply wp_ret; split; [apply grown_refl|]].
  destruct (m_base_oid om) as [base|] eqn:Eb; [|by apply wp_ret; split; [apply grown_refl|]].
  destruct (ss_pins _ _ Hs om base) as (k & Hk & Hc); [by apply find_mount_elem in Ef as [? _]|done|].
  pose proof (ss_history _ _ Hs) as Hh. destruct (history_inv _ Hh) as (_ & Hfree & _).
  apply wp_bind. eapply wp_mono; [apply (denotes_query _ (query_overlay_list ns path)); done|]. intros r f1 [H1 ->].
  rewrite overlay_list_run. cbn [fst]. destruct (staged_rows (meta f) ns path) as [|row rows] eqn:Er.
  { apply wp_ret. split; [by apply same_grown|]. split; [apply H1|]. split; [by eapply holds_grown, same_grown|].
    intros _. exists om, base, k. split; [done|]. split; [done|]. split; [done|]. intros p fl Hp Hpl. by apply no_rows. }
  rewrite <- Er. clear row rows Er. pose proof (same_grown _ _ H1) as G1. pose proof (same_meta _ _ H1) as M1.
  apply wp_bind. eapply wp_mono; [apply (denotes_store _ _ (rp_get_commit base)); apply H1|]. intros r f2 [H2 ->].
  rewrite (same_view _ _ H1). apply commit_at_read in Hk as Hk'. rewrite Hk'. clear Hk'.
  assert (grown f f2) as G2 by (eapply grown_trans; [done|by apply same_grown]).
  assert (meta f2 = meta f) as M2 by (by rewrite (same_meta _ _ H2)).
  apply wp_bind. rewrite <- M2. eapply wp_mono; [apply fold_spec|].
  - apply G2.
  - by rewrite M2.
  - by eapply holds_grown.
  - by eapply closed_grown, Hc.
  - rewrite M2. by apply (ss_paths _ _ Hs).
  - intros r f3 (G3 & M3 & Hr). assert (grown f f3) as G by by eapply grown_trans.
    assert (meta f3 = meta f2) as M by done. destruct r as [[folded b']|e|]; [|by split|done].
    destruct Hr as [Hb' [_ Hfold]]. apply wp_ret. split; [done|]. split; [done|]. split; [done|].
    intros Hreal%negb_false_iff%bool_decide_eq_true. subst folded. exists om, base, k. rewrite M2.
    split; [done|]. split; [done|]. split; [done|]. intros p fl Hp Hpl.
    rewrite <- (file_in_grown f f3 (c_tree k) p fl G (wh_closed _ _ Hc)) at 1. rewrite (Hfold p fl Hp Hpl), M2.
    apply committed_base. symmetry. by apply file_in_grown, Hc.
Qed.

Lemma stranded_spec f0 ns l : forall f b,
  sound_session f0 ns -> grown f0 f -> meta f = meta f0 -> holds_batch f b ->
  wp (stranded_mounts ns (mounts_of (meta f0) ns) b l) f (fun r f' =>
    grown f0 f' /\ meta f' = meta f0 /\
    match r with
    | Ok (rest, b') => holds_batch f' b' /\
        (rest = [] -> Forall (fun x => no_work f0 ns (mounts_of (meta f0) ns) x.1) l)
    | Err _ => True
    | Panic => False
    end).
Proof.
  induction l as [|[other count] l IH]; intros f b Hs Hg Hm Hb; cbn [stranded_mounts].
  { apply wp_ret. split; [done|]. split; [done|]. split; [done|]. by constructor. }
  apply wp_bind. rewrite <- Hm. eapply wp_mono; [apply changes_spec; [by eapply sound_grown|done]|].
  intros r f1 (G1 & M1 & Hr). assert (grown f0 f1) as G by by eapply grown_trans. rewrite Hm in *.
  destruct r as [[real b1]|e|]; [|by split|done]. destruct Hr as [Hb1 Hreal].
  apply wp_bind. eapply wp_mono; [apply (IH f1 b1); done|]. intros r f2 (G2 & M2 & Hr).
  destruct r as [[rest b2]|e|]; [|by split|done]. destruct Hr as [Hb2 Hrest].
  apply wp_ret. split; [done|]. split; [done|]. split; [done|]. destruct real; [done|]. intros Hnil.
  constructor; [|by apply Hrest]. cbn [fst]. eapply (no_work_back f0 f); [done|done|done|]. by apply Hreal.
Qed.

(** Every other mount with staged rows is listed. *)
Lemma outside_complete c ns except other p :
  is_Some (overlay_rows c !! (ns, other, p)) -> other <> except ->
  exists l n, overlay_mounts_outside ns except c = (Ok l, c) /\ (other, n) ∈ l.
Proof.
  intros [x Hx] Hne. set (outside := filter (fun k => k.1.1 = ns /\ k.1.2 <> except) (map_to_list (overlay_rows c)).*1).
  exists ((fun m => (m, len (filter (fun k => k.1.2 = m) outside)))
    <$> sort_by_key (fun p => p) (remove_dups ((fun k => k.1.2) <$> outside))).
  eexists. split; [reflexivity|]. apply list_elem_of_fmap. exists other. split; [reflexivity|].
  rewrite (sort_by_key_perm _ _). apply elem_of_remove_dups, list_elem_of_fmap. exists (ns, other, p). split; [done|].
  apply list_elem_of_filter. split; [done|]. apply list_elem_of_fmap. exists ((ns, other, p), x). split; [done|].
  by apply elem_of_map_to_list.
Qed.

(** A [noop] is an answer only about a session with no work. *)
Definition nothing_left f f' (ns : str) (m : Mount) (pin : ObjectId) : Prop :=
  (forall other p, is_Some (overlay_rows (meta f) !! (ns, other, p)) -> other <> m_path m ->
     no_work f ns (mounts_of (meta f) ns) other)
  /\ meta f' = (run (OpNoop ns (m_path m) pin) (meta f)).2
  /\ Catalog.refs (meta f') = Catalog.refs (meta f) /\ one_mount (meta f) (meta f') ns (m_path m) pin.

Lemma noop_spec f0 f ns m ref_name pin head b :
  sound_session f0 ns -> grown f0 f -> meta f = meta f0 -> holds_batch f b ->
  wp (checkin_noop ns (mounts_of (meta f0) ns) m ref_name pin head b) f (fun r f' =>
    grown f0 f' /\
    match r with
    | Ok x => x = Noop ref_name head /\ nothing_left f0 f' ns m pin
    | _ => meta f' = meta f0
    end).
Proof.
  intros Hs Hg Hm Hb. unfold checkin_noop. apply wp_bind.
  eapply wp_mono; [apply (denotes_query _ (query_outside ns (m_path m))); apply Hg|]. intros r f1 [H1 ->].
  assert (grown f0 f1) as G1 by (eapply grown_trans; [done|by apply same_grown]).
  assert (meta f1 = meta f0) as M1 by (by rewrite (same_meta _ _ H1)). rewrite Hm.
  destruct (overlay_mounts_outside ns (m_path m) (meta f0)).1 as [outside|e|] eqn:Eo; [|done..].
  apply wp_bind. eapply wp_mono; [apply stranded_spec; try done|].
  { eapply holds_grown; [done|by apply same_grown]. }
  intros r f2 (G2 & M2 & Hr). destruct r as [[stranded b2]|e|]; [|by split..]. destruct Hr as [Hb2 Hnil].
  apply wp_bind, wp_pure. destruct stranded as [|]; [|by split]. cbn [reject_if].
  apply wp_bind. eapply wp_mono; [apply finish_grown; [apply G2|done]|]. intros r f3 (G3 & M3 & Hr).
  assert (grown f0 f3) as G by by eapply grown_trans. assert (meta f3 = meta f0) as M by congruence.
  destruct r as [u|e|]; [|by split|done].
  apply wp_bind, wp_on_meta. unfold wp. rewrite M.
  assert (forall c', grown f0 (mkForge (store f3) c')) as Gc by (intros c'; by apply with_catalog_grown).
  destruct (complete_noop_session ns (m_path m) pin (meta f0)) as [r c'] eqn:En. cbn [fst snd].
  destruct r as [[]|e|]; [|split; [done|]; by eapply transaction_error in En..].
  unfold mret, stateM_ret. cbn [fst snd]. split; [done|]. split; [done|].
  assert (c' = (run (OpNoop ns (m_path m) pin) (meta f0)).2) as Hrun by (cbn [run]; by rewrite En).
  apply db_transaction, end_epoch_inv in En as (_ & Href & Hone). split; [|by split_and!].
  intros other p Hp Hne. destruct (outside_complete _ ns (m_path m) other p Hp Hne) as (l & n & El & Hin).
  rewrite El in Eo. injection Eo as <-. specialize (Hnil eq_refl). rewrite Forall_forall in Hnil. exact (Hnil _ Hin).
Qed.

(** ** Publication *)

(** The object file of [con] is stored under [id]. *)
Definition stored_receipt v id (con : Contribution) : Prop := exists o, v !! id = Some o /\ Contribution.encode con = Ok o.

Lemma atomic_cas_session ts ulid name expected new agent fork_agent ns mount intros :
  atomic (cas_ref_session ts ulid name expected new agent fork_agent ns mount intros).
Proof. unfold cas_ref_session. apply atomic_bind; [apply keeps_pure|]. intros ?. apply atomic_transaction. Qed.

(** What a checkin of [m] publishes: its receipt, its commit, and the ref that
    moved or forked in the catalog [c1] the compare-and-swap found. *)
Definition publishes f f' c1 (cap : Cap) (ns : str) (m : Mount) (ref_name ulid : str) (pin base new : ObjectId) (x : CasResult) : Prop :=
  exists cid rid con k,
    stored_receipt (f_view f') rid con /\ t_base con = pin /\ t_tree con = new /\ t_parents con = [pin] /\ t_agent con = agent_id cap
    /\ commit_at (f_view f') cid k /\ c_tree k = new /\ c_parents k = [pin] /\ c_agent k = agent_id cap /\ c_contrib k = Some rid
    /\ folds_to f f' ns (m_path m) base new
    /\ (exists ts intros, meta f' = (run (OpCasSession ts ulid ref_name pin cid (agent_id cap) (agent_id cap) ns (m_path m) intros) c1).2)
    /\ published c1 (meta f') ulid ref_name (agent_id cap) pin cid x
    /\ one_mount c1 (meta f') ns (m_path m) cid.

Lemma folds_grown f f1 f2 ns path base new :
  f_inv f1 -> grown f1 f2 -> folds_to f f1 ns path base new -> folds_to f f2 ns path base new.
Proof.
  intros Hi Hg [Hc Hf]. split; [by eapply closed_grown|]. intros p fl Hp Hpl.
  rewrite (file_in_grown f1 f2) by done. by apply Hf.
Qed.

Lemma publish_spec now ulid others cap ns m ref_name msg pin base new rows obs f0 f b :
  str_ok msg -> str_ok (agent_id cap) -> (forall i, in_u64 (now i)) ->
  f_inv f0 -> is_type f0 TCommit pin -> grown f0 f -> meta f = meta f0 -> holds_batch f b ->
  folds_to f0 f ns (m_path m) base new -> whole f new ->
  wp (checkin_publish now ulid others cap ns m ref_name msg pin base new rows obs b) f (fun r f' =>
    grown f0 f' /\
    match r with
    | Ok x => publishes f0 f' (others (meta f0)) cap ns m ref_name (ulid 0%nat) pin base new x
    | _ => meta f' = meta f0 \/ meta f' = others (meta f0)
    end).
Proof.
  intros Hmsg Hag Hnow Hi Hpin Hg Hm Hb Hfold Hwh. unfold checkin_publish. cbv zeta.
  apply wp_bind, wp_pure. destruct (repeats_path _); [split; [done|by left]|]. cbn [reject_if].
  set (con := mkContribution pin new [pin] (receipt_reads obs) (receipt_writes m rows) (agent_id cap) (now 1%nat)).
  apply wp_bind. eapply wp_mono; [apply (batch_adds _ _ _ _ (rp_batch_put_contribution con)); [done|]|].
  { intros o H%Contribution_encode_type. by eapply other_sound. }
  intros r f1 (G1 & M1 & Hr). assert (grown f0 f1) as G1' by by eapply grown_trans.
  destruct r as [[rid b1]|e|]; [|split; [done|left; congruence]..]. destruct Hr as [Hb1 (o1 & Ho1 & Hv1)].
  set (k := mkCommit new [pin] (agent_id cap) msg (now 1%nat) false (Some rid)).
  assert (wf_commit k) as Hk by (split_and!; [done..|apply Hnow]).
  apply wp_bind. eapply wp_mono; [apply (batch_adds _ _ _ _ (rp_batch_put_commit k)); [done|]|].
  { intros o H. apply (commit_sound _ _ _ H Hk). split.
    - eapply whole_grown; [exact G1|exact Hwh].
    - constructor; [by eapply is_type_grown|constructor].
    - intros i [= <-]. eapply stored_type; [exact Hv1|by eapply Contribution_encode_type]. }
  intros r f2 (G2 & M2 & Hr). assert (grown f0 f2) as G2' by by eapply grown_trans.
  destruct r as [[cid b2]|e|]; [|split; [done|left; congruence]..]. destruct Hr as [Hb2 (o2 & Ho2 & Hv2)].
  apply wp_bind. eapply wp_mono; [apply finish_grown; [apply G2|done]|]. intros r f3 (G3 & M3 & Hr).
  assert (grown f0 f3) as G3' by by eapply grown_trans. destruct r as [u|e|]; [|split; [done|left; congruence]..].
  apply wp_bind, wp_on_store. eapply wp_mono; [apply rp_collect_intros, G3|]. intros r s4 (I4 & V4 & W4).
  assert (grown f3 (mkForge s4 (meta f3))) as G4 by by apply view_grown.
  assert (grown f0 (mkForge s4 (meta f3))) as G4' by by eapply grown_trans.
  destruct r as [intros|e|]; [|split; [done|left; cbn; congruence]..].
  apply wp_bind, wp_on_meta. unfold wp, change. cbn [fst snd meta store]. apply wp_on_meta.
  apply wp_intro. intros r c' Ec. rewrite M3, M2, M1, Hm in Ec. cbn [meta store].
  split; [by apply (with_catalog_grown f0 (mkForge s4 (meta f3)))|].
  assert (is_ok r = false -> c' = others (meta f0)) as Hatom.
  { by apply (atomic_cas_session _ _ _ _ _ _ _ _ _ _ _ _ _ Ec). }
  destruct r as [x|e|]; [|right; by apply Hatom..].
  pose proof (f_equal snd Ec) as Erun. cbn [snd] in Erun. rewrite <- void_state in Erun. symmetry in Erun.
  apply cas_ref_session_inv in Ec as [Hp Ho]. exists cid, rid, con, k.
  assert (grown f1 (mkForge s4 c')) as GA by (apply (with_catalog_grown f1 (mkForge s4 (meta f3))); eapply grown_trans; [exact G2|]; by eapply grown_trans).
  assert (grown f2 (mkForge s4 c')) as GB by (apply (with_catalog_grown f2 (mkForge s4 (meta f3))); by eapply grown_trans).
  split; [exists o1; split; [eapply lookup_weaken; [exact Hv1|apply GA]|done]|].
  split; [done|]. split; [done|]. split; [done|]. split; [done|].
  split; [exists o2; split; [eapply lookup_weaken; [exact Hv2|apply GB]|by apply Commit_decode_spec]|].
  split_and!; try done; [|by exists (now 2%nat), intros]. apply (folds_grown f0 f); [apply Hg| |done].
  eapply grown_trans; [exact G1|done].
Qed.

Lemma folds_same f f' ns path tree :
  f_inv f -> grown f f' -> closed (store f) tree -> folds_to f f' ns path tree tree -> changes_nothing f ns path tree.
Proof.
  intros Hi Hg Hc [_ Hf] p fl Hp Hpl. rewrite <- Hf by done. by apply file_in_grown.
Qed.

(** ** The contract *)

(** What a checkin did, when it answered [x]. *)
Definition checked_in f f' c1 (key : bytes) (t : Z) (cap : Cap) (ns mount ulid : str) (x : CasResult) : Prop :=
  exists m name pin k row obs,
    named_mount (mounts_of (meta f) ns) ns mount = Ok m /\ m_mode m = Rw /\ mount_ref m = Ok name
    /\ check key t cap Write (Some name) = Ok tt
    /\ m_base_oid m = Some pin /\ commit_at (f_view f) pin k /\ Catalog.refs (meta f) !! name = Some row
    /\ (observations ns (meta f)).1 = Ok obs /\ Forall (still_true (f_view f) (meta f) ns (mounts_of (meta f) ns)) obs
    /\ (x = Noop name pin /\ rc_oid row = pin /\ changes_nothing f ns (m_path m) (c_tree k) /\ nothing_left f f' ns m pin
        \/ exists new, publishes f f' c1 cap ns m name ulid pin (c_tree k) new x).

Lemma named_mount_elem (ms : list Mount) ns requested m : named_mount ms ns requested = Ok m -> m ∈ ms.
Proof.
  unfold named_mount. intros (want & _ & H%ok_or_ok)%bind_ok. apply List.find_some in H as [H _]. by apply list_elem_of_In.
Qed.

(** Reading on, the state only looked at. *)
Lemma wp_reading {A A'} (m : stateM Error (Forge St) A) (k : A -> stateM Error (Forge St) A') d f0 f (Q : Result A' -> Forge St -> Prop) :
  denotes m d -> same f0 f ->
  (forall a f1, same f0 f1 -> d (f_view f0) (meta f0) = Ok a -> wp (k a) f1 Q) ->
  (forall e f1, same f0 f1 -> Q (Err e) f1) -> (forall f1, same f0 f1 -> Q Panic f1) -> wp (m ≫= k) f Q.
Proof.
  intros Hm Hs Hk He Hp. apply wp_bind. eapply wp_mono; [by apply Hm, Hs|]. intros r f1 [H1 ->].
  rewrite (same_view _ _ Hs), (same_meta _ _ Hs). assert (same f0 f1) by by eapply same_trans.
  destruct (d (f_view f0) (meta f0)) as [a|e|] eqn:Ed; eauto.
Qed.
Ltac reading tac := eapply wp_reading; [tac|eassumption| |by intros; split; [by apply same_grown|left; apply same_meta]..].

Lemma checkin_spec key now ulid others cap ns mount msg f :
  str_ok msg -> str_ok (agent_id cap) -> (forall i, in_u64 (now i)) -> sound_session f ns ->
  wp (checkin key now ulid others cap ns mount msg) f (fun r f' => grown f f' /\
    match r with
    | Ok x => checked_in f f' (others (meta f)) key (now 0%nat) cap ns mount (ulid 0%nat) x
    | _ => meta f' = meta f \/ meta f' = others (meta f)
    end).
Proof.
  intros Hmsg Hag Hnow Hs. pose proof (ss_inv _ _ Hs) as Hi. pose proof (same_refl f Hi) as S0. unfold checkin.
  reading ltac:(apply denotes_query, query_require_ns). intros _ f1 S1 _.
  reading ltac:(apply mounts_denotes). intros ms f2 S2 [= <-].
  reading ltac:(apply denotes_pure). intros m f3 S3 Hm.
  reading ltac:(apply denotes_pure). intros u f4 S4 Hrw%reject_if_ok%negb_false_iff%bool_decide_eq_true.
  reading ltac:(apply denotes_pure). intros name f5 S5 Hname.
  reading ltac:(apply denotes_pure). intros [] f6 S6 Hcheck.
  reading ltac:(apply denotes_pure). intros pin f7 S7 Hpin%ok_or_ok.
  reading ltac:(apply denotes_query, query_get_ref). intros row f8 S8 [= <-].
  reading ltac:(apply denotes_pure). intros r f9 S9 (row & Hrow & Er)%ok_or_ok%fmap_Some.
  reading ltac:(apply denotes_store, rp_get_commit). intros k f10 S10 Hk%commit_at_read.
  reading ltac:(apply denotes_query, query_overlay_list). intros rows f11 S11 [= <-].
  reading ltac:(apply denotes_query, query_observations). intros obs f12 S12 Hobs. cbv zeta.
  destruct (ss_pins _ _ Hs m pin (named_mount_elem _ _ _ _ Hm) Hpin) as (k0 & Hk0 & Hc).
  assert (k0 = k) as -> by by eapply commit_at_fun.
  apply wp_bind. eapply wp_mono; [apply check_observations_spec, S12|].
  rewrite (same_view _ _ S12), (same_meta _ _ S12). intros o f13 [S13' Ho].
  assert (same f f13) as S13 by by eapply same_trans. pose proof (same_grown _ _ S13) as G13.
  pose proof (same_meta _ _ S13) as M13. destruct o as [u'|e|]; [|split; [done|by left]..].
  destruct Ho as (obs' & Hobs' & Htrue). rewrite Hobs in Hobs'. injection Hobs' as <-.
  apply wp_bind. rewrite <- M13. eapply wp_mono; [apply fold_spec; rewrite ?M13|].
  - apply G13.
  - apply Hs.
  - by apply rp_begin, G13.
  - by eapply closed_grown, Hc.
  - by apply (ss_paths _ _ Hs).
  - rewrite M13. intros o f14 (G14' & M14 & Ho). assert (grown f f14) as G14 by by eapply grown_trans.
    assert (meta f14 = meta f) as M14' by congruence.
    destruct o as [[new b]|e|]; [|by split; [|left]|done]. destruct Ho as [Hb Hfold'].
    assert (folds_to f f14 ns (m_path m) (c_tree k) new) as Hfold.
    { destruct Hfold' as [Hcn Hfn]. split; [done|]. intros p fl Hp Hpl. rewrite (Hfn p fl Hp Hpl), M13.
      apply committed_base. by apply file_in_grown, Hc. }
    destruct (bool_decide (new = c_tree k) && bool_decide (pin = ref_oid r)) eqn:Ed.
    + apply andb_true_iff in Ed as [->%bool_decide_eq_true E2%bool_decide_eq_true].
      eapply wp_mono; [by apply (noop_spec f)|]. intros x f' [G' Hx]. split; [done|].
      destruct x as [x|e|]; [|by left..]. destruct Hx as [-> Hleft]. subst r. cbn [ref_oid ref_row] in *. subst pin.
      exists m, name, (rc_oid row), k, row, obs. split_and!; try done. left. split; [done|]. split; [done|]. split; [|done].
      apply (folds_same f f14); [done|done|apply Hc|done].
    + eapply wp_mono; [apply (publish_spec now ulid others cap ns m name msg pin (c_tree k) new); [done..|apply Hs|by eapply commit_type|done|done|done|done|]|].
      { eapply (folds_whole f f14); [done|done|done| |done]. by apply (ss_blobs _ _ Hs). }
      intros x f' [G' Hx]. split; [done|]. destruct x as [x|e|]; [|done..].
      exists m, name, pin, k, row, obs. split_and!; try done. right. by exists new.
Qed.
End checkin.

(** ** Property *)

(** C19: A checkin publishes the session's work. When it answers, the mount it
    named is the caller's to write, every observation of the session still
    holds, and either nothing was staged anywhere (a no-op), or a receipt and
    a commit of exactly the staged files over the mount's pin are stored and
    the ref has moved to that commit or a fork of it was made; otherwise the
    catalog is as other processes left it. *)
Theorem checkin_publishes_the_work {St B} `{RL : RepoLaws St B} `{HM : Hmac} (key : bytes) (now : nat -> Z) (ulid : nat -> str)
    (others : Catalog -> Catalog) (cap : Cap) (ns mount msg : str) (f f' : Forge St) (r : Result CasResult)
    (Hmsg : str_ok msg) (Hag : str_ok (agent_id cap)) (Hnow : forall i, in_u64 (now i))
    (Hs : sound_session f ns) (E : checkin key now ulid others cap ns mount msg f = (r, f')) :
  f_view f ⊆ f_view f' /\
  match r with
  | Ok x => checked_in f f' (others (meta f)) key (now 0%nat) cap ns mount (ulid 0%nat) x
  | _ => meta f' = meta f \/ meta f' = others (meta f)
  end.
Proof.
  destruct (wp_elim _ _ _ _ _ (checkin_spec key now ulid others cap ns mount msg f Hmsg Hag Hnow Hs) E) as [Hg Hr].
  split; [apply Hg|exact Hr].
Qed.

(** ** Witness *)

Definition demo_session : list CatOp :=
  [OpCreateSession 4 (bs "s1") (bs "anon") demo_pin (bs "heads/agents/anon/s1") true;
   OpUpsert (bs "s1") (bs "/") (bs "c") (Some demo_blob.1) true].
Definition demo_staged : Catalog := fold_left (fun c op => (run op c).2) demo_session demo_catalog.
Definition staged_forge : Forge (Guarded MapLru) := mkForge demo_objects demo_staged.

Lemma demo_staged_rows : overlay_rows demo_staged = <[(bs "s1", bs "/", bs "c") := (Some demo_blob.1, true)]> ∅.
Proof.
  rewrite <- (list_to_map_to_list (overlay_rows demo_staged)).
  assert (map_to_list (overlay_rows demo_staged) = [((bs "s1", bs "/", bs "c"), (Some demo_blob.1, true))]) as -> by by vm_compute.
  done.
Qed.

Lemma demo_staged_history : history demo_staged.
Proof.
  apply history_op; [apply history_op; [apply history_op; [apply history_new|exact I]|reflexivity]|].
  split; [|reflexivity].
  split; [by exists (mkNsCols (bs "anon") 4 (Some demo_pin) (Some (bs "heads/agents/anon/s1")))|].
  by exists (mkMountCols (bs "ref:heads/agents/anon/s1") (bs "rw") (Some demo_pin)).
Qed.

Lemma demo_staged_wf path : wf_overlay (staged_overlay demo_staged (bs "s1") path).
Proof.
  intros k Hk. rewrite staged_overlay_lookup, demo_staged_rows in Hk. apply fmap_is_Some in Hk.
  apply lookup_insert_is_Some in Hk as [[= <- <-]|[_ [? Hk]]]; [|by rewrite lookup_empty in Hk].
  repeat (constructor; [split; [done|by apply (bool_decide_eq_false_1 ("/"%byte ∈ _))]|]). constructor.
Qed.

Lemma demo_pin_commit : commit_at (rp_view demo_base.2) demo_pin (mkCommit demo_dir [] (bs "anon") (bs "first") 1 false None).
Proof.
  apply commit_at_read. unfold object_at.
  assert (rp_view demo_base.2 !! demo_pin = 
    match Commit_encode (mkCommit demo_dir [] (bs "anon") (bs "first") 1 false None) with Ok b => Some b | _ => None end) as -> by by vm_compute.
  by vm_compute.
Qed.

Lemma demo_mounts m base :
  m ∈ mounts_of demo_staged (bs "s1") -> m_base_oid m = Some base -> base = demo_pin.
Proof.
  assert (Forall (fun m => m_base_oid m = None \/ m_base_oid m = Some demo_pin) (mounts_of demo_staged (bs "s1"))) as H.
  { apply (bool_decide_eq_true_1 (Forall _ _)). by vm_compute. }
  rewrite Forall_forall in H. intros Hin Hb. destruct (H m Hin) as [?|?]; congruence.
Qed.

Lemma demo_blob_type c : is_type (mkForge demo_put.2 c) TBlob demo_blob.1.
Proof. by vm_compute. Qed.

Lemma demo_whole c : whole (mkForge demo_put.2 c) demo_dir.
Proof.
  destruct demo_tree as [Hi Ht]. eapply leaf_whole; [exact Hi|exact Ht|].
  intros e He. unfold demo_leaf in He. cbn [entries] in He. rewrite !elem_of_cons, elem_of_nil in He.
  destruct He as [->|[->|[]]]; (split; [done|exact (demo_blob_type c)]).
Qed.

Lemma demo_sound : sound_session staged_forge (bs "s1").
Proof.
  destruct demo_chain as (C0 & I1 & I2 & S1 & S2). split.
  - exact I2.
  - exact demo_staged_history.
  - intros m base Hm Hb. assert (base = demo_pin) as -> by exact (demo_mounts m base Hm Hb).
    exists (mkCommit demo_dir [] (bs "anon") (bs "first") 1 false None).
    assert (rp_view demo_put.2 ⊆ rp_view demo_objects) as Hsub by (etrans; [exact S1|exact S2]).
    split.
    + destruct demo_pin_commit as (o & Ho & Hd). exists o. split; [|exact Hd].
      eapply lookup_weaken; [exact Ho|exact S2].
    + eapply (whole_view (mkForge demo_put.2 demo_staged)); [exact I2|exact Hsub|exact (demo_whole demo_staged)].
  - intros path p id x E. change (overlay_rows demo_staged !! (bs "s1", path, p) = Some (Some id, x)) in E. rewrite demo_staged_rows in E. apply lookup_insert_Some in E as [[_ [= <- _]]|[_ E]];
      [|by rewrite lookup_empty in E]. eapply (is_type_view (mkForge demo_put.2 demo_staged)); [|exact (demo_blob_type demo_staged)].
    etrans; [exact S1|exact S2].
  - exact demo_staged_wf.
Qed.

Lemma demo_msg_ok : str_ok (bs "more").
Proof. split; [by vm_compute|]. by apply Z.leb_le. Qed.
Lemma demo_agent_ok : str_ok (agent_id demo_cap).
Proof. change (agent_id demo_cap) with (bs "anon"). split; [by vm_compute|]. by apply Z.leb_le. Qed.
Lemma demo_clock_ok : forall i : nat, in_u64 ((fun _ => 9) i).
Proof. intros i. split; by apply Z.leb_le. Qed.

Lemma checkin_publishes_the_work_witness :
  exists x f', checked_in staged_forge f' demo_staged demo_key 9 demo_cap (bs "s1") (bs "/") (bs "01J") x.
Proof.
  destruct (checkin demo_key (fun _ => 9) (fun _ => bs "01J") (fun c => c) demo_cap (bs "s1") (bs "/") (bs "more") staged_forge)
    as [r f'] eqn:E.
  assert (is_ok r = true) as Hr.
  { change r with (r, f').1. rewrite <- E. vm_compute. reflexivity. }
  destruct r as [x|e|]; [|discriminate Hr..]. exists x, f'.
  exact (proj2 (checkin_publishes_the_work demo_key (fun _ => 9) (fun _ => bs "01J") (fun c => c) demo_cap (bs "s1") (bs "/")
    (bs "more") staged_forge f' (Ok x) demo_msg_ok demo_agent_ok demo_clock_ok demo_sound E)).
Defined.
