(* ===== verification/Integration.v ===== *)
(** * Integration and sealed releases (crates/forge-api/src/integration.rs)

    [merge], [resolve], [seal] and [verify_tag].  Ed25519 is a parameter, a
    class with the one law the code relies on: what a seed signs, its public
    key verifies.  [env] is the environment variable that bounds the graph
    walk, [fuel] bounds the loops of the three-way merge (any number above the
    bound of [three_way_merges_files]), [others] is what other processes commit
    at the barrier before a seal is published. *)

From S2P Require Import Prelude RustStd Types Object Contribution Provenance ObjectStore Store Graph Cap TreeStore History Merge Overlay Namespace Catalog Refs Sessions Authority Plane Forge Workspace.

(** The signature scheme of the crate [ed25519_dalek]. *)
Class Ed25519 := {
  ed_public : arr 32 -> arr 32;
  ed_sign : arr 32 -> bytes -> arr 64;
  (** [VerifyingKey::from_bytes] accepts the key. *)
  ed_valid_key : arr 32 -> bool;
  ed_verify : arr 32 -> bytes -> arr 64 -> bool
}.

Class Ed25519Laws `{!Ed25519} := {
  ed_key_valid seed : ed_valid_key (ed_public seed) = true;
  ed_sign_verifies seed msg : ed_verify (ed_public seed) msg (ed_sign seed msg) = true
}.

(** How a conflict is resolved. *)
Inductive ResolveChoice := ChooseOurs | ChooseTheirs | ChooseTree (id : ObjectId).

Definition RAW_MERGE_RESOLUTION_DISABLED : str :=
  bs "raw merge resolution is disabled; resolution must be bound to a conflict object".

(** [name.rsplit('/').next()]. *)
Definition last_segment (name : str) : str :=
  match rfind_slash name with Some i => drop (S i) name | None => name end.

(** A tag's own alphabet, [c.is_ascii_alphanumeric() || c == '.' || ..]. *)
Definition tag_char (b : byte) : bool :=
  let c := b2z b in
  ((48 <=? c) && (c <=? 57)) || ((65 <=? c) && (c <=? 90)) || ((97 <=? c) && (c <=? 122))
  || (c =? 46) || (c =? 95) || (c =? 45).

Definition bad_tag (tag : str) : bool := negb (forallb tag_char tag) || is_nil tag || (64 <? len tag).

Section integration.
Context {St B : Type} `{R : Repo St B} `{HM : Hmac} `{B3 : Blake3} `{ED : Ed25519}.
(** [ulid::Ulid::from_string(leaf).is_ok()]. *)
Context (is_ulid : str -> bool).

Abbreviation forge := (stateM Error (Forge St)).

(** ** Merging *)

(** The ref a merge or a resolution advances, and the authority for it. *)
Definition target_ref (key : bytes) (now : nat -> Z) (cap : Cap) (into : str) : forge RefRow :=
  row ← on_meta (get_ref into);
  row ← pure (ok_or row (NotFound (bs "ref {into}")));
  _ ← pure (check key (now 0%nat) cap (if ref_protected row then Merge else Write) (Some into));
  mret row.

(** A conflict is stored and published under the ref, and refuses the merge. *)
Definition publish_conflict (now : nat -> Z) (ulid : nat -> str) (cap : Cap) (into reason : str) (c : Conflict) : forge CasResult :=
  oid ← on_store (repo_put_conflict c);
  let name := bs "conflicts/" ++ into ++ bs "/" ++ ulid 0%nat in
  _ ← on_meta (insert_ref (now 2%nat) name oid (bs "conflict") false false (agent_id cap) reason);
  throw (MergeConflict oid).

(** The trees of the merge bases. *)
Fixpoint base_trees (bases : list ObjectId) : forge (list ObjectId) :=
  match bases with
  | [] => mret []
  | id :: bases' => c ← on_store (repo_get_commit id); l ← base_trees bases'; mret (c_tree c :: l)
  end.

(** The commit of the merged tree, and the compare-and-swap that publishes it. *)
Definition publish_merge (now : nat -> Z) (ulid : nat -> str) (cap : Cap) (into from : str) (into_row : RefRow)
    (ours_tree theirs_oid tree : ObjectId) : forge CasResult :=
  let commit := mkCommit tree [ref_oid into_row; theirs_oid] (agent_id cap)
                  (bs "merge " ++ from ++ bs " into " ++ into) (now 2%nat) false None in
  cid ← on_store (repo_put_commit commit);
  intro_oids ← on_store (repo_collect_intros (Some ours_tree) tree);
  on_meta (cas_ref_with_intros (now 3%nat) (ulid 0%nat) into (ref_oid into_row) cid (bs "commit") (agent_id cap) (agent_id cap)
             (ref_protected into_row) intro_oids).

Definition merge (fuel : nat) (key : bytes) (now : nat -> Z) (ulid : nat -> str) (cap : Cap) (into from : str)
    (resolved : option ObjectId) : forge CasResult :=
  into_row ← target_ref key now cap into;
  _ ← pure (check_spec_read key (now 1%nat) cap from);
  _ ← pure (reject_if (match resolved with Some _ => true | None => false end) (Invalid RAW_MERGE_RESOLUTION_DISABLED));
  ours_c ← on_store (repo_get_commit (ref_oid into_row));
  '(theirs_oid, theirs_c) ← peel_commit from;
  bases ← on_store (merge_bases (ref_oid into_row) theirs_oid);
  if 1 <? len bases then
    trees ← base_trees bases;
    publish_conflict now ulid cap into (bs "multiple-merge-bases")
      (mkConflict trees (c_tree ours_c) (c_tree theirs_c) [] [ref_oid into_row; theirs_oid])
  else
    base_tree ← match bases with
                | id :: _ => c ← on_store (repo_get_commit id); mret (Some (c_tree c))
                | [] => mret None
                end;
    outcome ← on_store (three_way fuel base_tree (c_tree ours_c) (c_tree theirs_c));
    match outcome with
    | MTree t => publish_merge now ulid cap into from into_row (c_tree ours_c) theirs_oid t
    | MConflict c =>
        publish_conflict now ulid cap into (bs "conflict")
          (mkConflict (cf_bases c) (cf_ours c) (cf_theirs c) (cf_paths c) [ref_oid into_row; theirs_oid])
    end.

(** ** Resolving *)

(** The published conflict under the target's prefix. *)
Definition conflict_ref_of (into : str) (conflict_oid : ObjectId) (rows : list RefRow) : option RefRow :=
  List.find (fun row => bytes_eqb (ref_kind row) (bs "conflict") && bool_decide (ref_oid row = conflict_oid)
                        && starts_with (ref_name row) (bs "conflicts/" ++ into ++ bs "/")) rows.

(** A replacement tree that differs from the automatic merge on conflict paths only. *)
Definition scoped_tree (fuel : nat) (conflict : Conflict) (oid : ObjectId) : forge ObjectId :=
  base ← pure (match cf_bases conflict with
               | [] => Ok None
               | [one] => Ok (Some one)
               | _ => Err (Invalid (bs "conflict with multiple bases cannot take a scoped --tree"))
               end);
  '(auto, _) ← on_store (auto_merge_tree fuel base (cf_ours conflict) (cf_theirs conflict));
  changed ← on_store (changed_paths fuel auto oid);
  _ ← pure (reject_if (existsb (fun path => negb (path_in_conflict_scope path (cf_paths conflict))) (elements changed))
        (Invalid (bs "resolve --tree escapes conflict scope at {path}")));
  mret oid.

Definition chosen_tree (fuel : nat) (conflict : Conflict) (choice : ResolveChoice) : forge ObjectId :=
  match choice with
  | ChooseOurs => mret (cf_ours conflict)
  | ChooseTheirs => mret (cf_theirs conflict)
  | ChooseTree oid =>
      ty ← on_store (repo_object_type oid);
      _ ← pure (reject_if (negb (bool_decide (ty = TTree))) (Invalid (bs "resolve --tree {oid} is not a tree")));
      match cf_paths conflict with
      | [] =>
          _ ← pure (reject_if (bool_decide (oid <> cf_ours conflict) && bool_decide (oid <> cf_theirs conflict))
                (Invalid (bs "multi-base conflict resolution accepts only --ours or --theirs")));
          mret oid
      | _ => scoped_tree fuel conflict oid
      end
  end.

Definition resolve_conflict (fuel : nat) (key : bytes) (now : nat -> Z) (cap : Cap) (conflict_oid : ObjectId) (into : str)
    (choice : ResolveChoice) : forge PublishedResolution :=
  into_row ← target_ref key now cap into;
  conflict ← on_store (repo_get_conflict conflict_oid);
  rows ← on_meta list_refs;
  conflict_ref ← pure (ok_or (conflict_ref_of into conflict_oid rows)
        (Invalid (bs "conflict {conflict_oid} is not published under {conflict_prefix}")));
  _ ← pure (reject_if (negb (bool_decide (ref_oid into_row ∈ cf_causal conflict)))
        (StaleObservation into (hex (default ZERO (head (cf_causal conflict)))) (hex (ref_oid into_row))));
  let ulid := last_segment (ref_name conflict_ref) in
  _ ← pure (reject_if (negb (is_ulid ulid)) (Corrupt (bs "conflict ref {} has no ULID leaf")));
  let resolution_ref := bs "resolutions/" ++ ulid in
  tree ← chosen_tree fuel conflict choice;
  _ ← pure (reject_if (negb (len (cf_causal conflict) =? 2)) (Corrupt (bs "conflict {conflict_oid} causal must name exactly two commits")));
  let commit := mkCommit tree (cf_causal conflict) (agent_id cap) (bs "resolve " ++ hex conflict_oid) (now 1%nat) false None in
  cid ← on_store (repo_put_commit commit);
  into_commit ← on_store (repo_get_commit (ref_oid into_row));
  intro_oids ← on_store (repo_collect_intros (Some (c_tree into_commit)) tree);
  on_meta (publish_resolution (now 2%nat) into (ref_oid into_row) cid (ref_name conflict_ref) conflict_oid resolution_ref
             (agent_id cap) (ref_protected into_row) intro_oids).

(** ** Sealing *)

(** [store.reachable_oids_verified]. *)
Definition reachable_oids_verified (env : option str) (tree : ObjectId) : forge (list ObjectId) :=
  objects ← on_store (repo_reachable_graph_verified env tree TTree); mret (vg_id <$> objects).

(** The agents of the contributions among the objects of a graph. *)
Fixpoint contribution_agents (graph : list VerifiedGraphObject) (contributions : Entries) : forge Entries :=
  match graph with
  | [] => mret contributions
  | o :: graph' =>
      if bool_decide (vg_type o = TContribution) then
        b ← on_store (repo_get_raw_verified (vg_id o));
        c ← pure (Contribution.decode b);
        contribution_agents graph' (<[vg_id o := t_agent c]> contributions)
      else contribution_agents graph' contributions
  end.

Definition verified_provenance_scope (env : option str) (commit_oid tree_oid : ObjectId) : forge (gset ObjectId * Entries) :=
  content ← reachable_oids_verified env tree_oid;
  graph ← on_store (repo_reachable_graph_verified env commit_oid TCommit);
  contributions ← contribution_agents graph ∅;
  mret (list_to_set content, contributions).

(** Each object with the agent that introduced it. *)
Fixpoint attribute (content : list ObjectId) (entries : Entries) : forge Entries :=
  match content with
  | [] => mret entries
  | id :: content' =>
      agent ← on_meta (intro_get id);
      attribute content' (<[id := default (bs "unknown") agent]> entries)
  end.

Definition ZERO_SIG : arr 64 := mkArr (n:=64) (repeat x00 64) I.

Definition seal (env : option str) (seed pk : arr 32) (key : bytes) (now : nat -> Z) (others : Catalog -> Catalog) (cap : Cap)
    (ref tag : str) : forge ObjectId :=
  _ ← pure (check key (now 0%nat) cap Seal (Some ref));
  _ ← pure (check key (now 1%nat) cap Seal (Some (bs "tags/" ++ tag)));
  _ ← pure (reject_if (bad_tag tag) (Invalid (bs "bad tag")));
  row ← on_meta (get_ref ref);
  row ← pure (ok_or row (NotFound ref));
  commit ← on_store (repo_get_commit (ref_oid row));
  '(content, contributions) ← verified_provenance_scope env (ref_oid row) (c_tree commit);
  entries ← attribute (elements content) ∅;
  manifest ← pure (Manifest_new (contributions ∪ entries));
  prov ← on_store (repo_put_blob_data (Provenance.encode manifest));
  let snap := mkSnapshot (c_tree commit) (ref_oid row) tag (now 2%nat) prov pk ZERO_SIG in
  unsigned ← pure (encode_unsigned snap);
  let sig := ed_sign seed (arr_bytes (hash_bytes unsigned)) in
  let snap := mkSnapshot (s_tree snap) (s_commit snap) (s_tag snap) (s_ts snap) (s_prov snap) (s_pk snap) sig in
  snap_oid ← on_store (repo_put_snapshot snap);
  _ ← on_meta (change others);
  _ ← on_meta (commit_seal (now 3%nat) tag snap_oid (ref_oid row) (c_tree commit) (agent_id cap) (Some (ref, ref_oid row)));
  mret snap_oid.

(** ** Verifying *)

(** A manifest lists exactly the objects of the scope. *)
Definition check_manifest (manifest : ProvenanceManifest) (content : gset ObjectId) (contributions : Entries) : Result unit :=
  let expected := if is_legacy manifest then content else content ∪ dom contributions in
  let actual := dom (m_entries manifest) in
  _ ← reject_if (negb (bool_decide (expected ∖ actual = ∅))) (Corrupt (bs "provenance missing reachable object {missing}"));
  _ ← reject_if (negb (bool_decide (actual ∖ expected = ∅))) (Corrupt (bs "provenance contains unreachable object {extra}"));
  if is_legacy manifest then Ok tt
  else reject_if (existsb (fun '(id, agent) => negb (bool_decide (m_entries manifest !! id = Some agent)))
                   (map_to_list contributions))
         (Corrupt (bs "provenance contribution attribution mismatch at {id}")).

Definition verify_signature (pk : arr 32) (snap : Snapshot) : Result unit :=
  unsigned ← encode_unsigned snap;
  _ ← reject_if (negb (ed_valid_key pk)) (Corrupt (bs "{e}"));
  reject_if (negb (ed_verify pk (arr_bytes (hash_bytes unsigned)) (s_sig snap))) (Corrupt (bs "snapshot signature")).

Definition verify_seal_payload (env : option str) (pk : arr 32) (tag : str) (snap_oid commit_oid tree_oid : ObjectId) : forge ObjectId :=
  b ← on_store (repo_get_raw_verified snap_oid);
  snap ← pure (Snapshot_decode b);
  _ ← pure (reject_if (negb (bool_decide (s_pk snap = pk))) (Corrupt (bs "snapshot key is not this forge's trusted seal key")));
  _ ← pure (reject_if (negb (bytes_eqb (s_tag snap) tag)) (Corrupt (bs "snapshot tag mismatch")));
  _ ← pure (reject_if (negb (bool_decide (s_commit snap = commit_oid)) || negb (bool_decide (s_tree snap = tree_oid)))
        (Corrupt (bs "seal table snapshot mismatch")));
  b ← on_store (repo_get_raw_verified commit_oid);
  commit ← pure (Commit_decode b);
  _ ← pure (reject_if (negb (bool_decide (c_tree commit = tree_oid))) (Corrupt (bs "sealed commit tree mismatch")));
  _ ← pure (verify_signature pk snap);
  b ← on_store (repo_get_raw_verified (s_prov snap));
  provenance ← pure (Blob_decode b);
  manifest ← pure (Provenance.decode (blob_data provenance));
  '(content, contributions) ← verified_provenance_scope env commit_oid tree_oid;
  _ ← pure (check_manifest manifest content contributions);
  mret snap_oid.

Definition verify_tag (env : option str) (pk : arr 32) (key : bytes) (now : nat -> Z) (cap : Cap) (tag : str) : forge ObjectId :=
  let tag_ref_name := bs "tags/" ++ tag in
  _ ← pure (check key (now 0%nat) cap Read (Some tag_ref_name));
  row ← on_meta (get_ref tag_ref_name);
  tag_ref ← pure (ok_or row (NotFound (bs "ref {tag_ref_name}")));
  row ← on_meta (get_seal tag);
  '(snap_oid, commit_oid, tree_oid) ← pure (ok_or row (NotFound (bs "tag {tag}")));
  _ ← pure (reject_if (negb (bool_decide (ref_oid tag_ref = snap_oid)) || negb (bytes_eqb (ref_kind tag_ref) (bs "snapshot"))
                       || negb (ref_protected tag_ref) || negb (ref_sealed tag_ref))
        (Corrupt (bs "sealed tag ref metadata mismatch")));
  verify_seal_payload env pk tag snap_oid commit_oid tree_oid.
End integration.
