(* ===== verification/Seal.v ===== *)
(** * Sealed releases verify (crates/forge-api/src/integration.rs)

    What [seal] publishes, [verify_tag] accepts, from then on: at any later
    state of the repository whose store only grew and whose catalog still has
    the tag's rows. *)

From S2P Require Import Prelude RustStd Types Cbor Object Contribution Provenance ObjectStore Store Graph Cap TreeStore History Merge Overlay Namespace Catalog Refs Sessions CatAudit Events CatalogInv Authority Plane Forge Growth Receipts Workspace WorkspaceReads Checkin Integration.

(** ** The agent of a decoded contribution is a Rust string *)

Section keeps.
Context {V : Type} (field : str -> V -> P V) (inv : V -> Prop)
  (Hfield : forall k v r v' r', field k v r = Ok (v', r') -> inv v -> inv v').

Lemma map_of_keeps v0 r v r' : map_of field v0 r = Ok (v, r') -> inv v0 -> inv v.
Proof.
  unfold map_of, map_of_bounded, map_loop. intros H. inv_p.
  revert Ha0. clear Ha. generalize (None : option bytes) as l0. generalize (Z.to_nat a) as n. intros n. revert v0 r0.
  induction n as [|n IH]; intros v0 r0 l0 H Hv; cbn [rep_loop] in H; inv_p; [done|].
  unfold map_body in Ha. inv_p. eapply IH; [done|]. by eapply Hfield.
Qed.
End keeps.

Lemma text_valid r s r' : text r = Ok (s, r') -> utf8_valid s = true.
Proof. unfold text, text_bounded. intros H. inv_p. by apply negb_false_iff. Qed.

Lemma contribution_agent_valid b c : Contribution.decode b = Ok c -> utf8_valid (t_agent c) = true.
Proof.
  intros H. unfold Contribution.decode in H. inv_ok.
  match goal with H : map_of _ _ _ = Ok _ |- _ =>
    apply (map_of_keeps contribution_field (fun v => opt_all (fun s => utf8_valid s = true) (v_agent v))) in H end.
  - cbn in *. by match goal with H : v_agent _ = Some _ |- _ => rewrite H in * end.
  - clear. intros k v r v' r' H Hv. destruct v. unfold contribution_field in H. cbv beta iota in H.
    repeat case_match; inv_p; cbn in *; try done. by eapply text_valid.
  - done.
Qed.

(** ** The scope of a release *)

Section seal.
Context {St B : Type} `{RL : RepoLaws St B} `{HM : Hmac} `{B3 : Blake3} `{ED : Ed25519} `{EL : !Ed25519Laws}.
Implicit Types (f : Forge St) (v : gmap ObjectId bytes) (c : Catalog).

(** The agents of the contributions of a graph. *)
Fixpoint agents_at v (graph : list VerifiedGraphObject) (m : Entries) : Result Entries :=
  match graph with
  | [] => Ok m
  | o :: graph' =>
      if bool_decide (vg_type o = TContribution) then
        b ← object_at v (vg_id o);
        con ← Contribution.decode b;
        agents_at v graph' (<[vg_id o := t_agent con]> m)
      else agents_at v graph' m
  end.

(** [r] is a scope of the release: the objects of its tree, and the agents of
    the contributions in its history. *)
Definition scope_answer (env : option str) (commit_oid tree_oid : ObjectId) v (r : Result (gset ObjectId * Entries)) : Prop :=
  exists rt, walk_answer env tree_oid TTree v rt /\
  match rt with
  | Ok lt => exists rc, walk_answer env commit_oid TCommit v rc /\
      match rc with
      | Ok lc => r = (m ← agents_at v lc ∅; Ok (list_to_set (vg_id <$> lt), m))
      | Err e => r = Err e
      | Panic => False
      end
  | Err e => r = Err e
  | Panic => False
  end.

Lemma agents_grow v v' graph : v ⊆ v' -> forall m m', agents_at v graph m = Ok m' -> agents_at v' graph m = Ok m'.
Proof.
  intros Hsub. induction graph as [|o graph IH]; intros m m'; [done|]. cbn [agents_at].
  case_bool_decide as Ht; [|apply IH]. intros (b & Hb%ok_or_ok & H)%bind_ok. apply bind_ok in H as (con & Hc & H).
  apply bind_ok. exists b. split; [by apply ok_or_ok; eapply lookup_weaken|]. apply bind_ok. exists con. split; [done|].
  by apply IH.
Qed.

Lemma scope_grow env commit_oid tree_oid v v' x r :
  v ⊆ v' -> scope_answer env commit_oid tree_oid v (Ok x) -> scope_answer env commit_oid tree_oid v' r -> r = Ok x.
Proof.
  intros Hsub (rt & Ht & H) (rt' & Ht' & H'). destruct rt as [lt|e|]; [|done..].
  destruct H as (rc & Hc & H). destruct rc as [lc|e|]; [|done..].
  rewrite (walk_answer_grow _ _ _ _ _ _ _ Hsub Ht Ht') in H'. destruct H' as (rc' & Hc' & H').
  rewrite (walk_answer_grow _ _ _ _ _ _ _ Hsub Hc Hc') in H'. symmetry in H.
  apply bind_ok in H as (m & Hm & [= <-]). rewrite (agents_grow _ _ _ Hsub _ _ Hm) in H'. exact H'.
Qed.

(** An answer of the same state is the answer. *)
Lemma scope_fun env commit_oid tree_oid v x r :
  scope_answer env commit_oid tree_oid v (Ok x) -> scope_answer env commit_oid tree_oid v r -> r = Ok x.
Proof. by apply scope_grow. Qed.

Lemma agents_valid v graph : forall m m', agents_at v graph m = Ok m' -> wf_entries m -> wf_entries m'.
Proof.
  induction graph as [|o graph IH]; intros m m'; cbn [agents_at]; [by intros [= <-]|].
  case_bool_decide as Ht; [|apply IH]. intros (b & _ & H)%bind_ok Hm. apply bind_ok in H as (con & Hc & H).
  eapply IH; [done|]. intros i a [[<- <-]|[_ Hi]]%lookup_insert_Some; [by eapply contribution_agent_valid|by eapply Hm].
Qed.

Lemma agents_denotes graph : forall m, denotes (contribution_agents (St:=St) graph m) (fun v _ => agents_at v graph m).
Proof.
  induction graph as [|o graph IH]; intros m; [apply denotes_ret|]. cbn [contribution_agents agents_at].
  case_bool_decide; [|apply IH].
  apply (denotes_bind _ _ (fun v _ => _) (fun b v _ => _)); [apply denotes_store, rp_get_raw_verified|]. intros b.
  apply (denotes_bind _ _ (fun v _ => _) (fun con v _ => _)); [apply denotes_pure|]. intros con. apply IH.
Qed.

Lemma verified_walk_spec env root expected f : f_inv f ->
  wp (on_store (repo_reachable_graph_verified (St:=St) env root expected)) f (fun r f' =>
    same f f' /\ walk_answer env root expected (f_view f) r).
Proof.
  intros Hf. apply wp_on_store. eapply wp_mono; [by apply rp_reachable_graph|]. intros r s' (Hi & Hv & Hw & Hr).
  split; [by split|done].
Qed.

Lemma provenance_scope_spec env commit_oid tree_oid f : f_inv f ->
  wp (verified_provenance_scope (St:=St) env commit_oid tree_oid) f (fun r f' =>
    same f f' /\ scope_answer env commit_oid tree_oid (f_view f) r).
Proof.
  intros Hf. unfold verified_provenance_scope, reachable_oids_verified. do 2 apply wp_bind.
  eapply wp_mono; [by apply verified_walk_spec|]. intros rt f1 [S1 Ht]. destruct rt as [lt|e|]; [|by split; [|exists (Err e)]|done].
  apply wp_ret, wp_bind. eapply wp_mono; [apply verified_walk_spec, S1|]. intros rc f2 [S2 Hc].
  rewrite (same_view _ _ S1) in Hc. assert (same f f2) as S2' by by eapply same_trans.
  destruct rc as [lc|e|]; [|split; [done|exists (Ok lt); split; [done|by exists (Err e)]]|done].
  apply wp_bind. eapply wp_mono; [apply agents_denotes, S2|]. intros r f3 [S3 ->].
  rewrite (same_view _ _ S2'). assert (same f f3) as S3' by by eapply same_trans.
  assert (forall r, r = (m ← agents_at (f_view f) lc ∅; Ok (list_to_set (vg_id <$> lt), m)) ->
    scope_answer env commit_oid tree_oid (f_view f) r) as Hr.
  { intros r Hr. exists (Ok lt). split; [done|]. by exists (Ok lc). }
  destruct (agents_at (f_view f) lc ∅) as [m|e|] eqn:E; [apply wp_ret|..]; (split; [done|by apply Hr]).
Qed.

(** ** What verification checks *)

(** [pk] is a key, and signed everything of [snap] but the signature. *)
Definition signed (pk : arr 32) (snap : Snapshot) : Prop :=
  exists unsigned, encode_unsigned snap = Ok unsigned /\ ed_valid_key pk = true
  /\ ed_verify pk (arr_bytes (hash_bytes unsigned)) (s_sig snap) = true.

Lemma verify_signature_ok pk snap : verify_signature pk snap = Ok tt <-> signed pk snap.
Proof.
  unfold verify_signature, signed. split.
  - intros (u & Hu & H)%bind_ok. apply bind_ok in H as (x & H1%reject_if_ok%negb_false_iff & H2%reject_if_ok%negb_false_iff).
    by exists u.
  - intros (u & -> & H1 & H2). rewrite bind_of_ok, H1. cbn [negb reject_if]. by rewrite bind_of_ok, H2.
Qed.

(** [manifest] lists the objects of the scope, and no others; one that also
    lists contributions names their agents. *)
Definition lists_scope (manifest : ProvenanceManifest) (content : gset ObjectId) (contributions : Entries) : Prop :=
  dom (m_entries manifest) = (if is_legacy manifest then content else content ∪ dom contributions)
  /\ (is_legacy manifest = false -> contributions ⊆ m_entries manifest).

Lemma check_manifest_ok manifest content contributions :
  check_manifest manifest content contributions = Ok tt <-> lists_scope manifest content contributions.
Proof.
  unfold check_manifest, lists_scope. cbv zeta. set (expected := if is_legacy manifest then content else content ∪ dom contributions). split.
  - intros (u & H1%reject_if_ok%negb_false_iff%bool_decide_eq_true & H)%bind_ok.
    apply bind_ok in H as (u' & H2%reject_if_ok%negb_false_iff%bool_decide_eq_true & H).
    split; [by apply leibniz_equiv, (anti_symm (⊆)); apply empty_difference_subseteq_L|]. intros Hl. rewrite Hl in H. apply reject_if_ok in H. apply map_subseteq_spec. intros id agent Hin.
    rewrite <- not_true_iff_false, existsb_exists in H. apply dec_stable. intros Hne. apply H. exists (id, agent).
    split; [by apply list_elem_of_In, elem_of_map_to_list|]. by rewrite bool_decide_false.
  - intros [Hd Hs]. rewrite Hd, !bool_decide_true by apply difference_diag_L. cbn [negb reject_if]. rewrite !bind_of_ok.
    destruct (is_legacy manifest); [done|]. apply reject_if_ok, not_true_iff_false. intros ([id agent] & Hin & H)%existsb_exists.
    apply list_elem_of_In, elem_of_map_to_list in Hin. rewrite bool_decide_true in H; [done|].
    by eapply lookup_weaken; [exact Hin|apply Hs].
Qed.

(** The object [snap_oid] is a genuine release: a snapshot signed by this
    repository's key that names the tag, the commit and its tree, with a
    manifest of exactly the objects below them. *)
Definition verifiable (env : option str) (pk : arr 32) (tag : str) (snap_oid commit_oid tree_oid : ObjectId) v : Prop :=
  exists snap k o manifest content contributions,
    (b ← object_at v snap_oid; Snapshot_decode b) = Ok snap
    /\ s_pk snap = pk /\ s_tag snap = tag /\ s_commit snap = commit_oid /\ s_tree snap = tree_oid
    /\ commit_at v commit_oid k /\ c_tree k = tree_oid
    /\ signed pk snap
    /\ (b ← object_at v (s_prov snap); Blob_decode b) = Ok o
    /\ Provenance.decode (blob_data o) = Ok manifest
    /\ scope_answer env commit_oid tree_oid v (Ok (content, contributions))
    /\ lists_scope manifest content contributions.

Lemma walk_grow_ok env root expected v v' l :
  v ⊆ v' -> walk_answer env root expected v (Ok l) -> walk_answer env root expected v' (Ok l).
Proof.
  intros Hsub (Hok & Hfit & Hg). split; [by eapply view_ok_grow|]. split; [by eapply view_fits_grow|by eapply view_graph_grow].
Qed.

Lemma scope_ok_grow env commit_oid tree_oid v v' x :
  v ⊆ v' -> scope_answer env commit_oid tree_oid v (Ok x) -> scope_answer env commit_oid tree_oid v' (Ok x).
Proof.
  intros Hsub (rt & Ht & H). destruct rt as [lt|e|]; [|done..]. destruct H as (rc & Hc & H).
  destruct rc as [lc|e|]; [|done..]. exists (Ok lt). split; [by eapply walk_grow_ok|]. exists (Ok lc).
  split; [by eapply walk_grow_ok|]. symmetry in H. apply bind_ok in H as (m & Hm & [= <-]).
  by rewrite (agents_grow _ _ _ Hsub _ _ Hm).
Qed.

Lemma verifiable_grow env pk tag snap_oid commit_oid tree_oid v v' :
  v ⊆ v' -> verifiable env pk tag snap_oid commit_oid tree_oid v -> verifiable env pk tag snap_oid commit_oid tree_oid v'.
Proof.
  intros Hsub (snap & k & o & man & content & contributions & H1 & H2 & H3 & H4 & H5 & H6 & H7 & H8 & H9 & H10 & H11 & H12).
  exists snap, k, o, man, content, contributions. split_and!; try done; [by eapply decoded_grow| |by eapply decoded_grow|].
  - apply commit_at_read in H6. apply commit_at_read. by eapply decoded_grow.
  - by eapply scope_ok_grow.
Qed.

Definition d_payload (pk : arr 32) (tag : str) (snap_oid commit_oid tree_oid : ObjectId) v : Result (Snapshot * ProvenanceManifest) :=
  b ← object_at v snap_oid;
  snap ← Snapshot_decode b;
  _ ← reject_if (negb (bool_decide (s_pk snap = pk))) (Corrupt (bs "snapshot key is not this forge's trusted seal key"));
  _ ← reject_if (negb (bytes_eqb (s_tag snap) tag)) (Corrupt (bs "snapshot tag mismatch"));
  _ ← reject_if (negb (bool_decide (s_commit snap = commit_oid)) || negb (bool_decide (s_tree snap = tree_oid)))
        (Corrupt (bs "seal table snapshot mismatch"));
  b ← object_at v commit_oid;
  commit ← Commit_decode b;
  _ ← reject_if (negb (bool_decide (c_tree commit = tree_oid))) (Corrupt (bs "sealed commit tree mismatch"));
  _ ← verify_signature pk snap;
  b ← object_at v (s_prov snap);
  provenance ← Blob_decode b;
  manifest ← Provenance.decode (blob_data provenance);
  Ok (snap, manifest).

Lemma d_payload_ok pk tag snap_oid commit_oid tree_oid v snap man :
  d_payload pk tag snap_oid commit_oid tree_oid v = Ok (snap, man) <->
  exists k o, (b ← object_at v snap_oid; Snapshot_decode b) = Ok snap
    /\ s_pk snap = pk /\ s_tag snap = tag /\ s_commit snap = commit_oid /\ s_tree snap = tree_oid
    /\ commit_at v commit_oid k /\ c_tree k = tree_oid
    /\ verify_signature pk snap = Ok tt
    /\ (b ← object_at v (s_prov snap); Blob_decode b) = Ok o
    /\ Provenance.decode (blob_data o) = Ok man.
Proof.
  unfold d_payload. split.
  - intros (b & Hb & H)%bind_ok. apply bind_ok in H as (s & Hs & H).
    apply bind_ok in H as (u1 & H1%reject_if_ok%negb_false_iff%bool_decide_eq_true & H).
    apply bind_ok in H as (u2 & H2%reject_if_ok%negb_false_iff%bytes_eqb_true & H).
    apply bind_ok in H as (u3 & H3%reject_if_ok%orb_false_iff & H). destruct H3 as [H3 H4].
    apply negb_false_iff, bool_decide_eq_true in H3, H4.
    apply bind_ok in H as (kb & Hk & H). apply bind_ok in H as (k & Hd & H).
    apply bind_ok in H as (u4 & H5%reject_if_ok%negb_false_iff%bool_decide_eq_true & H).
    apply bind_ok in H as ([] & H6 & H). apply bind_ok in H as (pb & Hp & H). apply bind_ok in H as (o & Ho & H).
    apply bind_ok in H as (m & Hm & [= <- <-]). exists k, o. split_and!; try done.
    + apply bind_ok. by exists b.
    + apply commit_at_read, bind_ok. by exists kb.
    + apply bind_ok. by exists pb.
  - intros (k & o & (b & Hb & Hs)%bind_ok & <- & <- & <- & <- & (kb & Hk & Hd)%commit_at_read%bind_ok & H5 & H6 & (pb & Hp & Ho)%bind_ok & Hm).
    rewrite Hb, bind_of_ok, Hs, bind_of_ok, !bool_decide_true, (proj2 (bytes_eqb_true _ _) eq_refl) by done.
    cbn [negb orb reject_if]. rewrite !bind_of_ok, Hk, bind_of_ok, Hd, bind_of_ok, bool_decide_true by done.
    cbn [negb reject_if]. rewrite bind_of_ok.
    by rewrite H6, bind_of_ok, Hp, bind_of_ok, Ho, bind_of_ok, Hm.
Qed.

(** The answer of [verify_seal_payload]. *)
Definition payload_answer (env : option str) (pk : arr 32) (tag : str) (snap_oid commit_oid tree_oid : ObjectId) v (r : Result ObjectId) : Prop :=
  match d_payload pk tag snap_oid commit_oid tree_oid v with
  | Ok (snap, man) => exists rs, scope_answer env commit_oid tree_oid v rs
      /\ r = ('(content, contributions) ← rs; _ ← check_manifest man content contributions; Ok snap_oid)
  | Err e => r = Err e
  | Panic => r = Panic
  end.

Ltac sync lem S := apply wp_bind; eapply wp_mono; [apply lem; apply S|]; intros ? ? [? ->];
  match goal with
  | S : same ?f ?f1, S' : same ?f1 ?f2 |- _ =>
      rewrite ?(same_view _ _ S), ?(same_meta _ _ S); pose proof (same_trans _ _ _ S S') as S''; clear S S'; rename S'' into S
  end.
Ltac sync_pure := apply wp_bind, wp_pure.

Lemma payload_spec env pk tag snap_oid commit_oid tree_oid f : f_inv f ->
  wp (verify_seal_payload (St:=St) env pk tag snap_oid commit_oid tree_oid) f (fun r f' =>
    same f f' /\ payload_answer env pk tag snap_oid commit_oid tree_oid (f_view f) r).
Proof.
  intros Hf. pose proof (same_refl f Hf) as S. unfold verify_seal_payload, payload_answer, d_payload.
  sync (denotes_store _ _ (rp_get_raw_verified snap_oid)) S.
  destruct (object_at (f_view f) snap_oid) as [b|e|]; [|by split..]. rewrite bind_of_ok.
  sync_pure. destruct (Snapshot_decode b) as [snap|e|]; [|by split..]. rewrite bind_of_ok.
  sync_pure. destruct (reject_if _ _) as [u|e|]; [|by split..]. rewrite bind_of_ok.
  sync_pure. destruct (reject_if _ _) as [u1|e|]; [|by split..]. rewrite bind_of_ok.
  sync_pure. destruct (reject_if _ _) as [u2|e|]; [|by split..]. rewrite bind_of_ok.
  sync (denotes_store _ _ (rp_get_raw_verified commit_oid)) S.
  destruct (object_at (f_view f) commit_oid) as [kb|e|]; [|by split..]. rewrite bind_of_ok.
  sync_pure. destruct (Commit_decode kb) as [k|e|]; [|by split..]. rewrite bind_of_ok.
  sync_pure. destruct (reject_if _ _) as [u3|e|]; [|by split..]. rewrite bind_of_ok.
  sync_pure. destruct (verify_signature _ _) as [u4|e|]; [|by split..]. rewrite bind_of_ok.
  sync (denotes_store _ _ (rp_get_raw_verified (s_prov snap))) S.
  destruct (object_at (f_view f) (s_prov snap)) as [pb|e|]; [|by split..]. rewrite bind_of_ok.
  sync_pure. destruct (Blob_decode pb) as [o|e|]; [|by split..]. rewrite bind_of_ok.
  sync_pure. destruct (Provenance.decode _) as [man|e|]; [|by split..]. rewrite bind_of_ok.
  apply wp_bind. eapply wp_mono; [apply provenance_scope_spec, S|]. intros rs f2 [S2 Hs]. rewrite (same_view _ _ S) in Hs.
  pose proof (same_trans _ _ _ S S2) as S3. destruct rs as [[content contributions]|e|]; [|split; [done|]; by eexists..].
  sync_pure. destruct (check_manifest man content contributions) as [u5|e|] eqn:Em.
  - apply wp_ret. split; [done|]. exists (Ok (content, contributions)). split; [done|]. by rewrite bind_of_ok, Em.
  - split; [done|]. exists (Ok (content, contributions)). split; [done|]. by rewrite bind_of_ok, Em.
  - split; [done|]. exists (Ok (content, contributions)). split; [done|]. by rewrite bind_of_ok, Em.
Qed.

Lemma payload_ok env pk tag snap_oid commit_oid tree_oid v r x :
  payload_answer env pk tag snap_oid commit_oid tree_oid v r ->
  r = Ok x <-> x = snap_oid /\ verifiable env pk tag snap_oid commit_oid tree_oid v.
Proof.
  unfold payload_answer. intros Hr. split.
  - intros ->. destruct (d_payload _ _ _ _ _ _) as [[snap man]|e|] eqn:E; [|done..].
    destruct Hr as (rs & Hs & Hr). symmetry in Hr. apply bind_ok in Hr as ([content contributions] & -> & Hr).
    apply bind_ok in Hr as ([] & Hm & [= <-]). split; [done|].
    apply d_payload_ok in E as (k & o & E). exists snap, k, o, man, content, contributions.
    rewrite <- verify_signature_ok, <- check_manifest_ok. naive_solver.
  - intros (-> & snap & k & o & man & content & contributions & H). rewrite <- verify_signature_ok, <- check_manifest_ok in H.
    assert (d_payload pk tag snap_oid commit_oid tree_oid v = Ok (snap, man)) as E.
    { apply d_payload_ok. exists k, o. naive_solver. }
    rewrite E in Hr. destruct Hr as (rs & Hs & ->). destruct H as (_ & _ & _ & _ & _ & _ & _ & _ & _ & _ & H11 & H12).
    rewrite (scope_fun _ _ _ _ _ _ H11 Hs), bind_of_ok, H12. done.
Qed.

(** The catalog's rows of a sealed tag. *)
Definition tag_rows c (tag : str) (snap_oid commit_oid tree_oid : ObjectId) : Prop :=
  (exists row, Catalog.refs c !! (bs "tags/" ++ tag) = Some row /\ rc_oid row = snap_oid /\ rc_kind row = bs "snapshot"
    /\ rc_protected row = true /\ rc_sealed row = true)
  /\ exists s, seals c !! tag = Some s /\ sl_snap s = snap_oid /\ sl_commit s = commit_oid /\ sl_tree s = tree_oid.

Lemma query_get_seal tag : query (get_seal tag).
Proof. unfold get_seal. auto with query. Qed.

Lemma get_ref_run name c : get_ref name c = (Ok (ref_row name <$> Catalog.refs c !! name), c).
Proof. done. Qed.
Lemma get_seal_run tag c : get_seal tag c = (Ok ((fun s => (sl_snap s, sl_commit s, sl_tree s)) <$> seals c !! tag), c).
Proof. done. Qed.

Definition d_tag (tag : str) c : Result (ObjectId * ObjectId * ObjectId) :=
  r ← ok_or (ref_row (bs "tags/" ++ tag) <$> Catalog.refs c !! (bs "tags/" ++ tag)) (NotFound (bs "ref {tag_ref_name}"));
  x ← ok_or ((fun s => (sl_snap s, sl_commit s, sl_tree s)) <$> seals c !! tag) (NotFound (bs "tag {tag}"));
  _ ← reject_if (negb (bool_decide (ref_oid r = x.1.1)) || negb (bytes_eqb (ref_kind r) (bs "snapshot"))
                       || negb (ref_protected r) || negb (ref_sealed r)) (Corrupt (bs "sealed tag ref metadata mismatch"));
  Ok x.

Lemma d_tag_ok tag c snap_oid commit_oid tree_oid :
  d_tag tag c = Ok (snap_oid, commit_oid, tree_oid) <-> tag_rows c tag snap_oid commit_oid tree_oid.
Proof.
  unfold d_tag, tag_rows. split.
  - intros (r & (row & Hrow & ->)%ok_or_ok%fmap_Some & H)%bind_ok.
    apply bind_ok in H as (x & (s & Hs & ->)%ok_or_ok%fmap_Some & H).
    apply bind_ok in H as (u & H1%reject_if_ok & [= <- <- <-]). cbn [fst snd ref_oid ref_kind ref_protected ref_sealed ref_row] in *.
    rewrite !orb_false_iff, !negb_false_iff, bool_decide_eq_true, bytes_eqb_true in H1. split; [exists row|exists s]; naive_solver.
  - intros [(row & Hrow & Ho & Hk & Hp & Hsl) (s & Hs & H1 & H2 & H3)].
    rewrite Hrow, Hs. cbn [fmap option_fmap option_map ok_or]. rewrite !bind_of_ok.
    cbn [fst snd ref_oid ref_kind ref_protected ref_sealed ref_row]. rewrite Hk, Hp, Hsl, bool_decide_true by congruence.
    rewrite (proj2 (bytes_eqb_true _ _) eq_refl). cbn [negb orb reject_if]. rewrite bind_of_ok. congruence.
Qed.

Lemma verify_tag_spec env pk key now cap tag f : f_inv f ->
  wp (verify_tag (St:=St) env pk key now cap tag) f (fun r f' => same f f' /\
    match check key (now 0%nat) cap Read (Some (bs "tags/" ++ tag)) with
    | Ok _ => match d_tag tag (meta f) with
              | Ok (snap_oid, commit_oid, tree_oid) => payload_answer env pk tag snap_oid commit_oid tree_oid (f_view f) r
              | Err e => r = Err e
              | Panic => r = Panic
              end
    | Err e => r = Err e
    | Panic => r = Panic
    end).
Proof.
  intros Hf. pose proof (same_refl f Hf) as S. unfold verify_tag, d_tag.
  sync_pure. destruct (check _ _ _ _ _) as [[]|e|]; [|by split..].
  sync (denotes_query _ (query_get_ref (bs "tags/" ++ tag))) S. rewrite get_ref_run. cbn [fst].
  sync_pure. destruct (ok_or _ _) as [r|e|]; [|by split..]. rewrite bind_of_ok.
  sync (denotes_query _ (query_get_seal tag)) S. rewrite get_seal_run. cbn [fst].
  sync_pure. destruct (ok_or _ _) as [[[snap_oid commit_oid] tree_oid]|e|]; [|by split..]. rewrite bind_of_ok.
  sync_pure. cbn [fst snd]. destruct (reject_if _ _) as [u|e|]; [|by split..]. rewrite bind_of_ok.
  eapply wp_mono; [apply payload_spec, S|]. intros r' f' [S' H']. rewrite (same_view _ _ S) in H'.
  split; [by eapply same_trans|done].
Qed.

Lemma verify_tag_ok env pk key now cap tag f r f' :
  f_inv f -> verify_tag (St:=St) env pk key now cap tag f = (r, f') -> same f f' /\
  forall x, r = Ok x <-> check key (now 0%nat) cap Read (Some (bs "tags/" ++ tag)) = Ok tt /\
    exists commit_oid tree_oid, tag_rows (meta f) tag x commit_oid tree_oid
      /\ verifiable env pk tag x commit_oid tree_oid (f_view f).
Proof.
  intros Hf E. destruct (wp_elim _ _ _ _ _ (verify_tag_spec env pk key now cap tag f Hf) E) as [Hs Hr].
  split; [done|]. intros x. destruct (check _ _ _ _ _) as [[]|e|]; [|split; [congruence|naive_solver]..].
  assert (forall a b d a' b' d', d_tag tag (meta f) = Ok (a, b, d) -> tag_rows (meta f) tag a' b' d' -> a' = a /\ b' = b /\ d' = d) as Hfun.
  { intros a b d a' b' d' H H'%d_tag_ok. rewrite H in H'. by injection H' as <- <- <-. }
  destruct (d_tag tag (meta f)) as [[[snap_oid commit_oid] tree_oid]|e|] eqn:Ed.
  - rewrite (payload_ok _ _ _ _ _ _ _ _ x Hr). split.
    + intros [-> Hv]. split; [done|]. exists commit_oid, tree_oid. split; [by apply d_tag_ok|done].
    + intros (_ & co & tr & Hrows & Hv). destruct (Hfun _ _ _ _ _ _ eq_refl Hrows) as (-> & -> & ->). done.
  - split; [congruence|]. intros (_ & co & tr & Hrows%d_tag_ok & _). congruence.
  - split; [congruence|]. intros (_ & co & tr & Hrows%d_tag_ok & _). congruence.
Qed.

(** ** What a seal publishes *)

Definition attributed c (content : list ObjectId) (m : Entries) : Entries :=
  fold_left (fun m id => <[id := default (bs "unknown") (in_agent <$> intros_tab c !! id)]> m) content m.

Lemma intro_get_run id c : intro_get id c = (Ok (in_agent <$> intros_tab c !! id), c).
Proof. done. Qed.

Lemma attribute_denotes content : forall m, denotes (attribute (St:=St) content m) (fun _ c => Ok (attributed c content m)).
Proof.
  induction content as [|id content IH]; intros m; [exact (denotes_ret m)|].
  eapply denotes_ext; [apply (denotes_bind _ _ (fun _ c => (intro_get id c).1) (fun agent v c => Ok (attributed c content (<[id := default (bs "unknown") agent]> m))))|done].
  - apply denotes_query. unfold intro_get. auto with query.
  - intros agent. apply IH.
Qed.

Lemma attributed_dom c content : forall m, dom (attributed c content m) = list_to_set content ∪ dom m.
Proof.
  unfold attributed. induction content as [|id content IH]; intros m; cbn [fold_left]; [set_solver|].
  rewrite IH, dom_insert_L. set_solver.
Qed.

(** The agents the catalog names are Rust strings. *)
Definition intro_strings c : Prop := map_Forall (fun _ r => utf8_valid (in_agent r) = true) (intros_tab c).

Lemma attributed_wf c content : intro_strings c -> forall m, wf_entries m -> wf_entries (attributed c content m).
Proof.
  intros Hc. unfold attributed. induction content as [|id content IH]; intros m Hm; [done|]. cbn [fold_left].
  apply IH. intros i a [[<- <-]|[_ Hi]]%lookup_insert_Some; [|by eapply Hm].
  destruct (intros_tab c !! id) as [r|] eqn:E; [by eapply Hc|done].
Qed.

(** A manifest of a scope checks out against it. *)
Lemma new_manifest_checks contributions entries content man :
  Manifest_new (contributions ∪ entries) = Ok man -> dom entries = content -> check_manifest man content contributions = Ok tt.
Proof.
  unfold Manifest_new. intros (u & _ & [= <-])%bind_ok Hd. unfold check_manifest, is_legacy.
  cbn [m_encoding m_entries]. rewrite bool_decide_false by done. rewrite dom_union_L, Hd.
  rewrite !bool_decide_true by set_solver. cbn [negb reject_if]. rewrite !bind_of_ok. apply reject_if_ok.
  apply not_true_iff_false. intros ([id agent] & Hin & H)%existsb_exists. apply list_elem_of_In, elem_of_map_to_list in Hin.
  rewrite bool_decide_true in H by (by apply lookup_union_Some_l). done.
Qed.

Lemma new_manifest_read entries man : wf_entries entries -> Manifest_new entries = Ok man ->
  Provenance.decode (Provenance.encode man) = Ok man /\ len (Provenance.encode man) <= usize_max.
Proof.
  unfold Manifest_new. intros Hw ([] & Hv & [= <-])%bind_ok. split.
  - apply manifest_decode_encode; [done|by vm_compute|done].
  - apply bind_ok in Hv as (n & Hn & Hle%reject_if_ok%Z.ltb_ge). rewrite <- (manifest_encoded_len_ok _ _ _ Hn).
    etrans; [done|by vm_compute].
Qed.

Lemma commit_seal_rows ts tag snap commit tree agent expect c u c' :
  commit_seal ts tag snap commit tree agent expect c = (Ok u, c') -> tag_rows c' tag snap commit tree.
Proof.
  intros H. unfold commit_seal in H. apply db_transaction in H.
  apply db_bind in H as (u0 & c0 & H0 & H). apply db_pure in H0 as [H0 ->].
  apply db_bind in H as (b & c0 & H1 & H). apply db_bind in H as (u1 & c2 & H2 & H).
  apply db_bind in H as (u2 & c3 & H3 & H). unfold landmark in H. inv_db.
  split; [|by exists (mkSealCols snap commit tree ts); cbn; rewrite lookup_insert_eq].
  exists (mkRefCols snap (bs "snapshot") true true ts). cbn. by rewrite lookup_insert_eq.
Qed.

Lemma tag_char_ascii b : tag_char b = true -> b2z b < 128.
Proof. destruct b; vm_compute; done. Qed.

Lemma good_tag tag : bad_tag tag = false -> str_ok tag.
Proof.
  unfold bad_tag. intros [[H1 H2]%orb_false_iff H3]%orb_false_iff. apply negb_false_iff in H1. apply Z.ltb_ge in H3. split.
  - apply utf8_valid_ascii, Forall_forall. intros b Hb. apply tag_char_ascii. rewrite forallb_forall in H1.
    by apply H1, list_elem_of_In.
  - unfold usize_max, u64_max. lia.
Qed.

(** The signature lists_scope everything but itself. *)
Lemma signed_verifies seed snap unsigned :
  encode_unsigned snap = Ok unsigned ->
  verify_signature (ed_public seed) (mkSnapshot (s_tree snap) (s_commit snap) (s_tag snap) (s_ts snap) (s_prov snap) (s_pk snap)
    (ed_sign seed (arr_bytes (hash_bytes unsigned)))) = Ok tt.
Proof.
  intros Hu. unfold verify_signature. assert (forall sig, encode_unsigned (mkSnapshot (s_tree snap) (s_commit snap) (s_tag snap) (s_ts snap)
    (s_prov snap) (s_pk snap) sig) = Ok unsigned) as -> by (intros; exact Hu).
  rewrite bind_of_ok, ed_key_valid. cbn [negb reject_if s_sig]. by rewrite bind_of_ok, ed_sign_verifies.
Qed.

Lemma seal_spec env seed key now others cap ref tag f :
  f_inv f -> (forall i, in_u64 (now i)) -> intro_strings (meta f) ->
  wp (seal (St:=St) env seed (ed_public seed) key now others cap ref tag) f (fun r f' => grown f f' /\
    match r with
    | Ok snap_oid => exists commit_oid tree_oid row,
        Catalog.refs (meta f) !! ref = Some row /\ rc_oid row = commit_oid /\ bad_tag tag = false
        /\ (exists ts, meta f' = (run (OpSeal ts tag snap_oid commit_oid tree_oid (agent_id cap) (Some (ref, commit_oid))) (others (meta f))).2)
        /\ tag_rows (meta f') tag snap_oid commit_oid tree_oid
        /\ verifiable env (ed_public seed) tag snap_oid commit_oid tree_oid (f_view f')
    | _ => meta f' = meta f \/ meta f' = others (meta f)
    end).
Proof.
  intros Hf Hnow Hstr. pose proof (same_refl f Hf) as S. unfold seal.
  assert (forall f', same f f' -> grown f f') as Hsg by (intros; by apply same_grown).
  assert (forall f', same f f' -> meta f' = meta f \/ meta f' = others (meta f)) as Hsm by (intros f' H; left; apply H).
  sync_pure. destruct (check _ _ _ _ _) as [[]|e|]; [|by split; auto..].
  sync_pure. destruct (check _ _ _ _ _) as [[]|e|]; [|by split; auto..].
  sync_pure. destruct (bad_tag tag) eqn:Etag; [by split; auto|]. cbn [reject_if].
  sync (denotes_query _ (query_get_ref ref)) S. rewrite get_ref_run. cbn [fst].
  sync_pure. destruct (Catalog.refs (meta f) !! ref) as [row|] eqn:Erow; [|by split; auto]. cbn [fmap option_fmap option_map ok_or].
  cbn [ref_oid ref_row].
  sync (denotes_store _ _ (rp_get_commit (rc_oid row))) S.
  destruct (b ← object_at (f_view f) (rc_oid row); Commit_decode b) as [k|e|] eqn:Ek; [|by split; auto..].
  apply wp_bind. eapply wp_mono; [apply provenance_scope_spec, S|]. intros rs f2 [S2 Hscope]. rewrite (same_view _ _ S) in Hscope.
  pose proof (same_trans _ _ _ S S2) as S3. clear S S2. rename S3 into S.
  destruct rs as [[content contributions]|e|]; [|by split; auto..].
  sync attribute_denotes S. sync_pure. set (entries := attributed (meta f) (elements content) ∅).
  destruct (Manifest_new (contributions ∪ entries)) as [man|e|] eqn:Eman; [|by split; auto..].
  assert (wf_entries (contributions ∪ entries)) as Hwf.
  { assert (wf_entries contributions) as Hc.
    { destruct Hscope as (rt & _ & H). destruct rt as [lt|e|]; [|done..]. destruct H as (rc & _ & H).
      destruct rc as [lc|e|]; [|done..]. symmetry in H. apply bind_ok in H as (m & Hm & [= <- <-]). by eapply agents_valid. }
    assert (wf_entries entries) as He by (by apply attributed_wf).
    intros i a [Hi|[_ Hi]]%lookup_union_Some_raw; [by eapply Hc|by eapply He]. }
  assert (dom entries = content) as Hdom by (unfold entries; rewrite attributed_dom; set_solver).
  destruct (new_manifest_read _ _ Hwf Eman) as [Hman Hlen].
  pose proof (Hsg _ S) as G2. pose proof (same_meta _ _ S) as M2. clear S.
  apply wp_bind. eapply wp_mono; [apply (wp_store_adds _ _ _ (rp_put_blob_data (Provenance.encode man))); [apply G2|]|].
  { intros o H%Blob_encode_type. by eapply other_sound. }
  intros rp f3 (G3' & M3 & Hp). pose proof (grown_trans _ _ _ G2 G3') as G3. rewrite M2 in M3.
  destruct rp as [prov|e|]; [|by split; [|left]..]. destruct Hp as (pb & Hpb & Hprov). cbv zeta.
  cbn [s_tree s_commit s_tag s_ts s_prov s_pk].
  set (snap0 := mkSnapshot (c_tree k) (rc_oid row) tag (now 2%nat) prov (ed_public seed) ZERO_SIG).
  sync_pure. destruct (encode_unsigned snap0) as [unsigned|e|] eqn:Eun; [|by split; [|left]..].
  pose proof (signed_verifies seed snap0 unsigned Eun) as Hsig. cbn [s_tree s_commit s_tag s_ts s_prov s_pk snap0] in Hsig.
  set (snap := mkSnapshot _ _ _ _ _ _ (ed_sign seed _)) in *.
  apply wp_bind. eapply wp_mono; [apply (wp_store_adds _ _ _ (rp_put_snapshot snap)); [apply G3|]|].
  { intros o H%Snapshot_encode_type. by eapply other_sound. }
  intros rs f4 (G4' & M4 & Hs). pose proof (grown_trans _ _ _ G3 G4') as G4. rewrite M3 in M4.
  destruct rs as [snap_oid|e|]; [|by split; [|left]..]. destruct Hs as (sb & Hsb & Hsnap).
  apply wp_bind, wp_on_meta. unfold wp at 1, change. cbn [fst snd meta store].
  apply wp_bind, wp_on_meta. cbn [meta store]. rewrite M4. apply wp_intro. intros r c' Ec.
  pose proof (with_catalog_grown f f4 c' G4) as G. destruct r as [[]|e|]; [|split; [done|right; by apply transaction_error in Ec]..].
  apply wp_ret. split; [done|]. exists (rc_oid row), (c_tree k), row. split; [done|]. split; [done|]. split; [done|].
  split; [by exists (now 3%nat); cbn [run meta]; rewrite Ec|].
  split; [by eapply commit_seal_rows|].
  exists snap, k, (mkBlob (Provenance.encode man)), man, content, contributions. cbn [meta store f_view].
  assert (f_view f4 !! prov = Some pb) as Hprov' by (eapply lookup_weaken; [done|apply G4']).
  rewrite <- verify_signature_ok, <- check_manifest_ok. split_and!; try done.
  - apply bind_ok. exists sb. split; [by apply ok_or_ok|]. apply Snapshot_decode_spec. split; [|done].
    split; [by apply good_tag|apply Hnow].
  - apply commit_at_read. eapply decoded_grow; [apply G4|done].
  - apply bind_ok. exists pb. split; [by apply ok_or_ok|]. by apply Blob_decode_spec.
  - apply (scope_ok_grow _ _ _ (f_view f)); [apply G4|done].
  - by eapply new_manifest_checks.
Qed.
End seal.

(** ** A sealed tag stays sealed *)

(** What operations of the catalog lead to. *)
Definition later (c c' : Catalog) : Prop := rtc (fun c c' => exists op, c' = (run op c).2) c c'.

Lemma steps_seals allow (Q : Prop) c c' tag s :
  steps allow Q c c' -> seals c !! tag = Some s -> seals c' !! tag = Some s.
Proof.
  induction 1 as [|c ev c' Hg _ _ IH]; [done|]. intros Hs. apply IH. clear IH. destruct ev; try done.
  cbn in *. destruct Hg as (_ & _ & Hn & _). rewrite lookup_insert_ne; [done|congruence].
Qed.

Lemma run_tag_rows op c tag snap_oid commit_oid tree_oid :
  tag_rows c tag snap_oid commit_oid tree_oid -> tag_rows (run op c).2 tag snap_oid commit_oid tree_oid.
Proof.
  intros [(row & Hrow & H1 & H2 & H3 & H4) (s & Hs & H)]. split.
  - exists row. split; [|done]. eapply steps_fixed; [apply run_steps|done|by left].
  - exists s. split; [|done]. eapply steps_seals; [apply run_steps|done].
Qed.

Lemma later_tag_rows c c' tag snap_oid commit_oid tree_oid :
  later c c' -> tag_rows c tag snap_oid commit_oid tree_oid -> tag_rows c' tag snap_oid commit_oid tree_oid.
Proof. induction 1 as [|c c1 c' (op & ->) _ IH]; [done|]. intros H. by apply IH, run_tag_rows. Qed.

(** ** Properties *)

Section properties.
Context {St B : Type} `{RL : RepoLaws St B} `{HM : Hmac} `{B3 : Blake3} `{ED : Ed25519} `{EL : !Ed25519Laws}.

(** C20: [verify_tag] accepts exactly the genuine releases: the caller may read
    the tag, the catalog holds its sealed ref and its seal, and the object
    they name is a snapshot signed by this repository's key, of that commit
    and that commit's tree, whose manifest lists exactly the objects below
    the tree and the receipts in the history, with the agents of the
    receipts. It only looks. *)
Theorem verify_tag_is_exact (env : option str) (pk : arr 32) (key : bytes) (now : nat -> Z) (cap : Cap) (tag : str)
    (f f' : Forge St) (r : Result ObjectId)
    (Hf : f_inv f) (E : verify_tag env pk key now cap tag f = (r, f')) :
  same f f' /\
  forall x, r = Ok x <-> check key (now 0%nat) cap Read (Some (bs "tags/" ++ tag)) = Ok tt /\
    exists commit_oid tree_oid, tag_rows (meta f) tag x commit_oid tree_oid
      /\ verifiable env pk tag x commit_oid tree_oid (f_view f).
Proof. exact (verify_tag_ok env pk key now cap tag f r f' Hf E). Qed.

(** C21: A sealed release verifies ever after: once [seal] has answered with a
    snapshot, [verify_tag] of the tag answers with the same snapshot, to any
    caller who may read the tag, however the store has grown and whatever
    operations the catalog has run since. *)
Theorem sealed_tags_verify (env : option str) (seed : arr 32) (key : bytes) (now now' : nat -> Z) (others : Catalog -> Catalog)
    (cap reader : Cap) (ref tag : str) (f f1 f2 f3 : Forge St) (snap_oid : ObjectId) (r : Result ObjectId)
    (Hf : f_inv f) (Hnow : forall i, in_u64 (now i)) (Hstr : intro_strings (meta f))
    (E : seal env seed (ed_public seed) key now others cap ref tag f = (Ok snap_oid, f1))
    (Hg : grown f1 f2) (Hl : later (meta f1) (meta f2))
    (Hc : check key (now' 0%nat) reader Read (Some (bs "tags/" ++ tag)) = Ok tt)
    (E' : verify_tag env (ed_public seed) key now' reader tag f2 = (r, f3)) :
  r = Ok snap_oid.
Proof.
  destruct (wp_elim _ _ _ _ _ (seal_spec env seed key now others cap ref tag f Hf Hnow Hstr) E) as [_ H].
  destruct H as (commit_oid & tree_oid & row & _ & _ & _ & _ & Hrows & Hv).
  apply (verify_tag_ok env (ed_public seed) key now' reader tag f2 r f3 (gr_inv _ _ Hg) E'). split; [done|].
  exists commit_oid, tree_oid. split; [by eapply later_tag_rows|]. eapply verifiable_grow; [apply Hg|done].
Qed.
End properties.

(** ** Witnesses *)

(** A stand-in for Ed25519: the signature is a checksum of seed and message. *)
Definition sum_sign (seed : arr 32) (msg : bytes) : arr 64 :=
  default ZERO_SIG (arr_of 64 (arr_bytes seed ++ arr_bytes (blake3 (arr_bytes seed ++ msg)))).
#[local] Instance sum_ed25519 : Ed25519 := {|
  ed_public seed := seed;
  ed_sign := sum_sign;
  ed_valid_key _ := true;
  ed_verify pk msg sig := bool_decide (sig = sum_sign pk msg)
|}.
#[local] Instance sum_ed25519_laws : Ed25519Laws.
Proof. split; [done|]. intros seed msg. by apply bool_decide_eq_true_2. Qed.

Definition demo_seed : arr 32 := demo_oid x09.
Definition demo_seal_run := seal None demo_seed demo_seed demo_key (fun _ => 7) (fun c => c) demo_cap (bs "main") (bs "v1") demo_forge.
Definition demo_sealed : Forge (Guarded MapLru) := demo_seal_run.2.
Definition demo_snap : ObjectId := match demo_seal_run.1 with Ok id => id | _ => ZERO end.

Lemma demo_seal_runs : demo_seal_run = (Ok demo_snap, demo_sealed).
Proof.
  assert (is_ok demo_seal_run.1 = true) as H by (by vm_compute). unfold demo_snap, demo_sealed. revert H.
  generalize demo_seal_run. intros [[id|e|] g] H; [reflexivity|discriminate H..].
Qed.

Lemma demo_sealed_inv : f_inv demo_sealed.
Proof.
  assert (forall i, in_u64 ((fun _ : nat => 7) i)) as Hn by (intros i; unfold in_u64, u64_max; lia).
  assert (intro_strings (meta demo_forge)) as Hs by (intros i r Hr; vm_compute in Hr; discriminate Hr).
  pose proof (wp_elim _ _ _ _ _ (seal_spec None demo_seed demo_key (fun _ => 7) (fun c => c) demo_cap (bs "main") (bs "v1") demo_forge
    demo_forge_inv Hn Hs) demo_seal_runs) as [Hg _]. apply Hg.
Qed.

Lemma sealed_tags_verify_witness :
  (verify_tag None demo_seed demo_key (fun _ => 8) demo_cap (bs "v1") demo_sealed).1 = Ok demo_snap.
Proof.
  assert (forall i, in_u64 ((fun _ : nat => 7) i)) as Hn by (intros i; unfold in_u64, u64_max; lia).
  assert (intro_strings (meta demo_forge)) as Hs by (intros i r Hr; vm_compute in Hr; discriminate Hr).
  destruct (verify_tag None demo_seed demo_key (fun _ => 8) demo_cap (bs "v1") demo_sealed) as [r f3] eqn:E.
  apply (sealed_tags_verify None demo_seed demo_key (fun _ => 7) (fun _ => 8) (fun c => c) demo_cap demo_cap (bs "main") (bs "v1")
    demo_forge demo_sealed demo_sealed f3 demo_snap r demo_forge_inv Hn Hs demo_seal_runs).
  - apply grown_refl, demo_sealed_inv.
  - apply rtc_refl.
  - vm_compute. reflexivity.
  - exact E.
Defined.

Lemma verify_tag_is_exact_witness :
  exists commit_oid tree_oid, tag_rows (meta demo_sealed) (bs "v1") demo_snap commit_oid tree_oid
    /\ verifiable None demo_seed (bs "v1") demo_snap commit_oid tree_oid (f_view demo_sealed).
Proof.
  destruct (verify_tag None demo_seed demo_key (fun _ => 8) demo_cap (bs "v1") demo_sealed) as [r f3] eqn:E.
  assert (r = Ok demo_snap) as Hr.
  { change r with (r, f3).1. rewrite <- E. vm_compute. reflexivity. }
  exact (proj2 (proj1 (proj2 (verify_tag_is_exact None demo_seed demo_key (fun _ => 8) demo_cap (bs "v1") demo_sealed f3 r
    demo_sealed_inv E) demo_snap) Hr)).
Defined.
