(* ===== verification/Sound.v ===== *)
(** * A sound repository

    The catalog and the object store agree: every ref, landmark, pin, mount and
    staged row names a stored object of the type its table says, the commits
    and conflicts of the store are sound ([Growth]), and the catalog is where its
    operations lead.  The operations of the catalog keep the tables sound when
    they are given sound arguments. *)

From S2P Require Import Prelude RustStd Types Tree TreeStore Object Contribution ObjectStore Store Graph History Overlay Namespace Catalog Refs Sessions CatAudit Events CatalogInv Publish Staging Plane Forge Growth WorkspaceReads Checkin.

(** ** The tables *)

Section tables.
Implicit Types (v : gmap ObjectId bytes) (c : Catalog).

(** The stored object has the type the tables spell [kind]. *)
Definition typed v (id : ObjectId) (kind : str) : Prop :=
  exists ty, catalog_object_type kind = Some ty /\ type_at v id = Ok ty.

(** A mount's base is a commit, and a mount to write to has one. *)
Definition sound_mount v (row : MountCols) : Prop :=
  match mc_base row with Some base => type_at v base = Ok TCommit | None => mc_mode row <> bs "rw" end.

(** A staged path has no empty component, a staged file is stored. *)
Definition sound_row v (path : str) (blob : option ObjectId) : Prop :=
  Forall plain (split_byte "/"%byte path) /\ forall id, blob = Some id -> type_at v id = Ok TBlob.

Record sound_tables v c : Prop := mk_sound_tables {
  st_refs : map_Forall (fun _ row => typed v (rc_oid row) (rc_kind row)) (refs c);
  st_landmarks : map_Forall (fun id row => typed v id (lm_kind row)) (landmarks c);
  st_pins : map_Forall (fun _ row => forall pin, ns_pinned row = Some pin -> type_at v pin = Ok TCommit) (namespaces c);
  st_mounts : map_Forall (fun _ row => sound_mount v row) (mounts c);
  st_staged : map_Forall (fun k row => sound_row v k.2 row.1) (overlay_rows c);
  st_intros : map_Forall (fun _ row => utf8_valid (in_agent row) = true) (intros_tab c)
}.

Lemma delete_where_forall {K A} `{Countable K} (P : K -> A -> Prop) (p : K -> bool) (m : gmap K A) :
  map_Forall P m -> map_Forall P (delete_where p m).
Proof. intros Hm k x [H1 _]%map_lookup_filter_Some. by apply Hm. Qed.

Lemma or_ignore_forall {K A} `{Countable K} (P : K -> A -> Prop) k x (m : gmap K A) :
  map_Forall P m -> P k x -> map_Forall P (insert_or_ignore k x m).
Proof. intros Hm Hk. unfold insert_or_ignore. destruct (m !! k); [done|by apply map_Forall_insert_2]. Qed.

Lemma delete_forall {K A} `{Countable K} (P : K -> A -> Prop) k (m : gmap K A) :
  map_Forall P m -> map_Forall P (delete k m).
Proof. apply map_Forall_delete. Qed.

Lemma insert_forall {K A} `{Countable K} (P : K -> A -> Prop) k x (m : gmap K A) :
  map_Forall P m -> P k x -> map_Forall P (<[k := x]> m).
Proof. intros Hm Hk. by apply map_Forall_insert_2. Qed.

Create HintDb tables.
#[local] Hint Resolve delete_where_forall or_ignore_forall delete_forall insert_forall : tables.

Lemma typed_commit v id : type_at v id = Ok TCommit -> typed v id (bs "commit").
Proof. by exists TCommit. Qed.
Lemma typed_snapshot v id : type_at v id = Ok TSnapshot -> typed v id (bs "snapshot").
Proof. by exists TSnapshot. Qed.
Lemma typed_conflict v id : type_at v id = Ok TConflict -> typed v id (bs "conflict").
Proof. by exists TConflict. Qed.
Lemma typed_type v id ty kind : typed v id kind -> catalog_object_type kind = Some ty -> type_at v id = Ok ty.
Proof. intros (ty' & H1 & H2). congruence. Qed.
#[local] Hint Resolve typed_commit typed_snapshot typed_conflict : tables.

(** [update f]: the tables [f] leaves are sound still. *)
Ltac tables := match goal with H : sound_tables _ _ |- _ => destruct H end; split; cbn in *; eauto with tables.

Lemma log_tables v e c : sound_tables v c -> sound_tables v (log_event e c).
Proof. intros H. tables. Qed.
Lemma intro_tables v id row c :
  sound_tables v c -> utf8_valid (in_agent row) = true -> sound_tables v (with_intros (insert_or_ignore id row) c).
Proof. intros H Hr. tables. Qed.
Lemma intros_tables v oids commit agent ts : forall c u c', sound_tables v c -> utf8_valid agent = true ->
  insert_intros_tx oids commit agent ts c = (Ok u, c') -> sound_tables v c'.
Proof.
  induction oids as [|oid oids IH]; intros c u c' H Ha; cbn [insert_intros_tx]; [by intros [_ ->]%db_ret|].
  intros (u1 & c1 & H1 & E)%db_bind. apply db_change in H1 as ->. eapply IH; [|done|exact E]. by apply intro_tables.
Qed.
Lemma seals_tables v f c : sound_tables v c -> sound_tables v (with_seals f c).
Proof. intros H. tables. Qed.
Lemma observations_tables v f c : sound_tables v c -> sound_tables v (with_observations f c).
Proof. intros H. tables. Qed.
Lemma ref_tables v name row c :
  sound_tables v c -> typed v (rc_oid row) (rc_kind row) -> sound_tables v (with_refs (insert name row) c).
Proof. intros H Hr. tables. Qed.
Lemma unref_tables v name c : sound_tables v c -> sound_tables v (with_refs (delete name) c).
Proof. intros H. tables. Qed.
Lemma landmark_tables v ts id kind reason c :
  sound_tables v c -> typed v id kind -> sound_tables v (landmark_row ts id kind reason c).
Proof. intros H Hk. tables. Qed.
Lemma namespace_tables v ns row c :
  sound_tables v c -> (forall pin, ns_pinned row = Some pin -> type_at v pin = Ok TCommit) ->
  sound_tables v (with_namespaces (insert ns row) c).
Proof. intros H Hk. tables. Qed.
Lemma mount_tables v k row c : sound_tables v c -> sound_mount v row -> sound_tables v (with_mounts (insert k row) c).
Proof. intros H Hk. tables. Qed.
Lemma stage_tables v k row c : sound_tables v c -> sound_row v k.2 row.1 -> sound_tables v (with_overlay (insert k row) c).
Proof. intros H Hk. tables. Qed.
Lemma unstage_tables v p c : sound_tables v c -> sound_tables v (with_overlay (delete_where p) c).
Proof. intros H. tables. Qed.
Lemma close_tables v ns c : sound_tables v c -> sound_tables v (apply_ev (EvClose ns) c).
Proof. intros H. tables. Qed.
End tables.
Create HintDb sound.
#[export] Hint Resolve typed_commit typed_snapshot typed_conflict log_tables seals_tables observations_tables
  ref_tables unref_tables landmark_tables namespace_tables mount_tables stage_tables unstage_tables close_tables : sound.

(** ** The operations of the catalog keep the tables sound *)

Section operations.
Implicit Types (v : gmap ObjectId bytes) (c : Catalog).

Lemma insert_ref_tables v ts name oid kind p s agent reason c u c' :
  sound_tables v c -> typed v oid kind -> insert_ref ts name oid kind p s agent reason c = (Ok u, c') -> sound_tables v c'.
Proof. intros H Hk E. unfold insert_ref in E. inv_db. auto with sound. Qed.

Lemma insert_intros_tables v ts name oid kind p s agent reason intros c u c' :
  sound_tables v c -> typed v oid kind -> utf8_valid agent = true ->
  insert_ref_with_intros ts name oid kind p s agent reason intros c = (Ok u, c') -> sound_tables v c'.
Proof.
  intros H Hk Ha E. unfold insert_ref_with_intros in E.
  pose proof (fun c1 u c2 H1 => intros_tables v intros oid agent ts c1 u c2 H1 Ha) as Hint.
  revert Hint E. generalize (insert_intros_tx intros oid agent ts). intros it Hint E. inv_db. eapply Hint; [|eassumption]. auto with sound.
Qed.

Lemma cas_tx_tables v intros ts ulid name expected new kind agent fork_agent allow c x c' :
  (forall c u c', sound_tables v c -> intros c = (Ok u, c') -> sound_tables v c') ->
  sound_tables v c -> typed v new kind ->
  cas_tx intros ts ulid name expected new kind agent fork_agent allow c = (Ok x, c') -> sound_tables v c'.
Proof.
  intros Hint H Hk E. unfold cas_tx in E. inv_db. destruct (refs c !! name) as [r|] eqn:Er.
  - inv_db. apply db_refs_update in Ha2 as [(r' & -> & _ & _ & ->)|(-> & -> & _)]; cbn [Z.eqb Pos.eqb] in E; inv_db;
      match goal with Hi : intros _ = _ |- _ => apply Hint in Hi end; auto with sound.
  - inv_db. match goal with Hi : intros _ = _ |- _ => apply Hint in Hi end; auto with sound.
Qed.

Lemma cas_ref_tables v ts ulid name expected new kind agent fork_agent allow c x c' :
  sound_tables v c -> typed v new kind ->
  cas_ref ts ulid name expected new kind agent fork_agent allow c = (Ok x, c') -> sound_tables v c'.
Proof.
  intros H Hk E. unfold cas_ref in E. inv_db. eapply cas_tx_tables; [|exact H|exact Hk|exact E].
  by intros c1 u c2 H1 [_ ->]%db_ret.
Qed.

Lemma cas_intros_tables v ts ulid name expected new kind agent fork_agent allow intros c x c' :
  sound_tables v c -> typed v new kind -> utf8_valid agent = true ->
  cas_ref_with_intros ts ulid name expected new kind agent fork_agent allow intros c = (Ok x, c') -> sound_tables v c'.
Proof.
  intros H Hk Ha E. unfold cas_ref_with_intros in E. inv_db. eapply cas_tx_tables; [|exact H|exact Hk|exact E].
  intros c1 u c2 H1. by apply intros_tables.
Qed.

(** Changing a mount, keeping its mode, to a base that is a commit or its own. *)
Lemma mounts_update_tables v ns path f c n c' :
  sound_tables v c -> (forall row, sound_mount v row -> sound_mount v (f row)) ->
  mounts_update ns path f c = (Ok n, c') -> sound_tables v c'.
Proof.
  intros H Hf [(r & _ & Hr & ->)|[_ ->]]%db_mounts_update; [|done]. apply mount_tables; [done|]. apply Hf.
  exact (st_mounts _ _ H _ _ Hr).
Qed.

Lemma end_epoch_tables v ns mount base c u c' :
  sound_tables v c -> type_at v base = Ok TCommit -> end_epoch ns mount base c = (Ok u, c') -> sound_tables v c'.
Proof.
  intros H Hb E. unfold end_epoch, repin_mount_tx in E.
  apply db_bind in E as (u1 & c1 & H1 & E). apply db_change in H1 as ->.
  apply db_bind in E as (u2 & c2 & H2 & E). apply db_bind in H2 as (n & c3 & H2 & H3). apply db_refuse in H3 as [_ ->].
  apply (mounts_update_tables v) in H2; [|by apply unstage_tables|done].
  apply db_bind in E as (u3 & c4 & H4 & E). apply db_change in E as ->. apply observations_tables.
  unfold pin_root in H4. destruct (bytes_eqb mount (bs "/")); inv_db; [|done].
  apply db_ns_pin in Ha as [(r & Hr & ->)|[_ ->]]; [|done]. apply namespace_tables; [done|]. by intros pin [= <-].
Qed.

Lemma session_cas_tables v ts ulid name expected new agent fork_agent ns mount current c x c' :
  sound_tables v c -> type_at v new = Ok TCommit -> (forall r, refs c !! name = Some r -> rc_kind r = bs "commit") ->
  session_cas ts ulid name expected new agent fork_agent ns mount current c = (Ok x, c') -> sound_tables v c'.
Proof.
  intros H Hn Hk E. unfold session_cas in E. case_bool_decide.
  - apply db_bind in E as (n & c1 & H1 & E). apply db_refs_update in H1 as [(r & -> & Hr & _ & ->)|(-> & -> & _)]; inv_db;
      [|done]. apply log_tables, ref_tables; [done|]. cbn. rewrite (Hk _ Hr). by apply typed_commit.
  - apply db_bind in E as (u1 & c1 & H1 & E). apply db_pure in H1 as [_ ->].
    apply db_bind in E as (u2 & c2 & H2 & E). apply db_refs_insert in H2 as (_ & _ & ->).
    apply db_bind in E as (u3 & c3 & H3 & E). apply db_log in H3 as ->.
    apply db_bind in E as (n & c4 & H4 & E). inv_db. eapply mounts_update_tables; [| |exact H4].
    + apply log_tables, ref_tables; [done|]. by apply typed_commit.
    + intros row Hrow. exact Hrow.
Qed.

Lemma cas_session_tables v ts ulid name expected new agent fork_agent ns mount intros c x c' :
  sound_tables v c -> type_at v new = Ok TCommit -> utf8_valid agent = true ->
  cas_ref_session ts ulid name expected new agent fork_agent ns mount intros c = (Ok x, c') -> sound_tables v c'.
Proof.
  intros H Hn Ha E. unfold cas_ref_session in E.
  pose proof (fun c1 u c2 H1 => intros_tables v intros new agent ts c1 u c2 H1 Ha) as Hint.
  revert Hint E. generalize (insert_intros_tx intros new agent ts). intros it Hint E. inv_db.
  match goal with H1 : ok_or _ _ = Ok ?r |- _ => apply ok_or_ok in H1; rename H1 into Hr end.
  match goal with H1 : negb (bytes_eqb _ _) = false |- _ => apply negb_false_iff, bytes_eqb_true in H1; rename H1 into Hk end.
  match goal with H1 : session_cas _ _ _ _ _ _ _ _ _ _ _ = _ |- _ => apply (session_cas_tables v) in H1 end; [|done..|].
  2: { intros r' Hr'. congruence. }
  match goal with H1 : end_epoch _ _ _ _ = _ |- _ => apply (end_epoch_tables v) in H1; [|done..] end.
  eapply Hint; eassumption.
Qed.

Lemma noop_tables v ns mount pinned c u c' :
  sound_tables v c -> type_at v pinned = Ok TCommit -> complete_noop_session ns mount pinned c = (Ok u, c') -> sound_tables v c'.
Proof. intros H Hn E%db_transaction. by eapply end_epoch_tables. Qed.

Lemma resolution_tables v ts into expected commit cref coid rref agent allow intros c x c' :
  sound_tables v c -> type_at v commit = Ok TCommit -> utf8_valid agent = true ->
  publish_resolution ts into expected commit cref coid rref agent allow intros c = (Ok x, c') -> sound_tables v c'.
Proof.
  intros H Hk Ha E. unfold publish_resolution in E. apply db_bind in E as (u0 & c0 & H0 & E). apply db_pure in H0 as [_ ->].
  apply db_transaction in E.
  apply db_bind in E as (u1 & c1 & H1 & E). apply check_into_ok in H1 as (-> & r & Hr & _).
  apply db_bind in E as (u2 & c2 & H2 & E). apply check_conflict_ok in H2 as (-> & r2 & Hr2 & _).
  apply db_bind in E as (found & c3 & H3 & E). apply db_ref_exists in H3 as [-> _].
  apply db_bind in E as (u3 & c4 & H4 & E). apply db_refuse in H4 as [_ ->].
  apply db_bind in E as (u4 & c5 & H5 & E). apply db_deny_retired in H5 as [-> _].
  apply db_bind in E as (u5 & c6 & H6 & E).
  assert (sound_tables v c6) as H'.
  { unfold advance_into in H6. apply db_bind in H6 as (n & c7 & H7 & H6).
    apply db_refs_update in H7 as [(r' & -> & _ & _ & ->)|(-> & -> & _)]; cbn [Z.eqb negb Pos.eqb] in H6; inv_db. auto with sound. }
  apply db_bind in E as (u6 & c7 & H7 & E). apply db_refs_insert in H7 as (_ & _ & ->).
  apply db_bind in E as (u7 & c8 & H8 & E). apply db_log in H8 as ->.
  apply db_bind in E as (u8 & c9 & H9 & E). apply db_log in H9 as ->.
  apply db_bind in E as (removed & c10 & H10 & E). apply db_bind in E as (u9 & c11 & H11 & E).
  apply db_refuse in H11 as [H11%negb_false_iff%Z.eqb_eq ->]. apply db_refs_delete in H10; [|done]. subst c10.
  apply db_bind in E as (u10 & c12 & H12 & E). apply db_ret in E as [_ ->].
  apply (intros_tables v) in H12; [done| |done]. auto 8 with sound.
Qed.

Lemma seal_tables v ts tag snap commit tree agent expect c u c' :
  sound_tables v c -> type_at v snap = Ok TSnapshot -> type_at v commit = Ok TCommit ->
  commit_seal ts tag snap commit tree agent expect c = (Ok u, c') -> sound_tables v c'.
Proof.
  intros H Hs Hk E. unfold commit_seal in E. apply db_transaction in E.
  apply db_bind in E as (u0 & c0 & H0 & E). apply db_pure in H0 as [_ ->].
  apply db_bind in E as (b & c0 & H1 & E). apply db_ref_exists in H1 as [-> _].
  apply db_bind in E as (u1 & c2 & H2 & E). apply db_refuse in H2 as [_ ->].
  apply db_bind in E as (u2 & c3 & H3 & E).
  assert (c3 = c) as -> by (destruct expect as [[name oid]|]; by inv_db).
  unfold landmark in E. inv_db. auto 8 with sound.
Qed.

Lemma create_session_tables v ts id agent pinned live mm c u c' :
  sound_tables v c -> type_at v pinned = Ok TCommit -> create_session ts id agent pinned live mm c = (Ok u, c') -> sound_tables v c'.
Proof.
  intros H Hp E. unfold create_session in E. apply db_bind in E as (u0 & c0 & H0 & E). apply db_pure in H0 as [_ ->].
  apply db_transaction in E.
  apply db_bind in E as (u1 & c1 & H1 & E). apply db_ns_insert in H1 as [_ ->].
  apply db_bind in E as (u2 & c2 & H2 & E). apply db_refs_insert in H2 as (_ & _ & ->).
  apply db_bind in E as (u3 & c3 & H3 & E). apply db_log in H3 as ->.
  apply db_bind in E as (u4 & c4 & H4 & E). apply db_mounts_insert in H4 as ->.
  set (row := mkMountCols (bs "ref:" ++ live) (bs "rw") (Some pinned)) in *.
  set (c4 := with_mounts (insert (id, bs "/") row) _) in *.
  assert (sound_tables v c4) as H4.
  { apply mount_tables; [|exact Hp]. apply log_tables, ref_tables; [|by apply typed_commit].
    apply namespace_tables; [done|]. by intros pin [= <-]. }
  destruct mm; [|by inv_db]. apply db_mounts_insert in E as ->. by apply mount_tables.
Qed.

Lemma insert_mount_tables v ns path spec mode base c u c' :
  sound_tables v c -> sound_mount v (mkMountCols spec mode base) -> insert_mount ns path spec mode base c = (Ok u, c') ->
  sound_tables v c'.
Proof.
  intros H Hm E. unfold insert_mount, mounts_replace in E. destruct (mode_check _); inv_db. by apply mount_tables.
Qed.

Lemma observe_tables v ro ns mount path seen c u c' :
  sound_tables v c -> observe ro ns mount path seen c = (Ok u, c') -> sound_tables v c'.
Proof.
  intros H E. unfold observe in E. apply db_bind in E as (cur & c1 & H1 & E).
  assert (c1 = c) as ->.
  { destruct ro; [by apply db_ret in H1 as [_ ->]|]. unfold observation_is_current in H1. by inv_db. }
  destruct cur; inv_db; [done|]. by apply observations_tables.
Qed.

Lemma upsert_tables v ns mount path blob exec c u c' :
  sound_tables v c -> sound_row v path blob -> overlay_upsert ns mount path blob exec c = (Ok u, c') -> sound_tables v c'.
Proof.
  intros H Hr E. unfold overlay_upsert in E. inv_db. destruct (first_path _ _ _ _); inv_db. by apply stage_tables.
Qed.

Lemma stage_rows_tables v ns mount dest : forall c u c',
  sound_tables v c -> (forall d, d ∈ dest -> sound_row v d.1.1 (Some d.1.2)) -> stage_rows ns mount dest c = (Ok u, c') ->
  sound_tables v c'.
Proof.
  induction dest as [|[[path oid] exec] dest IH]; intros c u c' H Hd; cbn [stage_rows]; [by intros [_ ->]%db_ret|].
  intros (u1 & c1 & H1 & E)%db_bind. apply db_change in H1 as ->. eapply IH; [| |exact E].
  - apply stage_tables; [done|]. exact (Hd (path, oid, exec) ltac:(by left)).
  - intros d Hin. apply Hd. by right.
Qed.

Lemma rename_tables v ns mount from to dest c u c' :
  sound_tables v c -> sound_row v from None -> (forall d, d ∈ dest -> sound_row v d.1.1 (Some d.1.2)) ->
  overlay_rename ns mount from to dest c = (Ok u, c') -> sound_tables v c'.
Proof.
  intros H Hf Hd E. unfold overlay_rename, supersede in E. apply db_transaction in E.
  apply db_bind in E as (u1 & c1 & H1 & E). apply db_change in H1 as ->.
  apply db_bind in E as (u2 & c2 & H2 & E). apply db_change in H2 as ->.
  apply db_bind in E as (u3 & c3 & H3 & E). apply refuse_ancestor_ok in H3 as [-> _].
  apply db_bind in E as (u4 & c4 & H4 & E). apply refuse_ancestor_ok in H4 as [-> _].
  apply db_bind in E as (u5 & c5 & H5 & E). apply db_change in E as ->. apply stage_tables; [|exact Hf].
  eapply stage_rows_tables; [|exact Hd|exact H5]. by apply unstage_tables, unstage_tables.
Qed.

Lemma abandon_ref_tables v ts name agent c x c' :
  sound_tables v c -> abandon_ref ts name agent c = (Ok x, c') -> sound_tables v c'.
Proof.
  intros H E. unfold abandon_ref in E. inv_db. destruct (refs c !! name) as [r|] eqn:Er; [|by inv_db; apply db_throw in E].
  inv_db. match goal with Hd : refs_delete _ _ = (Ok ?n, _), Hn : negb (?n =? 1) = false |- _ =>
    apply negb_false_iff, Z.eqb_eq in Hn; apply db_refs_delete in Hd; [|done]; subst end. auto with sound.
Qed.

Lemma abandon_session_tables v ns discard c x c' :
  sound_tables v c -> abandon_session ns discard c = (Ok x, c') -> sound_tables v c'.
Proof. intros H E. unfold abandon_session in E. inv_db. by apply (close_tables v ns). Qed.
End operations.

(** ** The repository *)

Lemma tables_view v v' c : v ⊆ v' -> sound_tables v c -> sound_tables v' c.
Proof.
  intros Hv [H1 H2 H3 H4 H5 H6].
  assert (forall id ty, type_at v id = Ok ty -> type_at v' id = Ok ty) as Ht by (intros id ty; by apply decoded_grow).
  assert (forall id kind, typed v id kind -> typed v' id kind) as Hk by (intros id kind (ty & ? & ?); exists ty; auto).
  split.
  - intros k x E. apply Hk. exact (H1 k x E).
  - intros k x E. apply Hk. exact (H2 k x E).
  - intros k x E pin Ep. apply Ht. exact (H3 k x E pin Ep).
  - intros k x E. pose proof (H4 k x E) as H. unfold sound_mount in *. destruct (mc_base x); auto.
  - intros k x E. destruct (H5 k x E) as [Hp Hb]. split; auto.
  - exact H6.
Qed.

(** The catalog of a store with the objects [v]. *)
Record sound_catalog (v : gmap ObjectId bytes) (c : Catalog) : Prop := mk_sound_catalog {
  sc_history : history c;
  sc_tables : sound_tables v c
}.

Lemma void_unit (m : db unit) c : void m c = m c.
Proof. unfold void, mbind, stateM_bind. by destruct (m c) as [[[]|e|] c']. Qed.

Lemma void_ok_iff {A} (m : db A) c : is_ok (void m c).1 = is_ok (m c).1.
Proof. unfold void, mbind, stateM_bind. by destruct (m c) as [[a|e|] c']. Qed.

(** An operation whose caller owes nothing more keeps the catalog sound. *)
Lemma catalog_run {A} (m : db A) op v c :
  (forall c, run op c = void m c) -> sound_catalog v c -> obligations op c ->
  (forall x c', m c = (Ok x, c') -> sound_tables v c') -> sound_catalog v (m c).2.
Proof.
  intros Hm [Hh Ht] Ho Htab. rewrite <- void_state, <- Hm. split; [by apply history_op|].
  destruct (run op c) as [r c'] eqn:E. cbn [snd]. destruct (is_ok r) eqn:Er.
  - rewrite Hm in E. assert (c' = (m c).2) as -> by (by rewrite <- (void_state m c), E).
    pose proof (void_ok_iff m c) as Hok. rewrite E in Hok. cbn [fst] in Hok. rewrite Er in Hok.
    destruct (m c) as [[x|e|] c1] eqn:E1; [|done..]. by eapply Htab.
  - by rewrite (run_atomic op _ _ _ E Er).
Qed.

Section repository.
Context {St B : Type} `{RL : RepoLaws St B} `{HM : Hmac}.
Implicit Types (f : Forge St) (v : gmap ObjectId bytes) (c : Catalog).

Record sound_repo f : Prop := mk_sound_repo {
  sr_inv : f_inv f;
  sr_store : sound_store f;
  sr_catalog : sound_catalog (f_view f) (meta f)
}.

Lemma repo_grown f f' : sound_repo f -> grown f f' -> sound_catalog (f_view f') (meta f') -> sound_repo f'.
Proof. intros [Hi Hs _] Hg Hc. split; [apply Hg|by eapply grown_sound|done]. Qed.

Lemma catalog_view v v' c : v ⊆ v' -> sound_catalog v c -> sound_catalog v' c.
Proof. intros Hv [Hh Ht]. split; [done|by eapply tables_view]. Qed.

Lemma repo_store f f' : sound_repo f -> grown f f' -> meta f' = meta f -> sound_repo f'.
Proof.
  intros Hs Hg Hm. eapply repo_grown; [done..|]. rewrite Hm. eapply catalog_view; [apply Hg|apply Hs].
Qed.

Lemma repo_same f f' : sound_repo f -> same f f' -> sound_repo f'.
Proof. intros Hs H. eapply repo_store; [done|by apply same_grown|apply H]. Qed.

Lemma repo_tables f : sound_repo f -> sound_tables (f_view f) (meta f).
Proof. apply sr_catalog. Qed.

(** What a sound repository owes a session. *)
Lemma repo_session f ns : sound_repo f -> sound_session f ns.
Proof.
  intros [Hi Hs [Hh [_ _ _ Hm Ho _]]]. split; [done|done|..].
  - intros m base Hin Hb. unfold mounts_of in Hin. apply list_elem_of_fmap in Hin as (mr & -> & Hin).
    apply list_elem_of_fmap in Hin as ([k row] & -> & Hin). apply list_elem_of_filter in Hin as [_ Hin%elem_of_map_to_list].
    pose proof (Hm _ _ Hin) as H. unfold sound_mount in H. cbn in Hb. rewrite Hb in H.
    destruct (type_commit f base Hs H) as (k' & Hk & Hsk). exists k'. split; [done|apply Hsk].
  - intros path p id x E. destruct (Ho _ _ E) as [_ H]. by apply H.
  - intros path k Hk. rewrite staged_overlay_lookup in Hk. apply fmap_is_Some in Hk as [row E]. by destruct (Ho _ _ E) as [H _].
Qed.

(** An operation of the catalog on a sound repository. *)
Lemma wp_catalog {A} (m : db A) op f :
  sound_repo f -> (forall c, run op c = void m c) -> obligations op (meta f) ->
  (forall x c', sound_tables (f_view f) (meta f) -> m (meta f) = (Ok x, c') -> sound_tables (f_view f) c') ->
  wp (on_meta m) f (fun _ f' => sound_repo f').
Proof.
  intros Hs Hm Ho Ht. apply wp_on_meta. unfold wp.
  eapply (repo_grown f); [done|apply with_catalog_grown, grown_refl, Hs|]. cbn [meta].
  change (f_view (mkForge (store f) (m (meta f)).2)) with (f_view f). eapply catalog_run; [done|apply Hs|done|].
  intros x c'. apply Ht, Hs.
Qed.

(** Reading on, the repository stays the sound [f0] it was. *)
Lemma reads_on {A A'} (m : stateM Error (Forge St) A) (k : A -> stateM Error (Forge St) A') d f0 f :
  sound_repo f0 -> same f0 f -> denotes m d ->
  (forall a f1, same f0 f1 -> d (f_view f0) (meta f0) = Ok a -> wp (k a) f1 (fun _ f' => sound_repo f')) ->
  wp (m ≫= k) f (fun _ f' => sound_repo f').
Proof. intros H0 Hs Hm Hk. eapply wp_reading; [done..| |]; intros; by eapply repo_same. Qed.

Lemma reads_last {A} (m : stateM Error (Forge St) A) d f0 f :
  sound_repo f0 -> same f0 f -> denotes m d -> wp m f (fun _ f' => sound_repo f').
Proof. intros H0 Hs Hm. eapply wp_mono; [apply Hm, Hs|]. intros r f' [H1 _]. eapply repo_same; [done|by eapply same_trans]. Qed.

(** An operation that changes nothing, whatever it answers. *)
Definition only_looks {A} (m : stateM Error (Forge St) A) : Prop := forall f, f_inv f -> wp m f (fun _ f' => same f f').

Lemma only_looks_denotes {A} (m : stateM Error (Forge St) A) d : denotes m d -> only_looks m.
Proof. intros Hm f Hf. eapply wp_mono; [by apply Hm|]. by intros r f' [H _]. Qed.
Lemma only_looks_pure {A} (r : Result A) : only_looks (pure r).
Proof. eapply only_looks_denotes, denotes_pure. Qed.
Lemma only_looks_ret {A} (a : A) : only_looks (mret a).
Proof. eapply only_looks_denotes, denotes_ret. Qed.
Lemma only_looks_query {A} (m : db A) : query m -> only_looks (on_meta m).
Proof. intros H. by eapply only_looks_denotes, denotes_query. Qed.
Lemma only_looks_bind {A A'} (m : stateM Error (Forge St) A) (k : A -> stateM Error (Forge St) A') :
  only_looks m -> (forall a, only_looks (k a)) -> only_looks (m ≫= k).
Proof.
  intros Hm Hk f Hf. apply wp_bind. eapply wp_mono; [by apply Hm|]. intros r f1 H1. destruct r as [a|e|]; [|done..].
  eapply wp_mono; [apply Hk, H1|]. intros r f2 H2. by eapply same_trans.
Qed.

(** A store operation that only looks. *)
Lemma only_looks_store {A} (m : stateM Error St A) : looks rp_inv rp_view rp_writable m -> only_looks (on_store m).
Proof. intros Hm f Hf. apply wp_on_store. eapply wp_mono; [by apply Hm|]. by intros r s' (H1 & H2 & H3). Qed.

Lemma looks_on {A A'} (m : stateM Error (Forge St) A) (k : A -> stateM Error (Forge St) A') f0 f :
  sound_repo f0 -> same f0 f -> only_looks m ->
  (forall a f1, same f0 f1 -> wp (k a) f1 (fun _ f' => sound_repo f')) ->
  wp (m ≫= k) f (fun _ f' => sound_repo f').
Proof.
  intros H0 Hs Hm Hk. apply wp_bind. eapply wp_mono; [apply Hm, Hs|]. intros r f1 H1.
  assert (same f0 f1) as S1 by by eapply same_trans. destruct r; [by apply Hk|by eapply repo_same..].
Qed.

Lemma looks_last {A} (m : stateM Error (Forge St) A) f :
  sound_repo f -> only_looks m -> wp m f (fun _ f' => sound_repo f').
Proof. intros H0 Hm. eapply wp_mono; [apply Hm, H0|]. intros r f' H1. by eapply repo_same. Qed.

Lemma sound_ret {A} (a : A) f : sound_repo f -> wp (mret a : stateM Error (Forge St) A) f (fun _ f' => sound_repo f').
Proof. intros H. by apply wp_ret. Qed.
End repository.
