(* ===== verification/Api.v ===== *)
(** * Every operation keeps the repository sound (crates/forge-api/src)

    The operations of [Forge] that write, run on a sound repository: whatever
    they answer, what they leave is sound. *)

From S2P Require Import Prelude RustStd Types Tree TreeStore Object Contribution ObjectStore Store Graph Cap History Merge Overlay Namespace Catalog Refs Sessions CatAudit Events CatalogInv Publish Staging Authority Gc Plane Forge Growth Workspace WorkspaceReads Checkin Integration Seal Sound.

(** The ULIDs that are drawn occur in no name of the log. *)
Definition fresh (ulid : nat -> str) (c : Catalog) : Prop :=
  forall i p q, unlogged (p ++ ulid i ++ q) c.

Lemma fresh_end ulid c i p : fresh ulid c -> unlogged (p ++ ulid i) c.
Proof. intros H. pose proof (H i p []) as H'. by rewrite app_nil_r in H'. Qed.

Lemma fresh_cas ulid c i name agent : fresh ulid c -> unlogged (cas_fork_name name agent (ulid i)) c.
Proof. intros H. unfold cas_fork_name. rewrite !app_assoc. by apply fresh_end. Qed.
Lemma fresh_session ulid c i name agent : fresh ulid c -> unlogged (session_fork_name name agent (ulid i)) c.
Proof. intros H. unfold session_fork_name. rewrite !app_assoc. by apply fresh_end. Qed.

Section api.
Context {St B : Type} `{RL : RepoLaws St B} `{HM : Hmac}.
Implicit Types (f : Forge St) (v : gmap ObjectId bytes) (c : Catalog).

Abbreviation keeps_sound m f := (wp m f (fun _ f' => sound_repo f')).

(** [reading lem]: the next step only looks. *)
Tactic Notation "reading" uconstr(lem) := eapply reads_on; [eassumption|eassumption|apply lem|].
Tactic Notation "looking" uconstr(lem) := eapply looks_on; [eassumption|eassumption|apply lem|].
Ltac start H := pose proof (same_refl _ (sr_inv _ H)) as S.

Lemma peel_type spec v c cid k : d_peel spec v c = Ok (cid, k) -> (b ← object_at v cid; Commit_decode b) = Ok k.
Proof.
  unfold d_peel. intros (oid & Ho & H)%bind_ok. apply bind_ok in H as (ty & Ht & H). destruct ty; try done.
  - by apply bind_ok in H as (k' & Hk & [= <- <-]).
  - apply bind_ok in H as (s & Hs & H). by apply bind_ok in H as (k' & Hk & [= <- <-]).
Qed.

Lemma peel_commit_type f spec cid k : d_peel spec (f_view f) (meta f) = Ok (cid, k) -> is_type f TCommit cid.
Proof. intros H%peel_type. apply (commit_type f cid k). by apply commit_at_read. Qed.

(** ** Sessions and refs *)

Lemma session_open_sound key now ulid cap from f :
  sound_repo f -> fresh ulid (meta f) -> keeps_sound (session_open key now ulid cap from) f.
Proof.
  intros H Hu. start H. unfold session_open.
  reading denotes_pure. intros u f1 S1 _. reading peel_denotes. intros [cid k] f2 S2 Hk.
  reading denotes_pure. intros u' f3 S3 _. apply wp_bind. eapply wp_mono.
  - eapply (wp_catalog _ (OpCreateSession _ _ _ _ _ _)); [by eapply repo_same|intros; symmetry; apply void_unit| |].
    + cbn [obligations]. rewrite (same_meta _ _ S3), !app_assoc. by apply fresh_end.
    + intros x c' Ht E. eapply create_session_tables; [exact Ht| |exact E]. rewrite (same_view _ _ S3). by eapply peel_commit_type.
  - intros r f4 H4. destruct r; [by apply sound_ret|done..].
Qed.

Lemma branch_sound key now cap from name f : sound_repo f -> keeps_sound (branch key now cap from name) f.
Proof.
  intros H. start H. unfold branch.
  reading denotes_pure. intros u f1 S1 _. reading denotes_pure. intros u' f2 S2 _.
  reading peel_denotes. intros [cid k] f3 S3 Hk. apply wp_bind. eapply wp_mono.
  - eapply (wp_catalog _ (OpInsertRef _ _ _ _ _ _ _ _)); [by eapply repo_same|intros; symmetry; apply void_unit|exact I|].
    intros x c' Ht E. eapply insert_ref_tables; [exact Ht| |exact E]. rewrite (same_view _ _ S3).
    apply typed_commit. by eapply peel_commit_type.
  - intros r f4 H4. destruct r; [by apply sound_ret|done..].
Qed.

Lemma as_str_type ty : catalog_object_type (as_str ty) = Some ty.
Proof. by destruct ty. Qed.

Lemma landmark_sound key now cap oid f : sound_repo f -> keeps_sound (Forge_landmark key now cap oid) f.
Proof.
  intros H. start H. unfold Forge_landmark.
  reading denotes_pure. intros u f1 S1 _. reading denotes_pure. intros u' f2 S2 _.
  reading (denotes_store _ _ (rp_object_type oid)). intros ty f3 S3 Hty.
  eapply (wp_catalog _ (OpLandmark _ _ _ _)); [by eapply repo_same|intros; symmetry; apply void_unit| |].
  - cbn [obligations]. by rewrite as_str_type.
  - intros x c' Ht [= <- <-]. apply landmark_tables; [done|]. exists ty. rewrite as_str_type, (same_view _ _ S3). done.
Qed.

Lemma inbox_push_sound key now ulid cap to snapshot task f :
  sound_repo f -> fresh ulid (meta f) -> keeps_sound (inbox_push key now ulid cap to snapshot task) f.
Proof.
  intros H Hu. start H. unfold inbox_push.
  reading denotes_pure. intros u f1 S1 _. reading denotes_pure. intros u1 f2 S2 _.
  reading resolve_denotes. intros oid f3 S3 _. reading (denotes_store _ _ (rp_object_type oid)). intros ty f4 S4 Hty.
  reading denotes_pure. intros u2 f5 S5 Hs%reject_if_ok%negb_false_iff%bool_decide_eq_true. subst ty.
  reading denotes_pure. intros leaf f6 S6 _. reading denotes_pure. intros u3 f7 S7 _.
  eapply (wp_catalog _ (OpCas _ _ _ _ _ _ _ _ _)); [by eapply repo_same|reflexivity| |].
  - cbn [obligations]. rewrite (same_meta _ _ S7). by apply fresh_cas.
  - intros x c' Ht E. eapply cas_ref_tables; [exact Ht| |exact E]. rewrite (same_view _ _ S7). by apply typed_snapshot.
Qed.

Lemma on_meta_bind {A A'} (q : db A) (k : A -> db A') f (Q : Result A' -> Forge St -> Prop) :
  wp (a ← on_meta q; on_meta (k a)) f Q -> wp (on_meta (q ≫= k)) f Q.
Proof. unfold wp, on_meta, mbind, stateM_bind. destruct (q (meta f)) as [[a|e|] c']; [|done..]. cbn. by destruct (k a c'). Qed.

Lemma abandon_fork_sound key ts now cap name f :
  sound_repo f -> keeps_sound (on_meta (abandon_fork key ts now cap name)) f.
Proof.
  intros H. start H. unfold abandon_fork. apply on_meta_bind.
  reading (denotes_query _ (query_pure _)). intros u f1 S1 _.
  eapply (wp_catalog _ (OpAbandonRef _ _ _)); [by eapply repo_same|reflexivity|exact I|].
  intros x c' Ht E. by eapply abandon_ref_tables.
Qed.

Lemma abandon_session_sound cap ns discard f :
  sound_repo f -> keeps_sound (on_meta (forge_abandon_session cap ns discard)) f.
Proof.
  intros H. start H. unfold forge_abandon_session. apply on_meta_bind.
  reading (denotes_query _ (query_require_ns cap ns)). intros u f1 S1 _.
  eapply (wp_catalog _ (OpAbandonSession _ _)); [by eapply repo_same|reflexivity|exact I|].
  intros x c' Ht E. by eapply abandon_session_tables.
Qed.

(** ** Mounts *)

Lemma require_ns_query cap ns c row : (require_ns cap ns c).1 = Ok row -> is_Some (namespaces c !! ns).
Proof.
  intros H. destruct (require_ns cap ns c) as [r c'] eqn:E. cbn in H. subst r.
  apply require_ns_ok in E as (_ & x & Hx & _). by exists x.
Qed.

Lemma mount_authority_looks key now cap spec rw : only_looks (mount_authority (St:=St) key now cap spec rw).
Proof.
  unfold mount_authority. destruct rw; [|apply only_looks_pure]. apply only_looks_bind; [apply only_looks_pure|]. intros [n|id]; [|apply only_looks_pure].
  apply only_looks_bind; [apply only_looks_pure|]. intros u. apply only_looks_bind; [apply only_looks_query, query_get_ref|].
  intros [row|]; [apply only_looks_pure|apply only_looks_ret].
Qed.

Lemma retargeting_looks ns path spec rw : only_looks (refuse_retargeting_staged_work (St:=St) ns path spec rw).
Proof.
  unfold refuse_retargeting_staged_work. apply only_looks_bind; [apply only_looks_query, query_get_mount|].
  intros [existing|]; [|apply only_looks_ret]. cbv zeta. destruct (_ && _); [apply only_looks_ret|].
  apply only_looks_bind; [apply only_looks_query, query_overlay_list|]. intros staged. apply only_looks_pure.
Qed.

Lemma mount_sound key now cap ns path spec rw f : sound_repo f -> keeps_sound (mount key now cap ns path spec rw) f.
Proof.
  intros H. start H. unfold mount.
  reading (denotes_query _ (query_require_ns cap ns)). intros row f1 S1 Hns%require_ns_query.
  reading denotes_pure. intros path' f2 S2 _. cbv zeta.
  looking (mount_authority_looks key now cap spec rw). intros u f3 S3.
  reading resolve_denotes. intros oid f4 S4 _. reading (denotes_store _ _ (rp_object_type oid)). intros ty f5 S5 Hty.
  reading denotes_pure. intros u1 f6 S6 Hrw%reject_if_ok.
  looking (retargeting_looks ns path' spec rw). intros u2 f7 S7.
  eapply (wp_catalog _ (OpInsertMount _ _ _ _ _)); [by eapply repo_same|intros; symmetry; apply void_unit| |].
  - cbn [obligations]. by rewrite (same_meta _ _ S7).
  - intros x c' Ht E. eapply insert_mount_tables; [exact Ht| |exact E]. unfold sound_mount. cbn [mc_base mc_mode].
    destruct rw; [|done]. apply negb_false_iff, bool_decide_eq_true in Hrw. subst ty. by rewrite (same_view _ _ S7).
Qed.

(** ** Reads *)

Lemma mounts_owned_by c ns m : is_Some (namespaces c !! ns) -> m ∈ mounts_of c ns -> forall path, owned c (ns, m_path m, path).
Proof.
  intros Hn Hin path. split; [exact Hn|]. unfold mounts_of in Hin. apply list_elem_of_fmap in Hin as (mr & -> & Hin).
  apply list_elem_of_fmap in Hin as ([[n p] row] & -> & Hin). apply list_elem_of_filter in Hin as [Heq Hin%elem_of_map_to_list].
  cbn in *. subst n. by exists row.
Qed.

Abbreviation store_looks := (looks rp_inv rp_view rp_writable).

Lemma looks_get_tree id : store_looks (get_tree (S:=St) id).
Proof. eapply answers_looks, rp_get_tree. Qed.
Lemma looks_pure_in {A} (r : Result A) : store_looks (pure r : stateM Error St A).
Proof. eapply answers_looks, answers_pure. Qed.
Lemma looks_ret_in {A} (a : A) : store_looks (mret a : stateM Error St A).
Proof. eapply answers_looks, answers_ret. Qed.
Create HintDb looks.
#[local] Hint Resolve looks_bind looks_get_tree looks_pure_in looks_ret_in : looks.

Lemma looks_m_fold {A X} (g : A -> X -> stateM Error St A) l : forall a,
  (forall a x, store_looks (g a x)) -> store_looks (m_fold g a l).
Proof. induction l as [|x l IH]; intros a Hg; cbn [m_fold]; auto with looks. Qed.

Lemma ls_looks rows tree rel : store_looks (ls (St:=St) rows tree rel).
Proof.
  unfold ls. cbv zeta. apply looks_bind; [|auto with looks]. destruct (is_nil rel); [auto with looks|].
  apply looks_bind; [auto with looks|]. intros parts. apply looks_bind; [|auto with looks]. apply looks_m_fold.
  intros cur p. unfold ls_walk. auto with looks.
Qed.

Lemma on_store_bind {A A'} (m : stateM Error St A) (k : A -> stateM Error St A') f (Q : Result A' -> Forge St -> Prop) :
  wp (a ← on_store m; on_store (k a)) f Q -> wp (on_store (m ≫= k)) f Q.
Proof. unfold wp, on_store, mbind, stateM_bind. destruct (m (store f)) as [[a|e|] s']; [|done..]. cbn. by destruct (k a s'). Qed.

(** [observed ..]: a read records what it saw, and goes on to look. *)
Lemma observe_then {A} ro ns mount path seen (k : stateM Error (Forge St) A) f0 f :
  sound_repo f0 -> same f0 f -> owned (meta f0) (ns, mount, path) ->
  (forall f', sound_repo f' -> observe ro ns mount path seen (meta f0) = (Ok tt, meta f') -> f_view f' = f_view f0 -> keeps_sound k f') ->
  keeps_sound (_ ← on_meta (observe ro ns mount path seen); k) f.
Proof.
  intros H S Ho Hk. apply wp_bind.
  assert (keeps_sound (on_meta (observe ro ns mount path seen)) f) as Hw.
  { eapply (wp_catalog _ (OpObserve _ _ _ _ _)); [by eapply repo_same|intros; symmetry; apply void_unit| |].
    - cbn [obligations]. by rewrite (same_meta _ _ S).
    - intros x c' Ht E. by eapply observe_tables. }
  unfold wp, on_meta in *. rewrite (same_meta _ _ S) in *. destruct (observe ro ns mount path seen (meta f0)) as [r c'] eqn:E.
  cbn [fst snd] in *. destruct r as [[]|e|]; [|done..]. apply Hk; [done| |apply (same_view _ _ S)]. done.
Qed.

Lemma longest_step_in abs best m best' :
  longest_step abs best m = Ok best' -> forall x, best'.1 = Some x -> best.1 = Some x \/ x = m.
Proof.
  unfold longest_step. intros H x Hx. repeat (apply bind_ok in H as (? & _ & H)). destruct (_ && _); injection H as <-.
  - right. cbn in Hx. congruence.
  - by left.
Qed.

Lemma longest_mount_in ms abs m : longest_mount ms abs = Ok m -> m ∈ ms.
Proof.
  unfold longest_mount. intros (a & _ & H)%bind_ok. apply bind_ok in H as (best & Hb & Hm%ok_or_ok).
  assert (forall l best0 best1, try_fold (longest_step a) best0 l = Ok best1 -> best1.1 = Some m -> best0.1 = Some m \/ m ∈ l) as Hf.
  { induction l as [|x l IH]; intros b0 b1 E Hx; cbn in E; [injection E as <-; by left|].
    apply bind_ok in E as (b & E1 & E2). destruct (IH _ _ E2 Hx) as [Hy|Hy]; [|right; by right].
    destruct (longest_step_in _ _ _ _ E1 _ Hy) as [?| ->]; [by left|right; by left]. }
  by destruct (Hf ms (None, 0) best Hb Hm).
Qed.

Lemma looks_answers {A} (m : stateM Error St A) d : answers rp_inv rp_view rp_writable m d -> store_looks m.
Proof. apply answers_looks. Qed.

Lemma ls_sound key now ro cap ns path f : sound_repo f -> keeps_sound (Forge_ls key now ro cap ns path) f.
Proof.
  intros H. start H. unfold Forge_ls.
  reading (denotes_query _ (query_require_ns cap ns)). intros row f1 S1 Hns%require_ns_query.
  reading mounts_denotes. intros ms f2 S2 [= <-]. reading denotes_pure. intros m f3 S3 Hm%longest_mount_in.
  reading denotes_pure. intros u f4 S4 _. reading denotes_pure. intros rel f5 S5 _.
  reading mount_tree_denotes. intros tree f6 S6 _. reading (denotes_query _ (query_overlay_list ns (m_path m))). intros ov f7 S7 _.
  reading (denotes_store _ _ (observed_answers _ tree rel)). intros seen f8 S8 _.
  eapply observe_then; [exact H|exact S8|by apply mounts_owned_by|]. intros f' H' _ _. apply looks_last; [done|].
  apply only_looks_bind; [apply only_looks_store, ls_looks|]. intros ents. apply only_looks_ret.
Qed.

Lemma resolve_loop_looks ov parts : forall before cur, store_looks (resolve_loop (St:=St) ov before cur parts).
Proof.
  induction parts as [|part rest IH]; intros before cur; cbn [resolve_loop]; [auto with looks|]. cbv zeta.
  destruct (ov !! _) as [[[id x]|]|].
  - destruct rest; [auto with looks|apply (looks_pure_in (Err _))].
  - apply (looks_pure_in (Err _)).
  - apply looks_bind; [auto with looks|]. intros t. apply looks_bind; [auto with looks|]. intros e.
    destruct rest; [destruct (e_kind e); auto with looks|]. case_bool_decide; [apply (looks_pure_in (Err _))|apply IH].
Qed.

Lemma resolve_looks ms rows root path : store_looks (resolve (St:=St) ms rows root path).
Proof.
  unfold resolve. apply looks_bind; [auto with looks|]. intros m. apply looks_bind; [auto with looks|]. intros rel. cbv zeta.
  destruct (is_nil rel); [auto with looks|]. destruct (_ !! rel) as [[[id x]|]|]; [auto with looks|apply (looks_pure_in (Err _))|].
  apply looks_bind; [auto with looks|]. intros parts. apply resolve_loop_looks.
Qed.

Lemma read_sound key now ro cap ns path f : sound_repo f -> keeps_sound (Forge_read key now ro cap ns path) f.
Proof.
  intros H. start H. unfold Forge_read.
  reading (denotes_query _ (query_require_ns cap ns)). intros row f1 S1 Hns%require_ns_query.
  reading mounts_denotes. intros ms f2 S2 [= <-]. reading denotes_pure. intros m f3 S3 Hm%longest_mount_in.
  reading denotes_pure. intros u f4 S4 _. reading (denotes_query _ (query_overlay_list ns (m_path m))). intros ov f5 S5 _.
  reading mount_tree_denotes. intros tree f6 S6 _. reading denotes_pure. intros rel f7 S7 _.
  reading (denotes_store _ _ (observed_answers _ tree rel)). intros seen f8 S8 _.
  eapply observe_then; [exact H|exact S8|by apply mounts_owned_by|]. intros f' H' _ _. apply looks_last; [done|].
  apply only_looks_bind; [apply only_looks_store, resolve_looks|]. intros [id|id x]; [apply only_looks_pure|].
  eapply only_looks_store, looks_answers, rp_get_blob_data.
Qed.

(** ** Staged writes *)

Lemma writable_spec key now cap ns path f : f_inv f ->
  wp (writable_mount (St:=St) key now cap ns path) f (fun r f' => same f f' /\
    match r with
    | Ok m => m ∈ mounts_of (meta f) ns /\ is_Some (namespaces (meta f) !! ns) /\ m_mode m = Rw
    | _ => True
    end).
Proof.
  intros Hi. pose proof (same_refl f Hi) as S. unfold writable_mount.
  eapply wp_reading; [apply (denotes_query _ (query_require_ns cap ns))|exact S| |done..]. intros row f1 S1 Hns%require_ns_query.
  eapply wp_reading; [apply mounts_denotes|exact S1| |done..]. intros ms f2 S2 [= <-].
  eapply wp_reading; [apply denotes_pure|exact S2| |done..]. intros m f3 S3 Hm%longest_mount_in.
  eapply wp_reading; [apply denotes_pure|exact S3| |done..]. intros u f4 S4 Hrw%reject_if_ok%negb_false_iff%bool_decide_eq_true.
  eapply wp_reading; [apply denotes_pure|exact S4| |done..]. intros u' f5 S5 _. by apply wp_ret.
Qed.

Lemma valid_rel_row v rel blob :
  Forall valid_name (split_byte "/"%byte rel) -> (forall id, blob = Some id -> type_at v id = Ok TBlob) -> sound_row v rel blob.
Proof. intros Hr Hb. split; [|done]. eapply Forall_impl; [exact Hr|]. apply valid_name_plain. Qed.

Lemma rel_named m path rel : rel_of (m_path m) path = Ok rel -> is_nil rel = false -> Forall valid_name (split_byte "/"%byte rel).
Proof. intros Hr Hn. eapply rel_of_names; [exact Hr|]. by apply bool_decide_eq_false in Hn. Qed.

Lemma blob_type v id data o : v !! id = Some o -> Blob_encode data = Ok o -> type_at v id = Ok TBlob.
Proof. intros Ho He. unfold type_at, object_at. rewrite Ho. by apply Blob_encode_type in He. Qed.

Lemma write_sound key now cap ns path data exec f :
  sound_repo f -> keeps_sound (Forge_write key now cap ns path data exec) f.
Proof.
  intros H. unfold Forge_write. apply wp_bind. eapply wp_mono; [apply writable_spec, H|]. intros r f1 [S1 Hm].
  pose proof (repo_same _ _ H S1) as H1. destruct r as [m|e|]; [|done..]. destruct Hm as (Hm & Hns & _).
  rewrite <- (same_meta _ _ S1) in *. apply wp_bind. eapply wp_mono; [apply (wp_store_adds _ _ _ (rp_put_blob_data data)); [apply H1|]|].
  { intros o Ho%Blob_encode_type. by eapply other_sound. }
  intros r f2 (G2 & M2 & Hid). assert (sound_repo f2) as H2 by by eapply repo_store. destruct r as [id|e|]; [|done..].
  destruct Hid as (o & Ho & Hv). start H2. reading denotes_pure. intros rel f3 S3 Hrel.
  reading denotes_pure. intros u f4 S4 Hnil%reject_if_ok. pose proof (rel_named _ _ _ Hrel Hnil) as Hnames.
  apply wp_bind. eapply wp_mono.
  - eapply (wp_catalog _ (OpUpsert _ _ _ _ _)); [by eapply repo_same|intros; symmetry; apply void_unit| |].
    + cbn [obligations]. rewrite (same_meta _ _ S4), M2. split; [by apply mounts_owned_by|by apply rel_utf8].
    + intros x c' Ht E. eapply upsert_tables; [exact Ht| |exact E]. apply valid_rel_row; [done|]. intros i [= <-].
      rewrite (same_view _ _ S4). by eapply blob_type.
  - intros r f5 H5. destruct r; [by apply sound_ret|done..].
Qed.

Lemma delete_sound key now cap ns path f : sound_repo f -> keeps_sound (Forge_delete key now cap ns path) f.
Proof.
  intros H. unfold Forge_delete. apply wp_bind. eapply wp_mono; [apply writable_spec, H|]. intros r f1 [S1 Hm].
  pose proof (repo_same _ _ H S1) as H1. destruct r as [m|e|]; [|done..]. destruct Hm as (Hm & Hns & _).
  rewrite <- (same_meta _ _ S1) in *. start H1. reading denotes_pure. intros rel f3 S3 Hrel.
  reading denotes_pure. intros u f4 S4 Hnil%reject_if_ok. pose proof (rel_named _ _ _ Hrel Hnil) as Hnames.
  eapply (wp_catalog _ (OpUpsert _ _ _ _ _)); [by eapply repo_same|intros; symmetry; apply void_unit| |].
  - cbn [obligations]. rewrite (same_meta _ _ S4). split; [by apply mounts_owned_by|by apply rel_utf8].
  - intros x c' Ht E. eapply upsert_tables; [exact Ht| |exact E]. by apply valid_rel_row.
Qed.

(** ** Checkin *)

(** Other processes are as careful with the catalog. *)
Definition harmless (others : Catalog -> Catalog) : Prop := forall v c, sound_catalog v c -> sound_catalog v (others c).

Lemma checkin_sound key now ulid others cap ns mount msg f :
  sound_repo f -> str_ok msg -> str_ok (agent_id cap) -> (forall i, in_u64 (now i)) ->
  harmless others -> fresh ulid (others (meta f)) -> keeps_sound (checkin key now ulid others cap ns mount msg) f.
Proof.
  intros H Hmsg Hag Hnow Hoth Hu. eapply wp_mono; [apply checkin_spec; try done; by apply repo_session|].
  intros r f' [Hg Hr]. eapply repo_grown; [exact H|exact Hg|].
  pose proof (catalog_view _ _ _ (gr_view _ _ Hg) (sr_catalog _ H)) as Hc.
  assert (meta f' = meta f \/ meta f' = others (meta f) -> sound_catalog (f_view f') (meta f')) as Hfail.
  { intros [-> | ->]; [done|by apply Hoth]. }
  destruct r as [x|e|]; [|by apply Hfail..].
  destruct Hr as (m & name & pin & k & row & obs & _ & _ & _ & _ & _ & Hpin & _ & _ & _ & [(_ & _ & _ & _ & -> & _)|[new Hpub]]).
  - apply (catalog_run _ (OpNoop ns (m_path m) pin)); [intros; symmetry; apply void_unit|done|exact I|].
    intros x' c' E. eapply noop_tables; [apply Hc| |exact E]. eapply is_type_grown; [exact Hg|by eapply commit_type].
  - destruct Hpub as (cid & rid & con & k' & _ & _ & _ & _ & _ & Hk' & _ & _ & _ & _ & _ & (ts & intros & ->) & _).
    apply (catalog_run _ (OpCasSession ts (ulid 0%nat) name pin cid (agent_id cap) (agent_id cap) ns (m_path m) intros));
      [intros; symmetry; apply void_unit|by apply Hoth|by apply fresh_session|].
    intros x' c' E. apply void_ok in E as [y E]. eapply cas_session_tables; [apply Hoth, Hc| |apply Hag|exact E]. by eapply commit_type.
Qed.

(** ** Seals *)

Lemma bad_tag_slash tag : bad_tag tag = false -> starts_with tag (bs "tags/") = false.
Proof.
  unfold bad_tag. intros [[Hc _]%orb_false_iff _]%orb_false_iff. apply negb_false_iff in Hc.
  apply not_true_iff_false. intros [k ->]%starts_with_spec. by rewrite forallb_app in Hc.
Qed.

Lemma typed_landmark_free v c id ty kind : sound_tables v c -> type_at v id = Ok ty -> catalog_object_type kind = Some ty ->
  (forall kind', catalog_object_type kind' = Some ty -> kind' = kind) -> landmark_free c id kind.
Proof.
  intros H Ht Hk Hinj l Hl. apply Hinj. destruct (st_landmarks _ _ H _ _ Hl) as (ty' & H1 & H2). congruence.
Qed.

Lemma object_type_kind kind ty : catalog_object_type kind = Some ty -> kind = as_str ty.
Proof.
  unfold catalog_object_type. intros H.
  repeat match type of H with (if ?b then _ else _) = _ => destruct b eqn:? end; try done;
    injection H as <-; by apply bytes_eqb_true.
Qed.

Lemma seal_sound `{B3 : Blake3} `{ED : Ed25519} `{EL : !Ed25519Laws} env seed key now others cap ref tag f :
  sound_repo f -> (forall i, in_u64 (now i)) -> harmless others ->
  keeps_sound (seal env seed (ed_public seed) key now others cap ref tag) f.
Proof.
  intros H Hnow Hoth. eapply wp_mono; [apply seal_spec; [apply H|done|exact (st_intros _ _ (repo_tables f H))]|]. intros r f' [Hg Hr].
  eapply repo_grown; [exact H|exact Hg|].
  pose proof (catalog_view _ _ _ (gr_view _ _ Hg) (sr_catalog _ H)) as Hc. pose proof (Hoth _ _ Hc) as Ho.
  destruct r as [snap|e|]; [|by destruct Hr as [->| ->]..].
  destruct Hr as (commit & tree & row & _ & _ & Htag & (ts & ->) & _ & Hv).
  destruct Hv as (sn & k & o & man & content & contributions & Hsn & _ & _ & _ & _ & Hk & _).
  assert (type_at (f_view f') commit = Ok TCommit) as Tk by by eapply commit_type.
  assert (type_at (f_view f') snap = Ok TSnapshot) as Ts.
  { apply bind_ok in Hsn as (b & Hb & [_ Hd%Snapshot_encode_type]%Snapshot_decode_spec). unfold type_at. by rewrite Hb. }
  apply (catalog_run _ (OpSeal ts tag snap commit tree (agent_id cap) (Some (ref, commit)))); [intros; symmetry; apply void_unit|done| |].
  - split; [by apply bad_tag_slash|]. split_and!.
    + eapply typed_landmark_free; [apply Ho|exact Ts|done|]. by intros k' ->%object_type_kind.
    + eapply typed_landmark_free; [apply Ho|exact Tk|done|]. by intros k' ->%object_type_kind.
    + intros ->. congruence.
  - cbn [run]. intros x c' E. eapply seal_tables; [apply Ho|exact Ts|exact Tk|exact (E : commit_seal _ _ _ _ _ _ _ _ = _)].
Qed.
End api.
