(* ===== verification/Integrate.v ===== *)
(** * Merging and resolving keep the repository sound (crates/forge-api/src/integration.rs) *)

From S2P Require Import Prelude RustStd Types Tree TreeStore Object Contribution ObjectStore Store Graph Cap History Merge Overlay Namespace Catalog Refs Sessions CatAudit Events CatalogInv Publish Staging Authority Plane Forge Growth Workspace WorkspaceReads Checkin Integration Sound Api.

(** ** Enough fuel *)

(** [P] holds from some fuel on. *)
Definition eventually (P : nat -> Prop) : Prop := exists n, forall fuel, (n <= fuel)%nat -> P fuel.

Lemma eventually_always (P : nat -> Prop) : (forall fuel, P fuel) -> eventually P.
Proof. intros H. by exists O. Qed.

Lemma eventually_and (P Q : nat -> Prop) : eventually P -> eventually Q -> eventually (fun fuel => P fuel /\ Q fuel).
Proof. intros [n Hn] [m Hm]. exists (n + m)%nat. intros fuel Hf. split; [apply Hn|apply Hm]; lia. Qed.

Lemma eventually_mono (P Q : nat -> Prop) : (forall fuel, P fuel -> Q fuel) -> eventually P -> eventually Q.
Proof. intros H [n Hn]. exists n. auto. Qed.

Section integrate.
Context {St B : Type} `{RL : RepoLaws St B} `{HM : Hmac} `{B3 : Blake3}.
Implicit Types (f : Forge St) (v : gmap ObjectId bytes) (c : Catalog).

Abbreviation keeps_sound m f := (wp m f (fun _ f' => sound_repo f')).
Abbreviation sound_later m f := (eventually (fun fuel => wp (m fuel) f (fun _ f' => sound_repo f'))).

(** What comes after the first step may need fuel that depends on it. *)
Lemma later_bind {A A'} (m : stateM Error (Forge St) A) (k : nat -> A -> stateM Error (Forge St) A') f (Q : Result A' -> Forge St -> Prop) :
  wp m f (fun r f1 => match r with
    | Ok a => eventually (fun fuel => wp (k fuel a) f1 Q)
    | Err e => Q (Err e) f1
    | Panic => Q Panic f1
    end) ->
  eventually (fun fuel => wp (m ≫= k fuel) f Q).
Proof.
  unfold wp at 1. intros H. assert (forall fuel, wp (m ≫= k fuel) f Q <-> match (m f).1 with
    | Ok a => wp (k fuel a) (m f).2 Q | Err e => Q (Err e) (m f).2 | Panic => Q Panic (m f).2 end) as Hw.
  { intros fuel. unfold wp, mbind, stateM_bind. by destruct (m f) as [[a|e|] f1]. }
  destruct (m f).1 as [a|e|]; [|apply eventually_always; intros fuel; by apply Hw..].
  eapply eventually_mono; [|exact H]. intros fuel Hk. by apply Hw.
Qed.

Lemma later_reads {A A'} (m : stateM Error (Forge St) A) (k : nat -> A -> stateM Error (Forge St) A') d f0 f :
  sound_repo f0 -> same f0 f -> denotes m d ->
  (forall a f1, same f0 f1 -> d (f_view f0) (meta f0) = Ok a -> sound_later (fun fuel => k fuel a) f1) ->
  sound_later (fun fuel => m ≫= k fuel) f.
Proof.
  intros H0 Hs Hm Hk. apply later_bind. eapply wp_mono; [apply Hm, Hs|]. intros r f1 [H1 ->].
  assert (same f0 f1) as S1 by by eapply same_trans. rewrite (same_view _ _ Hs), (same_meta _ _ Hs).
  destruct (d (f_view f0) (meta f0)) as [a|e|] eqn:E; [by apply Hk|by eapply repo_same..].
Qed.

Lemma later_looks {A A'} (m : stateM Error (Forge St) A) (k : nat -> A -> stateM Error (Forge St) A') f0 f :
  sound_repo f0 -> same f0 f -> only_looks m ->
  (forall a f1, same f0 f1 -> sound_later (fun fuel => k fuel a) f1) ->
  sound_later (fun fuel => m ≫= k fuel) f.
Proof.
  intros H0 Hs Hm Hk. apply later_bind. eapply wp_mono; [apply Hm, Hs|]. intros r f1 H1.
  assert (same f0 f1) as S1 by by eapply same_trans. destruct r as [a|e|]; [by apply Hk|by eapply repo_same..].
Qed.

(** A step that needs fuel, and leaves the repository grown. *)
Lemma later_grown {A A'} (m : nat -> stateM Error (Forge St) A) (k : nat -> A -> stateM Error (Forge St) A') f0 f (R : A -> Forge St -> Prop) :
  sound_repo f0 -> same f0 f ->
  eventually (fun fuel => wp (m fuel) f (fun r f1 => grown f f1 /\ meta f1 = meta f /\ match r with Ok a => R a f1 | _ => True end)) ->
  (forall a f1, sound_repo f1 -> grown f0 f1 -> meta f1 = meta f0 -> R a f1 -> forall fuel, keeps_sound (k fuel a) f1) ->
  sound_later (fun fuel => m fuel ≫= k fuel) f.
Proof.
  intros H0 Hs Hm Hk. eapply eventually_mono; [|exact Hm]. intros fuel H. apply wp_bind. eapply wp_mono; [exact H|].
  intros r f1 (G & M & Hr). assert (grown f0 f1) as G1 by (eapply grown_trans; [by apply same_grown|done]).
  assert (meta f1 = meta f0) as M1 by (by rewrite M, (same_meta _ _ Hs)).
  assert (sound_repo f1) as H1 by by eapply repo_store. destruct r as [a|e|]; [by apply (Hk a f1)|done..].
Qed.

Tactic Notation "reading" uconstr(lem) := eapply later_reads; [eassumption|eassumption|apply lem|].
Tactic Notation "looking" uconstr(lem) := eapply later_looks; [eassumption|eassumption|apply lem|].

(** ** The merge bases *)

Lemma merge_bases_looks a b : looks rp_inv rp_view rp_writable (merge_bases (St:=St) a b).
Proof.
  assert (forall id, looks rp_inv rp_view rp_writable (read_commit (St:=St) id)) as Hread.
  { intros id. eapply answers_looks, rp_get_commit. }
  assert (forall {A} (r : Result A), looks rp_inv rp_view rp_writable (pure r : stateM Error St A)) as Hpure.
  { intros A r. eapply answers_looks, answers_pure. }
  assert (forall {A} (x : A), looks rp_inv rp_view rp_writable (mret x : stateM Error St A)) as Hret.
  { intros A x. eapply answers_looks, answers_ret. }
  assert (forall id, looks rp_inv rp_view rp_writable (ancestor_map (St:=St) id)) as Hmap.
  { intros id s Hs. unfold ancestor_map.
    eapply wp_mono; [apply (wp_m_while_inv (fun s' => rp_inv s' /\ rp_view s' = rp_view s /\ (rp_writable s -> rp_writable s')))|by intros ? ? ?].
    - intros [out stack] s' (I' & V' & W').
      assert (looks rp_inv rp_view rp_writable (ancestor_step (St:=St) (out, stack))) as Hl.
      { unfold ancestor_step. destruct stack as [|x stack]; [apply Hret|]. destruct (out !! x); [apply Hret|].
        apply looks_bind; [apply Hpure|]. intros u. apply looks_bind; [apply Hread|]. intros k. apply Hret. }
      eapply wp_mono; [by apply Hl|]. intros r s2 (I2 & V2 & W2). split; [done|]. split; [congruence|auto].
    - done. }
  unfold merge_bases. case_bool_decide; [apply looks_bind; [apply Hread|intros ?; apply Hret]|].
  apply looks_bind; [apply Hmap|]. intros am. apply looks_bind; [apply Hmap|]. intros bm. cbv zeta.
  case_bool_decide; [apply Hret|]. apply looks_bind; [apply Hpure|]. intros dominated. apply Hret.
Qed.

(** ** The three-way merge *)

Lemma file_in_plain_names f id p fl : f_inv f -> file_in (store f) id p fl -> p <> [] /\ Forall plain p.
Proof. intros Hi. by apply (file_in_plain (store f)). Qed.

Lemma within_files K HK (s : St) id p fl : file_in (TSL:=laws_within K HK) s id p fl <-> file_in (TSL:=repo_tree_laws) s id p fl.
Proof. split; [by apply (file_in_transport (TX:=laws_within K HK))|by apply (file_in_transport (TY:=laws_within K HK))]. Qed.

(** The automatic merge of whole trees is whole. *)
Lemma auto_merge_grown f base ours theirs :
  f_inv f -> (forall b, base = Some b -> whole f b) -> whole f ours -> whole f theirs ->
  eventually (fun fuel => wp (on_store (auto_merge_tree fuel base ours theirs)) f (fun r f' =>
    grown f f' /\ meta f' = meta f /\
    match r with
    | Ok (id, paths) => closed (store f') id /\ (paths = [] -> whole f' id) /\ Forall (fun p => utf8_valid (cp_path p) = true) paths
    | _ => True
    end)).
Proof.
  intros Hi Hb Ho Ht. set (K := more_trees (f_view f)).
  destruct (@auto_merge_spec St _ (laws_within K (more_trees_keeps _)) (store f) base ours theirs) as [k Hk].
  - split; [exact Hi|apply more_trees_refl].
  - destruct base as [b|]; [|done]. exact (wh_closed _ _ (Hb b eq_refl)).
  - exact (wh_closed _ _ Ho).
  - exact (wh_closed _ _ Ht).
  - exists k. intros fuel Hf. apply wp_on_store. eapply wp_mono; [by apply Hk|].
    intros r s' [[[Hi' Hv'] Hw' Hh'] Hr]. assert (grown f (mkForge s' (meta f))) as G by by apply more_trees_grown.
    split; [done|]. split; [done|]. destruct r as [[id paths]|e|]; [|done..].
    destruct Hr as (Hc & _ & Hreal & Hfiles). split; [exact Hc|]. split.
    + intros ->. split; [exact Hc|]. intros p fl Hfl.
      destruct (file_in_plain_names (mkForge s' (meta f)) id p fl Hi' Hfl) as [Hp Hpl].
      destruct (Hfiles p Hp Hpl) as [Hs|Hf3]; [done|].
      assert (forall o x, whole f o -> file_in (store f) o p x -> is_type (mkForge s' (meta f)) TBlob x.1) as Hty.
      { intros o x Hwo Hx. eapply (is_type_grown f); [done|]. by eapply (wh_files _ _ Hwo). }
      apply (proj2 (within_files K (more_trees_keeps (f_view f)) s' id p fl)) in Hfl.
      destruct Hf3 as [[_ Ha]|[[_ Ha]|[_ Ha]]]; apply Ha, (within_files K (more_trees_keeps (f_view f))) in Hfl;
        [by eapply (Hty ours)|by eapply (Hty theirs)|by eapply (Hty ours)].
    + apply Forall_forall. intros c Hin%Hreal. eapply (real_conflict_utf8 (TSL:=laws_within K (more_trees_keeps _))); [|exact Hin]. split; [exact Hi|apply more_trees_refl].
Qed.

(** ** Publishing *)

Lemma target_ref_looks key now cap into : only_looks (target_ref (St:=St) key now cap into).
Proof.
  unfold target_ref. apply only_looks_bind; [apply only_looks_query, query_get_ref|]. intros row.
  apply only_looks_bind; [apply only_looks_pure|]. intros r. apply only_looks_bind; [apply only_looks_pure|].
  intros u. apply only_looks_ret.
Qed.

Lemma publish_conflict_sound now ulid cap into reason (k : Conflict) f :
  sound_repo f -> sound_conflict f k -> Forall (fun p => utf8_valid (cp_path p) = true) (cf_paths k) ->
  keeps_sound (publish_conflict now ulid cap into reason k) f.
Proof.
  intros H Hk Hu. unfold publish_conflict. apply wp_bind. eapply wp_mono; [apply (wp_store_adds _ _ _ (rp_put_conflict k)); [apply H|]|].
  { intros o Ho. by eapply conflict_sound. }
  intros r f1 (G1 & M1 & Hr). assert (sound_repo f1) as H1 by by eapply repo_store. destruct r as [oid|e|]; [|done..].
  destruct Hr as (o & ([] & _ & Ho)%bind_ok & Hv). cbv zeta. apply wp_bind. eapply wp_mono.
  - eapply (wp_catalog _ (OpInsertRef _ _ _ _ _ _ _ _)); [exact H1|intros; symmetry; apply void_unit|exact I|].
    intros x c' Ht E. eapply insert_ref_tables; [exact Ht| |exact E]. apply typed_conflict.
    eapply stored_type; [exact Hv|by eapply Conflict_encode_type].
  - intros r f2 H2. by destruct r.
Qed.

(** A commit that is put is sound when what it names is. *)
Lemma put_commit_sound (k : Commit) f :
  sound_repo f -> wf_commit k -> sound_commit f k ->
  wp (on_store (repo_put_commit k)) f (fun r f' => sound_repo f' /\ grown f f' /\ meta f' = meta f /\
    match r with Ok id => is_type f' TCommit id | _ => True end).
Proof.
  intros H Hw Hk. eapply wp_mono; [apply (wp_store_adds _ _ _ (rp_put_commit k)); [apply H|]|].
  { intros o Ho. by eapply commit_sound. }
  intros r f1 (G1 & M1 & Hr). split; [by eapply repo_store|]. split; [done|]. split; [done|].
  destruct r as [id|e|]; [|done..]. destruct Hr as (o & Ho & Hv). eapply stored_type; [exact Hv|by eapply Commit_encode_type].
Qed.

Lemma publish_merge_sound now ulid cap into from into_row ours_tree theirs_oid tree f :
  sound_repo f -> whole f tree -> is_type f TCommit (ref_oid into_row) -> is_type f TCommit theirs_oid ->
  str_ok (agent_id cap) -> str_ok (bs "merge " ++ from ++ bs " into " ++ into) -> (forall i, in_u64 (now i)) -> fresh ulid (meta f) ->
  keeps_sound (publish_merge now ulid cap into from into_row ours_tree theirs_oid tree) f.
Proof.
  intros H Ht Hi Hth Hag Hmsg Hnow Hu. unfold publish_merge. cbv zeta. apply wp_bind. eapply wp_mono; [apply put_commit_sound; [done|..]|].
  - split_and!; [by vm_compute|done|exact Hmsg|apply Hnow].
  - split; [done|by repeat constructor|done].
  - intros r f1 (H1 & G1 & M1 & Hr). destruct r as [cid|e|]; [|done..].
    pose proof (same_refl f1 (sr_inv _ H1)) as S1. eapply looks_on; [exact H1|exact S1|apply only_looks_store, rp_collect_intros|].
    intros intros f2 S2. eapply (wp_catalog _ (OpCasIntros _ _ _ _ _ _ _ _ _ _)); [by eapply repo_same|reflexivity| |].
    + cbn [obligations]. rewrite (same_meta _ _ S2), M1. by apply fresh_cas.
    + intros x c' Htab E. eapply cas_intros_tables; [exact Htab| |apply Hag|exact E]. rewrite (same_view _ _ S2). by apply typed_commit.
Qed.

(** ** Merge *)

(** The trees of commits are whole. *)
Fixpoint d_base_trees (bases : list ObjectId) v c : Result (list ObjectId) :=
  match bases with
  | [] => Ok []
  | id :: bases' => k ← (b ← object_at v id; Commit_decode b); l ← d_base_trees bases' v c; Ok (c_tree k :: l)
  end.

Lemma base_trees_denotes bases : denotes (St:=St) (base_trees bases) (d_base_trees bases).
Proof.
  induction bases as [|id bases IH]; cbn [base_trees]; [apply denotes_ret|].
  apply (denotes_bind _ _ (fun v _ => b ← object_at v id; Commit_decode b) (fun k v c => l ← d_base_trees bases v c; Ok (c_tree k :: l)));
    [apply denotes_store, rp_get_commit|]. intros k.
  apply (denotes_bind _ _ (d_base_trees bases) (fun l _ _ => Ok (c_tree k :: l))); [done|]. intros l. apply denotes_ret.
Qed.

Lemma base_trees_whole f c bases : forall trees,
  sound_store f -> d_base_trees bases (f_view f) c = Ok trees -> Forall (whole f) trees.
Proof.
  induction bases as [|id bases IH]; intros trees Hs; cbn [d_base_trees]; [intros [= <-]; constructor|].
  intros (k & Hk%commit_at_read & H)%bind_ok. apply bind_ok in H as (l & Hl & [= <-]).
  constructor; [apply (commit_at_sound _ _ _ Hs Hk)|by apply IH].
Qed.

(** The outcome of a three-way merge of whole trees. *)
Lemma three_way_grown f base ours theirs :
  f_inv f -> (forall b, base = Some b -> whole f b) -> whole f ours -> whole f theirs ->
  eventually (fun fuel => wp (on_store (three_way fuel base ours theirs)) f (fun r f' =>
    grown f f' /\ meta f' = meta f /\
    match r with
    | Ok (MTree id) => whole f' id
    | Ok (MConflict c) => cf_bases c = option_list base /\ cf_ours c = ours /\ cf_theirs c = theirs /\ Forall (fun p => utf8_valid (cp_path p) = true) (cf_paths c)
    | _ => True
    end)).
Proof.
  intros Hi Hb Ho Ht. eapply eventually_mono; [|by apply (auto_merge_grown f base ours theirs)]. intros fuel H.
  unfold three_way. apply on_store_bind, wp_bind. eapply wp_mono; [exact H|]. intros r f1 (G & M & Hr).
  destruct r as [[id paths]|e|]; [|done..]. destruct Hr as (_ & Hw & Hu). unfold wp, on_store. cbn [fst snd].
  assert (forall c, grown f (mkForge (store f1) c)) as G' by (intros c; by apply with_catalog_grown).
  destruct paths as [|p paths]; cbn [fst snd].
  - split; [destruct f1; exact G|]. split; [done|]. destruct f1; by apply Hw.
  - split; [destruct f1; exact G|]. split; [done|]. done.
Qed.

Lemma merge_sound key now ulid cap into from resolved f :
  sound_repo f -> fresh ulid (meta f) -> str_ok (agent_id cap) -> str_ok (bs "merge " ++ from ++ bs " into " ++ into) ->
  (forall i, in_u64 (now i)) -> sound_later (fun fuel => merge fuel key now ulid cap into from resolved) f.
Proof.
  intros H Hu Hag Hmsg Hnow. pose proof (same_refl f (sr_inv _ H)) as S. unfold merge.
  looking target_ref_looks. intros into_row f1 S1. reading denotes_pure. intros u f2 S2 _.
  reading denotes_pure. intros u1 f3 S3 _. reading (denotes_store _ _ (rp_get_commit (ref_oid into_row))).
  intros ours f4 S4 Hours%commit_at_read. reading peel_denotes. intros [theirs_oid theirs] f5 S5 Hth.
  looking (only_looks_store _ (merge_bases_looks _ _)). intros bases f6 S6.
  pose proof (commit_at_sound _ _ _ (sr_store _ H) Hours) as [Wo _ _].
  pose proof (peel_commit_type _ _ _ _ Hth) as Tth. pose proof (commit_type _ _ _ Hours) as To.
  apply peel_type, commit_at_read in Hth. pose proof (commit_at_sound _ _ _ (sr_store _ H) Hth) as [Wt _ _].
  destruct (1 <? len bases).
  - reading base_trees_denotes. intros trees f7 S7 Htrees%base_trees_whole; [|apply H]. apply eventually_always. intros fuel.
    assert (sound_repo f7) as H7 by by eapply repo_same. pose proof (same_grown _ _ S7) as G7.
    apply publish_conflict_sound; [done| |by constructor].
    split; cbn; [by eapply whole_grown..| |repeat constructor; by eapply is_type_grown].
    eapply Forall_impl; [exact Htrees|]. intros id. by apply whole_grown.
  - assert (exists d, denotes (match bases with id :: _ => c ← on_store (repo_get_commit id); mret (Some (c_tree c)) | [] => mret None end : stateM Error (Forge St) (option ObjectId)) d
      /\ forall b, d (f_view f) (meta f) = Ok (Some b) -> whole f b) as (d & Hd & Hdb).
    { destruct bases as [|id bases]; [exists (fun _ _ => Ok None); split; [apply denotes_ret|done]|].
      exists (fun v _ => k ← (b ← object_at v id; Commit_decode b); Ok (Some (c_tree k))). split.
      - apply (denotes_bind _ _ (fun v _ => b ← object_at v id; Commit_decode b) (fun k _ _ => Ok (Some (c_tree k))));
          [apply denotes_store, rp_get_commit|]. intros k. apply denotes_ret.
      - intros b (k & Hk%commit_at_read & [= <-])%bind_ok. by apply (commit_at_sound _ _ _ (sr_store _ H) Hk). }
    reading Hd. intros base f7 S7 Hbase. eapply later_grown; [exact H|exact S7|apply three_way_grown|].
    + apply S7.
    + intros b ->. eapply whole_grown; [by apply same_grown|by apply Hdb].
    + eapply whole_grown; [by apply same_grown|done].
    + eapply whole_grown; [by apply same_grown|done].
    + intros outcome f8 H8 G8 M8 Hr fuel. destruct outcome as [t|k].
      * apply publish_merge_sound; try done; [by eapply is_type_grown..|]. by rewrite M8.
      * destruct Hr as (E0 & E1 & E2 & Hp). apply publish_conflict_sound; [done| |done].
        split; cbn; [rewrite E1; by eapply whole_grown|rewrite E2; by eapply whole_grown| |repeat constructor; by eapply is_type_grown].
        rewrite E0. apply Forall_forall. intros b Hin. destruct base as [x|]; [|by apply elem_of_nil in Hin].
        apply list_elem_of_singleton in Hin as ->. eapply whole_grown; [done|by apply Hdb].
Qed.

(** ** Resolve *)

Lemma diff_loop_looks {X} (note : X -> str -> option TreeEntry -> option TreeEntry -> Result X) fuel : forall out stack,
  looks rp_inv rp_view rp_writable (diff_loop (St:=St) note fuel out stack).
Proof.
  induction fuel as [|fuel IH]; intros out stack; cbn [diff_loop]; [apply (looks_pure_in Panic)|].
  destruct stack as [|[[prefix l] r] stack]; [apply looks_ret_in|]. case_bool_decide; [apply IH|].
  apply looks_bind; [apply looks_get_tree|]. intros lt. apply looks_bind; [apply looks_get_tree|]. intros rt. cbv zeta.
  apply looks_bind; [apply looks_pure_in|]. intros [out' stack']. apply IH.
Qed.

Lemma only_looks_grown {A} (m : stateM Error (Forge St) A) f f1 : grown f f1 -> meta f1 = meta f -> only_looks m ->
  wp m f1 (fun _ f' => grown f f' /\ meta f' = meta f).
Proof.
  intros G M Hm. eapply wp_mono; [apply Hm, G|]. intros r f2 S. split.
  - eapply grown_trans; [done|by apply same_grown].
  - by rewrite (same_meta _ _ S).
Qed.

(** What the steps of [chosen_tree] leave. *)
Definition tree_chosen f (r : Result ObjectId) f' : Prop :=
  grown f f' /\ meta f' = meta f /\ match r with Ok a => whole f' a | _ => True end.

Lemma whole_chosen f f' id : whole f id -> grown f f' -> meta f' = meta f -> tree_chosen f (Ok id) f'.
Proof. intros Hw G M. split_and!; [done|done|by eapply whole_grown]. Qed.

Lemma not_chosen f f' r : grown f f' -> meta f' = meta f -> is_ok r = false -> tree_chosen f r f'.
Proof. intros G M Hr. split_and!; [done|done|by destruct r]. Qed.

Lemma same_chosen f f' r : same f f' -> is_ok r = false -> tree_chosen f r f'.
Proof. intros S Hr. apply not_chosen; [by apply same_grown|apply S|done]. Qed.

Lemma scoped_tree_grown f f1 k id :
  same f f1 -> sound_conflict f k -> whole f id -> eventually (fun fuel => wp (scoped_tree fuel k id) f1 (tree_chosen f)).
Proof.
  intros S [Ho Ht Hb _] Hw. unfold scoped_tree. pose proof (same_grown _ _ S) as G.
  apply later_bind, wp_pure. destruct (match cf_bases k with [] => Ok None | [one] => Ok (Some one) | _ => _ end) as [base|e|] eqn:E;
    [|by apply same_chosen..].
  assert (forall b, base = Some b -> whole f b) as Hbase.
  { intros b ->. destruct (cf_bases k) as [|x [|y l]]; [done| |done]. injection E as ->. by inversion Hb. }
  eapply eventually_mono; [|apply (auto_merge_grown f1 base (cf_ours k) (cf_theirs k))];
    [|apply S|intros b Eb; eapply whole_grown; [exact G|by apply Hbase]|by eapply whole_grown..].
  intros fuel H. apply wp_bind. eapply wp_mono; [exact H|]. intros r f2 (G2 & M2 & _).
  assert (grown f f2) as G' by by eapply grown_trans. assert (meta f2 = meta f) as M' by (by rewrite M2, (same_meta _ _ S)).
  destruct r as [[auto paths]|e|]; [|by apply not_chosen..].
  apply wp_bind. eapply wp_mono; [apply (only_looks_grown _ f); [done..|apply only_looks_store, diff_loop_looks]|].
  intros r f3 [G3 M3]. destruct r as [changed|e|]; [|by apply not_chosen..].
  apply wp_bind, wp_pure. destruct (reject_if _ _) as [[]|e|]; [|by apply not_chosen..].
  apply wp_ret. by apply whole_chosen.
Qed.

(** The tree that resolves a conflict is one of the two sides, or the one the
    caller names. *)
Lemma chosen_tree_grown f f1 k choice :
  same f f1 -> sound_conflict f k -> (forall id, choice = ChooseTree id -> whole f id) ->
  eventually (fun fuel => wp (chosen_tree fuel k choice) f1 (tree_chosen f)).
Proof.
  intros S Hk Hid. pose proof Hk as [Ho Ht _ _]. pose proof (same_grown _ _ S) as G. destruct choice as [| |id]; cbn [chosen_tree].
  1, 2: apply eventually_always; intros fuel; apply wp_ret, whole_chosen; [done..|apply S].
  specialize (Hid id eq_refl). apply later_bind. eapply wp_mono; [apply (denotes_store _ _ (rp_object_type id)), S|].
  intros r f2 [S2 _]. pose proof (same_trans _ _ _ S S2) as S'. destruct r as [ty|e|]; [|by apply same_chosen..].
  apply later_bind, wp_pure. destruct (reject_if _ _) as [[]|e|]; [|by apply same_chosen..].
  destruct (cf_paths k); [|by apply scoped_tree_grown]. apply eventually_always. intros fuel.
  apply wp_bind, wp_pure. destruct (reject_if _ _) as [[]|e|]; [|by apply same_chosen..].
  apply wp_ret, whole_chosen; [done|by apply same_grown|apply S'].
Qed.

(** The commit of the resolution, and its publication. *)
Lemma resolve_msg_ok oid : str_ok (bs "resolve " ++ hex oid).
Proof.
  split.
  - apply utf8_valid_app; [by vm_compute|]. apply utf8_valid_ascii. eapply Forall_impl; [apply hex_encode_ascii|]. simpl. lia.
  - rewrite len_app. unfold hex. rewrite len_hex_encode, arr_length_len. by vm_compute.
Qed.

Lemma publish_resolved_sound (now : nat -> Z) cap oid into into_row cref rref (k : Conflict) tree f f0 :
  sound_repo f -> grown f0 f -> sound_conflict f0 k -> whole f tree -> str_ok (agent_id cap) -> (forall i, in_u64 (now i)) ->
  keeps_sound (
    _ ← pure (reject_if (negb (len (cf_causal k) =? 2)) (Corrupt (bs "conflict {conflict_oid} causal must name exactly two commits")));
    let commit := mkCommit tree (cf_causal k) (agent_id cap) (bs "resolve " ++ hex oid) (now 1%nat) false None in
    cid ← on_store (repo_put_commit commit);
    into_commit ← on_store (repo_get_commit (ref_oid into_row));
    intro_oids ← on_store (repo_collect_intros (Some (c_tree into_commit)) tree);
    on_meta (publish_resolution (now 2%nat) into (ref_oid into_row) cid cref oid rref
               (agent_id cap) (ref_protected into_row) intro_oids)) f.
Proof.
  intros H G [_ _ _ Hp] Hw Hag Hnow. pose proof (same_refl f (sr_inv _ H)) as S.
  eapply reads_on; [exact H|exact S|apply denotes_pure|]. intros u f1 S1 Hl%reject_if_ok%negb_false_iff%Z.eqb_eq. cbv zeta.
  apply wp_bind. eapply wp_mono; [apply put_commit_sound; [by eapply repo_same|..]|].
  - unfold wf_commit. cbn [c_parents c_agent c_msg c_ts]. rewrite Hl.
    split_and!; [by vm_compute|done|apply resolve_msg_ok|apply Hnow].
  - pose proof (same_grown _ _ S1) as G1. split; cbn [c_tree c_parents c_contrib].
    + by eapply whole_grown.
    + eapply Forall_impl; [exact Hp|]. intros id Hid. eapply is_type_grown; [exact G1|]. by eapply is_type_grown.
    + done.
  - intros r f2 (H2 & G2 & M2 & Hr). destruct r as [cid|e|]; [|done..].
    pose proof (same_refl f2 (sr_inv _ H2)) as S2.
    eapply reads_on; [exact H2|exact S2|apply (denotes_store _ _ (rp_get_commit _))|]. intros ic f3 S3 _.
    eapply looks_on; [exact H2|exact S3|apply only_looks_store, rp_collect_intros|]. intros intros f4 S4.
    eapply (wp_catalog _ (OpResolve _ _ _ _ _ _ _ _ _ _)); [by eapply repo_same|reflexivity|exact I|].
    intros x c' Htab E. eapply resolution_tables; [exact Htab| |apply Hag|exact E]. by rewrite (same_view _ _ S4).
Qed.

Lemma resolve_sound is_ulid key now cap oid into choice f :
  sound_repo f -> str_ok (agent_id cap) -> (forall i, in_u64 (now i)) -> (forall id, choice = ChooseTree id -> whole f id) ->
  sound_later (fun fuel => resolve_conflict is_ulid fuel key now cap oid into choice) f.
Proof.
  intros H Hag Hnow Hid. pose proof (same_refl f (sr_inv _ H)) as S. unfold resolve_conflict.
  looking target_ref_looks. intros into_row f1 S1. reading (denotes_store _ _ (rp_get_conflict oid)).
  intros k f2 S2 Hk%conflict_at_sound; [|apply H]. looking (only_looks_query _ (query_list_refs)). intros rows f3 S3.
  reading denotes_pure. intros cref f4 S4 _. reading denotes_pure. intros u f5 S5 _. cbv zeta.
  reading denotes_pure. intros u1 f6 S6 _.
  eapply eventually_mono; [|by apply (chosen_tree_grown f f6 k choice)]. intros fuel Hc.
  apply wp_bind. eapply wp_mono; [exact Hc|]. intros r f7 (G7 & M7 & Hr). assert (sound_repo f7) as H7 by by eapply repo_store.
  destruct r as [tree|e|]; [|done..]. by eapply publish_resolved_sound.
Qed.
End integrate.
