(* ===== verification/Moves.v ===== *)
(** * Moves keep the repository sound (crates/forge-api/src/workspace.rs, rename)

    What a move stages: the files of the directory as the session sees them,
    under the new name. *)

From S2P Require Import Prelude RustStd Types Tree TreeStore Object Contribution ObjectStore Store Graph Cap History Merge Overlay Namespace Catalog Refs Sessions CatAudit Events CatalogInv Publish Staging Authority Plane Forge Growth Workspace WorkspaceReads Checkin Sound Api.

(** ** Files and directories of a tree *)

Section trees.
Context {St : Type} `{TSL : TreeStoreLaws St}.
Implicit Types (s : St) (id : ObjectId) (p q : list str).

(** No file lies below a file. *)
Lemma file_in_leaf s id p q fl fl' : ts_inv s -> file_in s id p fl -> file_in s id (p ++ q) fl' -> q = [].
Proof.
  intros Hi H. revert q fl'. induction H as [id t n e Ht Hf Hk|id t n e p fl Ht Hf Hk H IH]; intros q fl' H'; cbn [app] in H'.
  - inversion H' as [|id1 t1 n1 e1 p1 f1 Ht1 Hf1 Hk1 H1]; subst; [done|].
    assert (t1 = t) as -> by (by eapply ts_holds_fun). congruence.
  - inversion H' as [id1 t1 n1 e1 Ht1 Hf1 Hk1 E|id1 t1 n1 e1 p1 f1 Ht1 Hf1 Hk1 H1]; subst.
    + assert (p = []) as -> by by destruct p. inversion H.
    + assert (t1 = t) as -> by (by eapply ts_holds_fun). assert (e1 = e) as -> by congruence. by eapply IH.
Qed.

Lemma dir_in_file s id p d q fl : dir_in s id p d -> file_in s d q fl -> file_in s id (p ++ q) fl.
Proof.
  revert id. induction p as [|n p IH]; intros id; cbn [dir_in app]; [by intros ->|].
  intros (t & e & Ht & Hf & Hk & Hd) H. eapply file_below; [done..|]. by eapply IH.
Qed.
End trees.

Lemma join_snoc (pre : list str) n :
  Forall plain pre -> (if is_nil (join (bs "/") pre) then n else join (bs "/") pre ++ bs "/" ++ n) = join (bs "/") (pre ++ [n]).
Proof. intros Hp. exact (child_path_join pre n Hp). Qed.

(** [p] lies at or above [q] when its names are the first names of [q]. *)
Lemma under_names a p : Forall plain p -> (exists r, join (bs "/") p = a ++ bs "/" ++ r) ->
  exists p1 p2, p = p1 ++ p2 /\ p2 <> [] /\ a = join (bs "/") p1.
Proof.
  intros Hp [r E]. exists (split_byte "/"%byte a), (split_byte "/"%byte r). split_and!.
  - destruct (decide (p = [])) as [->|Hne]; [by destruct a|]. rewrite <- (split_join p) by done. rewrite E. apply (split_byte_cat "/"%byte).
  - destruct r; simpl; [done|]. by repeat case_match.
  - symmetry. apply join_split.
Qed.

Section moves.
Context {St B : Type} `{RL : RepoLaws St B} `{HM : Hmac}.
Implicit Types (f : Forge St) (v : gmap ObjectId bytes) (c : Catalog) (s : St) (root id d : ObjectId) (p q : list str) (fl : FileId).

Lemma whole_dir f id p d : f_inv f -> whole f id -> dir_in (store f) id p d -> whole f d.
Proof.
  intros Hi [Hc Hf] Hd. split; [by eapply (dir_in_closed (store f))|]. intros q fl H.
  eapply Hf. by eapply dir_in_file.
Qed.

(** *** The files below a directory *)

Definition collected s root (out : gmap str (ObjectId * bool)) : Prop :=
  forall k fl, out !! k = Some fl -> exists p, k = join (bs "/") p /\ file_in s root p fl.

(** A directory still to visit, and where it is. *)
Definition pending s root (x : ObjectId * str) : Prop :=
  exists p, x.2 = join (bs "/") p /\ Forall plain p /\ dir_in s root p x.1.

Lemma dir_in_snoc s root p t id e : dir_in s root p id -> ts_holds s id t -> find_entry (entries t) (e_name e) = Some e ->
  e_kind e = KTree -> dir_in s root (p ++ [e_name e]) (e_id e).
Proof.
  revert root. induction p as [|n p IH]; intros root; cbn [dir_in app].
  - intros -> Ht Hf Hk. by exists t, e.
  - intros (t' & e' & H1 & H2 & H3 & Hd) Ht Hf Hk. exists t', e'. split_and!; [done..|]. by apply IH.
Qed.

Lemma file_in_snoc s root p t id e : dir_in s root p id -> ts_holds s id t -> find_entry (entries t) (e_name e) = Some e ->
  e_kind e = KBlob -> file_in s root (p ++ [e_name e]) (e_id e, e_exec e).
Proof. intros Hd Ht Hf Hk. eapply dir_in_file; [done|]. by eapply file_here. Qed.

Lemma collect_entry_spec s root at_ p id t e acc acc' :
  ts_inv s -> at_ = join (bs "/") p -> Forall plain p -> dir_in s root p id -> ts_holds s id t -> e ∈ entries t ->
  collect_entry at_ acc e = Ok acc' -> Forall (pending s root) acc.1 -> collected s root acc.2 ->
  Forall (pending s root) acc'.1 /\ collected s root acc'.2.
Proof.
  intros Hi -> Hp Hd Ht He. destruct acc as [pend out]. unfold collect_entry. cbn [fst snd]. rewrite join_snoc by done.
  pose proof (ts_holds_wf _ _ _ Hi Ht) as Hwt.
  assert (find_entry (entries t) (e_name e) = Some e) as Hf by (apply find_entry_sorted; [apply Hwt|done|done]).
  assert (plain (e_name e)) as Hn by (apply valid_name_plain; destruct Hwt as [Hw _]; by rewrite Forall_forall in Hw; apply Hw).
  intros (u & _ & H)%bind_ok. apply bind_ok in H as (ps & _ & H). intros Hpend Hout.
  destruct (e_kind e) eqn:Hk; injection H as <-; cbn [fst snd].
  - split; [done|]. intros k fl. destruct (decide (k = join (bs "/") (p ++ [e_name e]))) as [->|Hne].
    + rewrite lookup_insert_eq. intros [= <-]. eexists; split; [done|]. by eapply file_in_snoc.
    + rewrite lookup_insert_ne by done. apply Hout.
  - split; [|done]. constructor; [|done]. exists (p ++ [e_name e]). cbn. split_and!; [done| |by eapply dir_in_snoc].
    apply Forall_app; split; [done|by constructor].
Qed.

Lemma collect_entries_spec s root at_ p id t : ts_inv s -> at_ = join (bs "/") p -> Forall plain p -> dir_in s root p id -> ts_holds s id t ->
  forall es acc acc', (forall e, e ∈ es -> e ∈ entries t) -> try_fold (collect_entry at_) acc es = Ok acc' ->
  Forall (pending s root) acc.1 -> collected s root acc.2 -> Forall (pending s root) acc'.1 /\ collected s root acc'.2.
Proof.
  intros Hi Hat Hp Hd Ht. induction es as [|e es IH]; intros acc acc' Hes; cbn [try_fold]; [by intros [= <-]|].
  intros (acc1 & H1 & H2)%bind_ok Hpend Hout.
  destruct (collect_entry_spec s root at_ p id t e acc acc1) as [H3 H4]; try done; [apply Hes; by left|].
  eapply IH; [|exact H2|done..]. intros e' He'. apply Hes. by right.
Qed.

Lemma tree_held s id t : (b ← object_at (rp_view s) id; Tree_decode b) = Ok t -> ts_holds s id t.
Proof. intros (o & Ho%ok_or_ok & Hd)%bind_ok. by exists o. Qed.

Lemma collect_loop_spec s root fuel : rp_inv s -> forall s1 pend out,
  rp_inv s1 -> rp_view s1 = rp_view s -> Forall (pending s root) pend -> collected s root out ->
  wp (collect_loop fuel pend out) s1 (fun r s2 => rp_inv s2 /\ rp_view s2 = rp_view s /\ (rp_writable s1 -> rp_writable s2) /\
    match r with Ok out' => collected s root out' | _ => True end).
Proof.
  intros Hi. induction fuel as [|fuel IH]; intros s1 [|[id at_] pend] out I1 V1 Hpend Hout; cbn [collect_loop];
    [by apply wp_ret|by split_and!|by apply wp_ret|]. inversion Hpend as [|x l (p & Ep & Hp & Hd) Hrest]; subst.
  apply wp_bind. eapply wp_mono; [by apply rp_get_tree|]. intros r s2 (I2 & V2 & W2 & ->). rewrite V1 in *.
  destruct (b ← object_at _ _; _) as [t|e|] eqn:Et; [|by split_and!..]. apply tree_held in Et.
  apply wp_bind, wp_pure. destruct (try_fold _ _ _) as [[pend' out']|e|] eqn:Ef; [|by split_and!..].
  destruct (collect_entries_spec s root at_ p id t Hi Ep Hp Hd Et (entries t) (pend, out) (pend', out')) as [Hp' Ho']; [done..|].
  eapply wp_mono; [by apply IH|]. intros r s3 (I3 & V3 & W3 & Hr). split_and!; auto.
Qed.

Lemma collect_blobs_spec s root fuel : rp_inv s ->
  wp (collect_blobs fuel root [] ∅) s (fun r s2 => rp_inv s2 /\ rp_view s2 = rp_view s /\ (rp_writable s -> rp_writable s2) /\
    match r with Ok out => collected s root out | _ => True end).
Proof.
  intros Hi. apply collect_loop_spec; [done..| |by intros k fl E]. constructor; [|done]. by exists [].
Qed.

(** *** The rows of the overlay on top *)

Lemma move_row_spec pre files kv k x : move_row_under pre files kv !! k = Some x ->
  files !! k = Some x \/ kv = (pre ++ k, Some x).
Proof.
  unfold move_row_under. destruct kv as [path op]. cbn [fst snd]. destruct (strip_prefix path pre) as [rest|] eqn:E; [|by left].
  apply strip_prefix_spec in E as ->. destruct op as [fl|].
  - destruct (decide (k = rest)) as [->|Hne]; [rewrite lookup_insert_eq; intros [= ->]; by right|].
    rewrite lookup_insert_ne by done. by left.
  - intros [H _]%map_lookup_filter_Some. left. by apply lookup_delete_Some in H as [_ H].
Qed.

Lemma move_rows_spec pre rows k x : forall files, fold_left (move_row_under pre) rows files !! k = Some x ->
  files !! k = Some x \/ (pre ++ k, Some x) ∈ rows.
Proof.
  induction rows as [|kv rows IH]; intros files; cbn [fold_left]; [by left|]. intros [H|H]%IH.
  - apply move_row_spec in H as [H| ->]; [by left|right; by left].
  - right. by right.
Qed.

(** What a move stages under the new name: files of the directory, and staged
    files below it. *)
Definition moved_row s (ov : Overlay) root (from to : str) (d : str * ObjectId * bool) : Prop :=
  exists rest, d.1.1 = to ++ bs "/" ++ rest /\
    ((exists p, rest = join (bs "/") p /\ file_in s root p (d.1.2, d.2)) \/ ov !! (from ++ bs "/" ++ rest) = Some (Some (d.1.2, d.2))).

Lemma moved_files_spec s fuel ov root from to : rp_inv s ->
  wp (moved_files fuel ov root from to) s (fun r s2 => rp_inv s2 /\ rp_view s2 = rp_view s /\ (rp_writable s -> rp_writable s2) /\
    match r with Ok dest => forall d : str * ObjectId * bool, d ∈ dest -> moved_row s ov root from to d | _ => True end).
Proof.
  intros Hi. unfold moved_files. apply wp_bind. eapply wp_mono; [by apply collect_blobs_spec|].
  intros r s2 (I2 & V2 & W2 & Hr). destruct r as [files|e|]; [|done..]. apply wp_ret. split_and!; [done..|].
  intros d (kv & -> & Hin)%list_elem_of_fmap. destruct kv as [rest [id x]]. apply elem_of_btree_list in Hin.
  apply move_rows_spec in Hin as [Hin|Hin]; exists rest; (split; [done|]); cbn [fst snd].
  - left. by apply Hr.
  - right. apply elem_of_btree_list in Hin. by rewrite <- app_assoc in Hin.
Qed.

(** *** What the source of a move is *)

Lemma resolve_source f ns (ms : list Mount) m rows tree abs rel :
  f_inv f -> longest_mount ms abs = Ok m -> rel_of (m_path m) abs = Ok rel -> is_nil rel = false ->
  Forall valid_name (split_byte "/"%byte rel) -> whole f tree -> overlay_map rows = staged_overlay (meta f) ns (m_path m) ->
  (forall path id x, staged_overlay (meta f) ns (m_path m) !! path = Some (Some (id, x)) -> is_type f TBlob id) ->
  wp (on_store (resolve ms rows tree abs)) f (fun r f' => same f f' /\
    match r with
    | Ok (RBlob id x) => is_type f TBlob id
    | Ok (RTree d) => dir_in (store f) tree (split_byte "/"%byte rel) d
    | _ => True
    end).
Proof.
  intros Hi Em Er Hnil Hn Hw Eo Hov. pose proof (only_looks_store _ (resolve_looks ms rows tree abs) f Hi) as Hl.
  eapply wp_mono; [apply wp_and; [exact Hl|]|].
  2: { intros r f' [H1 H2]. split; [exact H1|exact H2]. }
  apply wp_on_store. unfold resolve. apply wp_bind, wp_pure. rewrite Em. apply wp_bind, wp_pure. rewrite Er, Hnil, Eo.
  cbv zeta. destruct (staged_overlay (meta f) ns (m_path m) !! rel) as [[[id x]|]|] eqn:Ho; [by apply wp_ret; eapply Hov|done|].
  assert (split_path rel = Ok (split_byte "/"%byte rel)) as ->.
  { rewrite <- (join_split rel) at 1. by apply split_path_join. }
  apply wp_bind, wp_pure.
  eapply wp_mono; [apply (resolve_loop_spec _ (store f) [] tree)|].
  - exact Hi.
  - exact (wh_closed _ _ Hw).
  - by apply valid_names_plain.
  - destruct rel; simpl; [done|]. by repeat case_match.
  - cbn [app]. by rewrite join_split.
  - intros r s' [_ Hr]. destruct r as [[d|id x]|e|]; [by apply Hr| |done..].
    destruct Hr as [Hr|(_ & _ & Hr)]; [by eapply Hov|exact (wh_files _ _ Hw _ _ Hr)].
Qed.
End moves.

(** ** The rows a move stages *)

Lemma is_under_false p a : is_under p a = false -> p <> a /\ forall r, p <> a ++ bs "/" ++ r.
Proof.
  unfold is_under. intros [H1 H2]%orb_false_iff. split; [by intros ->; rewrite (proj2 (bytes_eqb_true _ _)) in H1|].
  intros r ->. assert (strip_prefix (a ++ bs "/" ++ r) a = Some (bs "/" ++ r)) as E by by apply strip_prefix_spec.
  by rewrite E, starts_with_app in H2.
Qed.

(** Paths under one endpoint of a move are apart from the other. *)
Lemma rename_paths_apart from to r :
  rename_paths from to = Ok tt -> utf8_valid from = true -> utf8_valid (to ++ bs "/" ++ r) = true ->
  path_under from (to ++ bs "/" ++ r) = false /\ path_under (to ++ bs "/" ++ r) from = false.
Proof.
  unfold rename_paths. intros (u1 & _ & H)%bind_ok. apply bind_ok in H as (u2 & H2 & H). apply bind_ok in H as (u3 & H3 & H).
  apply reject_if_ok in H2, H3, H. apply is_under_false in H3 as [Hne H3], H as [_ H4]. intros Vf Vt.
  split; apply not_true_iff_false; intros [t E]%path_under_spec; try done.
  - apply slash_prefixes in E as [->|[[x ->]|[x ->]]]; [done|by eapply H3|by eapply H4].
  - rewrite <- app_assoc in E. cbn in E. by eapply (H4 (r ++ bs "/" ++ t)).
Qed.
Lemma rename_paths_ends from to :
  rename_paths from to = Ok tt -> utf8_valid from = true -> utf8_valid to = true -> path_under from to = false /\ path_under to from = false.
Proof.
  unfold rename_paths. intros (u1 & _ & H)%bind_ok. apply bind_ok in H as (u2 & H2 & H). apply bind_ok in H as (u3 & H3 & H).
  apply reject_if_ok in H3, H. apply is_under_false in H3 as [_ H3], H as [_ H4]. intros Vf Vt.
  split; apply not_true_iff_false; intros [t E]%path_under_spec; try done; [by apply (H3 t)|by apply (H4 t)].
Qed.

Section rename.
Context {St B : Type} `{RL : RepoLaws St B} `{HM : Hmac}.
Implicit Types (f : Forge St) (v : gmap ObjectId bytes) (c : Catalog) (s : St) (root id : ObjectId) (p q : list str) (fl : FileId).

(** No staged file lies above or below a file of the mount's base. *)
Definition kinds_apart f ns : Prop :=
  forall m base k path x q fl, m ∈ mounts_of (meta f) ns -> m_base_oid m = Some base -> commit_at (f_view f) base k ->
    staged_overlay (meta f) ns (m_path m) !! path = Some (Some x) -> file_in (store f) (c_tree k) q fl ->
    path_under path (join (bs "/") q) = false /\ path_under (join (bs "/") q) path = false.

(** A path the session shows: a file of [tree] or a staged file. *)
Definition shows f ns mount tree path fl : Prop :=
  (exists q, path = join (bs "/") q /\ file_in (store f) tree q fl) \/ staged_overlay (meta f) ns mount !! path = Some (Some fl).

Definition tree_apart f ns mount tree : Prop :=
  forall path x q fl, staged_overlay (meta f) ns mount !! path = Some (Some x) -> file_in (store f) tree q fl ->
    path_under path (join (bs "/") q) = false /\ path_under (join (bs "/") q) path = false.

Lemma names_in f id p fl : f_inv f -> file_in (store f) id p fl -> p <> [] /\ Forall valid_name p.
Proof. intros Hi. by apply (file_in_names (store f)). Qed.
Lemma leaf_in f id p q fl fl' : f_inv f -> file_in (store f) id p fl -> file_in (store f) id (p ++ q) fl' -> q = [].
Proof. intros Hi. by apply (file_in_leaf (store f)). Qed.

Lemma utf8_suffix a b : utf8_valid a = true -> utf8_valid (a ++ b) = true -> utf8_valid b = true.
Proof.
  unfold utf8_valid. destruct (utf8_chars a) as [x|] eqn:E; [|done]. rewrite (utf8_chars_app _ _ _ E).
  by destruct (utf8_chars b).
Qed.

Lemma shows_path f ns mount tree path fl : sound_repo f -> whole f tree -> shows f ns mount tree path fl ->
  utf8_valid path = true /\ Forall plain (split_byte "/"%byte path) /\ is_type f TBlob fl.1.
Proof.
  intros H Hw [(q & -> & Hq)|Ho].
  - destruct (names_in f _ _ _ (sr_inv _ H) Hq) as [Hne Hn]. split; [by apply names_utf8|].
    rewrite split_join by (done || by apply valid_names_plain). split; [by apply valid_names_plain|]. by eapply (wh_files _ _ Hw).
  - rewrite staged_overlay_lookup in Ho. apply fmap_Some in Ho as (row & Er & Ex).
    destruct (history_inv _ (sc_history _ _ (sr_catalog _ H))) as (_ & Hfree & _).
    destruct (st_staged _ _ (repo_tables f H) _ _ Er) as [Hp Hb]. cbn in Hp, Hb. split; [by destruct (Hfree ns mount path path) as [? _]; [by eexists..|]|].
    split; [done|]. apply Hb. unfold row_op in Ex. destruct (row.1); [by injection Ex as ->|done].
Qed.

(** What the session shows, it shows as files of one tree. *)
Lemma shows_apart f ns mount tree path path' fl fl' :
  sound_repo f -> whole f tree -> tree_apart f ns mount tree ->
  shows f ns mount tree path fl -> shows f ns mount tree path' fl' -> path_under path path' = false.
Proof.
  intros H Hw Ha [(q & -> & Hq)|Ho] [(q' & -> & Hq')|Ho'].
  - apply not_true_iff_false.
    destruct (names_in f _ _ _ (sr_inv _ H) Hq) as [Hne Hn]. destruct (names_in f _ _ _ (sr_inv _ H) Hq') as [Hne' Hn'].
    intros E%path_under_spec; [|by apply names_utf8..]. apply under_names in E as (q1 & q2 & -> & H2 & E); [|by apply valid_names_plain].
    apply join_inj in E as ->; [|by apply valid_names_plain|apply valid_names_plain; by apply Forall_app in Hn' as [? _]].
    apply H2. by eapply (leaf_in f _ q1 q2); [apply H|..].
  - by eapply (Ha _ _ _ _ Ho' Hq).
  - by eapply (Ha _ _ _ _ Ho Hq').
  - rewrite staged_overlay_lookup in Ho, Ho'. apply fmap_Some in Ho as (r & Er & _), Ho' as (r' & Er' & _).
    destruct (history_inv _ (sc_history _ _ (sr_catalog _ H))) as (_ & Hfree & _).
    by apply (Hfree ns mount path path').
Qed.

Lemma moved_row_shows f ns mount tree parts root from to (d : str * ObjectId * bool) :
  f_inv f -> dir_in (store f) tree parts root -> from = join (bs "/") parts -> Forall plain parts -> parts <> [] ->
  moved_row (store f) (staged_overlay (meta f) ns mount) root from to d ->
  exists rest, d.1.1 = to ++ bs "/" ++ rest /\ shows f ns mount tree (from ++ bs "/" ++ rest) (d.1.2, d.2).
Proof.
  intros Hi Hd -> Hp Hne (rest & E & [(p & -> & Hf)|Ho]); eexists; (split; [exact E|]); [left|by right].
  exists (parts ++ p). destruct (names_in f _ _ _ Hi Hf) as [Hpn _]. split; [by rewrite join_app|].
  by eapply dir_in_file.
Qed.

Lemma moved_rows_ok f ns mount tree parts root from to dest :
  sound_repo f -> whole f tree -> tree_apart f ns mount tree ->
  dir_in (store f) tree parts root -> from = join (bs "/") parts -> Forall valid_name parts -> parts <> [] ->
  Forall valid_name (split_byte "/"%byte to) -> rename_paths from to = Ok tt ->
  (forall d : str * ObjectId * bool, d ∈ dest -> moved_row (store f) (staged_overlay (meta f) ns mount) root from to d) ->
  rename_ok from to dest /\ forall d, d ∈ dest -> sound_row (f_view f) d.1.1 (Some d.1.2).
Proof.
  intros H Hw Ha Hd Hfrom Hp Hne Hto Hpaths Hdest.
  assert (utf8_valid from = true) as Vf by (subst from; by apply names_utf8).
  pose proof (rel_utf8 _ Hto) as Vt.
  assert (forall d : str * ObjectId * bool, d ∈ dest -> exists rest, d.1.1 = to ++ bs "/" ++ rest /\ shows f ns mount tree (from ++ bs "/" ++ rest) (d.1.2, d.2)) as Hsh.
  { intros d Hin. apply (moved_row_shows f ns mount tree parts root); [apply H|done|done|by apply valid_names_plain|done|by apply Hdest]. }
  assert (forall rest fl, shows f ns mount tree (from ++ bs "/" ++ rest) fl ->
    utf8_valid (to ++ bs "/" ++ rest) = true /\ Forall plain (split_byte "/"%byte rest) /\ is_type f TBlob fl.1) as Hrest.
  { intros rest fl Hs. apply shows_path in Hs as (Hu & Hpl & Ht); [|done..]. split.
    - apply utf8_valid_app; [done|]. by apply (utf8_suffix from).
    - split; [|done]. change (from ++ bs "/" ++ rest) with (from ++ "/"%byte :: rest) in Hpl. rewrite split_byte_cat in Hpl.
      by apply Forall_app in Hpl as [_ Hpl]. }
  split; [split; [done|split; [done|split]]|].
  - intros d Hin. destruct (Hsh d Hin) as (rest & -> & Hs). destruct (Hrest _ _ Hs) as (Hu & _). split; [done|].
    split; [right; apply path_under_spec; [done..|by exists rest]|]. by apply rename_paths_apart.
  - intros d d' Hin Hin'. destruct (Hsh d Hin) as (rest & -> & Hs). destruct (Hsh d' Hin') as (rest' & -> & Hs').
    pose proof (shows_apart f ns mount tree _ _ _ _ H Hw Ha Hs Hs') as Hno.
    destruct (Hrest _ _ Hs) as (Hu & _), (Hrest _ _ Hs') as (Hu' & _).
    apply not_true_iff_false. intros [r E]%path_under_spec; [|done..]. apply not_true_iff_false in Hno. apply Hno.
    rewrite <- !app_assoc in E. apply app_inv_head in E. rewrite E.
    apply path_under_spec; [by eapply shows_path|rewrite E in Hs'; by eapply shows_path|]. exists r. by rewrite <- !app_assoc.
  - intros d Hin. destruct (Hsh d Hin) as (rest & -> & Hs). destruct (Hrest _ _ Hs) as (_ & Hpl & Ht). split; [|by intros id [= <-]].
    change (to ++ bs "/" ++ rest) with (to ++ "/"%byte :: rest). rewrite split_byte_cat. apply Forall_app; split; [by apply valid_names_plain|done].
Qed.

(** The base of a mount that may be written. *)
Lemma rw_mount_base f ns m : sound_repo f -> m ∈ mounts_of (meta f) ns -> m_mode m = Rw ->
  exists base k, m_base_oid m = Some base /\ commit_at (f_view f) base k /\ whole f (c_tree k).
Proof.
  intros H Hin Hrw. assert (is_Some (m_base_oid m)) as [base Hb].
  { unfold mounts_of in Hin. apply list_elem_of_fmap in Hin as (mr & -> & Hin).
    apply list_elem_of_fmap in Hin as ([k row] & -> & Hin). apply list_elem_of_filter in Hin as [_ Hin%elem_of_map_to_list].
    pose proof (st_mounts _ _ (repo_tables f H) _ _ Hin) as Hm. unfold sound_mount in Hm. cbn in Hrw |- *.
    destruct (mc_base row); [by eexists|]. unfold Mode_parse in Hrw.
    destruct (bytes_eqb (mc_mode row) (bs "ro")); [done|]. destruct (bytes_eqb (mc_mode row) (bs "rw")) eqn:E; [|done].
    by apply bytes_eqb_true in E. }
  exists base. destruct (ss_pins _ _ (repo_session f ns H) m base Hin Hb) as (k & Hk & Hw). by exists k.
Qed.

Lemma mount_tree_commit v c m base k tree :
  m_mode m = Rw -> m_base_oid m = Some base -> commit_at v base k -> d_mount_tree m v c = Ok tree -> tree = c_tree k.
Proof.
  unfold d_mount_tree. intros -> -> (o & Ho & [Hw He]%Commit_decode_spec) H. unfold d_tree_of in H.
  assert (type_at v base = Ok TCommit) as E by (unfold type_at, object_at; rewrite Ho; by apply Commit_encode_type in He).
  rewrite E in H. cbn in H. unfold object_at in H. rewrite Ho in H. cbn [ok_or] in H. rewrite bind_of_ok in H.
  rewrite (proj2 (Commit_decode_spec o k)) in H by done. by injection H as <-.
Qed.

(** The overlay and the mounts are as they were after an observation. *)
Lemma observe_frame ro ns mount path seen c u c' : observe ro ns mount path seen c = (Ok u, c') ->
  mounts c' = mounts c /\ overlay_rows c' = overlay_rows c /\ namespaces c' = namespaces c.
Proof.
  intros E. unfold observe in E. apply db_bind in E as (cur & c1 & H1 & E).
  assert (c1 = c) as ->.
  { destruct ro; [by apply db_ret in H1 as [_ ->]|]. unfold observation_is_current in H1. by inv_db. }
  destruct cur; inv_db; done.
Qed.

Lemma tree_apart_same f f' ns mount tree :
  f_inv f -> f_inv f' -> f_view f' = f_view f -> overlay_rows (meta f') = overlay_rows (meta f) -> closed (store f) tree ->
  tree_apart f ns mount tree -> tree_apart f' ns mount tree.
Proof.
  intros Hi Hi' Hv Ho Hc Ha path x q fl Hs Hf. assert (f_view f ⊆ f_view f') as Hsub by (by rewrite Hv).
  apply (file_in_view f f') in Hf; [|done..]. eapply Ha; [|exact Hf]. rewrite staged_overlay_lookup in *. by rewrite <- Ho.
Qed.

Lemma rename_names from to mp abs abs' :
  rel_of mp abs = Ok from -> rel_of mp abs' = Ok to -> rename_paths from to = Ok tt ->
  is_nil from = false /\ Forall valid_name (split_byte "/"%byte from) /\ Forall valid_name (split_byte "/"%byte to).
Proof.
  unfold rename_paths. intros Hf Ht ([] & [H1 H2]%reject_if_ok%orb_false_iff & _)%bind_ok. split; [done|].
  split; [by eapply (rel_of_names mp abs), bool_decide_eq_false|by eapply (rel_of_names mp abs'), bool_decide_eq_false].
Qed.

(** What is staged once the source is resolved. *)
Lemma rename_staged_sound fuel ns ms m tree abs rel_from rel_to to_abs expect f :
  sound_repo f -> longest_mount ms abs = Ok m -> rel_of (m_path m) abs = Ok rel_from -> rel_of (m_path m) to_abs = Ok rel_to ->
  rename_paths rel_from rel_to = Ok tt -> whole f tree -> tree_apart f ns (m_path m) tree ->
  (forall path, owned (meta f) (ns, m_path m, path)) ->
  wp (r ← on_store (resolve ms (staged_rows (meta f) ns (m_path m)) tree abs);
      '(kind, source, dest) ← match r with
        | RBlob id exec => mret (bs "blob", id, [(rel_to, id, exec)])
        | RTree id => dest ← on_store (moved_files fuel (overlay_map (staged_rows (meta f) ns (m_path m))) id rel_from rel_to);
                      mret (bs "tree", id, dest)
        end;
      _ ← pure (match expect with
                | Some want => reject_if (negb (bool_decide (want = source))) (StaleObservation abs (hex want) (hex source))
                | None => Ok tt
                end);
      _ ← on_meta (overlay_rename ns (m_path m) rel_from rel_to dest);
      mret (mkRenamed abs to_abs kind source (len dest))) f (fun _ f' => sound_repo f').
Proof.
  intros H Hm Hf Ht Hp Hw Ha Hown. destruct (rename_names _ _ _ _ _ Hf Ht Hp) as (Hnil & Vf & Vt).
  apply wp_bind. eapply wp_mono; [eapply (resolve_source f ns ms m); try done; [apply H|]|].
  { intros path id x Ho. rewrite staged_overlay_lookup in Ho. apply fmap_Some in Ho as (row & Er & Ex).
    destruct (st_staged _ _ (repo_tables f H) _ _ Er) as [_ Hb]. apply Hb. unfold row_op in Ex.
    destruct (row.1); [by injection Ex as -> _|done]. }
  intros res f1 [S1 Hr]. destruct res as [r|e|]; [|by eapply repo_same..].
  set (staged := fun (r' : Result (str * ObjectId * list (str * ObjectId * bool))) f2 => same f f2 /\ match r' with
    | Ok (_, _, dest) => rename_ok rel_from rel_to dest /\ forall d, d ∈ dest -> sound_row (f_view f) d.1.1 (Some d.1.2)
    | _ => True end).
  apply wp_bind. apply (wp_mono _ _ staged).
  - unfold staged. destruct r as [id|id x].
    + apply wp_bind. change (overlay_map (staged_rows (meta f) ns (m_path m))) with (staged_overlay (meta f) ns (m_path m)).
      rewrite <- (same_meta _ _ S1). apply wp_on_store. eapply wp_mono; [apply (moved_files_spec (store f1)), S1|].
      intros res s2 (I2 & V2 & W2 & Hres). assert (same f (mkForge s2 (meta f1))) as S2.
      { eapply same_trans; [exact S1|]. by split. }
      destruct res as [dest|e|]; [|done..]. apply wp_ret. split; [done|]. rewrite <- (same_view _ _ S1).
      eapply (moved_rows_ok f1 ns (m_path m) tree (split_byte "/"%byte rel_from) id); try done.
      * by eapply repo_same.
      * eapply (whole_view f); [apply S1|by rewrite (same_view _ _ S1)|done].
      * eapply (tree_apart_same f); [apply H|apply S1|apply S1|by rewrite (same_meta _ _ S1)|apply Hw|done].
      * apply (dir_in_iff (store f)); [|done]. intros i t. cbn. rewrite (same_view _ _ S1 : rp_view (store f1) = rp_view (store f)). done.
      * by rewrite join_split.
      * destruct rel_from; simpl; [done|]. by repeat case_match.
    + apply wp_ret. split; [done|]. split.
      * split; [by apply rel_utf8|]. split; [by apply rel_utf8|]. split.
        -- intros d ->%list_elem_of_singleton. cbn [fst snd]. split; [by apply rel_utf8|]. split; [by left|].
           apply rename_paths_ends; [done|by apply rel_utf8..].
        -- intros d d' ->%list_elem_of_singleton ->%list_elem_of_singleton. apply path_under_irrefl.
      * intros d ->%list_elem_of_singleton. by apply valid_rel_row; [|intros i [= <-]].
  - intros r' f2 [S2 Hr']. destruct r' as [[[kind source] dest]|e|]; [|by eapply repo_same..]. destruct Hr' as [Hok Hrows].
    eapply reads_on; [exact H|exact S2|apply denotes_pure|]. intros u f3 S3 _. apply wp_bind. eapply wp_mono.
    + eapply (wp_catalog _ (OpRename ns (m_path m) rel_from rel_to dest)); [by eapply repo_same|intros; symmetry; apply void_unit| |].
      * cbn [obligations]. rewrite (same_meta _ _ S3). by split.
      * intros x c' Htab E. eapply rename_tables; [exact Htab| | |exact E].
        -- apply valid_rel_row; done.
        -- intros d Hd. rewrite (same_view _ _ S3). by apply Hrows.
    + intros ans f4 H4. destruct ans; [by apply sound_ret|done..].
Qed.

Lemma rename_sound fuel key now ro cap ns from to expect f :
  sound_repo f -> kinds_apart f ns -> wp (rename fuel key now ro cap ns from to expect) f (fun _ f' => sound_repo f').
Proof.
  intros H Hk. pose proof (same_refl f (sr_inv _ H)) as S. unfold rename.
  eapply reads_on; [exact H|exact S|apply (denotes_query _ (query_require_ns cap ns))|]. intros row f1 S1 Hns%require_ns_query.
  eapply reads_on; [exact H|exact S1|apply mounts_denotes|]. intros ms f2 S2 [= <-].
  eapply reads_on; [exact H|exact S2|apply denotes_pure|]. intros from_abs f3 S3 _.
  eapply reads_on; [exact H|exact S3|apply denotes_pure|]. intros to_abs f4 S4 _.
  eapply reads_on; [exact H|exact S4|apply denotes_pure|]. intros m f5 S5 Hm. pose proof (longest_mount_in _ _ _ Hm) as Hin.
  eapply reads_on; [exact H|exact S5|apply denotes_pure|]. intros dm f6 S6 _.
  eapply reads_on; [exact H|exact S6|apply denotes_pure|]. intros u1 f7 S7 _.
  eapply reads_on; [exact H|exact S7|apply denotes_pure|]. intros u2 f8 S8 Hrw%reject_if_ok%negb_false_iff%bool_decide_eq_true.
  eapply reads_on; [exact H|exact S8|apply denotes_pure|]. intros u3 f9 S9 _.
  eapply reads_on; [exact H|exact S9|apply denotes_pure|]. intros u4 f10 S10 _.
  eapply reads_on; [exact H|exact S10|apply denotes_pure|]. intros rel_from f11 S11 Hfrom.
  eapply reads_on; [exact H|exact S11|apply denotes_pure|]. intros rel_to f12 S12 Hto.
  eapply reads_on; [exact H|exact S12|apply denotes_pure|]. intros u5 f13 S13 Hpaths.
  eapply reads_on; [exact H|exact S13|apply (denotes_query _ (query_overlay_list ns (m_path m)))|]. intros rows f14 S14 Hrows. cbv zeta.
  eapply reads_on; [exact H|exact S14|apply mount_tree_denotes|]. intros tree f15 S15 Htree.
  eapply reads_on; [exact H|exact S15|apply (denotes_store _ _ (observed_answers _ tree rel_from))|]. intros seen f16 S16 _.
  destruct (rw_mount_base f ns m H Hin Hrw) as (base & k & Hb & Hc & Hw).
  pose proof (mount_tree_commit _ _ _ _ _ _ Hrw Hb Hc Htree) as ->.
  eapply observe_then; [exact H|exact S16|by apply mounts_owned_by|]. intros f' H' Eo V'.
  apply observe_frame in Eo as (Em & Ev & En).
  assert (rows = staged_rows (meta f') ns (m_path m)) as ->.
  { cbn in Hrows. injection Hrows as <-. unfold staged_rows. by rewrite Ev. }
  destruct u5. eapply rename_staged_sound; [exact H'|exact Hm|exact Hfrom|exact Hto|exact Hpaths|..].
  - eapply (whole_view f); [apply H'|by rewrite V'|done].
  - eapply (tree_apart_same f); [apply H|apply H'|done|done|apply Hw|]. intros path x q fl. by apply (Hk m base k).
  - intros path. pose proof (mounts_owned_by _ _ _ Hns Hin path) as Ho. unfold owned in *. by rewrite En, Em.
Qed.
End rename.

(** ** A move that nests rows

    The source holds [a/x/y] below [a], the session staged a file over the
    directory [a/x]: the rows of the move to [b] hold a file [b/x] and a file
    below it, which the staged rows of one mount never do otherwise. *)

Definition nested_rows : list (str * ObjectId * bool) :=
  (fun kv => (bs "b/" ++ kv.1, kv.2.1, kv.2.2)) <$>
    btree_list (fold_left (move_row_under (bs "a/")) (btree_list (<[bs "a/x" := Some (ZERO, false)]> ∅ : Overlay))
      (<[bs "x/y" := (ZERO, false)]> ∅)).

Definition nested_run : Result unit * Catalog :=
  overlay_rename (bs "s") (bs "/") (bs "a") (bs "b") nested_rows
    (with_overlay (insert (bs "s", bs "/", bs "a/x") (Some ZERO, false)) empty_catalog).

Lemma rename_nests_rows :
  is_ok nested_run.1 = true
  /\ overlay_rows nested_run.2 !! (bs "s", bs "/", bs "b/x") = Some (Some ZERO, false)
  /\ overlay_rows nested_run.2 !! (bs "s", bs "/", bs "b/x/y") = Some (Some ZERO, false)
  /\ path_under (bs "b/x") (bs "b/x/y") = true.
Proof. split_and!; vm_compute; reflexivity. Qed.
