(* ===== verification/Repository.v ===== *)
(** * A new repository (crates/forge-api/src/repository.rs)

    [init] makes the first commit, the protected ref [main] and its landmark. *)

From S2P Require Import Prelude RustStd Types Tree TreeStore Object Contribution ObjectStore Store Graph Cap History Merge Overlay Namespace Catalog Refs Sessions CatAudit Events CatalogInv Publish Staging Authority Gc Plane Forge Growth Receipts Workspace WorkspaceReads Checkin Integration Seal Sound Api Integrate Moves.

Section repository.
Context {St B : Type} `{RL : RepoLaws St B} `{HM : Hmac} `{B3 : Blake3} `{ED : Ed25519} `{EL : !Ed25519Laws}.
Implicit Types (f : Forge St) (v : gmap ObjectId bytes) (c : Catalog) (E : Env) (cap : Cap).

Abbreviation forge := (stateM Error (Forge St)).

(** [Forge::init], what it writes to the store and the catalog. *)
Definition init (now : nat -> Z) : forge ObjectId :=
  t ← pure (Tree_new []);
  empty ← on_store (put_tree t);
  let commit := mkCommit empty [] (bs "init") (bs "init") (now 0%nat) true None in
  cid ← on_store (repo_put_commit commit);
  intro_oids ← on_store (repo_collect_intros None empty);
  _ ← on_meta (insert_ref_with_intros (now 1%nat) (bs "main") cid (bs "commit") true false (bs "init") (bs "init") intro_oids);
  _ ← on_meta (landmark (now 2%nat) cid (bs "commit") (bs "init"));
  mret cid.

(** ** The first commit *)

Lemma empty_tree_whole f id t : f_inv f -> ts_holds (store f) id t -> entries t = [] -> whole f id.
Proof. intros Hi Ht He. eapply leaf_whole; [done|exact Ht|]. intros e Hin. rewrite He in Hin. by apply elem_of_nil in Hin. Qed.

(** The repository [init] makes. *)
Definition initial f (cid : ObjectId) : Prop :=
  exists tree ts ts', commit_at (f_view f) cid (mkCommit tree [] (bs "init") (bs "init") ts true None)
    /\ ts_holds (store f) tree empty_tree
    /\ refs (meta f) !! bs "main" = Some (mkRefCols cid (bs "commit") true false ts')
    /\ is_Some (landmarks (meta f) !! cid).

Lemma empty_repo (s : St) : rp_inv s -> rp_view s = ∅ -> sound_repo (mkForge s empty_catalog).
Proof.
  intros Hi Hv. split; [done|intros i o Ho|]. { change (rp_view s !! i = Some o) in Ho. rewrite Hv in Ho. done. }
  split; [constructor|]. split; by intros ? ? ?.
Qed.

Lemma init_commit_wf tree ts : in_u64 ts -> wf_commit (mkCommit tree [] (bs "init") (bs "init") ts true None).
Proof. intros Ht. split; [by vm_compute|]. split; [by split; vm_compute|]. by split; [split; vm_compute|]. Qed.

Lemma insert_intros_row ts name oid kind p s agent reason intros c u c' :
  insert_ref_with_intros ts name oid kind p s agent reason intros c = (Ok u, c') ->
  refs c' !! name = Some (mkRefCols oid kind p s ts).
Proof. intros E. unfold insert_ref_with_intros in E. inv_db. cbn. apply lookup_insert_eq. Qed.

(** The ref and the landmark of the first commit. *)
Lemma init_rows_sound ts ts' cid intros f :
  sound_repo f -> is_type f TCommit cid ->
  wp (_ ← on_meta (insert_ref_with_intros ts (bs "main") cid (bs "commit") true false (bs "init") (bs "init") intros);
      _ ← on_meta (landmark ts' cid (bs "commit") (bs "init"));
      mret cid) f (fun r f' => sound_repo f' /\ f_view f' = f_view f /\ match r with
    | Ok id => id = cid /\ refs (meta f') !! bs "main" = Some (mkRefCols cid (bs "commit") true false ts) /\ is_Some (landmarks (meta f') !! cid)
    | _ => True end).
Proof.
  intros H Ht. set (m := insert_ref_with_intros _ _ _ _ _ _ _ _ _).
  assert (wp (on_meta m) f (fun _ f' => sound_repo f')) as H1.
  { eapply (wp_catalog _ (OpInsertRefIntros _ _ _ _ _ _ _ _ _)); [done|intros; symmetry; apply void_unit|exact I|].
    intros x c' Htab E. eapply insert_intros_tables; [exact Htab| | |exact E]; [by apply typed_commit|by vm_compute]. }
  apply wp_bind. unfold wp, on_meta in *. destruct (m (meta f)) as [r c1] eqn:E. cbn [fst snd] in *.
  destruct r as [u|e|]; [|done..]. apply insert_intros_row in E.
  set (f1 := mkForge (store f) c1) in *. assert (is_type f1 TCommit cid) as Ht1 by done.
  assert (wp (on_meta (landmark ts' cid (bs "commit") (bs "init"))) f1 (fun _ f' => sound_repo f')) as H2.
  { eapply (wp_catalog _ (OpLandmark _ _ _ _)); [done|intros; symmetry; apply void_unit|by eexists|].
    intros x c' Htab [= <- <-]. apply landmark_tables; [done|]. by apply typed_commit. }
  unfold wp, on_meta in H2. cbn [fst snd landmark change] in H2 |- *. split; [exact H2|]. split; [done|]. split; [done|].
  split; [exact E|].
  change (is_Some (insert_or_ignore cid (mkLandmarkCols (bs "commit") (bs "init") ts') (landmarks c1) !! cid)). unfold insert_or_ignore. destruct (landmarks c1 !! cid) eqn:El; [by eexists|].
  rewrite lookup_insert_eq. by eexists.
Qed.

Lemma init_spec (now : nat -> Z) (s : St) :
  rp_inv s -> rp_view s = ∅ -> (forall i, in_u64 (now i)) ->
  wp (init now) (mkForge s empty_catalog) (fun r f => sound_repo f /\ match r with Ok cid => initial f cid | _ => True end).
Proof.
  intros Hi Hv Hnow. set (f0 := mkForge s empty_catalog). pose proof (empty_repo s Hi Hv : sound_repo f0) as H0. unfold init.
  apply wp_bind, wp_pure. change (Tree_new []) with (@Ok Error Tree empty_tree). cbv beta iota.
  apply wp_bind. eapply wp_mono; [apply (wp_store_adds _ _ _ (rp_put_tree empty_tree empty_tree_wf)); [apply H0|]|].
  { intros o Ho%Tree_encode_type. by eapply other_sound. }
  intros r f1 (G1 & M1 & Hr). assert (sound_repo f1) as H1 by by eapply repo_store. destruct r as [tree|e|]; [|done..].
  destruct Hr as (o & Ho & Hv1). assert (ts_holds (store f1) tree empty_tree) as Ht.
  { exists o. split; [exact Hv1|]. apply Tree_decode_spec. split; [apply empty_tree_wf|done]. }
  cbv zeta. apply wp_bind. eapply wp_mono; [apply (wp_store_adds _ _ _ (rp_put_commit _)); [apply H1|]|].
  { intros b Hb. eapply commit_sound; [exact Hb|apply init_commit_wf, Hnow|].
    split; [by eapply empty_tree_whole; [apply H1|exact Ht|]|constructor|done]. }
  intros r f2 (G2 & M2 & Hr). assert (sound_repo f2) as H2 by by eapply repo_store. destruct r as [cid|e|]; [|done..].
  destruct Hr as (b & Hb & Hv2).
  assert (commit_at (f_view f2) cid (mkCommit tree [] (bs "init") (bs "init") (now 0%nat) true None)) as Hk.
  { exists b. split; [exact Hv2|]. apply Commit_decode_spec. split; [apply init_commit_wf, Hnow|exact Hb]. }
  pose proof (same_refl f2 (sr_inv _ H2)) as S2.
  apply wp_bind. eapply wp_mono; [apply (only_looks_store _ (rp_collect_intros None tree)), S2|]. intros r f3 S3.
  assert (sound_repo f3) as H3 by by eapply repo_same. destruct r as [intros|e|]; [|done..].
  rewrite <- (same_view _ _ S3) in Hk. assert (commit_typed : is_type f3 TCommit cid) by by eapply commit_type.
  eapply wp_mono; [by apply init_rows_sound|]. intros r f4 (H4 & V4 & Hr). split; [done|].
  destruct r as [id|e|]; [|done..]. destruct Hr as (-> & Href & Hland). exists tree, (now 0%nat), (now 1%nat). rewrite V4.
  split; [done|]. split; [|done]. destruct Ht as (o' & Ho' & Hd). exists o'. split; [|exact Hd].
  change (f_view f4 !! tree = Some o'). rewrite V4, (same_view _ _ S3). eapply lookup_weaken; [exact Ho'|apply G2].
Qed.
End repository.

(** ** Properties *)

Section properties.
Context {St B : Type} `{RL : RepoLaws St B} `{HM : Hmac} `{B3 : Blake3} `{ED : Ed25519} `{EL : !Ed25519Laws}.

(** C23: [init] on an empty store and catalog: whatever happens, what it leaves
    is sound, and when it returns, [main] is protected and names its commit,
    of the empty tree, which is a landmark. *)
Theorem init_is_sound (now : nat -> Z) (s : St) (r : Result ObjectId) (f : Forge St)
    (Hs : rp_inv s) (Hempty : rp_view s = ∅) (Hnow : forall i, in_u64 (now i))
    (E : init now (mkForge s empty_catalog) = (r, f)) :
  sound_repo f /\ forall cid, r = Ok cid -> initial f cid.
Proof.
  destruct (wp_elim _ _ _ _ _ (init_spec now s Hs Hempty Hnow) E) as [H Hr]. split; [done|]. by intros cid ->.
Qed.
End properties.

(** ** Witnesses *)

Definition demo_init := init (fun _ => 1) (mkForge (Store.guard (C:=MapLru) empty_store) empty_catalog).
Definition demo_main_id : ObjectId := match demo_init.1 with Ok id => id | _ => ZERO end.
Definition demo_new : Forge (Guarded MapLru) := demo_init.2.

Lemma demo_init_runs : demo_init = (Ok demo_main_id, demo_new).
Proof.
  assert (is_ok demo_init.1 = true) as H by (by vm_compute). unfold demo_main_id, demo_new. revert H.
  generalize demo_init. intros [[id|e|] g] H; [reflexivity|discriminate H..].
Qed.

Lemma demo_clock : forall i, in_u64 ((fun _ : nat => 1) i).
Proof. intros i. unfold in_u64, u64_max. lia. Qed.

Lemma init_is_sound_witness : initial demo_new demo_main_id.
Proof.
  exact (proj2 (init_is_sound (fun _ => 1) (Store.guard (C:=MapLru) empty_store) (Ok demo_main_id) demo_new
    empty_store_wf eq_refl demo_clock demo_init_runs) demo_main_id eq_refl).
Defined.

Definition demo_ulid : str := bs "01ARZ3NDEKTSV4RRFFQ69G5FAV".

(** The log of a new repository says only [main]. *)
Lemma demo_new_log : l_name <$> reflog_rows (meta demo_new) = [bs "main"].
Proof. vm_compute. reflexivity. Qed.

Lemma other_name_unlogged (name : str) c : l_name <$> reflog_rows c = [bs "main"] -> name <> bs "main" -> unlogged name c.
Proof.
  unfold unlogged. intros H Hn. destruct (reflog_rows c) as [|r [|r' l]]; [done| |done]. injection H as H.
  change [r] with ([] ++ [r]). rewrite last_log_snoc, decide_False by congruence. done.
Qed.

Lemma demo_fresh : fresh (fun _ => demo_ulid) (meta demo_new).
Proof.
  intros i p q. apply other_name_unlogged; [apply demo_new_log|]. intros E. apply (f_equal length) in E.
  rewrite !length_app in E. change (length demo_ulid) with 26%nat in E. change (length (bs "main")) with 4%nat in E. lia.
Qed.

Lemma demo_new_sound : sound_repo demo_new.
Proof. exact (proj1 (wp_elim _ _ _ _ _ (init_spec (fun _ => 1) (Store.guard (C:=MapLru) empty_store) empty_store_wf eq_refl demo_clock) demo_init_runs)). Qed.
