(* ===== verification/Import.v ===== *)
(** * Importing a host directory (crates/forge-api/src/import.rs)

    [import_dir_with] walks a directory of the host file system, stores its
    files and directories, and publishes a commit of the tree.  The host is an
    interface: its calls may answer anything and fail, since the directory may
    change under the walk.  [AtRest] is a host directory that does not.

    Paths are absolute, as lists of names.  Errors keep the class and, where
    the code looks at it again, the prefix of their text. *)

From S2P Require Import Prelude RustStd Types Tree TreeStore Object Contribution ObjectStore Store Graph Cap History Merge Overlay Namespace Catalog Refs Sessions CatAudit Events CatalogInv Publish Staging Authority Gc Plane Forge Growth Workspace WorkspaceReads Checkin Integration Seal Sound Api Receipts Repository.

(** ** The host *)

Abbreviation HPath := (list bytes).

(** What the code tells apart in an [io::Error]. *)
Inductive IoError := ENOENT | ELOOP | ENOTDIR | EOTHER.

Inductive HostKind := HFile | HDir | HSymlink | HSpecial.

#[export] Instance HostKind_eq_dec : EqDecision HostKind.
Proof. solve_decision. Defined.

Record Meta := mkMeta { md_kind : HostKind; md_dev : Z; md_ino : Z; md_len : Z; md_mtime : option Z; md_mode : Z }.

(** The calls; a descriptor has its own position in the file. *)
Class Host (H : Type) := {
  Fd : Type;
  canonicalize : HPath -> H -> (IoError + HPath) * H;
  open_dir : HPath -> H -> (IoError + Fd) * H;    (** [O_DIRECTORY | O_NOFOLLOW] *)
  open_file : HPath -> H -> (IoError + Fd) * H;   (** [O_NOFOLLOW] *)
  fstat : Fd -> H -> (IoError + Meta) * H;
  lstat : HPath -> H -> (IoError + Meta) * H;
  read_dir : HPath -> H -> (IoError + list bytes) * H;
  file_type : HPath -> H -> (IoError + HostKind) * H;
  read_to_end : Fd -> H -> (IoError + bytes) * H;
  rewind : Fd -> H -> (IoError + unit) * H;
  read_chunk : Fd -> Z -> H -> (IoError + bytes) * H
}.

Record ImportOptions := mkImportOptions { follow_symlinks : bool }.

Definition SYMLINK_REPORT_LIMIT : Z := 32.
Definition MAX_IMPORT_DEPTH : Z := 256.
Definition SYMLINK_REFUSAL_PREFIX : str := bs "import refuses symlink ".

(** [Path::starts_with], component-wise. *)
Fixpoint path_starts_with (p q : HPath) : bool :=
  match q, p with
  | [], _ => true
  | n :: q', m :: p' => bytes_eqb m n && path_starts_with p' q'
  | _, _ => false
  end.

Definition control_name (name : bytes) : bool := bytes_eqb name (bs ".forge") || bytes_eqb name (bs ".git").

Definition directory_identity (m : Meta) : Z * Z := (md_dev m, md_ino m).

Definition import_file_metadata_stable (before after : Meta) : bool :=
  (md_dev before =? md_dev after) && (md_ino before =? md_ino after) && (md_len before =? md_len after)
  && bool_decide (md_mtime before = md_mtime after) && (md_mode before =? md_mode after).

(** [mode & 0o111 != 0] *)
Definition executable (m : Meta) : bool := negb (Z.land (md_mode m) 73 =? 0).

(** [OsString::into_string]. *)
Definition into_string (name : bytes) : Result str := if utf8_valid name then Ok name else Err (Invalid (bs "non-utf8 name in {}")).

Fixpoint import_scoped_names (kids : list bytes) (source_root : bool) : Result (list str) :=
  match kids with
  | [] => Ok []
  | kid :: kids' =>
      name ← into_string kid;
      names ← import_scoped_names kids' source_root;
      Ok (if source_root && control_name name then names else name :: names)
  end.

(** ** The walk *)

Section import.
Context {St B : Type} `{R : Repo St B} {H : Type} `{HO : Host H}.
Context (root_real : HPath) (options : ImportOptions).

Abbreviation imp := (stateM Error (Forge St * H)).

Definition on_forge {A} (m : stateM Error (Forge St) A) : imp A := fun '(f, h) => let '(r, f) := m f in (r, (f, h)).

Definition on_host {A} (why : IoError -> Error) (m : H -> (IoError + A) * H) : imp A := fun '(f, h) =>
  let '(r, h) := m h in (match r with inl e => Err (why e) | inr a => Ok a end, (f, h)).

Definition io_at (e : IoError) : Error := Io (bs "{}: {error}").

Definition refuses_symlink (reason : str) : Error := Invalid (SYMLINK_REFUSAL_PREFIX ++ reason).

Definition import_dir_entries (dir : HPath) : imp (list bytes) :=
  kids ← on_host io_at (read_dir dir);
  mret (sort_by_key (fun n => n) kids).

Definition open_directory_nofollow (dir : HPath) : imp (Z * Z) :=
  fd ← on_host (fun e => match e with
                         | ELOOP | ENOTDIR => Invalid (bs "source path changed type during import: {}")
                         | _ => io_at e
                         end) (open_dir dir);
  meta ← on_host io_at (fstat fd);
  mret (directory_identity meta).

Definition verify_directory_identity (dir : HPath) (pinned : Z * Z) : imp unit :=
  meta ← on_host io_at (lstat dir);
  pure (reject_if (negb (bool_decide (md_kind meta = HDir)) || negb (bool_decide (directory_identity meta = pinned)))
          (Invalid (bs "source path changed identity during import: {}"))).

Definition file_changed : Error := Invalid (bs "source file changed during import: {}").

(** One round of the second read. *)
Definition compare_chunk (data : bytes) (fd : Fd) (offset : Z) : imp (Z + Z) :=
  buf ← on_host io_at (read_chunk fd 65536);
  let n := len buf in
  if n =? 0 then mret (inr offset)
  else
    let e := offset + n in
    if (len data <? e) || negb (bytes_eqb (firstn (Z.to_nat n) (skipn (Z.to_nat offset) data)) buf) then throw file_changed
    else mret (inl e).

Definition read_import_file (path : HPath) : imp (bytes * bool) :=
  fd ← on_host io_at (open_file path);
  before ← on_host io_at (fstat fd);
  _ ← pure (reject_if (negb (bool_decide (md_kind before = HFile))) (Invalid (bs "import refuses non-regular file {}")));
  let exec := executable before in
  data ← on_host io_at (read_to_end fd);
  _ ← on_host io_at (rewind fd);
  offset ← m_while (Z.to_pos (len data + 1)) (compare_chunk data fd) 0;
  _ ← pure (reject_if (negb (offset =? len data)) file_changed);
  after ← on_host io_at (fstat fd);
  _ ← pure (reject_if (negb (import_file_metadata_stable before after)) (Invalid (bs "source file metadata changed during import: {}")));
  path_after ← on_host io_at (lstat path);
  _ ← pure (reject_if (negb (bool_decide (md_kind path_after = HFile))) (Invalid (bs "source path changed type during import: {}")));
  _ ← pure (reject_if (negb (bool_decide (directory_identity path_after = directory_identity after)))
              (Invalid (bs "source path changed identity during import: {}")));
  mret (data, exec).

Definition import_file (path : HPath) (name : str) : imp TreeEntry :=
  '(data, exec) ← read_import_file path;
  id ← on_forge (on_store (repo_put_blob_data data));
  mret (mkEntry name KBlob id exec).

(** [rec] walks a directory below. *)
Definition import_dir_entry (rec : HPath -> imp ObjectId) (path : HPath) (name : str) : imp TreeEntry :=
  id ← rec path;
  mret (mkEntry name KTree id false).

Definition follow_symlink (rec : HPath -> imp ObjectId) (stack : list (Z * Z)) (link : HPath) (name : str) : imp TreeEntry :=
  target ← on_host (fun e => refuses_symlink (bs "{}: {reason}")) (canonicalize link);
  _ ← pure (reject_if (negb (path_starts_with target root_real)) (refuses_symlink (bs "{}: target {} is outside the import root {}")));
  meta ← on_host (fun e => refuses_symlink (bs "{}: {e}")) (lstat target);
  if bool_decide (md_kind meta = HDir) then
    _ ← pure (reject_if (bool_decide (directory_identity meta ∈ stack))
                (refuses_symlink (bs "{}: target {} re-enters a directory already being imported (symlink loop)")));
    import_dir_entry rec target name
  else
    _ ← pure (reject_if (negb (bool_decide (md_kind meta = HFile))) (refuses_symlink (bs "{}: target {} is not a regular file or directory")));
    import_file target name.

Definition import_child (rec : HPath -> imp ObjectId) (stack : list (Z * Z)) (dir : HPath) (name : str) : imp TreeEntry :=
  let path := dir ++ [name] in
  ft ← on_host io_at (file_type path);
  match ft with
  | HSymlink => if negb (follow_symlinks options) then throw (refuses_symlink (bs "{}")) else follow_symlink rec stack path name
  | HDir => import_dir_entry rec path name
  | HFile => import_file path name
  | HSpecial => throw (Invalid (bs "import refuses unsupported file type {}"))
  end.

Fixpoint walk_children (rec : HPath -> imp ObjectId) (stack : list (Z * Z)) (dir : HPath) (source_root : bool) (kids : list bytes) : imp (list TreeEntry) :=
  match kids with
  | [] => mret []
  | kid :: kids' =>
      name ← pure (into_string kid);
      if source_root && control_name name then walk_children rec stack dir source_root kids'
      else
        entry ← import_child rec stack dir name;
        rest ← walk_children rec stack dir source_root kids';
        mret (entry :: rest)
  end.

(** [fuel] is more than [MAX_IMPORT_DEPTH] less the depth. *)
Fixpoint walk (fuel : nat) (stack : list (Z * Z)) (dir : HPath) (source_root : bool) : imp ObjectId :=
  match fuel with
  | O => panic
  | S fuel' =>
      if MAX_IMPORT_DEPTH <=? len stack then throw (Invalid (bs "import refuses source deeper than {MAX_IMPORT_DEPTH} directories: {}"))
      else
        pinned ← open_directory_nofollow dir;
        kids ← import_dir_entries dir;
        expected ← pure (import_scoped_names kids source_root);
        _ ← pure (reject_if (MAX_TREE_ENTRIES <? len expected) (Invalid (bs "import refuses {}: it holds {} entries, more than the {MAX_TREE_ENTRIES} a tree may hold; split it into subdirectories")));
        let stack := stack ++ [pinned] in
        entries ← walk_children (fun path => walk fuel' stack path false) stack dir source_root kids;
        again ← import_dir_entries dir;
        observed ← pure (import_scoped_names again source_root);
        _ ← pure (reject_if (negb (bool_decide (observed = expected))) (Invalid (bs "source directory changed during import: {}")));
        _ ← verify_directory_identity dir pinned;
        t ← pure (Tree_new entries);
        on_forge (on_store (put_tree t))
  end.

(** ** The report of refused links *)

Fixpoint sweep_symlinks (fuel : nat) (dir : HPath) (source_root : bool) (out : list HPath) : imp (list HPath) :=
  match fuel with
  | O => panic
  | S fuel' =>
      if SYMLINK_REPORT_LIMIT * 4 <? len out then mret out
      else
        kids ← import_dir_entries dir;
        m_fold (fun out name =>
            if source_root && control_name name then mret out
            else
              let path := dir ++ [name] in
              ft ← on_host io_at (file_type path);
              match ft with
              | HSymlink => mret (out ++ [path])
              | HDir => sweep_symlinks fuel' path false out
              | _ => mret out
              end) out kids
  end.

(** Best effort: if the sweep fails, the first refusal stands. *)
Definition symlink_refusal (fuel : nat) (root : HPath) (first : str) : imp str := fun s =>
  let advice := bs "; pass --follow-symlinks to materialise link targets that stay inside the import root (a VERSION 1 tree cannot represent a symlink; see docs/POSIX.md)" in
  match sweep_symlinks fuel root true [] s with
  | (Err _, s) => (Ok (first ++ advice), s)
  | (Panic, s) => (Panic, s)
  | (Ok found, s) =>
      let extra := Z.max 0 (len found - 1) in
      let names := if extra =? 0 then first
        else if len found <=? SYMLINK_REPORT_LIMIT then SYMLINK_REFUSAL_PREFIX ++ bs "{} ({extra} more symlink(s) in this tree: {})"
        else SYMLINK_REFUSAL_PREFIX ++ bs "{} ({extra} more symlink(s) in this tree, first {}: {})" in
      (Ok (names ++ advice), s)
  end.

(** Only the default refusal is rewritten. *)
Definition walk_root (fuel : nat) : imp ObjectId := fun s =>
  match walk 257 [] root_real true s with
  | (Err (Invalid msg), s) =>
      if negb (follow_symlinks options) && starts_with msg SYMLINK_REFUSAL_PREFIX
      then (msg ← symlink_refusal fuel root_real msg; throw (Invalid msg)) s
      else (Err (Invalid msg), s)
  | r => r
  end.
End import.

(** ** The operation *)

Section operation.
Context {St B : Type} `{R : Repo St B} {H : Type} `{HO : Host H} `{HM : Hmac}.

Abbreviation imp := (stateM Error (Forge St * H)).

(** [others] is what other processes commit during the walk; [name] is how
    the directory is displayed. *)
Definition import_dir_with (fuel : nat) (key : bytes) (now : nat -> Z) (ulid : nat -> str) (others : Catalog -> Catalog) (cap : Cap)
    (dir : HPath) (name ref : str) (options : ImportOptions) : imp CasResult :=
  _ ← pure (check key (now 0%nat) cap Write (Some ref));
  previous ← on_forge (on_meta (get_ref ref));
  previous_commit ← match previous with
                    | Some row => c ← on_forge (on_store (repo_get_commit (ref_oid row))); mret (Some c)
                    | None => mret None
                    end;
  let expected := match previous with Some row => ref_oid row | None => ZERO end in
  _ ← on_forge (on_meta (change others));
  root_real ← on_host io_at (canonicalize dir);
  tree ← walk_root root_real options fuel;
  let parents := match previous with Some row => [ref_oid row] | None => [] end in
  let commit := mkCommit tree parents (agent_id cap) (bs "import " ++ name) (now 1%nat) false None in
  cid ← on_forge (on_store (repo_put_commit commit));
  intro_oids ← on_forge (on_store (repo_collect_intros (c_tree <$> previous_commit) tree));
  on_forge (on_meta (cas_ref_with_intros (now 2%nat) (ulid 0%nat) ref expected cid (bs "commit") (agent_id cap) (agent_id cap) false intro_oids)).

Definition import_dir (fuel : nat) key now ulid others cap dir name ref : imp CasResult :=
  import_dir_with fuel key now ulid others cap dir name ref (mkImportOptions false).
End operation.

(** ** Whatever the host answers *)

Section host_only.
Context {St B : Type} `{R : Repo St B} {H : Type} `{HO : Host H}.

Abbreviation imp := (stateM Error (Forge St * H)).

(** It asks the host only. *)
Definition host_only {A} (m : imp A) : Prop := forall s, wp m s (fun _ s' => s'.1 = s.1).

Lemma host_only_pure {A} (r : Result A) : host_only (pure r).
Proof. by intros s. Qed.
Lemma host_only_ret {A} (a : A) : host_only (mret a).
Proof. by intros s. Qed.
Lemma host_only_throw {A} (e : Error) : host_only (throw e : imp A).
Proof. by intros s. Qed.
Lemma host_only_panic {A} : host_only (panic : imp A).
Proof. by intros s. Qed.
Lemma host_only_host {A} why (m : H -> (IoError + A) * H) : host_only (on_host why m).
Proof. intros [f h]. unfold wp, on_host. by destruct (m h) as [[e|a] h']. Qed.
Lemma host_only_bind {A A'} (m : imp A) (k : A -> imp A') : host_only m -> (forall a, host_only (k a)) -> host_only (m ≫= k).
Proof.
  intros Hm Hk s. apply wp_bind. eapply wp_mono; [apply Hm|]. intros r s1 E. destruct r as [a|e|]; [|done..].
  eapply wp_mono; [apply Hk|]. intros r s2 E2. congruence.
Qed.
Lemma host_only_while {L A} p (body : L -> imp (L + A)) l : (forall l, host_only (body l)) -> host_only (m_while p body l).
Proof.
  intros Hb s. apply (wp_m_while_inv (fun s' => s'.1 = s.1)); [|done]. intros l1 s1 E. eapply wp_mono; [apply Hb|]. intros r s2 E2. congruence.
Qed.
Lemma host_only_fold {L A} (f : L -> A -> imp L) l xs : (forall l x, host_only (f l x)) -> host_only (m_fold f l xs).
Proof. intros Hf. revert l. induction xs as [|x xs IH]; intros l; [apply host_only_ret|]. by apply host_only_bind. Qed.

Create HintDb host.
Hint Resolve host_only_pure host_only_ret host_only_throw host_only_panic host_only_host host_only_bind host_only_while host_only_fold : host.

Ltac host_step :=
  repeat first [ progress intros | apply host_only_bind | apply host_only_while | apply host_only_fold | solve [auto with host] | case_match ].

Lemma host_only_entries dir : host_only (import_dir_entries (St:=St) dir).
Proof. unfold import_dir_entries. host_step. Qed.
Lemma host_only_open dir : host_only (open_directory_nofollow (St:=St) dir).
Proof. unfold open_directory_nofollow. host_step. Qed.
Lemma host_only_verify dir pinned : host_only (verify_directory_identity (St:=St) dir pinned).
Proof. unfold verify_directory_identity. host_step. Qed.
Lemma host_only_read path : host_only (read_import_file (St:=St) path).
Proof. unfold read_import_file, compare_chunk. host_step. Qed.

Lemma host_only_sweep fuel : forall dir source_root out, host_only (sweep_symlinks (St:=St) fuel dir source_root out).
Proof.
  induction fuel as [|fuel IH]; intros dir source_root out; [apply host_only_panic|]. cbn [sweep_symlinks].
  destruct (_ <? _); [apply host_only_ret|]. apply host_only_bind; [apply host_only_entries|]. intros kids. host_step.
Qed.

Lemma host_only_refusal fuel root first : host_only (symlink_refusal (St:=St) fuel root first).
Proof.
  intros s. pose proof (host_only_sweep fuel root true [] s) as Hs. unfold wp, symlink_refusal in *.
  by destruct (sweep_symlinks fuel root true [] s) as [[found|e|] s'].
Qed.

Lemma wp_host_bind {A A'} (m : imp A) (k : A -> imp A') f h (Q : Result A' -> Forge St * H -> Prop) :
  host_only m -> (forall a h', wp (k a) (f, h') Q) -> (forall e h', Q (Err e) (f, h')) -> (forall h', Q Panic (f, h')) ->
  wp (m ≫= k) (f, h) Q.
Proof.
  intros Hm Hk He Hp. apply wp_bind. eapply wp_mono; [apply Hm|]. intros r [f' h'] E. cbn in E. subst f'. destruct r; auto.
Qed.

Lemma wp_on_forge {A} (m : stateM Error (Forge St) A) f h (Q : Result A -> Forge St * H -> Prop) :
  wp m f (fun r f' => Q r (f', h)) -> wp (on_forge m) (f, h) Q.
Proof. unfold wp, on_forge. by destruct (m f). Qed.
End host_only.

(** The fuel bounds the report of refused links only: an import that answers
    does not depend on it. *)
Section any_fuel.
Context {St B : Type} `{R : Repo St B} {H : Type} `{HO : Host H} `{HM : Hmac}.

Lemma walk_root_any_fuel root options fuel fuel' (s s' : Forge St * H) id :
  walk_root root options fuel s = (Ok id, s') -> walk_root root options fuel' s = (Ok id, s').
Proof.
  unfold walk_root. destruct (walk root options 257 [] root true s) as [[i|e|] s1]; [done| |done].
  destruct e as [| | |m| | | | | | | | |] eqn:Ee; try done. destruct (_ && _); [|done].
  unfold mbind, stateM_bind. by destruct (symlink_refusal fuel root m s1) as [[?|?|] ?].
Qed.

Lemma bind_same {A A'} (m m' : stateM Error (Forge St * H) A) (k : A -> stateM Error (Forge St * H) A') s r s' :
  (forall a s1, m s = (Ok a, s1) -> m' s = (Ok a, s1)) -> (m ≫= k) s = (Ok r, s') -> (m' ≫= k) s = (Ok r, s').
Proof. unfold mbind, stateM_bind. intros Hm. destruct (m s) as [[a|e|] s1]; [by rewrite (Hm a s1)|done..]. Qed.

Lemma bind_after {A A'} (m : stateM Error (Forge St * H) A) (k k' : A -> stateM Error (Forge St * H) A') s r s' :
  (forall a s1, k a s1 = (Ok r, s') -> k' a s1 = (Ok r, s')) -> (m ≫= k) s = (Ok r, s') -> (m ≫= k') s = (Ok r, s').
Proof. unfold mbind, stateM_bind. intros Hk. destruct (m s) as [[a|e|] s1]; [apply Hk|done..]. Qed.

Lemma import_any_fuel fuel fuel' key now ulid others cap dir name ref options s (x : CasResult) s' :
  import_dir_with fuel key now ulid others cap dir name ref options s = (Ok x, s') ->
  import_dir_with fuel' key now ulid others cap dir name ref options s = (Ok x, s').
Proof.
  unfold import_dir_with. do 5 (apply bind_after; intros ? ?). apply bind_same. intros. by eapply walk_root_any_fuel.
Qed.
End any_fuel.

Section import_sound.
Context {St B : Type} `{RL : RepoLaws St B} {H : Type} `{HO : Host H} `{HM : Hmac}.
Implicit Types (f : Forge St) (h : H).

Abbreviation imp := (stateM Error (Forge St * H)).

Definition sound_entry f (e : TreeEntry) : Prop :=
  match e_kind e with KTree => whole f (e_id e) | KBlob => is_type f TBlob (e_id e) end.

Lemma sound_entry_grown f f' e : grown f f' -> sound_entry f e -> sound_entry f' e.
Proof. intros Hg. unfold sound_entry. destruct (e_kind e); [by apply is_type_grown|by apply whole_grown]. Qed.

(** A tree of whole entries is whole. *)
Lemma entries_whole f id t : f_inv f -> ts_holds (store f) id t -> Forall (sound_entry f) (entries t) -> whole f id.
Proof.
  intros Hi Ht He. rewrite Forall_forall in He. split.
  - apply (closed_intro _ _ _ Ht). intros e Hin Hk. pose proof (He e Hin) as Hs. unfold sound_entry in Hs. rewrite Hk in Hs. apply Hs.
  - intros p fl Hf. inversion Hf as [i t' n e Ht' Hn Hk|i t' n e q fl' Ht' Hn Hk Hq]; subst;
      (assert (t' = t) as -> by exact (ts_holds_fun (store f) _ _ _ Hi Ht' Ht));
      apply find_entry_some in Hn as [Hin _]; pose proof (He e Hin) as Hs; unfold sound_entry in Hs; rewrite Hk in Hs; [done|].
    by eapply (wh_files _ _ Hs).
Qed.

(** What a step of the import leaves: more objects, the same catalog, and
    what it answers is there. *)
Definition stored {A} (P : Forge St -> A -> Prop) f (r : Result A) (s : Forge St * H) : Prop :=
  grown f s.1 /\ meta s.1 = meta f /\ forall a, r = Ok a -> P s.1 a.

Lemma stored_fail {A} (P : Forge St -> A -> Prop) f h (r : Result A) : f_inv f -> (forall a, r <> Ok a) -> stored P f r (f, h).
Proof. intros Hi Hr. split; [by apply grown_refl|]. split; [done|]. intros a ->. by destruct (Hr a). Qed.

Lemma stored_trans {A} (P : Forge St -> A -> Prop) f f1 r s : grown f f1 -> meta f1 = meta f -> stored P f1 r s -> stored P f r s.
Proof. intros Hg Hm (G & M & Hr). split; [by eapply grown_trans|]. split; [congruence|done]. Qed.

Lemma import_file_stored path name f h : f_inv f -> wp (import_file path name) (f, h) (stored sound_entry f).
Proof.
  intros Hi. apply wp_host_bind; [apply host_only_read| |intros; by apply stored_fail..]. intros [data exec] h1.
  apply wp_bind, wp_on_forge. eapply wp_mono; [apply (wp_store_adds _ _ _ (rp_put_blob_data data)); [done|]|].
  { intros o Ho%Blob_encode_type. by eapply other_sound. }
  intros r f1 (G & M & Hr). destruct r as [id|e|]; [|split; done..]. apply wp_ret. split; [done|]. split; [done|].
  intros a [= <-]. destruct Hr as (o & Ho & Hv). unfold sound_entry. cbn. by eapply blob_type.
Qed.

Section walking.
Context (root_real : HPath) (options : ImportOptions).

Definition rec_ok (rec : HPath -> imp ObjectId) : Prop := forall path f h, f_inv f -> wp (rec path) (f, h) (stored whole f).

Lemma dir_entry_stored rec path name f h : rec_ok rec -> f_inv f -> wp (import_dir_entry rec path name) (f, h) (stored sound_entry f).
Proof.
  intros Hrec Hi. apply wp_bind. eapply wp_mono; [by apply Hrec|]. intros r [f1 h1] (G & M & Hr). destruct r as [id|e|]; [|split; done..].
  apply wp_ret. split; [done|]. split; [done|]. intros a [= <-]. by apply Hr.
Qed.

Lemma follow_stored rec stack link name f h : rec_ok rec -> f_inv f -> wp (follow_symlink root_real rec stack link name) (f, h) (stored sound_entry f).
Proof.
  intros Hrec Hi. apply wp_host_bind; [apply host_only_host| |intros; by apply stored_fail..]. intros target h1.
  apply wp_host_bind; [apply host_only_pure| |intros; by apply stored_fail..]. intros _ h2.
  apply wp_host_bind; [apply host_only_host| |intros; by apply stored_fail..]. intros m h3. case_bool_decide.
  - apply wp_host_bind; [apply host_only_pure| |intros; by apply stored_fail..]. intros _ h4. by apply dir_entry_stored.
  - apply wp_host_bind; [apply host_only_pure| |intros; by apply stored_fail..]. intros _ h4. by apply import_file_stored.
Qed.

Lemma child_stored rec stack dir name f h : rec_ok rec -> f_inv f -> wp (import_child root_real options rec stack dir name) (f, h) (stored sound_entry f).
Proof.
  intros Hrec Hi. apply wp_host_bind; [apply host_only_host| |intros; by apply stored_fail..]. intros ft h1. destruct ft.
  - by apply import_file_stored.
  - by apply dir_entry_stored.
  - destruct (negb _); [by apply stored_fail|by apply follow_stored].
  - by apply stored_fail.
Qed.

Lemma children_stored rec stack dir source_root kids : rec_ok rec -> forall f h, f_inv f ->
  wp (walk_children root_real options rec stack dir source_root kids) (f, h) (stored (fun f es => Forall (sound_entry f) es) f).
Proof.
  intros Hrec. induction kids as [|kid kids IH]; intros f h Hi; cbn [walk_children].
  { apply wp_ret. split; [by apply grown_refl|]. split; [done|]. by intros es [= <-]. }
  apply wp_host_bind; [apply host_only_pure| |intros; by apply stored_fail..]. intros name h1. destruct (_ && _); [by apply IH|].
  apply wp_bind. eapply wp_mono; [by apply child_stored|]. intros r [f1 h2] (G1 & M1 & H1). destruct r as [e|e|]; [|split; done..].
  apply wp_bind. eapply wp_mono; [apply IH, G1|]. intros r [f2 h3] (G2 & M2 & H2). cbn [fst] in *.
  assert (grown f f2) as G by by eapply grown_trans. assert (meta f2 = meta f) as M by congruence. destruct r as [es|e'|]; [|split; done..].
  apply wp_ret. split; [done|]. split; [done|]. intros a [= <-]. constructor; [|by apply H2]. eapply sound_entry_grown; [exact G2|by apply H1].
Qed.

Lemma walk_stored fuel : forall stack dir source_root f h, f_inv f ->
  wp (walk root_real options fuel stack dir source_root) (f, h) (stored whole f).
Proof.
  induction fuel as [|fuel IH]; intros stack dir source_root f h Hi; [by apply stored_fail|]. cbn [walk].
  destruct (_ <=? _); [by apply stored_fail|].
  apply wp_host_bind; [apply host_only_open| |intros; by apply stored_fail..]. intros pinned h1.
  apply wp_host_bind; [apply host_only_entries| |intros; by apply stored_fail..]. intros kids h2.
  apply wp_host_bind; [apply host_only_pure| |intros; by apply stored_fail..]. intros expected h3.
  apply wp_host_bind; [apply host_only_pure| |intros; by apply stored_fail..]. intros _ h4. cbv zeta.
  apply wp_bind. eapply wp_mono; [apply children_stored; [intros path f' h' Hi'; by apply IH|done]|].
  intros r [f1 h5] (G1 & M1 & H1). cbn [fst] in *. destruct r as [es|e|]; [|split; done..]. pose proof (H1 es eq_refl) as Hes.
  assert (forall A (P : Forge St -> A -> Prop) r s, stored P f1 r s -> stored P f r s) as Hback by (intros; by eapply stored_trans).
  pose proof (gr_inv _ _ G1) as Hi1.
  apply wp_host_bind; [apply host_only_entries| |intros; by apply Hback, stored_fail..]. intros again h6.
  apply wp_host_bind; [apply host_only_pure| |intros; by apply Hback, stored_fail..]. intros observed h7.
  apply wp_host_bind; [apply host_only_pure| |intros; by apply Hback, stored_fail..]. intros _ h8.
  apply wp_host_bind; [apply host_only_verify| |intros; by apply Hback, stored_fail..]. intros _ h9.
  apply wp_bind, wp_pure. destruct (Tree_new es) as [t|e|] eqn:Et; [|by apply Hback, stored_fail..].
  apply Tree_new_spec in Et as [Hperm Hwf]. apply wp_on_forge. eapply wp_mono; [apply (wp_store_adds _ _ _ (rp_put_tree t Hwf)); [done|]|].
  { intros o Ho%Tree_encode_type. by eapply other_sound. }
  intros r f2 (G2 & M2 & Hr). apply Hback. split; [done|]. split; [done|]. intros id ->. destruct Hr as (o & Ho & Hv).
  eapply (entries_whole f2 id t); [apply G2| |].
  - exists o. split; [exact Hv|]. apply Tree_decode_spec. by split.
  - rewrite Hperm. eapply Forall_impl; [exact Hes|]. intros e. by apply sound_entry_grown.
Qed.

Lemma walk_root_stored fuel f h : f_inv f -> wp (walk_root root_real options fuel) (f, h) (stored whole f).
Proof.
  intros Hi. pose proof (walk_stored 257 [] root_real true f h Hi) as Hw. unfold walk_root.
  unfold wp in *. destruct (walk root_real options 257 [] root_real true (f, h)) as [[id|[]|] s]; try exact Hw.
  cbn [fst snd] in Hw. destruct (_ && _); [|exact Hw]. destruct s as [f1 h1], Hw as (G & M & _). cbn [fst snd] in *.
  change (wp (msg ← symlink_refusal fuel root_real msg; throw (Invalid msg)) (f1, h1) (stored whole f)).
  assert (forall r h, (forall a, r <> Ok a) -> stored whole f r (f1, h)) as Hf by (intros r h' Hr; eapply stored_trans; [done|done|apply stored_fail; [apply G|done]]).
  apply wp_host_bind; [apply host_only_refusal| |intros; by apply Hf..]. intros m h2. by apply Hf.
Qed.
End walking.

(** Import keeps the repository sound. *)
Lemma import_sound fuel key now ulid others cap dir name ref options f h :
  sound_repo f -> str_ok (bs "import " ++ name) -> str_ok (agent_id cap) -> (forall i, in_u64 (now i)) ->
  harmless others -> fresh ulid (others (meta f)) ->
  wp (import_dir_with fuel key now ulid others cap dir name ref options) (f, h) (fun _ s => sound_repo s.1).
Proof.
  intros Hs Hmsg Hag Hnow Hoth Hu. unfold import_dir_with.
  apply wp_host_bind; [apply host_only_pure| |done..]. intros _ h1.
  apply wp_bind, wp_on_forge. eapply wp_mono; [apply (denotes_meta (get_ref ref) (fun c => Ok (ref_row ref <$> Catalog.refs c !! ref))); [done|apply Hs]|].
  intros r f1 [S1 ->]. set (previous := ref_row ref <$> _). pose proof (repo_same _ _ Hs S1) as H1.
  set (rest := fun (pc : option Commit) => _ : imp CasResult).
  assert (forall pc h2 f2, same f f2 -> (forall row, previous = Some row -> is_type f2 TCommit (ref_oid row)) -> wp (rest pc) (f2, h2) (fun _ s => sound_repo s.1)) as Hrest.
  2: { destruct previous as [row|] eqn:Ep; [|by apply wp_bind, wp_ret, Hrest].
    apply wp_bind, wp_bind, wp_on_forge. eapply wp_mono; [apply (denotes_store _ _ (rp_get_commit (ref_oid row))); apply H1|].
    intros r f2 [S2 ->]. assert (same f f2) as S by by eapply same_trans. pose proof (repo_same _ _ Hs S) as H2.
    destruct (b ← object_at _ _; Commit_decode b) as [c|e|] eqn:Ec; [|done..]. apply wp_ret. apply Hrest; [done|]. intros row' [= <-].
    eapply commit_type. apply commit_at_read. by rewrite (same_view _ _ S2). }
  clear h1 S1 H1 f1. intros pc h1 f1 S1 Hprev. unfold rest. pose proof (repo_same _ _ Hs S1) as H1.
  set (f2 := mkForge (store f1) (others (meta f1))). assert (sound_repo f2) as H2.
  { eapply (repo_grown f1); [done|apply with_catalog_grown, grown_refl, H1|]. apply Hoth, H1. }
  apply wp_bind, wp_on_forge, wp_on_meta. unfold wp, change. cbn [fst snd]. fold f2.
  match goal with |- context [?m (f2, h1)] => change (wp m (f2, h1) (fun _ s => sound_repo s.1)) end.
  apply wp_host_bind; [apply host_only_host| |done..]. intros root h2.
  apply wp_bind. eapply wp_mono; [apply walk_root_stored, H2|]. intros r [f3 h3] (G3 & M3 & Hw). cbn [fst] in *.
  assert (sound_repo f3) as H3 by by eapply repo_store. destruct r as [tree|e|]; [|done..]. specialize (Hw tree eq_refl).
  apply wp_bind, wp_on_forge. eapply wp_mono; [apply (wp_store_adds _ _ _ (rp_put_commit _)); [apply H3|]|].
  { intros b Hb. eapply commit_sound; [exact Hb| |].
    - split; [|split; [exact Hag|split; [exact Hmsg|apply Hnow]]]. cbn. destruct previous; by vm_compute.
    - split; cbn; [done| |done]. destruct previous as [row|]; constructor; [|constructor].
      eapply is_type_grown; [exact G3|]. by apply Hprev. }
  intros r f4 (G4 & M4 & Hcid). assert (sound_repo f4) as H4 by by eapply repo_store. destruct r as [cid|e|]; [|done..].
  destruct Hcid as (b & Hb & Hv4). apply wp_bind, wp_on_forge.
  eapply wp_mono; [apply (only_looks_store _ (rp_collect_intros (c_tree <$> pc) tree)), H4|]. intros r f5 S5.
  assert (sound_repo f5) as H5 by by eapply repo_same. destruct r as [intros|e|]; [|done..].
  apply wp_on_forge. eapply (wp_catalog _ (OpCasIntros _ _ _ _ _ _ _ _ _ _)); [exact H5|done| |].
  - cbn [obligations]. rewrite (same_meta _ _ S5), M4, M3. cbn [f2 meta]. rewrite (same_meta _ _ S1). by apply fresh_cas.
  - intros x c' Ht E. eapply cas_intros_tables; [exact Ht| |apply Hag|exact E]. apply typed_commit. rewrite (same_view _ _ S5).
    unfold type_at, object_at. rewrite Hv4. cbn. by apply Commit_encode_type in Hb.
Qed.
End import_sound.

(** ** What the import opens *)

Section watched.
Context {St B : Type} `{R : Repo St B} {H : Type} `{HO : Host H} `{HM : Hmac}.

(** The same host, with a log of the paths opened to be read. *)
Definition logging {A} (p : HPath) (m : H -> (IoError + A) * H) : H * list HPath -> (IoError + A) * (H * list HPath) :=
  fun '(h, l) => let '(r, h) := m h in (r, (h, l ++ [p])).

Definition quietly {A} (m : H -> (IoError + A) * H) : H * list HPath -> (IoError + A) * (H * list HPath) :=
  fun '(h, l) => let '(r, h) := m h in (r, (h, l)).

#[local] Instance watched : Host (H * list HPath) := {|
  Fd := Fd;
  canonicalize p := quietly (canonicalize p);
  open_dir p := logging p (open_dir p);
  open_file p := logging p (open_file p);
  fstat d := quietly (fstat d);
  lstat p := quietly (lstat p);
  read_dir p := logging p (read_dir p);
  file_type p := quietly (file_type p);
  read_to_end d := quietly (read_to_end d);
  rewind d := quietly (rewind d);
  read_chunk d n := quietly (read_chunk d n)
|}.

Abbreviation imp := (stateM Error (Forge St * (H * list HPath))).

Context (root : HPath).

Definition inside (p : HPath) : Prop := path_starts_with p root = true.

(** Only paths below the root are opened. *)
Definition stays {A} (m : imp A) : Prop := forall s, wp m s (fun _ s' => exists l, s'.2.2 = s.2.2 ++ l /\ Forall inside l).

Lemma stays_quiet {A} (m : imp A) : (forall s, wp m s (fun _ s' => s'.2.2 = s.2.2)) -> stays m.
Proof. intros Hm s. eapply wp_mono; [apply Hm|]. intros r s' E. exists []. by rewrite app_nil_r. Qed.

Lemma stays_ret {A} (a : A) : stays (mret a).
Proof. by apply stays_quiet. Qed.
Lemma stays_pure {A} (r : Result A) : stays (pure r).
Proof. by apply stays_quiet. Qed.
Lemma stays_throw {A} (e : Error) : stays (throw e : imp A).
Proof. by apply stays_quiet. Qed.
Lemma stays_panic {A} : stays (panic : imp A).
Proof. by apply stays_quiet. Qed.
Lemma stays_forge {A} (m : stateM Error (Forge St) A) : stays (on_forge m).
Proof. apply stays_quiet. intros [f h]. unfold wp, on_forge. by destruct (m f). Qed.
Lemma stays_quietly {A} why (m : H -> (IoError + A) * H) : stays (on_host why (quietly m)).
Proof. apply stays_quiet. intros [f [h l]]. unfold wp, on_host, quietly. destruct (m h) as [[e|a] h']; done. Qed.
Lemma stays_logging {A} why p (m : H -> (IoError + A) * H) : inside p -> stays (on_host why (logging p m)).
Proof. intros Hp [f [h l]]. unfold wp, on_host, logging. exists [p]. split; [|by repeat constructor]. by destruct (m h) as [[e|a] h']. Qed.
Lemma stays_bind {A A'} (m : imp A) (k : A -> imp A') : stays m -> (forall a, stays (k a)) -> stays (m ≫= k).
Proof.
  intros Hm Hk s. apply wp_bind. eapply wp_mono; [apply Hm|]. intros r s1 (l1 & E1 & H1). destruct r as [a|e|]; [|by exists l1..].
  eapply wp_mono; [apply Hk|]. intros r s2 (l2 & E2 & H2). exists (l1 ++ l2). rewrite E2, E1, app_assoc. split; [done|by apply Forall_app].
Qed.
Lemma stays_bind_pure {A A'} (r : Result A) (k : A -> imp A') : (forall a, r = Ok a -> stays (k a)) -> stays (pure r ≫= k).
Proof. intros Hk. destruct r as [a|e|]; [by apply Hk|apply (stays_throw e)|apply stays_panic]. Qed.
Lemma stays_while {L A} p (body : L -> imp (L + A)) l : (forall l, stays (body l)) -> stays (m_while p body l).
Proof.
  intros Hb s. apply (wp_m_while_inv (fun s' => exists l, s'.2.2 = s.2.2 ++ l /\ Forall inside l)).
  - intros l1 s1 (la & E1 & H1). eapply wp_mono; [apply Hb|]. intros r s2 (lb & E2 & H2). exists (la ++ lb). rewrite E2, E1, app_assoc. split; [done|by apply Forall_app].
  - exists []. by rewrite app_nil_r.
Qed.
Lemma stays_fold {L A} (f : L -> A -> imp L) l xs : (forall l x, stays (f l x)) -> stays (m_fold f l xs).
Proof. intros Hf. revert l. induction xs as [|x xs IH]; intros l; [apply stays_ret|]. by apply stays_bind. Qed.

Hint Resolve stays_ret stays_pure stays_throw stays_panic stays_forge stays_quietly stays_logging : host.

Ltac stays_step :=
  repeat first [ progress intros | apply stays_bind_pure | apply stays_bind | apply stays_while | apply stays_fold | apply stays_quietly | apply stays_logging; done | solve [auto with host] | case_match ].

Lemma inside_child dir name : inside dir -> inside (dir ++ [name]).
Proof.
  unfold inside. revert root. induction dir as [|n dir IH]; intros [|m q]; cbn [path_starts_with app]; try done.
  rewrite !andb_true_iff. intros [-> Hp]. split; [done|]. by apply IH.
Qed.

Lemma inside_root : inside root.
Proof. unfold inside. induction root as [|n q IH]; [done|]. cbn [path_starts_with]. rewrite IH. by rewrite (proj2 (bytes_eqb_true n n)). Qed.

Lemma stays_entries dir : inside dir -> stays (import_dir_entries (St:=St) dir).
Proof. intros Hd. unfold import_dir_entries. stays_step. Qed.
Lemma stays_open dir : inside dir -> stays (open_directory_nofollow (St:=St) dir).
Proof. intros Hd. unfold open_directory_nofollow. stays_step. Qed.
Lemma stays_verify dir pinned : stays (verify_directory_identity (St:=St) dir pinned).
Proof. unfold verify_directory_identity. stays_step. Qed.
Lemma stays_file path name : inside path -> stays (import_file path name).
Proof. intros Hp. unfold import_file, read_import_file, compare_chunk. stays_step. Qed.

Section walk.
Context (options : ImportOptions).

Lemma stays_entry rec path name : stays (rec path) -> stays (import_dir_entry rec path name).
Proof. intros Hr. unfold import_dir_entry. stays_step. Qed.

Lemma stays_follow rec stack link name : (forall p, inside p -> stays (rec p)) -> stays (follow_symlink root rec stack link name).
Proof.
  intros Hrec. unfold follow_symlink. apply stays_bind; [apply stays_quietly|]. intros target. apply stays_bind_pure. intros [] E.
  assert (inside target) as Ht by (unfold inside; destruct (path_starts_with target root); [done|discriminate E]).
  apply stays_bind; [apply stays_quietly|]. intros m. case_bool_decide; apply stays_bind_pure; intros _ _; [apply stays_entry; auto|by apply stays_file].
Qed.

Lemma stays_child rec stack dir name : (forall p, inside p -> stays (rec p)) -> inside dir -> stays (import_child root options rec stack dir name).
Proof.
  intros Hrec Hd. unfold import_child. apply (inside_child _ name) in Hd. apply stays_bind; [apply stays_quietly|]. intros [].
  - by apply stays_file.
  - apply stays_entry; auto.
  - destruct (negb _); [apply stays_throw|by apply stays_follow].
  - apply stays_throw.
Qed.

Lemma stays_children rec stack dir source_root kids : (forall p, inside p -> stays (rec p)) -> inside dir ->
  stays (walk_children root options rec stack dir source_root kids).
Proof.
  intros Hrec Hd. induction kids as [|kid kids IH]; cbn [walk_children]; [apply stays_ret|].
  apply stays_bind_pure. intros name _. destruct (_ && _); [done|].
  apply stays_bind; [by apply stays_child|]. intros e. apply stays_bind; [done|]. intros es. apply stays_ret.
Qed.

Lemma stays_walk fuel : forall stack dir source_root, inside dir -> stays (walk root options fuel stack dir source_root).
Proof.
  induction fuel as [|fuel IH]; intros stack dir sr Hd; [apply stays_panic|]. cbn [walk]. destruct (_ <=? _); [apply stays_throw|].
  apply stays_bind; [by apply stays_open|]. intros pinned. apply stays_bind; [by apply stays_entries|]. intros kids.
  apply stays_bind_pure. intros expected _. apply stays_bind_pure. intros _ _. cbv zeta.
  apply stays_bind; [apply stays_children; auto|]. intros es. apply stays_bind; [by apply stays_entries|]. intros again.
  apply stays_bind_pure. intros observed _. apply stays_bind_pure. intros _ _.
  apply stays_bind; [apply stays_verify|]. intros _. apply stays_bind_pure. intros t _. apply stays_forge.
Qed.

Lemma stays_sweep fuel : forall dir source_root out, inside dir -> stays (sweep_symlinks (St:=St) fuel dir source_root out).
Proof.
  induction fuel as [|fuel IH]; intros dir sr out Hd; [apply stays_panic|]. cbn [sweep_symlinks]. destruct (_ <? _); [apply stays_ret|].
  apply stays_bind; [by apply stays_entries|]. intros kids. apply stays_fold. intros out' name. destruct (_ && _); [apply stays_ret|].
  apply stays_bind; [apply stays_quietly|]. intros []; try apply stays_ret. apply IH. by apply inside_child.
Qed.

Lemma stays_refusal fuel first : stays (symlink_refusal (St:=St) fuel root first).
Proof.
  intros s. pose proof (stays_sweep fuel root true [] inside_root s) as Hs. unfold wp, symlink_refusal in *.
  by destruct (sweep_symlinks fuel root true [] s) as [[found|e|] s'].
Qed.

Lemma stays_walk_root fuel : stays (walk_root root options fuel).
Proof.
  intros s. pose proof (stays_walk 257 [] root true inside_root s) as Hw. unfold walk_root, wp in *.
  destruct (walk root options 257 [] root true s) as [[id|[]|] s1]; try exact Hw.
  destruct (_ && _); [|exact Hw]. destruct Hw as (l1 & E1 & H1). cbn [fst snd] in *.
  destruct (stays_bind _ _ (stays_refusal fuel msg) (fun m => stays_throw (Invalid m) : stays (throw (Invalid m) : imp ObjectId)) s1) as (l2 & E2 & H2).
  exists (l1 ++ l2). rewrite E2, E1, app_assoc. split; [done|by apply Forall_app].
Qed.
End walk.

(** What the host was when the root was resolved is what it was at the start. *)
Lemma host_stays {A A'} (m : imp A) (k : A -> imp A') s (Q : Result A' -> Forge St * (H * list HPath) -> Prop) :
  wp m s (fun _ s' => s'.2 = s.2) -> (forall a f, wp (k a) (f, s.2) Q) -> (forall r f, is_ok r = false -> Q r (f, s.2)) -> wp (m ≫= k) s Q.
Proof.
  intros Hm Hk Hq. apply wp_bind. eapply wp_mono; [exact Hm|]. intros r [f hl] E. cbn in E. subst hl. destruct r as [a|e|]; [apply Hk|by apply Hq..].
Qed.

Lemma forge_keeps_host {A} (m : stateM Error (Forge St) A) (s : Forge St * (H * list HPath)) : wp (on_forge m) s (fun _ s' => s'.2 = s.2).
Proof. destruct s as [f h]. unfold wp, on_forge. by destruct (m f). Qed.
End watched.

Lemma import_stays_inside_spec {St B} `{R : Repo St B} {H} `{HO : Host H} `{HM : Hmac} fuel key now ulid others cap dir name ref options (f : Forge St) (h : H) :
  wp (import_dir_with (HO:=watched) fuel key now ulid others cap dir name ref options) (f, (h, [])) (fun _ s =>
    s.2.2 = [] \/ exists root h1, canonicalize dir h = (inr root, h1) /\ Forall (inside root) s.2.2).
Proof.
  unfold import_dir_with. apply host_stays; [done| |by left]. intros _ f1. apply host_stays; [apply forge_keeps_host| |by left]. intros previous f2.
  apply host_stays; [| |by left].
  { destruct previous; [|done]. apply wp_bind. eapply wp_mono; [apply forge_keeps_host|]. intros [c|e|] s E; [by apply wp_ret|done..]. }
  intros pc f3. cbv zeta. apply host_stays; [apply forge_keeps_host| |by left]. intros _ f4. cbn [snd].
  apply wp_bind. unfold wp at 1, on_host. cbn [canonicalize watched quietly]. destruct (canonicalize dir h) as [[e|root] h1]; [by left|].
  cbn [fst snd]. match goal with |- wp ?m _ _ => assert (stays root m) as Hm end.
  { apply stays_bind; [apply stays_walk_root|]. intros tree. apply stays_bind; [apply stays_forge|]. intros cid.
    apply stays_bind; [apply stays_forge|]. intros intros. apply stays_forge. }
  eapply wp_mono; [apply Hm|]. intros r s (l & E & Hl). cbn in E. right. exists root, h1. rewrite E. by split.
Qed.

(** ** A directory at rest *)

Inductive Node := NFile (data : bytes) | NDir | NLink | NSpecial.

Definition node_kind (n : Node) : HostKind := match n with NFile _ => HFile | NDir => HDir | NLink => HSymlink | NSpecial => HSpecial end.

Section at_rest.
Context {St B : Type} `{RL : RepoLaws St B} {H : Type} `{HO : Host H} `{HM : Hmac}.
Implicit Types (f : Forge St) (h : H).

Abbreviation imp := (stateM Error (Forge St * H)).

(** What is on the disk, the metadata, and the descriptors of what is open. *)
Context (fs : HPath -> option Node) (kids : HPath -> list bytes) (meta_of : HPath -> Meta) (fd_of : HPath -> Fd) (at_pos : H -> Fd -> bytes -> Prop).

(** The host answers what is there, whatever happened before, and every call
    succeeds; names come in any order, reads in any chunks. *)
Record AtRest : Prop := mk_at_rest {
  ar_kids dir n : fs dir = Some NDir -> n ∈ kids dir <-> is_Some (fs (dir ++ [n]));
  ar_nodup dir : fs dir = Some NDir -> NoDup (kids dir);
  ar_size p data : fs p = Some (NFile data) -> len data <= usize_max;
  ar_parent dir n : is_Some (fs (dir ++ [n])) -> fs dir = Some NDir;
  ar_kind p nd : fs p = Some nd -> md_kind (meta_of p) = node_kind nd;
  ar_open_dir p h : fs p = Some NDir -> (open_dir p h).1 = inr (fd_of p);
  ar_open_file p h data : fs p = Some (NFile data) -> exists h', open_file p h = (inr (fd_of p), h') /\ at_pos h' (fd_of p) data;
  ar_fstat p h : is_Some (fs p) -> exists h', fstat (fd_of p) h = (inr (meta_of p), h') /\ forall fd rest, at_pos h fd rest -> at_pos h' fd rest;
  ar_lstat p h : is_Some (fs p) -> (lstat p h).1 = inr (meta_of p);
  ar_read_dir p h : fs p = Some NDir -> exists l, (read_dir p h).1 = inr l /\ l ≡ₚ kids p;
  ar_file_type p h nd : fs p = Some nd -> (file_type p h).1 = inr (node_kind nd);
  ar_read h fd rest : at_pos h fd rest -> (read_to_end fd h).1 = inr rest;
  ar_rewind p h data : fs p = Some (NFile data) -> exists h', rewind (fd_of p) h = (inr tt, h') /\ at_pos h' (fd_of p) data;
  ar_chunk h fd rest n : at_pos h fd rest -> 0 < n ->
    exists c rest' h', read_chunk fd n h = (inr c, h') /\ rest = c ++ rest' /\ at_pos h' fd rest' /\ (c = [] -> rest = [])
}.

Context (AR : AtRest).

Lemma wp_answers {A A'} why (m : H -> (IoError + A) * H) a (k : A -> imp A') f h (Q : Result A' -> Forge St * H -> Prop) :
  (m h).1 = inr a -> (forall h', wp (k a) (f, h') Q) -> wp (on_host why m ≫= k) (f, h) Q.
Proof. intros E Hk. apply wp_bind. unfold wp at 1, on_host. destruct (m h) as [x h'] eqn:Em. cbn in E. subst x. apply Hk. Qed.

Lemma wp_fstat {A'} why p (k : Meta -> imp A') f h (Q : Result A' -> Forge St * H -> Prop) : is_Some (fs p) ->
  (forall h', (forall fd rest, at_pos h fd rest -> at_pos h' fd rest) -> wp (k (meta_of p)) (f, h') Q) -> wp (on_host why (fstat (fd_of p)) ≫= k) (f, h) Q.
Proof. intros Hp Hk. destruct (ar_fstat AR p h Hp) as (h' & E & Hpos). apply wp_bind. unfold wp at 1, on_host. rewrite E. by apply Hk. Qed.

Definition sorted_kids (dir : HPath) : list bytes := sort_by_key (fun n => n) (kids dir).

Lemma sorted_kids_perm dir l : fs dir = Some NDir -> l ≡ₚ kids dir -> sort_by_key (fun n => n) l = sorted_kids dir.
Proof.
  intros Hd Hp. pose proof (ar_nodup AR dir Hd) as Hn. apply (strictly_sorted_perm (fun n => n)).
  - apply sort_by_key_strict. by rewrite list_fmap_id, Hp.
  - apply sort_by_key_strict. by rewrite list_fmap_id.
  - etrans; [apply sort_by_key_perm|]. etrans; [exact Hp|]. symmetry. apply sort_by_key_perm.
Qed.

Lemma wp_entries {A'} dir (k : list bytes -> imp A') f h (Q : Result A' -> Forge St * H -> Prop) :
  fs dir = Some NDir -> (forall h', wp (k (sorted_kids dir)) (f, h') Q) -> wp (import_dir_entries dir ≫= k) (f, h) Q.
Proof.
  intros Hd Hk. apply wp_bind. destruct (ar_read_dir AR dir h Hd) as (l & E & Hp). eapply (wp_answers _ _ l); [exact E|]. intros h'.
  apply wp_ret. by rewrite (sorted_kids_perm dir l Hd Hp).
Qed.

(** *** Reading a file *)

Lemma compare_all data fd h f : at_pos h fd data ->
  wp (m_while (Z.to_pos (len data + 1)) (compare_chunk data fd) 0) (f, h) (fun r s => r = Ok (len data) /\ s.1 = f).
Proof.
  intros Hp. apply (wp_m_while (fun o s => s.1 = f /\ exists a b, data = a ++ b /\ o = len a /\ at_pos s.2 fd b) (fun o => len data - o)).
  2: { split; [done|]. exists [], data. by split_and!. } 2: { pose proof (len_nonneg data). lia. }
  intros o [f1 h1] (E1 & a & b & -> & -> & Hb). cbn [snd fst] in *. subst f1. destruct (ar_chunk AR h1 fd b 65536 Hb eq_refl) as (c & b' & h2 & E & -> & Hb' & Hnil).
  unfold compare_chunk. apply wp_bind. unfold wp at 1, on_host. rewrite E. cbn [fst snd].
  destruct (Z.eqb_spec (len c) 0) as [E0|E0].
  { apply len_0 in E0 as ->. assert (b' = []) as -> by exact (Hnil eq_refl). apply wp_ret. split; [|done]. cbn [app]. by rewrite app_nil_r. }
  pose proof (len_nonneg c). pose proof (len_nonneg b'). rewrite (proj2 (Z.ltb_ge _ _)) by (rewrite !len_app; lia).
  rewrite !to_nat_len, drop_app_length, take_app_length.
  rewrite (proj2 (bytes_eqb_true c c)) by done. cbn [orb negb]. apply wp_ret. rewrite !len_app. split; [|lia].
  split; [done|]. exists (a ++ c), b'. rewrite <- app_assoc, len_app. by split_and!.
Qed.

Lemma stable_refl m : import_file_metadata_stable m m = true.
Proof. unfold import_file_metadata_stable. by rewrite !Z.eqb_refl, bool_decide_eq_true_2. Qed.

Lemma read_file_at_rest path data f h : fs path = Some (NFile data) ->
  wp (read_import_file path) (f, h) (fun r s => r = Ok (data, executable (meta_of path)) /\ s.1 = f).
Proof.
  intros Hf. pose proof (ar_kind AR path _ Hf) as Hk. assert (is_Some (fs path)) as Hs by by eexists.
  destruct (ar_open_file AR path h data Hf) as (h1 & E & Hp1). apply wp_bind. unfold wp at 1, on_host. rewrite E. cbn [fst snd]. clear E.
  apply wp_fstat; [done|]. intros h2 Hp2. specialize (Hp2 _ _ Hp1).
  rewrite Hk, bool_decide_eq_true_2 by done. apply wp_bind, wp_pure. cbn [negb reject_if].
  eapply wp_answers; [by apply (ar_read AR)|]. intros h3. destruct (ar_rewind AR path h3 data Hf) as (h4 & E & Hp).
  apply wp_bind. unfold wp at 1, on_host. rewrite E. cbn [fst snd]. clear h3 E.
  apply wp_bind. eapply wp_mono; [by apply compare_all|]. intros r [f1 h5] [-> E5]. cbn in E5. subst f1. rewrite Z.eqb_refl. apply wp_bind, wp_pure. cbn [negb reject_if].
  apply wp_fstat; [done|]. intros h6 _. rewrite stable_refl. apply wp_bind, wp_pure. cbn [negb reject_if].
  eapply wp_answers; [by apply (ar_lstat AR)|]. intros h7. rewrite Hk, bool_decide_eq_true_2 by done. apply wp_bind, wp_pure. cbn [negb reject_if].
  rewrite bool_decide_eq_true_2 by done. apply wp_bind, wp_pure. cbn [negb reject_if]. by apply wp_ret.
Qed.

(** *** What was imported *)

(** [id] is a blob of these bytes. *)
Definition blob_of f (id : ObjectId) (data : bytes) : Prop := exists o, f_view f !! id = Some o /\ Blob_decode o = Ok (mkBlob data).

(** Names of the root the import leaves out. *)
Definition left_out (source_root : bool) (n : bytes) : bool := source_root && control_name n.

(** The tree [id] has exactly the files below [dir]. *)
Record mirrors f (id : ObjectId) (dir : HPath) (source_root : bool) : Prop := mk_mirrors {
  mi_closed : closed (store f) id;
  mi_files p fl : file_in (store f) id p fl -> exists data n q,
    p = n :: q /\ left_out source_root n = false /\ fs (dir ++ p) = Some (NFile data) /\ fl.2 = executable (meta_of (dir ++ p)) /\ blob_of f fl.1 data;
  mi_all p n q data : p = n :: q -> left_out source_root n = false -> fs (dir ++ p) = Some (NFile data) ->
    exists i, file_in (store f) id p (i, executable (meta_of (dir ++ p))) /\ blob_of f i data
}.

Definition entry_mirrors f (dir : HPath) (n : bytes) (e : TreeEntry) : Prop :=
  e_name e = n /\
  match fs (dir ++ [n]) with
  | Some (NFile data) => e_kind e = KBlob /\ e_exec e = executable (meta_of (dir ++ [n])) /\ blob_of f (e_id e) data
  | Some NDir => e_kind e = KTree /\ mirrors f (e_id e) (dir ++ [n]) false
  | _ => False
  end.

Lemma blob_of_view f f' id data : f_view f ⊆ f_view f' -> blob_of f id data -> blob_of f' id data.
Proof. intros Hv (o & Ho & He). exists o. split; [by eapply lookup_weaken|done]. Qed.

Lemma mirrors_view f f' id dir sr : f_inv f' -> f_view f ⊆ f_view f' -> mirrors f id dir sr -> mirrors f' id dir sr.
Proof.
  intros Hi Hv [Hc H1 H2]. split; [by eapply closed_view| |].
  - intros p fl Hf. apply (file_in_view f f' id p fl Hi Hv Hc) in Hf. destruct (H1 p fl Hf) as (data & n & q & ? & ? & ? & ? & Hb).
    exists data, n, q. split_and!; try done. by eapply blob_of_view.
  - intros p n q data E Hl Hf. destruct (H2 p n q data E Hl Hf) as (i & Hin & Hb). exists i. split; [|by eapply blob_of_view].
    by apply (file_in_view f f' id _ _ Hi Hv Hc).
Qed.

Lemma entry_mirrors_view f f' dir n e : f_inv f' -> f_view f ⊆ f_view f' -> entry_mirrors f dir n e -> entry_mirrors f' dir n e.
Proof.
  intros Hi Hv [Hn Hm]. split; [done|]. destruct (fs (dir ++ [n])) as [[data| | |]|]; try done.
  - destruct Hm as (? & ? & ?). split_and!; try done. by eapply blob_of_view.
  - destruct Hm as [? ?]. split; [done|]. by eapply mirrors_view.
Qed.

(** Below [dir] a file is an entry or below one. *)
Lemma parent_dir dir p : p <> [] -> is_Some (fs (dir ++ p)) -> fs dir = Some NDir.
Proof.
  intros Hp Hs. revert dir Hp Hs. induction p as [|n p IH] using rev_ind; [done|]. intros dir _ Hs. rewrite app_assoc in Hs.
  pose proof (ar_parent AR _ _ Hs) as Hd. destruct p as [|m p]; [by rewrite app_nil_r in Hd|]. apply IH; [done|]. by eexists.
Qed.

Lemma entries_mirror f id t dir sr (names : list bytes) :
  f_inv f -> fs dir = Some NDir -> ts_holds (store f) id t -> wf_tree t ->
  (forall n, n ∈ names <-> n ∈ kids dir /\ left_out sr n = false) ->
  (forall n, n ∈ names -> exists e, e ∈ entries t /\ entry_mirrors f dir n e) ->
  (forall e, e ∈ entries t -> e_name e ∈ names) -> mirrors f id dir sr.
Proof.
  intros Hi Hd Ht Hwf Hnames Hes Hback.
  assert (forall e, e ∈ entries t -> entry_mirrors f dir (e_name e) e) as Hent.
  { intros e He. destruct (Hes _ (Hback e He)) as (e' & He' & Hm). assert (e' = e) as ->; [|done].
    pose proof (find_entry_sorted _ (e_name e) e (wf_sorted _ Hwf) He eq_refl) as F1.
    pose proof (find_entry_sorted _ (e_name e) e' (wf_sorted _ Hwf) He' (proj1 Hm)) as F2. congruence. }
  split.
  - apply (closed_intro _ _ _ Ht). intros e He Hk. destruct (Hent e He) as [_ Hm].
    destruct (fs (dir ++ [e_name e])) as [[data| | |]|]; try done; [destruct Hm; congruence|]. by destruct Hm as [_ []].
  - intros p fl Hf. inversion Hf as [i t' n e Ht' Hn Hk|i t' n e q fl' Ht' Hn Hk Hq]; subst;
      (assert (t' = t) as -> by exact (ts_holds_fun (store f) _ _ _ Hi Ht' Ht)); apply find_entry_some in Hn as [He Hname];
      pose proof (Hback e He) as Hin; pose proof (Hent e He) as [_ Hm]; rewrite Hname in Hin, Hm; apply Hnames in Hin as [_ Hl].
    + destruct (fs (dir ++ [n])) as [[data| | |]|] eqn:E; try done; [|destruct Hm; congruence]. destruct Hm as (_ & Hx & Hb).
      by exists data, n, [].
    + destruct (fs (dir ++ [n])) as [[data| | |]|] eqn:E; try done; [destruct Hm; congruence|]. destruct Hm as (_ & [_ H1 _]).
      destruct (H1 q fl Hq) as (data & n' & q' & Eq & _ & Hfs & Hx & Hb). rewrite <- app_assoc in Hfs, Hx. cbn in Hfs, Hx.
      by exists data, n, q.
  - intros p n q data -> Hl Hfs. assert (n ∈ kids dir) as Hk.
    { apply (ar_kids AR dir n Hd). destruct q as [|m q]; [by eexists|]. exists NDir. apply (parent_dir _ (m :: q)); [done|].
      rewrite <- app_assoc. by eexists. }
    destruct (Hes n) as (e & He & Hname & Hm); [by apply Hnames|]. pose proof (find_entry_sorted _ n e (wf_sorted _ Hwf) He Hname) as Hfe.
    destruct q as [|m q].
    + rewrite Hfs in Hm. destruct Hm as (Hkind & Hx & Hb). exists (e_id e). split; [|done]. rewrite <- Hx. by eapply file_here.
    + assert (fs (dir ++ [n]) = Some NDir) as E. { apply (parent_dir _ (m :: q)); [done|]. rewrite <- app_assoc. by eexists. }
      rewrite E in Hm. destruct Hm as (Hkind & [_ _ H2]). destruct (H2 (m :: q) m q data eq_refl eq_refl) as (i & Hin & Hb); [by rewrite <- app_assoc|].
      exists i. split; [|done]. rewrite <- app_assoc in Hin. by eapply file_below.
Qed.

(** *** The walk of a directory at rest *)

Definition scoped (source_root : bool) (l : list bytes) : list bytes := filter (fun n => left_out source_root n = false) l.

Lemma scoped_cons sr k ks : scoped sr (k :: ks) = if left_out sr k then scoped sr ks else k :: scoped sr ks.
Proof. unfold scoped. rewrite filter_cons. case_decide as E; [by rewrite E|]. by destruct (left_out sr k). Qed.

Lemma scoped_names l sr r : import_scoped_names l sr = Ok r <-> Forall (fun n => utf8_valid n = true) l /\ r = scoped sr l.
Proof.
  revert r. induction l as [|n l IH]; intros r; cbn [import_scoped_names].
  { split; [intros [= <-]; by split|by intros [_ ->]]. }
  rewrite Forall_cons, scoped_cons. unfold into_string. fold (left_out sr n). destruct (utf8_valid n); [|split; [done|by intros [[] _]]]. rewrite bind_of_ok. split.
  - intros (x & [Hx ->]%IH & [= <-])%bind_ok. by split.
  - intros [[_ Hl] ->]. rewrite (proj2 (IH _) (conj Hl eq_refl)). by rewrite bind_of_ok.
Qed.

(** Files and directories only, with names and sizes a tree can hold, at most
    [n] deep. *)
Fixpoint importable (n : nat) (dir : HPath) (source_root : bool) : Prop :=
  match n with
  | O => False
  | S n' => Forall (fun k => utf8_valid k = true) (kids dir) /\ len (scoped source_root (kids dir)) <= MAX_TREE_ENTRIES /\
      forall k, k ∈ scoped source_root (kids dir) -> valid_name k /\
        match fs (dir ++ [k]) with
        | Some (NFile _) => True
        | Some NDir => importable n' (dir ++ [k]) false
        | _ => False
        end
  end.

(** What is answered is right, and if [good], only the store can fail. *)
Definition exact {A} (right : Forge St -> A -> Prop) (good : Prop) f (r : Result A) (s : Forge St * H) : Prop :=
  grown f s.1 /\ (forall a, r = Ok a -> right s.1 a) /\
  (good -> rp_writable (store f) -> match r with Ok _ => True | Err e => rp_fault e | Panic => False end).

Lemma exact_bad {A} (right : Forge St -> A -> Prop) (good : Prop) f h (r : Result A) :
  f_inv f -> (forall a, r <> Ok a) -> ~ good -> exact right good f r (f, h).
Proof. intros Hi Hr Hg. split; [by apply grown_refl|]. split; [intros a ->; by destruct (Hr a)|by intros ?%Hg]. Qed.

Lemma exact_after {A} (right : Forge St -> A -> Prop) (good good' : Prop) f f1 r s :
  grown f f1 -> (good -> good') -> exact right good' f1 r s -> exact right good f r s.
Proof. intros G Hg (G1 & Hr & Hok). split; [by eapply grown_trans|]. split; [done|]. intros Hgood Hw. apply Hok; [auto|]. by apply (gr_writable _ _ G). Qed.

Lemma wp_store_exact (m : stateM Error St ObjectId) enc f h (right : Forge St -> ObjectId -> Prop) (good : Prop) :
  adds rp_inv rp_view rp_writable rp_fault m enc -> f_inv f -> (forall o, enc = Ok o -> sound_object f o) ->
  (forall f' id o, grown f f' -> f_view f' !! id = Some o -> enc = Ok o -> right f' id) -> (good -> exists o, enc = Ok o) ->
  wp (on_forge (on_store m)) (f, h) (exact right good f).
Proof.
  intros Hm Hi Hs Hright Hgood. apply wp_on_forge, wp_on_store. eapply wp_mono; [by apply Hm|]. intros r s' (H1 & H2 & H0 & H3 & H4).
  assert (grown f (mkForge s' (meta f))) as G by by eapply adds_grown. split; [exact G|]. split.
  - intros id ->. destruct H4 as (o & Ho & Hv). by eapply Hright.
  - intros Hg Hw. destruct (Hgood Hg) as [o Ho]. destruct r as [id|e|]; [done| |congruence]. destruct H4 as [?|Hf]; [done|].
    destruct (Hf Hw) as [e' He']. congruence.
Qed.

Lemma import_file_exact path name data f h : fs path = Some (NFile data) -> f_inv f ->
  wp (import_file path name) (f, h) (exact (fun f e => e_name e = name /\ e_kind e = KBlob /\ e_exec e = executable (meta_of path) /\ blob_of f (e_id e) data) True f).
Proof.
  intros Hf Hi. apply wp_bind. eapply wp_mono; [by apply read_file_at_rest|]. intros r [f1 h1] [-> E]. cbn in E. subst f1.
  apply wp_bind. eapply wp_mono; [apply (wp_store_exact _ _ f h1 (fun f id => blob_of f id data) True (rp_put_blob_data data)); [done| | |]|].
  - intros o Ho%Blob_encode_type. by eapply other_sound.
  - intros f' id o _ Hv Ho. exists o. split; [done|]. apply Blob_decode_spec. split; [by eapply (ar_size AR)|done].
  - intros _. apply Blob_encode_total.
  - intros r [f1 h2] (G & Hr & Hok). destruct r as [id|e|]; [|by split..]. apply wp_ret. split; [done|]. split; [|done].
    intros e [= <-]. split_and!; [done..|]. by apply Hr.
Qed.

Section at_rest_walk.
Context (root_real : HPath).
Abbreviation defaults := (mkImportOptions false).

Definition good_node (n : nat) (path : HPath) : Prop :=
  match fs path with Some (NFile _) => True | Some NDir => importable n path false | _ => False end.

Definition rec_exact (n : nat) (rec : HPath -> imp ObjectId) : Prop := forall path f h, fs path = Some NDir -> f_inv f ->
  wp (rec path) (f, h) (exact (fun f id => mirrors f id path false) (importable n path false) f).

Lemma child_exact n rec stack dir name f h : rec_exact n rec -> is_Some (fs (dir ++ [name])) -> f_inv f ->
  wp (import_child root_real defaults rec stack dir name) (f, h) (exact (fun f e => entry_mirrors f dir name e) (good_node n (dir ++ [name])) f).
Proof.
  intros Hrec [nd Hnd] Hi. unfold import_child. eapply wp_answers; [by apply (ar_file_type AR)|]. intros h1.
  unfold good_node, entry_mirrors. rewrite Hnd. destruct nd as [data| | |]; cbn [node_kind].
  - eapply wp_mono; [by apply import_file_exact|]. intros r s (G & Hr & Hok). split; [done|]. split; [|done]. intros e He. by apply Hr.
  - apply wp_bind. eapply wp_mono; [by apply Hrec|]. intros r [f1 h2] (G & Hr & Hok). destruct r as [id|e|]; [|by split..].
    apply wp_ret. split; [done|]. split; [|done]. intros e [= <-]. split; [done|]. split; [done|]. by apply Hr.
  - by apply exact_bad; auto.
  - by apply exact_bad; auto.
Qed.

Lemma children_exact n rec stack dir sr ks : rec_exact n rec -> Forall (fun k => is_Some (fs (dir ++ [k]))) ks -> forall f h, f_inv f ->
  wp (walk_children root_real defaults rec stack dir sr ks) (f, h)
    (exact (fun f es => Forall2 (entry_mirrors f dir) (scoped sr ks) es)
       (Forall (fun k => utf8_valid k = true) ks /\ Forall (fun k => good_node n (dir ++ [k])) (scoped sr ks)) f).
Proof.
  intros Hrec Hks. induction Hks as [|k ks Hk Hks IH]; intros f h Hi; cbn [walk_children].
  { apply wp_ret. split; [by apply grown_refl|]. split; [|done]. intros es [= <-]. constructor. }
  apply wp_bind, wp_pure. unfold into_string. destruct (utf8_valid k) eqn:Hu.
  2: { apply exact_bad; [done..|]. intros [Hf _]. apply Forall_cons in Hf as [Hf _]. congruence. }
  rewrite scoped_cons. fold (left_out sr k). destruct (left_out sr k) eqn:El.
  { eapply wp_mono; [by apply IH|]. intros r s Hx. eapply exact_after; [by apply grown_refl| |exact Hx].
    intros [Hf Hg]. apply Forall_cons in Hf as [_ Hf]. done. }
  apply wp_bind. eapply wp_mono; [by apply (child_exact n)|]. intros r [f1 h1] (G1 & H1 & O1). cbn [fst] in *.
  destruct r as [e|e|]; [|split; [done|split; [done|]]; intros [_ [Hg _]%Forall_cons]; by apply O1..].
  pose proof (H1 e eq_refl) as He. apply wp_bind. eapply wp_mono; [apply IH, G1|]. intros r [f2 h2] (G2 & H2 & O2). cbn [fst] in *.
  assert (grown f f2) as G by by eapply grown_trans.
  assert (forall e, r = Err e \/ r = Panic -> (Forall (fun k => utf8_valid k = true) (k :: ks) /\ Forall (fun k => good_node n (dir ++ [k])) (k :: scoped sr ks)) -> rp_writable (store f) -> match r with Ok _ => True | Err e => rp_fault e | Panic => False end) as Hfail.
  { intros _ _ [[_ Hu']%Forall_cons [_ Hg']%Forall_cons] Hw. apply O2; [done|]. by apply (gr_writable _ _ G1). }
  destruct r as [es|e'|]; [|split; [done|split; [done|]]; eapply Hfail; auto..].
  apply wp_ret. split; [done|]. split; [|done]. intros a [= <-]. constructor; [|by apply H2]. eapply entry_mirrors_view; [apply G2|apply G2|done].
  Unshelve. all: exact (Io []).
Qed.

Lemma sorted_kids_kids dir : sorted_kids dir ≡ₚ kids dir.
Proof. apply sort_by_key_perm. Qed.

Lemma in_scoped sr n l : n ∈ scoped sr l <-> n ∈ l /\ left_out sr n = false.
Proof. unfold scoped. rewrite list_elem_of_filter. tauto. Qed.

Lemma scoped_perm sr l l' : l ≡ₚ l' -> scoped sr l ≡ₚ scoped sr l'.
Proof. intros Hp. unfold scoped. by rewrite Hp. Qed.

(** Entries of the names of a directory make a tree. *)
Lemma entries_tree f dir sr es : fs dir = Some NDir -> Forall2 (entry_mirrors f dir) (scoped sr (sorted_kids dir)) es ->
  Forall valid_name (scoped sr (kids dir)) -> exists t, Tree_new es = Ok t.
Proof.
  intros Hd Hes Hv. exists (mkTree (sort_by_key e_name es)). apply Tree_new_spec. split; [apply sort_by_key_perm|].
  assert (e_name <$> es = scoped sr (sorted_kids dir)) as Hn.
  { clear Hv. induction Hes as [|k e ks es [He _] _ IH]; [done|]. by rewrite fmap_cons, He, IH. }
  split; cbn [entries].
  - rewrite (sort_by_key_perm e_name es). rewrite <- (scoped_perm sr _ _ (sorted_kids_kids dir)), <- Hn, Forall_fmap in Hv. exact Hv.
  - apply sort_by_key_strict. rewrite Hn. unfold scoped. apply NoDup_filter. rewrite sorted_kids_kids. by apply (ar_nodup AR).
Qed.

Lemma walk_exact fuel : forall stack dir sr f h n, fs dir = Some NDir -> f_inv f ->
  wp (walk root_real defaults fuel stack dir sr) (f, h)
    (exact (fun f id => mirrors f id dir sr) (importable n dir sr /\ Z.of_nat n + len stack <= MAX_IMPORT_DEPTH /\ (n <= fuel)%nat) f).
Proof.
  induction fuel as [|fuel IH]; intros stack dir sr f h n Hd Hi; [apply exact_bad; [done..|]; destruct n; intros (? & ? & ?); [done|lia]|].
  set (good := _ /\ _). cbn [walk]. destruct (Z.leb_spec MAX_IMPORT_DEPTH (len stack)) as [Hle|Hlt].
  { apply exact_bad; [done..|]. destruct n; intros (? & ? & ?); [done|lia]. }
  assert (is_Some (fs dir)) as Hs by by eexists. pose proof (ar_kind AR dir _ Hd) as Hk.
  assert (good -> Forall (fun k => utf8_valid k = true) (sorted_kids dir)) as Gu.
  { intros [Hg _]. destruct n; [done|]. destruct Hg as [Hg _]. by rewrite sorted_kids_kids. }
  apply wp_bind, wp_bind. apply (wp_mono _ _ (fun r s => r = Ok (fd_of dir) /\ s.1 = f)).
  { pose proof (ar_open_dir AR dir h Hd) as E. unfold wp, on_host. destruct (open_dir dir h) as [x h']. cbn in *. by subst x. }
  intros r [f1 h1] [-> E]. cbn in E. subst f1. apply wp_fstat; [done|]. intros h2 _. apply wp_ret.
  apply wp_entries; [done|]. intros h3. apply wp_bind, wp_pure. set (ks := sorted_kids dir) in *.
  destruct (import_scoped_names ks sr) as [expected|e|] eqn:Ex.
  2-3: apply exact_bad; [done..|]; intros Hg; pose proof (proj2 (scoped_names ks sr _) (conj (Gu Hg) eq_refl)); congruence.
  pose proof (proj1 (scoped_names ks sr expected) Ex) as [_ ->]. assert (len (scoped sr ks) = len (scoped sr (kids dir))) as Hlen.
  { unfold len. by rewrite (Permutation_length (scoped_perm sr ks (kids dir) (sorted_kids_kids dir))). }
  apply wp_bind, wp_pure. destruct (Z.ltb_spec MAX_TREE_ENTRIES (len (scoped sr ks))) as [Hbig|Hsmall]; cbn [reject_if].
  { apply exact_bad; [done..|]. intros [Hg _]. destruct n; [done|]. destruct Hg as (_ & Hg & _). lia. }
  cbv zeta. set (stack' := stack ++ [_]). assert (len stack' = len stack + 1) as Hst by (unfold stack'; by rewrite len_app).
  assert (exists n', (good -> n = S n') /\ rec_exact n' (fun path => walk root_real defaults fuel stack' path false)) as (n' & Hn' & Hrec).
  { assert (forall m, (m = 0%nat \/ (Z.of_nat m + len stack' <= MAX_IMPORT_DEPTH /\ (m <= fuel)%nat)) -> rec_exact m (fun path => walk root_real defaults fuel stack' path false)) as Hm.
    { intros m Hm path f' h' Hp Hi'. eapply wp_mono; [by apply (IH stack' path false f' h' m)|]. intros r s Hx.
      eapply exact_after; [by apply grown_refl| |exact Hx]. intros Hg. destruct Hm as [->|Hm]; [done|by split]. }
    destruct n as [|n]; [exists 0%nat; split; [by intros [[] _]|by apply Hm; left]|].
    destruct (decide (Z.of_nat (S n) + len stack <= MAX_IMPORT_DEPTH /\ (S n <= S fuel)%nat)) as [[Hb1 Hb2]|Hno].
    - exists n. split; [done|]. apply Hm. right. lia.
    - exists 0%nat. split; [by intros (_ & Hb)|by apply Hm; left]. }
  assert (good -> importable (S n') dir sr) as Hgood by (intros Hg; rewrite <- (Hn' Hg); apply Hg).
  apply wp_bind. eapply wp_mono; [apply (children_exact n' _ stack' dir sr ks Hrec); [|exact Hi]|].
  { apply Forall_forall. intros k Hin. apply (ar_kids AR dir k Hd). rewrite <- sorted_kids_kids. exact Hin. }
  intros r [f1 h4] (G1 & H1 & O1). cbn [fst] in *.
  assert (good -> Forall (fun k => utf8_valid k = true) ks /\ Forall (fun k => good_node n' (dir ++ [k])) (scoped sr ks)) as Gc.
  { intros Hg. split; [by apply Gu|]. apply Forall_forall. intros k [Hin Hl]%in_scoped. destruct (Hgood Hg) as (_ & _ & Hc). apply (Hc k).
    apply in_scoped. split; [|done]. rewrite <- sorted_kids_kids. exact Hin. }
  destruct r as [es|e|]; [|split; [done|split; [done|]]; intros Hg; by apply O1, Gc..]. pose proof (H1 es eq_refl) as Hes.
  eapply wp_mono; [|intros r s Hx; eapply (exact_after _ good good f f1); [done|done|exact Hx]]. pose proof (gr_inv _ _ G1) as Hi1.
  apply wp_entries; [done|]. intros h5. fold ks. rewrite Ex. apply wp_bind, wp_pure.
  rewrite bool_decide_eq_true_2 by done. apply wp_bind, wp_pure. cbn [negb reject_if].
  unfold verify_directory_identity. apply wp_bind. eapply wp_answers; [by apply (ar_lstat AR)|]. intros h6.
  rewrite Hk, !bool_decide_eq_true_2 by done. apply wp_pure. cbn [negb orb reject_if node_kind].
  apply wp_bind, wp_pure. destruct (Tree_new es) as [t|e|] eqn:Et.
  2-3: apply exact_bad; [done..|]; intros Hg; destruct (entries_tree f1 dir sr es Hd Hes) as [t Ht]; [|congruence];
    apply Forall_forall; intros k Hin; by apply (Hgood Hg).
  pose proof (proj1 (Tree_new_spec es t) Et) as [Hperm Hwf]. apply (wp_store_exact _ _ f1 h6 _ good (rp_put_tree t Hwf)); [done| | |].
  - intros o Ho%Tree_encode_type. by eapply other_sound.
  - intros f2 id o G2 Hv Ho. apply (entries_mirror f2 id t dir sr (scoped sr ks)); [apply G2|done| |done| | |].
    + exists o. split; [exact Hv|]. apply Tree_decode_spec. by split.
    + intros k. rewrite in_scoped. unfold ks. by rewrite sorted_kids_kids.
    + intros k Hin. apply list_elem_of_lookup in Hin as [i Hki]. destruct (Forall2_lookup_l _ _ _ _ _ Hes Hki) as (e & He & Hm).
      exists e. split; [rewrite Hperm; by eapply list_elem_of_lookup_2|]. eapply entry_mirrors_view; [apply G2|apply G2|done].
    + intros e He. rewrite Hperm in He. apply list_elem_of_lookup in He as [i Hei]. destruct (Forall2_lookup_r _ _ _ _ _ Hes Hei) as (k & Hki & [-> _]).
      by eapply list_elem_of_lookup_2.
  - intros _. pose proof (Tree_encode_cases t (wf_names _ Hwf)) as Hc. rewrite (proj2 (Z.leb_le (len (entries t)) _)) in Hc; [done|].
    unfold len. rewrite (Permutation_length Hperm), <- (Forall2_length _ _ _ Hes). exact Hsmall.
Qed.
End at_rest_walk.
End at_rest.

(** ** The operation on a directory at rest *)

Lemma cas_intros_fails ts ulid name expected new kind agent fork allow intros c r c' :
  cas_ref_with_intros ts ulid name expected new kind agent fork allow intros c = (r, c') -> is_ok r = false -> c' = c.
Proof.
  intros E Hr. assert (wp (cas_ref_with_intros ts ulid name expected new kind agent fork allow intros) c (fun r c' => is_ok r = false -> c' = c)) as Hw.
  { unfold cas_ref_with_intros, refuse_if. apply wp_bind, wp_pure. destruct (validate_ref_kind name kind); [|done..].
    apply wp_bind. destruct (starts_with _ _); [done|]. apply wp_ret. apply wp_intro. intros r1 c1. apply transaction_error. }
  by apply (wp_elim _ _ _ _ _ Hw E).
Qed.

(** Where a compare-and-swap put its object. *)
Definition cas_place (x : CasResult) : str * ObjectId :=
  match x with
  | Updated name oid | Noop name oid => (name, oid)
  | Forked _ fork ours _ => (fork, ours)
  end.

Lemma cas_tx_places intros ts ulid name expected new kind agent fork allow c x c' :
  (forall c u c', intros c = (Ok u, c') -> exists f, c' = with_intros f c) ->
  cas_tx intros ts ulid name expected new kind agent fork allow c = (Ok x, c') ->
  (cas_place x).2 = new /\ exists row, refs c' !! (cas_place x).1 = Some row /\ rc_oid row = new.
Proof.
  intros Hint E. unfold cas_tx in E. inv_db. destruct (refs c !! name) as [r|] eqn:Er.
  - inv_db. apply db_refs_update in Ha2 as [(r' & -> & _ & _ & ->)|(-> & -> & _)]; cbn [Z.eqb Pos.eqb] in E; inv_db;
      match goal with Hi : intros _ = _ |- _ => apply Hint in Hi as [f ->] end; simplify_eq/=; (split; [done|]); eexists; by rewrite lookup_insert_eq.
  - inv_db. match goal with Hi : intros _ = _ |- _ => apply Hint in Hi as [f ->] end. simplify_eq/=. split; [done|]. eexists. by rewrite lookup_insert_eq.
Qed.

Lemma cas_intros_places ts ulid name expected new kind agent fork allow intros c x c' :
  cas_ref_with_intros ts ulid name expected new kind agent fork allow intros c = (Ok x, c') ->
  (cas_place x).2 = new /\ exists row, refs c' !! (cas_place x).1 = Some row /\ rc_oid row = new.
Proof.
  intros E. unfold cas_ref_with_intros in E. inv_db. eapply cas_tx_places; [|exact E]. intros c1 u c2 [f ->]%db_intros. by eexists.
Qed.

Section import_at_rest.
Context {St B : Type} `{RL : RepoLaws St B} {H : Type} `{HO : Host H} `{HM : Hmac}.
Context (fs : HPath -> option Node) (kids : HPath -> list bytes) (meta_of : HPath -> Meta) (fd_of : HPath -> Fd) (at_pos : H -> Fd -> bytes -> Prop).
Context (AR : AtRest fs kids meta_of fd_of at_pos).

Abbreviation imp := (stateM Error (Forge St * H)).

(** What a finished import published: a commit on top of the ref as it was
    read, whose tree is the directory, by one update of the ref. *)
Definition imported (f f' : Forge St) (now : nat -> Z) (ulid : nat -> str) (others : Catalog -> Catalog) (cap : Cap) (root : HPath) (name ref : str) (x : CasResult) : Prop :=
  exists tree b intros, let cid := (cas_place x).2 in mirrors fs meta_of f' tree root true /\
    Commit_encode (mkCommit tree (match refs (meta f) !! ref with Some row => [rc_oid row] | None => [] end) (agent_id cap)
      (bs "import " ++ name) (now 1%nat) false None) = Ok b /\
    f_view f' !! cid = Some b /\
    (exists row, refs (meta f') !! (cas_place x).1 = Some row /\ rc_oid row = cid) /\
    cas_ref_with_intros (now 2%nat) (ulid 0%nat) ref (match refs (meta f) !! ref with Some row => rc_oid row | None => ZERO end) cid
      (bs "commit") (agent_id cap) (agent_id cap) false intros (others (meta f)) = (Ok x, meta f').

Lemma walk_root_exact root fuel f h : fs root = Some NDir -> f_inv f ->
  wp (walk_root root (mkImportOptions false) fuel) (f, h) (fun r s => stored whole f r s /\ forall id, r = Ok id -> mirrors fs meta_of s.1 id root true).
Proof.
  intros Hd Hi. apply wp_and; [by apply walk_root_stored|].
  pose proof (walk_exact fs kids meta_of fd_of at_pos AR root 257 [] root true f h 0 Hd Hi) as Hw. unfold walk_root. unfold wp in *.
  destruct (walk root _ 257 [] root true (f, h)) as [[id|e|] s]; [by apply Hw| |done].
  destruct e; try done. destruct (_ && _); [|done]. unfold mbind, stateM_bind. destruct (symlink_refusal _ _ _ s) as [[]]; done.
Qed.

Lemma import_dir_spec fuel key now ulid others cap dir name ref root f h :
  (forall h, (canonicalize dir h).1 = inr root) -> fs root = Some NDir -> f_inv f ->
  wp (import_dir fuel key now ulid others cap dir name ref) (f, h) (fun r s =>
    f_inv s.1 /\ f_view f ⊆ f_view s.1 /\
    match r with
    | Ok x => imported f s.1 now ulid others cap root name ref x
    | _ => meta s.1 = meta f \/ meta s.1 = others (meta f)
    end).
Proof.
  intros Hcan Hd Hs. unfold import_dir, import_dir_with. set (Q := fun r s => _).
  assert (forall f1 (r : Result CasResult) h, f_inv f1 -> f_view f ⊆ f_view f1 -> meta f1 = meta f \/ meta f1 = others (meta f) -> is_ok r = false -> Q r (f1, h)) as Hfail.
  { intros f1 r h' I V M Hr. split; [done|]. split; [done|]. by destruct r. }
  apply wp_host_bind; [apply host_only_pure| |intros; apply Hfail; by auto..]. intros _ h1.
  apply wp_bind, wp_on_forge. eapply wp_mono; [by apply (denotes_meta (get_ref ref) (fun c => Ok (ref_row ref <$> Catalog.refs c !! ref)))|].
  intros r f1 [S1 ->]. set (rest := fun (pc : option Commit) => _ : imp CasResult).
  assert (forall pc h2 f2, same f f2 -> wp (rest pc) (f2, h2) Q) as Hrest.
  2: { destruct (refs (meta f) !! ref) as [row|] eqn:Ep; [|by apply wp_bind, wp_ret, Hrest].
    apply wp_bind, wp_bind, wp_on_forge. eapply wp_mono; [apply (denotes_store _ _ (rp_get_commit (rc_oid row))), S1|].
    intros r f2 [S2 ->]. assert (same f f2) as S by by eapply same_trans.
    destruct (b ← object_at _ _; Commit_decode b) as [c|e|] eqn:Ec; [by apply wp_ret, Hrest|..];
      (apply Hfail; [apply S|by rewrite (same_view _ _ S)|left; apply (same_meta _ _ S)|done]). }
  clear h1 S1 f1. intros pc h1 f1 S1. unfold rest.
  set (f2 := mkForge (store f1) (others (meta f1))). assert (f_inv f2) as H2 by apply S1.
  assert (f_view f2 = f_view f) as V2 by apply (same_view _ _ S1). assert (meta f2 = others (meta f)) as M2 by (cbn; by rewrite (same_meta _ _ S1)).
  apply wp_bind, wp_on_forge, wp_on_meta. unfold wp, change. cbn [fst snd]. fold f2.
  match goal with |- context [?m (f2, h1)] => change (wp m (f2, h1) Q) end.
  apply (wp_answers _ _ root); [apply Hcan|]. intros h2.
  apply wp_bind. eapply wp_mono; [by apply walk_root_exact|]. intros r [f3 h3] [(G3 & M3 & _) Hm]. cbn [fst] in *.
  pose proof (gr_view _ _ G3) as V3. rewrite V2 in V3. rewrite M2 in M3.
  pose proof (gr_inv _ _ G3) as I3. destruct r as [tree|e|]; [|apply Hfail; by auto..]. specialize (Hm tree eq_refl).
  apply wp_bind, wp_on_forge, wp_on_store. eapply wp_mono; [apply (rp_put_commit _ (store f3)), G3|]. intros r s4 (I4 & V4 & _ & _ & H4).
  assert (f_view f ⊆ rp_view s4) as V04 by by etrans. destruct r as [cid|e|]; [|apply Hfail; by auto..]. destruct H4 as (b & Hb & Hc4).
  apply wp_bind, wp_on_forge, wp_on_store. eapply wp_mono; [apply rp_collect_intros, I4|]. intros r s5 (I5 & V5 & _). cbn [store] in *. rewrite <- V5 in V4, Hc4, V04.
  destruct r as [intros|e|]; [|apply Hfail; by auto..]. apply wp_on_forge, wp_on_meta, wp_intro. cbn [meta]. rewrite M3. intros r c' E.
  destruct r as [x|e|]; [|apply Hfail; [done|done|right; by eapply cas_intros_fails|done]..]. split; [done|]. split; [done|].
  pose proof (cas_intros_places _ _ _ _ _ _ _ _ _ _ _ _ _ E) as [<- Hrow].
  exists tree, b, intros. split; [eapply mirrors_view; [| |exact Hm]; done|].
  split; [|split; [exact Hc4|split; [exact Hrow|]]]; [rewrite <- Hb|cbn [fst meta]; rewrite <- E]; by destruct (refs (meta f) !! ref).
Qed.
End import_at_rest.

(** ** Claims *)

(** C12: Import publishes the directory it was given.  On a host directory that
    stays at rest (names in any order, reads in any chunks), an import with
    default options that answers a result has stored a tree with exactly the
    files of the directory, each with its bytes and its executable bit, at any
    depth; only a [.forge] or [.git] at the very top is left out.  A commit of
    that tree on top of the ref as it was first read is stored, the ref that the
    answer names leads to it, and the catalog is what others made of it
    meanwhile after one compare-and-swap of the ref.
    An import that fails publishes nothing; nothing stored is lost either way.
    And the walk fails on no directory of files and directories with storable
    names that is at most [MAX_IMPORT_DEPTH] deep: if the store can be written,
    what can fail is a fault of the store. *)
Theorem import_is_exact {St B} `{RL : RepoLaws St B} {H} `{HO : Host H} `{HM : Hmac}
    (fs : HPath -> option Node) (kids : HPath -> list bytes) (meta_of : HPath -> Meta) (fd_of : HPath -> Fd) (at_pos : H -> Fd -> bytes -> Prop)
    (AR : AtRest fs kids meta_of fd_of at_pos) (fuel : nat) (key : bytes) (now : nat -> Z) (ulid : nat -> str) (others : Catalog -> Catalog) (cap : Cap)
    (dir root : HPath) (name ref : str) (f : Forge St) (h : H)
    (Hcan : forall h, (canonicalize dir h).1 = inr root) (Hdir : fs root = Some NDir) (Hf : f_inv f) :
  (forall r f' h', import_dir fuel key now ulid others cap dir name ref (f, h) = (r, (f', h')) ->
    f_view f ⊆ f_view f' /\
    match r with
    | Ok x => imported fs meta_of f f' now ulid others cap root name ref x
    | _ => meta f' = meta f \/ meta f' = others (meta f)
    end) /\
  (importable fs kids (Z.to_nat MAX_IMPORT_DEPTH) root true -> rp_writable (store f) ->
   forall r s, walk root (mkImportOptions false) 257 [] root true (f, h) = (r, s) ->
   match r with Ok _ => True | Err e => rp_fault e | Panic => False end).
Proof.
  split.
  - intros r f' h' E. apply (wp_elim _ _ _ _ _ (import_dir_spec fs kids meta_of fd_of at_pos AR fuel key now ulid others cap dir name ref root f h Hcan Hdir Hf) E).
  - intros Him Hw r s E. apply (wp_elim _ _ _ _ _ (walk_exact fs kids meta_of fd_of at_pos AR root 257 [] root true f h (Z.to_nat MAX_IMPORT_DEPTH) Hdir Hf) E); [|done].
    split; [exact Him|]. unfold MAX_IMPORT_DEPTH, len. cbn [length]. lia.
Qed.

(** C14: Import keeps the repository sound whatever the host does.  The calls
    of the walk may answer anything (entries that come and go, files that
    change between two reads, links that lead anywhere, errors at any point)
    and links may be followed or not; objects stay decodable, refs keep naming
    complete commits of the right type, and the catalog keeps its invariants. *)
Theorem import_keeps_sound {St B} `{RL : RepoLaws St B} {H} `{HO : Host H} `{HM : Hmac} (fuel : nat) (key : bytes) (now : nat -> Z) (ulid : nat -> str)
    (others : Catalog -> Catalog) (cap : Cap) (dir : HPath) (name ref : str) (options : ImportOptions) (f f' : Forge St) (h h' : H) (r : Result CasResult)
    (Hs : sound_repo f) (Hname : str_ok (bs "import " ++ name)) (Hag : str_ok (agent_id cap)) (Hnow : forall i, in_u64 (now i))
    (Hoth : harmless others) (Hu : fresh ulid (others (meta f)))
    (E : import_dir_with fuel key now ulid others cap dir name ref options (f, h) = (r, (f', h'))) : sound_repo f'.
Proof. exact (wp_elim _ _ _ _ _ (import_sound fuel key now ulid others cap dir name ref options f h Hs Hname Hag Hnow Hoth Hu) E). Qed.

(** C13: Import reads nothing from outside the directory.  Whatever the host
    answers, links followed or not, every path the import opens, for its bytes
    or for its listing, and also for the report of refused links, lies below
    the directory as it was resolved at the start; when that fails nothing is
    opened. *)
Theorem import_stays_inside {St B} `{R : Repo St B} {H} `{HO : Host H} `{HM : Hmac} (fuel : nat) (key : bytes) (now : nat -> Z) (ulid : nat -> str)
    (others : Catalog -> Catalog) (cap : Cap) (dir : HPath) (name ref : str) (options : ImportOptions) (f f' : Forge St) (h h' : H)
    (r : Result CasResult) (opened : list HPath)
    (E : import_dir_with (HO:=watched) fuel key now ulid others cap dir name ref options (f, (h, [])) = (r, (f', (h', opened)))) :
  opened = [] \/ exists root h1, canonicalize dir h = (inr root, h1) /\ Forall (fun p => path_starts_with p root = true) opened.
Proof. exact (wp_elim _ _ _ _ _ (import_stays_inside_spec fuel key now ulid others cap dir name ref options f h) E). Qed.

(** ** Witnesses *)

Section rest_host.
Context (nodes : gmap HPath Node) (exec : HPath -> bool).

(** The names in [dir]. *)
Definition rest_kids (dir : HPath) : list bytes :=
  elements (set_omap (D:=gset bytes) (fun p => match rev p with n :: q => if bool_decide (rev q = dir) then Some n else None | [] => None end) (dom nodes)).

Definition rest_meta (p : HPath) : Meta :=
  mkMeta (match nodes !! p with Some n => node_kind n | None => HSpecial end) 1 1 0 None (if exec p then 493 else 420).

Definition found {A} (p : HPath) (a : A) : IoError + A := if nodes !! p then inr a else inl ENOENT.

Definition file_data (p : HPath) : bytes := match nodes !! p with Some (NFile data) => data | _ => [] end.

Definition seek (p : HPath) (rest : bytes) (h : HPath -> bytes) : HPath -> bytes := fun q => if bool_decide (q = p) then rest else h q.

(** A disk that nobody touches; the state is the position of each file. *)
Definition rest_host : Host (HPath -> bytes) := {|
  Fd := HPath;
  canonicalize p h := (found p p, h);
  open_dir p h := (found p p, h);
  open_file p h := (found p p, seek p (file_data p) h);
  fstat p h := (found p (rest_meta p), h);
  lstat p h := (found p (rest_meta p), h);
  read_dir p h := (found p (rest_kids p), h);
  file_type p h := (found p (md_kind (rest_meta p)), h);
  read_to_end p h := (inr (h p), seek p [] h);
  rewind p h := (inr tt, seek p (file_data p) h);
  read_chunk p n h := (inr (firstn (Z.to_nat n) (h p)), seek p (skipn (Z.to_nat n) (h p)) h)
|}.

Lemma seek_at p rest h : seek p rest h p = rest.
Proof. unfold seek. by rewrite bool_decide_eq_true_2. Qed.

Lemma found_some {A} p (a : A) : is_Some (nodes !! p) -> found p a = inr a.
Proof. unfold found. by intros [n ->]. Qed.

Lemma rest_host_at_rest : (forall p data, nodes !! p = Some (NFile data) -> len data <= usize_max) -> (forall dir n, is_Some (nodes !! (dir ++ [n])) -> nodes !! dir = Some NDir) ->
  AtRest (HO:=rest_host) (fun p => nodes !! p) rest_kids rest_meta (fun p => p) (fun h p rest => h p = rest).
Proof.
  intros Hsize Hparent. split; cbn.
  - intros dir n _. unfold rest_kids. rewrite elem_of_elements, elem_of_set_omap. split.
    + intros (p & Hp & E). destruct (rev p) as [|m q] eqn:Er; [done|]. case_bool_decide as Hq; [|done]. injection E as ->.
      apply (f_equal (@rev bytes)) in Er. rewrite rev_involutive in Er. subst. cbn in Hp. by apply elem_of_dom.
    + intros Hs. exists (dir ++ [n]). rewrite elem_of_dom. split; [done|]. rewrite rev_app_distr. cbn. by rewrite rev_involutive, bool_decide_eq_true_2.
  - intros dir _. unfold rest_kids. apply NoDup_elements.
  - exact Hsize.
  - exact Hparent.
  - intros p nd E. unfold rest_meta. cbn. by rewrite E.
  - intros p h E. apply found_some. by eexists.
  - intros p h data E. eexists. rewrite found_some by by eexists. split; [done|]. rewrite seek_at. unfold file_data. by rewrite E.
  - intros p h E. exists h. by rewrite found_some.
  - intros p h E. by apply found_some.
  - intros p h E. exists (rest_kids p). split; [|done]. apply found_some. by eexists.
  - intros p h nd E. rewrite found_some by by eexists. unfold rest_meta. cbn. by rewrite E.
  - by intros h p rest ->.
  - intros p h data E. eexists. split; [done|]. rewrite seek_at. unfold file_data. by rewrite E.
  - intros h p rest n <- Hn. eexists _, _, _. split; [done|]. rewrite seek_at. split; [symmetry; apply take_drop|]. split; [done|].
    intros E%(f_equal length). rewrite length_take in E. destruct (h p); [done|]. cbn in E. lia.
Qed.
End rest_host.

(** A small project: a script, a directory, and repositories at both levels. *)
Definition demo_root : HPath := [bs "src"].
Definition demo_nodes : gmap HPath Node :=
  <[[] := NDir]> (<[demo_root := NDir]> (<[demo_root ++ [bs "run"] := NFile (bs "go")]> (<[demo_root ++ [bs "doc"] := NDir]>
    (<[demo_root ++ [bs "doc"; bs "a"] := NFile (bs "text")]> (<[demo_root ++ [bs "doc"; bs ".git"] := NFile (bs "x")]> (<[demo_root ++ [bs ".git"] := NDir]> ∅)))))).
Definition demo_exec (p : HPath) : bool := bool_decide (p = demo_root ++ [bs "run"]).
Definition is_dir (n : Node) : bool := match n with NDir => true | _ => false end.
#[local] Instance demo_host : Host (HPath -> bytes) := rest_host demo_nodes demo_exec.

Lemma demo_at_rest : AtRest (fun p => demo_nodes !! p) (rest_kids demo_nodes) (rest_meta demo_nodes demo_exec) (fun p => p) (fun h p rest => h p = rest).
Proof.
  apply rest_host_at_rest.
  { intros p data E. assert (forallb (fun '(_, n) => match n with NFile data => len data <=? usize_max | _ => true end) (map_to_list demo_nodes) = true) as Hall
      by (vm_compute; reflexivity).
    rewrite forallb_forall in Hall. apply elem_of_map_to_list, list_elem_of_In in E. specialize (Hall _ E). by apply Z.leb_le. }
  intros dir n Hs.
  assert (forallb (fun '(p, _) => match rev p with _ :: q => bool_decide (is_dir <$> demo_nodes !! rev q = Some true) | [] => true end) (map_to_list demo_nodes) = true) as Hall
    by (vm_compute; reflexivity).
  destruct Hs as [nd E]. rewrite forallb_forall in Hall. apply elem_of_map_to_list, list_elem_of_In in E. specialize (Hall _ E). cbv beta iota in Hall.
  rewrite rev_app_distr in Hall. cbn [rev app] in Hall. rewrite rev_involutive in Hall. apply bool_decide_eq_true_1 in Hall.
  by destruct (demo_nodes !! dir) as [[]|].
Qed.

Definition demo_import (f : Forge (Guarded MapLru)) :=
  import_dir 0 demo_key (fun _ => 1) (fun _ => demo_ulid) (fun c => c) demo_cap demo_root (bs "src") (bs "imported") (f, fun _ => []).

Lemma demo_importable : importable (fun p => demo_nodes !! p) (rest_kids demo_nodes) (Z.to_nat MAX_IMPORT_DEPTH) demo_root true.
Proof.
  change (Z.to_nat MAX_IMPORT_DEPTH) with (S (S 254)). generalize 254%nat. intros n. cbn [importable].
  assert (rest_kids demo_nodes demo_root = [bs ".git"; bs "run"; bs "doc"]) as -> by (vm_compute; reflexivity).
  change (scoped true _) with [bs "run"; bs "doc"].
  split; [repeat (constructor; [reflexivity|]); constructor|]. split; [done|].
  intros k. rewrite !elem_of_cons, elem_of_nil. intros [->|[->|[]]]; (split; [reflexivity|]).
  - by replace (demo_nodes !! (demo_root ++ [bs "run"])) with (Some (NFile (bs "go"))) by (vm_compute; reflexivity).
  - replace (demo_nodes !! (demo_root ++ [bs "doc"])) with (Some NDir) by (vm_compute; reflexivity).
    assert (rest_kids demo_nodes (demo_root ++ [bs "doc"]) = [bs ".git"; bs "a"]) as -> by (vm_compute; reflexivity).
    change (scoped false _) with [bs ".git"; bs "a"].
    split; [repeat (constructor; [reflexivity|]); constructor|]. split; [done|].
    intros k. rewrite !elem_of_cons, elem_of_nil. intros [->|[->|[]]]; (split; [reflexivity|]).
    + by replace (demo_nodes !! ((demo_root ++ [bs "doc"]) ++ [bs ".git"])) with (Some (NFile (bs "x"))) by (vm_compute; reflexivity).
    + by replace (demo_nodes !! ((demo_root ++ [bs "doc"]) ++ [bs "a"])) with (Some (NFile (bs "text"))) by (vm_compute; reflexivity).
Qed.

#[local] Existing Instance sum_ed25519.
#[local] Existing Instance sum_ed25519_laws.

Lemma import_is_exact_witness :
  exists x f', imported (fun p => demo_nodes !! p) (rest_meta demo_nodes demo_exec) demo_new f' (fun _ => 1) (fun _ => demo_ulid) (fun c => c) demo_cap demo_root
    (bs "src") (bs "imported") x /\ exists id s, walk demo_root (mkImportOptions false) 257 [] demo_root true (demo_new, fun _ => []) = (Ok id, s).
Proof.
  assert (is_ok (demo_import demo_new).1 = true) as Hr by (vm_compute; reflexivity).
  assert (match (walk demo_root (mkImportOptions false) 257 [] demo_root true (demo_new, fun _ => [])).1 with Err e => bool_decide (e = collision) | _ => false end = false) as Hw
    by (vm_compute; reflexivity).
  destruct (import_is_exact _ _ _ _ _ demo_at_rest 0 demo_key (fun _ => 1) (fun _ => demo_ulid) (fun c => c) demo_cap demo_root demo_root (bs "src") (bs "imported")
    demo_new (fun _ => []) (fun _ => eq_refl) eq_refl (sr_inv _ demo_new_sound)) as [Hx Hwalk].
  fold (demo_import demo_new) in Hx. destruct (demo_import demo_new) as [[x|e|] [f' h']]; [|discriminate Hr..].
  destruct (Hx _ _ _ eq_refl) as [_ Hi]. exists x, f'. split; [exact Hi|]. specialize (Hwalk demo_importable eq_refl).
  destruct (walk _ _ _ _ _ _ _) as [r s]. specialize (Hwalk r s eq_refl). destruct r as [id|e|]; [by exists id, s| |destruct Hwalk].
  cbn in Hw. apply bool_decide_eq_false_1 in Hw. destruct (Hw Hwalk).
Defined.

Lemma import_keeps_sound_witness : sound_repo (demo_import demo_new).2.1.
Proof.
  destruct (demo_import demo_new) as [r [f' h']] eqn:E.
  apply (import_keeps_sound 0 demo_key (fun _ => 1) (fun _ => demo_ulid) (fun c => c) demo_cap demo_root (bs "src") (bs "imported") (mkImportOptions false)
    demo_new f' (fun _ => []) h' r demo_new_sound); [split; [by vm_compute|by apply Z.leb_le]|exact demo_agent_ok|exact demo_clock| |exact demo_fresh|exact E].
  intros v c Hc. exact Hc.
Defined.

Lemma import_stays_inside_witness :
  exists opened, Forall (fun p => path_starts_with p demo_root = true) opened /\ demo_root ++ [bs "doc"; bs "a"] ∈ opened.
Proof.
  destruct (import_dir_with (HO:=watched) 0 demo_key (fun _ => 1) (fun _ => demo_ulid) (fun c => c) demo_cap demo_root (bs "src") (bs "imported") (mkImportOptions true)
    (demo_new, (fun _ => [], []))) as [r [f' [h' opened]]] eqn:E.
  assert (bool_decide (demo_root ++ [bs "doc"; bs "a"] ∈ opened) = true) as Hin.
  { change opened with (r, (f', (h', opened))).2.2.2. rewrite <- E. vm_compute. reflexivity. }
  apply bool_decide_eq_true_1 in Hin. exists opened. split; [|exact Hin].
  destruct (import_stays_inside 0 demo_key (fun _ => 1) (fun _ => demo_ulid) (fun c => c) demo_cap demo_root (bs "src") (bs "imported") (mkImportOptions true)
    demo_new f' (fun _ => []) h' r opened E) as [->|(root & h1 & E1 & Hf)]; [by apply not_elem_of_nil in Hin|]. cbn in E1. injection E1 as <- _. exact Hf.
Defined.
