(* ===== verification/Life.v ===== *)
(** * The life of a repository (crates/forge-api: every call that changes one)

    [ApiCall] lists the public calls of [Forge] that can change its store or
    its catalog, [init] ([Repository]), the sweep [gc_collect] ([Gc]) and the
    methods that hand out capabilities (authority.rs) apart; [run_api] is what
    each runs.  The calls that only look ([refs], [log], [show], [receipt],
    [inbox_list], [verify_tag], [fsck], [export_tar], the plan [gc]) are not in
    the list either, but [ls] and [read] are.  A repository is made by [init]
    and then lives by calls, in any order, failures included, under what
    [careful] asks of the caller of each.

    A sweep keeps only what the catalog reaches and what is young: it may take
    the parents of a young commit that no ref names, so it does not keep the
    invariant of this file, which is about every stored commit.  What a sweep
    does keep is the subject of [GcSafety]. *)

From S2P Require Import Prelude RustStd Types Tree TreeStore Object Contribution ObjectStore Store Graph Cap History Merge Overlay Namespace Catalog Refs Sessions CatAudit Events CatalogInv Publish Staging Authority Gc Plane Forge Growth Receipts Workspace WorkspaceReads Checkin Integration Seal Sound Api Integrate Moves Repository Import.

(** What a call meets around it: the key that capabilities are checked with,
    the clock, the ULIDs it draws, what other processes do to the catalog at
    the barriers, the mode the repository is open in, the variable that bounds
    graph walks, the seal key. *)
Record Env := mkEnv {
  en_key : bytes;
  en_now : nat -> Z;
  en_ulid : nat -> str;
  en_others : Catalog -> Catalog;
  en_read_only : bool;
  en_budget : option str;
  en_seed : arr 32;
  en_is_ulid : str -> bool
}.

Inductive ApiCall :=
| CallSessionOpen (from : str)
| CallBranch (from name : str)
| CallLandmark (oid : ObjectId)
| CallInboxPush (to snapshot : str) (task : option str)
| CallAbandonFork (name : str)
| CallAbandonSession (ns : str) (discard : bool)
| CallMount (ns path spec : str) (rw : bool)
| CallLs (ns path : str)
| CallRead (ns path : str)
| CallWrite (ns path : str) (data : bytes) (exec : bool)
| CallDelete (ns path : str)
| CallRename (ns from to : str) (expect : option ObjectId)
| CallCheckin (ns mount msg : str)
| CallMerge (into from : str) (resolved : option ObjectId)
| CallResolve (conflict : ObjectId) (into : str) (choice : ResolveChoice)
| CallSeal (ref tag : str)
| CallImport {H : Type} (HO : Host H) (h : H) (dir : HPath) (name ref : str) (options : ImportOptions).

Section repository.
Context {St B : Type} `{RL : RepoLaws St B} `{HM : Hmac} `{B3 : Blake3} `{ED : Ed25519} `{EL : !Ed25519Laws}.
Implicit Types (f : Forge St) (v : gmap ObjectId bytes) (c : Catalog) (E : Env) (cap : Cap).

Abbreviation forge := (stateM Error (Forge St)).

(** The call without its answer. *)
Definition done_with {A} (m : forge A) : forge unit := _ ← m; mret tt.

(** The import with the host in state [h], without its answer. *)
Definition beside_host {H A} (h : H) (m : stateM Error (Forge St * H) A) : forge unit := fun f =>
  match m (f, h) with
  | (Ok _, (f', _)) => (Ok tt, f')
  | (Err e, (f', _)) => (Err e, f')
  | (Panic, (f', _)) => (Panic, f')
  end.

Definition run_api (fuel : nat) E cap (call : ApiCall) : forge unit :=
  let key := en_key E in let now := en_now E in let ulid := en_ulid E in let ro := en_read_only E in
  match call with
  | CallSessionOpen from => done_with (session_open key now ulid cap from)
  | CallBranch from name => done_with (branch key now cap from name)
  | CallLandmark oid => done_with (Forge_landmark key now cap oid)
  | CallInboxPush to snapshot task => done_with (inbox_push key now ulid cap to snapshot task)
  | CallAbandonFork name => done_with (on_meta (abandon_fork key (now 1%nat) (now 0%nat) cap name))
  | CallAbandonSession ns discard => done_with (on_meta (forge_abandon_session cap ns discard))
  | CallMount ns path spec rw => done_with (mount key now cap ns path spec rw)
  | CallLs ns path => done_with (Forge_ls key now ro cap ns path)
  | CallRead ns path => done_with (Forge_read key now ro cap ns path)
  | CallWrite ns path data exec => done_with (Forge_write key now cap ns path data exec)
  | CallDelete ns path => done_with (Forge_delete key now cap ns path)
  | CallRename ns from to expect => done_with (rename fuel key now ro cap ns from to expect)
  | CallCheckin ns mount msg => done_with (checkin key now ulid (en_others E) cap ns mount msg)
  | CallMerge into from resolved => done_with (merge fuel key now ulid cap into from resolved)
  | CallResolve oid into choice => done_with (resolve_conflict (en_is_ulid E) fuel key now cap oid into choice)
  | CallSeal ref tag =>
      done_with (seal (en_budget E) (en_seed E) (ed_public (en_seed E)) key now (en_others E) cap ref tag)
  | CallImport HO h dir name ref options =>
      beside_host h (import_dir_with (HO:=HO) fuel key now ulid (en_others E) cap dir name ref options)
  end.

(** What the caller of a call owes.  Strings are UTF-8 (a Rust [String] is) and
    shorter than [usize::MAX]; the ULIDs drawn were in no name logged before
    ([fresh]); what other processes do to the catalog meanwhile is such that it
    stays sound ([harmless]).  And two things that the code does not check: a
    resolution by [ChooseTree] names a tree that is stored whole, and a rename
    is made in a session where no staged file is above or below a file of the
    base ([kinds_apart]): [Moves.rename_nests_rows] runs one that is not, and
    it stages rows one above the other. *)
Definition careful f E cap (call : ApiCall) : Prop :=
  match call with
  | CallSessionOpen _ | CallInboxPush _ _ _ => fresh (en_ulid E) (meta f)
  | CallRename ns _ _ _ => kinds_apart f ns
  | CallCheckin _ _ msg =>
      str_ok msg /\ str_ok (agent_id cap) /\ harmless (en_others E) /\ fresh (en_ulid E) (en_others E (meta f))
  | CallMerge into from _ =>
      str_ok (bs "merge " ++ from ++ bs " into " ++ into) /\ str_ok (agent_id cap) /\ fresh (en_ulid E) (meta f)
  | CallResolve _ _ choice => str_ok (agent_id cap) /\ forall id, choice = ChooseTree id -> whole f id
  | CallSeal _ _ => harmless (en_others E)
  | CallImport _ _ _ name _ _ =>
      str_ok (bs "import " ++ name) /\ str_ok (agent_id cap) /\ harmless (en_others E) /\ fresh (en_ulid E) (en_others E (meta f))
  | _ => True
  end.

(** The clock of the machine. *)
Definition clock E : Prop := forall i, in_u64 (en_now E i).

Lemma done_with_sound {A} (m : forge A) f :
  wp m f (fun _ f' => sound_repo f') -> wp (done_with m) f (fun _ f' => sound_repo f').
Proof. intros H. apply wp_bind. eapply wp_mono; [exact H|]. intros r f1 H1. destruct r; [by apply sound_ret|done..]. Qed.

Lemma done_with_later {A} (m : nat -> forge A) f :
  eventually (fun fuel => wp (m fuel) f (fun _ f' => sound_repo f')) ->
  eventually (fun fuel => wp (done_with (m fuel)) f (fun _ f' => sound_repo f')).
Proof. apply eventually_mono. intros fuel. apply done_with_sound. Qed.

Lemma beside_host_sound {H A} (h : H) (m : stateM Error (Forge St * H) A) f :
  wp m (f, h) (fun _ s => sound_repo s.1) -> wp (beside_host h m) f (fun _ f' => sound_repo f').
Proof. unfold beside_host, wp. destruct (m (f, h)) as [[a|e|] [f' h']]; done. Qed.

Lemma run_api_sound E cap call f :
  sound_repo f -> clock E -> careful f E cap call ->
  eventually (fun fuel => wp (run_api fuel E cap call) f (fun _ f' => sound_repo f')).
Proof.
  intros H Hnow Hc. destruct call; cbn [run_api careful] in *.
  1-13, 16: apply eventually_always; intros fuel; apply done_with_sound.
  17: apply eventually_always; intros fuel; apply beside_host_sound.
  - by apply session_open_sound.
  - by apply branch_sound.
  - by apply landmark_sound.
  - by apply inbox_push_sound.
  - by apply abandon_fork_sound.
  - by apply abandon_session_sound.
  - by apply mount_sound.
  - by apply ls_sound.
  - by apply read_sound.
  - by apply write_sound.
  - by apply delete_sound.
  - by apply rename_sound.
  - destruct Hc as (? & ? & ? & ?). by apply checkin_sound.
  - by apply seal_sound.
  - destruct Hc as (? & ? & ?). apply done_with_later. by apply merge_sound.
  - destruct Hc as (? & ?). apply done_with_later. by apply resolve_sound.
  - destruct Hc as (? & ? & ? & ?). by apply import_sound.
Qed.
End repository.

(** ** Its life *)

Section life.
Context {St B : Type} `{RL : RepoLaws St B} `{HM : Hmac} `{B3 : Blake3} `{ED : Ed25519} `{EL : !Ed25519Laws}.
Implicit Types (f : Forge St) (E : Env) (cap : Cap).

(** A repository that [init] made, and what calls made of it; [fuel] is
    whatever is enough for the loops of the call. *)
Inductive lives : Forge St -> Prop :=
| lives_init now s cid f :
    rp_inv s -> rp_view s = ∅ -> (forall i, in_u64 (now i)) -> init now (mkForge s empty_catalog) = (Ok cid, f) -> lives f
| lives_call E cap call f f' :
    lives f -> clock E -> careful f E cap call ->
    (forall n, exists fuel, (n <= fuel)%nat /\ f' = (run_api fuel E cap call f).2) -> lives f'.

Lemma lives_sound f : lives f -> sound_repo f.
Proof.
  induction 1 as [now s cid f Hi Hv Hnow E|E cap call f f' Hl IH Hc Hcare Hrun].
  - by destruct (wp_elim _ _ _ _ _ (init_spec now s Hi Hv Hnow) E) as [H _].
  - destruct (run_api_sound E cap call f IH Hc Hcare) as [n Hn]. destruct (Hrun n) as (fuel & Hf & ->). by apply Hn.
Qed.

(** [b] is a parent of the stored commit [a]. *)
Definition parent_of f (a b : ObjectId) : Prop := exists k, commit_at (f_view f) a k /\ b ∈ c_parents k.

Lemma ancestors_sound f a b :
  sound_repo f -> is_type f TCommit a -> rtc (parent_of f) a b -> exists k, commit_at (f_view f) b k /\ sound_commit f k.
Proof.
  intros H Ha Hr. revert Ha. induction Hr as [a|a x b (k & Hk & Hx) Hr IH]; intros Ha; [by apply (type_commit f a (sr_store _ H))|].
  apply IH. pose proof (sk_parents _ _ (commit_at_sound f a k (sr_store _ H) Hk)) as Hp. by rewrite Forall_forall in Hp; apply Hp.
Qed.
End life.

(** ** Properties *)

Section properties.
Context {St B : Type} `{RL : RepoLaws St B} `{HM : Hmac} `{B3 : Blake3} `{ED : Ed25519} `{EL : !Ed25519Laws}.

(** C2: A call of the API made with care on a sound repository leaves it sound,
    however the call ends: every ref, landmark, pin, mount and staged row still
    names a stored object of the type its table says, every stored commit and
    conflict still names whole trees and stored parents, and the catalog is
    where its operations lead.  The calls are those of [ApiCall], import among
    them and [gc_collect] not; with care means what [careful] says of the call
    (UTF-8 strings, unused ULIDs, other processes that keep the catalog sound,
    a rename clear of staged files above or below files, a resolution by a tree
    that is stored whole) and a clock within 64 bits. *)
Theorem calls_keep_types (E : Env) (cap : Cap) (call : ApiCall) (f : Forge St)
    (H : sound_repo f) (Hnow : clock E) (Hc : careful f E cap call) :
  exists n, forall fuel, (n <= fuel)%nat -> sound_repo (run_api fuel E cap call f).2.
Proof. by apply run_api_sound. Qed.

(** C1: A repository that [init] made, after any sequence of the calls of
    [ApiCall] (import among them, [gc_collect] not), each made with the care
    that [careful] asks and each ending as it may: the audit of its catalog is
    clean, every ref names a stored object of its kind, and every commit that a
    ref leads to is stored with all its files and its receipt. *)
Theorem repository_stays_sound (f : Forge St) (H : lives f) :
  au_findings (audit_catalog (meta f)) = []
  /\ (forall name row, refs (meta f) !! name = Some row ->
        exists ty, catalog_object_type (rc_kind row) = Some ty /\ is_type f ty (rc_oid row))
  /\ (forall name row id, refs (meta f) !! name = Some row -> rc_kind row = bs "commit" -> rtc (parent_of f) (rc_oid row) id ->
        exists k, commit_at (f_view f) id k /\ closed (store f) (c_tree k)
          /\ (forall p fl, file_in (store f) (c_tree k) p fl -> is_type f TBlob fl.1)
          /\ (forall rid, c_contrib k = Some rid -> is_type f TContribution rid)).
Proof.
  apply lives_sound in H. pose proof (st_refs _ _ (repo_tables f H)) as Hrefs. split; [|split].
  - apply audit_clean_iff, history_inv, H.
  - intros name row Hr. exact (Hrefs name row Hr).
  - intros name row id Hr Hk Ha. destruct (Hrefs name row Hr) as (ty & Hty & Ht). rewrite Hk in Hty.
    injection (Hty : Some TCommit = Some ty) as <-.
    destruct (ancestors_sound f _ id H Ht Ha) as (k & Hk' & [[Hc Hf] _ Hrec]). by exists k.
Qed.
End properties.

(** ** Witnesses *)

#[local] Existing Instance sum_ed25519.
#[local] Existing Instance sum_ed25519_laws.

Definition demo_env : Env := mkEnv demo_key (fun _ => 1) (fun _ => demo_ulid) (fun c => c) false None demo_seed (fun _ => true).

Lemma demo_new_lives : lives demo_new.
Proof. exact (lives_init (fun _ => 1) (Store.guard (C:=MapLru) empty_store) demo_main_id demo_new empty_store_wf eq_refl demo_clock demo_init_runs). Qed.

(** A session is opened on the new repository. *)
Definition demo_call : ApiCall := CallSessionOpen (bs "main").
Definition demo_live : Forge (Guarded MapLru) := (run_api 0 demo_env demo_cap demo_call demo_new).2.

Lemma demo_live_lives : lives demo_live.
Proof.
  apply (lives_call demo_env demo_cap demo_call demo_new); [apply demo_new_lives|exact demo_clock|exact demo_fresh|].
  intros n. exists n. split; [lia|reflexivity].
Qed.

(** A directory is imported into the new repository. *)
Definition demo_import_call : ApiCall := CallImport demo_host (fun _ => []) demo_root (bs "src") (bs "imported") (mkImportOptions false).
Definition demo_grown : Forge (Guarded MapLru) := (run_api 0 demo_env demo_cap demo_import_call demo_new).2.

Lemma demo_import_careful : careful demo_new demo_env demo_cap demo_import_call.
Proof. split; [split; [by vm_compute|by apply Z.leb_le]|]. split; [exact demo_agent_ok|]. split; [intros v c Hc; exact Hc|exact demo_fresh]. Qed.

Lemma demo_grown_fuel fuel : (run_api fuel demo_env demo_cap demo_import_call demo_new).2 = demo_grown.
Proof.
  assert (is_ok (demo_import demo_new).1 = true) as H by (vm_compute; reflexivity). unfold demo_import, import_dir in H.
  unfold demo_grown, demo_import_call, demo_env. cbn [run_api en_key en_now en_ulid en_others]. unfold beside_host.
  pose proof (fun x s' => import_any_fuel (HO:=demo_host) 0 fuel demo_key (fun _ => 1) (fun _ => demo_ulid) (fun c => c) demo_cap demo_root (bs "src") (bs "imported")
    (mkImportOptions false) (demo_new, fun _ => []) x s') as Hf.
  destruct (import_dir_with 0 _ _ _ _ _ _ _ _ _ _) as [[x|e|] [f' h']]; [|discriminate H..]. rewrite (Hf x (f', h') eq_refl). reflexivity.
Qed.

Lemma demo_grown_lives : lives demo_grown.
Proof.
  apply (lives_call demo_env demo_cap demo_import_call demo_new); [apply demo_new_lives|exact demo_clock|exact demo_import_careful|].
  intros n. exists n. split; [lia|]. symmetry. exact (demo_grown_fuel n).
Qed.

(** The ref of the import is there, and its commit with its files. *)
Lemma repository_stays_sound_witness :
  au_findings (audit_catalog (meta demo_grown)) = [] /\
  exists row k, refs (meta demo_grown) !! bs "imported" = Some row /\ commit_at (f_view demo_grown) (rc_oid row) k
    /\ closed (store demo_grown) (c_tree k).
Proof.
  destruct (repository_stays_sound demo_grown demo_grown_lives) as (H1 & _ & H3). split; [exact H1|].
  assert (rc_kind <$> refs (meta demo_grown) !! bs "imported" = Some (bs "commit")) as Hr by (vm_compute; reflexivity).
  revert H3 Hr. generalize demo_grown. intros f H3 Hr.
  destruct (refs (meta f) !! bs "imported") as [row|] eqn:Er; [|discriminate Hr]. injection Hr as Hr.
  destruct (H3 _ row (rc_oid row) Er Hr (rtc_refl _ _)) as (k & Hk & Hc & _). exists row, k. split; [reflexivity|]. split; [exact Hk|exact Hc].
Defined.

Lemma calls_keep_types_witness : sound_repo demo_live /\ sound_repo demo_grown.
Proof.
  split.
  - destruct (calls_keep_types demo_env demo_cap demo_call demo_new demo_new_sound demo_clock demo_fresh) as [n Hn]. exact (Hn n (le_n n)).
  - destruct (calls_keep_types demo_env demo_cap demo_import_call demo_new demo_new_sound demo_clock demo_import_careful) as [n Hn].
    rewrite <- (demo_grown_fuel n). exact (Hn n (le_n n)).
Defined.
