(* ===== verification/Export.v ===== *)
(** * Exporting a tree as an archive (crates/forge-api/src/export.rs)

    [export_tar_with] writes the files below a tree into a temporary archive
    beside the destination and renames it into place when all of it, and the
    hash of every file, is right.

    An archive is the list of the members given to the tar builder, with their
    headers; the bytes the builder makes of them are its own.  Folding of names
    comes from Unicode tables and is a parameter, as is the staged reader, which
    [StagedRead] models. *)

From S2P Require Import Prelude RustStd Types Tree TreeStore Object Contribution ObjectStore Store Graph Cap History Merge Overlay Namespace Catalog Refs Sessions CatAudit Events CatalogInv Publish Staging Authority Gc Plane Forge Growth Receipts Workspace WorkspaceReads Checkin Integration Seal Sound Api Repository Import.

(** ** Names that a file system would merge *)

Record ExportOptions := mkExportOptions { allow_name_collisions : bool }.

(** [str::to_lowercase] and [nfc] of the [unicode_normalization] crate. *)
Class UnicodeTables := { to_lowercase : str -> str; nfc : str -> str }.

Section names.
Context `{UT : UnicodeTables}.

Definition fold_key (name : str) : str := nfc (to_lowercase name).

Definition collision_kind (a b : str) : str :=
  if bytes_eqb (nfc a) (nfc b) then bs "Unicode canonical equivalence (NFC/NFD)"
  else if bytes_eqb (to_lowercase a) (to_lowercase b) then bs "case folding"
  else bs "case folding combined with Unicode canonical equivalence".

Definition collision (first name : str) : Error :=
  Invalid (bs "export refused: in {dir} the distinct names {} and {} collide under " ++ collision_kind first name).

(** [seen] maps a key to the last name with it. *)
Fixpoint check_names (seen : gmap str str) (names : list str) : Result unit :=
  match names with
  | [] => Ok tt
  | name :: names' =>
      match seen !! fold_key name with
      | Some first => Err (collision first name)
      | None => check_names (<[fold_key name := name]> seen) names'
      end
  end.

Definition check_sibling_names (es : list TreeEntry) : Result unit := check_names ∅ (e_name <$> es).
End names.

(** ** The archive and where it is written *)

(** What [Header::new_gnu] is told. *)
Record Header := mkHeader { hd_dir : bool; hd_mode : Z; hd_mtime : Z; hd_uid : Z; hd_gid : Z; hd_username : str; hd_groupname : str; hd_size : Z }.

Record Member := mkMember { mb_header : Header; mb_path : str; mb_data : bytes }.

Definition dir_member (prefix : str) : Member := mkMember (mkHeader true 493 0 0 0 [] [] 0) (prefix ++ bs "/") [].

Definition file_member (path : str) (exec : bool) (data : bytes) : Member :=
  mkMember (mkHeader false (if exec then 493 else 420) 0 0 0 [] [] (len data)) path data.

(** A file that holds an archive: its members, and whether it was ended. *)
Record Archive := mkArchive { ar_members : list Member; ar_ended : bool }.

Record Out := mkOut { o_files : gmap HPath Archive; o_calls : nat }.

(** The file system of the caller: any call may fail, and then does nothing. *)
Section out.
Context {St : Type} (fails : nat -> bool).

Abbreviation exp := (stateM Error (Forge St * Out)).

Definition syscall {A} (act : gmap HPath Archive -> A * gmap HPath Archive) : exp A := fun '(f, o) =>
  if fails (o_calls o) then (Err (Io (bs "{e}")), (f, mkOut (o_files o) (S (o_calls o))))
  else let '(a, files) := act (o_files o) in (Ok a, (f, mkOut files (S (o_calls o)))).

(** The directories it makes are not in the model: [o_files] holds files. *)
Definition create_dir_all : exp unit := syscall (fun files => (tt, files)).
Definition File_create (p : HPath) : exp unit := syscall (fun files => (tt, <[p := mkArchive [] false]> files)).
Definition append_data (p : HPath) (m : Member) : exp unit :=
  syscall (fun files => (tt, alter (fun a => mkArchive (ar_members a ++ [m]) (ar_ended a)) p files)).
Definition Builder_finish (p : HPath) : exp unit := syscall (fun files => (tt, alter (fun a => mkArchive (ar_members a) true) p files)).
Definition rename (from to : HPath) : exp unit :=
  syscall (fun files => (tt, match files !! from with Some a => <[to := a]> (delete from files) | None => files end)).
Definition remove_file (p : HPath) : exp unit := syscall (fun files => (tt, delete p files)).

(** [let _ = remove_file(..)]. *)
Definition ignored (m : exp unit) : exp unit := fun s => match m s with (Err _, s') => (Ok tt, s') | r => r end.
End out.

Definition tmp_path (out : HPath) (ulid : str) : HPath :=
  match rev out with
  | [] => [bs ".partial-" ++ ulid]
  | name :: parent => rev parent ++ [name ++ bs ".partial-" ++ ulid]
  end.

(** The payload of a blob, read through the hashing reader and closed with
    [finish]. *)
Class StagedOutput (St : Type) := staged_payload : ObjectId -> stateM Error St bytes.

(** ** The export *)

Section export.
Context {St B : Type} `{R : Repo St B} `{SO : StagedOutput St} `{UT : UnicodeTables} (fails : nat -> bool).

Abbreviation exp := (stateM Error (Forge St * Out)).

(** The whole payload is read before it is appended; the code hands the reader
    to the builder, which copies as it reads, so a payload that turns out wrong
    leaves part of a member in the temporary file, which is then removed. *)
Definition write_blob (tmp : HPath) (path : str) (e : TreeEntry) : exp unit :=
  data ← on_forge (on_store (staged_payload (e_id e)));
  append_data fails tmp (file_member path (e_exec e) data).

Fixpoint write_tree (fuel : nat) (tmp : HPath) (opts : ExportOptions) (prefix : str) (tree : ObjectId) : exp unit :=
  match fuel with
  | O => panic
  | S fuel' =>
      t ← on_forge (on_store (get_tree tree));
      _ ← (if allow_name_collisions opts then mret tt else pure (check_sibling_names (entries t)));
      _ ← (if is_nil prefix then mret tt else append_data fails tmp (dir_member prefix));
      m_fold (fun _ e =>
          let path := child_path prefix (e_name e) in
          match e_kind e with
          | KTree => write_tree fuel' tmp opts path (e_id e)
          | KBlob => write_blob tmp path e
          end) tt (entries t)
  end.

Definition build (fuel : nat) (tmp : HPath) (opts : ExportOptions) (tree : ObjectId) : exp unit :=
  _ ← File_create fails tmp;
  _ ← write_tree fuel tmp opts [] tree;
  Builder_finish fails tmp.

(** [match result]: the archive appears whole or not at all. *)
Definition into_place (tmp out : HPath) (m : exp unit) : exp unit := fun s =>
  match m s with
  | (Ok _, s) => rename fails tmp out s
  | (Err e, s) => (_ ← ignored (remove_file fails tmp); throw e) s
  | (Panic, s) => (Panic, s)
  end.

Definition export_tree (fuel : nat) (ulid : str) (opts : ExportOptions) (tree : ObjectId) (out : HPath) : exp unit :=
  _ ← (if bool_decide (removelast out = []) then mret tt else create_dir_all fails : exp unit);
  let tmp := tmp_path out ulid in
  into_place tmp out (build fuel tmp opts tree).

(** [if let Ok((.., c)) = self.peel_commit(spec)]. *)
Definition resolve_tree (spec : str) : stateM Error (Forge St) ObjectId := fun f =>
  match peel_commit spec f with
  | (Ok (_, c), f) => (Ok (c_tree c), f)
  | (Panic, f) => (Panic, f)
  | (Err _, f) =>
      (oid ← resolve_spec_oid spec;
       ty ← on_store (repo_object_type oid);
       match ty with
       | TTree => mret oid
       | TSnapshot => s ← on_store (repo_get_snapshot oid); mret (s_tree s)
       | _ => throw (Invalid (bs "cannot export"))
       end) f
  end.

Definition export_tar_with `{HM : Hmac} (fuel : nat) (key : bytes) (now : Z) (ulid : str) (cap : Cap) (spec : str) (out : HPath) (opts : ExportOptions) : exp unit :=
  _ ← pure (check_spec_read key now cap spec);
  tree ← on_forge (resolve_tree spec);
  export_tree fuel ulid opts tree out.

Definition export_tar `{HM : Hmac} (fuel : nat) (key : bytes) (now : Z) (ulid : str) (cap : Cap) (spec : str) (out : HPath) : exp unit :=
  export_tar_with fuel key now ulid cap spec out (mkExportOptions false).
End export.

(** The reader answers the payload of the object, or fails; [sp_fault]: the
    storage failed.  [StagedRead] proves the first part for any descriptor. *)
Class StagedLaws (St B : Type) `{RL : RepoLaws St B} `{SO : !StagedOutput St} := {
  sp_fault : Error -> Prop;
  sp_payload id s : rp_inv s -> wp (staged_payload id) s (fun r s' =>
    rp_inv s' /\ rp_view s' = rp_view s /\ (rp_writable s -> rp_writable s') /\
    match r with
    | Ok data => exists o, rp_view s !! id = Some o /\ Blob_decode o = Ok (mkBlob data)
    | Err e => sp_fault e \/ forall o data, rp_view s !! id = Some o -> Blob_decode o <> Ok (mkBlob data)
    | Panic => False
    end)
}.

(** ** Lemmas: names *)

Section names.
Context `{UT : UnicodeTables}.

Definition apart (names : list str) : Prop := NoDup (fold_key <$> names).

Lemma check_names_spec names : forall seen,
  match check_names seen names with
  | Ok _ => apart names /\ forall n, n ∈ names -> seen !! fold_key n = None
  | Err e => (exists first name, e = collision first name) /\ ~ (apart names /\ forall n, n ∈ names -> seen !! fold_key n = None)
  | Panic => False
  end.
Proof.
  unfold apart. induction names as [|n names IH]; intros seen; cbn [check_names].
  { split; [constructor|]. by intros n Hn%elem_of_nil. }
  destruct (seen !! fold_key n) as [first|] eqn:E.
  { split; [by exists first, n|]. intros [_ H]. assert (seen !! fold_key n = None) by (apply H; by left). congruence. }
  specialize (IH (<[fold_key n := n]> seen)).
  assert ((NoDup (fold_key <$> names) /\ (forall m, m ∈ names -> <[fold_key n := n]> seen !! fold_key m = None)) <->
    (NoDup (fold_key <$> n :: names) /\ forall m, m ∈ n :: names -> seen !! fold_key m = None)) as Hiff.
  { rewrite fmap_cons, NoDup_cons, list_elem_of_fmap. split.
    - intros [Hn Hm]. split; [split; [|done]|].
      + intros (y & Ey & Hy). specialize (Hm y Hy). rewrite <- Ey in Hm. by rewrite lookup_insert_eq in Hm.
      + intros m [->|Hin]%elem_of_cons; [done|]. by apply Hm, lookup_insert_None in Hin as [? _].
    - intros [[Hy Hn] Hm]. split; [done|]. intros m Hin. apply lookup_insert_None. split; [apply Hm; by right|].
      intros Em. apply Hy. by exists m. }
  destruct (check_names _ names); [by apply Hiff| |done]. split; [apply IH|]. rewrite <- Hiff. apply IH.
Qed.

Lemma check_sibling_names_spec es :
  match check_sibling_names es with
  | Ok _ => apart (e_name <$> es)
  | Err e => ~ apart (e_name <$> es)
  | Panic => False
  end.
Proof.
  unfold check_sibling_names. pose proof (check_names_spec (e_name <$> es) ∅) as H. destruct (check_names ∅ _); [apply H| |done].
  intros Ha. by apply (proj2 H).
Qed.
End names.

(** ** Lemmas: what an archive of a tree holds *)

Section listing.
Context {St B : Type} `{RL : RepoLaws St B} `{UT : UnicodeTables}.
Implicit Types (f : Forge St).

(** From the tree [id] the names [p] lead to the tree [t]. *)
Inductive tree_in (s : St) : ObjectId -> list str -> Tree -> Prop :=
| tree_here id t : ts_holds s id t -> tree_in s id [] t
| tree_below id t n e p t' : ts_holds s id t -> find_entry (entries t) n = Some e -> e_kind e = KTree -> tree_in s (e_id e) p t' -> tree_in s id (n :: p) t'.

Definition member_of f (path : list str) (id : ObjectId) (m : Member) : Prop :=
  (exists p i x data, file_in (store f) id p (i, x) /\ blob_of f i data /\ m = file_member (join (bs "/") (path ++ p)) x data) \/
  (exists p t, tree_in (store f) id p t /\ path ++ p <> [] /\ m = dir_member (join (bs "/") (path ++ p))).

(** [ms] are the members of the tree [id], put below [path]. *)
Record listing f (allow : bool) (path : list str) (id : ObjectId) (ms : list Member) : Prop := mk_listing {
  ls_members m : m ∈ ms <-> member_of f path id m;
  ls_nodup : NoDup (mb_path <$> ms);
  ls_blobs p i x : file_in (store f) id p (i, x) -> exists data, blob_of f i data;
  ls_apart : allow = false -> forall p t, tree_in (store f) id p t -> apart (e_name <$> entries t)
}.

Definition entry_listing f (allow : bool) (path : list str) (e : TreeEntry) (ms : list Member) : Prop :=
  match e_kind e with
  | KBlob => exists data, blob_of f (e_id e) data /\ ms = [file_member (join (bs "/") (path ++ [e_name e])) (e_exec e) data]
  | KTree => listing f allow (path ++ [e_name e]) (e_id e) ms
  end.

Definition entry_member f (path : list str) (e : TreeEntry) (m : Member) : Prop :=
  match e_kind e with
  | KBlob => exists data, blob_of f (e_id e) data /\ m = file_member (join (bs "/") (path ++ [e_name e])) (e_exec e) data
  | KTree => member_of f (path ++ [e_name e]) (e_id e) m
  end.

Lemma member_of_cons f path id t m : f_inv f -> ts_holds (store f) id t ->
  member_of f path id m <-> (path <> [] /\ m = dir_member (join (bs "/") path)) \/ exists e, e ∈ entries t /\ entry_member f path e m.
Proof.
  intros Hi Ht. pose proof (ts_holds_wf (store f) _ _ Hi Ht) as Hwf. unfold entry_member, member_of. split.
  - intros [(p & i & x & data & Hf & Hb & ->)|(p & u & Hu & Hp & ->)].
    + right. inversion Hf as [? t' n e Ht' Hn Hk|? t' n e q ? Ht' Hn Hk Hq]; subst; (assert (t' = t) as -> by exact (ts_holds_fun (store f) _ _ _ Hi Ht' Ht));
        apply find_entry_some in Hn as [He <-]; exists e; (split; [done|]); rewrite Hk; [by exists data|].
      left. exists q, i, x, data. by rewrite <- app_assoc.
    + inversion Hu as [? t' Ht'|? t' n e q ? Ht' Hn Hk Hq]; subst; [left; by rewrite app_nil_r in *|right].
      assert (t' = t) as -> by exact (ts_holds_fun (store f) _ _ _ Hi Ht' Ht). apply find_entry_some in Hn as [He <-]. exists e. split; [done|]. rewrite Hk.
      right. exists q, u. by rewrite <- app_assoc.
  - intros [[Hp ->]|(e & He & Hm)]; [right; exists [], t; rewrite app_nil_r; split_and!; [by constructor|done..]|].
    pose proof (find_entry_sorted _ _ e (wf_sorted _ Hwf) He eq_refl) as Hn. destruct (e_kind e) eqn:Hk.
    + destruct Hm as (data & Hb & ->). left. exists [e_name e], (e_id e), (e_exec e), data. split_and!; [by eapply file_here|done..].
    + destruct Hm as [(p & i & x & data & Hf & Hb & ->)|(p & u & Hu & Hp & ->)].
      * left. exists (e_name e :: p), i, x, data. rewrite <- app_assoc. split_and!; [by eapply file_below|done..].
      * right. exists (e_name e :: p), u. rewrite <- app_assoc in *. split_and!; [by eapply tree_below|done..].
Qed.

Lemma tree_in_plain f id p t : f_inv f -> tree_in (store f) id p t -> Forall plain p.
Proof.
  intros Hi. induction 1 as [|id t n e p t' Ht Hn Hk Hp IH]; [constructor|]. constructor; [|done].
  apply ts_holds_wf in Ht as [Hw _]; [|done]. apply find_entry_some in Hn as [He <-]. rewrite Forall_forall in Hw. by apply valid_name_plain, Hw.
Qed.

(** *** No member is listed twice *)

Lemma split_dir (p : list str) : Forall plain p -> p <> [] -> split_byte "/"%byte (join (bs "/") p ++ bs "/") = p ++ [[]].
Proof. intros Hp Hne. change (join (bs "/") p ++ bs "/") with (join (bs "/") p ++ "/"%byte :: []). rewrite split_byte_cat, split_join by done. done. Qed.

(** The parts of a member's path. *)
Definition parts (m : Member) : list str := split_byte "/"%byte (mb_path m).

Lemma member_parts f path id m : f_inv f -> Forall plain path -> member_of f path id m ->
  exists q, parts m = path ++ q /\ q <> [].
Proof.
  intros Hi Hpl [(p & i & x & data & Hf & _ & ->)|(p & t & Ht & Hp & ->)]; unfold parts; cbn [mb_path file_member dir_member].
  - destruct (file_in_plain (store f) id p (i, x)) as [Hne Hp]; [done..|]. exists p. rewrite split_join; [done|by apply Forall_app|by destruct path].
  - pose proof (tree_in_plain f _ _ _ Hi Ht) as Hp'. exists (p ++ [[]]). rewrite split_dir, app_assoc; [|by apply Forall_app|done]. split; [done|]. by destruct p.
Qed.

Lemma entry_parts f path e m : f_inv f -> Forall plain path -> plain (e_name e) -> entry_member f path e m ->
  exists q, parts m = path ++ e_name e :: q.
Proof.
  intros Hi Hpl Hn. unfold entry_member. destruct (e_kind e).
  - intros (data & _ & ->). exists []. unfold parts. cbn [mb_path file_member]. rewrite split_join; [done| |by destruct path].
    apply Forall_app. split; [done|]. by constructor.
  - intros Hm. destruct (member_parts f (path ++ [e_name e]) (e_id e) m) as (q & -> & _); [done| |done|by exists q; rewrite <- app_assoc].
    apply Forall_app. split; [done|]. by constructor.
Qed.

Lemma entry_listing_members f allow path e ms : entry_listing f allow path e ms -> NoDup (mb_path <$> ms) /\ forall m, m ∈ ms <-> entry_member f path e m.
Proof.
  unfold entry_listing, entry_member. destruct (e_kind e).
  - intros (data & Hb & ->). split; [apply NoDup_singleton|]. intros m. rewrite list_elem_of_singleton. split; [intros ->; by exists data|].
    intros (data' & Hb' & ->). destruct Hb as (o & Ho & Hd), Hb' as (o' & Ho' & Hd'). by assert (data' = data) as -> by congruence.
  - intros [Hm Hn _ _]. by split.
Qed.

Lemma members_nodup f allow path es mss : f_inv f -> Forall plain path -> Forall plain (e_name <$> es) -> NoDup (e_name <$> es) ->
  Forall2 (entry_listing f allow path) es mss ->
  NoDup (mb_path <$> concat mss) /\ forall m, m ∈ concat mss <-> exists e, e ∈ es /\ entry_member f path e m.
Proof.
  intros Hi Hpl Hp Hn Hall. induction Hall as [|e ms es mss He _ IH]; cbn [concat].
  { split; [constructor|]. intros m. rewrite elem_of_nil. split; [done|]. by intros (e & He%elem_of_nil & _). }
  rewrite fmap_cons in Hp, Hn. apply Forall_cons in Hp as [Hpe Hp]. apply NoDup_cons in Hn as [Hne Hn]. destruct (IH Hp Hn) as [Hd Hm]. clear IH.
  apply entry_listing_members in He as [Hed Hem]. split.
  - rewrite fmap_app. apply NoDup_app. split; [done|]. split; [|done]. intros k (m & -> & H1%Hem)%list_elem_of_fmap (m' & E & (e' & He' & H2)%Hm)%list_elem_of_fmap.
    apply entry_parts in H1 as [q Eq]; [|done..]. apply entry_parts in H2 as [q' Eq']; [|done|done|rewrite Forall_forall in Hp; by apply Hp, list_elem_of_fmap_2].
    unfold parts in Eq, Eq'. rewrite E, Eq' in Eq. apply app_inv_head in Eq. injection Eq as Hname _. apply Hne. rewrite <- Hname. by apply list_elem_of_fmap_2.
  - intros m. rewrite elem_of_app, Hem, Hm. split.
    + intros [H|(e' & ? & ?)]; [exists e; split; [by left|done]|exists e'; split; [by right|done]].
    + intros (e' & [->|He']%elem_of_cons & H); [by left|right; by exists e'].
Qed.

Definition dir_members (path : list str) : list Member := if is_nil (join (bs "/") path) then [] else [dir_member (join (bs "/") path)].

Lemma is_nil_join (path : list str) : Forall plain path -> is_nil (join (bs "/") path) = bool_decide (path = []).
Proof.
  intros Hp. unfold is_nil. destruct path as [|n q]; [done|]. rewrite !bool_decide_eq_false_2; [done..|]. by apply join_nonempty.
Qed.

Lemma listing_intro f allow path id t mss : f_inv f -> Forall plain path -> ts_holds (store f) id t ->
  Forall2 (entry_listing f allow path) (entries t) mss -> (allow = false -> apart (e_name <$> entries t)) ->
  listing f allow path id (dir_members path ++ concat mss).
Proof.
  intros Hi Hpl Ht Hall Hap. pose proof (ts_holds_wf (store f) _ _ Hi Ht) as Hwf.
  assert (Forall plain (e_name <$> entries t)) as Hpn. { apply Forall_fmap. eapply Forall_impl; [apply Hwf|]. intros e. apply valid_name_plain. }
  destruct (members_nodup f allow path (entries t) mss Hi Hpl Hpn (strictly_sorted_nodup _ _ (wf_sorted _ Hwf)) Hall) as [Hd Hm].
  unfold dir_members. rewrite is_nil_join by done. split.
  - intros m. rewrite (member_of_cons f path id t m Hi Ht), elem_of_app, Hm. destruct (decide (path = [])) as [->|Hne].
    + rewrite bool_decide_eq_true_2 by done. rewrite elem_of_nil. naive_solver.
    + rewrite bool_decide_eq_false_2 by done. rewrite list_elem_of_singleton. naive_solver.
  - case_bool_decide as Hne; [done|]. cbn [app fmap list_fmap]. apply NoDup_cons. split; [|done].
    intros (m & E & (e & He & H)%Hm)%list_elem_of_fmap. rewrite Forall_forall in Hpn. specialize (Hpn _ (list_elem_of_fmap_2 e_name _ _ He)).
    apply entry_parts in H as [q Eq]; [|done..]. unfold parts in Eq. rewrite <- E in Eq. cbn [mb_path dir_member] in Eq. rewrite split_dir in Eq by done.
    apply app_inv_head in Eq. injection Eq as Hn _. by destruct Hpn.
  - intros p i x Hf. inversion Hf as [? t' n e Ht' Hn Hk|? t' n e q ? Ht' Hn Hk Hq]; subst; (assert (t' = t) as -> by exact (ts_holds_fun (store f) _ _ _ Hi Ht' Ht));
      apply find_entry_some in Hn as [He _]; apply list_elem_of_lookup in He as [j Hej]; destruct (Forall2_lookup_l _ _ _ _ _ Hall Hej) as (ms & _ & Hl);
      unfold entry_listing in Hl; rewrite Hk in Hl; [destruct Hl as (data & Hb & _); by exists data|by eapply (ls_blobs _ _ _ _ _ Hl)].
  - intros Ha p u Hu. inversion Hu as [? t' Ht'|? t' n e q ? Ht' Hn Hk Hq]; subst.
    { assert (u = t) as -> by exact (ts_holds_fun (store f) _ _ _ Hi Ht' Ht). by apply Hap. }
    assert (t' = t) as -> by exact (ts_holds_fun (store f) _ _ _ Hi Ht' Ht).
    apply find_entry_some in Hn as [He _]. apply list_elem_of_lookup in He as [i Hei]. destruct (Forall2_lookup_l _ _ _ _ _ Hall Hei) as (ms & _ & Hl).
    unfold entry_listing in Hl. rewrite Hk in Hl. by eapply (ls_apart _ _ _ _ _ Hl).
Qed.
End listing.

(** ** Lemmas: writing an archive *)

Section writing.
Context {St B : Type} `{SL : StagedLaws St B} `{UT : UnicodeTables} (fails : nat -> bool) (f0 : Forge St) (tmp : HPath) (opts : ExportOptions).
Implicit Types (f : Forge St) (o : Out).

Abbreviation exp := (stateM Error (Forge St * Out)).
Abbreviation allow := (allow_name_collisions opts).

(** The export of [id] has no reason to fail but the storage. *)
Record exportable (id : ObjectId) : Prop := mk_exportable {
  ex_calls n : fails n = false;
  ex_blobs p i x : file_in (store f0) id p (i, x) -> exists data, blob_of f0 i data;
  ex_apart : allow = false -> forall p t, tree_in (store f0) id p t -> apart (e_name <$> entries t)
}.

(** The repository is only read; the archive in [tmp], which held [ms0], has
    grown by members that satisfy [L]; no other file has changed. *)
Definition wrote o (ms0 : list Member) (L : list Member -> Prop) (good : Prop) (r : Result unit) (s : Forge St * Out) : Prop :=
  same f0 s.1 /\ (forall q, q <> tmp -> o_files s.2 !! q = o_files o !! q) /\
  match r with
  | Ok _ => exists ms, o_files s.2 !! tmp = Some (mkArchive (ms0 ++ ms) false) /\ L ms
  | Err e => good -> sp_fault e
  | Panic => False
  end.

Definition writes (m : exp unit) (L : list Member -> Prop) (good : Prop) : Prop := forall f o ms0,
  same f0 f -> o_files o !! tmp = Some (mkArchive ms0 false) -> wp m (f, o) (wrote o ms0 L good).

Lemma writes_bind (m : exp unit) (k : unit -> exp unit) (L1 L2 L : list Member -> Prop) (g1 g2 g : Prop) :
  writes m L1 g1 -> (forall ms1, L1 ms1 -> writes (k tt) L2 g2) -> (g -> g1) -> (g -> g2) -> (forall ms1 ms2, L1 ms1 -> L2 ms2 -> L (ms1 ++ ms2)) ->
  writes (m ≫= k) L g.
Proof.
  intros Hm Hk Hg1 Hg2 HL f o ms0 Hs Ht. apply wp_bind. eapply wp_mono; [by apply Hm|]. intros r [f1 o1] (S1 & F1 & Hr). cbn [fst snd] in *.
  destruct r as [[]|e|]; [|split; [done|split; [done|auto]]|done]. destruct Hr as (ms1 & T1 & H1).
  eapply wp_mono; [by apply (Hk ms1 H1)|]. intros r [f2 o2] (S2 & F2 & Hr). cbn [fst snd] in *. split; [done|]. split.
  { intros q Hq. cbn. by rewrite F2, F1. }
  destruct r as [[]|e|]; [|auto|done]. destruct Hr as (ms2 & T2 & H2). exists (ms1 ++ ms2). rewrite app_assoc. auto.
Qed.

Lemma writes_mono (m : exp unit) (L L' : list Member -> Prop) (g g' : Prop) : writes m L g -> (forall ms, L ms -> L' ms) -> (g' -> g) -> writes m L' g'.
Proof.
  intros Hm HL Hg f o ms0 Hs Ht. eapply wp_mono; [by apply Hm|]. intros r s (S1 & F1 & Hr). split; [done|]. split; [done|].
  destruct r as [[]|e|]; [|auto|done]. destruct Hr as (ms & T & H1). eauto.
Qed.

Lemma writes_nothing : writes (mret tt) (fun ms => ms = []) True.
Proof. intros f o ms0 Hs Ht. apply wp_ret. split; [done|]. split; [done|]. exists []. by rewrite app_nil_r. Qed.

Lemma writes_check (r : Result unit) (P g : Prop) : match r with Ok _ => P | Err _ => ~ P | Panic => False end -> (g -> P) ->
  writes (pure r) (fun ms => ms = [] /\ P) g.
Proof.
  intros Hr Hg f o ms0 Hs Ht. apply wp_pure. split; [done|]. split; [done|]. destruct r as [[]|e|]; [|by intros H%Hg|done].
  exists []. by rewrite app_nil_r.
Qed.

Lemma writes_append m : writes (append_data fails tmp m) (fun ms => ms = [m]) (forall n, fails n = false).
Proof.
  intros f o ms0 Hs Ht. unfold wp, append_data, syscall. destruct (fails (o_calls o)) eqn:E.
  - split; [done|]. split; [done|]. intros Hn. congruence.
  - split; [done|]. cbn [fst snd o_files]. split; [intros q Hq; by rewrite lookup_alter_ne|].
    exists [m]. split; [|done]. by rewrite lookup_alter_eq, Ht.
Qed.

Lemma writes_blob path e : Forall plain path ->
  writes (write_blob fails tmp (child_path (join (bs "/") path) (e_name e)) e)
    (fun ms => exists data, blob_of f0 (e_id e) data /\ ms = [file_member (join (bs "/") (path ++ [e_name e])) (e_exec e) data])
    ((forall n, fails n = false) /\ exists data, blob_of f0 (e_id e) data).
Proof.
  intros Hp f o ms0 Hs Ht. unfold write_blob. rewrite child_path_join by done. apply wp_bind, wp_on_forge, wp_on_store.
  eapply wp_mono; [apply sp_payload, Hs|]. intros r s (I & V & W & Hr).
  assert (same f0 (mkForge s (meta f))) as S1.
  { split; [exact I|unfold f_view; cbn; rewrite V; apply Hs|apply Hs|]. intros Hw. by apply W, Hs. }
  assert (rp_view (store f) = f_view f0) as V0 by apply Hs. rewrite V0 in Hr.
  destruct r as [data|e'|]; [| |done].
  - eapply wp_mono; [by apply writes_append|]. intros r s' (S2 & F2 & Hr'). split; [done|]. split; [done|].
    destruct r as [[]|e'|]; [|by intros [Hn _]; apply Hr'|done]. destruct Hr' as (ms & T & ->). eauto.
  - split; [done|]. split; [done|]. intros [_ (data & o' & Ho & Hd)]. destruct Hr as [Hf|Hr]; [done|]. by destruct (Hr o' data Ho).
Qed.

Lemma writes_entries path (step : TreeEntry -> exp unit) (good : TreeEntry -> Prop) es :
  (forall e, e ∈ es -> writes (step e) (entry_listing f0 allow path e) (good e)) ->
  writes (m_fold (fun _ e => step e) tt es) (fun ms => exists mss, ms = concat mss /\ Forall2 (entry_listing f0 allow path) es mss) (forall e, e ∈ es -> good e).
Proof.
  induction es as [|e es IH]; intros Hstep; cbn [m_fold].
  { eapply writes_mono; [apply writes_nothing| |done]. intros ms ->. by exists []. }
  apply (writes_bind _ _ (entry_listing f0 allow path e)
    (fun ms => exists mss, ms = concat mss /\ Forall2 (entry_listing f0 allow path) es mss) _ (good e) (forall e, e ∈ es -> good e)).
  - apply Hstep. by left.
  - intros _ _. apply IH. intros e' He'. apply Hstep. by right.
  - intros Hg. apply Hg. by left.
  - intros Hg e' He'. apply Hg. by right.
  - intros ms1 ms2 H1 (mss & -> & H2). exists (ms1 :: mss). split; [done|by constructor].
Qed.

Lemma writes_tree fuel : forall n path id, complete (fun _ => True) (store f0) n id -> (n <= fuel)%nat -> Forall plain path -> f_inv f0 ->
  writes (write_tree fails fuel tmp opts (join (bs "/") path) id) (listing f0 allow path id) (exportable id).
Proof.
  induction fuel as [|fuel IH]; intros [|n] path id Hc Hn Hp Hi; [done|lia|done|]. destruct Hc as (t & Ht & _ & Hc).
  pose proof (ts_holds_wf (store f0) _ _ Hi Ht) as Hwf.
  intros f o ms0 Hs Htmp. cbn [write_tree]. apply wp_bind, wp_on_forge. eapply wp_mono; [apply (denotes_store _ _ (rp_get_tree id)), Hs|].
  intros r f1 [S1 ->]. assert (same f0 f1) as S01 by by eapply same_trans. rewrite (same_view _ _ Hs).
  destruct Ht as (b & Hb & Hd). unfold object_at. unfold f_view at 1. rewrite Hb. cbn [ok_or]. rewrite bind_of_ok, Hd.
  assert (ts_holds (store f0) id t) as Ht by by exists b.
  match goal with |- wp ?m _ _ => assert (writes m (listing f0 allow path id) (exportable id)) as Hw; [|by apply Hw] end. clear f o ms0 Hs Htmp f1 S1 S01.
  apply (writes_bind _ _ (fun ms => ms = [] /\ (allow = false -> apart (e_name <$> entries t)))
    (fun ms => exists mss, ms = dir_members path ++ concat mss /\ Forall2 (entry_listing f0 allow path) (entries t) mss) _ (exportable id) (exportable id)); [| |done|done|].
  - destruct allow eqn:Ea; [eapply writes_mono; [apply writes_nothing| |done]; by intros ms ->|]. rewrite <- Ea.
    pose proof (check_sibling_names_spec (entries t)) as Hcs.
    eapply writes_mono; [apply (writes_check _ (apart (e_name <$> entries t)) (exportable id) Hcs)|by intros ms [-> H]|done].
    intros [_ _ Hap]. apply (Hap Ea [] t). by constructor.
  - intros _ _. apply (writes_bind _ _ (fun ms => ms = dir_members path)
      (fun ms => exists mss, ms = concat mss /\ Forall2 (entry_listing f0 allow path) (entries t) mss) _ (exportable id) (exportable id)); [| |done|done|].
    + unfold dir_members. destruct (is_nil _); [by eapply writes_mono; [apply writes_nothing|..]|]. eapply writes_mono; [apply writes_append|done|apply ex_calls].
    + intros _ _. eapply writes_mono; [apply (writes_entries path _ (fun e => match e_kind e with KTree => exportable (e_id e) | KBlob => (forall n, fails n = false) /\ exists data, blob_of f0 (e_id e) data end))|done|].
      * intros e He. unfold entry_listing. destruct (e_kind e) eqn:Hk; [by apply writes_blob|].
        rewrite child_path_join by done. apply (IH n); [by apply Hc|lia| |done]. apply Forall_app. split; [done|]. constructor; [|done].
        destruct Hwf as [Hv _]. rewrite Forall_forall in Hv. by apply valid_name_plain, Hv.
      * intros [X1 X2 X3] e He. pose proof (find_entry_sorted _ _ e (wf_sorted _ Hwf) He eq_refl) as Hfe. destruct (e_kind e) eqn:Hk.
        -- split; [done|]. eapply X2. by eapply file_here.
        -- split; [done| |]. { intros p i x Hf. eapply X2. by eapply file_below. } { intros Ha p u Hu. eapply (X3 Ha). by eapply tree_below. }
    + intros ms1 ms2 -> (mss & -> & H2). by exists mss.
  - intros ms1 ms2 [-> Hap] (mss & -> & H2). by apply (listing_intro f0 allow path id t mss).
Qed.
End writing.

(** ** Lemmas: the whole export *)

Lemma tmp_beside out ulid : tmp_path out ulid <> out.
Proof.
  unfold tmp_path. destruct (rev out) as [|n q] eqn:E; apply (f_equal (@rev bytes)) in E; rewrite rev_involutive in E; subst out; [done|].
  cbn [rev]. intros Eq%(app_inj_tail _ _ _ _). destruct Eq as [_ Eq]. apply (f_equal length) in Eq. rewrite length_app in Eq. cbn in Eq. lia.
Qed.

Section exporting.
Context {St B : Type} `{SL : StagedLaws St B} `{UT : UnicodeTables} (fails : nat -> bool) (opts : ExportOptions).
Implicit Types (f : Forge St) (o : Out).

Abbreviation exp := (stateM Error (Forge St * Out)).
Abbreviation allow := (allow_name_collisions opts).

Lemma wp_syscall {A} (act : gmap HPath Archive -> A * gmap HPath Archive) f o (Q : Result A -> Forge St * Out -> Prop) :
  (fails (o_calls o) = true -> forall e, Q (Err e) (f, mkOut (o_files o) (S (o_calls o)))) ->
  (Q (Ok (act (o_files o)).1) (f, mkOut (act (o_files o)).2 (S (o_calls o)))) -> wp (syscall fails act) (f, o) Q.
Proof. intros Hf Hq. unfold wp, syscall. destruct (fails (o_calls o)); [by apply Hf|]. by destruct (act (o_files o)). Qed.

(** The archive of [tree] is complete at [out], or [out] is as it was. *)
Record exported f o (ulid : str) (tree : ObjectId) (out : HPath) (r : Result unit) (s : Forge St * Out) : Prop := mk_exported {
  xp_same : same f s.1;
  xp_others q : q <> out -> q <> tmp_path out ulid -> o_files s.2 !! q = o_files o !! q;
  xp_out : match r with
    | Ok _ => exists ms, o_files s.2 !! out = Some (mkArchive ms true) /\ listing f allow [] tree ms
    | Err e => o_files s.2 !! out = o_files o !! out /\ (exportable fails f opts tree -> sp_fault e)
    | Panic => False
    end;
  xp_tmp : o_files o !! tmp_path out ulid = None -> (forall n, fails n = false) -> o_files s.2 !! tmp_path out ulid = None
}.

(** While the archive is built. *)
Definition building f o (tmp : HPath) (tree : ObjectId) (r : Result unit) (s : Forge St * Out) : Prop :=
  same f s.1 /\ (forall q, q <> tmp -> o_files s.2 !! q = o_files o !! q) /\
  match r with
  | Ok _ => exists ms, o_files s.2 !! tmp = Some (mkArchive ms true) /\ listing f allow [] tree ms
  | Err e => exportable fails f opts tree -> sp_fault e
  | Panic => False
  end.

Lemma build_spec fuel n tmp tree f0 f o : f_inv f0 -> same f0 f -> complete (fun _ => True) (store f0) n tree -> (n <= fuel)%nat ->
  wp (build fails fuel tmp opts tree) (f, o) (building f0 o tmp tree).
Proof.
  intros Hi Hs Hc Hn. unfold build. apply wp_bind. apply wp_syscall; cbn [fst snd].
  { intros Hf e. split; [done|]. split; [done|]. intros [Hx _ _]. by rewrite Hx in Hf. }
  apply wp_bind. eapply wp_mono.
  { apply (writes_tree fails f0 tmp opts fuel n [] tree Hc Hn); [constructor|done|done|]. cbn. by rewrite lookup_insert_eq. }
  cbn [app]. intros r [f1 o1] (S1 & F1 & Hr). cbn [fst snd o_files] in *.
  assert (forall q, q <> tmp -> o_files o1 !! q = o_files o !! q) as F.
  { intros q Hq. by rewrite F1, lookup_insert_ne. }
  destruct r as [[]|e|]; [|done|done]. destruct Hr as (ms & T & Hl). apply wp_syscall; cbn [fst snd].
  - intros Hf e. split; [done|]. split; [done|]. intros [Hx _ _]. by rewrite Hx in Hf.
  - split; [done|]. cbn [snd o_files]. split; [intros q Hq; rewrite lookup_alter_ne by done; by apply F|].
    exists ms. split; [|done]. by rewrite lookup_alter_eq, T.
Qed.

Lemma export_tree_spec fuel n ulid tree out f0 f o : f_inv f0 -> same f0 f -> complete (fun _ => True) (store f0) n tree -> (n <= fuel)%nat ->
  wp (export_tree fails fuel ulid opts tree out) (f, o) (exported f0 o ulid tree out).
Proof.
  intros Hi Hs Hc Hn. unfold export_tree. set (tmp := tmp_path out ulid). assert (tmp <> out) as Hto by apply tmp_beside.
  assert (forall o1, o_files o1 = o_files o -> wp (into_place fails tmp out (build fails fuel tmp opts tree)) (f, o1) (exported f0 o ulid tree out)) as Hb.
  2: { apply wp_bind. case_bool_decide; [by apply wp_ret, Hb|]. apply wp_syscall; cbn [fst snd]; [|by apply Hb]. intros Hf e.
    split; [done|done| |done]. split; [done|]. intros [Hx _ _]. by rewrite Hx in Hf. }
  intros o1 E1. pose proof (build_spec fuel n tmp tree f0 f o1 Hi Hs Hc Hn) as Hw. unfold into_place, wp in *.
  destruct (build fails fuel tmp opts tree (f, o1)) as [r [f2 o2]]. cbn [fst snd] in Hw. destruct Hw as (S2 & F2 & Hr). cbn [fst snd] in *. rewrite E1 in F2.
  destruct r as [[]|e|]; [| |done].
  - destruct Hr as (ms & T & Hl). apply wp_syscall; cbn [fst snd].
    + intros Hf e. split; [done|intros q H1 H2; by apply F2| |intros _ Hx; by rewrite Hx in Hf]. cbn [snd o_files]. split; [by apply F2|].
      intros [Hx _ _]. by rewrite Hx in Hf.
    + rewrite T. split; cbn [fst snd o_files]; [done| | |].
      * intros q H1 H2. rewrite lookup_insert_ne, lookup_delete_ne by done. by apply F2.
      * exists ms. by rewrite lookup_insert_eq.
      * intros _ _. fold tmp. rewrite lookup_insert_ne by done. by rewrite lookup_delete_eq.
  - apply wp_bind. unfold ignored, wp, remove_file, syscall. destruct (fails (o_calls o2)) eqn:Ef; cbn [fst snd].
    + split; cbn [fst snd o_files]; [done|intros q H1 H2; by apply F2|split; [by apply F2|done]|intros _ Hx; by rewrite Hx in Ef].
    + split; unfold throw, pure; cbn [fst snd o_files]; [done| | |intros _ _; fold tmp; cbn; by rewrite lookup_delete_eq].
      * intros q H1 H2. rewrite lookup_delete_ne by done. by apply F2.
      * split; [|done]. rewrite lookup_delete_ne by done. by apply F2.
Qed.

Definition d_resolve_tree (spec : str) v c : Result ObjectId :=
  match d_peel spec v c with
  | Ok (_, k) => Ok (c_tree k)
  | Panic => Panic
  | Err _ =>
      oid ← d_resolve spec v c;
      ty ← type_at v oid;
      match ty with
      | TTree => Ok oid
      | TSnapshot => s ← (b ← object_at v oid; Snapshot_decode b); Ok (s_tree s)
      | _ => Err (Invalid (bs "cannot export"))
      end
  end.

Lemma resolve_tree_denotes spec : denotes (resolve_tree (St:=St) spec) (d_resolve_tree spec).
Proof.
  intros f Hf. pose proof (peel_denotes spec f Hf) as Hp. unfold resolve_tree, d_resolve_tree, wp in *.
  destruct (peel_commit spec f) as [r f1]. cbn [fst snd] in Hp. destruct Hp as [S1 ->].
  destruct (d_peel spec (f_view f) (meta f)) as [[i k]|e|]; [done| |done].
  assert (denotes (St:=St) (oid ← resolve_spec_oid spec;
       ty ← on_store (repo_object_type oid);
       match ty with
       | TTree => mret oid
       | TSnapshot => s ← on_store (repo_get_snapshot oid); mret (s_tree s)
       | _ => throw (Invalid (bs "cannot export"))
       end) (fun v c => oid ← d_resolve spec v c;
      ty ← type_at v oid;
      match ty with
      | TTree => Ok oid
      | TSnapshot => s ← (b ← object_at v oid; Snapshot_decode b); Ok (s_tree s)
      | _ => Err (Invalid (bs "cannot export"))
      end)) as Hd.
  { apply denotes_bind; [apply resolve_denotes|]. intros oid. apply (denotes_bind _ _ (fun v _ => type_at v oid)); [apply denotes_store, rp_object_type|].
    intros ty. destruct ty; try apply (denotes_pure (Err _)); [apply denotes_ret|].
    apply (denotes_bind _ _ (fun v _ => _) (fun s v _ => _)); [apply denotes_store, rp_get_snapshot|]. intros s. apply denotes_ret. }
  specialize (Hd f1 (same_inv _ _ S1)). rewrite (same_view _ _ S1), (same_meta _ _ S1) in Hd. unfold wp in Hd.
  destruct Hd as [S2 ->]. split; [by eapply same_trans|done].
Qed.
End exporting.

Lemma no_panic_check_spec_read key now cap `{HM : Hmac} spec : no_panic (check_spec_read key now cap spec).
Proof.
  unfold check_spec_read. apply no_panic_bind; [auto with forge|]. intros [n|i] _.
  - apply no_panic_check.
  - destruct (has_unrestricted_ref_scope cap); [apply no_panic_check|done].
Qed.

Lemma no_panic_read {A} v id (decode : bytes -> Result A) : (forall b, no_panic (decode b)) -> no_panic (b ← object_at v id; decode b).
Proof. intros Hd. apply no_panic_bind; [unfold object_at; by destruct (v !! id)|auto]. Qed.

Lemma no_panic_d_resolve_tree spec v c : no_panic (d_resolve_tree spec v c).
Proof.
  assert (no_panic (d_peel spec v c)) as Hp.
  { unfold d_peel. apply no_panic_bind; [apply no_panic_d_resolve|]. intros oid _. apply no_panic_bind; [apply no_panic_type_at|]. intros ty _.
    destruct ty; try done.
    - apply no_panic_bind; [apply no_panic_read; auto with forge|done].
    - apply no_panic_bind; [apply no_panic_read; auto with forge|]. intros s _. apply no_panic_bind; [apply no_panic_read; auto with forge|done]. }
  unfold d_resolve_tree. destruct (d_peel spec v c) as [[]| |]; [done| |done].
  apply no_panic_bind; [apply no_panic_d_resolve|]. intros oid _. apply no_panic_bind; [apply no_panic_type_at|]. intros ty _.
  destruct ty; try done. apply no_panic_bind; [apply no_panic_read; auto with forge|done].
Qed.

Lemma import_commit_read f i (k : Commit) b : wf_commit k -> Commit_encode k = Ok b -> f_view f !! i = Some b -> (b ← object_at (f_view f) i; Commit_decode b) = Ok k.
Proof. intros Hw He Hv. unfold object_at. rewrite Hv. cbn [ok_or]. rewrite bind_of_ok. by apply Commit_decode_spec. Qed.

Section export_spec.
Context {St B : Type} `{SL : StagedLaws St B} `{UT : UnicodeTables} `{HM : Hmac}.

Lemma export_spec fails key now ulid cap spec out opts (f : Forge St) o : f_inv f ->
  (forall tree, d_resolve_tree spec (f_view f) (meta f) = Ok tree -> closed (store f) tree) ->
  exists n, forall fuel, (n <= fuel)%nat -> wp (export_tar_with fails fuel key now ulid cap spec out opts) (f, o) (fun r s =>
    match check_spec_read key now cap spec, d_resolve_tree spec (f_view f) (meta f) with
    | Ok _, Ok tree => exported fails opts f o ulid tree out r s
    | _, _ => same f s.1 /\ s.2 = o /\ exists e, r = Err e
    end).
Proof.
  intros Hi Hc. destruct (d_resolve_tree spec (f_view f) (meta f)) as [tree|e|] eqn:E.
  - destruct (Hc tree eq_refl) as [n Hn]. exists n. intros fuel Hfuel. unfold export_tar_with. apply wp_bind, wp_pure.
    destruct (check_spec_read key now cap spec) as [[]|e|] eqn:Ec; [| |by destruct (no_panic_check_spec_read key now cap spec)].
    2: { split; [by apply same_refl|]. split; [done|by exists e]. }
    apply wp_bind, wp_on_forge. eapply wp_mono; [by apply resolve_tree_denotes|]. intros r f1 [S1 ->]. rewrite E.
    by apply (export_tree_spec fails opts fuel n ulid tree out f f1 o).
  - exists 0%nat. intros fuel _. unfold export_tar_with. apply wp_bind, wp_pure.
    assert (forall e' f1, same f f1 -> match check_spec_read key now cap spec, @Err Error ObjectId e with Ok _, Ok tree => exported fails opts f o ulid tree out (Err e') (f1, o) | _, _ => same f f1 /\ o = o /\ exists e'', @Err Error unit e' = Err e'' end) as Hq.
    { intros e' f1 S1. assert (same f f1 /\ o = o /\ exists e'', @Err Error unit e' = Err e'') as H by (split; [done|]; split; [done|]; by exists e'). by destruct (check_spec_read key now cap spec). }
    destruct (check_spec_read key now cap spec) as [[]|e'|] eqn:Ec; [|by apply Hq, same_refl|by destruct (no_panic_check_spec_read key now cap spec)].
    apply wp_bind, wp_on_forge. eapply wp_mono; [by apply resolve_tree_denotes|]. intros r f1 [S1 ->]. rewrite E. by apply Hq.
  - by destruct (no_panic_d_resolve_tree spec (f_view f) (meta f)).
Qed.
End export_spec.

(** A reader whose files nobody touches answers what [get_blob] answers. *)
Definition quiet_reader {St B} `{R : Repo St B} : StagedOutput St := repo_get_blob_data.

Program Definition quiet_laws {St B} `{RL : RepoLaws St B} : @StagedLaws St B _ _ quiet_reader := {| sp_fault _ := False |}.
Next Obligation.
  intros St B R RL id s Hs. eapply wp_mono; [by apply (rp_get_blob_data id)|]. intros r s' (I & V & W & ->). split_and!; [done..|].
  unfold object_at. destruct (rp_view s !! id) as [b|]; cbn [ok_or]; [|by right]. rewrite bind_of_ok.
  destruct (Blob_decode b) as [[data]|e|] eqn:Hd; [by exists b| |by apply no_panic_Blob_decode in Hd].
  right. intros o data [= <-]. congruence.
Qed.

(** The files of an archive are those of the imported directory. *)
Lemma import_export_files {St B} `{RL : RepoLaws St B} `{UT : UnicodeTables} (fs : HPath -> option Node) (meta_of : HPath -> Meta) (f : Forge St) allow tree root ms :
  f_inv f -> mirrors fs meta_of f tree root true -> listing f allow [] tree ms ->
  forall p exec data, Forall plain p -> file_member (join (bs "/") p) exec data ∈ ms <->
    exists n q, p = n :: q /\ left_out true n = false /\ fs (root ++ p) = Some (NFile data) /\ exec = executable (meta_of (root ++ p)).
Proof.
  intros Hi [_ Hm1 Hm2] [Hl _ _ _] p exec data Hp. rewrite Hl. unfold member_of. split.
  - intros [(p' & i & x & data' & Hf & Hb & E)|(p' & t & _ & _ & E)]; [|discriminate E]. unfold file_member in E. injection E as Hx _ Ej ->.
    destruct (file_in_plain (store f) tree p' (i, x)) as [_ Hp']; [done..|]. apply join_inj in Ej as <-; [|done..].
    destruct (Hm1 p (i, x) Hf) as (data & n & q & E & Hlo & Hfs & Hex & Hb'). exists n, q. split_and!; [done..| |].
    + destruct Hb as (b & Hv & Hd), Hb' as (b' & Hv' & Hd'). cbn [fst] in Hv'. rewrite Hfs. do 2 f_equal. congruence.
    + cbn [snd] in Hex. destruct exec, x; try discriminate Hx; done.
  - intros (n & q & E & Hlo & Hfs & ->). destruct (Hm2 p n q data E Hlo Hfs) as (i & Hf & Hb). left. by exists p, i, (executable (meta_of (root ++ p))), data.
Qed.

(** The commit of an import resolves to its tree. *)
Lemma resolve_import {St B} `{RL : RepoLaws St B} (f : Forge St) spec cid (k : Commit) b : wf_commit k ->
  Commit_encode k = Ok b -> f_view f !! cid = Some b -> d_resolve spec (f_view f) (meta f) = Ok cid ->
  d_resolve_tree spec (f_view f) (meta f) = Ok (c_tree k).
Proof.
  intros Hw He Hv Hs. unfold d_resolve_tree, d_peel. rewrite Hs, bind_of_ok. unfold type_at, object_at. rewrite Hv. cbn [ok_or]. rewrite !bind_of_ok.
  rewrite (Commit_encode_type _ _ He), bind_of_ok. rewrite (proj2 (Commit_decode_spec b k)) by done. done.
Qed.

Lemma import_commit_wf tree previous agent msg ts : str_ok agent -> str_ok msg -> in_u64 ts ->
  wf_commit (mkCommit tree (match previous with Some row => [rc_oid row] | None => [] end) agent msg ts false None).
Proof. intros Ha Hm Ht. split; [destruct previous; by vm_compute|]. split; [exact Ha|split; [exact Hm|exact Ht]]. Qed.

(** A ref of commits in a sound repository names a whole tree. *)
Lemma ref_tree_closed {St B} `{RL : RepoLaws St B} (f : Forge St) name row tree : sound_repo f -> parse_spec name = Ok (SRef name) ->
  Catalog.refs (meta f) !! name = Some row -> rc_kind row = bs "commit" -> d_resolve_tree name (f_view f) (meta f) = Ok tree -> closed (store f) tree.
Proof.
  intros H Hp Hr Hk Ht. destruct (st_refs _ _ (repo_tables f H) name row Hr) as (ty & Hty & Hi). rewrite Hk in Hty.
  injection (Hty : Some TCommit = Some ty) as <-. destruct (type_commit f _ (sr_store _ H) Hi) as (k & (b & Hb & Hd) & Hs).
  pose proof (Commit_decode_spec b k) as [Hiff _]. destruct (Hiff Hd) as [Hw He].
  assert (d_resolve name (f_view f) (meta f) = Ok (rc_oid row)) as Hres by (unfold d_resolve; rewrite Hp, bind_of_ok, Hr; done).
  rewrite (resolve_import f name (rc_oid row) k b Hw He Hb Hres) in Ht. injection Ht as <-. apply Hs.
Qed.

(** ** Claims *)

(** C15: An export puts a whole archive in place or nothing.  Whatever calls
    fail, when it answers, the file at the destination holds an ended archive
    of the tree the spec resolves to: one directory member for every directory
    below it and one file member for every file, with the bytes of its blob
    and a header that says only its executable bit and length; no path comes
    twice; and, unless collisions are allowed, no two names of one directory
    have the same fold.  When it fails the destination is as it was; and if
    every file of the tree has readable bytes, no two names of a directory
    collide (or collisions are allowed) and every call is answered, only a fault
    of the reader can make it fail.  The repository is only read.  Of the other
    files, only the temporary one beside the destination may change: it is gone
    when every call is answered and it was not there before, and it may stay
    behind when the rename or its removal fails. *)
Theorem export_is_exact {St B} `{SL : StagedLaws St B} `{UT : UnicodeTables} `{HM : Hmac} (fails : nat -> bool) (key : bytes) (now : Z) (ulid : str)
    (cap : Cap) (spec : str) (out : HPath) (opts : ExportOptions) (f : Forge St) (o : Out) (Hf : f_inv f)
    (Hc : forall tree, d_resolve_tree spec (f_view f) (meta f) = Ok tree -> closed (store f) tree) :
  exists n, forall fuel, (n <= fuel)%nat -> forall r f' o', export_tar_with fails fuel key now ulid cap spec out opts (f, o) = (r, (f', o')) ->
    match check_spec_read key now cap spec, d_resolve_tree spec (f_view f) (meta f) with
    | Ok _, Ok tree => exported fails opts f o ulid tree out r (f', o')
    | _, _ => same f f' /\ o' = o /\ exists e, r = Err e
    end.
Proof.
  destruct (export_spec fails key now ulid cap spec out opts f o Hf Hc) as [n Hn]. exists n. intros fuel Hfuel r f' o' E.
  exact (wp_elim _ _ _ _ _ (Hn fuel Hfuel) E).
Qed.

(** C16: What was imported comes out again.  After an import of a directory at
    rest, an export of its commit, by whatever ref or identifier names what the import answered,
    that answers has written an archive whose files are exactly the files of
    the directory: the same paths, bytes and executable bits, without a
    [.forge] or [.git] at the top. *)
Theorem export_undoes_import {St B} `{SL : StagedLaws St B} `{UT : UnicodeTables} {H} `{HO : Host H} `{HM : Hmac}
    (fs : HPath -> option Node) (kids : HPath -> list bytes) (meta_of : HPath -> Meta) (fd_of : HPath -> Fd) (at_pos : H -> Fd -> bytes -> Prop)
    (AR : AtRest fs kids meta_of fd_of at_pos) (fuel0 : nat) (key : bytes) (now : nat -> Z) (ulid : nat -> str) (others : Catalog -> Catalog) (cap : Cap)
    (dir root : HPath) (name ref : str) (f f1 : Forge St) (h h1 : H) (x : CasResult)
    (Hcan : forall h, (canonicalize dir h).1 = inr root) (Hdir : fs root = Some NDir) (Hs : sound_repo f)
    (Hname : str_ok (bs "import " ++ name)) (Hag : str_ok (agent_id cap)) (Hnow : forall i, in_u64 (now i))
    (E : import_dir fuel0 key now ulid others cap dir name ref (f, h) = (Ok x, (f1, h1))) :
  is_type f1 TCommit (cas_place x).2 /\ forall fails now' ulid' cap' spec out opts (o : Out),
    d_resolve spec (f_view f1) (meta f1) = Ok (cas_place x).2 ->
    exists n, forall fuel, (n <= fuel)%nat -> forall f2 o', export_tar_with fails fuel key now' ulid' cap' spec out opts (f1, o) = (Ok tt, (f2, o')) ->
      exists ms, o_files o' !! out = Some (mkArchive ms true) /\
      forall p exec data, Forall plain p -> file_member (join (bs "/") p) exec data ∈ ms <->
        exists n q, p = n :: q /\ left_out true n = false /\ fs (root ++ p) = Some (NFile data) /\ exec = executable (meta_of (root ++ p)).
Proof.
  destruct (wp_elim _ _ _ _ _ (import_dir_spec fs kids meta_of fd_of at_pos AR fuel0 key now ulid others cap dir name ref root f h Hcan Hdir (sr_inv _ Hs)) E) as (Hi & _ & Him).
  cbn [fst] in *. destruct Him as (tree & b & intros & Hm & Hb & Hcid & _). set (cid := (cas_place x).2) in *. split; [exact (stored_type f1 cid b TCommit Hcid (Commit_encode_type _ _ Hb))|].
  intros fails now' ulid' cap' spec out opts o Hspec.
  assert (d_resolve_tree spec (f_view f1) (meta f1) = Ok tree) as Htree by exact (resolve_import f1 spec cid _ b (import_commit_wf tree (refs (meta f) !! ref) _ _ _ Hag Hname (Hnow 1%nat)) Hb Hcid Hspec).
  destruct (export_spec fails key now' ulid' cap' spec out opts f1 o Hi) as [n Hn].
  { intros t Ht. rewrite Htree in Ht. injection Ht as <-. apply Hm. }
  exists n. intros fuel Hfuel f2 o' Ex. pose proof (wp_elim _ _ _ _ _ (Hn fuel Hfuel) Ex) as Hx. rewrite Htree in Hx.
  destruct (check_spec_read key now' cap' spec); [|by destruct Hx as (_ & _ & ? & [=])..].
  destruct Hx as [_ _ (ms & Ho & Hl) _]. exists ms. split; [exact Ho|]. by eapply import_export_files.
Qed.

(** ** Witnesses *)

#[local] Instance ascii_tables : UnicodeTables :=
  {| to_lowercase s := map (fun b => if (65 <=? b2z b) && (b2z b <=? 90) then u8 (b2z b + 32) else b) s; nfc s := s |}.
#[local] Existing Instance quiet_reader.
#[local] Existing Instance quiet_laws.
#[local] Existing Instance sum_ed25519.
#[local] Existing Instance sum_ed25519_laws.

Definition demo_out : HPath := [bs "out.tar"].
Definition demo_spec : str := bs "imported".
Definition demo_export (f : Forge (Guarded MapLru)) := export_tar (fun _ => false) 5 demo_key 1 demo_ulid demo_cap demo_spec demo_out (f, mkOut ∅ 0).

Lemma demo_import_sound f1 h1 r : demo_import demo_new = (r, (f1, h1)) -> sound_repo f1.
Proof.
  intros E. refine (wp_elim _ _ _ _ _ (import_sound 0 demo_key (fun _ => 1) (fun _ => demo_ulid) (fun c => c) demo_cap demo_root (bs "src") demo_spec (mkImportOptions false)
    demo_new (fun _ => []) demo_new_sound _ demo_agent_ok demo_clock _ demo_fresh) E).
  - split; [by vm_compute|by apply Z.leb_le].
  - intros v c Hc. exact Hc.
Qed.

(** The repository after the import: a tree with a script and a directory. *)
Definition demo_source : Forge (Guarded MapLru) := (demo_import demo_new).2.1.
Definition demo_run (fuel : nat) := export_tar_with (fun _ => false) fuel demo_key 1 demo_ulid demo_cap demo_spec demo_out (mkExportOptions false) (demo_source, mkOut ∅ 0).
Definition demo_members : list Member :=
  [dir_member (bs "doc"); file_member (bs "doc/.git") false (bs "x"); file_member (bs "doc/a") false (bs "text"); file_member (bs "run") true (bs "go")].

Lemma demo_source_sound : sound_repo demo_source.
Proof. apply (demo_import_sound demo_source (demo_import demo_new).2.2 (demo_import demo_new).1). unfold demo_source. by destruct (demo_import demo_new) as [? [? ?]]. Qed.

(** Whatever more fuel there is, the run is this one. *)
Lemma demo_run_writes n : match demo_run (5 + n) with (r, (_, o')) => (r, o_files o' !! demo_out) end = (Ok tt, Some (mkArchive demo_members true)).
Proof. vm_compute. reflexivity. Qed.

Lemma demo_source_closed tree : d_resolve_tree demo_spec (f_view demo_source) (meta demo_source) = Ok tree -> closed (store demo_source) tree.
Proof.
  assert (rc_kind <$> Catalog.refs (meta demo_source) !! demo_spec = Some (bs "commit")) as Hk by (vm_compute; reflexivity).
  pose proof demo_source_sound as Hs. revert Hk Hs. generalize demo_source. intros f Hk Hs Ht.
  destruct (Catalog.refs (meta f) !! demo_spec) as [row|] eqn:Hr; [|discriminate Hk]. injection Hk as Hk.
  exact (ref_tree_closed f demo_spec row tree Hs eq_refl Hr Hk Ht).
Qed.

Lemma export_is_exact_witness : exists fuel tree f' o',
  demo_run fuel = (Ok tt, (f', o')) /\ o_files o' !! demo_out = Some (mkArchive demo_members true) /\
  d_resolve_tree demo_spec (f_view demo_source) (meta demo_source) = Ok tree /\ listing demo_source false [] tree demo_members.
Proof.
  destruct (export_is_exact (fun _ => false) demo_key 1 demo_ulid demo_cap demo_spec demo_out (mkExportOptions false) demo_source (mkOut ∅ 0)
    (sr_inv _ demo_source_sound) demo_source_closed) as [n Hn].
  specialize (Hn (5 + n)%nat ltac:(lia)). fold (demo_run (5 + n)) in Hn. pose proof (demo_run_writes n) as Hw. exists (5 + n)%nat.
  assert (check_spec_read demo_key 1 demo_cap demo_spec = Ok tt) as Hcheck by (vm_compute; reflexivity). rewrite Hcheck in Hn. clear Hcheck.
  revert Hn Hw. generalize (demo_run (5 + n)). generalize demo_source. intros f [r [f' o']] Hn Hw. injection Hw as -> Hw.
  specialize (Hn _ _ _ eq_refl). destruct (d_resolve_tree demo_spec (f_view f) (meta f)) as [tree|e|]; [|destruct Hn as (_ & _ & e' & He); discriminate He..].
  exists tree, f', o'. split; [reflexivity|]. split; [exact Hw|]. split; [reflexivity|].
  destruct Hn as [_ _ (ms & Ho & Hl) _]. cbn [snd] in Ho. rewrite Hw in Ho. injection Ho as <-. exact Hl.
Defined.

Lemma export_undoes_import_witness :
  exists f1 cid, is_type f1 TCommit cid /\ exists n, forall fuel, (n <= fuel)%nat -> forall f2 o',
    export_tar_with (fun _ => false) fuel demo_key 1 demo_ulid demo_cap demo_spec demo_out (mkExportOptions false) (f1, mkOut ∅ 0) = (Ok tt, (f2, o')) ->
    exists ms, o_files o' !! demo_out = Some (mkArchive ms true) /\ file_member (bs "run") true (bs "go") ∈ ms.
Proof.
  assert (match demo_import demo_new with
          | (Ok x, (f1, _)) => match d_resolve demo_spec (f_view f1) (meta f1) with Ok i => bool_decide (i = (cas_place x).2) | _ => false end
          | _ => false end = true) as Hres by (vm_compute; reflexivity).
  destruct (demo_import demo_new) as [[x|e|] [f1 h1]] eqn:E; [|discriminate Hres..].
  destruct (export_undoes_import _ _ _ _ _ demo_at_rest 0 demo_key (fun _ => 1) (fun _ => demo_ulid) (fun c => c) demo_cap demo_root demo_root (bs "src") demo_spec
    demo_new f1 (fun _ => []) h1 x (fun _ => eq_refl) eq_refl demo_new_sound ltac:(split; [by vm_compute|by apply Z.leb_le])
    demo_agent_ok demo_clock E) as [Hty Hex].
  exists f1, (cas_place x).2. split; [exact Hty|].
  destruct (d_resolve demo_spec (f_view f1) (meta f1)) as [i|e|] eqn:Hd; [|discriminate Hres..]. apply bool_decide_eq_true_1 in Hres as ->.
  destruct (Hex (fun _ => false) 1 demo_ulid demo_cap demo_spec demo_out (mkExportOptions false) (mkOut ∅ 0) Hd) as [n Hn].
  exists n. intros fuel Hfuel f2 o' Ex. destruct (Hn fuel Hfuel f2 o' Ex) as (ms & Ho & Hm). exists ms. split; [exact Ho|].
  apply (Hm [bs "run"] true (bs "go")).
  - constructor; [|constructor]. split; [discriminate|]. by apply (bool_decide_eq_false_1 ("/"%byte ∈ _)).
  - exists (bs "run"), []. split; [reflexivity|]. split; [reflexivity|]. split; vm_compute; reflexivity.
Defined.
