(* ===== verification/Disk.v ===== *)
(** * The object store on disk (crates/forge-store/src/blob.rs)

    [LocalBlobStore] on a disk that can crash.  A directory entry and the
    content of a file are visible before they are stable: only a barrier makes
    them so, and a crash keeps only what is stable.  Every system call may
    fail, and anything may happen between two of them: [others] is what other
    processes, a collector among them, and the other threads of this one do.

    Object files are keyed by their identifier, which is their path
    ([object_path]); directories are lists of names below the root.  Checks of
    one file that the code makes in several calls ([verify_existing], the
    refresh of an age under its lock) are one step here, and a call that fails
    answers [Io] without the text of the operating system.  The counters of
    [stats] are not modelled, nor the failpoints of the tests. *)

From S2P Require Import Prelude RustStd Types Object ObjectStore.

(** ** The disk *)

Abbreviation Path := (list str).

Record File := mkFile {
  fl_regular : bool;
  fl_data : bytes;
  fl_stable : bool;  (** the content survives a crash *)
  fl_fresh : bool    (** its age is below the grace floor of the collector *)
}.

Record Disk := mkDisk {
  d_nodes : gmap Path bool;       (** what is there, and whether it is a directory *)
  d_stable : gset Path;           (** directories whose entry survives a crash *)
  d_files : gmap ObjectId File;   (** at their object paths *)
  d_links : gset ObjectId;        (** object files whose entry survives *)
  d_tmp : gmap str File
}.

Definition STALE_TMP_MS : Z := 24 * 60 * 60 * 1000.

Definition OBJECTS : Path := [bs "objects"].
Definition TMP : Path := [bs "tmp"].
Definition shard_a (id : ObjectId) : Path := [bs "objects"; take 2 (hex id)].
Definition shard_b (id : ObjectId) : Path := [bs "objects"; take 2 (hex id); take 2 (drop 2 (hex id))].

Definition parent (p : Path) : Path := removelast p.

Definition is_dir (p : Path) (d : Disk) : bool := bool_decide (p = []) || bool_decide (d_nodes d !! p = Some true).

Definition set_nodes (n : gmap Path bool) (d : Disk) : Disk := mkDisk n (d_stable d) (d_files d) (d_links d) (d_tmp d).
Definition set_files (f : gmap ObjectId File) (d : Disk) : Disk := mkDisk (d_nodes d) (d_stable d) f (d_links d) (d_tmp d).
Definition set_tmp (t : gmap str File) (d : Disk) : Disk := mkDisk (d_nodes d) (d_stable d) (d_files d) (d_links d) t.

(** [fsync] of a directory: its entries are stable. *)
Definition force_dir (p : Path) (d : Disk) : Disk :=
  mkDisk (d_nodes d) (d_stable d ∪ filter (fun q => parent q = p) (dom (d_nodes d))) (d_files d)
    (d_links d ∪ filter (fun id => shard_b id = p) (dom (d_files d))) (d_tmp d).

Definition make_stable (f : File) : File := mkFile (fl_regular f) (fl_data f) true (fl_fresh f).
Definition make_fresh (f : File) : File := mkFile (fl_regular f) (fl_data f) (fl_stable f) true.

(** [syncfs]: everything visible is stable. *)
Definition force_all (d : Disk) : Disk :=
  mkDisk (d_nodes d) (d_stable d ∪ dom (d_nodes d)) (make_stable <$> d_files d) (d_links d ∪ dom (d_files d)) (make_stable <$> d_tmp d).

(** A crash: what is not stable may be kept or lost, as [keep] and [torn]
    say, and what is below a lost directory is lost. *)
Definition survives (keep : Path -> bool) (d : Disk) (p : Path) : bool :=
  forallb (fun n => let q := take n p in bool_decide (q ∈ d_stable d) || keep q) (seq 1 (length p)).

Definition crash (keep : Path -> bool) (torn : ObjectId -> File -> option File) (d : Disk) : Disk :=
  mkDisk (filter (fun pn => survives keep d pn.1 = true) (d_nodes d))
    (filter (fun p => survives keep d p = true) (d_stable d))
    (map_imap (fun id f => if negb (survives keep d (shard_b id)) then None
                           else if bool_decide (id ∈ d_links d) && fl_stable f then Some f
                           else torn id f) (d_files d))
    (d_links d) ∅.

(** The disk, the two caches of positive proofs, and the system calls so far. *)
Record World := mkWorld { w_disk : Disk; w_dirs : gset Path; w_oids : gset ObjectId; w_tick : nat }.

Definition set_disk (d : Disk) (w : World) : World := mkWorld d (w_dirs w) (w_oids w) (w_tick w).

(** ** The store and its batches *)

Inductive DirectoryBarrier := PerDirectory | Deferred | Collapsed.

#[export] Instance DirectoryBarrier_eq_dec : EqDecision DirectoryBarrier.
Proof. solve_decision. Defined.

(** [env] is [FORGEFS_DIR_BARRIER]. *)
Definition from_env (env : option str) : DirectoryBarrier :=
  match env with
  | Some v => if bytes_eqb v (bs "per-directory") then PerDirectory
              else if bytes_eqb v (bs "deferred") then Deferred
              else if bytes_eqb v (bs "collapsed") then Collapsed
              else PerDirectory
  | None => PerDirectory
  end.

Definition defers (b : DirectoryBarrier) : bool := match b with Deferred | Collapsed => true | PerDirectory => false end.

Record LocalBlobStore := mkLocal { lb_read_only : bool; lb_dir_barrier : DirectoryBarrier }.

Record PublishBatch := mkBatch {
  pb_dirs : gset Path;
  pb_path_dirs : gset Path;
  pb_proofs : gset Path;
  pb_oids : gset ObjectId
}.

Definition begin_batch : PublishBatch := mkBatch ∅ ∅ ∅ ∅.

Inductive Refreshed := RefreshedYes | Vanished.
Inductive Linked := LinkOk | LinkExists | LinkErr.

Section blob.
Context `{B3 : Blake3}.
Context (others : nat -> World -> World) (fails : nat -> bool) (ulid : nat -> str).
(** What an LRU cache still holds of what was put in it. *)
Context (keep_dirs : gset Path -> gset Path) (keep_oids : gset ObjectId -> gset ObjectId).

Abbreviation io := (stateM Error World).
Abbreviation batched := (stateM Error (World * PublishBatch)).

(** *** System calls *)

(** The others act, then the call fails or acts. *)
Definition meanwhile (w : World) : World :=
  let w' := others (w_tick w) w in mkWorld (w_disk w') (w_dirs w') (w_oids w') (S (w_tick w)).

Definition sys {A} (act : Disk -> Result A * Disk) : io A := fun w =>
  let w' := meanwhile w in
  if fails (w_tick w) then (Err (Io (bs "{e}")), w')
  else let '(r, d) := act (w_disk w') in (r, set_disk d w').

(** A call whose failure is an answer: [p.exists()], [let _ = remove_file(p)]. *)
Definition sys_or {A} (answer : A) (act : Disk -> A * Disk) : io A := fun w =>
  let w' := meanwhile w in
  if fails (w_tick w) then (Ok answer, w')
  else let '(a, d) := act (w_disk w') in (Ok a, set_disk d w').

Definition create_dir (p : Path) (d : Disk) : Result bool * Disk :=
  match d_nodes d !! p with
  | Some _ => (Ok false, d)
  | None => if is_dir (parent p) d then (Ok true, set_nodes (<[p := true]> (d_nodes d)) d) else (Err (Io (bs "{e}")), d)
  end.

Definition check_dir (p : Path) (d : Disk) : Result unit * Disk :=
  match d_nodes d !! p with
  | Some true => (Ok tt, d)
  | Some false => (Err (Invalid (bs "object-store path is not a directory: {}")), d)
  | None => (Err (Io (bs "{e}")), d)
  end.

Definition ensure_dir_present (p : Path) : io unit :=
  created ← sys (create_dir p);
  if (created : bool) then mret tt else sys (check_dir p).

Definition sync_dir (p : Path) : io unit :=
  sys (fun d => if is_dir p d then (Ok tt, force_dir p d) else (Err (Io (bs "{e}")), d)).

Definition object_exists (id : ObjectId) : io bool := sys_or false (fun d => (bool_decide (is_Some (d_files d !! id)), d)).

(** [refresh_dedup_mtime], under the shared reclamation lock. *)
Definition refresh_dedup_mtime (id : ObjectId) : io Refreshed :=
  sys (fun d => match d_files d !! id with
                | Some f => (Ok RefreshedYes, set_files (<[id := make_fresh f]> (d_files d)) d)
                | None => (Ok Vanished, d)
                end).

Definition require_regular_file (id : ObjectId) (d : Disk) : Result File :=
  match d_files d !! id with
  | Some f => if fl_regular f then Ok f else Err (Corrupt (bs "object {id} is not a regular file: {:?}"))
  | None => Err (NotFound (bs "object {id}"))
  end.

Definition verified_file (id : ObjectId) (d : Disk) : Result File :=
  f ← require_regular_file id d;
  _ ← reject_if (negb (bool_decide (hash_bytes (fl_data f) = id))) (Corrupt (bs "existing object does not match its id: {id}"));
  Ok f.

Definition verify_existing (id : ObjectId) : io unit :=
  sys (fun d => (_ ← verified_file id d; Ok tt, d)).

(** The descriptor that was verified is the one that is forced. *)
Definition verify_and_sync_existing (id : ObjectId) : io unit :=
  sys (fun d => match verified_file id d with
                | Ok f => (Ok tt, set_files (<[id := make_stable f]> (d_files d)) d)
                | Err e => (Err e, d)
                | Panic => (Panic, d)
                end).

(** The temporary file: created new, written part by part, forced. *)
Definition create_tmp (name : str) : io unit :=
  sys (fun d => match d_tmp d !! name with
                | Some _ => (Err (Io (bs "{e}")), d)
                | None => (Ok tt, set_tmp (<[name := mkFile true [] false true]> (d_tmp d)) d)
                end).

Definition with_tmp (name : str) (g : File -> File) : io unit :=
  sys (fun d => match d_tmp d !! name with
                | Some f => (Ok tt, set_tmp (<[name := g f]> (d_tmp d)) d)
                | None => (Err (Io (bs "{e}")), d)
                end).

Definition write_tmp (name : str) (part : bytes) : io unit :=
  with_tmp name (fun f => mkFile (fl_regular f) (fl_data f ++ part) false (fl_fresh f)).
Definition sync_tmp (name : str) : io unit := with_tmp name make_stable.
Definition remove_tmp (name : str) : io unit := sys_or tt (fun d => (tt, set_tmp (delete name (d_tmp d)) d)).

(** [hard_link(tmp, dest)]. *)
Definition hard_link (name : str) (id : ObjectId) : io Linked :=
  sys_or LinkErr (fun d => match d_files d !! id with
    | Some _ => (LinkExists, d)
    | None => match d_tmp d !! name with
              | Some f => if is_dir (shard_b id) d then (LinkOk, set_files (<[id := f]> (d_files d)) d) else (LinkErr, d)
              | None => (LinkErr, d)
              end
    end).

(** *** The caches *)

Definition dir_is_durable (p : Path) : io bool := fun w => (Ok (bool_decide (p ∈ w_dirs w)), w).
Definition oid_is_durable (id : ObjectId) : io bool := fun w => (Ok (bool_decide (id ∈ w_oids w)), w).
Definition put_dirs (ps : gset Path) : io unit := fun w => (Ok tt, mkWorld (w_disk w) (keep_dirs (ps ∪ w_dirs w)) (w_oids w) (w_tick w)).
Definition put_oids (ids : gset ObjectId) : io unit := fun w => (Ok tt, mkWorld (w_disk w) (w_dirs w) (keep_oids (ids ∪ w_oids w)) (w_tick w)).

(** *** Publishing *)

Definition on_world {A} (m : io A) : batched A := fun '(w, b) => let '(r, w') := m w in (r, (w', b)).

Definition owe_path (p q : Path) : batched unit := fun '(w, b) =>
  (Ok tt, (w, mkBatch (pb_dirs b) ({[ p ]} ∪ pb_path_dirs b) ({[ q ]} ∪ pb_proofs b) (pb_oids b))).

Definition owe_object (id : ObjectId) : batched unit := fun '(w, b) =>
  (Ok tt, (w, mkBatch ({[ shard_b id ]} ∪ pb_dirs b) (pb_path_dirs b) (pb_proofs b) ({[ id ]} ∪ pb_oids b))).

Definition ensure_path_dir (st : LocalBlobStore) (par child : Path) : batched unit :=
  known ← on_world (dir_is_durable child);
  if (known : bool) then mret tt
  else
    _ ← on_world (ensure_dir_present child);
    if defers (lb_dir_barrier st) then owe_path par child
    else _ ← on_world (sync_dir par); on_world (put_dirs {[ child ]}).

(** The bytes are there already. *)
Definition join_existing (id : ObjectId) : batched ObjectId :=
  proved ← on_world (oid_is_durable id);
  if (proved : bool) then _ ← on_world (verify_existing id); mret id
  else _ ← on_world (verify_and_sync_existing id); _ ← owe_object id; mret id.

(** Another publisher, or a fault, was before the link. *)
Definition after_lost_link (name : str) (id : ObjectId) : batched ObjectId :=
  r ← on_world (refresh_dedup_mtime id);
  match r with
  | RefreshedYes =>
      _ ← on_world (remove_tmp name);
      proved ← on_world (oid_is_durable id);
      if negb proved then _ ← on_world (verify_and_sync_existing id); _ ← owe_object id; mret id
      else _ ← on_world (verify_existing id); mret id
  | Vanished =>
      again ← on_world (hard_link name id);
      _ ← match again with LinkOk => mret tt | _ => on_world (verify_and_sync_existing id) end;
      _ ← owe_object id;
      _ ← on_world (remove_tmp name);
      mret id
  end.

Definition publish_as (name : str) (parts : list bytes) (id : ObjectId) : batched ObjectId :=
  _ ← on_world (create_tmp name);
  _ ← on_world (m_fold (fun _ part => write_tmp name part) tt parts);
  _ ← on_world (sync_tmp name);
  linked ← on_world (hard_link name id);
  match linked with
  | LinkOk => _ ← owe_object id; _ ← on_world (remove_tmp name); mret id
  | LinkExists => after_lost_link name id
  | LinkErr =>
      present ← on_world (object_exists id);
      if (present : bool) then after_lost_link name id
      else _ ← on_world (remove_tmp name); throw (Io (bs "{e}"))
  end.

Definition publish_new (parts : list bytes) (id : ObjectId) : batched ObjectId := fun wb =>
  publish_as (ulid (w_tick wb.1)) parts id wb.

Definition put_parts (st : LocalBlobStore) (parts : list bytes) : batched ObjectId :=
  if lb_read_only st then throw (Denied (bs "repository is open read-only; objects cannot be published"))
  else
    let id := hash_parts parts in
    _ ← ensure_path_dir st OBJECTS (shard_a id);
    _ ← ensure_path_dir st (shard_a id) (shard_b id);
    present ← on_world (object_exists id);
    joined ← (if (present : bool) then r ← on_world (refresh_dedup_mtime id); mret (match r with RefreshedYes => true | Vanished => false end)
              else mret false);
    if (joined : bool) then join_existing id else publish_new parts id.

(** [FsBarrier::wait], seen by the one batch that waits. *)
Definition fs_barrier : io unit := sys (fun d => (Ok tt, force_all d)).

Definition finish (st : LocalBlobStore) (b : PublishBatch) : io unit :=
  let collapse := bool_decide (lb_dir_barrier st = Collapsed) && (1 <? Z.of_nat (size (pb_path_dirs b)) + Z.of_nat (size (pb_dirs b))) in
  _ ← (if collapse then fs_barrier
       else _ ← m_fold (fun _ p => sync_dir p) tt (elements (pb_path_dirs b));
            m_fold (fun _ p => sync_dir p) tt (elements (pb_dirs b)));
  _ ← put_dirs (pb_proofs b);
  put_oids (pb_oids b).

(** [LocalBlobStore::put_parts]. *)
Definition local_put_parts (st : LocalBlobStore) (parts : list bytes) : io ObjectId := fun w =>
  match put_parts st parts (w, begin_batch) with
  | (Ok id, (w, b)) => (_ ← finish st b; mret id) w
  | (Err e, (w, _)) => (Err e, w)
  | (Panic, (w, _)) => (Panic, w)
  end.

(** A client: several objects in one batch, given up at the first error. *)
Fixpoint put_all (st : LocalBlobStore) (objects : list (list bytes)) : batched (list ObjectId) :=
  match objects with
  | [] => mret []
  | parts :: rest => id ← put_parts st parts; ids ← put_all st rest; mret (id :: ids)
  end.

Definition publish_all (st : LocalBlobStore) (objects : list (list bytes)) : io (list ObjectId) := fun w =>
  match put_all st objects (w, begin_batch) with
  | (Ok ids, (w, b)) => (_ ← finish st b; mret ids) w
  | (Err e, (w, _)) => (Err e, w)
  | (Panic, (w, _)) => (Panic, w)
  end.

(** *** Reading *)

Definition get (id : ObjectId) : io bytes :=
  _ ← sys (fun d => (_ ← require_regular_file id d; Ok tt, d));
  contents ← sys_or None (fun d => (fl_data <$> d_files d !! id, d));
  data ← pure (ok_or contents (NotFound (bs "object {id}")));
  _ ← pure (reject_if (negb (bool_decide (hash_bytes data = id))) (Corrupt (bs "hash mismatch {id}")));
  mret data.

Definition has (id : ObjectId) : io bool := object_exists id.

(** *** Opening *)

Definition ensure_dir_durable (par child : Path) : io unit :=
  known ← dir_is_durable child;
  if (known : bool) then mret tt
  else
    _ ← ensure_dir_present child;
    _ ← sync_dir par;
    put_dirs {[ child ]}.

(** [age_ms] is the time since the ULID of a name, if it is one; [plain] says
    that the entry is a file or a symbolic link. *)
Definition cleanup_stale_tmp (age_ms : str -> option Z) (plain : str -> bool) : io unit :=
  names ← sys (fun d => (Ok (elements (dom (d_tmp d))), d));
  removed ← m_fold (fun removed name =>
      if negb (plain name) then mret removed
      else match age_ms name with
           | None => mret removed
           | Some age =>
               if age <? STALE_TMP_MS then mret removed
               else gone ← sys (fun d => (Ok (bool_decide (is_Some (d_tmp d !! name))), set_tmp (delete name (d_tmp d)) d));
                    mret (removed || gone)
           end) false names;
  if (removed : bool) then sync_dir TMP else mret tt.

(** [anchor]: the platform has [syncfs] and the root could be opened.  The
    caches start empty. *)
Definition with_directory_barrier (age_ms : str -> option Z) (plain : str -> bool) (anchor : bool) (barrier : DirectoryBarrier) : io LocalBlobStore := fun w =>
  (_ ← ensure_dir_durable [] OBJECTS;
   _ ← ensure_dir_durable [] TMP;
   _ ← cleanup_stale_tmp age_ms plain;
   let barrier := if bool_decide (barrier = Collapsed) && negb anchor then Deferred else barrier in
   mret (mkLocal false barrier)) (mkWorld (w_disk w) ∅ ∅ (w_tick w)).

Definition open_read_only : io LocalBlobStore := fun w =>
  (there ← sys_or false (fun d => (is_dir OBJECTS d, d));
   if (there : bool) then mret (mkLocal true PerDirectory)
   else throw (Invalid (bs "missing object directory {}"))) (mkWorld (w_disk w) ∅ ∅ (w_tick w)).
End blob.

(** ** What the others may do *)

(** The cached proofs are true of the disk, up to the directories [D] that are
    still owed a barrier: the directory is stable, and the object, if it is
    there, is stable in content and entry. *)
Record sound_proofs (D : gset Path) (w : World) : Prop := mk_sound_proofs {
  sp_dirs p : p ∈ w_dirs w -> d_nodes (w_disk w) !! p = Some true /\ p ∈ d_stable (w_disk w);
  sp_oids id f : id ∈ w_oids w -> d_files (w_disk w) !! id = Some f ->
    fl_stable f = true /\ (id ∈ d_links (w_disk w) \/ shard_b id ∈ D)
}.

Lemma sound_owing D D' w : D ⊆ D' -> sound_proofs D w -> sound_proofs D' w.
Proof. intros HD [A1 A2]. split; [done|]. intros id f Hi Hf. destruct (A2 id f Hi Hf) as [? []]; auto. Qed.

(** From [f] to [f'] at the same path: the same bytes, no less stable. *)
Definition file_kept (f f' : File) : Prop :=
  (fl_fresh f = true -> fl_fresh f' = true) /\ fl_regular f' = fl_regular f /\ fl_data f' = fl_data f /\
  (fl_stable f = true -> fl_stable f' = true).

(** Directories stay, what is stable stays so, no fresh object is collected,
    and what appears is fresh. *)
Record steady (w w' : World) : Prop := mk_steady {
  st_dirs p : d_nodes (w_disk w) !! p = Some true -> d_nodes (w_disk w') !! p = Some true;
  st_stable p : p ∈ d_stable (w_disk w) -> p ∈ d_stable (w_disk w');
  st_fresh id f : d_files (w_disk w) !! id = Some f -> fl_fresh f = true ->
    exists f', d_files (w_disk w') !! id = Some f' /\ file_kept f f' /\ (id ∈ d_links (w_disk w) -> id ∈ d_links (w_disk w'));
  st_new id f' : d_files (w_disk w) !! id = None -> d_files (w_disk w') !! id = Some f' -> fl_fresh f' = true
}.

Lemma file_kept_refl f : file_kept f f.
Proof. by split_and!. Qed.
Lemma file_kept_trans f1 f2 f3 : file_kept f1 f2 -> file_kept f2 f3 -> file_kept f1 f3.
Proof. intros (K1 & K2 & K3 & K4) (L1 & L2 & L3 & L4). split_and!; [auto|congruence|congruence|auto]. Qed.

Lemma steady_refl w : steady w w.
Proof. split; [done|done| |congruence]. intros id f Hf Hr. exists f. by split_and!. Qed.

Lemma steady_trans w1 w2 w3 : steady w1 w2 -> steady w2 w3 -> steady w1 w3.
Proof.
  intros [A1 A2 A3 A4] [B1 B2 B3 B4]. split; [auto|auto| |].
  - intros id f Hf Hr. destruct (A3 id f Hf Hr) as (f1 & H1 & K & K5). destruct (B3 id f1 H1 (proj1 K Hr)) as (f2 & H2 & L & L5).
    exists f2. split; [done|]. split; [by eapply file_kept_trans|auto].
  - intros id f3 H1 H3. destruct (d_files (w_disk w2) !! id) as [f2|] eqn:H2; [|by eapply B4].
    pose proof (A4 id f2 H1 H2) as Hf. destruct (B3 id f2 H2 Hf) as (f' & H' & (Hr & _) & _). rewrite H3 in H'. simplify_eq. auto.
Qed.

(** [calm w w']: such a step, which makes no cached proof untrue. *)
Definition calm (w w' : World) : Prop := steady w w' /\ forall D, sound_proofs D w -> sound_proofs D w'.

#[export] Instance calm_preorder : PreOrder calm.
Proof.
  split; [intros w; split; [apply steady_refl|done]|]. intros w1 w2 w3 [A1 A2] [B1 B2]. split; [by eapply steady_trans|auto].
Qed.

(** *** What this process does itself is calm *)

Lemma steady_same w w' : w_disk w' = w_disk w -> steady w w'.
Proof. intros E. split; rewrite E; [done|done| |congruence]. intros id f Hf _. exists f. by split_and!. Qed.

Lemma calm_same w w' : w_disk w' = w_disk w -> w_dirs w' = w_dirs w -> w_oids w' = w_oids w -> calm w w'.
Proof.
  intros E1 E2 E3. split; [by apply steady_same|]. intros D [A1 A2]. split; rewrite E1, ?E2, ?E3; auto.
Qed.

Lemma calm_tmp w t : calm w (set_disk (set_tmp t (w_disk w)) w).
Proof.
  split; [split; cbn; [done|done| |congruence]; intros id f Hf _; exists f; by split_and!|].
  intros D [A1 A2]. by split.
Qed.

Lemma calm_mkdir w p : d_nodes (w_disk w) !! p = None -> calm w (set_disk (set_nodes (<[p := true]> (d_nodes (w_disk w))) (w_disk w)) w).
Proof.
  intros Hp. assert (forall q, d_nodes (w_disk w) !! q = Some true -> <[p := true]> (d_nodes (w_disk w)) !! q = Some true) as H.
  { intros q Hq. rewrite lookup_insert_ne; congruence. }
  split; [split; cbn; [done|done| |congruence]; intros id f Hf _; exists f; by split_and!|].
  intros D [A1 A2]. split; cbn; [|done]. intros q Hq. destruct (A1 q Hq). auto.
Qed.

Lemma calm_file w id f f' : d_files (w_disk w) !! id = Some f -> file_kept f f' ->
  calm w (set_disk (set_files (<[id := f']> (d_files (w_disk w))) (w_disk w)) w).
Proof.
  intros Hf Hk. split; [split; cbn; [done|done| |]|].
  - intros i g Hg Hr. destruct (decide (i = id)) as [->|Hi].
    + exists f'. rewrite lookup_insert_eq. simplify_eq. done.
    + exists g. rewrite lookup_insert_ne by done. by split_and!.
  - intros i g H1 H2. destruct (decide (i = id)) as [->|Hi]; [congruence|]. rewrite lookup_insert_ne in H2 by done. congruence.
  - intros D [A1 A2]. split; cbn; [done|]. intros i g Hi Hg. destruct (decide (i = id)) as [->|Hne].
    + rewrite lookup_insert_eq in Hg. simplify_eq. destruct (A2 id f Hi Hf) as [Hs Hl]. split; [by apply Hk|done].
    + rewrite lookup_insert_ne in Hg by done. eauto.
Qed.

(** A barrier: more is stable, nothing else changes. *)
Lemma calm_force w (g : File -> File) n t S L : g = id \/ g = make_stable ->
  d_stable (w_disk w) ⊆ S -> d_links (w_disk w) ⊆ L -> n = d_nodes (w_disk w) ->
  calm w (set_disk (mkDisk n S (g <$> d_files (w_disk w)) L t) w).
Proof.
  intros Hg HS HL ->. assert (forall f, file_kept f (g f)) as Hk.
  { intros f. destruct Hg as [->| ->]; [apply file_kept_refl|by split_and!]. }
  split; [split; cbn; [done|set_solver| |]|].
  - intros i f Hf Hr. exists (g f). rewrite lookup_fmap, Hf. split_and!; [done|apply Hk|set_solver].
  - intros i f H1 H2. by rewrite lookup_fmap, H1 in H2.
  - intros D [A1 A2]. split; cbn.
    + intros p Hp. destruct (A1 p Hp). split; [done|set_solver].
    + intros i f Hi Hf. rewrite lookup_fmap in Hf. apply fmap_Some in Hf as (f0 & Hf & ->).
      destruct (A2 i f0 Hi Hf) as [Hs Hl]. split; [by apply (Hk f0)|set_solver].
Qed.

Lemma calm_force_dir w p : calm w (set_disk (force_dir p (w_disk w)) w).
Proof.
  unfold force_dir. rewrite <- (map_fmap_id (d_files (w_disk w))) at 1. apply calm_force; [by left|set_solver..|done].
Qed.
Lemma calm_force_all w : calm w (set_disk (force_all (w_disk w)) w).
Proof. apply calm_force; [by right|set_solver..|done]. Qed.

(** A link to a fresh, stable file: its entry is owed a barrier. *)
Lemma steady_link w i f : d_files (w_disk w) !! i = None -> fl_fresh f = true ->
  steady w (set_disk (set_files (<[i := f]> (d_files (w_disk w))) (w_disk w)) w).
Proof.
  intros Hn Hf. split; cbn; [done|done| |].
  - intros j g Hg _. exists g. rewrite lookup_insert_ne by congruence. by split_and!.
  - intros j g H1 H2. destruct (decide (j = i)) as [->|Hj]; [|rewrite lookup_insert_ne in H2 by done; congruence].
    rewrite lookup_insert_eq in H2. by simplify_eq.
Qed.

Lemma sound_link w D i f : fl_stable f = true -> shard_b i ∈ D -> sound_proofs D w ->
  sound_proofs D (set_disk (set_files (<[i := f]> (d_files (w_disk w))) (w_disk w)) w).
Proof.
  intros Hs HD [A1 A2]. split; cbn; [done|]. intros j g Hj Hg. destruct (decide (j = i)) as [->|Hne].
  - rewrite lookup_insert_eq in Hg. simplify_eq. auto.
  - rewrite lookup_insert_ne in Hg by done. eauto.
Qed.

(** ** What a batch knows of its objects *)

Section held.
Context `{B3 : Blake3}.

Definition opened (w : World) : Prop := d_nodes (w_disk w) !! OBJECTS = Some true /\ OBJECTS ∈ d_stable (w_disk w).

(** The directory is there, and its entry is stable or owed a barrier. *)
Definition path_ok (w : World) (b : PublishBatch) (p : Path) : Prop :=
  d_nodes (w_disk w) !! p = Some true /\ (p ∈ d_stable (w_disk w) \/ parent p ∈ pb_path_dirs b).

(** An object just relied upon. *)
Definition fresh_file (w : World) (id : ObjectId) : Prop := exists f, d_files (w_disk w) !! id = Some f /\ fl_fresh f = true.

Definition young (w : World) (id : ObjectId) : Prop := forall f, d_files (w_disk w) !! id = Some f -> fl_fresh f = true.

Definition file_ok (w : World) (id : ObjectId) : Prop := exists f,
  d_files (w_disk w) !! id = Some f /\ fl_fresh f = true /\ fl_regular f = true /\ hash_bytes (fl_data f) = id /\ fl_stable f = true.

(** The object is there with its bytes; everything on its path is stable or
    owed a barrier. *)
Record held (w : World) (b : PublishBatch) (id : ObjectId) : Prop := mk_held {
  hd_file : file_ok w id;
  hd_link : id ∈ d_links (w_disk w) \/ shard_b id ∈ pb_dirs b;
  hd_a : path_ok w b (shard_a id);
  hd_b : path_ok w b (shard_b id)
}.

Record batch_ok (w : World) (b : PublishBatch) : Prop := mk_batch_ok {
  bo_opened : opened w;
  bo_sound : sound_proofs (pb_dirs b) w;
  bo_proofs p : p ∈ pb_proofs b -> path_ok w b p;
  bo_oids id : id ∈ pb_oids b -> held w b id
}.

Record grows (b b' : PublishBatch) : Prop := mk_grows {
  gw_dirs : pb_dirs b ⊆ pb_dirs b';
  gw_path : pb_path_dirs b ⊆ pb_path_dirs b'
}.

Lemma batch_grows_refl b : grows b b.
Proof. by split. Qed.
Lemma batch_grows_trans b1 b2 b3 : grows b1 b2 -> grows b2 b3 -> grows b1 b3.
Proof. intros [] []. split; set_solver. Qed.

(** ... and it lasts. *)
Lemma opened_later w w' : steady w w' -> opened w -> opened w'.
Proof. intros [A1 A2 _ _] []. split; auto. Qed.

Lemma path_later w w' b b' p : steady w w' -> grows b b' -> path_ok w b p -> path_ok w' b' p.
Proof. intros [A1 A2 _ _] [_ G] [Hn [H|H]]; (split; [auto|]); [left; auto|right; by apply G]. Qed.

Lemma fresh_later w w' id : steady w w' -> fresh_file w id -> fresh_file w' id.
Proof. intros Hs (f & Hf & Hr). destruct (st_fresh _ _ Hs id f Hf Hr) as (f' & Hf' & (K & _) & _). exists f'. auto. Qed.

Lemma young_later w w' id : steady w w' -> young w id -> young w' id.
Proof.
  intros Hs Hy f' Hf'. destruct (d_files (w_disk w) !! id) as [f|] eqn:Hf; [|by eapply st_new].
  destruct (st_fresh _ _ Hs id f Hf (Hy f Hf)) as (f2 & Hf2 & (K & _) & _). simplify_eq. auto.
Qed.

Lemma fresh_young w id : fresh_file w id -> young w id.
Proof. intros (f & Hf & Hr) g Hg. congruence. Qed.

Lemma file_later w w' id : steady w w' -> file_ok w id -> file_ok w' id.
Proof.
  intros Hs (f & Hf & Hr & Hreg & Hh & Hst). destruct (st_fresh _ _ Hs id f Hf Hr) as (f' & Hf' & (K1 & K2 & K3 & K4) & _).
  exists f'. rewrite K3, K2. split_and!; auto.
Qed.

Lemma held_later w w' b b' id : steady w w' -> grows b b' -> held w b id -> held w' b' id.
Proof.
  intros Hs Hg [Hf Hl Ha Hb]. split; [by eapply file_later| |by eapply path_later|by eapply path_later].
  destruct Hl as [Hl|Hl]; [left|right; by apply Hg]. destruct Hf as (f & Hf & Hr & _).
  destruct (st_fresh _ _ Hs id f Hf Hr) as (_ & _ & _ & H). auto.
Qed.

Lemma batch_later w w' b : calm w w' -> batch_ok w b -> batch_ok w' b.
Proof.
  intros [Hs Hp] [A1 A2 A3 A4]. split; [by eapply opened_later|auto| |].
  - intros p Hin. eapply path_later; [done|apply batch_grows_refl|auto].
  - intros id Hin. eapply held_later; [done|apply batch_grows_refl|auto].
Qed.

(** All that is owed has been forced. *)
Definition stable_object (w : World) (id : ObjectId) : Prop :=
  file_ok w id /\ id ∈ d_links (w_disk w) /\
  d_nodes (w_disk w) !! shard_a id = Some true /\ shard_a id ∈ d_stable (w_disk w) /\
  d_nodes (w_disk w) !! shard_b id = Some true /\ shard_b id ∈ d_stable (w_disk w).

Lemma stable_later w w' id : steady w w' -> stable_object w id -> stable_object w' id.
Proof.
  intros Hs (Hf & Hl & H1 & H2 & H3 & H4). pose proof Hf as (f & Hf' & Hr & _).
  destruct (st_fresh _ _ Hs id f Hf' Hr) as (_ & _ & _ & Hl').
  split; [by eapply file_later|]. destruct Hs as [A1 A2 A3 A4]. split_and!; auto.
Qed.
End held.

(** ** Publishing, whatever fails and whoever interferes *)

Section publishing.
Context `{B3 : Blake3}.
Context (others : nat -> World -> World) (fails : nat -> bool) (ulid : nat -> str).
Context (keep_dirs : gset Path -> gset Path) (keep_oids : gset ObjectId -> gset ObjectId).

(** Nobody touches a temporary file with a name of this process. *)
Definition tmp_kept (w w' : World) : Prop :=
  forall k f, d_tmp (w_disk w) !! ulid k = Some f -> d_tmp (w_disk w') !! ulid k = Some f.

(** Others remove no directory and nothing fresh, keep what is stable, and
    teach the caches nothing untrue; what an LRU cache holds was put in it. *)
Context (Hothers : forall k w, calm w (others k w) /\ tmp_kept w (others k w)).
Context (Hkeep_dirs : forall ps, keep_dirs ps ⊆ ps) (Hkeep_oids : forall ids, keep_oids ids ⊆ ids).

Abbreviation io := (stateM Error World).
Abbreviation batched := (stateM Error (World * PublishBatch)).

Lemma meanwhile_calm w : calm w (meanwhile others w) /\ tmp_kept w (meanwhile others w).
Proof.
  destruct (Hothers (w_tick w) w) as [H1 H2]. split; [|exact H2]. transitivity (others (w_tick w) w); [done|by apply calm_same].
Qed.

Lemma wp_sys {A} (act : Disk -> Result A * Disk) w (Q : Result A -> World -> Prop) :
  (forall w1, calm w w1 -> tmp_kept w w1 -> (forall e, Q (Err e) w1) /\ Q (act (w_disk w1)).1 (set_disk (act (w_disk w1)).2 w1)) ->
  wp (sys others fails act) w Q.
Proof.
  intros H. destruct (meanwhile_calm w) as [H1 H2]. destruct (H _ H1 H2) as [Hf Ha]. unfold wp, sys.
  destruct (fails (w_tick w)); [apply Hf|]. by destruct (act _).
Qed.

Lemma wp_sys_or {A} (a : A) (act : Disk -> A * Disk) w (Q : Result A -> World -> Prop) :
  (forall w1, calm w w1 -> tmp_kept w w1 -> Q (Ok a) w1 /\ Q (Ok (act (w_disk w1)).1) (set_disk (act (w_disk w1)).2 w1)) ->
  wp (sys_or others fails a act) w Q.
Proof.
  intros H. destruct (meanwhile_calm w) as [H1 H2]. destruct (H _ H1 H2) as [Hf Ha]. unfold wp, sys_or.
  destruct (fails (w_tick w)); [apply Hf|]. by destruct (act _).
Qed.

(** *** What each call leaves *)

Lemma set_same w : set_disk (w_disk w) w = w.
Proof. by destruct w. Qed.

Lemma dir_present_calm p w : wp (ensure_dir_present others fails p) w (fun r w' => calm w w' /\ (r = Ok tt -> d_nodes (w_disk w') !! p = Some true)).
Proof.
  apply wp_bind, wp_sys. intros w1 H1 _. split; [by split|]. unfold create_dir.
  destruct (d_nodes (w_disk w1) !! p) as [nd|] eqn:Hp; cbn.
  - rewrite set_same. apply wp_sys. intros w2 H2 _. split; [split; [by transitivity w1|done]|]. unfold check_dir.
    destruct (d_nodes (w_disk w2) !! p) as [[|]|] eqn:Hp2; cbn; rewrite set_same; split; try done; by transitivity w1.
  - destruct (is_dir _ _); cbn; [|rewrite set_same; by split]. apply wp_ret. split.
    + transitivity w1; [done|]. by apply calm_mkdir.
    + intros _. cbn. by rewrite lookup_insert_eq.
Qed.

Lemma sync_dir_calm p w : wp (sync_dir others fails p) w (fun r w' => calm w w' /\ (r = Ok tt ->
  (forall q, parent q = p -> d_nodes (w_disk w) !! q = Some true -> q ∈ d_stable (w_disk w')) /\
  (forall i, shard_b i = p -> is_Some (d_files (w_disk w') !! i) -> i ∈ d_links (w_disk w')))).
Proof.
  apply wp_sys. intros w1 H1 _. split; [by split|]. destruct (is_dir p (w_disk w1)); cbn; [|rewrite set_same; by split].
  split; [transitivity w1; [done|apply calm_force_dir]|]. intros _. split.
  - intros q Hq Hn. cbn. apply elem_of_union_r, elem_of_filter. split; [done|]. apply elem_of_dom.
    rewrite (st_dirs _ _ (proj1 H1) q Hn). eauto.
  - intros i Hi Hs. cbn in *. apply elem_of_union_r, elem_of_filter. split; [done|]. by apply elem_of_dom.
Qed.

Lemma exists_calm i w : wp (object_exists others fails i) w (fun r w' => calm w w' /\ tmp_kept w w').
Proof. apply wp_sys_or. intros w1 H1 Ht. cbn. by rewrite set_same. Qed.

Lemma refresh_calm i w : wp (refresh_dedup_mtime others fails i) w (fun r w' => calm w w' /\ tmp_kept w w' /\
  (r = Ok RefreshedYes -> fresh_file w' i) /\ (r = Ok Vanished -> young w' i)).
Proof.
  apply wp_sys. intros w1 H1 Ht. split; [intros e; by split_and!|]. destruct (d_files (w_disk w1) !! i) as [f|] eqn:Hf; cbn.
  - split_and!; [transitivity w1; [done|eapply calm_file; [done|by split_and!]]|done| |done].
    intros _. exists (make_fresh f). cbn. by rewrite lookup_insert_eq.
  - rewrite set_same. split_and!; [done..|]. intros _ f Hf'. congruence.
Qed.

Lemma verified_file_ok i d f : verified_file i d = Ok f -> d_files d !! i = Some f /\ fl_regular f = true /\ hash_bytes (fl_data f) = i.
Proof.
  intros H. apply bind_ok in H as (g & Hg & H). apply bind_ok in H as ([] & Hr & [= <-]). unfold require_regular_file in Hg.
  destruct (d_files d !! i) as [g'|]; [|done]. destruct (fl_regular g') eqn:Hreg; [|done]. simplify_eq.
  apply reject_if_ok in Hr. apply negb_false_iff, bool_decide_eq_true in Hr. done.
Qed.

Lemma verify_calm i w f : d_files (w_disk w) !! i = Some f -> fl_fresh f = true ->
  wp (verify_existing others fails i) w (fun r w' => calm w w' /\ (r = Ok tt -> fl_stable f = true -> file_ok w' i)).
Proof.
  intros Hf Hr. apply wp_sys. intros w1 H1 _. split; [by split|]. cbn. destruct (verified_file i (w_disk w1)) as [g|e|] eqn:Hg; cbn; rewrite set_same; [|done..].
  split; [done|]. intros _ Hs. apply verified_file_ok in Hg as (Hg & Hreg & Hh).
  destruct (st_fresh _ _ (proj1 H1) i f Hf Hr) as (f' & Hf' & (K1 & _ & _ & K4) & _). assert (f' = g) as -> by congruence. exists g. split_and!; auto.
Qed.

Lemma verify_sync_calm i w : young w i ->
  wp (verify_and_sync_existing others fails i) w (fun r w' => calm w w' /\ (r = Ok tt -> file_ok w' i)).
Proof.
  intros Hy. apply wp_sys. intros w1 H1 _. split; [by split|]. cbn. destruct (verified_file i (w_disk w1)) as [g|e|] eqn:Hg; cbn; [|rewrite set_same; done..].
  apply verified_file_ok in Hg as (Hg & Hreg & Hh). pose proof (young_later _ _ _ (proj1 H1) Hy g Hg) as Hr. split.
  - transitivity w1; [done|]. eapply calm_file; [done|by split_and!].
  - intros _. exists (make_stable g). cbn. rewrite lookup_insert_eq. split_and!; auto.
Qed.

(** *** The temporary file *)

Definition tmp_is (name : str) (w : World) (data : bytes) (stable : bool) : Prop :=
  d_tmp (w_disk w) !! name = Some (mkFile true data stable true).

Lemma tmp_is_kept k w w' data st : tmp_kept w w' -> tmp_is (ulid k) w data st -> tmp_is (ulid k) w' data st.
Proof. intros H. apply H. Qed.

Lemma create_tmp_calm name w : wp (create_tmp others fails name) w (fun r w' => calm w w' /\ (r = Ok tt -> tmp_is name w' [] false)).
Proof.
  apply wp_sys. intros w1 H1 _. split; [by split|]. destruct (d_tmp (w_disk w1) !! name); cbn; [rewrite set_same; by split|].
  split; [transitivity w1; [done|apply calm_tmp]|]. intros _. unfold tmp_is. cbn. by rewrite lookup_insert_eq.
Qed.

Lemma with_tmp_calm k w data st g : tmp_is (ulid k) w data st ->
  wp (with_tmp others fails (ulid k) g) w (fun r w' => calm w w' /\ (r = Ok tt -> d_tmp (w_disk w') !! ulid k = Some (g (mkFile true data st true)))).
Proof.
  intros Hd. apply wp_sys. intros w1 H1 Ht. split; [by split|]. unfold tmp_is in Hd. rewrite (Ht k _ Hd). cbn.
  split; [transitivity w1; [done|apply calm_tmp]|]. intros _. by rewrite lookup_insert_eq.
Qed.

Lemma remove_tmp_calm name w : wp (remove_tmp others fails name) w (fun r w' => calm w w').
Proof. apply wp_sys_or. intros w1 H1 _. split; [done|]. transitivity w1; [done|apply calm_tmp]. Qed.

Lemma write_parts_calm k parts w : tmp_is (ulid k) w [] false ->
  wp (m_fold (fun _ part => write_tmp others fails (ulid k) part) tt parts) w
    (fun r w' => calm w w' /\ (r = Ok tt -> tmp_is (ulid k) w' (concat parts) false)).
Proof.
  intros Hd. apply (wp_m_fold _ (fun l1 _ w' => calm w w' /\ tmp_is (ulid k) w' (concat l1) false)); [done| |].
  - intros l1 x l2 [] w1 _ [Hc Ht]. eapply wp_mono; [by apply with_tmp_calm|]. intros r w2 [Hc2 Ht2].
    assert (calm w w2) by (by transitivity w1). destruct r as [[]| |]; split; try done.
    unfold tmp_is. rewrite (Ht2 eq_refl). cbn. by rewrite concat_app, (app_nil_r x : concat [x] = x).
  - by intros [] w1 [].
Qed.

(** The link is made, or nothing has changed. *)
Lemma hard_link_calm k w data i : tmp_is (ulid k) w data true -> hash_bytes data = i ->
  wp (hard_link others fails (ulid k) i) w (fun r w' =>
    (r = Ok LinkOk /\ steady w w' /\ file_ok w' i /\ (forall D, shard_b i ∈ D -> sound_proofs D w -> sound_proofs D w')) \/
    (exists l, r = Ok l /\ l <> LinkOk /\ calm w w' /\ tmp_is (ulid k) w' data true)).
Proof.
  intros Hd Hi. apply wp_sys_or. intros w1 H1 Ht. pose proof (Ht k _ Hd) as Hd1. rewrite Hd1. split; [right; by exists LinkErr|].
  destruct (d_files (w_disk w1) !! i) eqn:Hf; cbn [fst snd]; [rewrite set_same; right; by exists LinkExists|].
  destruct (is_dir (shard_b i) (w_disk w1)); cbn [fst snd]; [|rewrite set_same; right; by exists LinkErr].
  left. split_and!; [done| | |].
  - eapply steady_trans; [apply H1|]. by apply steady_link.
  - exists (mkFile true data true true). cbn. by rewrite lookup_insert_eq.
  - intros D HD Hs. apply sound_link; [done..|]. by apply H1.
Qed.

(** *** Steps of a batch *)

Definition later (w : World) (b : PublishBatch) (s : World * PublishBatch) : Prop :=
  steady w s.1 /\ grows b s.2 /\ batch_ok s.1 s.2.

Lemma later_refl w b : batch_ok w b -> later w b (w, b).
Proof. intros Hb. split_and!; [apply steady_refl|apply batch_grows_refl|done]. Qed.

Lemma wp_own {A} (m : io A) w0 b0 w b (P Q : _ -> _ -> Prop) : later w0 b0 (w, b) ->
  wp m w (fun r w' => calm w w' /\ P r w') ->
  (forall r w', later w0 b0 (w', b) -> calm w w' -> P r w' -> Q r (w', b)) ->
  wp (on_world m) (w, b) Q.
Proof.
  intros (Hs & Hg & Hb) Hm H. unfold wp, on_world in *. destruct (m w) as [r w'], Hm as [Hc HP]. cbn in *. apply H; [|done..].
  split_and!; cbn; [eapply steady_trans; [done|apply Hc]|done|by eapply batch_later].
Qed.

Lemma wp_own_calm {A} (m : io A) w0 b0 w b (Q : _ -> _ -> Prop) : later w0 b0 (w, b) ->
  wp m w (fun r w' => calm w w') ->
  (forall r w', later w0 b0 (w', b) -> calm w w' -> Q r (w', b)) ->
  wp (on_world m) (w, b) Q.
Proof.
  intros Hl Hm H. eapply (wp_own m w0 b0 w b (fun _ _ => True)); [done| |eauto]. eapply wp_mono; [exact Hm|]. by split.
Qed.

(** The batch that owes [i] its entry. *)
Definition owe_dir (i : ObjectId) (b : PublishBatch) : PublishBatch :=
  mkBatch ({[ shard_b i ]} ∪ pb_dirs b) (pb_path_dirs b) (pb_proofs b) (pb_oids b).

Lemma owe_dir_ok i w b : batch_ok w b -> batch_ok w (owe_dir i b).
Proof.
  intros [A1 A2 A3 A4]. split; [done|eapply sound_owing; [|done]; set_solver|done|].
  intros j Hj. eapply held_later; [apply steady_refl| |by apply A4]. split; set_solver.
Qed.

Definition on_path (w : World) (b : PublishBatch) (i : ObjectId) : Prop := path_ok w b (shard_a i) /\ path_ok w b (shard_b i).

Lemma on_path_later w w' b b' i : steady w w' -> grows b b' -> on_path w b i -> on_path w' b' i.
Proof. intros Hs Hg [H1 H2]. split; by eapply path_later. Qed.

(** What a publication of [i] ends in, if it ends well. *)
Definition published (w0 : World) (b0 : PublishBatch) (i : ObjectId) (r : Result ObjectId) (s : World * PublishBatch) : Prop :=
  later w0 b0 s /\ forall j, r = Ok j -> j = i /\ held s.1 s.2 i.

Lemma owed_later w0 b0 w b i : steady w0 w -> grows b0 b -> batch_ok w (owe_dir i b) -> file_ok w i -> on_path w b i ->
  wp (owe_object i) (w, b) (fun r s => r = Ok tt /\ later w0 b0 s /\ held s.1 s.2 i).
Proof.
  intros Hs Hg [A1 A2 A3 A4] Hf [Ha Hb]. set (b' := mkBatch ({[ shard_b i ]} ∪ pb_dirs b) (pb_path_dirs b) (pb_proofs b) ({[ i ]} ∪ pb_oids b)).
  assert (grows b b') as G by (split; set_solver).
  assert (held w b' i) as Hh.
  { split; [done|right; cbn; set_solver|eapply path_later; [apply steady_refl|exact G|done]..]. }
  split_and!; [done| |exact Hh]. split_and!; [done|by eapply batch_grows_trans|]. split; [done..|].
  intros j Hj. cbn in Hj. destruct (decide (j = i)) as [->|Hne]; [exact Hh|].
  assert (j ∈ pb_oids b) as Hjb by set_solver. destruct (A4 j Hjb) as [B1 B2 B3' B4]. by split.
Qed.

(** *** Publishing an object *)

Lemma wp_proved i w b (Q : Result bool -> World * PublishBatch -> Prop) :
  Q (Ok (bool_decide (i ∈ w_oids w))) (w, b) -> wp (on_world (oid_is_durable i)) (w, b) Q.
Proof. done. Qed.

Lemma wp_proved_dir p w b (Q : Result bool -> World * PublishBatch -> Prop) :
  Q (Ok (bool_decide (p ∈ w_dirs w))) (w, b) -> wp (on_world (dir_is_durable p)) (w, b) Q.
Proof. done. Qed.

Lemma join_published w0 b0 w b i : later w0 b0 (w, b) -> fresh_file w i -> on_path w b i ->
  wp (join_existing others fails i) (w, b) (published w0 b0 i).
Proof.
  intros Hl (f & Hf & Hr) Hp. apply wp_bind, wp_proved. case_bool_decide as Hin; apply wp_bind.
  - destruct (sp_oids _ _ (bo_sound _ _ (proj2 (proj2 Hl))) i f Hin Hf) as [Hst Hlk]. eapply wp_own; [done|by apply verify_calm|].
    intros [[]| |] w1 Hl1 Hc Hv; [|split; done..]. apply wp_ret. split; [done|]. intros j [= <-]. split; [done|]. cbn [fst snd].
    destruct (on_path_later w w1 b b i (proj1 Hc) (batch_grows_refl b) Hp) as [Ha Hb]. split; [by apply Hv| |done..].
    destruct Hlk as [Hlk|Hlk]; [left|by right]. destruct (st_fresh _ _ (proj1 Hc) i f Hf Hr) as (_ & _ & _ & H). auto.
  - eapply wp_own; [done|apply verify_sync_calm, fresh_young; by exists f|]. intros [[]| |] w1 Hl1 Hc Hv; [|split; done..]. apply wp_bind.
    destruct Hl1 as (Hs1 & Hg1 & Hb1). cbn [fst snd] in *. eapply wp_mono; [apply (owed_later w0 b0); [done..|by apply owe_dir_ok|by apply Hv|]|].
    + eapply on_path_later; [apply Hc|apply batch_grows_refl|done].
    + intros r s (-> & Hl2 & Hh). apply wp_ret. split; [done|]. intros j [= <-]. done.
Qed.

(** The directory is there, its entry stable or owed a barrier. *)
Lemma ensure_path_dir_ok st child w0 b0 w b : later w0 b0 (w, b) ->
  wp (ensure_path_dir others fails keep_dirs st (parent child) child) (w, b)
    (fun r s => later w0 b0 s /\ later w b s /\ (r = Ok tt -> path_ok s.1 s.2 child)).
Proof.
  intros Hl. pose proof Hl as (Hs & Hg & Hb). cbn [fst snd] in *. pose proof (later_refl w b Hb) as Hr.
  assert (forall s, later w b s -> later w0 b0 s) as Htr.
  { intros s (S1 & S2 & S3). split_and!; [by eapply steady_trans|by eapply batch_grows_trans|done]. }
  apply wp_bind, wp_proved_dir. case_bool_decide as Hin.
  { apply wp_ret. split_and!; [done..|]. intros _. destruct (sp_dirs _ _ (bo_sound _ _ Hb) child Hin). split; [done|by left]. }
  apply wp_bind. eapply wp_own; [exact Hr|apply dir_present_calm|]. intros r w1 Hl1 Hc1 Hn. destruct r as [[]| |]; [|split_and!; auto; done..].
  pose proof (Hn eq_refl) as Hn1. destruct (defers _).
  - pose proof Hl1 as (Hs1 & Hg1 & [A1 A2 A3 A4]). set (b' := mkBatch (pb_dirs b) ({[ parent child ]} ∪ pb_path_dirs b) ({[ child ]} ∪ pb_proofs b) (pb_oids b)).
    assert (grows b b') as G by (split; set_solver).
    assert (path_ok w1 b' child) as Hp by (split; [done|right; set_solver]).
    assert (later w b (w1, b')) as Hl2.
    { split_and!; [done..|]. split; [done..| |].
      - intros p Hp'. destruct (decide (p = child)) as [->|Hne]; [done|]. eapply path_later; [apply steady_refl|exact G|apply A3; set_solver].
      - intros j Hj. eapply held_later; [apply steady_refl|exact G|auto]. }
    change (later w0 b0 (w1, b') /\ later w b (w1, b') /\ (Ok (E := Error) tt = Ok tt -> path_ok w1 b' child)). auto.
  - apply wp_bind. eapply wp_own; [exact Hl1|apply sync_dir_calm|]. intros r w2 Hl2 Hc2 Hsy. destruct r as [[]| |]; [|split_and!; auto; done..].
    destruct (Hsy eq_refl) as [Hst _]. pose proof (Hst child eq_refl Hn1) as Hst2. pose proof (st_dirs _ _ (proj1 Hc2) child Hn1) as Hn2.
    assert (later w b (mkWorld (w_disk w2) (keep_dirs ({[ child ]} ∪ w_dirs w2)) (w_oids w2) (w_tick w2), b)) as Hl3.
    { destruct Hl2 as (Hs2 & Hg2 & [A1 A2 A3 A4]). split_and!; [|done|]; cbn in *.
      - eapply steady_trans; [exact Hs2|]. by apply steady_same.
      - split; [done| |done|by intros j Hj; destruct (A4 j Hj)]. split; cbn; [|apply A2]. intros p Hp%Hkeep_dirs.
        apply elem_of_union in Hp as [Hp%elem_of_singleton|Hp]; [by subst|]. by apply (sp_dirs _ _ A2). }
    split_and!; [by apply Htr|done|]. intros _. split; [done|by left].
Qed.

Lemma wp_on_world {A} (m : io A) w b (Q : Result A -> World * PublishBatch -> Prop) :
  wp m w (fun r w' => Q r (w', b)) -> wp (on_world m) (w, b) Q.
Proof. unfold wp, on_world. by destruct (m w). Qed.

Lemma batch_linked w w' b i : steady w w' -> (forall D, shard_b i ∈ D -> sound_proofs D w -> sound_proofs D w') ->
  batch_ok w b -> batch_ok w' (owe_dir i b).
Proof.
  intros Hs HD [A1 A2 A3 A4]%(owe_dir_ok i). split; [by eapply opened_later|apply HD; [set_solver|done]| |].
  - intros p Hin. eapply path_later; [done|apply batch_grows_refl|auto].
  - intros j Hin. eapply held_later; [done|apply batch_grows_refl|auto].
Qed.

(** What follows a link that was made. *)
Lemma linked_published name w0 b0 w w' b i : later w0 b0 (w, b) -> on_path w b i -> steady w w' -> file_ok w' i ->
  (forall D, shard_b i ∈ D -> sound_proofs D w -> sound_proofs D w') ->
  wp (_ ← owe_object i; _ ← on_world (remove_tmp others fails name); mret i) (w', b) (published w0 b0 i).
Proof.
  intros (Hs & Hg & Hb) Hp Hst Hf HD. cbn [fst snd] in *. apply wp_bind. eapply wp_mono.
  - apply (owed_later w0 b0); [by eapply steady_trans|done|by eapply batch_linked|done|].
    eapply on_path_later; [done|apply batch_grows_refl|done].
  - intros r [w1 b1] (-> & Hl & Hh). apply wp_bind. eapply wp_own_calm; [exact Hl|apply remove_tmp_calm|].
    intros r w2 Hl2 Hc. assert (held w2 b1 i) by (eapply held_later; [apply Hc|apply batch_grows_refl|done]).
    destruct r as [[]| |]; [apply wp_ret; split; [done|]; by intros j [= <-]|split; done..].
Qed.

Lemma lost_link_published k data w0 b0 w b i : later w0 b0 (w, b) -> tmp_is (ulid k) w data true -> hash_bytes data = i -> on_path w b i ->
  wp (after_lost_link others fails (ulid k) i) (w, b) (published w0 b0 i).
Proof.
  intros Hl Ht Hi Hp. apply wp_bind. eapply wp_own; [exact Hl|apply refresh_calm|]. intros r w1 Hl1 Hc1 (Hk & Hyes & Hno).
  pose proof (on_path_later w w1 b b i (proj1 Hc1) (batch_grows_refl b) Hp) as Hp1. destruct r as [[]| |]; [| |split; done..].
  - apply wp_bind. eapply wp_own_calm; [exact Hl1|apply remove_tmp_calm|]. intros r w2 Hl2 Hc2. destruct r as [[]| |]; [|split; done..].
    pose proof (fresh_later _ _ _ (proj1 Hc2) (Hyes eq_refl)) as Hf2. pose proof (on_path_later w1 w2 b b i (proj1 Hc2) (batch_grows_refl b) Hp1) as Hp2.
    pose proof (join_published w0 b0 w2 b i Hl2 Hf2 Hp2) as H. revert H. unfold wp, join_existing, mbind, stateM_bind, on_world, oid_is_durable.
    by case_bool_decide.
  - apply wp_bind, wp_on_world. eapply wp_mono; [apply (hard_link_calm k w1 data i); [by apply (tmp_is_kept k w)|done]|].
    intros r w2 [(-> & Hs & Hf & HD)|(l & -> & Hne & Hc2 & Ht2)].
    + apply wp_bind, wp_ret. by eapply (linked_published (ulid k) w0 b0 w1).
    + assert (later w0 b0 (w2, b)) as Hl2.
      { destruct Hl1 as (S1 & G1 & B1). split_and!; [eapply steady_trans; [exact S1|apply Hc2]|done|by eapply batch_later]. }
      pose proof (on_path_later w1 w2 b b i (proj1 Hc2) (batch_grows_refl b) Hp1) as Hp2.
      assert (wp (_ ← on_world (verify_and_sync_existing others fails i); _ ← owe_object i; _ ← on_world (remove_tmp others fails (ulid k)); mret i) (w2, b) (published w0 b0 i)) as H.
      { apply wp_bind. eapply wp_own; [exact Hl2|apply verify_sync_calm; eapply young_later; [apply Hc2|by apply Hno]|].
        intros r w3 Hl3 Hc3 Hv. destruct r as [[]| |]; [|split; done..].
        eapply (linked_published (ulid k) w0 b0 w3); [done| |apply steady_refl|by apply Hv|done].
        by apply (on_path_later w2 w3 b b i (proj1 Hc3) (batch_grows_refl b)). }
      by destruct l.
Qed.

Lemma publish_as_published k parts i w0 b0 w b : later w0 b0 (w, b) -> hash_bytes (concat parts) = i -> on_path w b i ->
  wp (publish_as others fails (ulid k) parts i) (w, b) (published w0 b0 i).
Proof.
  intros Hl Hi Hp.
  apply wp_bind. eapply wp_own; [exact Hl|apply create_tmp_calm|]. intros r w1 Hl1 Hc1 Ht1. destruct r as [[]| |]; [|split; done..].
  apply wp_bind. eapply wp_own; [exact Hl1|by apply write_parts_calm, Ht1|]. intros r w2 Hl2 Hc2 Ht2. destruct r as [[]| |]; [|split; done..].
  apply wp_bind. eapply wp_own; [exact Hl2|by apply (with_tmp_calm k w2 (concat parts) false), Ht2|]. intros r w3 Hl3 Hc3 Ht3. destruct r as [[]| |]; [|split; done..].
  assert (tmp_is (ulid k) w3 (concat parts) true) as Ht by by apply Ht3.
  assert (on_path w3 b i) as Hp3.
  { eapply on_path_later; [|apply batch_grows_refl|exact Hp]. eapply steady_trans; [apply Hc1|]. eapply steady_trans; [apply Hc2|apply Hc3]. }
  apply wp_bind, wp_on_world. eapply wp_mono; [by apply (hard_link_calm k w3 (concat parts) i)|].
  intros r w4 [(-> & Hs & Hf & HD)|(l & -> & Hne & Hc4 & Ht4)]; [by eapply (linked_published (ulid k) w0 b0 w3)|].
  assert (later w0 b0 (w4, b)) as Hl4.
  { destruct Hl3 as (S1 & G1 & B1). split_and!; [eapply steady_trans; [exact S1|apply Hc4]|done|by eapply batch_later]. }
  pose proof (on_path_later w3 w4 b b i (proj1 Hc4) (batch_grows_refl b) Hp3) as Hp4.
  destruct l; [done|by eapply (lost_link_published k)|].
  apply wp_bind. eapply wp_own; [exact Hl4|apply exists_calm|]. intros r w5 Hl5 Hc5 Hk5. destruct r as [present| |]; [|split; done..]. destruct present.
  - eapply (lost_link_published k); [done|by apply (tmp_is_kept k w4)|done|by apply (on_path_later w4 w5 b b i (proj1 Hc5) (batch_grows_refl b))].
  - apply wp_bind. eapply wp_own_calm; [exact Hl5|apply remove_tmp_calm|]. intros r w6 Hl6 _. destruct r as [[]| |]; split; done.
Qed.

(** The whole publication: it answers the hash of the bytes, and the batch
    holds the object. *)
Lemma put_parts_published st parts w b : batch_ok w b ->
  wp (put_parts others fails ulid keep_dirs st parts) (w, b) (published w b (hash_bytes (concat parts))).
Proof.
  intros Hb. unfold put_parts. rewrite hash_parts_concat. set (i := hash_bytes (concat parts)).
  destruct (lb_read_only st); [by split; [apply later_refl|]|].
  apply wp_bind. eapply wp_mono; [apply (ensure_path_dir_ok st (shard_a i) w b w b), later_refl, Hb|].
  intros r [w1 b1] (Hl1 & _ & Ha). destruct r as [[]| |]; [|split; done..]. specialize (Ha eq_refl).
  apply wp_bind. eapply wp_mono; [apply (ensure_path_dir_ok st (shard_b i) w b w1 b1 Hl1)|].
  intros r [w2 b2] (Hl2 & Hl12 & Hbb). destruct r as [[]| |]; [|split; done..]. specialize (Hbb eq_refl).
  assert (on_path w2 b2 i) as Hp2 by (split; [eapply path_later; [apply Hl12|apply Hl12|done]|done]).
  assert (forall w', steady w2 w' -> on_path w' b2 i) as Hp by (intros w' Hs; eapply on_path_later; [done|apply batch_grows_refl|done]).
  apply wp_bind. eapply wp_own_calm; [exact Hl2|eapply wp_mono; [apply exists_calm|by intros ? ? []]|]. intros r w3 Hl3 Hc3. destruct r as [present| |]; [|split; done..].
  apply wp_bind. destruct present.
  - apply wp_bind. eapply wp_own; [exact Hl3|apply refresh_calm|]. intros r w4 Hl4 Hc4 (_ & Hyes & _). destruct r as [rf| |]; [|split; done..].
    assert (on_path w4 b2 i) as Hp4 by (apply Hp; eapply steady_trans; [apply Hc3|apply Hc4]). apply wp_ret. destruct rf.
    + by apply join_published; [|apply Hyes|].
    + by apply publish_as_published.
  - apply wp_ret. apply publish_as_published; [done..|]. by apply Hp, Hc3.
Qed.

(** *** Finishing a batch *)

(** What was there at [w] is forced at [w'], in the directories [P] of paths
    and [O] of objects. *)
Definition forced (P O : gset Path) (w w' : World) : Prop :=
  (forall q, parent q ∈ P -> d_nodes (w_disk w) !! q = Some true -> q ∈ d_stable (w_disk w')) /\
  (forall i, shard_b i ∈ O -> fresh_file w i -> i ∈ d_links (w_disk w')).

Lemma sync_dirs_forced l w D : sound_proofs D w ->
  wp (m_fold (fun _ p => sync_dir others fails p) tt l) w (fun r w' => calm w w' /\ (r = Ok tt ->
    sound_proofs (D ∖ list_to_set l) w' /\ forced (list_to_set l) (list_to_set l) w w')).
Proof.
  intros HD. apply (wp_m_fold _ (fun l1 _ w' => calm w w' /\ sound_proofs (D ∖ list_to_set l1) w' /\ forced (list_to_set l1) (list_to_set l1) w w')).
  - split; [done|]. split; [eapply sound_owing; [|done]; set_solver|]. split; set_solver.
  - intros l1 x l2 [] w1 _ (Hc & Hs & Hq & Hi). eapply wp_mono; [apply sync_dir_calm|]. intros r w2 [Hc2 Hx].
    assert (calm w w2) as Hc02 by (by transitivity w1). destruct r as [[]| |]; [|split; done..]. destruct (Hx eq_refl) as [Hx1 Hx2].
    rewrite list_to_set_app_L. cbn. rewrite union_empty_r_L. split_and!; [done| |].
    + pose proof (proj2 Hc2 _ Hs) as [A1 A2]. split; [done|]. intros i f Hin Hf. destruct (A2 i f Hin Hf) as [Hst Hl]. split; [done|].
      destruct (decide (shard_b i = x)) as [E|E]; [left; by apply Hx2|]. destruct Hl as [Hl|Hl]; [by left|right; set_solver].
    + split.
      * intros q Hin Hn. apply elem_of_union in Hin as [Hin|Hin%elem_of_singleton].
        -- apply (st_stable _ _ (proj1 Hc2)). by apply Hq.
        -- apply Hx1; [done|]. by apply (st_dirs _ _ (proj1 Hc)).
      * intros i Hin Hfr. pose proof (fresh_later _ _ _ (proj1 Hc) Hfr) as (f1 & Hf1 & Hr1).
        destruct (st_fresh _ _ (proj1 Hc2) i f1 Hf1 Hr1) as (f2 & Hf2 & _ & Hl). apply elem_of_union in Hin as [Hin|Hin%elem_of_singleton].
        -- apply Hl. by apply Hi.
        -- apply Hx2; [done|]. eauto.
  - intros [] w' (Hc & H). split; [done|]. by intros _.
Qed.

Lemma fs_barrier_forced w D P O : sound_proofs D w ->
  wp (fs_barrier others fails) w (fun r w' => calm w w' /\ (r = Ok tt -> sound_proofs ∅ w' /\ forced P O w w')).
Proof.
  intros HD. apply wp_sys. intros w1 Hc _. split; [by split|]. cbn [fst snd]. split; [transitivity w1; [done|apply calm_force_all]|]. intros _.
  pose proof (proj2 Hc _ HD) as [A1 A2]. split; [split; cbn|split; cbn].
  - intros p Hp. destruct (A1 p Hp). split; [done|set_solver].
  - intros i f Hi Hf. rewrite lookup_fmap in Hf. apply fmap_Some in Hf as (f0 & Hf & ->). split; [done|]. left.
    apply elem_of_union_r, elem_of_dom. eauto.
  - intros q _ Hn. apply elem_of_union_r, elem_of_dom. rewrite (st_dirs _ _ (proj1 Hc) q Hn). eauto.
  - intros i _ Hfr. apply (fresh_later _ _ _ (proj1 Hc)) in Hfr as (f & Hf & _). apply elem_of_union_r, elem_of_dom. eauto.
Qed.

Lemma path_forced w w' b O p : steady w w' -> forced (pb_path_dirs b) O w w' -> path_ok w b p ->
  d_nodes (w_disk w') !! p = Some true /\ p ∈ d_stable (w_disk w').
Proof. intros Hs [Hq _] [Hn [Hst|Hin]]; (split; [by apply (st_dirs _ _ Hs)|]); [by apply (st_stable _ _ Hs)|by apply Hq]. Qed.

Lemma held_forced w w' b id : steady w w' -> forced (pb_path_dirs b) (pb_dirs b) w w' -> held w b id -> stable_object w' id.
Proof.
  intros Hs Hfo [Hf Hl Ha Hb]. destruct (path_forced _ _ _ _ _ Hs Hfo Ha), (path_forced _ _ _ _ _ Hs Hfo Hb).
  split; [by eapply file_later|]. split; [|done]. destruct Hf as (f & Hf & Hr & _).
  destruct (st_fresh _ _ Hs id f Hf Hr) as (_ & _ & _ & Hk). destruct Hl as [Hl|Hl]; [auto|]. apply Hfo; [done|]. by exists f.
Qed.

(** A finished batch: what it holds is stable and the cached proofs are true;
    a failed one teaches the caches nothing. *)
Lemma batch_finish_spec st w b : batch_ok w b ->
  wp (finish others fails keep_dirs keep_oids st b) w (fun r w' => steady w w' /\ sound_proofs (pb_dirs b) w' /\
    (r = Ok tt -> sound_proofs ∅ w' /\ forall id, held w b id -> stable_object w' id)).
Proof.
  intros Hb. unfold finish. set (collapse := _ && _).
  assert (wp (if collapse then fs_barrier others fails else _ ← m_fold (fun _ p => sync_dir others fails p) tt (elements (pb_path_dirs b));
             m_fold (fun _ p => sync_dir others fails p) tt (elements (pb_dirs b))) w
             (fun r w' => calm w w' /\ (r = Ok tt -> sound_proofs ∅ w' /\ forced (pb_path_dirs b) (pb_dirs b) w w'))) as Hphase.
  { destruct collapse; [by eapply fs_barrier_forced, bo_sound|]. apply wp_bind. eapply wp_mono; [eapply sync_dirs_forced, bo_sound, Hb|].
    intros r w1 [Hc1 H1]. destruct r as [[]| |]; [|split; done..]. destruct (H1 eq_refl) as [_ [Hq _]]. rewrite list_to_set_elements_L in Hq.
    eapply wp_mono; [apply (sync_dirs_forced _ w1 (pb_dirs b)), Hc1, Hb|]. intros r w2 [Hc2 H2]. split; [by transitivity w1|]. intros ->.
    destruct (H2 eq_refl) as [Hs [_ Hi]]. rewrite list_to_set_elements_L in *. split; [eapply sound_owing; [|done]; set_solver|]. split.
    - intros q Hin Hn. apply (st_stable _ _ (proj1 Hc2)). by apply Hq.
    - intros i Hin Hfr. apply Hi; [done|]. eapply fresh_later; [apply Hc1|done]. }
  apply wp_bind. eapply wp_mono; [exact Hphase|]. intros r w1 [Hc1 H1].
  destruct r as [[]| |]; [|split_and!; [apply Hc1|by apply Hc1, bo_sound|done]..]. destruct (H1 eq_refl) as [Hs Hfo].
  unfold wp, mbind, stateM_bind, put_dirs, put_oids. cbn [fst snd w_disk w_dirs w_oids w_tick].
  set (w2 := mkWorld _ _ _ _). assert (sound_proofs ∅ w2) as Hs2.
  { destruct Hs as [A1 A2]. split; cbn.
    - intros p Hp%Hkeep_dirs. apply elem_of_union in Hp as [Hp|Hp]; [|by apply A1].
      eapply path_forced; [apply Hc1|exact Hfo|by apply (bo_proofs _ _ Hb)].
    - intros i f Hi%Hkeep_oids Hf. apply elem_of_union in Hi as [Hi|Hi]; [|by apply A2].
      destruct (held_forced _ _ _ _ (proj1 Hc1) Hfo (bo_oids _ _ Hb i Hi)) as ((g & Hg & _ & _ & _ & Hst) & Hl & _).
      assert (g = f) as -> by congruence. split; [done|by left]. }
  assert (steady w w2) as Hst by (eapply steady_trans; [apply Hc1|by apply steady_same]).
  split_and!; [done|eapply sound_owing; [|exact Hs2]; set_solver|]. intros _. split; [done|]. intros i Hi.
  eapply stable_later; [by apply (steady_same w1)|]. by eapply held_forced; [apply Hc1|exact Hfo|].
Qed.

(** *** Whole batches *)

Definition ready (w : World) : Prop := opened w /\ sound_proofs ∅ w.

Lemma ready_begin w : ready w -> batch_ok w begin_batch.
Proof. intros [Ho Hs]. by split. Qed.

Lemma put_all_published st objects w b : batch_ok w b ->
  wp (put_all others fails ulid keep_dirs st objects) (w, b) (fun r s => later w b s /\
    forall ids, r = Ok ids -> ids = map (fun parts => hash_bytes (concat parts)) objects /\ Forall (held s.1 s.2) ids).
Proof.
  revert w b. induction objects as [|parts rest IH]; intros w b Hb; cbn [put_all].
  { apply wp_ret. split; [by apply later_refl|]. by intros ids [= <-]. }
  apply wp_bind. eapply wp_mono; [by apply put_parts_published|]. intros r [w1 b1] [Hl Hr]. destruct r as [id| |]; [|split; done..].
  destruct (Hr id eq_refl) as [-> Hh]. apply wp_bind. eapply wp_mono; [apply IH, Hl|]. intros r [w2 b2] [Hl2 Hr2].
  assert (later w b (w2, b2)) as Hl02.
  { destruct Hl as (S1 & G1 & B1), Hl2 as (S2 & G2 & B2). split_and!; [by eapply steady_trans|by eapply batch_grows_trans|done]. }
  destruct r as [ids| |]; [|split; done..]. apply wp_ret. split; [done|]. intros ids' [= <-]. destruct (Hr2 ids eq_refl) as [-> Hids].
  split; [done|]. constructor; [|done]. eapply held_later; [apply Hl2|apply Hl2|done].
Qed.

Lemma publish_all_spec st objects w : ready w ->
  wp (publish_all others fails ulid keep_dirs keep_oids st objects) w (fun r w' => steady w w' /\
    forall ids, r = Ok ids -> ids = map (fun parts => hash_bytes (concat parts)) objects /\ ready w' /\ Forall (stable_object w') ids).
Proof.
  intros Hr. pose proof (put_all_published st objects w begin_batch (ready_begin w Hr)) as Hp. unfold publish_all, wp in *.
  destruct (put_all _ _ _ _ st objects (w, begin_batch)) as [r [w1 b1]]. cbn [fst snd] in Hp. destruct Hp as [(Hs1 & Hg1 & Hb1) Hr1].
  destruct r as [ids| |]; [|by split..]. destruct (Hr1 ids eq_refl) as [-> Hids]. cbn [fst snd] in *.
  change (wp (_ ← finish others fails keep_dirs keep_oids st b1; mret (map (fun parts => hash_bytes (concat parts)) objects)) w1 (fun r w' => steady w w' /\
    forall ids, r = Ok ids -> ids = map (fun parts => hash_bytes (concat parts)) objects /\ ready w' /\ Forall (stable_object w') ids)).
  apply wp_bind. eapply wp_mono; [by apply batch_finish_spec|]. intros r w2 (Hs2 & _ & H2). assert (steady w w2) as Hs by (by eapply steady_trans).
  destruct r as [[]| |]; [|by split..]. destruct (H2 eq_refl) as [Hsound Hst]. apply wp_ret. split; [done|]. intros ids [= <-].
  split; [done|]. split; [split; [eapply opened_later; [exact Hs|exact (proj1 Hr)]|done]|]. eapply Forall_impl; [exact Hids|]. auto.
Qed.

(** *** Opening, from any disk at all *)

Lemma cleanup_calm age_ms plain w : wp (cleanup_stale_tmp others fails age_ms plain) w (fun r w' => calm w w').
Proof.
  apply wp_bind, wp_sys. intros w1 H1 _. split; [done|]. cbn [fst snd]. rewrite set_same. apply wp_bind.
  apply (wp_m_fold _ (fun _ _ w' => calm w w')); [done| |].
  - intros l1 name l2 removed w2 _ H2. destruct (negb _); [by apply wp_ret|]. destruct (age_ms name) as [age|]; [|by apply wp_ret].
    destruct (_ <? _); [by apply wp_ret|]. apply wp_bind, wp_sys. intros w3 H3 _. split; [intros e; by transitivity w2|]. cbn [fst snd].
    apply wp_ret. transitivity w2; [done|]. transitivity w3; [done|apply calm_tmp].
  - intros removed w2 H2. destruct removed; [|by apply wp_ret]. eapply wp_mono; [apply sync_dir_calm|]. intros r w3 [H3 _]. by transitivity w2.
Qed.

Lemma dir_durable_ready par child w : par = parent child -> sound_proofs ∅ w ->
  wp (ensure_dir_durable others fails keep_dirs par child) w (fun r w' => steady w w' /\ sound_proofs ∅ w' /\
    (r = Ok tt -> d_nodes (w_disk w') !! child = Some true /\ child ∈ d_stable (w_disk w'))).
Proof.
  intros -> Hs. unfold ensure_dir_durable. apply wp_bind. unfold wp at 1, dir_is_durable. cbn [fst snd]. case_bool_decide as Hin.
  { apply wp_ret. split_and!; [apply steady_refl|done|]. intros _. by apply Hs. }
  apply wp_bind. eapply wp_mono; [apply dir_present_calm|]. intros r w1 [H1 Hn]. destruct r as [[]| |]; [|split_and!; [apply H1|by apply H1|done]..].
  specialize (Hn eq_refl). apply wp_bind. eapply wp_mono; [apply sync_dir_calm|]. intros r w2 [H2 Hf].
  assert (calm w w2) as H02 by (by transitivity w1). destruct r as [[]| |]; [|split_and!; [apply H02|by apply H02|done]..].
  destruct (Hf eq_refl) as [Hst _]. pose proof (Hst child eq_refl Hn) as Hc. pose proof (st_dirs _ _ (proj1 H2) child Hn) as Hn2.
  split_and!; [eapply steady_trans; [apply H02|by apply steady_same]| |done].
  pose proof (proj2 H02 _ Hs) as [A1 A2]. split; cbn; [|done]. intros p Hp%Hkeep_dirs.
  apply elem_of_union in Hp as [Hp%elem_of_singleton|Hp]; [by subst|auto].
Qed.

Lemma open_ready age_ms plain anchor barrier w st w' :
  with_directory_barrier others fails keep_dirs age_ms plain anchor barrier w = (Ok st, w') -> ready w' /\ lb_read_only st = false.
Proof.
  set (w0 := mkWorld (w_disk w) ∅ ∅ (w_tick w)). assert (sound_proofs ∅ w0) as H0 by (split; cbn; set_solver).
  intros E. enough (wp (with_directory_barrier others fails keep_dirs age_ms plain anchor barrier) w (fun r w' => forall st, r = Ok st -> ready w' /\ lb_read_only st = false)) as H.
  { unfold wp in H. rewrite E in H. by apply H. }
  unfold wp, with_directory_barrier. fold w0. match goal with |- context [?m w0] => change (wp m w0 (fun r w' => forall st, r = Ok st -> ready w' /\ lb_read_only st = false)) end.
  apply wp_bind. eapply wp_mono; [by apply dir_durable_ready|]. intros r w1 (H1 & S1 & O1). destruct r as [[]| |]; [|done..].
  apply wp_bind. eapply wp_mono; [by apply dir_durable_ready|]. intros r w2 (H2 & S2 & _). destruct r as [[]| |]; [|done..].
  apply wp_bind. eapply wp_mono; [apply cleanup_calm|]. intros r w3 H3. destruct r as [[]| |]; [|done..]. apply wp_ret. intros st' [= <-].
  split; [|done]. split; [|by apply H3]. eapply opened_later; [apply H3|]. eapply opened_later; [exact H2|]. by apply O1.
Qed.
End publishing.

(** ** After a crash *)

Section crash_lemmas.
Context `{B3 : Blake3}.

(** Reading with nobody else about. *)
Definition alone (k : nat) (w : World) : World := w.
Definition reads (id : ObjectId) (d : Disk) : Result bytes := (get alone (fun _ => false) id (mkWorld d ∅ ∅ 0)).1.

Lemma reads_file id d f : d_files d !! id = Some f -> fl_regular f = true -> hash_bytes (fl_data f) = id -> reads id d = Ok (fl_data f).
Proof.
  intros Hf Hr Hh. unfold reads, get, sys, sys_or, meanwhile, alone, require_regular_file, mbind, stateM_bind.
  cbn [w_disk w_tick set_disk]. rewrite Hf, Hr. cbn. by rewrite bool_decide_eq_true_2.
Qed.

Lemma crash_keeps w id keep torn : opened w -> stable_object w id ->
  exists b, reads id (crash keep torn (w_disk w)) = Ok b /\ hash_bytes b = id.
Proof.
  intros [_ Ho] ((f & Hf & _ & Hreg & Hh & Hst) & Hl & _ & Ha & _ & Hb). exists (fl_data f). split; [|done].
  assert (survives keep (w_disk w) (shard_b id) = true) as Hs.
  { unfold survives. cbn [length shard_b seq forallb take]. change [bs "objects"] with OBJECTS. change [bs "objects"; take 2 (hex id)] with (shard_a id).
    fold (shard_b id). by rewrite !bool_decide_eq_true_2. }
  apply reads_file; [|done..]. unfold crash. cbn [d_files]. rewrite map_lookup_imap, Hf. cbn [mbind option_bind]. rewrite Hs. cbn [negb].
  by rewrite bool_decide_eq_true_2, Hst by done.
Qed.
End crash_lemmas.

(** C9: the objects of an answered batch survive a crash.  Opening the store on
    any disk at all, when it answers, makes it ready.  On a ready store, under
    each of the three barrier policies and whatever calls fail, publishing a
    batch is steady: no directory goes, nothing stable is lost, no fresh object
    is collected.  And if it answers identifiers, they are the hashes of the
    objects put, the store is ready again, and after any further steady
    activity and a crash that loses all that was not forced, each object is
    read back with bytes of that hash.  Others may do meanwhile what is [calm]:
    what is steady, makes no cached proof of durability untrue, and leaves our
    temporary files alone; a collection by another process, or by this one that
    left a proof of what it removed, is not.  A batch that fails need not leave
    the store ready: it is ready again when it is opened again, and until then
    what a later batch answers may be lost, after a collection
    ([stale_proof_loses_an_object]). *)
Theorem published_objects_survive_a_crash `{B3 : Blake3} others fails ulid keep_dirs keep_oids
    (Hothers : forall k w, calm w (others k w) /\ tmp_kept ulid w (others k w))
    (Hdirs : forall ps, keep_dirs ps ⊆ ps) (Hoids : forall ids, keep_oids ids ⊆ ids) :
  (forall age_ms plain anchor barrier w st w',
     with_directory_barrier others fails keep_dirs age_ms plain anchor barrier w = (Ok st, w') -> ready w') /\
  (forall st objects w r w1, ready w ->
     publish_all others fails ulid keep_dirs keep_oids st objects w = (r, w1) ->
     steady w w1 /\
     forall ids, r = Ok ids ->
       ids = map (fun parts => hash_bytes (concat parts)) objects /\ ready w1 /\
       forall w2 keep torn id, steady w1 w2 -> id ∈ ids ->
         exists b, reads id (crash keep torn (w_disk w2)) = Ok b /\ hash_bytes b = id).
Proof.
  split.
  - intros age_ms plain anchor barrier w st w' E. by eapply open_ready in E as [? _].
  - intros st objects w r w1 Hr E. pose proof (publish_all_spec others fails ulid keep_dirs keep_oids Hothers Hdirs Hoids st objects w Hr) as H.
    unfold wp in H. rewrite E in H. destruct H as [Hs H]. split; [done|]. intros ids Hids. destruct (H ids Hids) as (-> & Hr1 & Hst).
    split; [done|]. split; [done|]. intros w2 keep torn id Hs2 Hin. rewrite Forall_forall in Hst.
    apply crash_keeps; [eapply opened_later; [exact Hs2|exact (proj1 Hr1)]|]. eapply stable_later; [exact Hs2|auto].
Qed.

(** ** On a concrete disk *)

Definition empty_disk : Disk := mkDisk ∅ ∅ ∅ ∅ ∅.
Definition demo_ulid (k : nat) : str := repeat (u8 65) k.
Definition demo_open (b : DirectoryBarrier) : Result LocalBlobStore * World :=
  with_directory_barrier alone (fun _ => false) (fun ps => ps) (fun _ => None) (fun _ => true) true b (mkWorld empty_disk ∅ ∅ 0).
Definition demo_publish (b : DirectoryBarrier) (objects : list (list bytes)) : Result (list ObjectId) * World :=
  match demo_open b with
  | (Ok st, w) => publish_all alone (fun _ => false) demo_ulid (fun ps => ps) (fun ids => ids) st objects w
  | (_, w) => (Err InvalidBase, w)
  end.

Definition demo_objects : list (list bytes) := [[bs "he"; bs "llo"]; [bs "x"]].
Definition demo_ids : list ObjectId := [hash_bytes (bs "hello"); hash_bytes (bs "x")].

(** Both objects are published, and read after a crash that loses all it can. *)
Definition demo_survives (b : DirectoryBarrier) : Prop :=
  let '(r, w) := demo_publish b demo_objects in
  r = Ok demo_ids /\ forall id, id ∈ demo_ids -> exists d, reads id (crash (fun _ => false) (fun _ _ => None) (w_disk w)) = Ok d /\ hash_bytes d = id.

Lemma published_objects_survive_a_crash_witness : Forall demo_survives [PerDirectory; Deferred; Collapsed].
Proof.
  apply Forall_forall. intros b _. unfold demo_survives.
  assert ((demo_publish b demo_objects).1 = Ok demo_ids) as Hr by (destruct b; vm_compute; reflexivity).
  assert ((demo_open b).1 = Ok (mkLocal false b)) as Ho by (destruct b; vm_compute; reflexivity).
  destruct (published_objects_survive_a_crash alone (fun _ => false) demo_ulid (fun ps => ps) (fun ids => ids)) as [Hopen Hpub];
    [split; [reflexivity|intros ? ? H; exact H]|done..|].
  unfold demo_publish in *. destruct (demo_open b) as [[st| |] w0] eqn:E0; [|discriminate Ho..]. apply Hopen in E0.
  destruct (publish_all _ _ _ _ _ st demo_objects w0) as [r w] eqn:E. cbn [fst] in Hr. split; [exact Hr|]. intros id Hid.
  destruct (Hpub st demo_objects w0 r w E0 E) as [_ H]. destruct (H _ Hr) as (_ & _ & Hc). apply (Hc w); [apply steady_refl|exact Hid].
Defined.

(** *** A stale proof

    The cache [durable_oids] is never told of a sweep.  An object is published,
    collected, and linked anew by a batch whose [finish] fails; the cache
    still says it is durable, so the next batch owes it no barrier: it is
    published, and a crash loses it.  This is the interference the theorem
    above excludes ([alone] and a sweep is not [calm] for the second batch). *)
Definition unlink (id : ObjectId) (w : World) : World :=
  let d := w_disk w in mkWorld (mkDisk (d_nodes d) (d_stable d) (delete id (d_files d)) (d_links d ∖ {[ id ]}) (d_tmp d)) (w_dirs w) (w_oids w) (w_tick w).

Definition stale_run : Result (list ObjectId) * Result (list ObjectId) * Result (list ObjectId) * Result bytes :=
  let publish fails st := publish_all alone fails demo_ulid (fun ps => ps) (fun ids => ids) st [[bs "hello"]] in
  let st := mkLocal false PerDirectory in
  let '(r1, w1) := publish (fun _ => false) st (demo_open PerDirectory).2 in
  let w2 := unlink (hash_bytes (bs "hello")) w1 in
  let '(r2, w3) := publish (fun k => (k =? w_tick w2 + 6)%nat) st w2 in
  let '(r3, w4) := publish (fun _ => false) st w3 in
  (r1, r2, r3, reads (hash_bytes (bs "hello")) (crash (fun _ => false) (fun _ _ => None) (w_disk w4))).

Lemma stale_proof_loses_an_object :
  let id := hash_bytes (bs "hello") in
  stale_run = (Ok [id], Err (Io (bs "{e}")), Ok [id], Err (NotFound (bs "object {id}"))).
Proof. vm_compute. reflexivity. Qed.
