(* ===== verification/Barrier.v ===== *)
(** * The shared filesystem barrier (crates/forge-store/src/blob.rs, [FsBarrier])

    Batches that need a filesystem-wide barrier share one: a thread that calls
    [wait] computes the first generation that is sure to start after its call,
    and waits for that one, leading the barrier itself when nobody does.  The
    critical sections of [wait] are the steps; threads interleave freely, a
    barrier takes any time and may fail.  [Disk] models [wait] as one barrier
    taken by the batch itself; this file says why that is right. *)

From S2P Require Import Prelude.

Record BarrierGate := mkGate { completed : Z; in_flight : option Z }.

Definition gate_default : BarrierGate := mkGate 0 None.

(** The first critical section. *)
Definition wait_target (g : BarrierGate) : Z := default (completed g) (in_flight g) + 1.

(** One round of the loop. *)
Inductive Turn := Return | Sleep | Lead (generation : Z).

Definition wait_turn (g : BarrierGate) (target : Z) : Turn * BarrierGate :=
  if target <=? completed g then (Return, g)
  else match in_flight g with
       | Some _ => (Sleep, g)
       | None => let generation := completed g + 1 in (Lead generation, mkGate (completed g) (Some generation))
       end.

(** The leader is back from [syncfs]. *)
Definition wait_done (g : BarrierGate) (generation : Z) (outcome : bool) : BarrierGate :=
  mkGate (if outcome then generation else completed g) None.

(** ** Threads *)

Inductive Phase := Running | Asleep | Leading (generation : Z) | Acked | Failed.

(** [th_called] is when the first critical section ran. *)
Record Thread := mkThread { th_phase : Phase; th_target : Z; th_called : nat }.

(** With what happened so far: a clock that ticks at every step, when the
    barrier in flight started, and when the completed ones had started. *)
Record Gate := mkState { gate : BarrierGate; threads : list Thread; clock : nat; started : nat; runs : list nat }.

Definition with_phase (p : Phase) (t : Thread) : Thread := mkThread p (th_target t) (th_called t).

(** [notify_all]. *)
Definition wake (t : Thread) : Thread := match th_phase t with Asleep => with_phase Running t | _ => t end.

Definition initial : Gate := mkState gate_default [] 0 0 [].

(** Threads call [wait]. *)
Definition call (s : Gate) : Gate :=
  mkState (gate s) (threads s ++ [mkThread Running (wait_target (gate s)) (clock s)]) (S (clock s)) (started s) (runs s).

(** The thread [i] takes its turn. *)
Definition turn (i : nat) (t : Thread) (s : Gate) : Gate :=
  let '(a, g) := wait_turn (gate s) (th_target t) in
  match a with
  | Return => mkState g (<[i := with_phase Acked t]> (threads s)) (S (clock s)) (started s) (runs s)
  | Sleep => mkState g (<[i := with_phase Asleep t]> (threads s)) (S (clock s)) (started s) (runs s)
  | Lead n => mkState g (<[i := with_phase (Leading n) t]> (threads s)) (S (clock s)) (clock s) (runs s)
  end.

(** The barrier the thread [i] leads comes back. *)
Definition done_barrier (i : nat) (t : Thread) (n : Z) (outcome : bool) (s : Gate) : Gate :=
  mkState (wait_done (gate s) n outcome)
    (<[i := with_phase (if outcome then Running else Failed) t]> (wake <$> threads s))
    (S (clock s)) (started s) (if outcome then runs s ++ [started s] else runs s).

Inductive advance : Gate -> Gate -> Prop :=
| advance_turn s i t : threads s !! i = Some t -> th_phase t = Running -> advance s (turn i t s)
| advance_done s i t n outcome : threads s !! i = Some t -> th_phase t = Leading n -> advance s (done_barrier i t n outcome s).

Inductive step : Gate -> Gate -> Prop :=
| step_call s : step s (call s)
| step_advance s s' : advance s s' -> step s s'.

Definition reachable (s : Gate) : Prop := rtc step initial s.

Definition unfinished (t : Thread) : Prop := match th_phase t with Acked | Failed => False | _ => True end.

(** ** The invariant *)

(** What was promised to a thread that called at [c] for generation [n]: no
    barrier of that generation or later started before. *)
Definition kept (s : Gate) (n : Z) (c : nat) : Prop :=
  (forall k r, runs s !! k = Some r -> n <= Z.of_nat k + 1 -> (c < r)%nat) /\
  (forall m, in_flight (gate s) = Some m -> n <= m -> (c < started s)%nat).

(** What each thread knows. *)
Definition thread_ok (s : Gate) (t : Thread) : Prop :=
  (th_called t < clock s)%nat /\ 1 <= th_target t /\ kept s (th_target t) (th_called t) /\
  match th_phase t with
  | Leading n => in_flight (gate s) = Some n /\ n <= th_target t
  | Asleep => is_Some (in_flight (gate s))
  | Acked => th_target t <= completed (gate s)
  | Running | Failed => True
  end.

Ltac in_parts := split; [|split; [|split]].

Definition leads (t : Thread) : Prop := exists n, th_phase t = Leading n.

Record gate_ok (s : Gate) : Prop := mk_gate_ok {
  go_completed : completed (gate s) = Z.of_nat (length (runs s));
  go_flight n : in_flight (gate s) = Some n -> n = completed (gate s) + 1 /\ exists i t, threads s !! i = Some t /\ leads t;
  go_unique i j t t' : threads s !! i = Some t -> leads t -> threads s !! j = Some t' -> leads t' -> i = j;
  go_threads i t : threads s !! i = Some t -> thread_ok s t
}.

Lemma initial_ok : gate_ok initial.
Proof. split; try done; intros i; intros; by rewrite lookup_nil in *. Qed.

Lemma call_ok s : gate_ok s -> gate_ok (call s).
Proof.
  intros [A1 A2 A3 A4]. set (t0 := mkThread Running (wait_target (gate s)) (clock s)).
  assert (forall i t, threads (call s) !! i = Some t -> threads s !! i = Some t \/ t = t0) as Hth.
  { intros i t [H|[_ H]]%lookup_app_Some; [by left|right]. by apply list_lookup_singleton_Some in H as [_ <-]. }
  assert (forall i t, threads (call s) !! i = Some t -> leads t -> threads s !! i = Some t) as Hle.
  { intros i t H [n Hn]. destruct (Hth i t H) as [?| ->]; done. }
  split; cbn [call gate runs clock]; [done| | |].
  - intros n Hn. destruct (A2 n Hn) as (-> & i & t & Hi & Hl). split; [done|]. exists i, t. split; [|done].
    cbn. rewrite lookup_app_l; [done|]. by eapply lookup_lt_Some.
  - eauto.
  - intros i t Hi. destruct (Hth i t Hi) as [H| ->].
    + destruct (A4 i t H) as (B1 & B2 & B3 & B4). in_parts; [cbn; lia|done|done|]. by destruct (th_phase t).
    + unfold thread_ok. cbn. unfold wait_target, kept. cbn. in_parts; [lia| | |done].
      * destruct (in_flight (gate s)) as [m|] eqn:E; cbn; [destruct (A2 m eq_refl); lia|lia].
      * split.
        -- intros k r Hk%lookup_lt_Some Hn. destruct (in_flight (gate s)) as [m|] eqn:E; cbn in Hn; [destruct (A2 m eq_refl)|]; lia.
        -- intros m -> Hn. cbn in Hn. lia.
Qed.

(** A thread changes its phase, the others are as they were. *)
Lemma phase_ok s s' i t p : gate_ok s -> threads s !! i = Some t -> th_phase t = Running -> ~ leads (with_phase p t) ->
  threads s' = <[i := with_phase p t]> (threads s) -> gate s' = gate s -> runs s' = runs s -> started s' = started s -> clock s' = S (clock s) ->
  thread_ok s' (with_phase p t) -> gate_ok s'.
Proof.
  intros [A1 A2 A3 A4] Hi Hr Hp E1 E2 E3 E4 E5 Hok. pose proof (lookup_lt_Some _ _ _ Hi) as Hlt.
  assert (forall j t', threads s' !! j = Some t' -> leads t' -> threads s !! j = Some t') as Hle.
  { intros j t' Hj Hl. rewrite E1 in Hj. apply list_lookup_insert_Some in Hj as [(<- & <- & _)|[_ ?]]; done. }
  split.
  - by rewrite E2, E3.
  - intros n. rewrite E2. intros Hn. destruct (A2 n Hn) as (-> & j & t' & Hj & Hl). split; [done|]. exists j, t'. split; [|done].
    rewrite E1, list_lookup_insert_ne; [done|]. intros <-. destruct Hl as [m Hm]. congruence.
  - eauto.
  - intros j t' Hj. rewrite E1 in Hj. apply list_lookup_insert_Some in Hj as [(<- & <- & _)|[_ Hj]]; [done|].
    destruct (A4 j t' Hj) as (B1 & B2 & B3 & B4). unfold thread_ok, kept in *. rewrite E2, E3, E4, E5. in_parts; [lia|done|apply B3|done].
Qed.

Lemma turn_ok s i t : gate_ok s -> threads s !! i = Some t -> th_phase t = Running -> gate_ok (turn i t s).
Proof.
  intros H Hi Hr. pose proof H as [A1 A2 A3 A4]. destruct (A4 i t Hi) as (B1 & B2 & B3 & _). unfold turn, wait_turn.
  destruct (Z.leb_spec (th_target t) (completed (gate s))) as [Hle|Hlt].
  { eapply phase_ok; try done; [by intros [n Hn]|]. in_parts; [cbn; lia|done|done|done]. }
  destruct (in_flight (gate s)) as [m|] eqn:E.
  { eapply phase_ok; try done; [by intros [n Hn]|]. in_parts; [cbn; lia|done|done|]. by exists m. }
  pose proof (lookup_lt_Some _ _ _ Hi) as Hil. assert (forall j t', threads s !! j = Some t' -> ~ leads t') as Hno.
  { intros j t' Hj [n Hn]. destruct (A4 j t' Hj) as (_ & _ & _ & C). rewrite Hn in C. destruct C. congruence. }
  split; cbn.
  - done.
  - intros n [= <-]. split; [done|]. exists i, (with_phase (Leading (completed (gate s) + 1)) t). rewrite list_lookup_insert_eq by done. split; [done|by eexists].
  - intros j1 j2 t1 t2 H1 L1 H2 L2. apply list_lookup_insert_Some in H1 as [(<- & _ & _)|[_ H1]]; [|by destruct (Hno _ _ H1)].
    apply list_lookup_insert_Some in H2 as [(<- & _ & _)|[_ H2]]; [done|by destruct (Hno _ _ H2)].
  - assert (forall n c, (c < clock s)%nat -> kept s n c -> kept (mkState (mkGate (completed (gate s)) (Some (completed (gate s) + 1)))
      (<[i := with_phase (Leading (completed (gate s) + 1)) t]> (threads s)) (S (clock s)) (clock s) (runs s)) n c) as Hk.
    { intros n c Hc [K1 _]. split; cbn; [done|]. intros. lia. }
    intros j t' Hj. apply list_lookup_insert_Some in Hj as [(<- & <- & _)|[_ Hj]].
    + in_parts; [cbn; lia|done|by apply Hk|]. cbn. split; [done|lia].
    + destruct (A4 j t' Hj) as (C1 & C2 & C3 & C4). in_parts; [cbn; lia|done|by apply Hk|]. cbn.
      destruct (th_phase t') eqn:Ep; try done. by destruct (Hno j t' Hj); eexists.
Qed.

Lemma done_ok s i t n outcome : gate_ok s -> threads s !! i = Some t -> th_phase t = Leading n -> gate_ok (done_barrier i t n outcome s).
Proof.
  intros [A1 A2 A3 A4] Hi Hn. destruct (A4 i t Hi) as (B1 & B2 & B3 & B4). rewrite Hn in B4. destruct B4 as [Hfl Hle].
  destruct (A2 n Hfl) as [-> _]. unfold done_barrier. set (s' := mkState _ _ _ _ _).
  assert (forall m c, kept s m c -> kept s' m c) as Hk.
  { intros m c [K1 K2]. split; cbn; [|done]. intros k r Hr Hm. destruct outcome; [|by apply (K1 k)].
    apply lookup_app_Some in Hr as [Hr|[Hge Hr]]; [by apply (K1 k)|]. apply list_lookup_singleton_Some in Hr as [Hk <-].
    apply (K2 _ Hfl). lia. }
  assert (completed (gate s) <= completed (gate s')) as Hmono by (cbn; destruct outcome; lia).
  assert (forall j t', threads s' !! j = Some t' -> ~ leads t' /\ thread_ok s' t') as Hall.
  { intros j t' Hj. apply list_lookup_insert_Some in Hj as [(<- & <- & _)|[Hne Hj]].
    - split; [intros [m Hm]; by destruct outcome|]. in_parts; [cbn; lia|done|by apply Hk|]. by destruct outcome.
    - rewrite list_lookup_fmap in Hj. apply fmap_Some in Hj as (t0 & Hj & ->). destruct (A4 j t0 Hj) as (C1 & C2 & C3 & C4).
      assert (~ leads t0) as Hno by (intros Hl; apply Hne; eapply (A3 i j); [done|by eexists|done..]).
      unfold wake. destruct (th_phase t0) eqn:Ep; try (by destruct Hno; eexists); (split; [intros [m Hm]; cbn in Hm; congruence|]); unfold thread_ok; cbn [th_phase th_target th_called with_phase]; rewrite ?Ep.
      all: in_parts; [cbn; lia|done|by apply Hk|]; try done.
      cbn in Hmono |- *. lia. }
  split.
  - cbn. destruct outcome; [rewrite length_app; cbn; lia|done].
  - done.
  - intros j1 j2 t1 t2 H1 L1. by destruct (Hall j1 t1 H1).
  - intros j t' Hj. exact (proj2 (Hall j t' Hj)).
Qed.

Lemma reachable_ok s : reachable s -> gate_ok s.
Proof.
  intros H. unfold reachable in H. refine (rtc_ind_r (R := step) gate_ok initial initial_ok _ s H).
  intros s1 s2 _ Hs H1. destruct Hs as [s1|s1 s2 [s1' i t Hi Hr|s1' i t n o Hi Hn]]; [by apply call_ok|by apply turn_ok|by apply done_ok].
Qed.

(** *** Progress *)

(** The rounds a thread may still take: it leaves, or the gate gets nearer to
    its target, or it changes from running to waiting. *)
Definition away (c : Z) (t : Thread) : nat :=
  match th_phase t with Acked | Failed => 0 | _ => S (Z.to_nat (th_target t - c)) end.
Definition restless (t : Thread) : nat := match th_phase t with Running => 1 | _ => 0 end.
Definition total_away (s : Gate) : nat := sum_list_with (away (completed (gate s))) (threads s).
Definition total_restless (s : Gate) : nat := sum_list_with restless (threads s).

Definition closer (s' s : Gate) : Prop :=
  (total_away s' < total_away s)%nat \/ (total_away s' = total_away s /\ (total_restless s' < total_restless s)%nat).

Lemma sum_insert {A} (f : A -> nat) l i x y : l !! i = Some x -> (sum_list_with f (<[i := y]> l) + f x = sum_list_with f l + f y)%nat.
Proof.
  revert i. induction l as [|z l IH]; intros [|i]; simpl; [done..| |].
  - intros [= ->]. lia.
  - intros H. specialize (IH i H). lia.
Qed.

Lemma sum_mono {A} (f g : A -> nat) l : (forall x, (f x <= g x)%nat) -> (sum_list_with f l <= sum_list_with g l)%nat.
Proof. intros H. induction l as [|x l IH]; cbn; [done|]. specialize (H x). lia. Qed.

Lemma sum_fmap {A B} (f : B -> nat) (h : A -> B) l : sum_list_with f (h <$> l) = sum_list_with (fun x => f (h x)) l.
Proof. induction l as [|x l IH]; cbn; [done|]. by rewrite IH. Qed.

Lemma turn_closer s i t : threads s !! i = Some t -> th_phase t = Running -> closer (turn i t s) s.
Proof.
  intros Hi Hr. unfold closer, turn, wait_turn, total_away, total_restless.
  assert (forall p, (sum_list_with (away (completed (gate s))) (<[i := with_phase p t]> (threads s)) + S (Z.to_nat (th_target t - completed (gate s))) =
    sum_list_with (away (completed (gate s))) (threads s) + away (completed (gate s)) (with_phase p t))%nat) as E1.
  { intros p. rewrite <- (sum_insert _ _ _ _ _ Hi). f_equal. unfold away. by rewrite Hr. }
  assert (forall p, (sum_list_with restless (<[i := with_phase p t]> (threads s)) + 1 = sum_list_with restless (threads s) + restless (with_phase p t))%nat) as E2.
  { intros p. rewrite <- (sum_insert _ _ _ _ _ Hi). f_equal. unfold restless. by rewrite Hr. }
  destruct (_ <=? _); [left|right; destruct (in_flight (gate s))]; cbn [gate threads completed].
  - specialize (E1 Acked). cbn in E1. lia.
  - specialize (E1 Asleep). specialize (E2 Asleep). cbn in E1, E2. lia.
  - match goal with |- context [with_phase ?p t] => specialize (E1 p); specialize (E2 p) end. cbn in E1, E2. lia.
Qed.

Lemma done_closer s i t n outcome : gate_ok s -> threads s !! i = Some t -> th_phase t = Leading n -> closer (done_barrier i t n outcome s) s.
Proof.
  intros [A1 A2 A3 A4] Hi Hn. destruct (A4 i t Hi) as (_ & _ & _ & B4). rewrite Hn in B4. destruct B4 as [Hfl Hle]. destruct (A2 n Hfl) as [-> _].
  left. unfold total_away, done_barrier. cbn [gate threads wait_done completed]. set (c := completed (gate s)) in *. set (c' := if outcome then _ else _).
  assert (c <= c') as Hc by (unfold c'; destruct outcome; lia).
  assert ((wake <$> threads s) !! i = Some t) as Hw by (rewrite list_lookup_fmap, Hi; cbn; unfold wake; by rewrite Hn).
  pose proof (sum_insert (away c') (wake <$> threads s) i t (with_phase (if outcome then Running else Failed) t) Hw) as E.
  assert (sum_list_with (away c') (wake <$> threads s) <= sum_list_with (away c') (threads s))%nat as Hwake.
  { rewrite sum_fmap. apply sum_mono. intros x. unfold wake, away. destruct (th_phase x) eqn:Ex; cbn; rewrite ?Ex; lia. }
  assert (sum_list_with (away c') (threads s) + away c t <= sum_list_with (away c) (threads s) + away c' t)%nat as Hsum.
  { clear E. revert i Hi Hw. generalize (threads s) as l. clear -Hc. intros l. revert l. induction l as [|x l IH]; intros i Hi Hw; [done|].
    assert (away c' x <= away c x)%nat as Hx by (unfold away; destruct (th_phase x); lia).
    destruct i as [|i]; cbn in *; [|specialize (IH i Hi Hw); lia]. injection Hi as ->.
    assert (sum_list_with (away c') l <= sum_list_with (away c) l)%nat; [|lia]. apply sum_mono. intros y. unfold away. destruct (th_phase y); lia. }
  unfold away in E, Hsum. rewrite Hn in E, Hsum. destruct outcome; cbn in E; unfold away, c' in *; lia.
Qed.

Lemma advance_closer s s' : gate_ok s -> advance s s' -> closer s' s.
Proof. intros H Ha. destruct Ha as [s1 i t Hi Hr|s1 i t n outcome Hi Hn]; [by apply turn_closer|by apply (done_closer s1 i t n)]. Qed.

Lemma closer_wf : well_founded closer.
Proof.
  intros s. remember (total_away s) as a eqn:Ea. revert s Ea. induction a as [a IHa] using (well_founded_induction lt_wf). intros s.
  remember (total_restless s) as b eqn:Eb. revert s Eb. induction b as [b IHb] using (well_founded_induction lt_wf). intros s Eb Ea.
  constructor. intros s' [H|[H1 H2]]; [by eapply IHa; [|done]; lia|]. eapply IHb; [|done|lia]. lia.
Qed.

(** Without new calls, the rounds end. *)
Lemma advance_ends s : reachable s -> Acc (fun s' s => advance s s') s.
Proof.
  induction s as [s IH] using (well_founded_induction closer_wf). intros Hr. constructor. intros s' Ha.
  apply IH; [by apply advance_closer, Ha; apply reachable_ok|]. eapply rtc_r; [exact Hr|by constructor].
Qed.

Lemma advance_exists s i t : gate_ok s -> threads s !! i = Some t -> unfinished t -> exists s', advance s s'.
Proof.
  intros [A1 A2 A3 A4] Hi Hu. destruct (A4 i t Hi) as (_ & _ & _ & B). unfold unfinished in Hu. destruct (th_phase t) as [| |n| |] eqn:Ep; [| | |done..].
  - eexists. by eapply advance_turn.
  - destruct B as [n Hn]. destruct (A2 n Hn) as [_ (j & t' & Hj & m & Hm)]. exists (done_barrier j t' m true s). by apply advance_done.
  - exists (done_barrier i t n true s). by apply advance_done.
Qed.

(** C11: the shared barrier keeps its promise.  Whatever threads call [wait],
    however they interleave and whichever barriers fail: a thread that is told
    its work is durable was called before a filesystem barrier started that
    ran to completion; while a thread waits, some thread can take a step, and
    without new calls only finitely many steps are left, so every thread is
    answered. *)
Theorem wait_is_covered_by_a_later_barrier s (Hr : reachable s) :
  (forall i t, threads s !! i = Some t -> th_phase t = Acked -> exists r, r ∈ runs s /\ (th_called t < r)%nat) /\
  (forall i t, threads s !! i = Some t -> unfinished t -> exists s', advance s s') /\
  Acc (fun s' s => advance s s') s.
Proof.
  pose proof (reachable_ok s Hr) as H. split; [|split; [|by apply advance_ends]].
  - intros i t Hi Ha. destruct (go_threads _ H i t Hi) as (_ & H1 & [Hk _] & Hc). rewrite Ha, (go_completed _ H) in Hc.
    destruct (lookup_lt_is_Some_2 (runs s) (Z.to_nat (th_target t - 1))) as [r Hk']; [lia|]. exists r.
    split; [by eapply list_elem_of_lookup_2|]. apply (Hk _ _ Hk'). lia.
  - intros i t Hi Hu. by eapply advance_exists.
Qed.

(** A thread calls while a barrier is in flight that fails: its own call
    leads, twice, and is then answered. *)
Definition demo_turn (i : nat) (s : Gate) : Gate := match threads s !! i with Some t => turn i t s | None => s end.
Definition demo_done (i : nat) (n : Z) (outcome : bool) (s : Gate) : Gate := match threads s !! i with Some t => done_barrier i t n outcome s | None => s end.
Definition demo_gate : Gate :=
  let s := demo_turn 1 (call (demo_turn 0 (call initial))) in
  let s := demo_turn 1 (demo_done 0 1 false s) in
  let s := demo_turn 1 (demo_done 1 1 true s) in
  demo_turn 1 (demo_done 1 2 true s).

Lemma wait_is_covered_by_a_later_barrier_witness :
  (th_phase <$> threads demo_gate) = [Failed; Acked] /\ exists t r, threads demo_gate !! 1%nat = Some t /\ r ∈ runs demo_gate /\ (th_called t < r)%nat.
Proof.
  split; [reflexivity|].
  assert (reachable demo_gate) as Hr.
  { eapply rtc_l; [apply step_call|]. eapply rtc_l; [eapply step_advance, (advance_turn _ 0); reflexivity|].
    eapply rtc_l; [apply step_call|]. eapply rtc_l; [eapply step_advance, (advance_turn _ 1); reflexivity|].
    eapply rtc_l; [eapply step_advance, (advance_done _ 0 _ _ false); reflexivity|]. eapply rtc_l; [eapply step_advance, (advance_turn _ 1); reflexivity|].
    eapply rtc_l; [eapply step_advance, (advance_done _ 1 _ _ true); reflexivity|]. eapply rtc_l; [eapply step_advance, (advance_turn _ 1); reflexivity|].
    eapply rtc_l; [eapply step_advance, (advance_done _ 1 _ _ true); reflexivity|]. eapply rtc_l; [eapply step_advance, (advance_turn _ 1); reflexivity|].
    apply rtc_refl. }
  destruct (wait_is_covered_by_a_later_barrier demo_gate Hr) as [H _]. eexists.
  destruct (H 1%nat _ eq_refl eq_refl) as (r & Hin & Hlt). exists r. split; [reflexivity|]. split; [exact Hin|exact Hlt].
Defined.
