(* ===== verification/StagedRead.v ===== *)
(** * Reading a blob to a staged sink (crates/forge-store/src/blob.rs)

    [StagedBlobReader] copies the payload of a blob to a sink that is not
    published yet: the frame is checked first, the payload is hashed while it
    is copied, and [finish] says whether the sink may be published.  The file
    is a descriptor whose reads may return anything and may fail, since the
    file can change under the reader; an honest one serves fixed bytes. *)

From S2P Require Import Prelude RustStd Types Cbor Object ObjectStore.

Record StagedBlobReader `{Blake3} := mkReader {
  sr_id : ObjectId;
  sr_hasher : Hasher;
  sr_remaining : Z;
  sr_payload_len : Z;
  sr_object_len : Z
}.

Lemma slice_frame (b0 : byte) be : length be = 4%nat -> slice (b0 :: be) 1 5 = @Ok Error _ be.
Proof. do 5 (destruct be as [|? be]; try done). Qed.

Section staged.
Context `{B3 : Blake3} {F : Type}.
(** [read(2)] into a buffer of the given length; the buffer [io::copy] uses. *)
Context (read : F -> Z -> Result bytes * F) (buffer : F -> Z).

Abbreviation io := (stateM Error F).

Definition file_read (limit : Z) : io bytes := fun f => read f limit.

(** [Read::read_exact].  The standard library reads again when a read is
    interrupted; here that is an error like any other. *)
Definition read_exact (n : Z) : io bytes :=
  m_while (Z.to_pos (n + 1)) (fun acc =>
    if len acc =? n then mret (inr acc)
    else
      chunk ← file_read (n - len acc);
      if len chunk =? 0 then throw (Io (bs "failed to fill whole buffer")) else mret (inl (acc ++ chunk))) [].

Definition verify_blob_frame (object_len : Z) : io (bytes * Z) :=
  _ ← pure (reject_if (object_len <? 5) (Corrupt (bs "object file too short")));
  frame ← read_exact 5;
  b0 ← pure (index frame 0);
  ty ← pure (ObjectType_from_u8 (b2z b0));
  _ ← pure (reject_if (negb (bool_decide (ty = TBlob))) (Corrupt (bs "not a blob")));
  be ← pure (slice frame 1 5);
  let header_end := 5 + be_val be in
  _ ← pure (reject_if (u64_max <? header_end) (Corrupt (bs "object header length overflow")));
  _ ← pure (reject_if (object_len <? header_end) (Corrupt (bs "object header truncated")));
  let payload_len := object_len - header_end in
  expected ← pure (blob_frame_prefix payload_len);
  _ ← pure (reject_if (negb (len expected =? header_end)) (Corrupt (bs "non-canonical blob header")));
  rest ← read_exact (len expected - 5);
  let observed := frame ++ rest in
  _ ← pure (reject_if (negb (bytes_eqb observed expected)) (Corrupt (bs "invalid blob header")));
  mret (observed, payload_len).

(** [object_len] is what [metadata] says of the opened file. *)
Definition open_blob_payload_for_staged_output (id : ObjectId) (object_len : Z) : io StagedBlobReader :=
  '(prefix, payload_len) ← verify_blob_frame object_len;
  mret (mkReader _ id (hasher_update hasher_new prefix) payload_len payload_len object_len).

Definition StagedBlobReader_read (r : StagedBlobReader) (buf_len : Z) : io (bytes * StagedBlobReader) :=
  if (sr_remaining r =? 0) || (buf_len =? 0) then mret ([], r)
  else
    chunk ← file_read (Z.min (sr_remaining r) buf_len);
    if len chunk =? 0 then throw (Io (bs "blob {} payload truncated"))
    else mret (chunk, mkReader _ (sr_id r) (hasher_update (sr_hasher r) chunk) (sr_remaining r - len chunk) (sr_payload_len r) (sr_object_len r)).

(** [io::copy]: what the sink is given. *)
Definition copy_step (buf_len : Z) (l : bytes * StagedBlobReader) : io (bytes * StagedBlobReader + bytes * StagedBlobReader) :=
  '(chunk, r) ← StagedBlobReader_read l.2 buf_len;
  if len chunk =? 0 then mret (inr (l.1, r)) else mret (inl (l.1 ++ chunk, r)).

Definition copy (r : StagedBlobReader) : io (bytes * StagedBlobReader) :=
  m_while (Z.to_pos (sr_remaining r + 1)) (fun l f => copy_step (buffer f) l f) ([], r).

Definition StagedBlobReader_finish (r : StagedBlobReader) : io unit :=
  _ ← pure (reject_if (negb (sr_remaining r =? 0)) (Corrupt (bs "blob {} ended with {} payload bytes unread")));
  extra ← file_read 1;
  _ ← pure (reject_if (negb (len extra =? 0)) (Corrupt (bs "blob {} grew while staged output was being built")));
  pure (reject_if (negb (bool_decide (hasher_finalize (sr_hasher r) = sr_id r))) (Corrupt (bs "hash mismatch {}"))).

(** A client: copy, then ask whether the copy may be published. *)
Definition staged_copy (id : ObjectId) (object_len : Z) : io bytes :=
  r ← open_blob_payload_for_staged_output id object_len;
  '(out, r) ← copy r;
  _ ← StagedBlobReader_finish r;
  mret out.

Definition verify_blob (id : ObjectId) (object_len : Z) : io unit :=
  r ← open_blob_payload_for_staged_output id object_len;
  '(_, r) ← copy r;
  StagedBlobReader_finish r.

(** ** Descriptors *)

(** A read never returns more than was asked for, and never panics. *)
Definition descriptor : Prop := forall f n, match (read f n).1 with Ok b => len b <= Z.max 0 n | Err _ => True | Panic => False end.

(** It serves fixed bytes, in chunks of its choice. *)
Definition honest (rest : F -> bytes) : Prop := forall f n, 0 < n ->
  exists chunk, (read f n).1 = Ok chunk /\ rest f = chunk ++ rest (read f n).2 /\ (chunk = [] -> rest f = []).

Context (Hread : descriptor) (Hbuffer : forall f, 0 < buffer f).

Lemma wp_file_read n f (Q : Result bytes -> F -> Prop) :
  (forall f' b, len b <= Z.max 0 n -> read f n = (Ok b, f') -> Q (Ok b) f') -> (forall f' e, read f n = (Err e, f') -> Q (Err e) f') ->
  wp (file_read n) f Q.
Proof.
  intros H1 H2. unfold wp, file_read. pose proof (Hread f n) as H. destruct (read f n) as [[b|e|] f'] eqn:E; [by apply H1|by apply H2|done].
Qed.

Lemma read_exact_spec n f : 0 <= n -> wp (read_exact n) f (fun r f' => r <> Panic /\
  forall b, r = Ok b -> len b = n /\ forall rest, honest rest -> rest f = b ++ rest f').
Proof.
  intros Hn. apply (wp_m_while (fun acc f1 => len acc <= n /\ forall rest, honest rest -> rest f = acc ++ rest f1) (fun acc => n - len acc)).
  2: { by rewrite len_nil. } 2: { rewrite len_nil. lia. }
  intros acc f1 [Hacc Hr]. destruct (Z.eqb_spec (len acc) n) as [E|E].
  { apply wp_ret. split; [done|]. by intros b [= <-]. }
  apply wp_bind, wp_file_read; [|done]. intros f2 b Hb Hrd. destruct (Z.eqb_spec (len b) 0) as [E0|E0]; [done|].
  apply wp_ret. pose proof (len_nonneg b). rewrite len_app. split; [split; [lia|]|lia]. intros rest Hh.
  destruct (Hh f1 (n - len acc)) as (chunk & E1 & E2 & _); [lia|]. rewrite Hrd in E1, E2. cbn in E1, E2. injection E1 as <-.
  by rewrite (Hr rest Hh), E2, <- app_assoc.
Qed.

Lemma wp_pure_bind {A B} (m : Result A) (g : A -> io B) f (Q : Result B -> F -> Prop) : no_panic m ->
  (forall a, m = Ok a -> wp (g a) f Q) -> (forall e, m = Err e -> Q (Err e) f) -> wp (pure m ≫= g) f Q.
Proof. intros Hn Ha He. apply wp_bind, wp_pure. destruct m; [by apply Ha|by apply He|done]. Qed.

Definition sound_frame (object_len : Z) (P : bytes -> F -> Prop) (r : Result (bytes * Z)) (f : F) : Prop := r <> Panic /\
  forall p n, r = Ok (p, n) -> blob_frame_prefix n = Ok p /\ 0 <= n /\ object_len = len p + n /\ P p f.

Lemma ObjectType_from_u8_total v : no_panic (ObjectType_from_u8 v).
Proof. unfold ObjectType_from_u8. repeat case_match; auto with forge. Qed.

(** The frame that is accepted is the one of a blob of that length. *)
Lemma frame_spec object_len f : wp (verify_blob_frame object_len) f
  (sound_frame object_len (fun p f' => forall rest, honest rest -> rest f = p ++ rest f')).
Proof.
  unfold verify_blob_frame. apply wp_pure_bind; [auto with forge| |done]. intros _ _.
  apply wp_bind. eapply wp_mono; [by apply read_exact_spec|]. intros r f1 [Hnp Hl]. destruct r as [frame| |]; [|done..].
  destruct (Hl frame eq_refl) as [Hf Hr1]. assert (exists b0 be, frame = b0 :: be /\ length be = 4%nat) as (b0 & be & -> & Hbe).
  { destruct frame as [|b0 be]; [done|]. exists b0, be. split; [done|]. rewrite len_cons in Hf. unfold len in Hf. lia. }
  apply wp_bind, wp_pure. cbn [index]. apply wp_pure_bind; [apply ObjectType_from_u8_total| |done]. intros ty _.
  apply wp_pure_bind; [auto with forge| |done]. intros _ _. rewrite (slice_frame b0 be Hbe). apply wp_bind, wp_pure. cbv zeta.
  pose proof (be_val_range be). apply wp_pure_bind; [auto with forge| |done]. intros _ _.
  apply wp_pure_bind; [auto with forge| |done]. intros _ Ht%reject_if_ok%Z.ltb_ge.
  destruct (blob_prefix_shape (object_len - (5 + be_val be))) as (header & Hh & Ep). set (expected := _ :: _ ++ header) in Ep. rewrite Ep. apply wp_bind, wp_pure.
  apply wp_pure_bind; [auto with forge| |done]. intros _ El%reject_if_ok%negb_false_iff%Z.eqb_eq.
  apply wp_bind. eapply wp_mono; [apply read_exact_spec; lia|]. intros r f2 [Hnp2 Hl2]. destruct r as [more| |]; [|done..]. destruct (Hl2 more eq_refl) as [_ Hr2].
  apply wp_pure_bind; [auto with forge| |done]. intros _ Eo%reject_if_ok%negb_false_iff%bytes_eqb_true. rewrite Eo.
  apply wp_ret. split; [done|]. intros p n [= <- <-]. split; [exact Ep|]. split; [lia|]. split; [lia|].
  intros rest Hrest. by rewrite <- Eo, <- app_assoc, <- (Hr2 rest Hrest), (Hr1 rest Hrest).
Qed.

(** *** Copying *)

Definition advance (r : StagedBlobReader) (out : bytes) : StagedBlobReader :=
  mkReader _ (sr_id r) (hasher_update (sr_hasher r) out) (sr_remaining r - len out) (sr_payload_len r) (sr_object_len r).

Lemma advance_nil r : advance r [] = r.
Proof. destruct r as [i h n pl ol]. unfold advance. cbn. by rewrite hasher_update_nil, Z.sub_0_r. Qed.
Lemma advance_app r a b : advance (advance r a) b = advance r (a ++ b).
Proof. unfold advance. cbn. rewrite hasher_update_app, len_app. f_equal. lia. Qed.

Lemma wp_look {A} (g : F -> io A) f (Q : Result A -> F -> Prop) : wp (g f) f Q -> wp (fun f => g f f) f Q.
Proof. done. Qed.

Lemma copy_spec r f : 0 <= sr_remaining r -> wp (copy r) f (fun res _ => res <> Panic /\
  forall out r', res = Ok (out, r') -> r' = advance r out /\ len out = sr_remaining r).
Proof.
  intros Hn. apply (wp_m_while (fun '(out, r1) _ => r1 = advance r out /\ len out <= sr_remaining r) (fun '(_, r1) => sr_remaining r1)).
  2: { by rewrite advance_nil. } 2: { lia. }
  intros [out r1] f1 [-> Hout]. apply (wp_look (fun f => copy_step (buffer f) (out, advance r out))). apply wp_bind. cbn [fst snd]. unfold StagedBlobReader_read. pose proof (Hbuffer f1) as Hbuf.
  rewrite (proj2 (Z.eqb_neq (buffer f1) 0)), orb_false_r by lia. destruct (Z.eqb_spec (sr_remaining (advance r out)) 0) as [E|E].
  { apply wp_ret. apply wp_ret. split; [done|]. intros out' r' [= <- <-]. split; [done|]. cbn in E. lia. }
  apply wp_bind, wp_file_read; [|done]. intros f2 chunk Hc _. cbn in E. cbn [sr_remaining advance] in Hc.
  destruct (Z.eqb_spec (len chunk) 0) as [E0|E0]; [done|]. apply wp_ret. cbn [fst snd]. rewrite (proj2 (Z.eqb_neq (len chunk) 0)) by done.
  apply wp_ret. change (mkReader _ _ _ _ _ _) with (advance (advance r out) chunk). rewrite advance_app.
  pose proof (len_nonneg chunk). cbn. rewrite len_app. split; [split; [done|lia]|lia].
Qed.

Lemma verify_blob_copies id object_len f : (verify_blob id object_len f).1 = (_ ← (staged_copy id object_len f).1; Ok tt).
Proof.
  unfold verify_blob, staged_copy, mbind, stateM_bind. destruct (open_blob_payload_for_staged_output id object_len f) as [[r| |] f1]; [|done..].
  destruct (copy r f1) as [[[out r']| |] f2]; [|done..]. by destruct (StagedBlobReader_finish r' f2) as [[[]| |] f3].
Qed.

Lemma finish_ok r f : wp (StagedBlobReader_finish r) f (fun res _ => res <> Panic /\
  (res = Ok tt -> sr_remaining r = 0 /\ hasher_finalize (sr_hasher r) = sr_id r)).
Proof.
  apply wp_pure_bind; [auto with forge| |done]. intros _ E%reject_if_ok%negb_false_iff%Z.eqb_eq.
  apply wp_bind, wp_file_read; [|done]. intros f1 extra _ _. apply wp_pure_bind; [auto with forge| |done]. intros _ _.
  apply wp_pure. split; [apply no_panic_reject_if|]. intros H%reject_if_ok%negb_false_iff%bool_decide_eq_true. done.
Qed.

Lemma staged_copy_safe id object_len f : object_len <= u64_max -> wp (staged_copy id object_len) f (fun res _ => res <> Panic /\
  forall out, res = Ok out -> exists file, hash_bytes file = id /\ Blob_decode file = Ok (mkBlob out) /\ len file = object_len).
Proof.
  intros Hmax. apply wp_bind, wp_bind. eapply wp_mono; [apply frame_spec|]. intros r f1 [Hnp Hf]. destruct r as [[p n]| |]; [|done..].
  destruct (Hf p n eq_refl) as (Hp & Hn & Hlen & _). apply wp_ret. apply wp_bind. eapply wp_mono; [by apply copy_spec|].
  intros r f2 [Hnp2 Hc]. destruct r as [[out r']| |]; [|done..]. destruct (Hc out r' eq_refl) as [-> Hout]. cbn [sr_remaining] in Hout.
  apply wp_bind. eapply wp_mono; [apply finish_ok|]. intros r f3 [Hnp3 Hfin]. destruct r as [[]| |]; [|done..].
  destruct (Hfin eq_refl) as [_ Hh]. cbn in Hh. apply wp_ret. split; [done|]. intros out' [= <-]. exists (p ++ out).
  rewrite hasher_update_app, hasher_finalize_update in Hh. split; [done|]. split; [|rewrite len_app; lia].
  apply Blob_decode_spec. split; [|apply (blob_file_shape (mkBlob out)); cbn; by rewrite Hout]. cbn. pose proof (len_nonneg p). unfold usize_max, u64_max in *. lia.
Qed.

(** *** An honest descriptor *)

Section honest.
Context (rest : F -> bytes) (Hhonest : honest rest).

Lemma wp_honest_read n f (Q : Result bytes -> F -> Prop) : 0 < n ->
  (forall f' chunk, len chunk <= n -> rest f = chunk ++ rest f' -> (chunk = [] -> rest f = []) -> Q (Ok chunk) f') ->
  wp (file_read n) f Q.
Proof.
  intros Hn HQ. destruct (Hhonest f n Hn) as (chunk & E1 & E2 & E3). pose proof (Hread f n) as Hl. unfold wp, file_read.
  rewrite E1 in *. apply HQ; [lia|done|done].
Qed.

Lemma read_exact_honest n f : 0 <= n <= len (rest f) -> wp (read_exact n) f (fun r f' => exists b, r = Ok b /\ len b = n /\ rest f = b ++ rest f').
Proof.
  intros Hn. apply (wp_m_while (fun acc f' => len acc <= n /\ rest f = acc ++ rest f') (fun acc => n - len acc)); [|split; [rewrite len_nil; lia|done]|].
  2: { rewrite len_nil. lia. }
  intros acc f1 [Hacc Hr]. destruct (Z.eqb_spec (len acc) n) as [E|E]; [apply wp_ret; eauto|].
  assert (len (rest f) = len acc + len (rest f1)) as Hl by (rewrite Hr; apply len_app).
  apply wp_bind, wp_honest_read; [lia|]. intros f2 chunk Hc E2 E3. destruct (Z.eqb_spec (len chunk) 0) as [E0|E0].
  { apply len_0 in E0. rewrite (E3 E0), len_nil in Hl. lia. }
  apply wp_ret. pose proof (len_nonneg chunk). rewrite len_app. split; [split; [lia|]|lia]. by rewrite Hr, E2, <- app_assoc.
Qed.

Lemma app_len_inj (a b c d : bytes) : a ++ b = c ++ d -> len a = len c -> a = c /\ b = d.
Proof. intros H Hl. apply app_inj_1 in H; [done|]. unfold len in Hl. lia. Qed.

Lemma frame_honest p data f : blob_frame_prefix (len data) = Ok p -> rest f = p ++ data ->
  wp (verify_blob_frame (len p + len data)) f (fun r f' => r = Ok (p, len data) /\ rest f' = data).
Proof.
  intros Hp Hr. destruct (blob_prefix_shape (len data)) as (header & Hh & Ep). rewrite Hp in Ep.
  assert (p = u8 (ObjectType_to_u8 TBlob) :: be_bytes 4 (len header) ++ header) as Ep' by congruence. clear Ep. rename Ep' into Ep.
  set (be := be_bytes 4 (len header)) in *. assert (length be = 4%nat) as Hbe by apply length_be_bytes.
  assert (be_val be = len header) as Hv by (apply be_val_bytes; pose proof (len_nonneg header); change (256 ^ Z.of_nat 4) with (u32_max + 1); lia).
  assert (len p = 5 + len header) as Hlp by (rewrite Ep, len_cons, len_app; unfold len at 1; rewrite Hbe; lia).
  pose proof (len_nonneg header). pose proof (len_nonneg data). unfold verify_blob_frame.
  assert (p ++ data = (u8 (ObjectType_to_u8 TBlob) :: be) ++ (header ++ data)) as Esplit by (rewrite Ep; cbn; by rewrite app_assoc).
  rewrite (proj2 (Z.ltb_ge (len p + len data) 5)) by lia. cbn [reject_if]. apply wp_bind, wp_pure. apply wp_bind.
  eapply wp_mono; [apply read_exact_honest; rewrite Hr, len_app; lia|]. intros r f1 (frame & -> & Hlf & E1).
  rewrite Hr, Esplit in E1. apply app_len_inj in E1 as [<- E1]; [|rewrite len_cons; unfold len at 1; rewrite Hbe; lia].
  apply wp_bind, wp_pure. cbn [index]. apply wp_bind, wp_pure. rewrite object_type_roundtrip. apply wp_bind, wp_pure.
  rewrite bool_decide_eq_true_2 by done. cbn [negb reject_if]. apply wp_bind, wp_pure. rewrite slice_frame by done. rewrite Hv. cbv zeta.
  rewrite (proj2 (Z.ltb_ge u64_max _)) by (unfold u64_max, u32_max in *; lia). apply wp_bind, wp_pure. cbn [reject_if].
  rewrite (proj2 (Z.ltb_ge (len p + len data) _)) by lia. apply wp_bind, wp_pure. cbn [reject_if].
  replace (len p + len data - (5 + len header)) with (len data) by lia. apply wp_bind, wp_pure. rewrite Hp.
  rewrite (proj2 (Z.eqb_eq (len p) _)) by lia. apply wp_bind, wp_pure. cbn [negb reject_if].
  apply wp_bind. eapply wp_mono; [apply read_exact_honest; rewrite <- E1, len_app; lia|]. intros r f2 (b & -> & Hlb & E2).
  rewrite <- E1 in E2. apply app_len_inj in E2 as [<- E2]; [|lia].
  replace ((u8 (ObjectType_to_u8 TBlob) :: be) ++ header) with p by done. apply wp_bind, wp_pure.
  rewrite (proj2 (bytes_eqb_true p p)) by done. by apply wp_ret.
Qed.

Lemma copy_honest r f : len (rest f) = sr_remaining r ->
  wp (copy r) f (fun res f' => res = Ok (rest f, advance r (rest f)) /\ rest f' = []).
Proof.
  intros Hn. pose proof (len_nonneg (rest f)).
  apply (wp_m_while (fun '(out, r1) f1 => r1 = advance r out /\ rest f = out ++ rest f1) (fun '(_, r1) => sr_remaining r1)); [|by rewrite advance_nil|lia].
  intros [out r1] f1 [-> Hout]. assert (len (rest f) = len out + len (rest f1)) as Hl by (rewrite Hout; apply len_app).
  pose proof (len_nonneg (rest f1)). apply (wp_look (fun f => copy_step (buffer f) (out, advance r out))). apply wp_bind. cbn [fst snd]. unfold StagedBlobReader_read.
  pose proof (Hbuffer f1) as Hbuf. rewrite (proj2 (Z.eqb_neq (buffer f1) 0)), orb_false_r by lia. destruct (Z.eqb_spec (sr_remaining (advance r out)) 0) as [E|E].
  { cbn in E. assert (rest f1 = []) as E1 by (apply len_0; lia). apply wp_ret. apply wp_ret. by rewrite Hout, E1, app_nil_r. }
  cbn in E. apply wp_bind, wp_honest_read; [cbn; lia|]. intros f2 chunk Hc E2 E3. cbn [sr_remaining advance] in Hc.
  destruct (Z.eqb_spec (len chunk) 0) as [E0|E0]; [apply len_0, E3 in E0; rewrite E0, len_nil in Hl; lia|].
  apply wp_ret. cbn [fst snd]. rewrite (proj2 (Z.eqb_neq (len chunk) 0)) by done.
  apply wp_ret. change (mkReader _ _ _ _ _ _) with (advance (advance r out) chunk). rewrite advance_app.
  pose proof (len_nonneg chunk). cbn. rewrite len_app. split; [split; [done|by rewrite Hout, E2, <- app_assoc]|]. rewrite E2, len_app in Hl. pose proof (len_nonneg (rest f2)). lia.
Qed.

Lemma staged_copy_honest id o f : Blob_decode (rest f) = Ok o ->
  wp (staged_copy id (len (rest f))) f (fun res _ =>
    res = if bool_decide (hash_bytes (rest f) = id) then Ok (blob_data o) else Err (Corrupt (bs "hash mismatch {}"))).
Proof.
  intros [Hmax He]%Blob_decode_spec. destruct (blob_prefix_shape (len (blob_data o))) as (header & _ & Hp). set (p := _ :: _ ++ header) in Hp.
  pose proof (blob_file_shape o p Hp) as He'. assert (rest f = p ++ blob_data o) as Hr by congruence.
  rewrite Hr, len_app. apply wp_bind, wp_bind. eapply wp_mono; [by apply frame_honest|]. intros r f1 [-> H1].
  apply wp_ret. apply wp_bind. eapply wp_mono; [apply copy_honest; by rewrite H1|]. intros r f2 [-> H2]. rewrite H1.
  apply wp_bind. apply wp_bind, wp_pure. cbn [sr_remaining advance]. rewrite Z.sub_diag. cbn [Z.eqb negb reject_if].
  apply wp_bind, wp_honest_read; [done|]. intros f3 chunk _ E2 _. rewrite H2 in E2. destruct chunk; [|done].
  apply wp_bind, wp_pure. cbn [reject_if]. apply wp_pure. cbn [sr_hasher sr_id advance].
  rewrite hasher_update_app, hasher_finalize_update. fold (hash_bytes (p ++ blob_data o)). by case_bool_decide; [apply wp_ret|].
Qed.

Lemma staged_copy_decodes id f : len (rest f) <= u64_max ->
  wp (staged_copy id (len (rest f))) f (fun res _ => forall out, res = Ok out -> exists o, Blob_decode (rest f) = Ok o).
Proof.
  intros Hmax. apply wp_bind, wp_bind. eapply wp_mono; [apply frame_spec|]. intros r f1 [_ Hf]. destruct r as [[p n]| |]; [|done..].
  destruct (Hf p n eq_refl) as (Hp & Hn & Hlen & Hr). rewrite (Hr rest Hhonest), len_app in Hlen. apply wp_ret, wp_intro. intros _ _ _ _ _.
  exists (mkBlob (rest f1)). apply Blob_decode_spec. rewrite (Hr rest Hhonest), len_app in *. pose proof (len_nonneg p). split.
  - cbn. unfold usize_max, u64_max in *. lia.
  - apply (blob_file_shape (mkBlob (rest f1))). cbn. by replace (len (rest f1)) with n by lia.
Qed.
End honest.
End staged.

(** C10: staged output is authenticated.  Whatever the descriptor serves, the
    copy ends without a panic, and if [finish] lets the sink be published,
    the sink holds exactly the payload of a blob file of the length seen at
    the start that hashes to the identifier: no mixture of two versions of a
    file under change passes.  [verify_blob] is that copy with the sink thrown
    away.  On a file that stays as it is, the copy succeeds exactly if the
    file hashes to the identifier and decodes to a blob, and gives its data. *)
Theorem staged_output_is_authenticated `{B3 : Blake3} {F : Type} (read : F -> Z -> Result bytes * F) (buffer : F -> Z) id object_len f
    (Hread : descriptor read) (Hbuffer : forall f, 0 < buffer f) (Hlen : object_len <= u64_max) :
  let copied := (staged_copy read buffer id object_len f).1 in
  copied <> Panic /\
  (forall out, copied = Ok out -> exists file, hash_bytes file = id /\ Blob_decode file = Ok (mkBlob out) /\ len file = object_len) /\
  (verify_blob read buffer id object_len f).1 = (_ ← copied; Ok tt) /\
  (forall rest, honest read rest -> object_len = len (rest f) ->
     forall out, copied = Ok out <-> hash_bytes (rest f) = id /\ Blob_decode (rest f) = Ok (mkBlob out)).
Proof.
  intros copied. pose proof (staged_copy_safe read buffer Hread Hbuffer id object_len f Hlen) as [Hnp Hsafe].
  split; [exact Hnp|]. split; [exact Hsafe|]. split; [apply verify_blob_copies|].
  intros rest Hh ->. split.
  - intros Hc. destruct (staged_copy_decodes read buffer Hread rest Hh id f Hlen out Hc) as [o Ho].
    pose proof (staged_copy_honest read buffer Hread Hbuffer rest Hh id o f Ho) as H. unfold wp in H. unfold copied in Hc. rewrite H in Hc.
    case_bool_decide; [|done]. injection Hc as <-. split; [done|]. rewrite Ho. by destruct o.
  - intros [Hid Ho]. pose proof (staged_copy_honest read buffer Hread Hbuffer rest Hh id _ f Ho) as H. unfold wp in H.
    unfold copied. rewrite H. by rewrite bool_decide_eq_true_2.
Qed.

(** ** A file read in chunks of at most three bytes *)

Definition demo_read (f : bytes) (n : Z) : Result bytes * bytes :=
  let k := Z.to_nat (Z.min n 3) in (Ok (firstn k f), skipn k f).

Lemma demo_descriptor : descriptor demo_read.
Proof. intros f n. unfold demo_read, len. cbn [fst]. rewrite length_firstn. lia. Qed.

Lemma demo_honest : honest demo_read (fun f => f).
Proof.
  intros f n Hn. unfold demo_read. cbn [fst snd]. exists (firstn (Z.to_nat (Z.min n 3)) f). split; [done|]. split; [by rewrite firstn_skipn|].
  destruct (Z.to_nat (Z.min n 3)) eqn:E; [lia|]. by destruct f.
Qed.

Definition demo_file : bytes := match Blob_encode (mkBlob (bs "hello")) with Ok b => b | _ => [] end.

Lemma staged_output_is_authenticated_witness :
  (staged_copy demo_read (fun _ => 2) (hash_bytes demo_file) (len demo_file) demo_file).1 = Ok (bs "hello") /\
  (staged_copy demo_read (fun _ => 2) (hash_bytes (bs "other")) (len demo_file) demo_file).1 <> Ok (bs "hello").
Proof.
  assert (Blob_decode demo_file = Ok (mkBlob (bs "hello"))) as Hd by (vm_compute; reflexivity).
  assert (len demo_file <= u64_max) as Hl by (vm_compute; discriminate).
  assert (bool_decide (hash_bytes demo_file = hash_bytes (bs "other")) = false) as Hne by (vm_compute; reflexivity).
  pose proof (fun id => staged_output_is_authenticated demo_read (fun _ => 2) id (len demo_file) demo_file demo_descriptor (fun _ => eq_refl) Hl) as H.
  split.
  - destruct (H (hash_bytes demo_file)) as (_ & _ & _ & Hh). apply (Hh (fun f => f) demo_honest eq_refl). by split.
  - destruct (H (hash_bytes (bs "other"))) as (_ & _ & _ & Hh). intros Hc. apply (Hh (fun f => f) demo_honest eq_refl) in Hc as [Hc _].
    exact (proj1 (bool_decide_eq_false _) Hne Hc).
Defined.
