(* ===== verification/Fsck.v ===== *)
(** * fsck (crates/forge-api/src/fsck.rs)

    What decides whether an audit runs at all, the roots it collects from the
    catalog, the walk that turns what is wrong with an object into a finding,
    and the report.  [env] is the variable that bounds the walk, [standing] what
    the migration ledger says, [staging] and [objects] the listings of the
    repository's directory. *)

From S2P Require Import Prelude RustStd Types Tree Overlay TreeStore Object Contribution ObjectStore Store Graph History Namespace Catalog Refs Sessions CatAudit Protocol Cap Authority Plane Forge Integration.

(** ** The report *)

Record FsckFinding := mkFsckFinding { ff_code : str; ff_resource : str; ff_detail : str }.
#[export] Instance FsckFinding_eq_dec : EqDecision FsckFinding.
Proof. solve_decision. Defined.

Record FsckReport := mkFsckReport {
  fr_ok : bool;
  fr_full : bool;
  fr_checked_refs : Z;
  fr_checked_objects : Z;
  fr_checked_namespaces : Z;
  fr_findings : list FsckFinding
}.

Definition FsckReport_new (full : bool) : FsckReport := mkFsckReport true full 0 0 0 [].

Definition finding (r : FsckReport) (code resource detail : str) : FsckReport :=
  mkFsckReport false (fr_full r) (fr_checked_refs r) (fr_checked_objects r) (fr_checked_namespaces r)
    (fr_findings r ++ [mkFsckFinding code resource detail]).

(** [Vec::dedup]. *)
Fixpoint dedup_findings (l : list FsckFinding) : list FsckFinding :=
  match l with
  | [] => []
  | x :: l' => match l' with
               | y :: _ => if bool_decide (x = y) then dedup_findings l' else x :: dedup_findings l'
               | [] => [x]
               end
  end.

(** [sort_by] on the triple: three stable sorts, the last key first. *)
Definition sort_findings (l : list FsckFinding) : list FsckFinding :=
  sort_by_key ff_code (sort_by_key ff_resource (sort_by_key ff_detail l)).

Definition finish (r : FsckReport) : FsckReport :=
  mkFsckReport (fr_ok r) (fr_full r) (fr_checked_refs r) (fr_checked_objects r) (fr_checked_namespaces r)
    (dedup_findings (sort_findings (fr_findings r))).

Definition set_checked (refs namespaces : Z) (r : FsckReport) : FsckReport :=
  mkFsckReport (fr_ok r) (fr_full r) refs (fr_checked_objects r) namespaces (fr_findings r).

Definition count_object (r : FsckReport) : FsckReport :=
  mkFsckReport (fr_ok r) (fr_full r) (fr_checked_refs r) (fr_checked_objects r + 1) (fr_checked_namespaces r) (fr_findings r).

(** A root: the object, what it must be, and the row that names it. *)
Abbreviation Root := (ObjectId * GraphExpectation * str)%type.
Definition root_edges (roots : list Root) : list GraphEdge := (fun '(id, expected, resource) => mkEdge id expected resource) <$> roots.

Abbreviation Acc := (FsckReport * list Root)%type.

Definition note (code resource detail : str) (acc : Acc) : Acc := (finding acc.1 code resource detail, acc.2).
Definition root (id : ObjectId) (expected : GraphExpectation) (resource : str) (acc : Acc) : Acc :=
  (acc.1, acc.2 ++ [(id, expected, resource)]).

(** ** Refusing to audit *)

Definition CURRENT_SCHEMA_VERSION : Z := 3.

Inductive LedgerStanding := Current | NeedsMigration (version : Z) | Newer (version : Z) | Damaged.

(** The standing of a ledger: [versions] as stored, [None] when the table is
    missing or cannot be read. *)
Definition ledger_standing (versions : option (list Z)) : LedgerStanding :=
  match versions with
  | None => Damaged
  | Some versions =>
      let contiguous := Z.of_nat <$> seq 1 (length versions) in
      if bool_decide (versions = []) || negb (bool_decide (versions = contiguous)) then Damaged
      else let top := len versions in
           if top <? CURRENT_SCHEMA_VERSION then NeedsMigration top
           else if top =? CURRENT_SCHEMA_VERSION then Current else Newer top
  end.

Inductive FsckRefusalReason := SchemaNeedsMigration | SchemaNewerThanSupported.

Record FsckRefusal := mkRefusal {
  rf_reason : FsckRefusalReason;
  rf_schema_version : Z;
  rf_supported_schema_version : Z;
  rf_detail : str
}.

Definition object_type_for_kind (kind : str) : outcome str ObjectType :=
  if bytes_eqb kind (bs "blob") then Ok TBlob
  else if bytes_eqb kind (bs "tree") then Ok TTree
  else if bytes_eqb kind (bs "commit") then Ok TCommit
  else if bytes_eqb kind (bs "conflict") then Ok TConflict
  else if bytes_eqb kind (bs "snapshot") then Ok TSnapshot
  else Err (bs "unknown ref kind " ++ kind).

(** The refusal a standing calls for. *)
Definition standing_refusal (standing : LedgerStanding) : option FsckRefusal :=
  match standing with
  | NeedsMigration version =>
      Some (mkRefusal SchemaNeedsMigration version CURRENT_SCHEMA_VERSION
              (bs "metadata schema version {version} needs migration to {CURRENT_SCHEMA_VERSION}, which a read-only check cannot perform; fsck will not migrate a repository it was asked to diagnose. Open the repository once for writing to migrate it (for example `forge --dir <repo> --cap <cap> refs`), then re-run `forge fsck --full`"))
  | Newer version =>
      Some (mkRefusal SchemaNewerThanSupported version CURRENT_SCHEMA_VERSION
              (bs "metadata schema version {version} is newer than supported {CURRENT_SCHEMA_VERSION}; this binary does not know that catalog's invariants and cannot audit it. Upgrade forge, then re-run `forge fsck --full`"))
  | Current | Damaged => None
  end.

(** [deferred]: the handle was opened without checking the ledger. *)
Definition fsck_refusal `{HM : Hmac} (standing : Result LedgerStanding) (deferred : bool) (key : bytes) (now : Z) (cap : Cap)
    (full : bool) : Result (option FsckRefusal) :=
  _ ← reject_if (deferred && negb full) (Invalid (bs "a ledger-deferred fsck handle requires full=true"));
  _ ← check key now cap Read None;
  _ ← reject_if (negb (has_unrestricted_ref_scope cap)) (Denied (bs "fsck requires unrestricted read authority"));
  if full then s ← standing; Ok (standing_refusal s) else Ok None.

(** ** The walk *)

Definition check_object_expectation (report : FsckReport) (id : ObjectId) (actual : ObjectType) (expected : GraphExpectation)
    (resource : str) : FsckReport :=
  if accepts expected actual then report
  else finding report (bs "TYPE_MISMATCH") resource
         (hex id ++ bs " is " ++ as_str actual ++ bs ", expected " ++ description expected).

Section walk.
Context {St B : Type} `{R : Repo St B} `{HM : Hmac} `{B3 : Blake3} `{ED : Ed25519}.

Abbreviation forge := (stateM Error (Forge St)).

(** [match call { Ok(..) => .., Err(..) => .. }]. *)
Definition attempt {S A} (m : stateM Error S A) : stateM Error S (Result A) :=
  fun s => match m s with
           | (Panic, s') => (Panic, s')
           | (r, s') => (Ok r, s')
           end.

Abbreviation Walk := (GraphWorkQueue * gmap ObjectId ObjectType * FsckReport)%type.

(** An object not met before. *)
Definition visit (edge : GraphEdge) (queue : GraphWorkQueue) (verified : gmap ObjectId ObjectType) (report : FsckReport)
    : stateM Error St Walk :=
  let id := ge_id edge in let resource := ge_resource edge in
  raw ← attempt (repo_get_raw_verified id);
  match raw with
  | Ok b =>
      match decode_object_type b with
      | Ok actual =>
          let report := check_object_expectation (count_object report) id actual (ge_expected edge) resource in
          let verified := <[id := actual]> verified in
          match decode_graph_object id b with
          | Ok decoded => queue ← pure (schedule_all queue (dg_edges decoded)); mret (queue, verified, report)
          | Err err => mret (queue, verified, finding report (bs "DECODE") resource (hex id ++ bs ": " ++ Error_to_string err))
          | Panic => panic
          end
      | Err err => mret (queue, verified, finding report (bs "OBJECT_TYPE") resource (hex id ++ bs ": " ++ Error_to_string err))
      | Panic => panic
      end
  | Err err => mret (queue, verified, finding report (bs "OBJECT_READ") resource (hex id ++ bs ": " ++ Error_to_string err))
  | Panic => panic
  end.

Definition verify_step (l : Walk) : stateM Error St (Walk + FsckReport) :=
  let '(queue, verified, report) := l in
  match pop_front queue with
  | (None, _) => mret (inr report)
  | (Some edge, queue) =>
      match verified !! ge_id edge with
      | Some actual =>
          mret (inl (queue, verified, check_object_expectation report (ge_id edge) actual (ge_expected edge) (ge_resource edge)))
      | None => l ← visit edge queue verified report; mret (inl l)
      end
  end.

Definition verify_graph (env : option str) (roots : list Root) (report : FsckReport) : stateM Error St FsckReport :=
  queue ← pure (schedule_all (with_limit (max_graph_objects env)) (root_edges roots));
  m_while graph_budget verify_step (queue, ∅, report).

(** ** The roots of the live catalog *)

(** Any failure, and any kind but the five, is a ref that is not there. *)
Definition late_ref (name : str) : forge (option (ObjectId * ObjectType)) :=
  row ← attempt (on_meta (get_ref name));
  mret (match row with
        | Ok (Some row) => match object_type_for_kind (ref_kind row) with Ok ty => Some (ref_oid row, ty) | _ => None end
        | _ => None
        end).

Abbreviation RefTypes := (gmap str (ObjectId * ObjectType))%type.

(** The clock of the tag after [i] others is read for its capability check. *)
Definition collect_ref (env : option str) (pk : arr 32) (key : bytes) (now : nat -> Z) (cap : Cap)
    (l : nat * RefTypes * Acc) (row : RefRow) : forge (nat * RefTypes * Acc) :=
  let '(i, ref_types, acc) := l in
  let resource := bs "ref:" ++ ref_name row in
  match object_type_for_kind (ref_kind row) with
  | Ok expected =>
      let ref_types := <[ref_name row := (ref_oid row, expected)]> ref_types in
      let acc := root (ref_oid row) (EExact expected) resource acc in
      match strip_prefix (ref_name row) (bs "tags/") with
      | Some tag =>
          let acc := if negb (ref_protected row) || negb (ref_sealed row) || negb (bytes_eqb (ref_kind row) (bs "snapshot"))
                     then note (bs "TAG_FLAGS") resource (bs "tag refs must be protected+sealed snapshots") acc else acc in
          verdict ← attempt (verify_tag env pk key (fun j => now (i + j)%nat) cap tag);
          mret (S i, ref_types, match verdict with
                                | Err err => note (bs "SEAL") (bs "tag:" ++ tag) (Error_to_string err) acc
                                | _ => acc
                                end)
      | None => mret (i, ref_types, acc)
      end
  | Err detail => mret (i, ref_types, note (bs "REF_KIND") resource detail acc)
  | Panic => panic
  end.

(** The rows as snapshotted, or as they are now. *)
Definition resolve_ref (ref_types : RefTypes) (name : str) : forge (option (ObjectId * ObjectType)) :=
  match ref_types !! name with
  | Some found => mret (Some found)
  | None => late_ref name
  end.

Definition live_root (ns_resource live : str) (found : option (ObjectId * ObjectType)) (acc : Acc) : Acc :=
  match found with
  | Some (oid, ty) =>
      if bool_decide (ty = TCommit) then root oid (EExact TCommit) (ns_resource ++ bs ":live_ref:" ++ live) acc
      else note (bs "NS_LIVE_TYPE") ns_resource (bs "live ref " ++ live ++ bs " is " ++ as_str ty ++ bs ", expected commit") acc
  | None => note (bs "NS_LIVE_REF") ns_resource (bs "missing live ref " ++ live) acc
  end.

(** What a mount's spec roots; both audits share the code's arms for a raw object. *)
Definition mount_oid (mount_resource : str) (mode : str) (id : ObjectId) (acc : Acc) : Acc :=
  let acc := if bytes_eqb mode (bs "rw")
             then note (bs "MOUNT_RW_OID") mount_resource (bs "read-write mount cannot target immutable raw OID") acc else acc in
  root id EAny (mount_resource ++ bs ":oid") acc.

Definition mount_ref (mount_resource name : str) (found : option (ObjectId * ObjectType)) (acc : Acc) : Acc :=
  match found with
  | Some (oid, ty) => root oid (EExact ty) (mount_resource ++ bs ":ref:" ++ name) acc
  | None => note (bs "MOUNT_REF") mount_resource (bs "missing ref " ++ name) acc
  end.

Definition overlay_root (mount_resource : str) (acc : Acc) (row : OverlayRow) : Acc :=
  match or_blob_oid row with
  | Some id => root id (EExact TBlob) (mount_resource ++ bs ":overlay:" ++ or_path row) acc
  | None => acc
  end.

Definition collect_mount (ns_id : str) (ref_types : RefTypes) (acc : Acc) (mount : MountRow) : forge Acc :=
  let resource := bs "namespace:" ++ ns_id ++ bs ":mount:" ++ mr_path mount in
  acc ← match parse_spec (mr_spec mount) with
        | Ok (SRef name) => found ← resolve_ref ref_types name; mret (mount_ref resource name found acc)
        | Ok (SOid id) => mret (mount_oid resource (mr_mode mount) id acc)
        | Err err => mret (note (bs "MOUNT_SPEC") resource (Error_to_string err) acc)
        | Panic => panic
        end;
  let acc := match mr_base_oid mount with
             | Some base => root base EAny (resource ++ bs ":base") acc
             | None => acc
             end in
  rows ← on_meta (overlay_list ns_id (mr_path mount));
  mret (fold_left (overlay_root resource) rows acc).

Definition observation_root (ns_resource : str) (acc : Acc) (o : ObservationRow) : Acc :=
  let resource := ns_resource ++ bs ":observation:" ++ ob_mount o ++ bs ":" ++ ob_path o in
  match ob_seen o with
  | OBlob oid => root oid (EExact TBlob) resource acc
  | OTree oid => root oid (EExact TTree) resource acc
  | OAbsent => acc
  end.

Definition collect_namespace (ref_types : RefTypes) (acc : Acc) (ns : NsRow) : forge Acc :=
  let resource := bs "namespace:" ++ nr_id ns in
  let acc := match nr_pinned_oid ns with
             | Some pin => root pin (EExact TCommit) (resource ++ bs ":pin") acc
             | None => note (bs "NS_PIN") resource (bs "namespace has no pinned commit") acc
             end in
  acc ← match nr_live_ref ns with
        | Some live => found ← resolve_ref ref_types live; mret (live_root resource live found acc)
        | None => mret acc
        end;
  mounts ← on_meta (list_mounts (nr_id ns));
  acc ← m_fold (collect_mount (nr_id ns) ref_types) acc mounts;
  rows ← on_meta (observations (nr_id ns));
  mret (fold_left (observation_root resource) rows acc).

Definition collect_reachable_roots (env : option str) (pk : arr 32) (key : bytes) (now : nat -> Z) (cap : Cap)
    (report : FsckReport) : forge Acc :=
  refs ← on_meta list_refs;
  let report := set_checked (len refs) (fr_checked_namespaces report) report in
  '(_, ref_types, acc) ← m_fold (collect_ref env pk key now cap) (0%nat, ∅, (report, [])) refs;
  namespaces ← on_meta list_namespaces;
  let acc := (set_checked (fr_checked_refs acc.1) (len namespaces) acc.1, acc.2) in
  m_fold (collect_namespace ref_types) acc namespaces.

(** ** The roots of the audited catalog *)

(** A row of a kind the auditor has reported already holds [None]. *)
Definition audited_types (refs : list RefRow) : gmap str (option (ObjectId * ObjectType)) :=
  fold_left (fun m row => <[ref_name row := match object_type_for_kind (ref_kind row) with
                                             | Ok expected => Some (ref_oid row, expected)
                                             | _ => None
                                             end]> m) refs ∅.

Definition audit_mount_spec (refs_complete : bool) (ref_types : gmap str (option (ObjectId * ObjectType))) (acc : Acc)
    (mount : CatalogMountRow) : Acc :=
  let resource := bs "namespace:" ++ cm_ns_id mount ++ bs ":mount:" ++ cm_path mount in
  match parse_spec (cm_spec mount) with
  | Ok (SRef name) =>
      if negb refs_complete then acc
      else match ref_types !! name with
           | Some (Some found) => mount_ref resource name (Some found) acc
           | Some None => acc
           | None => mount_ref resource name None acc
           end
  | Ok (SOid id) => mount_oid resource (cm_mode mount) id acc
  | Err error => note (bs "MOUNT_SPEC") resource (Error_to_string error) acc
  | Panic => acc
  end.

Definition audit_seal_payload (env : option str) (pk : arr 32) (acc : Acc) (seal : SealRow) : forge Acc :=
  verdict ← attempt (verify_seal_payload env pk (sr_tag seal) (sr_snap_oid seal) (sr_commit_oid seal) (sr_tree_oid seal));
  mret (match verdict with
        | Err error => note (bs "SEAL_PAYLOAD") (bs "catalog:seal:" ++ sr_tag seal) (Error_to_string error) acc
        | _ => acc
        end).

Definition expectation (e : CatalogObjectExpectation) : GraphExpectation :=
  match e with CAny => EAny | CExact t => EExact t | CTreeEntry => ETreeEntry end.

Definition collect_full_catalog (env : option str) (pk : arr 32) (catalog : CatalogAudit) (report : FsckReport) : forge Acc :=
  let report := set_checked (len (au_refs catalog)) (len (au_namespaces catalog)) report in
  let ref_types := audited_types (au_refs catalog) in
  let acc := fold_left (audit_mount_spec (au_refs_complete catalog) ref_types) (au_mounts catalog) (report, []) in
  acc ← m_fold (audit_seal_payload env pk) acc (au_seals catalog);
  let acc := fold_left (fun acc f => note (f_code f) (f_resource f) (f_detail f) acc) (au_findings catalog) acc in
  mret (fold_left (fun acc r => root (cr_oid r) (expectation (cr_expected r)) (cr_resource r) acc) (au_roots catalog) acc).

(** ** The object files *)

Inductive FileType := IsDir | IsFile | IsOther.

#[export] Instance FileType_eq_dec : EqDecision FileType.
Proof. solve_decision. Defined.

(** [read_dir], whose entries come in an order of the system's. *)
Context (read_dir : str -> Result (list (str * FileType))).

Definition join (path name : str) : str := path ++ bs "/" ++ name.

Definition shard_dirs (id : ObjectId) : str * str := (take 2 (hex id), take 2 (drop 2 (hex id))).

Definition scan_object_file (a_name b_name dir : str) (acc : Acc) (file : str * FileType) : Acc :=
  let '(name, ty) := file in
  let path := join dir name in
  if negb (bool_decide (ty = IsFile)) then note (bs "OBJECT_LAYOUT") path (bs "object entry is not a regular file") acc
  else match from_hex name with
       | Ok id =>
           let '(expected_a, expected_b) := shard_dirs id in
           let acc := if negb (bytes_eqb a_name expected_a) || negb (bytes_eqb b_name expected_b)
                      then note (bs "OBJECT_SHARD") path
                             (bs "object " ++ hex id ++ bs " is under " ++ a_name ++ bs "/" ++ b_name ++ bs ", expected "
                              ++ expected_a ++ bs "/" ++ expected_b) acc
                      else acc in
           root id EAny (bs "object:" ++ hex id) acc
       | Err err => note (bs "OBJECT_NAME") path (Error_to_string err) acc
       | Panic => acc
       end.

Definition scan_second_level (a_name dir : str) (acc : Acc) (b : str * FileType) : Result Acc :=
  let '(b_name, ty) := b in
  let path := join dir b_name in
  if negb (bool_decide (ty = IsDir)) then Ok (note (bs "OBJECT_LAYOUT") path (bs "expected second-level shard directory") acc)
  else l ← read_dir path; Ok (fold_left (scan_object_file a_name b_name path) l acc).

Definition scan_first_level (dir : str) (acc : Acc) (a : str * FileType) : Result Acc :=
  let '(a_name, ty) := a in
  let path := join dir a_name in
  if negb (bool_decide (ty = IsDir)) then Ok (note (bs "OBJECT_LAYOUT") path (bs "expected first-level shard directory") acc)
  else l ← read_dir path; try_fold (scan_second_level a_name path) acc l.

Definition scan_all_object_paths (dir : str) (acc : Acc) : Result Acc :=
  let objects := join dir (bs "objects") in
  l ← read_dir objects; try_fold (scan_first_level objects) acc l.

(** ** The audit *)

Definition note_staging (report : FsckReport) (path : str) : FsckReport :=
  finding report (bs "INIT_STAGING") (bs "path:" ++ path)
    (bs "orphaned repository-initialization staging path; rerun `forge init` to reclaim it").

(** [dir] is the directory of the repository, [staging] the paths
    [init_staging_siblings] lists beside it, [standing] the answer of the
    migration ledger, [deferred] the handle's [fsck_catalog]. *)
Definition fsck (env : option str) (pk : arr 32) (key : bytes) (now : nat -> Z) (standing : Result LedgerStanding)
    (deferred : bool) (dir : str) (staging : Result (list str)) (cap : Cap) (full : bool) : forge FsckReport :=
  refusal ← pure (fsck_refusal standing deferred key (now 0%nat) cap full);
  _ ← match refusal with Some refusal => throw (Invalid (rf_detail refusal)) | None => mret tt end;
  siblings ← pure staging;
  let report := fold_left note_staging siblings (FsckReport_new full) in
  '(report, roots) ←
    (if full then
       catalog ← on_meta (c ← get_tables; mret (audit_catalog c));
       acc ← collect_full_catalog env pk catalog report;
       pure (scan_all_object_paths dir acc)
     else collect_reachable_roots env pk key (fun i => now (S i)) cap report);
  report ← on_store (verify_graph env roots report);
  mret (finish report).
End walk.

(** ** What a report says of the objects *)

Section told.
Context `{B3 : Blake3}.
Implicit Types (v : gmap ObjectId bytes) (e : GraphEdge) (id : ObjectId) (f : FsckFinding).

(** What any of the roots reaches. *)
Definition reached v (roots : list GraphEdge) e : Prop := exists r, r ∈ roots /\ view_reaches v r e.

(** The edge leads to a stored object that decodes to what it must be. *)
Definition edge_good v e : Prop := exists b d,
  v !! ge_id e = Some b /\ decode_graph_object (ge_id e) b = Ok d /\ accepts (ge_expected e) (dg_type d) = true.

(** The finding is about this edge. *)
Definition tells f e : Prop := ff_resource f = ge_resource e /\ exists rest, ff_detail f = hex (ge_id e) ++ rest.

(** Something of a type is stored under the identifier. *)
Definition typed v id (t : ObjectType) : Prop := exists b, v !! id = Some b /\ decode_object_type b = Ok t.

Definition told v (roots : list GraphEdge) (new : list FsckFinding) id : Prop :=
  exists f e, f ∈ new /\ reached v roots e /\ ge_id e = id /\ tells f e.

(** The walk from [rep] to [rep'] told [new], of the typed objects [met]. *)
Record walked v (roots : list GraphEdge) (rep rep' : FsckReport) (new : list FsckFinding) (met : gset ObjectId) : Prop := mk_walked {
  wk_findings : fr_findings rep' = fr_findings rep ++ new;
  wk_told f : f ∈ new -> exists e, reached v roots e /\ ~ edge_good v e /\ tells f e;
  wk_all e : reached v roots e -> ~ edge_good v e -> told v roots new (ge_id e);
  wk_ok : fr_ok rep' = fr_ok rep && bool_decide (new = []);
  wk_counted id : id ∈ met <-> (exists e, reached v roots e /\ ge_id e = id) /\ exists t, typed v id t;
  wk_count : fr_checked_objects rep' = fr_checked_objects rep + Z.of_nat (size met)
}.

Lemma decode_graph_type id b d : decode_graph_object id b = Ok d -> decode_object_type b = Ok (dg_type d).
Proof.
  unfold decode_graph_object. intros (t & Ht & H)%bind_ok. apply bind_ok in H as (edges & _ & [= <-]). done.
Qed.

Lemma typed_fun v id t t' : typed v id t -> typed v id t' -> t = t'.
Proof. intros (b & Hb & Ht) (b' & Hb' & Ht'). congruence. Qed.

Lemma told_mono v roots new new' id : new ⊆ new' -> told v roots new id -> told v roots new' id.
Proof. intros Hs (f & e & Hf & H). exists f, e. split; [by apply Hs|done]. Qed.

Section invariant.
Context v (roots : list GraphEdge) (limit : Z) (rep : FsckReport).

(** A constraint that has been dealt with: its object has a type, and it was
    accepted or told of; or it has none, and that was told. *)
Definition dealt (verified : gmap ObjectId ObjectType) (new : list FsckFinding) (c : ObjectId * Z) : Prop :=
  ((forall t, ~ typed v c.1 t) /\ told v roots new c.1) \/
  exists t x, verified !! c.1 = Some t /\ expectation_key x = c.2 /\ (accepts x t = true \/ told v roots new c.1).

(** The object of a verified identifier: its edges are scheduled, or it does
    not decode and that was told. *)
Definition looked_into (q : GraphWorkQueue) (new : list FsckFinding) id (t : ObjectType) : Prop :=
  typed v id t /\
  ((exists b d, v !! id = Some b /\ decode_graph_object id b = Ok d /\ forall e, e ∈ dg_edges d -> edge_key e ∈ gq_scheduled q) \/
   ((forall b d, v !! id = Some b -> decode_graph_object id b <> Ok d) /\ told v roots new id)).

Record fsck_inv (q : GraphWorkQueue) (verified : gmap ObjectId ObjectType) (r : FsckReport) (new : list FsckFinding) : Prop := mk_fsck_inv {
  fi_wf : wf_queue q;
  fi_limit : gq_limit q = limit;
  fi_queue e : e ∈ gq_queue q -> reached v roots e;
  fi_ids id : id ∈ gq_scheduled_ids q -> exists e, reached v roots e /\ ge_id e = id;
  fi_roots e : e ∈ roots -> edge_key e ∈ gq_scheduled q;
  fi_dealt c : c ∈ gq_scheduled q -> (exists e, e ∈ gq_queue q /\ edge_key e = c) \/ dealt verified new c;
  fi_verified id t : verified !! id = Some t -> (exists e, reached v roots e /\ ge_id e = id) /\ looked_into q new id t;
  fi_findings : fr_findings r = fr_findings rep ++ new;
  fi_told f : f ∈ new -> exists e, reached v roots e /\ ~ edge_good v e /\ tells f e;
  fi_ok : fr_ok r = fr_ok rep && bool_decide (new = []);
  fi_count : fr_checked_objects r = fr_checked_objects rep + Z.of_nat (size verified)
}.

(** Its bound: constraints waiting, and those yet to be scheduled. *)
Definition fsck_measure (q : GraphWorkQueue) : Z := len (gq_queue q) + (8 * limit - Z.of_nat (size (gq_scheduled q))).

Lemma dealt_mono verified verified' new new' c :
  verified ⊆ verified' -> new ⊆ new' -> dealt verified new c -> dealt verified' new' c.
Proof.
  intros Hv Hn [[Hno H]|(t & x & Ht & Ex & H)].
  - left. split; [done|by eapply told_mono].
  - right. exists t, x. split; [by eapply lookup_weaken|]. split; [done|]. destruct H; [by left|right; by eapply told_mono].
Qed.

Lemma looked_mono q q' new new' id t :
  gq_scheduled q ⊆ gq_scheduled q' -> new ⊆ new' -> looked_into q new id t -> looked_into q' new' id t.
Proof.
  intros Hq Hn [Ht [(b & d & Hb & Hd & He)|[Hno H]]]; (split; [done|]).
  - left. exists b, d. split_and!; try done. intros e Hin. by apply Hq, He.
  - right. split; [done|by eapply told_mono].
Qed.

(** A turn: [e] is dealt with, its object perhaps looked into, the edges of
    that object scheduled. *)
Lemma inv_next e l sch ids verified r new more q2 edges verified' r' :
  fsck_inv (mkQueue (e :: l) sch ids limit) verified r new ->
  scheduled_more (reached v roots) limit (mkQueue l sch ids limit) edges q2 -> (forall e', e' ∈ edges -> reached v roots e') ->
  verified ⊆ verified' ->
  (forall id t, verified' !! id = Some t -> verified !! id = Some t \/ (id = ge_id e /\ looked_into q2 (new ++ more) id t)) ->
  dealt verified' (new ++ more) (edge_key e) ->
  (forall f, f ∈ more -> ~ edge_good v e /\ tells f e) ->
  fr_findings r' = fr_findings r ++ more -> fr_ok r' = fr_ok r && bool_decide (more = []) ->
  fr_checked_objects r' + Z.of_nat (size verified) = fr_checked_objects r + Z.of_nat (size verified') ->
  fsck_inv q2 verified' r' (new ++ more) /\ 0 <= fsck_measure q2 < fsck_measure (mkQueue (e :: l) sch ids limit).
Proof.
  intros [Hwf Hlim Hq Hids Hroots Hdealt Hver Hf Htold Hok Hcount] (H1 & H2 & H3 & H4 & H5 & H6 & H7 & H8 & H9) Hed Hsub Hnew He Hmore Hf' Hok' Hc'.
  cbn [gq_queue gq_scheduled gq_scheduled_ids gq_limit] in *. assert (reached v roots e) as Hre by (apply Hq; by left).
  split.
  - split; try done.
    + intros e' [?|?]%H6; [apply Hq; by right|by apply Hed].
    + intros e' Hin. by apply H3, Hroots.
    + intros c [Hc|?]%H8; [|by left]. destruct (Hdealt c Hc) as [(e' & [->|Hin]%elem_of_cons & <-)|Hd].
      * by right.
      * left. exists e'. split; [by apply H7|done].
      * right. eapply dealt_mono; [done| |exact Hd]. set_solver.
    + intros id t Ht. destruct (Hnew _ _ Ht) as [Ho|[-> Hl]]; [|split; [by exists e|done]].
      destruct (Hver _ _ Ho) as [? Hl]. split; [done|]. eapply looked_mono; [| |exact Hl]; [exact H3|set_solver].
    + by rewrite Hf', Hf, app_assoc.
    + intros f [?|[? ?]%Hmore]%elem_of_app; [by apply Htold|by exists e].
    + rewrite Hok', Hok, <- andb_assoc. f_equal. destruct new, more; done.
    + lia.
  - pose proof (scheduled_bound _ H1) as Hb. rewrite H2 in Hb.
    unfold fsck_measure. cbn [gq_queue gq_scheduled]. rewrite len_cons. pose proof (len_nonneg (gq_queue q2)). lia.
Qed.

(** When the queue is empty the walk has said everything. *)
Lemma fsck_done q verified r new : fsck_inv q verified r new -> gq_queue q = [] ->
  walked v roots rep r new (dom verified).
Proof.
  intros [_ _ _ Hids Hroots Hdealt Hver Hf Htold Hok Hcount] Eq.
  assert (forall e, edge_key e ∈ gq_scheduled q -> dealt verified new (edge_key e)) as Hk.
  { intros e [(e' & He' & _)|H]%Hdealt; [|done]. rewrite Eq in He'. by apply elem_of_nil in He'. }
  assert (forall e, reached v roots e -> edge_key e ∈ gq_scheduled q) as Hsch.
  { intros e (root & Hroot & He). induction He as [|e b d e' He IH Hb Hd Hin]; [by apply Hroots|].
    assert (typed v (ge_id e) (dg_type d)) as Hty by (exists b; split; [done|by apply decode_graph_type in Hd]).
    destruct (Hk e IH) as [[Hno _]|(t & x & Ht & _)]; [by apply Hno in Hty|]. cbn [fst] in Ht.
    destruct (Hver _ _ Ht) as [_ [_ [(b' & d' & Hb' & Hd' & Hed)|[Hno _]]]]; [|by apply (Hno b d) in Hd].
    apply Hed. congruence. }
  split; [done|done| |done| |by rewrite size_dom].
  - intros e He Hbad. destruct (Hk e (Hsch e He)) as [[_ H]|(t & x & Ht & Ex & [Ha|H])]; [done| |done].
    cbn [fst snd] in *. apply expectation_key_inj in Ex as ->.
    destruct (Hver _ _ Ht) as [_ [Hty [(b & d & Hb & Hd & _)|[_ H]]]]; [|done]. destruct Hbad. exists b, d.
    split_and!; [done..|]. pose proof (decode_graph_type _ _ _ Hd) as Hd'.
    assert (dg_type d = t) as -> by (eapply typed_fun; [exists b; by split|exact Hty]). done.
  - intros id. rewrite elem_of_dom. split.
    + intros [t Ht]. destruct (Hver _ _ Ht) as [? [? _]]. split; [done|by exists t].
    + intros [(e & He & <-) [t Ht]]. destruct (Hk e (Hsch e He)) as [[Hno _]|(t' & x & Ht' & _)]; [by apply Hno in Ht|by exists t'].
Qed.
End invariant.

(** ** One edge *)

(** [more] is what the report says in addition, all of it about [e]. *)
Record says e (more : list FsckFinding) (r r' : FsckReport) : Prop := mk_says {
  sy_findings : fr_findings r' = fr_findings r ++ more;
  sy_ok : fr_ok r' = fr_ok r && bool_decide (more = []);
  sy_count : fr_checked_objects r' = fr_checked_objects r;
  sy_tells f : f ∈ more -> tells f e
}.

Lemma says_nothing e r : says e [] r r.
Proof. split; [by rewrite app_nil_r|by rewrite andb_true_r|done|by intros f ?%elem_of_nil]. Qed.

Lemma says_one e r code rest :
  says e [mkFsckFinding code (ge_resource e) (hex (ge_id e) ++ rest)] r (finding r code (ge_resource e) (hex (ge_id e) ++ rest)).
Proof. split; try done; [by rewrite andb_false_r|]. intros f ->%list_elem_of_singleton. split; [done|by exists rest]. Qed.

Lemma says_app e m1 m2 r1 r2 r3 : says e m1 r1 r2 -> says e m2 r2 r3 -> says e (m1 ++ m2) r1 r3.
Proof.
  intros [H1 H2 H3 H4] [G1 G2 G3 G4]. split.
  - by rewrite G1, H1, app_assoc.
  - rewrite G2, H2, <- andb_assoc. f_equal. by destruct m1, m2.
  - congruence.
  - intros f [?|?]%elem_of_app; auto.
Qed.

(** The type check speaks exactly of the type that is not accepted. *)
Lemma says_expectation e t r : exists more,
  says e more r (check_object_expectation r (ge_id e) t (ge_expected e) (ge_resource e))
  /\ (accepts (ge_expected e) t = true <-> more = []).
Proof.
  unfold check_object_expectation. destruct (accepts (ge_expected e) t).
  - exists []. split; [apply says_nothing|done].
  - eexists. split; [apply says_one|done].
Qed.

Lemma typed_bad v e t : typed v (ge_id e) t -> accepts (ge_expected e) t <> true -> ~ edge_good v e.
Proof.
  intros Ht Ha (b & d & Hb & Hd & Hac). destruct Ha. apply decode_graph_type in Hd.
  by rewrite (typed_fun _ _ t (dg_type d) Ht) by (exists b; by split).
Qed.

Lemma untyped_bad v e : (forall t, ~ typed v (ge_id e) t) -> ~ edge_good v e.
Proof. intros Hno (b & d & Hb & Hd & _). apply decode_graph_type in Hd. apply (Hno (dg_type d)). by exists b. Qed.

Lemma told_now v roots new more f e : f ∈ more -> reached v roots e -> tells f e -> told v roots (new ++ more) (ge_id e).
Proof. intros Hf He Ht. exists f, e. split_and!; try done. set_solver. Qed.
End told.

(** ** The walk tells exactly what is wrong *)

Lemma wp_attempt {S A} (m : stateM Error S A) s (Q : Result (Result A) -> S -> Prop) :
  wp m s (fun r s' => Q (match r with Panic => Panic | _ => Ok r end) s') -> wp (attempt m) s Q.
Proof. unfold wp, attempt. by destruct (m s) as [[a|e|] s']. Qed.

Section walk_exact.
Context {St B : Type} `{RL : RepoLaws St B} `{B3 : Blake3}.
Context (v : gmap ObjectId bytes) (roots : list GraphEdge) (limit : Z) (rep : FsckReport) (Hlim : 0 < limit <= u64_max).

(** The store answers from the object files [v]. *)
Definition reads_view (s s' : St) : Prop := rp_inv s' /\ rp_view s' = v /\ (rp_writable s -> rp_writable s').

(** More objects are named than the walk may meet. *)
Definition over_limit (err : Error) : Prop :=
  err = walk_limit_exceeded limit /\
  exists X : gset ObjectId, (forall id, id ∈ X -> exists e, reached v roots e /\ ge_id e = id) /\ limit < Z.of_nat (size X).

Definition turn_answer (q : GraphWorkQueue) (o : Result (GraphWorkQueue * gmap ObjectId ObjectType * FsckReport + FsckReport)) : Prop :=
  match o with
  | Ok (inl (q', verified', r')) => (exists new', fsck_inv v roots limit rep q' verified' r' new') /\ 0 <= fsck_measure limit q' < fsck_measure limit q
  | Ok (inr r') => exists new met, walked v roots rep r' new met
  | Err err => over_limit err
  | Panic => False
  end.

Lemma scheduled_none q l sch ids : q = mkQueue l sch ids limit -> wf_queue q ->
  (forall id, id ∈ ids -> exists e, reached v roots e /\ ge_id e = id) ->
  scheduled_more (reached v roots) limit q [] q.
Proof.
  intros -> Hq Hids. apply (schedule_edges_spec (reached v roots) limit (mkQueue l sch ids limit) []); [done|done| |done].
  by intros e ?%elem_of_nil.
Qed.

Section turn.
Context (e : GraphEdge) (l : list GraphEdge) (sch : gset (ObjectId * Z)) (ids : gset ObjectId)
  (verified : gmap ObjectId ObjectType) (r : FsckReport) (new : list FsckFinding).
Context (Hinv : fsck_inv v roots limit rep (mkQueue (e :: l) sch ids limit) verified r new).

Lemma turn_reached : reached v roots e.
Proof. apply (fi_queue _ _ _ _ _ _ _ _ Hinv). by left. Qed.

Lemma turn_popped : scheduled_more (reached v roots) limit (mkQueue l sch ids limit) [] (mkQueue l sch ids limit).
Proof.
  destruct Hinv as [Hwf _ _ Hids _ _ _ _ _ _ _]. apply (scheduled_none _ l sch ids); [done|by destruct Hwf|done].
Qed.

(** An edge whose object was met before. *)
Lemma turn_again t more r' : verified !! ge_id e = Some t -> says e more r r' ->
  (accepts (ge_expected e) t = true <-> more = []) ->
  turn_answer (mkQueue (e :: l) sch ids limit) (Ok (inl (mkQueue l sch ids limit, verified, r'))).
Proof.
  intros Ht [H1 H2 H3 H4] Ha. pose proof Hinv as [_ _ _ _ _ _ Hver _ _ _ _]. destruct (Hver _ _ Ht) as [_ [Hty _]].
  assert (forall f, f ∈ more -> ~ edge_good v e /\ tells f e) as Hm.
  { intros f Hf. split; [|by apply H4]. apply (typed_bad v e t Hty). intros Hac. apply Ha in Hac as ->. by apply elem_of_nil in Hf. }
  edestruct (inv_next v roots limit rep e l sch ids verified r new more) as [G1 G2];
    [exact Hinv|exact turn_popped|by intros ? ?%elem_of_nil|reflexivity|by left| |exact Hm|exact H1|exact H2|lia|].
  2: { split; [by exists (new ++ more)|exact G2]. }
  right. exists t, (ge_expected e). split_and!; try done. destruct more as [|f more]; [left; by apply Ha|right].
  apply (told_now v roots new (f :: more) f e); [by left|exact turn_reached|]. apply H4. by left.
Qed.

(** An object that cannot be read, or has no type. *)
Lemma turn_untyped more r' : (forall t, ~ typed v (ge_id e) t) -> says e more r r' -> more <> [] ->
  turn_answer (mkQueue (e :: l) sch ids limit) (Ok (inl (mkQueue l sch ids limit, verified, r'))).
Proof.
  intros Hno [H1 H2 H3 H4] Hne.
  edestruct (inv_next v roots limit rep e l sch ids verified r new more) as [G1 G2];
    [exact Hinv|exact turn_popped|by intros ? ?%elem_of_nil|reflexivity|by left| | |exact H1|exact H2|lia|].
  3: { split; [by exists (new ++ more)|exact G2]. }
  - left. split; [done|]. destruct more as [|f more]; [done|].
    apply (told_now v roots new (f :: more) f e); [by left|exact turn_reached|]. apply H4. by left.
  - intros f Hf. split; [by apply untyped_bad|by apply H4].
Qed.

(** An object met for the first time: what it names is scheduled. *)
Lemma turn_first t edges q2 more r' : verified !! ge_id e = None -> typed v (ge_id e) t ->
  says e more (count_object r) r' ->
  (more <> [] -> ~ edge_good v e) -> (more = [] -> accepts (ge_expected e) t = true) ->
  scheduled_more (reached v roots) limit (mkQueue l sch ids limit) edges q2 -> (forall e', e' ∈ edges -> reached v roots e') ->
  ((exists b d, v !! ge_id e = Some b /\ decode_graph_object (ge_id e) b = Ok d /\ dg_edges d = edges) \/
   (forall b d, v !! ge_id e = Some b -> decode_graph_object (ge_id e) b <> Ok d) /\ more <> []) ->
  turn_answer (mkQueue (e :: l) sch ids limit) (Ok (inl (q2, <[ge_id e := t]> verified, r'))).
Proof.
  intros Hn Hty [H1 H2 H3 H4] Hbad Ha Hs Hed Hd.
  assert (more <> [] -> told v roots (new ++ more) (ge_id e)) as Htold.
  { destruct more as [|f more]; [done|]. intros _.
    apply (told_now v roots new (f :: more) f e); [by left|exact turn_reached|]. apply H4. by left. }
  edestruct (inv_next v roots limit rep e l sch ids verified r new more q2 edges (<[ge_id e := t]> verified)) as [G1 G2];
    [exact Hinv|exact Hs|exact Hed|by apply insert_subseteq| | | |exact H1|exact H2| |].
  5: { split; [by exists (new ++ more)|exact G2]. }
  - intros id t' [[<- <-]|[_ Ht]]%lookup_insert_Some; [right|by left]. split; [done|]. split; [done|].
    destruct Hd as [(b & d & Hb & Hd & <-)|[Hno Hne]]; [left|right; by split; [|apply Htold]].
    exists b, d. split_and!; try done. apply Hs.
  - right. exists t, (ge_expected e). cbn [fst snd]. rewrite lookup_insert_eq. split_and!; try done.
    destruct more as [|f more]; [left; by apply Ha|right; by apply Htold].
  - intros f Hf. split; [|by apply H4]. apply Hbad. intros ->. by apply elem_of_nil in Hf.
  - rewrite map_size_insert_None by done. cbn [count_object fr_checked_objects] in H3. lia.
Qed.

Lemma turn_fresh_edges d b : v !! ge_id e = Some b -> decode_graph_object (ge_id e) b = Ok d ->
  forall e', e' ∈ dg_edges d -> reached v roots e'.
Proof.
  intros Hb Hd e' Hin. destruct turn_reached as (r0 & Hr0 & He). exists r0. split; [done|]. exact (view_edge v r0 e b d e' He Hb Hd Hin).
Qed.

Lemma turn_visit s : rp_inv s -> rp_view s = v -> verified !! ge_id e = None ->
  wp (visit e (mkQueue l sch ids limit) verified r) s (fun o s' => reads_view s s' /\
    turn_answer (mkQueue (e :: l) sch ids limit) (match o with Ok w => Ok (inl w) | Err err => Err err | Panic => Panic end)).
Proof.
  intros Hs Hv Hn. unfold visit. apply wp_bind, wp_attempt. eapply wp_mono; [by apply rp_get_raw_verified|].
  intros o s1 (Hs1 & Hv1 & Hw1 & Ho). rewrite Hv in Ho, Hv1.
  assert (reads_view s s1) as Hread by done. unfold object_at, ok_or in Ho.
  destruct (v !! ge_id e) as [b|] eqn:Eb; subst o.
  2: { apply wp_ret. split; [exact Hread|]. eapply turn_untyped; [|apply (says_one e r)|done]. intros t (b & Hb & _). congruence. }
  destruct (decode_object_type b) as [t|err|] eqn:Et.
  3: by apply no_panic_decode_object_type in Et.
  2: { apply wp_ret. split; [exact Hread|]. eapply turn_untyped; [|apply (says_one e r)|done]. intros t (b' & Hb & Ht). congruence. }
  assert (typed v (ge_id e) t) as Hty by (exists b; by split).
  destruct (says_expectation e t (count_object r)) as (more & Hsay & Hacc).
  set (r1 := check_object_expectation _ _ _ _ _) in *.
  destruct (decode_graph_object (ge_id e) b) as [d|err|] eqn:Ed.
  3: by apply no_panic_decode_graph_object in Ed.
  2: { apply wp_ret. split; [exact Hread|]. eapply turn_first; [done|done|eapply says_app; [exact Hsay|apply (says_one e r1)]| | |apply turn_popped|by intros ? ?%elem_of_nil|].
       - intros _ (b' & d' & Hb & Hd & _). congruence.
       - by destruct more.
       - right. split; [|by destruct more]. intros b' d' Hb. congruence. }
  pose proof (schedule_edges_spec (reached v roots) limit (mkQueue l sch ids limit) (dg_edges d)) as Hsch.
  pose proof turn_popped as (Hwf & _ & _ & _ & Hids & _). specialize (Hsch Hwf eq_refl (turn_fresh_edges d b Eb Ed) Hids).
  apply wp_bind, wp_pure. destruct (schedule_all (mkQueue l sch ids limit) (dg_edges d)) as [q2|err|]; [|split; [exact Hread|exact Hsch]|done].
  apply wp_ret. split; [exact Hread|]. eapply turn_first; [done|done|exact Hsay| |by intros ->%Hacc|exact Hsch|by apply (turn_fresh_edges d b)|].
  - intros Hne. apply (typed_bad v e t Hty). tauto.
  - left. by exists b, d.
Qed.
End turn.

Lemma verify_step_spec q verified r new s :
  fsck_inv v roots limit rep q verified r new -> rp_inv s -> rp_view s = v ->
  wp (verify_step (q, verified, r)) s (fun o s' => reads_view s s' /\ turn_answer q o).
Proof.
  intros Hinv Hs Hv. destruct q as [queue sch ids lim]. assert (lim = limit) as -> by exact (fi_limit _ _ _ _ _ _ _ _ Hinv).
  unfold verify_step, pop_front. cbn [gq_queue gq_scheduled gq_scheduled_ids gq_limit]. destruct queue as [|e l].
  { apply wp_ret. split; [done|]. exists new, (dom verified). by eapply fsck_done. }
  destruct (verified !! ge_id e) as [t|] eqn:Ev.
  - apply wp_ret. split; [done|]. destruct (says_expectation e t r) as (more & Hsay & Hacc). by eapply turn_again.
  - apply wp_bind. eapply wp_mono; [by apply (turn_visit e l sch ids verified r new)|].
    intros [w|err|] s1 [H1 H2]; [by apply wp_ret|done..].
Qed.

(** The whole walk, from the roots it is given. *)
Definition walk_verdict (o : Result FsckReport) : Prop :=
  match o with
  | Ok rep' => exists new met, walked v roots rep rep' new met
  | Err err => over_limit err
  | Panic => False
  end.

Lemma verify_loop_spec q s : fsck_inv v roots limit rep q ∅ rep [] -> fsck_measure limit q = 8 * limit -> rp_inv s -> rp_view s = v ->
  wp (m_while graph_budget verify_step (q, ∅, rep)) s (fun o s' => reads_view s s' /\ walk_verdict o).
Proof.
  intros Hinv Hm Hs Hv.
  apply (wp_m_while (fun l s' => (exists new, fsck_inv v roots limit rep l.1.1 l.1.2 l.2 new) /\ reads_view s s')
    (fun l => fsck_measure limit l.1.1)).
  - intros [[q1 verified] r] s1 [[new Hi] (Hs1 & Hv1 & Hw1)]. cbn [fst snd] in *.
    eapply wp_mono; [by eapply verify_step_spec|]. intros o s2 [(Hs2 & Hv2 & Hw2) Ho].
    assert (reads_view s s2) as H2 by (split_and!; auto). destruct o as [[[[q2 ver2] r2]|r2]|err|]; [|split; [exact H2|exact Ho]..].
    destruct Ho as [Hn Hm2]. exact (conj (conj Hn H2) Hm2).
  - split; [by exists []|done].
  - cbn [fst snd]. unfold graph_budget, u64_max in *. lia.
Qed.
End walk_exact.

Lemma verify_graph_spec {St B} `{RL : RepoLaws St B} `{B3 : Blake3} env (roots : list Root) (rep : FsckReport) (s : St) : rp_inv s ->
  wp (verify_graph env roots rep) s (fun o s' => reads_view (rp_view s) s s' /\
    walk_verdict (rp_view s) (root_edges roots) (max_graph_objects env) rep o).
Proof.
  intros Hs. pose proof (max_graph_objects_range env) as Hlim. unfold verify_graph. set (limit := max_graph_objects env) in *.
  assert (wf_queue (with_limit limit)) as Hq0.
  { split; [by intros id k ?%elem_of_empty|]. cbn. rewrite size_empty. lia. }
  pose proof (schedule_edges_spec (reached (rp_view s) (root_edges roots)) limit (with_limit limit) (root_edges roots)) as H.
  apply wp_bind, wp_pure. specialize (H Hq0 eq_refl).
  assert (forall e, e ∈ root_edges roots -> reached (rp_view s) (root_edges roots) e) as Hr.
  { intros e He. exists e. split; [done|constructor]. }
  specialize (H Hr ltac:(by intros id ?%elem_of_empty)).
  destruct (schedule_all (with_limit limit) (root_edges roots)) as [q|err|]; [|by split|done].
  destruct H as (H1 & H2 & H3 & H4 & H5 & H6 & H7 & H8 & H9). cbn [gq_queue with_limit gq_scheduled] in *.
  apply verify_loop_spec; [done| | |done|done].
  - split; try done.
    + intros e [He%elem_of_nil|He]%H6; [done|by apply Hr].
    + intros c [Hc%elem_of_empty|Hc]%H8; [done|by left].
    + by rewrite app_nil_r.
    + by intros f ?%elem_of_nil.
    + by rewrite andb_true_r.
    + rewrite map_size_empty. lia.
  - unfold fsck_measure. rewrite size_empty in H9. change (len (@nil GraphEdge)) with 0 in H9. lia.
Qed.
