(* ===== verification/FsckAudit.v ===== *)
(** * What a full audit says (crates/forge-api/src/fsck.rs, [Forge::fsck] with [full])

    A full audit of a repository whose ledger is current answers [ok] exactly
    when the repository is healthy: no staging is left beside it, the catalog
    is consistent, every mount names something, every seal verifies, every
    object file is where its name says, and the graph below everything the
    catalog or the directory names is complete. *)

From S2P Require Import Prelude RustStd Types Cbor Tree TreeStore Object Contribution Provenance ObjectStore Store Graph History Namespace Catalog Refs Sessions CatAudit Protocol Cap Authority Plane Forge Receipts Integration Seal Sound Repository Import Life Fsck.

(** ** Verifying a seal never panics *)

Lemma no_panic_encode_unsigned b snap : Snapshot_decode b = Ok snap -> no_panic (encode_unsigned snap).
Proof.
  intros [_ He]%Snapshot_decode_spec. unfold encode_unsigned, Snapshot_encode, encode_file, u32_expect in *.
  rewrite encode_map_sorted_len_exact in *.
  assert (forall s, len (concat (pair_bytes <$> snapshot_pairs s)) =
    len (concat (pair_bytes <$> snapshot_pairs (mkSnapshot (s_tree s) (s_commit s) (s_tag s) (s_ts s) (s_prov s) (s_pk s) (mkArr (n:=64) (repeat x00 64) I))))) as Hl.
  { intros s. unfold snapshot_pairs. cbn [s_tree s_commit s_tag s_ts s_prov s_pk s_sig fmap list_fmap concat pair_bytes fst snd].
    unfold encode_bytes, pair_bytes. cbn [fst snd]. rewrite !len_app, !arr_length_len. done. }
  rewrite <- Hl. change (len (snapshot_pairs _)) with 7. change (len (snapshot_pairs snap)) with 7 in He.
  destruct (_ <? _); [done|]. rewrite bind_of_ok. apply no_panic_ok.
Qed.

Section no_panic_payload.
Context `{B3 : Blake3} `{ED : Ed25519}.

Lemma no_panic_signature b pk snap : Snapshot_decode b = Ok snap -> no_panic (verify_signature pk snap).
Proof.
  intros H. unfold verify_signature. apply no_panic_bind; [by eapply no_panic_encode_unsigned|]. intros u _.
  apply no_panic_bind; [auto with forge|]. auto with forge.
Qed.

Lemma no_panic_payload pk tag snap_oid commit_oid tree_oid v : no_panic (d_payload pk tag snap_oid commit_oid tree_oid v).
Proof.
  unfold d_payload. apply no_panic_bind; [apply no_panic_object_at|]. intros b _.
  apply no_panic_bind; [apply no_panic_Snapshot_decode|]. intros snap Hs.
  repeat (apply no_panic_bind; [first [apply no_panic_object_at|apply no_panic_Commit_decode|apply no_panic_Blob_decode
    |eapply no_panic_signature; exact Hs|apply manifest_decode_no_panic|auto with forge]|intros ? _]). auto with forge.
Qed.

Lemma no_panic_agents v graph : forall m, no_panic (agents_at v graph m).
Proof.
  induction graph as [|o graph IH]; intros m; cbn [agents_at]; [auto with forge|]. case_bool_decide; [|done].
  apply no_panic_bind; [apply no_panic_object_at|]. intros b _. apply no_panic_bind; [apply contribution_decode_no_panic|]. auto.
Qed.

Lemma payload_no_panic env pk tag snap_oid commit_oid tree_oid v :
  ~ payload_answer env pk tag snap_oid commit_oid tree_oid v Panic.
Proof.
  unfold payload_answer. pose proof (no_panic_payload pk tag snap_oid commit_oid tree_oid v) as Hp.
  destruct (d_payload _ _ _ _ _ _) as [[snap man]|e|]; [|done..]. intros (rs & (rt & _ & H) & Hr).
  assert (no_panic rs) as Hrs.
  { destruct rt as [lt|e|]; [|subst; done..]. destruct H as (rc & _ & H). destruct rc as [lc|e|]; [|subst; done..].
    subst. apply no_panic_bind; [apply no_panic_agents|]. auto with forge. }
  destruct rs as [[content contributions]|e|]; [|done..]. rewrite bind_of_ok in Hr. unfold check_manifest in Hr.
  destruct (negb (bool_decide ((if is_legacy man then content else content ∪ dom contributions) ∖ dom (m_entries man) = ∅))); [done|].
  destruct (negb (bool_decide (dom (m_entries man) ∖ (if is_legacy man then content else content ∪ dom contributions) = ∅))); [done|].
  cbn [reject_if] in Hr. rewrite !bind_of_ok in Hr. destruct (is_legacy man); [done|].
  destruct (existsb _ _); done.
Qed.
End no_panic_payload.

(** ** Stages of a report *)

Section stages.
Implicit Types (acc : Acc) (e : Root).

(** From [acc] to [acc']: findings, none of them exactly when [clean], and the
    roots [rooted]. *)
Definition stage acc acc' (clean : Prop) (rooted : Root -> Prop) : Prop := exists new more,
  fr_findings acc'.1 = fr_findings acc.1 ++ new /\ fr_ok acc'.1 = fr_ok acc.1 && bool_decide (new = []) /\
  acc'.2 = acc.2 ++ more /\ (new = [] <-> clean) /\ (forall e, e ∈ more <-> rooted e).

Definition no_root e : Prop := False.

Lemma stage_id acc : stage acc acc True no_root.
Proof.
  exists [], []. rewrite !app_nil_r, andb_true_r. split_and!; try done. intros e. by rewrite elem_of_nil.
Qed.

Lemma stage_note acc code resource detail (P : Prop) : ~ P -> stage acc (note code resource detail acc) P no_root.
Proof.
  intros Hn. exists [mkFsckFinding code resource detail], []. cbn. rewrite app_nil_r, andb_false_r. split_and!; try done.
  intros e. by rewrite elem_of_nil.
Qed.

Lemma stage_root acc id x resource : stage acc (root id x resource acc) True (fun e => e = (id, x, resource)).
Proof.
  exists [], [(id, x, resource)]. cbn. rewrite app_nil_r, andb_true_r. split_and!; try done. intros e. apply list_elem_of_singleton.
Qed.

Lemma stage_ext acc acc' (P P' : Prop) (R R' : Root -> Prop) :
  stage acc acc' P R -> (P <-> P') -> (forall e, R e <-> R' e) -> stage acc acc' P' R'.
Proof.
  intros (new & more & H1 & H2 & H3 & H4 & H5) HP HR. exists new, more. split_and!; try done; [tauto|].
  intros e. by rewrite <- HR, H5.
Qed.

Lemma stage_roots acc acc' (P : Prop) (R R' : Root -> Prop) :
  stage acc acc' P R -> (forall e, R e <-> R' e) -> stage acc acc' P R'.
Proof. intros H HR. by eapply stage_ext. Qed.

Lemma stage_trans acc acc1 acc2 (P1 P2 : Prop) R1 R2 :
  stage acc acc1 P1 R1 -> stage acc1 acc2 P2 R2 -> stage acc acc2 (P1 /\ P2) (fun e => R1 e \/ R2 e).
Proof.
  intros (n1 & m1 & H1 & H2 & H3 & H4 & H5) (n2 & m2 & G1 & G2 & G3 & G4 & G5). exists (n1 ++ n2), (m1 ++ m2).
  split; [by rewrite G1, H1, app_assoc|]. split; [rewrite G2, H2, <- andb_assoc; f_equal; by destruct n1, n2|].
  split; [by rewrite G3, H3, app_assoc|]. split; [by rewrite app_nil, H4, G4|].
  intros e. by rewrite elem_of_app, H5, G5.
Qed.

(** What the elements of a list say, in turn. *)
Definition all_clean {A} (l : list A) (clean : A -> Prop) : Prop := forall x, x ∈ l -> clean x.
Definition some_root {A} (l : list A) (rooted : A -> Root -> Prop) e : Prop := exists x, x ∈ l /\ rooted x e.

Lemma stage_snoc {A} acc acc1 acc2 (l : list A) x clean rooted :
  stage acc acc1 (all_clean l clean) (some_root l rooted) -> stage acc1 acc2 (clean x) (rooted x) ->
  stage acc acc2 (all_clean (l ++ [x]) clean) (some_root (l ++ [x]) rooted).
Proof.
  intros H1 H2. eapply stage_ext; [exact (stage_trans _ _ _ _ _ _ _ H1 H2)| |].
  - unfold all_clean. setoid_rewrite elem_of_app. setoid_rewrite list_elem_of_singleton. naive_solver.
  - intros e. unfold some_root. setoid_rewrite elem_of_app. setoid_rewrite list_elem_of_singleton. naive_solver.
Qed.

Lemma stage_nil {A} acc (clean : A -> Prop) (rooted : A -> Root -> Prop) : stage acc acc (all_clean [] clean) (some_root [] rooted).
Proof.
  eapply stage_ext; [apply stage_id| |].
  - unfold all_clean. setoid_rewrite elem_of_nil. naive_solver.
  - intros e. unfold some_root, no_root. setoid_rewrite elem_of_nil. naive_solver.
Qed.

Lemma stage_fold {A} (g : Acc -> A -> Acc) clean rooted :
  (forall acc x, stage acc (g acc x) (clean x) (rooted x)) ->
  forall l acc, stage acc (fold_left g l acc) (all_clean l clean) (some_root l rooted).
Proof.
  intros Hg l acc. assert (forall k l' acc', stage acc acc' (all_clean l' clean) (some_root l' rooted) ->
    stage acc (fold_left g k acc') (all_clean (l' ++ k) clean) (some_root (l' ++ k) rooted)) as H.
  { induction k as [|x k IH]; intros l' acc' H; [by rewrite app_nil_r|]. cbn [fold_left].
    replace (l' ++ x :: k) with ((l' ++ [x]) ++ k) by by rewrite <- app_assoc. apply IH. by eapply stage_snoc. }
  apply (H l []). apply stage_nil.
Qed.

(** The same of a fold that may fail. *)
Lemma stage_try_fold {A} (g : Acc -> A -> Result Acc) clean rooted :
  (forall acc x acc', g acc x = Ok acc' -> stage acc acc' (clean x) (rooted x)) ->
  forall l acc acc', try_fold g acc l = Ok acc' -> stage acc acc' (all_clean l clean) (some_root l rooted).
Proof.
  intros Hg l acc acc'. assert (forall k l' acc1, stage acc acc1 (all_clean l' clean) (some_root l' rooted) -> try_fold g acc1 k = Ok acc' ->
    stage acc acc' (all_clean (l' ++ k) clean) (some_root (l' ++ k) rooted)) as H.
  { induction k as [|x k IH]; intros l' acc1 H E; cbn [try_fold] in E; [injection E as <-; by rewrite app_nil_r|].
    apply bind_ok in E as (acc2 & E1 & E2).
    replace (l' ++ x :: k) with ((l' ++ [x]) ++ k) by by rewrite <- app_assoc. eapply IH; [|exact E2]. eapply stage_snoc; [exact H|by apply Hg]. }
  apply (H l []). apply stage_nil.
Qed.
End stages.

(** ** What each part of the audit says *)

Section parts.
Implicit Types (acc : Acc) (e : Root) (c : Catalog).

Lemma stage_if (b : bool) acc acc' (P Q : Prop) (R : Root -> Prop) code resource detail :
  (b = false <-> P) -> stage (if b then note code resource detail acc else acc) acc' Q R -> stage acc acc' (P /\ Q) R.
Proof.
  intros Hb H. destruct b.
  - eapply stage_ext; [exact (stage_trans _ _ _ _ _ _ _ (stage_note acc code resource detail False (fun H => H)) H)| |].
    + naive_solver.
    + intros e. unfold no_root. tauto.
  - eapply stage_ext; [exact H|naive_solver|done].
Qed.

(** *** Mounts *)

(** A mount of the catalog names a ref that is there, or is read-only on an object. *)
Definition mount_clean c (m : CatalogMountRow) : Prop :=
  match parse_spec (cm_spec m) with
  | Ok (SRef name) => is_Some (refs c !! name)
  | Ok (SOid _) => cm_mode m <> bs "rw"
  | _ => False
  end.

Definition mount_resource (m : CatalogMountRow) : str := bs "namespace:" ++ cm_ns_id m ++ bs ":mount:" ++ cm_path m.

Definition mount_rooted c (m : CatalogMountRow) e : Prop :=
  match parse_spec (cm_spec m) with
  | Ok (SRef name) => exists row ty, refs c !! name = Some row /\ object_type_for_kind (rc_kind row) = Ok ty
      /\ e = (rc_oid row, EExact ty, mount_resource m ++ bs ":ref:" ++ name)
  | Ok (SOid id) => e = (id, EAny, mount_resource m ++ bs ":oid")
  | _ => False
  end.

(** The rows by name; [None] for a kind that is none of the five. *)
Definition row_type (row : RefRow) : option (ObjectId * ObjectType) :=
  match object_type_for_kind (ref_kind row) with Ok expected => Some (ref_oid row, expected) | _ => None end.

Lemma typed_rows (l : list (str * RefCols)) name : NoDup l.*1 ->
  forall m : gmap str (option (ObjectId * ObjectType)), fold_left (fun m row => <[ref_name row := row_type row]> m) ((fun kv => ref_row kv.1 kv.2) <$> l) m !! name =
    match list_to_map (M:=gmap str RefCols) l !! name with Some r => Some (row_type (ref_row name r)) | None => m !! name end.
Proof.
  induction l as [|[n r] l IH]; intros Hnd m; [done|]. cbn [fmap list_fmap fold_left fst snd list_to_map].
  apply NoDup_cons in Hnd as [Hn Hnd]. cbn [list_fmap fmap] in IH. rewrite IH by done. cbn [list_to_map foldr uncurry ref_row ref_name].
  destruct (decide (n = name)) as [->|Hne].
  - rewrite lookup_insert_eq. rewrite (proj1 (not_elem_of_list_to_map (M:=gmap str) l name)) by done. by rewrite lookup_insert_eq.
  - rewrite !lookup_insert_ne by done. done.
Qed.

Lemma audited_types_lookup c name :
  audited_types (au_refs (audit_catalog c)) !! name = (fun r => row_type (ref_row name r)) <$> refs c !! name.
Proof.
  unfold audited_types, audit_catalog. cbn [au_refs]. rewrite typed_rows by apply RustStd.btree_list_nodup.
  assert (list_to_map (M:=gmap str RefCols) (RustStd.btree_list (refs c)) = refs c) as ->; [|by destruct (refs c !! name)].
  apply map_eq. intros k. apply option_eq. intros x. rewrite <- elem_of_list_to_map by apply RustStd.btree_list_nodup.
  apply RustStd.elem_of_btree_list.
Qed.

Lemma stage_mount c acc m :
  stage acc (audit_mount_spec (au_refs_complete (audit_catalog c)) (audited_types (au_refs (audit_catalog c))) acc m)
    (mount_clean c m) (mount_rooted c m).
Proof.
  unfold audit_mount_spec, mount_clean, mount_rooted. change (negb (au_refs_complete (audit_catalog c))) with false. cbv iota.
  change (bs "namespace:" ++ cm_ns_id m ++ bs ":mount:" ++ cm_path m) with (mount_resource m).
  destruct (parse_spec (cm_spec m)) as [[name|id]|err|] eqn:Ep.
  - rewrite audited_types_lookup. destruct (refs c !! name) as [row|] eqn:Er; cbn [fmap option_fmap option_map].
    + unfold row_type. cbn [ref_row ref_kind ref_oid]. destruct (object_type_for_kind (rc_kind row)) as [ty|d|] eqn:Et.
      * eapply stage_ext; [apply stage_root|by split|]. intros e. split; [intros ->; by exists row, ty|].
        intros (row' & ty' & [= <-] & Ht & ->). by rewrite Ht in Et; injection Et as ->.
      * eapply stage_ext; [apply stage_id|by split|]. intros e. split; [done|]. intros (row' & ty' & [= <-] & Ht & _). congruence.
      * eapply stage_ext; [apply stage_id|by split|]. intros e. split; [done|]. intros (row' & ty' & [= <-] & Ht & _). congruence.
    + eapply stage_ext; [apply (stage_note _ _ _ _ False); tauto|split; [done|by intros []]|].
      intros e. split; [done|]. by intros (row & ty & ? & _).
  - unfold mount_oid. eapply stage_ext; [eapply (stage_if _ _ _ (cm_mode m <> bs "rw") True); [apply bytes_eqb_false|apply stage_root]|tauto|done].
  - eapply stage_ext; [apply (stage_note _ _ _ _ False); tauto|done|done].
  - exfalso. revert Ep. apply no_panic_parse_spec.
Qed.

(** *** Object files *)

Context (read_dir : str -> Result (list (str * FileType))).

Definition file_clean (a b : str) (file : str * FileType) : Prop :=
  file.2 = IsFile /\ exists id, from_hex file.1 = Ok id /\ shard_dirs id = (a, b).

Definition file_rooted (file : str * FileType) e : Prop :=
  file.2 = IsFile /\ exists id, from_hex file.1 = Ok id /\ e = (id, EAny, bs "object:" ++ hex id).

Lemma stage_file a b dir acc file : stage acc (scan_object_file a b dir acc file) (file_clean a b file) (file_rooted file).
Proof.
  unfold scan_object_file, file_clean, file_rooted. destruct file as [name ty]. cbn [fst snd].
  case_bool_decide as Ht; cbn [negb].
  2: { eapply stage_ext; [apply (stage_note _ _ _ _ False); tauto|tauto|unfold no_root; tauto]. }
  destruct (from_hex name) as [id|err|] eqn:Eh.
  - eapply stage_ext; [eapply stage_if; [reflexivity|apply stage_root]| |].
    + cbn [fst snd]. rewrite orb_false_iff, !negb_false_iff, !bytes_eqb_true. split.
      * intros [[-> ->] _]. split; [done|]. by exists id.
      * intros [_ (id' & [= <-] & [= H1 H2])]. by rewrite H1, H2.
    + intros e. split; [intros ->; split; [done|by exists id]|by intros (_ & id' & [= <-] & ->)].
  - eapply stage_ext; [apply (stage_note _ _ _ _ False); tauto|by split; [|intros (_ & id & ? & _)]|].
    intros e. split; [done|by intros (_ & id & ? & _)].
  - exfalso. revert Eh. apply no_panic_from_hex.
Qed.

Definition second_clean (a dir : str) (b : str * FileType) : Prop :=
  b.2 = IsDir /\ forall l, read_dir (join dir b.1) = Ok l -> all_clean l (file_clean a b.1).
Definition second_rooted (dir : str) (b : str * FileType) e : Prop :=
  b.2 = IsDir /\ exists l, read_dir (join dir b.1) = Ok l /\ some_root l file_rooted e.

Lemma stage_second a dir acc b acc' : scan_second_level read_dir a dir acc b = Ok acc' ->
  stage acc acc' (second_clean a dir b) (second_rooted dir b).
Proof.
  unfold scan_second_level, second_clean, second_rooted. destruct b as [name ty]. cbn [fst snd].
  case_bool_decide as Ht; cbn [negb].
  - intros (l & Hl & [= <-])%bind_ok. eapply stage_ext; [apply (stage_fold _ (file_clean a name) file_rooted); intros; apply stage_file| |].
    + rewrite Hl. split; [by intros H'; split; [done|intros l' [= <-]]|intros [_ H']; by apply H'].
    + intros e. split; [intros H'; split; [done|by exists l]|]. intros (_ & l' & Hl' & H'). by rewrite Hl in Hl'; injection Hl' as <-.
  - intros [= <-]. eapply stage_ext; [apply (stage_note _ _ _ _ False); tauto|tauto|unfold no_root; tauto].
Qed.

Definition first_clean (dir : str) (a : str * FileType) : Prop :=
  a.2 = IsDir /\ forall l, read_dir (join dir a.1) = Ok l -> all_clean l (second_clean a.1 (join dir a.1)).
Definition first_rooted (dir : str) (a : str * FileType) e : Prop :=
  a.2 = IsDir /\ exists l, read_dir (join dir a.1) = Ok l /\ some_root l (second_rooted (join dir a.1)) e.

Lemma stage_first dir acc a acc' : scan_first_level read_dir dir acc a = Ok acc' ->
  stage acc acc' (first_clean dir a) (first_rooted dir a).
Proof.
  unfold scan_first_level, first_clean, first_rooted. destruct a as [name ty]. cbn [fst snd].
  case_bool_decide as Ht; cbn [negb].
  - intros (l & Hl & H)%bind_ok. eapply stage_ext; [eapply (stage_try_fold _ _ _ (stage_second name (join dir name))); exact H| |].
    + rewrite Hl. split; [by intros H'; split; [done|intros l' [= <-]]|intros [_ H']; by apply H'].
    + intros e. split; [intros H'; split; [done|by exists l]|]. intros (_ & l' & Hl' & H'). by rewrite Hl in Hl'; injection Hl' as <-.
  - intros [= <-]. eapply stage_ext; [apply (stage_note _ _ _ _ False); tauto|tauto|unfold no_root; tauto].
Qed.

(** Every file below [objects] is an object's, in that object's shard. *)
Definition shelved (dir : str) : Prop :=
  forall l, read_dir (join dir (bs "objects")) = Ok l -> all_clean l (first_clean (join dir (bs "objects"))).
Definition shelf_rooted (dir : str) e : Prop :=
  exists l, read_dir (join dir (bs "objects")) = Ok l /\ some_root l (first_rooted (join dir (bs "objects"))) e.

Lemma stage_objects dir acc acc' : scan_all_object_paths read_dir dir acc = Ok acc' -> stage acc acc' (shelved dir) (shelf_rooted dir).
Proof.
  unfold scan_all_object_paths, shelved, shelf_rooted. intros (l & Hl & H)%bind_ok.
  eapply stage_ext; [eapply (stage_try_fold _ _ _ (stage_first _)); exact H| |].
  - rewrite Hl. split; [by intros H' l' [= <-]|intros H'; by apply H'].
  - intros e. split; [intros H'; by exists l|]. intros (l' & Hl' & H'). by rewrite Hl in Hl'; injection Hl' as <-.
Qed.

(** *** Staging, the auditor's own findings, its roots *)

Lemma stage_staging (l : list str) r roots :
  stage (r, roots) (fold_left note_staging l r, roots) (l = []) no_root.
Proof.
  revert r. induction l as [|x l IH]; intros r; cbn [fold_left].
  - eapply stage_ext; [apply stage_id|done|done].
  - eapply stage_ext; [exact (stage_trans _ _ _ _ _ _ _ (stage_note (r, roots) _ _ _ False (fun H => H)) (IH _))| |].
    + split; [by intros [[] _]|discriminate].
    + intros e. split; [by intros [[]|[]]|done].
Qed.

Lemma stage_findings (l : list CatalogFinding) acc :
  stage acc (fold_left (fun acc f => note (f_code f) (f_resource f) (f_detail f) acc) l acc) (l = []) no_root.
Proof.
  eapply stage_ext; [apply (stage_fold _ (fun _ => False) (fun _ => no_root)); intros; apply stage_note; intros []| |].
  - unfold all_clean. destruct l as [|x l]; [by split; [|intros _ x ?%elem_of_nil]|split; [intros H|discriminate]].
    destruct (H x). by left.
  - intros e. split; [by intros (x & _ & [])|done].
Qed.

Definition audit_rooted c e : Prop := exists r, r ∈ au_roots (audit_catalog c) /\ e = (cr_oid r, expectation (cr_expected r), cr_resource r).

Lemma stage_audit_roots c acc :
  stage acc (fold_left (fun acc r => root (cr_oid r) (expectation (cr_expected r)) (cr_resource r) acc) (au_roots (audit_catalog c)) acc)
    True (audit_rooted c).
Proof.
  eapply stage_ext; [apply (stage_fold _ (fun _ => True) (fun r e => e = (cr_oid r, expectation (cr_expected r), cr_resource r))); intros; apply stage_root| |].
  - by split.
  - done.
Qed.
End parts.

(** ** The whole audit *)

Lemma edge_good_or `{B3 : Blake3} v e : edge_good v e \/ ~ edge_good v e.
Proof.
  unfold edge_good. destruct (v !! ge_id e) as [b|]; [|right; by intros (? & ? & ? & _)].
  destruct (decode_graph_object (ge_id e) b) as [d|err|] eqn:Ed; [|right; intros (? & ? & [= <-] & ? & _); congruence..].
  destruct (accepts (ge_expected e) (dg_type d)) eqn:Ea; [left; by exists b, d|right].
  intros (? & ? & [= <-] & ? & ?). congruence.
Qed.

(** Nothing is said of the objects exactly when every graph is complete. *)
Lemma walked_clean `{B3 : Blake3} v roots rep rep' new met : walked v roots rep rep' new met ->
  new = [] <-> forall r, r ∈ roots -> view_ok v r.
Proof.
  intros [_ Htold Hall _ _ _]. split.
  - intros -> r Hr e He. destruct (edge_good_or v e) as [H|Hbad]; [exact H|].
    destruct (Hall e) as (f & e' & Hf & _); [by exists r|done|]. by apply elem_of_nil in Hf.
  - intros Hok. destruct new as [|f new]; [done|]. destruct (Htold f) as (e & (r & Hr & He) & Hbad & _); [by left|].
    destruct Hbad. exact (Hok r Hr e He).
Qed.

Lemma dedup_nil l : dedup_findings l = [] -> l = [].
Proof.
  induction l as [|x l IH]; [done|]. cbn [dedup_findings]. destruct l as [|y l]; [done|].
  case_bool_decide; [|done]. by intros H1%IH.
Qed.

Lemma finish_clean r : fr_findings (finish r) = [] <-> fr_findings r = [].
Proof.
  cbn [finish fr_findings]. split; [|by intros ->].
  intros H%dedup_nil. unfold sort_findings in H.
  assert (fr_findings r ≡ₚ []) as Hp; [|by apply Permutation_nil_r in Hp].
  by rewrite <- H, !sort_by_key_perm.
Qed.

Section audit.
Context {St B : Type} `{RL : RepoLaws St B} `{HM : Hmac} `{B3 : Blake3} `{ED : Ed25519} `{EL : !Ed25519Laws}.
Context (read_dir : str -> Result (list (str * FileType))).
Implicit Types (f : Forge St) (c : Catalog).

Definition seal_clean (env : option str) (pk : arr 32) v (s : SealRow) : Prop :=
  verifiable env pk (sr_tag s) (sr_snap_oid s) (sr_commit_oid s) (sr_tree_oid s) v.

Lemma seal_stage env pk acc s f : f_inv f ->
  wp (audit_seal_payload (St:=St) env pk acc s) f (fun o f' => same f f' /\
    match o with Ok acc' => stage acc acc' (seal_clean env pk (f_view f) s) no_root | _ => False end).
Proof.
  intros Hf. unfold audit_seal_payload, seal_clean. apply wp_bind, wp_attempt. eapply wp_mono; [by apply payload_spec|].
  intros r f' [Hs Hr]. pose proof (payload_ok env pk _ _ _ _ _ r (sr_snap_oid s) Hr) as Hok.
  destruct r as [x|err|]; [| |by apply payload_no_panic in Hr]; apply wp_ret; (split; [done|]).
  - pose proof (proj1 (payload_ok env pk _ _ _ _ _ _ x Hr) eq_refl) as [_ H]. eapply stage_ext; [apply stage_id|done|done].
  - apply stage_note. intros H. by assert (@Err Error ObjectId err = Ok (sr_snap_oid s)) by by apply Hok.
Qed.

Lemma seals_stage env pk (l : list SealRow) acc f : f_inv f ->
  wp (m_fold (audit_seal_payload (St:=St) env pk) acc l) f (fun o f' => same f f' /\
    match o with Ok acc' => stage acc acc' (all_clean l (seal_clean env pk (f_view f))) no_root | _ => False end).
Proof.
  intros Hf.
  eapply (wp_m_fold _ (fun l1 acc' f' => same f f' /\ stage acc acc' (all_clean l1 (seal_clean env pk (f_view f))) (some_root l1 (fun _ => no_root)))).
  - split; [by apply same_refl|apply stage_nil].
  - intros l1 s l2 acc1 f1 -> [Hs H1]. eapply wp_mono; [apply seal_stage, Hs|]. intros o f2 [Hs2 Ho].
    rewrite (same_view _ _ Hs) in Ho. destruct o as [acc2|e|]; [|done..]. split; [by eapply same_trans|].
    by eapply stage_snoc.
  - intros acc' f' [Hs H]. split; [done|]. eapply stage_ext; [exact H|done|]. intros e. split; [by intros (x & _ & [])|done].
Qed.

(** What the catalog and the directory name. *)
Definition audited_root c (dir : str) (e : Root) : Prop :=
  some_root (au_mounts (audit_catalog c)) (mount_rooted c) e \/ audit_rooted c e \/ shelf_rooted read_dir dir e.

Definition edge_of (e : Root) : GraphEdge := mkEdge e.1.1 e.1.2 e.2.

Record healthy (env : option str) (pk : arr 32) (dir : str) f : Prop := mk_healthy {
  hl_catalog : catalog_ok (meta f);
  hl_mounts m : m ∈ au_mounts (audit_catalog (meta f)) -> mount_clean (meta f) m;
  hl_seals tag s : seals (meta f) !! tag = Some s -> verifiable env pk tag (sl_snap s) (sl_commit s) (sl_tree s) (f_view f);
  hl_shelved : shelved read_dir dir;
  hl_graphs e : audited_root (meta f) dir e -> view_ok (f_view f) (edge_of e)
}.

Definition catalog_rooted c (e : Root) : Prop := some_root (au_mounts (audit_catalog c)) (mount_rooted c) e \/ audit_rooted c e.

Lemma catalog_stage env pk r f : f_inv f ->
  wp (collect_full_catalog (St:=St) env pk (audit_catalog (meta f)) r) f (fun o f' => same f f' /\
    match o with
    | Ok acc' => stage (r, []) acc' (all_clean (au_mounts (audit_catalog (meta f))) (mount_clean (meta f))
          /\ all_clean (au_seals (audit_catalog (meta f))) (seal_clean env pk (f_view f))
          /\ au_findings (audit_catalog (meta f)) = []) (catalog_rooted (meta f))
    | _ => False
    end).
Proof.
  intros Hf. unfold collect_full_catalog. set (a := audit_catalog (meta f)).
  pose proof (stage_fold _ _ _ (stage_mount (meta f)) (au_mounts a) (set_checked (len (au_refs a)) (len (au_namespaces a)) r, [])) as Hm.
  fold a in Hm. set (acc1 := fold_left _ (au_mounts a) _) in *.
  apply wp_bind. eapply wp_mono; [by apply seals_stage|]. intros o f' [Hs Ho].
  destruct o as [acc2|e|]; [|done..]. apply wp_ret. split; [done|].
  pose proof (stage_findings (au_findings a) acc2) as H3. set (acc3 := fold_left _ (au_findings a) _) in *.
  pose proof (stage_audit_roots (meta f) acc3) as H4. fold a in H4.
  pose proof (stage_trans _ _ _ _ _ _ _ (stage_trans _ _ _ _ _ _ _ (stage_trans _ _ _ _ _ _ _ Hm Ho) H3) H4) as H.
  eapply stage_ext; [exact H|tauto|]. intros e. unfold no_root, catalog_rooted. tauto.
Qed.

(** *** The directory *)

Context (Hio : forall path, no_panic (read_dir path)).

Lemma try_fold_first {A X} (g : X -> A -> Result X) (P : Error -> Prop) :
  (forall x a, match g x a with Ok _ => True | Err e => P e | Panic => False end) ->
  forall l x, match try_fold g x l with Ok _ => True | Err e => P e | Panic => False end.
Proof.
  intros Hg. induction l as [|a l IH]; intros x; cbn [try_fold]; [done|]. pose proof (Hg x a) as H.
  destruct (g x a) as [x'|e|]; [apply IH|done..].
Qed.

(** The scan fails only where a directory cannot be read. *)
Definition unreadable (err : Error) : Prop := exists path, read_dir path = Err err.

Lemma read_then {A X} (path : str) (k : list (str * FileType) -> Result A) (l : X) :
  (forall x, match k x with Ok _ => True | Err e => unreadable e | Panic => False end) ->
  match x ← read_dir path; k x with Ok _ => True | Err e => unreadable e | Panic => False end.
Proof.
  intros Hk. pose proof (Hio path) as Hp. destruct (read_dir path) as [x|e|] eqn:E; [apply Hk|by exists path|done].
Qed.

Lemma scan_errors dir acc :
  match scan_all_object_paths read_dir dir acc with Ok _ => True | Err e => unreadable e | Panic => False end.
Proof.
  unfold scan_all_object_paths. apply (read_then _ _ tt). intros l. apply try_fold_first.
  intros acc1 [a ty]. unfold scan_first_level. destruct (negb _); [done|]. apply (read_then _ _ tt). intros l1. apply try_fold_first.
  intros acc2 [b ty2]. unfold scan_second_level. destruct (negb _); [done|]. by apply (read_then _ _ tt).
Qed.

(** More objects are named, below what is audited, than the walk may meet. *)
Definition unfinished (env : option str) (dir : str) f (err : Error) : Prop :=
  err = walk_limit_exceeded (max_graph_objects env) /\ exists X : gset ObjectId, max_graph_objects env < Z.of_nat (size X)
    /\ forall id, id ∈ X -> exists r e, audited_root (meta f) dir r /\ view_reaches (f_view f) (edge_of r) e /\ ge_id e = id.

Lemma root_edges_in (roots : list Root) (e : GraphEdge) : e ∈ root_edges roots <-> exists r, r ∈ roots /\ e = edge_of r.
Proof.
  unfold root_edges. rewrite list_elem_of_fmap. split.
  - intros ([[id x] res] & -> & H). by exists (id, x, res).
  - intros ([[id x] res] & H & ->). by exists (id, x, res).
Qed.

(** What the walk makes of the report and the roots the stages gave it. *)
Lemma walk_stage env dir f (report : FsckReport) roots P (o : Result FsckReport) :
  stage (FsckReport_new true, []) (report, roots) P (audited_root (meta f) dir) ->
  walk_verdict (f_view f) (root_edges roots) (max_graph_objects env) report o ->
  match o with
  | Ok rep => (fr_ok rep = true <-> P /\ forall e, audited_root (meta f) dir e -> view_ok (f_view f) (edge_of e))
      /\ (fr_ok rep = true <-> fr_findings rep = [])
  | Err err => unfinished env dir f err
  | Panic => False
  end.
Proof.
  intros (n1 & more & H1 & H2 & H3 & H4 & H5) Hw. cbn [fst snd FsckReport_new fr_findings fr_ok app] in *. subst roots.
  destruct o as [rep|err|]; [|destruct Hw as (-> & X & HX & Hsz)|done].
  - destruct Hw as (new & met & Hw). pose proof (walked_clean _ _ _ _ _ _ Hw) as Hc.
    destruct Hw as [Hf _ _ Hok _ _]. rewrite Hok, Hf, H1, H2, !andb_true_iff, !bool_decide_eq_true, app_nil, <- H4, Hc.
    split; [|tauto]. setoid_rewrite root_edges_in. setoid_rewrite H5. naive_solver.
  - split; [done|]. exists X. split; [done|]. intros id (e & (r & Hr & He) & Hid)%HX.
    apply root_edges_in in Hr as (r' & Hr' & ->). exists r', e. by rewrite <- H5.
Qed.

Lemma seals_audited env pk c v :
  all_clean (au_seals (audit_catalog c)) (seal_clean env pk v) <->
  forall tag s, seals c !! tag = Some s -> verifiable env pk tag (sl_snap s) (sl_commit s) (sl_tree s) v.
Proof.
  unfold all_clean, audit_catalog. cbn [au_seals]. split.
  - intros H tag s Hs. apply (H (mkSealRow tag (sl_snap s) (sl_commit s) (sl_tree s))). apply list_elem_of_fmap.
    exists (tag, s). split; [done|]. by apply RustStd.elem_of_btree_list.
  - intros H x ([tag s] & -> & Hin)%list_elem_of_fmap. apply RustStd.elem_of_btree_list in Hin. by apply H.
Qed.

Lemma healthy_iff env pk dir f (staging : list str) :
  ((((staging = []) /\ all_clean (au_mounts (audit_catalog (meta f))) (mount_clean (meta f))
     /\ all_clean (au_seals (audit_catalog (meta f))) (seal_clean env pk (f_view f))
     /\ au_findings (audit_catalog (meta f)) = []) /\ shelved read_dir dir)
    /\ forall e, audited_root (meta f) dir e -> view_ok (f_view f) (edge_of e))
  <-> staging = [] /\ healthy env pk dir f.
Proof.
  rewrite seals_audited, audit_clean_iff. split.
  - intros (((H1 & H2 & H3 & H4) & H5) & H6). by split; [|constructor].
  - by intros [H1 []].
Qed.

Lemma full_fsck_spec env pk key now deferred dir staging cap f : f_inv f ->
  check key (now 0%nat) cap Read None = Ok tt -> has_unrestricted_ref_scope cap = true ->
  wp (fsck (St:=St) read_dir env pk key now (Ok Current) deferred dir (Ok staging) cap true) f (fun o f' => same f f' /\
    match o with
    | Ok rep => (fr_ok rep = true <-> staging = [] /\ healthy env pk dir f) /\ (fr_ok rep = true <-> fr_findings rep = [])
    | Err err => unreadable err \/ unfinished env dir f err
    | Panic => False
    end).
Proof.
  intros Hf Hc Hu. unfold fsck, fsck_refusal. rewrite andb_false_r. cbn [reject_if]. rewrite Hc, Hu. cbn [negb reject_if].
  rewrite !bind_of_ok. cbn [standing_refusal]. apply wp_bind, wp_pure, wp_bind, wp_ret, wp_bind, wp_pure.
  pose proof (stage_staging staging (FsckReport_new true) []) as H0. set (rep0 := fold_left note_staging _ _) in *.
  apply wp_bind, wp_bind. eapply wp_mono; [apply (denotes_meta _ (fun c => Ok (audit_catalog c))); done|]. intros o f1 [S1 ->].
  apply wp_bind. rewrite <- (same_meta _ _ S1). eapply wp_mono; [apply catalog_stage, S1|]. intros o f2 [S2 H2].
  rewrite (same_view _ _ S1), (same_meta _ _ S1) in H2. pose proof (same_trans _ _ _ S1 S2) as S.
  destruct o as [acc|e|]; [|done..]. apply wp_pure. pose proof (scan_errors dir acc) as He.
  destruct (scan_all_object_paths read_dir dir acc) as [[report roots]|err|] eqn:Es; [|by split; [|left]|done].
  apply stage_objects in Es as H3. apply wp_bind, wp_on_store.
  eapply wp_mono; [apply verify_graph_spec, S|]. intros o s [(Hi & Hv & Hw) Ho]. change (rp_view (store f2)) with (f_view f2) in *.
  rewrite (same_view _ _ S) in Ho.
  assert (same f (mkForge s (meta f2))) as S'.
  { destruct S as [Si Sv Sm Sw]. split; cbn; [done|by rewrite <- Sv|done|auto]. }
  pose proof (stage_trans _ _ _ _ _ _ _ (stage_trans _ _ _ _ _ _ _ H0 H2) H3) as Hst.
  pose proof (stage_roots _ _ _ _ (audited_root (meta f) dir) Hst
    ltac:(intros e; unfold audited_root, catalog_rooted, no_root; tauto)) as Hst'.
  pose proof (walk_stage env dir f report roots _ o Hst' Ho) as H. destruct o as [rep|err|]; [|by split; [|right]|done].
  apply wp_ret. split; [done|]. rewrite finish_clean. cbn [finish fr_ok]. by rewrite <- healthy_iff.
Qed.
End audit.

(** ** Properties *)

Section properties.
Context {St B : Type} `{RL : RepoLaws St B} `{HM : Hmac} `{B3 : Blake3} `{ED : Ed25519} `{EL : !Ed25519Laws}.

(** C4: a full audit of a repository whose ledger is current, by a caller who
    may read everything, answers [ok] exactly when the repository is healthy
    and no staging is left beside it, and [ok] exactly when it lists no
    finding; it fails only where a directory cannot be read or where more
    objects are named than the walk may meet, and it changes nothing. *)
Theorem full_fsck_is_exact (read_dir : str -> Result (list (str * FileType))) (Hio : forall path, no_panic (read_dir path))
    (env : option str) (pk : arr 32) (key : bytes) (now : nat -> Z) (deferred : bool) (dir : str) (staging : list str) (cap : Cap)
    (f f' : Forge St) (o : Result FsckReport) :
  f_inv f -> check key (now 0%nat) cap Read None = Ok tt -> has_unrestricted_ref_scope cap = true ->
  fsck read_dir env pk key now (Ok Current) deferred dir (Ok staging) cap true f = (o, f') ->
  same f f' /\
  match o with
  | Ok rep => (fr_ok rep = true <-> staging = [] /\ healthy read_dir env pk dir f) /\ (fr_ok rep = true <-> fr_findings rep = [])
  | Err err => unreadable read_dir err \/ unfinished read_dir env dir f err
  | Panic => False
  end.
Proof. intros Hf Hc Hu E. pose proof (full_fsck_spec read_dir Hio env pk key now deferred dir staging cap f Hf Hc Hu) as H. unfold wp in H. by rewrite E in H. Qed.

(** C5: the walk below the roots tells of exactly the objects that are wrong:
    each finding is about an edge of a reachable object that is missing, does
    not decode or is of another type than the edge says; each such object is
    told of; and it counts each object that has a type once.  It stops only
    when it meets more objects than its ceiling, and never because of an
    object. *)
Theorem fsck_tells_what_is_wrong (env : option str) (roots : list Root) (rep : FsckReport) (s s' : St) (o : Result FsckReport) :
  rp_inv s -> verify_graph env roots rep s = (o, s') ->
  rp_view s' = rp_view s /\
  match o with
  | Ok rep' => exists new met, walked (rp_view s) (root_edges roots) rep rep' new met
  | Err err => over_limit (rp_view s) (root_edges roots) (max_graph_objects env) err
  | Panic => False
  end.
Proof.
  intros Hs E. pose proof (verify_graph_spec env roots rep s Hs) as H. unfold wp in H. rewrite E in H.
  destruct H as [(_ & Hv & _) H]. by split.
Qed.
End properties.

(** *** The repository of [Repository], with its session, on disk *)

#[local] Existing Instance sum_ed25519.
#[local] Existing Instance sum_ed25519_laws.

Definition demo_ids : list ObjectId := (map_to_list (f_view demo_live)).*1.

Definition demo_read_dir (path : str) : Result (list (str * FileType)) :=
  match strip_prefix path (bs "repo/objects") with
  | None => Ok []
  | Some rest =>
      if len rest =? 0 then Ok ((fun id => ((shard_dirs id).1, IsDir)) <$> demo_ids)
      else if len rest =? 3 then Ok ((fun id => ((shard_dirs id).2, IsDir)) <$> filter (fun id => drop 1 rest = (shard_dirs id).1) demo_ids)
      else Ok ((fun id => (hex id, IsFile)) <$> filter (fun id => drop 1 rest = (shard_dirs id).1 ++ bs "/" ++ (shard_dirs id).2) demo_ids)
  end.

Lemma demo_read_dir_reads path : no_panic (demo_read_dir path).
Proof. unfold demo_read_dir. by repeat case_match. Qed.

Definition demo_fsck := fsck demo_read_dir None (ed_public demo_seed) demo_key (fun _ => 1) (Ok Current) false (bs "repo") (Ok []) demo_cap true demo_live.

Lemma demo_fsck_ok : match demo_fsck.1 with Ok rep => fr_ok rep | _ => false end = true.
Proof. vm_compute. reflexivity. Qed.

(** The audit finds nothing: the repository is healthy. *)
Lemma full_fsck_is_exact_witness : healthy demo_read_dir None (ed_public demo_seed) (bs "repo") demo_live.
Proof.
  pose proof (full_fsck_is_exact demo_read_dir demo_read_dir_reads None (ed_public demo_seed) demo_key (fun _ => 1) false (bs "repo") []
    demo_cap demo_live demo_fsck.2 demo_fsck.1) as H.
  pose proof demo_fsck_ok as Hok. fold demo_fsck in H. specialize (H (sr_inv _ (lives_sound _ demo_live_lives)) ltac:(vm_compute; reflexivity) ltac:(vm_compute; reflexivity)).
  revert H Hok. generalize demo_fsck. intros [[rep|err|] f'] H Hok; [|discriminate Hok..].
  destruct (H eq_refl) as (_ & Hiff & _). by apply Hiff in Hok as [_ ?].
Defined.

(** The head of the repository, and an object nobody stored. *)
Definition demo_roots : list Root := [(demo_main_id, EExact TCommit, bs "ref:main"); (ZERO, EAny, bs "mount")].
Definition demo_walk := verify_graph None demo_roots (FsckReport_new true) (store demo_live).

Lemma demo_walk_tells : match demo_walk.1 with Ok rep => (length (fr_findings rep), fr_checked_objects rep) | _ => (0%nat, 0) end = (1%nat, 2).
Proof. vm_compute. reflexivity. Qed.

Lemma fsck_tells_what_is_wrong_witness :
  exists e, reached (rp_view (store demo_live)) (root_edges demo_roots) e /\ ~ edge_good (rp_view (store demo_live)) e.
Proof.
  pose proof (fsck_tells_what_is_wrong None demo_roots (FsckReport_new true) (store demo_live) demo_walk.2 demo_walk.1
    (sr_inv _ (lives_sound _ demo_live_lives))) as H.
  fold demo_walk in H. pose proof demo_walk_tells as Hw. revert H Hw. generalize demo_walk. intros [[rep|err|] s'] H Hw; [|discriminate Hw..].
  destruct (H eq_refl) as (_ & new & met & [Hf Ht _ _ _ _]). cbn [fst] in Hw. rewrite Hf in Hw. destruct new as [|f new]; [discriminate Hw|].
  destruct (Ht f ltac:(by left)) as (e & He & Hbad & _). by exists e.
Defined.
