(* ===== verification/Serve.v ===== *)
(** * The daemon (crates/forge-api/src/serve.rs)

    What one request does ([dispatch]), what one connection does (requests in
    the order of their frames), what an HTTP request is answered, and the
    admission queue.  What a request asks for and what it may be told is stated
    apart from the code that reads and answers it: [Ask], [asks], [perform],
    [tells].  Sockets, threads and deadlines are outside: a connection
    is the bytes that arrive on it, and a read that times out is their end.
    JSON text is serde_json's: [from_slice] and [to_vec] are parameters. *)

From S2P Require Import Prelude RustStd Types Tree TreeStore Object Contribution ObjectStore Store Graph Protocol Cap History Merge Overlay Namespace Catalog Refs Sessions CatAudit Events CatalogInv Publish Staging Authority Gc Plane Forge Growth Receipts Workspace WorkspaceReads Checkin Integration Seal Sound Api Integrate Moves Repository Import Life.

(** ** JSON *)

Inductive Number := PosInt (n : Z) | NegInt (n : Z) | Float (bits : Z).

(** [Map] is a [BTreeMap]: its fields by name, in order. *)
Inductive Value :=
| Null
| VBool (b : bool)
| VNumber (n : Number)
| VString (s : str)
| VArray (l : list Value)
| VObject (fields : list (str * Value)).

(** [json!({ ... })]. *)
Definition json_object (fields : list (str * Value)) : Value := VObject (sort_by_key fst fields).

Fixpoint field (fields : list (str * Value)) (k : str) : option Value :=
  match fields with
  | [] => None
  | (name, v) :: fields' => if bytes_eqb name k then Some v else field fields' k
  end.

(** [body.get(k)]. *)
Definition get (body : Value) (k : str) : option Value :=
  match body with VObject fields => field fields k | _ => None end.

Definition as_string (v : Value) : option str := match v with VString t => Some t | _ => None end.

(** ** Requests *)

Definition http_status (resp : Response Value) : Z :=
  if rs_ok resp then 200
  else match eb_code <$> rs_err resp with
       | Some code =>
           if bytes_eqb code (bs "denied") then 403
           else if bytes_eqb code (bs "not_found") then 404
           else if existsb (bytes_eqb code) [bs "sealed"; bs "conflict"; bs "stale_observation"; bs "invalid_base"] then 409
           else if bytes_eqb code (bs "busy") then 503
           else if bytes_eqb code (bs "invalid") then 400
           else 500
       | None => 500
       end.

Definition DAEMON_OPS : list (str * list str) :=
  [(bs "session.open", [bs "from"]);
   (bs "ns.write", [bs "ns"; bs "path"; bs "text"; bs "hex"]);
   (bs "ns.read", [bs "ns"; bs "path"]);
   (bs "ns.ls", [bs "ns"; bs "path"]);
   (bs "ns.mv", [bs "ns"; bs "from"; bs "to"; bs "expect_oid"]);
   (bs "ns.checkin", [bs "ns"; bs "mount"; bs "msg"]);
   (bs "ns.mount", [bs "ns"; bs "path"; bs "spec"; bs "rw"]);
   (bs "refs", []);
   (bs "seal", [bs "ref"; bs "tag"; bs "attest"])].

Definition check_request_shape (op : str) (body : Value) : Result unit :=
  match find (fun row => bytes_eqb row.1 op) DAEMON_OPS with
  | None => Err (Invalid (bs "unknown op {op}"))
  | Some (_, accepted) =>
      match body with
      | VObject fields =>
          for_each (fun kv => reject_if (negb (existsb (bytes_eqb kv.1) accepted))
            (Invalid (bs "unknown field {key:?} for op {op}; accepted: {}"))) fields
      | Null => Ok tt
      | _ => Err (Invalid (bs "op {op} body must be a JSON object"))
      end
  end.

Definition s (body : Value) (k : str) : Result str :=
  ok_or (v ← get body k; as_string v) (Invalid (bs "missing {k}")).

Definition opt (body : Value) (k default : str) : Result str :=
  match get body k with
  | None | Some Null => Ok default
  | Some (VString v) => Ok v
  | Some _ => Err (Invalid (bs "{k} must be a string"))
  end.

Definition flag (body : Value) (k : str) : Result bool :=
  match get body k with
  | None | Some Null => Ok false
  | Some (VBool v) => Ok v
  | Some _ => Err (Invalid (bs "{k} must be a boolean"))
  end.

Definition cas_result (result : CasResult) : Value :=
  match result with
  | Updated name oid =>
      json_object [(bs "result", VString (bs "updated")); (bs "name", VString name); (bs "oid", VString (hex oid))]
  | Forked requested fork ours theirs =>
      json_object [(bs "result", VString (bs "forked")); (bs "requested", VString requested); (bs "fork", VString fork);
                   (bs "ours", VString (hex ours)); (bs "theirs", VString (hex theirs))]
  | Noop name oid =>
      json_object [(bs "result", VString (bs "noop")); (bs "name", VString name); (bs "oid", VString (hex oid))]
  end.

(** The content of [ns.write]: [hex] when it is a string, else [text].  Both may
    be there, and then [text] is ignored; so is a [hex] that is no string. *)
Definition write_data (body : Value) : Result bytes :=
  match h ← get body (bs "hex"); as_string h with
  | Some h => hex_decode h
  | None => match t ← get body (bs "text"); as_string t with
            | Some t => Ok t
            | None => Err (Invalid (bs "write needs text or hex"))
            end
  end.

(** The guard of [ns.mv]. *)
Definition expect_oid (body : Value) : Result (option ObjectId) :=
  match get body (bs "expect_oid") with
  | None | Some Null => Ok None
  | Some (VString v) => id ← from_hex v; Ok (Some id)
  | Some _ => Err (Invalid (bs "expect_oid must be a string"))
  end.

Section serve.
Context {St B : Type} `{R : Repo St B} `{HM : Hmac} `{B3 : Blake3} `{ED : Ed25519}.

Abbreviation forge := (stateM Error (Forge St)).

Definition ls_row (e : str * str * str * bool) : Value :=
  let '(n, k, id, x) := e in
  json_object [(bs "name", VString n); (bs "kind", VString k); (bs "id", VString id); (bs "exec", VBool x)].

Definition ref_row_json (r : RefRow) : Value :=
  json_object [(bs "name", VString (ref_name r)); (bs "oid", VString (hex (ref_oid r))); (bs "kind", VString (ref_kind r));
               (bs "protected", VBool (ref_protected r)); (bs "sealed", VBool (ref_sealed r))].

(** The op, with its arguments read in the order of the code. *)
Definition run_op (fuel : nat) (E : Env) (cap : Cap) (op : str) (body : Value) : forge Value :=
  let key := en_key E in let now := en_now E in let ulid := en_ulid E in let ro := en_read_only E in
  let pk := ed_public (en_seed E) in
  if bytes_eqb op (bs "session.open") then
    from ← pure (opt body (bs "from") (bs "main"));
    ns ← session_open key now ulid cap from;
    mret (json_object [(bs "ns", VString ns)])
  else if bytes_eqb op (bs "ns.write") then
    data ← pure (write_data body);
    ns ← pure (s body (bs "ns")); path ← pure (s body (bs "path"));
    id ← Forge_write key now cap ns path data false;
    mret (json_object [(bs "oid", VString (hex id))])
  else if bytes_eqb op (bs "ns.read") then
    ns ← pure (s body (bs "ns")); path ← pure (s body (bs "path"));
    data ← Forge_read key now ro cap ns path;
    mret (json_object [(bs "hex", VString (hex_encode data))])
  else if bytes_eqb op (bs "ns.ls") then
    ns ← pure (s body (bs "ns")); path ← pure (opt body (bs "path") (bs "/"));
    ents ← Forge_ls key now ro cap ns path;
    mret (VArray (ls_row <$> ents))
  else if bytes_eqb op (bs "ns.mv") then
    expect ← pure (expect_oid body);
    ns ← pure (s body (bs "ns")); from ← pure (s body (bs "from")); to ← pure (s body (bs "to"));
    r ← rename fuel key now ro cap ns from to expect;
    mret (json_object [(bs "from", VString (rn_from r)); (bs "to", VString (rn_to r)); (bs "kind", VString (rn_kind r));
                       (bs "source", VString (hex (rn_source r))); (bs "entries", VNumber (PosInt (rn_entries r)))])
  else if bytes_eqb op (bs "ns.checkin") then
    ns ← pure (s body (bs "ns")); mount ← pure (opt body (bs "mount") (bs "/")); msg ← pure (opt body (bs "msg") []);
    r ← checkin key now ulid (en_others E) cap ns mount msg;
    mret (cas_result r)
  else if bytes_eqb op (bs "ns.mount") then
    ns ← pure (s body (bs "ns")); path ← pure (s body (bs "path")); spec ← pure (s body (bs "spec"));
    rw ← pure (flag body (bs "rw"));
    _ ← mount key now cap ns path spec rw;
    mret (json_object [(bs "ok", VBool true)])
  else if bytes_eqb op (bs "refs") then
    refs ← Forge_refs key now cap;
    mret (VArray (ref_row_json <$> refs))
  else if bytes_eqb op (bs "seal") then
    tag ← pure (s body (bs "tag")); attest ← pure (flag body (bs "attest")); ref ← pure (s body (bs "ref"));
    oid ← seal (en_budget E) (en_seed E) pk key now (en_others E) cap ref tag;
    _ ← (if attest then _ ← verify_tag (en_budget E) pk key (fun i => now (4 + i)%nat) cap tag; mret tt else mret tt);
    mret (json_object [(bs "oid", VString (hex oid)); (bs "attested", VBool attest)])
  else throw (Invalid (bs "unknown op {other}")).

Definition dispatch_inner (fuel : nat) (E : Env) (req : Request Value) : forge Value :=
  _ ← pure (reject_if (negb (rq_v _ req =? 1)) (Invalid (bs "unsupported protocol version {}")));
  cap ← pure (load_cap (en_key E) (rq_cap _ req));
  _ ← pure (check_request_shape (rq_op _ req) (rq_body _ req));
  run_op fuel E cap (rq_op _ req) (rq_body _ req).

Definition dispatch (fuel : nat) (E : Env) (req : Request Value) : forge (Response Value) := fun f =>
  match dispatch_inner fuel E req f with
  | (Ok v, f') => (Ok (Response_ok (rq_id _ req) v), f')
  | (Err e, f') => (Ok (Response_err (rq_id _ req) e), f')
  | (Panic, f') => (Panic, f')
  end.

(** ** A connection *)

Context (from_slice : bytes -> outcome str (Request Value)) (value_from_slice : bytes -> outcome str Value)
  (to_vec : Response Value -> outcome str bytes).

(** The bytes still to come, those sent, the repository, the requests served. *)
Record Conn := mkConn { cn_in : bytes; cn_out : bytes; cn_forge : Forge St; cn_served : nat }.

(** One turn of the loop, and whether there is another; [E i] is what the
    request after [i] others meets. *)
Definition conn_turn (fuel : nat) (E : nat -> Env) (c : Conn) : Conn * bool :=
  match cn_in c with
  | [] => (c, false)
  | first :: rest =>
      match read_frame_len_after first rest with
      | (Ok n, rest) =>
          match read_frame_body n rest with
          | (Ok buf, rest) =>
              match from_slice buf with
              | Ok req =>
                  match dispatch fuel (E (cn_served c)) req (cn_forge c) with
                  | (Ok resp, f) =>
                      match write_frame to_vec resp (cn_out c) with
                      | (Ok _, out) => (mkConn rest out f (S (cn_served c)), true)
                      | (_, out) => (mkConn rest out f (S (cn_served c)), false)
                      end
                  | (_, f) => (mkConn rest (cn_out c) f (S (cn_served c)), false)
                  end
              | Err e =>
                  let '(_, out) := write_frame to_vec (Response_err 0 (Invalid e)) (cn_out c) in
                  (mkConn rest out (cn_forge c) (S (cn_served c)), true)
              | Panic => (mkConn rest (cn_out c) (cn_forge c) (cn_served c), false)
              end
          | (_, rest) => (mkConn rest (cn_out c) (cn_forge c) (cn_served c), false)
          end
      | (_, rest) => (mkConn rest (cn_out c) (cn_forge c) (cn_served c), false)
      end
  end.

(** Every turn takes four bytes or more: one turn for each byte is enough. *)
Fixpoint handle_unix (turns fuel : nat) (E : nat -> Env) (c : Conn) : Conn :=
  match turns with
  | O => c
  | S turns' => let '(c', again) := conn_turn fuel E c in if again then handle_unix turns' fuel E c' else c'
  end.

(** ** HTTP *)

Definition MAX_HTTP_BODY : Z := 1024 * 1024.

(** [hr_body]: what the client sends, and whether the stream then fails. *)
Record HttpRequest := mkHttpRequest { hr_post : bool; hr_url : str; hr_auth : option str; hr_body : bytes; hr_broken : bool }.
Record HttpResponse := mkHttpResponse { hs_status : Z; hs_payload : bytes }.

Fixpoint drop_slashes (l : str) : str :=
  match l with
  | c :: l' => if bool_decide (c = "/"%byte) then drop_slashes l' else l
  | [] => []
  end.

(** [trim_matches('/')]. *)
Definition trim_slashes (l : str) : str := rev (drop_slashes (rev (drop_slashes l))).

Definition http_op (url : str) : option str :=
  match strip_prefix url (bs "/v1/") with
  | Some rest => let op := trim_slashes rest in if bool_decide (op = []) then None else Some op
  | None => None
  end.

Definition bearer (auth : option str) : str := default [] (h ← auth; strip_prefix h (bs "Bearer ")).

Definition to_payload (resp : Response Value) : bytes := match to_vec resp with Ok b => b | _ => bs "{}" end.

Definition http_request (fuel : nat) (E : Env) (req : HttpRequest) : forge HttpResponse :=
  if negb (hr_post req) then mret (mkHttpResponse 405 (bs "method not allowed"))
  else match http_op (hr_url req) with
  | None => mret (mkHttpResponse 404 (bs "not found"))
  | Some op =>
      let body := take (Z.to_nat (MAX_HTTP_BODY + 1)) (hr_body req) in
      if hr_broken req && (len (hr_body req) <? MAX_HTTP_BODY + 1) then
        mret (mkHttpResponse 400 (bs "could not read request body: {error}"))
      else if MAX_HTTP_BODY <? len body then mret (mkHttpResponse 413 (bs "request body too large"))
      else
        match (if bool_decide (body = []) then Ok (VObject []) else value_from_slice body) with
        | Ok val =>
            resp ← dispatch fuel E (mkRequest 1 1 op (bearer (hr_auth req)) val);
            mret (mkHttpResponse (http_status resp) (to_payload resp))
        | Err e => mret (mkHttpResponse 400 (to_payload (Response_err 1 (Invalid (bs "invalid JSON: " ++ e)))))
        | Panic => panic
        end
  end.
End serve.

(** ** Admission *)

Definition MAX_UNIX_WORKERS : Z := 64.
Definition MAX_PENDING_UNIX : Z := 256.
(** Milliseconds. *)
Definition UNIX_ADMISSION_TIMEOUT : Z := 10000.

(** [parallelism] is [available_parallelism], when the system tells. *)
Definition worker_count (parallelism : option Z) : Z :=
  match parallelism with
  | Some n => Z.max 8 (Z.min MAX_UNIX_WORKERS (Z.min usize_max (n * 4)))
  | None => 16
  end.

(** The queue of accepted connections, each with the time it was accepted. *)
Section admission.
Context {S : Type}.

(** [try_send]: a connection that finds the queue full is shut down. *)
Definition enqueue (queue : list (S * Z)) (stream : S) (now : Z) : list (S * Z) * bool :=
  if len queue <? MAX_PENDING_UNIX then (queue ++ [(stream, now)], true) else (queue, false).

Inductive Admission := Serving (stream : S) | Stale (stream : S) | Idle.

(** What a worker does with the next connection. *)
Definition next_connection (queue : list (S * Z)) (now : Z) : Admission * list (S * Z) :=
  match queue with
  | [] => (Idle, [])
  | (stream, queued_at) :: queue' =>
      ((if UNIX_ADMISSION_TIMEOUT <? now - queued_at then Stale stream else Serving stream), queue')
  end.
End admission.

(** ** What a request asks for, and what it is answered *)

(** What a request of the daemon can ask for, and the type of what the
    repository answers. *)
Inductive Ask :=
| AskOpen (from : str)
| AskWrite (ns path : str) (data : bytes)
| AskRead (ns path : str)
| AskLs (ns path : str)
| AskMv (ns from to : str) (expect : option ObjectId)
| AskCheckin (ns mount msg : str)
| AskMount (ns path spec : str) (rw : bool)
| AskRefs
| AskSeal (ref tag : str) (attest : bool).

Definition answer (a : Ask) : Type :=
  match a with
  | AskOpen _ => str
  | AskWrite _ _ _ => ObjectId
  | AskRead _ _ => bytes
  | AskLs _ _ => list (str * str * str * bool)
  | AskMv _ _ _ _ => Renamed
  | AskCheckin _ _ _ => CasResult
  | AskMount _ _ _ _ => unit
  | AskRefs => list RefRow
  | AskSeal _ _ _ => ObjectId
  end.

Definition op_name (a : Ask) : str :=
  match a with
  | AskOpen _ => bs "session.open"
  | AskWrite _ _ _ => bs "ns.write"
  | AskRead _ _ => bs "ns.read"
  | AskLs _ _ => bs "ns.ls"
  | AskMv _ _ _ _ => bs "ns.mv"
  | AskCheckin _ _ _ => bs "ns.checkin"
  | AskMount _ _ _ _ => bs "ns.mount"
  | AskRefs => bs "refs"
  | AskSeal _ _ _ => bs "seal"
  end.

(** A field of a body: a string; a string or, when it is left out or null, a
    default; a flag; the content of a write, in hex before text; a guard. *)
Definition has (body : Value) (k v : str) : Prop := get body k = Some (VString v).
Definition absent (body : Value) (k : str) : Prop := get body k = None \/ get body k = Some Null.
Definition has_or (body : Value) (k default v : str) : Prop := has body k v \/ (absent body k /\ v = default).
Definition has_flag (body : Value) (k : str) (b : bool) : Prop := get body k = Some (VBool b) \/ (absent body k /\ b = false).
Definition has_data (body : Value) (data : bytes) : Prop :=
  (exists h, has body (bs "hex") h /\ hex_decode h = Ok data) \/ ((forall h, ~ has body (bs "hex") h) /\ has body (bs "text") data).
Definition has_guard (body : Value) (expect : option ObjectId) : Prop :=
  (absent body (bs "expect_oid") /\ expect = None) \/ (exists h id, has body (bs "expect_oid") h /\ from_hex h = Ok id /\ expect = Some id).

(** The arguments that the body gives. *)
Definition arguments (body : Value) (a : Ask) : Prop :=
  match a with
  | AskOpen from => has_or body (bs "from") (bs "main") from
  | AskWrite ns path data => has body (bs "ns") ns /\ has body (bs "path") path /\ has_data body data
  | AskRead ns path => has body (bs "ns") ns /\ has body (bs "path") path
  | AskLs ns path => has body (bs "ns") ns /\ has_or body (bs "path") (bs "/") path
  | AskMv ns from to expect => has body (bs "ns") ns /\ has body (bs "from") from /\ has body (bs "to") to /\ has_guard body expect
  | AskCheckin ns mount msg => has body (bs "ns") ns /\ has_or body (bs "mount") (bs "/") mount /\ has_or body (bs "msg") [] msg
  | AskMount ns path spec rw => has body (bs "ns") ns /\ has body (bs "path") path /\ has body (bs "spec") spec /\ has_flag body (bs "rw") rw
  | AskRefs => True
  | AskSeal ref tag attest => has body (bs "ref") ref /\ has body (bs "tag") tag /\ has_flag body (bs "attest") attest
  end.

Definition asks (req : Request Value) (a : Ask) : Prop := rq_op _ req = op_name a /\ arguments (rq_body _ req) a.

(** An object with exactly these fields, as a client reads it. *)
Definition object_of (v : Value) (fields : list (str * Value)) : Prop :=
  (exists l, v = VObject l) /\ forall k, get v k = field fields k.

Definition row_of {A} (fields : A -> list (str * Value)) (v : Value) (l : list A) : Prop :=
  exists rows, v = VArray rows /\ Forall2 (fun x row => object_of row (fields x)) l rows.

(** An id in hex, and bytes in hex, as a client decodes them. *)
Definition is_id (h : str) (id : ObjectId) : Prop := from_hex h = Ok id.

(** What the daemon says when the repository answers [x]. *)
Definition tells (a : Ask) : answer a -> Value -> Prop :=
  match a return answer a -> Value -> Prop with
  | AskOpen _ => fun ns v => object_of v [(bs "ns", VString ns)]
  | AskWrite _ _ _ => fun id v => exists h, is_id h id /\ object_of v [(bs "oid", VString h)]
  | AskRead _ _ => fun data v => exists h, hex_decode h = Ok data /\ object_of v [(bs "hex", VString h)]
  | AskLs _ _ => fun l v =>
      row_of (fun '(n, k, id, x) => [(bs "name", VString n); (bs "kind", VString k); (bs "id", VString id); (bs "exec", VBool x)]) v l
  | AskMv _ _ _ _ => fun r v => exists h, is_id h (rn_source r) /\
      object_of v [(bs "from", VString (rn_from r)); (bs "to", VString (rn_to r)); (bs "kind", VString (rn_kind r));
                   (bs "source", VString h); (bs "entries", VNumber (PosInt (rn_entries r)))]
  | AskCheckin _ _ _ => fun r v =>
      match r with
      | Updated name oid => exists h, is_id h oid /\
          object_of v [(bs "result", VString (bs "updated")); (bs "name", VString name); (bs "oid", VString h)]
      | Forked requested fork ours theirs => exists h h', is_id h ours /\ is_id h' theirs /\
          object_of v [(bs "result", VString (bs "forked")); (bs "requested", VString requested); (bs "fork", VString fork);
                       (bs "ours", VString h); (bs "theirs", VString h')]
      | Noop name oid => exists h, is_id h oid /\
          object_of v [(bs "result", VString (bs "noop")); (bs "name", VString name); (bs "oid", VString h)]
      end
  | AskMount _ _ _ _ => fun _ v => object_of v [(bs "ok", VBool true)]
  | AskRefs => fun l v => exists hs, Forall2 (fun r h => is_id h (ref_oid r)) l hs /\
      row_of (fun '(r, h) => [(bs "name", VString (ref_name r)); (bs "oid", VString h); (bs "kind", VString (ref_kind r));
                              (bs "protected", VBool (ref_protected r)); (bs "sealed", VBool (ref_sealed r))]) v (combine l hs)
  | AskSeal _ _ attest => fun id v => exists h, is_id h id /\ object_of v [(bs "oid", VString h); (bs "attested", VBool attest)]
  end.

(** The request is one the daemon serves: its version, and every field of its body. *)
Definition served (req : Request Value) : Prop :=
  rq_v _ req = 1 /\ exists accepted, (rq_op _ req, accepted) ∈ DAEMON_OPS /\
  (rq_body _ req = Null \/ exists fields, rq_body _ req = VObject fields /\ forall k v, (k, v) ∈ fields -> k ∈ accepted).

Lemma accepted_fields (fields : list (str * Value)) accepted e :
  for_each (fun kv => reject_if (negb (existsb (bytes_eqb kv.1) accepted)) (e : Error)) fields = Ok tt <->
  forall k v, (k, v) ∈ fields -> k ∈ accepted.
Proof.
  rewrite for_each_ok, Forall_forall. split.
  - intros H k v Hin. apply H in Hin. apply reject_if_ok, negb_false_iff, existsb_exists in Hin as (k' & Hk & E).
    apply bytes_eqb_true in E. cbn in E. subst. by apply list_elem_of_In.
  - intros H [k v] Hin. apply reject_if_ok, negb_false_iff, existsb_exists. exists k. split; [|by apply bytes_eqb_true].
    apply list_elem_of_In. by eapply H.
Qed.

Lemma op_listed op accepted : (op, accepted) ∈ DAEMON_OPS -> find (fun row => bytes_eqb row.1 op) DAEMON_OPS = Some (op, accepted).
Proof.
  unfold DAEMON_OPS at 1. rewrite !elem_of_cons. intros H.
  repeat destruct H as [[= -> ->]|H]; try (vm_compute; reflexivity). by apply elem_of_nil in H.
Qed.

Lemma shape_served op body : check_request_shape op body = Ok tt <->
  exists accepted, (op, accepted) ∈ DAEMON_OPS /\
  (body = Null \/ exists fields, body = VObject fields /\ forall k v, (k, v) ∈ fields -> k ∈ accepted).
Proof.
  unfold check_request_shape. split.
  - destruct (find _ DAEMON_OPS) as [[name accepted]|] eqn:Ef; [|done].
    apply find_some in Ef as [Hin E%bytes_eqb_true]. cbn in E. subst name. intros H. exists accepted.
    split; [by apply list_elem_of_In|]. destruct body as [|b|n|t|l|fields]; try done; [by left|]. right. exists fields.
    split; [done|]. by eapply accepted_fields.
  - intros (accepted & Hin & H). rewrite (op_listed _ _ Hin). destruct H as [->|(fields & -> & H)]; [done|].
    by apply accepted_fields.
Qed.

Lemma no_panic_shape op body : no_panic (check_request_shape op body).
Proof.
  unfold check_request_shape. destruct (find _ DAEMON_OPS) as [[name accepted]|]; [|done].
  destruct body; try done. apply for_each_no_panic. intros. auto with forge.
Qed.

Lemma no_panic_s body k : no_panic (s body k). Proof. unfold s. auto with forge. Qed.
Lemma no_panic_opt body k d : no_panic (opt body k d). Proof. unfold opt. by repeat case_match. Qed.
Lemma no_panic_flag body k : no_panic (flag body k). Proof. unfold flag. by repeat case_match. Qed.
Lemma no_panic_write_data body : no_panic (write_data body).
Proof. unfold write_data. repeat case_match; try done. apply no_panic_hex_decode. Qed.
Lemma no_panic_expect_oid body : no_panic (expect_oid body).
Proof. unfold expect_oid. repeat case_match; try done. apply no_panic_bind; [auto with forge|auto with forge]. Qed.
#[export] Hint Resolve no_panic_shape no_panic_s no_panic_opt no_panic_flag no_panic_write_data no_panic_expect_oid : forge.

Lemma no_panic_load_cap `{HM : Hmac} key token : no_panic (load_cap key token).
Proof.
  unfold load_cap. apply no_panic_bind; [apply no_panic_from_token|]. intros cap _.
  apply no_panic_bind; [|auto with forge]. unfold verify. auto with forge.
Qed.

(** ** The arguments, as they are read *)

Lemma s_has body k v : s body k = Ok v <-> has body k v.
Proof. unfold s, has, ok_or. cbn. destruct (get body k) as [[| | |t| |]|]; cbn; split; intros E; try done; congruence. Qed.

Lemma opt_has body k d v : opt body k d = Ok v <-> has_or body k d v.
Proof.
  unfold opt, has_or, has, absent. destruct (get body k) as [[| | |t| |]|]; split; intros E; try done;
    try (by right; injection E as <-; auto); try (left; congruence); try (by destruct E as [E|[[E|E] E']]; congruence).
Qed.

Lemma flag_has body k b : flag body k = Ok b <-> has_flag body k b.
Proof.
  unfold flag, has_flag, absent. destruct (get body k) as [[| | |t| |]|]; split; intros E; try done;
    try (by right; injection E as <-; auto); try (left; congruence); try (by destruct E as [E|[[E|E] E']]; congruence).
Qed.

Lemma string_has body k : (v ← get body k; as_string v) = None <-> forall h, ~ has body k h.
Proof.
  unfold has. cbn. destruct (get body k) as [[| | |t| |]|]; cbn; split; try done. intros H. by destruct (H t).
Qed.

Lemma has_string body k h : (v ← get body k; as_string v) = Some h <-> has body k h.
Proof. unfold has. cbn. destruct (get body k) as [[| | |t| |]|]; cbn; split; intros E; congruence. Qed.

Lemma write_data_has body data : write_data body = Ok data <-> has_data body data.
Proof.
  unfold write_data, has_data. destruct (h ← get body (bs "hex"); as_string h) as [h|] eqn:Eh.
  - apply has_string in Eh. split; [intros E; left; by exists h|]. intros [(h' & Hh & E)|[Hn _]]; [|by destruct (Hn h)].
    unfold has in *. congruence.
  - pose proof (proj1 (string_has _ _) Eh) as Hn. destruct (t ← get body (bs "text"); as_string t) as [t|] eqn:Et.
    + apply has_string in Et. split; [intros [= <-]; by right|]. intros [(h & Hh & _)|[_ Ht]]; [by destruct (Hn h)|]. unfold has in *. congruence.
    + pose proof (proj1 (string_has _ _) Et) as Hn'. split; [done|]. intros [(h & Hh & _)|[_ Ht]]; [by destruct (Hn h)|by destruct (Hn' data)].
Qed.

Lemma expect_has body expect : expect_oid body = Ok expect <-> has_guard body expect.
Proof.
  unfold expect_oid, has_guard, has, absent. destruct (get body (bs "expect_oid")) as [[| | |t| |]|]; split; intros E; try done;
    try (by left; injection E as <-; auto); try (by destruct E as [[[E|E] E']|(h & i & E & _)]; congruence).
  - right. apply bind_ok in E as (i & Hi & [= <-]). by exists t, i.
  - destruct E as [[[E|E] _]|(h & i & [= <-] & Hi & ->)]; [done..|]. by rewrite Hi.
Qed.

(** A request asks for one thing. *)
Lemma asks_one req (a a' : Ask) : asks req a -> asks req a' -> a = a'.
Proof.
  intros [Hop Ha] [Hop' Ha']. rewrite Hop in Hop'. clear Hop.
  destruct a, a'; try (exfalso; vm_compute in Hop'; discriminate Hop'); clear Hop'; cbn [arguments] in *;
    repeat match goal with
    | H : _ /\ _ |- _ => destruct H
    | H : has _ _ _ |- _ => apply s_has in H
    | H : has_or _ _ _ _ |- _ => apply opt_has in H
    | H : has_flag _ _ _ |- _ => apply flag_has in H
    | H : has_data _ _ |- _ => apply write_data_has in H
    | H : has_guard _ _ |- _ => apply expect_has in H
    end; congruence.
Qed.

(** ** The answers, as they are read *)

Lemma field_elem (fields : list (str * Value)) k v : NoDup fields.*1 -> field fields k = Some v <-> (k, v) ∈ fields.
Proof.
  induction fields as [|[name w] fields IH]; cbn; intros Hn; [split; [done|by intros ?%elem_of_nil]|].
  apply NoDup_cons in Hn as [Hh Ht]. rewrite elem_of_cons. destruct (bytes_eqb name k) eqn:E.
  - apply bytes_eqb_true in E. subst name. split; [intros [= ->]; by left|]. intros [[= ->]|Hin]; [done|].
    destruct Hh. apply list_elem_of_fmap. by exists (k, v).
  - rewrite IH by done. split; [by right|]. intros [[= -> _]|Hin]; [|done]. exfalso. revert E. by rewrite (proj2 (bytes_eqb_true name name)).
Qed.

Lemma json_object_of fields : NoDup fields.*1 -> object_of (json_object fields) fields.
Proof.
  intros Hn. split; [by eexists|]. intros k. unfold json_object, get. apply option_eq. intros v.
  rewrite !field_elem; [by rewrite (sort_by_key_perm fst fields)|done|]. by rewrite (sort_by_key_perm fst fields).
Qed.

(** Written-out names are distinct. *)
Ltac distinct_names := cbn [fmap list_fmap fst]; refine (bool_decide_unpack _ _); vm_compute; exact I.

(** ** A request is one call *)

(** What is asked, of the repository: a call of the API, and for a seal with
    [attest] the check of the tag it made, whose failure is the answer. *)
Section perform.
Context {St B : Type} `{R : Repo St B} `{HM : Hmac} `{B3 : Blake3} `{ED : Ed25519}.

Definition perform (fuel : nat) (E : Env) (cap : Cap) (a : Ask) : stateM Error (Forge St) (answer a) :=
  match a return stateM Error (Forge St) (answer a) with
  | AskOpen from => session_open (en_key E) (en_now E) (en_ulid E) cap from
  | AskWrite ns path data => Forge_write (en_key E) (en_now E) cap ns path data false
  | AskRead ns path => Forge_read (en_key E) (en_now E) (en_read_only E) cap ns path
  | AskLs ns path => Forge_ls (en_key E) (en_now E) (en_read_only E) cap ns path
  | AskMv ns from to expect => rename fuel (en_key E) (en_now E) (en_read_only E) cap ns from to expect
  | AskCheckin ns mount msg => checkin (en_key E) (en_now E) (en_ulid E) (en_others E) cap ns mount msg
  | AskMount ns path spec rw => mount (en_key E) (en_now E) cap ns path spec rw
  | AskRefs => Forge_refs (en_key E) (en_now E) cap
  | AskSeal ref tag attest =>
      let pk := ed_public (en_seed E) in
      oid ← seal (en_budget E) (en_seed E) pk (en_key E) (en_now E) (en_others E) cap ref tag;
      if attest then _ ← verify_tag (en_budget E) pk (en_key E) (fun i => en_now E (4 + i)%nat) cap tag; mret oid else mret oid
  end.

(** The outcome [r] and the repository [f'] of a request that asks for [a]. *)
Definition carried fuel E cap (a : Ask) (f : Forge St) (r : Result Value) (f' : Forge St) : Prop :=
  match perform fuel E cap a f with
  | (Ok x, f1) => f' = f1 /\ exists v, r = Ok v /\ tells a x v
  | (Err e, f1) => f' = f1 /\ r = Err e
  | (Panic, f1) => f' = f1 /\ r = Panic
  end.

Definition op_outcome fuel E cap req (f : Forge St) (r : Result Value) (f' : Forge St) : Prop :=
  (exists a, asks req a /\ carried fuel E cap a f r f') \/
  (f' = f /\ (exists e, r = Err e) /\ forall a, ~ asks req a).

(** The call, then the answer made of its result. *)
Lemma carried_by fuel E cap req (a : Ask) (g : answer a -> Value) f :
  asks req a -> (forall x, tells a x (g x)) ->
  wp (x ← perform fuel E cap a; mret (g x)) f (op_outcome fuel E cap req f).
Proof.
  intros Ha Hg. left. exists a. split; [exact Ha|]. unfold carried, mbind, stateM_bind.
  destruct (perform fuel E cap a f) as [[x|e|] f1]; cbn; [|by split..]. split; [done|]. by exists (g x).
Qed.

(** Reading an argument, or refusing for the want of it: no request whose body
    gives none can be asking for anything. *)
Lemma op_arg {A} fuel E cap req f (a : Result A) (k : A -> stateM Error (Forge St) Value) :
  no_panic a -> (forall x, a = Ok x -> wp (k x) f (op_outcome fuel E cap req f)) ->
  ((forall x, a <> Ok x) -> forall a', ~ asks req a') ->
  wp (x ← pure a; k x) f (op_outcome fuel E cap req f).
Proof.
  intros Hp Hk Hn. apply wp_bind, wp_pure. destruct a as [x|e|]; [by apply Hk| |by destruct Hp].
  right. split; [done|]. split; [by eexists|]. by apply Hn.
Qed.

(** A request of the op [name] that asks for something has the argument. *)
Lemma asks_args req (a : Ask) name : asks req a -> rq_op _ req = name -> op_name a = name /\ arguments (rq_body _ req) a.
Proof. by intros [<- H] ?. Qed.

Ltac op_case op := match goal with |- wp (if bytes_eqb op ?name then _ else _) _ _ =>
  let E := fresh in destruct (bytes_eqb op name) eqn:E; [apply bytes_eqb_true in E|apply bytes_eqb_false in E] end.
Ltac not_asked := let a := fresh in let H := fresh in let Hop := fresh in let Hn := fresh in
  intros Hn a H; eapply asks_args in H as [Hop H]; [|eassumption];
  destruct a; try (vm_compute in Hop; discriminate Hop); clear Hop; cbn [arguments] in H;
  repeat match goal with H : _ /\ _ |- _ => destruct H end;
  eapply Hn; (apply s_has + apply opt_has + apply flag_has + apply write_data_has + apply expect_has); eassumption.
Tactic Notation "argument" ident(x) ident(Hx) := apply op_arg; [auto with forge|intros x Hx|not_asked].

Ltac asks_for a g := match goal with |- wp _ ?f (op_outcome ?fuel ?E ?cap ?req _) => refine (carried_by fuel E cap req a g f _ _) end;
  [split; [assumption|cbn [arguments]; rewrite <- ?s_has, <- ?opt_has, <- ?flag_has, <- ?write_data_has, <- ?expect_has; by split_and?]|].

Lemma tells_id id : is_id (hex id) id.
Proof. apply from_hex_hex_id. Qed.

Lemma tells_cas ns mount msg r : tells (AskCheckin ns mount msg) r (cas_result r).
Proof.
  destruct r; cbn [tells cas_result]; [exists (hex oid)|exists (hex ours), (hex theirs)|exists (hex oid)];
    split_and?; try apply tells_id; (apply json_object_of; distinct_names).
Qed.

Lemma tells_rows {A} (fields : A -> list (str * Value)) (g : A -> Value) l :
  (forall x, object_of (g x) (fields x)) -> row_of fields (VArray (g <$> l)) l.
Proof. intros Hg. eexists. split; [done|]. by induction l; constructor. Qed.

Lemma tells_refs l : tells AskRefs l (VArray (ref_row_json <$> l)).
Proof.
  cbn [tells]. exists (hex <$> (ref_oid <$> l)). split.
  - induction l as [|r l IH]; constructor; [apply tells_id|exact IH].
  - eexists. split; [done|]. induction l as [|r l IH]; [constructor|]. cbn. constructor; [apply json_object_of; distinct_names|exact IH].
Qed.

Lemma run_op_spec fuel E cap req f :
  wp (run_op (St:=St) fuel E cap (rq_op _ req) (rq_body _ req)) f (op_outcome fuel E cap req f).
Proof.
  unfold run_op. cbv zeta. set (op := rq_op _ req) in *. set (body := rq_body _ req) in *.
  op_case op.
  { argument from K1. asks_for (AskOpen from) (fun ns => json_object [(bs "ns", VString ns)]).
    intros ns. apply json_object_of. distinct_names. }
  op_case op.
  { argument data K1. argument ns K2. argument path K3.
    asks_for (AskWrite ns path data) (fun id => json_object [(bs "oid", VString (hex id))]).
    intros id. exists (hex id). split; [apply tells_id|]. apply json_object_of. distinct_names. }
  op_case op.
  { argument ns K1. argument path K2. asks_for (AskRead ns path) (fun data => json_object [(bs "hex", VString (hex_encode data))]).
    intros data. exists (hex_encode data). split; [apply hex_decode_encode|]. apply json_object_of. distinct_names. }
  op_case op.
  { argument ns K1. argument path K2. asks_for (AskLs ns path) (fun ents => VArray (ls_row <$> ents)).
    intros ents. apply tells_rows. intros [[[n k] i] x]. apply json_object_of. distinct_names. }
  op_case op.
  { argument expect K1. argument ns K2. argument from K3. argument to K4.
    asks_for (AskMv ns from to expect) (fun r => json_object [(bs "from", VString (rn_from r)); (bs "to", VString (rn_to r));
      (bs "kind", VString (rn_kind r)); (bs "source", VString (hex (rn_source r))); (bs "entries", VNumber (PosInt (rn_entries r)))]).
    intros r. exists (hex (rn_source r)). split; [apply tells_id|]. apply json_object_of. distinct_names. }
  op_case op.
  { argument ns K1. argument mount K2. argument msg K3. asks_for (AskCheckin ns mount msg) cas_result. apply tells_cas. }
  op_case op.
  { argument ns K1. argument path K2. argument spec K3. argument rw K4.
    asks_for (AskMount ns path spec rw) (fun _ : unit => json_object [(bs "ok", VBool true)]).
    intros ?. apply json_object_of. distinct_names. }
  op_case op. { asks_for AskRefs (fun refs => VArray (ref_row_json <$> refs)). apply tells_refs. }
  op_case op.
  { argument tag K1. argument attest K2. argument ref K3.
    match goal with |- wp ?m f ?Q => set (answered := (oid ← perform fuel E cap (AskSeal ref tag attest);
      mret (json_object [(bs "oid", VString (hex oid)); (bs "attested", VBool attest)])) : stateM Error (Forge St) Value);
      assert (m f = answered f) as Hm; [subst answered|enough (wp answered f Q) by (unfold wp in *; by rewrite Hm); subst answered; clear Hm] end.
    { cbn [perform]. unfold mbind, stateM_bind. destruct (seal _ _ _ _ _ _ _ _ _ f) as [[oid|e|] f1]; [|done..].
      destruct attest; [|done]. by destruct (verify_tag _ _ _ _ _ _ f1) as [[?|?|] ?]. }
    asks_for (AskSeal ref tag attest) (fun id => json_object [(bs "oid", VString (hex id)); (bs "attested", VBool attest)]).
    intros id. exists (hex id). split; [apply tells_id|]. apply json_object_of. distinct_names. }
  right. split; [done|]. split; [by eexists|]. intros a [Hop _]. fold op in Hop. destruct a; cbn [op_name] in Hop; contradiction.
Qed.
End perform.

(** ** What a request leaves *)

(** The call of the API that is made; [refs] only looks. *)
Definition call_of (a : Ask) : option ApiCall :=
  match a with
  | AskOpen from => Some (CallSessionOpen from)
  | AskWrite ns path data => Some (CallWrite ns path data false)
  | AskRead ns path => Some (CallRead ns path)
  | AskLs ns path => Some (CallLs ns path)
  | AskMv ns from to expect => Some (CallRename ns from to expect)
  | AskCheckin ns mount msg => Some (CallCheckin ns mount msg)
  | AskMount ns path spec rw => Some (CallMount ns path spec rw)
  | AskRefs => None
  | AskSeal ref tag _ => Some (CallSeal ref tag)
  end.

Section sound.
Context {St B : Type} `{RL : RepoLaws St B} `{HM : Hmac} `{B3 : Blake3} `{ED : Ed25519} `{EL : !Ed25519Laws}.
Implicit Types (f : Forge St) (E : Env) (cap : Cap).

(** What the caller owes for what the request asks. *)
Definition careful_request f E cap (req : Request Value) : Prop :=
  forall a call, asks req a -> call_of a = Some call -> careful f E cap call.

Lemma refs_nothing key now cap f : (Forge_refs (St:=St) key now cap f).2 = f.
Proof.
  unfold Forge_refs, refs_with_suppressed, mbind, stateM_bind, pure. destruct (check _ _ _ _ _); [|done..]. cbn.
  assert (exists rows, on_meta (St:=St) list_refs f = (Ok rows, f)) as [rows ->] by (destruct f; by eexists).
  cbv [mret stateM_ret]. match goal with |- context [fold_left ?g ?l ?a] => by destruct (fold_left g l a) end.
Qed.

Lemma perform_sound fuel E cap (a : Ask) f : sound_repo f -> clock E ->
  (forall call, call_of a = Some call -> careful f E cap call) ->
  wp (perform fuel E cap a) f (fun _ f' => sound_repo f').
Proof.
  intros H Hnow Hc. destruct a; cbn [call_of perform] in *; try specialize (Hc _ eq_refl); cbn [careful] in *.
  - by apply session_open_sound.
  - by apply write_sound.
  - by apply read_sound.
  - by apply ls_sound.
  - by apply rename_sound.
  - destruct Hc as (? & ? & ? & ?). by apply checkin_sound.
  - by apply mount_sound.
  - unfold wp. by rewrite refs_nothing.
  - cbv zeta. apply wp_bind. eapply wp_mono; [by apply seal_sound|]. intros r f1 H1. destruct r as [oid|e|]; [|done..].
    destruct attest; [|by apply wp_ret]. apply wp_bind. eapply wp_mono; [apply verify_tag_spec, H1|]. intros r f2 [S2 _].
    assert (sound_repo f2) by by eapply repo_same. destruct r; [by apply wp_ret|done..].
Qed.

(** The response to a request. *)
Definition responded (req : Request Value) (o : Result (Response Value)) (r : Result Value) : Prop :=
  o = match r with
      | Ok v => Ok (Response_ok (rq_id _ req) v)
      | Err e => Ok (Response_err (rq_id _ req) e)
      | Panic => Panic
      end.

(** Either the request is refused, as it must then be, and nothing changes, or
    it asks for one thing and is answered what the repository answers to that. *)
Definition request_outcome fuel E (req : Request Value) f (o : Result (Response Value)) f' : Prop := exists r, responded req o r /\
  ((f' = f /\ (exists e, r = Err e) /\
    ~ (served req /\ is_ok (load_cap (en_key E) (rq_cap _ req)) = true /\ exists a, asks req a)) \/
   (served req /\ exists cap a, load_cap (en_key E) (rq_cap _ req) = Ok cap /\ asks req a /\
      (forall a', asks req a' -> a' = a) /\ carried fuel E cap a f r f')).

Lemma dispatch_inner_spec fuel E req f : wp (dispatch_inner (St:=St) fuel E req) f (fun r f' =>
  (f' = f /\ (exists e, r = Err e) /\
    ~ (served req /\ is_ok (load_cap (en_key E) (rq_cap _ req)) = true /\ exists a, asks req a)) \/
  (served req /\ exists cap a, load_cap (en_key E) (rq_cap _ req) = Ok cap /\ asks req a /\
      (forall a', asks req a' -> a' = a) /\ carried fuel E cap a f r f')).
Proof.
  unfold dispatch_inner. apply wp_bind, wp_pure. destruct (Z.eqb_spec (rq_v _ req) 1) as [Hv|Hv]; cbn [negb reject_if].
  2: { left. split; [done|]. split; [by eexists|]. by intros ([Hv' _] & _). }
  apply wp_bind, wp_pure. pose proof (no_panic_load_cap (en_key E) (rq_cap _ req)) as Hp.
  destruct (load_cap (en_key E) (rq_cap _ req)) as [cap|e|] eqn:El; [| |done].
  2: { left. split; [done|]. split; [by eexists|]. by intros (_ & ? & _). }
  apply wp_bind, wp_pure. pose proof (no_panic_shape (rq_op _ req) (rq_body _ req)) as Hps.
  destruct (check_request_shape (rq_op _ req) (rq_body _ req)) as [[]|e|] eqn:Es; [| |done].
  2: { left. split; [done|]. split; [by eexists|]. intros ([_ Hs] & _). apply shape_served in Hs. congruence. }
  eapply wp_mono; [apply run_op_spec|]. intros r f' [(a & Ha & Hr)|(-> & He & Hn)].
  - right. split; [split; [done|by apply shape_served]|]. exists cap, a. split_and!; [done..| |done].
    intros a' Ha'. by eapply asks_one.
  - left. split; [done|]. split; [done|]. intros (_ & _ & a & Ha). by apply (Hn a).
Qed.

Lemma dispatch_spec fuel E req f : wp (dispatch (St:=St) fuel E req) f (request_outcome fuel E req f).
Proof.
  unfold dispatch, wp at 1, request_outcome. pose proof (dispatch_inner_spec fuel E req f) as Hd. unfold wp in Hd.
  destruct (dispatch_inner fuel E req f) as [r f']; cbn [fst snd] in *.
  destruct r as [v|e|]; cbn [fst snd]; [exists (Ok v)|exists (Err e)|exists Panic]; by split.
Qed.

Lemma outcome_sound fuel E req f o f' : sound_repo f -> clock E ->
  (forall cap, load_cap (en_key E) (rq_cap _ req) = Ok cap -> careful_request f E cap req) ->
  request_outcome fuel E req f o f' -> sound_repo f'.
Proof.
  intros H Hnow Hc (r & _ & [[-> _]|(_ & cap & a & Hl & Ha & _ & Hr)]); [done|].
  pose proof (perform_sound fuel E cap a f H Hnow (fun call => Hc cap Hl a call Ha)) as Hs. unfold carried, wp in *.
  destruct (perform fuel E cap a f) as [[x|e|] f1]; cbn [fst snd] in *; by destruct Hr as [-> _].
Qed.
End sound.

(** ** Frames on a connection *)

Definition frame (body : bytes) : bytes := be_bytes 4 (len body mod 2 ^ 32) ++ body.

(** Reading after the first byte is reading the whole frame. *)
Lemma read_split (first : byte) (rest : bytes) :
  (n ← read_frame_len_after first; read_frame_body n) rest = frame_read (first :: rest).
Proof.
  rewrite <- read_frame_cases. unfold read_frame, read_frame_len, read_frame_len_after, read_frame_body, mbind, stateM_bind, pure.
  destruct (Z.ltb_spec (len rest) 3) as [H|H].
  - rewrite !read_exact_short; [done|rewrite len_cons; lia|done].
  - destruct (split_len rest 3) as (p & rest' & -> & Hp); [lia|].
    replace (read_exact 3 (p ++ rest')) with (read_exact (len p) (p ++ rest')) by by rewrite Hp.
    replace (read_exact 4 (first :: p ++ rest')) with (read_exact (len (first :: p)) ((first :: p) ++ rest')).
    2: { rewrite len_cons, Hp. done. }
    by rewrite !read_exact_app.
Qed.

Lemma read_framed (body rest : bytes) : len body <= MAX_FRAME_BYTES -> frame_read (frame body ++ rest) = (Ok body, rest).
Proof.
  intros H. pose proof (len_nonneg body). pose proof (len_nonneg rest).
  assert (len body < 2 ^ 32) as Hlt by (unfold MAX_FRAME_BYTES in H; lia). unfold frame, frame_read. rewrite Z.mod_small by lia.
  assert (length (be_bytes 4 (len body)) = 4%nat) as Hl by apply length_be_bytes. set (p := be_bytes 4 (len body)) in *.
  assert (be_val p = len body) as Hv by (apply be_val_bytes; lia). rewrite <- app_assoc.
  rewrite (proj2 (Z.ltb_ge _ _)) by (rewrite len_app, (len_length _ _ Hl); pose proof (len_nonneg (body ++ rest)); lia).
  rewrite <- Hl, take_app_length, drop_app_length. cbv zeta. rewrite Hv, !(proj2 (Z.ltb_ge _ _)) by (rewrite ?len_app; lia).
  by rewrite to_nat_len, take_app_length, drop_app_length.
Qed.

Lemma frame_head (body : bytes) : exists first tail, frame body = first :: tail.
Proof.
  unfold frame. pose proof (length_be_bytes 4 (len body mod 2 ^ 32)) as H. destruct (be_bytes 4 _) as [|first p]; [done|].
  by eexists _, _.
Qed.

Lemma write_framed {V} (to_vec : V -> outcome str bytes) v body w : to_vec v = Ok body -> write_frame to_vec v w = (Ok tt, w ++ frame body).
Proof. intros E. unfold write_frame, mbind, stateM_bind, pure. rewrite E. cbn. unfold frame. by rewrite <- app_assoc. Qed.

Section in_order.
Context {St B : Type} `{R : Repo St B} `{HM : Hmac} `{B3 : Blake3} `{ED : Ed25519}.
Context (from_slice : bytes -> outcome str (Request Value)) (to_vec : Response Value -> outcome str bytes).
Context (fuel : nat) (E : nat -> Env).

(** The bodies [bufs], read one after the other by a repository in state [f],
    are answered by [outs]: each that parses by the response of [dispatch] to
    the repository as the ones before left it, each that does not by an error. *)
Inductive replies : nat -> Forge St -> list bytes -> Forge St -> list bytes -> Prop :=
| replies_none i f : replies i f [] f []
| replies_request i f buf req resp out f1 bufs f2 outs :
    from_slice buf = Ok req -> dispatch fuel (E i) req f = (Ok resp, f1) -> to_vec resp = Ok out ->
    replies (S i) f1 bufs f2 outs -> replies i f (buf :: bufs) f2 (out :: outs)
| replies_garbage i f buf e out bufs f2 outs :
    from_slice buf = Err e -> to_vec (Response_err 0 (Invalid e)) = Ok out ->
    replies (S i) f bufs f2 outs -> replies i f (buf :: bufs) f2 (out :: outs).

(** No whole frame is left. *)
Definition no_frame (tail : bytes) : Prop := forall body rest, frame_read tail <> (Ok body, rest).

Lemma turn_stops tail w f i : no_frame tail -> exists rest,
  conn_turn from_slice to_vec fuel E (mkConn tail w f i) = (mkConn rest w f i, false).
Proof.
  intros Hn. unfold conn_turn. cbn [cn_in cn_out cn_forge cn_served]. destruct tail as [|first rest]; [by eexists|].
  pose proof (read_split first rest) as Hs. unfold mbind, stateM_bind in Hs.
  destruct (read_frame_len_after first rest) as [[n|e|] rest1]; [|by eexists..].
  destruct (read_frame_body n rest1) as [[buf|e|] rest2]; [|by eexists..]. symmetry in Hs. by apply Hn in Hs.
Qed.

Lemma turn_reads buf rest w f i : len buf <= MAX_FRAME_BYTES ->
  conn_turn from_slice to_vec fuel E (mkConn (frame buf ++ rest) w f i) =
    match from_slice buf with
    | Ok req =>
        match dispatch fuel (E i) req f with
        | (Ok resp, f) =>
            match write_frame to_vec resp w with
            | (Ok _, out) => (mkConn rest out f (S i), true)
            | (_, out) => (mkConn rest out f (S i), false)
            end
        | (_, f) => (mkConn rest w f (S i), false)
        end
    | Err e => let '(_, out) := write_frame to_vec (Response_err 0 (Invalid e)) w in (mkConn rest out f (S i), true)
    | Panic => (mkConn rest w f i, false)
    end.
Proof.
  intros Hl. pose proof (read_framed buf rest Hl) as Hr. unfold conn_turn. cbn [cn_in cn_out cn_forge cn_served].
  destruct (frame_head buf) as (first & tail & Ef). rewrite Ef in *. cbn [app] in *. rewrite <- read_split in Hr.
  unfold mbind, stateM_bind in Hr. destruct (read_frame_len_after first (tail ++ rest)) as [[n|e|] rest1]; [|done..].
  by rewrite Hr.
Qed.

Lemma replies_served i f bufs f' outs : replies i f bufs f' outs -> Forall (fun b => len b <= MAX_FRAME_BYTES) bufs ->
  forall tail w turns, no_frame tail -> (length bufs < turns)%nat -> exists rest,
  handle_unix from_slice to_vec turns fuel E (mkConn (concat (frame <$> bufs) ++ tail) w f i) =
    mkConn rest (w ++ concat (frame <$> outs)) f' (length bufs + i).
Proof.
  induction 1 as [i f|i f buf req resp out f1 bufs f2 outs H1 H2 H3 Hr IH|i f buf e out bufs f2 outs H1 H2 Hr IH];
    intros Hl tail w turns Hn Ht; (destruct turns as [|turns]; [cbn in Ht; lia|]); cbn [handle_unix].
  - cbn [fmap list_fmap concat app length Nat.add]. destruct (turn_stops tail w f i Hn) as [rest ->]. exists rest. by rewrite app_nil_r.
  - apply Forall_cons in Hl as [Hb Hl]. cbn [fmap list_fmap concat length] in *. rewrite <- app_assoc, turn_reads by done.
    rewrite H1, H2, (write_framed _ _ _ _ H3). destruct (IH Hl tail (w ++ frame out) turns Hn ltac:(lia)) as [rest ->].
    exists rest. rewrite <- app_assoc. f_equal. lia.
  - apply Forall_cons in Hl as [Hb Hl]. cbn [fmap list_fmap concat length] in *. rewrite <- app_assoc, turn_reads by done.
    rewrite H1, (write_framed _ _ _ _ H2). destruct (IH Hl tail (w ++ frame out) turns Hn ltac:(lia)) as [rest ->].
    exists rest. rewrite <- app_assoc. f_equal. lia.
Qed.

Lemma frames_long bufs tail : (length bufs <= length (concat (frame <$> bufs) ++ tail))%nat.
Proof.
  rewrite length_app. induction bufs as [|b bufs IH]; [cbn; lia|]. cbn [fmap list_fmap concat length]. rewrite length_app.
  destruct (frame_head b) as (first & tl & ->). cbn [length] in *. lia.
Qed.
End in_order.

(** ** HTTP *)

(** The status of each class of error. *)
Definition status_of (e : Error) : Z :=
  match e with
  | Denied _ | CapError _ => 403
  | NotFound _ => 404
  | Sealed _ | MergeConflict _ | StaleObservation _ _ _ | InvalidBase => 409
  | Busy _ => 503
  | Invalid _ => 400
  | Corrupt _ | Io _ | Sqlite _ | Internal _ => 500
  end.

Lemma http_status_err id e : http_status (Response_err id e) = status_of e.
Proof. by destruct e. Qed.

(** A request that HTTP hands on: a POST below [/v1/] with a whole body of at
    most a megabyte that parses. *)
Definition http_accepted (value_from_slice : bytes -> outcome str Value) (req : HttpRequest) (op : str) (val : Value) : Prop :=
  hr_post req = true /\ http_op (hr_url req) = Some op /\ hr_broken req = false /\ len (hr_body req) <= MAX_HTTP_BODY
  /\ (if bool_decide (hr_body req = []) then Ok (VObject []) else value_from_slice (hr_body req)) = Ok val.

(** The response of a dispatch, and the one HTTP makes of it. *)
Definition http_answer (to_vec : Response Value -> outcome str bytes) (resp : Response Value) (r : HttpResponse) : Prop :=
  hs_payload r = to_payload to_vec resp /\
  ((exists v, resp = Response_ok 1 v /\ hs_status r = 200) \/ (exists e, resp = Response_err 1 e /\ hs_status r = status_of e)).

Section http.
Context {St B : Type} `{R : Repo St B} `{HM : Hmac} `{B3 : Blake3} `{ED : Ed25519}.
Context (value_from_slice : bytes -> outcome str Value) (to_vec : Response Value -> outcome str bytes).
Context (Hjson : forall b, no_panic (value_from_slice b)).

Definition http_outcome fuel E (req : HttpRequest) (f : Forge St) (o : Result HttpResponse) (f' : Forge St) : Prop :=
  (f' = f /\ (forall op val, ~ http_accepted value_from_slice req op val) /\ exists r, o = Ok r /\ hs_status r ∈ [400; 404; 405; 413]) \/
  exists op val, http_accepted value_from_slice req op val /\
    match dispatch fuel E (mkRequest 1 1 op (bearer (hr_auth req)) val) f with
    | (Ok resp, f1) => f' = f1 /\ exists r, o = Ok r /\ http_answer to_vec resp r
    | (_, f1) => f' = f1 /\ o = Panic
    end.

Lemma dispatch_response fuel E req (f f' : Forge St) o : dispatch fuel E req f = (o, f') ->
  match o with
  | Ok resp => (exists v, resp = Response_ok (rq_id _ req) v) \/ (exists e, resp = Response_err (rq_id _ req) e)
  | Err _ => False
  | Panic => True
  end.
Proof.
  unfold dispatch. destruct (dispatch_inner fuel E req f) as [[v|e|] f1]; intros [= <- <-]; [left; by eexists|right; by eexists|done].
Qed.

Lemma http_refused fuel E req (f : Forge St) status payload :
  status ∈ [400; 404; 405; 413] -> (forall op val, ~ http_accepted value_from_slice req op val) ->
  wp (mret (mkHttpResponse status payload)) f (http_outcome fuel E req f).
Proof. intros Hs Hn. apply wp_ret. left. split; [done|]. split; [done|]. by eexists. Qed.

Lemma http_spec fuel E req (f : Forge St) :
  wp (http_request value_from_slice to_vec fuel E req) f (http_outcome fuel E req f).
Proof.
  unfold http_request. destruct (hr_post req) eqn:Hp; cbn [negb].
  2: { apply http_refused; [set_solver|]. intros op val [H _]. congruence. }
  destruct (http_op (hr_url req)) as [op|] eqn:Ho.
  2: { apply http_refused; [set_solver|]. intros op val (_ & H & _). congruence. }
  cbv zeta. assert (0 <= MAX_HTTP_BODY) as Hm by done. pose proof (len_nonneg (hr_body req)) as Hn.
  destruct (hr_broken req && (len (hr_body req) <? MAX_HTTP_BODY + 1)) eqn:Hb.
  { apply http_refused; [set_solver|]. apply andb_true_iff in Hb as [Hb _]. intros op' val (_ & _ & H & _). congruence. }
  assert (len (take (Z.to_nat (MAX_HTTP_BODY + 1)) (hr_body req)) = Z.min (MAX_HTTP_BODY + 1) (len (hr_body req))) as Ht.
  { unfold len. rewrite length_take. lia. }
  destruct (Z.ltb_spec MAX_HTTP_BODY (len (take (Z.to_nat (MAX_HTTP_BODY + 1)) (hr_body req)))) as [Hl|Hl].
  { apply http_refused; [set_solver|]. intros op' val (_ & _ & _ & H & _). lia. }
  assert (hr_broken req = false) as Hbr by (destruct (hr_broken req); [apply Z.ltb_ge in Hb; lia|done]).
  assert (take (Z.to_nat (MAX_HTTP_BODY + 1)) (hr_body req) = hr_body req) as -> by (apply take_ge; unfold len in *; lia).
  assert (forall val, (if bool_decide (hr_body req = []) then Ok (VObject []) else value_from_slice (hr_body req)) = Ok val ->
    http_accepted value_from_slice req op val) as Hacc by (intros val Hv; split_and!; [done..|lia|done]).
  assert (no_panic (if bool_decide (hr_body req = []) then Ok (VObject []) else value_from_slice (hr_body req))) as Hnp by (case_bool_decide; [done|apply Hjson]).
  destruct (if bool_decide (hr_body req = []) then _ else _) as [val|e|] eqn:Ev; [| |done].
  2: { apply http_refused; [set_solver|]. intros op' val (_ & _ & _ & _ & H). congruence. }
  apply wp_bind. unfold wp at 1. destruct (dispatch fuel E _ f) as [o f1] eqn:Ed. pose proof (dispatch_response _ _ _ _ _ _ Ed) as Hr. cbn [fst snd].
  assert (forall (o' : Result HttpResponse), match o with Ok resp => exists r, o' = Ok r /\ http_answer to_vec resp r | _ => o' = Panic end ->
    http_outcome fuel E req f o' f1) as Hout.
  { intros o' Ho'. right. exists op, val. split; [by apply Hacc|]. rewrite Ed. destruct o; by split. }
  destruct o as [resp|e|]; [apply wp_ret; apply Hout; eexists; split; [reflexivity|]|done|by apply Hout].
  split; [done|]. destruct Hr as [[v ->]|[e ->]]; [left; by exists v|right; exists e].
  split; [done|]. apply http_status_err.
Qed.
End http.

(** ** Admission *)

(** The queue stays within its bound, and what waited too long is not served. *)
Lemma enqueue_bounded {S} (queue : list (S * Z)) stream now : len queue <= MAX_PENDING_UNIX ->
  len (enqueue queue stream now).1 <= MAX_PENDING_UNIX /\
  (enqueue queue stream now).1 = (if (enqueue queue stream now).2 then queue ++ [(stream, now)] else queue).
Proof.
  intros H. unfold enqueue. destruct (Z.ltb_spec (len queue) MAX_PENDING_UNIX); cbn [fst snd]; split; try done.
  rewrite len_app. change (len [(stream, now)]) with 1. lia.
Qed.

Lemma worker_count_bounds parallelism : 8 <= worker_count parallelism <= MAX_UNIX_WORKERS.
Proof. unfold worker_count, MAX_UNIX_WORKERS. destruct parallelism; lia. Qed.

(** ** Properties *)

Section properties.
Context {St B : Type} `{RL : RepoLaws St B} `{HM : Hmac} `{B3 : Blake3} `{ED : Ed25519} `{EL : !Ed25519Laws}.

(** C6: A request to the daemon is one call of the API, answered as that call
    is, or nothing.  A request of version 1, with a token that loads, of an op
    of the table, with no field the op does not have and with its arguments (a
    string where one is due, the default where one is left out, a flag, hex or
    text) asks for exactly one thing, and then the repository is left as the
    one call leaves it; the answer is an object with exactly the fields of the
    op, in which a client reads back what the call answered (the bytes of a
    file behind their hex, ids behind theirs, the rows of a listing in order),
    or the error of the call, or its panic.  A seal with [attest] is a seal and then a check
    of its tag, and that check's error is the answer.  Any other request is
    refused by an error and changes nothing.  And a sound repository stays
    sound, if the clock is within 64 bits and the call is made with the care
    that [careful] asks of it. *)
Theorem requests_are_single_calls (fuel : nat) (E : Env) (req : Request Value) (f f' : Forge St) (o : Result (Response Value))
    (Er : dispatch fuel E req f = (o, f')) :
  request_outcome fuel E req f o f' /\
  (sound_repo f -> clock E -> (forall cap, load_cap (en_key E) (rq_cap _ req) = Ok cap -> careful_request f E cap req) -> sound_repo f').
Proof.
  pose proof (wp_elim _ _ _ _ _ (dispatch_spec fuel E req f) Er) as H. split; [exact H|]. intros. by eapply outcome_sound.
Qed.

(** C7: A connection is served in order: when the bytes that arrive are the
    frames of some bodies and then no whole frame, what is sent is exactly the
    frames of the responses, one for each body and in their order, each made
    by the repository as the requests before left it; what does not parse is
    answered by an error and the connection goes on.  As many turns as there
    are bytes are enough. *)
Theorem connection_serves_in_order (from_slice : bytes -> outcome str (Request Value)) (to_vec : Response Value -> outcome str bytes)
    (fuel : nat) (E : nat -> Env) (f f' : Forge St) (bufs outs : list bytes) (tail sent : bytes)
    (Hr : replies from_slice to_vec fuel E 0 f bufs f' outs) (Hl : Forall (fun b => len b <= MAX_FRAME_BYTES) bufs) (Ht : no_frame tail) :
  let input := concat (frame <$> bufs) ++ tail in
  exists rest, handle_unix from_slice to_vec (S (length input)) fuel E (mkConn input sent f 0) =
    mkConn rest (sent ++ concat (frame <$> outs)) f' (length bufs).
Proof.
  cbv zeta. destruct (replies_served _ _ _ _ _ _ _ _ _ Hr Hl tail sent (S (length (concat (frame <$> bufs) ++ tail))) Ht) as [rest Hh].
  { pose proof (frames_long bufs tail). lia. }
  exists rest. by rewrite Hh, Nat.add_0_r.
Qed.

(** C8: HTTP hands on exactly the requests it accepts, POSTs below [/v1/] with
    a whole body of at most a megabyte of JSON, and answers 200 or the status
    of the class of the error; any other request is answered by 400, 404, 405
    or 413 and changes nothing. *)
Theorem http_hands_on (value_from_slice : bytes -> outcome str Value) (to_vec : Response Value -> outcome str bytes)
    (Hjson : forall b, no_panic (value_from_slice b)) (fuel : nat) (E : Env) (req : HttpRequest) (f f' : Forge St) (o : Result HttpResponse)
    (Er : http_request value_from_slice to_vec fuel E req f = (o, f')) :
  http_outcome value_from_slice to_vec fuel E req f o f'.
Proof. exact (wp_elim _ _ _ _ _ (http_spec value_from_slice to_vec Hjson fuel E req f) Er). Qed.
End properties.

(** ** Witnesses: a session is opened on a new repository, and used *)

#[local] Existing Instance sum_ed25519.
#[local] Existing Instance sum_ed25519_laws.

Definition demo_request : Request Value := mkRequest 1 7 (bs "session.open") (to_token demo_cap) (VObject []).
Definition demo_dispatch := dispatch (St:=Guarded MapLru) 0 demo_env demo_request demo_new.

(** A file is written in the session, and read back. *)
Definition demo_ask (op : str) (fields : list (str * Value)) : Request Value := mkRequest 1 8 op (to_token demo_cap) (json_object fields).
Definition demo_write := demo_ask (bs "ns.write") [(bs "ns", VString demo_ulid); (bs "path", VString (bs "/a")); (bs "text", VString (bs "hello"))].
Definition demo_read := demo_ask (bs "ns.read") [(bs "ns", VString demo_ulid); (bs "path", VString (bs "/a"))].
Definition demo_written := dispatch (St:=Guarded MapLru) 0 demo_env demo_write demo_dispatch.2.
Definition demo_answer := dispatch (St:=Guarded MapLru) 0 demo_env demo_read demo_written.2.

(** The bytes a client reads in an answer. *)
Definition answered_hex (o : Result (Response Value)) : option (Result bytes) :=
  match o with Ok resp => v ← rs_body resp; x ← get v (bs "hex"); h ← as_string x; Some (hex_decode h) | _ => None end.

Lemma demo_answer_hex : answered_hex demo_answer.1 = Some (Ok (bs "hello")).
Proof. vm_compute. reflexivity. Qed.

Lemma demo_careful cap : careful_request demo_new demo_env cap demo_request.
Proof.
  intros a call [Hop _] Hcall. destruct a; try (vm_compute in Hop; discriminate Hop). injection Hcall as <-. exact demo_fresh.
Qed.

Lemma demo_read_asks : asks demo_read (AskRead demo_ulid (bs "/a")).
Proof. split; [reflexivity|]. split; vm_compute; reflexivity. Qed.

(** What an answered read says of the repository. *)
Lemma read_back {St B} `{RL : RepoLaws St B} `{HM : Hmac} `{B3 : Blake3} `{ED : Ed25519} `{EL : !Ed25519Laws} fuel E req ns path data (f f' : Forge St) o :
  asks req (AskRead ns path) -> request_outcome fuel E req f o f' -> answered_hex o = Some (Ok data) ->
  exists cap v, o = Ok (Response_ok (rq_id _ req) v) /\ tells (AskRead ns path) data v /\ perform fuel E cap (AskRead ns path) f = (Ok data, f').
Proof.
  intros Ha (r & Hr & H) Hhex. unfold responded in Hr.
  destruct H as [(_ & [e ->] & _)|(_ & cap & a & _ & _ & Hone & Hc)]; [by rewrite Hr in Hhex|].
  rewrite <- (Hone _ Ha) in Hc. exists cap. unfold carried in Hc.
  destruct (perform fuel E cap (AskRead ns path) f) as [[x|e|] f1]; destruct Hc as [-> Hc]; [|by rewrite Hr, Hc in Hhex..].
  destruct Hc as (v & -> & h & Hh & Ho). rewrite Hr in Hhex.
  change ((x ← get v (bs "hex"); h ← as_string x; Some (hex_decode h)) = Some (Ok data)) in Hhex. rewrite (proj2 Ho (bs "hex")) in Hhex.
  change (Some (hex_decode h) = Some (Ok data)) in Hhex.
  rewrite Hh in Hhex. injection Hhex as <-. exists v. split; [done|]. split; [by exists h|done].
Qed.

Lemma demo_dispatch_runs : dispatch (St:=Guarded MapLru) 0 demo_env demo_request demo_new = (demo_dispatch.1, demo_dispatch.2).
Proof. unfold demo_dispatch. apply surjective_pairing. Qed.

Lemma demo_answer_runs : dispatch (St:=Guarded MapLru) 0 demo_env demo_read demo_written.2 = (demo_answer.1, demo_answer.2).
Proof. unfold demo_answer. apply surjective_pairing. Qed.

Lemma requests_are_single_calls_witness :
  sound_repo demo_dispatch.2 /\
  exists cap v, demo_answer.1 = Ok (Response_ok 8 v) /\ tells (AskRead demo_ulid (bs "/a")) (bs "hello") v /\
    perform 0 demo_env cap (AskRead demo_ulid (bs "/a")) demo_written.2 = (Ok (bs "hello"), demo_answer.2).
Proof.
  split.
  - exact (proj2 (requests_are_single_calls 0 demo_env demo_request demo_new demo_dispatch.2 demo_dispatch.1 demo_dispatch_runs)
      demo_new_sound demo_clock (fun cap _ => demo_careful cap)).
  - exact (read_back 0 demo_env demo_read demo_ulid (bs "/a") (bs "hello") demo_written.2 demo_answer.2 demo_answer.1 demo_read_asks
      (proj1 (requests_are_single_calls 0 demo_env demo_read demo_written.2 demo_answer.2 demo_answer.1 demo_answer_runs)) demo_answer_hex).
Defined.

Lemma demo_dispatch_ok : match demo_dispatch.1 with Ok resp => rs_ok resp | _ => false end = true.
Proof. vm_compute. reflexivity. Qed.

Definition demo_from_slice (b : bytes) : outcome str (Request Value) := if bytes_eqb b (bs "open") then Ok demo_request else Err (bs "garbage").
Definition demo_to_vec (r : Response Value) : outcome str bytes := Ok (if rs_ok r then bs "yes" else bs "no").

(** Two frames, the second of which is no request, and half of a third. *)
Lemma connection_serves_in_order_witness : exists rest f',
  handle_unix (St:=Guarded MapLru) demo_from_slice demo_to_vec (S (length (concat (frame <$> [bs "open"; bs "?"]) ++ [x00]))) 0 (fun _ => demo_env)
    (mkConn (concat (frame <$> [bs "open"; bs "?"]) ++ [x00]) [] demo_new 0) = mkConn rest ([] ++ concat (frame <$> [bs "yes"; bs "no"])) f' 2.
Proof.
  assert (exists f', replies (St:=Guarded MapLru) demo_from_slice demo_to_vec 0 (fun _ => demo_env) 0 demo_new [bs "open"; bs "?"] f' [bs "yes"; bs "no"]) as [f' Hr].
  { pose proof demo_dispatch_ok as Hok. destruct demo_dispatch as [[resp|e|] f1] eqn:Ed; [|discriminate Hok..]. cbn [fst] in Hok.
    exists f1. apply (replies_request _ _ _ _ _ _ _ demo_request resp _ f1); [reflexivity|exact Ed|by unfold demo_to_vec; rewrite Hok|].
    eapply (replies_garbage _ _ _ _ _ _ _ (bs "garbage")); [reflexivity|reflexivity|constructor]. }
  destruct (connection_serves_in_order demo_from_slice demo_to_vec 0 (fun _ => demo_env) demo_new f' _ _ [x00] [] Hr) as [rest H].
  - by repeat constructor.
  - intros body rest. vm_compute. discriminate.
  - by exists rest, f'.
Defined.

Definition demo_http : HttpRequest := mkHttpRequest true (bs "/v1/session.open") (Some (bs "Bearer " ++ to_token demo_cap)) [] false.
Definition demo_value_from_slice (b : bytes) : outcome str Value := Err (bs "garbage").
Definition demo_http_run := http_request (St:=Guarded MapLru) demo_value_from_slice demo_to_vec 0 demo_env demo_http demo_new.

Lemma demo_http_status : match demo_http_run.1 with Ok r => hs_status r | _ => 0 end = 200.
Proof. vm_compute. reflexivity. Qed.

Lemma http_hands_on_witness : exists op val, http_accepted demo_value_from_slice demo_http op val.
Proof.
  pose proof (http_hands_on demo_value_from_slice demo_to_vec (fun b => ltac:(done)) 0 demo_env demo_http demo_new demo_http_run.2 demo_http_run.1) as H.
  fold demo_http_run in H. pose proof demo_http_status as Hs. revert H Hs. generalize demo_http_run. intros [o f'] H Hs. cbn [fst snd] in *.
  destruct (H eq_refl) as [(_ & _ & r & -> & Hin)|(op & val & Ha & _)]; [|by exists op, val].
  exfalso. rewrite Hs in Hin. revert Hin. rewrite !elem_of_cons, elem_of_nil. lia.
Defined.
